(* ===== verification/_CoqProject ===== *)
-Q . S2P
Prelude.v
Numeric.v
Exchange.v
LedgerEntries.v
TransactionUtils.v
QuorumSet.v
LocalNode.v
Bucket.v
FutureBucket.v
BucketList.v
LedgerTxn.v
LedgerBatch.v
OfferBook.v
Ballots.v
BallotProtocol.v
BallotSafety.v
BallotRuns.v
LedgerState.v
LedgerLogic.v
OfferCross.v
Operations.v
OfferOperations.v
Neutral.v
Conservation.v
OperationsKeep.v
SubEntries.v
Invariants.v
InvariantManager.v
Signatures.v
Transactions.v
TransactionSafety.v
Upgrades.v
UpgradeLiabilities.v
UpgradeRuns.v
Termination.v
TransactionRuns.v
TxSet.v
TxSetOrder.v
TxSetProposal.v
TxSetRuns.v
LedgerClose.v
LedgerCloseFees.v
LedgerCloseRuns.v
Nomination.v
NominationSafety.v
NominationInputs.v
NominationRuns.v
HerderDriver.v
HerderValues.v
HerderRuns.v
HerderQueue.v
HerderQueueSafety.v
HerderQueueRuns.v
Checkpoints.v
VerifyChain.v
VerifyChainSafety.v
HeaderKept.v
CatchupStates.v
CatchupSafety.v
CatchupWork.v
Replay.v
ReplaySafety.v
NodeLedger.v
CatchupRuns.v
