(* ===== verification/Prelude.v ===== *)
(** * A verification library for essa-core

    essa-core is a replicated ledger node: peers agree on transaction sets with
    the SCP consensus protocol, apply them to a ledger of accounts, trust
    lines, offers and data entries, keep the ledger in an SQL database, and
    keep a second, hashed copy of it in a log-structured bucket list that new
    nodes catch up from.  This library models the core of the program in Rocq,
    from the C++ sources under src/src, and proves the properties that make
    each part correct.

    ** The parts, and the files that model them

    - Prelude: results of fallible code ([res]: a value or an exception),
      machine integers written as [Z] with the wrap-around spelled out, the
      tactics and the hint database of the library.
    - Numeric: util/numeric.cpp and the integer and price helpers of
      util/types.cpp.  [uint128_t], which is not in the repository, is the
      interface [UInt128] with the laws of 128-bit unsigned arithmetic.
    - Exchange: the arithmetic of crossing two offers in
      transactions/OfferExchange.cpp, protocol versions 2, 3 and 10.
    - LedgerEntries: the data of xdr/EssaBlockChain-ledger-entries.x and
      EssaBlockChain-ledger.x, keys, assets and headers.
    - TransactionUtils: the functions of transactions/TransactionUtils.cpp on
      entries: balances, liabilities, reserves, subentries, limits.
    - QuorumSet and LocalNode: scp/QuorumSetUtils.cpp and scp/LocalNode.cpp:
      slices, v-blocking sets, quorums, sanity, normalization, node weights and
      closest v-blocking sets.
    - Ballots, BallotProtocol, BallotSafety and BallotRuns: the ballot protocol of
      scp/BallotProtocol.cpp with what it uses of scp/Slot.cpp.  Ballots has the
      statements, their order and the predicates on them; BallotProtocol the
      state of a slot and every transition, with the driver as the interface
      [SCPContext] and the calls made to it as a list; BallotSafety the
      invariants over all executions; BallotRuns saving and restoring, sample
      executions, and the executions in which the code fails.
    - Bucket: bucket/Bucket.cpp, LedgerCmp.h and BucketOutputIterator.cpp.  A
      bucket is the list of the entries of its file; the order of assets, which
      comes from generated code, is the interface [AssetOrder].
    - FutureBucket: bucket/FutureBucket.cpp and FutureBucket.h, the state
      machine of a pending merge, with the background thread as a step and the
      archive that it is saved to.
    - BucketList: bucket/BucketList.cpp: eleven levels, [addBatch] and
      [restartMerges].
    - LedgerTxn: ledger/LedgerTxn.cpp: chains of nested transactions over the
      database root, their handles, sealing, commit and rollback, and the
      batched writes of the root.  The database is a finite map.
    - LedgerBatch: the end of ledger/LedgerManagerImpl.cpp, where the entries of
      a ledger go from its transaction to the bucket list and to the database.
    - OfferBook: [isBetterOffer] with IEEE doubles and the queries for the best
      offer of an asset pair through a chain of transactions and through the
      cache of the root.
    - LedgerState and LedgerLogic: the ledger transaction as the operations use it,
      a state monad over the entries and the header with the handles of
      LedgerTxn.cpp, and the rules that reason about programs in it.
    - OfferCross, Operations and OfferOperations: ledger/TrustLineWrapper.cpp, the
      crossing of offers against the book (OfferExchange.cpp) and every operation of
      transactions/*OpFrame.cpp, with their results.
    - Signatures: transactions/SignatureChecker.cpp and SignatureUtils.cpp.
    - Neutral, Conservation, OperationsKeep and SubEntries: what single steps do to
      the sum of the native coins and to the counts of sub-entries.
    - Invariants and InvariantManager: invariant/*.cpp: the checks on coins and on
      sub-entries, and the manager that runs them after each operation.
    - Transactions: transactions/TransactionFrame.cpp: validity, fees, sequence
      numbers and the application of the operations; TransactionSafety,
      Termination and TransactionRuns have the theorems and sample runs.
    - Upgrades, UpgradeLiabilities and UpgradeRuns: herder/Upgrades.cpp.
    - TxSet, TxSetOrder, TxSetProposal and TxSetRuns: herder/TxSetFrame.cpp and the
      part of HerderImpl::triggerNextLedger that makes a proposal.
    - LedgerClose, LedgerCloseFees and LedgerCloseRuns: closeLedger of
      ledger/LedgerManagerImpl.cpp, from the fees to the upgrades.
    - Nomination, NominationSafety, NominationInputs and NominationRuns: the
      nomination protocol of scp/NominationProtocol.cpp, its invariant over all
      inputs, and a run.
    - HerderDriver, HerderValues and HerderRuns: herder/HerderSCPDriver.cpp: what the
      Herder tells SCP about values (validation, extraction, combination of
      candidates), and the value that triggerNextLedger nominates.  The driver is an
      instance of the interface [NominationDriver] that the nomination protocol is
      proved against.
    - HerderQueue, HerderQueueSafety and HerderQueueRuns: the pending transactions of
      herder/HerderImpl.cpp.
    - Checkpoints: the arithmetic of history/HistoryManagerImpl.cpp on checkpoints,
      ledger/LedgerRange.cpp, ledger/CheckpointRange.cpp,
      catchup/CatchupConfiguration.cpp and the range of catchup/CatchupWork.cpp.
    - VerifyChain and VerifyChainSafety: catchup/VerifyLedgerChainWork.cpp.  An
      archive is a function from checkpoints to the contents of its files, which may
      be anything.
    - HeaderKept and NodeLedger: what closing a ledger does to the fields that link
      its header to the one before, and the ledger of a node as an instance of the
      interface [LedgerCloser] that the catch-up is proved against.
    - CatchupStates and CatchupSafety: the state machine of
      ledger/LedgerManagerImpl.cpp for externalized values and catch-up, with
      ledger/SyncingLedgerChain.cpp and catchup/CatchupManagerImpl.cpp, and the
      catch-ups that an operator starts (main/CommandHandler.cpp).
    - CatchupWork: the stages of catchup/CatchupWork.cpp.
    - Replay and ReplaySafety: catchup/ApplyLedgerChainWork.cpp.
    - CatchupRuns: a history of ledgers, an archive of it, and runs on them.

    State is passed explicitly.  A function that can throw or fail an [assert]
    returns [res]; the theorems say when it does not.  Containers whose order
    does not matter are finite maps; where the code iterates over a hash map the
    model iterates over the list of the map.

    ** What the theorems show

    - The wide divisions are exact for every input ([bigDivide_exact],
      [bigDivide128_exact]).
    - An exchange respects the limits of both sides, favours the offer that
      stays in the book, never trades further than one percent from the price,
      and equals the exchange over unbounded integers
      ([exchangeV10_guarantees], [exchangeV10WithoutPriceErrorThresholds_refines]
      and the theorems on path payments, adjusted offers and old versions).
    - Updates of an entry keep balances, liabilities, limits and reserves
      consistent and are exact ([addBalance_exact],
      [entry_ops_preserve_invariant]).
    - v-blocking is the dual of slices, [isQuorum] computes the greatest
      self-sufficient set, sanity and normalization mean what they should
      ([isVBlocking_iff_no_slice_avoids], [isQuorum_correct],
      [isQuorumSetSane_correct], [normalizeQSet_preserves]), weights and closest
      blocking sets ([getNodeWeight_positive_iff_member],
      [findClosestVBlocking_correct]).
    - Whatever its peers send, a slot externalizes at most one value, keeps the
      value it accepted to commit, externalizes only with a quorum, emits newer
      and newer envelopes, and finishes every input ([slot_externalizes_once],
      [externalize_needs_quorum], [emitted_envelopes_increase],
      [processing_terminates], [receiveEnvelope_effect],
      [restore_statement_roundtrip], [isNewerStatement_strict_order],
      [findExtendedInterval_correct]).
    - Merging buckets is the expected function of sorted maps
      ([merge_correct], [fresh_correct]); a pending merge gives the same bucket
      whether or not it is saved and restarted ([future_bucket_lifecycle]).
    - The bucket list refines a map of live entries under any interleaving of
      batches, background merges and restarts ([bucket_list_refines_map],
      [restart_transparent], [levelShouldSpill_schedule]).
    - Ledger transactions refine maps and are atomic
      ([entry_operations_refine_map], [nested_transaction_atomic],
      [getChanges_describes]), and after each ledger the bucket list and the
      database agree ([ledger_close_agrees]).
    - The best offer is the best one ([getBestOffer_correct],
      [best_offers_cache_transparent], [offer_queries_read_view]).
    - The signature checker counts each signer once ([checkSignature_sound]); a
      transaction that fails leaves only the sequence number of its source and the
      removal of its own pre-authorization ([failed_transaction_leaves_bookkeeping]),
      its fee goes to the pool
      ([fee_moves_to_pool]), a stale one is refused
      ([stale_transaction_is_refused]), and operations violate no invariant that
      the manager checks ([operation_violates_no_invariant]).
    - Closing a ledger conserves the coins and the counts of sub-entries and ends
      ([ledger_conserves_coins], [ledger_keeps_subentry_counts],
      [ledger_close_ends]); a valid transaction set pays its fees
      ([valid_set_pays_fees]); what a node proposes is valid
      ([proposed_set_is_valid]) and is applied in the same order everywhere
      ([apply_order_canonical]).
    - An upgrade is proposed, accepted, applied and forgotten as it should, and the
      one to version 10 makes liabilities match the offers
      ([proposed_upgrade_lifecycle], [version_upgrade_matches_offers]); an increase
      of the reserve can leave liabilities of erased offers
      ([reserve_upgrade_leaves_liabilities]).
    - Nomination handles every input, respects quorums, only grows, and makes
      progress ([nomination_handles_inputs], [nomination_respects_quorums],
      [nominations_grow], [nomination_progress]).
    - With the driver of the Herder the composite of valid candidates is valid, the
      ballots that nomination starts are valid, and so is the value that a node
      proposes ([composite_is_valid], [nominated_ballot_is_valid],
      [proposed_value_is_valid]); the value extracted from an invalid one need not be
      ([extracted_value_can_be_invalid]).
    - The queue of pending transactions stays well formed, never holds more fees of an
      account than it can pay, and forgets transactions after four ledgers
      ([pending_queue_is_consistent], [pending_fees_are_covered],
      [pending_transactions_expire]).
    - The range of a catch-up begins where the ledger ends or at a checkpoint whose
      buckets are applied ([catchup_range_connects]).  Whatever an archive contains,
      verification ends ([verification_ends]), and every entry it accepts is an ancestor
      of the trusted ledger, whose hash fixes the headers up to collisions; an honest
      archive is accepted ([verified_chain_is_linked], [trusted_hash_fixes_history],
      [honest_history_verifies]).  Two neighbouring files are linked unless the second
      begins with ledger 1.
    - A closed ledger follows the one before ([closed_header_follows]); a replay of
      verified files ends at the trusted ledger, and ends
      ([replay_reaches_trusted_ledger], [replay_ends]).
    - The ledger manager handles every sequence of externalized values and progress
      of a catch-up, closes a chain of ledgers, and gets in sync when the catch-up is
      done ([catchup_events_are_handled], [closed_ledgers_form_a_chain],
      [catchup_completes]); the one assertion that can fail is that on the first
      buffered ledger, after a catch-up that an operator has started; the stages of a catch-up come in order
      ([catchup_stages_in_order]).

    ** Fuel

    Ten recursions are not structural and take fuel: the removal loop of
    [isQuorum], whose fuel is the number of nodes (each round removes one), the
    loop of [merge], whose fuel is the number of entries of both inputs (each
    round consumes one), the batch loop of the root's best offer, whose fuel
    is the number of rows (each round that goes on loads five), the recursion of
    the ballot protocol through its own statements, which the code stops at 50
    levels, its loop that follows the counters of other nodes, which goes on
    only while the phase changes, the loop of [convertWithOffers], whose fuel is one
    more than the offers of the pair (each round takes one off the book), the
    recursion of nomination through its own statements ([nomination_fuel]: each
    level adds a vote or an accepted value, of those that are known), and the three
    works of a catch-up, which the scheduler runs again while they are not done:
    verification with a round for every checkpoint, replay with a round for every
    header and file, and the eight rounds of the stages.  The theorems on them show
    that the fuel is enough.

    ** What is not modelled

    Networking, the upload and download of history, processes, SQL text, hashing,
    files, metrics, logging and configuration: input and output, or libraries that
    the sources only call.  Of a catch-up, the children that download files or load
    buckets are inputs of the stages, and the scheduling of works is left out.
    Hashes, public keys, signatures and the order of assets are opaque or interfaces.  The caches of the database root are modelled only
    for the best offers.  Of the invariants, those on single entries, on liabilities
    and on the database are left out; of the Herder, the queue of envelopes whose
    transaction sets are being fetched, its timers and what it saves. *)
From stdpp Require Export base tactics option list list_numbers gmap strings.
From Stdlib Require Export ZArith Lia.
#[global] Open Scope Z_scope.

(** ** Results of fallible code

    C++ code that returns normally, throws or fails an [assert] is a term of
    type [res A].  [XdrWrongUnion] is what the accessors of a generated union
    throw when another arm is selected; [NullPointer] is the use of an empty
    pointer, which is undefined in C++.  [OutOfFuel] is not an exception of the
    program: a definition whose recursion is bounded by fuel returns it when the
    fuel is used up. *)

Inductive exn :=
| RuntimeError (msg : string)
| OverflowError (msg : string)
| AssertFailed
| XdrWrongUnion
| NullPointer
(** the use of a reference to an object that has been destroyed *)
| DanglingReference
| InvalidArgument (msg : string)
| InvariantDoesNotHold
| OutOfFuel.

Inductive res (A : Type) :=
| Ok (a : A)
| Throw (e : exn).
Arguments Ok {A} a.
Arguments Throw {A} e.

#[export] Instance exn_eq_dec : EqDecision exn.
Proof. solve_decision. Defined.

#[export] Instance res_ret : MRet res := fun A a => Ok a.
#[export] Instance res_bind : MBind res := fun A B f m =>
  match m with Ok a => f a | Throw e => Throw e end.

(** [assert(b)] *)
Definition assert_ (b : bool) : res unit :=
  if b then Ok tt else Throw AssertFailed.

Definition is_ok {A} (r : res A) : bool :=
  match r with Ok _ => true | Throw _ => false end.

Lemma bind_ok {A B} (f : A -> res B) a : (Ok a ≫= f) = f a.
Proof. reflexivity. Qed.

Lemma bind_throw {A B} (f : A -> res B) e : (Throw e ≫= f) = Throw e.
Proof. reflexivity. Qed.

Lemma bind_ok_inv {A B} (m : res A) (f : A -> res B) b :
  (m ≫= f) = Ok b -> exists a, m = Ok a /\ f a = Ok b.
Proof. destruct m; [by eauto | done]. Qed.

Lemma assert_true b : b = true -> assert_ b = Ok tt.
Proof. by intros ->. Qed.

Lemma assert_ok_inv b u : assert_ b = Ok u -> b = true.
Proof. by destruct b. Qed.

(** ** Machine integers

    A w-bit integer is a [Z]; the casts below write out the reduction that
    the C++ conversions and arithmetic perform.  Signed arithmetic that
    leaves the range is undefined in C++; it is given the two's complement
    value here, and the theorems about a component show that it does not
    happen in the states the component works on. *)

Definition INT32_MAX : Z := 2147483647.
Definition INT32_MIN : Z := -2147483648.
Definition UINT32_MAX : Z := 4294967295.
Definition INT64_MAX : Z := 9223372036854775807.
Definition INT64_MIN : Z := -9223372036854775808.
Definition UINT64_MAX : Z := 18446744073709551615.
Definition UINT128_MAX : Z := 340282366920938463463374607431768211455.

Definition u32 (x : Z) : Z := x mod (UINT32_MAX + 1).
Definition u64 (x : Z) : Z := x mod (UINT64_MAX + 1).
Definition i32 (x : Z) : Z := (x - INT32_MIN) mod (UINT32_MAX + 1) + INT32_MIN.
Definition i64 (x : Z) : Z := (x - INT64_MIN) mod (UINT64_MAX + 1) + INT64_MIN.

Definition is_u32 (x : Z) : Prop := 0 <= x <= UINT32_MAX.
Definition is_u64 (x : Z) : Prop := 0 <= x <= UINT64_MAX.
Definition is_i32 (x : Z) : Prop := INT32_MIN <= x <= INT32_MAX.
Definition is_i64 (x : Z) : Prop := INT64_MIN <= x <= INT64_MAX.
(** a non-negative [int64_t]: an amount, a limit or a balance *)
Definition is_amount (x : Z) : Prop := 0 <= x <= INT64_MAX.

Ltac unfold_ints :=
  unfold is_amount, is_u32, is_u64, is_i32, is_i64, u32, u64, i32, i64,
    INT32_MAX, INT32_MIN, UINT32_MAX, INT64_MAX, INT64_MIN, UINT64_MAX,
    UINT128_MAX in *.

(** linear goals about machine integers *)
Ltac zlia := unfold_ints; lia.

Lemma u64_id x : is_u64 x -> u64 x = x.
Proof. unfold_ints; intros; apply Z.mod_small; lia. Qed.

Lemma u32_id x : is_u32 x -> u32 x = x.
Proof. unfold_ints; intros; apply Z.mod_small; lia. Qed.

Lemma i64_id x : is_i64 x -> i64 x = x.
Proof. unfold_ints; intros; rewrite Z.mod_small; lia. Qed.

Lemma i32_id x : is_i32 x -> i32 x = x.
Proof. unfold_ints; intros; rewrite Z.mod_small; lia. Qed.

Lemma i64_range x : is_i64 (i64 x).
Proof. unfold_ints; pose proof (Z.mod_pos_bound (x - -9223372036854775808) (18446744073709551615 + 1)); lia. Qed.

Lemma u64_range x : is_u64 (u64 x).
Proof. unfold_ints; pose proof (Z.mod_pos_bound x (18446744073709551615 + 1)); lia. Qed.

Lemma u32_range x : is_u32 (u32 x).
Proof. unfold_ints; pose proof (Z.mod_pos_bound x (4294967295 + 1)); lia. Qed.

(** the casts are congruences *)
Lemma i64_add_l a b : i64 (i64 a + b) = i64 (a + b).
Proof.
  unfold i64. f_equal.
  replace ((a - INT64_MIN) mod (UINT64_MAX + 1) + INT64_MIN + b - INT64_MIN)
    with ((a - INT64_MIN) mod (UINT64_MAX + 1) + b) by lia.
  rewrite Z.add_mod_idemp_l by (unfold_ints; lia). f_equal. lia.
Qed.
Lemma i64_add_r a b : i64 (a + i64 b) = i64 (a + b).
Proof. rewrite Z.add_comm, i64_add_l. f_equal. lia. Qed.
Lemma i64_opp a : i64 (- i64 a) = i64 (- a).
Proof.
  pose proof (i64_add_l a (- i64 a - a)) as H.
  replace (i64 a + (- i64 a - a)) with (- a) in H by lia.
  replace (a + (- i64 a - a)) with (- i64 a) in H by lia. done.
Qed.
Lemma i64_sub_l a b : i64 (i64 a - b) = i64 (a - b).
Proof. unfold Z.sub. apply i64_add_l. Qed.
Lemma i64_sub_r a b : i64 (a - i64 b) = i64 (a - b).
Proof. unfold Z.sub. rewrite <- i64_add_r, i64_opp, i64_add_r. done. Qed.
Lemma i64_idemp a : i64 (i64 a) = i64 a.
Proof. pose proof (i64_add_l a 0) as H. by rewrite !Z.add_0_r in H. Qed.

(** ** Equality modulo 2 ^ 32

    The 32-bit casts do not change a number modulo 2 ^ 32, and sums and
    differences respect that equivalence, so that casts inside a sum are
    rewritten away. *)
Definition eqm32 (x y : Z) : Prop := exists k, x = y + k * 2 ^ 32.

#[export] Instance eqm32_equiv : Equivalence eqm32.
Proof.
  split.
  - intros x. exists 0. lia.
  - intros x y [k ->]. exists (- k). lia.
  - intros x y z [k ->] [l ->]. exists (k + l). lia.
Qed.
#[export] Instance eqm32_add : Proper (eqm32 ==> eqm32 ==> eqm32) Z.add.
Proof. intros x x' [k ->] y y' [l ->]. exists (k + l). lia. Qed.
#[export] Instance eqm32_sub : Proper (eqm32 ==> eqm32 ==> eqm32) Z.sub.
Proof. intros x x' [k ->] y y' [l ->]. exists (k - l). lia. Qed.

Lemma eqm32_eq x y : x = y -> eqm32 x y.
Proof. by intros ->. Qed.
Lemma i32_eqm x : eqm32 (i32 x) x.
Proof.
  exists (- ((x - INT32_MIN) / (UINT32_MAX + 1))). unfold i32.
  pose proof (Z.div_mod (x - INT32_MIN) (UINT32_MAX + 1)). unfold_ints. lia.
Qed.
Lemma u32_eqm x : eqm32 (u32 x) x.
Proof.
  exists (- (x / (UINT32_MAX + 1))). unfold u32.
  pose proof (Z.div_mod x (UINT32_MAX + 1)). unfold_ints. lia.
Qed.
Lemma i32_congr x y : eqm32 x y -> i32 x = i32 y.
Proof.
  intros [k ->]. unfold i32. f_equal.
  replace (y + k * 2 ^ 32 - INT32_MIN) with (y - INT32_MIN + k * (UINT32_MAX + 1)) by (unfold_ints; lia).
  apply Z.mod_add. unfold_ints. lia.
Qed.

(** [i32 x = i32 y] where [x] and [y] are equal up to 32-bit casts *)
Ltac i32_solve :=
  apply i32_congr; rewrite ?i32_eqm, ?u32_eqm; repeat (first [rewrite i32_eqm | rewrite u32_eqm]);
  apply eqm32_eq; lia.

Create HintDb essa.
#[export] Hint Resolve i64_range u64_range u32_range : essa.

(** ** Boolean comparisons of the code

    [zb] turns the boolean tests of the hypotheses and of the goal into
    propositions over [Z]. *)

Ltac zb :=
  repeat match goal with
  | H : (_ <? _) = true |- _ => apply Z.ltb_lt in H
  | H : (_ <? _) = false |- _ => apply Z.ltb_ge in H
  | H : (_ <=? _) = true |- _ => apply Z.leb_le in H
  | H : (_ <=? _) = false |- _ => apply Z.leb_gt in H
  | H : (_ =? _) = true |- _ => apply Z.eqb_eq in H
  | H : (_ =? _) = false |- _ => apply Z.eqb_neq in H
  | H : (_ >? _) = _ |- _ => rewrite Z.gtb_ltb in H
  | H : (_ >=? _) = _ |- _ => rewrite Z.geb_leb in H
  | H : negb _ = true |- _ => apply negb_true_iff in H
  | H : negb _ = false |- _ => apply negb_false_iff in H
  | H : (_ && _)%bool = true |- _ => apply andb_true_iff in H as [? ?]
  | H : (_ || _)%bool = false |- _ => apply orb_false_iff in H as [? ?]
  end.

(** split the first [if] of the goal, keeping the test as a proposition *)
Ltac split_if :=
  match goal with
  | |- context [if ?b then _ else _] =>
      let E := fresh "E" in destruct b eqn:E; zb
  end.

(** ** Division with rounding *)

Lemma div_bounds a c : 0 < c -> c * (a / c) <= a < c * (a / c) + c.
Proof. intros; pose proof (Z.mul_div_le a c); pose proof (Z.mul_succ_div_gt a c); lia. Qed.

Lemma div_unique_bounds a c q : 0 < c -> c * q <= a < c * q + c -> a / c = q.
Proof. intros Hc Hq; symmetry; apply Z.div_unique with (r := a - c * q); lia. Qed.

Lemma div_up_bounds a c : 0 < c -> a <= c * ((a + c - 1) / c) < a + c.
Proof. intros; pose proof (div_bounds (a + c - 1) c); lia. Qed.

Lemma div_up_unique_bounds a c q :
  0 < c -> a <= c * q < a + c -> (a + c - 1) / c = q.
Proof. intros; apply div_unique_bounds; lia. Qed.

Lemma div_nonneg a c : 0 <= a -> 0 < c -> 0 <= a / c.
Proof. intros; apply Z.div_pos; lia. Qed.
#[export] Hint Resolve div_nonneg : essa.

(** ** Loops that thread a state and can return early

    [loop_opt f l st] runs [f] on the elements in order; [None] is an early
    exit.  The recursion is inside, so that [f] may be a recursive call of a
    function on a nested type. *)
Definition loop_opt {A St} (f : A -> St -> option St) : list A -> St -> option St :=
  fix go (l : list A) (st : St) : option St :=
    match l with
    | [] => Some st
    | x :: l' => match f x st with None => None | Some st' => go l' st' end
    end.

Lemma elem_of_take_sub {A} (x : A) k l : x ∈ take k l -> x ∈ l.
Proof. intros H. rewrite <- (take_drop k l). set_solver. Qed.
