(* ===== verification/Numeric.v ===== *)
(** * Wide arithmetic (src/src/util/numeric.cpp) and the arithmetic helpers of
    src/src/util/types.cpp

    [uint128_t] comes from lib/util/uint128_t.h, which is not part of the
    repository: it is the interface [UInt128], an unsigned 128-bit integer
    with the usual modular operations.  [Z_uint128] is an implementation of
    it.  The overloads of [bigDivide] are told apart by suffixes. *)
From S2P Require Import Prelude.

(** ** The 128-bit integer interface *)

Class UInt128 := {
  uint128 : Type;
  u128_val : uint128 -> Z;
  u128_of : Z -> uint128;
  u128_add : uint128 -> uint128 -> uint128;
  u128_sub : uint128 -> uint128 -> uint128;
  u128_mul : uint128 -> uint128 -> uint128;
  u128_div : uint128 -> uint128 -> uint128;
  u128_not : uint128 -> uint128;
  u128_ltb : uint128 -> uint128 -> bool;
  u128_range : forall x, 0 <= u128_val x <= UINT128_MAX;
  u128_of_val : forall z, u128_val (u128_of z) = z mod (UINT128_MAX + 1);
  u128_add_val : forall x y,
    u128_val (u128_add x y) = (u128_val x + u128_val y) mod (UINT128_MAX + 1);
  u128_sub_val : forall x y,
    u128_val (u128_sub x y) = (u128_val x - u128_val y) mod (UINT128_MAX + 1);
  u128_mul_val : forall x y,
    u128_val (u128_mul x y) = (u128_val x * u128_val y) mod (UINT128_MAX + 1);
  u128_div_val : forall x y, u128_val y <> 0 ->
    u128_val (u128_div x y) = u128_val x / u128_val y;
  u128_not_val : forall x, u128_val (u128_not x) = UINT128_MAX - u128_val x;
  u128_ltb_val : forall x y, u128_ltb x y = (u128_val x <? u128_val y)
}.

(** An implementation of the interface: integers with explicit reduction. *)
Program Definition Z_uint128 : UInt128 := {|
  uint128 := Z;
  u128_val := fun x => x mod (UINT128_MAX + 1);
  u128_of := fun z => z mod (UINT128_MAX + 1);
  u128_add := fun x y => (x + y) mod (UINT128_MAX + 1);
  u128_sub := fun x y => (x - y) mod (UINT128_MAX + 1);
  u128_mul := fun x y => (x * y) mod (UINT128_MAX + 1);
  u128_div := fun x y =>
    (x mod (UINT128_MAX + 1)) / (y mod (UINT128_MAX + 1));
  u128_not := fun x => UINT128_MAX - x mod (UINT128_MAX + 1);
  u128_ltb := fun x y =>
    x mod (UINT128_MAX + 1) <? y mod (UINT128_MAX + 1)
|}.
Next Obligation.
  intros x. pose proof (Z.mod_pos_bound x (UINT128_MAX + 1)). zlia.
Qed.
Next Obligation. intros. apply Z.mod_mod. done. Qed.
Next Obligation.
  intros. cbn. rewrite Z.mod_mod by done. apply Zplus_mod.
Qed.
Next Obligation.
  intros. cbn. rewrite Z.mod_mod by done. apply Zminus_mod.
Qed.
Next Obligation.
  intros. cbn. rewrite Z.mod_mod by done. apply Zmult_mod.
Qed.
Next Obligation.
  intros x y Hy. cbn in *.
  set (M := UINT128_MAX + 1) in *. assert (0 < M) by (unfold M; zlia).
  pose proof (Z.mod_pos_bound x M). pose proof (Z.mod_pos_bound y M).
  rewrite Z.mod_small; [done|]. split; [apply Z.div_pos; lia|].
  apply Z.le_lt_trans with (x mod M); [|lia].
  apply Z.div_le_upper_bound; nia.
Qed.
Next Obligation.
  intros. cbn. pose proof (Z.mod_pos_bound x (UINT128_MAX + 1)).
  rewrite Z.mod_small; zlia.
Qed.
Next Obligation. reflexivity. Qed.

Inductive Rounding := ROUND_DOWN | ROUND_UP.

#[export] Instance Rounding_eq_dec : EqDecision Rounding.
Proof. solve_decision. Defined.

Section BigDivide.
Context {U : UInt128}.

(** [bool bigDivide(uint64_t& result, uint64_t A, uint64_t B, uint64_t C,
    Rounding)]: the flag and the new value of [result] *)
Definition bigDivide_u64 (A B C : Z) (rounding : Rounding) : bool * Z :=
  let a := u128_of A in
  let b := u128_of B in
  let c := u128_of C in
  let x :=
    if bool_decide (rounding = ROUND_DOWN) then u128_div (u128_mul a b) c
    else u128_div (u128_sub (u128_add (u128_mul a b) c) (u128_of 1)) c in
  let result := u64 (u128_val x) in
  (negb (u128_ltb (u128_of UINT64_MAX) x), result).

(** [bool bigDivide(int64_t& result, int64_t A, int64_t B, int64_t C,
    Rounding)]; [result] is the value of the reference before the call *)
Definition bigDivide_i64 (result A B C : Z) (rounding : Rounding)
    : res (bool * Z) :=
  _ ← assert_ ((A >=? 0) && (B >=? 0) && (C >? 0));
  let '(ok, r2) := bigDivide_u64 (u64 A) (u64 B) (u64 C) rounding in
  if ok then Ok (r2 <=? INT64_MAX, i64 r2) else Ok (false, result).

(** [int64_t bigDivide(int64_t A, int64_t B, int64_t C, Rounding)] *)
Definition bigDivide (A B C : Z) (rounding : Rounding) : res Z :=
  '(ok, r) ← bigDivide_i64 0 A B C rounding;
  if (ok : bool) then Ok r
  else Throw (OverflowError "overflow while performing bigDivide").

(** [bool bigDivide(uint64_t& result, uint128_t a, uint64_t B, Rounding)] *)
Definition bigDivide128_u64 (result : Z) (a : uint128) (B : Z)
    (rounding : Rounding) : res (bool * Z) :=
  _ ← assert_ (negb (B =? 0));
  let b := u128_of B in
  let UINT128_MAX := u128_not (u128_of 0) in
  if (bool_decide (rounding = ROUND_UP)
      && u128_ltb (u128_sub UINT128_MAX (u128_sub b (u128_of 1))) a)%bool
  then Ok (false, result)
  else
    let x :=
      if bool_decide (rounding = ROUND_DOWN) then u128_div a b
      else u128_div (u128_sub (u128_add a b) (u128_of 1)) b in
    Ok (negb (u128_ltb (u128_of UINT64_MAX) x), u64 (u128_val x)).

(** [bool bigDivide(int64_t& result, uint128_t a, int64_t B, Rounding)] *)
Definition bigDivide128_i64 (result : Z) (a : uint128) (B : Z)
    (rounding : Rounding) : res (bool * Z) :=
  _ ← assert_ (B >? 0);
  '(ok, r2) ← bigDivide128_u64 0 a (u64 B) rounding;
  if (ok : bool) then Ok (r2 <=? INT64_MAX, i64 r2) else Ok (false, result).

(** [int64_t bigDivide(uint128_t a, int64_t B, Rounding)] *)
Definition bigDivide128 (a : uint128) (B : Z) (rounding : Rounding) : res Z :=
  '(ok, r) ← bigDivide128_i64 0 a B rounding;
  if (ok : bool) then Ok r
  else Throw (OverflowError "overflow while performing bigDivide").

(** [uint128_t bigMultiply(uint64_t a, uint64_t b)] *)
Definition bigMultiply_u64 (a b : Z) : uint128 :=
  u128_mul (u128_of a) (u128_of b).

(** [uint128_t bigMultiply(int64_t a, int64_t b)] *)
Definition bigMultiply (a b : Z) : res uint128 :=
  _ ← assert_ ((a >=? 0) && (b >=? 0));
  Ok (bigMultiply_u64 (u64 a) (u64 b)).

(** ** What the routines compute

    [div_round] is division of unbounded integers in the given direction. *)

Definition div_round (rounding : Rounding) (a c : Z) : Z :=
  match rounding with
  | ROUND_DOWN => a / c
  | ROUND_UP => (a + c - 1) / c
  end.

Lemma div_round_nonneg r a c : 0 <= a -> 0 < c -> 0 <= div_round r a c.
Proof. destruct r; intros; apply Z.div_pos; lia. Qed.

Lemma div_round_le_iff_down a c m :
  0 < c -> div_round ROUND_DOWN a c <= m <-> a < c * (m + 1).
Proof. cbn; intros; pose proof (div_bounds a c); split; nia. Qed.

Lemma div_round_le_iff_up a c m :
  0 < c -> div_round ROUND_UP a c <= m <-> a <= c * m.
Proof. cbn; intros; pose proof (div_up_bounds a c); split; nia. Qed.

Lemma u128_of_small z : 0 <= z <= UINT128_MAX -> u128_val (u128_of z) = z.
Proof. intros; rewrite u128_of_val, Z.mod_small; zlia. Qed.

Lemma u128_mul_small x y :
  u128_val x * u128_val y <= UINT128_MAX ->
  u128_val (u128_mul x y) = u128_val x * u128_val y.
Proof.
  intros; rewrite u128_mul_val.
  pose proof (u128_range x); pose proof (u128_range y).
  rewrite Z.mod_small; [done|]. split; [nia|zlia].
Qed.

Lemma u128_add_small x y :
  u128_val x + u128_val y <= UINT128_MAX ->
  u128_val (u128_add x y) = u128_val x + u128_val y.
Proof.
  intros; rewrite u128_add_val.
  pose proof (u128_range x); pose proof (u128_range y).
  rewrite Z.mod_small; zlia.
Qed.

Lemma u128_sub_small x y :
  u128_val y <= u128_val x ->
  u128_val (u128_sub x y) = u128_val x - u128_val y.
Proof.
  intros; rewrite u128_sub_val.
  pose proof (u128_range x); pose proof (u128_range y).
  rewrite Z.mod_small; zlia.
Qed.

Lemma bigDivide_u64_spec A B C r :
  is_u64 A -> is_u64 B -> 0 < C <= UINT64_MAX ->
  bigDivide_u64 A B C r =
    (div_round r (A * B) C <=? UINT64_MAX, u64 (div_round r (A * B) C)).
Proof.
  intros HA HB HC.
  assert (0 <= A * B <= UINT64_MAX * UINT64_MAX) as HAB by (unfold_ints; nia).
  assert (u128_val (u128_mul (u128_of A) (u128_of B)) = A * B) as Hm.
  { rewrite u128_mul_small; rewrite !u128_of_small; zlia. }
  assert (u128_val (u128_of C) = C) as Hc by (apply u128_of_small; zlia).
  unfold bigDivide_u64. rewrite u128_ltb_val, u128_of_small by zlia.
  rewrite <- Z.leb_antisym.
  destruct r; cbn [div_round]; [rewrite bool_decide_true by done|rewrite bool_decide_false by done].
  - rewrite u128_div_val, Hm, Hc by lia. done.
  - rewrite u128_div_val, Hc by lia.
    rewrite u128_sub_small; rewrite u128_add_small; rewrite ?Hm, ?Hc, ?(u128_of_small 1);
      try zlia. done.
Qed.

(** the 64-bit signed overload: exact quotient when it fits, a failure flag
    (and an unspecified output value) otherwise *)
Lemma bigDivide_i64_spec r0 A B C r :
  is_amount A -> is_amount B -> 0 < C <= INT64_MAX ->
  let q := div_round r (A * B) C in
  (q <= INT64_MAX -> bigDivide_i64 r0 A B C r = Ok (true, q)) /\
  (INT64_MAX < q -> exists x, bigDivide_i64 r0 A B C r = Ok (false, x)).
Proof.
  intros HA HB HC q. unfold bigDivide_i64.
  rewrite assert_true, bind_ok, !u64_id, bigDivide_u64_spec by zlia. fold q.
  assert (0 <= q) by (apply div_round_nonneg; zlia).
  split; intros Hq.
  - replace (q <=? UINT64_MAX) with true by (symmetry; zlia).
    rewrite u64_id, i64_id by zlia. do 2 f_equal. zlia.
  - destruct (Z.leb_spec q UINT64_MAX); [|by eauto].
    rewrite u64_id by zlia. eexists. do 3 f_equal. zlia.
Qed.

(** For non-negative operands and a positive divisor the throwing
    [bigDivide] returns the exactly rounded quotient of the unbounded product
    whenever that quotient fits in an [int64_t], and throws otherwise; no
    intermediate value wraps. *)
Theorem bigDivide_exact A B C r :
  is_amount A -> is_amount B -> 0 < C <= INT64_MAX ->
  bigDivide A B C r =
    if div_round r (A * B) C <=? INT64_MAX then Ok (div_round r (A * B) C)
    else Throw (OverflowError "overflow while performing bigDivide").
Proof.
  intros HA HB HC. destruct (bigDivide_i64_spec 0 A B C r HA HB HC) as [Hok Hov].
  unfold bigDivide. split_if.
  - by rewrite Hok by done.
  - destruct Hov as [x ->]; [lia|done].
Qed.

Lemma bigDivide_ok A B C r :
  is_amount A -> is_amount B -> 0 < C <= INT64_MAX ->
  div_round r (A * B) C <= INT64_MAX ->
  bigDivide A B C r = Ok (div_round r (A * B) C).
Proof.
  intros HA HB HC Hq. unfold bigDivide.
  by rewrite (proj1 (bigDivide_i64_spec 0 A B C r HA HB HC) Hq).
Qed.

Lemma bigDivide128_u64_spec r0 a B r :
  0 < B <= UINT64_MAX ->
  let q := div_round r (u128_val a) B in
  (q <= UINT64_MAX -> bigDivide128_u64 r0 a B r = Ok (true, q)) /\
  (UINT64_MAX < q -> exists x, bigDivide128_u64 r0 a B r = Ok (false, x)).
Proof.
  intros HB q. unfold bigDivide128_u64.
  rewrite assert_true by (apply negb_true_iff; lia). cbn [mbind res_bind].
  assert (u128_val (u128_of B) = B) as Hb by (apply u128_of_small; zlia).
  assert (0 <= q) by (apply div_round_nonneg; pose proof (u128_range a); lia).
  pose proof (u128_range a) as Ha.
  assert (u128_val (u128_sub (u128_of B) (u128_of 1)) = B - 1) as Hb1
    by (rewrite u128_sub_small, Hb, u128_of_small; rewrite ?Hb, ?u128_of_small; zlia).
  assert (u128_val (u128_sub (u128_not (u128_of 0))
    (u128_sub (u128_of B) (u128_of 1))) = UINT128_MAX - (B - 1)) as Hlim
    by (rewrite u128_sub_small; rewrite u128_not_val, u128_of_small, ?Hb1; zlia).
  rewrite !u128_ltb_val, Hlim, (u128_of_small UINT64_MAX) by zlia.
  destruct r; cbn [div_round] in q.
  - rewrite bool_decide_false by done. rewrite bool_decide_true by done.
    cbn [andb]. rewrite u128_div_val, Hb by lia. fold q. clearbody q.
    split; intros.
    + rewrite u64_id by zlia. do 2 f_equal. apply negb_true_iff. zlia.
    + eexists. do 3 f_equal. apply negb_false_iff. zlia.
  - rewrite bool_decide_true by done. rewrite bool_decide_false by done.
    cbn [andb]. destruct (Z.ltb_spec (UINT128_MAX - (B - 1)) (u128_val a)) as [Hlt|Hge].
    + split; [|by eauto]. intros Hq. exfalso.
      pose proof (div_up_bounds (u128_val a) B). fold q in H0. unfold_ints; nia.
    + rewrite u128_div_val, Hb by lia.
      rewrite u128_sub_val, u128_add_val, Zminus_mod_idemp_l, Hb,
        (u128_of_small 1), Z.mod_small by zlia.
      fold q. clearbody q. split; intros.
      * rewrite u64_id by zlia. do 2 f_equal. apply negb_true_iff. zlia.
      * eexists. do 3 f_equal. apply negb_false_iff. zlia.
Qed.

(** The [uint128_t] overload of [bigDivide] is exact too, for
    every 128-bit dividend, including those for which [a + B - 1] does not
    fit in 128 bits. *)
Theorem bigDivide128_exact a B r :
  0 < B <= INT64_MAX ->
  bigDivide128 a B r =
    if div_round r (u128_val a) B <=? INT64_MAX
    then Ok (div_round r (u128_val a) B)
    else Throw (OverflowError "overflow while performing bigDivide").
Proof.
  intros HB. unfold bigDivide128, bigDivide128_i64.
  rewrite assert_true by lia. cbn [mbind res_bind].
  rewrite u64_id by zlia.
  destruct (bigDivide128_u64_spec 0 a B r) as [Hok Hov]; [zlia|].
  assert (0 <= div_round r (u128_val a) B)
    by (apply div_round_nonneg; pose proof (u128_range a); lia).
  destruct (Z.leb_spec (div_round r (u128_val a) B) UINT64_MAX).
  - rewrite Hok by done. cbn. split_if; [|done]. by rewrite i64_id by zlia.
  - destruct Hov as [x ->]; [lia|]. cbn. split_if; [zlia|done].
Qed.

Lemma bigDivide128_ok a B r :
  0 < B <= INT64_MAX -> div_round r (u128_val a) B <= INT64_MAX ->
  bigDivide128 a B r = Ok (div_round r (u128_val a) B).
Proof.
  intros HB Hq. unfold bigDivide128, bigDivide128_i64.
  rewrite assert_true by lia. cbn [mbind res_bind].
  rewrite u64_id by zlia.
  rewrite (proj1 (bigDivide128_u64_spec 0 a B r ltac:(zlia))) by zlia. cbn.
  assert (0 <= div_round r (u128_val a) B)
    by (apply div_round_nonneg; pose proof (u128_range a); lia).
  rewrite (proj2 (Z.leb_le _ _)) by done. by rewrite i64_id by zlia.
Qed.

Lemma bigMultiply_spec a b :
  is_amount a -> is_amount b ->
  exists x, bigMultiply a b = Ok x /\ u128_val x = a * b.
Proof.
  intros Ha Hb. unfold bigMultiply.
  rewrite assert_true, bind_ok by zlia. eexists; split; [done|].
  unfold bigMultiply_u64. rewrite !u64_id by zlia.
  rewrite u128_mul_small; rewrite !u128_of_small; unfold_ints; nia.
Qed.

End BigDivide.

(** Claims C1 and C2 at concrete values. *)
Lemma bigDivide_exact_witness :
  @bigDivide Z_uint128 INT64_MAX 7 8 ROUND_UP = Ok 8070450532247928832.
Proof.
  rewrite (@bigDivide_exact Z_uint128 INT64_MAX 7 8 ROUND_UP).
  all: first [reflexivity | zlia].
Defined.

Lemma bigDivide128_exact_witness :
  @bigDivide128 Z_uint128 (@u128_not Z_uint128 (@u128_of Z_uint128 0)) 3 ROUND_UP
  = Throw (OverflowError "overflow while performing bigDivide").
Proof.
  rewrite (@bigDivide128_exact Z_uint128 _ 3 ROUND_UP).
  - reflexivity.
  - split; [reflexivity|discriminate].
Defined.

(** ** src/src/util/types.cpp: balances and prices *)

(** [bool addBalance(int64_t& balance, int64_t delta, int64_t maxBalance)]:
    the flag and the new value of [balance] *)
Definition addBalance_i64 (balance delta maxBalance : Z) : res (bool * Z) :=
  _ ← assert_ (balance >=? 0);
  _ ← assert_ (maxBalance >=? 0);
  if delta =? 0 then Ok (true, balance)
  else if delta <? i64 (- balance) then Ok (false, balance)
  else if i64 (maxBalance - balance) <? delta then Ok (false, balance)
  else Ok (true, i64 (balance + delta)).

(** On a balance and a limit, adding a delta succeeds exactly when the delta
    is zero or the sum stays between zero and the limit, and then gives the
    exact sum; otherwise the balance is left alone.  None of the comparisons
    wraps. *)
Lemma addBalance_i64_spec balance delta maxBalance :
  is_amount balance -> is_amount maxBalance -> is_i64 delta ->
  addBalance_i64 balance delta maxBalance =
    Ok (if (delta =? 0) || ((0 <=? balance + delta) && (balance + delta <=? maxBalance))
        then (true, balance + delta) else (false, balance)).
Proof.
  intros Hb Hm Hd. unfold addBalance_i64.
  rewrite !assert_true, !bind_ok by zlia.
  rewrite (i64_id (- balance)), (i64_id (maxBalance - balance)) by zlia.
  destruct (Z.eqb_spec delta 0) as [->|]; cbn [orb]; [by rewrite Z.add_0_r|].
  destruct (Z.ltb_spec delta (- balance)).
  { replace (0 <=? balance + delta) with false by (symmetry; zlia). done. }
  destruct (Z.ltb_spec (maxBalance - balance) delta).
  { replace (balance + delta <=? maxBalance) with false by (symmetry; zlia).
    by rewrite andb_false_r. }
  replace (0 <=? balance + delta) with true by (symmetry; zlia).
  replace (balance + delta <=? maxBalance) with true by (symmetry; zlia).
  by rewrite i64_id by zlia.
Qed.

(** [struct Price] *)
Record Price := mkPrice { price_n : Z; price_d : Z }.

#[export] Instance Price_eq_dec : EqDecision Price.
Proof. solve_decision. Defined.

(** a price that the operations accept: [n > 0 && d > 0], both [int32_t] *)
Definition valid_price (p : Price) : Prop :=
  0 < price_n p <= INT32_MAX /\ 0 < price_d p <= INT32_MAX.

Section PriceOps.
Context {U : UInt128}.

(** [operator>=(Price, Price)]; [l *= b.d] multiplies in 128 bits *)
Definition price_geb (a b : Price) : bool :=
  let l := u128_mul (u128_of (price_n a)) (u128_of (price_d b)) in
  let r := u128_mul (u128_of (price_d a)) (u128_of (price_n b)) in
  negb (u128_ltb l r).

(** [operator>(Price, Price)] *)
Definition price_gtb (a b : Price) : bool :=
  let l := u128_mul (u128_of (price_n a)) (u128_of (price_d b)) in
  let r := u128_mul (u128_of (price_d a)) (u128_of (price_n b)) in
  u128_ltb r l.

(** [operator==(Price, Price)] *)
Definition price_eqb (a b : Price) : bool :=
  (price_n a =? price_n b) && (price_d a =? price_d b).

Lemma u128_mul_of_i32 x y :
  0 <= x <= INT32_MAX -> 0 <= y <= INT32_MAX ->
  u128_val (u128_mul (u128_of x) (u128_of y)) = x * y.
Proof.
  intros. rewrite u128_mul_small; rewrite !u128_of_small; unfold_ints; nia.
Qed.

(** On valid prices the comparisons are the comparison of the fractions. *)
Lemma price_geb_spec a b :
  valid_price a -> valid_price b ->
  price_geb a b = (price_d a * price_n b <=? price_n a * price_d b).
Proof.
  intros [??] [??]. unfold price_geb.
  rewrite u128_ltb_val, !u128_mul_of_i32 by lia. by rewrite Z.leb_antisym.
Qed.

Lemma price_gtb_spec a b :
  valid_price a -> valid_price b ->
  price_gtb a b = (price_d a * price_n b <? price_n a * price_d b).
Proof.
  intros [??] [??]. unfold price_gtb.
  by rewrite u128_ltb_val, !u128_mul_of_i32 by lia.
Qed.

End PriceOps.

(** [int32_t unsignedToSigned(uint32_t v)] *)
Definition unsignedToSigned32 (v : Z) : res Z :=
  if v >? INT32_MAX then Throw (RuntimeError "unsigned-to-signed overflow")
  else Ok (i32 v).

(** [int64_t unsignedToSigned(uint64_t v)] *)
Definition unsignedToSigned64 (v : Z) : res Z :=
  if v >? INT64_MAX then Throw (RuntimeError "unsigned-to-signed overflow")
  else Ok (i64 v).

Lemma unsignedToSigned64_spec v :
  is_u64 v ->
  unsignedToSigned64 v =
    if v <=? INT64_MAX then Ok v
    else Throw (RuntimeError "unsigned-to-signed overflow").
Proof.
  intros Hv. unfold unsignedToSigned64. rewrite Z.gtb_ltb.
  destruct (Z.ltb_spec INT64_MAX v), (Z.leb_spec v INT64_MAX); try zlia; try done.
  by rewrite i64_id by zlia.
Qed.
