(* ===== verification/Exchange.v ===== *)
(** * The exchange arithmetic of src/src/transactions/OfferExchange.cpp

    The functions of OfferExchange.cpp that compute how much two crossing
    offers trade.  Wheat is the asset the offer of the book sells, sheep the
    one it buys; a price is sheep per wheat, [price_n / price_d].  The
    functions run in [res]: every [throw] and [assert] is a [Throw].

    [Section Reference] holds the same computation over unbounded integers;
    the refinement theorem of [Section Refinement] shows that the machine
    code computes it and never throws on valid prices and amounts, and the
    remaining theorems prove what the long comments of OfferExchange.cpp
    argue informally. *)
From S2P Require Import Prelude Numeric.

Inductive ExchangeResultType := NORMAL | REDUCED_TO_ZERO | BOGUS.

Record ExchangeResult := mkExchangeResult {
  er_numWheatReceived : Z;
  er_numSheepSend : Z;
  er_reduced : bool
}.

(** [ExchangeResult::type] *)
Definition ExchangeResult_type (r : ExchangeResult) : ExchangeResultType :=
  if negb (er_numWheatReceived r =? 0) && negb (er_numSheepSend r =? 0)
  then NORMAL
  else if er_reduced r then REDUCED_TO_ZERO else BOGUS.

Record ExchangeResultV10 := mkExchangeResultV10 {
  numWheatReceived : Z;
  numSheepSend : Z;
  wheatStays : bool
}.

Section Code.
Context {U : UInt128}.

Definition exchangeV2 (wheatReceived : Z) (price : Price)
    (maxWheatReceive maxSheepSend : Z) : res ExchangeResult :=
  let reduced := wheatReceived >? maxWheatReceive in
  let wheatReceived := Z.min wheatReceived maxWheatReceive in
  '(ok, q) ← bigDivide_i64 0 wheatReceived (price_n price) (price_d price)
               ROUND_DOWN;
  let numSheepSend := if ok : bool then q else INT64_MAX in
  let reduced := reduced || (numSheepSend >? maxSheepSend) in
  let numSheepSend := Z.min numSheepSend maxSheepSend in
  numWheatReceived ←
    bigDivide numSheepSend (price_d price) (price_n price) ROUND_DOWN;
  Ok (mkExchangeResult numWheatReceived numSheepSend reduced).

Definition exchangeV3 (wheatReceived : Z) (price : Price)
    (maxWheatReceive maxSheepSend : Z) : res ExchangeResult :=
  let reduced := wheatReceived >? maxWheatReceive in
  let numWheatReceived := Z.min wheatReceived maxWheatReceive in
  '(ok, q) ← bigDivide_i64 0 numWheatReceived (price_n price) (price_d price)
               ROUND_UP;
  let '(reduced, numSheepSend) :=
    if ok : bool then (reduced, q) else (true, INT64_MAX) in
  let reduced := reduced || (numSheepSend >? maxSheepSend) in
  let numSheepSend := Z.min numSheepSend maxSheepSend in
  '(ok, q) ← bigDivide_i64 0 numSheepSend (price_d price) (price_n price)
               ROUND_DOWN;
  let newWheatReceived := if ok : bool then q else INT64_MAX in
  let numWheatReceived := Z.min numWheatReceived newWheatReceived in
  Ok (mkExchangeResult numWheatReceived numSheepSend reduced).

Definition checkPriceErrorBound (price : Price) (wheatReceive sheepSend : Z)
    (canFavorWheat : bool) : res bool :=
  let errN := i64 (100 * price_n price) in
  let errD := i64 (100 * price_d price) in
  lhs ← bigMultiply errN wheatReceive;
  rhs ← bigMultiply errD sheepSend;
  if canFavorWheat && u128_ltb lhs rhs then Ok true
  else
    let absDiff :=
      if u128_ltb rhs lhs then u128_sub lhs rhs else u128_sub rhs lhs in
    cap ← bigMultiply (price_n price) wheatReceive;
    Ok (negb (u128_ltb cap absDiff)).

Definition calculateOfferValue (priceN priceD maxSend maxReceive : Z)
    : res uint128 :=
  sendValue ← bigMultiply maxSend priceN;
  receiveValue ← bigMultiply maxReceive priceD;
  Ok (if u128_ltb receiveValue sendValue then receiveValue else sendValue).

Definition exchangeV10WithoutPriceErrorThresholds (price : Price)
    (maxWheatSend maxWheatReceive maxSheepSend maxSheepReceive : Z)
    (isPathPayment : bool) : res ExchangeResultV10 :=
  let n := price_n price in
  let d := price_d price in
  wheatValue ← calculateOfferValue n d maxWheatSend maxSheepReceive;
  sheepValue ← calculateOfferValue d n maxSheepSend maxWheatReceive;
  let wheatStays := u128_ltb sheepValue wheatValue in
  '(wheatReceive, sheepSend) ←
    (if wheatStays then
       if (n >? d) || isPathPayment then
         wheatReceive ← bigDivide128 sheepValue n ROUND_DOWN;
         sheepSend ← bigDivide wheatReceive n d ROUND_UP;
         Ok (wheatReceive, sheepSend)
       else
         sheepSend ← bigDivide128 sheepValue d ROUND_DOWN;
         wheatReceive ← bigDivide sheepSend d n ROUND_DOWN;
         Ok (wheatReceive, sheepSend)
     else
       if n >? d then
         wheatReceive ← bigDivide128 wheatValue n ROUND_DOWN;
         sheepSend ← bigDivide wheatReceive n d ROUND_DOWN;
         Ok (wheatReceive, sheepSend)
       else
         sheepSend ← bigDivide128 wheatValue d ROUND_DOWN;
         wheatReceive ← bigDivide sheepSend d n ROUND_UP;
         Ok (wheatReceive, sheepSend));
  if (wheatReceive <? 0)
     || (wheatReceive >? Z.min maxWheatReceive maxWheatSend)
  then Throw (RuntimeError "wheatReceive out of bounds")
  else if (sheepSend <? 0)
     || (sheepSend >? Z.min maxSheepReceive maxSheepSend)
  then Throw (RuntimeError "sheepSend out of bounds")
  else Ok (mkExchangeResultV10 wheatReceive sheepSend wheatStays).

Definition applyPriceErrorThresholds (price : Price)
    (wheatReceive sheepSend : Z) (wheatStays isPathPayment : bool)
    : res ExchangeResultV10 :=
  '(wheatReceive, sheepSend) ←
    (if (wheatReceive >? 0) && (sheepSend >? 0) then
       wheatReceiveValue ← bigMultiply wheatReceive (price_n price);
       sheepSendValue ← bigMultiply sheepSend (price_d price);
       if wheatStays && u128_ltb sheepSendValue wheatReceiveValue then
         Throw (RuntimeError "favored sheep when wheat stays")
       else if negb wheatStays && u128_ltb wheatReceiveValue sheepSendValue then
         Throw (RuntimeError "favored wheat when sheep stays")
       else if negb isPathPayment then
         ok ← checkPriceErrorBound price wheatReceive sheepSend false;
         Ok (if ok : bool then (wheatReceive, sheepSend) else (0, 0))
       else
         ok ← checkPriceErrorBound price wheatReceive sheepSend true;
         if ok : bool then Ok (wheatReceive, sheepSend)
         else Throw (RuntimeError "exceeded price error bound")
     else Ok (0, 0));
  Ok (mkExchangeResultV10 wheatReceive sheepSend wheatStays).

Definition exchangeV10 (price : Price)
    (maxWheatSend maxWheatReceive maxSheepSend maxSheepReceive : Z)
    (isPathPayment : bool) : res ExchangeResultV10 :=
  beforeThresholds ← exchangeV10WithoutPriceErrorThresholds price maxWheatSend
    maxWheatReceive maxSheepSend maxSheepReceive isPathPayment;
  applyPriceErrorThresholds price (numWheatReceived beforeThresholds)
    (numSheepSend beforeThresholds) (wheatStays beforeThresholds)
    isPathPayment.

(** [int64_t adjustOffer(Price const&, int64_t, int64_t)] *)
Definition adjustOffer (price : Price) (maxWheatSend maxSheepReceive : Z)
    : res Z :=
  r ← exchangeV10 price maxWheatSend INT64_MAX INT64_MAX maxSheepReceive false;
  Ok (numWheatReceived r).

End Code.

(** ** The computation over unbounded integers *)

Section Reference.

(** the sizes of the two offers, in units of sheep times [price_d] *)
Definition wheat_value (p : Price) (maxWheatSend maxSheepReceive : Z) : Z :=
  Z.min (maxWheatSend * price_n p) (maxSheepReceive * price_d p).
Definition sheep_value (p : Price) (maxWheatReceive maxSheepSend : Z) : Z :=
  Z.min (maxSheepSend * price_d p) (maxWheatReceive * price_n p).

Definition ceil_div (a c : Z) : Z := (a + c - 1) / c.

(** amounts traded when an offer of the given value is the smaller one *)
Definition taken_by_sheep (p : Price) (sv : Z) (path : bool) : Z * Z :=
  if (price_d p <? price_n p) || path then
    (sv / price_n p, ceil_div (sv / price_n p * price_n p) (price_d p))
  else
    (sv / price_d p * price_d p / price_n p, sv / price_d p).
Definition taken_by_wheat (p : Price) (wv : Z) : Z * Z :=
  if price_d p <? price_n p then
    (wv / price_n p, wv / price_n p * price_n p / price_d p)
  else
    (ceil_div (wv / price_d p * price_d p) (price_n p), wv / price_d p).

Definition exchange_ref (p : Price) (mws mwr mss msr : Z) (path : bool)
    : ExchangeResultV10 :=
  let wv := wheat_value p mws msr in
  let sv := sheep_value p mwr mss in
  let ws := if sv <? wv then taken_by_sheep p sv path else taken_by_wheat p wv in
  mkExchangeResultV10 (fst ws) (snd ws) (sv <? wv).

(** relative price error of at most one percent *)
Definition within_one_percent (p : Price) (w s : Z) : bool :=
  Z.abs (100 * price_n p * w - 100 * price_d p * s) <=? price_n p * w.

End Reference.

(** ** Bounds of the reference computation *)

Lemma div_le_of_le_mul a c m : 0 < c -> a <= m * c -> a / c <= m.
Proof. intros; apply Z.div_le_upper_bound; lia. Qed.

Lemma ceil_le_of_le_mul a c m : 0 < c -> a <= m * c -> ceil_div a c <= m.
Proof. intros; unfold ceil_div; pose proof (div_up_bounds a c); nia. Qed.

Lemma div_mul_le a c : 0 < c -> a / c * c <= a.
Proof. intros; pose proof (Z.mul_div_le a c); lia. Qed.

Lemma ceil_mul_ge a c : 0 < c -> a <= ceil_div a c * c.
Proof. intros; unfold ceil_div; pose proof (div_up_bounds a c); lia. Qed.

Lemma ceil_nonneg a c : 0 <= a -> 0 < c -> 0 <= ceil_div a c.
Proof. intros; apply Z.div_pos; lia. Qed.

Section ReferenceFacts.
Variables (p : Price).
Hypothesis Hp : valid_price p.
#[local] Abbreviation n := (price_n p).
#[local] Abbreviation d := (price_d p).

Lemma price_pos : 0 < n /\ 0 < d.
Proof. destruct Hp; lia. Qed.

Lemma wheat_value_nonneg mws msr :
  0 <= mws -> 0 <= msr -> 0 <= wheat_value p mws msr.
Proof. destruct price_pos; unfold wheat_value; nia. Qed.

Lemma sheep_value_nonneg mwr mss :
  0 <= mwr -> 0 <= mss -> 0 <= sheep_value p mwr mss.
Proof. destruct price_pos; unfold sheep_value; nia. Qed.

Lemma taken_by_sheep_bounds sv path :
  0 <= sv ->
  0 <= fst (taken_by_sheep p sv path) /\ 0 <= snd (taken_by_sheep p sv path) /\
  fst (taken_by_sheep p sv path) * n <= snd (taken_by_sheep p sv path) * d /\
  (forall m, sv <= m * n -> fst (taken_by_sheep p sv path) <= m) /\
  (forall m, sv <= m * d -> snd (taken_by_sheep p sv path) <= m).
Proof.
  destruct price_pos as [Hn Hd]. intros Hsv. unfold taken_by_sheep.
  pose proof (div_mul_le sv n Hn). pose proof (div_mul_le sv d Hd).
  split_if; cbn [fst snd].
  - pose proof (ceil_mul_ge (sv / n * n) d Hd).
    repeat split; try lia; auto with essa.
    + apply ceil_nonneg; [|done]. apply Z.mul_nonneg_nonneg; auto with essa; lia.
    + intros; apply div_le_of_le_mul; lia.
    + intros; apply ceil_le_of_le_mul; lia.
  - assert (0 <= sv / d * d) by (apply Z.mul_nonneg_nonneg; auto with essa; lia).
    pose proof (div_mul_le (sv / d * d) n Hn).
    repeat split; try lia; auto with essa.
    + intros; apply div_le_of_le_mul; lia.
    + intros; apply div_le_of_le_mul; lia.
Qed.

Lemma taken_by_wheat_bounds wv :
  0 <= wv ->
  0 <= fst (taken_by_wheat p wv) /\ 0 <= snd (taken_by_wheat p wv) /\
  snd (taken_by_wheat p wv) * d <= fst (taken_by_wheat p wv) * n /\
  (forall m, wv <= m * n -> fst (taken_by_wheat p wv) <= m) /\
  (forall m, wv <= m * d -> snd (taken_by_wheat p wv) <= m).
Proof.
  destruct price_pos as [Hn Hd]. intros Hwv. unfold taken_by_wheat.
  pose proof (div_mul_le wv n Hn). pose proof (div_mul_le wv d Hd).
  split_if; cbn [fst snd].
  - assert (0 <= wv / n * n) by (apply Z.mul_nonneg_nonneg; auto with essa; lia).
    pose proof (div_mul_le (wv / n * n) d Hd).
    repeat split; try lia; auto with essa.
    + intros; apply div_le_of_le_mul; lia.
    + intros; apply div_le_of_le_mul; lia.
  - assert (0 <= wv / d * d) by (apply Z.mul_nonneg_nonneg; auto with essa; lia).
    pose proof (ceil_mul_ge (wv / d * d) n Hn).
    repeat split; try lia; auto with essa.
    + intros; apply ceil_le_of_le_mul; lia.
    + intros; apply div_le_of_le_mul; lia.
Qed.

(** the amounts respect every limit, and the rounding error favors the offer
    that stays in the book *)
Lemma exchange_ref_bounds mws mwr mss msr path :
  0 <= mws -> 0 <= mwr -> 0 <= mss -> 0 <= msr ->
  let r := exchange_ref p mws mwr mss msr path in
  0 <= numWheatReceived r <= Z.min mwr mws /\
  0 <= numSheepSend r <= Z.min msr mss /\
  (if wheatStays r
   then numWheatReceived r * n <= numSheepSend r * d
   else numSheepSend r * d <= numWheatReceived r * n).
Proof.
  intros Hws Hwr Hss Hsr. cbn.
  pose proof (wheat_value_nonneg mws msr Hws Hsr) as Hwv0.
  pose proof (sheep_value_nonneg mwr mss Hwr Hss) as Hsv0.
  pose proof (Z.le_min_l (mws * n) (msr * d)) as W1.
  pose proof (Z.le_min_r (mws * n) (msr * d)) as W2.
  pose proof (Z.le_min_l (mss * d) (mwr * n)) as S1.
  pose proof (Z.le_min_r (mss * d) (mwr * n)) as S2.
  fold (wheat_value p mws msr) in *. fold (sheep_value p mwr mss) in *.
  destruct (Z.ltb_spec (sheep_value p mwr mss) (wheat_value p mws msr)).
  - destruct (taken_by_sheep_bounds _ path Hsv0) as (?&?&?&Hw&Hs).
    repeat split; try done; apply Z.min_glb; (apply Hw || apply Hs); lia.
  - destruct (taken_by_wheat_bounds _ Hwv0) as (?&?&?&Hw&Hs).
    repeat split; try done; apply Z.min_glb; (apply Hw || apply Hs); lia.
Qed.

End ReferenceFacts.

(** ** The code refines the reference computation *)

Section Refinement.
Context {U : UInt128}.
Variables (p : Price).
Hypothesis Hp : valid_price p.
#[local] Abbreviation n := (price_n p).
#[local] Abbreviation d := (price_d p).

Lemma calculateOfferValue_spec pn pd maxSend maxReceive :
  0 < pn <= INT32_MAX -> 0 < pd <= INT32_MAX ->
  is_amount maxSend -> is_amount maxReceive ->
  exists x, calculateOfferValue pn pd maxSend maxReceive = Ok x /\
    u128_val x = Z.min (maxSend * pn) (maxReceive * pd).
Proof.
  intros Hn Hd Hs Hr. unfold calculateOfferValue.
  destruct (bigMultiply_spec maxSend pn) as (x & -> & Hx); [zlia..|].
  destruct (bigMultiply_spec maxReceive pd) as (y & -> & Hy); [zlia..|].
  cbn. eexists; split; [done|]. rewrite u128_ltb_val, Hx, Hy.
  split_if; lia.
Qed.

Lemma bigDivide128_down a B :
  0 < B <= INT64_MAX -> u128_val a / B <= INT64_MAX ->
  bigDivide128 a B ROUND_DOWN = Ok (u128_val a / B).
Proof. intros; by apply (bigDivide128_ok a B ROUND_DOWN). Qed.

Lemma bigDivide_down A B C :
  is_amount A -> is_amount B -> 0 < C <= INT64_MAX ->
  A * B / C <= INT64_MAX -> bigDivide A B C ROUND_DOWN = Ok (A * B / C).
Proof. intros; by apply (bigDivide_ok A B C ROUND_DOWN). Qed.

Lemma bigDivide_up A B C :
  is_amount A -> is_amount B -> 0 < C <= INT64_MAX ->
  ceil_div (A * B) C <= INT64_MAX ->
  bigDivide A B C ROUND_UP = Ok (ceil_div (A * B) C).
Proof. intros; by apply (bigDivide_ok A B C ROUND_UP). Qed.


Lemma exchangeV10WithoutPriceErrorThresholds_ok mws mwr mss msr path :
  is_amount mws -> is_amount mwr -> is_amount mss -> is_amount msr ->
  exchangeV10WithoutPriceErrorThresholds p mws mwr mss msr path =
    Ok (exchange_ref p mws mwr mss msr path).
Proof.
  intros Hws Hwr Hss Hsr. pose proof Hp as [Hn Hd].
  pose proof (exchange_ref_bounds p Hp mws mwr mss msr path) as HB.
  unfold exchangeV10WithoutPriceErrorThresholds.
  destruct (calculateOfferValue_spec n d mws msr) as (wv & -> & Hwv); [done..|].
  destruct (calculateOfferValue_spec d n mss mwr) as (sv & -> & Hsv); [done..|].
  fold (wheat_value p mws msr) in Hwv. fold (sheep_value p mwr mss) in Hsv.
  cbn [mbind res_bind]. rewrite u128_ltb_val, Hwv, Hsv, Z.gtb_ltb.
  unfold exchange_ref in *. cbn in HB.
  destruct HB as ((?&?)&(?&?)&_); [zlia..|].
  pose proof (wheat_value_nonneg p Hp mws msr).
  pose proof (sheep_value_nonneg p Hp mwr mss).
  match goal with |- context [(?X ≫= _)] => assert (X = Ok
    (if sheep_value p mwr mss <? wheat_value p mws msr
     then taken_by_sheep p (sheep_value p mwr mss) path
     else taken_by_wheat p (wheat_value p mws msr))) as -> end.
  { destruct (_ <? wheat_value _ _ _); unfold taken_by_sheep, taken_by_wheat in *;
      destruct (d <? n); cbn [fst snd orb] in *; try destruct path; cbn [fst snd] in *.
    all: rewrite bigDivide128_down by (rewrite ?Hwv, ?Hsv; zlia);
      cbn [mbind res_bind]; rewrite ?Hwv, ?Hsv;
      first [rewrite bigDivide_down by zlia | rewrite bigDivide_up by zlia]; done. }
  cbn [mbind res_bind]. rewrite (surjective_pairing (if _ <? _ then _ else _)).
  rewrite (proj2 (orb_false_iff _ _)) by (rewrite Z.gtb_ltb; split; zlia).
  rewrite (proj2 (orb_false_iff _ _)) by (rewrite Z.gtb_ltb; split; zlia).
  done.
Qed.

(** Claim C34: on a valid price and non-negative limits,
    [exchangeV10WithoutPriceErrorThresholds] never throws: no assertion
    fails, no division overflows and neither bound check fires.  It returns
    exactly the exchange computed over unbounded integers. *)
Theorem exchangeV10WithoutPriceErrorThresholds_refines mws mwr mss msr path :
  is_amount mws -> is_amount mwr -> is_amount mss -> is_amount msr ->
  exchangeV10WithoutPriceErrorThresholds p mws mwr mss msr path =
    Ok (exchange_ref p mws mwr mss msr path).
Proof. apply exchangeV10WithoutPriceErrorThresholds_ok. Qed.

(** the one-percent check; with [canFavorWheat] an error in favor of the
    wheat seller is always accepted *)
Lemma checkPriceErrorBound_spec w s fav :
  is_amount w -> is_amount s ->
  checkPriceErrorBound p w s fav =
    Ok ((fav && (100 * n * w <? 100 * d * s)) || within_one_percent p w s).
Proof.
  intros Hw Hs. pose proof Hp as [Hn Hd]. unfold checkPriceErrorBound.
  rewrite !i64_id by zlia.
  destruct (bigMultiply_spec (100 * n) w) as (l & -> & Hl); [zlia..|].
  destruct (bigMultiply_spec (100 * d) s) as (r & -> & Hr); [zlia..|].
  destruct (bigMultiply_spec n w) as (c & Ec & Hc); [zlia..|].
  cbn [mbind res_bind]. rewrite !u128_ltb_val, Hl, Hr.
  destruct (fav && _)%bool; cbn [orb]; [done|].
  rewrite Ec. cbn [mbind res_bind]. rewrite u128_ltb_val, Hc, <- Z.leb_antisym.
  unfold within_one_percent. do 2 f_equal.
  split_if; (rewrite u128_sub_small; [|lia]); lia.
Qed.

(** the exchange with thresholds, over unbounded integers; [None] when the
    path-payment check would throw *)
Definition exchange_thresholds_ref (r : ExchangeResultV10) (path : bool)
    : option ExchangeResultV10 :=
  let w := numWheatReceived r in
  let s := numSheepSend r in
  if (0 <? w) && (0 <? s) then
    if within_one_percent p w s then Some r
    else if negb path then Some (mkExchangeResultV10 0 0 (wheatStays r))
    else if 100 * n * w <? 100 * d * s then Some r else None
  else Some (mkExchangeResultV10 0 0 (wheatStays r)).

Lemma applyPriceErrorThresholds_spec w s (stays path : bool) :
  is_amount w -> is_amount s ->
  (if stays then w * n <= s * d else s * d <= w * n) ->
  applyPriceErrorThresholds p w s stays path =
    match exchange_thresholds_ref (mkExchangeResultV10 w s stays) path with
    | Some r => Ok r
    | None => Throw (RuntimeError "exceeded price error bound")
    end.
Proof.
  intros Hw Hs Hfav. pose proof Hp as [Hn Hd].
  unfold applyPriceErrorThresholds, exchange_thresholds_ref.
  cbn [numWheatReceived numSheepSend wheatStays]. rewrite !Z.gtb_ltb.
  destruct (_ && _)%bool; [|done].
  destruct (bigMultiply_spec w n) as (x & -> & Hx); [zlia..|].
  destruct (bigMultiply_spec s d) as (y & -> & Hy); [zlia..|].
  cbn [mbind res_bind]. rewrite !u128_ltb_val, Hx, Hy.
  rewrite !checkPriceErrorBound_spec by done.
  destruct stays; cbn [andb negb];
    (rewrite (proj2 (Z.ltb_ge _ _)) by done);
    destruct path, (within_one_percent p w s); cbn [andb orb negb];
    rewrite ?orb_true_r, ?orb_false_r; try done; by destruct (_ <? _).
Qed.

Lemma exchangeV10_spec mws mwr mss msr path :
  is_amount mws -> is_amount mwr -> is_amount mss -> is_amount msr ->
  exchangeV10 p mws mwr mss msr path =
    match exchange_thresholds_ref (exchange_ref p mws mwr mss msr path) path with
    | Some r => Ok r
    | None => Throw (RuntimeError "exceeded price error bound")
    end.
Proof.
  intros Hws Hwr Hss Hsr. unfold exchangeV10.
  rewrite exchangeV10WithoutPriceErrorThresholds_ok by done.
  cbn [mbind res_bind].
  destruct (exchange_ref_bounds p Hp mws mwr mss msr path) as (?&?&?); [zlia..|].
  rewrite applyPriceErrorThresholds_spec; [|zlia..|done].
  by destruct (exchange_ref _ _ _ _ _ _).
Qed.

Lemma exchange_thresholds_ref_cases r path r' :
  exchange_thresholds_ref r path = Some r' ->
  wheatStays r' = wheatStays r /\
  ((r' = mkExchangeResultV10 0 0 (wheatStays r)) \/
   (r' = r /\ 0 < numWheatReceived r /\ 0 < numSheepSend r /\
     (within_one_percent p (numWheatReceived r) (numSheepSend r) = true \/
      (path = true /\
       100 * n * numWheatReceived r < 100 * d * numSheepSend r)))).
Proof.
  unfold exchange_thresholds_ref. intros H.
  repeat (case_match; zb; simplify_eq/=); eauto 10.
Qed.

(** Claim C29: outside path payment [exchangeV10] always returns, its amounts
    stay within all four limits, the rounding error favors the offer that
    stays in the book, and the trade either does not happen at all or has a
    price within one percent of the price crossed. *)
Theorem exchangeV10_guarantees mws mwr mss msr :
  is_amount mws -> is_amount mwr -> is_amount mss -> is_amount msr ->
  exists r : ExchangeResultV10, exchangeV10 p mws mwr mss msr false = Ok r /\
    0 <= numWheatReceived r <= Z.min mwr mws /\
    0 <= numSheepSend r <= Z.min msr mss /\
    (if wheatStays r
     then numWheatReceived r * n <= numSheepSend r * d
     else numSheepSend r * d <= numWheatReceived r * n) /\
    ((numWheatReceived r = 0 /\ numSheepSend r = 0) \/
     (0 < numWheatReceived r /\ 0 < numSheepSend r /\
      Z.abs (100 * n * numWheatReceived r - 100 * d * numSheepSend r)
        <= n * numWheatReceived r)).
Proof.
  intros Hws Hwr Hss Hsr. rewrite exchangeV10_spec by done.
  destruct (exchange_ref_bounds p Hp mws mwr mss msr false) as (?&?&?); [zlia..|].
  destruct (exchange_thresholds_ref _ _) as [r'|] eqn:E.
  - exists r'. split; [done|].
    apply exchange_thresholds_ref_cases in E as [Est [->|(->&?&?&[E'|[]])]];
      cbn [numWheatReceived numSheepSend wheatStays].
    + split; [zlia|]. split; [zlia|]. split; [case_match; lia|]. by left.
    + unfold within_one_percent in E'. zb. do 3 (split; [done|]). by right.
    + done.
  - exfalso. unfold exchange_thresholds_ref in E. repeat case_match; done.
Qed.

End Refinement.

(** ** adjustOffer *)

Section Adjust.
Context {U : UInt128}.
Variables (p : Price).
Hypothesis Hp : valid_price p.
#[local] Abbreviation n := (price_n p).
#[local] Abbreviation d := (price_d p).

(** against a buyer without limits the wheat offer never stays *)
Lemma unlimited_sheep_stays m r :
  is_amount m -> is_amount r ->
  (sheep_value p INT64_MAX INT64_MAX <? wheat_value p m r) = false.
Proof.
  intros Hm Hr. destruct Hp as [Hn Hd]. apply Z.ltb_ge.
  unfold sheep_value, wheat_value. unfold_ints. nia.
Qed.

Lemma exchange_ref_unlimited m r :
  is_amount m -> is_amount r ->
  exchange_ref p m INT64_MAX INT64_MAX r false =
    mkExchangeResultV10 (fst (taken_by_wheat p (wheat_value p m r)))
      (snd (taken_by_wheat p (wheat_value p m r))) false.
Proof.
  intros Hm Hr. unfold exchange_ref. by rewrite unlimited_sheep_stays.
Qed.

Definition adjust_ref (m r : Z) : Z :=
  let ws := taken_by_wheat p (wheat_value p m r) in
  if (0 <? fst ws) && (0 <? snd ws) && within_one_percent p (fst ws) (snd ws)
  then fst ws else 0.

Lemma adjustOffer_spec m r :
  is_amount m -> is_amount r -> adjustOffer p m r = Ok (adjust_ref m r).
Proof.
  intros Hm Hr. unfold adjustOffer.
  rewrite exchangeV10_spec, exchange_ref_unlimited by (done || zlia).
  unfold exchange_thresholds_ref, adjust_ref.
  cbn [numWheatReceived numSheepSend].
  destruct (_ && _)%bool; cbn [andb]; [|done].
  by destruct (within_one_percent _ _ _).
Qed.

Lemma adjust_ref_bounds m r :
  is_amount m -> is_amount r -> 0 <= adjust_ref m r <= m.
Proof.
  intros Hm Hr. unfold adjust_ref. cbv zeta.
  destruct (taken_by_wheat_bounds p Hp (wheat_value p m r)) as (?&?&_&Hw&_).
  { apply wheat_value_nonneg; first [done|zlia]. }
  split_if; [|zlia]. split; [lia|]. apply Hw. unfold wheat_value. lia.
Qed.

(** taking the adjusted amount as the new limit changes neither the value of
    the offer nor the amounts traded *)
Lemma taken_by_wheat_idem m r :
  is_amount m -> is_amount r ->
  let ws := taken_by_wheat p (wheat_value p m r) in
  taken_by_wheat p (wheat_value p (fst ws) r) = ws.
Proof.
  intros Hm Hr ws. destruct Hp as [Hn Hd].
  destruct (taken_by_wheat_bounds p Hp (wheat_value p m r)) as (H0w&H0s&Hf&Hw&Hs).
  { apply wheat_value_nonneg; first [done|zlia]. }
  fold ws in H0w, H0s, Hf, Hw, Hs.
  assert (wheat_value p m r <= m * n) as Hm1 by (unfold wheat_value; lia).
  assert (wheat_value p m r <= r * d) as Hr1 by (unfold wheat_value; lia).
  specialize (Hw m Hm1).
  unfold ws, taken_by_wheat in *. destruct (Z.ltb_spec d n); cbn [fst snd] in *.
  - pose proof (div_mul_le (wheat_value p m r) n ltac:(lia)).
    assert (wheat_value p (wheat_value p m r / n) r = wheat_value p m r / n * n) as ->.
    { unfold wheat_value at 1. lia. }
    by rewrite Z.div_mul by lia.
  - set (s := wheat_value p m r / d) in *.
    set (w := ceil_div (s * d) n) in *.
    pose proof (div_mul_le (wheat_value p m r) d ltac:(lia)) as Hsd. fold s in Hsd.
    assert (wheat_value p w r / d = s) as ->; [|done].
    apply div_unique_bounds; [lia|].
    pose proof (div_bounds (wheat_value p m r) d) as Hb. fold s in Hb.
    assert (wheat_value p w r <= wheat_value p m r) by (unfold wheat_value; nia).
    unfold wheat_value at 1. split; [nia|]. lia.
Qed.

Lemma wheat_value_0 r : is_amount r -> wheat_value p 0 r = 0.
Proof. intros; destruct Hp; unfold wheat_value; unfold_ints; nia. Qed.

Lemma taken_by_wheat_0 : taken_by_wheat p 0 = (0, 0).
Proof.
  destruct Hp. unfold taken_by_wheat, ceil_div.
  split_if; rewrite !Z.div_0_l, ?Z.mul_0_l, ?Z.div_0_l by lia; [done|].
  by rewrite Z.div_small by lia.
Qed.

Lemma adjust_ref_0 r : is_amount r -> adjust_ref 0 r = 0.
Proof. intros. unfold adjust_ref. by rewrite wheat_value_0, taken_by_wheat_0. Qed.

Lemma adjust_ref_idem m r :
  is_amount m -> is_amount r -> adjust_ref (adjust_ref m r) r = adjust_ref m r.
Proof.
  intros Hm Hr. destruct (adjust_ref m r) eqn:E at 1 2; try by apply adjust_ref_0.
  - unfold adjust_ref in *.
    destruct (_ && _)%bool eqn:Ec in E; [|done].
    rewrite <- E, taken_by_wheat_idem by done. by rewrite Ec.
  - pose proof (adjust_ref_bounds m r Hm Hr). lia.
Qed.

(** The central property of [adjustOffer]: on every valid price
    and limits it returns an amount between zero and the amount offered, and
    applied to an offer that has already been adjusted it changes nothing. *)
Theorem adjustOffer_idempotent m r :
  is_amount m -> is_amount r ->
  exists m', adjustOffer p m r = Ok m' /\ 0 <= m' <= m /\
    adjustOffer p m' r = Ok m'.
Proof.
  intros Hm Hr. pose proof (adjust_ref_bounds m r Hm Hr).
  exists (adjust_ref m r). rewrite !adjustOffer_spec by zlia.
  rewrite adjust_ref_idem by done. eauto.
Qed.

(** ** Path payment *)

Lemma adjusted_taken m r :
  is_amount m -> is_amount r -> adjust_ref m r = m ->
  exchange_thresholds_ref p
    (mkExchangeResultV10 (fst (taken_by_wheat p (wheat_value p m r)))
      (snd (taken_by_wheat p (wheat_value p m r))) false) true <> None.
Proof.
  intros Hm Hr Hadj. unfold adjust_ref in Hadj.
  unfold exchange_thresholds_ref. cbn [numWheatReceived numSheepSend].
  cbv zeta in *.
  destruct ((0 <? fst (taken_by_wheat _ _)) && _)%bool eqn:E; [|done].
  cbn [andb] in Hadj.
  destruct (within_one_percent _ _ _); [done|]. subst m.
  rewrite wheat_value_0, taken_by_wheat_0 in E by done. done.
Qed.

(** On an offer that has been adjusted, [exchangeV10] for a path
    payment never throws: in particular the "exceeded price error bound"
    check cannot fail. *)
Theorem exchangeV10_path_payment_ok mws mwr mss msr :
  is_amount mws -> is_amount mwr -> is_amount mss -> is_amount msr ->
  adjustOffer p mws msr = Ok mws ->
  exists r, exchangeV10 p mws mwr mss msr true = Ok r.
Proof.
  intros Hws Hwr Hss Hsr Hadj. rewrite exchangeV10_spec by done.
  rewrite adjustOffer_spec in Hadj by done. injection Hadj as Hadj.
  destruct (exchange_thresholds_ref _ _ _) eqn:E; [by eauto|]. exfalso.
  unfold exchange_ref in E.
  destruct (_ <? wheat_value _ _ _) eqn:Est.
  - destruct (taken_by_sheep_bounds p Hp (sheep_value p mwr mss) true)
      as (_&_&Hfav&_).
    { apply sheep_value_nonneg; first [done|zlia]. }
    unfold exchange_thresholds_ref, within_one_percent in E.
    cbn [numWheatReceived numSheepSend negb] in E.
    repeat case_match; zb; try done. destruct Hp; nia.
  - by apply adjusted_taken in E.
Qed.

(** When a path payment leaves the wheat offer in the book and its
    send limit can pay for the wheat wanted, it receives exactly the wheat
    wanted and pays the price rounded up. *)
Theorem exchangeV10_path_payment_exact mws mwr mss msr :
  is_amount mws -> 0 < mwr <= INT64_MAX -> is_amount mss -> is_amount msr ->
  sheep_value p mwr mss < wheat_value p mws msr ->
  mwr * n <= mss * d ->
  exchangeV10 p mws mwr mss msr true =
    Ok (mkExchangeResultV10 mwr (ceil_div (mwr * n) d) true).
Proof.
  intros Hws Hwr Hss Hsr Hst Hpay. rewrite exchangeV10_spec by (done || zlia).
  pose proof Hp as [Hn Hd].
  assert (sheep_value p mwr mss = mwr * n) as Hsv by (unfold sheep_value; lia).
  unfold exchange_ref. rewrite (proj2 (Z.ltb_lt _ _) Hst), Hsv.
  unfold taken_by_sheep. rewrite orb_true_r, Z.div_mul by lia. cbn [fst snd].
  pose proof (ceil_mul_ge (mwr * n) d ltac:(lia)).
  unfold exchange_thresholds_ref, within_one_percent.
  cbn [numWheatReceived numSheepSend negb].
  rewrite (proj2 (Z.ltb_lt 0 mwr)) by lia.
  rewrite (proj2 (Z.ltb_lt 0 (ceil_div _ _))) by nia. cbn [andb].
  repeat split_if; try done. nia.
Qed.

End Adjust.

(** ** The exchanges of protocol versions before 10 *)

Section Legacy.
Context {U : UInt128}.
Variables (p : Price).
Hypothesis Hp : valid_price p.
#[local] Abbreviation n := (price_n p).
#[local] Abbreviation d := (price_d p).

(** the saturating use of [bigDivide]: [INT64_MAX] on overflow *)
Lemma bigDivide_i64_sat A B C r :
  is_amount A -> is_amount B -> 0 < C <= INT64_MAX ->
  exists ok q, bigDivide_i64 0 A B C r = Ok (ok, q) /\
    (if ok : bool then q else INT64_MAX) = Z.min (div_round r (A * B) C) INT64_MAX /\
    ok = (div_round r (A * B) C <=? INT64_MAX).
Proof.
  intros HA HB HC. destruct (bigDivide_i64_spec 0 A B C r HA HB HC) as [Hok Hov].
  destruct (Z.leb_spec (div_round r (A * B) C) INT64_MAX).
  - rewrite Hok by done. do 2 eexists; split; [done|]. split; [zlia|done].
  - destruct Hov as [x ->]; [done|]. do 2 eexists; split; [done|]. split; [zlia|done].
Qed.

Lemma exchangeV2_spec w mwr mss :
  is_amount w -> is_amount mwr -> is_amount mss ->
  exists r, exchangeV2 w p mwr mss = Ok r /\
    0 <= er_numWheatReceived r <= Z.min w mwr /\
    0 <= er_numSheepSend r <= mss /\
    er_numWheatReceived r * n <= er_numSheepSend r * d /\
    er_numSheepSend r * d <= Z.min w mwr * n.
Proof.
  intros Hw Hmwr Hmss. pose proof Hp as [Hn Hd]. unfold exchangeV2.
  destruct (bigDivide_i64_sat (Z.min w mwr) n d ROUND_DOWN) as (ok&q&->&Hq&_); [zlia..|].
  cbn [mbind res_bind]. rewrite Hq. cbn [div_round].
  pose proof (div_mul_le (Z.min w mwr * n) d ltac:(lia)).
  pose proof (div_nonneg (Z.min w mwr * n) d ltac:(zlia) ltac:(lia)).
  set (s := Z.min (Z.min (Z.min w mwr * n / d) INT64_MAX) mss).
  assert (0 <= s <= mss) by (unfold s; zlia).
  assert (s * d <= Z.min w mwr * n).
  { transitivity (Z.min w mwr * n / d * d); [|done].
    apply Z.mul_le_mono_nonneg_r; [lia|]. unfold s. lia. }
  pose proof (div_le_of_le_mul (s * d) n (Z.min w mwr) ltac:(lia) ltac:(lia)).
  rewrite bigDivide_down by zlia. cbn. eexists; split; [done|]. cbn.
  pose proof (div_nonneg (s * d) n ltac:(lia) ltac:(lia)).
  pose proof (div_mul_le (s * d) n ltac:(lia)). lia.
Qed.

Lemma exchangeV3_spec w mwr mss :
  is_amount w -> is_amount mwr -> is_amount mss ->
  exists r, exchangeV3 w p mwr mss = Ok r /\
    0 <= er_numWheatReceived r <= Z.min w mwr /\
    0 <= er_numSheepSend r <= mss /\
    er_numWheatReceived r * n <= er_numSheepSend r * d.
Proof.
  intros Hw Hmwr Hmss. pose proof Hp as [Hn Hd]. unfold exchangeV3.
  destruct (bigDivide_i64_sat (Z.min w mwr) n d ROUND_UP) as (ok&q&->&Hq&_); [zlia..|].
  cbn [mbind res_bind].
  rewrite (surjective_pairing (if ok then _ else _)).
  replace (snd (if ok then (_, q) else (true, INT64_MAX)))
    with (Z.min (div_round ROUND_UP (Z.min w mwr * n) d) INT64_MAX)
    by (rewrite <- Hq; by destruct ok).
  set (s := Z.min _ mss).
  assert (0 <= s <= mss).
  { unfold s. pose proof (div_round_nonneg ROUND_UP (Z.min w mwr * n) d). zlia. }
  destruct (bigDivide_i64_sat s d n ROUND_DOWN) as (ok'&q'&->&Hq'&_); [zlia..|].
  cbn [mbind res_bind]. rewrite Hq'. cbn [div_round].
  eexists; split; [done|]. cbn.
  pose proof (div_nonneg (s * d) n ltac:(lia) ltac:(lia)).
  pose proof (div_mul_le (s * d) n ltac:(lia)).
  split; [zlia|]. split; [done|].
  transitivity (s * d / n * n); [|done].
  apply Z.mul_le_mono_nonneg_r; lia.
Qed.

(** The exchanges of protocol versions below 10 also always
    return, stay within the amount offered and both limits, and never pay
    the seller of wheat less than the price of the offer. *)
Theorem exchange_legacy_favors_seller v w mwr mss :
  is_amount w -> is_amount mwr -> is_amount mss ->
  exists r,
    (if v <? 3 then exchangeV2 w p mwr mss else exchangeV3 w p mwr mss) = Ok r /\
    0 <= er_numWheatReceived r <= Z.min w mwr /\
    0 <= er_numSheepSend r <= mss /\
    er_numWheatReceived r * n <= er_numSheepSend r * d.
Proof.
  intros Hw Hr Hs. destruct (v <? 3).
  - destruct (exchangeV2_spec w mwr mss Hw Hr Hs) as (r&->&?&?&?&_). eauto.
  - by apply exchangeV3_spec.
Qed.

End Legacy.

Lemma exchange_legacy_favors_seller_witness :
  exists r,
    (if 9 <? 3 then @exchangeV2 Z_uint128 7 (mkPrice 5 3) 100 9
     else @exchangeV3 Z_uint128 7 (mkPrice 5 3) 100 9) = Ok r /\
    er_numWheatReceived r * 5 <= er_numSheepSend r * 3.
Proof.
  destruct (@exchange_legacy_favors_seller Z_uint128 (mkPrice 5 3)
    ltac:(unfold valid_price; cbn; zlia) 9 7 100 9
    ltac:(zlia) ltac:(zlia) ltac:(zlia)) as (r & Hr & _ & _ & Hf).
  exists r. split; [exact Hr | exact Hf].
Defined.

(** Concrete instances: the 1% rule accepts 3/2 against 100 wheat, and the
    example of the comment of OfferExchange.cpp (price 2/3, 101 wheat). *)
Lemma exchangeV10_refines_witness :
  @exchangeV10WithoutPriceErrorThresholds Z_uint128 (mkPrice 3 2) 100 1000 1000 1000 false
    = Ok (mkExchangeResultV10 100 150 false).
Proof.
  rewrite (@exchangeV10WithoutPriceErrorThresholds_refines Z_uint128 (mkPrice 3 2)).
  - reflexivity.
  - unfold valid_price; cbn; zlia.
  - zlia.
  - zlia.
  - zlia.
  - zlia.
Defined.

Lemma exchangeV10_guarantees_witness :
  exists r, @exchangeV10 Z_uint128 (mkPrice 3 2) 28 27 41 500 false = Ok r /\
    0 <= numSheepSend r <= Z.min 500 41.
Proof.
  destruct (@exchangeV10_guarantees Z_uint128 (mkPrice 3 2)
    ltac:(unfold valid_price; cbn; zlia) 28 27 41 500
    ltac:(zlia) ltac:(zlia) ltac:(zlia) ltac:(zlia)) as (r & Hr & _ & Hs & _).
  exists r. split; [exact Hr | exact Hs].
Defined.

Lemma adjustOffer_idempotent_witness :
  exists m', @adjustOffer Z_uint128 (mkPrice 2 3) 1000 67 = Ok m' /\
    0 <= m' <= 1000 /\ @adjustOffer Z_uint128 (mkPrice 2 3) m' 67 = Ok m'.
Proof.
  apply (@adjustOffer_idempotent Z_uint128 (mkPrice 2 3)
    ltac:(unfold valid_price; cbn; zlia) 1000 67); zlia.
Defined.

Lemma exchangeV10_path_payment_ok_witness :
  exists r, @exchangeV10 Z_uint128 (mkPrice 2 3) 150 101 INT64_MAX INT64_MAX true = Ok r.
Proof.
  apply (@exchangeV10_path_payment_ok Z_uint128 (mkPrice 2 3)
    ltac:(unfold valid_price; cbn; zlia)); try zlia.
  vm_compute. reflexivity.
Defined.

Lemma exchangeV10_path_payment_exact_witness :
  @exchangeV10 Z_uint128 (mkPrice 2 3) 150 101 INT64_MAX INT64_MAX true
    = Ok (mkExchangeResultV10 101 68 true).
Proof.
  apply (@exchangeV10_path_payment_exact Z_uint128 (mkPrice 2 3)
    ltac:(unfold valid_price; cbn; zlia)); try zlia; vm_compute; congruence.
Defined.
