(* ===== verification/LedgerEntries.v ===== *)
(** * Ledger entries, keys and headers

    The data of src/src/xdr/EssaBlockChain-ledger-entries.x and
    EssaBlockChain-ledger.x, and the functions of src/src/util/types.cpp on
    them.  Public keys and hashes are 256-bit opaque values, here integers
    whose order is the lexicographic order of their bytes; variable-length
    strings are [string]s (of 8-bit characters) and opaque arrays are lists
    of bytes.  The [ext] unions that only have a void arm carry no data. *)
From S2P Require Import Prelude Numeric.

Abbreviation AccountID := Z (only parsing).
Abbreviation Hash := Z (only parsing).

(** ** Assets *)

Inductive AssetType :=
| ASSET_TYPE_NATIVE
| ASSET_TYPE_CREDIT_ALPHANUM4
| ASSET_TYPE_CREDIT_ALPHANUM12.

#[export] Instance AssetType_eq_dec : EqDecision AssetType.
Proof. solve_decision. Defined.

Inductive Asset :=
| AssetNative
| AssetAlphaNum4 (assetCode : list Z) (issuer : AccountID)
| AssetAlphaNum12 (assetCode : list Z) (issuer : AccountID).

#[export] Instance Asset_eq_dec : EqDecision Asset.
Proof. solve_decision. Defined.

#[export] Instance Asset_countable : Countable Asset.
Proof.
  refine (inj_countable'
    (fun a => match a with
     | AssetNative => inl tt
     | AssetAlphaNum4 c i => inr (inl (c, i))
     | AssetAlphaNum12 c i => inr (inr (c, i))
     end)
    (fun x => match x with
     | inl _ => AssetNative
     | inr (inl (c, i)) => AssetAlphaNum4 c i
     | inr (inr (c, i)) => AssetAlphaNum12 c i
     end) _).
  by intros [].
Defined.

Definition asset_type (a : Asset) : AssetType :=
  match a with
  | AssetNative => ASSET_TYPE_NATIVE
  | AssetAlphaNum4 _ _ => ASSET_TYPE_CREDIT_ALPHANUM4
  | AssetAlphaNum12 _ _ => ASSET_TYPE_CREDIT_ALPHANUM12
  end.

(** [asset.type() == ASSET_TYPE_NATIVE] *)
Definition is_native (a : Asset) : bool :=
  bool_decide (asset_type a = ASSET_TYPE_NATIVE).

Lemma is_native_true a : is_native a = true <-> a = AssetNative.
Proof. unfold is_native. rewrite bool_decide_eq_true. destruct a; naive_solver. Qed.

(** [std::isalnum] in the classic locale *)
Definition isalnum (b : Z) : bool :=
  ((48 <=? b) && (b <=? 57)) || ((65 <=? b) && (b <=? 90))
  || ((97 <=? b) && (b <=? 122)).

(** The loop over the code bytes shared by the two arms of [isAssetValid]:
    [zeros] and the number of characters seen; [None] on an early
    [return false]. *)
Fixpoint scan_code (zeros : bool) (charcount : Z) (code : list Z) : option Z :=
  match code with
  | [] => Some charcount
  | b :: rest =>
      if b =? 0 then scan_code true charcount rest
      else if zeros then None
      else if (b >? 127) || negb (isalnum b) then None
      else scan_code zeros (charcount + 1) rest
  end.

(** [bool isAssetValid(Asset const& cur)] *)
Definition isAssetValid (cur : Asset) : bool :=
  match cur with
  | AssetNative => true
  | AssetAlphaNum4 code _ =>
      match scan_code false 0 code with
      | Some charcount => charcount >? 0  (* onechar *)
      | None => false
      end
  | AssetAlphaNum12 code _ =>
      match scan_code false 0 code with
      | Some charcount => charcount >? 4
      | None => false
      end
  end.

(** [AccountID getIssuer(Asset const& asset)]; on a native asset the union
    accessor throws *)
Definition getIssuer (asset : Asset) : res AccountID :=
  match asset with
  | AssetAlphaNum4 _ i => Ok i
  | AssetAlphaNum12 _ i => Ok i
  | AssetNative => Throw XdrWrongUnion
  end.

(** [bool compareAsset(Asset const& first, Asset const& second)] *)
Definition compareAsset (first second : Asset) : bool :=
  match first, second with
  | AssetNative, AssetNative => true
  | AssetAlphaNum4 c1 i1, AssetAlphaNum4 c2 i2 =>
      (i1 =? i2) && bool_decide (c1 = c2)
  | AssetAlphaNum12 c1 i1, AssetAlphaNum12 c2 i2 =>
      (i1 =? i2) && bool_decide (c1 = c2)
  | _, _ => false
  end.

Lemma compareAsset_eq a b : compareAsset a b = true <-> a = b.
Proof.
  destruct a, b; cbn; try (split; congruence);
    rewrite andb_true_iff, bool_decide_eq_true, Z.eqb_eq; naive_solver.
Qed.

(** A valid asset code is a non-empty run of alphanumeric characters followed
    only by zero bytes. *)
Lemma scan_code_zeros k code :
  scan_code true k code = (if forallb (fun b => b =? 0) code then Some k else None).
Proof.
  induction code as [|b code IH]; [done|]. cbn.
  by destruct (b =? 0).
Qed.

Lemma scan_code_spec k code k' :
  scan_code false k code = Some k' <->
  exists chars zeros, code = chars ++ zeros /\ k' = k + Z.of_nat (length chars) /\
    Forall (fun b => isalnum b = true) chars /\ Forall (fun b => b = 0) zeros.
Proof.
  revert k. induction code as [|b code IH]; intros k; cbn.
  - split.
    + intros [= <-]. exists [], []. cbn. repeat split; auto using Forall_nil. lia.
    + intros ([] & [] & ? & -> & _); [|done..]. cbn. f_equal. lia.
  - destruct (Z.eqb_spec b 0) as [->|Hb].
    + rewrite scan_code_zeros. split.
      * intros H. destruct (forallb _ code) eqn:E; [|done]. injection H as <-.
        exists [], (0 :: code). cbn. repeat split; auto; [lia|].
        constructor; [done|]. apply List.Forall_forall. intros x Hx.
        rewrite forallb_forall in E. apply E in Hx. lia.
      * intros ([|c chars] & zs & Heq & -> & Hc & Hz).
        -- cbn in Heq. subst zs. inversion Hz as [|? ? _ Hz']; subst.
           rewrite (proj2 (forallb_forall _ _)); [f_equal; cbn; lia|].
           rewrite List.Forall_forall in Hz'. intros x Hx. by rewrite (Hz' x Hx).
        -- injection Heq as <- ->. inversion Hc as [|? ? Hc0]. done.
    + destruct ((b >? 127) || negb (isalnum b)) eqn:E.
      * split; [done|]. intros ([|c chars] & zs & Heq & -> & Hc & Hz).
        -- cbn in Heq. subst zs. by inversion Hz.
        -- injection Heq as <- ->. inversion Hc as [|? ? Hc0]; subst.
           rewrite Hc0, orb_false_r in E. unfold isalnum in Hc0. lia.
      * rewrite IH. apply orb_false_iff in E as [_ E]. apply negb_false_iff in E.
        split.
        -- intros (chars & zs & -> & -> & ? & ?). exists (b :: chars), zs.
           cbn [length app]. repeat split; [lia|by constructor|done].
        -- intros ([|c chars] & zs & Heq & -> & Hc & Hz).
           ++ cbn in Heq. subst zs. by inversion Hz.
           ++ injection Heq as <- ->. inversion Hc; subst. exists chars, zs.
              cbn [length app]. repeat split; [lia|done|done].
Qed.

(** ** Entries *)

(** [struct Liabilities] *)
Record Liabilities := mkLiabilities { liab_buying : Z; liab_selling : Z }.

#[export] Instance Liabilities_eq_dec : EqDecision Liabilities.
Proof. solve_decision. Defined.

(** [union SignerKey]: the type tag (ed25519, pre-authorized transaction or
    hash-x) and the 256-bit body; ordered by tag, then body *)
Record SignerKey := mkSignerKey { sk_type : Z; sk_key : Z }.

#[export] Instance SignerKey_eq_dec : EqDecision SignerKey.
Proof. solve_decision. Defined.

Definition SignerKey_ltb (a b : SignerKey) : bool :=
  (sk_type a <? sk_type b)
  || ((sk_type a =? sk_type b) && (sk_key a <? sk_key b)).

Record Signer := mkSigner { signer_key : SignerKey; signer_weight : Z }.

#[export] Instance Signer_eq_dec : EqDecision Signer.
Proof. solve_decision. Defined.

Definition AUTH_REQUIRED_FLAG : Z := 1.
Definition AUTH_REVOCABLE_FLAG : Z := 2.
Definition AUTH_IMMUTABLE_FLAG : Z := 4.
Definition AUTHORIZED_FLAG : Z := 1.
Definition PASSIVE_FLAG : Z := 1.

(** [struct AccountEntry]; [acc_ext] is [None] for [ext.v() == 0] *)
Record AccountEntry := mkAccountEntry {
  acc_accountID : AccountID;
  acc_balance : Z;
  acc_seqNum : Z;
  acc_numSubEntries : Z;
  acc_inflationDest : option AccountID;
  acc_flags : Z;
  acc_homeDomain : string;
  acc_thresholds : list Z;
  acc_signers : list Signer;
  acc_ext : option Liabilities
}.

#[export] Instance AccountEntry_eq_dec : EqDecision AccountEntry.
Proof. solve_decision. Defined.

Definition set_acc_balance (x : Z) (r : AccountEntry) : AccountEntry :=
  mkAccountEntry (acc_accountID r) x (acc_seqNum r) (acc_numSubEntries r)
    (acc_inflationDest r) (acc_flags r) (acc_homeDomain r)
    (acc_thresholds r) (acc_signers r) (acc_ext r).

Definition set_acc_seqNum (x : Z) (r : AccountEntry) : AccountEntry :=
  mkAccountEntry (acc_accountID r) (acc_balance r) x (acc_numSubEntries r)
    (acc_inflationDest r) (acc_flags r) (acc_homeDomain r)
    (acc_thresholds r) (acc_signers r) (acc_ext r).

Definition set_acc_numSubEntries (x : Z) (r : AccountEntry) : AccountEntry :=
  mkAccountEntry (acc_accountID r) (acc_balance r) (acc_seqNum r) x
    (acc_inflationDest r) (acc_flags r) (acc_homeDomain r)
    (acc_thresholds r) (acc_signers r) (acc_ext r).

Definition set_acc_inflationDest (x : option AccountID) (r : AccountEntry) : AccountEntry :=
  mkAccountEntry (acc_accountID r) (acc_balance r) (acc_seqNum r)
    (acc_numSubEntries r) x (acc_flags r) (acc_homeDomain r)
    (acc_thresholds r) (acc_signers r) (acc_ext r).

Definition set_acc_flags (x : Z) (r : AccountEntry) : AccountEntry :=
  mkAccountEntry (acc_accountID r) (acc_balance r) (acc_seqNum r)
    (acc_numSubEntries r) (acc_inflationDest r) x (acc_homeDomain r)
    (acc_thresholds r) (acc_signers r) (acc_ext r).

Definition set_acc_homeDomain (x : string) (r : AccountEntry) : AccountEntry :=
  mkAccountEntry (acc_accountID r) (acc_balance r) (acc_seqNum r)
    (acc_numSubEntries r) (acc_inflationDest r) (acc_flags r) x
    (acc_thresholds r) (acc_signers r) (acc_ext r).

Definition set_acc_thresholds (x : list Z) (r : AccountEntry) : AccountEntry :=
  mkAccountEntry (acc_accountID r) (acc_balance r) (acc_seqNum r)
    (acc_numSubEntries r) (acc_inflationDest r) (acc_flags r)
    (acc_homeDomain r) x (acc_signers r) (acc_ext r).

Definition set_acc_signers (x : list Signer) (r : AccountEntry) : AccountEntry :=
  mkAccountEntry (acc_accountID r) (acc_balance r) (acc_seqNum r)
    (acc_numSubEntries r) (acc_inflationDest r) (acc_flags r)
    (acc_homeDomain r) (acc_thresholds r) x (acc_ext r).

Definition set_acc_ext (x : option Liabilities) (r : AccountEntry) : AccountEntry :=
  mkAccountEntry (acc_accountID r) (acc_balance r) (acc_seqNum r)
    (acc_numSubEntries r) (acc_inflationDest r) (acc_flags r)
    (acc_homeDomain r) (acc_thresholds r) (acc_signers r) x.

(** [struct TrustLineEntry] *)
Record TrustLineEntry := mkTrustLineEntry {
  tl_accountID : AccountID;
  tl_asset : Asset;
  tl_balance : Z;
  tl_limit : Z;
  tl_flags : Z;
  tl_ext : option Liabilities
}.

#[export] Instance TrustLineEntry_eq_dec : EqDecision TrustLineEntry.
Proof. solve_decision. Defined.

Definition set_tl_balance (x : Z) (r : TrustLineEntry) : TrustLineEntry :=
  mkTrustLineEntry (tl_accountID r) (tl_asset r) x (tl_limit r) (tl_flags r)
    (tl_ext r).

Definition set_tl_limit (x : Z) (r : TrustLineEntry) : TrustLineEntry :=
  mkTrustLineEntry (tl_accountID r) (tl_asset r) (tl_balance r) x (tl_flags r)
    (tl_ext r).

Definition set_tl_flags (x : Z) (r : TrustLineEntry) : TrustLineEntry :=
  mkTrustLineEntry (tl_accountID r) (tl_asset r) (tl_balance r) (tl_limit r) x
    (tl_ext r).

Definition set_tl_ext (x : option Liabilities) (r : TrustLineEntry) : TrustLineEntry :=
  mkTrustLineEntry (tl_accountID r) (tl_asset r) (tl_balance r) (tl_limit r)
    (tl_flags r) x.

(** [struct OfferEntry] *)
Record OfferEntry := mkOfferEntry {
  oe_sellerID : AccountID;
  oe_offerID : Z;
  oe_selling : Asset;
  oe_buying : Asset;
  oe_amount : Z;
  oe_price : Price;
  oe_flags : Z
}.

#[export] Instance OfferEntry_eq_dec : EqDecision OfferEntry.
Proof. solve_decision. Defined.

Definition set_oe_offerID (x : Z) (r : OfferEntry) : OfferEntry :=
  mkOfferEntry (oe_sellerID r) x (oe_selling r) (oe_buying r) (oe_amount r)
    (oe_price r) (oe_flags r).

Definition set_oe_amount (x : Z) (r : OfferEntry) : OfferEntry :=
  mkOfferEntry (oe_sellerID r) (oe_offerID r) (oe_selling r) (oe_buying r) x
    (oe_price r) (oe_flags r).

(** [struct DataEntry] *)
Record DataEntry := mkDataEntry {
  de_accountID : AccountID;
  de_dataName : string;
  de_dataValue : list Z
}.

#[export] Instance DataEntry_eq_dec : EqDecision DataEntry.
Proof. solve_decision. Defined.

Definition set_de_dataValue (x : list Z) (r : DataEntry) : DataEntry :=
  mkDataEntry (de_accountID r) (de_dataName r) x.

(** [LedgerEntry::data] *)
Inductive LedgerEntryData :=
| ACCOUNT (account : AccountEntry)
| TRUSTLINE (trustLine : TrustLineEntry)
| OFFER (offer : OfferEntry)
| DATA (data : DataEntry).

#[export] Instance LedgerEntryData_eq_dec : EqDecision LedgerEntryData.
Proof. solve_decision. Defined.

(** [struct LedgerEntry] *)
Record LedgerEntry := mkLedgerEntry {
  lastModifiedLedgerSeq : Z;
  le_data : LedgerEntryData
}.

#[export] Instance LedgerEntry_eq_dec : EqDecision LedgerEntry.
Proof. solve_decision. Defined.

Definition set_lastModifiedLedgerSeq (x : Z) (r : LedgerEntry) : LedgerEntry :=
  mkLedgerEntry x (le_data r).

Definition set_le_data (x : LedgerEntryData) (r : LedgerEntry) : LedgerEntry :=
  mkLedgerEntry (lastModifiedLedgerSeq r) x.

(** the union accessors *)
Definition get_account (le : LedgerEntry) : res AccountEntry :=
  match le_data le with ACCOUNT a => Ok a | _ => Throw XdrWrongUnion end.
Definition get_trustLine (le : LedgerEntry) : res TrustLineEntry :=
  match le_data le with TRUSTLINE t => Ok t | _ => Throw XdrWrongUnion end.
Definition get_offer (le : LedgerEntry) : res OfferEntry :=
  match le_data le with OFFER o => Ok o | _ => Throw XdrWrongUnion end.
Definition get_data (le : LedgerEntry) : res DataEntry :=
  match le_data le with DATA d => Ok d | _ => Throw XdrWrongUnion end.

(** ** Keys *)

(** [union LedgerKey] *)
Inductive LedgerKey :=
| KeyAccount (accountID : AccountID)
| KeyTrustLine (accountID : AccountID) (asset : Asset)
| KeyOffer (sellerID : AccountID) (offerID : Z)
| KeyData (accountID : AccountID) (dataName : string).

#[export] Instance LedgerKey_eq_dec : EqDecision LedgerKey.
Proof. solve_decision. Defined.

#[export] Instance LedgerKey_countable : Countable LedgerKey.
Proof.
  refine (inj_countable'
    (fun k => match k with
     | KeyAccount a => inl (inl a)
     | KeyTrustLine a s => inl (inr (a, s))
     | KeyOffer a o => inr (inl (a, o))
     | KeyData a n => inr (inr (a, n))
     end)
    (fun x => match x with
     | inl (inl a) => KeyAccount a
     | inl (inr (a, s)) => KeyTrustLine a s
     | inr (inl (a, o)) => KeyOffer a o
     | inr (inr (a, n)) => KeyData a n
     end) _).
  by intros [].
Defined.

(** [LedgerKey LedgerEntryKey(LedgerEntry const& e)] *)
Definition LedgerEntryKey (e : LedgerEntry) : LedgerKey :=
  match le_data e with
  | ACCOUNT a => KeyAccount (acc_accountID a)
  | TRUSTLINE t => KeyTrustLine (tl_accountID t) (tl_asset t)
  | OFFER o => KeyOffer (oe_sellerID o) (oe_offerID o)
  | DATA d => KeyData (de_accountID d) (de_dataName d)
  end.

(** ** The ledger header *)

(** [struct EssaBlockChainValue] *)
Record EssaBlockChainValue := mkEssaBlockChainValue {
  sv_txSetHash : Hash;
  sv_closeTime : Z;
  sv_upgrades : list (list Z)
}.

#[export] Instance EssaBlockChainValue_eq_dec : EqDecision EssaBlockChainValue.
Proof. solve_decision. Defined.

(** [struct LedgerHeader] *)
Record LedgerHeader := mkLedgerHeader {
  ledgerVersion : Z;
  previousLedgerHash : Hash;
  scpValue : EssaBlockChainValue;
  txSetResultHash : Hash;
  bucketListHash : Hash;
  ledgerSeq : Z;
  totalCoins : Z;
  feePool : Z;
  inflationSeq : Z;
  idPool : Z;
  baseFee : Z;
  baseReserve : Z;
  maxTxSetSize : Z;
  skipList : list Hash
}.

#[export] Instance LedgerHeader_eq_dec : EqDecision LedgerHeader.
Proof. solve_decision. Defined.

Definition set_ledgerVersion (x : Z) (r : LedgerHeader) : LedgerHeader :=
  mkLedgerHeader x (previousLedgerHash r) (scpValue r) (txSetResultHash r)
    (bucketListHash r) (ledgerSeq r) (totalCoins r) (feePool r)
    (inflationSeq r) (idPool r) (baseFee r) (baseReserve r)
    (maxTxSetSize r) (skipList r).

Definition set_ledgerSeq (x : Z) (r : LedgerHeader) : LedgerHeader :=
  mkLedgerHeader (ledgerVersion r) (previousLedgerHash r) (scpValue r)
    (txSetResultHash r) (bucketListHash r) x (totalCoins r)
    (feePool r) (inflationSeq r) (idPool r) (baseFee r)
    (baseReserve r) (maxTxSetSize r) (skipList r).

Definition set_totalCoins (x : Z) (r : LedgerHeader) : LedgerHeader :=
  mkLedgerHeader (ledgerVersion r) (previousLedgerHash r) (scpValue r)
    (txSetResultHash r) (bucketListHash r) (ledgerSeq r) x (feePool r)
    (inflationSeq r) (idPool r) (baseFee r) (baseReserve r)
    (maxTxSetSize r) (skipList r).

Definition set_feePool (x : Z) (r : LedgerHeader) : LedgerHeader :=
  mkLedgerHeader (ledgerVersion r) (previousLedgerHash r) (scpValue r)
    (txSetResultHash r) (bucketListHash r) (ledgerSeq r)
    (totalCoins r) x (inflationSeq r) (idPool r) (baseFee r)
    (baseReserve r) (maxTxSetSize r) (skipList r).

Definition set_inflationSeq (x : Z) (r : LedgerHeader) : LedgerHeader :=
  mkLedgerHeader (ledgerVersion r) (previousLedgerHash r) (scpValue r)
    (txSetResultHash r) (bucketListHash r) (ledgerSeq r)
    (totalCoins r) (feePool r) x (idPool r) (baseFee r)
    (baseReserve r) (maxTxSetSize r) (skipList r).

Definition set_idPool (x : Z) (r : LedgerHeader) : LedgerHeader :=
  mkLedgerHeader (ledgerVersion r) (previousLedgerHash r) (scpValue r)
    (txSetResultHash r) (bucketListHash r) (ledgerSeq r)
    (totalCoins r) (feePool r) (inflationSeq r) x (baseFee r)
    (baseReserve r) (maxTxSetSize r) (skipList r).

Definition set_baseFee (x : Z) (r : LedgerHeader) : LedgerHeader :=
  mkLedgerHeader (ledgerVersion r) (previousLedgerHash r) (scpValue r)
    (txSetResultHash r) (bucketListHash r) (ledgerSeq r)
    (totalCoins r) (feePool r) (inflationSeq r) (idPool r) x
    (baseReserve r) (maxTxSetSize r) (skipList r).

Definition set_baseReserve (x : Z) (r : LedgerHeader) : LedgerHeader :=
  mkLedgerHeader (ledgerVersion r) (previousLedgerHash r) (scpValue r)
    (txSetResultHash r) (bucketListHash r) (ledgerSeq r)
    (totalCoins r) (feePool r) (inflationSeq r) (idPool r) (baseFee r)
    x (maxTxSetSize r) (skipList r).

Definition set_maxTxSetSize (x : Z) (r : LedgerHeader) : LedgerHeader :=
  mkLedgerHeader (ledgerVersion r) (previousLedgerHash r) (scpValue r)
    (txSetResultHash r) (bucketListHash r) (ledgerSeq r)
    (totalCoins r) (feePool r) (inflationSeq r) (idPool r) (baseFee r)
    (baseReserve r) x (skipList r).

Definition set_bucketListHash (x : Hash) (r : LedgerHeader) : LedgerHeader :=
  mkLedgerHeader (ledgerVersion r) (previousLedgerHash r) (scpValue r)
    (txSetResultHash r) x (ledgerSeq r) (totalCoins r) (feePool r)
    (inflationSeq r) (idPool r) (baseFee r) (baseReserve r)
    (maxTxSetSize r) (skipList r).

Definition set_skipList (x : list Hash) (r : LedgerHeader) : LedgerHeader :=
  mkLedgerHeader (ledgerVersion r) (previousLedgerHash r) (scpValue r)
    (txSetResultHash r) (bucketListHash r) (ledgerSeq r)
    (totalCoins r) (feePool r) (inflationSeq r) (idPool r) (baseFee r)
    (baseReserve r) (maxTxSetSize r) x.

