(* ===== verification/TransactionUtils.v ===== *)
(** * Balances, liabilities and reserves of one ledger entry

    The functions of src/src/transactions/TransactionUtils.cpp that read or
    update a single account, trust line or offer.  A function that mutates
    its entry and returns a flag returns the flag and the new entry; the
    entry is the old one when the flag is false. *)
From S2P Require Import Prelude Numeric Exchange LedgerEntries.

(** ** Reading an entry *)

Definition getBuyingLiabilities (h : LedgerHeader) (le : LedgerEntry) : res Z :=
  if ledgerVersion h <? 10
  then Throw (RuntimeError "Liabilities accessed before version 10")
  else match le_data le with
  | ACCOUNT acc =>
      Ok (match acc_ext acc with None => 0 | Some l => liab_buying l end)
  | TRUSTLINE tl =>
      Ok (match tl_ext tl with None => 0 | Some l => liab_buying l end)
  | _ => Throw (RuntimeError "Unknown LedgerEntry type")
  end.

Definition getSellingLiabilities (h : LedgerHeader) (le : LedgerEntry) : res Z :=
  if ledgerVersion h <? 10
  then Throw (RuntimeError "Liabilities accessed before version 10")
  else match le_data le with
  | ACCOUNT acc =>
      Ok (match acc_ext acc with None => 0 | Some l => liab_selling l end)
  | TRUSTLINE tl =>
      Ok (match tl_ext tl with None => 0 | Some l => liab_selling l end)
  | _ => Throw (RuntimeError "Unknown LedgerEntry type")
  end.

(** [getMinBalance(header, uint32_t ownerCount)]: 32-bit arithmetic up to
    protocol version 8 *)
Definition getMinBalance (h : LedgerHeader) (ownerCount : Z) : Z :=
  if ledgerVersion h <=? 8
  then u32 (u32 (2 + ownerCount) * baseReserve h)
  else i64 (u32 (2 + ownerCount) * baseReserve h).

Definition isAuthorized (le : LedgerEntry) : res bool :=
  tl ← get_trustLine le;
  Ok (negb (Z.land (tl_flags tl) AUTHORIZED_FLAG =? 0)).

Definition isAuthRequired (le : LedgerEntry) : res bool :=
  acc ← get_account le;
  Ok (negb (Z.land (acc_flags acc) AUTH_REQUIRED_FLAG =? 0)).

Definition isImmutableAuth (le : LedgerEntry) : res bool :=
  acc ← get_account le;
  Ok (negb (Z.land (acc_flags acc) AUTH_IMMUTABLE_FLAG =? 0)).

Definition getAvailableBalance (h : LedgerHeader) (le : LedgerEntry) : res Z :=
  avail ←
    match le_data le with
    | ACCOUNT acc =>
        Ok (i64 (acc_balance acc - getMinBalance h (acc_numSubEntries acc)))
    | TRUSTLINE tl => Ok (tl_balance tl)
    | _ => Throw (RuntimeError "Unknown LedgerEntry type")
    end;
  if ledgerVersion h >=? 10 then
    s ← getSellingLiabilities h le; Ok (i64 (avail - s))
  else Ok avail.

Definition getMaxAmountReceive (h : LedgerHeader) (le : LedgerEntry) : res Z :=
  match le_data le with
  | ACCOUNT acc =>
      if ledgerVersion h >=? 10 then
        b ← getBuyingLiabilities h le;
        Ok (i64 (INT64_MAX - i64 (acc_balance acc + b)))
      else Ok INT64_MAX
  | TRUSTLINE tl =>
      auth ← isAuthorized le;
      if auth : bool then
        let amount := i64 (tl_limit tl - tl_balance tl) in
        if ledgerVersion h >=? 10 then
          b ← getBuyingLiabilities h le; Ok (i64 (amount - b))
        else Ok amount
      else Ok 0
  | _ => Throw (RuntimeError "Unknown LedgerEntry type")
  end.

Definition getMinimumLimit (h : LedgerHeader) (le : LedgerEntry) : res Z :=
  tl ← get_trustLine le;
  if ledgerVersion h >=? 10 then
    b ← getBuyingLiabilities h le; Ok (i64 (tl_balance tl + b))
  else Ok (tl_balance tl).

Definition getStartingSequenceNumber (h : LedgerHeader) : Z :=
  u64 (Z.shiftl (ledgerSeq h) 32).

(** [++header.current().idPool]: the new id and the new header *)
Definition generateID (h : LedgerHeader) : Z * LedgerHeader :=
  let id := u64 (idPool h + 1) in (id, set_idPool id h).

Section OfferLiabilities.
Context {U : UInt128}.

Definition getOfferBuyingLiabilities (h : LedgerHeader) (le : LedgerEntry)
    : res Z :=
  if ledgerVersion h <? 10
  then Throw (RuntimeError "Offer liabilities calculated before version 10")
  else
    oe ← get_offer le;
    r ← exchangeV10WithoutPriceErrorThresholds (oe_price oe) (oe_amount oe)
          INT64_MAX INT64_MAX INT64_MAX false;
    Ok (numSheepSend r).

Definition getOfferSellingLiabilities (h : LedgerHeader) (le : LedgerEntry)
    : res Z :=
  if ledgerVersion h <? 10
  then Throw (RuntimeError "Offer liabilities calculated before version 10")
  else
    oe ← get_offer le;
    r ← exchangeV10WithoutPriceErrorThresholds (oe_price oe) (oe_amount oe)
          INT64_MAX INT64_MAX INT64_MAX false;
    Ok (numWheatReceived r).

End OfferLiabilities.

(** ** Updating an entry *)

Definition addBalance (h : LedgerHeader) (entry : LedgerEntry) (delta : Z)
    : res (bool * LedgerEntry) :=
  match le_data entry with
  | ACCOUNT acc =>
      if delta =? 0 then Ok (true, entry)
      else
        '(ok, newBalance) ← addBalance_i64 (acc_balance acc) delta INT64_MAX;
        if negb ok then Ok (false, entry)
        else
          let done := Ok (true, set_le_data
            (ACCOUNT (set_acc_balance newBalance acc)) entry) in
          if ledgerVersion h >=? 10 then
            let minBalance := getMinBalance h (acc_numSubEntries acc) in
            low ← (if delta <? 0 then
                     s ← getSellingLiabilities h entry;
                     Ok (i64 (newBalance - minBalance) <? s)
                   else Ok false);
            if low : bool then Ok (false, entry)
            else
              b ← getBuyingLiabilities h entry;
              if newBalance >? i64 (INT64_MAX - b) then Ok (false, entry)
              else done
          else done
  | TRUSTLINE tl =>
      if delta =? 0 then Ok (true, entry)
      else
        auth ← isAuthorized entry;
        if negb auth then Ok (false, entry)
        else
          '(ok, newBalance) ← addBalance_i64 (tl_balance tl) delta (tl_limit tl);
          if negb ok then Ok (false, entry)
          else
            let done := Ok (true, set_le_data
              (TRUSTLINE (set_tl_balance newBalance tl)) entry) in
            if ledgerVersion h >=? 10 then
              s ← getSellingLiabilities h entry;
              if newBalance <? s then Ok (false, entry)
              else
                b ← getBuyingLiabilities h entry;
                if newBalance >? i64 (tl_limit tl - b) then Ok (false, entry)
                else done
            else done
  | _ => Throw (RuntimeError "Unknown LedgerEntry type")
  end.

(** the liabilities of an entry with [ext.v() == 0] upgraded to
    [Liabilities{0, 0}] first *)
Definition with_buying (b : Z) (ext : option Liabilities) : option Liabilities :=
  Some (mkLiabilities b (match ext with None => 0 | Some l => liab_selling l end)).
Definition with_selling (s : Z) (ext : option Liabilities) : option Liabilities :=
  Some (mkLiabilities (match ext with None => 0 | Some l => liab_buying l end) s).

Definition addBuyingLiabilities (h : LedgerHeader) (entry : LedgerEntry)
    (delta : Z) : res (bool * LedgerEntry) :=
  buyingLiab ← getBuyingLiabilities h entry;
  if delta =? 0 then Ok (true, entry)
  else match le_data entry with
  | ACCOUNT acc =>
      let maxLiabilities := i64 (INT64_MAX - acc_balance acc) in
      '(ok, buyingLiab) ← addBalance_i64 buyingLiab delta maxLiabilities;
      if ok : bool then Ok (true, set_le_data
        (ACCOUNT (set_acc_ext (with_buying buyingLiab (acc_ext acc)) acc)) entry)
      else Ok (false, entry)
  | TRUSTLINE tl =>
      auth ← isAuthorized entry;
      if negb auth then Ok (false, entry)
      else
        let maxLiabilities := i64 (tl_limit tl - tl_balance tl) in
        '(ok, buyingLiab) ← addBalance_i64 buyingLiab delta maxLiabilities;
        if ok : bool then Ok (true, set_le_data
          (TRUSTLINE (set_tl_ext (with_buying buyingLiab (tl_ext tl)) tl)) entry)
        else Ok (false, entry)
  | _ => Throw (RuntimeError "Unknown LedgerEntry type")
  end.

Definition addSellingLiabilities (h : LedgerHeader) (entry : LedgerEntry)
    (delta : Z) : res (bool * LedgerEntry) :=
  sellingLiab ← getSellingLiabilities h entry;
  if delta =? 0 then Ok (true, entry)
  else match le_data entry with
  | ACCOUNT acc =>
      let maxLiabilities :=
        i64 (acc_balance acc - getMinBalance h (acc_numSubEntries acc)) in
      if maxLiabilities <? 0 then Ok (false, entry)
      else
        '(ok, sellingLiab) ← addBalance_i64 sellingLiab delta maxLiabilities;
        if ok : bool then Ok (true, set_le_data
          (ACCOUNT (set_acc_ext (with_selling sellingLiab (acc_ext acc)) acc)) entry)
        else Ok (false, entry)
  | TRUSTLINE tl =>
      auth ← isAuthorized entry;
      if negb auth then Ok (false, entry)
      else
        let maxLiabilities := tl_balance tl in
        '(ok, sellingLiab) ← addBalance_i64 sellingLiab delta maxLiabilities;
        if ok : bool then Ok (true, set_le_data
          (TRUSTLINE (set_tl_ext (with_selling sellingLiab (tl_ext tl)) tl)) entry)
        else Ok (false, entry)
  | _ => Throw (RuntimeError "Unknown LedgerEntry type")
  end.

Definition addNumEntries (h : LedgerHeader) (entry : LedgerEntry) (count : Z)
    : res (bool * LedgerEntry) :=
  acc ← get_account entry;
  let newEntriesCount := i32 (u32 (acc_numSubEntries acc + count)) in
  if newEntriesCount <? 0 then Throw (RuntimeError "invalid account state")
  else
    let effMinBalance := getMinBalance h (u32 newEntriesCount) in
    effMinBalance ←
      (if ledgerVersion h >=? 10 then
         s ← getSellingLiabilities h entry; Ok (i64 (effMinBalance + s))
       else Ok effMinBalance);
    if (count >? 0) && (acc_balance acc <? effMinBalance)
    then Ok (false, entry)
    else Ok (true, set_le_data
      (ACCOUNT (set_acc_numSubEntries (u32 newEntriesCount) acc)) entry).

Definition setAuthorized (entry : LedgerEntry) (authorized : bool)
    : res LedgerEntry :=
  tl ← get_trustLine entry;
  let flags :=
    if authorized then Z.lor (tl_flags tl) AUTHORIZED_FLAG
    else Z.land (tl_flags tl) (u32 (Z.lnot AUTHORIZED_FLAG)) in
  Ok (set_le_data (TRUSTLINE (set_tl_flags flags tl)) entry).

(** [std::sort] on the keys of the signers; equal keys do not occur in an
    account, so the order of equal elements is immaterial *)
Fixpoint insert_signer (s : Signer) (l : list Signer) : list Signer :=
  match l with
  | [] => [s]
  | x :: l' =>
      if SignerKey_ltb (signer_key s) (signer_key x) then s :: x :: l'
      else x :: insert_signer s l'
  end.

Definition normalizeSigners (entry : LedgerEntry) : res LedgerEntry :=
  acc ← get_account entry;
  Ok (set_le_data (ACCOUNT
    (set_acc_signers (foldr insert_signer [] (acc_signers acc)) acc)) entry).

(** ** The reserve and liability invariant

    What a ledger of protocol version 10 or later guarantees about an entry
    that holds a balance: the balance covers the reserve and the selling
    liabilities, and leaves room for the buying liabilities. *)

Definition ext_buying (e : option Liabilities) : Z :=
  match e with None => 0 | Some l => liab_buying l end.
Definition ext_selling (e : option Liabilities) : Z :=
  match e with None => 0 | Some l => liab_selling l end.

(** the reserve over unbounded integers *)
Definition reserve (h : LedgerHeader) (ownerCount : Z) : Z :=
  (2 + ownerCount) * baseReserve h.

Definition header_ok (h : LedgerHeader) : Prop :=
  10 <= ledgerVersion h /\ is_u32 (baseReserve h).

Definition account_ok (h : LedgerHeader) (a : AccountEntry) : Prop :=
  0 <= acc_numSubEntries a <= INT32_MAX /\
  0 <= ext_buying (acc_ext a) /\ 0 <= ext_selling (acc_ext a) /\
  reserve h (acc_numSubEntries a) + ext_selling (acc_ext a) <= acc_balance a /\
  acc_balance a + ext_buying (acc_ext a) <= INT64_MAX.

Definition trustline_ok (t : TrustLineEntry) : Prop :=
  0 <= ext_buying (tl_ext t) /\ 0 <= ext_selling (tl_ext t) /\
  ext_selling (tl_ext t) <= tl_balance t /\
  tl_balance t + ext_buying (tl_ext t) <= tl_limit t <= INT64_MAX.

Definition entry_ok (h : LedgerHeader) (le : LedgerEntry) : Prop :=
  match le_data le with
  | ACCOUNT a => account_ok h a
  | TRUSTLINE t => trustline_ok t
  | _ => True
  end.

Definition holds_balance (le : LedgerEntry) : bool :=
  match le_data le with ACCOUNT _ | TRUSTLINE _ => true | _ => false end.

Lemma getMinBalance_reserve h c :
  header_ok h -> 0 <= c <= INT32_MAX -> reserve h c <= INT64_MAX ->
  getMinBalance h c = reserve h c.
Proof.
  intros [Hv Hb] Hc Hr. unfold getMinBalance, reserve in *.
  rewrite (proj2 (Z.leb_gt _ _)) by lia.
  rewrite u32_id, i64_id by (unfold_ints; nia). done.
Qed.

Lemma reserve_nonneg h c : header_ok h -> 0 <= c -> 0 <= reserve h c.
Proof. intros [_ Hb] Hc. unfold reserve. unfold_ints. nia. Qed.

Lemma getSellingLiabilities_acc h m a :
  header_ok h -> getSellingLiabilities h (mkLedgerEntry m (ACCOUNT a)) = Ok (ext_selling (acc_ext a)).
Proof. intros [Hv _]. unfold getSellingLiabilities. by rewrite (proj2 (Z.ltb_ge _ _)) by lia. Qed.

Lemma getBuyingLiabilities_acc h m a :
  header_ok h -> getBuyingLiabilities h (mkLedgerEntry m (ACCOUNT a)) = Ok (ext_buying (acc_ext a)).
Proof. intros [Hv _]. unfold getBuyingLiabilities. by rewrite (proj2 (Z.ltb_ge _ _)) by lia. Qed.

Lemma getSellingLiabilities_tl h m t :
  header_ok h -> getSellingLiabilities h (mkLedgerEntry m (TRUSTLINE t)) = Ok (ext_selling (tl_ext t)).
Proof. intros [Hv _]. unfold getSellingLiabilities. by rewrite (proj2 (Z.ltb_ge _ _)) by lia. Qed.

Lemma getBuyingLiabilities_tl h m t :
  header_ok h -> getBuyingLiabilities h (mkLedgerEntry m (TRUSTLINE t)) = Ok (ext_buying (tl_ext t)).
Proof. intros [Hv _]. unfold getBuyingLiabilities. by rewrite (proj2 (Z.ltb_ge _ _)) by lia. Qed.

Lemma version_geb_10 h : header_ok h -> (ledgerVersion h >=? 10) = true.
Proof. intros [Hv _]. rewrite Z.geb_leb. lia. Qed.

Definition tl_authorized (t : TrustLineEntry) : bool :=
  negb (Z.land (tl_flags t) AUTHORIZED_FLAG =? 0).

(** *** addBalance, exactly *)

Definition account_admits (h : LedgerHeader) (a : AccountEntry) (delta : Z) : bool :=
  (delta =? 0) ||
  ((0 <=? acc_balance a + delta) &&
   (negb (delta <? 0) ||
    (reserve h (acc_numSubEntries a) + ext_selling (acc_ext a) <=? acc_balance a + delta)) &&
   (acc_balance a + delta + ext_buying (acc_ext a) <=? INT64_MAX)).

Definition trustline_admits (t : TrustLineEntry) (delta : Z) : bool :=
  (delta =? 0) ||
  (tl_authorized t && (ext_selling (tl_ext t) <=? tl_balance t + delta) &&
   (tl_balance t + delta + ext_buying (tl_ext t) <=? tl_limit t)).

Ltac acc_bounds h a :=
  match goal with
  | Hh : header_ok h, Ha : account_ok h a |- _ =>
      let H1 := fresh in let H2 := fresh in let H3 := fresh in
      let H4 := fresh in let H5 := fresh in
      pose proof Ha as (H1 & H2 & H3 & H4 & H5);
      pose proof (reserve_nonneg h (acc_numSubEntries a) Hh (proj1 H1))
  end.

Lemma addBalance_account h m a delta :
  header_ok h -> account_ok h a -> is_i64 delta ->
  addBalance h (mkLedgerEntry m (ACCOUNT a)) delta =
    Ok (if account_admits h a delta
        then (true, mkLedgerEntry m (ACCOUNT (set_acc_balance (acc_balance a + delta) a)))
        else (false, mkLedgerEntry m (ACCOUNT a))).
Proof.
  intros Hh Ha Hd. acc_bounds h a. unfold addBalance, account_admits. cbn [le_data].
  destruct (Z.eqb_spec delta 0) as [->|Hd0]; cbn [orb].
  { rewrite Z.add_0_r. by destruct a. }
  rewrite addBalance_i64_spec by zlia. cbn [mbind res_bind].
  rewrite (proj2 (Z.eqb_neq _ _) Hd0). cbn [orb].
  destruct (Z.leb_spec 0 (acc_balance a + delta)); cbn [andb]; [|done].
  destruct (Z.leb_spec (acc_balance a + delta) INT64_MAX); cbn [negb].
  2:{ replace (_ <=? INT64_MAX) with false by (symmetry; zlia). by rewrite andb_false_r. }
  rewrite version_geb_10, getMinBalance_reserve by (done || zlia).
  rewrite getSellingLiabilities_acc, getBuyingLiabilities_acc by done.
  cbn [mbind res_bind]. rewrite !i64_id by zlia.
  destruct (delta <? 0) eqn:Ed; zb; cbn [mbind res_bind negb orb].
  - destruct (Z.ltb_spec (acc_balance a + delta - reserve h (acc_numSubEntries a)) (ext_selling (acc_ext a))).
    { by rewrite (proj2 (Z.leb_gt _ _)) by lia. }
    rewrite (proj2 (Z.leb_le (reserve _ _ + _) _)) by lia. cbn [andb]. rewrite Z.gtb_ltb.
    destruct (Z.ltb_spec (INT64_MAX - ext_buying (acc_ext a)) (acc_balance a + delta)),
      (Z.leb_spec (acc_balance a + delta + ext_buying (acc_ext a)) INT64_MAX); done || lia.
  - rewrite Z.gtb_ltb. cbn [andb].
    destruct (Z.ltb_spec (INT64_MAX - ext_buying (acc_ext a)) (acc_balance a + delta)),
      (Z.leb_spec (acc_balance a + delta + ext_buying (acc_ext a)) INT64_MAX); done || lia.
Qed.

Lemma addBalance_trustline h m t delta :
  header_ok h -> trustline_ok t -> is_i64 delta ->
  addBalance h (mkLedgerEntry m (TRUSTLINE t)) delta =
    Ok (if trustline_admits t delta
        then (true, mkLedgerEntry m (TRUSTLINE (set_tl_balance (tl_balance t + delta) t)))
        else (false, mkLedgerEntry m (TRUSTLINE t))).
Proof.
  intros Hh Ht Hd. pose proof Ht as (?&?&?&?&?).
  unfold addBalance, trustline_admits. cbn [le_data].
  destruct (Z.eqb_spec delta 0) as [->|Hd0]; cbn [orb].
  { rewrite Z.add_0_r. by destruct t. }
  change (isAuthorized (mkLedgerEntry m (TRUSTLINE t))) with (Ok (tl_authorized t)).
  cbn [mbind res_bind]. destruct (tl_authorized t); cbn [negb andb]; [|done].
  rewrite addBalance_i64_spec by zlia. cbn [mbind res_bind].
  rewrite (proj2 (Z.eqb_neq _ _) Hd0). cbn [orb].
  rewrite version_geb_10, getSellingLiabilities_tl, getBuyingLiabilities_tl by done.
  cbn [mbind res_bind]. rewrite i64_id by zlia.
  destruct (Z.leb_spec 0 (tl_balance t + delta)),
    (Z.leb_spec (tl_balance t + delta) (tl_limit t)); cbn [andb negb];
  rewrite ?Z.gtb_ltb;
  destruct (Z.leb_spec (ext_selling (tl_ext t)) (tl_balance t + delta)),
    (Z.leb_spec (tl_balance t + delta + ext_buying (tl_ext t)) (tl_limit t)); cbn [andb];
  try (done || lia);
  destruct (Z.ltb_spec (tl_balance t + delta) (ext_selling (tl_ext t))),
    (Z.ltb_spec (tl_limit t - ext_buying (tl_ext t)) (tl_balance t + delta));
    done || lia.
Qed.

(** On an entry that satisfies the invariant, [addBalance] decides
    exactly whether the change respects the reserve, the liabilities, the
    limit and the authorization, applies the exact change when it does and
    leaves the entry as it was when it does not. *)
Theorem addBalance_exact h le delta :
  header_ok h -> entry_ok h le -> holds_balance le = true -> is_i64 delta ->
  addBalance h le delta = Ok
    match le_data le with
    | ACCOUNT a =>
        if account_admits h a delta
        then (true, set_le_data (ACCOUNT (set_acc_balance (acc_balance a + delta) a)) le)
        else (false, le)
    | TRUSTLINE t =>
        if trustline_admits t delta
        then (true, set_le_data (TRUSTLINE (set_tl_balance (tl_balance t + delta) t)) le)
        else (false, le)
    | _ => (false, le)
    end.
Proof.
  intros Hh He Hb Hd. destruct le as [m []]; try done.
  - by rewrite addBalance_account.
  - by rewrite addBalance_trustline.
Qed.

(** *** Liabilities *)

Lemma addBuyingLiabilities_account h m a delta :
  header_ok h -> account_ok h a -> is_i64 delta ->
  addBuyingLiabilities h (mkLedgerEntry m (ACCOUNT a)) delta =
    Ok (if delta =? 0 then (true, mkLedgerEntry m (ACCOUNT a))
        else if (0 <=? ext_buying (acc_ext a) + delta) &&
                (acc_balance a + (ext_buying (acc_ext a) + delta) <=? INT64_MAX)
        then (true, mkLedgerEntry m (ACCOUNT
          (set_acc_ext (with_buying (ext_buying (acc_ext a) + delta) (acc_ext a)) a)))
        else (false, mkLedgerEntry m (ACCOUNT a))).
Proof.
  intros Hh Ha Hd. acc_bounds h a. unfold addBuyingLiabilities. cbn [le_data].
  rewrite getBuyingLiabilities_acc by done. cbn [mbind res_bind].
  destruct (Z.eqb_spec delta 0) as [->|Hd0]; [done|].
  rewrite i64_id by zlia. rewrite addBalance_i64_spec by zlia. cbn [mbind res_bind].
  rewrite (proj2 (Z.eqb_neq _ _) Hd0). cbn [orb].
  replace (ext_buying (acc_ext a) + delta <=? INT64_MAX - acc_balance a)
    with (acc_balance a + (ext_buying (acc_ext a) + delta) <=? INT64_MAX)
    by (apply eq_bool_prop_intro; rewrite !Is_true_true, !Z.leb_le; lia).
  by destruct (_ && _)%bool.
Qed.

Lemma addBuyingLiabilities_trustline h m t delta :
  header_ok h -> trustline_ok t -> is_i64 delta ->
  addBuyingLiabilities h (mkLedgerEntry m (TRUSTLINE t)) delta =
    Ok (if delta =? 0 then (true, mkLedgerEntry m (TRUSTLINE t))
        else if tl_authorized t && (0 <=? ext_buying (tl_ext t) + delta) &&
                (tl_balance t + (ext_buying (tl_ext t) + delta) <=? tl_limit t)
        then (true, mkLedgerEntry m (TRUSTLINE
          (set_tl_ext (with_buying (ext_buying (tl_ext t) + delta) (tl_ext t)) t)))
        else (false, mkLedgerEntry m (TRUSTLINE t))).
Proof.
  intros Hh Ht Hd. pose proof Ht as (?&?&?&?&?). unfold addBuyingLiabilities.
  cbn [le_data]. rewrite getBuyingLiabilities_tl by done. cbn [mbind res_bind].
  destruct (Z.eqb_spec delta 0) as [->|Hd0]; [done|].
  change (isAuthorized (mkLedgerEntry m (TRUSTLINE t))) with (Ok (tl_authorized t)).
  cbn [mbind res_bind]. destruct (tl_authorized t); cbn [negb andb]; [|done].
  rewrite i64_id by zlia. rewrite addBalance_i64_spec by zlia. cbn [mbind res_bind].
  rewrite (proj2 (Z.eqb_neq _ _) Hd0). cbn [orb].
  replace (ext_buying (tl_ext t) + delta <=? tl_limit t - tl_balance t)
    with (tl_balance t + (ext_buying (tl_ext t) + delta) <=? tl_limit t)
    by (apply eq_bool_prop_intro; rewrite !Is_true_true, !Z.leb_le; lia).
  by destruct (_ && _)%bool.
Qed.

Lemma addSellingLiabilities_account h m a delta :
  header_ok h -> account_ok h a -> is_i64 delta ->
  addSellingLiabilities h (mkLedgerEntry m (ACCOUNT a)) delta =
    Ok (if delta =? 0 then (true, mkLedgerEntry m (ACCOUNT a))
        else if (0 <=? ext_selling (acc_ext a) + delta) &&
                (reserve h (acc_numSubEntries a) + (ext_selling (acc_ext a) + delta)
                  <=? acc_balance a)
        then (true, mkLedgerEntry m (ACCOUNT
          (set_acc_ext (with_selling (ext_selling (acc_ext a) + delta) (acc_ext a)) a)))
        else (false, mkLedgerEntry m (ACCOUNT a))).
Proof.
  intros Hh Ha Hd. acc_bounds h a. unfold addSellingLiabilities. cbn [le_data].
  rewrite getSellingLiabilities_acc by done. cbn [mbind res_bind].
  destruct (Z.eqb_spec delta 0) as [->|Hd0]; [done|].
  rewrite getMinBalance_reserve by (done || zlia).
  rewrite i64_id by zlia. rewrite (proj2 (Z.ltb_ge _ _)) by lia.
  rewrite addBalance_i64_spec by zlia. cbn [mbind res_bind].
  rewrite (proj2 (Z.eqb_neq _ _) Hd0). cbn [orb].
  replace (ext_selling (acc_ext a) + delta <=? acc_balance a - reserve h (acc_numSubEntries a))
    with (reserve h (acc_numSubEntries a) + (ext_selling (acc_ext a) + delta) <=? acc_balance a)
    by (apply eq_bool_prop_intro; rewrite !Is_true_true, !Z.leb_le; lia).
  by destruct (_ && _)%bool.
Qed.

Lemma addSellingLiabilities_trustline h m t delta :
  header_ok h -> trustline_ok t -> is_i64 delta ->
  addSellingLiabilities h (mkLedgerEntry m (TRUSTLINE t)) delta =
    Ok (if delta =? 0 then (true, mkLedgerEntry m (TRUSTLINE t))
        else if tl_authorized t && ((0 <=? ext_selling (tl_ext t) + delta) &&
                (ext_selling (tl_ext t) + delta <=? tl_balance t))
        then (true, mkLedgerEntry m (TRUSTLINE
          (set_tl_ext (with_selling (ext_selling (tl_ext t) + delta) (tl_ext t)) t)))
        else (false, mkLedgerEntry m (TRUSTLINE t))).
Proof.
  intros Hh Ht Hd. pose proof Ht as (?&?&?&?&?). unfold addSellingLiabilities.
  cbn [le_data]. rewrite getSellingLiabilities_tl by done. cbn [mbind res_bind].
  destruct (Z.eqb_spec delta 0) as [->|Hd0]; [done|].
  change (isAuthorized (mkLedgerEntry m (TRUSTLINE t))) with (Ok (tl_authorized t)).
  cbn [mbind res_bind]. destruct (tl_authorized t); cbn [negb andb]; [|done].
  rewrite addBalance_i64_spec by zlia. cbn [mbind res_bind].
  rewrite (proj2 (Z.eqb_neq _ _) Hd0). cbn [orb].
  by destruct (_ && _)%bool.
Qed.

(** *** Number of subentries *)

(** a change of the subentry count that keeps it representable and the
    reserve within 63 bits *)
Definition count_ok (h : LedgerHeader) (a : AccountEntry) (count : Z) : Prop :=
  0 <= acc_numSubEntries a + count <= INT32_MAX /\
  reserve h (acc_numSubEntries a + count) + ext_selling (acc_ext a) <= INT64_MAX.

Lemma addNumEntries_account h m a count :
  header_ok h -> account_ok h a -> count_ok h a count ->
  addNumEntries h (mkLedgerEntry m (ACCOUNT a)) count =
    Ok (if (0 <? count) &&
           (acc_balance a <?
             reserve h (acc_numSubEntries a + count) + ext_selling (acc_ext a))
        then (false, mkLedgerEntry m (ACCOUNT a))
        else (true, mkLedgerEntry m (ACCOUNT
          (set_acc_numSubEntries (acc_numSubEntries a + count) a)))).
Proof.
  intros Hh Ha [Hc Hr]. acc_bounds h a. unfold addNumEntries.
  cbn [get_account le_data mbind res_bind].
  pose proof (reserve_nonneg h (acc_numSubEntries a + count) Hh (proj1 Hc)).
  rewrite u32_id, i32_id, (u32_id (acc_numSubEntries a + count)) by zlia.
  rewrite (proj2 (Z.ltb_ge _ _)) by lia.
  rewrite getMinBalance_reserve by (done || zlia).
  rewrite version_geb_10, getSellingLiabilities_acc by done. cbn [mbind res_bind].
  rewrite i64_id by zlia. rewrite Z.gtb_ltb. by destruct (_ && _)%bool.
Qed.

Lemma reserve_mono h c1 c2 :
  header_ok h -> c1 <= c2 -> reserve h c1 <= reserve h c2.
Proof. intros [_ Hb] Hc. unfold reserve. unfold_ints. nia. Qed.

(** ** The invariant is preserved *)

Inductive entry_op :=
| OpBalance (delta : Z)
| OpBuying (delta : Z)
| OpSelling (delta : Z)
| OpSubEntries (count : Z).

Definition run_entry_op (h : LedgerHeader) (o : entry_op) (le : LedgerEntry)
    : res (bool * LedgerEntry) :=
  match o with
  | OpBalance d => addBalance h le d
  | OpBuying d => addBuyingLiabilities h le d
  | OpSelling d => addSellingLiabilities h le d
  | OpSubEntries c => addNumEntries h le c
  end.

(** the operations that the code applies: 64-bit amounts on entries that
    hold a balance, subentry changes on accounts *)
Definition entry_op_ok (h : LedgerHeader) (o : entry_op) (le : LedgerEntry) : Prop :=
  match o with
  | OpBalance d | OpBuying d | OpSelling d => is_i64 d /\ holds_balance le = true
  | OpSubEntries c => exists a, le_data le = ACCOUNT a /\ count_ok h a c
  end.

Ltac crush_entry :=
  repeat match goal with
  | H : (if _ then _ else _) = _ |- _ => case_match
  | H : (_, _) = (_, _) |- _ => injection H as <- <-
  | H : Is_true _ |- _ => apply Is_true_true in H
  | H : account_admits _ _ _ = true |- _ => unfold account_admits in H
  | H : trustline_admits _ _ = true |- _ => unfold trustline_admits in H
  | H : (_ || _)%bool = true |- _ => apply orb_true_iff in H as [?|?]
  end; zb.

Lemma addBalance_preserves h le delta b le' :
  header_ok h -> entry_ok h le -> holds_balance le = true -> is_i64 delta ->
  addBalance h le delta = Ok (b, le') -> entry_ok h le' /\ (b = false -> le' = le).
Proof.
  intros Hh He Hb Hd H. destruct le as [m []]; try done; cbn in He.
  - rewrite addBalance_account in H by done. injection H as H.
    acc_bounds h account. crush_entry; (split; [|done]); try done;
      repeat split; cbn; lia.
  - rewrite addBalance_trustline in H by done. injection H as H.
    pose proof He as (?&?&?&?&?). crush_entry; (split; [|done]); try done;
      repeat split; cbn; lia.
Qed.

Lemma addBuyingLiabilities_preserves h le delta b le' :
  header_ok h -> entry_ok h le -> holds_balance le = true -> is_i64 delta ->
  addBuyingLiabilities h le delta = Ok (b, le') ->
  entry_ok h le' /\ (b = false -> le' = le).
Proof.
  intros Hh He Hb Hd H. destruct le as [m []]; try done; cbn in He.
  - rewrite addBuyingLiabilities_account in H by done. injection H as H.
    acc_bounds h account. crush_entry; (split; [|done]); try done;
      repeat split; cbn; try done; try lia.
  - rewrite addBuyingLiabilities_trustline in H by done. injection H as H.
    pose proof He as (?&?&?&?&?). crush_entry; (split; [|done]); try done;
      repeat split; cbn; try done; try lia.
Qed.

Lemma addSellingLiabilities_preserves h le delta b le' :
  header_ok h -> entry_ok h le -> holds_balance le = true -> is_i64 delta ->
  addSellingLiabilities h le delta = Ok (b, le') ->
  entry_ok h le' /\ (b = false -> le' = le).
Proof.
  intros Hh He Hb Hd H. destruct le as [m []]; try done; cbn in He.
  - rewrite addSellingLiabilities_account in H by done. injection H as H.
    acc_bounds h account. crush_entry; (split; [|done]); try done;
      repeat split; cbn; try done; try lia.
  - rewrite addSellingLiabilities_trustline in H by done. injection H as H.
    pose proof He as (?&?&?&?&?). crush_entry; (split; [|done]); try done;
      repeat split; cbn; try done; try lia.
Qed.

Lemma addNumEntries_preserves h m a count b le' :
  header_ok h -> account_ok h a -> count_ok h a count ->
  addNumEntries h (mkLedgerEntry m (ACCOUNT a)) count = Ok (b, le') ->
  entry_ok h le' /\ (b = false -> le' = mkLedgerEntry m (ACCOUNT a)).
Proof.
  intros Hh Ha Hc H. rewrite addNumEntries_account in H by done. injection H as H.
  acc_bounds h a. destruct Hc as [Hc Hr].
  destruct (_ && _)%bool eqn:E; injection H as <- <-; (split; [|done]); [done|].
  apply andb_false_iff in E.
  repeat split; cbn; try done; try lia.
  destruct E; zb; [|lia].
  pose proof (reserve_mono h (acc_numSubEntries a + count) (acc_numSubEntries a) Hh).
  lia.
Qed.

Lemma entry_op_total h o le :
  header_ok h -> entry_ok h le -> entry_op_ok h o le ->
  exists b le', run_entry_op h o le = Ok (b, le').
Proof.
  intros Hh He Ho. destruct le as [m d], o; cbn in *; destruct d;
    try (by destruct Ho as [_ Ho]); try (by destruct Ho as (? & ? & _)).
  - rewrite addBalance_account by (done || apply Ho). case_match; eauto.
  - rewrite addBalance_trustline by (done || apply Ho). case_match; eauto.
  - rewrite addBuyingLiabilities_account by (done || apply Ho). repeat case_match; eauto.
  - rewrite addBuyingLiabilities_trustline by (done || apply Ho). repeat case_match; eauto.
  - rewrite addSellingLiabilities_account by (done || apply Ho). repeat case_match; eauto.
  - rewrite addSellingLiabilities_trustline by (done || apply Ho). repeat case_match; eauto.
  - destruct Ho as (a & [= ->] & Hc). rewrite addNumEntries_account by done.
    case_match; eauto.
Qed.

(** Every balance, liability and subentry update returns on an
    entry that satisfies the reserve and liability invariant, keeps the
    invariant, and leaves the entry unchanged when it reports failure. *)
Theorem entry_ops_preserve_invariant h o le :
  header_ok h -> entry_ok h le -> entry_op_ok h o le ->
  exists b le', run_entry_op h o le = Ok (b, le') /\
    entry_ok h le' /\ (b = false -> le' = le).
Proof.
  intros Hh He Ho. destruct (entry_op_total h o le Hh He Ho) as (b & le' & Hrun).
  exists b, le'. split; [done|]. destruct o; cbn in *.
  - destruct Ho. by eapply addBalance_preserves.
  - destruct Ho. by eapply addBuyingLiabilities_preserves.
  - destruct Ho. by eapply addSellingLiabilities_preserves.
  - destruct Ho as (a & Ha & Hc). destruct le as [m d]; cbn in *; subst d.
    by eapply addNumEntries_preserves.
Qed.

(** *** Authorization and offer liabilities *)

Lemma setAuthorized_isAuthorized le b le' :
  setAuthorized le b = Ok le' -> isAuthorized le' = Ok b.
Proof.
  unfold setAuthorized, isAuthorized, get_trustLine. destruct le as [m []]; try done.
  cbn. intros [= <-]. cbn. f_equal. destruct b.
  - apply negb_true_iff, Z.eqb_neq. intros H.
    assert (Z.testbit (Z.land (Z.lor (tl_flags trustLine) AUTHORIZED_FLAG)
      AUTHORIZED_FLAG) 0 = true) as Hb.
    { by rewrite Z.land_spec, Z.lor_spec, orb_true_r. }
    by rewrite H in Hb.
  - apply negb_false_iff, Z.eqb_eq. rewrite <- Z.land_assoc.
    change (Z.land (u32 (Z.lnot AUTHORIZED_FLAG)) AUTHORIZED_FLAG) with 0.
    apply Z.land_0_r.
Qed.

Section OfferLiabilitiesFacts.
Context {U : UInt128}.

(** an offer that can be in the book *)
Definition offer_ok (o : OfferEntry) : Prop :=
  valid_price (oe_price o) /\ is_amount (oe_amount o).

(** the liabilities of an offer: what an unlimited buyer could take *)
Lemma offer_liabilities_spec h m o :
  header_ok h -> offer_ok o ->
  let r := exchange_ref (oe_price o) (oe_amount o) INT64_MAX INT64_MAX INT64_MAX false in
  getOfferBuyingLiabilities h (mkLedgerEntry m (OFFER o)) = Ok (numSheepSend r) /\
  getOfferSellingLiabilities h (mkLedgerEntry m (OFFER o)) = Ok (numWheatReceived r) /\
  is_amount (numSheepSend r) /\ 0 <= numWheatReceived r <= oe_amount o.
Proof.
  intros [Hv _] [Hp Ha]. cbv zeta.
  unfold getOfferBuyingLiabilities, getOfferSellingLiabilities.
  rewrite (proj2 (Z.ltb_ge _ _)) by lia. cbn [get_offer le_data mbind res_bind].
  rewrite exchangeV10WithoutPriceErrorThresholds_ok by (done || zlia).
  destruct (exchange_ref_bounds (oe_price o) Hp (oe_amount o) INT64_MAX INT64_MAX
    INT64_MAX false) as (?&?&_); [zlia..|].
  repeat split; zlia.
Qed.

End OfferLiabilitiesFacts.

(** ** Concrete instances *)

Definition sample_header : LedgerHeader :=
  mkLedgerHeader 10 0 (mkEssaBlockChainValue 0 0 []) 0 0 7 1000000000 0 0 41 100 5 50
    [0; 0; 0; 0].

Definition sample_account (id balance : Z) : AccountEntry :=
  mkAccountEntry id balance 1 1 None 0 "" [1; 0; 0; 0] [] (Some (mkLiabilities 3 4)).

Lemma sample_account_ok : account_ok sample_header (sample_account 1 100).
Proof. repeat split; vm_compute; congruence. Qed.

Lemma sample_header_ok : header_ok sample_header.
Proof. repeat split; vm_compute; congruence. Qed.

Lemma addBalance_exact_witness :
  addBalance sample_header (mkLedgerEntry 6 (ACCOUNT (sample_account 1 100))) (-82)
    = Ok (false, mkLedgerEntry 6 (ACCOUNT (sample_account 1 100))) /\
  addBalance sample_header (mkLedgerEntry 6 (ACCOUNT (sample_account 1 100))) (-81)
    = Ok (true, mkLedgerEntry 6 (ACCOUNT (sample_account 1 19))).
Proof.
  split; rewrite (addBalance_exact sample_header);
    first [exact sample_header_ok | exact sample_account_ok | reflexivity | zlia].
Defined.

Lemma entry_ops_preserve_invariant_witness :
  exists b le', run_entry_op sample_header (OpSelling 82)
      (mkLedgerEntry 6 (ACCOUNT (sample_account 1 100))) = Ok (b, le') /\
    entry_ok sample_header le' /\
    (b = false -> le' = mkLedgerEntry 6 (ACCOUNT (sample_account 1 100))).
Proof.
  apply (entry_ops_preserve_invariant sample_header (OpSelling 82)).
  - exact sample_header_ok.
  - exact sample_account_ok.
  - split; [zlia|reflexivity].
Defined.
