(* ===== verification/QuorumSet.v ===== *)
(** * Quorum sets, slices and v-blocking sets

    The static functions of src/src/scp/LocalNode.cpp and the sanity check
    and normalization of src/src/scp/QuorumSetUtils.cpp.  A quorum set is a
    tree of thresholds; node ids are 256-bit keys. *)
From S2P Require Import Prelude Numeric.

Abbreviation NodeID := Z (only parsing).

(** [struct SCPQuorumSet] *)
Inductive SCPQuorumSet :=
| mkQSet (threshold : Z) (validators : list NodeID) (innerSets : list SCPQuorumSet).

Definition qs_threshold (q : SCPQuorumSet) : Z := let 'mkQSet t _ _ := q in t.
Definition qs_validators (q : SCPQuorumSet) : list NodeID := let 'mkQSet _ v _ := q in v.
Definition qs_innerSets (q : SCPQuorumSet) : list SCPQuorumSet := let 'mkQSet _ _ i := q in i.

(** induction over the tree, with the hypothesis for every inner set *)
Section QSetInd.
Variable P : SCPQuorumSet -> Prop.
Hypothesis step : forall t vs inner, Forall P inner -> P (mkQSet t vs inner).

Fixpoint qset_ind' (q : SCPQuorumSet) : P q :=
  match q with
  | mkQSet t vs inner =>
      step t vs inner
        ((fix go (l : list SCPQuorumSet) : Forall P l :=
            match l with
            | [] => Forall_nil_2 P
            | x :: l' => Forall_cons_2 P x l' (qset_ind' x) (go l')
            end) inner)
  end.
End QSetInd.

(** [x.size()] *)
Definition size_of {A} (l : list A) : Z := Z.of_nat (length l).

(** ** LocalNode *)

Definition buildSingletonQSet (nodeID : NodeID) : SCPQuorumSet :=
  mkQSet 1 [nodeID] [].

(** [forAllNodes(qset, proc)]: the nodes in the order [proc] sees them *)
Fixpoint forAllNodes (q : SCPQuorumSet) : list NodeID :=
  match q with
  | mkQSet _ vs inner => vs ++ concat (map forAllNodes inner)
  end.

(** The counting loop of [isQuorumSliceInternal] and [isVBlockingInternal]:
    for every member that is hit, decrement the counter (in the arithmetic
    [wrap] of its type) and return true when it is no longer positive.
    [None] is that early return, [Some c] the counter after the loop. *)
Fixpoint count_down (wrap : Z -> Z) (c : Z) (hits : list bool) : option Z :=
  match hits with
  | [] => Some c
  | true :: hits' =>
      let c := wrap (c - 1) in
      if c <=? 0 then None else count_down wrap c hits'
  | false :: hits' => count_down wrap c hits'
  end.

Definition in_set (nodeSet : list NodeID) (v : NodeID) : bool :=
  bool_decide (v ∈ nodeSet).

Fixpoint isQuorumSliceInternal (nodeSet : list NodeID) (q : SCPQuorumSet) : bool :=
  match q with
  | mkQSet t vs inner =>
      match count_down u32 t (map (in_set nodeSet) vs) with
      | None => true
      | Some c =>
          match count_down u32 c (map (isQuorumSliceInternal nodeSet) inner) with
          | None => true
          | Some _ => false
          end
      end
  end.

Definition isQuorumSlice (qSet : SCPQuorumSet) (nodeSet : list NodeID) : bool :=
  isQuorumSliceInternal nodeSet qSet.

Fixpoint isVBlockingInternal (nodeSet : list NodeID) (q : SCPQuorumSet) : bool :=
  match q with
  | mkQSet t vs inner =>
      if t =? 0 then false
      else
        let leftTillBlock := i32 (u64 ((1 + size_of vs + size_of inner) - t)) in
        match count_down i32 leftTillBlock (map (in_set nodeSet) vs) with
        | None => true
        | Some c =>
            match count_down i32 c (map (isVBlockingInternal nodeSet) inner) with
            | None => true
            | Some _ => false
            end
        end
  end.

Definition isVBlocking (qSet : SCPQuorumSet) (nodeSet : list NodeID) : bool :=
  isVBlockingInternal nodeSet qSet.

(** *** Well-formed quorum sets *)

(** every threshold is between one and the number of members, and the
    numbers of members fit the counters *)
Fixpoint qset_ok (q : SCPQuorumSet) : Prop :=
  match q with
  | mkQSet t vs inner =>
      1 <= t <= size_of vs + size_of inner /\
      size_of vs + size_of inner < INT32_MAX /\
      (fix all (l : list SCPQuorumSet) : Prop :=
         match l with [] => True | x :: l' => qset_ok x /\ all l' end) inner
  end.

Lemma qset_ok_unfold t vs inner :
  qset_ok (mkQSet t vs inner) <->
  1 <= t <= size_of vs + size_of inner /\
  size_of vs + size_of inner < INT32_MAX /\ Forall qset_ok inner.
Proof.
  cbn. do 2 (apply and_iff_compat_l).
  induction inner as [|x l IH]; [split; [by constructor|done]|].
  rewrite Forall_cons, IH. done.
Qed.

(** number of members hit *)
Definition hits_of (l : list bool) : Z := size_of (List.filter id l).

Lemma hits_of_nil : hits_of [] = 0.
Proof. done. Qed.

Lemma hits_of_cons b l : hits_of (b :: l) = (if b then 1 else 0) + hits_of l.
Proof. unfold hits_of, size_of. destruct b; cbn [List.filter id length]; lia. Qed.

Lemma hits_of_range l : 0 <= hits_of l <= size_of l.
Proof.
  induction l as [|b l IH]; [done|]. rewrite hits_of_cons. unfold size_of in *.
  cbn [length]. destruct b; lia.
Qed.

Lemma hits_of_app l1 l2 : hits_of (l1 ++ l2) = hits_of l1 + hits_of l2.
Proof.
  induction l1 as [|b l1 IH]; [done|]. cbn [app]. rewrite !hits_of_cons, IH. lia.
Qed.

Lemma count_down_app wrap c l1 l2 :
  count_down wrap c (l1 ++ l2) =
    match count_down wrap c l1 with
    | None => None
    | Some c' => count_down wrap c' l2
    end.
Proof.
  revert c. induction l1 as [|[] l1 IH]; intros c; cbn; [done| |done].
  destruct (_ <=? 0); [done|]. apply IH.
Qed.

(** the counter as a threshold on the number of hits: unsigned, ... *)
Lemma count_down_u32 c l :
  0 <= c <= UINT32_MAX -> size_of l <= INT32_MAX ->
  count_down u32 c l = None <-> 0 < c <= hits_of l.
Proof.
  unfold size_of. revert c. induction l as [|b l IH]; intros c Hc Hs.
  - cbn [count_down]. rewrite hits_of_nil. split; [done|lia].
  - cbn [length] in Hs. pose proof (hits_of_range l) as Hr. unfold size_of in Hr.
    rewrite hits_of_cons. destruct b; cbn [count_down].
    2:{ rewrite IH by zlia. lia. }
    destruct (Z.eqb_spec c 0) as [->|Hc0].
    + change (u32 (0 - 1)) with UINT32_MAX.
      rewrite (proj2 (Z.leb_gt UINT32_MAX 0)) by zlia. rewrite IH by zlia. zlia.
    + rewrite u32_id by zlia. destruct (Z.leb_spec (c - 1) 0).
      * split; [lia|done].
      * rewrite IH by zlia. lia.
Qed.

(** ... and signed *)
Lemma count_down_i32 c l :
  INT32_MIN + size_of l <= c <= INT32_MAX ->
  count_down i32 c l = None <-> 1 <= hits_of l /\ c <= hits_of l.
Proof.
  unfold size_of. revert c. induction l as [|b l IH]; intros c Hc.
  - cbn [count_down]. rewrite hits_of_nil. split; [done|lia].
  - cbn [length] in Hc. pose proof (hits_of_range l) as Hr.
    rewrite hits_of_cons. destruct b; cbn [count_down].
    2:{ rewrite IH by zlia. lia. }
    rewrite i32_id by zlia. destruct (Z.leb_spec (c - 1) 0).
    + split; [lia|done].
    + rewrite IH by zlia. lia.
Qed.

Lemma size_of_map {A B} (f : A -> B) l : size_of (map f l) = size_of l.
Proof. unfold size_of. by rewrite length_map. Qed.

Lemma size_of_app {A} (l1 l2 : list A) : size_of (l1 ++ l2) = size_of l1 + size_of l2.
Proof. unfold size_of. rewrite length_app. lia. Qed.

Lemma size_of_nonneg {A} (l : list A) : 0 <= size_of l.
Proof. unfold size_of. lia. Qed.

(** the members of a quorum set that a predicate on nodes and a predicate on
    inner sets hit *)
Definition members (f : NodeID -> bool) (g : SCPQuorumSet -> bool)
    (vs : list NodeID) (inner : list SCPQuorumSet) : list bool :=
  map f vs ++ map g inner.

Lemma size_of_members f g vs inner :
  size_of (members f g vs inner) = size_of vs + size_of inner.
Proof. unfold members. by rewrite size_of_app, !size_of_map. Qed.

(** A slice is contained in the node set when enough members are. *)
Lemma isQuorumSliceInternal_count S t vs inner :
  is_u32 t -> size_of vs + size_of inner <= INT32_MAX ->
  isQuorumSliceInternal S (mkQSet t vs inner) = true <->
  0 < t <= hits_of (members (in_set S) (isQuorumSliceInternal S) vs inner).
Proof.
  intros Ht Hs.
  rewrite <- (count_down_u32 t) by (rewrite ?size_of_members; done).
  unfold members. rewrite count_down_app. cbn.
  repeat case_match; naive_solver.
Qed.

(** A quorum set is blocked when too few members are left for a slice. *)
Lemma isVBlockingInternal_count S t vs inner :
  1 <= t <= size_of vs + size_of inner ->
  size_of vs + size_of inner < INT32_MAX ->
  isVBlockingInternal S (mkQSet t vs inner) = true <->
  size_of vs + size_of inner - t <
    hits_of (members (in_set S) (isVBlockingInternal S) vs inner).
Proof.
  intros Ht Hs. pose proof (size_of_nonneg vs). pose proof (size_of_nonneg inner).
  cbn. rewrite (proj2 (Z.eqb_neq t 0)) by lia.
  rewrite u64_id, i32_id by zlia.
  transitivity (count_down i32 (1 + size_of vs + size_of inner - t)
    (members (in_set S) (isVBlockingInternal S) vs inner) = None).
  - unfold members. rewrite count_down_app. repeat case_match; naive_solver.
  - rewrite count_down_i32 by (rewrite size_of_members; zlia).
    pose proof (hits_of_range (members (in_set S) (isVBlockingInternal S) vs inner)).
    lia.
Qed.

(** *** Slices and blocking sets are dual *)

Lemma hits_of_negb l : hits_of (map negb l) = size_of l - hits_of l.
Proof.
  induction l as [|b l IH]; [done|]. cbn [map]. rewrite !hits_of_cons, IH.
  unfold size_of. cbn [length]. destruct b; cbn [negb]; lia.
Qed.

Lemma bool_eq_iff (a b : bool) : (a = true <-> b = true) -> a = b.
Proof. destruct a, b; naive_solver. Qed.

Lemma in_forAllNodes_inner v t vs inner q :
  q ∈ inner -> v ∈ forAllNodes q -> v ∈ forAllNodes (mkQSet t vs inner).
Proof.
  intros Hq Hv. cbn. apply elem_of_app. right.
  apply list_elem_of_In, in_concat. exists (forAllNodes q).
  split; [apply in_map|]; by apply list_elem_of_In.
Qed.

Lemma members_ext f g f' g' vs inner :
  (forall v, v ∈ vs -> f v = f' v) -> (forall q, q ∈ inner -> g q = g' q) ->
  members f g vs inner = members f' g' vs inner.
Proof.
  intros Hf Hg. unfold members.
  f_equal; apply map_ext_in; intros x Hx; (apply Hf || apply Hg);
    by apply list_elem_of_In.
Qed.

Lemma vblocking_slice_dual S T q :
  qset_ok q ->
  (forall v, v ∈ forAllNodes q -> v ∈ T <-> v ∉ S) ->
  isVBlockingInternal S q = negb (isQuorumSliceInternal T q).
Proof.
  induction q as [t vs inner IH] using qset_ind'. intros Hok Hd.
  apply qset_ok_unfold in Hok as (Ht & Hs & Hin).
  assert (members (in_set S) (isVBlockingInternal S) vs inner
    = map negb (members (in_set T) (isQuorumSliceInternal T) vs inner)) as Hm.
  { unfold members. rewrite map_app, !map_map. fold (members
      (in_set S) (isVBlockingInternal S) vs inner).
    apply members_ext.
    - intros v Hv. unfold in_set.
      assert (v ∈ T <-> v ∉ S) by (apply Hd; cbn; set_solver).
      repeat case_bool_decide; naive_solver.
    - intros q Hq. rewrite Forall_forall in IH, Hin. apply IH; [done|auto|].
      intros v Hv. apply Hd. by eapply in_forAllNodes_inner. }
  apply bool_eq_iff. rewrite isVBlockingInternal_count by done.
  rewrite negb_true_iff, <- not_true_iff_false.
  rewrite isQuorumSliceInternal_count by zlia.
  rewrite Hm, hits_of_negb, size_of_members. zlia.
Qed.

(** *** Monotonicity *)

Lemma hits_of_mono f g f' g' vs inner :
  (forall v, v ∈ vs -> f v = true -> f' v = true) ->
  (forall q, q ∈ inner -> g q = true -> g' q = true) ->
  hits_of (members f g vs inner) <= hits_of (members f' g' vs inner).
Proof.
  intros Hf Hg. unfold members. rewrite !hits_of_app.
  assert (hits_of (map f vs) <= hits_of (map f' vs)).
  { clear Hg. induction vs as [|v vs IH]; [done|]. cbn [map].
    rewrite !hits_of_cons. pose proof (Hf v ltac:(set_solver)).
    specialize (IH ltac:(set_solver)). destruct (f v), (f' v); naive_solver lia. }
  assert (hits_of (map g inner) <= hits_of (map g' inner)); [|lia].
  { clear Hf H. induction inner as [|v l IH]; [done|]. cbn [map].
    rewrite !hits_of_cons. pose proof (Hg v ltac:(set_solver)).
    specialize (IH ltac:(set_solver)). destruct (g v), (g' v); naive_solver lia. }
Qed.

Lemma isQuorumSlice_mono S S' q :
  qset_ok q -> S ⊆ S' ->
  isQuorumSliceInternal S q = true -> isQuorumSliceInternal S' q = true.
Proof.
  intros Hok HS. revert Hok.
  induction q as [t vs inner IH] using qset_ind'. intros Hok.
  apply qset_ok_unfold in Hok as (Ht & Hs & Hin).
  rewrite !isQuorumSliceInternal_count by zlia. intros [H0 H1]. split; [done|].
  etrans; [exact H1|]. apply hits_of_mono.
  - intros v _. unfold in_set. rewrite !bool_decide_eq_true. auto.
  - rewrite Forall_forall in IH, Hin. auto.
Qed.

Lemma isQuorumSlice_ext S S' q :
  qset_ok q -> (forall v, v ∈ S <-> v ∈ S') ->
  isQuorumSliceInternal S q = isQuorumSliceInternal S' q.
Proof.
  intros Hok HS. apply bool_eq_iff.
  split; apply isQuorumSlice_mono; try done; intros v; apply HS.
Qed.

(** Claim C35: on a well-formed quorum set, a node set is v-blocking exactly
    when no slice avoids it: for the nodes [T] outside of [S], [isVBlocking]
    of [S] is the negation of [isQuorumSlice] of [T]. *)
Theorem isVBlocking_iff_no_slice_avoids q S T :
  qset_ok q ->
  (forall v, v ∈ forAllNodes q -> v ∈ T <-> v ∉ S) ->
  isVBlocking q S = negb (isQuorumSlice q T).
Proof. apply vblocking_slice_dual. Qed.

(** *** isQuorum

    [std::map<NodeID, SCPEnvelope>] is the list of its bindings in key
    order; [St] is the type of statements. *)

Section Quorum.
Context {St : Type}.

Fixpoint map_find (m : list (NodeID * St)) (n : NodeID) : option St :=
  match m with
  | [] => None
  | (k, st) :: m' => if n =? k then Some st else map_find m' n
  end.

(** the first loop of [isVBlocking] and [isQuorum] on maps *)
Definition filtered_nodes (m : list (NodeID * St)) (flt : St -> bool) : list NodeID :=
  map fst (List.filter (fun kv => flt (snd kv)) m).

(** [isVBlocking(qSet, map, filter)] *)
Definition isVBlocking_map (qSet : SCPQuorumSet) (m : list (NodeID * St))
    (flt : St -> bool) : bool :=
  isVBlocking qSet (filtered_nodes m flt).

(** the lambda [quorumFilter]; every node it is called on has a binding *)
Definition quorumFilter (m : list (NodeID * St)) (qfun : St -> option SCPQuorumSet)
    (pNodes : list NodeID) (nodeID : NodeID) : bool :=
  match map_find m nodeID with
  | Some st =>
      match qfun st with
      | Some q => isQuorumSlice q pNodes
      | None => false
      end
  | None => false
  end.

(** the [do ... while (count != pNodes.size())] loop; [None] when the fuel
    runs out *)
Fixpoint quorum_loop (fuel : nat) (m : list (NodeID * St))
    (qfun : St -> option SCPQuorumSet) (pNodes : list NodeID) : option (list NodeID) :=
  match fuel with
  | O => None
  | S fuel' =>
      let count := length pNodes in
      let fNodes := List.filter (quorumFilter m qfun pNodes) pNodes in
      if Nat.eqb count (length fNodes) then Some fNodes
      else quorum_loop fuel' m qfun fNodes
  end.

(** each round that does not end the loop removes a node *)
Definition isQuorum (qSet : SCPQuorumSet) (m : list (NodeID * St))
    (qfun : St -> option SCPQuorumSet) (flt : St -> bool) : option bool :=
  let pNodes := filtered_nodes m flt in
  pNodes ← quorum_loop (S (length pNodes)) m qfun pNodes;
  Some (isQuorumSlice qSet pNodes).

(** a set of nodes that contains a slice of each of its members *)
Definition self_sufficient (m : list (NodeID * St))
    (qfun : St -> option SCPQuorumSet) (Q : list NodeID) : Prop :=
  forall v, v ∈ Q -> quorumFilter m qfun Q v = true.

Hypothesis (m : list (NodeID * St)) (qfun : St -> option SCPQuorumSet).
Hypothesis qfun_ok : forall st q, qfun st = Some q -> qset_ok q.

Lemma quorumFilter_mono P P' v :
  P ⊆ P' -> quorumFilter m qfun P v = true -> quorumFilter m qfun P' v = true.
Proof.
  intros HP. unfold quorumFilter. repeat case_match; try done.
  apply isQuorumSlice_mono; eauto.
Qed.

Lemma filter_same_length {A} (f : A -> bool) l :
  length (List.filter f l) = length l -> List.filter f l = l.
Proof.
  intros H. by apply forallb_filter_id, filter_length_forallb.
Qed.

Lemma elem_of_filter_list {A} (f : A -> bool) x l :
  x ∈ List.filter f l <-> x ∈ l /\ f x = true.
Proof. rewrite !list_elem_of_In. apply filter_In. Qed.

Lemma quorum_loop_returns fuel P :
  (length P < fuel)%nat -> is_Some (quorum_loop fuel m qfun P).
Proof.
  revert P. induction fuel as [|fuel IH]; intros P HP; [lia|]. cbn.
  destruct (Nat.eqb_spec (length P) (length (List.filter (quorumFilter m qfun P) P))); [by eauto|].
  apply IH. pose proof (filter_length_le (quorumFilter m qfun P) P). lia.
Qed.

Lemma quorum_loop_sound fuel P R :
  quorum_loop fuel m qfun P = Some R -> R ⊆ P /\ self_sufficient m qfun R.
Proof.
  revert P. induction fuel as [|fuel IH]; intros P HP; [done|]. cbn in HP.
  destruct (Nat.eqb_spec (length P) (length (List.filter (quorumFilter m qfun P) P))) as [E|E].
  - injection HP as <-. symmetry in E. apply filter_same_length in E.
    rewrite E. split; [done|]. intros v Hv. rewrite <- E in Hv.
    by apply elem_of_filter_list in Hv as [_ Hv].
  - apply IH in HP as [HR HQ]. split; [|done].
    intros v Hv. apply HR, elem_of_filter_list in Hv as [Hv _]. done.
Qed.

Lemma quorum_loop_greatest fuel P R Q :
  quorum_loop fuel m qfun P = Some R ->
  Q ⊆ P -> self_sufficient m qfun Q -> Q ⊆ R.
Proof.
  revert P. induction fuel as [|fuel IH]; intros P HP HQP HQ; [done|]. cbn in HP.
  assert (Q ⊆ List.filter (quorumFilter m qfun P) P) as HQ'.
  { intros v Hv. apply elem_of_filter_list. split; [auto|].
    apply quorumFilter_mono with Q; auto. }
  destruct (Nat.eqb _ _); [by injection HP as <-|]. by eapply IH.
Qed.

Lemma isQuorum_spec qSet flt :
  qset_ok qSet ->
  exists b, isQuorum qSet m qfun flt = Some b /\
    (b = true <-> exists Q, Q ⊆ filtered_nodes m flt /\
       self_sufficient m qfun Q /\ isQuorumSlice qSet Q = true).
Proof.
  intros Hq. unfold isQuorum.
  destruct (quorum_loop_returns (S (length (filtered_nodes m flt)))
    (filtered_nodes m flt)) as [R HR]; [lia|].
  rewrite HR. cbn. eexists; split; [done|]. split.
  - intros Hs. exists R. apply quorum_loop_sound in HR as [??]. auto.
  - intros (Q & HQ & HQs & Hslice).
    eapply isQuorumSlice_mono; [done| |exact Hslice].
    by eapply quorum_loop_greatest.
Qed.

End Quorum.

(** Claim C30: [isQuorum] always returns, and answers true exactly when the
    filtered nodes contain a quorum for the local quorum set: a set of nodes
    that holds a slice of each of its members and a slice of [qSet]. *)
Theorem isQuorum_correct {St} (m : list (NodeID * St))
    (qfun : St -> option SCPQuorumSet) (flt : St -> bool) qSet :
  qset_ok qSet -> (forall st q, qfun st = Some q -> qset_ok q) ->
  exists b, isQuorum qSet m qfun flt = Some b /\
    (b = true <-> exists Q, Q ⊆ filtered_nodes m flt /\
       self_sufficient m qfun Q /\ isQuorumSlice qSet Q = true).
Proof. intros. by apply isQuorum_spec. Qed.

(** ** QuorumSetUtils *)

(** *** Sanity *)

(** the loop that inserts the validators in [mKnownNodes]; [None] when one was
    already present *)
Fixpoint insert_known (known vs : list NodeID) : option (list NodeID) :=
  match vs with
  | [] => Some known
  | n :: vs' => if in_set known n then None else insert_known (known ++ [n]) vs'
  end.

(** [QuorumSetSanityChecker::checkSanity]: the new [mKnownNodes] and [mCount]
    when it returns true *)
Fixpoint checkSanity (extraChecks : bool) (depth : Z) (q : SCPQuorumSet)
    (st : list NodeID * Z) : option (list NodeID * Z) :=
  match q with
  | mkQSet t v i =>
      if depth >? 2 then None
      else if t <? 1 then None
      else
        let totEntries := size_of v + size_of i in
        let vBlockingSize := u64 (totEntries - t + 1) in
        let mCount := u64 (snd st + size_of v) in
        if t >? totEntries then None
        else if extraChecks && (t <? vBlockingSize) then None
        else
          match insert_known (fst st) v with
          | None => None
          | Some mKnownNodes =>
              loop_opt (fun iSet st => checkSanity extraChecks (depth + 1) iSet st)
                i (mKnownNodes, mCount)
          end
  end.

Definition isQuorumSetSane (qSet : SCPQuorumSet) (extraChecks : bool) : bool :=
  match checkSanity extraChecks 0 qSet ([], 0) with
  | Some (_, mCount) => (mCount >=? 1) && (mCount <=? 1000)
  | None => false
  end.

(** what a sane quorum set is: at most two levels of nesting, thresholds
    between one and the number of members (and a majority with the extra
    checks) *)
Fixpoint sane_shape (extraChecks : bool) (depth : Z) (q : SCPQuorumSet) : Prop :=
  match q with
  | mkQSet t v i =>
      depth <= 2 /\ 1 <= t <= size_of v + size_of i /\
      (extraChecks = true -> size_of v + size_of i < 2 * t) /\
      (fix all (l : list SCPQuorumSet) : Prop :=
         match l with
         | [] => True
         | x :: l' => sane_shape extraChecks (depth + 1) x /\ all l'
         end) i
  end.

Lemma insert_known_spec known vs :
  NoDup known ->
  insert_known known vs =
    if bool_decide (NoDup (known ++ vs)) then Some (known ++ vs) else None.
Proof.
  revert known. induction vs as [|n vs IH]; intros known Hk; cbn.
  - rewrite app_nil_r. by rewrite bool_decide_true.
  - unfold in_set. case_bool_decide as Hn.
    + rewrite bool_decide_false; [done|]. intros Hd. apply NoDup_app in Hd as (_ & Hd & _).
      apply (Hd n); set_solver.
    + rewrite IH by (apply NoDup_app; repeat split; [done|set_solver|apply NoDup_singleton]).
      rewrite <- app_assoc. done.
Qed.

(** the vectors of a quorum set have [size_t] sizes *)
Fixpoint qset_small (q : SCPQuorumSet) : Prop :=
  match q with
  | mkQSet t v i =>
      is_u32 t /\ size_of v + size_of i < UINT64_MAX /\
      (fix all (l : list SCPQuorumSet) : Prop :=
         match l with [] => True | x :: l' => qset_small x /\ all l' end) i
  end.

Lemma qset_small_unfold t vs inner :
  qset_small (mkQSet t vs inner) <->
  is_u32 t /\ size_of vs + size_of inner < UINT64_MAX /\ Forall qset_small inner.
Proof.
  cbn. do 2 (apply and_iff_compat_l).
  induction inner as [|x l IH]; [split; [by constructor|done]|].
  rewrite Forall_cons, IH. done.
Qed.

Lemma sane_shape_unfold extra depth t vs inner :
  sane_shape extra depth (mkQSet t vs inner) <->
  depth <= 2 /\ 1 <= t <= size_of vs + size_of inner /\
  (extra = true -> size_of vs + size_of inner < 2 * t) /\
  Forall (sane_shape extra (depth + 1)) inner.
Proof.
  cbn. do 3 (apply and_iff_compat_l).
  induction inner as [|x l IH]; [split; [by constructor|done]|].
  rewrite Forall_cons, IH. done.
Qed.

Lemma checkSanity_iff extra q depth known c st :
  NoDup known -> 0 <= c -> c + size_of (forAllNodes q) <= UINT64_MAX ->
  qset_small q ->
  checkSanity extra depth q (known, c) = Some st <->
  sane_shape extra depth q /\ NoDup (known ++ forAllNodes q) /\
  st = (known ++ forAllNodes q, c + size_of (forAllNodes q)).
Proof.
  revert depth known c st.
  induction q as [t v i IH] using qset_ind'. intros depth known c st Hk Hc Hn Hsm.
  apply qset_small_unfold in Hsm as (Ht & Hs & Hsm).
  rewrite sane_shape_unfold. cbn [forAllNodes] in *.
  rewrite size_of_app in *. rewrite app_assoc.
  pose proof (size_of_nonneg v). pose proof (size_of_nonneg i).
  pose proof (size_of_nonneg (concat (map forAllNodes i))).
  assert (Hloop : forall d known c, NoDup known -> 0 <= c ->
    c + size_of (concat (map forAllNodes i)) <= UINT64_MAX ->
    loop_opt (fun iSet st => checkSanity extra d iSet st) i (known, c) = Some st <->
    Forall (sane_shape extra d) i /\ NoDup (known ++ concat (map forAllNodes i)) /\
    st = (known ++ concat (map forAllNodes i), c + size_of (concat (map forAllNodes i)))).
  { clear - IH Hsm. induction i as [|x l IHl]; intros d known c Hk Hc Hn.
    - cbn. rewrite !app_nil_r. unfold size_of. cbn. rewrite Z.add_0_r.
      split; [intros [= <-]; auto|naive_solver].
    - apply Forall_cons in IH as [IHx IH]. apply Forall_cons in Hsm as [Hsx Hsm].
      specialize (IHl IH Hsm). cbn [map concat loop_opt] in *.
      rewrite size_of_app in *. rewrite Forall_cons, app_assoc.
      pose proof (size_of_nonneg (forAllNodes x)).
      pose proof (size_of_nonneg (concat (map forAllNodes l))).
      destruct (checkSanity extra d x (known, c)) as [[k1 c1]|] eqn:E.
      + apply IHx in E as (Hx & Hnd & [= -> ->]); [|done|done|lia|done].
        rewrite IHl by (done || lia). rewrite Z.add_assoc. naive_solver.
      + split; [done|]. intros ([Hx _] & Hnd & _).
        apply NoDup_app in Hnd as (Hnd & _).
        assert (None = Some (known ++ forAllNodes x, c + size_of (forAllNodes x))); [|done].
        rewrite <- E. apply IHx; try done; lia. }
  cbn [checkSanity fst snd]. rewrite !Z.gtb_ltb.
  destruct (Z.ltb_spec 2 depth); [split; [done|lia]|].
  destruct (Z.ltb_spec t 1); [split; [done|lia]|].
  destruct (Z.ltb_spec (size_of v + size_of i) t); [split; [done|lia]|].
  rewrite !u64_id by zlia. rewrite insert_known_spec by done.
  assert (extra && (t <? size_of v + size_of i - t + 1) = true <->
    ~ (extra = true -> size_of v + size_of i < 2 * t)) as Hex.
  { rewrite andb_true_iff, Z.ltb_lt. destruct extra; [|naive_solver]. lia. }
  destruct (extra && _)%bool; [split; [done|]; intros (? & _); tauto|].
  assert (extra = true -> size_of v + size_of i < 2 * t) by (destruct extra; [lia|done]).
  case_bool_decide as Hd.
  - rewrite Hloop by (done || zlia). rewrite Z.add_assoc. naive_solver.
  - split; [done|]. intros (_ & Hnd & _). apply NoDup_app in Hnd as (Hnd & _). done.
Qed.

(** [isQuorumSetSane] accepts exactly the quorum sets of at most
    two levels of nesting, whose thresholds are between one and the number
    of members (a majority of them with the extra checks), with one to a
    thousand validators and none repeated. *)
Theorem isQuorumSetSane_correct q extra :
  qset_small q -> size_of (forAllNodes q) <= UINT64_MAX ->
  isQuorumSetSane q extra = true <->
  sane_shape extra 0 q /\ NoDup (forAllNodes q) /\
  1 <= size_of (forAllNodes q) <= 1000.
Proof.
  intros Hs Hn. unfold isQuorumSetSane.
  pose proof (fun st => checkSanity_iff extra q 0 [] 0 st (NoDup_nil_2) (Z.le_refl 0)) as H.
  cbn [app] in H. rewrite Z.add_0_l in H.
  destruct (checkSanity _ _ _ _) as [[k c]|].
  - destruct (proj1 (H (k, c) Hn Hs) eq_refl) as (? & ? & [= -> ->]).
    rewrite andb_true_iff, Z.geb_leb, !Z.leb_le. tauto.
  - split; [done|]. intros (? & ? & _).
    by pose proof (proj2 (H _ Hn Hs) (conj H0 (conj H1 eq_refl))).
Qed.

(** *** Normalization *)

(** the loop of [normalizeQSet] over the (already normalized) inner sets:
    singletons move to the end of the validators *)
Fixpoint merge_singletons (v : list NodeID) (l : list SCPQuorumSet)
    : list NodeID * list SCPQuorumSet :=
  match l with
  | [] => (v, [])
  | it :: l' =>
      match it with
      | mkQSet t [x] [] =>
          if t =? 1 then merge_singletons (v ++ [x]) l'
          else let '(v, i) := merge_singletons v l' in (v, it :: i)
      | _ => let '(v, i) := merge_singletons v l' in (v, it :: i)
      end
  end.

Fixpoint normalizeQSet (idToRemove : option NodeID) (q : SCPQuorumSet) : SCPQuorumSet :=
  match q with
  | mkQSet t v i =>
      let '(t, v) :=
        match idToRemove with
        | Some id =>
            let v' := List.filter (fun n => negb (n =? id)) v in
            (u32 (t - u32 (size_of v - size_of v')), v')
        | None => (t, v)
        end in
      let '(v, i) := merge_singletons v (map (normalizeQSet idToRemove) i) in
      match v, i with
      | [], [t'] => if t =? 1 then t' else mkQSet t v i
      | _, _ => mkQSet t v i
      end
  end.

(** a singleton inner set counts like its validator *)
Lemma singleton_slice S x : isQuorumSliceInternal S (mkQSet 1 [x] []) = in_set S x.
Proof. cbn. by destruct (in_set S x). Qed.

Lemma singleton_vblocking S x : isVBlockingInternal S (mkQSet 1 [x] []) = in_set S x.
Proof. cbn. by destruct (in_set S x). Qed.

Lemma merge_singletons_spec v l v' i' :
  merge_singletons v l = (v', i') ->
  size_of v' + size_of i' = size_of v + size_of l /\
  (Forall qset_ok l -> Forall qset_ok i') /\
  forall f g, (forall x, g (mkQSet 1 [x] []) = f x) ->
    hits_of (members f g v' i') = hits_of (members f g v l).
Proof.
  revert v v' i'. induction l as [|it l IH]; intros v v' i' H.
  { injection H as <- <-. done. }
  assert (Hkeep : forall v' i', (let '(v, i) := merge_singletons v l in (v, it :: i)) = (v', i') ->
    size_of v' + size_of i' = size_of v + size_of (it :: l) /\
    (Forall qset_ok (it :: l) -> Forall qset_ok i') /\
    forall f g, (forall x, g (mkQSet 1 [x] []) = f x) ->
      hits_of (members f g v' i') = hits_of (members f g v (it :: l))).
  { intros v1 i1 Hk. destruct (merge_singletons v l) as [v2 i2] eqn:E.
    injection Hk as <- <-. apply IH in E as (Hs & Hok & Hh).
    split; [unfold size_of in *; cbn [length]; lia|].
    split; [intros [??]%Forall_cons; constructor; auto|].
    intros f g Hfg. specialize (Hh f g Hfg). unfold members in *.
    cbn [map]. rewrite !hits_of_app, !hits_of_cons in *. lia. }
  cbn in H. repeat case_match; subst; eauto.
  zb. subst. apply IH in H as (Hs & Hok & Hh).
  split; [unfold size_of in *; rewrite length_app in Hs; cbn [length] in *; lia|].
  split; [intros [??]%Forall_cons; auto|].
  intros f g Hfg. rewrite (Hh f g Hfg). unfold members. cbn [map].
  rewrite map_app, !hits_of_app, !hits_of_cons, Hfg. cbn [map].
  rewrite hits_of_cons, hits_of_nil. lia.
Qed.

Lemma isVBlocking_of_ok S t vs inner :
  qset_ok (mkQSet t vs inner) ->
  isVBlockingInternal S (mkQSet t vs inner) = true <->
  size_of vs + size_of inner - t <
    hits_of (members (in_set S) (isVBlockingInternal S) vs inner).
Proof.
  intros Hok. apply qset_ok_unfold in Hok as (?&?&?). by apply isVBlockingInternal_count.
Qed.

Lemma isQuorumSlice_of_ok S t vs inner :
  qset_ok (mkQSet t vs inner) ->
  isQuorumSliceInternal S (mkQSet t vs inner) = true <->
  t <= hits_of (members (in_set S) (isQuorumSliceInternal S) vs inner).
Proof.
  intros Hok. apply qset_ok_unfold in Hok as (?&?&?).
  rewrite isQuorumSliceInternal_count by zlia. lia.
Qed.

Lemma members_map f g (h : SCPQuorumSet -> SCPQuorumSet) vs inner :
  members f g vs (map h inner) = members f (fun q => g (h q)) vs inner.
Proof. unfold members. by rewrite map_map. Qed.

Definition same_meaning (q q' : SCPQuorumSet) : Prop :=
  forall S, isQuorumSliceInternal S q' = isQuorumSliceInternal S q /\
            isVBlockingInternal S q' = isVBlockingInternal S q.

(** replacing the members by ones that are hit alike *)
Lemma same_meaning_members t vs inner vs' inner' :
  qset_ok (mkQSet t vs inner) -> qset_ok (mkQSet t vs' inner') ->
  size_of vs' + size_of inner' = size_of vs + size_of inner ->
  (forall S, hits_of (members (in_set S) (isQuorumSliceInternal S) vs' inner')
     = hits_of (members (in_set S) (isQuorumSliceInternal S) vs inner)) ->
  (forall S, hits_of (members (in_set S) (isVBlockingInternal S) vs' inner')
     = hits_of (members (in_set S) (isVBlockingInternal S) vs inner)) ->
  same_meaning (mkQSet t vs inner) (mkQSet t vs' inner').
Proof.
  intros Hok Hok' Hs H1 H2 S. split; apply bool_eq_iff.
  - by rewrite !isQuorumSlice_of_ok, H1 by done.
  - by rewrite !isVBlocking_of_ok, H2, Hs by done.
Qed.

(** an outer set with a single inner set and threshold one *)
Lemma same_meaning_single x :
  qset_ok (mkQSet 1 [] [x]) -> same_meaning (mkQSet 1 [] [x]) x.
Proof.
  intros _ S. cbn.
  destruct (isQuorumSliceInternal S x), (isVBlockingInternal S x); done.
Qed.

Lemma normalizeQSet_meaning q :
  qset_ok q -> qset_ok (normalizeQSet None q) /\ same_meaning q (normalizeQSet None q).
Proof.
  induction q as [t v i IH] using qset_ind'. intros Hok.
  pose proof Hok as (Ht & Hs & Hin)%qset_ok_unfold.
  assert (Hmap : Forall qset_ok (map (normalizeQSet None) i)).
  { apply Forall_forall. intros q Hq. apply list_elem_of_In, in_map_iff in Hq as (x & <- & Hx).
    apply list_elem_of_In in Hx. rewrite Forall_forall in IH, Hin. by apply IH; auto. }
  cbn [normalizeQSet].
  destruct (merge_singletons v (map (normalizeQSet None) i)) as [v' i'] eqn:E.
  apply merge_singletons_spec in E as (Hsz & Hoki & Hh). rewrite size_of_map in Hsz.
  assert (qset_ok (mkQSet t v' i')) as Hok'.
  { apply qset_ok_unfold. rewrite Hsz. auto. }
  assert (same_meaning (mkQSet t v i) (mkQSet t v' i')) as Hsame.
  { rewrite Forall_forall in IH, Hin. apply same_meaning_members; [done..| |].
    - intros S. rewrite Hh by apply singleton_slice. rewrite members_map.
      f_equal. apply members_ext; [done|]. intros q Hq. by apply IH; auto.
    - intros S. rewrite Hh by apply singleton_vblocking. rewrite members_map.
      f_equal. apply members_ext; [done|]. intros q Hq. by apply IH; auto. }
  destruct v' as [|x v']; [|done]. destruct i' as [|x [|y i']]; [done| |done].
  destruct (Z.eqb_spec t 1) as [->|]; [|done].
  split; [apply qset_ok_unfold in Hok' as (_ & _ & Hx); by inversion Hx|].
  intros S. destruct (same_meaning_single x Hok' S) as [-> ->].
  destruct (Hsame S) as [-> ->]. done.
Qed.

(** Normalizing a well-formed quorum set (without removing a node)
    gives a well-formed quorum set with the same slices and the same
    v-blocking sets. *)
Theorem normalizeQSet_preserves q :
  qset_ok q ->
  qset_ok (normalizeQSet None q) /\
  forall S, isQuorumSlice (normalizeQSet None q) S = isQuorumSlice q S /\
            isVBlocking (normalizeQSet None q) S = isVBlocking q S.
Proof. intros Hok. destruct (normalizeQSet_meaning q Hok). split; [done|]. intros S. apply H0. Qed.
