(* ===== verification/LocalNode.v ===== *)
(** * More of src/src/scp/LocalNode.cpp: node weights and the distance to a
    v-blocking set *)
From S2P Require Import Prelude Numeric QuorumSet.

(** ** Weights *)

Section Weights.
Context {U : UInt128}.

(** [computeWeight(m, total, threshold)]; the flag of [bigDivide] is ignored *)
Definition computeWeight (m total threshold : Z) : res Z :=
  _ ← assert_ (threshold <=? total);
  Ok (snd (bigDivide_u64 m threshold total ROUND_UP)).

(** [getNodeWeight(nodeID, qset)]: the validators first, then the first inner
    set in which the node has a weight *)
Fixpoint getNodeWeight (nodeID : NodeID) (q : SCPQuorumSet) : res Z :=
  match q with
  | mkQSet t vs inner =>
      let n := t in
      let d := size_of inner + size_of vs in
      if in_set vs nodeID then computeWeight UINT64_MAX d n
      else
        (fix go (l : list SCPQuorumSet) : res Z :=
           match l with
           | [] => Ok 0
           | q :: l' =>
               leafW ← getNodeWeight nodeID q;
               if leafW =? 0 then go l' else computeWeight leafW d n
           end) inner
  end.

Lemma computeWeight_spec m total threshold :
  is_u64 m -> 0 < threshold <= total -> total <= UINT64_MAX ->
  exists w, computeWeight m total threshold = Ok w /\ 0 <= w <= m /\
    (0 < m -> 0 < w) /\ m * threshold <= w * total < m * threshold + total.
Proof.
  intros Hm Ht Htot. unfold computeWeight.
  rewrite assert_true by lia. cbn [mbind res_bind].
  rewrite bigDivide_u64_spec by zlia. cbn [snd div_round].
  pose proof (div_up_bounds (m * threshold) total ltac:(lia)).
  assert (0 <= (m * threshold + total - 1) / total <= m).
  { destruct Hm. split; [apply Z.div_pos; nia|]. nia. }
  rewrite u64_id by zlia. eexists; split; [done|].
  split; [done|]. split; [|lia]. intros Hm0.
  pose proof (Z.mul_pos_pos m threshold). nia.
Qed.

(** On a well-formed quorum set [getNodeWeight] returns a weight
    in the [uint64] range, and the weight is positive exactly for the nodes
    that the quorum set names. *)
Theorem getNodeWeight_positive_iff_member nodeID q :
  qset_ok q ->
  exists w, getNodeWeight nodeID q = Ok w /\ is_u64 w /\
    (0 < w <-> nodeID ∈ forAllNodes q).
Proof.
  induction q as [t vs inner IH] using qset_ind'. intros Hok.
  apply qset_ok_unfold in Hok as (Ht & Hs & Hin). cbn [getNodeWeight forAllNodes].
  unfold in_set. case_bool_decide as Hv.
  - destruct (computeWeight_spec UINT64_MAX (size_of inner + size_of vs) t)
      as (w & -> & Hw & Hpos & _); [zlia..|].
    exists w. split; [done|]. split; [zlia|]. rewrite elem_of_app.
    split; [by left|]. intros _. apply Hpos. zlia.
  - assert (Hd : 0 < t <= size_of inner + size_of vs) by lia.
    assert (Hd' : size_of inner + size_of vs <= UINT64_MAX) by zlia.
    revert Hd Hd'. generalize (size_of inner + size_of vs). intros d Hd Hd'.
    clear Ht Hs. induction inner as [|q l IHl].
    + exists 0. split; [done|]. split; [zlia|]. cbn. rewrite app_nil_r.
      split; [lia|done].
    + apply Forall_cons in IH as [IHq IH]. apply Forall_cons in Hin as [Hq Hin].
      destruct (IHq Hq) as (w & -> & Hw & Hmem). cbn [mbind res_bind].
      destruct (Z.eqb_spec w 0) as [->|Hw0].
      * destruct (IHl IH Hin) as (w' & -> & Hw' & Hmem').
        exists w'. split; [done|]. split; [done|].
        rewrite Hmem'. cbn. rewrite !elem_of_app in *.
        assert (nodeID ∉ forAllNodes q) by (rewrite <- Hmem; lia). tauto.
      * destruct (computeWeight_spec w d t) as (w' & -> & Hw' & Hpos & _); [zlia..|].
        exists w'. split; [done|]. split; [zlia|].
        assert (nodeID ∈ forAllNodes q) by (apply Hmem; zlia).
        cbn. rewrite !elem_of_app. split; [tauto|]. intros _. apply Hpos. zlia.
Qed.

End Weights.

(** ** findClosestVBlocking *)

(** first loop: the members that are missing from [nodes] block already;
    [None] when they are enough, otherwise what is left to block and the
    validators that could fail *)
Fixpoint closest_validators (nodes : list NodeID) (excluded : option NodeID)
    (c : Z) (res : list NodeID) (vs : list NodeID) : option (Z * list NodeID) :=
  match vs with
  | [] => Some (c, res)
  | v :: vs' =>
      if bool_decide (excluded = Some v)
      then closest_validators nodes excluded c res vs'
      else if negb (in_set nodes v) then
        let c := u64 (c - 1) in
        if c =? 0 then None else closest_validators nodes excluded c res vs'
      else closest_validators nodes excluded c (res ++ [v]) vs'
  end.

(** [resInternals.emplace(v)]: a multiset ordered by size *)
Fixpoint emplace_by_size (v : list NodeID) (l : list (list NodeID)) : list (list NodeID) :=
  match l with
  | [] => [v]
  | x :: l' =>
      if Nat.ltb (length v) (length x) then v :: x :: l'
      else x :: emplace_by_size v l'
  end.

(** second loop: over the results for the inner sets *)
Fixpoint closest_inner (c : Z) (resInternals : list (list NodeID))
    (rs : list (list NodeID)) : option (Z * list (list NodeID)) :=
  match rs with
  | [] => Some (c, resInternals)
  | v :: rs' =>
      if size_of v =? 0 then
        let c := u64 (c - 1) in
        if c =? 0 then None else closest_inner c resInternals rs'
      else closest_inner c (emplace_by_size v resInternals) rs'
  end.

(** last loop: the smallest subsets first *)
Fixpoint take_smallest (c : Z) (res : list NodeID) (l : list (list NodeID)) : list NodeID :=
  match l with
  | [] => res
  | v :: l' => if c =? 0 then res else take_smallest (u64 (c - 1)) (res ++ v) l'
  end.

Fixpoint findClosestVBlocking (nodes : list NodeID) (excluded : option NodeID)
    (q : SCPQuorumSet) : list NodeID :=
  match q with
  | mkQSet t vs inner =>
      let leftTillBlock := u64 ((1 + size_of vs + size_of inner) - t) in
      match closest_validators nodes excluded leftTillBlock [] vs with
      | None => []
      | Some (c, res) =>
          match closest_inner c [] (map (findClosestVBlocking nodes excluded) inner) with
          | None => []
          | Some (c, resInternals) =>
              let res := if size_of res >? c then take (Z.to_nat c) res else res in
              let c := u64 (c - size_of res) in
              take_smallest c res resInternals
          end
      end
  end.

(** [findClosestVBlocking(qset, map, filter, excluded)] *)
Definition findClosestVBlocking_map {St} (q : SCPQuorumSet) (m : list (NodeID * St))
    (flt : St -> bool) (excluded : option NodeID) : list NodeID :=
  findClosestVBlocking (filtered_nodes m flt) excluded q.

(** *** What it computes, without an excluded node

    [missing] are the nodes of the quorum set that are not in [nodes]. *)

Section Closest.
Variables (nodes missing : list NodeID).

Lemma closest_validators_spec c res vs :
  0 < c <= UINT64_MAX ->
  let k := hits_of (map (fun v => negb (in_set nodes v)) vs) in
  closest_validators nodes None c res vs =
    if c <=? k then None else Some (c - k, res ++ List.filter (in_set nodes) vs).
Proof.
  revert c res. induction vs as [|v vs IH]; intros c res Hc; cbv zeta.
  - cbn [closest_validators map List.filter]. rewrite hits_of_nil, app_nil_r, Z.sub_0_r.
    by rewrite (proj2 (Z.leb_gt _ _)) by lia.
  - cbn [closest_validators map List.filter]. rewrite hits_of_cons.
    rewrite bool_decide_false by done.
    pose proof (hits_of_range (map (fun v => negb (in_set nodes v)) vs)).
    destruct (in_set nodes v) eqn:Ev; cbn [negb].
    + rewrite IH by done. cbv zeta. by rewrite Z.add_0_l, <- app_assoc.
    + rewrite u64_id by zlia. destruct (Z.eqb_spec (c - 1) 0).
      { by rewrite (proj2 (Z.leb_le _ _)) by lia. }
      rewrite IH by lia. cbv zeta.
      destruct (Z.leb_spec (c - 1) (hits_of (map (fun v => negb (in_set nodes v)) vs))),
        (Z.leb_spec c (1 + hits_of (map (fun v => negb (in_set nodes v)) vs))); try lia; try done.
      do 2 f_equal. lia.
Qed.

Lemma emplace_by_size_perm v l : emplace_by_size v l ≡ₚ v :: l.
Proof.
  induction l as [|x l IH]; cbn; [done|]. case_match; [done|].
  rewrite IH. apply perm_swap.
Qed.

Definition is_nonempty (v : list NodeID) : bool := negb (size_of v =? 0).

Lemma closest_inner_spec c acc rs :
  0 < c <= UINT64_MAX ->
  let k := hits_of (map (fun v => size_of v =? 0) rs) in
  (c <= k -> closest_inner c acc rs = None) /\
  (k < c -> exists l, closest_inner c acc rs = Some (c - k, l) /\
     l ≡ₚ acc ++ List.filter is_nonempty rs).
Proof.
  revert c acc. induction rs as [|v rs IH]; intros c acc Hc; cbv zeta.
  - cbn [closest_inner map List.filter]. rewrite hits_of_nil, Z.sub_0_r, app_nil_r.
    split; [lia|eauto].
  - cbn [closest_inner map List.filter]. rewrite hits_of_cons. unfold is_nonempty at 1.
    pose proof (hits_of_range (map (fun v => size_of v =? 0) rs)).
    destruct (size_of v =? 0); cbn [negb].
    + rewrite u64_id by zlia. destruct (Z.eqb_spec (c - 1) 0).
      { split; [done|lia]. }
      destruct (IH (c - 1) acc ltac:(lia)) as [IH1 IH2]. split.
      * intros. apply IH1. lia.
      * intros. destruct IH2 as (l & -> & Hl); [lia|]. exists l.
        split; [do 2 f_equal; lia|done].
    + rewrite Z.add_0_l. destruct (IH c (emplace_by_size v acc) Hc) as [IH1 IH2].
      split; [done|]. intros Hk. destruct (IH2 Hk) as (l & -> & Hl). exists l.
      split; [done|]. rewrite Hl, emplace_by_size_perm. cbn [app]. apply Permutation_middle.
Qed.

Lemma take_smallest_spec c res l :
  0 <= c <= UINT64_MAX ->
  take_smallest c res l = res ++ concat (take (Z.to_nat c) l).
Proof.
  revert c res. induction l as [|v l IH]; intros c res Hc; cbn [take_smallest].
  - by rewrite take_nil, app_nil_r.
  - destruct (Z.eqb_spec c 0) as [->|].
    + cbn. by rewrite app_nil_r.
    + rewrite u64_id by zlia. rewrite IH by lia.
      replace (Z.to_nat c) with (S (Z.to_nat (c - 1))) by lia. cbn.
      by rewrite app_assoc.
Qed.

(** *** The set found completes the missing nodes to a v-blocking set *)

Lemma isVBlocking_mono S S' q :
  qset_ok q -> S ⊆ S' ->
  isVBlockingInternal S q = true -> isVBlockingInternal S' q = true.
Proof.
  intros Hok HS. revert Hok.
  induction q as [t vs inner IH] using qset_ind'. intros Hok.
  rewrite !isVBlocking_of_ok by done. intros H1.
  eapply Z.lt_le_trans; [exact H1|]. apply hits_of_mono.
  - intros v _. unfold in_set. rewrite !bool_decide_eq_true. auto.
  - apply qset_ok_unfold in Hok as (_ & _ & Hin).
    rewrite Forall_forall in IH, Hin. auto.
Qed.

Lemma hits_of_perm {A} (f : A -> bool) l1 l2 :
  l1 ≡ₚ l2 -> hits_of (map f l1) = hits_of (map f l2).
Proof.
  induction 1; cbn [map]; rewrite ?hits_of_cons; lia.
Qed.

Lemma hits_of_all {A} (f : A -> bool) l :
  (forall x, x ∈ l -> f x = true) -> hits_of (map f l) = size_of l.
Proof.
  induction l as [|x l IH]; intros H; [done|]. cbn [map]. rewrite hits_of_cons, IH by set_solver.
  rewrite H by set_solver. unfold size_of. cbn [length]. lia.
Qed.

Lemma hits_of_split {A} (p f : A -> bool) l :
  hits_of (map f l) =
    hits_of (map f (List.filter p l)) + hits_of (map f (List.filter (fun x => negb (p x)) l)).
Proof.
  induction l as [|x l IH]; [done|]. cbn [map List.filter].
  destruct (p x); cbn [map negb]; rewrite !hits_of_cons, IH; lia.
Qed.

Lemma size_of_filter_split {A} (p : A -> bool) l :
  size_of (List.filter p l) = hits_of (map p l) /\
  size_of (List.filter (fun x => negb (p x)) l) = size_of l - hits_of (map p l).
Proof.
  induction l as [|x l [IH1 IH2]]; [done|]. unfold size_of in *. cbn [map List.filter].
  rewrite hits_of_cons. cbn [length]. destruct (p x); cbn [negb length]; lia.
Qed.

(** at least [k] members are hit when a prefix of length [k] of some
    arrangement of them is *)
Lemma hits_of_prefix {A} (f : A -> bool) l l' k :
  l ≡ₚ l' -> (forall x, x ∈ take k l' -> f x = true) ->
  size_of (take k l') <= hits_of (map f l).
Proof.
  intros HP Hk. rewrite (hits_of_perm f l l' HP).
  rewrite <- (take_drop k l') at 2. rewrite map_app, hits_of_app, (hits_of_all f (take k l')) by done.
  pose proof (hits_of_range (map f (drop k l'))). lia.
Qed.

Lemma size_of_take {A} k (l : list A) :
  0 <= k -> size_of (take (Z.to_nat k) l) = Z.min k (size_of l).
Proof. intros. unfold size_of. rewrite length_take. lia. Qed.

Lemma elem_of_concat_take k v (l : list (list NodeID)) x :
  v ∈ take k l -> x ∈ v -> x ∈ concat (take k l).
Proof. intros Hv Hx. apply list_elem_of_In, in_concat. exists v. by rewrite <- !list_elem_of_In. Qed.

Definition closest_ok (q : SCPQuorumSet) : Prop :=
  let r := findClosestVBlocking nodes None q in
  (r = [] <-> isVBlockingInternal missing q = true) /\
  isVBlockingInternal (missing ++ r) q = true /\
  (forall v, v ∈ r -> v ∈ nodes).

Lemma hits_of_map_mono {A} (f g : A -> bool) l :
  (forall x, x ∈ l -> f x = true -> g x = true) ->
  hits_of (map f l) <= hits_of (map g l).
Proof.
  induction l as [|x l IH]; intros H; [done|]. cbn [map]. rewrite !hits_of_cons.
  specialize (IH ltac:(set_solver)). pose proof (H x ltac:(set_solver)).
  destruct (f x), (g x); naive_solver lia.
Qed.

Lemma filter_map_swap {A B} (h : A -> B) (p : B -> bool) l :
  List.filter p (map h l) = map h (List.filter (fun x => p (h x)) l).
Proof. induction l as [|x l IH]; [done|]. cbn. rewrite IH. by destruct (p (h x)). Qed.

(** the members hit by the missing nodes, a prefix of the validators that
    could fail and a prefix of the subsets found for the inner sets *)
Lemma hits_of_closest vs inner L a b (F : SCPQuorumSet -> list NodeID) S :
  (forall v, v ∈ vs -> in_set nodes v = false -> v ∈ S) ->
  (forall v, v ∈ take a (List.filter (in_set nodes) vs) -> v ∈ S) ->
  L ≡ₚ List.filter is_nonempty (map F inner) ->
  (forall q, q ∈ inner -> (F q = [] \/ F q ∈ take b L) -> isVBlockingInternal S q = true) ->
  hits_of (map (fun v => negb (in_set nodes v)) vs) +
  hits_of (map (fun q => size_of (F q) =? 0) inner) +
  size_of (take a (List.filter (in_set nodes) vs)) + size_of (take b L)
  <= hits_of (members (in_set S) (isVBlockingInternal S) vs inner).
Proof.
  intros Hmiss Hpre HL Hin. unfold members. rewrite hits_of_app.
  rewrite (hits_of_split (fun v => negb (in_set nodes v)) (in_set S) vs).
  rewrite (hits_of_split (fun q => size_of (F q) =? 0) (isVBlockingInternal S) inner).
  destruct (size_of_filter_split (fun v => negb (in_set nodes v)) vs) as [Hv1 _].
  destruct (size_of_filter_split (fun q => size_of (F q) =? 0) inner) as [Hi1 _].
  rewrite (hits_of_all (in_set S) (List.filter _ vs)).
  2:{ intros v [? Hn]%elem_of_filter_list. apply bool_decide_eq_true.
      apply Hmiss; [done|]. by destruct (in_set nodes v). }
  rewrite (hits_of_all (isVBlockingInternal S) (List.filter (fun q => size_of (F q) =? 0) inner)).
  2:{ intros q [? Hn]%elem_of_filter_list. apply Hin; [done|]. left.
      unfold size_of in Hn. by destruct (F q). }
  assert (Hneg : List.filter (fun v => negb (negb (in_set nodes v))) vs
    = List.filter (in_set nodes) vs).
  { apply filter_ext. intros. apply negb_involutive. }
  rewrite Hneg.
  assert (size_of (take a (List.filter (in_set nodes) vs)) <=
    hits_of (map (in_set S) (List.filter (in_set nodes) vs))).
  { apply hits_of_prefix; [done|]. intros v Hv. by apply bool_decide_eq_true, Hpre. }
  set (X := List.filter (fun q => negb (size_of (F q) =? 0)) inner).
  assert (size_of (take b L) <= hits_of (map (isVBlockingInternal S) X)).
  { transitivity (hits_of (map (fun v => bool_decide (v ∈ take b L)) (map F X))).
    - apply (hits_of_prefix _ _ L).
      + rewrite HL, filter_map_swap. done.
      + intros v Hv. by apply bool_decide_eq_true.
    - rewrite map_map. apply hits_of_map_mono. intros q Hq Hb.
      apply bool_decide_eq_true in Hb. apply elem_of_filter_list in Hq as [Hq _]. auto. }
  lia.
Qed.

Lemma closest_inner_blocked inner :
  Forall closest_ok inner ->
  hits_of (map (fun v => size_of v =? 0) (map (findClosestVBlocking nodes None) inner))
  = hits_of (map (isVBlockingInternal missing) inner).
Proof.
  intros H. rewrite map_map. f_equal. apply map_ext_in. intros q Hq.
  rewrite Forall_forall in H. destruct (H q) as (Hr & _); [by apply list_elem_of_In|].
  unfold size_of. apply bool_eq_iff. rewrite <- Hr, Z.eqb_eq.
  destruct (findClosestVBlocking nodes None q); cbn; split; done || lia.
Qed.

(** *** One level of the recursion *)

Section Level.
Variables (t : Z) (vs : list NodeID) (inner : list SCPQuorumSet).
Hypothesis Hok : qset_ok (mkQSet t vs inner).
Hypothesis Hmiss : forall v, v ∈ vs -> v ∈ missing <-> v ∉ nodes.
Hypothesis Hcl : Forall closest_ok inner.
#[local] Abbreviation kv := (hits_of (map (in_set missing) vs)).
#[local] Abbreviation ki := (hits_of (map (isVBlockingInternal missing) inner)).
#[local] Abbreviation res := (List.filter (in_set nodes) vs).

Lemma level_missing :
  map (fun v => negb (in_set nodes v)) vs = map (in_set missing) vs.
Proof.
  apply map_ext_in. intros v Hv%list_elem_of_In. unfold in_set.
  pose proof (Hmiss v Hv). repeat case_bool_decide; naive_solver.
Qed.

Lemma level_res_size : size_of res = size_of vs - kv.
Proof.
  rewrite (proj1 (size_of_filter_split (in_set nodes) vs)), <- level_missing.
  rewrite <- (map_map (in_set nodes) negb), hits_of_negb, size_of_map. lia.
Qed.

Lemma level_internals_size L :
  L ≡ₚ List.filter is_nonempty (map (findClosestVBlocking nodes None) inner) ->
  size_of L = size_of inner - ki.
Proof.
  intros HL. transitivity (size_of (List.filter is_nonempty
    (map (findClosestVBlocking nodes None) inner))); [unfold size_of; by rewrite HL|].
  unfold is_nonempty. rewrite (proj2 (size_of_filter_split (fun v => size_of v =? 0) _)).
  by rewrite closest_inner_blocked, size_of_map.
Qed.

(** enough members are blocked once a prefix of the validators and of the
    internal results has been added *)
Lemma level_blocks L c :
  L ≡ₚ List.filter is_nonempty (map (findClosestVBlocking nodes None) inner) ->
  c = 1 + size_of vs + size_of inner - t - kv - ki -> 0 < c ->
  let r := take (Z.to_nat c) res ++ concat (take (Z.to_nat (c - c `min` size_of res)) L) in
  isVBlockingInternal (missing ++ r) (mkQSet t vs inner) = true.
Proof.
  intros HL Hc Hc0 r. rewrite isVBlocking_of_ok by done.
  pose proof (size_of_take c res ltac:(lia)) as Ta.
  pose proof (size_of_take (c - c `min` size_of res) L ltac:(lia)) as Tb.
  pose proof level_res_size as Hres. pose proof (level_internals_size L HL) as HLs.
  pose proof Hok as (Ht & Hs & Hin)%qset_ok_unfold. rewrite Forall_forall in Hin.
  eapply Z.lt_le_trans; [|eapply (hits_of_closest vs inner L (Z.to_nat c)
    (Z.to_nat (c - c `min` size_of res)) (findClosestVBlocking nodes None))].
  - pose proof (closest_inner_blocked inner Hcl) as Hki. rewrite map_map in Hki.
    pose proof (size_of_nonneg L). rewrite level_missing, Hki, Ta, Tb. lia.
  - intros v Hv Hn%bool_decide_eq_false. apply elem_of_app. left. by apply Hmiss.
  - intros v Hv. unfold r. set_solver.
  - done.
  - intros q Hq Hor. rewrite Forall_forall in Hcl. destruct (Hcl q Hq) as (_ & Hb & _).
    eapply isVBlocking_mono; [by apply Hin| |exact Hb].
    intros x [Hx|Hx]%elem_of_app; [set_solver|].
    destruct Hor as [Hor|Hor]; [by rewrite Hor in Hx; inversion Hx|].
    apply elem_of_app. right. apply elem_of_app. right. by eapply elem_of_concat_take.
Qed.

Lemma level_nonempty L c :
  L ≡ₚ List.filter is_nonempty (map (findClosestVBlocking nodes None) inner) ->
  c = 1 + size_of vs + size_of inner - t - kv - ki -> 0 < c ->
  take (Z.to_nat c) res ++ concat (take (Z.to_nat (c - c `min` size_of res)) L) <> [].
Proof.
  intros HL Hc Hc0 [Hr1 Hr2]%app_eq_nil.
  pose proof (size_of_take c res ltac:(lia)) as Ta. rewrite Hr1 in Ta.
  change (size_of (@nil NodeID)) with 0 in Ta.
  pose proof level_res_size as Hres. pose proof (level_internals_size L HL) as HLs.
  pose proof Hok as (Ht & Hs & _)%qset_ok_unfold.
  destruct L as [|x L']; [change (size_of (@nil (list NodeID))) with 0 in HLs; lia|].
  assert (x ∈ List.filter is_nonempty (map (findClosestVBlocking nodes None) inner))
    as [_ Hx]%elem_of_filter_list by (rewrite <- HL; set_solver).
  replace (Z.to_nat (c - c `min` size_of res))
    with (S (Z.to_nat (c - c `min` size_of res - 1))) in Hr2 by lia.
  cbn in Hr2. apply app_eq_nil in Hr2 as [-> _]. done.
Qed.

Lemma level_from_nodes L a b v :
  L ≡ₚ List.filter is_nonempty (map (findClosestVBlocking nodes None) inner) ->
  v ∈ take a res ++ concat (take b L) -> v ∈ nodes.
Proof.
  intros HL [Hv|Hv]%elem_of_app.
  - apply elem_of_take_sub, elem_of_filter_list in Hv as [_ Hv].
    by apply bool_decide_eq_true in Hv.
  - apply list_elem_of_In, in_concat in Hv as (x & Hx & Hv).
    apply list_elem_of_In, elem_of_take_sub in Hx. rewrite HL in Hx.
    apply elem_of_filter_list in Hx as [Hx _].
    apply list_elem_of_In, in_map_iff in Hx as (q & <- & Hq).
    rewrite Forall_forall in Hcl. destruct (Hcl q) as (_ & _ & Hn);
      [|apply Hn]; by apply list_elem_of_In.
Qed.

(** the three ways the function returns *)
Lemma level_result :
  let c := 1 + size_of vs + size_of inner - t - kv - ki in
  (c <= 0 /\ findClosestVBlocking nodes None (mkQSet t vs inner) = []) \/
  (0 < c /\ exists L,
    L ≡ₚ List.filter is_nonempty (map (findClosestVBlocking nodes None) inner) /\
    findClosestVBlocking nodes None (mkQSet t vs inner) =
      take (Z.to_nat c) res ++ concat (take (Z.to_nat (c - c `min` size_of res)) L)).
Proof.
  intros c. pose proof Hok as (Ht & Hs & _)%qset_ok_unfold.
  pose proof (hits_of_range (map (in_set missing) vs)) as Rv.
  pose proof (hits_of_range (map (isVBlockingInternal missing) inner)) as Ri.
  rewrite size_of_map in Rv. rewrite size_of_map in Ri.
  cbn [findClosestVBlocking]. rewrite u64_id by zlia.
  rewrite closest_validators_spec by zlia. cbv zeta. rewrite level_missing.
  destruct (Z.leb_spec (1 + size_of vs + size_of inner - t) kv); [left; split; [lia|done]|].
  cbn [app].
  match goal with |- context [closest_inner ?C _ ?R] =>
    destruct (closest_inner_spec C [] R ltac:(zlia)) as [Hnone Hsome] end.
  rewrite (closest_inner_blocked inner Hcl) in Hnone, Hsome. cbn [app] in Hsome.
  destruct (Z.leb_spec (1 + size_of vs + size_of inner - t - kv) ki);
    [left; split; [lia|by rewrite Hnone]|].
  destruct Hsome as (L & -> & HL); [done|]. right. split; [lia|]. exists L.
  split; [done|]. fold c.
  assert ((if size_of res >? c then take (Z.to_nat c) res else res) = take (Z.to_nat c) res) as ->.
  { rewrite Z.gtb_ltb. split_if; [done|]. rewrite take_ge; [done|]. unfold size_of in E. lia. }
  assert (0 < c <= UINT64_MAX) by (unfold c; zlia).
  pose proof (size_of_nonneg res).
  rewrite size_of_take, u64_id, take_smallest_spec; [done|lia|zlia|lia].
Qed.

Lemma level_correct : closest_ok (mkQSet t vs inner).
Proof.
  assert (isVBlockingInternal missing (mkQSet t vs inner) = true <->
    1 + size_of vs + size_of inner - t - kv - ki <= 0) as Hb.
  { rewrite isVBlocking_of_ok by done. unfold members. rewrite hits_of_app. lia. }
  unfold closest_ok.
  destruct level_result as [[Hc ->]|(Hc & L & HL & ->)].
  - rewrite app_nil_r. pose proof (proj2 Hb Hc). split; [done|]. split; [done|].
    intros v Hv. inversion Hv.
  - split; [|split].
    + pose proof (level_nonempty L _ HL eq_refl Hc). rewrite Hb. split; [done|lia].
    + by apply level_blocks.
    + intros v. by apply level_from_nodes.
Qed.

End Level.

Lemma closest_correct q :
  qset_ok q -> (forall v, v ∈ forAllNodes q -> v ∈ missing <-> v ∉ nodes) ->
  closest_ok q.
Proof.
  induction q as [t vs inner IH] using qset_ind'. intros Hok Hmiss.
  apply level_correct; [done| |].
  - intros v Hv. apply Hmiss. cbn. set_solver.
  - apply qset_ok_unfold in Hok as (_ & _ & Hin).
    rewrite Forall_forall in *. intros q Hq. apply IH; [done|auto|].
    intros v Hv. apply Hmiss. by eapply in_forAllNodes_inner.
Qed.

End Closest.

(** With no node excluded, [findClosestVBlocking] returns the empty
    list exactly when the nodes outside of [nodes] block the quorum set
    already; what it returns is drawn from [nodes], and once it fails too
    the quorum set is blocked. *)
Theorem findClosestVBlocking_correct nodes missing q :
  qset_ok q -> (forall v, v ∈ forAllNodes q -> v ∈ missing <-> v ∉ nodes) ->
  let r := findClosestVBlocking nodes None q in
  (r = [] <-> isVBlocking q missing = true) /\
  isVBlocking q (missing ++ r) = true /\
  (forall v, v ∈ r -> v ∈ nodes).
Proof. apply closest_correct. Qed.

(** ** Concrete instances *)

Definition sample_qset : SCPQuorumSet :=
  mkQSet 3 [1; 2; 3] [mkQSet 1 [4; 5] []].

Lemma sample_qset_ok : qset_ok sample_qset.
Proof. cbn. unfold size_of; cbn. zlia. Qed.

Lemma isVBlocking_iff_no_slice_avoids_witness :
  isVBlocking sample_qset [1; 4; 5] = true.
Proof.
  rewrite (isVBlocking_iff_no_slice_avoids sample_qset [1; 4; 5] [2; 3]).
  - reflexivity.
  - exact sample_qset_ok.
  - intros v Hv. cbn in Hv. set_solver.
Defined.

Lemma isQuorum_correct_witness :
  exists b, isQuorum sample_qset [(1, tt); (2, tt); (3, tt)]
      (fun _ => Some (mkQSet 2 [1; 2; 3] [])) (fun _ => true) = Some b /\ b = true.
Proof.
  destruct (isQuorum_correct [(1, tt); (2, tt); (3, tt)]
    (fun _ => Some (mkQSet 2 [1; 2; 3] [])) (fun _ => true) sample_qset)
    as (b & Hb & Hiff).
  - exact sample_qset_ok.
  - intros _ q [= <-]. cbn. unfold size_of; cbn. zlia.
  - exists b. split; [exact Hb|]. apply Hiff. exists [1; 2; 3].
    split; [set_solver|]. split; [|reflexivity].
    intros v Hv. assert (v = 1 \/ v = 2 \/ v = 3) as [->|[->| ->]] by set_solver; reflexivity.
Defined.

Lemma isQuorumSetSane_correct_witness : isQuorumSetSane (mkQSet 3 [1; 2; 3] [mkQSet 2 [4; 5] []]) true = true.
Proof.
  apply (isQuorumSetSane_correct (mkQSet 3 [1; 2; 3] [mkQSet 2 [4; 5] []]) true).
  - cbn. unfold size_of; cbn. zlia.
  - vm_compute. congruence.
  - split; [cbn; unfold size_of; cbn; lia|].
    split; [|vm_compute; split; congruence].
    apply (bool_decide_unpack _). vm_compute. exact I.
Defined.

Lemma normalizeQSet_preserves_witness :
  isQuorumSlice (normalizeQSet None (mkQSet 2 [1] [mkQSet 1 [2] []; mkQSet 1 [3; 4] []])) [1; 2]
  = true.
Proof.
  rewrite (proj1 (proj2 (normalizeQSet_preserves
    (mkQSet 2 [1] [mkQSet 1 [2] []; mkQSet 1 [3; 4] []])
    ltac:(cbn; unfold size_of; cbn; zlia)) [1; 2])).
  reflexivity.
Defined.

Lemma getNodeWeight_positive_iff_member_witness :
  exists w, @getNodeWeight Z_uint128 4 sample_qset = Ok w /\ 0 < w.
Proof.
  destruct (@getNodeWeight_positive_iff_member Z_uint128 4 sample_qset sample_qset_ok)
    as (w & Hw & _ & Hiff).
  exists w. split; [exact Hw|]. apply Hiff. cbn. set_solver.
Defined.

Lemma findClosestVBlocking_correct_witness :
  isVBlocking sample_qset ([3] ++ findClosestVBlocking [1; 2; 4; 5] None sample_qset) = true.
Proof.
  apply (findClosestVBlocking_correct [1; 2; 4; 5] [3] sample_qset).
  - exact sample_qset_ok.
  - intros v Hv. cbn in Hv. set_solver.
Defined.
