(* ===== verification/Bucket.v ===== *)
(** * Buckets: sorted files of ledger entries and their merge

    src/src/bucket/Bucket.cpp, LedgerCmp.h and BucketOutputIterator.cpp.  A
    bucket is the list of the entries of its file; an input iterator is the
    rest of the list.  Hashing, file names and the bucket directory are not
    modelled: two buckets are the same when their entries are.

    The order of assets comes from the generated XDR operators, which are not
    part of the repository: it is the interface [AssetOrder], any strict
    total order. *)
From S2P Require Import Prelude Numeric LedgerEntries.
From Stdlib Require Import Sorted Permutation.

Class AssetOrder := {
  asset_ltb : Asset -> Asset -> bool;
  asset_ltb_irrefl : forall a, asset_ltb a a = false;
  asset_ltb_trans : forall a b c,
    asset_ltb a b = true -> asset_ltb b c = true -> asset_ltb a c = true;
  asset_ltb_total : forall a b, a <> b -> asset_ltb a b = true \/ asset_ltb b a = true
}.

(** ** Identities (LedgerCmp.h) *)

Definition key_type_rank (k : LedgerKey) : Z :=
  match k with
  | KeyAccount _ => 0
  | KeyTrustLine _ _ => 1
  | KeyOffer _ _ => 2
  | KeyData _ _ => 3
  end.

(** [std::string]'s [operator<] *)
Definition string_ltb (a b : string) : bool :=
  match String.compare a b with Lt => true | _ => false end.

Section Order.
Context {AO : AssetOrder}.

(** [LedgerEntryIdCmp]: on the type, then on the identifying fields *)
Definition LedgerEntryIdCmp (a b : LedgerKey) : bool :=
  let aty := key_type_rank a in
  let bty := key_type_rank b in
  if aty <? bty then true
  else if aty >? bty then false
  else match a, b with
  | KeyAccount x, KeyAccount y => x <? y
  | KeyTrustLine x s, KeyTrustLine y t =>
      if x <? y then true else if y <? x then false else asset_ltb s t
  | KeyOffer x i, KeyOffer y j =>
      if x <? y then true else if y <? x then false else i <? j
  | KeyData x m, KeyData y n =>
      if x <? y then true else if y <? x then false else string_ltb m n
  | _, _ => false
  end.

(** [union BucketEntry] *)
Inductive BucketEntry :=
| LIVEENTRY (liveEntry : LedgerEntry)
| DEADENTRY (deadEntry : LedgerKey).

(** the identity that [LedgerEntryIdCmp] reads from either arm *)
Definition be_key (e : BucketEntry) : LedgerKey :=
  match e with
  | LIVEENTRY le => LedgerEntryKey le
  | DEADENTRY k => k
  end.

Definition BucketEntryIdCmp (a b : BucketEntry) : bool :=
  LedgerEntryIdCmp (be_key a) (be_key b).

(** ** Output *)

(** [BucketOutputIterator]: what has been written and the buffered entry *)
Record OutputIterator := mkOutputIterator {
  mKeepDeadEntries : bool;
  mOut : list BucketEntry;
  mBuf : option BucketEntry
}.

Definition newOutputIterator (keepDeadEntries : bool) : OutputIterator :=
  mkOutputIterator keepDeadEntries [] None.

Definition is_dead (e : BucketEntry) : bool :=
  match e with DEADENTRY _ => true | LIVEENTRY _ => false end.

(** [BucketOutputIterator::put] *)
Definition put (out : OutputIterator) (e : BucketEntry) : res OutputIterator :=
  if negb (mKeepDeadEntries out) && is_dead e then Ok out
  else
    match mBuf out with
    | Some buf =>
        _ ← assert_ (negb (BucketEntryIdCmp e buf));
        let written := if BucketEntryIdCmp buf e then mOut out ++ [buf] else mOut out in
        Ok (mkOutputIterator (mKeepDeadEntries out) written (Some e))
    | None => Ok (mkOutputIterator (mKeepDeadEntries out) (mOut out) (Some e))
    end.

(** [BucketOutputIterator::getBucket] *)
Definition getBucket (out : OutputIterator) : list BucketEntry :=
  match mBuf out with
  | Some buf => mOut out ++ [buf]
  | None => mOut out
  end.

(** ** Merge *)

(** [while (si && cmp( *si, entry)) ++si;] *)
Fixpoint advance (entry : BucketEntry) (si : list BucketEntry) : list BucketEntry :=
  match si with
  | [] => []
  | x :: si' => if BucketEntryIdCmp x entry then advance entry si' else si
  end.

(** the loop of [maybePut] over the shadow iterators: whether the entry is
    shadowed, and the iterators after the call *)
Fixpoint check_shadows (entry : BucketEntry) (sis : list (list BucketEntry))
    : bool * list (list BucketEntry) :=
  match sis with
  | [] => (false, [])
  | si :: sis' =>
      let si := advance entry si in
      match si with
      | x :: _ =>
          if negb (BucketEntryIdCmp entry x) then (true, si :: sis')
          else let '(b, r) := check_shadows entry sis' in (b, si :: r)
      | [] => let '(b, r) := check_shadows entry sis' in (b, si :: r)
      end
  end.

Definition maybePut (out : OutputIterator) (entry : BucketEntry)
    (shadowIterators : list (list BucketEntry))
    : res (OutputIterator * list (list BucketEntry)) :=
  let '(shadowed, sis) := check_shadows entry shadowIterators in
  if shadowed then Ok (out, sis)
  else out ← put out entry; Ok (out, sis).

(** the [while (oi || ni)] loop; every round advances an iterator, so the
    fuel is the number of entries left *)
Fixpoint merge_loop (fuel : nat) (oi ni : list BucketEntry) (out : OutputIterator)
    (sis : list (list BucketEntry)) : res OutputIterator :=
  match fuel with
  | O => Ok out
  | S fuel' =>
      match oi, ni with
      | [], [] => Ok out
      | o :: oi', [] =>
          '(out, sis) ← maybePut out o sis; merge_loop fuel' oi' ni out sis
      | [], n :: ni' =>
          '(out, sis) ← maybePut out n sis; merge_loop fuel' oi ni' out sis
      | o :: oi', n :: ni' =>
          if BucketEntryIdCmp o n then
            '(out, sis) ← maybePut out o sis; merge_loop fuel' oi' ni out sis
          else if BucketEntryIdCmp n o then
            '(out, sis) ← maybePut out n sis; merge_loop fuel' oi ni' out sis
          else
            '(out, sis) ← maybePut out n sis; merge_loop fuel' oi' ni' out sis
      end
  end.

(** [Bucket::merge] *)
Definition merge (oldBucket newBucket : list BucketEntry)
    (shadows : list (list BucketEntry)) (keepDeadEntries : bool)
    : res (list BucketEntry) :=
  out ← merge_loop (length oldBucket + length newBucket) oldBucket newBucket
          (newOutputIterator keepDeadEntries) shadows;
  Ok (getBucket out).

(** [std::sort] with [BucketEntryIdCmp] *)
Fixpoint insert_entry (e : BucketEntry) (l : list BucketEntry) : list BucketEntry :=
  match l with
  | [] => [e]
  | x :: l' => if BucketEntryIdCmp e x then e :: x :: l' else x :: insert_entry e l'
  end.
Definition sort_entries (l : list BucketEntry) : list BucketEntry :=
  foldr insert_entry [] l.

(** [Bucket::convertToBucketEntry], both overloads *)
Definition convertLiveEntries (liveEntries : list LedgerEntry) : list BucketEntry :=
  sort_entries (map LIVEENTRY liveEntries).
Definition convertDeadEntries (deadEntries : list LedgerKey) : list BucketEntry :=
  sort_entries (map DEADENTRY deadEntries).

Fixpoint put_all (out : OutputIterator) (l : list BucketEntry) : res OutputIterator :=
  match l with
  | [] => Ok out
  | e :: l' => out ← put out e; put_all out l'
  end.

(** [Bucket::fresh] *)
Definition fresh (liveEntries : list LedgerEntry) (deadEntries : list LedgerKey)
    : res (list BucketEntry) :=
  liveOut ← put_all (newOutputIterator true) (convertLiveEntries liveEntries);
  deadOut ← put_all (newOutputIterator true) (convertDeadEntries deadEntries);
  merge (getBucket liveOut) (getBucket deadOut) [] true.

(** [Bucket::containsBucketIdentity] *)
Fixpoint containsBucketIdentity (b : list BucketEntry) (id : BucketEntry) : bool :=
  match b with
  | [] => false
  | x :: b' =>
      if negb (BucketEntryIdCmp x id || BucketEntryIdCmp id x) then true
      else containsBucketIdentity b' id
  end.

(** [Bucket::countLiveAndDeadEntries] *)
Fixpoint countLiveAndDeadEntries (b : list BucketEntry) : Z * Z :=
  match b with
  | [] => (0, 0)
  | x :: b' =>
      let '(live, dead) := countLiveAndDeadEntries b' in
      if is_dead x then (live, dead + 1) else (live + 1, dead)
  end.

(** ** The order of identities *)

Lemma string_ltb_irrefl s : string_ltb s s = false.
Proof.
  unfold string_ltb. pose proof (String.compare_antisym s s) as H.
  by destruct (String.compare s s).
Qed.

Lemma ascii_compare_lt a b :
  Ascii.compare a b = Lt <-> (Ascii.N_of_ascii a < Ascii.N_of_ascii b)%N.
Proof. unfold Ascii.compare. apply N.compare_lt_iff. Qed.

Lemma ascii_compare_eq a b : Ascii.compare a b = Eq <-> a = b.
Proof.
  unfold Ascii.compare. rewrite N.compare_eq_iff. split; [|by intros ->].
  intros H. rewrite <- (Ascii.ascii_N_embedding a), <- (Ascii.ascii_N_embedding b).
  by f_equal.
Qed.

Lemma string_compare_lt_trans s1 s2 s3 :
  String.compare s1 s2 = Lt -> String.compare s2 s3 = Lt -> String.compare s1 s3 = Lt.
Proof.
  revert s2 s3. induction s1 as [|a s1 IH]; intros [|b s2] [|c s3]; try done.
  cbn. destruct (Ascii.compare a b) eqn:E1; try done;
    destruct (Ascii.compare b c) eqn:E2; try done; intros H1 H2.
  - apply ascii_compare_eq in E1 as ->. rewrite E2. eauto.
  - apply ascii_compare_eq in E1 as ->. by rewrite E2.
  - apply ascii_compare_eq in E2 as <-. by rewrite E1.
  - apply ascii_compare_lt in E1, E2.
    by rewrite (proj2 (ascii_compare_lt a c) (N.lt_trans _ _ _ E1 E2)).
Qed.

Lemma string_ltb_trans a b c :
  string_ltb a b = true -> string_ltb b c = true -> string_ltb a c = true.
Proof.
  unfold string_ltb.
  destruct (String.compare a b) eqn:E1; try done;
    destruct (String.compare b c) eqn:E2; try done.
  by rewrite (string_compare_lt_trans a b c).
Qed.

Lemma string_ltb_total a b : a <> b -> string_ltb a b = true \/ string_ltb b a = true.
Proof.
  intros Hab. unfold string_ltb. rewrite (String.compare_antisym b a).
  destruct (String.compare a b) eqn:E; cbn; auto.
  by apply String.compare_eq_iff in E.
Qed.

Lemma LedgerEntryIdCmp_irrefl a : LedgerEntryIdCmp a a = false.
Proof.
  unfold LedgerEntryIdCmp. rewrite Z.ltb_irrefl, Z.gtb_ltb, Z.ltb_irrefl.
  destruct a; rewrite ?Z.ltb_irrefl; auto using asset_ltb_irrefl, string_ltb_irrefl.
Qed.

(** close the comparisons of integers that a lexicographic order leaves *)
Ltac lex_case :=
  repeat match goal with
  | |- context [if ?x <? ?y then _ else _] => destruct (Z.ltb_spec x y)
  | H : context [if ?x <? ?y then _ else _] |- _ => destruct (Z.ltb_spec x y)
  end; try done; try lia.

Lemma LedgerEntryIdCmp_trans a b c :
  LedgerEntryIdCmp a b = true -> LedgerEntryIdCmp b c = true ->
  LedgerEntryIdCmp a c = true.
Proof.
  destruct a, b; try done; destruct c; try done; unfold LedgerEntryIdCmp; cbn;
    intros; rewrite ?Z.ltb_lt in *; try lia; lex_case;
    eauto using asset_ltb_trans, string_ltb_trans; zb; zlia.
Qed.

Lemma LedgerEntryIdCmp_total a b :
  a <> b -> LedgerEntryIdCmp a b = true \/ LedgerEntryIdCmp b a = true.
Proof.
  intros Hab. destruct a as [x|x s|x i|x m], b as [y|y t|y j|y n];
    unfold LedgerEntryIdCmp; cbn; auto; destruct (Z.eq_dec x y) as [->|];
    rewrite ?Z.ltb_irrefl; try congruence; try (lex_case; rewrite ?Z.ltb_lt; auto; lia).
  - destruct (asset_ltb_total s t); [congruence| |]; auto.
  - rewrite !Z.ltb_lt. assert (i <> j) by congruence. lia.
  - destruct (string_ltb_total m n); [congruence| |]; auto.
Qed.

Lemma LedgerEntryIdCmp_asym a b :
  LedgerEntryIdCmp a b = true -> LedgerEntryIdCmp b a = false.
Proof.
  intros H. destruct (LedgerEntryIdCmp b a) eqn:E; [|done].
  pose proof (LedgerEntryIdCmp_trans _ _ _ H E) as H'.
  by rewrite LedgerEntryIdCmp_irrefl in H'.
Qed.

(** ** Sorted buckets *)

Definition bucket_lt (a b : BucketEntry) : Prop := BucketEntryIdCmp a b = true.

(** a bucket file is strictly sorted by identity *)
Definition bucket_sorted (b : list BucketEntry) : Prop := StronglySorted bucket_lt b.

(** the entry a bucket holds for a key *)
Definition bucket_find (b : list BucketEntry) (k : LedgerKey) : option BucketEntry :=
  List.find (fun e => bool_decide (be_key e = k)) b.

Lemma bucket_lt_trans a b c : bucket_lt a b -> bucket_lt b c -> bucket_lt a c.
Proof. apply LedgerEntryIdCmp_trans. Qed.

Lemma bucket_lt_irrefl a b : be_key a = be_key b -> ~ bucket_lt a b.
Proof.
  unfold bucket_lt, BucketEntryIdCmp. intros ->. by rewrite LedgerEntryIdCmp_irrefl.
Qed.

Lemma bucket_lt_asym a b : bucket_lt a b -> BucketEntryIdCmp b a = false.
Proof. apply LedgerEntryIdCmp_asym. Qed.

Lemma bucket_ge_eq a b :
  BucketEntryIdCmp a b = false -> BucketEntryIdCmp b a = false -> be_key a = be_key b.
Proof.
  intros H1 H2. destruct (decide (be_key a = be_key b)) as [|n]; [done|].
  apply LedgerEntryIdCmp_total in n as [H|H]; unfold BucketEntryIdCmp in *; congruence.
Qed.

Lemma bucket_find_cons e b k :
  bucket_find (e :: b) k = if decide (be_key e = k) then Some e else bucket_find b k.
Proof. unfold bucket_find; cbn. by case_bool_decide; case_decide. Qed.

Lemma bucket_find_none b k :
  bucket_find b k = None <-> Forall (fun e => be_key e <> k) b.
Proof.
  induction b as [|e b IH]; [by split|].
  rewrite bucket_find_cons, Forall_cons. case_decide; naive_solver.
Qed.

Lemma bucket_find_some b k e :
  bucket_find b k = Some e -> e ∈ b /\ be_key e = k.
Proof.
  induction b as [|x b IH]; [done|].
  rewrite bucket_find_cons, elem_of_cons. case_decide; naive_solver.
Qed.

Lemma bucket_find_app a b k :
  bucket_find (a ++ b) k =
  match bucket_find a k with Some e => Some e | None => bucket_find b k end.
Proof.
  induction a as [|x a IH]; [done|]. cbn [app]. rewrite !bucket_find_cons.
  by case_decide.
Qed.

(** nothing below a key is found *)
Lemma bucket_find_below b e :
  Forall (fun x => bucket_lt x e) b -> bucket_find b (be_key e) = None.
Proof.
  intros H. apply bucket_find_none. eapply Forall_impl; [exact H|].
  cbn. intros x Hx Heq. by apply (bucket_lt_irrefl x e).
Qed.

Lemma bucket_find_above b e :
  Forall (bucket_lt e) b -> bucket_find b (be_key e) = None.
Proof.
  intros H. apply bucket_find_none. eapply Forall_impl; [exact H|].
  cbn. intros x Hx Heq. by apply (bucket_lt_irrefl e x).
Qed.

Lemma bucket_sorted_cons e b :
  bucket_sorted (e :: b) <-> Forall (bucket_lt e) b /\ bucket_sorted b.
Proof. split; [by inversion 1|by intros []; constructor]. Qed.

Lemma bucket_sorted_app_r a b : bucket_sorted (a ++ b) -> bucket_sorted b.
Proof. induction a as [|x a IH]; [done|]. intros [_ H]%bucket_sorted_cons. auto. Qed.

Lemma bucket_find_filter (f : BucketEntry -> bool) b k :
  bucket_sorted b ->
  bucket_find (List.filter f b) k =
  match bucket_find b k with Some e => if f e then Some e else None | None => None end.
Proof.
  induction b as [|e b IH]; [done|]. rewrite bucket_sorted_cons. intros [He Hb].
  cbn [List.filter]. rewrite bucket_find_cons. case_decide as Hk.
  - subst k. destruct (f e); rewrite ?bucket_find_cons, ?decide_True by done; [done|].
    by rewrite IH, bucket_find_above.
  - destruct (f e); rewrite ?bucket_find_cons, ?decide_False by done; auto.
Qed.

Lemma Forall_filter {A} (P : A -> Prop) (f : A -> bool) l :
  Forall P l -> Forall P (List.filter f l).
Proof. induction 1; cbn; [constructor|]. destruct (f _); auto. Qed.

Lemma bucket_sorted_filter f b : bucket_sorted b -> bucket_sorted (List.filter f b).
Proof.
  induction 1 as [|e b Hb IH He]; cbn; [constructor|]. destruct (f e); [|done].
  constructor; [done|]. by apply Forall_filter.
Qed.

(** ** The output iterator on increasing entries *)

Lemma put_increasing out e :
  Forall (fun x => bucket_lt x e) (getBucket out) ->
  exists out', put out e = Ok out' /\ mKeepDeadEntries out' = mKeepDeadEntries out /\
    getBucket out' = getBucket out ++
      List.filter (fun x => mKeepDeadEntries out || negb (is_dead x)) [e].
Proof.
  intros H. unfold put. destruct out as [keep w [buf|]]; cbn in *.
  - apply Forall_app in H as [_ H]. inversion H as [|? ? Hbuf]; subst.
    destruct keep, (is_dead e) eqn:Ed; cbn;
      rewrite ?app_nil_r; try (eexists; repeat split; reflexivity);
      (rewrite (bucket_lt_asym buf e) by done);
      (eexists; repeat split; cbn; by rewrite Hbuf).
  - destruct keep, (is_dead e) eqn:Ed; cbn; rewrite ?app_nil_r;
      eexists; repeat split; reflexivity.
Qed.

Lemma put_all_increasing out l :
  bucket_sorted l ->
  (forall x e, x ∈ getBucket out -> e ∈ l -> bucket_lt x e) ->
  exists out', put_all out l = Ok out' /\
    getBucket out' = getBucket out ++
      List.filter (fun x => mKeepDeadEntries out || negb (is_dead x)) l.
Proof.
  revert out. induction l as [|e l IH]; intros out Hs Hlt.
  { exists out. by rewrite app_nil_r. }
  apply bucket_sorted_cons in Hs as [He Hs].
  destruct (put_increasing out e) as (out1 & E1 & Hk1 & Hg1).
  { apply Forall_forall. set_solver. }
  destruct (IH out1) as (out2 & E2 & Hg2); [done| |].
  { intros x y Hx Hy. rewrite Forall_forall in He. rewrite Hg1 in Hx.
    apply elem_of_app in Hx as [Hx|Hx]; [set_solver|].
    apply list_elem_of_In, filter_In in Hx as [[->|[]] _]. by apply He. }
  exists out2. cbn [put_all]. rewrite E1, bind_ok. split; [done|].
  rewrite Hg2, Hg1, Hk1, <- app_assoc. f_equal. cbn. by destruct (_ || _).
Qed.

(** ** Shadows *)

(** whether some shadow bucket has an entry for the key *)
Definition shadowed (shadows : list (list BucketEntry)) (k : LedgerKey) : bool :=
  existsb (fun sh => bool_decide (is_Some (bucket_find sh k))) shadows.

(** an iterator over [sh] that stands at [si], having passed only entries
    that satisfy [P] *)
Definition shadow_pos (P : BucketEntry -> Prop) (si sh : list BucketEntry) : Prop :=
  exists d, sh = d ++ si /\ Forall P d.

Lemma shadow_pos_impl (P Q : BucketEntry -> Prop) sis shs :
  (forall x, P x -> Q x) ->
  Forall2 (shadow_pos P) sis shs -> Forall2 (shadow_pos Q) sis shs.
Proof.
  intros HPQ H. eapply Forall2_impl; [exact H|]. intros si sh (d & -> & Hd).
  exists d. split; [done|]. eapply Forall_impl; eauto.
Qed.

Lemma advance_pos e si sh :
  shadow_pos (fun x => bucket_lt x e) si sh ->
  shadow_pos (fun x => bucket_lt x e) (advance e si) sh.
Proof.
  revert sh. induction si as [|x si IH]; intros sh Hp; [done|]. cbn.
  destruct (BucketEntryIdCmp x e) eqn:E; [|done]. apply IH.
  destruct Hp as (d & -> & Hd). exists (d ++ [x]). rewrite <- app_assoc.
  split; [done|]. apply Forall_app; split; [done|]. by constructor.
Qed.

Lemma advance_head e si x si' : advance e si = x :: si' -> BucketEntryIdCmp x e = false.
Proof.
  induction si as [|y si IH]; cbn; [done|].
  destruct (BucketEntryIdCmp y e) eqn:E; [done|]. by intros [= -> ->].
Qed.

(** after [advance], equality with the head decides membership *)
Lemma advance_find e si sh :
  bucket_sorted sh -> shadow_pos (fun x => bucket_lt x e) (advance e si) sh ->
  is_Some (bucket_find sh (be_key e)) <->
  exists x si', advance e si = x :: si' /\ BucketEntryIdCmp e x = false.
Proof.
  intros Hs (d & Hd & Hlt). rewrite Hd, bucket_find_app, bucket_find_below by done.
  rewrite Hd in Hs. destruct (advance e si) as [|x si'] eqn:E.
  { split; [by intros [? ?]|by intros (? & ? & ? & ?)]. }
  pose proof (advance_head _ _ _ _ E) as Hx. rewrite bucket_find_cons.
  destruct (BucketEntryIdCmp e x) eqn:Ex.
  - rewrite decide_False by (intros Heq; by apply (bucket_lt_irrefl e x)).
    rewrite bucket_find_above;
      [split; [by intros [? ?]|intros (? & ? & [= <- <-] & ?); congruence]|].
    apply bucket_sorted_app_r, bucket_sorted_cons in Hs as [Hs _].
    eapply Forall_impl; [exact Hs|]. cbn. intros y. by apply bucket_lt_trans.
  - rewrite decide_True by (by apply bucket_ge_eq). split; eauto.
Qed.

Lemma check_shadows_spec e sis shs :
  Forall bucket_sorted shs ->
  Forall2 (shadow_pos (fun x => bucket_lt x e)) sis shs ->
  exists sis', check_shadows e sis = (shadowed shs (be_key e), sis') /\
    Forall2 (shadow_pos (fun x => bucket_lt x e)) sis' shs.
Proof.
  intros Hs H. induction H as [|si sh sis shs Hp H IH]; [by exists []|].
  inversion Hs as [|? ? Hsh Hshs]; subst. destruct (IH Hshs) as (sis' & E & H').
  apply advance_pos in Hp. pose proof (advance_find _ _ _ Hsh Hp) as Hf.
  cbn. rewrite E. destruct (advance e si) as [|x si'].
  - rewrite bool_decide_false by (rewrite Hf; by intros (? & ? & ? & ?)).
    eexists; split; [done|]. by constructor.
  - destruct (BucketEntryIdCmp e x) eqn:Ex; cbn.
    + rewrite bool_decide_false
        by (rewrite Hf; intros (? & ? & [= <- <-] & ?); congruence).
      eexists; split; [done|]. by constructor.
    + rewrite bool_decide_true by (rewrite Hf; eauto).
      eexists; split; [done|]. by constructor.
Qed.

(** ** Merge against a plain merge of sorted lists *)

(** new entries win *)
Fixpoint merge_ref (oi : list BucketEntry) : list BucketEntry -> list BucketEntry :=
  fix go (ni : list BucketEntry) : list BucketEntry :=
    match oi, ni with
    | [], _ => ni
    | _, [] => oi
    | o :: oi', n :: ni' =>
        if BucketEntryIdCmp o n then o :: merge_ref oi' ni
        else if BucketEntryIdCmp n o then n :: go ni'
        else n :: merge_ref oi' ni'
    end.

(** the entries that a merge keeps *)
Definition merge_keeps (shadows : list (list BucketEntry)) (keepDead : bool)
    (e : BucketEntry) : bool :=
  negb (shadowed shadows (be_key e)) && (keepDead || negb (is_dead e)).

Lemma maybePut_increasing out e sis shs :
  Forall bucket_sorted shs ->
  Forall2 (shadow_pos (fun x => bucket_lt x e)) sis shs ->
  Forall (fun x => bucket_lt x e) (getBucket out) ->
  exists out' sis', maybePut out e sis = Ok (out', sis') /\
    mKeepDeadEntries out' = mKeepDeadEntries out /\
    Forall2 (shadow_pos (fun x => bucket_lt x e)) sis' shs /\
    getBucket out' = getBucket out ++
      List.filter (merge_keeps shs (mKeepDeadEntries out)) [e].
Proof.
  intros Hs Hp Ho. destruct (check_shadows_spec e sis shs Hs Hp) as (sis' & E & Hp').
  unfold maybePut. rewrite E. unfold merge_keeps. cbn.
  destruct (shadowed shs (be_key e)); cbn.
  - exists out, sis'. by rewrite app_nil_r.
  - destruct (put_increasing out e Ho) as (out' & -> & ? & ?).
    exists out', sis'. by repeat split.
Qed.

(** what holds at the head of the merge loop: the inputs are sorted, and
    everything written or skipped in a shadow is below what is left *)
Record merge_inv (oi ni : list BucketEntry) (out : OutputIterator)
    (sis shs : list (list BucketEntry)) : Prop := {
  mi_old : bucket_sorted oi;
  mi_new : bucket_sorted ni;
  mi_shadows : Forall bucket_sorted shs;
  mi_pos : Forall2 (shadow_pos (fun x => forall e, e ∈ oi ++ ni -> bucket_lt x e)) sis shs;
  mi_out : forall x e, x ∈ getBucket out -> e ∈ oi ++ ni -> bucket_lt x e
}.

(** one round: the smallest entry is offered, the iterators move past it *)
Lemma merge_step oi ni out sis shs e oi' ni' :
  merge_inv oi ni out sis shs -> e ∈ oi ++ ni ->
  bucket_sorted oi' -> bucket_sorted ni' ->
  (forall x, x ∈ oi' ++ ni' -> bucket_lt e x /\ x ∈ oi ++ ni) ->
  exists out' sis', maybePut out e sis = Ok (out', sis') /\
    merge_inv oi' ni' out' sis' shs /\
    mKeepDeadEntries out' = mKeepDeadEntries out /\
    getBucket out' = getBucket out ++
      List.filter (merge_keeps shs (mKeepDeadEntries out)) [e].
Proof.
  intros [Ho Hn Hs Hp Hout] He Ho' Hn' Hrest.
  destruct (maybePut_increasing out e sis shs) as (out' & sis' & E & Hk & Hp' & Hg).
  { done. }
  { eapply shadow_pos_impl; [|exact Hp]. cbn. auto. }
  { apply Forall_forall. auto. }
  exists out', sis'. split; [done|]. split; [|done]. split; try done.
  - eapply shadow_pos_impl; [|exact Hp']. cbn. intros x Hx y Hy.
    apply (bucket_lt_trans x e y); [done|]. by apply Hrest.
  - intros x y Hx Hy. destruct (Hrest y Hy) as [Hy1 Hy2]. rewrite Hg in Hx.
    apply elem_of_app in Hx as [Hx|Hx]; [by apply Hout|].
    by apply list_elem_of_In, filter_In in Hx as [[->|[]] _].
Qed.

Lemma merge_ref_cons o oi n ni :
  merge_ref (o :: oi) (n :: ni) =
  if BucketEntryIdCmp o n then o :: merge_ref oi (n :: ni)
  else if BucketEntryIdCmp n o then n :: merge_ref (o :: oi) ni
  else n :: merge_ref oi ni.
Proof. reflexivity. Qed.

Lemma merge_ref_nil_r oi : merge_ref oi [] = oi.
Proof. by destruct oi. Qed.

Lemma merge_ref_nil_l ni : merge_ref [] ni = ni.
Proof. by destruct ni. Qed.

Lemma bucket_lt_eq_key a b c : be_key a = be_key b -> bucket_lt a c -> bucket_lt b c.
Proof. unfold bucket_lt, BucketEntryIdCmp. by intros ->. Qed.

Lemma filter_cons_app {A} (f : A -> bool) x l :
  List.filter f (x :: l) = List.filter f [x] ++ List.filter f l.
Proof. cbn. by destruct (f x). Qed.

Lemma merge_loop_spec fuel oi ni out sis shs :
  merge_inv oi ni out sis shs -> (length oi + length ni <= fuel)%nat ->
  exists out', merge_loop fuel oi ni out sis = Ok out' /\
    getBucket out' = getBucket out ++
      List.filter (merge_keeps shs (mKeepDeadEntries out)) (merge_ref oi ni).
Proof.
  revert oi ni out sis. induction fuel as [|fuel IH]; intros oi ni out sis Hinv Hf.
  { destruct oi, ni; cbn in Hf; try lia. exists out. by rewrite app_nil_r. }
  assert (Hstep : forall e oi' ni', e ∈ oi ++ ni -> bucket_sorted oi' -> bucket_sorted ni' ->
    (forall x, x ∈ oi' ++ ni' -> bucket_lt e x /\ x ∈ oi ++ ni) ->
    (length oi' + length ni' <= fuel)%nat ->
    exists out', ('(out, sis) ← maybePut out e sis; merge_loop fuel oi' ni' out sis) = Ok out' /\
      getBucket out' = getBucket out ++
        List.filter (merge_keeps shs (mKeepDeadEntries out)) (e :: merge_ref oi' ni')).
  { intros e oi' ni' He Ho' Hn' Hr Hl.
    destruct (merge_step oi ni out sis shs e oi' ni') as (out1 & sis1 & -> & Hi & Hk & Hg); auto.
    destruct (IH _ _ _ _ Hi Hl) as (out2 & E2 & Hg2). exists out2. split; [done|].
    rewrite Hg2, Hg, Hk, <- app_assoc. f_equal. by rewrite <- filter_cons_app. }
  clear IH. destruct Hinv as [Ho Hn _ _ _].
  destruct oi as [|o oi], ni as [|n ni]; cbn [merge_loop].
  - exists out. by rewrite app_nil_r.
  - apply bucket_sorted_cons in Hn as [Hn1 Hn2]. rewrite Forall_forall in Hn1.
    rewrite merge_ref_nil_l. replace (n :: ni) with (n :: merge_ref [] ni) by (by rewrite merge_ref_nil_l).
    apply Hstep; [set_solver|done|done| |cbn in *; lia]. set_solver.
  - apply bucket_sorted_cons in Ho as [Ho1 Ho2]. rewrite Forall_forall in Ho1.
    rewrite merge_ref_nil_r. replace (o :: oi) with (o :: merge_ref oi []) by (by rewrite merge_ref_nil_r).
    apply Hstep; [set_solver|done|done| |cbn in *; lia]. set_solver.
  - pose proof Ho as [Ho1 Ho2]%bucket_sorted_cons. pose proof Hn as [Hn1 Hn2]%bucket_sorted_cons.
    rewrite Forall_forall in Ho1, Hn1. rewrite merge_ref_cons.
    destruct (BucketEntryIdCmp o n) eqn:E1; [|destruct (BucketEntryIdCmp n o) eqn:E2];
      (apply Hstep; [set_solver|done|done| |cbn in *; lia]); intros x Hx;
      (split; [|set_solver]); apply elem_of_app in Hx as [Hx|Hx];
      rewrite ?elem_of_cons in Hx; try set_solver.
    + destruct Hx as [->|Hx]; [done|]. eauto using bucket_lt_trans.
    + destruct Hx as [->|Hx]; [done|]. eauto using bucket_lt_trans.
    + apply (bucket_lt_eq_key o); [by apply bucket_ge_eq|auto].
Qed.

Lemma merge_refines oldB newB shadows keepDead :
  bucket_sorted oldB -> bucket_sorted newB -> Forall bucket_sorted shadows ->
  merge oldB newB shadows keepDead =
  Ok (List.filter (merge_keeps shadows keepDead) (merge_ref oldB newB)).
Proof.
  intros Ho Hn Hs. unfold merge.
  destruct (merge_loop_spec (length oldB + length newB) oldB newB
    (newOutputIterator keepDead) shadows shadows) as (out & -> & Hg).
  - split; try done.
    + clear Hs. induction shadows; constructor; [by exists []|done].
    + set_solver.
  - done.
  - cbn in *. by rewrite Hg.
Qed.

Lemma merge_ref_elem oi ni x : x ∈ merge_ref oi ni -> x ∈ oi ++ ni.
Proof.
  revert ni. induction oi as [|o oi IHo]; intros ni.
  { by rewrite merge_ref_nil_l. }
  induction ni as [|n ni IHn]; [by rewrite merge_ref_nil_r, app_nil_r|].
  rewrite merge_ref_cons. destruct (BucketEntryIdCmp o n).
  { rewrite elem_of_cons. intros [->|H%IHo]; set_solver. }
  destruct (BucketEntryIdCmp n o); rewrite elem_of_cons.
  - intros [->|H%IHn]; set_solver.
  - intros [->|H%IHo]; set_solver.
Qed.

(** the result of a plain merge is sorted and new entries win *)
Lemma merge_ref_spec oi ni :
  bucket_sorted oi -> bucket_sorted ni ->
  bucket_sorted (merge_ref oi ni) /\
  forall k, bucket_find (merge_ref oi ni) k =
    match bucket_find ni k with Some e => Some e | None => bucket_find oi k end.
Proof.
  revert ni. induction oi as [|o oi IHo]; intros ni Ho Hn.
  { rewrite merge_ref_nil_l. split; [done|]. intros k. by destruct (bucket_find ni k). }
  induction ni as [|n ni IHn]; [by rewrite merge_ref_nil_r|].
  pose proof Ho as [Ho1 Ho2]%bucket_sorted_cons. pose proof Hn as [Hn1 Hn2]%bucket_sorted_cons.
  specialize (IHn Hn2). pose proof (IHo (n :: ni) Ho2 Hn) as IH1.
  pose proof (IHo ni Ho2 Hn2) as IH2. clear IHo. rewrite merge_ref_cons.
  destruct (BucketEntryIdCmp o n) eqn:E1; [|destruct (BucketEntryIdCmp n o) eqn:E2].
  - destruct IH1 as [Hs Hl]. split.
    + apply bucket_sorted_cons. split; [|done]. apply Forall_forall. intros x Hx%merge_ref_elem.
      rewrite Forall_forall in Ho1, Hn1. apply elem_of_app in Hx as [Hx|Hx]; [auto|].
      apply elem_of_cons in Hx as [->|Hx]; [done|]. eauto using bucket_lt_trans.
    + intros k. rewrite !bucket_find_cons, Hl, bucket_find_cons.
      do 2 case_decide; try done; subst; [exfalso|].
      * eapply (bucket_lt_irrefl o n); congruence.
      * rewrite bucket_find_above; [done|]. eapply Forall_impl; [exact Hn1|].
        cbn. eauto using bucket_lt_trans.
  - destruct IHn as [Hs Hl]. split.
    + apply bucket_sorted_cons. split; [|done]. apply Forall_forall. intros x Hx%merge_ref_elem.
      rewrite Forall_forall in Ho1, Hn1. apply elem_of_app in Hx as [Hx|Hx]; [|auto].
      apply elem_of_cons in Hx as [->|Hx]; [done|]. eauto using bucket_lt_trans.
    + intros k. rewrite (bucket_find_cons n (merge_ref _ _)), (bucket_find_cons n ni), Hl.
      by case_decide.
  - destruct IH2 as [Hs Hl]. assert (Hk : be_key o = be_key n) by (by apply bucket_ge_eq). split.
    + apply bucket_sorted_cons. split; [|done]. apply Forall_forall. intros x Hx%merge_ref_elem.
      rewrite Forall_forall in Ho1, Hn1. apply elem_of_app in Hx as [Hx|Hx]; [|auto].
      apply (bucket_lt_eq_key o); auto.
    + intros k. rewrite !bucket_find_cons, Hl. rewrite Hk. by case_decide.
Qed.

(** what a merge finds for a key *)
Definition merge_lookup (oldB newB : list BucketEntry) (shadows : list (list BucketEntry))
    (keepDead : bool) (k : LedgerKey) : option BucketEntry :=
  if shadowed shadows k then None
  else match (match bucket_find newB k with Some e => Some e | None => bucket_find oldB k end) with
       | Some e => if keepDead || negb (is_dead e) then Some e else None
       | None => None
       end.

Lemma merge_ok oldB newB shadows keepDead :
  bucket_sorted oldB -> bucket_sorted newB -> Forall bucket_sorted shadows ->
  exists b, merge oldB newB shadows keepDead = Ok b /\ bucket_sorted b /\
    forall k, bucket_find b k = merge_lookup oldB newB shadows keepDead k.
Proof.
  intros Ho Hn Hs. rewrite merge_refines by done.
  destruct (merge_ref_spec oldB newB Ho Hn) as [Hr Hl].
  eexists. split; [done|]. split; [by apply bucket_sorted_filter|].
  intros k. rewrite bucket_find_filter, Hl by done. unfold merge_lookup, merge_keeps.
  destruct (bucket_find newB k) as [e|] eqn:E.
  - apply bucket_find_some in E as [_ ->]. by destruct (shadowed shadows k).
  - destruct (bucket_find oldB k) as [e|] eqn:E'; [|by destruct (shadowed shadows k)].
    apply bucket_find_some in E' as [_ ->]. by destruct (shadowed shadows k).
Qed.

(** ** Fresh buckets *)

Lemma insert_entry_perm e l : insert_entry e l ≡ₚ e :: l.
Proof.
  induction l as [|x l IH]; [done|]. cbn. destruct (BucketEntryIdCmp e x); [done|].
  rewrite IH. constructor.
Qed.

Lemma insert_entry_sorted e l :
  bucket_sorted l -> be_key e ∉ map be_key l -> bucket_sorted (insert_entry e l).
Proof.
  induction l as [|x l IH]; intros Hs Hk; cbn; [by repeat constructor|].
  apply bucket_sorted_cons in Hs as [Hx Hs]. cbn in Hk. rewrite not_elem_of_cons in Hk.
  destruct Hk as [Hex Hk]. destruct (BucketEntryIdCmp e x) eqn:E.
  - apply bucket_sorted_cons. split; [|by apply bucket_sorted_cons].
    constructor; [done|]. eapply Forall_impl; [exact Hx|]. cbn. intros y.
    by apply bucket_lt_trans.
  - apply bucket_sorted_cons. split; [|auto].
    rewrite insert_entry_perm. constructor; [|done].
    apply LedgerEntryIdCmp_total in Hex as [H|H]; [|done]. unfold BucketEntryIdCmp in E. congruence.
Qed.

Lemma sort_entries_spec l :
  NoDup (map be_key l) -> sort_entries l ≡ₚ l /\ bucket_sorted (sort_entries l).
Proof.
  induction l as [|e l IH]; cbn; [by repeat constructor|].
  rewrite NoDup_cons. intros [He Hl]. destruct (IH Hl) as [Hp Hs]. split.
  - rewrite insert_entry_perm. by constructor.
  - apply insert_entry_sorted; [done|]. by rewrite Hp.
Qed.

Lemma bucket_find_sort l k :
  NoDup (map be_key l) -> bucket_find (sort_entries l) k = bucket_find l k.
Proof.
  intros Hn. destruct (sort_entries_spec l Hn) as [Hp _].
  destruct (bucket_find l k) as [e|] eqn:E.
  - apply bucket_find_some in E as [He <-]. rewrite <- Hp in He, Hn.
    clear Hp. induction (sort_entries l) as [|x s IH]; [set_solver|].
    cbn in Hn. rewrite bucket_find_cons. apply NoDup_cons in Hn as [Hx Hn].
    apply elem_of_cons in He as [->|He]; [by rewrite decide_True|].
    rewrite decide_False; [auto|]. intros Hk. apply Hx. rewrite Hk.
    apply list_elem_of_In, in_map, list_elem_of_In. done.
  - apply bucket_find_none. rewrite Hp. by apply bucket_find_none.
Qed.

Lemma bucket_find_dead dead k :
  bucket_find (map DEADENTRY dead) k = if decide (k ∈ dead) then Some (DEADENTRY k) else None.
Proof.
  induction dead as [|d dead IH]; cbn [map]; [by rewrite decide_False by set_solver|].
  rewrite bucket_find_cons, IH. cbn. destruct (decide (d = k)) as [->|].
  - by rewrite decide_True by set_solver.
  - by repeat case_decide; set_solver.
Qed.

Lemma put_all_fresh l :
  NoDup (map be_key l) ->
  exists out, put_all (newOutputIterator true) (sort_entries l) = Ok out /\
    getBucket out = sort_entries l.
Proof.
  intros H. destruct (sort_entries_spec l H) as [_ Hs].
  destruct (put_all_increasing (newOutputIterator true) (sort_entries l))
    as (out & E & Hg); [done|cbn; set_solver|].
  exists out. split; [done|]. rewrite Hg. cbn.
  clear. induction (sort_entries l) as [|x s IH]; [done|]. cbn. by rewrite IH.
Qed.

Lemma fresh_ok live dead :
  NoDup (map LedgerEntryKey live) -> NoDup dead ->
  exists b, fresh live dead = Ok b /\ bucket_sorted b /\
    forall k, bucket_find b k =
      if decide (k ∈ dead) then Some (DEADENTRY k) else bucket_find (map LIVEENTRY live) k.
Proof.
  intros Hl Hd.
  assert (Hl' : NoDup (map be_key (map LIVEENTRY live))) by (by rewrite map_map).
  assert (Hd' : NoDup (map be_key (map DEADENTRY dead))) by (by rewrite map_map, map_id).
  unfold fresh, convertLiveEntries, convertDeadEntries.
  destruct (put_all_fresh _ Hl') as (lo & -> & Hlo).
  destruct (put_all_fresh _ Hd') as (do & -> & Hdo).
  rewrite !bind_ok, Hlo, Hdo.
  destruct (merge_ok (sort_entries (map LIVEENTRY live)) (sort_entries (map DEADENTRY dead)) [] true)
    as (b & E & Hb & Hf); [by apply sort_entries_spec..|by constructor|].
  exists b. split; [done|]. split; [done|]. intros k. rewrite Hf. unfold merge_lookup. cbn.
  rewrite !bucket_find_sort, bucket_find_dead by done.
  case_decide; [done|]. by destruct (bucket_find _ k).
Qed.

(** ** The two theorems of the component *)

(** Claim C36: merging two sorted buckets under sorted shadow buckets returns
    without failing an assertion; the result is strictly sorted, and for every
    key it holds nothing if a shadow has the key, otherwise the entry of the
    new bucket if there is one and of the old bucket if not, except that dead
    entries are dropped when they are not kept. *)
Theorem merge_correct oldB newB shadows keepDead :
  bucket_sorted oldB -> bucket_sorted newB -> Forall bucket_sorted shadows ->
  exists b, merge oldB newB shadows keepDead = Ok b /\ bucket_sorted b /\
    forall k, bucket_find b k =
      if shadowed shadows k then None
      else match (match bucket_find newB k with
                  | Some e => Some e
                  | None => bucket_find oldB k
                  end) with
           | Some e => if keepDead || negb (is_dead e) then Some e else None
           | None => None
           end.
Proof. apply merge_ok. Qed.

(** [Bucket::fresh] of a batch with distinct live keys and distinct
    dead keys returns a strictly sorted bucket that holds a dead entry for
    every dead key and the live entry of every other key of the batch. *)
Theorem fresh_correct live dead :
  NoDup (map LedgerEntryKey live) -> NoDup dead ->
  exists b, fresh live dead = Ok b /\ bucket_sorted b /\
    forall k, bucket_find b k =
      if decide (k ∈ dead) then Some (DEADENTRY k) else bucket_find (map LIVEENTRY live) k.
Proof. apply fresh_ok. Qed.
End Order.

(** ** A concrete order of assets, and the theorems at concrete inputs *)

Definition asset_encode_order : AssetOrder.
Proof.
  refine {| asset_ltb a b := (encode a <? encode b)%positive |}.
  - intros a. apply Pos.ltb_irrefl.
  - intros a b c. rewrite !Pos.ltb_lt. apply Pos.lt_trans.
  - intros a b Hab. rewrite !Pos.ltb_lt.
    destruct (Pos.lt_total (encode a) (encode b)) as [|[H|]]; auto.
    by apply (inj encode) in H.
Defined.

Definition sample_data_entry (a v : Z) : LedgerEntry :=
  mkLedgerEntry 1 (DATA (mkDataEntry a "name" [v])).

Lemma merge_correct_witness :
  exists b,
    merge (AO := asset_encode_order)
      [LIVEENTRY (sample_data_entry 1 10); LIVEENTRY (sample_data_entry 2 20)]
      [DEADENTRY (KeyData 1 "name"); LIVEENTRY (sample_data_entry 3 30)]
      [[DEADENTRY (KeyData 3 "name")]] true = Ok b /\
    b = [DEADENTRY (KeyData 1 "name"); LIVEENTRY (sample_data_entry 2 20)].
Proof.
  destruct (@merge_correct asset_encode_order
    [LIVEENTRY (sample_data_entry 1 10); LIVEENTRY (sample_data_entry 2 20)]
    [DEADENTRY (KeyData 1 "name"); LIVEENTRY (sample_data_entry 3 30)]
    [[DEADENTRY (KeyData 3 "name")]] true) as (b & E & _);
    [repeat constructor..|].
  exists b. split; [exact E|].
  assert (E' : Ok b = Ok [DEADENTRY (KeyData 1 "name"); LIVEENTRY (sample_data_entry 2 20)])
    by (rewrite <- E; vm_compute; reflexivity).
  by injection E'.
Defined.

Lemma fresh_correct_witness :
  exists b,
    fresh (AO := asset_encode_order)
      [sample_data_entry 2 20; sample_data_entry 1 10] [KeyData 0 "x"; KeyAccount 7] = Ok b /\
    bucket_find b (KeyData 2 "name") = Some (LIVEENTRY (sample_data_entry 2 20)) /\
    bucket_find b (KeyAccount 7) = Some (DEADENTRY (KeyAccount 7)).
Proof.
  destruct (@fresh_correct asset_encode_order
    [sample_data_entry 2 20; sample_data_entry 1 10] [KeyData 0 "x"; KeyAccount 7])
    as (b & E & _ & Hf).
  - apply (bool_decide_unpack _). vm_compute. exact I.
  - apply (bool_decide_unpack _). vm_compute. exact I.
  - exists b. split; [exact E|]. split; rewrite Hf; vm_compute; reflexivity.
Defined.
