(* ===== verification/FutureBucket.v ===== *)
(** * Pending merges of buckets

    src/src/bucket/FutureBucket.cpp and FutureBucket.h.  A [FutureBucket]
    stands for a merge that runs on a background thread, can be saved as the
    hashes of its inputs or of its output, loaded again and restarted.  The
    [shared_future] is the value that the task will produce together with
    whether it has been produced; [runTask] is the step of the background
    thread.  An empty hash string is [None].

    The SHA-256 hash of a bucket file is a parameter; the bucket directory of
    BucketManagerImpl.cpp is a finite map from hashes to buckets. *)
From S2P Require Import Prelude Numeric LedgerEntries Bucket.

Abbreviation BucketT := (list BucketEntry) (only parsing).

Inductive FB_State :=
| FB_CLEAR
| FB_HASH_OUTPUT
| FB_HASH_INPUTS
| FB_LIVE_OUTPUT
| FB_LIVE_INPUTS.

#[export] Instance FB_State_eq_dec : EqDecision FB_State.
Proof. solve_decision. Defined.

(** [std::shared_future<std::shared_ptr<Bucket>>] *)
Record SharedFuture := mkSharedFuture {
  fut_ready : bool;
  fut_value : res BucketT
}.

Record FutureBucket := mkFutureBucket {
  mState : FB_State;
  mInputCurrBucket : option BucketT;
  mInputSnapBucket : option BucketT;
  mInputShadowBuckets : list BucketT;
  mOutputBucket : option SharedFuture;
  mInputCurrBucketHash : option Hash;
  mInputSnapBucketHash : option Hash;
  mInputShadowBucketHashes : list Hash;
  mOutputBucketHash : option Hash
}.

(** [FutureBucket() = default] *)
Definition emptyFutureBucket : FutureBucket :=
  mkFutureBucket FB_CLEAR None None [] None None None [] None.

Definition is_none {A} (o : option A) : bool :=
  match o with None => true | Some _ => false end.
Definition is_some {A} (o : option A) : bool :=
  match o with None => false | Some _ => true end.
Definition is_empty {A} (l : list A) : bool :=
  match l with [] => true | _ => false end.

Definition isLive (fb : FutureBucket) : bool :=
  bool_decide (mState fb = FB_LIVE_INPUTS) || bool_decide (mState fb = FB_LIVE_OUTPUT).
Definition isMerging (fb : FutureBucket) : bool :=
  bool_decide (mState fb = FB_LIVE_INPUTS).
Definition hasHashes (fb : FutureBucket) : bool :=
  bool_decide (mState fb = FB_HASH_INPUTS) || bool_decide (mState fb = FB_HASH_OUTPUT).

(** [mergeComplete]: the state of the future at the time of the call *)
Definition mergeComplete (fb : FutureBucket) : res bool :=
  _ ← assert_ (isLive fb);
  match mOutputBucket fb with
  | Some f => Ok (fut_ready f)
  | None => Throw (RuntimeError "future_error: no state")
  end.

Definition clearInputs (fb : FutureBucket) : FutureBucket :=
  mkFutureBucket (mState fb) None None [] (mOutputBucket fb) None None []
    (mOutputBucketHash fb).

Definition clearOutput (fb : FutureBucket) : FutureBucket :=
  mkFutureBucket (mState fb) (mInputCurrBucket fb) (mInputSnapBucket fb)
    (mInputShadowBuckets fb) None (mInputCurrBucketHash fb)
    (mInputSnapBucketHash fb) (mInputShadowBucketHashes fb) None.

Definition set_mState (st : FB_State) (fb : FutureBucket) : FutureBucket :=
  mkFutureBucket st (mInputCurrBucket fb) (mInputSnapBucket fb)
    (mInputShadowBuckets fb) (mOutputBucket fb) (mInputCurrBucketHash fb)
    (mInputSnapBucketHash fb) (mInputShadowBucketHashes fb) (mOutputBucketHash fb).

Definition set_output (o : option SharedFuture) (h : option Hash) (fb : FutureBucket)
    : FutureBucket :=
  mkFutureBucket (mState fb) (mInputCurrBucket fb) (mInputSnapBucket fb)
    (mInputShadowBuckets fb) o (mInputCurrBucketHash fb)
    (mInputSnapBucketHash fb) (mInputShadowBucketHashes fb) h.

Definition clear (fb : FutureBucket) : FutureBucket :=
  clearOutput (clearInputs (set_mState FB_CLEAR fb)).

Definition hasOutputHash (fb : FutureBucket) : res bool :=
  if bool_decide (mState fb = FB_LIVE_OUTPUT) || bool_decide (mState fb = FB_HASH_OUTPUT) then
    _ ← assert_ (is_some (mOutputBucketHash fb)); Ok true
  else Ok false.

Definition getOutputHash (fb : FutureBucket) : res Hash :=
  _ ← assert_ (bool_decide (mState fb = FB_LIVE_OUTPUT)
               || bool_decide (mState fb = FB_HASH_OUTPUT));
  match mOutputBucketHash fb with Some h => Ok h | None => Throw AssertFailed end.

Definition getHashes (fb : FutureBucket) : list Hash :=
  option_list (mInputCurrBucketHash fb) ++ option_list (mInputSnapBucketHash fb)
  ++ mInputShadowBucketHashes fb ++ option_list (mOutputBucketHash fb).

(** the background thread runs the packaged task *)
Definition runTask (fb : FutureBucket) : FutureBucket :=
  match mOutputBucket fb with
  | Some f => set_output (Some (mkSharedFuture true (fut_value f))) (mOutputBucketHash fb) fb
  | None => fb
  end.

(** what [save] writes and [load] reads: the archive's name-value pairs *)
Inductive Archive :=
| ArClear
| ArHashInputs (curr snap : option Hash) (shadow : list Hash)
| ArHashOutput (output : option Hash)
| ArOther.

Section FutureBuckets.
Context {AO : AssetOrder}.
(** [Bucket::getHash] *)
Variable getHash : BucketT -> Hash.

(** [b->getHash() == hexToBin256(h)]; the empty string does not parse *)
Definition checkHashEq (b : BucketT) (h : option Hash) : res unit :=
  match h with
  | Some h => assert_ (getHash b =? h)
  | None => Throw (RuntimeError "hexToBin256")
  end.

Fixpoint checkShadowHashes (bs : list BucketT) (hs : list Hash) : res unit :=
  match bs, hs with
  | b :: bs', h :: hs' => _ ← checkHashEq b (Some h); checkShadowHashes bs' hs'
  | _, _ => Ok tt
  end.

Definition checkHashesMatch (fb : FutureBucket) : res unit :=
  _ ← (if is_empty (mInputShadowBuckets fb) then Ok tt
       else
         _ ← assert_ (bool_decide (length (mInputShadowBuckets fb) =
                                   length (mInputShadowBucketHashes fb)));
         checkShadowHashes (mInputShadowBuckets fb) (mInputShadowBucketHashes fb));
  _ ← (match mInputSnapBucket fb with
       | Some b => checkHashEq b (mInputSnapBucketHash fb)
       | None => Ok tt
       end);
  _ ← (match mInputCurrBucket fb with
       | Some b => checkHashEq b (mInputCurrBucketHash fb)
       | None => Ok tt
       end);
  match mOutputBucket fb with
  | Some f =>
      complete ← mergeComplete fb;
      if complete && is_some (mOutputBucketHash fb) then
        b ← fut_value f; checkHashEq b (mOutputBucketHash fb)
      else Ok tt
  | None => Ok tt
  end.

Definition checkState (fb : FutureBucket) : res unit :=
  match mState fb with
  | FB_CLEAR =>
      _ ← assert_ (is_empty (mInputShadowBuckets fb));
      _ ← assert_ (is_none (mInputSnapBucket fb));
      _ ← assert_ (is_none (mInputCurrBucket fb));
      _ ← assert_ (is_none (mOutputBucket fb));
      _ ← assert_ (is_empty (mInputShadowBucketHashes fb));
      _ ← assert_ (is_none (mInputSnapBucketHash fb));
      _ ← assert_ (is_none (mInputCurrBucketHash fb));
      assert_ (is_none (mOutputBucketHash fb))
  | FB_LIVE_INPUTS =>
      _ ← assert_ (is_some (mInputSnapBucket fb));
      _ ← assert_ (is_some (mInputCurrBucket fb));
      _ ← assert_ (is_some (mOutputBucket fb));
      _ ← assert_ (is_none (mOutputBucketHash fb));
      checkHashesMatch fb
  | FB_LIVE_OUTPUT =>
      complete ← mergeComplete fb;
      _ ← assert_ complete;
      _ ← assert_ (is_some (mOutputBucket fb));
      _ ← assert_ (is_some (mOutputBucketHash fb));
      checkHashesMatch fb
  | FB_HASH_INPUTS =>
      _ ← assert_ (is_none (mInputSnapBucket fb));
      _ ← assert_ (is_none (mInputCurrBucket fb));
      _ ← assert_ (is_none (mOutputBucket fb));
      _ ← assert_ (is_some (mInputSnapBucketHash fb));
      _ ← assert_ (is_some (mInputCurrBucketHash fb));
      assert_ (is_none (mOutputBucketHash fb))
  | FB_HASH_OUTPUT =>
      _ ← assert_ (is_none (mInputSnapBucket fb));
      _ ← assert_ (is_none (mInputCurrBucket fb));
      _ ← assert_ (is_none (mOutputBucket fb));
      _ ← assert_ (is_none (mInputSnapBucketHash fb));
      _ ← assert_ (is_none (mInputCurrBucketHash fb));
      assert_ (is_some (mOutputBucketHash fb))
  end.

Definition setLiveOutput (output : BucketT) (fb : FutureBucket) : res FutureBucket :=
  let fb := set_output (Some (mkSharedFuture true (Ok output))) (Some (getHash output))
              (set_mState FB_LIVE_OUTPUT fb) in
  _ ← checkState fb; Ok fb.

(** the task computes the merge of the live inputs *)
Definition startMerge (keepDeadEntries : bool) (fb : FutureBucket) : res FutureBucket :=
  _ ← assert_ (bool_decide (mState fb = FB_LIVE_INPUTS));
  match mInputCurrBucket fb, mInputSnapBucket fb with
  | Some curr, Some snap =>
      _ ← assert_ (is_none (mOutputBucket fb));
      let task := mkSharedFuture false
                    (merge curr snap (mInputShadowBuckets fb) keepDeadEntries) in
      let fb := set_output (Some task) (mOutputBucketHash fb) fb in
      _ ← checkState fb; Ok fb
  | _, _ => Throw AssertFailed
  end.

(** the constructor that starts a merge *)
Definition newFutureBucket (curr snap : BucketT) (shadows : list BucketT)
    (keepDeadEntries : bool) : res FutureBucket :=
  startMerge keepDeadEntries
    (mkFutureBucket FB_LIVE_INPUTS (Some curr) (Some snap) shadows None
      (Some (getHash curr)) (Some (getHash snap)) (map getHash shadows) None).

(** [resolve]: [get] waits for the task and rethrows what it threw *)
Definition resolve (fb : FutureBucket) : res (BucketT * FutureBucket) :=
  _ ← checkState fb;
  _ ← assert_ (isLive fb);
  let fb := runTask (clearInputs fb) in
  match mOutputBucket fb with
  | None => Throw (RuntimeError "future_error: no state")
  | Some f =>
      bucket ← fut_value f;
      fb ← (match mOutputBucketHash fb with
            | None => Ok (set_output (mOutputBucket fb) (Some (getHash bucket)) fb)
            | Some h => _ ← checkHashEq bucket (Some h); Ok fb
            end);
      let fb := set_mState FB_LIVE_OUTPUT fb in
      _ ← checkState fb;
      Ok (bucket, fb)
  end.

(** [BucketManagerImpl::getBucketByHash] over the bucket directory *)
Definition getBucketByHash (store : gmap Hash BucketT) (hash : Hash) : option BucketT :=
  if hash =? 0 then Some [] else store !! hash.

Fixpoint getShadowsByHash (store : gmap Hash BucketT) (hs : list Hash) : res (list BucketT) :=
  match hs with
  | [] => Ok []
  | h :: hs' =>
      match getBucketByHash store h with
      | Some b => bs ← getShadowsByHash store hs'; Ok (b :: bs)
      | None => Throw AssertFailed
      end
  end.

Definition makeLive (store : gmap Hash BucketT) (keepDeadEntries : bool) (fb : FutureBucket)
    : res FutureBucket :=
  _ ← checkState fb;
  _ ← assert_ (negb (isLive fb));
  _ ← assert_ (hasHashes fb);
  out ← hasOutputHash fb;
  if (out : bool) then
    h ← getOutputHash fb;
    match getBucketByHash store h with
    | Some b => setLiveOutput b fb
    | None => Throw NullPointer
    end
  else
    _ ← assert_ (bool_decide (mState fb = FB_HASH_INPUTS));
    match mInputCurrBucketHash fb, mInputSnapBucketHash fb with
    | Some hc, Some hs =>
        _ ← assert_ (is_empty (mInputShadowBuckets fb));
        shadows ← getShadowsByHash store (mInputShadowBucketHashes fb);
        fb ← startMerge keepDeadEntries
               (mkFutureBucket FB_LIVE_INPUTS (getBucketByHash store hc)
                 (getBucketByHash store hs) shadows (mOutputBucket fb)
                 (mInputCurrBucketHash fb) (mInputSnapBucketHash fb)
                 (mInputShadowBucketHashes fb) (mOutputBucketHash fb));
        _ ← assert_ (isLive fb);
        Ok fb
    | _, _ => Throw (RuntimeError "hexToBin256")
    end.

Definition save (fb : FutureBucket) : res Archive :=
  _ ← checkState fb;
  match mState fb with
  | FB_LIVE_INPUTS | FB_HASH_INPUTS =>
      Ok (ArHashInputs (mInputCurrBucketHash fb) (mInputSnapBucketHash fb)
            (mInputShadowBucketHashes fb))
  | FB_LIVE_OUTPUT | FB_HASH_OUTPUT => Ok (ArHashOutput (mOutputBucketHash fb))
  | FB_CLEAR => Ok ArClear
  end.

Definition load (ar : Archive) : res FutureBucket :=
  fb ← (match ar with
        | ArHashInputs curr snap shadow =>
            Ok (mkFutureBucket FB_HASH_INPUTS None None [] None curr snap shadow None)
        | ArHashOutput output =>
            Ok (mkFutureBucket FB_HASH_OUTPUT None None [] None None None [] output)
        | ArClear => Ok emptyFutureBucket
        | ArOther => Throw (RuntimeError "deserialized unexpected FutureBucket state")
        end);
  _ ← checkState fb; Ok fb.

(** ** The life cycle of one merge *)

Section Lifecycle.
Variables (curr snap : BucketT) (shadows : list BucketT) (keep : bool).
Variable store : gmap Hash BucketT.

(** the bucket manager returns the bucket when asked for its hash *)
Definition stored (b : BucketT) : Prop := getBucketByHash store (getHash b) = Some b.

(** the states that a merge of the given inputs goes through: it is created
    live or restarted, the worker finishes, it is resolved, saved and loaded *)
Inductive fb_reach : FutureBucket -> Prop :=
| reach_new fb : newFutureBucket curr snap shadows keep = Ok fb -> fb_reach fb
| reach_worker fb : fb_reach fb -> fb_reach (runTask fb)
| reach_resolve fb b fb' :
    fb_reach fb -> isLive fb = true -> resolve fb = Ok (b, fb') -> fb_reach fb'
| reach_reload fb ar fb' :
    fb_reach fb -> save fb = Ok ar -> load ar = Ok fb' -> fb_reach fb'
| reach_makeLive fb fb' :
    fb_reach fb -> hasHashes fb = true -> makeLive store keep fb = Ok fb' -> fb_reach fb'.

Variable out : BucketT.
Hypothesis Hout : merge curr snap shadows keep = Ok out.

(** the four shapes *)
Definition live_inputs (ready : bool) : FutureBucket :=
  mkFutureBucket FB_LIVE_INPUTS (Some curr) (Some snap) shadows
    (Some (mkSharedFuture ready (Ok out)))
    (Some (getHash curr)) (Some (getHash snap)) (map getHash shadows) None.
Definition live_output : FutureBucket :=
  mkFutureBucket FB_LIVE_OUTPUT None None [] (Some (mkSharedFuture true (Ok out)))
    None None [] (Some (getHash out)).
Definition hash_inputs : FutureBucket :=
  mkFutureBucket FB_HASH_INPUTS None None [] None
    (Some (getHash curr)) (Some (getHash snap)) (map getHash shadows) None.
Definition hash_output : FutureBucket :=
  mkFutureBucket FB_HASH_OUTPUT None None [] None None None [] (Some (getHash out)).

Definition fb_shape (fb : FutureBucket) : Prop :=
  (exists r, fb = live_inputs r) \/ fb = live_output \/ fb = hash_inputs \/ fb = hash_output.

Lemma checkShadowHashes_ok bs : checkShadowHashes bs (map getHash bs) = Ok tt.
Proof. induction bs as [|b bs IH]; [done|]. cbn. by rewrite Z.eqb_refl. Qed.

Lemma checkState_live_inputs r : checkState (live_inputs r) = Ok tt.
Proof.
  unfold checkState, checkHashesMatch. cbn.
  rewrite bool_decide_true by (by rewrite length_map).
  cbn. rewrite checkShadowHashes_ok. rewrite !Z.eqb_refl. destruct shadows, r; done.
Qed.

Lemma checkState_shape fb : fb_shape fb -> checkState fb = Ok tt.
Proof.
  intros [[r ->]|[-> | [-> | ->]]]; [apply checkState_live_inputs| |done|done].
  unfold checkState, checkHashesMatch. cbn. by rewrite Z.eqb_refl.
Qed.

Lemma startMerge_shape : 
  startMerge keep (mkFutureBucket FB_LIVE_INPUTS (Some curr) (Some snap) shadows None
      (Some (getHash curr)) (Some (getHash snap)) (map getHash shadows) None)
  = Ok (live_inputs false).
Proof.
  unfold startMerge. cbn -[merge checkState set_output]. rewrite Hout.
  change (set_output _ _ _) with (live_inputs false).
  by rewrite (checkState_live_inputs false).
Qed.

Lemma resolve_shape fb :
  fb_shape fb -> isLive fb = true -> resolve fb = Ok (out, live_output).
Proof.
  intros Hs Hl. unfold resolve. rewrite (checkState_shape fb Hs), Hl.
  assert (Ho : checkState live_output = Ok tt) by (apply checkState_shape; unfold fb_shape; auto).
  destruct Hs as [[r ->]|[-> | [-> | ->]]]; [| |done|done];
    cbn -[checkState set_mState]; rewrite ?Z.eqb_refl; cbn -[checkState set_mState];
    (change (set_mState _ _) with live_output); by rewrite Ho.
Qed.

Lemma save_load_shape fb :
  fb_shape fb -> exists ar fb', save fb = Ok ar /\ load ar = Ok fb' /\ fb_shape fb' /\
    hasHashes fb' = true.
Proof.
  intros Hs. unfold save. rewrite (checkState_shape fb Hs).
  unfold fb_shape. destruct Hs as [[r ->]|[-> | [-> | ->]]]; do 2 eexists; repeat split; auto.
Qed.

Hypothesis Hcurr : stored curr.
Hypothesis Hsnap : stored snap.
Hypothesis Hshadows : Forall stored shadows.
Hypothesis Hstored : stored out.

Lemma getShadowsByHash_ok bs :
  Forall stored bs -> getShadowsByHash store (map getHash bs) = Ok bs.
Proof.
  induction 1 as [|b bs Hb Hbs IH]; [done|]. unfold stored in Hb. cbn. by rewrite Hb, IH.
Qed.

Lemma makeLive_hash_inputs : makeLive store keep hash_inputs = Ok (live_inputs false).
Proof.
  unfold makeLive. rewrite (checkState_shape hash_inputs) by (unfold fb_shape; auto).
  cbn -[startMerge]. rewrite getShadowsByHash_ok by done. unfold stored in Hcurr, Hsnap.
  by rewrite Hcurr, Hsnap, bind_ok, startMerge_shape.
Qed.

Lemma makeLive_shape fb :
  fb_shape fb -> hasHashes fb = true ->
  exists fb', makeLive store keep fb = Ok fb' /\ fb_shape fb' /\ isLive fb' = true.
Proof.
  intros Hs Hh. destruct Hs as [[r ->]|[-> | [-> | ->]]]; try done.
  - rewrite makeLive_hash_inputs. eexists; split; [done|]. unfold fb_shape. eauto.
  - unfold makeLive. rewrite (checkState_shape hash_output) by (unfold fb_shape; auto).
    change (exists fb', match getBucketByHash store (getHash out) with
                        | Some b => setLiveOutput b hash_output
                        | None => Throw NullPointer
                        end = Ok fb' /\ fb_shape fb' /\ isLive fb' = true).
    unfold stored in Hstored. rewrite Hstored. unfold setLiveOutput.
    change (set_output _ _ _) with live_output.
    rewrite (checkState_shape live_output) by (unfold fb_shape; auto).
    eexists; split; [done|]. unfold fb_shape. eauto.
Qed.

Lemma fb_reach_shape fb : fb_reach fb -> fb_shape fb.
Proof.
  induction 1 as [fb H|fb _ IH|fb b fb' _ IH Hl H|fb ar fb' _ IH Hs Hld|fb fb' _ IH Hh H].
  - unfold newFutureBucket in H. rewrite startMerge_shape in H. injection H as <-.
    unfold fb_shape. eauto.
  - unfold fb_shape. destruct IH as [[r ->]|[-> | [-> | ->]]]; eauto.
  - rewrite resolve_shape in H by done. injection H as _ <-. unfold fb_shape. auto.
  - destruct (save_load_shape fb IH) as (ar' & fb'' & E1 & E2 & ? & _). congruence.
  - destruct (makeLive_shape fb IH Hh) as (fb'' & E & ? & _). congruence.
Qed.
End Lifecycle.

(** For sorted inputs the merge has a result [out], and if the
    bucket manager stores the inputs and the output, then in every state that
    the pending merge reaches through the worker, resolving, saving, loading
    and restarting, all consistency checks pass, resolving a live merge
    returns [out], saving and loading work, a loaded merge can be made live
    again, and clearing it is consistent.  A merge that is saved and restarted
    hence resolves to the same bucket. *)
Theorem future_bucket_lifecycle curr snap shadows keep store :
  bucket_sorted curr -> bucket_sorted snap -> Forall bucket_sorted shadows ->
  exists out, merge curr snap shadows keep = Ok out /\
    (stored store curr -> stored store snap -> Forall (stored store) shadows ->
     stored store out ->
     (exists fb, newFutureBucket curr snap shadows keep = Ok fb /\ isMerging fb = true) /\
     forall fb, fb_reach curr snap shadows keep store fb ->
       checkState fb = Ok tt /\
       (isLive fb = true -> exists fb', resolve fb = Ok (out, fb') /\ isMerging fb' = false) /\
       (exists ar fb', save fb = Ok ar /\ load ar = Ok fb' /\ hasHashes fb' = true) /\
       (hasHashes fb = true ->
        exists fb', makeLive store keep fb = Ok fb' /\ isLive fb' = true) /\
       checkState (clear fb) = Ok tt).
Proof.
  intros Hc Hs Hsh. destruct (merge_ok curr snap shadows keep Hc Hs Hsh) as (out & Hm & _).
  exists out. split; [done|]. intros Sc Ss Ssh So. split.
  { exists (live_inputs curr snap shadows out false). split; [|done].
    by apply startMerge_shape. }
  intros fb Hr. eapply fb_reach_shape in Hr as Hshape; [|done..].
  split; [by eapply checkState_shape|]. split; [|split; [|split; [|done]]].
  - intros Hl. eexists. split; [by eapply resolve_shape|done].
  - destruct (save_load_shape _ _ _ _ _ Hm _ Hshape) as (ar & fb' & ? & ? & _ & ?). eauto.
  - intros Hh. destruct (makeLive_shape curr snap shadows keep store out Hm Sc Ss Ssh So fb)
      as (fb' & ? & _ & ?); eauto.
Qed.
End FutureBuckets.

(** two buckets, their merge, and a directory that holds all three *)
Definition fb_curr : BucketT := [LIVEENTRY (sample_data_entry 1 10)].
Definition fb_snap : BucketT :=
  [LIVEENTRY (sample_data_entry 2 20); LIVEENTRY (sample_data_entry 3 30)].
Definition fb_hash (b : BucketT) : Hash := Z.of_nat (length b).
Definition fb_store : gmap Hash BucketT :=
  <[1 := fb_curr]> (<[2 := fb_snap]> (<[3 := fb_curr ++ fb_snap]> ∅)).

Lemma future_bucket_lifecycle_witness :
  exists fb, newFutureBucket (AO := asset_encode_order) fb_hash fb_curr fb_snap [] true = Ok fb /\
    exists ar fb' fb'', save fb_hash fb = Ok ar /\ load fb_hash ar = Ok fb' /\
      makeLive (AO := asset_encode_order) fb_hash fb_store true fb' = Ok fb'' /\
      exists fb3, resolve fb_hash fb'' = Ok (fb_curr ++ fb_snap, fb3).
Proof.
  destruct (@future_bucket_lifecycle asset_encode_order fb_hash fb_curr fb_snap [] true fb_store)
    as (out & Hm & H); [repeat constructor..|].
  assert (Eo : out = fb_curr ++ fb_snap).
  { assert (E : Ok out = Ok (fb_curr ++ fb_snap)) by (rewrite <- Hm; vm_compute; reflexivity).
    by injection E. }
  subst out. destruct H as [(fb & Hfb & _) H];
    [vm_compute; reflexivity|vm_compute; reflexivity|constructor|vm_compute; reflexivity|].
  exists fb. split; [exact Hfb|].
  destruct (H fb) as (_ & _ & (ar & fb' & Es & El & Hh) & _); [by constructor|].
  assert (R' := reach_reload fb_hash _ _ _ _ fb_store _ _ _ (reach_new _ _ _ _ _ _ _ Hfb) Es El).
  destruct (H fb' R') as (_ & _ & _ & Hml & _). destruct (Hml Hh) as (fb'' & Em & Hl).
  exists ar, fb', fb''. repeat split; try assumption.
  destruct (H fb'') as (_ & Hr & _); [by eapply reach_makeLive|].
  destruct (Hr Hl) as (fb3 & E3 & _). eauto.
Defined.
