(* ===== verification/BucketList.v ===== *)
(** * The bucket list

    src/src/bucket/BucketList.cpp: a log-structured store of ledger entries in
    [kNumLevels] levels, each with a current bucket, a snapshot and a pending
    merge.  [addBatch] is called once per ledger, in order, with the entries
    and keys that the ledger changed.  The hashes of levels are not modelled. *)
From S2P Require Import Prelude Numeric LedgerEntries Bucket FutureBucket.

(** ** Spill arithmetic *)

Definition kNumLevels : Z := 11.

(** [1UL << (2 * (level + 1))] *)
Definition levelSize (level : Z) : res Z :=
  _ ← assert_ (level <? kNumLevels);
  Ok (u32 (Z.shiftl 1 (2 * (level + 1)))).

Definition levelHalf (level : Z) : res Z :=
  size ← levelSize level; Ok (Z.shiftr size 1).

(** [v & ~(m - 1)] *)
Definition mask (v m : Z) : Z := Z.land v (u32 (Z.lnot (u32 (m - 1)))).

Definition levelShouldSpill (ledger level : Z) : res bool :=
  if level =? kNumLevels - 1 then Ok false
  else
    half ← levelHalf level;
    if ledger =? mask ledger half then Ok true
    else
      size ← levelSize level;
      Ok (ledger =? mask ledger size).

Definition keepDeadEntries (level : Z) : bool := level <? kNumLevels - 1.

(** ** Levels *)

Record BucketLevel := mkBucketLevel {
  mLevel : Z;
  mCurr : BucketT;
  mSnap : BucketT;
  mNextCurr : FutureBucket
}.

Definition newBucketLevel (i : Z) : BucketLevel :=
  mkBucketLevel i [] [] emptyFutureBucket.

Definition setNext (fb : FutureBucket) (lv : BucketLevel) : BucketLevel :=
  mkBucketLevel (mLevel lv) (mCurr lv) (mSnap lv) fb.

Definition setCurr (b : BucketT) (lv : BucketLevel) : BucketLevel :=
  mkBucketLevel (mLevel lv) b (mSnap lv) (clear (mNextCurr lv)).

Definition setSnap (b : BucketT) (lv : BucketLevel) : BucketLevel :=
  mkBucketLevel (mLevel lv) (mCurr lv) b (mNextCurr lv).

(** [BucketLevel::snap] *)
Definition snap_level (lv : BucketLevel) : BucketT * BucketLevel :=
  (mCurr lv, mkBucketLevel (mLevel lv) [] (mCurr lv) (mNextCurr lv)).

(** [mLevels.at(i)]; the loops index within the vector *)
Definition getLevel (levels : list BucketLevel) (i : nat) : res BucketLevel :=
  match levels !! i with
  | Some lv => Ok lv
  | None => Throw (RuntimeError "out_of_range")
  end.

(** [shadows.pop_back(); shadows.pop_back();] *)
Definition pop_two {A} (l : list A) : list A := removelast (removelast l).

(** [BucketList::BucketList] *)
Definition newBucketList : list BucketLevel :=
  map newBucketLevel (seqZ 0 kNumLevels).

Section BucketLists.
Context {AO : AssetOrder}.
Variable getHash : BucketT -> Hash.

Definition commit (lv : BucketLevel) : res BucketLevel :=
  lv ← (if isLive (mNextCurr lv) then
          '(b, next) ← resolve getHash (mNextCurr lv);
          Ok (setCurr b (setNext next lv))
        else Ok lv);
  _ ← assert_ (negb (isMerging (mNextCurr lv)));
  Ok lv.

Definition prepare (currLedger : Z) (snap : BucketT) (shadows : list BucketT)
    (lv : BucketLevel) : res BucketLevel :=
  _ ← assert_ (negb (isMerging (mNextCurr lv)));
  curr ← (if negb (mLevel lv =? 0) then
            half ← levelHalf (u32 (mLevel lv - 1));
            let nextChangeLedger := u32 (currLedger + half) in
            spill ← levelShouldSpill nextChangeLedger (mLevel lv);
            if (spill : bool) then Ok [] else Ok (mCurr lv)
          else Ok (mCurr lv));
  next ← newFutureBucket getHash curr snap shadows (keepDeadEntries (mLevel lv));
  _ ← assert_ (isMerging next);
  Ok (setNext next lv).

(** the body of the loop of [addBatch] when level [i - 1] spills *)
Definition spill_into (currLedger : Z) (i : nat) (shadows : list BucketT)
    (levels : list BucketLevel) : res (list BucketLevel) :=
  above ← getLevel levels (i - 1);
  let '(snap, above) := snap_level above in
  let levels := <[(i - 1)%nat := above]> levels in
  lv ← getLevel levels i;
  lv ← commit lv;
  lv ← prepare currLedger snap shadows lv;
  Ok (<[i := lv]> levels).

(** [for (uint32_t i = mLevels.size() - 1; i != 0; --i)] *)
Fixpoint addBatch_loop (currLedger : Z) (i : nat) (shadows : list BucketT)
    (levels : list BucketLevel) : res (list BucketT * list BucketLevel) :=
  match i with
  | O => Ok (shadows, levels)
  | S i' =>
      _ ← assert_ (2 <=? Z.of_nat (length shadows));
      let shadows := pop_two shadows in
      spill ← levelShouldSpill currLedger (Z.of_nat i');
      levels ← (if (spill : bool) then spill_into currLedger i shadows levels else Ok levels);
      addBatch_loop currLedger i' shadows levels
  end.

Definition addBatch (currLedger : Z) (liveEntries : list LedgerEntry)
    (deadEntries : list LedgerKey) (levels : list BucketLevel)
    : res (list BucketLevel) :=
  _ ← assert_ (currLedger >? 0);
  let shadows := concat (map (fun lv => [mCurr lv; mSnap lv]) levels) in
  _ ← assert_ (2 <=? Z.of_nat (length shadows));
  '(shadows, levels) ← addBatch_loop currLedger (length levels - 1) (pop_two shadows) levels;
  _ ← assert_ (is_empty shadows);
  lv ← getLevel levels 0;
  batch ← fresh liveEntries deadEntries;
  lv ← prepare currLedger batch shadows lv;
  lv ← commit lv;
  Ok (<[0%nat := lv]> levels).

(** [BucketList::restartMerges]: the levels in order *)
Fixpoint restartMerges_from (store : gmap Hash BucketT) (i : Z) (levels : list BucketLevel)
    : res (list BucketLevel) :=
  match levels with
  | [] => Ok []
  | lv :: levels' =>
      let next := mNextCurr lv in
      lv ← (if hasHashes next && negb (isLive next) then
              next ← makeLive getHash store (keepDeadEntries i) next; Ok (setNext next lv)
            else Ok lv);
      levels' ← restartMerges_from store (i + 1) levels';
      Ok (lv :: levels')
  end.
Definition restartMerges (store : gmap Hash BucketT) (levels : list BucketLevel)
    : res (list BucketLevel) :=
  restartMerges_from store 0 levels.
End BucketLists.

(** ** Spill arithmetic: closed forms *)

(** the number of ledgers between two spills of level [j] *)
Definition half (j : nat) : Z := 2 * 4 ^ Z.of_nat j.

(** level [j] spills at the multiples of [half j]; the last level never does *)
Definition spillb (L : Z) (j : nat) : bool := (j <? 10)%nat && (L mod half j =? 0).

Lemma half_pow2 j : half j = 2 ^ (2 * Z.of_nat j + 1).
Proof.
  unfold half. rewrite Z.pow_add_r, Z.pow_mul_r by lia.
  change (2 ^ 2) with 4. change (2 ^ 1) with 2. ring.
Qed.

Lemma half_pos j : 0 < half j.
Proof. rewrite half_pow2. apply Z.pow_pos_nonneg; lia. Qed.
#[export] Hint Resolve half_pos : essa.

Lemma half_S j : half (S j) = 4 * half j.
Proof. unfold half. rewrite Nat2Z.inj_succ, Z.pow_succ_r by lia. ring. Qed.

Lemma half_divide i j : (i <= j)%nat -> (half i | half j).
Proof.
  intros H. rewrite !half_pow2. exists (2 ^ (2 * (Z.of_nat j - Z.of_nat i))).
  rewrite <- Z.pow_add_r by lia. f_equal. lia.
Qed.

Lemma mask_pow2 v k :
  is_u32 v -> 0 <= k <= 31 -> mask v (2 ^ k) = v - v mod 2 ^ k.
Proof.
  intros Hv Hk. unfold mask.
  assert (0 < 2 ^ k <= 2 ^ 31) by (split; [apply Z.pow_pos_nonneg; lia|apply Z.pow_le_mono_r; lia]).
  rewrite (u32_id (2 ^ k - 1)) by (unfold_ints; change (2 ^ 31) with 2147483648 in *; lia).
  replace (2 ^ k - 1) with (Z.ones k) by (rewrite Z.ones_equiv; lia).
  unfold u32. change (UINT32_MAX + 1) with (2 ^ 32).
  rewrite <- Z.land_ones by lia. rewrite (Z.land_comm (Z.lnot _)), Z.land_assoc.
  rewrite Z.land_ones, (Z.mod_small v) by (unfold_ints; change (2 ^ 32) with 4294967296; lia).
  rewrite <- Z.ldiff_land, Z.ldiff_ones_r, Z.shiftr_div_pow2, Z.shiftl_mul_pow2 by lia.
  rewrite Z.mod_eq by lia. lia.
Qed.

Lemma mask_fix v k : is_u32 v -> 0 <= k <= 31 -> (v =? mask v (2 ^ k)) = (v mod 2 ^ k =? 0).
Proof.
  intros Hv Hk. rewrite mask_pow2 by done.
  destruct (Z.eqb_spec (v mod 2 ^ k) 0) as [->|]; [rewrite Z.sub_0_r; apply Z.eqb_refl|].
  apply Z.eqb_neq. lia.
Qed.

Lemma levelSize_eq j : (j < 11)%nat -> levelSize (Z.of_nat j) = Ok (2 ^ (2 * Z.of_nat j + 2)).
Proof. intros H. do 11 (destruct j as [|j]; [reflexivity|]). lia. Qed.

Lemma levelHalf_eq j : (j < 11)%nat -> levelHalf (Z.of_nat j) = Ok (half j).
Proof. intros H. do 11 (destruct j as [|j]; [reflexivity|]). lia. Qed.

Lemma levelShouldSpill_eq L j :
  is_u32 L -> (j < 11)%nat -> levelShouldSpill L (Z.of_nat j) = Ok (spillb L j).
Proof.
  intros HL Hj. unfold levelShouldSpill, spillb, kNumLevels.
  destruct (Z.eqb_spec (Z.of_nat j) (11 - 1)) as [E|E].
  { by rewrite (proj2 (Nat.ltb_ge _ _)) by lia. }
  rewrite (proj2 (Nat.ltb_lt _ _)), levelHalf_eq, levelSize_eq, half_pow2, !bind_ok, !mask_fix
    by (done || lia). cbn [andb].
  destruct (Z.eqb_spec (L mod 2 ^ (2 * Z.of_nat j + 1)) 0) as [|H]; [done|].
  f_equal. apply Z.eqb_neq. intros H'. apply H.
  apply Z.mod_divide in H' as [q ->]; [|apply Z.pow_nonzero; lia].
  apply Z.mod_divide; [apply Z.pow_nonzero; lia|]. exists (2 * q).
  replace (2 * Z.of_nat j + 2) with (2 * Z.of_nat j + 1 + 1) by lia.
  rewrite (Z.pow_add_r 2 _ 1) by lia. change (2 ^ 1) with 2. ring.
Qed.

Lemma spillb_mono L i j : (i <= j)%nat -> spillb L j = true -> spillb L i = true.
Proof.
  unfold spillb. intros Hij. rewrite !andb_true_iff, !Nat.ltb_lt, !Z.eqb_eq.
  intros [Hj H]. split; [lia|]. pose proof (half_pos i). pose proof (half_pos j).
  apply Z.mod_divide; [lia|]. apply Z.mod_divide in H; [|lia].
  eauto using Z.divide_trans, half_divide.
Qed.

(** the first spill of level [j] after ledger [L] *)
Definition next_spill (L : Z) (j : nat) : Z := (L / half j + 1) * half j.

Lemma next_spill_stays L j :
  L mod half j <> 0 -> next_spill L j = next_spill (L - 1) j.
Proof.
  intros H. unfold next_spill. do 2 f_equal. pose proof (half_pos j).
  symmetry. apply div_unique_bounds; [done|]. pose proof (Z.mod_eq L (half j)).
  pose proof (Z.mod_pos_bound L (half j)). nia.
Qed.

Lemma next_spill_now L j : L mod half j = 0 -> next_spill (L - 1) j = L.
Proof.
  intros H. unfold next_spill. pose proof (half_pos j).
  apply Z.mod_divide in H as [q ->]; [|lia].
  replace ((q * half j - 1) / half j) with (q - 1); [ring|].
  symmetry. apply div_unique_bounds; nia.
Qed.

Lemma next_spill_after L j : L mod half j = 0 -> next_spill L j = L + half j.
Proof.
  intros H. unfold next_spill. pose proof (half_pos j).
  apply Z.mod_divide in H as [q ->]; [|lia]. rewrite Z.div_mul by lia. ring.
Qed.

(** wrapping around at 2^32 does not change which levels spill *)
Lemma spillb_u32 L j : (j < 11)%nat -> spillb (u32 L) j = spillb L j.
Proof.
  intros Hj. unfold spillb. f_equal. f_equal. unfold u32.
  change (UINT32_MAX + 1) with (2 ^ 32).
  rewrite <- Znumtheory.Zmod_div_mod; [done|apply half_pos|done|].
  rewrite half_pow2. exists (2 ^ (32 - (2 * Z.of_nat j + 1))).
  rewrite <- Z.pow_add_r by lia. f_equal. lia.
Qed.

(** ** What a bucket list holds *)

(** the entry of the first bucket that has the key, newest level first *)
Fixpoint bl_find (levels : list BucketLevel) (k : LedgerKey) : option BucketEntry :=
  match levels with
  | [] => None
  | lv :: levels' =>
      match bucket_find (mCurr lv) k with
      | Some e => Some e
      | None =>
          match bucket_find (mSnap lv) k with
          | Some e => Some e
          | None => bl_find levels' k
          end
      end
  end.

(** the ledger entry that an entry of a bucket stands for *)
Definition live_of (e : option BucketEntry) : option LedgerEntry :=
  match e with Some (LIVEENTRY le) => Some le | _ => None end.

Definition bl_lookup (levels : list BucketLevel) (k : LedgerKey) : option LedgerEntry :=
  live_of (bl_find levels k).

Definition curr_at (levels : list BucketLevel) (i : nat) : BucketT :=
  match levels !! i with Some lv => mCurr lv | None => [] end.
Definition snap_at (levels : list BucketLevel) (i : nat) : BucketT :=
  match levels !! i with Some lv => mSnap lv | None => [] end.
Definition next_at (levels : list BucketLevel) (i : nat) : FutureBucket :=
  match levels !! i with Some lv => mNextCurr lv | None => emptyFutureBucket end.

Definition has (b : BucketT) (k : LedgerKey) : Prop := bucket_find b k <> None.

(** some bucket of the first [n] levels has the key *)
Definition found (levels : list BucketLevel) (n : nat) (k : LedgerKey) : Prop :=
  exists i, (i < n)%nat /\ (has (curr_at levels i) k \/ has (snap_at levels i) k).

(** the key is above the snapshot that is being merged into level [j] *)
Definition above (levels : list BucketLevel) (j : nat) (k : LedgerKey) : Prop :=
  found levels (j - 1) k \/ has (curr_at levels (j - 1)) k.

Lemma bl_find_app a b k :
  bl_find (a ++ b) k = match bl_find a k with Some e => Some e | None => bl_find b k end.
Proof.
  induction a as [|lv a IH]; [done|]. cbn.
  destruct (bucket_find (mCurr lv) k), (bucket_find (mSnap lv) k); auto.
Qed.

Lemma bl_find_take levels n k :
  bl_find (take n levels) k <> None <-> found levels n k.
Proof.
  unfold found, has, curr_at, snap_at.
  revert n. induction levels as [|lv levels IH]; intros n.
  { rewrite take_nil. cbn. split; [done|]. intros (i & _ & H). by rewrite lookup_nil in H; destruct H. }
  destruct n as [|n]; cbn; [split; [done|intros (i & H & _); lia]|].
  destruct (bucket_find (mCurr lv) k) eqn:E1.
  { split; [|done]. intros _. exists 0%nat. split; [lia|]. left. change (bucket_find (mCurr lv) k <> None). by rewrite E1. }
  destruct (bucket_find (mSnap lv) k) eqn:E2.
  { split; [|done]. intros _. exists 0%nat. split; [lia|]. right. change (bucket_find (mSnap lv) k <> None). by rewrite E2. }
  rewrite IH. split.
  - intros (i & Hi & H). exists (S i). split; [lia|done].
  - intros (i & Hi & H). destruct i as [|i].
    { change (bucket_find (mCurr lv) k <> None \/ bucket_find (mSnap lv) k <> None) in H.
      rewrite E1, E2 in H. by destruct H. }
    exists i. split; [lia|done].
Qed.

Lemma found_mono levels m n k : (m <= n)%nat -> found levels m k -> found levels n k.
Proof. intros Hmn (i & Hi & H). exists i. split; [lia|done]. Qed.

Lemma found_below_above levels m j k :
  (m <= j - 1)%nat -> found levels m k -> above levels j k.
Proof. intros H Hf. left. eauto using found_mono. Qed.

#[export] Instance above_dec levels j k : Decision (above levels j k).
Proof.
  refine (match bl_find (take (j - 1) levels) k as o, bucket_find (curr_at levels (j - 1)) k as o'
    return bl_find (take (j - 1) levels) k = o -> bucket_find (curr_at levels (j - 1)) k = o' -> _
  with
  | None, None => fun E1 E2 => right _
  | Some e, _ => fun E1 E2 => left _
  | None, Some e => fun E1 E2 => left _
  end eq_refl eq_refl).
  - left. apply bl_find_take. by rewrite E1.
  - right. unfold has. by rewrite E2.
  - intros [H%bl_find_take|H]; [by rewrite E1 in H|by apply H].
Defined.

Lemma lookup_insert_if (levels : list BucketLevel) i j lv :
  (j < length levels)%nat ->
  <[j := lv]> levels !! i = if decide (i = j) then Some lv else levels !! i.
Proof.
  intros Hj. case_decide; subst; [by apply list_lookup_insert_eq|].
  by apply list_lookup_insert_ne.
Qed.

Lemma curr_at_insert levels i j lv :
  (j < length levels)%nat ->
  curr_at (<[j := lv]> levels) i = if decide (i = j) then mCurr lv else curr_at levels i.
Proof. intros. unfold curr_at. rewrite lookup_insert_if by done. by case_decide. Qed.

Lemma snap_at_insert levels i j lv :
  (j < length levels)%nat ->
  snap_at (<[j := lv]> levels) i = if decide (i = j) then mSnap lv else snap_at levels i.
Proof. intros. unfold snap_at. rewrite lookup_insert_if by done. by case_decide. Qed.

Lemma next_at_insert levels i j lv :
  (j < length levels)%nat ->
  next_at (<[j := lv]> levels) i = if decide (i = j) then mNextCurr lv else next_at levels i.
Proof. intros. unfold next_at. rewrite lookup_insert_if by done. by case_decide. Qed.

(** two neighbouring levels of a bucket list *)
Lemma levels_split (levels : list BucketLevel) i x y :
  levels !! i = Some x -> levels !! S i = Some y ->
  levels = take i levels ++ x :: y :: drop (S (S i)) levels.
Proof.
  intros Hx Hy. rewrite <- (take_drop_middle levels i x Hx) at 1. do 2 f_equal.
  rewrite <- (take_drop_middle (drop (S i) levels) 0 y); [by rewrite drop_drop, Nat.add_comm|].
  rewrite lookup_drop, Nat.add_0_r. done.
Qed.

Section Invariant.
Context {AO : AssetOrder}.
Variable getHash : BucketT -> Hash.

(** the merge pending on level [j], with [c] as its older input: its newer
    input is the snapshot of the level above, and every key of its shadows is
    still in a bucket above that snapshot *)
Definition pending (levels : list BucketLevel) (j : nat) (c : BucketT) : Prop :=
  (next_at levels j = emptyFutureBucket /\ snap_at levels (j - 1) = []) \/
  exists shadows out r,
    next_at levels j = live_inputs getHash c (snap_at levels (j - 1)) shadows out r /\
    merge c (snap_at levels (j - 1)) shadows (keepDeadEntries (Z.of_nat j)) = Ok out /\
    Forall bucket_sorted shadows /\
    (forall k, shadowed shadows k = true -> above levels j k).

(** the older input is the current bucket, unless that bucket will have been
    snapshotted at [N], when the merge is committed *)
Definition pending_at (N : Z) (levels : list BucketLevel) (j : nat) : Prop :=
  pending levels j (if spillb N j then [] else curr_at levels j).

Record levels_ok (levels : list BucketLevel) : Prop := {
  lo_length : length levels = 11%nat;
  lo_level : forall i lv, levels !! i = Some lv -> mLevel lv = Z.of_nat i;
  lo_curr : forall i, bucket_sorted (curr_at levels i);
  lo_snap : forall i, bucket_sorted (snap_at levels i);
  lo_first : next_at levels 0 = emptyFutureBucket;
  lo_last : snap_at levels 10 = []
}.

(** the state of the bucket list after the batch of ledger [L] *)
Record bl_inv (L : Z) (levels : list BucketLevel) : Prop := {
  bi_ok : levels_ok levels;
  bi_pending : forall j, (1 <= j <= 10)%nat -> pending_at (next_spill L (j - 1)) levels j
}.

(** ** Levels: commit and prepare *)

(** the entries below the pending merge's shadows *)
Definition below (c b : BucketT) (k : LedgerKey) : option BucketEntry :=
  match bucket_find b k with Some e => Some e | None => bucket_find c k end.

(** [out] holds what the buckets [b] and [c] held, except keys that satisfy
    [P]; the last level may forget dead entries *)
Definition absorbs (i : nat) (c b out : BucketT) (P : LedgerKey -> Prop) : Prop :=
  bucket_sorted out /\
  forall k, ~ P k ->
    live_of (bucket_find out k) = live_of (below c b k) /\
    ((i < 10)%nat -> bucket_find out k = below c b k).

Lemma keepDead_live i (e : BucketEntry) :
  live_of (if keepDeadEntries (Z.of_nat i) || negb (is_dead e) then Some e else None)
  = live_of (Some e).
Proof. destruct e; cbn; [by rewrite orb_true_r|by destruct (keepDeadEntries _)]. Qed.

Lemma keepDead_below_last i : (i < 10)%nat -> keepDeadEntries (Z.of_nat i) = true.
Proof. unfold keepDeadEntries, kNumLevels. intros H. apply Z.ltb_lt. lia. Qed.

Lemma commit_ok levels i lv c :
  levels !! i = Some lv -> bucket_sorted c -> bucket_sorted (snap_at levels (i - 1)) ->
  c = mCurr lv -> pending levels i c ->
  exists out, commit getHash lv
      = Ok (mkBucketLevel (mLevel lv) out (mSnap lv) emptyFutureBucket) /\
    absorbs i c (snap_at levels (i - 1)) out (above levels i).
Proof.
  intros Hlv Hc Hb Hcl Hp. unfold commit, pending, next_at in *. rewrite Hlv in Hp.
  destruct lv as [l cur sn nx]. cbn in *. subst cur.
  destruct Hp as [[-> ->]|(sh & out & r & -> & Hm & Hsh & Hab)].
  - exists c. split; [done|]. split; [done|]. intros k _. by unfold below.
  - change (isLive (live_inputs _ _ _ _ _ _)) with true. cbn iota.
    erewrite resolve_shape by (try done; left; eauto). exists out. split; [done|].
    destruct (merge_ok c (snap_at levels (i - 1)) sh (keepDeadEntries (Z.of_nat i)))
      as (out' & Hm' & Ho & Hf); [done..|].
    rewrite Hm in Hm'. injection Hm' as <-. split; [done|]. intros k Hk.
    assert (E : shadowed sh k = false)
      by (destruct (shadowed sh k) eqn:E; [by apply Hab in E|done]).
    rewrite Hf. unfold merge_lookup. rewrite E. fold (below c (snap_at levels (i - 1)) k).
    destruct (below c (snap_at levels (i - 1)) k) as [e|]; [|done].
    rewrite keepDead_live. split; [done|]. intros Hi. by rewrite keepDead_below_last.
Qed.

(** what [prepare] starts on level [i] at ledger [L] *)
Lemma prepare_ok L i lv b shadows :
  (1 <= i <= 10)%nat -> is_u32 L -> mLevel lv = Z.of_nat i ->
  mNextCurr lv = emptyFutureBucket ->
  bucket_sorted (mCurr lv) -> bucket_sorted b -> Forall bucket_sorted shadows ->
  let c := if spillb (L + half (i - 1)) i then [] else mCurr lv in
  exists out, prepare getHash L b shadows lv = Ok (setNext (live_inputs getHash c b shadows out false) lv) /\
    merge c b shadows (keepDeadEntries (Z.of_nat i)) = Ok out.
Proof.
  intros Hi HL Hlv Hn Hc Hb Hsh c.
  assert (Hc' : bucket_sorted c) by (unfold c; destruct (spillb _ _); [constructor|done]).
  destruct (merge_ok c b shadows (keepDeadEntries (Z.of_nat i))) as (out & Hm & _); [done..|].
  exists out. split; [|done]. unfold prepare. rewrite Hlv, Hn.
  rewrite (proj2 (Z.eqb_neq _ _)) by lia.
  rewrite u32_id by zlia. replace (Z.of_nat i - 1) with (Z.of_nat (i - 1)) by lia.
  rewrite levelHalf_eq by lia. cbn [negb assert_ isMerging].
  rewrite !bind_ok, levelShouldSpill_eq, spillb_u32 by (lia || apply u32_range).
  rewrite bind_ok. unfold newFutureBucket.
  replace (if spillb (L + half (i - 1)) i then Ok [] else Ok (mCurr lv)) with (Ok c)
    by (unfold c; by destruct (spillb _ _)).
  rewrite !bind_ok. rewrite (startMerge_shape getHash c b shadows _ out Hm). done.
Qed.

(** ** One spill *)

(** the levels after level [i] has absorbed [b] and level [i - 1] has been
    snapshotted *)
Definition spilled (levels : list BucketLevel) (i : nat) (x y : BucketLevel)
    (out : BucketT) (next : FutureBucket) : list BucketLevel :=
  <[i := mkBucketLevel (mLevel y) out (mSnap y) next]>
    (<[(i - 1)%nat := mkBucketLevel (mLevel x) [] (mCurr x) (mNextCurr x)]> levels).

Section Spill.
Variables (levels : list BucketLevel) (i : nat) (x y : BucketLevel) (out : BucketT)
  (next : FutureBucket).
Hypothesis Hok : levels_ok levels.
Hypothesis Hi : (1 <= i <= 10)%nat.
Hypothesis Hx : levels !! (i - 1)%nat = Some x.
Hypothesis Hy : levels !! i = Some y.
Hypothesis Habs : absorbs i (curr_at levels i) (snap_at levels (i - 1)) out (above levels i).

Let levels' := spilled levels i x y out next.

Lemma spilled_curr j :
  curr_at levels' j =
  if decide (j = i) then out else if decide (j = i - 1)%nat then [] else curr_at levels j.
Proof.
  pose proof (lo_length _ Hok). unfold levels', spilled.
  rewrite !curr_at_insert by (rewrite ?length_insert; lia). done.
Qed.

Lemma spilled_snap j :
  snap_at levels' j = if decide (j = i - 1)%nat then curr_at levels j else snap_at levels j.
Proof.
  pose proof (lo_length _ Hok). unfold levels', spilled.
  rewrite !snap_at_insert by (rewrite ?length_insert; lia). cbn.
  unfold curr_at, snap_at. repeat case_decide; subst; try done; try lia.
  - by rewrite Hy.
  - by rewrite Hx.
Qed.

Lemma spilled_next j :
  next_at levels' j = if decide (j = i) then next else next_at levels j.
Proof.
  pose proof (lo_length _ Hok). unfold levels', spilled.
  rewrite !next_at_insert by (rewrite ?length_insert; lia). cbn.
  repeat case_decide; subst; try done. unfold next_at. by rewrite Hx.
Qed.

Lemma spilled_ok : levels_ok levels'.
Proof.
  destruct Hok as [Hlen Hlev Hcurr Hsnap Hfirst Hlast]. destruct Habs as [Hout _]. split.
  - unfold levels', spilled. by rewrite !length_insert.
  - intros j lv. unfold levels', spilled.
    rewrite !lookup_insert_if by (rewrite ?length_insert; lia).
    repeat case_decide; [intros [= <-]; subst; cbn; eauto..|eauto].
  - intros j. rewrite spilled_curr. repeat case_decide; auto. constructor.
  - intros j. rewrite spilled_snap. case_decide; auto.
  - rewrite spilled_next, decide_False by lia. done.
  - rewrite spilled_snap, decide_False by lia. done.
Qed.

(** no key is lost above a level other than [i] *)
Lemma spilled_above j k :
  (1 <= j <= 10)%nat -> j <> i -> above levels j k -> above levels' j k.
Proof.
  intros Hj Hne. unfold above, found, has.
  setoid_rewrite spilled_curr. setoid_rewrite spilled_snap.
  assert (Hdec : (j < i)%nat \/ (i < j)%nat) by lia. destruct Hdec as [Hlt|Hgt].
  { intros [(m & Hm & H)|H]; [left; exists m; split; [done|]|right].
    - by rewrite !decide_False by lia.
    - by rewrite !decide_False by lia. }
  (* the buckets of the levels [i - 1] and [i] stay below position [j] *)
  intros Ha. destruct (decide (above levels i k)) as [Hab|Hab].
  - destruct Hab as [(m & Hm & H)|H]; left.
    + exists m. split; [lia|]. by rewrite !decide_False by lia.
    + exists (i - 1)%nat. split; [lia|]. right. by rewrite decide_True by lia.
  - assert (Hput : below (curr_at levels i) (snap_at levels (i - 1)) k <> None ->
      above levels' j k).
    { destruct Habs as [_ Ho]. destruct (Ho k Hab) as [_ <-]; [|lia]. intros H.
      destruct (decide (i = j - 1)%nat) as [E|].
      - right. unfold has. by rewrite spilled_curr, decide_True.
      - left. exists i. split; [lia|]. left. unfold has. by rewrite spilled_curr, decide_True. }
    unfold above, found, has in Hput.
    setoid_rewrite spilled_curr in Hput. setoid_rewrite spilled_snap in Hput.
    unfold below in Hput. unfold above, found, has in Hab.
    destruct Ha as [(m & Hm & [H|H])|H].
    + destruct (decide (m = i)) as [->|]; [apply Hput; by destruct (bucket_find (snap_at _ _) k)|].
      destruct (decide (m = i - 1)%nat) as [->|]; [by destruct Hab; right|].
      left. exists m. split; [done|]. left. by rewrite !decide_False.
    + destruct (decide (m = i - 1)%nat) as [->|];
        [apply Hput; by destruct (bucket_find (snap_at _ _) k)|].
      left. exists m. split; [done|]. right. by rewrite !decide_False.
    + destruct (decide (j - 1 = i)%nat) as [E|];
        [rewrite E in H; apply Hput; by destruct (bucket_find (snap_at _ _) k)|].
      right. by rewrite !decide_False by lia.
Qed.

(** every key reads the same *)
Lemma spilled_lookup k : bl_lookup levels' k = bl_lookup levels k.
Proof.
  unfold bl_lookup. destruct Hok as [Hlen _ _ _ _ Hlast]. destruct Habs as [_ Ho].
  assert (Hy' : levels !! S (i - 1) = Some y) by (by replace (S (i - 1)) with i by lia).
  set (x' := mkBucketLevel (mLevel x) [] (mCurr x) (mNextCurr x)).
  set (y' := mkBucketLevel (mLevel y) out (mSnap y) next).
  assert (E' : levels' = take (i - 1) levels ++ x' :: y' :: drop (S (S (i - 1))) levels).
  { assert (Ht : length (take (i - 1) levels) = (i - 1)%nat) by (rewrite length_take; lia).
    unfold levels', spilled. fold x' y'. rewrite (levels_split levels (i - 1) x y) at 1 by done.
    rewrite !insert_app_r_alt by lia. rewrite Ht.
    replace (i - 1 - (i - 1))%nat with 0%nat by lia.
    by replace (i - (i - 1))%nat with 1%nat by lia. }
  assert (E : bl_find levels k =
    bl_find (take (i - 1) levels ++ x :: y :: drop (S (S (i - 1))) levels) k)
    by (by rewrite <- levels_split).
  rewrite E, E', !bl_find_app. clear E E'. subst x' y'. cbn [bl_find mCurr mSnap]. change (bucket_find [] k) with (@None BucketEntry). cbn iota.
  destruct (bl_find (take (i - 1) levels) k) eqn:Ep; [done|].
  destruct (bucket_find (mCurr x) k) eqn:Ex; [done|].
  destruct (Ho k) as [Hl Hf].
  { intros [H%bl_find_take|H]; [by apply H|]. apply H. unfold curr_at. by rewrite Hx. }
  unfold below, curr_at, snap_at in Hl, Hf. rewrite Hx, Hy in Hl, Hf.
  destruct (decide (i = 10)%nat) as [E|].
  - unfold snap_at in Hlast. rewrite <- E, Hy in Hlast. rewrite Hlast. change (bucket_find [] k) with (@None BucketEntry).
    rewrite drop_ge by lia. cbn [bl_find].
    by destruct (bucket_find out k), (bucket_find (mSnap x) k), (bucket_find (mCurr y) k).
  - rewrite Hf by lia. by destruct (bucket_find (mSnap x) k), (bucket_find (mCurr y) k).
Qed.

(** the merges pending on the other levels are not disturbed *)
Lemma spilled_pending j c :
  (1 <= j <= 10)%nat -> j <> i -> pending levels j c -> pending levels' j c.
Proof.
  intros Hj Hne. unfold pending. rewrite spilled_next, spilled_snap.
  rewrite (decide_False (P := j = i)), (decide_False (P := (j - 1 = i - 1)%nat)) by lia.
  intros [H|(sh & o & r & H1 & H2 & H3 & H4)]; [by left|right].
  exists sh, o, r. repeat split; auto using spilled_above.
Qed.
End Spill.

Lemma spill_into_ok L i shadows levels :
  levels_ok levels -> (1 <= i <= 10)%nat -> is_u32 L ->
  pending levels i (curr_at levels i) -> Forall bucket_sorted shadows ->
  (forall k, shadowed shadows k = true -> found levels (i - 1) k) ->
  exists x y out next,
    levels !! (i - 1)%nat = Some x /\ levels !! i = Some y /\
    absorbs i (curr_at levels i) (snap_at levels (i - 1)) out (above levels i) /\
    spill_into getHash L i shadows levels = Ok (spilled levels i x y out next) /\
    pending_at (L + half (i - 1)) (spilled levels i x y out next) i.
Proof.
  intros Hok Hi HL Hp Hsh Hf. pose proof (lo_length _ Hok) as Hlen.
  destruct (lookup_lt_is_Some_2 levels (i - 1)) as [x Hx]; [lia|].
  destruct (lookup_lt_is_Some_2 levels i) as [y Hy]; [lia|].
  assert (Ec : curr_at levels i = mCurr y) by (unfold curr_at; by rewrite Hy).
  assert (Ex : curr_at levels (i - 1) = mCurr x) by (unfold curr_at; by rewrite Hx).
  destruct (commit_ok levels i y (curr_at levels i)) as (out & Hc & Habs);
    [done|apply Hok|apply Hok|done|done|].
  destruct (prepare_ok L i (mkBucketLevel (mLevel y) out (mSnap y) emptyFutureBucket)
    (mCurr x) shadows) as (out2 & Hp2 & Hm2); cbn [mLevel mNextCurr mCurr];
    [done|done|by eapply lo_level|done|apply Habs|rewrite <- Ex; apply Hok|done|].
  cbn [mCurr] in *. eexists x, y, out, _. split; [done|]. split; [done|]. split; [done|].
  split.
  { unfold spill_into, getLevel. rewrite Hx. cbn [mbind res_bind snap_level].
    rewrite lookup_insert_if, decide_False, Hy by lia. cbn [mbind res_bind].
    rewrite Hc. cbn [mbind res_bind]. rewrite Hp2. cbn [mbind res_bind]. reflexivity. }
  unfold pending_at, pending. right. exists shadows, out2, false.
  rewrite spilled_next, decide_True by done.
  rewrite spilled_snap, decide_True by done. rewrite Ex.
  rewrite spilled_curr, decide_True by done.
  repeat split; try done.
  intros k Hk. apply Hf in Hk as (m & Hm & H). left. exists m. split; [done|].
  rewrite spilled_curr, spilled_snap by done. by rewrite !decide_False by lia.
Qed.

(** ** The loop of [addBatch] *)

(** the vector of shadows: the buckets of the levels in order *)
Definition buckets_of (levels : list BucketLevel) : list BucketT :=
  concat (map (fun lv => [mCurr lv; mSnap lv]) levels).

Lemma pop_two_snoc (l : list BucketT) a b : pop_two (l ++ [a; b]) = l.
Proof.
  unfold pop_two. replace (l ++ [a; b]) with ((l ++ [a]) ++ [b]) by (by rewrite <- app_assoc).
  by rewrite !removelast_last.
Qed.

Lemma buckets_of_take_S levels n lv :
  levels !! n = Some lv ->
  buckets_of (take (S n) levels) = buckets_of (take n levels) ++ [mCurr lv; mSnap lv].
Proof.
  intros H. rewrite (take_S_r levels n lv H). unfold buckets_of.
  by rewrite map_app, concat_app.
Qed.

Lemma buckets_of_spec levels b :
  b ∈ buckets_of levels <-> exists lv, lv ∈ levels /\ (b = mCurr lv \/ b = mSnap lv).
Proof.
  unfold buckets_of. induction levels as [|lv levels IH]; cbn; [set_solver|].
  rewrite !elem_of_cons, IH. set_solver.
Qed.

Lemma shadows_found levels n k :
  shadowed (buckets_of (take n levels)) k = true -> found levels n k.
Proof.
  unfold shadowed. rewrite existsb_exists. intros (b & Hb & H%bool_decide_eq_true).
  apply list_elem_of_In, buckets_of_spec in Hb as (lv & Hlv & Hb).
  apply list_elem_of_lookup in Hlv as (m & Hm). apply lookup_take_Some in Hm as [Hm Hn].
  exists m. split; [done|]. unfold has, curr_at, snap_at. rewrite Hm.
  destruct H as [e He]. destruct Hb as [-> | ->]; [left|right]; by rewrite He.
Qed.

Lemma shadows_sorted levels n :
  levels_ok levels -> Forall bucket_sorted (buckets_of (take n levels)).
Proof.
  intros Hok. apply Forall_forall. intros b (lv & Hlv & Hb)%buckets_of_spec.
  apply elem_of_take_sub, list_elem_of_lookup in Hlv as (m & Hm).
  pose proof (lo_curr _ Hok m) as H1. pose proof (lo_snap _ Hok m) as H2.
  unfold curr_at, snap_at in *. rewrite Hm in *. by destruct Hb as [-> | ->].
Qed.

(** the merge that level [i] has pending can be committed at ledger [L], or
    nothing happens to it at [L] *)
Definition ready (L : Z) (levels : list BucketLevel) (i : nat) : Prop :=
  if spillb L (i - 1) then pending levels i (curr_at levels i)
  else pending_at (next_spill L (i - 1)) levels i.

(** at the head of the loop, the levels above [i] are done *)
Record loop_inv (L : Z) (i : nat) (levels : list BucketLevel) : Prop := {
  li_ok : levels_ok levels;
  li_done : forall j, (i < j <= 10)%nat -> pending_at (next_spill L (j - 1)) levels j;
  li_todo : forall j, (1 <= j < i)%nat -> pending_at (next_spill (L - 1) (j - 1)) levels j;
  li_ready : (1 <= i)%nat -> ready L levels i
}.

Lemma spillb_false_mod L j : (j < 10)%nat -> spillb L j = false -> L mod half j <> 0.
Proof.
  intros Hj. unfold spillb. rewrite (proj2 (Nat.ltb_lt _ _)) by lia. cbn [andb].
  by rewrite Z.eqb_neq.
Qed.

Lemma spillb_true_mod L j : spillb L j = true -> L mod half j = 0.
Proof. unfold spillb. rewrite andb_true_iff, Z.eqb_eq. by intros []. Qed.

(** a level that does not spill itself is ready *)
Lemma pending_ready L levels i :
  (1 <= i <= 10)%nat -> spillb L i = false ->
  pending_at (next_spill (L - 1) (i - 1)) levels i -> ready L levels i.
Proof.
  intros Hi Hs. unfold ready. destruct (spillb L (i - 1)) eqn:E.
  - rewrite (next_spill_now L) by (by apply spillb_true_mod).
    unfold pending_at. by rewrite Hs.
  - by rewrite <- (next_spill_stays L) by (apply spillb_false_mod; [lia|done]).
Qed.

(** one iteration with a spill *)
Lemma loop_spill L i levels x y out next :
  (1 <= i <= 10)%nat -> spillb L (i - 1) = true -> loop_inv L i levels ->
  levels !! (i - 1)%nat = Some x -> levels !! i = Some y ->
  absorbs i (curr_at levels i) (snap_at levels (i - 1)) out (above levels i) ->
  pending_at (L + half (i - 1)) (spilled levels i x y out next) i ->
  loop_inv L (i - 1) (spilled levels i x y out next).
Proof.
  intros Hi Hs [Hok Hdone Htodo _] Hx Hy Habs Hp. split.
  - by apply spilled_ok.
  - intros j Hj. destruct (decide (j = i)) as [->|].
    { by rewrite next_spill_after by (by apply spillb_true_mod). }
    unfold pending_at. rewrite spilled_curr, !decide_False by (done || lia).
    apply spilled_pending; [done..|lia|done|]. apply Hdone. lia.
  - intros j Hj. unfold pending_at. rewrite spilled_curr, !decide_False by (done || lia).
    apply spilled_pending; [done..|lia|lia|]. apply Htodo. lia.
  - intros Hi'. unfold ready. rewrite (spillb_mono L (i - 1 - 1) (i - 1)) by (done || lia).
    rewrite spilled_curr by done. rewrite (decide_False (P := (i - 1 = i)%nat)), decide_True by lia.
    apply spilled_pending; [done..|lia|lia|].
    assert (H : pending_at (next_spill (L - 1) (i - 1 - 1)) levels (i - 1)) by (apply Htodo; lia).
    rewrite next_spill_now in H by (apply spillb_true_mod, (spillb_mono L _ (i - 1)); [lia|done]).
    unfold pending_at in H. by rewrite Hs in H.
Qed.

Lemma loop_no_spill L i levels :
  (1 <= i <= 10)%nat -> spillb L (i - 1) = false -> loop_inv L i levels ->
  loop_inv L (i - 1) levels.
Proof.
  intros Hi Hs [Hok Hdone Htodo Hready]. split; [done| | |].
  - intros j Hj. destruct (decide (j = i)) as [->|]; [|apply Hdone; lia].
    specialize (Hready ltac:(lia)). unfold ready in Hready. by rewrite Hs in Hready.
  - intros j Hj. apply Htodo. lia.
  - intros Hi'. apply pending_ready; [lia|done|]. apply Htodo. lia.
Qed.

Lemma addBatch_loop_ok L i levels :
  (i <= 10)%nat -> is_u32 L -> loop_inv L i levels ->
  exists levels', addBatch_loop getHash L i (buckets_of (take i levels)) levels = Ok ([], levels') /\
    loop_inv L 0 levels' /\ forall k, bl_lookup levels' k = bl_lookup levels k.
Proof.
  revert levels. induction i as [|i IH]; intros levels Hi HL Hinv.
  { exists levels. by rewrite take_0. }
  pose proof (li_ok _ _ _ Hinv) as Hok. pose proof (lo_length _ Hok) as Hlen.
  destruct (lookup_lt_is_Some_2 levels i) as [z Hz]; [lia|].
  cbn [addBatch_loop]. rewrite (buckets_of_take_S levels i z Hz), pop_two_snoc.
  rewrite (proj2 (Z.leb_le _ _)) by (rewrite length_app; cbn; lia).
  rewrite levelShouldSpill_eq by (done || lia). cbn [assert_]. rewrite !bind_ok.
  assert (Ei : (S i - 1)%nat = i) by lia.
  destruct (spillb L i) eqn:Hs; rewrite <- Ei in Hs.
  - pose proof (li_ready _ _ _ Hinv ltac:(lia)) as Hr. unfold ready in Hr. rewrite Hs in Hr.
    destruct (spill_into_ok L (S i) (buckets_of (take i levels)) levels)
      as (x & y & out & next & Hx & Hy & Habs & E & Hp);
      [done|lia|done|done|by apply shadows_sorted|intros k Hk; apply shadows_found in Hk;
       by replace (S i - 1)%nat with i by lia|].
    rewrite E. cbn [mbind res_bind]. pose proof (loop_spill L (S i) levels x y out next) as Hinv'.
    specialize (Hinv' ltac:(lia) Hs Hinv Hx Hy Habs Hp).
    replace (S i - 1)%nat with i in Hinv' by lia.
    destruct (IH (spilled levels (S i) x y out next)) as (l' & El & Hl & Hlk); [lia|done|done|].
    exists l'. assert (Et : take i (spilled levels (S i) x y out next) = take i levels).
    { unfold spilled. rewrite !take_insert_ge by lia. done. }
    rewrite Et in El. split; [done|]. split; [done|]. intros k. rewrite Hlk.
    apply spilled_lookup; done || lia.
  - cbn [mbind res_bind]. apply loop_no_spill in Hinv; [|lia|done].
    replace (S i - 1)%nat with i in Hinv by lia. apply IH; [lia|done|done].
Qed.

(** ** A whole batch *)

Lemma loop_inv_start L levels :
  1 <= L -> bl_inv (L - 1) levels -> loop_inv L 10 levels.
Proof.
  intros HL [Hok Hp]. split; [done|lia| |].
  - intros j Hj. apply Hp. lia.
  - intros _. apply pending_ready; [lia|done|]. apply Hp. lia.
Qed.

(** level 0 takes the new bucket at once *)
Lemma level0_ok L batch lv :
  mLevel lv = 0 -> mNextCurr lv = emptyFutureBucket ->
  bucket_sorted (mCurr lv) -> bucket_sorted batch ->
  exists out,
    (lv' ← prepare getHash L batch [] lv; commit getHash lv')
    = Ok (mkBucketLevel 0 out (mSnap lv) emptyFutureBucket) /\ bucket_sorted out /\
    forall k, bucket_find out k = below (mCurr lv) batch k.
Proof.
  intros Hl Hn Hc Hb.
  destruct (merge_ok (mCurr lv) batch [] true) as (out & Hm & Ho & Hf); [done|done|constructor|].
  exists out. split; [|split; [done|]].
  - unfold prepare. rewrite Hl, Hn. cbn -[newFutureBucket commit].
    change (keepDeadEntries 0) with true. unfold newFutureBucket.
    rewrite (startMerge_shape getHash (mCurr lv) batch [] true out Hm).
    change (assert_ (negb (isMerging emptyFutureBucket))) with (Ok tt). rewrite !bind_ok.
    change (assert_ (isMerging (live_inputs getHash (mCurr lv) batch [] out false))) with (Ok tt).
    rewrite !bind_ok. unfold commit, setNext. cbn beta. cbn [mNextCurr].
    change (isLive (live_inputs _ _ _ _ _ _)) with true. cbn iota.
    erewrite resolve_shape by (try done; left; eauto). cbn. by rewrite Hl.
  - intros k. rewrite Hf. unfold merge_lookup. cbn. fold (below (mCurr lv) batch k).
    by destruct (below (mCurr lv) batch k).
Qed.

(** the entry that a batch sets a key to, over an older value *)
Definition batch_lookup (live : list LedgerEntry) (dead : list LedgerKey)
    (k : LedgerKey) (old : option LedgerEntry) : option LedgerEntry :=
  if decide (k ∈ dead) then None
  else match bucket_find (map LIVEENTRY live) k with
       | Some e => live_of (Some e)
       | None => old
       end.

Lemma level0_inv L levels lv out :
  levels !! 0%nat = Some lv -> loop_inv L 0 levels -> bucket_sorted out ->
  (forall k, has (mCurr lv) k -> has out k) ->
  bl_inv L (<[0%nat := mkBucketLevel 0 out (mSnap lv) emptyFutureBucket]> levels).
Proof.
  intros Hlv [[Hlen Hlev Hcurr Hsnap Hfirst Hlast] Hdone _ _] Hout Hgrow.
  set (l' := <[0%nat := _]> levels).
  assert (Hc : forall j, curr_at l' j = if decide (j = 0)%nat then out else curr_at levels j)
    by (intros; unfold l'; by rewrite curr_at_insert by lia).
  assert (Hs : forall j, snap_at l' j = snap_at levels j).
  { intros j. unfold l'. rewrite snap_at_insert by lia. case_decide; [|done].
    subst. unfold snap_at. by rewrite Hlv. }
  assert (Hn : forall j, (1 <= j)%nat -> next_at l' j = next_at levels j)
    by (intros; unfold l'; by rewrite next_at_insert, decide_False by lia).
  assert (Hh : forall j k, has (curr_at levels j) k -> has (curr_at l' j) k).
  { intros j k. rewrite Hc. case_decide; [|done]. subst. unfold curr_at. rewrite Hlv. apply Hgrow. }
  split; [split|].
  - unfold l'. by rewrite length_insert.
  - intros j lv'. unfold l'. rewrite lookup_insert_if by lia.
    case_decide; [intros [= <-]; by subst|eauto].
  - intros j. rewrite Hc. by case_decide.
  - intros j. by rewrite Hs.
  - unfold l'. rewrite next_at_insert by lia. done.
  - by rewrite Hs.
  - intros j Hj. specialize (Hdone j ltac:(lia)). revert Hdone. unfold pending_at, pending.
    rewrite Hc, Hs, Hn, decide_False by lia.
    intros [H|(sh & o & r & H1 & H2 & H3 & H4)]; [by left|right]. exists sh, o, r.
    repeat split; auto. intros k Hk. destruct (H4 k Hk) as [(m & Hm & H)|H]; [left|right; auto].
    exists m. split; [done|]. rewrite Hs. naive_solver.
Qed.

Lemma addBatch_ok L live dead levels :
  1 <= L -> is_u32 L -> bl_inv (L - 1) levels ->
  NoDup (map LedgerEntryKey live) -> NoDup dead ->
  exists levels', addBatch getHash L live dead levels = Ok levels' /\ bl_inv L levels' /\
    forall k, bl_lookup levels' k = batch_lookup live dead k (bl_lookup levels k).
Proof.
  intros HL HL' Hinv Hnl Hnd. pose proof (lo_length _ (bi_ok _ _ Hinv)) as Hlen.
  destruct (addBatch_loop_ok L 10 levels) as (l1 & E1 & Hl1 & Hk1);
    [lia|done|by apply loop_inv_start|].
  pose proof (li_ok _ _ _ Hl1) as Hok1.
  destruct (lookup_lt_is_Some_2 l1 0) as [lv Hlv]; [rewrite (lo_length _ Hok1); lia|].
  destruct (lookup_lt_is_Some_2 levels 10) as [z Hz]; [lia|].
  destruct (fresh_ok live dead Hnl Hnd) as (batch & Eb & Hb & Hfb).
  assert (Hcur : bucket_sorted (mCurr lv))
    by (pose proof (lo_curr _ Hok1 0) as H; unfold curr_at in H; by rewrite Hlv in H).
  destruct (level0_ok L batch lv) as (out & E0 & Ho & Hf0).
  { apply (lo_level _ Hok1 _ _ Hlv). }
  { pose proof (lo_first _ Hok1) as H. unfold next_at in H. by rewrite Hlv in H. }
  { done. } { done. }
  exists (<[0%nat := mkBucketLevel 0 out (mSnap lv) emptyFutureBucket]> l1).
  split; [|split].
  - unfold addBatch. fold (buckets_of levels).
    assert (Eb0 : buckets_of levels = buckets_of (take 10 levels) ++ [mCurr z; mSnap z])
      by (rewrite <- buckets_of_take_S by done; by rewrite take_ge by lia).
    rewrite Eb0, pop_two_snoc, Hlen, Z.gtb_ltb.
    rewrite (proj2 (Z.ltb_lt _ _)), (proj2 (Z.leb_le _ _)) by (rewrite ?length_app; cbn; lia).
    change (11 - 1)%nat with 10%nat. cbn [assert_]. rewrite !bind_ok, E1, bind_ok.
    cbn [is_empty assert_]. rewrite bind_ok. unfold getLevel. rewrite Hlv, bind_ok, Eb, bind_ok.
    destruct (prepare getHash L batch [] lv) as [lv1|]; [|done].
    rewrite bind_ok in E0. rewrite bind_ok. by rewrite E0.
  - apply level0_inv; [done|done|done|]. intros k Hk. unfold has in *. rewrite Hf0.
    unfold below. by destruct (bucket_find batch k).
  - intros k. rewrite <- Hk1. destruct l1 as [|lv' l1]; [done|]. injection Hlv as ->.
    unfold bl_lookup, batch_lookup. cbn [insert list_insert bl_find mCurr mSnap].
    rewrite Hf0. unfold below. rewrite Hfb. case_decide; [done|].
    by destruct (bucket_find (map LIVEENTRY live) k).
Qed.

(** ** Background work and restarts *)

(** two states of the same pending merge *)
Definition same_next (fb fb' : FutureBucket) : Prop :=
  fb = fb' \/
  exists c b sh o r r', fb = live_inputs getHash c b sh o r /\ fb' = live_inputs getHash c b sh o r'.

Definition same_level (a b : BucketLevel) : Prop :=
  mLevel a = mLevel b /\ mCurr a = mCurr b /\ mSnap a = mSnap b /\
  same_next (mNextCurr a) (mNextCurr b).

Lemma same_level_refl a : same_level a a.
Proof. repeat split. by left. Qed.

Lemma same_levels_find levels levels' k :
  Forall2 same_level levels levels' -> bl_find levels' k = bl_find levels k.
Proof.
  induction 1 as [|a b l l' (_ & H1 & H2 & _) _ IH]; [done|]. cbn [bl_find].
  by rewrite H1, H2, IH.
Qed.

Section Same.
Variables (levels levels' : list BucketLevel).
Hypothesis Hsame : Forall2 same_level levels levels'.

Lemma same_at i :
  curr_at levels' i = curr_at levels i /\ snap_at levels' i = snap_at levels i /\
  same_next (next_at levels i) (next_at levels' i).
Proof.
  unfold curr_at, snap_at, next_at.
  destruct (levels !! i) as [a|] eqn:E.
  - destruct (Forall2_lookup_l _ _ _ _ _ Hsame E) as (b & -> & H1 & H2 & H3 & H4). auto.
  - pose proof (Forall2_length _ _ _ Hsame). apply lookup_ge_None in E.
    rewrite lookup_ge_None_2 by lia. repeat split. by left.
Qed.

Lemma same_levels_above j k : above levels j k -> above levels' j k.
Proof.
  destruct (same_at (j - 1)) as (Hc & _).
  intros [(m & Hm & H)|H]; [left|right; by rewrite Hc].
  exists m. split; [done|]. destruct (same_at m) as (-> & -> & _). done.
Qed.

Lemma same_levels_inv L : bl_inv L levels -> bl_inv L levels'.
Proof.
  intros [[Hlen Hlev Hcurr Hsnap Hfirst Hlast] Hp]. split; [split|].
  - by rewrite <- (Forall2_length _ _ _ Hsame).
  - intros i lv H. destruct (Forall2_lookup_r _ _ _ _ _ Hsame H) as (a & Ha & <- & _). eauto.
  - intros i. destruct (same_at i) as (-> & _). done.
  - intros i. destruct (same_at i) as (_ & -> & _). done.
  - destruct (same_at 0) as (_ & _ & [H|(c & b & sh & o & r & r' & H & _)]);
      [congruence|by rewrite Hfirst in H].
  - destruct (same_at 10) as (_ & -> & _). done.
  - intros j Hj. specialize (Hp j Hj). unfold pending_at, pending in *.
    destruct (same_at j) as (-> & _ & Hn). destruct (same_at (j - 1)) as (_ & -> & _).
    destruct Hp as [[H1 H2]|(sh & o & r & H1 & H2 & H3 & H4)].
    + left. split; [|done].
      destruct Hn as [Hn|(c & b & sh & o & r & r' & Hn & _)];
        [congruence|by rewrite H1 in Hn].
    + right. assert (Hn' : exists r', next_at levels' j = live_inputs getHash
        (if spillb (next_spill L (j - 1)) j then [] else curr_at levels j)
        (snap_at levels (j - 1)) sh o r').
      { destruct Hn as [Hn|(c & b & sh' & o' & r0 & r' & Hn & Hn')]; [exists r; congruence|].
        exists r'. rewrite H1 in Hn. injection Hn as <- <- <- _ <- _ _ _. done. }
      destruct Hn' as [r' Hn']. exists sh, o, r'. repeat split; auto using same_levels_above.
Qed.
End Same.

(** the background thread finishes the merge of a level *)
Definition run_level (i : nat) (levels : list BucketLevel) : list BucketLevel :=
  match levels !! i with
  | Some lv => <[i := setNext (runTask (mNextCurr lv)) lv]> levels
  | None => levels
  end.

(** the pending merges are written out and read back *)
Fixpoint reload_levels (levels : list BucketLevel) : res (list BucketLevel) :=
  match levels with
  | [] => Ok []
  | lv :: levels' =>
      ar ← save getHash (mNextCurr lv);
      next ← load getHash ar;
      levels' ← reload_levels levels';
      Ok (setNext next lv :: levels')
  end.

(** the buckets that a pending merge refers to *)
Definition referenced (fb : FutureBucket) : list BucketT :=
  option_list (mInputCurrBucket fb) ++ option_list (mInputSnapBucket fb)
  ++ mInputShadowBuckets fb
  ++ match mOutputBucket fb with
     | Some (mkSharedFuture _ (Ok b)) => [b]
     | _ => []
     end.

(** the next state of a level is empty or a merge with a result *)
Definition next_ok (i : Z) (fb : FutureBucket) : Prop :=
  fb = emptyFutureBucket \/
  exists c b sh o r, fb = live_inputs getHash c b sh o r /\
    merge c b sh (keepDeadEntries i) = Ok o.

Lemma bl_inv_next_ok L levels i lv :
  bl_inv L levels -> levels !! i = Some lv -> next_ok (Z.of_nat i) (mNextCurr lv).
Proof.
  intros [Hok Hp] Hlv. pose proof (lookup_lt_Some _ _ _ Hlv) as Hi.
  rewrite (lo_length _ Hok) in Hi. assert (E : mNextCurr lv = next_at levels i)
    by (unfold next_at; by rewrite Hlv). rewrite E.
  destruct (decide (i = 0)%nat) as [->|]; [left; apply Hok|].
  destruct (Hp i) as [[H _]|(sh & o & r & H1 & H2 & _)]; [lia|by left|].
  right. do 5 eexists. eauto.
Qed.

Lemma runTask_same i fb : next_ok i fb -> same_next fb (runTask fb).
Proof.
  intros [-> | (c & b & sh & o & r & -> & _)]; [by left|].
  right. exists c, b, sh, o, r, true. done.
Qed.

Lemma run_level_same L i levels : bl_inv L levels -> Forall2 same_level levels (run_level i levels).
Proof.
  intros Hinv. unfold run_level. destruct (levels !! i) as [lv|] eqn:E.
  - rewrite <- (list_insert_id levels i lv E) at 1. apply Forall2_insert.
    + apply Forall_Forall2_diag, Forall_forall. intros. apply same_level_refl.
    + repeat split. eapply runTask_same, bl_inv_next_ok; eauto.
  - apply Forall_Forall2_diag, Forall_forall. intros. apply same_level_refl.
Qed.

Lemma restart_level store i fb :
  next_ok i fb -> Forall (stored getHash store) (referenced fb) ->
  exists ar fb1, save getHash fb = Ok ar /\ load getHash ar = Ok fb1 /\
    if hasHashes fb1 && negb (isLive fb1) then
      exists fb2, makeLive getHash store (keepDeadEntries i) fb1 = Ok fb2 /\ same_next fb fb2
    else same_next fb fb1.
Proof.
  intros [-> | (c & b & sh & o & r & -> & Hm)] Hst.
  { do 2 eexists. split; [reflexivity|]. split; [reflexivity|]. by left. }
  exists (ArHashInputs (Some (getHash c)) (Some (getHash b)) (map getHash sh)),
    (hash_inputs getHash c b sh).
  split. { unfold save. by erewrite checkState_live_inputs by eauto. }
  split; [reflexivity|].
  change (hasHashes (hash_inputs getHash c b sh)) with true.
  change (isLive (hash_inputs getHash c b sh)) with false. cbn [negb andb].
  cbn in Hst. inversion Hst as [|? ? Hc Hst1]; subst. inversion Hst1 as [|? ? Hb Hst2]; subst.
  apply Forall_app in Hst2 as [Hsh Ho]. inversion Ho as [|? ? Ho' _]; subst.
  exists (live_inputs getHash c b sh o false). split; [|by right; eauto 10].
  eapply makeLive_hash_inputs; eauto.
Qed.

Lemma restart_levels_same store i levels :
  (forall j lv, levels !! j = Some lv -> next_ok (i + Z.of_nat j) (mNextCurr lv)) ->
  Forall (fun lv => Forall (stored getHash store) (referenced (mNextCurr lv))) levels ->
  exists l1 l2, reload_levels levels = Ok l1 /\ restartMerges_from getHash store i l1 = Ok l2 /\
    Forall2 same_level levels l2.
Proof.
  revert i. induction levels as [|lv levels IH]; intros i Hn Hst; [by exists [], []|].
  inversion Hst as [|? ? Hs1 Hs2]; subst.
  destruct (IH (i + 1)) as (l1 & l2 & E1 & E2 & H2); [|done|].
  { intros j lv' Hj. replace (i + 1 + Z.of_nat j) with (i + Z.of_nat (S j)) by lia. by apply Hn. }
  destruct (restart_level store i (mNextCurr lv)) as (ar & fb1 & Es & El & Hm); [|done|].
  { pose proof (Hn 0%nat lv eq_refl) as H. by rewrite Z.add_0_r in H. }
  cbn [reload_levels]. rewrite Es, bind_ok, El, bind_ok, E1, bind_ok.
  exists (setNext fb1 lv :: l1). cbn [restartMerges_from setNext mNextCurr].
  destruct (hasHashes fb1 && negb (isLive fb1)).
  - destruct Hm as (fb2 & -> & Hsame). rewrite !bind_ok, E2. eexists.
    split; [done|]. split; [reflexivity|]. constructor; [|done]. by repeat split.
  - rewrite !bind_ok, E2. eexists. split; [done|]. split; [reflexivity|].
    constructor; [|done]. by repeat split.
Qed.

(** ** The bucket list as a map *)

(** the abstract state: the live entries of the ledger *)
Definition apply_batch (live : list LedgerEntry) (dead : list LedgerKey)
    (m : gmap LedgerKey LedgerEntry) : gmap LedgerKey LedgerEntry :=
  foldr (fun k m => delete k m)
    (foldr (fun e m => <[LedgerEntryKey e := e]> m) m live) dead.

Lemma apply_batch_lookup live dead m k :
  apply_batch live dead m !! k = batch_lookup live dead k (m !! k).
Proof.
  unfold apply_batch, batch_lookup. induction dead as [|d dead IH]; cbn [foldr].
  - rewrite decide_False by set_solver.
    induction live as [|e live IH]; cbn [foldr map]; [done|]. rewrite bucket_find_cons. cbn [be_key].
    destruct (decide (LedgerEntryKey e = k)) as [<-|]; [by rewrite lookup_insert_eq|].
    by rewrite lookup_insert_ne.
  - destruct (decide (d = k)) as [->|].
    + by rewrite lookup_delete_eq, decide_True by set_solver.
    + rewrite lookup_delete_ne, IH by done. by repeat case_decide; set_solver.
Qed.

(** the bucket lists of the program after ledger [L], with the map of the
    entries that the batches so far leave live: batches of consecutive
    ledgers, interleaved with background merges and with restarts from a
    bucket directory that has the buckets that are referred to *)
Inductive bl_reach : Z -> gmap LedgerKey LedgerEntry -> list BucketLevel -> Prop :=
| reach_empty : bl_reach 0 ∅ newBucketList
| reach_batch L m levels live dead levels' :
    bl_reach L m levels -> L < UINT32_MAX ->
    NoDup (map LedgerEntryKey live) -> NoDup dead ->
    addBatch getHash (L + 1) live dead levels = Ok levels' ->
    bl_reach (L + 1) (apply_batch live dead m) levels'
| reach_run L m levels i : bl_reach L m levels -> bl_reach L m (run_level i levels)
| reach_restart L m levels store l1 l2 :
    bl_reach L m levels ->
    Forall (fun lv => Forall (stored getHash store) (referenced (mNextCurr lv))) levels ->
    reload_levels levels = Ok l1 -> restartMerges getHash store l1 = Ok l2 ->
    bl_reach L m l2.

Lemma newBucketList_inv : bl_inv 0 newBucketList.
Proof.
  assert (H : forall i lv, newBucketList !! i = Some lv -> lv = newBucketLevel (Z.of_nat i)).
  { intros i lv. unfold newBucketList. rewrite list_lookup_fmap_Some.
    intros (z & -> & Hz). apply lookup_seqZ in Hz as [-> _]. f_equal. }
  assert (Hc : forall i, curr_at newBucketList i = [] /\ snap_at newBucketList i = [] /\
    next_at newBucketList i = emptyFutureBucket).
  { intros i. unfold curr_at, snap_at, next_at.
    destruct (newBucketList !! i) as [lv|] eqn:E; [|done]. by apply H in E as ->. }
  split; [split|].
  - reflexivity.
  - intros i lv Hi. by apply H in Hi as ->.
  - intros i. destruct (Hc i) as (-> & _). constructor.
  - intros i. destruct (Hc i) as (_ & -> & _). constructor.
  - apply Hc.
  - apply Hc.
  - intros j _. left. split; apply Hc.
Qed.

Lemma restart_same L store levels :
  bl_inv L levels ->
  Forall (fun lv => Forall (stored getHash store) (referenced (mNextCurr lv))) levels ->
  exists l1 l2, reload_levels levels = Ok l1 /\ restartMerges getHash store l1 = Ok l2 /\
    Forall2 same_level levels l2.
Proof.
  intros Hinv Hst. apply restart_levels_same; [|done].
  intros j lv Hj. rewrite Z.add_0_l. by eapply bl_inv_next_ok.
Qed.

Lemma bl_reach_inv L m levels :
  bl_reach L m levels ->
  0 <= L <= UINT32_MAX /\ bl_inv L levels /\ forall k, bl_lookup levels k = m !! k.
Proof.
  induction 1 as [|L m levels live dead levels' _ (HL & Hinv & Hm) HL' Hl Hd E
    |L m levels i _ (HL & Hinv & Hm)|L m levels store l1 l2 _ (HL & Hinv & Hm) Hst E1 E2].
  - split; [zlia|]. split; [apply newBucketList_inv|done].
  - split; [zlia|]. destruct (addBatch_ok (L + 1) live dead levels) as (l' & E' & Hi & Hk);
      [lia|zlia|by replace (L + 1 - 1) with L by lia|done|done|].
    rewrite E in E'. injection E' as <-. split; [done|]. intros k.
    by rewrite Hk, Hm, apply_batch_lookup.
  - split; [done|]. pose proof (run_level_same L i levels Hinv) as Hs.
    split; [by eapply same_levels_inv|]. intros k. unfold bl_lookup.
    rewrite (same_levels_find _ _ k Hs). apply Hm.
  - split; [done|]. destruct (restart_same L store levels) as (l1' & l2' & E1' & E2' & Hs);
      [done|done|].
    rewrite E1 in E1'. injection E1' as <-. rewrite E2 in E2'. injection E2' as <-.
    split; [by eapply same_levels_inv|]. intros k. unfold bl_lookup.
    rewrite (same_levels_find _ _ k Hs). apply Hm.
Qed.

(** Claim C1: the bucket list refines a map of live entries.  In every state
    reached by batches of consecutive ledgers interleaved with background
    merges and restarts, looking a key up from the newest bucket to the oldest
    gives exactly the entry that the batches left live; spilling, shadowing
    and the dropping of dead entries on the last level never change what is
    read.  The next batch is always accepted: no assertion of the levels, the
    pending merges or the bucket writers fails. *)
Theorem bucket_list_refines_map L m levels live dead :
  bl_reach L m levels -> L < UINT32_MAX ->
  NoDup (map LedgerEntryKey live) -> NoDup dead ->
  (forall k, bl_lookup levels k = m !! k) /\
  exists levels', addBatch getHash (L + 1) live dead levels = Ok levels' /\
    forall k, bl_lookup levels' k = apply_batch live dead m !! k.
Proof.
  intros Hr HL Hl Hd. destruct (bl_reach_inv L m levels Hr) as (HL' & Hinv & Hm).
  split; [done|]. destruct (addBatch_ok (L + 1) live dead levels) as (l' & E & _ & Hk);
    [lia|zlia|by replace (L + 1 - 1) with L by lia|done|done|].
  exists l'. split; [done|]. intros k. by rewrite Hk, Hm, apply_batch_lookup.
Qed.

(** A restart is transparent.  In every reached state, if the
    bucket directory has the buckets that the pending merges refer to, the
    merges can be saved, loaded and restarted without a failure, and the
    restarted bucket list holds the same entries and accepts the next batch. *)
Theorem restart_transparent L m levels store :
  bl_reach L m levels ->
  Forall (fun lv => Forall (stored getHash store) (referenced (mNextCurr lv))) levels ->
  exists l1 l2, reload_levels levels = Ok l1 /\ restartMerges getHash store l1 = Ok l2 /\
    (forall k, bl_lookup l2 k = m !! k) /\
    forall live dead, L < UINT32_MAX -> NoDup (map LedgerEntryKey live) -> NoDup dead ->
      exists l3, addBatch getHash (L + 1) live dead l2 = Ok l3 /\
        forall k, bl_lookup l3 k = apply_batch live dead m !! k.
Proof.
  intros Hr Hst. destruct (bl_reach_inv L m levels Hr) as (HL & Hinv & Hm).
  destruct (restart_same L store levels Hinv Hst) as (l1 & l2 & E1 & E2 & Hs).
  pose proof (reach_restart L m levels store l1 l2 Hr Hst E1 E2) as Hr2.
  destruct (bl_reach_inv L m l2 Hr2) as (_ & Hinv2 & Hm2).
  exists l1, l2. split; [done|]. split; [done|]. split; [done|]. intros live dead HL' Hl Hd.
  destruct (addBatch_ok (L + 1) live dead l2) as (l' & E & _ & Hk);
    [lia|zlia|by replace (L + 1 - 1) with L by lia|done|done|].
  exists l'. split; [done|]. intros k. by rewrite Hk, Hm2, apply_batch_lookup.
Qed.
End Invariant.

(** For every 32-bit ledger number and every level of the list,
    [levelShouldSpill] returns, and it answers true exactly for the levels
    other than the last whose half size, 2 * 4^level, divides the ledger
    number. *)
Theorem levelShouldSpill_schedule ledger level :
  is_u32 ledger -> 0 <= level < kNumLevels ->
  exists b, levelShouldSpill ledger level = Ok b /\
    (b = true <-> level < kNumLevels - 1 /\ (2 * 4 ^ level | ledger)).
Proof.
  intros HL Hj. unfold kNumLevels in *.
  pose proof (levelShouldSpill_eq ledger (Z.to_nat level) HL ltac:(lia)) as E.
  rewrite Z2Nat.id in E by lia. rewrite E. eexists. split; [reflexivity|].
  unfold spillb. pose proof (half_pos (Z.to_nat level)).
  rewrite andb_true_iff, Nat.ltb_lt, Z.eqb_eq, Z.mod_divide by lia.
  unfold half. rewrite Z2Nat.id by lia. intuition lia.
Qed.

(** ** The theorems at concrete inputs *)

Lemma levelShouldSpill_schedule_witness :
  exists b, levelShouldSpill 24 1 = Ok b /\ (b = true <-> 1 < kNumLevels - 1 /\ (2 * 4 ^ 1 | 24)).
Proof. apply (levelShouldSpill_schedule 24 1); unfold_ints; unfold kNumLevels; lia. Defined.

(** the list after a batch with one entry *)
Definition bl_one : list BucketLevel :=
  match addBatch (AO := asset_encode_order) fb_hash 1 [sample_data_entry 1 10] [] newBucketList with
  | Ok l => l
  | Throw _ => []
  end.

Lemma bl_one_reach :
  bl_reach (AO := asset_encode_order) fb_hash 1
    (apply_batch [sample_data_entry 1 10] [] ∅) bl_one.
Proof.
  change 1 with (0 + 1). apply (reach_batch (AO := asset_encode_order) fb_hash 0 ∅ newBucketList).
  - constructor.
  - zlia.
  - apply (bool_decide_unpack _). vm_compute. exact I.
  - constructor.
  - vm_compute. reflexivity.
Qed.

Lemma bucket_list_refines_map_witness :
  exists l, addBatch (AO := asset_encode_order) fb_hash 2 [sample_data_entry 2 20]
      [KeyData 1 "name"] bl_one = Ok l /\
    bl_lookup l (KeyData 1 "name") = None /\
    bl_lookup l (KeyData 2 "name") = Some (sample_data_entry 2 20).
Proof.
  destruct (bucket_list_refines_map (AO := asset_encode_order) fb_hash 1 _ bl_one
    [sample_data_entry 2 20] [KeyData 1 "name"] bl_one_reach) as [_ (l & E & Hl)].
  - zlia.
  - apply (bool_decide_unpack _). vm_compute. exact I.
  - apply (bool_decide_unpack _). vm_compute. exact I.
  - exists l. split; [exact E|]. split; rewrite Hl; vm_compute; reflexivity.
Defined.

(** the second ledger spills level 0: a merge is pending on level 1 *)
Definition bl_two : list BucketLevel :=
  match addBatch (AO := asset_encode_order) fb_hash 2 [sample_data_entry 2 20] [] bl_one with
  | Ok l => l
  | Throw _ => []
  end.

Lemma bl_two_reach :
  bl_reach (AO := asset_encode_order) fb_hash 2
    (apply_batch [sample_data_entry 2 20] [] (apply_batch [sample_data_entry 1 10] [] ∅)) bl_two.
Proof.
  change 2 with (1 + 1) at 1.
  apply (reach_batch (AO := asset_encode_order) fb_hash 1 _ bl_one _ _ _ bl_one_reach).
  - zlia.
  - apply (bool_decide_unpack _). vm_compute. exact I.
  - constructor.
  - vm_compute. reflexivity.
Qed.

Lemma restart_transparent_witness :
  isMerging (next_at bl_two 1) = true /\
  exists l1 l2, reload_levels fb_hash bl_two = Ok l1 /\
    restartMerges (AO := asset_encode_order) fb_hash fb_store l1 = Ok l2 /\
    bl_lookup l2 (KeyData 1 "name") = Some (sample_data_entry 1 10).
Proof.
  split; [vm_compute; reflexivity|].
  destruct (restart_transparent (AO := asset_encode_order) fb_hash 2 _ bl_two fb_store bl_two_reach)
    as (l1 & l2 & E1 & E2 & Hl & _).
  - vm_compute. repeat constructor.
  - exists l1, l2. split; [exact E1|]. split; [exact E2|]. rewrite Hl. vm_compute. reflexivity.
Defined.
