(* ===== verification/LedgerTxn.v ===== *)
(** * Nested ledger transactions

    src/src/ledger/LedgerTxn.cpp and LedgerTxnEntry.cpp.  A [Store] is a chain
    of open [LedgerTxn]s over the [LedgerTxnRoot]: each holds the entries it
    has recorded, a copy of the header, the keys with an active handle and its
    sealed and consistency flags.  The operations act on the innermost
    transaction of the chain.  The database under the root is a finite map
    from keys to entries; its caches are not part of the state (the cache of
    best offers is treated in OfferBook).  An [EntryIterator] is the list of
    the pairs that it has left. *)
From S2P Require Import Prelude Numeric LedgerEntries.

Abbreviation EntryMap := (gmap LedgerKey (option LedgerEntry)) (only parsing).

Inductive LedgerTxnConsistency := EXACT | EXTRA_DELETES.

#[export] Instance LedgerTxnConsistency_eq_dec : EqDecision LedgerTxnConsistency.
Proof. solve_decision. Defined.

(** [LedgerTxn::Impl]; [mActive] maps a key with a live handle to whether the
    handle is a [LedgerTxnEntry] (rather than a [ConstLedgerTxnEntry]) *)
Record Impl := mkImpl {
  mEntry : EntryMap;
  mActive : gmap LedgerKey bool;
  mHeader : LedgerHeader;
  mActiveHeader : bool;
  mChild : bool;
  mShouldUpdateLastModified : bool;
  mIsSealed : bool;
  mConsistency : LedgerTxnConsistency
}.

(** [LedgerTxnRoot::Impl] *)
Record RootImpl := mkRootImpl {
  mDatabase : gmap LedgerKey LedgerEntry;
  rt_header : LedgerHeader;
  rt_child : bool
}.

Inductive Store :=
| Root (r : RootImpl)
| Txn (mParent : Store) (impl : Impl).

Definition set_mEntry (x : EntryMap) (i : Impl) : Impl :=
  mkImpl x (mActive i) (mHeader i) (mActiveHeader i) (mChild i)
    (mShouldUpdateLastModified i) (mIsSealed i) (mConsistency i).
Definition set_mActive (x : gmap LedgerKey bool) (i : Impl) : Impl :=
  mkImpl (mEntry i) x (mHeader i) (mActiveHeader i) (mChild i)
    (mShouldUpdateLastModified i) (mIsSealed i) (mConsistency i).
Definition set_mHeader (x : LedgerHeader) (i : Impl) : Impl :=
  mkImpl (mEntry i) (mActive i) x (mActiveHeader i) (mChild i)
    (mShouldUpdateLastModified i) (mIsSealed i) (mConsistency i).
Definition set_mActiveHeader (x : bool) (i : Impl) : Impl :=
  mkImpl (mEntry i) (mActive i) (mHeader i) x (mChild i)
    (mShouldUpdateLastModified i) (mIsSealed i) (mConsistency i).
Definition set_mChild (x : bool) (i : Impl) : Impl :=
  mkImpl (mEntry i) (mActive i) (mHeader i) (mActiveHeader i) x
    (mShouldUpdateLastModified i) (mIsSealed i) (mConsistency i).
Definition set_mIsSealed (x : bool) (i : Impl) : Impl :=
  mkImpl (mEntry i) (mActive i) (mHeader i) (mActiveHeader i) (mChild i)
    (mShouldUpdateLastModified i) x (mConsistency i).
Definition set_mConsistency (x : LedgerTxnConsistency) (i : Impl) : Impl :=
  mkImpl (mEntry i) (mActive i) (mHeader i) (mActiveHeader i) (mChild i)
    (mShouldUpdateLastModified i) (mIsSealed i) x.

(** ** Guards *)

Definition throwIfChild (i : Impl) : res unit :=
  if mChild i then Throw (RuntimeError "LedgerTxn has child") else Ok tt.
Definition throwIfSealed (i : Impl) : res unit :=
  if mIsSealed i then Throw (RuntimeError "LedgerTxn is sealed") else Ok tt.
Definition throwIfNotExactConsistency (i : Impl) : res unit :=
  if bool_decide (mConsistency i = EXACT) then Ok tt
  else Throw (RuntimeError "LedgerTxn consistency level is not exact").

(** an operation on the innermost transaction; the root has no handles *)
Definition on_txn {A} (s : Store) (f : Store -> Impl -> res A) : res A :=
  match s with
  | Txn p i => f p i
  | Root _ => Throw (RuntimeError "LedgerTxnRoot")
  end.

(** ** Reading *)

(** [getNewestVersion] *)
Fixpoint getNewestVersion (s : Store) (key : LedgerKey) : option LedgerEntry :=
  match s with
  | Root r => mDatabase r !! key
  | Txn p i =>
      match mEntry i !! key with
      | Some entry => entry
      | None => getNewestVersion p key
      end
  end.

Definition getHeader (s : Store) : LedgerHeader :=
  match s with
  | Root r => rt_header r
  | Txn _ i => mHeader i
  end.

(** ** Opening a transaction *)

(** [addChild] of the parent *)
Definition addChild (s : Store) : res Store :=
  match s with
  | Root r =>
      if rt_child r then Throw (RuntimeError "LedgerTxnRoot already has child")
      else Ok (Root (mkRootImpl (mDatabase r) (rt_header r) true))
  | Txn p i =>
      _ ← throwIfSealed i;
      _ ← throwIfChild i;
      Ok (Txn p (set_mActiveHeader false (set_mActive ∅ (set_mChild true i))))
  end.

(** [LedgerTxn::Impl::Impl] *)
Definition newLedgerTxn (parent : Store) (shouldUpdateLastModified : bool) : res Store :=
  let header := getHeader parent in
  parent ← addChild parent;
  Ok (Txn parent (mkImpl ∅ ∅ header false false shouldUpdateLastModified false EXACT)).

(** ** Entries *)

Definition create (s : Store) (entry : LedgerEntry) : res Store :=
  on_txn s (fun p i =>
    _ ← throwIfSealed i;
    _ ← throwIfChild i;
    let key := LedgerEntryKey entry in
    match getNewestVersion s key with
    | Some _ => Throw (RuntimeError "Key already exists")
    | None =>
        Ok (Txn p (set_mEntry (<[key := Some entry]> (mEntry i))
                     (set_mActive (<[key := true]> (mActive i)) i)))
    end).

Definition createOrUpdateWithoutLoading (s : Store) (entry : LedgerEntry) : res Store :=
  on_txn s (fun p i =>
    _ ← throwIfSealed i;
    _ ← throwIfChild i;
    let key := LedgerEntryKey entry in
    match mActive i !! key with
    | Some _ => Throw (RuntimeError "Key is already active")
    | None => Ok (Txn p (set_mEntry (<[key := Some entry]> (mEntry i)) i))
    end).

Definition deactivate (s : Store) (key : LedgerKey) : res Store :=
  on_txn s (fun p i =>
    match mActive i !! key with
    | None => Throw (RuntimeError "Key is not active")
    | Some _ => Ok (Txn p (set_mActive (delete key (mActive i)) i))
    end).

Definition deactivateHeader (s : Store) : res Store :=
  on_txn s (fun p i =>
    if mActiveHeader i then Ok (Txn p (set_mActiveHeader false i))
    else Throw (RuntimeError "LedgerTxnHeader is not active")).

Definition erase (s : Store) (key : LedgerKey) : res Store :=
  on_txn s (fun p i =>
    _ ← throwIfSealed i;
    _ ← throwIfChild i;
    match getNewestVersion s key with
    | None => Throw (RuntimeError "Key does not exist")
    | Some _ =>
        let entries :=
          match getNewestVersion p key with
          | None => delete key (mEntry i)
          | Some _ => <[key := None]> (mEntry i)
          end in
        Ok (Txn p (set_mActive (delete key (mActive i)) (set_mEntry entries i)))
    end).

Definition eraseWithoutLoading (s : Store) (key : LedgerKey) : res Store :=
  on_txn s (fun p i =>
    _ ← throwIfSealed i;
    _ ← throwIfChild i;
    Ok (Txn p (set_mConsistency EXTRA_DELETES
                (set_mActive (delete key (mActive i))
                  (set_mEntry (<[key := None]> (mEntry i)) i))))).

(** [load]: the entry, recorded and with an active handle, or nothing *)
Definition load (s : Store) (key : LedgerKey) : res (option LedgerEntry * Store) :=
  on_txn s (fun p i =>
    _ ← throwIfSealed i;
    _ ← throwIfChild i;
    match mActive i !! key with
    | Some _ => Throw (RuntimeError "Key is active")
    | None =>
        match getNewestVersion s key with
        | None => Ok (None, s)
        | Some newest =>
            Ok (Some newest,
                Txn p (set_mEntry (<[key := Some newest]> (mEntry i))
                         (set_mActive (<[key := true]> (mActive i)) i)))
        end
    end).

Definition loadWithoutRecord (s : Store) (key : LedgerKey)
    : res (option LedgerEntry * Store) :=
  on_txn s (fun p i =>
    _ ← throwIfSealed i;
    _ ← throwIfChild i;
    match mActive i !! key with
    | Some _ => Throw (RuntimeError "Key is active")
    | None =>
        match getNewestVersion s key with
        | None => Ok (None, s)
        | Some newest =>
            Ok (Some newest, Txn p (set_mActive (<[key := false]> (mActive i)) i))
        end
    end).

(** [ltxe.current() = entry] through a [LedgerTxnEntry]: the handle refers to
    the recorded entry, and is dead once the key is not active *)
Definition set_current (s : Store) (key : LedgerKey) (entry : LedgerEntry) : res Store :=
  on_txn s (fun p i =>
    match mActive i !! key with
    | Some true => Ok (Txn p (set_mEntry (<[key := Some entry]> (mEntry i)) i))
    | _ => Throw (RuntimeError "LedgerTxnEntry not active")
    end).

Definition loadHeader (s : Store) : res Store :=
  on_txn s (fun p i =>
    _ ← throwIfSealed i;
    _ ← throwIfChild i;
    if mActiveHeader i then Throw (RuntimeError "LedgerTxnHeader is active")
    else Ok (Txn p (set_mActiveHeader true i))).

(** [header.current() = header] through an active [LedgerTxnHeader] *)
Definition set_current_header (s : Store) (header : LedgerHeader) : res Store :=
  on_txn s (fun p i =>
    if mActiveHeader i then Ok (Txn p (set_mHeader header i))
    else Throw (RuntimeError "LedgerTxnHeader not active")).

(** [unsealHeader]: the handle is deactivated when the call returns *)
Definition unsealHeader (s : Store) (f : LedgerHeader -> LedgerHeader) : res Store :=
  on_txn s (fun p i =>
    if negb (mIsSealed i) then Throw (RuntimeError "LedgerTxn is not sealed")
    else if mActiveHeader i then Throw (RuntimeError "LedgerTxnHeader is active")
    else Ok (Txn p (set_mHeader (f (mHeader i)) i))).

(** ** Sealing *)

Definition maybeUpdateLastModified (i : Impl) : res EntryMap :=
  _ ← throwIfSealed i;
  _ ← throwIfChild i;
  Ok ((fun entry : option LedgerEntry =>
         match entry with
         | Some e =>
             Some (if mShouldUpdateLastModified i
                   then set_lastModifiedLedgerSeq (ledgerSeq (mHeader i)) e else e)
         | None => None
         end) <$> mEntry i).

(** [maybeUpdateLastModifiedThenInvokeThenSeal]: [f] gets the entries that
    are sealed *)
Definition thenSeal {A} (i : Impl) (f : EntryMap -> res A) : res (A * Impl) :=
  if negb (mIsSealed i) then
    entries ← maybeUpdateLastModified i;
    a ← f entries;
    Ok (a, set_mIsSealed true (set_mActiveHeader false (set_mActive ∅ (set_mEntry entries i))))
  else
    a ← f (mEntry i); Ok (a, i).

(** run a query that seals the innermost transaction *)
Definition sealing {A} (s : Store) (f : Store -> Impl -> EntryMap -> res A) : res (A * Store) :=
  on_txn s (fun p i =>
    '(a, i') ← thenSeal i (f p i); Ok (a, Txn p i')).

Inductive LedgerEntryChange :=
| LEDGER_ENTRY_CREATED (created : LedgerEntry)
| LEDGER_ENTRY_UPDATED (updated : LedgerEntry)
| LEDGER_ENTRY_REMOVED (removed : LedgerKey)
| LEDGER_ENTRY_STATE (state : LedgerEntry).

(** the loop of [getChanges] *)
Fixpoint changes_of (p : Store) (l : list (LedgerKey * option LedgerEntry))
    : res (list LedgerEntryChange) :=
  match l with
  | [] => Ok []
  | (key, entry) :: l' =>
      here ← (match getNewestVersion p key with
              | Some previous =>
                  Ok (LEDGER_ENTRY_STATE previous ::
                      match entry with
                      | Some e => [LEDGER_ENTRY_UPDATED e]
                      | None => [LEDGER_ENTRY_REMOVED key]
                      end)
              | None =>
                  match entry with
                  | Some e => Ok [LEDGER_ENTRY_CREATED e]
                  | None => Throw AssertFailed
                  end
              end);
      rest ← changes_of p l';
      Ok (here ++ rest)
  end.

Definition getChanges (s : Store) : res (list LedgerEntryChange * Store) :=
  on_txn s (fun _ i =>
    _ ← throwIfNotExactConsistency i;
    sealing s (fun p _ entries => changes_of p (map_to_list entries))).

Definition getDeadEntries (s : Store) : res (list LedgerKey * Store) :=
  on_txn s (fun _ i =>
    _ ← throwIfNotExactConsistency i;
    sealing s (fun _ _ entries =>
      Ok (omap (fun kv : LedgerKey * option LedgerEntry =>
                  match snd kv with None => Some (fst kv) | Some _ => None end)
            (map_to_list entries)))).

Definition getLiveEntries (s : Store) : res (list LedgerEntry * Store) :=
  sealing s (fun _ _ entries => Ok (omap snd (map_to_list entries))).

(** [LedgerTxnDelta]: current and previous version of every recorded key *)
Record LedgerTxnDelta := mkLedgerTxnDelta {
  delta_entry : gmap LedgerKey (option LedgerEntry * option LedgerEntry);
  delta_header : LedgerHeader * LedgerHeader
}.

Definition getDelta (s : Store) : res (LedgerTxnDelta * Store) :=
  on_txn s (fun _ i =>
    _ ← throwIfNotExactConsistency i;
    sealing s (fun p i entries =>
      Ok (mkLedgerTxnDelta
            (map_imap (fun key entry => Some (entry, getNewestVersion p key)) entries)
            (mHeader i, getHeader p)))).

(** ** Committing *)

Definition joinConsistencyLevels (c1 c2 : LedgerTxnConsistency) : LedgerTxnConsistency :=
  match c1 with
  | EXACT => c2
  | EXTRA_DELETES => EXTRA_DELETES
  end.

(** the loop of [LedgerTxn::Impl::commitChild]; [p] is the parent of the
    transaction that receives the entries *)
Fixpoint commit_entries (p : Store) (iter : list (LedgerKey * option LedgerEntry))
    (entries : EntryMap) : EntryMap :=
  match iter with
  | [] => entries
  | (key, entry) :: iter' =>
      commit_entries p iter'
        (match entry with
         | Some e => <[key := Some e]> entries
         | None =>
             match getNewestVersion p key with
             | None => delete key entries
             | Some _ => <[key := None]> entries
             end
         end)
  end.

(** [BulkLedgerEntryChangeAccumulator] *)
Record Bleca := mkBleca {
  mAccountsToUpsert : list (LedgerKey * LedgerEntry);
  mAccountsToDelete : list LedgerKey;
  mAccountDataToUpsert : list (LedgerKey * LedgerEntry);
  mAccountDataToDelete : list LedgerKey;
  mOffersToUpsert : list (LedgerKey * LedgerEntry);
  mOffersToDelete : list LedgerKey;
  mTrustLinesToUpsert : list (LedgerKey * LedgerEntry);
  mTrustLinesToDelete : list LedgerKey
}.

Definition emptyBleca : Bleca := mkBleca [] [] [] [] [] [] [] [].

Definition accum (kv : LedgerKey * option LedgerEntry)
    (upsertBuffer : list (LedgerKey * LedgerEntry)) (deleteBuffer : list LedgerKey)
    : list (LedgerKey * LedgerEntry) * list LedgerKey :=
  match snd kv with
  | Some e => (upsertBuffer ++ [(fst kv, e)], deleteBuffer)
  | None => (upsertBuffer, deleteBuffer ++ [fst kv])
  end.

(** [BulkLedgerEntryChangeAccumulator::accumulate] *)
Definition accumulate (kv : LedgerKey * option LedgerEntry) (b : Bleca) : Bleca :=
  match b with
  | mkBleca ua da ud dd uo do_ ut dt =>
      match fst kv with
      | KeyAccount _ => let '(u, d) := accum kv ua da in mkBleca u d ud dd uo do_ ut dt
      | KeyTrustLine _ _ => let '(u, d) := accum kv ut dt in mkBleca ua da ud dd uo do_ u d
      | KeyOffer _ _ => let '(u, d) := accum kv uo do_ in mkBleca ua da ud dd u d ut dt
      | KeyData _ _ => let '(u, d) := accum kv ud dd in mkBleca ua da u d uo do_ ut dt
      end
  end.

(** the bulk statements on the tables; a delete that should be exact fails
    when a row is missing *)
Definition bulkUpsert (l : list (LedgerKey * LedgerEntry)) (db : gmap LedgerKey LedgerEntry)
    : gmap LedgerKey LedgerEntry :=
  foldl (fun db kv => <[fst kv := snd kv]> db) db l.
Definition bulkDelete (l : list LedgerKey) (cons : LedgerTxnConsistency)
    (db : gmap LedgerKey LedgerEntry) : res (gmap LedgerKey LedgerEntry) :=
  if forallb (fun k => bool_decide (is_Some (db !! k))) l || bool_decide (cons <> EXACT)
  then Ok (foldl (fun db k => delete k db) db l)
  else Throw (RuntimeError "Could not update data in SQL").

(** [if (buffer.size() > bufferThreshold) { apply; clear }] *)
Definition flushUpsert (threshold : nat) (l : list (LedgerKey * LedgerEntry))
    (db : gmap LedgerKey LedgerEntry)
    : list (LedgerKey * LedgerEntry) * gmap LedgerKey LedgerEntry :=
  if (threshold <? length l)%nat then ([], bulkUpsert l db) else (l, db).
Definition flushDelete (threshold : nat) (cons : LedgerTxnConsistency) (l : list LedgerKey)
    (db : gmap LedgerKey LedgerEntry) : res (list LedgerKey * gmap LedgerKey LedgerEntry) :=
  if (threshold <? length l)%nat then db ← bulkDelete l cons db; Ok ([], db) else Ok (l, db).

(** [LedgerTxnRoot::Impl::bulkApply] *)
Definition bulkApply (b : Bleca) (threshold : nat) (cons : LedgerTxnConsistency)
    (db : gmap LedgerKey LedgerEntry) : res (Bleca * gmap LedgerKey LedgerEntry) :=
  let '(ua, db) := flushUpsert threshold (mAccountsToUpsert b) db in
  '(da, db) ← flushDelete threshold cons (mAccountsToDelete b) db;
  let '(ut, db) := flushUpsert threshold (mTrustLinesToUpsert b) db in
  '(dt, db) ← flushDelete threshold cons (mTrustLinesToDelete b) db;
  let '(uo, db) := flushUpsert threshold (mOffersToUpsert b) db in
  '(do_, db) ← flushDelete threshold cons (mOffersToDelete b) db;
  let '(ud, db) := flushUpsert threshold (mAccountDataToUpsert b) db in
  '(dd, db) ← flushDelete threshold cons (mAccountDataToDelete b) db;
  Ok (mkBleca ua da ud dd uo do_ ut dt, db).

Definition LEDGER_ENTRY_BATCH_COMMIT_SIZE : nat := Z.to_nat 4095.

(** the loop of [LedgerTxnRoot::Impl::commitChild] *)
Fixpoint root_commit_loop (iter : list (LedgerKey * option LedgerEntry)) (b : Bleca)
    (cons : LedgerTxnConsistency) (db : gmap LedgerKey LedgerEntry)
    : res (gmap LedgerKey LedgerEntry) :=
  match iter with
  | [] => Ok db
  | kv :: iter' =>
      let b := accumulate kv b in
      let bufferThreshold :=
        match iter' with [] => 0%nat | _ => LEDGER_ENTRY_BATCH_COMMIT_SIZE end in
      '(b, db) ← bulkApply b bufferThreshold cons db;
      root_commit_loop iter' b cons db
  end.

(** [commitChild] of the parent; an exception while the entries are written is
    fatal *)
Definition commitChild (s : Store) (iter : list (LedgerKey * option LedgerEntry))
    (cons : LedgerTxnConsistency) (childHeader : LedgerHeader) : res Store :=
  match s with
  | Root r =>
      db ← root_commit_loop iter emptyBleca cons (mDatabase r);
      Ok (Root (mkRootImpl db childHeader false))
  | Txn p i =>
      Ok (Txn p (set_mChild false (set_mHeader childHeader
                  (set_mConsistency (joinConsistencyLevels (mConsistency i) cons)
                    (set_mEntry (commit_entries p iter (mEntry i)) i)))))
  end.

(** [LedgerTxn::commit]: the transaction is gone, its parent remains *)
Definition commit (s : Store) : res Store :=
  on_txn s (fun p i =>
    '(p, _) ← thenSeal i (fun entries =>
                commitChild p (map_to_list entries) (mConsistency i) (mHeader i));
    Ok p).

(** ** Rolling back *)

Definition rollbackChild (s : Store) : Store :=
  match s with
  | Root r => Root (mkRootImpl (mDatabase r) (rt_header r) false)
  | Txn p i => Txn p (set_mChild false i)
  end.

(** [LedgerTxn::rollback] of the innermost transaction *)
Definition rollback (s : Store) : res Store :=
  on_txn s (fun p _ => Ok (rollbackChild p)).

(** ** Queries over the offers *)

Definition is_offer_key (k : LedgerKey) : bool :=
  match k with KeyOffer _ _ => true | _ => false end.

Fixpoint getAllOffers (s : Store) : gmap LedgerKey LedgerEntry :=
  match s with
  | Root r => filter (fun kv => is_offer_key (fst kv) = true) (mDatabase r)
  | Txn p i =>
      map_fold (fun key entry offers =>
          if is_offer_key key then
            match entry with
            | None => delete key offers
            | Some e => <[key := e]> offers
            end
          else offers)
        (getAllOffers p) (mEntry i)
  end.

(** the test of [getOffersByAccountAndAsset] *)
Definition offer_of (account : AccountID) (asset : Asset) (e : LedgerEntry) : bool :=
  match le_data e with
  | OFFER oe =>
      (oe_sellerID oe =? account)
      && (bool_decide (oe_selling oe = asset) || bool_decide (oe_buying oe = asset))
  | _ => false
  end.

(** the query of the root refuses the native asset *)
Fixpoint getOffersByAccountAndAsset (s : Store) (account : AccountID) (asset : Asset)
    : res (gmap LedgerKey LedgerEntry) :=
  match s with
  | Root r =>
      if is_native asset then Throw (RuntimeError "Invalid asset type")
      else Ok (filter (fun kv => is_offer_key (fst kv) && offer_of account asset (snd kv) = true)
                 (mDatabase r))
  | Txn p i =>
      offers ← getOffersByAccountAndAsset p account asset;
      Ok (map_fold (fun key entry offers =>
              if is_offer_key key then
                match entry with
                | None => delete key offers
                | Some e => if offer_of account asset e then <[key := e]> offers
                            else delete key offers
                end
              else offers)
            offers (mEntry i))
  end.

(** load a list of keys in order *)
Fixpoint load_all (s : Store) (keys : list LedgerKey) : res (list LedgerEntry * Store) :=
  match keys with
  | [] => Ok ([], s)
  | k :: keys' =>
      '(e, s) ← load s k;
      '(es, s) ← load_all s keys';
      Ok (option_list e ++ es, s)
  end.

(** the loop of [loadAllOffers]: [offersByAccount[sellerID].emplace_back(load(key))] *)
Fixpoint load_by_account (s : Store) (keys : list LedgerKey)
    (offersByAccount : gmap AccountID (list LedgerEntry))
    : res (gmap AccountID (list LedgerEntry) * Store) :=
  match keys with
  | [] => Ok (offersByAccount, s)
  | KeyOffer sellerID offerID :: keys' =>
      '(e, s) ← load s (KeyOffer sellerID offerID);
      load_by_account s keys'
        (<[sellerID := default [] (offersByAccount !! sellerID) ++ option_list e]> offersByAccount)
  | _ :: _ => Throw XdrWrongUnion
  end.

Definition loadAllOffers (s : Store) : res (gmap AccountID (list LedgerEntry) * Store) :=
  on_txn s (fun _ i =>
    _ ← throwIfSealed i;
    _ ← throwIfChild i;
    load_by_account s (map fst (map_to_list (getAllOffers s))) ∅).

Definition loadOffersByAccountAndAsset (s : Store) (account : AccountID) (asset : Asset)
    : res (list LedgerEntry * Store) :=
  on_txn s (fun _ i =>
    _ ← throwIfSealed i;
    _ ← throwIfChild i;
    offers ← getOffersByAccountAndAsset s account asset;
    load_all s (map fst (map_to_list offers))).

(** ** The entries that a store holds *)

(** recorded entries over the entries of the parent *)
Definition override (d : EntryMap) (m : gmap LedgerKey LedgerEntry) : gmap LedgerKey LedgerEntry :=
  merge (fun o e => match o with Some x => x | None => e end) d m.

Fixpoint view (s : Store) : gmap LedgerKey LedgerEntry :=
  match s with
  | Root r => mDatabase r
  | Txn p i => override (mEntry i) (view p)
  end.

Lemma lookup_override d m k :
  override d m !! k = match d !! k with Some x => x | None => m !! k end.
Proof. unfold override. rewrite lookup_merge. by destruct (d !! k), (m !! k). Qed.

Lemma getNewestVersion_view s k : getNewestVersion s k = view s !! k.
Proof.
  induction s as [r|p IH i]; [done|]. cbn. rewrite lookup_override.
  by destruct (mEntry i !! k).
Qed.

Lemma override_insert d m k e :
  override (<[k := Some e]> d) m = <[k := e]> (override d m).
Proof.
  apply map_eq. intros k'. rewrite lookup_override. destruct (decide (k = k')) as [->|].
  - by rewrite !lookup_insert_eq.
  - by rewrite !lookup_insert_ne, lookup_override.
Qed.

Lemma override_erase d m k :
  override (<[k := None]> d) m = delete k (override d m).
Proof.
  apply map_eq. intros k'. rewrite lookup_override. destruct (decide (k = k')) as [->|].
  - by rewrite lookup_insert_eq, lookup_delete_eq.
  - by rewrite lookup_insert_ne, lookup_delete_ne, lookup_override.
Qed.

Lemma override_forget d m k :
  m !! k = None -> override (delete k d) m = delete k (override d m).
Proof.
  intros Hk. apply map_eq. intros k'. rewrite lookup_override.
  destruct (decide (k = k')) as [->|].
  - by rewrite !lookup_delete_eq.
  - by rewrite !lookup_delete_ne, lookup_override.
Qed.

Lemma override_idem d m k e :
  override d m !! k = Some e -> override (<[k := Some e]> d) m = override d m.
Proof. intros H. by rewrite override_insert, insert_id. Qed.

(** entries are stored under their own key *)
Definition keys_ok (m : gmap LedgerKey LedgerEntry) : Prop :=
  forall k e, m !! k = Some e -> LedgerEntryKey e = k.

(** ** Queries and the view *)

(** folding recorded entries into a map, for the keys that are selected *)
Lemma fold_entries_lookup (sel : LedgerKey -> bool) (keep : LedgerEntry -> bool)
    (d : EntryMap) (m : gmap LedgerKey LedgerEntry) k :
  map_fold (fun key entry offers =>
      if sel key then
        match entry with
        | None => delete key offers
        | Some e => if keep e then <[key := e]> offers else delete key offers
        end
      else offers) m d !! k =
  match d !! k with
  | Some x => if sel k then (match x with Some e => if keep e then Some e else None | None => None end)
              else m !! k
  | None => m !! k
  end.
Proof.
  apply (map_fold_weak_ind (fun r d => r !! k = match d !! k with
    | Some x => if sel k then (match x with Some e => if keep e then Some e else None | None => None end)
                else m !! k
    | None => m !! k
    end)); [by rewrite lookup_empty|].
  intros key x d' r Hk IH. destruct (decide (key = k)) as [->|Hne].
  - rewrite lookup_insert_eq. rewrite Hk in IH. destruct (sel k); [|done].
    destruct x as [e|]; [destruct (keep e)|]; by rewrite ?lookup_insert_eq, ?lookup_delete_eq.
  - rewrite lookup_insert_ne, <- IH by done. destruct (sel key); [|done].
    destruct x as [e|]; [destruct (keep e)|]; by rewrite ?lookup_insert_ne, ?lookup_delete_ne.
Qed.

Lemma lookup_filter_bool (f : LedgerKey * LedgerEntry -> bool) (m : gmap LedgerKey LedgerEntry) k :
  filter (fun kv => f kv = true) m !! k =
  match m !! k with Some e => if f (k, e) then Some e else None | None => None end.
Proof.
  rewrite map_lookup_filter. destruct (m !! k) as [e|]; [|done]. cbn.
  destruct (decide (f (k, e) = true)) as [E|E].
  - by rewrite option_guard_True, E.
  - rewrite option_guard_False by done. by destruct (f (k, e)).
Qed.

Lemma getAllOffers_view s :
  getAllOffers s = filter (fun kv => is_offer_key (fst kv) = true) (view s).
Proof.
  induction s as [r|p IH i]; [done|]. apply map_eq. intros k. cbn [getAllOffers view].
  pose proof (fold_entries_lookup is_offer_key (fun _ => true) (mEntry i) (getAllOffers p) k) as E.
  cbn beta iota in E. rewrite E, IH.
  rewrite !(lookup_filter_bool (fun kv => is_offer_key (fst kv))), lookup_override. cbn [fst].
  by destruct (mEntry i !! k) as [[e|]|], (view p !! k), (is_offer_key k).
Qed.

Lemma getOffersByAccountAndAsset_view s account asset :
  is_native asset = false ->
  getOffersByAccountAndAsset s account asset =
  Ok (filter (fun kv => is_offer_key (fst kv) && offer_of account asset (snd kv) = true) (view s)).
Proof.
  intros Hn. induction s as [r|p IH i]; cbn [getOffersByAccountAndAsset view]; [by rewrite Hn|].
  rewrite IH, bind_ok. f_equal. apply map_eq. intros k.
  rewrite (fold_entries_lookup is_offer_key (offer_of account asset)).
  rewrite !(lookup_filter_bool (fun kv => is_offer_key (fst kv) && offer_of account asset (snd kv))).
  rewrite lookup_override. cbn [fst snd].
  by destruct (mEntry i !! k) as [[e|]|], (view p !! k), (is_offer_key k).
Qed.

(** ** The invariant of a chain of transactions *)

Record impl_ok (p : Store) (i : Impl) : Prop := {
  io_keys : forall k e, mEntry i !! k = Some (Some e) -> LedgerEntryKey e = k;
  io_exact : mConsistency i = EXACT ->
    forall k, mEntry i !! k = Some None -> view p !! k <> None;
  io_active : forall k, mActive i !! k = Some true -> exists e, mEntry i !! k = Some (Some e);
  io_sealed : mIsSealed i = true -> mActive i = ∅ /\ mActiveHeader i = false /\ mChild i = false;
  io_child : mChild i = true -> mActive i = ∅ /\ mActiveHeader i = false
}.

Definition has_child (s : Store) : bool :=
  match s with Root r => rt_child r | Txn _ i => mChild i end.

Fixpoint chain_ok (s : Store) : Prop :=
  match s with
  | Root r => keys_ok (mDatabase r)
  | Txn p i => chain_ok p /\ has_child p = true /\ impl_ok p i
  end.

(** the innermost transaction can be used *)
Definition opened (s : Store) : Prop :=
  match s with
  | Root _ => False
  | Txn _ i => mIsSealed i = false /\ mChild i = false
  end.

Lemma chain_keys s : chain_ok s -> keys_ok (view s).
Proof.
  induction s as [r|p IH i]; [done|]. intros (Hp & _ & Hi) k e. cbn. rewrite lookup_override.
  destruct (mEntry i !! k) as [[e'|]|] eqn:E; [|done|by apply IH].
  intros [= ->]. by eapply io_keys.
Qed.

(** recording an entry keeps the invariant, whatever happens to its handle *)
Lemma impl_ok_record p i k e act :
  impl_ok p i -> mIsSealed i = false -> mChild i = false -> LedgerEntryKey e = k ->
  (forall k', act !! k' = Some true -> k' = k \/ mActive i !! k' = Some true) ->
  impl_ok p (set_mEntry (<[k := Some e]> (mEntry i)) (set_mActive act i)).
Proof.
  intros [Hk Hx Ha _ _] Hs Hc He Hact. split; cbn; try congruence.
  - intros k' e'. rewrite lookup_insert_Some. naive_solver.
  - intros HX k'. rewrite lookup_insert_Some. intros [[_ ?]|[_ ?]]; [done|]. eauto.
  - intros k' Hk'. destruct (decide (k = k')) as [->|]; [rewrite lookup_insert_eq; eauto|].
    rewrite lookup_insert_ne by done. apply Hact in Hk' as [|]; [done|]. auto.
Qed.

(** so does dropping it together with its handle *)
Lemma impl_ok_drop p i k o :
  impl_ok p i -> mIsSealed i = false -> mChild i = false ->
  (o = Some None -> mConsistency i = EXACT -> view p !! k <> None) ->
  o = None \/ o = Some None ->
  impl_ok p (set_mActive (delete k (mActive i)) (set_mEntry (partial_alter (fun _ => o) k (mEntry i)) i)).
Proof.
  intros [Hk Hx Ha _ _] Hs Hc Ho Ho'. split; cbn; try congruence.
  - intros k' e'. destruct (decide (k = k')) as [->|].
    + rewrite lookup_partial_alter_eq. naive_solver.
    + rewrite lookup_partial_alter_ne by done. apply Hk.
  - intros HX k'. destruct (decide (k = k')) as [->|].
    + rewrite lookup_partial_alter_eq. auto.
    + rewrite lookup_partial_alter_ne by done. by apply Hx.
  - intros k'. destruct (decide (k = k')) as [->|]; [by rewrite lookup_delete_eq|].
    rewrite lookup_delete_ne, lookup_partial_alter_ne by done. apply Ha.
Qed.

Lemma set_mActive_id i : set_mActive (mActive i) i = i.
Proof. by destruct i. Qed.

Section Operations.
Variables (p : Store) (i : Impl).
Let s := Txn p i.
Hypothesis Hchain : chain_ok s.
Hypothesis Hopen : opened s.

Lemma guards_pass : throwIfSealed i = Ok tt /\ throwIfChild i = Ok tt.
Proof. destruct Hopen as [H1 H2]. unfold throwIfSealed, throwIfChild. by rewrite H1, H2. Qed.

(** what an operation leaves: a usable chain over the same parent and header *)
Definition stays (s' : Store) (m : gmap LedgerKey LedgerEntry) : Prop :=
  exists i', s' = Txn p i' /\ chain_ok s' /\ opened s' /\ view s' = m /\
    mHeader i' = mHeader i /\ mShouldUpdateLastModified i' = mShouldUpdateLastModified i.

Lemma stays_intro i' m :
  impl_ok p i' -> mIsSealed i' = false -> mChild i' = false ->
  override (mEntry i') (view p) = m -> mHeader i' = mHeader i ->
  mShouldUpdateLastModified i' = mShouldUpdateLastModified i -> stays (Txn p i') m.
Proof.
  intros Hi Hs Hc Hv Hh Hu. destruct Hchain as (Hp & Hch & _).
  exists i'. split; [done|]. split; [done|]. split; [done|]. split; [done|]. done.
Qed.

Lemma stays_same m : view s = m -> stays s m.
Proof. intros <-. apply stays_intro; [apply Hchain|apply Hopen|apply Hopen|done..]. Qed.

Lemma stays_record e act :
  (forall k', act !! k' = Some true -> k' = LedgerEntryKey e \/ mActive i !! k' = Some true) ->
  stays (Txn p (set_mEntry (<[LedgerEntryKey e := Some e]> (mEntry i)) (set_mActive act i)))
    (<[LedgerEntryKey e := e]> (view s)).
Proof.
  intros Hact. destruct Hchain as (Hp & Hc & Hi). destruct Hopen as [H1 H2].
  apply stays_intro; try done; [by apply impl_ok_record|]. apply override_insert.
Qed.

Lemma create_ok e :
  match view s !! LedgerEntryKey e with
  | Some _ => create s e = Throw (RuntimeError "Key already exists")
  | None => exists s', create s e = Ok s' /\ stays s' (<[LedgerEntryKey e := e]> (view s))
  end.
Proof.
  destruct guards_pass as [G1 G2]. unfold create, on_txn. cbn [s].
  rewrite G1, G2, !bind_ok. fold s. rewrite getNewestVersion_view.
  destruct (view s !! LedgerEntryKey e) eqn:E; [done|].
  eexists. split; [reflexivity|]. apply stays_record. intros k'.
  rewrite lookup_insert_Some. naive_solver.
Qed.

Lemma createOrUpdateWithoutLoading_ok e :
  match mActive i !! LedgerEntryKey e with
  | Some _ => createOrUpdateWithoutLoading s e = Throw (RuntimeError "Key is already active")
  | None => exists s', createOrUpdateWithoutLoading s e = Ok s' /\
              stays s' (<[LedgerEntryKey e := e]> (view s))
  end.
Proof.
  destruct guards_pass as [G1 G2]. unfold createOrUpdateWithoutLoading, on_txn. cbn [s].
  rewrite G1, G2, !bind_ok. destruct (mActive i !! LedgerEntryKey e) eqn:E; [done|].
  eexists. split; [reflexivity|]. pose proof (stays_record e (mActive i)) as H.
  rewrite set_mActive_id in H. apply H. auto.
Qed.

Lemma erase_ok k :
  match view s !! k with
  | None => erase s k = Throw (RuntimeError "Key does not exist")
  | Some _ => exists s', erase s k = Ok s' /\ stays s' (delete k (view s))
  end.
Proof.
  destruct guards_pass as [G1 G2]. unfold erase, on_txn. cbn [s].
  rewrite G1, G2, !bind_ok. fold s. rewrite !getNewestVersion_view.
  destruct (view s !! k) eqn:E; [|done].
  destruct Hchain as (Hp & Hc & Hi). destruct Hopen as [H1 H2].
  eexists. split; [reflexivity|]. destruct (view p !! k) eqn:Ep; apply stays_intro; try done.
  - apply (impl_ok_drop p i k (Some None)); try done; [congruence|auto].
  - apply override_erase.
  - apply (impl_ok_drop p i k None); try done. auto.
  - by apply override_forget.
Qed.

Lemma eraseWithoutLoading_ok k :
  exists s', eraseWithoutLoading s k = Ok s' /\ stays s' (delete k (view s)).
Proof.
  destruct guards_pass as [G1 G2]. unfold eraseWithoutLoading, on_txn. cbn [s].
  rewrite G1, G2, !bind_ok. destruct Hchain as (Hp & Hc & Hi). destruct Hopen as [H1 H2].
  eexists. split; [reflexivity|]. apply stays_intro; try done.
  - assert (H : impl_ok p (set_mActive (delete k (mActive i))
      (set_mEntry (<[k := None]> (mEntry i)) (set_mConsistency EXTRA_DELETES i)))); [|exact H].
    apply (impl_ok_drop p (set_mConsistency EXTRA_DELETES i) k (Some None)); try done; [|auto].
    destruct Hi as [? _ ? ? ?]. by split.
  - cbn. apply override_erase.
Qed.

Lemma load_ok k :
  match mActive i !! k with
  | Some _ => load s k = Throw (RuntimeError "Key is active")
  | None => exists s', load s k = Ok (view s !! k, s') /\ stays s' (view s)
  end.
Proof.
  destruct guards_pass as [G1 G2]. unfold load, on_txn. cbn [s].
  rewrite G1, G2, !bind_ok. fold s. rewrite getNewestVersion_view.
  destruct (mActive i !! k); [done|]. destruct (view s !! k) as [e|] eqn:E.
  - pose proof (chain_keys s Hchain k e E) as <-.
    eexists. split; [reflexivity|].
    destruct (stays_record e (<[LedgerEntryKey e := true]> (mActive i))) as (i' & E' & H1 & H2 & H3 & H4).
    { intros k'. rewrite lookup_insert_Some. naive_solver. }
    exists i'. rewrite (insert_id (view s)) in H3 by done. auto.
  - exists s. split; [done|]. by apply stays_same.
Qed.

Lemma loadWithoutRecord_ok k :
  match mActive i !! k with
  | Some _ => loadWithoutRecord s k = Throw (RuntimeError "Key is active")
  | None => exists s', loadWithoutRecord s k = Ok (view s !! k, s') /\ stays s' (view s)
  end.
Proof.
  destruct guards_pass as [G1 G2]. unfold loadWithoutRecord, on_txn. cbn [s].
  rewrite G1, G2, !bind_ok. fold s. rewrite getNewestVersion_view.
  destruct (mActive i !! k) eqn:Ea; [done|]. destruct (view s !! k) as [e|] eqn:E.
  - eexists. split; [reflexivity|]. destruct Hchain as (Hp & Hc & Hi). destruct Hopen as [H1 H2].
    apply stays_intro; try done. destruct Hi as [? ? Ha ? ?]. split; cbn; try done; try congruence.
    intros k'. rewrite lookup_insert_Some. intros [[_ ?]|[_ ?]]; [done|]. by apply Ha.
  - exists s. split; [done|]. by apply stays_same.
Qed.

Lemma set_current_ok k e :
  LedgerEntryKey e = k ->
  match mActive i !! k with
  | Some true => exists s', set_current s k e = Ok s' /\ stays s' (<[k := e]> (view s))
  | _ => set_current s k e = Throw (RuntimeError "LedgerTxnEntry not active")
  end.
Proof.
  intros <-. unfold set_current, on_txn. cbn [s].
  destruct (mActive i !! LedgerEntryKey e) as [[]|] eqn:E; try done.
  eexists. split; [reflexivity|]. pose proof (stays_record e (mActive i)) as H.
  rewrite set_mActive_id in H. apply H. auto.
Qed.
End Operations.

(** ** Applying a list of changes *)

Definition apply_one (m : gmap LedgerKey LedgerEntry) (kv : LedgerKey * option LedgerEntry)
    : gmap LedgerKey LedgerEntry :=
  match snd kv with
  | Some e => <[fst kv := e]> m
  | None => delete (fst kv) m
  end.

Definition apply_list (m : gmap LedgerKey LedgerEntry) (l : list (LedgerKey * option LedgerEntry))
    : gmap LedgerKey LedgerEntry := foldl apply_one m l.

Lemma lookup_apply_one m kv k :
  apply_one m kv !! k = if decide (fst kv = k) then snd kv else m !! k.
Proof.
  destruct kv as [k0 [e|]]; cbn; case_decide; subst;
    by rewrite ?lookup_insert_eq, ?lookup_insert_ne, ?lookup_delete_eq, ?lookup_delete_ne.
Qed.

Lemma lookup_apply_list m l k :
  NoDup l.*1 ->
  apply_list m l !! k =
  match (list_to_map l : EntryMap) !! k with Some x => x | None => m !! k end.
Proof.
  revert m. induction l as [|[k0 x] l IH]; intros m; cbn [fmap list_fmap fst]; [done|].
  rewrite NoDup_cons. intros [Hk Hn]. unfold apply_list in *. cbn [foldl].
  rewrite IH by done. cbn [list_to_map foldr fst snd uncurry].
  rewrite lookup_apply_one. cbn [fst snd]. case_decide as E.
  - subst k0. rewrite lookup_insert_eq.
    by rewrite not_elem_of_list_to_map_1.
  - by rewrite lookup_insert_ne.
Qed.

Lemma apply_list_override m (d : EntryMap) : apply_list m (map_to_list d) = override d m.
Proof.
  apply map_eq. intros k. rewrite lookup_apply_list by apply NoDup_fst_map_to_list.
  by rewrite list_to_map_to_list, lookup_override.
Qed.

Lemma apply_list_perm m l1 l2 : NoDup l1.*1 -> l1 ≡ₚ l2 -> apply_list m l1 = apply_list m l2.
Proof.
  intros Hn Hp. apply map_eq. intros k.
  rewrite !lookup_apply_list by (done || by rewrite <- Hp).
  by rewrite (list_to_map_proper l1 l2) by done.
Qed.

Lemma apply_list_app m l1 l2 : apply_list m (l1 ++ l2) = apply_list (apply_list m l1) l2.
Proof. apply foldl_app. Qed.

(** ** Committing to a transaction *)

Lemma commit_entries_view p iter d :
  override (commit_entries p iter d) (view p) = apply_list (override d (view p)) iter.
Proof.
  revert d. induction iter as [|[k [e|]] iter IH]; intros d; [done| |]; cbn [commit_entries].
  - rewrite IH, override_insert. done.
  - rewrite getNewestVersion_view. destruct (view p !! k) eqn:E.
    + rewrite IH, override_erase. done.
    + rewrite IH, override_forget by done. done.
Qed.

Lemma commit_entries_some p iter d k e :
  commit_entries p iter d !! k = Some (Some e) ->
  d !! k = Some (Some e) \/ (k, Some e) ∈ iter.
Proof.
  revert d. induction iter as [|[k0 x] iter IH]; intros d; cbn [commit_entries]; [auto|].
  intros H. apply IH in H as [H|H]; [|right; set_solver]. destruct x as [e0|].
  - apply lookup_insert_Some in H as [[-> [= ->]]|[_ ?]]; [right; set_solver|auto].
  - destruct (getNewestVersion p k0).
    + apply lookup_insert_Some in H as [[_ ?]|[_ ?]]; [done|auto].
    + apply lookup_delete_Some in H as [_ ?]. auto.
Qed.

Lemma commit_entries_none p iter d k :
  commit_entries p iter d !! k = Some None -> d !! k = Some None \/ view p !! k <> None.
Proof.
  revert d. induction iter as [|[k0 x] iter IH]; intros d; cbn [commit_entries]; [auto|].
  intros H. apply IH in H as [H|H]; [|auto]. destruct x as [e0|].
  - apply lookup_insert_Some in H as [[_ ?]|[_ ?]]; [done|auto].
  - rewrite getNewestVersion_view in H. destruct (view p !! k0) eqn:E.
    + apply lookup_insert_Some in H as [[-> _]|[_ ?]]; [right; congruence|auto].
    + apply lookup_delete_Some in H as [_ ?]. auto.
Qed.

(** ** Committing to the root *)

Definition up (kv : LedgerKey * LedgerEntry) : LedgerKey * option LedgerEntry :=
  (fst kv, Some (snd kv)).
Definition del (k : LedgerKey) : LedgerKey * option LedgerEntry := (k, None).

(** everything an accumulator holds *)
Definition held (b : Bleca) : list (LedgerKey * option LedgerEntry) :=
  map up (mAccountsToUpsert b) ++ map del (mAccountsToDelete b) ++
  map up (mTrustLinesToUpsert b) ++ map del (mTrustLinesToDelete b) ++
  map up (mOffersToUpsert b) ++ map del (mOffersToDelete b) ++
  map up (mAccountDataToUpsert b) ++ map del (mAccountDataToDelete b).

Lemma accumulate_held kv b : held (accumulate kv b) ≡ₚ kv :: held b.
Proof.
  destruct b, kv as [[] [e|]]; unfold held; cbn; rewrite ?map_app; cbn; solve_Permutation.
Qed.

Lemma bulkUpsert_apply l db : bulkUpsert l db = apply_list db (map up l).
Proof. unfold bulkUpsert, apply_list. by rewrite foldl_fmap. Qed.

Lemma bulkDelete_apply l cons db :
  (cons = EXACT -> forall k, k ∈ l -> is_Some (db !! k)) ->
  bulkDelete l cons db = Ok (apply_list db (map del l)).
Proof.
  intros H. unfold bulkDelete, apply_list. rewrite foldl_fmap.
  destruct (decide (cons = EXACT)) as [->|Hc].
  - rewrite (proj2 (forallb_forall _ l)); [done|]. intros k Hk%list_elem_of_In.
    apply bool_decide_eq_true. auto.
  - rewrite (bool_decide_true (cons <> EXACT)) by done. by rewrite orb_true_r.
Qed.

Lemma apply_list_other m l k : k ∉ l.*1 -> apply_list m l !! k = m !! k.
Proof.
  revert m. induction l as [|[k0 x] l IH]; intros m; [done|].
  cbn [fmap list_fmap fst]. rewrite not_elem_of_cons. intros [H1 H2].
  unfold apply_list in *. cbn [foldl]. rewrite IH, lookup_apply_one by done. cbn.
  by rewrite decide_False.
Qed.

(** the eight buffers as one list *)
Inductive segment := SegUpsert (l : list (LedgerKey * LedgerEntry)) | SegDelete (l : list LedgerKey).

Definition seg_held (g : segment) : list (LedgerKey * option LedgerEntry) :=
  match g with SegUpsert l => map up l | SegDelete l => map del l end.

Definition flush_seg (thr : nat) (cons : LedgerTxnConsistency) (g : segment)
    (db : gmap LedgerKey LedgerEntry) : res (segment * gmap LedgerKey LedgerEntry) :=
  match g with
  | SegUpsert l => let '(l, db) := flushUpsert thr l db in Ok (SegUpsert l, db)
  | SegDelete l => '(l, db) ← flushDelete thr cons l db; Ok (SegDelete l, db)
  end.

Fixpoint flush_segs (thr : nat) (cons : LedgerTxnConsistency) (gs : list segment)
    (db : gmap LedgerKey LedgerEntry) : res (list segment * gmap LedgerKey LedgerEntry) :=
  match gs with
  | [] => Ok ([], db)
  | g :: gs' =>
      '(g, db) ← flush_seg thr cons g db;
      '(gs', db) ← flush_segs thr cons gs' db;
      Ok (g :: gs', db)
  end.

Definition segments (b : Bleca) : list segment :=
  [SegUpsert (mAccountsToUpsert b); SegDelete (mAccountsToDelete b);
   SegUpsert (mTrustLinesToUpsert b); SegDelete (mTrustLinesToDelete b);
   SegUpsert (mOffersToUpsert b); SegDelete (mOffersToDelete b);
   SegUpsert (mAccountDataToUpsert b); SegDelete (mAccountDataToDelete b)].

Lemma held_segments b : held b = concat (map seg_held (segments b)).
Proof. unfold held. cbn. by rewrite app_nil_r. Qed.

Lemma bulkApply_segments b thr cons db gs db' :
  flush_segs thr cons (segments b) db = Ok (gs, db') ->
  exists b', segments b' = gs /\ bulkApply b thr cons db = Ok (b', db').
Proof.
  unfold bulkApply, segments, flush_segs, flush_seg, mbind, res_bind.
  repeat (cbn iota; match goal with
  | |- context [flushUpsert thr ?l ?d] => destruct (flushUpsert thr l d)
  | |- context [flushDelete thr cons ?l ?d] => destruct (flushDelete thr cons l d) as [[? ?]|]
  end; try done).
  intros [= <- <-]. eexists. split; [|reflexivity]. reflexivity.
Qed.

Lemma flush_seg_ok thr cons g db :
  (cons = EXACT -> forall k, (k, None) ∈ seg_held g -> is_Some (db !! k)) ->
  exists fl g', flush_seg thr cons g db = Ok (g', apply_list db fl) /\
    seg_held g = fl ++ seg_held g' /\ (thr = 0%nat -> seg_held g' = []).
Proof.
  intros Hx. destruct g as [l|l]; cbn [flush_seg].
  - unfold flushUpsert. destruct (Nat.ltb_spec thr (length l)).
    + exists (map up l), (SegUpsert []). rewrite bulkUpsert_apply. split; [done|].
      cbn. by rewrite app_nil_r.
    + exists [], (SegUpsert l). split; [done|]. split; [done|].
      intros ->. destruct l; [done|cbn in *; lia].
  - unfold flushDelete. destruct (Nat.ltb_spec thr (length l)).
    + exists (map del l), (SegDelete []). rewrite bulkDelete_apply.
      { split; [done|]. cbn. by rewrite app_nil_r. }
      intros HE k Hk. apply Hx; [done|]. apply list_elem_of_In. cbn. apply in_map_iff.
      exists k. split; [done|]. by apply list_elem_of_In.
    + exists [], (SegDelete l). split; [done|]. split; [done|].
      intros ->. destruct l; [done|cbn in *; lia].
Qed.

Lemma flush_segs_ok thr cons gs db :
  NoDup (concat (map seg_held gs)).*1 ->
  (cons = EXACT -> forall k, (k, None) ∈ concat (map seg_held gs) -> is_Some (db !! k)) ->
  exists fl gs', flush_segs thr cons gs db = Ok (gs', apply_list db fl) /\
    concat (map seg_held gs) ≡ₚ fl ++ concat (map seg_held gs') /\
    (thr = 0%nat -> concat (map seg_held gs') = []).
Proof.
  revert db. induction gs as [|g gs IH]; intros db Hn Hx.
  { exists [], []. done. }
  cbn [map concat] in *. rewrite fmap_app in Hn. apply NoDup_app in Hn as (Hn1 & Hd & Hn2).
  destruct (flush_seg_ok thr cons g db) as (fl1 & g' & E1 & Hh1 & H01).
  { intros HE k Hk. apply Hx; [done|]. set_solver. }
  destruct (IH (apply_list db fl1)) as (fl2 & gs' & E2 & Hh2 & H02); [done| |].
  { intros HE k Hk. rewrite apply_list_other; [apply Hx; [done|set_solver]|].
    intros Hin. apply (Hd k).
    - rewrite Hh1, fmap_app. set_solver.
    - apply list_elem_of_fmap. exists (k, None). by split. }
  exists (fl1 ++ fl2), (g' :: gs'). cbn [flush_segs]. rewrite E1, bind_ok, E2, bind_ok.
  split; [by rewrite apply_list_app|]. cbn [map concat]. split.
  - rewrite Hh1, Hh2. solve_Permutation.
  - intros H0. by rewrite H01, H02.
Qed.

(** the root ends up with every change applied *)
Lemma root_commit_loop_ok iter b cons db :
  NoDup (held b ++ iter).*1 ->
  (cons = EXACT -> forall k, (k, None) ∈ held b ++ iter -> is_Some (db !! k)) ->
  (iter = [] -> held b = []) ->
  root_commit_loop iter b cons db = Ok (apply_list db (held b ++ iter)).
Proof.
  revert b db. induction iter as [|kv iter IH]; intros b db Hn Hx H0; cbn [root_commit_loop].
  { by rewrite H0. }
  assert (Hp : held b ++ kv :: iter ≡ₚ held (accumulate kv b) ++ iter)
    by (rewrite accumulate_held; solve_Permutation).
  set (thr := match iter with [] => 0%nat | _ => LEDGER_ENTRY_BATCH_COMMIT_SIZE end).
  assert (Hn' : NoDup (held (accumulate kv b) ++ iter).*1) by (by rewrite <- Hp).
  pose proof Hn' as Hn2. rewrite fmap_app in Hn2. apply NoDup_app in Hn2 as (Hn2 & Hd & Hn3).
  destruct (flush_segs_ok thr cons (segments (accumulate kv b)) db) as (fl & gs & E & Hh & Hz);
    rewrite <- ?held_segments in *; [done| |].
  { intros HE k Hk. apply Hx; [done|]. rewrite Hp. set_solver. }
  destruct (bulkApply_segments _ _ _ _ _ _ E) as (b' & Hb' & ->). subst gs.
  rewrite <- held_segments in *. rewrite bind_ok. rewrite IH.
  - f_equal. rewrite <- apply_list_app. apply apply_list_perm.
    + rewrite app_assoc, <- Hh. done.
    + by rewrite app_assoc, <- Hh, Hp.
  - eapply (NoDup_app (fl.*1)). rewrite <- fmap_app, app_assoc, <- Hh. done.
  - intros HE k Hk.
    assert (Hdis : NoDup (fl.*1 ++ (held b' ++ iter).*1))
      by (rewrite <- fmap_app, app_assoc, <- Hh; done).
    apply NoDup_app in Hdis as (_ & Hdis & _). rewrite apply_list_other.
    + apply Hx; [done|]. rewrite Hp, Hh. set_solver.
    + intros Hin. apply (Hdis k Hin), list_elem_of_fmap. exists (k, None). by split.
  - intros ->. by apply Hz.
Qed.

(** ** Commit and rollback of the innermost transaction *)

(** an entry as it is sealed *)
Definition stamp (i : Impl) (e : LedgerEntry) : LedgerEntry :=
  if mShouldUpdateLastModified i then set_lastModifiedLedgerSeq (ledgerSeq (mHeader i)) e else e.

Definition sealed_entries (i : Impl) : EntryMap :=
  if mIsSealed i then mEntry i
  else (fun x : option LedgerEntry => stamp i <$> x) <$> mEntry i.

Lemma stamp_key i e : LedgerEntryKey (stamp i e) = LedgerEntryKey e.
Proof. unfold stamp. by destruct (mShouldUpdateLastModified i). Qed.

Lemma maybeUpdateLastModified_eq i :
  mIsSealed i = false -> mChild i = false -> maybeUpdateLastModified i = Ok (sealed_entries i).
Proof.
  intros Hs Hc. unfold maybeUpdateLastModified, sealed_entries, throwIfSealed, throwIfChild.
  rewrite Hs, Hc, !bind_ok. done.
Qed.

Lemma thenSeal_eq {A} i (f : EntryMap -> res A) a :
  mChild i = false -> f (sealed_entries i) = Ok a ->
  exists i', thenSeal i f = Ok (a, i') /\ mEntry i' = sealed_entries i /\ mIsSealed i' = true /\
    mHeader i' = mHeader i /\ mChild i' = false /\ mActive i' = (if mIsSealed i then mActive i else ∅) /\
    mActiveHeader i' = (if mIsSealed i then mActiveHeader i else false) /\
    mConsistency i' = mConsistency i.
Proof.
  intros Hc Hf. unfold thenSeal. destruct (mIsSealed i) eqn:Hs; cbn [negb].
  - unfold sealed_entries in *. rewrite Hs in Hf |- *. rewrite Hf, bind_ok. exists i. auto 10.
  - rewrite maybeUpdateLastModified_eq, bind_ok, Hf, bind_ok by done.
    eexists. split; [reflexivity|]. auto 10.
Qed.

Lemma sealed_entries_some i k e :
  sealed_entries i !! k = Some (Some e) ->
  exists e', mEntry i !! k = Some (Some e') /\ LedgerEntryKey e = LedgerEntryKey e'.
Proof.
  unfold sealed_entries. destruct (mIsSealed i); [eauto|]. rewrite lookup_fmap_Some.
  intros ([e'|] & Hx & Hk); [|done]. injection Hx as <-. exists e'. by rewrite stamp_key.
Qed.

Lemma sealed_entries_none i k :
  sealed_entries i !! k = Some None -> mEntry i !! k = Some None.
Proof.
  unfold sealed_entries. destruct (mIsSealed i); [done|]. rewrite lookup_fmap_Some.
  by intros ([e'|] & Hx & Hk).
Qed.

Lemma commit_chain p i :
  chain_ok (Txn p i) -> mChild i = false ->
  exists s', commit (Txn p i) = Ok s' /\ chain_ok s' /\ has_child s' = false /\
    view s' = override (sealed_entries i) (view p) /\ getHeader s' = mHeader i.
Proof.
  intros (Hp & Hch & Hi) Hc.
  assert (Hcc : exists s', commitChild p (map_to_list (sealed_entries i)) (mConsistency i) (mHeader i) = Ok s'
    /\ chain_ok s' /\ has_child s' = false /\
    view s' = override (sealed_entries i) (view p) /\ getHeader s' = mHeader i).
  { destruct p as [r|gp ip]; cbn [commitChild].
    - rewrite root_commit_loop_ok; [|rewrite app_nil_l; apply NoDup_fst_map_to_list| |done].
      2: { intros HE k Hk. rewrite app_nil_l in Hk. apply elem_of_map_to_list in Hk.
           apply sealed_entries_none, (io_exact _ _ Hi HE) in Hk. cbn in Hk.
           by destruct (mDatabase r !! k); eauto. }
      eexists. split; [reflexivity|]. cbn. rewrite apply_list_override. repeat split.
      intros k e. rewrite lookup_override.
      destruct (sealed_entries i !! k) as [[e'|]|] eqn:E; [|done|by apply Hp].
      intros [= ->]. apply sealed_entries_some in E as (e0 & He0 & ->). by eapply io_keys.
    - eexists. split; [reflexivity|]. destruct Hp as (Hgp & Hgc & Hip). cbn in Hch.
      split; [|split; [done|split; [|done]]].
      + split; [done|]. split; [done|]. pose proof (io_child _ _ Hip Hch) as [Ha Hh].
        destruct Hip as [Hk Hx _ Hsl _]. split; cbn; try done.
        * intros k e [H|H]%commit_entries_some; [by apply Hk|].
          apply elem_of_map_to_list, sealed_entries_some in H as (e0 & He0 & ->).
          by eapply io_keys.
        * intros HE k [H|H]%commit_entries_none; [|done]. apply Hx; [|done].
          by destruct (mConsistency ip).
        * rewrite Ha. intros k. by rewrite lookup_empty.
      + cbn [view mEntry set_mChild set_mHeader set_mConsistency set_mEntry].
        by rewrite commit_entries_view, apply_list_override. }
  destruct Hcc as (s' & E & H). unfold commit, on_txn.
  destruct (thenSeal_eq i (fun entries => commitChild p (map_to_list entries) (mConsistency i)
    (mHeader i)) s' Hc E) as (i' & -> & _). rewrite bind_ok. by exists s'.
Qed.

Lemma rollback_chain p i :
  chain_ok (Txn p i) ->
  exists s', rollback (Txn p i) = Ok s' /\ chain_ok s' /\ has_child s' = false /\
    view s' = view p /\ getHeader s' = getHeader p.
Proof.
  intros (Hp & Hch & _). eexists. split; [reflexivity|].
  destruct p as [r|gp ip]; [done|]. destruct Hp as (Hgp & Hgc & Hip). cbn in Hch.
  split; [|done]. split; [done|]. split; [done|].
  pose proof (io_child _ _ Hip Hch) as [Ha Hh]. destruct Hip as [Hk Hx Hac Hsl Hcl].
  by split; cbn.
Qed.

Definition can_open (s : Store) : Prop :=
  match s with
  | Root r => rt_child r = false
  | Txn _ i => mIsSealed i = false /\ mChild i = false
  end.

Lemma newLedgerTxn_ok s upd :
  chain_ok s -> can_open s ->
  exists p i, newLedgerTxn s upd = Ok (Txn p i) /\ chain_ok (Txn p i) /\ opened (Txn p i) /\
    view p = view s /\ getHeader p = getHeader s /\ view (Txn p i) = view s /\
    mHeader i = getHeader s /\ mShouldUpdateLastModified i = upd.
Proof.
  intros Hs Ho. unfold newLedgerTxn.
  assert (E : exists p, addChild s = Ok p /\ chain_ok p /\ has_child p = true /\ view p = view s /\
    getHeader p = getHeader s).
  { destruct s as [r|p i]; cbn [addChild can_open] in *.
    - rewrite Ho. eexists. split; [reflexivity|]. done.
    - destruct Ho as [H1 H2]. unfold throwIfSealed, throwIfChild. rewrite H1, H2, !bind_ok.
      eexists. split; [reflexivity|]. destruct Hs as (Hp & Hc & [Hk Hx Ha Hsl Hcl]).
      split; [|done]. split; [done|]. split; [done|]. split; cbn; try done; congruence. }
  destruct E as (p & -> & Hp & Hc & Hv & Hh). rewrite bind_ok.
  eexists p, _. split; [reflexivity|].
  assert (Hi : impl_ok p (mkImpl ∅ ∅ (getHeader s) false false upd false EXACT)).
  { split; cbn; try done; intros; set_solver. }
  split; [done|]. split; [done|]. split; [done|]. split; [done|]. split; [|done].
  apply map_eq. intros k. cbn. rewrite lookup_override, lookup_empty. by rewrite Hv.
Qed.

(** ** Sequences of operations *)

Inductive ltx_op :=
| OpCreate (e : LedgerEntry)
| OpCreateOrUpdate (e : LedgerEntry)
| OpErase (k : LedgerKey)
| OpEraseWithoutLoading (k : LedgerKey)
| OpLoad (k : LedgerKey)
| OpLoadWithoutRecord (k : LedgerKey)
| OpSetCurrent (k : LedgerKey) (e : LedgerEntry)
| OpDeactivate (k : LedgerKey)
| OpLoadHeader
| OpSetHeader (h : LedgerHeader)
| OpDeactivateHeader.

Definition run_op (s : Store) (op : ltx_op) : res Store :=
  match op with
  | OpCreate e => create s e
  | OpCreateOrUpdate e => createOrUpdateWithoutLoading s e
  | OpErase k => erase s k
  | OpEraseWithoutLoading k => eraseWithoutLoading s k
  | OpLoad k => '(_, s) ← load s k; Ok s
  | OpLoadWithoutRecord k => '(_, s) ← loadWithoutRecord s k; Ok s
  | OpSetCurrent k e => set_current s k e
  | OpDeactivate k => deactivate s k
  | OpLoadHeader => loadHeader s
  | OpSetHeader h => set_current_header s h
  | OpDeactivateHeader => deactivateHeader s
  end.

Fixpoint run_ops (s : Store) (ops : list ltx_op) : res Store :=
  match ops with
  | [] => Ok s
  | op :: ops' => s ← run_op s op; run_ops s ops'
  end.

(** a handle is never used to change the identity of its entry *)
Definition op_ok (op : ltx_op) : Prop :=
  match op with OpSetCurrent k e => LedgerEntryKey e = k | _ => True end.

(** what an operation does to the entries and to the header *)
Definition op_entries (m : gmap LedgerKey LedgerEntry) (op : ltx_op) : gmap LedgerKey LedgerEntry :=
  match op with
  | OpCreate e | OpCreateOrUpdate e => <[LedgerEntryKey e := e]> m
  | OpErase k | OpEraseWithoutLoading k => delete k m
  | OpSetCurrent k e => <[k := e]> m
  | _ => m
  end.
Definition op_header (h : LedgerHeader) (op : ltx_op) : LedgerHeader :=
  match op with OpSetHeader h' => h' | _ => h end.

Lemma run_op_refines p i op s' :
  chain_ok (Txn p i) -> opened (Txn p i) -> op_ok op -> run_op (Txn p i) op = Ok s' ->
  exists i', s' = Txn p i' /\ chain_ok s' /\ opened s' /\
    view s' = op_entries (view (Txn p i)) op /\ mHeader i' = op_header (mHeader i) op /\
    mShouldUpdateLastModified i' = mShouldUpdateLastModified i.
Proof.
  intros Hc Ho Hop. destruct (guards_pass p i Ho) as [G1 G2].
  destruct op as [e|e|k|k|k|k|k e|k| |h|]; cbn [run_op op_entries op_header].
  - pose proof (create_ok p i Hc Ho e) as H. destruct (view _ !! _); [by rewrite H|].
    destruct H as (s1 & -> & H). by intros [= <-].
  - pose proof (createOrUpdateWithoutLoading_ok p i Hc Ho e) as H.
    destruct (mActive i !! _); [by rewrite H|]. destruct H as (s1 & -> & H). by intros [= <-].
  - pose proof (erase_ok p i Hc Ho k) as H. destruct (view _ !! _); [|by rewrite H].
    destruct H as (s1 & -> & H). by intros [= <-].
  - destruct (eraseWithoutLoading_ok p i Hc Ho k) as (s1 & -> & H). by intros [= <-].
  - pose proof (load_ok p i Hc Ho k) as H. destruct (mActive i !! _); [by rewrite H|].
    destruct H as (s1 & -> & H). by intros [= <-].
  - pose proof (loadWithoutRecord_ok p i Hc Ho k) as H. destruct (mActive i !! _); [by rewrite H|].
    destruct H as (s1 & -> & H). by intros [= <-].
  - pose proof (set_current_ok p i Hc Ho k e Hop) as H.
    destruct (mActive i !! _) as [[]|]; [|by rewrite H..].
    destruct H as (s1 & -> & H). by intros [= <-].
  - unfold deactivate, on_txn. destruct (mActive i !! k); [|done]. intros [= <-].
    destruct Hc as (Hp & Hch & [Hk Hx Ha Hsl Hcl]), Ho as [H1 H2].
    apply stays_intro; try done. split; cbn; try done; try congruence.
    intros k'. rewrite lookup_delete_Some. intros [_ ?]. auto.
  - unfold loadHeader, on_txn. rewrite G1, G2, !bind_ok. destruct (mActiveHeader i); [done|].
    intros [= <-]. destruct Hc as (Hp & Hch & [Hk Hx Ha Hsl Hcl]), Ho as [H1 H2].
    apply stays_intro; try done. split; cbn; try done; congruence.
  - unfold set_current_header, on_txn. destruct (mActiveHeader i) eqn:E; [|done].
    intros [= <-]. destruct Hc as (Hp & Hch & [Hk Hx Ha Hsl Hcl]), Ho as [H1 H2].
    eexists. split; [reflexivity|]. split; [|done]. split; [done|]. split; [done|].
    split; cbn; try done; congruence.
  - unfold deactivateHeader, on_txn. destruct (mActiveHeader i) eqn:E; [|done].
    intros [= <-]. destruct Hc as (Hp & Hch & [Hk Hx Ha Hsl Hcl]), Ho as [H1 H2].
    apply stays_intro; try done. split; cbn; try done; congruence.
Qed.

Lemma run_ops_refine ops p i s' :
  chain_ok (Txn p i) -> opened (Txn p i) -> Forall op_ok ops ->
  run_ops (Txn p i) ops = Ok s' ->
  exists i', s' = Txn p i' /\ chain_ok s' /\ opened s' /\
    view s' = foldl op_entries (view (Txn p i)) ops /\
    mHeader i' = foldl op_header (mHeader i) ops /\
    mShouldUpdateLastModified i' = mShouldUpdateLastModified i.
Proof.
  revert i. induction ops as [|op ops IH]; intros i Hc Ho Hops.
  { intros [= <-]. by exists i. }
  inversion Hops as [|? ? Hop Hops']; subst. cbn [run_ops]. intros E.
  apply bind_ok_inv in E as (s1 & E1 & E2).
  destruct (run_op_refines p i op s1 Hc Ho Hop E1) as (i1 & -> & Hc1 & Ho1 & Hv1 & Hh1 & Hu1).
  destruct (IH i1 Hc1 Ho1 Hops' E2) as (i2 & -> & Hc2 & Ho2 & Hv2 & Hh2 & Hu2).
  exists i2. split; [done|]. split; [done|]. split; [done|]. cbn [foldl].
  rewrite Hv2, Hh2, Hu2, Hv1, Hh1, Hu1. done.
Qed.

(** what is read after the commit *)
Lemma sealed_view p i k :
  mIsSealed i = false ->
  override (sealed_entries i) (view p) !! k =
  match mEntry i !! k with
  | Some x => stamp i <$> x
  | None => view p !! k
  end.
Proof.
  intros Hs. rewrite lookup_override. unfold sealed_entries. rewrite Hs, lookup_fmap.
  by destruct (mEntry i !! k).
Qed.

(** ** The theorems of the component *)

(** On a usable transaction every entry operation acts on the
    entries seen through the chain as the operation of a map, and fails
    exactly as documented: [create] refuses a key that exists and otherwise
    inserts, [erase] refuses a key that does not exist and otherwise deletes,
    loading returns the entry seen, changes nothing and refuses an active key,
    the operations without loading insert and delete blindly, and an entry can
    be changed only through a live handle.  The invariant of the chain is
    preserved. *)
Theorem entry_operations_refine_map p i :
  chain_ok (Txn p i) -> opened (Txn p i) ->
  let m := view (Txn p i) in
  (forall e, match m !! LedgerEntryKey e with
     | Some _ => create (Txn p i) e = Throw (RuntimeError "Key already exists")
     | None => exists s', create (Txn p i) e = Ok s' /\ stays p i s' (<[LedgerEntryKey e := e]> m)
     end) /\
  (forall k, match m !! k with
     | None => erase (Txn p i) k = Throw (RuntimeError "Key does not exist")
     | Some _ => exists s', erase (Txn p i) k = Ok s' /\ stays p i s' (delete k m)
     end) /\
  (forall k, match mActive i !! k with
     | Some _ => load (Txn p i) k = Throw (RuntimeError "Key is active") /\
                 loadWithoutRecord (Txn p i) k = Throw (RuntimeError "Key is active")
     | None => (exists s', load (Txn p i) k = Ok (m !! k, s') /\ stays p i s' m) /\
               (exists s', loadWithoutRecord (Txn p i) k = Ok (m !! k, s') /\ stays p i s' m)
     end) /\
  (forall e, match mActive i !! LedgerEntryKey e with
     | Some _ => createOrUpdateWithoutLoading (Txn p i) e
                 = Throw (RuntimeError "Key is already active")
     | None => exists s', createOrUpdateWithoutLoading (Txn p i) e = Ok s' /\
                 stays p i s' (<[LedgerEntryKey e := e]> m)
     end) /\
  (forall k, exists s', eraseWithoutLoading (Txn p i) k = Ok s' /\ stays p i s' (delete k m)) /\
  (forall e, match mActive i !! LedgerEntryKey e with
     | Some true => exists s', set_current (Txn p i) (LedgerEntryKey e) e = Ok s' /\
                      stays p i s' (<[LedgerEntryKey e := e]> m)
     | _ => set_current (Txn p i) (LedgerEntryKey e) e
            = Throw (RuntimeError "LedgerTxnEntry not active")
     end).
Proof.
  intros Hc Ho m. split; [intros e; by apply create_ok|].
  split; [intros k; by apply erase_ok|]. split.
  { intros k. pose proof (load_ok p i Hc Ho k) as H1.
    pose proof (loadWithoutRecord_ok p i Hc Ho k) as H2. by destruct (mActive i !! k). }
  split; [intros e; by apply createOrUpdateWithoutLoading_ok|].
  split; [intros k; by apply eraseWithoutLoading_ok|].
  intros e. by apply set_current_ok.
Qed.

(** Claim C17: nested transactions are atomic.  A child opened on a usable
    chain sees the entries and the header of its parent; after any sequence of
    operations on the child, the child sees the result of the operations;
    rolling it back leaves the parent with the entries and the header it had,
    and committing it never fails and leaves the parent, another transaction
    or the database root, with exactly the entries and the header of the child,
    except that recorded entries carry the ledger sequence of that header as
    their last modification if the child was told to update it. *)
Theorem nested_transaction_atomic s upd ops :
  chain_ok s -> can_open s -> Forall op_ok ops ->
  exists s1, newLedgerTxn s upd = Ok s1 /\ view s1 = view s /\ getHeader s1 = getHeader s /\
    forall s2, run_ops s1 ops = Ok s2 ->
      view s2 = foldl op_entries (view s) ops /\
      getHeader s2 = foldl op_header (getHeader s) ops /\
      (exists s3, rollback s2 = Ok s3 /\ chain_ok s3 /\ has_child s3 = false /\
        view s3 = view s /\ getHeader s3 = getHeader s) /\
      (exists s4, commit s2 = Ok s4 /\ chain_ok s4 /\ has_child s4 = false /\
        getHeader s4 = getHeader s2 /\
        (forall k, le_data <$> view s4 !! k = le_data <$> view s2 !! k) /\
        (upd = false -> view s4 = view s2) /\
        (upd = true -> forall k e, view s4 !! k = Some e ->
           view s !! k = Some e \/ lastModifiedLedgerSeq e = ledgerSeq (getHeader s4))).
Proof.
  intros Hs Hopen Hops.
  destruct (newLedgerTxn_ok s upd Hs Hopen)
    as (p & i & E & Hc & Ho & Hvp & Hhp & Hv & Hh & Hu).
  exists (Txn p i). split; [done|]. split; [done|]. split; [done|]. intros s2 E2.
  destruct (run_ops_refine ops p i s2 Hc Ho Hops E2)
    as (i2 & -> & Hc2 & Ho2 & Hv2 & Hh2 & Hu2).
  rewrite Hv in Hv2. split; [done|]. rewrite Hh in Hh2. split; [done|]. split.
  { destruct (rollback_chain p i2 Hc2) as (s3 & E3 & H1 & H2 & H3 & H4).
    exists s3. split; [done|]. split; [done|]. split; [done|]. by rewrite H3, H4. }
  destruct Ho2 as [Hs2 Hch2].
  destruct (commit_chain p i2 Hc2 Hch2) as (s4 & E4 & H1 & H2 & H3 & H4).
  exists s4. split; [done|]. split; [done|]. split; [done|]. split; [done|].
  assert (Hk : forall k, view s4 !! k = match mEntry i2 !! k with
    | Some x => stamp i2 <$> x | None => view p !! k end)
    by (intros k; by rewrite H3, sealed_view).
  assert (Hk2 : forall k, view (Txn p i2) !! k = match mEntry i2 !! k with
    | Some x => x | None => view p !! k end) by (intros k; apply lookup_override).
  split; [|split].
  - intros k. rewrite Hk, Hk2. destruct (mEntry i2 !! k) as [[e|]|]; try done. cbn.
    unfold stamp. by destruct (mShouldUpdateLastModified i2).
  - intros ->. apply map_eq. intros k. rewrite Hk, Hk2.
    destruct (mEntry i2 !! k) as [[e|]|]; try done. cbn. unfold stamp. by rewrite Hu2, Hu.
  - intros -> k e. rewrite Hk, H4. destruct (mEntry i2 !! k) as [[e0|]|]; cbn; try done.
    + intros [= <-]. right. unfold stamp. by rewrite Hu2, Hu.
    + rewrite Hvp. auto.
Qed.

(** ** The theorems at concrete inputs *)

Definition ltx_header : LedgerHeader :=
  mkLedgerHeader 11 0 (mkEssaBlockChainValue 0 0 []) 0 0 7 1000 0 0 0 100 5000000 50 [].
Definition ltx_entry (a v : Z) : LedgerEntry :=
  mkLedgerEntry 1 (DATA (mkDataEntry a "name" [v])).
Definition ltx_root : Store :=
  Root (mkRootImpl (<[KeyData 1 "name" := ltx_entry 1 10]> ∅) ltx_header false).
Definition ltx_ops : list ltx_op :=
  [OpLoad (KeyData 1 "name"); OpSetCurrent (KeyData 1 "name") (ltx_entry 1 11);
   OpCreate (ltx_entry 2 20); OpDeactivate (KeyData 1 "name")].

Lemma ltx_root_ok : chain_ok ltx_root.
Proof.
  intros k e. cbn [mDatabase]. rewrite lookup_insert_Some.
  intros [[<- <-]|[_ ?]]; [done|set_solver].
Qed.

Lemma nested_transaction_atomic_witness :
  exists s1 s2 s4, newLedgerTxn ltx_root true = Ok s1 /\ run_ops s1 ltx_ops = Ok s2 /\
    commit s2 = Ok s4 /\
    le_data <$> view s4 !! KeyData 1 "name" = Some (DATA (mkDataEntry 1 "name" [11])).
Proof.
  destruct (nested_transaction_atomic ltx_root true ltx_ops) as (s1 & E1 & _ & _ & H).
  - apply ltx_root_ok.
  - reflexivity.
  - repeat constructor.
  - assert (E2 : exists s2, run_ops s1 ltx_ops = Ok s2).
    { assert (E : newLedgerTxn ltx_root true = Ok s1) by exact E1.
      vm_compute in E. injection E as <-. eexists. vm_compute. reflexivity. }
    destruct E2 as [s2 E2]. destruct (H s2 E2) as (Hv & _ & _ & (s4 & E4 & _ & _ & _ & Hk & _)).
    exists s1, s2, s4. split; [exact E1|]. split; [exact E2|]. split; [exact E4|].
    rewrite Hk, Hv. vm_compute. reflexivity.
Defined.

(** a transaction opened on the root *)
Definition ltx_impl : Impl := mkImpl ∅ ∅ ltx_header false false true false EXACT.
Definition ltx_parent : Store :=
  Root (mkRootImpl (<[KeyData 1 "name" := ltx_entry 1 10]> ∅) ltx_header true).

Lemma entry_operations_refine_map_witness :
  exists s', create (Txn ltx_parent ltx_impl) (ltx_entry 2 20) = Ok s' /\
    view s' !! KeyData 2 "name" = Some (ltx_entry 2 20).
Proof.
  destruct (entry_operations_refine_map ltx_parent ltx_impl) as (H & _).
  - split; [exact ltx_root_ok|]. split; [reflexivity|]. split; cbn; try done; intros; set_solver.
  - split; reflexivity.
  - destruct (H (ltx_entry 2 20)) as (s' & E & (i' & _ & _ & _ & Hv & _)).
    exists s'. split; [exact E|]. rewrite Hv. vm_compute. reflexivity.
Defined.
