(* ===== verification/LedgerBatch.v ===== *)
(** * From a ledger transaction to the bucket list

    At the end of a ledger, LedgerManagerImpl.cpp takes the live and the dead
    entries of the ledger's transaction, adds them to the bucket list and
    commits the transaction to the database.  This file shows that the batch is
    what the transaction changed, and hence that the bucket list and the
    database agree after every ledger. *)
From S2P Require Import Prelude Numeric LedgerEntries Bucket FutureBucket BucketList LedgerTxn.

Abbreviation dead_of l :=
  (omap (fun kv : LedgerKey * option LedgerEntry =>
           match snd kv with None => Some (fst kv) | Some _ => None end) l).

(** ** The batch of a list of recorded entries *)

Section Batch.
Variable l : list (LedgerKey * option LedgerEntry).
Hypothesis Hdup : NoDup l.*1.
Hypothesis Hkeys : forall k e, (k, Some e) ∈ l -> LedgerEntryKey e = k.

Lemma elem_of_dead k : k ∈ dead_of l <-> (k, None) ∈ l.
Proof.
  rewrite list_elem_of_omap. split.
  - intros ([k' [e|]] & H & E); [done|]. by injection E as ->.
  - intros H. exists (k, None). by split.
Qed.

Lemma dead_subset k : k ∈ dead_of l -> k ∈ l.*1.
Proof. rewrite elem_of_dead. intros H. apply list_elem_of_fmap. by exists (k, None). Qed.
End Batch.

Lemma dead_NoDup l : NoDup l.*1 -> NoDup (dead_of l).
Proof.
  induction l as [|[k [e|]] l IH]; cbn; [constructor|rewrite NoDup_cons; tauto|].
  rewrite !NoDup_cons. intros [Hk Hn]. split; [|auto]. intros H. by apply Hk, dead_subset.
Qed.

Lemma live_keys_subset l k :
  (forall k e, (k, Some e) ∈ l -> LedgerEntryKey e = k) ->
  k ∈ map LedgerEntryKey (omap snd l) -> k ∈ l.*1.
Proof.
  intros Hk (e & -> & He)%list_elem_of_fmap.
  apply list_elem_of_omap in He as ([k' x] & Hin & Hx). cbn in Hx. subst x.
  rewrite (Hk k' e Hin). apply list_elem_of_fmap. by exists (k', Some e).
Qed.

Lemma live_NoDup l :
  (forall k e, (k, Some e) ∈ l -> LedgerEntryKey e = k) ->
  NoDup l.*1 -> NoDup (map LedgerEntryKey (omap snd l)).
Proof.
  induction l as [|[k [e|]] l IH]; intros Hk; cbn; [constructor| |].
  - rewrite !NoDup_cons. intros [Hn Hd]. split; [|apply IH; [set_solver|done]].
    rewrite (Hk k e) by set_solver. intros H. apply Hn. eapply live_keys_subset; [|done]. set_solver.
  - rewrite NoDup_cons. intros [_ Hd]. apply IH; [set_solver|done].
Qed.

Lemma live_find l k :
  (forall k e, (k, Some e) ∈ l -> LedgerEntryKey e = k) -> NoDup l.*1 ->
  bucket_find (map LIVEENTRY (omap snd l)) k =
  match (list_to_map l : gmap _ _) !! k with
  | Some (Some e) => Some (LIVEENTRY e)
  | _ => None
  end.
Proof.
  induction l as [|[k0 [e|]] l IH]; intros Hk; cbn [fmap list_fmap fst omap list_omap snd map];
    [done| |]; rewrite NoDup_cons; intros [Hn Hd]; cbn [list_to_map foldr uncurry fst snd].
  - rewrite bucket_find_cons, IH by (done || set_solver). cbn [be_key].
    rewrite (Hk k0 e) by set_solver. case_decide; subst.
    + by rewrite lookup_insert_eq.
    + by rewrite lookup_insert_ne.
  - rewrite IH by (done || set_solver). destruct (decide (k0 = k)) as [->|].
    + by rewrite lookup_insert_eq, not_elem_of_list_to_map_1.
    + by rewrite lookup_insert_ne.
Qed.

(** applying the batch is applying the recorded changes *)
Lemma apply_batch_changes l m :
  (forall k e, (k, Some e) ∈ l -> LedgerEntryKey e = k) -> NoDup l.*1 ->
  apply_batch (omap snd l) (dead_of l) m = apply_list m l.
Proof.
  intros Hk Hd. apply map_eq. intros k. rewrite apply_batch_lookup, lookup_apply_list by done.
  unfold batch_lookup. rewrite live_find by done. case_decide as E.
  - apply elem_of_dead in E. by rewrite (elem_of_list_to_map_1 l k None).
  - destruct (list_to_map l !! k) as [[e|]|] eqn:El; [done| |done].
    apply elem_of_list_to_map_2 in El. by apply elem_of_dead in El.
Qed.

(** ** Closing a ledger *)

Definition SKIP_1 : Z := 50.
Definition SKIP_2 : Z := 5000.
Definition SKIP_3 : Z := 50000.
Definition SKIP_4 : Z := 500000.

(** [skipList[i]]; the array has four elements *)
Definition skip_at (h : LedgerHeader) (i : nat) : Hash := default 0 (skipList h !! i).
Definition set_skip (i : nat) (x : Hash) (h : LedgerHeader) : LedgerHeader :=
  set_skipList (<[i := x]> (skipList h)) h.

(** [BucketManagerImpl::calculateSkipValues]; [v] is an [int] *)
Definition calculateSkipValues (currentHeader : LedgerHeader) : LedgerHeader :=
  let seq := ledgerSeq currentHeader in
  if seq mod SKIP_1 =? 0 then
    let v := i32 (seq - SKIP_1) in
    let h1 :=
      if (v >? 0) && (Z.rem v SKIP_2 =? 0) then
        let v := i32 (seq - SKIP_2 - SKIP_1) in
        let h2 :=
          if (v >? 0) && (Z.rem v SKIP_3 =? 0) then
            let v := i32 (seq - SKIP_3 - SKIP_2 - SKIP_1) in
            let h3 :=
              if (v >? 0) && (Z.rem v SKIP_4 =? 0) then
                set_skip 3 (skip_at currentHeader 2) currentHeader
              else currentHeader in
            set_skip 2 (skip_at h3 1) h3
          else currentHeader in
        set_skip 1 (skip_at h2 0) h2
      else currentHeader in
    set_skip 0 (bucketListHash h1) h1
  else currentHeader.

Section Close.
Context {AO : AssetOrder}.
Variable getHash : BucketT -> Hash.
(** [BucketList::getHash] *)
Variable listHash : list BucketLevel -> Hash.

(** [BucketManagerImpl::snapshotLedger] *)
Definition snapshotLedger (levels : list BucketLevel) (currentHeader : LedgerHeader)
    : LedgerHeader :=
  calculateSkipValues (set_bucketListHash (listHash levels) currentHeader).

(** [LedgerManagerImpl::ledgerClosed]; what it stores of the header in the
    node's own state is not modelled *)
Definition ledgerClosed (ltx : Store) (levels : list BucketLevel)
    : res (Store * list BucketLevel) :=
  ltx ← loadHeader ltx;
  let seq := ledgerSeq (getHeader ltx) in
  ltx ← deactivateHeader ltx;
  '(live, ltx) ← getLiveEntries ltx;
  '(dead, ltx) ← getDeadEntries ltx;
  levels ← addBatch getHash seq live dead levels;
  ltx ← unsealHeader ltx (snapshotLedger levels);
  Ok (ltx, levels).

(** sealing an open transaction *)
Definition seal (i : Impl) : Impl :=
  set_mIsSealed true (set_mActiveHeader false (set_mActive ∅ (set_mEntry (sealed_entries i) i))).

Lemma getLiveEntries_open p i :
  opened (Txn p i) ->
  getLiveEntries (Txn p i) = Ok (omap snd (map_to_list (sealed_entries i)), Txn p (seal i)).
Proof.
  intros [Hs Hc]. unfold getLiveEntries, sealing, on_txn, thenSeal. rewrite Hs. cbn [negb].
  by rewrite maybeUpdateLastModified_eq.
Qed.

Lemma getDeadEntries_sealed p i :
  mIsSealed i = true -> mConsistency i = EXACT ->
  getDeadEntries (Txn p i) = Ok (dead_of (map_to_list (mEntry i)), Txn p i).
Proof.
  intros Hs Hx. unfold getDeadEntries, sealing, on_txn, throwIfNotExactConsistency, thenSeal.
  by rewrite Hx, bool_decide_true, Hs.
Qed.

(** taking and dropping a handle of the header changes nothing *)
Lemma header_handle_id i :
  mActiveHeader i = false -> set_mActiveHeader false (set_mActiveHeader true i) = i.
Proof. destruct i; cbn. by intros ->. Qed.

Lemma seal_ok p i : chain_ok (Txn p i) -> mChild i = false -> chain_ok (Txn p (seal i)).
Proof.
  intros (Hp & Hch & Hi) Hc. split; [done|]. split; [done|]. split; cbn; try done.
  - intros k e (e' & He' & ->)%sealed_entries_some. by eapply io_keys.
  - intros HE k Hk%sealed_entries_none. by eapply io_exact.
Qed.

Lemma unseal_ok p i f :
  chain_ok (Txn p i) -> chain_ok (Txn p (set_mHeader f i)).
Proof.
  intros (Hp & Hch & [Hk Hx Ha Hs Hc]). split; [done|]. split; [done|]. by split.
Qed.

Lemma sealed_list_keys p i :
  chain_ok (Txn p i) ->
  forall k e, (k, Some e) ∈ map_to_list (sealed_entries i) -> LedgerEntryKey e = k.
Proof.
  intros (_ & _ & Hi) k e H%elem_of_map_to_list.
  apply sealed_entries_some in H as (e' & He' & ->). by eapply io_keys.
Qed.

(** Claim C4: the bucket list and the database agree.  When the transaction
    of the next ledger is closed over a database that agrees with the bucket
    list, closing returns, the header gets the hash of the new bucket list,
    and after the commit every key reads the same in the bucket list and in
    the database; the pair is again a reachable state of the bucket list, so
    this holds ledger after ledger. *)
Theorem ledger_close_agrees L r i levels :
  bl_reach getHash L (mDatabase r) levels -> L < UINT32_MAX ->
  chain_ok (Txn (Root r) i) -> opened (Txn (Root r) i) -> mActiveHeader i = false ->
  mConsistency i = EXACT -> ledgerSeq (mHeader i) = L + 1 ->
  exists ltx levels' root,
    ledgerClosed (Txn (Root r) i) levels = Ok (ltx, levels') /\
    bucketListHash (getHeader ltx) = listHash levels' /\
    commit ltx = Ok root /\ chain_ok root /\ getHeader root = getHeader ltx /\
    (forall k, bl_lookup levels' k = view root !! k) /\
    bl_reach getHash (L + 1) (view root) levels'.
Proof.
  intros Hr HL Hc Ho Hah Hx Hseq. destruct Ho as [Hs Hch].
  set (l := map_to_list (sealed_entries i)).
  pose proof (sealed_list_keys _ i Hc) as Hk. fold l in Hk.
  assert (Hnl : NoDup (map LedgerEntryKey (omap snd l))) by (apply live_NoDup, NoDup_fst_map_to_list; done).
  assert (Hnd : NoDup (dead_of l)) by apply dead_NoDup, NoDup_fst_map_to_list.
  destruct (bl_reach_inv getHash L (mDatabase r) levels Hr) as (HL' & Hinv & Hm).
  destruct (addBatch_ok getHash (L + 1) (omap snd l) (dead_of l) levels) as (levels' & Eb & _ & _);
    [lia|zlia|by replace (L + 1 - 1) with L by lia|done|done|].
  set (h := snapshotLedger levels' (mHeader i)).
  assert (Hc' : chain_ok (Txn (Root r) (set_mHeader h (seal i)))) by (by apply unseal_ok, seal_ok).
  destruct (commit_chain _ _ Hc' Hch) as (root & Ecom & Hroot & _ & Hview & Hhead).
  assert (Hv : view root = apply_batch (omap snd l) (dead_of l) (mDatabase r)).
  { rewrite Hview, apply_batch_changes by (done || apply NoDup_fst_map_to_list).
    unfold l. rewrite apply_list_override. done. }
  pose proof (reach_batch getHash L (mDatabase r) levels _ _ levels' Hr HL Hnl Hnd Eb) as Hr'.
  exists (Txn (Root r) (set_mHeader h (seal i))), levels', root. split.
  { unfold ledgerClosed, loadHeader, on_txn, throwIfSealed, throwIfChild.
    rewrite Hs, Hch, Hah, !bind_ok. unfold deactivateHeader, on_txn.
    change (mActiveHeader (set_mActiveHeader true i)) with true. cbn iota. rewrite !bind_ok.
    change (getHeader (Txn (Root r) (set_mActiveHeader true i))) with (mHeader i).
    rewrite (header_handle_id i Hah).
    rewrite getLiveEntries_open by done. rewrite bind_ok.
    rewrite getDeadEntries_sealed by done. rewrite bind_ok.
    cbn [seal mEntry set_mIsSealed set_mActiveHeader set_mActive set_mEntry]. fold l.
    rewrite Hseq, Eb, bind_ok. reflexivity. }
  split.
  { cbn [getHeader mHeader set_mHeader]. unfold h, snapshotLedger, calculateSkipValues.
    repeat case_match; reflexivity. }
  split; [done|]. split; [done|]. split; [done|]. rewrite Hv. split; [|done].
  intros k. by destruct (bl_reach_inv getHash _ _ _ Hr') as (_ & _ & ->).
Qed.
End Close.

(** ** The changes of a transaction *)

Definition replay_one (m : gmap LedgerKey LedgerEntry) (c : LedgerEntryChange)
    : gmap LedgerKey LedgerEntry :=
  match c with
  | LEDGER_ENTRY_CREATED e | LEDGER_ENTRY_UPDATED e => <[LedgerEntryKey e := e]> m
  | LEDGER_ENTRY_REMOVED k => delete k m
  | LEDGER_ENTRY_STATE _ => m
  end.

(** what a change says about the entries before the transaction *)
Definition change_about (m : gmap LedgerKey LedgerEntry) (c : LedgerEntryChange) : Prop :=
  match c with
  | LEDGER_ENTRY_CREATED e => m !! LedgerEntryKey e = None
  | LEDGER_ENTRY_UPDATED e => m !! LedgerEntryKey e <> None
  | LEDGER_ENTRY_REMOVED k => m !! k <> None
  | LEDGER_ENTRY_STATE e => m !! LedgerEntryKey e = Some e
  end.

Lemma changes_of_ok p l m :
  keys_ok (view p) ->
  (forall k e, (k, Some e) ∈ l -> LedgerEntryKey e = k) ->
  (forall k, (k, None) ∈ l -> view p !! k <> None) ->
  exists cs, changes_of p l = Ok cs /\ foldl replay_one m cs = apply_list m l /\
    Forall (change_about (view p)) cs.
Proof.
  intros Hp. revert m. induction l as [|[k x] l IH]; intros m Hk Hn; [by exists []|].
  destruct (IH (apply_one m (k, x))) as (cs & E & Hr & Hf);
    [intros; apply Hk; set_solver|intros; apply Hn; set_solver|].
  cbn [changes_of]. rewrite getNewestVersion_view, E. destruct (view p !! k) as [prev|] eqn:Ep.
  - rewrite !bind_ok. pose proof (Hp k prev Ep) as Hkey. destruct x as [e|].
    + assert (Hke : LedgerEntryKey e = k) by (apply Hk; set_solver).
      eexists. split; [reflexivity|]. split.
      * cbn. by rewrite Hke.
      * constructor; [by cbn; rewrite Hkey|]. constructor; [|done]. cbn. by rewrite Hke, Ep.
    + eexists. split; [reflexivity|]. split; [done|].
      constructor; [by cbn; rewrite Hkey|]. constructor; [|done]. cbn. by rewrite Ep.
  - destruct x as [e|]; [|by destruct (Hn k); [set_solver|]].
    assert (Hke : LedgerEntryKey e = k) by (apply Hk; set_solver).
    rewrite !bind_ok. eexists. split; [reflexivity|]. split.
    + cbn. by rewrite Hke.
    + constructor; [by cbn; rewrite Hke|done].
Qed.

(** The changes that a transaction reports describe it.  On a
    transaction without child and with exact consistency [getChanges] returns:
    the assertion that a removed entry existed holds; replaying the changes
    over the entries of the parent gives the entries that the transaction sees
    once sealed, which are those it sees before up to the stamps; and each
    change reports rightly whether its key existed before and, if so, with
    which entry. *)
Theorem getChanges_describes p i :
  chain_ok (Txn p i) -> mChild i = false -> mConsistency i = EXACT ->
  exists changes s', getChanges (Txn p i) = Ok (changes, s') /\
    foldl replay_one (view p) changes = view s' /\
    (forall k, le_data <$> view s' !! k = le_data <$> view (Txn p i) !! k) /\
    Forall (change_about (view p)) changes.
Proof.
  intros Hc Hch Hx. pose proof Hc as (Hp & _ & Hi).
  destruct (changes_of_ok p (map_to_list (sealed_entries i)) (view p)) as (cs & E & Hr & Hf).
  { by apply chain_keys. }
  { by eapply sealed_list_keys. }
  { intros k Hk%elem_of_map_to_list%sealed_entries_none. by eapply io_exact. }
  destruct (thenSeal_eq i (fun entries => changes_of p (map_to_list entries)) cs Hch E)
    as (i' & Es & He & _).
  exists cs, (Txn p i'). split.
  { unfold getChanges, on_txn, throwIfNotExactConsistency, sealing, on_txn.
    rewrite Hx, bool_decide_true, bind_ok by done. by rewrite Es. }
  cbn [view]. rewrite He, Hr, apply_list_override. split; [done|]. split; [|done].
  intros k. rewrite !lookup_override. unfold sealed_entries. destruct (mIsSealed i); [done|].
  rewrite lookup_fmap. destruct (mEntry i !! k) as [[e|]|]; try done. cbn. unfold stamp.
  by destruct (mShouldUpdateLastModified i).
Qed.

(** ** The theorems at concrete inputs *)

(** a transaction over an empty database that has created an entry *)
Definition close_root : RootImpl := mkRootImpl ∅ ltx_header true.
Definition close_header : LedgerHeader := set_ledgerSeq 1 ltx_header.
Definition close_impl : Impl :=
  mkImpl (<[KeyData 2 "name" := Some (ltx_entry 2 20)]> ∅) ∅ close_header false false true false EXACT.

Lemma close_chain : chain_ok (Txn (Root close_root) close_impl).
Proof.
  split; [intros k e; cbn; set_solver|]. split; [done|]. split; cbn; try done.
  - intros k e. rewrite lookup_insert_Some. intros [[<- [= <-]]|[_ ?]]; [done|set_solver].
  - intros _ k. rewrite lookup_insert_Some. intros [[_ ?]|[_ ?]]; [done|set_solver].
Qed.

Lemma ledger_close_agrees_witness :
  exists ltx levels' root,
    ledgerClosed (AO := asset_encode_order) fb_hash (fun _ => 99) (Txn (Root close_root) close_impl)
      newBucketList = Ok (ltx, levels') /\
    commit ltx = Ok root /\
    bl_lookup levels' (KeyData 2 "name") = view root !! KeyData 2 "name".
Proof.
  destruct (ledger_close_agrees (AO := asset_encode_order) fb_hash (fun _ => 99) 0 close_root close_impl
    newBucketList) as (ltx & levels' & root & E1 & _ & E2 & _ & _ & Hk & _).
  - constructor.
  - zlia.
  - apply close_chain.
  - split; reflexivity.
  - reflexivity.
  - reflexivity.
  - reflexivity.
  - exists ltx, levels', root. split; [exact E1|]. split; [exact E2|]. apply Hk.
Defined.

Lemma getChanges_describes_witness :
  exists changes s', getChanges (Txn (Root close_root) close_impl) = Ok (changes, s') /\
    foldl replay_one ∅ changes = view s' /\
    view s' !! KeyData 2 "name" = Some (stamp close_impl (ltx_entry 2 20)).
Proof.
  destruct (getChanges_describes (Root close_root) close_impl) as (cs & s' & E & Hr & _).
  - apply close_chain.
  - reflexivity.
  - reflexivity.
  - exists cs, s'. split; [exact E|]. split; [exact Hr|].
    vm_compute in E. injection E as _ <-. vm_compute. reflexivity.
Defined.
