(* ===== verification/OfferBook.v ===== *)
(** * The best offer of an asset pair

    [isBetterOffer] and the queries for the best offer of
    src/src/ledger/LedgerTxn.cpp and LedgerTxnOfferSQL.cpp.  Prices are
    compared as IEEE doubles, with the formats of the Standard Library's
    [SpecFloat].  The SQL query of the root returns the offers of an asset
    pair in the order [price, offerid]; the price column is the same double. *)
From S2P Require Import Prelude Numeric LedgerEntries LedgerTxn.
From Stdlib Require Import SpecFloat Sorted.

(** ** Comparing offers *)

(** [double(n)] for an [int32_t]: exact, normalized to 53 bits *)
Definition double_of_int (n : Z) : spec_float :=
  let normal (s : bool) (p : positive) :=
    let k := 53 - Zpos (digits2_pos p) in
    S754_finite s (Pos.iter xO p (Z.to_pos k)) (- k) in
  match n with
  | Z0 => S754_zero false
  | Zpos p => normal false p
  | Zneg p => normal true p
  end.

(** [double(price.n) / double(price.d)] *)
Definition price_double (p : Price) : spec_float :=
  SFdiv 53 1024 (double_of_int (price_n p)) (double_of_int (price_d p)).

(** the comparison of [isBetterOffer] on the offers *)
Definition better (lhs rhs : OfferEntry) : bool :=
  let lhsPrice := price_double (oe_price lhs) in
  let rhsPrice := price_double (oe_price rhs) in
  if SFltb lhsPrice rhsPrice then true
  else if SFeqb lhsPrice rhsPrice then oe_offerID lhs <? oe_offerID rhs
  else false.

Definition isBetterOffer (lhsEntry rhsEntry : LedgerEntry) : res bool :=
  lhs ← get_offer lhsEntry;
  rhs ← get_offer rhsEntry;
  _ ← assert_ (bool_decide (oe_buying lhs = oe_buying rhs));
  _ ← assert_ (bool_decide (oe_selling lhs = oe_selling rhs));
  Ok (better lhs rhs).

(** ** The root: offers in sorted batches *)

(** the condition of the query on an entry *)
Definition matches (buying selling : Asset) (e : LedgerEntry) : bool :=
  match le_data e with
  | OFFER o => bool_decide (oe_buying o = buying) && bool_decide (oe_selling o = selling)
  | _ => false
  end.

Definition entry_better (a b : LedgerEntry) : bool :=
  match le_data a, le_data b with
  | OFFER x, OFFER y => better x y
  | _, _ => false
  end.

(** [ORDER BY price, offerid] *)
Fixpoint insert_offer (e : LedgerEntry) (l : list LedgerEntry) : list LedgerEntry :=
  match l with
  | [] => [e]
  | x :: l' => if entry_better e x then e :: x :: l' else x :: insert_offer e l'
  end.

(** the rows of the query, all batches together *)
Definition sorted_offers (db : gmap LedgerKey LedgerEntry) (buying selling : Asset)
    : list LedgerEntry :=
  foldr insert_offer []
    (omap (fun kv : LedgerKey * LedgerEntry =>
             if is_offer_key (fst kv) && matches buying selling (snd kv) then Some (snd kv) else None)
       (map_to_list db)).

(** [loadBestOffers]: [LIMIT n OFFSET o] *)
Definition loadBestOffers (db : gmap LedgerKey LedgerEntry) (buying selling : Asset)
    (numOffers offset : nat) : list LedgerEntry :=
  take numOffers (drop offset (sorted_offers db buying selling)).

(** [findIncludedOffer] *)
Fixpoint findIncludedOffer (l : list LedgerEntry) (exclude : gset LedgerKey) : option LedgerEntry :=
  match l with
  | [] => None
  | e :: l' => if bool_decide (LedgerEntryKey e ∈ exclude) then findIncludedOffer l' exclude
               else Some e
  end.

(** [BestOffersCacheEntry] *)
Record BestOffersCacheEntry := mkBestOffersCacheEntry {
  bestOffers : list LedgerEntry;
  allLoaded : bool
}.

Definition BATCH_SIZE : nat := 5.

(** the loop of [LedgerTxnRoot::Impl::getBestOffer]; a round that does not
    end the loop loads a full batch, so the number of rows bounds the rounds *)
Fixpoint root_best_loop (fuel : nat) (db : gmap LedgerKey LedgerEntry) (buying selling : Asset)
    (exclude : gset LedgerKey) (cached : BestOffersCacheEntry) (found : option LedgerEntry)
    : option LedgerEntry * BestOffersCacheEntry :=
  match fuel with
  | O => (found, cached)
  | S fuel' =>
      match found with
      | Some _ => (found, cached)
      | None =>
          if allLoaded cached then (found, cached)
          else
            let offers := bestOffers cached in
            let new := loadBestOffers db buying selling BATCH_SIZE (length offers) in
            let cached := mkBestOffersCacheEntry (offers ++ new)
                            (if (length new <? BATCH_SIZE)%nat then true else false) in
            root_best_loop fuel' db buying selling exclude cached (findIncludedOffer new exclude)
      end
  end.

Definition root_getBestOffer (db : gmap LedgerKey LedgerEntry) (buying selling : Asset)
    (exclude : gset LedgerKey) (cached : BestOffersCacheEntry)
    : option LedgerEntry * BestOffersCacheEntry :=
  root_best_loop (S (length (sorted_offers db buying selling))) db buying selling exclude cached
    (findIncludedOffer (bestOffers cached) exclude).

(** ** A transaction: its own offers, then those of the parent *)

(** the loop over [mEntry] in [LedgerTxn::Impl::getBestOffer] *)
Fixpoint scan_offers (buying selling : Asset) (l : list (LedgerKey * option LedgerEntry))
    (best : option LedgerEntry) (exclude : gset LedgerKey)
    : res (option LedgerEntry * gset LedgerKey) :=
  match l with
  | [] => Ok (best, exclude)
  | (key, entry) :: l' =>
      if negb (is_offer_key key) then scan_offers buying selling l' best exclude
      else if bool_decide (key ∈ exclude) then scan_offers buying selling l' best exclude
      else
        let exclude := {[key]} ∪ exclude in
        match entry with
        | None => scan_offers buying selling l' best exclude
        | Some e =>
            o ← get_offer e;
            if negb (bool_decide (oe_buying o = buying) && bool_decide (oe_selling o = selling))
            then scan_offers buying selling l' best exclude
            else
              take_it ← (match best with
                         | None => Ok true
                         | Some b => isBetterOffer e b
                         end);
              scan_offers buying selling l' (if (take_it : bool) then Some e else best) exclude
        end
  end.

(** [getBestOffer], with the keys excluded so far; the root starts from an
    empty cache *)
Fixpoint getBestOffer (s : Store) (buying selling : Asset) (exclude : gset LedgerKey)
    : res (option LedgerEntry) :=
  match s with
  | Root r =>
      Ok (fst (root_getBestOffer (mDatabase r) buying selling exclude
                 (mkBestOffersCacheEntry [] false)))
  | Txn p i =>
      '(bestOffer, exclude) ← scan_offers buying selling (map_to_list (mEntry i)) None exclude;
      parentBestOffer ← getBestOffer p buying selling exclude;
      match bestOffer, parentBestOffer with
      | Some b, Some pb =>
          first ← isBetterOffer b pb; Ok (if (first : bool) then Some b else Some pb)
      | Some b, None => Ok (Some b)
      | None, pb => Ok pb
      end
  end.

Definition loadBestOffer (s : Store) (buying selling : Asset)
    : res (option LedgerEntry * Store) :=
  on_txn s (fun _ i =>
    _ ← throwIfSealed i;
    _ ← throwIfChild i;
    le ← getBestOffer s buying selling ∅;
    match le with
    | Some e => load s (LedgerEntryKey e)
    | None => Ok (None, s)
    end).

(** ** The order of prices and offers *)

(** the order of doubles other than NaN is the lexicographic order of a class
    (sign and kind), the exponent and the mantissa *)
Definition fkey (f : spec_float) : Z * Z * Z :=
  match f with
  | S754_zero _ => (0, 0, 0)
  | S754_infinity s => (if s then -2 else 2, 0, 0)
  | S754_nan => (3, 0, 0)
  | S754_finite s m e => if s then (-1, - e, - Zpos m) else (1, e, Zpos m)
  end.

Definition lex_lt (a b : Z * Z * Z) : Prop :=
  let '(a1, a2, a3) := a in
  let '(b1, b2, b3) := b in
  a1 < b1 \/ (a1 = b1 /\ (a2 < b2 \/ (a2 = b2 /\ a3 < b3))).

Lemma lex_lt_irrefl a : ~ lex_lt a a.
Proof. destruct a as [[x y] z]; cbn; lia. Qed.

Lemma lex_lt_trans a b c : lex_lt a b -> lex_lt b c -> lex_lt a c.
Proof. destruct a as [[? ?] ?], b as [[? ?] ?], c as [[? ?] ?]; cbn; lia. Qed.

Lemma lex_lt_total a b : lex_lt a b \/ a = b \/ lex_lt b a.
Proof.
  destruct a as [[x y] z], b as [[x' y'] z']; cbn.
  destruct (Z.lt_trichotomy x x') as [|[->|]]; [lia| |lia].
  destruct (Z.lt_trichotomy y y') as [|[->|]]; [lia| |lia].
  destruct (Z.lt_trichotomy z z') as [|[->|]]; [lia|auto|lia].
Qed.

Lemma SFcompare_key f g :
  f <> S754_nan -> g <> S754_nan ->
  match SFcompare f g with
  | Some Lt => lex_lt (fkey f) (fkey g)
  | Some Eq => fkey f = fkey g
  | Some Gt => lex_lt (fkey g) (fkey f)
  | None => False
  end.
Proof.
  intros Hf Hg. destruct f as [s|s| |s m e], g as [s'|s'| |s' m' e']; try done;
    try (destruct s; cbn; lia || done); try (destruct s'; cbn; lia || done);
    try (destruct s, s'; cbn; lia || done).
  change (SFcompare (S754_finite s m e) (S754_finite s' m' e')) with
    (Some (match s, s' with
      | true, false => Lt | false, true => Gt
      | false, false => match Z.compare e e' with Lt => Lt | Gt => Gt | Eq => Pos.compare m m' end
      | true, true => match Z.compare e e' with Lt => Gt | Gt => Lt | Eq => CompOpp (Pos.compare m m') end
      end)).
  destruct s, s'; cbn [fkey lex_lt]; try lia; destruct (Z.compare_spec e e'); subst;
    try lia; destruct (Pos.compare_spec m m'); cbn [CompOpp]; subst; try lia; done.
Qed.

Lemma SFltb_key f g :
  f <> S754_nan -> g <> S754_nan -> SFltb f g = true <-> lex_lt (fkey f) (fkey g).
Proof.
  intros Hf Hg. pose proof (SFcompare_key f g Hf Hg) as H. unfold SFltb.
  destruct (SFcompare f g) as [[]|]; try done; (split; [done|]); intros H'; exfalso.
  - rewrite H in H'. by apply lex_lt_irrefl in H'.
  - by apply (lex_lt_irrefl (fkey f)), (lex_lt_trans _ (fkey g)).
Qed.

Lemma SFeqb_key f g :
  f <> S754_nan -> g <> S754_nan -> SFeqb f g = true <-> fkey f = fkey g.
Proof.
  intros Hf Hg. pose proof (SFcompare_key f g Hf Hg) as H. unfold SFeqb.
  destruct (SFcompare f g) as [[]|]; try done; (split; [done|]); intros H'; exfalso;
    rewrite H' in H; by apply lex_lt_irrefl in H.
Qed.

(** *** A quotient of positive integers is not NaN *)

Lemma shr_nonneg mrs e n : 0 <= shr_m mrs -> 0 <= shr_m (fst (shr mrs e n)).
Proof.
  assert (H1 : forall m, 0 <= shr_m m -> 0 <= shr_m (shr_1 m)).
  { intros [[|[]|[]] r s]; cbn; lia. }
  assert (Hit : forall p m, 0 <= shr_m m -> 0 <= shr_m (iter_pos shr_1 p m)).
  { induction p as [p IH|p IH|]; intros m Hm; cbn; auto. }
  intros H. destruct n; cbn; auto.
Qed.

Lemma binary_round_aux_not_nan prec emax s m e l :
  0 <= m -> binary_round_aux prec emax s m e l <> S754_nan.
Proof.
  intros Hm. unfold binary_round_aux.
  assert (H0 : forall m l, 0 <= m -> 0 <= shr_m (shr_record_of_loc m l))
    by (intros ? [|[]]; cbn; lia).
  assert (H1 : 0 <= shr_m (fst (shr_fexp prec emax m e l))) by (apply shr_nonneg; auto).
  destruct (shr_fexp prec emax m e l) as [mrs e1] eqn:E1. cbn in H1.
  assert (H2 : 0 <= round_nearest_even (shr_m mrs) (loc_of_shr_record mrs)).
  { destruct (loc_of_shr_record mrs) as [|[]]; cbn; try lia. destruct (Z.even _); lia. }
  assert (H3 : 0 <= shr_m (fst (shr_fexp prec emax
    (round_nearest_even (shr_m mrs) (loc_of_shr_record mrs)) e1 loc_Exact)))
    by (apply shr_nonneg; auto).
  destruct (shr_fexp prec emax (round_nearest_even _ _) e1 loc_Exact) as [mrs' e2]. cbn in H3.
  destruct (shr_m mrs'); [done| |lia]. by destruct (e2 <=? emax - prec).
Qed.

Definition price_ok (p : Price) : Prop := 0 < price_n p /\ 0 < price_d p.

Lemma price_double_not_nan p : price_ok p -> price_double p <> S754_nan.
Proof.
  destruct p as [n d]. intros [Hn Hd]. cbn in Hn, Hd. unfold price_double. cbn [price_n price_d].
  destruct n as [|n|n], d as [|d|d]; try lia.
  unfold double_of_int, SFdiv, SFdiv_core_binary.
  match goal with |- context [Z.div_eucl ?a ?b] => set (m := a);
    pose proof (Z_div_mod m b) as Hdm; destruct (Z.div_eucl m b) as [q r] end.
  apply binary_round_aux_not_nan. destruct Hdm as [Hq Hr]; [lia|].
  assert (Hm : 0 <= m) by (unfold m; case_match; [lia|apply Z.shiftl_nonneg; lia|lia]).
  nia.
Qed.

(** ** Better offers *)

Definition offer_rank (o : OfferEntry) : Z * Z * Z := fkey (price_double (oe_price o)).

(** between valid prices [better] is the lexicographic order of the double and
    the offer id *)
Lemma better_spec a b :
  price_ok (oe_price a) -> price_ok (oe_price b) ->
  better a b = true <->
  lex_lt (offer_rank a) (offer_rank b) \/
  (offer_rank a = offer_rank b /\ oe_offerID a < oe_offerID b).
Proof.
  intros Ha Hb. apply price_double_not_nan in Ha, Hb. unfold better, offer_rank.
  pose proof (SFltb_key _ _ Ha Hb) as Hl. pose proof (SFeqb_key _ _ Ha Hb) as He.
  destruct (SFltb _ _).
  { split; [|done]. intros _. left. by apply Hl. }
  destruct (SFeqb _ _).
  - rewrite Z.ltb_lt. split; [intros H; right; split; [by apply He|done]|].
    intros [H|[_ H]]; [|done]. by apply Hl in H.
  - split; [done|]. intros [H|[H _]]; [by apply Hl in H|by apply He in H].
Qed.

Lemma better_trans a b c :
  price_ok (oe_price a) -> price_ok (oe_price b) -> price_ok (oe_price c) ->
  better a b = true -> better b c = true -> better a c = true.
Proof.
  intros Ha Hb Hc. rewrite !better_spec by done.
  intros [H1|[H1 H1']] [H2|[H2 H2']].
  - left. eauto using lex_lt_trans.
  - left. by rewrite <- H2.
  - left. by rewrite H1.
  - right. split; [congruence|lia].
Qed.

Lemma better_total a b :
  price_ok (oe_price a) -> price_ok (oe_price b) -> oe_offerID a <> oe_offerID b ->
  better a b = true \/ better b a = true.
Proof.
  intros Ha Hb Hid. rewrite !better_spec by done.
  destruct (lex_lt_total (offer_rank a) (offer_rank b)) as [|[E|]]; [auto| |auto].
  destruct (Z.lt_trichotomy (oe_offerID a) (oe_offerID b)) as [|[|]]; auto; contradiction.
Qed.

(** ** The best of a set of entries *)

(** a set of offers of one asset pair that the order is total on: valid
    prices and distinct ids *)
Record book (buying selling : Asset) (P : LedgerEntry -> Prop) : Prop := {
  bk_matches : forall e, P e -> matches buying selling e = true;
  bk_price : forall e o, P e -> le_data e = OFFER o -> price_ok (oe_price o);
  bk_id : forall a b x y, P a -> P b -> le_data a = OFFER x -> le_data b = OFFER y ->
    oe_offerID x = oe_offerID y -> a = b
}.

Definition best_of (P : LedgerEntry -> Prop) (r : option LedgerEntry) : Prop :=
  match r with
  | None => forall e, ~ P e
  | Some b => P b /\ forall e, P e -> e = b \/ entry_better b e = true
  end.

Lemma matches_offer buying selling e :
  matches buying selling e = true ->
  exists o, le_data e = OFFER o /\ oe_buying o = buying /\ oe_selling o = selling.
Proof.
  unfold matches. destruct (le_data e) as [| |o|]; try done.
  rewrite andb_true_iff, !bool_decide_eq_true. intros [? ?]. eauto.
Qed.

Section Book.
Variables (buying selling : Asset) (P : LedgerEntry -> Prop).
Hypothesis HP : book buying selling P.

Lemma entry_better_trans a b c :
  P a -> P b -> P c -> entry_better a b = true -> entry_better b c = true ->
  entry_better a c = true.
Proof.
  intros Ha Hb Hc. unfold entry_better.
  destruct (le_data a) as [| |x|] eqn:Ea, (le_data b) as [| |y|] eqn:Eb,
    (le_data c) as [| |z|] eqn:Ec; try done.
  apply better_trans; (eapply (bk_price _ _ _ HP); [|eassumption]; assumption).
Qed.

Lemma entry_better_total a b :
  P a -> P b -> a = b \/ entry_better a b = true \/ entry_better b a = true.
Proof.
  intros Ha Hb. unfold entry_better.
  destruct (matches_offer _ _ _ (bk_matches _ _ _ HP a Ha)) as (x & Ex & _).
  destruct (matches_offer _ _ _ (bk_matches _ _ _ HP b Hb)) as (y & Ey & _).
  rewrite Ex, Ey. destruct (Z.eq_dec (oe_offerID x) (oe_offerID y)) as [E|E].
  - left. eapply (bk_id _ _ _ HP a b); eassumption.
  - right. apply better_total; [(eapply (bk_price _ _ _ HP); [|eassumption]; assumption)..|done].
Qed.

Lemma entry_better_irrefl a : P a -> entry_better a a = false.
Proof.
  intros Ha. unfold entry_better. destruct (le_data a) as [| |x|] eqn:Ea; try done.
  destruct (better x x) eqn:E; [|done]. apply better_spec in E; [|(eapply (bk_price _ _ _ HP); [|eassumption]; assumption)..].
  destruct E as [H|[_ H]]; [by apply lex_lt_irrefl in H|lia].
Qed.

(** the asserts of [isBetterOffer] hold between offers of the book *)
Lemma isBetterOffer_ok a b : P a -> P b -> isBetterOffer a b = Ok (entry_better a b).
Proof.
  intros Ha Hb. unfold isBetterOffer, get_offer, entry_better.
  destruct (matches_offer _ _ _ (bk_matches _ _ _ HP a Ha)) as (x & -> & Hx1 & Hx2).
  destruct (matches_offer _ _ _ (bk_matches _ _ _ HP b Hb)) as (y & -> & Hy1 & Hy2).
  rewrite !bind_ok, !bool_decide_true by congruence. done.
Qed.

(** the choice that the code makes between two candidates *)
Definition pick (a b : option LedgerEntry) : res (option LedgerEntry) :=
  match a, b with
  | Some x, Some y => first ← isBetterOffer x y; Ok (if (first : bool) then Some x else Some y)
  | Some x, None => Ok (Some x)
  | None, y => Ok y
  end.

Lemma pick_best (Q1 Q2 : LedgerEntry -> Prop) a b :
  (forall e, Q1 e -> P e) -> (forall e, Q2 e -> P e) ->
  best_of Q1 a -> best_of Q2 b ->
  exists r, pick a b = Ok r /\ best_of (fun e => Q1 e \/ Q2 e) r.
Proof.
  intros H1 H2 Ha Hb. destruct a as [x|], b as [y|]; cbn in *.
  - destruct Ha as [Hx Ha], Hb as [Hy Hb]. rewrite isBetterOffer_ok by auto. cbn.
    destruct (entry_better x y) eqn:E; eexists; (split; [reflexivity|]); cbn.
    + split; [auto|]. intros e [He|He]; [by apply Ha|]. right.
      destruct (Hb e He) as [->|]; [done|]. eapply (entry_better_trans x y e); auto.
    + split; [auto|]. intros e [He|He]; [|by apply Hb].
      destruct (entry_better_total x y) as [->|[|E']]; [auto|auto|..]; [|congruence|].
      * destruct (Ha e He); auto.
      * destruct (Ha e He) as [->|]; [auto|]. right. eapply (entry_better_trans y x e); auto.
  - eexists; split; [reflexivity|]. cbn. destruct Ha as [Hx Ha].
    split; [auto|]. intros e [He|He]; [auto|]. by apply Hb in He.
  - eexists; split; [reflexivity|]. cbn. destruct Hb as [Hy Hb].
    split; [auto|]. intros e [He|He]; [by apply Ha in He|auto].
  - eexists; split; [reflexivity|]. cbn. intros e [He|He]; [by apply Ha in He|by apply Hb in He].
Qed.
End Book.

Lemma best_of_ext (P Q : LedgerEntry -> Prop) r :
  (forall e, P e <-> Q e) -> best_of P r -> best_of Q r.
Proof. intros H. destruct r; cbn; [|naive_solver]. intros [H1 H2]. split; [by apply H|]. naive_solver. Qed.

Lemma book_sub buying selling (P Q : LedgerEntry -> Prop) :
  (forall e, Q e -> P e) -> book buying selling P -> book buying selling Q.
Proof. intros H [H1 H2 H3]. split; eauto. Qed.

(** ** The root *)

Lemma findIncludedOffer_app a b x :
  findIncludedOffer (a ++ b) x =
  match findIncludedOffer a x with Some e => Some e | None => findIncludedOffer b x end.
Proof. induction a as [|e a IH]; [done|]. cbn. by case_bool_decide. Qed.

(** a cache entry holds the first rows of the query *)
Definition cache_ok (db : gmap LedgerKey LedgerEntry) (buying selling : Asset)
    (c : BestOffersCacheEntry) : Prop :=
  bestOffers c = take (length (bestOffers c)) (sorted_offers db buying selling) /\
  (allLoaded c = true -> bestOffers c = sorted_offers db buying selling).

Lemma cache_ok_load db buying selling c :
  cache_ok db buying selling c ->
  let new := loadBestOffers db buying selling BATCH_SIZE (length (bestOffers c)) in
  let c' := mkBestOffersCacheEntry (bestOffers c ++ new)
              (if (length new <? BATCH_SIZE)%nat then true else false) in
  cache_ok db buying selling c' /\
  (allLoaded c' = false -> length (bestOffers c') = (length (bestOffers c) + BATCH_SIZE)%nat).
Proof.
  intros [Hp _]. set (S := sorted_offers db buying selling) in *. cbn zeta.
  set (n := length (bestOffers c)) in *. unfold loadBestOffers. fold S.
  assert (Hn : (n <= length S)%nat)
    by (unfold n at 1; rewrite Hp, length_take; lia).
  assert (Hlen : length (take BATCH_SIZE (drop n S)) = Nat.min BATCH_SIZE (length S - n))
    by (rewrite length_take, length_drop; done).
  assert (Happ : bestOffers c ++ take BATCH_SIZE (drop n S) = take (n + BATCH_SIZE) S).
  { rewrite Hp. apply take_take_drop. }
  split; [split|]; cbn [bestOffers allLoaded].
  - rewrite Happ at 1. rewrite length_app, Hlen. fold n. unfold BATCH_SIZE in *.
    destruct (decide (5 <= length S - n)%nat).
    + by replace (n + Nat.min 5 (length S - n))%nat with (n + 5)%nat by lia.
    + fold S. rewrite !take_ge by lia. done.
  - destruct (Nat.ltb_spec (length (take BATCH_SIZE (drop n S))) BATCH_SIZE); [|done].
    intros _. rewrite Happ, take_ge; [done|]. unfold BATCH_SIZE in *. lia.
  - destruct (Nat.ltb_spec (length (take BATCH_SIZE (drop n S))) BATCH_SIZE); [done|].
    intros _. rewrite length_app. fold n. rewrite Hlen in *. unfold BATCH_SIZE in *. lia.
Qed.

Lemma root_best_loop_ok fuel db buying selling exclude c :
  cache_ok db buying selling c ->
  (findIncludedOffer (bestOffers c) exclude = None -> allLoaded c = false ->
   (S (length (sorted_offers db buying selling) - length (bestOffers c)) <= fuel)%nat) ->
  let '(r, c') := root_best_loop fuel db buying selling exclude c
                    (findIncludedOffer (bestOffers c) exclude) in
  r = findIncludedOffer (sorted_offers db buying selling) exclude /\
  cache_ok db buying selling c'.
Proof.
  set (S0 := sorted_offers db buying selling).
  revert c. induction fuel as [|fuel IH]; intros c Hc Hf; cbn [root_best_loop];
    pose proof Hc as [Hp Hall]; fold S0 in Hp, Hall.
  { destruct (findIncludedOffer (bestOffers c) exclude) as [e|] eqn:E.
    - split; [|done]. rewrite <- (take_drop (length (bestOffers c)) S0), <- Hp.
      by rewrite findIncludedOffer_app, E.
    - destruct (allLoaded c) eqn:Ea; [|by specialize (Hf eq_refl eq_refl); lia].
      split; [|done]. by rewrite <- Hall, E. }
  destruct (findIncludedOffer (bestOffers c) exclude) as [e|] eqn:E.
  { split; [|done]. rewrite <- (take_drop (length (bestOffers c)) S0), <- Hp.
    by rewrite findIncludedOffer_app, E. }
  destruct (allLoaded c) eqn:Ea.
  { split; [|done]. by rewrite <- Hall, E. }
  destruct (cache_ok_load db buying selling c Hc) as [Hc' Hgrow].
  set (new := loadBestOffers db buying selling BATCH_SIZE (length (bestOffers c))) in *.
  set (c' := mkBestOffersCacheEntry (bestOffers c ++ new) _) in *.
  assert (Ef : findIncludedOffer new exclude = findIncludedOffer (bestOffers c') exclude)
    by (unfold c'; cbn [bestOffers]; by rewrite findIncludedOffer_app, E).
  rewrite Ef. apply IH; [done|]. intros _ Ha.
  specialize (Hgrow Ha). specialize (Hf eq_refl eq_refl). unfold BATCH_SIZE in *.
  assert (Hle : (length (bestOffers c') <= length S0)%nat)
    by (rewrite (proj1 Hc'), length_take; fold S0; lia). lia.
Qed.

Lemma root_getBestOffer_ok db buying selling exclude c :
  cache_ok db buying selling c ->
  fst (root_getBestOffer db buying selling exclude c)
  = findIncludedOffer (sorted_offers db buying selling) exclude /\
  cache_ok db buying selling (snd (root_getBestOffer db buying selling exclude c)).
Proof.
  intros Hc. pose proof (root_best_loop_ok (S (length (sorted_offers db buying selling)))
    db buying selling exclude c Hc) as H.
  unfold root_getBestOffer. destruct (root_best_loop _ _ _ _ _ _ _). apply H. lia.
Qed.

(** *** The rows are sorted *)

Lemma insert_offer_perm e l : insert_offer e l ≡ₚ e :: l.
Proof.
  induction l as [|x l IH]; [done|]. cbn. destruct (entry_better e x); [done|].
  rewrite IH. constructor.
Qed.

Definition row_le (a b : LedgerEntry) : Prop := entry_better b a = false.

Lemma insert_offer_sorted buying selling P e l :
  book buying selling P -> P e -> Forall P l ->
  StronglySorted row_le l -> StronglySorted row_le (insert_offer e l).
Proof.
  intros HP He Hl Hs. induction Hs as [|x l Hs IH Hx]; cbn; [by repeat constructor|].
  inversion Hl as [|? ? Px Pl]; subst.
  destruct (entry_better e x) eqn:E.
  - constructor; [by constructor|]. constructor.
    + unfold row_le. destruct (entry_better x e) eqn:E'; [|done].
      pose proof (entry_better_trans _ _ _ HP x e x Px He Px E' E) as H.
      by rewrite (entry_better_irrefl _ _ _ HP x Px) in H.
    + apply Forall_forall. intros y Hy. unfold row_le. destruct (entry_better y e) eqn:E'; [|done].
      rewrite Forall_forall in Hx, Pl. pose proof (Hx y Hy) as Hyx. unfold row_le in Hyx.
      by rewrite (entry_better_trans _ _ _ HP y e x) in Hyx by auto.
  - constructor; [by apply IH|]. rewrite insert_offer_perm. by constructor.
Qed.

Lemma sort_offers_ok buying selling P l :
  book buying selling P -> Forall P l ->
  foldr insert_offer [] l ≡ₚ l /\ StronglySorted row_le (foldr insert_offer [] l).
Proof.
  intros HP. induction 1 as [|e l He Hl [IH1 IH2]]; cbn; [by repeat constructor|]. split.
  - by rewrite insert_offer_perm, IH1.
  - eapply insert_offer_sorted; eauto. by rewrite IH1.
Qed.

(** the first row that is not excluded is the best *)
Lemma findIncludedOffer_best buying selling P l exclude :
  book buying selling P -> Forall P l -> StronglySorted row_le l ->
  best_of (fun e => e ∈ l /\ LedgerEntryKey e ∉ exclude) (findIncludedOffer l exclude).
Proof.
  intros HP Hl Hs. induction Hs as [|x l Hs IH Hx]; cbn; [set_solver|].
  inversion Hl as [|? ? Px Pl]; subst. case_bool_decide as E.
  - eapply best_of_ext; [|by apply IH]. set_solver.
  - split; [set_solver|]. intros e [He _]. apply elem_of_cons in He as [->|He]; [auto|].
    rewrite Forall_forall in Hx, Pl.
    destruct (entry_better_total _ _ _ HP x e) as [->|[|H]]; auto.
    by rewrite (Hx e He) in H.
Qed.

(** ** The chain *)

(** the offers of the pair that are seen through a store and not excluded *)
Definition candidate (s : Store) (buying selling : Asset) (exclude : gset LedgerKey)
    (e : LedgerEntry) : Prop :=
  view s !! LedgerEntryKey e = Some e /\ LedgerEntryKey e ∉ exclude /\
  matches buying selling e = true.

Lemma matches_key buying selling e :
  matches buying selling e = true -> is_offer_key (LedgerEntryKey e) = true.
Proof. intros (o & E & _)%matches_offer. unfold LedgerEntryKey. by rewrite E. Qed.

Lemma elem_of_sorted_offers r buying selling e :
  keys_ok (mDatabase r) -> book buying selling (candidate (Root r) buying selling ∅) ->
  e ∈ sorted_offers (mDatabase r) buying selling <-> candidate (Root r) buying selling ∅ e.
Proof.
  intros Hk HP. unfold sorted_offers.
  set (l := omap _ _).
  assert (Hl : forall x, x ∈ l <-> candidate (Root r) buying selling ∅ x).
  { intros x. unfold l, candidate. rewrite list_elem_of_omap. split.
    - intros ([k y] & Hin & Hif). apply elem_of_map_to_list in Hin. cbn [fst snd] in Hif.
      destruct (is_offer_key k && matches buying selling y) eqn:E; [|done]. injection Hif as ->.
      apply andb_true_iff in E as [_ E]. rewrite (Hk k x Hin). split; [done|]. split; [set_solver|done].
    - intros (Hv & _ & Hm). exists (LedgerEntryKey x, x). split; [by apply elem_of_map_to_list|].
      cbn [fst snd]. by rewrite (matches_key _ _ _ Hm), Hm. }
  destruct (sort_offers_ok buying selling (candidate (Root r) buying selling ∅) l HP) as [Hp _].
  { apply Forall_forall. intros x Hx. by apply Hl. }
  rewrite Hp. apply Hl.
Qed.

Lemma sorted_offers_sorted r buying selling :
  keys_ok (mDatabase r) -> book buying selling (candidate (Root r) buying selling ∅) ->
  StronglySorted row_le (sorted_offers (mDatabase r) buying selling).
Proof.
  intros Hk HP. unfold sorted_offers. eapply sort_offers_ok; [exact HP|].
  apply Forall_forall. intros x Hx. apply list_elem_of_omap in Hx as ([k y] & Hin & Hif).
  apply elem_of_map_to_list in Hin. cbn [fst snd] in Hif.
  destruct (is_offer_key k && matches buying selling y) eqn:E; [|done]. injection Hif as ->.
  apply andb_true_iff in E as [_ E]. split; [by rewrite (Hk k x Hin)|]. split; [set_solver|done].
Qed.

(** the entries of the pair that a list of recorded entries holds *)
Definition local (buying selling : Asset) (l : list (LedgerKey * option LedgerEntry))
    (exclude : gset LedgerKey) (e : LedgerEntry) : Prop :=
  (LedgerEntryKey e, Some e) ∈ l /\ LedgerEntryKey e ∉ exclude /\ matches buying selling e = true.

(** the head of the list and the rest *)
Section LocalCons.
Variables (buying selling : Asset) (k : LedgerKey) (x : option LedgerEntry)
  (l : list (LedgerKey * option LedgerEntry)) (exclude : gset LedgerKey).
Hypothesis Hk : k ∉ l.*1.

Lemma local_tail_key x' e : local buying selling l x' e -> LedgerEntryKey e <> k.
Proof.
  intros (H & _) E. rewrite E in H. apply Hk, list_elem_of_fmap. by exists (k, Some e).
Qed.

Lemma local_head e :
  LedgerEntryKey e = k -> local buying selling ((k, x) :: l) exclude e <->
  x = Some e /\ k ∉ exclude /\ matches buying selling e = true.
Proof.
  intros E. unfold local. rewrite E, elem_of_cons. split.
  - intros ([[= ->]|H] & ?); [done|]. exfalso. apply Hk, list_elem_of_fmap. by exists (k, Some e).
  - intros (-> & ?). auto.
Qed.

Lemma local_tail x' e :
  x' = exclude \/ x' = {[k]} ∪ exclude -> LedgerEntryKey e <> k ->
  local buying selling l x' e <-> local buying selling ((k, x) :: l) exclude e.
Proof. intros Hx Hne. unfold local. rewrite elem_of_cons. destruct Hx as [-> | ->]; set_solver. Qed.

(** when the head is not taken *)
Lemma local_skip x' :
  x' = exclude \/ x' = {[k]} ∪ exclude ->
  (forall e, x = Some e -> k ∉ exclude -> LedgerEntryKey e = k -> matches buying selling e = false) ->
  forall e, local buying selling l x' e <-> local buying selling ((k, x) :: l) exclude e.
Proof.
  intros Hx Hno e. destruct (decide (LedgerEntryKey e = k)) as [E|E]; [|by apply local_tail].
  rewrite local_head by done. split; [intros H; by apply local_tail_key in H|].
  intros (-> & H1 & H2). by rewrite (Hno e) in H2.
Qed.
End LocalCons.

Lemma exclude_step k (l : list LedgerKey) (exclude x' : gset LedgerKey) :
  x' = exclude /\ (is_offer_key k = false \/ k ∈ exclude) \/
  x' = {[k]} ∪ exclude /\ is_offer_key k = true ->
  forall k', (k' ∈ x' \/ is_offer_key k' = true /\ k' ∈ l) <->
             (k' ∈ exclude \/ is_offer_key k' = true /\ k' ∈ k :: l).
Proof.
  intros H k'. rewrite elem_of_cons. destruct (decide (k' = k)) as [->|Hne].
  - destruct H as [[-> [H|H]]|[-> H]]; rewrite ?H, ?elem_of_union, ?elem_of_singleton; naive_solver.
  - destruct H as [[-> _]|[-> _]]; rewrite ?elem_of_union, ?elem_of_singleton; naive_solver.
Qed.

(** the choice between a new offer and the best so far *)
Lemma take_it_pick e best :
  pick (Some e) best =
  (t ← (match best with None => Ok true | Some b => isBetterOffer e b end);
   Ok (if (t : bool) then Some e else best)).
Proof. by destruct best as [b|]; cbn; [destruct (isBetterOffer e b) as [[]|]|]. Qed.

Section Scan.
Variables (buying selling : Asset) (P : LedgerEntry -> Prop).
Hypothesis HP : book buying selling P.

(** what a run of the loop returns *)
Definition scanned (l : list (LedgerKey * option LedgerEntry)) (seen : LedgerEntry -> Prop)
    (exclude : gset LedgerKey) (r : res (option LedgerEntry * gset LedgerKey)) : Prop :=
  exists best exclude', r = Ok (best, exclude') /\
    (forall k, k ∈ exclude' <-> k ∈ exclude \/ (is_offer_key k = true /\ k ∈ l.*1)) /\
    best_of (fun e => seen e \/ local buying selling l exclude e) best.

Lemma scanned_cons k x l seen seen' exclude x' r :
  (forall k', (k' ∈ x' \/ is_offer_key k' = true /\ k' ∈ l.*1) <->
              (k' ∈ exclude \/ is_offer_key k' = true /\ k' ∈ k :: l.*1)) ->
  (forall e, seen' e \/ local buying selling l x' e <->
             seen e \/ local buying selling ((k, x) :: l) exclude e) ->
  scanned l seen' x' r -> scanned ((k, x) :: l) seen exclude r.
Proof.
  intros Hx Hs (b & x1 & -> & H1 & H2). exists b, x1. split; [done|]. split.
  - intros k'. rewrite H1. apply Hx.
  - eapply best_of_ext; [|exact H2]. exact Hs.
Qed.

Lemma scan_offers_ok l seen best exclude :
  NoDup l.*1 -> (forall k e, (k, Some e) ∈ l -> LedgerEntryKey e = k) ->
  (forall e, local buying selling l exclude e -> P e) -> (forall e, seen e -> P e) ->
  best_of seen best -> scanned l seen exclude (scan_offers buying selling l best exclude).
Proof.
  revert seen best exclude.
  induction l as [|[k x] l IH]; intros seen best exclude Hn Hk Hloc Hseen Hb.
  { exists best, exclude. split; [done|]. split; [set_solver|].
    eapply best_of_ext; [|exact Hb]. unfold local. set_solver. }
  cbn [scan_offers fmap list_fmap fst] in *. apply NoDup_cons in Hn as [Hkl Hn].
  assert (Hk' : forall k e, (k, Some e) ∈ l -> LedgerEntryKey e = k) by (intros; apply Hk; set_solver).
  (* the head is skipped *)
  assert (Hskip : forall x', x' = exclude /\ (is_offer_key k = false \/ k ∈ exclude) \/
      x' = {[k]} ∪ exclude /\ is_offer_key k = true ->
    (forall e, x = Some e -> k ∉ exclude -> LedgerEntryKey e = k -> matches buying selling e = false) ->
    scanned ((k, x) :: l) seen exclude (scan_offers buying selling l best x')).
  { intros x' Hx' Hno.
    pose proof (local_skip buying selling k x l exclude Hkl x' ltac:(tauto) Hno) as Hl.
    eapply (scanned_cons k x l seen seen); [|intros e; by rewrite Hl|].
    - by apply exclude_step.
    - apply IH; auto. intros e He. by apply Hloc, Hl. }
  destruct (is_offer_key k) eqn:Ek; cbn [negb].
  2: { apply Hskip; [auto|]. intros e _ _ <-. destruct (matches buying selling e) eqn:E; [|done].
       by rewrite (matches_key _ _ _ E) in Ek. }
  case_bool_decide as Hin; [by apply Hskip; auto|].
  destruct x as [e|]; [|by apply Hskip; auto].
  assert (Hke : LedgerEntryKey e = k) by (apply Hk; set_solver).
  assert (Ho : exists o, le_data e = OFFER o).
  { subst k. unfold LedgerEntryKey in Ek. destruct (le_data e); try done. eauto. }
  destruct Ho as [o Ho]. unfold get_offer. rewrite Ho, bind_ok.
  replace (bool_decide (oe_buying o = buying) && bool_decide (oe_selling o = selling))
    with (matches buying selling e) by (unfold matches; by rewrite Ho).
  destruct (matches buying selling e) eqn:Em; cbn [negb].
  2: { apply Hskip; [auto|]. by intros e' [= <-]. }
  (* the head is a candidate *)
  destruct (pick_best buying selling P HP (eq e) seen (Some e) best) as (r & Er & Hr);
    [intros ? <-; apply Hloc, local_head; auto|done|split; [done|]; by left|done|].
  rewrite take_it_pick in Er. apply bind_ok_inv in Er as (t & -> & [= Ht]).
  cbn [mbind res_bind]. rewrite Ht.
  assert (Hl : forall e', local buying selling l ({[k]} ∪ exclude) e' <->
    LedgerEntryKey e' <> k /\ local buying selling ((k, Some e) :: l) exclude e').
  { intros e'. split.
    - intros H. pose proof (local_tail_key _ _ _ _ Hkl _ _ H). split; [done|].
      by rewrite <- (local_tail buying selling k (Some e) l exclude Hkl ({[k]} ∪ exclude)) by auto.
    - intros [H1 H2].
      by rewrite (local_tail buying selling k (Some e) l exclude Hkl ({[k]} ∪ exclude)) by auto. }
  eapply (scanned_cons k (Some e) l seen (fun e' => e = e' \/ seen e')); [apply exclude_step; auto| |].
  - intros e'. rewrite Hl. destruct (decide (LedgerEntryKey e' = k)) as [E|E]; [|naive_solver].
    rewrite local_head by done. split; [|naive_solver].
    intros [[<-|?]|[? _]]; [|by left|done]. auto.
  - apply IH; auto; [intros e' He; by apply Hloc, Hl|].
    intros e' [<-|?]; [apply Hloc, local_head; auto|auto].
Qed.
End Scan.

(** the candidates of a transaction are its own and the parent's that it does
    not record *)
Lemma candidate_split p i buying selling exclude exclude' e :
  (forall k x, mEntry i !! k = Some (Some x) -> LedgerEntryKey x = k) ->
  (forall k, k ∈ exclude' <->
     k ∈ exclude \/ (is_offer_key k = true /\ k ∈ (map_to_list (mEntry i)).*1)) ->
  (local buying selling (map_to_list (mEntry i)) exclude e \/
   candidate p buying selling exclude' e) <->
  candidate (Txn p i) buying selling exclude e.
Proof.
  intros Hk Hx. unfold local, candidate. cbn [view]. rewrite lookup_override, elem_of_map_to_list, Hx.
  assert (Hkey : LedgerEntryKey e ∈ (map_to_list (mEntry i)).*1 <->
    is_Some (mEntry i !! LedgerEntryKey e)).
  { rewrite list_elem_of_fmap. split.
    - intros ([k x] & E & H%elem_of_map_to_list). cbn in E. rewrite E. eauto.
    - intros [x H]. exists (LedgerEntryKey e, x). split; [done|]. by apply elem_of_map_to_list. }
  rewrite Hkey. destruct (mEntry i !! LedgerEntryKey e) as [x|] eqn:E.
  - split.
    + intros [([= ->] & H1 & H2)|(_ & H1 & H2)]; [done|].
      destruct H1. right. split; [by eapply matches_key|eauto].
    + intros (-> & H1 & H2). auto.
  - split.
    + intros [([=] & _)|(H1 & H2 & H3)]. split; [done|]. split; [|done].
      intros H. apply H2. auto.
    + intros (H1 & H2 & H3). right. split; [done|]. split; [|done].
      intros [?|[_ [? ?]]]; done.
Qed.

(** at every transaction of the chain the offers of the pair are a book *)
Fixpoint chain_book (s : Store) (buying selling : Asset) : Prop :=
  book buying selling (candidate s buying selling ∅) /\
  match s with
  | Root _ => True
  | Txn p _ => chain_book p buying selling
  end.

Lemma candidate_exclude s buying selling exclude e :
  candidate s buying selling exclude e -> candidate s buying selling ∅ e.
Proof. unfold candidate. set_solver. Qed.

Lemma root_best r buying selling exclude c :
  keys_ok (mDatabase r) -> book buying selling (candidate (Root r) buying selling ∅) ->
  cache_ok (mDatabase r) buying selling c ->
  best_of (candidate (Root r) buying selling exclude)
    (fst (root_getBestOffer (mDatabase r) buying selling exclude c)).
Proof.
  intros Hk HP Hc. rewrite (proj1 (root_getBestOffer_ok _ _ _ _ _ Hc)).
  eapply best_of_ext; [|eapply findIncludedOffer_best; [exact HP| |by apply sorted_offers_sorted]].
  - intros e. cbn beta. rewrite elem_of_sorted_offers by done. unfold candidate. set_solver.
  - apply Forall_forall. intros e He. by apply elem_of_sorted_offers.
Qed.

Lemma getBestOffer_best s buying selling exclude :
  chain_ok s -> chain_book s buying selling ->
  exists r, getBestOffer s buying selling exclude = Ok r /\
    best_of (candidate s buying selling exclude) r.
Proof.
  revert exclude. induction s as [r|p IH i]; intros exclude Hc [HP HB]; cbn [getBestOffer].
  { eexists. split; [reflexivity|]. apply root_best; [done|done|]. by split. }
  destruct Hc as (Hp & _ & Hi).
  assert (Hl : forall e, local buying selling (map_to_list (mEntry i)) exclude e ->
    candidate (Txn p i) buying selling ∅ e).
  { intros e (H1 & _ & H3). apply elem_of_map_to_list in H1. split; [|split; [set_solver|done]].
    cbn [view]. by rewrite lookup_override, H1. }
  destruct (scan_offers_ok buying selling _ HP (map_to_list (mEntry i)) (fun _ => False) None exclude)
    as (best & exclude' & -> & Hx & Hb).
  { apply NoDup_fst_map_to_list. }
  { intros k e H%elem_of_map_to_list. by apply (io_keys _ _ Hi). }
  { exact Hl. } { by intros e []. } { intros e []. }
  rewrite bind_ok. destruct (IH exclude' Hp HB) as (pb & -> & Hpb). rewrite bind_ok.
  destruct (pick_best buying selling _ HP (fun e => False \/ local buying selling (map_to_list (mEntry i)) exclude e)
    (candidate p buying selling exclude') best pb) as (r & Er & Hr); [naive_solver| |done|done|].
  { intros e He. eapply candidate_exclude, candidate_split; [exact (io_keys _ _ Hi)|exact Hx|]. by right. }
  exists r. split; [exact Er|]. eapply best_of_ext; [|exact Hr]. intros e. cbn beta.
  rewrite <- (candidate_split p i buying selling exclude exclude' e) by (done || exact (io_keys _ _ Hi)).
  naive_solver.
Qed.

(** ** The theorems of the component *)

(** Claim C32: through any chain of transactions [getBestOffer] returns the
    best offer of the asset pair.  If at every level the offers of the pair
    have positive prices and distinct ids, the query does not fail an
    assertion; it returns nothing exactly when no offer of the pair outside of
    the excluded keys is seen, and otherwise an offer that is seen and that is
    strictly better, by the double of its price and then by its id, than every
    other one. *)
Theorem getBestOffer_correct s buying selling exclude :
  chain_ok s -> chain_book s buying selling ->
  exists r, getBestOffer s buying selling exclude = Ok r /\
    match r with
    | None => forall e, ~ candidate s buying selling exclude e
    | Some b => candidate s buying selling exclude b /\
        forall e, candidate s buying selling exclude e -> e = b \/ isBetterOffer b e = Ok true
    end.
Proof.
  intros Hc HB. destruct (getBestOffer_best s buying selling exclude Hc HB) as (r & E & Hr).
  exists r. split; [done|]. destruct r as [b|]; [|done]. destruct Hr as [Hb Hr]. split; [done|].
  intros e He. destruct (Hr e He) as [|H]; [auto|]. right.
  assert (HP : book buying selling (candidate s buying selling ∅)) by (destruct s; apply HB).
  rewrite (isBetterOffer_ok buying selling _ HP) by (by eapply candidate_exclude). by rewrite H.
Qed.

(** The cache of best offers is transparent.  From a cache entry
    that holds the first rows of the query, loading batches of five until an
    offer outside of the excluded keys turns up or the rows are exhausted
    terminates with the first such row of the whole query, and leaves a cache
    entry of the same kind. *)
Theorem best_offers_cache_transparent db buying selling exclude c :
  cache_ok db buying selling c ->
  fst (root_getBestOffer db buying selling exclude c)
  = findIncludedOffer (sorted_offers db buying selling) exclude /\
  cache_ok db buying selling (snd (root_getBestOffer db buying selling exclude c)).
Proof. apply root_getBestOffer_ok. Qed.

(** ** The theorems at concrete inputs *)

Definition entry_offer_id (e : LedgerEntry) : Z :=
  match le_data e with OFFER o => oe_offerID o | _ => 0 end.
Definition entry_price (e : LedgerEntry) : Price :=
  match le_data e with OFFER o => oe_price o | _ => mkPrice 0 0 end.

(** a store whose entries are all offers of the pair, with positive prices and
    distinct ids *)
Definition all_offers (s : Store) (buying selling : Asset) : bool :=
  let l := (map_to_list (view s)).*2 in
  forallb (fun e => matches buying selling e && (0 <? price_n (entry_price e))
                    && (0 <? price_d (entry_price e))) l
  && bool_decide (NoDup (map entry_offer_id l)).

Lemma NoDup_map_inj {A B} (f : A -> B) l a b :
  NoDup (map f l) -> a ∈ l -> b ∈ l -> f a = f b -> a = b.
Proof.
  induction l as [|x l IH]; cbn; [set_solver|]. rewrite NoDup_cons, !elem_of_cons.
  intros [Hx Hn] Ha Hb E.
  assert (Hin : forall y, y ∈ l -> f y ∈ map f l) by (intros y Hy; apply list_elem_of_fmap; eauto).
  destruct Ha as [->|Ha], Hb as [->|Hb]; [done| | |auto].
  - destruct Hx. rewrite E. auto.
  - destruct Hx. rewrite <- E. auto.
Qed.

Lemma all_offers_book s buying selling :
  all_offers s buying selling = true -> book buying selling (candidate s buying selling ∅).
Proof.
  unfold all_offers. rewrite andb_true_iff, bool_decide_eq_true, forallb_forall. intros [Hf Hn].
  assert (Hin : forall e, candidate s buying selling ∅ e -> e ∈ (map_to_list (view s)).*2).
  { intros e (Hv & _). apply list_elem_of_fmap. exists (LedgerEntryKey e, e). split; [done|].
    by apply elem_of_map_to_list. }
  split.
  - intros e (_ & _ & H). done.
  - intros e o He Ho. apply Hin, list_elem_of_In, Hf in He. unfold entry_price in He.
    rewrite Ho, !andb_true_iff, !Z.ltb_lt in He. split; apply He.
  - intros a b x y Ha Hb Hx Hy E. eapply NoDup_map_inj; [exact Hn|by apply Hin..|].
    unfold entry_offer_id. by rewrite Hx, Hy.
Qed.

Definition ob_usd : Asset := AssetAlphaNum4 [85; 83; 68; 0] 77.
Definition ob_offer (id n d : Z) : LedgerEntry :=
  mkLedgerEntry 1 (OFFER (mkOfferEntry 5 id AssetNative ob_usd 100 (mkPrice n d) 0)).
(** the database has the offers 1 and 2; the transaction has made 1 worse *)
Definition ob_root : RootImpl :=
  mkRootImpl (<[KeyOffer 5 1 := ob_offer 1 1 3]> (<[KeyOffer 5 2 := ob_offer 2 1 2]> ∅)) ltx_header true.
Definition ob_impl : Impl :=
  mkImpl (<[KeyOffer 5 1 := Some (ob_offer 1 2 3)]> ∅) ∅ ltx_header false false true false EXACT.
Definition ob_store : Store := Txn (Root ob_root) ob_impl.

Lemma ob_chain : chain_ok ob_store.
Proof.
  split; [|split; [done|split; cbn; try done]].
  - intros k e. cbn [mDatabase ob_root]. rewrite !lookup_insert_Some.
    intros [[<- <-]|[_ [[<- <-]|[_ ?]]]]; [done|done|set_solver].
  - intros k e. rewrite lookup_insert_Some. intros [[<- [= <-]]|[_ ?]]; [done|set_solver].
  - intros _ k. rewrite lookup_insert_Some. intros [[_ ?]|[_ ?]]; [done|set_solver].
Qed.

Lemma getBestOffer_correct_witness :
  exists r, getBestOffer ob_store ob_usd AssetNative ∅ = Ok r /\ r = Some (ob_offer 2 1 2).
Proof.
  destruct (getBestOffer_correct ob_store ob_usd AssetNative ∅) as (r & E & _).
  - apply ob_chain.
  - split; [apply all_offers_book; vm_compute; reflexivity|].
    split; [apply all_offers_book; vm_compute; reflexivity|exact I].
  - exists r. split; [exact E|].
    assert (E' : Ok r = Ok (Some (ob_offer 2 1 2))) by (rewrite <- E; vm_compute; reflexivity).
    by injection E'.
Defined.

Lemma best_offers_cache_transparent_witness :
  fst (root_getBestOffer (mDatabase ob_root) ob_usd AssetNative {[KeyOffer 5 1]}
         (mkBestOffersCacheEntry [] false)) = Some (ob_offer 2 1 2).
Proof.
  destruct (best_offers_cache_transparent (mDatabase ob_root) ob_usd AssetNative {[KeyOffer 5 1]}
    (mkBestOffersCacheEntry [] false)) as [E _].
  - split; [reflexivity|discriminate].
  - rewrite E. vm_compute. reflexivity.
Defined.

(** the quotient is the IEEE one: 1/3 and 2/3 *)
Example price_double_third :
  price_double (mkPrice 1 3) = S754_finite false 6004799503160661 (-54) /\
  price_double (mkPrice 2 3) = S754_finite false 6004799503160661 (-53).
Proof. split; vm_compute; reflexivity. Qed.

(** The queries over many offers read the chain as a whole.  All
    offers, and the offers of an account in an asset other than the native
    one, are exactly the entries of that kind that are seen through the chain,
    whatever the transactions of the chain have created, changed or erased. *)
Theorem offer_queries_read_view s account asset :
  is_native asset = false ->
  getAllOffers s = filter (fun kv => is_offer_key (fst kv) = true) (view s) /\
  getOffersByAccountAndAsset s account asset =
  Ok (filter (fun kv => is_offer_key (fst kv) && offer_of account asset (snd kv) = true) (view s)).
Proof.
  intros H. split; [apply getAllOffers_view|by apply getOffersByAccountAndAsset_view].
Qed.

Lemma offer_queries_read_view_witness :
  getOffersByAccountAndAsset ob_store 5 ob_usd =
  Ok (<[KeyOffer 5 1 := ob_offer 1 2 3]> (<[KeyOffer 5 2 := ob_offer 2 1 2]> ∅)).
Proof.
  destruct (offer_queries_read_view ob_store 5 ob_usd) as [_ E].
  - reflexivity.
  - rewrite E. vm_compute. reflexivity.
Defined.
