(* ===== verification/Ballots.v ===== *)
(** * Ballots and the statements of the ballot protocol

    The data of src/src/xdr/EssaBlockChain-SCP.x that the ballot protocol
    exchanges, and the static functions of src/src/scp/BallotProtocol.cpp:
    the order of ballots, the order of statements, the sets of ballots and
    counters, and the predicates that say what a statement votes for and
    accepts. *)
From Stdlib Require Import Sorted.
From S2P Require Import Prelude Numeric QuorumSet LocalNode.

Abbreviation Hash := Z (only parsing).

(** [typedef opaque Value<>]: a vector of bytes; [Value()] is empty *)
Abbreviation Value := (list Z) (only parsing).

(** [std::lexicographical_compare] of two vectors of bytes *)
Fixpoint value_ltb (v1 v2 : Value) : bool :=
  match v1, v2 with
  | _, [] => false
  | [], _ :: _ => true
  | x :: v1', y :: v2' => if x <? y then true else if y <? x then false else value_ltb v1' v2'
  end.

(** [struct SCPBallot] *)
Record SCPBallot := mkBallot { counter : Z; value : Value }.

(** [SCPBallot()] *)
Definition emptyBallot : SCPBallot := mkBallot 0 [].

#[export] Instance ballot_eq_dec : EqDecision SCPBallot.
Proof. solve_decision. Defined.

(** [SCPStatement::pledges]: the arms of the union that the ballot protocol
    works on; nominations go to the nomination protocol *)
Record SCPPrepare := mkPrepare {
  prep_quorumSetHash : Hash; prep_ballot : SCPBallot;
  prep_prepared : option SCPBallot; prep_preparedPrime : option SCPBallot;
  prep_nC : Z; prep_nH : Z }.
Record SCPConfirm := mkConfirm {
  conf_ballot : SCPBallot; conf_nPrepared : Z; conf_nCommit : Z; conf_nH : Z;
  conf_quorumSetHash : Hash }.
Record SCPExternalize := mkExternalize {
  ext_commit : SCPBallot; ext_nH : Z; ext_commitQuorumSetHash : Hash }.

Inductive Pledges :=
| SCP_ST_PREPARE (p : SCPPrepare)
| SCP_ST_CONFIRM (c : SCPConfirm)
| SCP_ST_EXTERNALIZE (e : SCPExternalize).

(** [pledges.type()] *)
Definition pledges_type (pl : Pledges) : Z :=
  match pl with
  | SCP_ST_PREPARE _ => 0
  | SCP_ST_CONFIRM _ => 1
  | SCP_ST_EXTERNALIZE _ => 2
  end.

(** [struct SCPStatement] and [struct SCPEnvelope] *)
Record SCPStatement := mkStatement { nodeID : NodeID; slotIndex : Z; pledges : Pledges }.
Record SCPEnvelope := mkEnvelope { statement : SCPStatement; signature : Z }.

#[export] Instance prepare_eq_dec : EqDecision SCPPrepare.
Proof. solve_decision. Defined.
#[export] Instance confirm_eq_dec : EqDecision SCPConfirm.
Proof. solve_decision. Defined.
#[export] Instance externalize_eq_dec : EqDecision SCPExternalize.
Proof. solve_decision. Defined.
#[export] Instance pledges_eq_dec : EqDecision Pledges.
Proof. solve_decision. Defined.
#[export] Instance statement_eq_dec : EqDecision SCPStatement.
Proof. solve_decision. Defined.
#[export] Instance envelope_eq_dec : EqDecision SCPEnvelope.
Proof. solve_decision. Defined.

(** ** Comparing ballots *)

(** [compareBallots(SCPBallot const&, SCPBallot const&)] *)
Definition compareBallots (b1 b2 : SCPBallot) : Z :=
  if counter b1 <? counter b2 then -1
  else if counter b2 <? counter b1 then 1
  else if value_ltb (value b1) (value b2) then -1
  else if value_ltb (value b2) (value b1) then 1
  else 0.

(** [compareBallots] of two pointers *)
Definition compareBallots_ptr (b1 b2 : option SCPBallot) : Z :=
  match b1, b2 with
  | Some b1, Some b2 => compareBallots b1 b2
  | Some _, None => 1
  | None, Some _ => -1
  | None, None => 0
  end.

Definition areBallotsCompatible (b1 b2 : SCPBallot) : bool :=
  bool_decide (value b1 = value b2).

Definition areBallotsLessAndIncompatible (b1 b2 : SCPBallot) : bool :=
  (compareBallots b1 b2 <=? 0) && negb (areBallotsCompatible b1 b2).

Definition areBallotsLessAndCompatible (b1 b2 : SCPBallot) : bool :=
  (compareBallots b1 b2 <=? 0) && areBallotsCompatible b1 b2.

(** ** Comparing statements *)

(** [isNewerStatement(oldst, st)] *)
Definition isNewerStatement (oldst st : SCPStatement) : bool :=
  match pledges oldst, pledges st with
  | SCP_ST_EXTERNALIZE _, SCP_ST_EXTERNALIZE _ => false
  | SCP_ST_CONFIRM oldC, SCP_ST_CONFIRM c =>
      let compBallot := compareBallots (conf_ballot oldC) (conf_ballot c) in
      if compBallot <? 0 then true
      else if compBallot =? 0 then
        if conf_nPrepared oldC =? conf_nPrepared c then conf_nH oldC <? conf_nH c
        else conf_nPrepared oldC <? conf_nPrepared c
      else false
  | SCP_ST_PREPARE oldPrep, SCP_ST_PREPARE prep =>
      let compBallot := compareBallots (prep_ballot oldPrep) (prep_ballot prep) in
      if compBallot <? 0 then true
      else if compBallot =? 0 then
        let compBallot := compareBallots_ptr (prep_prepared oldPrep) (prep_prepared prep) in
        if compBallot <? 0 then true
        else if compBallot =? 0 then
          let compBallot :=
            compareBallots_ptr (prep_preparedPrime oldPrep) (prep_preparedPrime prep) in
          if compBallot <? 0 then true
          else if compBallot =? 0 then prep_nH oldPrep <? prep_nH prep
          else false
        else false
      else false
  | oldPl, pl => pledges_type oldPl <? pledges_type pl
  end.

(** ** Ordered sets: [std::set<SCPBallot>] and [std::set<uint32>] are lists in
    increasing order without duplicates *)

Fixpoint insert_ballot (b : SCPBallot) (l : list SCPBallot) : list SCPBallot :=
  match l with
  | [] => [b]
  | x :: l' =>
      if compareBallots b x <? 0 then b :: x :: l'
      else if compareBallots b x =? 0 then x :: l'
      else x :: insert_ballot b l'
  end.

Definition insert_opt (b : option SCPBallot) (l : list SCPBallot) : list SCPBallot :=
  match b with Some b => insert_ballot b l | None => l end.

Fixpoint insert_counter (n : Z) (l : list Z) : list Z :=
  match l with
  | [] => [n]
  | x :: l' =>
      if n <? x then n :: x :: l' else if n =? x then x :: l' else x :: insert_counter n l'
  end.

(** ** What a statement says *)

Definition getCompanionQuorumSetHashFromStatement (st : SCPStatement) : Hash :=
  match pledges st with
  | SCP_ST_PREPARE p => prep_quorumSetHash p
  | SCP_ST_CONFIRM c => conf_quorumSetHash c
  | SCP_ST_EXTERNALIZE e => ext_commitQuorumSetHash e
  end.

Definition getWorkingBallot (st : SCPStatement) : SCPBallot :=
  match pledges st with
  | SCP_ST_PREPARE p => prep_ballot p
  | SCP_ST_CONFIRM con => mkBallot (conf_nCommit con) (value (conf_ballot con))
  | SCP_ST_EXTERNALIZE e => ext_commit e
  end.

Definition statementBallotCounter (st : SCPStatement) : Z :=
  match pledges st with
  | SCP_ST_PREPARE p => counter (prep_ballot p)
  | SCP_ST_CONFIRM c => counter (conf_ballot c)
  | SCP_ST_EXTERNALIZE _ => UINT32_MAX
  end.

Definition opt_test (f : SCPBallot -> bool) (b : option SCPBallot) : bool :=
  match b with Some b => f b | None => false end.

(** is [ballot] prepared by [st] *)
Definition hasPreparedBallot (ballot : SCPBallot) (st : SCPStatement) : bool :=
  match pledges st with
  | SCP_ST_PREPARE p =>
      opt_test (areBallotsLessAndCompatible ballot) (prep_prepared p) ||
      opt_test (areBallotsLessAndCompatible ballot) (prep_preparedPrime p)
  | SCP_ST_CONFIRM c =>
      let prepared := mkBallot (conf_nPrepared c) (value (conf_ballot c)) in
      areBallotsLessAndCompatible ballot prepared
  | SCP_ST_EXTERNALIZE e => areBallotsCompatible ballot (ext_commit e)
  end.

(** the lambda of [attemptPreparedAccept]: does [st] vote to prepare [ballot] *)
Definition votedPrepare (ballot : SCPBallot) (st : SCPStatement) : bool :=
  match pledges st with
  | SCP_ST_PREPARE p => areBallotsLessAndCompatible ballot (prep_ballot p)
  | SCP_ST_CONFIRM c => areBallotsCompatible ballot (conf_ballot c)
  | SCP_ST_EXTERNALIZE e => areBallotsCompatible ballot (ext_commit e)
  end.

(** [using Interval = std::pair<uint32, uint32>] *)
Abbreviation Interval := (Z * Z)%type (only parsing).

(** does [st] accept to commit [ballot]'s value for the counters [check] *)
Definition commitPredicate (ballot : SCPBallot) (check : Interval) (st : SCPStatement) : bool :=
  match pledges st with
  | SCP_ST_PREPARE _ => false
  | SCP_ST_CONFIRM c =>
      if areBallotsCompatible ballot (conf_ballot c)
      then (conf_nCommit c <=? fst check) && (snd check <=? conf_nH c) else false
  | SCP_ST_EXTERNALIZE e =>
      if areBallotsCompatible ballot (ext_commit e)
      then counter (ext_commit e) <=? fst check else false
  end.

(** the lambda of [attemptAcceptCommit]: does [st] vote to commit *)
Definition votedCommit (ballot : SCPBallot) (cur : Interval) (st : SCPStatement) : bool :=
  match pledges st with
  | SCP_ST_PREPARE p =>
      if areBallotsCompatible ballot (prep_ballot p) then
        if negb (prep_nC p =? 0)
        then (prep_nC p <=? fst cur) && (snd cur <=? prep_nH p) else false
      else false
  | SCP_ST_CONFIRM c =>
      if areBallotsCompatible ballot (conf_ballot c)
      then conf_nCommit c <=? fst cur else false
  | SCP_ST_EXTERNALIZE e =>
      if areBallotsCompatible ballot (ext_commit e)
      then counter (ext_commit e) <=? fst cur else false
  end.

(** ** The interval of counters to commit *)

(** the loop of [findExtendedInterval], over the boundaries from the top *)
Fixpoint extend_interval (pred : Interval -> bool) (boundaries : list Z)
    (candidate : Interval) : Interval :=
  match boundaries with
  | [] => candidate
  | b :: rest =>
      let scan (cur : Interval) :=
        if pred cur then extend_interval pred rest cur
        else if negb (fst candidate =? 0) then candidate
        else extend_interval pred rest candidate in
      if fst candidate =? 0 then scan (b, b)
      else if b >? snd candidate then extend_interval pred rest candidate
      else scan (b, snd candidate)
  end.

(** [findExtendedInterval]; the callers start from [Interval()], [(0, 0)] *)
Definition findExtendedInterval (candidate : Interval) (boundaries : list Z)
    (pred : Interval -> bool) : Interval :=
  extend_interval pred (rev boundaries) candidate.

(** ** Three-way comparisons

    A comparison of C++ style, negative, zero or positive, that is a total
    order. *)

Class CmpLaws {A} (f : A -> A -> Z) : Prop := {
  cmp_zero : forall x y, f x y = 0 <-> x = y;
  cmp_flip : forall x y, f x y < 0 <-> 0 < f y x;
  cmp_trans : forall x y z, f x y < 0 -> f y z < 0 -> f x z < 0 }.

Section CmpFacts.
Context {A} (f : A -> A -> Z) `{!CmpLaws f}.

Lemma cmp_refl x : f x x = 0.
Proof. by apply (cmp_zero (f := f)). Qed.

Lemma cmp_le_trans x y z : f x y <= 0 -> f y z <= 0 -> f x z <= 0.
Proof.
  intros H1 H2.
  destruct (Z.eq_dec (f x y) 0) as [->%(cmp_zero (f := f))|]; [done|].
  destruct (Z.eq_dec (f y z) 0) as [<-%(cmp_zero (f := f))|]; [done|].
  pose proof (cmp_trans (f := f) x y z). lia.
Qed.

Lemma cmp_antisym x y : f x y <= 0 -> f y x <= 0 -> x = y.
Proof. intros. apply (cmp_zero (f := f)). pose proof (cmp_flip (f := f) x y). lia. Qed.

Lemma cmp_total x y : f x y <= 0 \/ f y x < 0.
Proof. pose proof (cmp_flip (f := f) y x). lia. Qed.
End CmpFacts.

Definition cmp_Z (x y : Z) : Z := if x <? y then -1 else if y <? x then 1 else 0.

#[export] Instance cmp_Z_laws : CmpLaws cmp_Z.
Proof. split; unfold cmp_Z; intros *; repeat split_if; lia. Qed.

Definition cmp_pair {A B} (f : A -> A -> Z) (g : B -> B -> Z) (x y : A * B) : Z :=
  if f x.1 y.1 =? 0 then g x.2 y.2 else f x.1 y.1.

#[export] Instance cmp_pair_laws {A B} (f : A -> A -> Z) (g : B -> B -> Z) :
  CmpLaws f -> CmpLaws g -> CmpLaws (cmp_pair f g).
Proof.
  intros Hf Hg. split; unfold cmp_pair.
  - intros [x1 x2] [y1 y2]; cbn [fst snd]. split_if.
    + rewrite (cmp_zero (f := f)) in E. rewrite (cmp_zero (f := g)). split; [by intros ->; subst|by intros [=]].
    + split; [lia|]. intros [= -> ->]. by rewrite (cmp_refl f) in E.
  - intros [x1 x2] [y1 y2]; cbn [fst snd].
    pose proof (cmp_flip (f := f) x1 y1). pose proof (cmp_flip (f := f) y1 x1).
    pose proof (cmp_flip (f := g) x2 y2). repeat split_if; lia.
  - intros [x1 x2] [y1 y2] [z1 z2]; cbn [fst snd].
    destruct (Z.eqb_spec (f x1 y1) 0) as [->%(cmp_zero (f := f))|];
      destruct (Z.eqb_spec (f y1 z1) 0) as [<-%(cmp_zero (f := f))|].
    + apply (cmp_trans (f := g)).
    + by intros _ H.
    + intros H _. destruct (Z.eqb_spec (f x1 y1) 0); lia.
    + intros H1 H2. pose proof (cmp_trans (f := f) _ _ _ H1 H2). split_if; lia.
Qed.

Definition cmp_opt {A} (f : A -> A -> Z) (x y : option A) : Z :=
  match x, y with
  | Some x, Some y => f x y
  | Some _, None => 1
  | None, Some _ => -1
  | None, None => 0
  end.

#[export] Instance cmp_opt_laws {A} (f : A -> A -> Z) : CmpLaws f -> CmpLaws (cmp_opt f).
Proof.
  intros Hf. split; unfold cmp_opt.
  - intros [x|] [y|]; try (split; [lia|by intros [=]]); [|done].
    rewrite (cmp_zero (f := f)). split; [by intros ->|by intros [=]].
  - intros [x|] [y|]; try lia. apply (cmp_flip (f := f)).
  - intros [x|] [y|] [z|]; try lia. apply (cmp_trans (f := f)).
Qed.

(** ** The order of values and ballots *)

Lemma value_ltb_irrefl v : value_ltb v v = false.
Proof. induction v as [|x v IH]; [done|]. cbn. by rewrite Z.ltb_irrefl. Qed.

Lemma value_ltb_trans v1 v2 v3 :
  value_ltb v1 v2 = true -> value_ltb v2 v3 = true -> value_ltb v1 v3 = true.
Proof.
  revert v2 v3. induction v1 as [|x v1 IH]; intros [|y v2] [|z v3]; cbn; try done.
  intros H1 H2. repeat (case_match; zb; try done); try lia. by eapply IH.
Qed.

Lemma value_ltb_total v1 v2 :
  value_ltb v1 v2 = false -> value_ltb v2 v1 = false -> v1 = v2.
Proof.
  revert v2. induction v1 as [|x v1 IH]; intros [|y v2]; cbn; try done.
  intros H1 H2. repeat (case_match; zb; try done); try lia.
  f_equal; [lia|by apply IH].
Qed.

Definition cmp_value (v1 v2 : Value) : Z :=
  if value_ltb v1 v2 then -1 else if value_ltb v2 v1 then 1 else 0.

#[export] Instance cmp_value_laws : CmpLaws cmp_value.
Proof.
  split; unfold cmp_value.
  - intros x y. destruct (value_ltb x y) eqn:E1, (value_ltb y x) eqn:E2; split; try done;
      try (intros ->; by rewrite value_ltb_irrefl in *).
    intros _. by apply value_ltb_total.
  - intros x y. destruct (value_ltb x y) eqn:E1, (value_ltb y x) eqn:E2; try lia.
    pose proof (value_ltb_trans _ _ _ E1 E2). by rewrite value_ltb_irrefl in *.
  - intros x y z. destruct (value_ltb x y) eqn:E1; [|case_match; lia].
    intros _. destruct (value_ltb y z) eqn:E2; [|case_match; lia].
    by rewrite (value_ltb_trans _ _ _ E1 E2).
Qed.

Definition ballot_key (b : SCPBallot) : Z * Value := (counter b, value b).

Lemma compareBallots_key b1 b2 :
  compareBallots b1 b2 = cmp_pair cmp_Z cmp_value (ballot_key b1) (ballot_key b2).
Proof.
  unfold compareBallots, cmp_pair, cmp_Z, cmp_value, ballot_key; cbn [fst snd].
  destruct (Z.ltb_spec (counter b1) (counter b2)); [done|].
  by destruct (Z.ltb_spec (counter b2) (counter b1)).
Qed.

#[export] Instance compareBallots_laws : CmpLaws compareBallots.
Proof.
  split.
  - intros x y. rewrite compareBallots_key, cmp_zero. unfold ballot_key. destruct x, y; cbn.
    split; [by intros [= -> ->]|by intros [= -> ->]].
  - intros x y. rewrite !compareBallots_key. apply cmp_flip.
  - intros x y z. rewrite !compareBallots_key. apply cmp_trans.
Qed.

(** facts about ballots, in terms of counters and values *)
Lemma compat_eq b1 b2 : areBallotsCompatible b1 b2 = true <-> value b1 = value b2.
Proof. apply bool_decide_eq_true. Qed.

Lemma compareBallots_counter b1 b2 : compareBallots b1 b2 <= 0 -> counter b1 <= counter b2.
Proof. unfold compareBallots. repeat split_if; lia. Qed.

Lemma compareBallots_lt b1 b2 : counter b1 < counter b2 -> compareBallots b1 b2 = -1.
Proof. intros. unfold compareBallots. rewrite (proj2 (Z.ltb_lt _ _)) by lia. done. Qed.

Lemma compareBallots_same_value b1 b2 :
  value b1 = value b2 -> compareBallots b1 b2 = cmp_Z (counter b1) (counter b2).
Proof.
  intros Hv. unfold compareBallots, cmp_Z. rewrite Hv, value_ltb_irrefl.
  repeat split_if; done.
Qed.

Lemma less_compat_iff b1 b2 :
  areBallotsLessAndCompatible b1 b2 = true <-> counter b1 <= counter b2 /\ value b1 = value b2.
Proof.
  unfold areBallotsLessAndCompatible. rewrite andb_true_iff, compat_eq, Z.leb_le.
  split; intros [H1 H2]; split; try done.
  - by apply compareBallots_counter.
  - rewrite compareBallots_same_value by done. unfold cmp_Z. repeat split_if; lia.
Qed.

(** ** The order of statements *)

(** what [isNewerStatement] compares *)
Definition statement_key (pl : Pledges)
    : Z * (SCPBallot * (option SCPBallot * (option SCPBallot * (Z * Z)))) :=
  match pl with
  | SCP_ST_PREPARE p => (0, (prep_ballot p, (prep_prepared p, (prep_preparedPrime p, (prep_nH p, 0)))))
  | SCP_ST_CONFIRM c => (1, (conf_ballot c, (None, (None, (conf_nPrepared c, conf_nH c)))))
  | SCP_ST_EXTERNALIZE _ => (2, (emptyBallot, (None, (None, (0, 0)))))
  end.

Definition cmp_key :=
  cmp_pair cmp_Z (cmp_pair compareBallots (cmp_pair (cmp_opt compareBallots)
    (cmp_pair (cmp_opt compareBallots) (cmp_pair cmp_Z cmp_Z)))).

#[export] Instance cmp_key_laws : CmpLaws cmp_key.
Proof. apply _. Qed.

Lemma lex_step c r k :
  r = (k <? 0) ->
  (if c <? 0 then true else if c =? 0 then r else false) = ((if c =? 0 then k else c) <? 0).
Proof.
  intros ->. destruct (Z.ltb_spec c 0), (Z.eqb_spec c 0); try done; try lia.
Qed.

Lemma lex_last x y : (x <? y) = (cmp_pair cmp_Z cmp_Z (x, 0) (y, 0) <? 0).
Proof. unfold cmp_pair, cmp_Z; cbn. by destruct (Z.ltb_spec x y), (Z.ltb_spec y x); try lia. Qed.

Lemma lex_two x y x' y' :
  (if x =? x' then y <? y' else x <? x') = (cmp_pair cmp_Z cmp_Z (x, y) (x', y') <? 0).
Proof.
  unfold cmp_pair, cmp_Z; cbn.
  by destruct (Z.eqb_spec x x'), (Z.ltb_spec x x'), (Z.ltb_spec x' x),
    (Z.ltb_spec y y'), (Z.ltb_spec y' y); try lia.
Qed.

Lemma isNewerStatement_key oldst st :
  isNewerStatement oldst st =
  (cmp_key (statement_key (pledges oldst)) (statement_key (pledges st)) <? 0).
Proof.
  unfold isNewerStatement, cmp_key.
  destruct (pledges oldst) as [p|c|e], (pledges st) as [p'|c'|e']; try done.
  - unfold cmp_pair at 1. cbn [statement_key fst snd]. change (cmp_Z 0 0 =? 0) with true.
    apply lex_step, lex_step, lex_step, lex_last.
  - unfold cmp_pair at 1. cbn [statement_key fst snd]. change (cmp_Z 1 1 =? 0) with true.
    apply lex_step. apply lex_two.
Qed.

Lemma isNewerStatement_irrefl st : isNewerStatement st st = false.
Proof. rewrite isNewerStatement_key, (cmp_refl cmp_key). done. Qed.

Lemma isNewerStatement_trans st1 st2 st3 :
  isNewerStatement st1 st2 = true -> isNewerStatement st2 st3 = true ->
  isNewerStatement st1 st3 = true.
Proof. rewrite !isNewerStatement_key, !Z.ltb_lt. apply (cmp_trans (f := cmp_key)). Qed.

(** two statements of the same type that agree on everything compared *)
Definition same_rank (st1 st2 : SCPStatement) : Prop :=
  match pledges st1, pledges st2 with
  | SCP_ST_PREPARE p1, SCP_ST_PREPARE p2 =>
      prep_ballot p1 = prep_ballot p2 /\ prep_prepared p1 = prep_prepared p2 /\
      prep_preparedPrime p1 = prep_preparedPrime p2 /\ prep_nH p1 = prep_nH p2
  | SCP_ST_CONFIRM c1, SCP_ST_CONFIRM c2 =>
      conf_ballot c1 = conf_ballot c2 /\ conf_nPrepared c1 = conf_nPrepared c2 /\
      conf_nH c1 = conf_nH c2
  | SCP_ST_EXTERNALIZE _, SCP_ST_EXTERNALIZE _ => True
  | _, _ => False
  end.

Lemma same_rank_key st1 st2 :
  same_rank st1 st2 <-> statement_key (pledges st1) = statement_key (pledges st2).
Proof.
  unfold same_rank, statement_key. destruct (pledges st1), (pledges st2); split; try done.
  - intros (?&?&?&?). congruence.
  - by intros [= -> -> -> ->].
  - intros (?&?&?). congruence.
  - by intros [= -> -> ->].
Qed.

(** [isNewerStatement] is a strict order on statements, and two
    statements are unrelated exactly when they have the same type and the same
    ballots and counters: of two different positions of a node, one is newer. *)
Theorem isNewerStatement_strict_order :
  (forall st, isNewerStatement st st = false) /\
  (forall st1 st2 st3, isNewerStatement st1 st2 = true -> isNewerStatement st2 st3 = true ->
     isNewerStatement st1 st3 = true) /\
  (forall st1 st2, (isNewerStatement st1 st2 = false /\ isNewerStatement st2 st1 = false) <->
     same_rank st1 st2).
Proof.
  split; [apply isNewerStatement_irrefl|]. split; [apply isNewerStatement_trans|].
  intros st1 st2. rewrite same_rank_key, !isNewerStatement_key, !Z.ltb_ge. split.
  - intros [H1 H2]. apply (cmp_zero (f := cmp_key)).
    pose proof (cmp_flip (f := cmp_key) (statement_key (pledges st2)) (statement_key (pledges st1))). lia.
  - intros ->. rewrite !(cmp_refl cmp_key). lia.
Qed.

(** ** The interval found *)

(** [lo] is the lowest of the boundaries [l] down to which every boundary
    satisfies [P] *)
Definition lowest_run (P : Z -> bool) (l : list Z) (lo : Z) : Prop :=
  (forall b, b ∈ l -> lo <= b -> P b = true) /\
  (forall b, b ∈ l -> b < lo -> (forall b', b' ∈ l -> b < b' -> lo <= b') -> P b = false).

(** from a candidate that is already an interval, below its low end *)
Lemma extend_interval_down pred l lo hi :
  0 < lo -> lo <= hi -> StronglySorted Z.gt l -> (forall b, b ∈ l -> 0 < b < lo) ->
  exists lo', extend_interval pred l (lo, hi) = (lo', hi) /\
    (lo' = lo \/ lo' ∈ l) /\ 0 < lo' <= lo /\ lowest_run (fun b => pred (b, hi)) l lo'.
Proof.
  revert lo. induction l as [|b l IH]; intros lo H0 Hle Hs Hb.
  { exists lo. split; [done|]. split; [by left|]. split; [lia|]. split; intros ? []%elem_of_nil. }
  apply StronglySorted_inv in Hs as [Hs Hgt]. rewrite Forall_forall in Hgt.
  pose proof (Hb b (list_elem_of_here _ _)) as Hb0.
  cbn [extend_interval fst snd]. rewrite (proj2 (Z.eqb_neq lo 0)) by lia.
  rewrite Z.gtb_ltb, (proj2 (Z.ltb_ge hi b)) by lia.
  destruct (pred (b, hi)) eqn:E; cbn [negb].
  - destruct (IH b) as (lo' & Eq & Hin & Hr & Hrun & Hnext); [lia|lia|done| |].
    { intros x Hx. pose proof (Hb x (list_elem_of_further _ _ _ Hx)). pose proof (Hgt x Hx). lia. }
    exists lo'. split; [done|]. split; [right; set_solver|]. split; [lia|]. split.
    + intros x [->|Hx]%elem_of_cons ?; [done|by apply Hrun].
    + intros x [->|Hx]%elem_of_cons ? Hn; [lia|]. apply Hnext; [done..|]. intros b' Hb'. apply Hn. set_solver.
  - exists lo. split; [done|]. split; [by left|]. split; [lia|]. split.
    + intros x Hx ?. pose proof (Hb x Hx). lia.
    + intros x [->|Hx]%elem_of_cons ? Hn; [done|]. pose proof (Hgt x Hx).
      pose proof (Hn b (list_elem_of_here _ _)). lia.
Qed.

Lemma extend_interval_top pred l :
  StronglySorted Z.gt l -> (forall b, b ∈ l -> 0 < b) ->
  let '(lo, hi) := extend_interval pred l (0, 0) in
  (lo = 0 /\ hi = 0 /\ forall b, b ∈ l -> pred (b, b) = false) \/
  (lo ∈ l /\ hi ∈ l /\ 0 < lo <= hi /\ pred (hi, hi) = true /\
   (forall b, b ∈ l -> hi < b -> pred (b, b) = false) /\
   lowest_run (fun b => pred (b, hi)) (List.filter (fun b => b <=? hi) l) lo).
Proof.
  induction l as [|b l IH]; intros Hs Hb.
  { left. split; [done|]. split; [done|]. intros ? []%elem_of_nil. }
  apply StronglySorted_inv in Hs as [Hs Hgt]. rewrite Forall_forall in Hgt.
  pose proof (Hb b (list_elem_of_here _ _)) as Hb0.
  assert (Hb' : forall x, x ∈ l -> 0 < x < b).
  { intros x Hx. pose proof (Hb x (list_elem_of_further _ _ _ Hx)). pose proof (Hgt x Hx). lia. }
  cbn [extend_interval fst snd]. change (0 =? 0) with true. cbn [negb].
  destruct (pred (b, b)) eqn:E.
  - destruct (extend_interval_down pred l b b) as (lo & -> & Hin & Hr & Hrun & Hnext); [lia|lia|done|done|].
    right. split; [set_solver|]. split; [set_solver|]. split; [lia|]. split; [done|]. split.
    { intros x [->|Hx]%elem_of_cons ?; [lia|]. pose proof (Hb' x Hx). lia. }
    split; intros x [[->|Hx]%elem_of_cons Hle%Z.leb_le]%elem_of_filter_list; try done.
    + by apply Hrun.
    + lia.
    + intros Hx' Hn. apply Hnext; [done..|]. intros y Hy. apply Hn, elem_of_filter_list.
      pose proof (Hb' y Hy). split; [set_solver|]. apply Z.leb_le. lia.
  - specialize (IH Hs (fun x Hx => proj1 (Hb' x Hx))).
    destruct (extend_interval pred l (0, 0)) as [lo hi].
    destruct IH as [(-> & -> & IH)|(H1 & H2 & H3 & H4 & H5 & H6)]; [left|right].
    + split; [done|]. split; [done|]. intros x [->|Hx]%elem_of_cons; auto.
    + split; [set_solver|]. split; [set_solver|]. split; [done|]. split; [done|]. split.
      * intros x [->|Hx]%elem_of_cons; auto.
      * cbn [List.filter]. pose proof (Hb' hi H2). rewrite (proj2 (Z.leb_gt b hi)) by lia. done.
Qed.

Lemma StronglySorted_snoc l x :
  StronglySorted Z.gt l -> (forall y, y ∈ l -> y > x) -> StronglySorted Z.gt (l ++ [x]).
Proof.
  induction l as [|y l IH]; intros Hs Hx; [by repeat constructor|].
  apply StronglySorted_inv in Hs as [Hs Hgt]. cbn. constructor.
  - apply IH; [done|]. intros z Hz. apply Hx. set_solver.
  - apply Forall_app. split; [done|]. constructor; [|done]. apply Hx. set_solver.
Qed.

Lemma elem_of_rev {A} (x : A) l : x ∈ rev l <-> x ∈ l.
Proof. by rewrite !list_elem_of_In, <- in_rev. Qed.

Lemma StronglySorted_rev l : StronglySorted Z.lt l -> StronglySorted Z.gt (rev l).
Proof.
  induction 1 as [|x l Hs IH Hlt]; [constructor|]. cbn. apply StronglySorted_snoc; [done|].
  intros y Hy. rewrite Forall_forall in Hlt. rewrite elem_of_rev in Hy.
  pose proof (Hlt y Hy). lia.
Qed.

(** the set of counters stays in order *)
Lemma insert_counter_elem n l x : x ∈ insert_counter n l <-> x = n \/ x ∈ l.
Proof.
  induction l as [|y l IH]; cbn; [set_solver|]. repeat split_if.
  - set_solver.
  - subst. set_solver.
  - rewrite !elem_of_cons, IH. tauto.
Qed.

Lemma insert_counter_sorted n l : StronglySorted Z.lt l -> StronglySorted Z.lt (insert_counter n l).
Proof.
  induction 1 as [|y l Hs IH Hlt]; cbn; [by repeat constructor|]. rewrite Forall_forall in Hlt.
  repeat split_if.
  - constructor; [by constructor; [|apply Forall_forall]|]. apply Forall_forall.
    intros x [->|Hx]%elem_of_cons; [done|]. pose proof (Hlt x Hx). lia.
  - by constructor; [|apply Forall_forall].
  - constructor; [done|]. apply Forall_forall. intros x [->|Hx]%insert_counter_elem; [lia|by apply Hlt].
Qed.

(** [findExtendedInterval] finds the interval the protocol needs.
    Over a set of counters without 0, it returns [(0, 0)] exactly when no
    counter satisfies the predicate on its own; otherwise the high end is the
    greatest counter that does, and the low end is the lowest counter down to
    which every counter still satisfies the predicate together with the high
    end. *)
Theorem findExtendedInterval_correct boundaries pred :
  StronglySorted Z.lt boundaries -> (forall b, b ∈ boundaries -> 0 < b) ->
  let '(lo, hi) := findExtendedInterval (0, 0) boundaries pred in
  (lo = 0 /\ hi = 0 /\ forall b, b ∈ boundaries -> pred (b, b) = false) \/
  (lo ∈ boundaries /\ hi ∈ boundaries /\ 0 < lo <= hi /\ pred (hi, hi) = true /\
   (forall b, b ∈ boundaries -> hi < b -> pred (b, b) = false) /\
   lowest_run (fun b => pred (b, hi)) (List.filter (fun b => b <=? hi) boundaries) lo).
Proof.
  intros Hs Hp. unfold findExtendedInterval.
  pose proof (extend_interval_top pred (rev boundaries) (StronglySorted_rev _ Hs)) as H.
  assert (Hp' : forall b, b ∈ rev boundaries -> 0 < b) by (intros b; rewrite elem_of_rev; auto).
  specialize (H Hp'). destruct (extend_interval pred (rev boundaries) (0, 0)) as [lo hi].
  destruct H as [(-> & -> & H)|(H1 & H2 & H3 & H4 & H5 & H6 & H7)]; [left|right].
  { split; [done|]. split; [done|]. intros b Hb. by apply H, elem_of_rev. }
  assert (Hf : forall x, x ∈ List.filter (fun b => b <=? hi) (rev boundaries) <->
                         x ∈ List.filter (fun b => b <=? hi) boundaries)
    by (intros x; by rewrite !elem_of_filter_list, elem_of_rev).
  split; [by apply elem_of_rev|]. split; [by apply elem_of_rev|]. split; [done|]. split; [done|]. split.
  { intros b Hb. by apply H5, elem_of_rev. }
  split; intros b Hb; [by apply H6, Hf|]. intros Hlo Hn. apply H7; [by apply Hf|done|].
  intros b' Hb'. apply Hn. by apply Hf.
Qed.

Lemma findExtendedInterval_correct_witness :
  findExtendedInterval (0, 0) [2; 3; 5; 8] (fun c => (3 <=? c.1) && (c.2 <=? 5)) = (3, 5) /\
  lowest_run (fun b => (3 <=? b) && (5 <=? 5)) [2; 3; 5] 3.
Proof.
  pose proof (findExtendedInterval_correct [2; 3; 5; 8] (fun c => (3 <=? c.1) && (c.2 <=? 5))) as H.
  specialize (H ltac:(repeat constructor; lia) ltac:(intros b; rewrite !elem_of_cons, elem_of_nil; lia)).
  vm_compute in H. split; [reflexivity|].
  destruct H as [H|H]; [by destruct H|]. apply H.
Defined.
