(* ===== verification/BallotProtocol.v ===== *)
(** * The ballot protocol

    src/src/scp/BallotProtocol.cpp and .h with the parts of src/src/scp/Slot.cpp
    it works with: the whole state of the protocol for one slot, every handler
    and every transition, in the order the code performs them.

    The protocol feeds its own statements back into itself:
    [emitCurrentStateStatement] calls [processEnvelope], which calls
    [advanceSlot], whose attempts emit again.  The definitions below take the
    recursive call as an argument and [processEnvelope] ties the knot with fuel;
    the code stops the recursion itself after [MAX_ADVANCE_SLOT_RECURSION]
    levels. *)
From S2P Require Import Prelude Numeric QuorumSet LocalNode Ballots.

(** [SCPDriver::ValidationLevel], [SCP::EnvelopeState],
    [BallotProtocol::SCPPhase] *)
Inductive ValidationLevel := kInvalidValue | kFullyValidatedValue | kMaybeValidValue.
Inductive EnvelopeState := INVALID | VALID.
Inductive SCPPhase := SCP_PHASE_PREPARE | SCP_PHASE_CONFIRM | SCP_PHASE_EXTERNALIZE.

#[export] Instance level_eq_dec : EqDecision ValidationLevel.
Proof. solve_decision. Defined.
#[export] Instance envelope_state_eq_dec : EqDecision EnvelopeState.
Proof. solve_decision. Defined.
#[export] Instance phase_eq_dec : EqDecision SCPPhase.
Proof. solve_decision. Defined.

(** What the protocol reads of its surroundings: whether [dbgAssert] is compiled
    in, the local node, and the answers of the driver, an abstract class whose
    methods the user of the protocol implements. *)
Class SCPContext := {
  dbg : bool;
  getLocalNodeID : NodeID;
  getSlotIndex : Z;
  getQuorumSet : SCPQuorumSet;
  getQuorumSetHash : Hash;
  getQSet : Hash -> option SCPQuorumSet;
  validateValue : Value -> ValidationLevel;
  signEnvelope : SCPStatement -> Z }.

(** The calls the protocol makes to the driver and to the nomination protocol;
    [setupTimer None] cancels the timer *)
Inductive DriverCall :=
| startedBallotProtocol (b : SCPBallot)
| acceptedBallotPrepared (b : SCPBallot)
| confirmedBallotPrepared (b : SCPBallot)
| acceptedCommit (b : SCPBallot)
| ballotDidHearFromQuorum (b : SCPBallot)
| setupTimer (timeout : option Z)
| emitEnvelope (e : SCPEnvelope)
| stopNomination
| valueExternalized (v : Value).

(** The members of [BallotProtocol], then those of [Slot] it uses:
    [mFullyValidated], [mStatementsHistory] and the candidate value of the
    nomination protocol.  A [std::shared_ptr] is the number of its allocation
    with the object, so that pointers are compared as the code compares them;
    [mAllocated] counts the allocations and [mCalls] lists the calls made so
    far. *)
Record BState := mkBState {
  mHeardFromQuorum : bool;
  (* b *) mCurrentBallot : option SCPBallot;
  (* p *) mPrepared : option SCPBallot;
  (* p' *) mPreparedPrime : option SCPBallot;
  (* h *) mHighBallot : option SCPBallot;
  (* c *) mCommit : option SCPBallot;
  (* M *) mLatestEnvelopes : list (NodeID * SCPEnvelope);
  (* Phi *) mPhase : SCPPhase;
  (* z *) mValueOverride : option Value;
  mCurrentMessageLevel : Z;
  mLastEnvelope : option (nat * SCPEnvelope);
  mLastEnvelopeEmit : option (nat * SCPEnvelope);
  mFullyValidated : bool;
  mStatementsHistory : list (SCPStatement * bool);
  mLatestCompositeCandidate : Value;
  mAllocated : nat;
  mCalls : list DriverCall }.

Definition set_mHeardFromQuorum (x : bool) (s : BState) : BState :=
  mkBState x (mCurrentBallot s) (mPrepared s) (mPreparedPrime s) (mHighBallot s) (mCommit s)
    (mLatestEnvelopes s) (mPhase s) (mValueOverride s) (mCurrentMessageLevel s) (mLastEnvelope
    s) (mLastEnvelopeEmit s) (mFullyValidated s) (mStatementsHistory s)
    (mLatestCompositeCandidate s) (mAllocated s) (mCalls s).
Definition set_mCurrentBallot (x : option SCPBallot) (s : BState) : BState :=
  mkBState (mHeardFromQuorum s) x (mPrepared s) (mPreparedPrime s) (mHighBallot s) (mCommit s)
    (mLatestEnvelopes s) (mPhase s) (mValueOverride s) (mCurrentMessageLevel s) (mLastEnvelope
    s) (mLastEnvelopeEmit s) (mFullyValidated s) (mStatementsHistory s)
    (mLatestCompositeCandidate s) (mAllocated s) (mCalls s).
Definition set_mPrepared (x : option SCPBallot) (s : BState) : BState :=
  mkBState (mHeardFromQuorum s) (mCurrentBallot s) x (mPreparedPrime s) (mHighBallot s)
    (mCommit s) (mLatestEnvelopes s) (mPhase s) (mValueOverride s) (mCurrentMessageLevel s)
    (mLastEnvelope s) (mLastEnvelopeEmit s) (mFullyValidated s) (mStatementsHistory s)
    (mLatestCompositeCandidate s) (mAllocated s) (mCalls s).
Definition set_mPreparedPrime (x : option SCPBallot) (s : BState) : BState :=
  mkBState (mHeardFromQuorum s) (mCurrentBallot s) (mPrepared s) x (mHighBallot s) (mCommit s)
    (mLatestEnvelopes s) (mPhase s) (mValueOverride s) (mCurrentMessageLevel s) (mLastEnvelope
    s) (mLastEnvelopeEmit s) (mFullyValidated s) (mStatementsHistory s)
    (mLatestCompositeCandidate s) (mAllocated s) (mCalls s).
Definition set_mHighBallot (x : option SCPBallot) (s : BState) : BState :=
  mkBState (mHeardFromQuorum s) (mCurrentBallot s) (mPrepared s) (mPreparedPrime s) x (mCommit
    s) (mLatestEnvelopes s) (mPhase s) (mValueOverride s) (mCurrentMessageLevel s)
    (mLastEnvelope s) (mLastEnvelopeEmit s) (mFullyValidated s) (mStatementsHistory s)
    (mLatestCompositeCandidate s) (mAllocated s) (mCalls s).
Definition set_mCommit (x : option SCPBallot) (s : BState) : BState :=
  mkBState (mHeardFromQuorum s) (mCurrentBallot s) (mPrepared s) (mPreparedPrime s)
    (mHighBallot s) x (mLatestEnvelopes s) (mPhase s) (mValueOverride s) (mCurrentMessageLevel
    s) (mLastEnvelope s) (mLastEnvelopeEmit s) (mFullyValidated s) (mStatementsHistory s)
    (mLatestCompositeCandidate s) (mAllocated s) (mCalls s).
Definition set_mLatestEnvelopes (x : list (NodeID * SCPEnvelope)) (s : BState) : BState :=
  mkBState (mHeardFromQuorum s) (mCurrentBallot s) (mPrepared s) (mPreparedPrime s)
    (mHighBallot s) (mCommit s) x (mPhase s) (mValueOverride s) (mCurrentMessageLevel s)
    (mLastEnvelope s) (mLastEnvelopeEmit s) (mFullyValidated s) (mStatementsHistory s)
    (mLatestCompositeCandidate s) (mAllocated s) (mCalls s).
Definition set_mPhase (x : SCPPhase) (s : BState) : BState :=
  mkBState (mHeardFromQuorum s) (mCurrentBallot s) (mPrepared s) (mPreparedPrime s)
    (mHighBallot s) (mCommit s) (mLatestEnvelopes s) x (mValueOverride s) (mCurrentMessageLevel
    s) (mLastEnvelope s) (mLastEnvelopeEmit s) (mFullyValidated s) (mStatementsHistory s)
    (mLatestCompositeCandidate s) (mAllocated s) (mCalls s).
Definition set_mValueOverride (x : option Value) (s : BState) : BState :=
  mkBState (mHeardFromQuorum s) (mCurrentBallot s) (mPrepared s) (mPreparedPrime s)
    (mHighBallot s) (mCommit s) (mLatestEnvelopes s) (mPhase s) x (mCurrentMessageLevel s)
    (mLastEnvelope s) (mLastEnvelopeEmit s) (mFullyValidated s) (mStatementsHistory s)
    (mLatestCompositeCandidate s) (mAllocated s) (mCalls s).
Definition set_mCurrentMessageLevel (x : Z) (s : BState) : BState :=
  mkBState (mHeardFromQuorum s) (mCurrentBallot s) (mPrepared s) (mPreparedPrime s)
    (mHighBallot s) (mCommit s) (mLatestEnvelopes s) (mPhase s) (mValueOverride s) x
    (mLastEnvelope s) (mLastEnvelopeEmit s) (mFullyValidated s) (mStatementsHistory s)
    (mLatestCompositeCandidate s) (mAllocated s) (mCalls s).
Definition set_mLastEnvelope (x : option (nat * SCPEnvelope)) (s : BState) : BState :=
  mkBState (mHeardFromQuorum s) (mCurrentBallot s) (mPrepared s) (mPreparedPrime s)
    (mHighBallot s) (mCommit s) (mLatestEnvelopes s) (mPhase s) (mValueOverride s)
    (mCurrentMessageLevel s) x (mLastEnvelopeEmit s) (mFullyValidated s) (mStatementsHistory s)
    (mLatestCompositeCandidate s) (mAllocated s) (mCalls s).
Definition set_mLastEnvelopeEmit (x : option (nat * SCPEnvelope)) (s : BState) : BState :=
  mkBState (mHeardFromQuorum s) (mCurrentBallot s) (mPrepared s) (mPreparedPrime s)
    (mHighBallot s) (mCommit s) (mLatestEnvelopes s) (mPhase s) (mValueOverride s)
    (mCurrentMessageLevel s) (mLastEnvelope s) x (mFullyValidated s) (mStatementsHistory s)
    (mLatestCompositeCandidate s) (mAllocated s) (mCalls s).
Definition set_mFullyValidated (x : bool) (s : BState) : BState :=
  mkBState (mHeardFromQuorum s) (mCurrentBallot s) (mPrepared s) (mPreparedPrime s)
    (mHighBallot s) (mCommit s) (mLatestEnvelopes s) (mPhase s) (mValueOverride s)
    (mCurrentMessageLevel s) (mLastEnvelope s) (mLastEnvelopeEmit s) x (mStatementsHistory s)
    (mLatestCompositeCandidate s) (mAllocated s) (mCalls s).
Definition set_mStatementsHistory (x : list (SCPStatement * bool)) (s : BState) : BState :=
  mkBState (mHeardFromQuorum s) (mCurrentBallot s) (mPrepared s) (mPreparedPrime s)
    (mHighBallot s) (mCommit s) (mLatestEnvelopes s) (mPhase s) (mValueOverride s)
    (mCurrentMessageLevel s) (mLastEnvelope s) (mLastEnvelopeEmit s) (mFullyValidated s) x
    (mLatestCompositeCandidate s) (mAllocated s) (mCalls s).
Definition set_mLatestCompositeCandidate (x : Value) (s : BState) : BState :=
  mkBState (mHeardFromQuorum s) (mCurrentBallot s) (mPrepared s) (mPreparedPrime s)
    (mHighBallot s) (mCommit s) (mLatestEnvelopes s) (mPhase s) (mValueOverride s)
    (mCurrentMessageLevel s) (mLastEnvelope s) (mLastEnvelopeEmit s) (mFullyValidated s)
    (mStatementsHistory s) x (mAllocated s) (mCalls s).
Definition set_mAllocated (x : nat) (s : BState) : BState :=
  mkBState (mHeardFromQuorum s) (mCurrentBallot s) (mPrepared s) (mPreparedPrime s)
    (mHighBallot s) (mCommit s) (mLatestEnvelopes s) (mPhase s) (mValueOverride s)
    (mCurrentMessageLevel s) (mLastEnvelope s) (mLastEnvelopeEmit s) (mFullyValidated s)
    (mStatementsHistory s) (mLatestCompositeCandidate s) x (mCalls s).
Definition set_mCalls (x : list DriverCall) (s : BState) : BState :=
  mkBState (mHeardFromQuorum s) (mCurrentBallot s) (mPrepared s) (mPreparedPrime s)
    (mHighBallot s) (mCommit s) (mLatestEnvelopes s) (mPhase s) (mValueOverride s)
    (mCurrentMessageLevel s) (mLastEnvelope s) (mLastEnvelopeEmit s) (mFullyValidated s)
    (mStatementsHistory s) (mLatestCompositeCandidate s) (mAllocated s) x.

(** [BallotProtocol::BallotProtocol] and [Slot::Slot] *)
Definition newBallotProtocol (isValidator : bool) : BState :=
  mkBState false None None None None None [] SCP_PHASE_PREPARE None 0 None None isValidator
    [] [] 0 [].

Definition call (c : DriverCall) (s : BState) : BState := set_mCalls (mCalls s ++ [c]) s.

Definition MAX_ADVANCE_SLOT_RECURSION : Z := 50.

(** [std::map] insertion or replacement, in key order *)
Fixpoint map_insert {A} (k : NodeID) (v : A) (m : list (NodeID * A)) : list (NodeID * A) :=
  match m with
  | [] => [(k, v)]
  | (k', v') :: m' =>
      if k <? k' then (k, v) :: (k', v') :: m'
      else if k =? k' then (k, v) :: m'
      else (k', v') :: map_insert k v m'
  end.

(** the use of a pointer that may be empty *)
Definition deref {A} (p : option A) : res A :=
  match p with Some x => Ok x | None => Throw NullPointer end.

Definition is_set {A} (p : option A) : bool :=
  match p with Some _ => true | None => false end.

Definition in_prepare_or_confirm (s : BState) : bool :=
  match mPhase s with SCP_PHASE_EXTERNALIZE => false | _ => true end.

Section Code.
Context `{Ctx : SCPContext}.

(** [dbgAssert(e)]: without NDEBUG, evaluates [e] and aborts when it is false *)
Definition dbgAssert (e : res bool) : res unit :=
  if dbg then b ← e; assert_ b else Ok tt.

(** ** Federated voting, over the latest statement of every node *)

(** [Slot::getQuorumSetFromStatement] *)
Definition getQuorumSetFromStatement (st : SCPStatement) : option SCPQuorumSet :=
  match pledges st with
  | SCP_ST_EXTERNALIZE _ => Some (buildSingletonQSet (nodeID st))
  | SCP_ST_PREPARE p => getQSet (prep_quorumSetHash p)
  | SCP_ST_CONFIRM c => getQSet (conf_quorumSetHash c)
  end.

Definition statements (envs : list (NodeID * SCPEnvelope)) : list (NodeID * SCPStatement) :=
  map (fun kv => (kv.1, statement kv.2)) envs.

Definition isQuorum_envs (envs : list (NodeID * SCPEnvelope)) (flt : SCPStatement -> bool) : bool :=
  match isQuorum getQuorumSet (statements envs) getQuorumSetFromStatement flt with
  | Some b => b
  | None => false
  end.

(** [Slot::federatedAccept] *)
Definition federatedAccept (voted accepted : SCPStatement -> bool)
    (envs : list (NodeID * SCPEnvelope)) : bool :=
  if isVBlocking_map getQuorumSet (statements envs) accepted then true
  else isQuorum_envs envs (fun st => accepted st || voted st).

(** [Slot::federatedRatify] *)
Definition federatedRatify (voted : SCPStatement -> bool)
    (envs : list (NodeID * SCPEnvelope)) : bool :=
  isQuorum_envs envs voted.

(** ** Checks on statements *)

(** [isNewerStatement(nodeID, st)] *)
Definition isNewerThanLatest (n : NodeID) (st : SCPStatement) (s : BState) : bool :=
  match map_find (mLatestEnvelopes s) n with
  | None => true
  | Some old => isNewerStatement (statement old) st
  end.

Definition isStatementSane (st : SCPStatement) (self : bool) : bool :=
  match getQuorumSetFromStatement st with
  | None => false
  | Some qSet =>
      if negb (isQuorumSetSane qSet false) then false else
      match pledges st with
      | SCP_ST_PREPARE p =>
          (self || (counter (prep_ballot p) >? 0)) &&
          match prep_preparedPrime p, prep_prepared p with
          | Some p', Some p => areBallotsLessAndIncompatible p' p
          | _, _ => true
          end &&
          ((prep_nH p =? 0) || opt_test (fun q => prep_nH p <=? counter q) (prep_prepared p)) &&
          ((prep_nC p =? 0) ||
           (negb (prep_nH p =? 0) && (counter (prep_ballot p) >=? prep_nH p) &&
            (prep_nH p >=? prep_nC p)))
      | SCP_ST_CONFIRM c =>
          (counter (conf_ballot c) >? 0) && (conf_nH c <=? counter (conf_ballot c)) &&
          (conf_nCommit c <=? conf_nH c)
      | SCP_ST_EXTERNALIZE e =>
          (counter (ext_commit e) >? 0) && (ext_nH e >=? counter (ext_commit e))
      end
  end.

(** [std::set<Value>] insertion *)
Fixpoint insert_value (v : Value) (l : list Value) : list Value :=
  match l with
  | [] => [v]
  | x :: l' =>
      if value_ltb v x then v :: x :: l'
      else if value_ltb x v then x :: insert_value v l'
      else x :: l'
  end.

(** the loop of [validateValues] *)
Fixpoint validate_loop (values : list Value) (res : ValidationLevel) : ValidationLevel :=
  match values with
  | [] => res
  | v :: values' =>
      validate_loop values'
        match validateValue v with
        | kFullyValidatedValue => res
        | kInvalidValue => kInvalidValue
        | kMaybeValidValue => kMaybeValidValue
        end
  end.

Definition validateValues (st : SCPStatement) : ValidationLevel :=
  let values :=
    match pledges st with
    | SCP_ST_PREPARE p =>
        let values :=
          if negb (counter (prep_ballot p) =? 0) then [value (prep_ballot p)] else [] in
        match prep_prepared p with
        | Some q => insert_value (value q) values
        | None => values
        end
    | SCP_ST_CONFIRM c => [value (conf_ballot c)]
    | SCP_ST_EXTERNALIZE e => [value (ext_commit e)]
    end in
  validate_loop values kFullyValidatedValue.

(** ** The state *)

(** [recordEnvelope], with [Slot::recordStatement] *)
Definition recordEnvelope (env : SCPEnvelope) (s : BState) : BState :=
  let s := set_mLatestEnvelopes
             (map_insert (nodeID (statement env)) env (mLatestEnvelopes s)) s in
  set_mStatementsHistory (mStatementsHistory s ++ [(statement env, mFullyValidated s)]) s.

Definition checkInvariants (s : BState) : res unit :=
  _ ← match mCurrentBallot s with
      | Some b => dbgAssert (Ok (negb (counter b =? 0)))
      | None => Ok tt
      end;
  _ ← match mPrepared s, mPreparedPrime s with
      | Some p, Some p' => dbgAssert (Ok (areBallotsLessAndIncompatible p' p))
      | _, _ => Ok tt
      end;
  _ ← match mHighBallot s with
      | Some h =>
          _ ← dbgAssert (Ok (is_set (mCurrentBallot s)));
          dbgAssert (b ← deref (mCurrentBallot s); Ok (areBallotsLessAndCompatible h b))
      | None => Ok tt
      end;
  _ ← match mCommit s with
      | Some c =>
          _ ← dbgAssert (Ok (is_set (mCurrentBallot s)));
          _ ← dbgAssert (h ← deref (mHighBallot s); Ok (areBallotsLessAndCompatible c h));
          dbgAssert (h ← deref (mHighBallot s); b ← deref (mCurrentBallot s);
                     Ok (areBallotsLessAndCompatible h b))
      | None => Ok tt
      end;
  match mPhase s with
  | SCP_PHASE_PREPARE => Ok tt
  | SCP_PHASE_CONFIRM => dbgAssert (Ok (is_set (mCommit s)))
  | SCP_PHASE_EXTERNALIZE =>
      _ ← dbgAssert (Ok (is_set (mCommit s)));
      dbgAssert (Ok (is_set (mHighBallot s)))
  end.

Definition counter_or_0 (b : option SCPBallot) : Z :=
  match b with Some b => counter b | None => 0 end.

(** [createStatement] for the type of statement of the current phase, as
    [emitCurrentStateStatement] calls it; the node and the slot are filled in by
    [createEnvelope] *)
Definition createStatement (s : BState) : res Pledges :=
  _ ← checkInvariants s;
  match mPhase s with
  | SCP_PHASE_PREPARE =>
      Ok (SCP_ST_PREPARE (mkPrepare getQuorumSetHash
            (match mCurrentBallot s with Some b => b | None => emptyBallot end)
            (mPrepared s) (mPreparedPrime s)
            (counter_or_0 (mCommit s)) (counter_or_0 (mHighBallot s))))
  | SCP_PHASE_CONFIRM =>
      b ← deref (mCurrentBallot s);
      p ← deref (mPrepared s);
      c ← deref (mCommit s);
      h ← deref (mHighBallot s);
      Ok (SCP_ST_CONFIRM (mkConfirm b (counter p) (counter c) (counter h) getQuorumSetHash))
  | SCP_PHASE_EXTERNALIZE =>
      c ← deref (mCommit s);
      h ← deref (mHighBallot s);
      Ok (SCP_ST_EXTERNALIZE (mkExternalize c (counter h) getQuorumSetHash))
  end.

(** [Slot::createEnvelope] *)
Definition createEnvelope (pl : Pledges) : SCPEnvelope :=
  let mySt := mkStatement getLocalNodeID getSlotIndex pl in
  mkEnvelope mySt (signEnvelope mySt).

(** the pointers are compared, not the envelopes *)
Definition same_ptr (p q : option (nat * SCPEnvelope)) : bool :=
  bool_decide (option_map fst p = option_map fst q).

Definition sendLatestEnvelope (s : BState) : BState :=
  match mLastEnvelope s with
  | Some (ptr, env) =>
      if (mCurrentMessageLevel s =? 0) && mFullyValidated s then
        if negb (is_set (mLastEnvelopeEmit s))
           || negb (same_ptr (mLastEnvelope s) (mLastEnvelopeEmit s))
        then call (emitEnvelope env) (set_mLastEnvelopeEmit (mLastEnvelope s) s)
        else s
      else s
  | None => s
  end.

(** [mLastEnvelope = std::make_shared<SCPEnvelope>(env)] *)
Definition allocLastEnvelope (env : SCPEnvelope) (s : BState) : BState :=
  set_mLastEnvelope (Some (mAllocated s, env)) (set_mAllocated (S (mAllocated s)) s).

Definition bumpToBallot (ballot : SCPBallot) (check : bool) (s : BState) : res BState :=
  _ ← dbgAssert (Ok (in_prepare_or_confirm s));
  _ ← (if check then
         match mCurrentBallot s with
         | Some b => dbgAssert (Ok (compareBallots ballot b >=? 0))
         | None => Ok tt
         end
       else Ok tt);
  let gotBumped :=
    match mCurrentBallot s with
    | Some b => negb (counter b =? counter ballot)
    | None => true
    end in
  let s := if is_set (mCurrentBallot s) then s else call (startedBallotProtocol ballot) s in
  let s := set_mCurrentBallot (Some ballot) s in
  let s :=
    match mHighBallot s with
    | Some h => if negb (areBallotsCompatible ballot h) then set_mHighBallot None s else s
    | None => s
    end in
  Ok (if gotBumped then set_mHeardFromQuorum false s else s).

Definition updateCurrentIfNeeded (h : SCPBallot) (s : BState) : res (bool * BState) :=
  let needed := match mCurrentBallot s with
                | Some b => compareBallots b h <? 0
                | None => true
                end in
  if needed then s ← bumpToBallot h true s; Ok (true, s) else Ok (false, s).

Definition updateCurrentValue (ballot : SCPBallot) (s : BState) : res (bool * BState) :=
  if negb (in_prepare_or_confirm s) then Ok (false, s) else
  match mCurrentBallot s with
  | None =>
      s ← bumpToBallot ballot true s;
      _ ← checkInvariants s;
      Ok (true, s)
  | Some b =>
      _ ← dbgAssert (Ok (compareBallots b ballot <=? 0));
      if match mCommit s with
         | Some c => negb (areBallotsCompatible c ballot)
         | None => false
         end
      then Ok (false, s)
      else
        let comp := compareBallots b ballot in
        if comp <? 0 then
          s ← bumpToBallot ballot true s;
          _ ← checkInvariants s;
          Ok (true, s)
        else if comp >? 0 then Ok (false, s)
        else _ ← checkInvariants s; Ok (false, s)
  end.

(** [setPrepared]: [p] and [p'] are the two highest prepared and incompatible
    ballots *)
Definition setPrepared (ballot : SCPBallot) (s : BState) : bool * BState :=
  match mPrepared s with
  | Some p =>
      let comp := compareBallots p ballot in
      if comp <? 0 then
        let s := if negb (areBallotsCompatible p ballot) then set_mPreparedPrime (Some p) s else s in
        (true, set_mPrepared (Some ballot) s)
      else if comp >? 0 then
        if match mPreparedPrime s with
           | None => true
           | Some p' => (compareBallots p' ballot <? 0) && negb (areBallotsCompatible p ballot)
           end
        then (true, set_mPreparedPrime (Some ballot) s)
        else (false, s)
      else (false, s)
  | None => (true, set_mPrepared (Some ballot) s)
  end.

Definition MAX_TIMEOUT_SECONDS : Z := 30 * 60.

(** [SCPDriver::computeTimeout], in milliseconds *)
Definition computeTimeout (roundNumber : Z) : Z :=
  1000 * (if roundNumber >? MAX_TIMEOUT_SECONDS then MAX_TIMEOUT_SECONDS else roundNumber).

Definition startBallotProtocolTimer (s : BState) : res BState :=
  b ← deref (mCurrentBallot s);
  Ok (call (setupTimer (Some (computeTimeout (counter b)))) s).

Definition stopBallotProtocolTimer (s : BState) : BState := call (setupTimer None) s.

(** the lambda of [checkHeardFromQuorum] *)
Definition heardAtCounter (n : Z) (st : SCPStatement) : bool :=
  match pledges st with
  | SCP_ST_PREPARE p => n <=? counter (prep_ballot p)
  | _ => true
  end.

Definition checkHeardFromQuorum (s : BState) : res BState :=
  match mCurrentBallot s with
  | None => Ok s
  | Some b =>
      if isQuorum_envs (mLatestEnvelopes s) (heardAtCounter (counter b)) then
        let oldHQ := mHeardFromQuorum s in
        let s := set_mHeardFromQuorum true s in
        s ← (if negb oldHQ then
               let s := call (ballotDidHearFromQuorum b) s in
               if in_prepare_or_confirm s then startBallotProtocolTimer s else Ok s
             else Ok s);
        Ok (match mPhase s with
            | SCP_PHASE_EXTERNALIZE => stopBallotProtocolTimer s
            | _ => s
            end)
      else Ok (stopBallotProtocolTimer (set_mHeardFromQuorum false s))
  end.

(** ** Candidates *)

(** the first switch of [getPrepareCandidates] *)
Definition hintBallots (hint : SCPStatement) : list SCPBallot :=
  match pledges hint with
  | SCP_ST_PREPARE p =>
      insert_opt (prep_preparedPrime p) (insert_opt (prep_prepared p) [prep_ballot p])
  | SCP_ST_CONFIRM con =>
      insert_ballot (mkBallot UINT32_MAX (value (conf_ballot con)))
        [mkBallot (conf_nPrepared con) (value (conf_ballot con))]
  | SCP_ST_EXTERNALIZE e => [mkBallot UINT32_MAX (value (ext_commit e))]
  end.

Definition insert_if (test : bool) (b : SCPBallot) (l : list SCPBallot) : list SCPBallot :=
  if test then insert_ballot b l else l.

(** the second switch: what one statement adds below [topVote] *)
Definition addCandidates (topVote : SCPBallot) (st : SCPStatement) (candidates : list SCPBallot)
    : list SCPBallot :=
  let insert_opt_below b l :=
    match b with
    | Some b => insert_if (areBallotsLessAndCompatible b topVote) b l
    | None => l
    end in
  match pledges st with
  | SCP_ST_PREPARE p =>
      let candidates := insert_opt_below (Some (prep_ballot p)) candidates in
      let candidates := insert_opt_below (prep_prepared p) candidates in
      insert_opt_below (prep_preparedPrime p) candidates
  | SCP_ST_CONFIRM con =>
      if areBallotsCompatible topVote (conf_ballot con) then
        let candidates := insert_ballot topVote candidates in
        insert_if (conf_nPrepared con <? counter topVote)
          (mkBallot (conf_nPrepared con) (value topVote)) candidates
      else candidates
  | SCP_ST_EXTERNALIZE e =>
      insert_if (areBallotsCompatible topVote (ext_commit e)) topVote candidates
  end.

(** [getPrepareCandidates]: the hints from the highest, for each of them every
    latest statement *)
Definition getPrepareCandidates (hint : SCPStatement) (s : BState) : list SCPBallot :=
  foldl (fun candidates topVote =>
           foldl (fun candidates kv => addCandidates topVote (statement kv.2) candidates)
             candidates (mLatestEnvelopes s))
    [] (rev (hintBallots hint)).

Definition addBoundaries (ballot : SCPBallot) (st : SCPStatement) (res : list Z) : list Z :=
  match pledges st with
  | SCP_ST_PREPARE p =>
      if areBallotsCompatible ballot (prep_ballot p) then
        if negb (prep_nC p =? 0)
        then insert_counter (prep_nH p) (insert_counter (prep_nC p) res) else res
      else res
  | SCP_ST_CONFIRM c =>
      if areBallotsCompatible ballot (conf_ballot c)
      then insert_counter (conf_nH c) (insert_counter (conf_nCommit c) res) else res
  | SCP_ST_EXTERNALIZE e =>
      if areBallotsCompatible ballot (ext_commit e)
      then insert_counter UINT32_MAX
             (insert_counter (ext_nH e) (insert_counter (counter (ext_commit e)) res))
      else res
  end.

Definition getCommitBoundariesFromStatements (ballot : SCPBallot) (s : BState) : list Z :=
  foldl (fun res kv => addBoundaries ballot (statement kv.2) res) [] (mLatestEnvelopes s).

(** ** Transitions

    [rec] is [Slot::processEnvelope]. *)
Section Transitions.
Variable rec : SCPEnvelope -> bool -> BState -> res (EnvelopeState * BState).

Definition emitCurrentStateStatement (s : BState) : res BState :=
  statement_ ← createStatement s;
  let envelope := createEnvelope statement_ in
  let canEmit := is_set (mCurrentBallot s) in
  if bool_decide (map_find (mLatestEnvelopes s) getLocalNodeID = Some envelope) then Ok s
  else
    '(r, s) ← rec envelope true s;
    match r with
    | VALID =>
        if canEmit &&
           match mLastEnvelope s with
           | None => true
           | Some (_, last) => isNewerStatement (statement last) (statement envelope)
           end
        then Ok (sendLatestEnvelope (allocLastEnvelope envelope s))
        else Ok s
    | INVALID => Throw (RuntimeError "moved to a bad state (ballot protocol)")
    end.

(** [bumpState(value, n)] *)
Definition bumpState_n (v : Value) (n : Z) (s : BState) : res (bool * BState) :=
  if negb (in_prepare_or_confirm s) then Ok (false, s) else
  let newb := mkBallot n (match mValueOverride s with Some z => z | None => v end) in
  '(updated, s) ← updateCurrentValue newb s;
  if (updated : bool) then
    s ← emitCurrentStateStatement s;
    s ← checkHeardFromQuorum s;
    Ok (true, s)
  else Ok (false, s).

(** [bumpState(value, force)] *)
Definition bumpState (v : Value) (force : bool) (s : BState) : res (bool * BState) :=
  if negb force && is_set (mCurrentBallot s) then Ok (false, s) else
  let n := match mCurrentBallot s with Some b => u32 (counter b + 1) | None => 1 end in
  bumpState_n v n s.

Definition abandonBallot (n : Z) (s : BState) : res (bool * BState) :=
  let v := mLatestCompositeCandidate s in
  let v := if bool_decide (v = []) then
             match mCurrentBallot s with Some b => value b | None => v end
           else v in
  if bool_decide (v = []) then Ok (false, s)
  else if n =? 0 then bumpState v true s else bumpState_n v n s.

Definition setPreparedAccept (ballot : SCPBallot) (s : BState) : res (bool * BState) :=
  let '(didWork, s) := setPrepared ballot s in
  '(didWork, s) ←
    match mCommit s, mHighBallot s with
    | Some _, Some h =>
        if opt_test (areBallotsLessAndIncompatible h) (mPrepared s)
           || opt_test (areBallotsLessAndIncompatible h) (mPreparedPrime s)
        then
          _ ← dbgAssert (Ok (bool_decide (mPhase s = SCP_PHASE_PREPARE)));
          Ok (true, set_mCommit None s)
        else Ok (didWork, s)
    | _, _ => Ok (didWork, s)
    end;
  if (didWork : bool) then
    s ← emitCurrentStateStatement (call (acceptedBallotPrepared ballot) s);
    Ok (true, s)
  else Ok (false, s).

(** the loop of [attemptPreparedAccept], over the candidates from the highest:
    the first one that is accepted *)
Fixpoint findPreparedAccept (candidates : list SCPBallot) (s : BState) : res (option SCPBallot) :=
  match candidates with
  | [] => Ok None
  | ballot :: rest =>
      skip ← match mPhase s with
             | SCP_PHASE_CONFIRM =>
                 p ← deref (mPrepared s);
                 if negb (areBallotsLessAndCompatible p ballot) then Ok true
                 else
                   _ ← dbgAssert (c ← deref (mCommit s); Ok (areBallotsCompatible c ballot));
                   Ok false
             | _ => Ok false
             end;
      if (skip : bool)
         || opt_test (fun p' => compareBallots ballot p' <=? 0) (mPreparedPrime s)
         || opt_test (areBallotsLessAndCompatible ballot) (mPrepared s)
      then findPreparedAccept rest s
      else if federatedAccept (votedPrepare ballot) (hasPreparedBallot ballot) (mLatestEnvelopes s)
      then Ok (Some ballot)
      else findPreparedAccept rest s
  end.

Definition attemptPreparedAccept (hint : SCPStatement) (s : BState) : res (bool * BState) :=
  if negb (in_prepare_or_confirm s) then Ok (false, s) else
  found ← findPreparedAccept (rev (getPrepareCandidates hint s)) s;
  match found with
  | Some ballot => setPreparedAccept ballot s
  | None => Ok (false, s)
  end.

Definition setPreparedConfirmed (newC newH : SCPBallot) (s : BState) : res (bool * BState) :=
  let s := set_mValueOverride (Some (value newH)) s in
  '(didWork, s) ←
    (if match mCurrentBallot s with
        | Some b => areBallotsCompatible b newH
        | None => true
        end
     then
       let '(didWork, s) :=
         if match mHighBallot s with
            | Some h => compareBallots newH h >? 0
            | None => true
            end
         then (true, set_mHighBallot (Some newH) s) else (false, s) in
       '(didWork, s) ←
         (if negb (counter newC =? 0) then
            _ ← dbgAssert (Ok (negb (is_set (mCommit s))));
            Ok (true, set_mCommit (Some newC) s)
          else Ok (didWork, s));
       Ok (didWork, if (didWork : bool) then call (confirmedBallotPrepared newH) s else s)
     else Ok (false, s));
  '(updated, s) ← updateCurrentIfNeeded newH s;
  let didWork := (updated || didWork) : bool in
  if didWork then s ← emitCurrentStateStatement s; Ok (true, s)
  else Ok (false, s).

(** the first loop of [attemptPreparedConfirmed]: the candidates from the first
    one that is ratified on, and nothing when [h] cannot be raised *)
Fixpoint findPreparedConfirmed (candidates : list SCPBallot) (s : BState) : list SCPBallot :=
  match candidates with
  | [] => []
  | ballot :: rest =>
      if opt_test (fun h => compareBallots h ballot >=? 0) (mHighBallot s) then []
      else if federatedRatify (hasPreparedBallot ballot) (mLatestEnvelopes s) then candidates
      else findPreparedConfirmed rest s
  end.

(** the second loop: the lowest [c], with [newC] found so far *)
Fixpoint findLowCommit (candidates : list SCPBallot) (b newH newC : SCPBallot) (s : BState)
    : SCPBallot :=
  match candidates with
  | [] => newC
  | ballot :: rest =>
      if compareBallots ballot b <? 0 then newC
      else if negb (areBallotsLessAndCompatible ballot newH) then findLowCommit rest b newH newC s
      else if federatedRatify (hasPreparedBallot ballot) (mLatestEnvelopes s)
      then findLowCommit rest b newH ballot s
      else newC
  end.

Definition attemptPreparedConfirmed (hint : SCPStatement) (s : BState) : res (bool * BState) :=
  if negb (bool_decide (mPhase s = SCP_PHASE_PREPARE)) then Ok (false, s)
  else if negb (is_set (mPrepared s)) then Ok (false, s)
  else
    match findPreparedConfirmed (rev (getPrepareCandidates hint s)) s with
    | [] => Ok (false, s)
    | newH :: rest =>
        let b := match mCurrentBallot s with Some b => b | None => emptyBallot end in
        let newC :=
          if negb (is_set (mCommit s))
             && negb (opt_test (areBallotsLessAndIncompatible newH) (mPrepared s))
             && negb (opt_test (areBallotsLessAndIncompatible newH) (mPreparedPrime s))
          then findLowCommit (newH :: rest) b newH emptyBallot s
          else emptyBallot in
        setPreparedConfirmed newC newH s
    end.

Definition setAcceptCommit (c h : SCPBallot) (s : BState) : res (bool * BState) :=
  let s := set_mValueOverride (Some (value h)) s in
  let '(didWork, s) :=
    if match mHighBallot s, mCommit s with
       | Some h0, Some c0 =>
           negb (compareBallots h0 h =? 0) || negb (compareBallots c0 c =? 0)
       | _, _ => true
       end
    then (true, set_mHighBallot (Some h) (set_mCommit (Some c) s)) else (false, s) in
  '(didWork, s) ←
    match mPhase s with
    | SCP_PHASE_PREPARE =>
        let s := set_mPhase SCP_PHASE_CONFIRM s in
        s ← (if opt_test (fun b => negb (areBallotsLessAndCompatible h b)) (mCurrentBallot s)
             then bumpToBallot h false s else Ok s);
        Ok (true, set_mPreparedPrime None s)
    | _ => Ok (didWork, s)
    end;
  if (didWork : bool) then
    hb ← deref (mHighBallot s);
    '(_, s) ← updateCurrentIfNeeded hb s;
    s ← emitCurrentStateStatement (call (acceptedCommit h) s);
    Ok (true, s)
  else Ok (false, s).

(** the switch of [attemptAcceptCommit] and [attemptConfirmCommit]; [None] is
    the return *)
Definition commitHint (prepare_too : bool) (hint : SCPStatement) : option SCPBallot :=
  match pledges hint with
  | SCP_ST_PREPARE p =>
      if prepare_too && negb (prep_nC p =? 0)
      then Some (mkBallot (prep_nH p) (value (prep_ballot p))) else None
  | SCP_ST_CONFIRM con => Some (mkBallot (conf_nH con) (value (conf_ballot con)))
  | SCP_ST_EXTERNALIZE e => Some (mkBallot (ext_nH e) (value (ext_commit e)))
  end.

Definition attemptAcceptCommit (hint : SCPStatement) (s : BState) : res (bool * BState) :=
  if negb (in_prepare_or_confirm s) then Ok (false, s) else
  match commitHint true hint with
  | None => Ok (false, s)
  | Some ballot =>
      go ← match mPhase s with
           | SCP_PHASE_CONFIRM => h ← deref (mHighBallot s); Ok (areBallotsCompatible ballot h)
           | _ => Ok true
           end;
      if negb go then Ok (false, s) else
      let pred cur := federatedAccept (votedCommit ballot cur) (commitPredicate ballot cur)
                        (mLatestEnvelopes s) in
      let boundaries := getCommitBoundariesFromStatements ballot s in
      if bool_decide (boundaries = []) then Ok (false, s) else
      let candidate := findExtendedInterval (0, 0) boundaries pred in
      if negb (fst candidate =? 0) then
        higher ← match mPhase s with
                 | SCP_PHASE_CONFIRM => h ← deref (mHighBallot s); Ok (snd candidate >? counter h)
                 | _ => Ok true
                 end;
        if (higher : bool) then
          setAcceptCommit (mkBallot (fst candidate) (value ballot))
            (mkBallot (snd candidate) (value ballot)) s
        else Ok (false, s)
      else Ok (false, s)
  end.

Definition setConfirmCommit (c h : SCPBallot) (s : BState) : res (bool * BState) :=
  let s := set_mHighBallot (Some h) (set_mCommit (Some c) s) in
  '(_, s) ← updateCurrentIfNeeded h s;
  s ← emitCurrentStateStatement (set_mPhase SCP_PHASE_EXTERNALIZE s);
  let s := call stopNomination s in
  c ← deref (mCommit s);
  Ok (true, call (valueExternalized (value c)) s).

Definition attemptConfirmCommit (hint : SCPStatement) (s : BState) : res (bool * BState) :=
  match mPhase s, mHighBallot s, mCommit s, commitHint false hint with
  | SCP_PHASE_CONFIRM, Some _, Some c, Some ballot =>
      if negb (areBallotsCompatible ballot c) then Ok (false, s) else
      let boundaries := getCommitBoundariesFromStatements ballot s in
      let pred cur := federatedRatify (commitPredicate ballot cur) (mLatestEnvelopes s) in
      let candidate := findExtendedInterval (0, 0) boundaries pred in
      if negb (fst candidate =? 0) then
        setConfirmCommit (mkBallot (fst candidate) (value ballot))
          (mkBallot (snd candidate) (value ballot)) s
      else Ok (false, s)
  | _, _, _, _ => Ok (false, s)
  end.

Definition hasVBlockingSubsetStrictlyAheadOf (envs : list (NodeID * SCPEnvelope)) (n : Z) : bool :=
  isVBlocking_map getQuorumSet (statements envs) (fun st => statementBallotCounter st >? n).

(** [attemptBump] *)
Definition attemptBump (s : BState) : res (bool * BState) :=
  if in_prepare_or_confirm s then
    let localCounter := counter_or_0 (mCurrentBallot s) in
    if negb (hasVBlockingSubsetStrictlyAheadOf (mLatestEnvelopes s) localCounter)
    then Ok (false, s)
    else
      let allCounters :=
        foldl (fun l kv => let c := statementBallotCounter (statement kv.2) in
                           if c >? localCounter then insert_counter c l else l)
          [] (mLatestEnvelopes s) in
      match List.find (fun n => negb (hasVBlockingSubsetStrictlyAheadOf (mLatestEnvelopes s) n))
              allCounters with
      | Some n => abandonBallot n s
      | None => Ok (false, s)
      end
  else Ok (false, s).

(** the [do ... while (didBump)] loop *)
Fixpoint bumpLoop (fuel : nat) (didWork : bool) (s : BState) : res (bool * BState) :=
  match fuel with
  | O => Throw OutOfFuel
  | S fuel' =>
      '(didBump, s) ← attemptBump s;
      let didWork := (didBump || didWork) : bool in
      if (didBump : bool) then bumpLoop fuel' didWork s else Ok (didWork, s)
  end.

(** the loop goes on only after the phase has changed, apart from its last two
    rounds *)
Definition bump_fuel : nat := 4.

Definition advanceSlot (hint : SCPStatement) (s : BState) : res BState :=
  let s := set_mCurrentMessageLevel (mCurrentMessageLevel s + 1) s in
  if mCurrentMessageLevel s >=? MAX_ADVANCE_SLOT_RECURSION
  then Throw (RuntimeError "maximum number of transitions reached in advanceSlot")
  else
    '(w1, s) ← attemptPreparedAccept hint s;
    '(w2, s) ← attemptPreparedConfirmed hint s;
    '(w3, s) ← attemptAcceptCommit hint s;
    '(w4, s) ← attemptConfirmCommit hint s;
    let didWork := ((w1 : bool) || (w2 : bool) || (w3 : bool) || (w4 : bool))%bool in
    '(didWork, s) ←
      (if mCurrentMessageLevel s =? 1 then
         '(didWork, s) ← bumpLoop bump_fuel didWork s;
         s ← checkHeardFromQuorum s;
         Ok (didWork, s)
       else Ok (didWork, s));
    let s := set_mCurrentMessageLevel (mCurrentMessageLevel s - 1) s in
    Ok (if (didWork : bool) then sendLatestEnvelope s else s).

(** [BallotProtocol::processEnvelope] *)
Definition processBallotEnvelope (envelope : SCPEnvelope) (self : bool) (s : BState)
    : res (EnvelopeState * BState) :=
  let st := statement envelope in
  _ ← dbgAssert (Ok (slotIndex st =? getSlotIndex));
  if negb (isStatementSane st self) then Ok (INVALID, s)
  else if negb (isNewerThanLatest (nodeID st) st s) then Ok (INVALID, s)
  else
    match validateValues st with
    | kInvalidValue => Ok (INVALID, s)
    | validationRes =>
        if in_prepare_or_confirm s then
          let s := match validationRes with
                   | kMaybeValidValue => set_mFullyValidated false s
                   | _ => s
                   end in
          let s := recordEnvelope envelope s in
          s ← advanceSlot st s;
          Ok (VALID, s)
        else
          c ← deref (mCommit s);
          if bool_decide (value c = value (getWorkingBallot st))
          then Ok (VALID, recordEnvelope envelope s)
          else Ok (INVALID, s)
    end.
End Transitions.

(** [Slot::processEnvelope] *)
Fixpoint processEnvelope (fuel : nat) (envelope : SCPEnvelope) (self : bool) (s : BState)
    : res (EnvelopeState * BState) :=
  match fuel with
  | O => Throw OutOfFuel
  | S fuel' =>
      _ ← dbgAssert (Ok (slotIndex (statement envelope) =? getSlotIndex));
      processBallotEnvelope (processEnvelope fuel') envelope self s
  end.

(** one level for every value of [mCurrentMessageLevel] *)
Definition slot_fuel : nat := 51.

(** ** The entry points *)

(** an envelope received from another node *)
Definition receiveEnvelope (e : SCPEnvelope) (s : BState) : res (EnvelopeState * BState) :=
  processEnvelope slot_fuel e false s.

(** [Slot::bumpState], called when nomination produces a value *)
Definition slot_bumpState (v : Value) (force : bool) (s : BState) : res (bool * BState) :=
  bumpState (processEnvelope slot_fuel) v force s.

(** [ballotProtocolTimerExpired], and [Slot::abandonBallot] *)
Definition ballotProtocolTimerExpired (s : BState) : res (bool * BState) :=
  abandonBallot (processEnvelope slot_fuel) 0 s.

Definition setStateFromEnvelope (e : SCPEnvelope) (s : BState) : res BState :=
  if is_set (mCurrentBallot s)
  then Throw (RuntimeError "Cannot set state after starting ballot protocol")
  else
    let s := recordEnvelope e s in
    let s := allocLastEnvelope e s in
    let s := set_mLastEnvelopeEmit (mLastEnvelope s) s in
    match pledges (statement e) with
    | SCP_ST_PREPARE p =>
        let b := prep_ballot p in
        s ← bumpToBallot b true s;
        let s := if is_set (prep_prepared p) then set_mPrepared (prep_prepared p) s else s in
        let s := if is_set (prep_preparedPrime p)
                 then set_mPreparedPrime (prep_preparedPrime p) s else s in
        let s := if negb (prep_nH p =? 0)
                 then set_mHighBallot (Some (mkBallot (prep_nH p) (value b))) s else s in
        let s := if negb (prep_nC p =? 0)
                 then set_mCommit (Some (mkBallot (prep_nC p) (value b))) s else s in
        Ok (set_mPhase SCP_PHASE_PREPARE s)
    | SCP_ST_CONFIRM c =>
        let v := value (conf_ballot c) in
        s ← bumpToBallot (conf_ballot c) true s;
        let s := set_mPrepared (Some (mkBallot (conf_nPrepared c) v)) s in
        let s := set_mHighBallot (Some (mkBallot (conf_nH c) v)) s in
        let s := set_mCommit (Some (mkBallot (conf_nCommit c) v)) s in
        Ok (set_mPhase SCP_PHASE_CONFIRM s)
    | SCP_ST_EXTERNALIZE ext =>
        let v := value (ext_commit ext) in
        s ← bumpToBallot (mkBallot UINT32_MAX v) true s;
        let s := set_mPrepared (Some (mkBallot UINT32_MAX v)) s in
        let s := set_mHighBallot (Some (mkBallot (ext_nH ext) v)) s in
        let s := set_mCommit (Some (ext_commit ext)) s in
        Ok (set_mPhase SCP_PHASE_EXTERNALIZE s)
    end.

(** [Slot::setStateFromEnvelope], for the statements of the ballot protocol *)
Definition slot_setStateFromEnvelope (e : SCPEnvelope) (s : BState) : res BState :=
  if (nodeID (statement e) =? getLocalNodeID) && (slotIndex (statement e) =? getSlotIndex)
  then setStateFromEnvelope e s else Ok s.

Definition getCurrentState (s : BState) : list SCPEnvelope :=
  map snd (List.filter (fun n => negb (n.1 =? getLocalNodeID) || mFullyValidated s)
             (mLatestEnvelopes s)).

(** the loop of [getExternalizingState] *)
Fixpoint externalizing_loop (l : list (NodeID * SCPEnvelope)) (s : BState) : res (list SCPEnvelope) :=
  match l with
  | [] => Ok []
  | n :: l' =>
      keep ← (if negb (n.1 =? getLocalNodeID) then
                c ← deref (mCommit s);
                Ok (areBallotsCompatible (getWorkingBallot (statement n.2)) c)
              else Ok (mFullyValidated s));
      res ← externalizing_loop l' s;
      Ok (if (keep : bool) then n.2 :: res else res)
  end.

Definition getExternalizingState (s : BState) : res (list SCPEnvelope) :=
  match mPhase s with
  | SCP_PHASE_EXTERNALIZE => externalizing_loop (mLatestEnvelopes s) s
  | _ => Ok []
  end.

End Code.
