(* ===== verification/BallotSafety.v ===== *)
(** * Safety of the ballot protocol of one node

    What holds of the slot whatever the other nodes send: the state moves
    forward only, the value committed to never changes, a value is externalized
    at most once and only when a quorum accepted to commit it, the envelopes
    emitted are newer each time, and every message is processed in finitely many
    steps. *)
From Stdlib Require Import Sorted.
From S2P Require Import Prelude Numeric QuorumSet LocalNode Ballots BallotProtocol.

(** ** Results: either an exception of the program or a value with a property *)

Definition safe {A} (r : res A) (Q : A -> Prop) : Prop :=
  match r with Ok a => Q a | Throw e => e <> OutOfFuel end.

Lemma safe_bind {A B} (m : res A) (f : A -> res B) Q :
  safe m (fun a => safe (f a) Q) -> safe (m ≫= f) Q.
Proof. by destruct m. Qed.

Lemma safe_mono {A} (r : res A) (Q Q' : A -> Prop) :
  (forall a, Q a -> Q' a) -> safe r Q -> safe r Q'.
Proof. destruct r; cbn; auto. Qed.

Lemma safe_ok {A} (r : res A) Q a : safe r Q -> r = Ok a -> Q a.
Proof. by intros H ->. Qed.

Lemma safe_const {A} (r : res A) (X : Prop) : safe r (fun _ => True) -> X -> safe r (fun _ => X).
Proof. by destruct r. Qed.

Lemma safe_deref {A} (p : option A) (Q : A -> Prop) :
  (forall a, p = Some a -> Q a) -> safe (deref p) Q.
Proof. destruct p; cbn; auto. Qed.

Section Asserts.
Context `{Ctx : SCPContext}.

(** an assertion never changes what follows *)
Lemma safe_dbgAssert e (Q : unit -> Prop) : safe e (fun _ => True) -> Q tt -> safe (dbgAssert e) Q.
Proof. unfold dbgAssert. destruct dbg; [|done]. by destruct e as [[]|]. Qed.

Lemma safe_checkInvariants s (Q : unit -> Prop) : Q tt -> safe (checkInvariants s) Q.
Proof.
  intros HQ. unfold checkInvariants.
  repeat (case_match || (apply safe_bind) || (apply safe_dbgAssert; [done|]) || done
          || (apply safe_dbgAssert; [by destruct (mCurrentBallot s), (mHighBallot s)|])).
Qed.
End Asserts.

(** ** What the calls say *)

Definition externalized (l : list DriverCall) : list Value :=
  omap (fun c => match c with valueExternalized v => Some v | _ => None end) l.

Definition emitted (l : list DriverCall) : list SCPEnvelope :=
  omap (fun c => match c with emitEnvelope e => Some e | _ => None end) l.

Lemma externalized_app l l' : externalized (l ++ l') = externalized l ++ externalized l'.
Proof. apply omap_app. Qed.
Lemma emitted_app l l' : emitted (l ++ l') = emitted l ++ emitted l'.
Proof. apply omap_app. Qed.

(** [e'] is newer than [e] *)
Definition newer (e e' : SCPEnvelope) : Prop :=
  isNewerStatement (statement e) (statement e') = true.

Lemma newer_trans e1 e2 e3 : newer e1 e2 -> newer e2 e3 -> newer e1 e3.
Proof. apply isNewerStatement_trans. Qed.

(** ** The invariant *)

Definition phase_rank (p : SCPPhase) : Z :=
  match p with SCP_PHASE_PREPARE => 0 | SCP_PHASE_CONFIRM => 1 | SCP_PHASE_EXTERNALIZE => 2 end.

(** [b], [c] and [h] are set, and [c] and [h] are ballots for the value [v] *)
Definition committed (s : BState) (v : Value) : Prop :=
  is_Some (mCurrentBallot s) /\ exists c h, mCommit s = Some c /\ mHighBallot s = Some h /\ value c = v /\ value h = v.

(** the envelopes emitted so far, and the one emitted last, which is the last one
    generated or older than it *)
Definition emit_ok (s : BState) : Prop :=
  StronglySorted newer (emitted (mCalls s)) /\
  match mLastEnvelopeEmit s, mLastEnvelope s with
  | None, None => emitted (mCalls s) = []
  | None, Some (j, _) => emitted (mCalls s) = [] /\ (j < mAllocated s)%nat
  | Some (i, e), Some (j, e') =>
      (forall x, x ∈ emitted (mCalls s) -> x = e \/ newer x e) /\ (j < mAllocated s)%nat /\
      ((i = j /\ e = e') \/ ((i < j)%nat /\ newer e e'))
  | Some _, None => False
  end.

Record Inv (s : BState) : Prop := {
  inv_commit : mPhase s <> SCP_PHASE_PREPARE -> exists v, committed s v;
  inv_keys : StronglySorted Z.lt (map fst (mLatestEnvelopes s));
  inv_emit : emit_ok s }.

(** the predicate of [federatedRatify] that lets the node externalize [c], [h] *)
Definition ratified_commit `{SCPContext} (c h : SCPBallot) (envs : list (NodeID * SCPEnvelope)) : Prop :=
  StronglySorted Z.lt (map fst envs) /\
  federatedRatify (commitPredicate c (counter c, counter h)) envs = true.

(** the counter of [b] does not decrease *)
Definition ballot_grows (s s' : BState) : Prop :=
  forall b, mCurrentBallot s = Some b ->
    exists b', mCurrentBallot s' = Some b' /\ counter b <= counter b'.

Lemma ballot_grows_eq s s' : mCurrentBallot s' = mCurrentBallot s -> ballot_grows s s'.
Proof. intros E b Hb. exists b. rewrite E. split; [done|lia]. Qed.

Lemma ballot_grows_trans s1 s2 s3 : ballot_grows s1 s2 -> ballot_grows s2 s3 -> ballot_grows s1 s3.
Proof.
  intros H1 H2 b Hb. destruct (H1 b Hb) as (b2 & Hb2 & Hle).
  destruct (H2 b2 Hb2) as (b3 & Hb3 & Hle3). exists b3. split; [done|lia].
Qed.

(** ** How the state may change while the node processes its own statements *)

Record trans `{SCPContext} (s s' : BState) : Prop := {
  tr_phase : phase_rank (mPhase s) <= phase_rank (mPhase s');
  tr_commit : forall v, mPhase s <> SCP_PHASE_PREPARE -> committed s v -> committed s' v;
  tr_frozen : mPhase s = SCP_PHASE_EXTERNALIZE ->
    mCurrentBallot s' = mCurrentBallot s /\ mPrepared s' = mPrepared s /\
    mPreparedPrime s' = mPreparedPrime s /\ mHighBallot s' = mHighBallot s /\
    mCommit s' = mCommit s;
  tr_others : forall n, n <> getLocalNodeID ->
    map_find (mLatestEnvelopes s') n = map_find (mLatestEnvelopes s) n;
  tr_level : mCurrentMessageLevel s' = mCurrentMessageLevel s;
  tr_calls : exists l, mCalls s' = mCalls s ++ l /\
    (externalized l = [] \/
     (mPhase s <> SCP_PHASE_EXTERNALIZE /\ mPhase s' = SCP_PHASE_EXTERNALIZE /\
      exists v, externalized l = [v] /\ committed s' v));
  tr_counter : mPhase s' = mPhase s -> ballot_grows s s';
  tr_own : mPhase s' = mPhase s -> mPhase s <> SCP_PHASE_EXTERNALIZE ->
    is_Some (mCurrentBallot s) ->
    map_find (mLatestEnvelopes s') getLocalNodeID = map_find (mLatestEnvelopes s) getLocalNodeID \/
    exists e b, map_find (mLatestEnvelopes s') getLocalNodeID = Some e /\
      mCurrentBallot s' = Some b /\ statementBallotCounter (statement e) <= counter b;
  tr_justified : mPhase s <> SCP_PHASE_EXTERNALIZE -> mPhase s' = SCP_PHASE_EXTERNALIZE ->
    exists c h envs, mCommit s' = Some c /\ mHighBallot s' = Some h /\ ratified_commit c h envs /\
      forall n, n <> getLocalNodeID -> map_find envs n = map_find (mLatestEnvelopes s') n }.

Section Relation.
Context `{Ctx : SCPContext}.

Lemma phase_rank_inj p q : phase_rank p = phase_rank q -> p = q.
Proof. by destruct p, q. Qed.

Lemma committed_unique s v v' : committed s v -> committed s v' -> v = v'.
Proof. intros (_ & c & h & Hc & Hh & <- & _) (_ & c' & h' & Hc' & _ & <- & _). congruence. Qed.

Lemma trans_refl s : trans s s.
Proof.
  split; try done; try lia; auto.
  - exists []. rewrite app_nil_r. by auto.
  - intros _. by apply ballot_grows_eq.
Qed.

(** the phases between two states with the same phase are the same *)
Lemma trans_mid s1 s2 s3 :
  trans s1 s2 -> trans s2 s3 -> mPhase s3 = mPhase s1 -> mPhase s2 = mPhase s1 /\ mPhase s3 = mPhase s2.
Proof.
  intros [H1 _ _ _ _ _ _ _ _] [H2 _ _ _ _ _ _ _ _] E. rewrite E in H2.
  assert (mPhase s2 = mPhase s1) as -> by (apply phase_rank_inj; lia). by rewrite E.
Qed.

Lemma trans_stays_ext s s' :
  trans s s' -> mPhase s = SCP_PHASE_EXTERNALIZE -> mPhase s' = SCP_PHASE_EXTERNALIZE.
Proof.
  intros H E. pose proof (tr_phase _ _ H) as Hp. rewrite E in Hp.
  by destruct (mPhase s'); cbn in Hp; try lia.
Qed.

Lemma trans_calls_trans s1 s2 s3 :
  trans s1 s2 -> trans s2 s3 ->
  exists l, mCalls s3 = mCalls s1 ++ l /\
    (externalized l = [] \/
     (mPhase s1 <> SCP_PHASE_EXTERNALIZE /\ mPhase s3 = SCP_PHASE_EXTERNALIZE /\
      exists v, externalized l = [v] /\ committed s3 v)).
Proof.
  intros H1 H2. destruct (tr_calls _ _ H1) as (l1 & E1 & C1), (tr_calls _ _ H2) as (l2 & E2 & C2).
  exists (l1 ++ l2). rewrite E2, E1, <- app_assoc. split; [done|]. rewrite externalized_app.
  destruct C1 as [->|(Hp & Hp' & v & -> & Hv)].
  - destruct C2 as [->|(Hp & Hp' & v & -> & Hv)]; [by left|right]. split; [|by eauto].
    intros E. apply Hp. by eapply trans_stays_ext.
  - destruct C2 as [->|(Hp2 & _)]; [|done]. right. split; [done|].
    split; [by eapply trans_stays_ext|]. exists v. split; [done|].
    apply (tr_commit _ _ H2); [by rewrite Hp'|done].
Qed.

Lemma trans_trans s1 s2 s3 : trans s1 s2 -> trans s2 s3 -> trans s1 s3.
Proof.
  intros H1 H2. split.
  - pose proof (tr_phase _ _ H1). pose proof (tr_phase _ _ H2). lia.
  - intros v Hp Hv. apply (tr_commit _ _ H2); [|by apply (tr_commit _ _ H1)].
    intros E. pose proof (tr_phase _ _ H1) as Hr. rewrite E in Hr. by destruct (mPhase s1); cbn in Hr; try lia.
  - intros E. destruct (tr_frozen _ _ H2 (trans_stays_ext _ _ H1 E)) as (->&->&->&->&->).
    by apply (tr_frozen _ _ H1).
  - intros n Hn. rewrite (tr_others _ _ H2 n Hn). by apply (tr_others _ _ H1).
  - rewrite (tr_level _ _ H2). apply (tr_level _ _ H1).
  - by apply (trans_calls_trans s1 s2 s3).
  - intros E. destruct (trans_mid _ _ _ H1 H2 E) as [E1 E2].
    by apply (ballot_grows_trans s1 s2 s3); [apply (tr_counter _ _ H1)|apply (tr_counter _ _ H2)].
  - intros E Hn [b Hb]. destruct (trans_mid _ _ _ H1 H2 E) as [E1 E2].
    assert (Hn2 : mPhase s2 <> SCP_PHASE_EXTERNALIZE) by congruence.
    destruct (tr_counter _ _ H1 E1 b Hb) as (b2 & Hb2 & _).
    destruct (tr_own _ _ H2 E2 Hn2 (ex_intro _ b2 Hb2)) as [->|Ho]; [|by right].
    destruct (tr_own _ _ H1 E1 Hn (ex_intro _ b Hb)) as [->|(e & b' & He & Hb' & Hle)]; [by left|right].
    destruct (tr_counter _ _ H2 E2 b' Hb') as (b3 & Hb3 & Hle3).
    exists e, b3. split; [done|]. split; [done|lia].
  - intros Hn E. destruct (decide (mPhase s2 = SCP_PHASE_EXTERNALIZE)) as [E2|E2].
    + destruct (tr_justified _ _ H1 Hn E2) as (c & h & envs & Hc & Hh & Hr & Ho).
      destruct (tr_frozen _ _ H2 E2) as (_ & _ & _ & Eh & Ec).
      exists c, h, envs. rewrite Ec, Eh. split; [done|]. split; [done|]. split; [done|].
      intros n Hne. rewrite (tr_others _ _ H2 n Hne). by apply Ho.
    + by apply (tr_justified _ _ H2).
Qed.
End Relation.

(** ** Maps of envelopes *)

Lemma map_find_insert {A} k (v : A) m n :
  map_find (map_insert k v m) n = if n =? k then Some v else map_find m n.
Proof.
  induction m as [|[k' v'] m IH]; cbn; [done|]. repeat split_if; cbn; repeat split_if; try done; try lia.
Qed.

Lemma map_insert_keys {A} k (v : A) m x :
  x ∈ map fst (map_insert k v m) <-> x = k \/ x ∈ map fst m.
Proof.
  induction m as [|[k' v'] m IH]; cbn; [set_solver|]. repeat split_if; cbn; [set_solver| |].
  - subst. set_solver.
  - rewrite !elem_of_cons, IH. tauto.
Qed.

Lemma map_insert_sorted {A} k (v : A) m :
  StronglySorted Z.lt (map fst m) -> StronglySorted Z.lt (map fst (map_insert k v m)).
Proof.
  induction m as [|[k' v'] m IH]; cbn; [by repeat constructor|].
  intros Hs. pose proof (StronglySorted_inv Hs) as [Hs' Hlt]. rewrite Forall_forall in Hlt.
  repeat split_if; cbn.
  - constructor; [done|]. apply Forall_forall. intros x [->|Hx]%elem_of_cons; [done|].
    pose proof (Hlt x Hx). lia.
  - subst. by constructor; [|apply Forall_forall].
  - constructor; [by apply IH|]. apply Forall_forall. intros x [->|Hx]%map_insert_keys; [lia|by apply Hlt].
Qed.

Lemma map_find_elem {A} (m : list (NodeID * A)) k v :
  StronglySorted Z.lt (map fst m) -> (k, v) ∈ m <-> map_find m k = Some v.
Proof.
  induction m as [|[k' v'] m IH]; cbn; intros Hs; [set_solver|].
  apply StronglySorted_inv in Hs as [Hs Hlt]. rewrite Forall_forall in Hlt.
  rewrite elem_of_cons. split_if.
  - subst. split; [|intros [= ->]; by left]. intros [[= ->]|Hin]; [done|].
    assert (k' ∈ map fst m) as Hk by (by apply list_elem_of_fmap_2 with (f := fst) in Hin).
    pose proof (Hlt _ Hk). lia.
  - rewrite <- (IH Hs). split; [intros [[= -> ->]|?]; [lia|done]|by right].
Qed.

Lemma statements_find envs n :
  map_find (statements envs) n = option_map statement (map_find envs n).
Proof. induction envs as [|[k e] l IH]; cbn; [done|]. by split_if. Qed.

(** ** Changes that leave the messages alone *)

Definition book (s s' : BState) : Prop :=
  mLatestEnvelopes s' = mLatestEnvelopes s /\
  mCurrentMessageLevel s' = mCurrentMessageLevel s /\
  mLastEnvelope s' = mLastEnvelope s /\ mLastEnvelopeEmit s' = mLastEnvelopeEmit s /\
  mAllocated s' = mAllocated s /\
  exists l, mCalls s' = mCalls s ++ l /\ externalized l = [] /\ emitted l = [].

Lemma book_refl s : book s s.
Proof. do 5 (split; [done|]). exists []. by rewrite app_nil_r. Qed.

Lemma book_call c s s' :
  externalized [c] = [] -> emitted [c] = [] -> book s s' -> book s (call c s').
Proof.
  intros Hx He (?&?&?&?&?&l&Hl&Hxl&Hel). do 5 (split; [done|]). exists (l ++ [c]). cbn.
  by rewrite Hl, app_assoc, externalized_app, emitted_app, Hxl, Hel.
Qed.

Lemma book_set (f : BState -> BState) s s' : (forall x, book x (f x)) -> book s s' -> book s (f s').
Proof.
  intros Hf (H1&H2&H3&H4&H5&l&H6&H7&H8). destruct (Hf s') as (F1&F2&F3&F4&F5&l'&F6&F7&F8).
  do 5 (split; [congruence|]). exists (l ++ l').
  by rewrite F6, H6, app_assoc, externalized_app, emitted_app, H7, H8.
Qed.

Lemma book_if (b : bool) (f : BState -> BState) s s' :
  (forall x, book x (f x)) -> book s s' -> book s (if b then f s' else s').
Proof. intros Hf Hs. destruct b; [by apply book_set|done]. Qed.

Lemma book_trans s1 s2 s3 : book s1 s2 -> book s2 s3 -> book s1 s3.
Proof.
  unfold book. intros (->&->&->&->&->&l&->&Hxl&Hel) (?&?&?&?&?&l'&->&Hxl'&Hel').
  do 5 (split; [congruence|]).
  exists (l ++ l'). by rewrite app_assoc, externalized_app, emitted_app, Hxl, Hel.
Qed.

(** the fields that describe the ballots *)
Definition same_core (s s' : BState) : Prop :=
  mPhase s' = mPhase s /\ mCurrentBallot s' = mCurrentBallot s /\ mPrepared s' = mPrepared s /\
  mPreparedPrime s' = mPreparedPrime s /\ mHighBallot s' = mHighBallot s /\ mCommit s' = mCommit s.

Lemma emit_ok_book s s' : book s s' -> emit_ok s -> emit_ok s'.
Proof.
  intros (_&_&H1&H2&H3&l&Hl&_&He) [Hs Hm]. unfold emit_ok.
  by rewrite H1, H2, H3, Hl, emitted_app, He, app_nil_r.
Qed.

Lemma committed_core s s' v :
  mCurrentBallot s' = mCurrentBallot s -> mCommit s' = mCommit s ->
  mHighBallot s' = mHighBallot s -> committed s v -> committed s' v.
Proof. intros H0 H1 H2. unfold committed. by rewrite H0, H1, H2. Qed.

Lemma Inv_book s s' :
  book s s' -> (mPhase s' <> SCP_PHASE_PREPARE -> exists v, committed s' v) -> Inv s -> Inv s'.
Proof.
  intros Hb Hc [_ Hk He]. split; [done| |by eapply emit_ok_book].
  by destruct Hb as (->&_).
Qed.

Section BookTrans.
Context `{Ctx : SCPContext}.

Lemma trans_book s s' :
  book s s' -> mPhase s <> SCP_PHASE_EXTERNALIZE -> phase_rank (mPhase s) <= phase_rank (mPhase s') ->
  (forall v, mPhase s <> SCP_PHASE_PREPARE -> committed s v -> committed s' v) ->
  (mPhase s' = mPhase s -> ballot_grows s s') ->
  (mPhase s' = SCP_PHASE_EXTERNALIZE ->
   exists c h, mCommit s' = Some c /\ mHighBallot s' = Some h /\
     ratified_commit c h (mLatestEnvelopes s)) ->
  trans s s'.
Proof.
  intros (HM&Hl&_&_&_&l&HC&Hx&_) Hne Hr Hc Hb Hj. split; auto; try done.
  - intros n _. by rewrite HM.
  - exists l. by auto.
  - intros _ _ _. left. by rewrite HM.
  - intros _ E. destruct (Hj E) as (c & h & H1 & H2 & H3). exists c, h, (mLatestEnvelopes s).
    split; [done|]. split; [done|]. split; [done|]. intros n _. by rewrite HM.
Qed.

Lemma trans_quiet s s' l :
  same_core s s' -> mLatestEnvelopes s' = mLatestEnvelopes s ->
  mCurrentMessageLevel s' = mCurrentMessageLevel s ->
  mCalls s' = mCalls s ++ l -> externalized l = [] -> trans s s'.
Proof.
  intros (Hp&Hb&Hpr&Hpp&Hh&Hc) HM Hl HC Hx. split; try done.
  - by rewrite Hp.
  - intros v _. by apply committed_core.
  - intros n _. by rewrite HM.
  - exists l. by auto.
  - intros _. by apply ballot_grows_eq.
  - intros _ _ _. left. by rewrite HM.
  - by rewrite Hp.
Qed.

Lemma quiet_ok s s' :
  book s s' -> same_core s s' -> Inv s -> Inv s' /\ trans s s'.
Proof.
  intros Hb Hc HI. split.
  - apply (Inv_book s); [done| |done]. destruct Hc as (Hp&Hcb&_&_&Hh&Hc). rewrite Hp. intros Hne.
    destruct (inv_commit _ HI Hne) as [v Hv]. exists v. by apply (committed_core s).
  - destruct Hb as (HM&Hl&_&_&_&l&HC&Hx&_). by apply (trans_quiet s s' l).
Qed.
End BookTrans.

(** ** The steps without messages *)

Section Steps.
Context `{Ctx : SCPContext}.

Lemma in_prepare_or_confirm_iff s :
  in_prepare_or_confirm s = true <-> mPhase s <> SCP_PHASE_EXTERNALIZE.
Proof. unfold in_prepare_or_confirm. by destruct (mPhase s). Qed.

Lemma bumpToBallot_spec ballot check s :
  safe (bumpToBallot ballot check s) (fun s' =>
    book s s' /\ mPhase s' = mPhase s /\ mCurrentBallot s' = Some ballot /\
    mPrepared s' = mPrepared s /\ mPreparedPrime s' = mPreparedPrime s /\ mCommit s' = mCommit s /\
    forall h, mHighBallot s = Some h -> value h = value ballot -> mHighBallot s' = Some h).
Proof.
  unfold bumpToBallot. apply safe_bind, safe_dbgAssert; [done|]. apply safe_bind.
  assert (Hk : safe (Ok (A := BState)
    (let gotBumped := match mCurrentBallot s with Some b => negb (counter b =? counter ballot) | None => true end in
     let s := if is_set (mCurrentBallot s) then s else call (startedBallotProtocol ballot) s in
     let s := set_mCurrentBallot (Some ballot) s in
     let s := match mHighBallot s with
              | Some h => if negb (areBallotsCompatible ballot h) then set_mHighBallot None s else s
              | None => s end in
     if gotBumped then set_mHeardFromQuorum false s else s)) (fun s' =>
    book s s' /\ mPhase s' = mPhase s /\ mCurrentBallot s' = Some ballot /\
    mPrepared s' = mPrepared s /\ mPreparedPrime s' = mPreparedPrime s /\ mCommit s' = mCommit s /\
    forall h, mHighBallot s = Some h -> value h = value ballot -> mHighBallot s' = Some h)).
  { set (s1 := if is_set (mCurrentBallot s) then s else call (startedBallotProtocol ballot) s).
    assert (H1 : book s s1) by (unfold s1; case_match; [apply book_refl|by apply book_call, book_refl]).
    assert (Hc : same_core s s1) by (unfold s1; by case_match).
    clearbody s1. destruct Hc as (Hp&_&Hpr&Hpp&Hh&Hc). cbn.
    assert (Hcompat : forall h, value h = value ballot -> areBallotsCompatible ballot h = true)
      by (intros h E; by apply compat_eq).
    destruct (mHighBallot s1) as [h|] eqn:Eh.
    - destruct (areBallotsCompatible ballot h) eqn:E; cbn [negb]; case_match;
        (do 6 (split; [done|])); intros h' Hh' Hv; cbn; try congruence;
        rewrite Hh' in Hh; injection Hh as ->; rewrite Hcompat in E by done; done.
    - case_match; (do 6 (split; [done|])); intros h' Hh' Hv; cbn; congruence. }
  apply safe_const; [|exact Hk]. repeat case_match; try done. by apply safe_dbgAssert.
Qed.

(** [b] only grows here, and [h] stays when it is for the same value *)
Definition bumped (h : SCPBallot) (s s' : BState) : Prop :=
  book s s' /\ mPhase s' = mPhase s /\ mPrepared s' = mPrepared s /\
  mPreparedPrime s' = mPreparedPrime s /\ mCommit s' = mCommit s /\ ballot_grows s s' /\
  is_Some (mCurrentBallot s') /\
  forall hb, mHighBallot s = Some hb -> value hb = value h -> mHighBallot s' = Some hb.

Lemma updateCurrentIfNeeded_spec h s :
  safe (updateCurrentIfNeeded h s) (fun '(_, s') => bumped h s s').
Proof.
  unfold updateCurrentIfNeeded.
  destruct (match mCurrentBallot s with Some b => _ | None => _ end) eqn:E; cycle 1.
  { split; [apply book_refl|]. do 4 (split; [done|]). split; [by apply ballot_grows_eq|].
    by destruct (mCurrentBallot s). }
  apply safe_bind. eapply safe_mono, bumpToBallot_spec.
  intros s' (Hb & Hp & Hcb & Hpr & Hpp & Hc & Hh). cbn. do 5 (split; [done|]).
  split; [|by rewrite Hcb]. intros b Hb'. rewrite Hb' in E. exists h. split; [done|]. zb.
  apply compareBallots_counter. lia.
Qed.

(** the state the protocol is bumped to *)
Lemma updateCurrentValue_spec ballot s :
  Inv s -> mPhase s <> SCP_PHASE_EXTERNALIZE ->
  safe (updateCurrentValue ballot s) (fun '(updated, s') =>
    if (updated : bool) then
      book s s' /\ mPhase s' = mPhase s /\ mCurrentBallot s' = Some ballot /\
      ballot_grows s s' /\
      (forall v, mPhase s <> SCP_PHASE_PREPARE -> committed s v -> committed s' v)
    else s' = s).
Proof.
  intros HI Hne. unfold updateCurrentValue. rewrite (proj2 (in_prepare_or_confirm_iff s) Hne). cbn [negb].
  destruct (mCurrentBallot s) as [b|] eqn:Eb.
  - apply safe_bind, safe_dbgAssert; [done|].
    destruct (match mCommit s with Some c => _ | None => false end) eqn:Ec; [done|].
    repeat split_if; try (by apply safe_bind, safe_checkInvariants); try done.
    apply safe_bind. eapply safe_mono, bumpToBallot_spec.
    intros s' (Hb & Hp & Hcb & Hpr & Hpp & Hc & Hh). apply safe_bind, safe_checkInvariants.
    cbn. do 3 (split; [done|]). split.
    + intros b' Hb'. exists ballot. split; [done|]. apply compareBallots_counter. simplify_eq. lia.
    + intros v _ (_ & c & h & Hc' & Hh' & Hvc & Hvh). split; [by rewrite Hcb|].
      exists c, h. rewrite Hc. split; [done|]. split; [|done]. apply Hh; [done|]. rewrite Hc' in Ec. zb. apply compat_eq in Ec. congruence.
  - apply safe_bind. eapply safe_mono, bumpToBallot_spec.
    intros s' (Hb & Hp & Hcb & Hpr & Hpp & Hc & Hh). apply safe_bind, safe_checkInvariants.
    cbn. do 3 (split; [done|]). split; [by intros b' Hb'; simplify_eq|].
    intros v _ [Hs _]. rewrite Eb in Hs. by destruct Hs.
Qed.

Lemma checkHeardFromQuorum_spec s :
  Inv s -> safe (checkHeardFromQuorum s) (fun s' => Inv s' /\ trans s s').
Proof.
  intros HI. unfold checkHeardFromQuorum. destruct (mCurrentBallot s) as [b|] eqn:Eb;
    [|split; [done|apply trans_refl]].
  assert (Hcalls : forall c s', externalized [c] = [] -> emitted [c] = [] ->
    book s s' /\ same_core s s' -> book s (call c s') /\ same_core s (call c s')).
  { intros c s' Hx He [H1 H2]. split; [by apply book_call|done]. }
  assert (H0 : forall x, book s (set_mHeardFromQuorum x s) /\ same_core s (set_mHeardFromQuorum x s))
    by (intros x; split; [exact (book_refl s)|done]).
  enough (safe (checkHeardFromQuorum s) (fun s' => book s s' /\ same_core s s')) as H.
  { unfold checkHeardFromQuorum in H. rewrite Eb in H. eapply safe_mono, H.
    intros s' [Hb Hc]. by apply quiet_ok. }
  unfold checkHeardFromQuorum. rewrite Eb. destruct (isQuorum_envs _ _); [|by apply Hcalls].
  apply safe_bind. destruct (mHeardFromQuorum s); cbn [negb].
  - cbn [safe]. case_match; [apply H0..|by apply Hcalls].
  - case_match.
    + unfold startBallotProtocolTimer. apply safe_bind, safe_deref. intros b' _. cbn [safe].
      case_match; repeat apply Hcalls; done.
    + cbn [safe]. case_match; repeat apply Hcalls; done.
Qed.

(** ** Emitting *)

Lemma emit_ok_alloc env s :
  emit_ok s ->
  match mLastEnvelope s with None => True | Some (_, last) => newer last env end ->
  emit_ok (allocLastEnvelope env s).
Proof.
  intros [Hs Hm] Hn. split; [done|]. cbn.
  destruct (mLastEnvelopeEmit s) as [[i e]|], (mLastEnvelope s) as [[j e']|]; try done.
  - destruct Hm as (Hall & Hj & Hij). split; [done|]. split; [lia|]. right.
    destruct Hij as [[-> ->]|[Hij Hnew]]; [done|]. split; [lia|by eapply newer_trans].
  - destruct Hm as [Hm ?]. split; [done|lia].
  - split; [done|lia].
Qed.

Lemma StronglySorted_snoc_R {A} (R : A -> A -> Prop) l x :
  StronglySorted R l -> (forall y, y ∈ l -> R y x) -> StronglySorted R (l ++ [x]).
Proof.
  induction l as [|y l IH]; intros Hs Hx; [by repeat constructor|].
  apply StronglySorted_inv in Hs as [Hs Hgt]. cbn. constructor.
  - apply IH; [done|]. intros z Hz. apply Hx. set_solver.
  - apply Forall_app. split; [done|]. constructor; [|done]. apply Hx. set_solver.
Qed.

Lemma sendLatestEnvelope_ok s : Inv s -> Inv (sendLatestEnvelope s) /\ trans s (sendLatestEnvelope s).
Proof.
  intros HI. unfold sendLatestEnvelope.
  destruct (mLastEnvelope s) as [[j e']|] eqn:El; [|split; [done|apply trans_refl]].
  destruct ((mCurrentMessageLevel s =? 0) && mFullyValidated s); [|split; [done|apply trans_refl]].
  destruct (negb (is_set (mLastEnvelopeEmit s)) || _) eqn:E; [|split; [done|apply trans_refl]].
  split; [|by apply (trans_quiet s _ [emitEnvelope e'])].
  destruct HI as [Hc Hk [Hs Hm]]. split; [done|done|]. unfold emit_ok. cbn. rewrite El in Hm |- *.
  rewrite emitted_app. cbn.
  destruct (mLastEnvelopeEmit s) as [[i e]|].
  - destruct Hm as (Hall & Hj & [[-> _]|[Hij Hnew]]).
    + unfold same_ptr in E. cbn in E. by rewrite bool_decide_true in E.
    + assert (Hx : forall x, x ∈ emitted (mCalls s) -> newer x e').
      { intros x Hx. destruct (Hall x Hx) as [->|H]; [done|by eapply newer_trans]. }
      split; [by apply StronglySorted_snoc_R|]. split; [|by auto].
      intros x [Hx'|Hx']%elem_of_app; [right; by apply Hx|left; set_solver].
  - destruct Hm as [Hm Hj]. rewrite Hm. cbn. split; [by repeat constructor|].
    split; [|by auto]. intros x ->%list_elem_of_singleton. by left.
Qed.
End Steps.

(** ** What the interval found satisfies, for any boundaries *)

Lemma extend_interval_pred pred l cand :
  pred (extend_interval pred l cand) = true \/ extend_interval pred l cand = cand.
Proof.
  revert cand. induction l as [|b l IH]; intros cand; [by right|]. cbn [extend_interval].
  assert (H : forall cur, let r := if pred cur then extend_interval pred l cur
     else if negb (fst cand =? 0) then cand else extend_interval pred l cand in
     pred r = true \/ r = cand).
  { intros cur r. unfold r. destruct (pred cur) eqn:E; [|case_match; [by right|apply IH]].
    left. by destruct (IH cur) as [?| ->]. }
  destruct (fst cand =? 0); [apply H|]. destruct (b >? snd cand); [apply IH|apply H].
Qed.

Lemma findExtendedInterval_pred boundaries pred :
  fst (findExtendedInterval (0, 0) boundaries pred) <> 0 ->
  pred (findExtendedInterval (0, 0) boundaries pred) = true.
Proof.
  unfold findExtendedInterval. intros H.
  destruct (extend_interval_pred pred (rev boundaries) (0, 0)) as [?|E]; [done|]. by rewrite E in H.
Qed.

(** ** The transitions, given that the recursive call is well behaved *)

(** what the node records of itself: its statement for the current ballot *)
Definition own_envelope `{SCPContext} (e : SCPEnvelope) (s : BState) : Prop :=
  nodeID (statement e) = getLocalNodeID /\
  (mPhase s <> SCP_PHASE_EXTERNALIZE -> forall b, mCurrentBallot s = Some b ->
   statementBallotCounter (statement e) <= counter b).

Definition good `{SCPContext} {A} (s : BState) (r : res (A * BState)) : Prop :=
  safe r (fun '(_, s') => Inv s' /\ trans s s').

Section Rec.
Context `{Ctx : SCPContext}.
Hypothesis local_ok : qset_ok getQuorumSet.
Variable rec : SCPEnvelope -> bool -> BState -> res (EnvelopeState * BState).
Variable low : Z.

(** the recursive call may be made from this level *)
Definition level_ok (s : BState) : Prop := low <= mCurrentMessageLevel s < MAX_ADVANCE_SLOT_RECURSION.

Hypothesis rec_ok : forall e s, Inv s -> level_ok s -> own_envelope e s -> good s (rec e true s).

Lemma level_ok_trans s s' : trans s s' -> level_ok s -> level_ok s'.
Proof. intros H. unfold level_ok. by rewrite (tr_level _ _ H). Qed.

Lemma createStatement_own s :
  safe (createStatement s) (fun pl => own_envelope (createEnvelope pl) s /\
    (mPhase s <> SCP_PHASE_PREPARE -> is_Some (mCommit s))).
Proof.
  unfold createStatement. apply safe_bind, safe_checkInvariants.
  destruct (mPhase s) eqn:Ep.
  - split; [|done]. split; [done|]. intros _ b Hb. cbn. rewrite Hb. lia.
  - repeat (apply safe_bind, safe_deref; intros ??). split; [|by eauto].
    split; [done|]. intros _ b Hb. cbn. simplify_eq. lia.
  - repeat (apply safe_bind, safe_deref; intros ??). split; [|by eauto]. by split.
Qed.

Lemma emit_spec s :
  Inv s -> level_ok s ->
  safe (emitCurrentStateStatement rec s) (fun s' => Inv s' /\ trans s s').
Proof.
  intros HI HL. unfold emitCurrentStateStatement. apply safe_bind.
  eapply safe_mono, createStatement_own. intros pl [Hown _]. cbn.
  case_bool_decide; [split; [done|apply trans_refl]|].
  apply safe_bind. eapply safe_mono, rec_ok; [|done..]. intros [[] s1] [HI1 HT1]; [done|].
  destruct (is_set _ && _) eqn:E; [|done]. cbn.
  apply andb_true_iff in E as [_ E].
  assert (HI2 : Inv (allocLastEnvelope (createEnvelope pl) s1)).
  { destruct HI1 as [Hc Hk He]. split; [done|done|]. apply emit_ok_alloc; [done|].
    by destruct (mLastEnvelope s1) as [[]|]. }
  destruct (sendLatestEnvelope_ok _ HI2) as [HI3 HT3]. split; [done|].
  eapply trans_trans; [exact HT1|]. eapply trans_trans; [|exact HT3].
  apply (trans_quiet s1 _ []); cbn; try done. by rewrite app_nil_r.
Qed.

Lemma then_emit s s1 :
  trans s s1 -> Inv s1 -> level_ok s ->
  safe (emitCurrentStateStatement rec s1) (fun s' => Inv s' /\ trans s s' /\ trans s1 s').
Proof.
  intros HT HI HL. eapply safe_mono, emit_spec; [|done|by eapply level_ok_trans].
  intros s' [HI' HT']. split; [done|]. split; [by eapply trans_trans|done].
Qed.

(** after a bump the node went on from a state with the counter asked for *)
Definition bumped_to (n : Z) (s s' : BState) : Prop :=
  exists s1 b1, mLatestEnvelopes s1 = mLatestEnvelopes s /\ mPhase s1 = mPhase s /\
    mCurrentBallot s1 = Some b1 /\ n <= counter b1 /\ trans s1 s'.

Lemma bumpState_n_spec v n s :
  Inv s -> level_ok s ->
  safe (bumpState_n rec v n s) (fun '(u, s') =>
    Inv s' /\ trans s s' /\ ((u : bool) = true -> bumped_to n s s')).
Proof.
  intros HI HL. unfold bumpState_n.
  destruct (in_prepare_or_confirm s) eqn:Ep; cbn [negb]; [|split; [done|split; [apply trans_refl|done]]].
  apply in_prepare_or_confirm_iff in Ep. apply safe_bind.
  eapply safe_mono, updateCurrentValue_spec; [|done..].
  intros [[] s1]; [|intros ->; split; [done|split; [apply trans_refl|done]]].
  intros (Hb & Hp & Hcb & Hg & Hcom).
  assert (HT1 : trans s s1). { apply trans_book; auto; rewrite Hp; done. }
  assert (HI1 : Inv s1).
  { apply (Inv_book s); [done| |done]. rewrite Hp. intros Hne.
    destruct (inv_commit _ HI Hne) as [w Hw]. exists w. by apply Hcom. }
  apply safe_bind. eapply safe_mono, then_emit; [|exact HT1|done|done].
  intros s2 (HI2 & HT2 & HT12). apply safe_bind. eapply safe_mono, checkHeardFromQuorum_spec; [|done].
  intros s3 [HI3 HT3]. cbn. split; [done|]. split; [by eapply trans_trans|]. intros _.
  eexists s1, _. split; [apply Hb|]. split; [done|]. split; [done|]. split; [done|]. by eapply trans_trans.
Qed.

Lemma abandonBallot_spec n s :
  Inv s -> level_ok s ->
  safe (abandonBallot rec n s) (fun '(u, s') =>
    Inv s' /\ trans s s' /\ ((u : bool) = true -> bumped_to n s s')).
Proof.
  intros HI HL. unfold abandonBallot.
  set (v := if bool_decide (mLatestCompositeCandidate s = []) then _ else _). clearbody v.
  destruct (bool_decide (v = [])); [split; [done|split; [apply trans_refl|done]]|].
  destruct (Z.eqb_spec n 0).
  - unfold bumpState. cbn [negb andb]. eapply safe_mono, bumpState_n_spec; [|done..].
    intros [u s'] (?&?&Hb). split; [done|]. split; [done|]. intros Hu.
    destruct (Hb Hu) as (s1 & b1 & H1 & H2 & H3 & Hle & H4). exists s1, b1. do 3 (split; [done|]).
    split; [|done]. destruct (mCurrentBallot s) as [b|]; [|lia]. pose proof (u32_range (counter b + 1)). zlia.
  - eapply safe_mono, bumpState_n_spec; [|done..]. intros [u s'] (?&?&?). by auto.
Qed.

(** changes of [p] and [p'] *)
Lemma prepared_ok s s' :
  book s s' -> mPhase s' = mPhase s -> mPhase s <> SCP_PHASE_EXTERNALIZE ->
  mCurrentBallot s' = mCurrentBallot s ->
  mHighBallot s' = mHighBallot s -> (mPhase s <> SCP_PHASE_PREPARE -> mCommit s' = mCommit s) ->
  Inv s -> Inv s' /\ trans s s'.
Proof.
  intros Hb Hp Hne Hcb Hh Hc HI.
  assert (Hcom : forall v, mPhase s <> SCP_PHASE_PREPARE -> committed s v -> committed s' v)
    by (intros v Hn; apply committed_core; auto).
  split.
  - apply (Inv_book s); [done| |done]. rewrite Hp. intros Hn. destruct (inv_commit _ HI Hn) as [v Hv].
    exists v. by apply Hcom.
  - apply trans_book; auto; try (rewrite Hp; done). intros _. by apply ballot_grows_eq.
Qed.

Lemma setPrepared_spec ballot s :
  let '(_, s') := setPrepared ballot s in
  book s s' /\ mPhase s' = mPhase s /\ mCurrentBallot s' = mCurrentBallot s /\
  mHighBallot s' = mHighBallot s /\ mCommit s' = mCommit s.
Proof.
  pose proof (book_refl s) as Hb. unfold setPrepared.
  repeat case_match; simplify_eq; (split; [exact Hb|done]).
Qed.

Lemma emit_no_commit s Q :
  mPhase s <> SCP_PHASE_PREPARE -> mCommit s = None -> safe (emitCurrentStateStatement rec s) Q.
Proof.
  intros Hp Hc. unfold emitCurrentStateStatement. apply safe_bind.
  eapply safe_mono, createStatement_own. intros pl [_ H]. destruct (H Hp) as [c Hc']. congruence.
Qed.

Lemma setPreparedAccept_spec ballot s :
  Inv s -> level_ok s -> mPhase s <> SCP_PHASE_EXTERNALIZE -> good s (setPreparedAccept rec ballot s).
Proof.
  intros HI HL Hne. unfold setPreparedAccept.
  pose proof (setPrepared_spec ballot s) as Hsp. destruct (setPrepared ballot s) as [w s1].
  destruct Hsp as (Hb & Hp & Hcb & Hh & Hc).
  assert (Hend : forall w s2, book s s2 -> mPhase s2 = mPhase s -> mCurrentBallot s2 = mCurrentBallot s ->
    mHighBallot s2 = mHighBallot s -> (mPhase s <> SCP_PHASE_PREPARE -> mCommit s2 = mCommit s) ->
    good s (if (w : bool) then s' ← emitCurrentStateStatement rec (call (acceptedBallotPrepared ballot) s2);
                            Ok (true, s') else Ok (false, s2))).
  { intros w' s2 Hb2 Hp2 Hcb2 Hh2 Hc2. destruct w'; [|by apply (prepared_ok s s2)].
    destruct (prepared_ok s (call (acceptedBallotPrepared ballot) s2)) as [HI2 HT2];
      [by apply book_call|done..|]. unfold good. apply safe_bind.
    eapply safe_mono, then_emit; [|exact HT2|done|done]. by intros s' (?&?&_). }
  apply safe_bind. destruct (mCommit s1) as [c|] eqn:Ec; [|apply Hend; auto; congruence].
  destruct (mHighBallot s1) as [h|] eqn:Eh; [|apply Hend; auto; congruence].
  case_match; [|apply Hend; auto; congruence].
  apply safe_bind, safe_dbgAssert; [done|]. cbn [safe].
  destruct (decide (mPhase s = SCP_PHASE_PREPARE)) as [E|E].
  - apply (Hend true); cbn; auto; done || congruence.
  - unfold good. apply safe_bind, emit_no_commit; cbn; congruence.
Qed.

Lemma findPreparedAccept_safe l s : safe (findPreparedAccept l s) (fun _ => True).
Proof.
  induction l as [|b l IH]; [done|]. cbn [findPreparedAccept]. apply safe_bind.
  assert (H : forall skip : bool, safe (if skip
     || opt_test (fun p' => compareBallots b p' <=? 0) (mPreparedPrime s)
     || opt_test (areBallotsLessAndCompatible b) (mPrepared s) then findPreparedAccept l s
    else if federatedAccept (votedPrepare b) (hasPreparedBallot b) (mLatestEnvelopes s)
    then Ok (Some b) else findPreparedAccept l s) (fun _ => True)).
  { intros skip. by repeat case_match. }
  destruct (mPhase s); cbn [safe]; try apply H. apply safe_bind, safe_deref. intros p _.
  destruct (areBallotsLessAndCompatible p b); [|apply H]. apply safe_bind, safe_dbgAssert; [|apply H].
  by apply safe_bind, safe_deref.
Qed.

Lemma attemptPreparedAccept_spec hint s :
  Inv s -> level_ok s -> good s (attemptPreparedAccept rec hint s).
Proof.
  intros HI HL. unfold attemptPreparedAccept.
  destruct (in_prepare_or_confirm s) eqn:Ep; cbn [negb]; [|split; [done|apply trans_refl]].
  apply in_prepare_or_confirm_iff in Ep. apply safe_bind.
  eapply safe_mono, findPreparedAccept_safe. intros [b|] _; [by apply setPreparedAccept_spec|].
  split; [done|apply trans_refl].
Qed.

(** anything goes in the first phase, as long as [b] grows *)
Lemma first_phase_ok s s' :
  mPhase s = SCP_PHASE_PREPARE -> mPhase s' = SCP_PHASE_PREPARE -> book s s' -> ballot_grows s s' ->
  Inv s -> Inv s' /\ trans s s'.
Proof.
  intros Hp Hp' Hb Hg HI. split; [by apply (Inv_book s)|].
  apply trans_book; try done; try congruence. by rewrite Hp, Hp'.
Qed.

Lemma setPreparedConfirmed_spec newC newH s :
  Inv s -> level_ok s -> mPhase s = SCP_PHASE_PREPARE -> good s (setPreparedConfirmed rec newC newH s).
Proof.
  intros HI HL Hp. unfold setPreparedConfirmed. apply safe_bind.
  match goal with |- safe ?r _ => assert (H1 : safe r (fun '(_, s1) =>
    book s s1 /\ mPhase s1 = SCP_PHASE_PREPARE /\ mCurrentBallot s1 = mCurrentBallot s)) end.
  { case_match; [|split; [exact (book_refl s)|done]].
    destruct (if match mHighBallot _ with Some h => _ | None => true end then _ else _) as [w s1] eqn:E.
    assert (Hs1 : book s s1 /\ mPhase s1 = SCP_PHASE_PREPARE /\ mCurrentBallot s1 = mCurrentBallot s)
      by (repeat case_match; simplify_eq; (split; [exact (book_refl s)|done])).
    clear E. apply safe_bind. destruct Hs1 as (Hb & Hp1 & Hc1). destruct (negb (counter newC =? 0)).
    - apply safe_bind, safe_dbgAssert; [done|]. cbn [safe]. split; [by apply book_call|done].
    - cbn [safe]. destruct w; (split; [by try apply book_call|done]). }
  eapply safe_mono, H1. clear H1. intros [w s1] (Hb & Hp1 & Hc1). apply safe_bind.
  eapply safe_mono, updateCurrentIfNeeded_spec. intros [u s2] (Hb2 & Hp2 & _ & _ & _ & Hg & _).
  destruct (first_phase_ok s s2) as [HI2 HT2]; [done|congruence|by eapply book_trans| |done|].
  { eapply ballot_grows_trans; [by apply ballot_grows_eq|done]. }
  destruct (u || w); [|done]. apply safe_bind.
  eapply safe_mono, then_emit; [|exact HT2|done|done]. by intros s' (?&?&_).
Qed.

Lemma attemptPreparedConfirmed_spec hint s :
  Inv s -> level_ok s -> good s (attemptPreparedConfirmed rec hint s).
Proof.
  intros HI HL. unfold attemptPreparedConfirmed.
  pose proof (conj HI (trans_refl s)) as Hr.
  case_bool_decide as Ep; cbn [negb]; [|done]. case_match; [done|]. case_match; [done|].
  by apply setPreparedConfirmed_spec.
Qed.

(** the end of [setAcceptCommit] and [setConfirmCommit]: the ballots are set for
    the value of [h] *)
Lemma commit_ready c h s s' :
  mCommit s = Some c -> mHighBallot s = Some h -> value c = value h -> bumped h s s' ->
  committed s' (value h) /\ mCommit s' = Some c /\ mHighBallot s' = Some h.
Proof.
  intros Hc Hh Hv (_ & _ & _ & _ & Hc' & _ & Hs & Hh'). specialize (Hh' h Hh eq_refl).
  split; [split; [done|]; exists c, h; by rewrite Hc'|]. by rewrite Hc'.
Qed.

Lemma setAcceptCommit_spec c h s :
  Inv s -> level_ok s -> mPhase s <> SCP_PHASE_EXTERNALIZE -> value c = value h ->
  (mPhase s <> SCP_PHASE_PREPARE -> committed s (value h)) ->
  good s (setAcceptCommit rec c h s).
Proof.
  intros HI HL Hne Hv Hcom. unfold setAcceptCommit.
  destruct (if match mHighBallot _ with Some h0 => _ | None => true end then _ else _) as [w s1] eqn:E.
  assert (H1 : book s s1 /\ mPhase s1 = mPhase s /\ mCurrentBallot s1 = mCurrentBallot s /\
    mPrepared s1 = mPrepared s /\ mPreparedPrime s1 = mPreparedPrime s /\
    mCommit s1 = Some c /\ mHighBallot s1 = Some h /\
    (w = false -> same_core s s1)).
  { cbn in E. destruct (mHighBallot s) as [h0|] eqn:Eh, (mCommit s) as [c0|] eqn:Ec; cbn in E;
      try (simplify_eq; split; [exact (book_refl s)|done]).
    destruct (negb _ || negb _) eqn:Et; simplify_eq; (split; [exact (book_refl s)|]); [done|].
    zb. rewrite (cmp_zero (f := compareBallots)) in H, H0. subst. by repeat (split; [done|]). }
  clear E. destruct H1 as (Hb & Hp & Hcb & _ & _ & Hc & Hh & Hw).
  assert (Hend : forall w s2, book s s2 -> mPhase s2 = SCP_PHASE_CONFIRM ->
    (mPhase s = SCP_PHASE_CONFIRM -> ballot_grows s s2) -> mCommit s2 = Some c -> mHighBallot s2 = Some h ->
    (w = false -> same_core s s2) ->
    good s (if (w : bool) then hb ← deref (mHighBallot s2); '(_, s2) ← updateCurrentIfNeeded hb s2;
      s2 ← emitCurrentStateStatement rec (call (acceptedCommit h) s2); Ok (true, s2) else Ok (false, s2))).
  { intros w2 s2 Hb2 Hp2 Hg2 Hc2 Hh2 Hw2. destruct w2; [|by apply quiet_ok, HI; [|apply Hw2]].
    unfold good. rewrite Hh2. cbn [deref]. rewrite bind_ok. apply safe_bind.
    eapply safe_mono, updateCurrentIfNeeded_spec. intros [u s3] Hbump.
    destruct (commit_ready c h s2 s3 Hc2 Hh2 Hv Hbump) as (Hcom3 & _).
    destruct Hbump as (Hb3 & Hp3 & _ & _ & _ & Hg3 & _ & _).
    assert (Hbk : book s (call (acceptedCommit h) s3)) by (apply book_call; [done..|by eapply book_trans]).
    assert (HT : trans s (call (acceptedCommit h) s3)).
    { apply trans_book; [done|done| | | |]; cbn; rewrite ?Hp3, ?Hp2.
      - destruct (mPhase s); done || lia.
      - intros v Hn Hcv. by rewrite (committed_unique s v (value h) Hcv (Hcom Hn)).
      - intros E. eapply ballot_grows_trans; [by apply Hg2|done].
      - done. }
    apply safe_bind. eapply safe_mono, then_emit; [|exact HT| |done].
    - by intros s' (?&?&_).
    - apply (Inv_book s); [done| |done]. intros _. by exists (value h). }
  apply safe_bind. destruct (mPhase s1) eqn:Ep1; [|apply Hend; auto|congruence].
  - cbn. apply safe_bind.
    assert (Hx : forall s2, book s s2 -> mPhase s2 = SCP_PHASE_CONFIRM -> mCommit s2 = Some c ->
      mHighBallot s2 = Some h -> good s (hb ← deref (mHighBallot (set_mPreparedPrime None s2));
       '(_, s2) ← updateCurrentIfNeeded hb (set_mPreparedPrime None s2);
       s2 ← emitCurrentStateStatement rec (call (acceptedCommit h) s2); Ok (true, s2))).
    { intros s2 Hb2 Hp2 Hc2 Hh2. apply (Hend true (set_mPreparedPrime None s2)); try done. congruence. }
    destruct (opt_test _ _); [|apply Hx; done].
    eapply safe_mono, bumpToBallot_spec. intros s2 (Hb2 & Hp2 & _ & _ & _ & Hc2 & Hh2).
    apply Hx; [by eapply book_trans; [|exact Hb2]|done|by rewrite Hc2|by apply Hh2].
  - intros Ex. apply ballot_grows_eq. done.
Qed.

Lemma attemptAcceptCommit_spec hint s :
  Inv s -> level_ok s -> good s (attemptAcceptCommit rec hint s).
Proof.
  intros HI HL. unfold attemptAcceptCommit. pose proof (conj HI (trans_refl s)) as Hr.
  destruct (in_prepare_or_confirm s) eqn:Ep; cbn [negb]; [|done].
  apply in_prepare_or_confirm_iff in Ep. destruct (commitHint true hint) as [ballot|]; [|done].
  apply safe_bind.
  assert (Hgo : forall go : bool, (go = true -> mPhase s <> SCP_PHASE_PREPARE -> committed s (value ballot)) ->
    good s (if negb go then Ok (false, s) else
      let pred cur := federatedAccept (votedCommit ballot cur) (commitPredicate ballot cur)
                        (mLatestEnvelopes s) in
      let boundaries := getCommitBoundariesFromStatements ballot s in
      if bool_decide (boundaries = []) then Ok (false, s) else
      let candidate := findExtendedInterval (0, 0) boundaries pred in
      if negb (fst candidate =? 0) then
        higher ← match mPhase s with
                 | SCP_PHASE_CONFIRM => h ← deref (mHighBallot s); Ok (snd candidate >? counter h)
                 | _ => Ok true
                 end;
        if (higher : bool) then
          setAcceptCommit rec (mkBallot (fst candidate) (value ballot))
            (mkBallot (snd candidate) (value ballot)) s
        else Ok (false, s)
      else Ok (false, s))).
  { intros [] Hcom; cbn zeta; cbn [negb]; [|done]. destruct (bool_decide _); [done|].
    destruct (findExtendedInterval _ _ _) as [lo hi]. destruct (negb _); [|done]. apply safe_bind.
    assert (Hset : good s (setAcceptCommit rec (mkBallot lo (value ballot)) (mkBallot hi (value ballot)) s))
      by (apply setAcceptCommit_spec; auto).
    destruct (mPhase s); cbn [safe]; try done.
    apply safe_bind, safe_deref. intros h _. cbn [safe]. by case_match. }
  destruct (mPhase s) eqn:E; cbn [safe]; [by apply Hgo| |done].
  apply safe_bind, safe_deref. intros h Hh. apply Hgo. intros Hcompat _.
  destruct (inv_commit s HI) as [v Hv]; [by rewrite E|].
  apply compat_eq in Hcompat. destruct Hv as (H1 & c & h' & H2 & H3 & H4 & H5).
  split; [done|]. exists c, h'. simplify_eq. by rewrite Hcompat.
Qed.

(** recording that the value was externalized *)
Lemma trans_externalize s s' l v :
  trans s s' -> mCalls s' = mCalls s ++ l -> externalized l = [] ->
  mPhase s <> SCP_PHASE_EXTERNALIZE -> mPhase s' = SCP_PHASE_EXTERNALIZE -> committed s' v ->
  trans s (call (valueExternalized v) (call stopNomination s')).
Proof.
  intros HT Hl Hx Hne He Hv. destruct HT as [H1 H2 H3 H4 H5 _ H7 H8 H9]. split; try done.
  exists (l ++ [stopNomination; valueExternalized v]). cbn. rewrite Hl, <- !app_assoc. split; [done|].
  right. split; [done|]. split; [done|]. exists v. split; [|done].
  by rewrite externalized_app, Hx.
Qed.

Lemma Inv_call c s : emitted [c] = [] -> Inv s -> Inv (call c s).
Proof.
  intros Hc [H1 H2 [H3 H4]]. split; [done|done|]. unfold emit_ok. cbn.
  by rewrite emitted_app, Hc, app_nil_r.
Qed.

Lemma setConfirmCommit_spec c h s :
  Inv s -> level_ok s -> mPhase s = SCP_PHASE_CONFIRM -> value c = value h ->
  committed s (value h) -> ratified_commit c h (mLatestEnvelopes s) ->
  good s (setConfirmCommit rec c h s).
Proof.
  intros HI HL Hp Hv Hcom Hr. unfold setConfirmCommit, good. apply safe_bind.
  eapply safe_mono, updateCurrentIfNeeded_spec. intros [u s2] Hbump.
  destruct (commit_ready c h (set_mHighBallot (Some h) (set_mCommit (Some c) s)) s2
    eq_refl eq_refl Hv Hbump) as (Hcom2 & Hc2 & Hh2).
  destruct Hbump as (Hb2 & Hp2 & _ & _ & _ & Hg2 & _ & _).
  set (s3 := set_mPhase SCP_PHASE_EXTERNALIZE s2).
  assert (Hb3 : book s s3) by exact Hb2.
  assert (HT3 : trans s s3).
  { apply trans_book; [done|congruence| | | |]; cbn.
    - rewrite Hp. done.
    - intros v _ Hcv. by rewrite (committed_unique s v (value h) Hcv Hcom).
    - by rewrite Hp.
    - intros _. by exists c, h. }
  assert (HI3 : Inv s3) by (apply (Inv_book s); [done| |done]; intros _; by exists (value h)).
  apply safe_bind. eapply safe_mono, then_emit; [|exact HT3|done|done].
  intros s4 (HI4 & HT4 & HT34).
  destruct (tr_frozen _ _ HT34 eq_refl) as (_ & _ & _ & _ & Hc4).
  change (mCommit s3) with (mCommit s2) in Hc4. rewrite Hc2 in Hc4. cbn [call set_mCalls mCommit].
  rewrite Hc4. cbn [deref]. rewrite bind_ok. cbn [safe].
  split; [by apply Inv_call, Inv_call|].
  destruct Hb3 as (_&_&_&_&_&l3&El3&Hx3&_). destruct (tr_calls _ _ HT34) as (l4 & El4 & [Hx4|[Hn _]]); [|by destruct Hn].
  apply (trans_externalize s s4 (l3 ++ l4)); [done|by rewrite El4, El3, app_assoc| |congruence| |].
  - by rewrite externalized_app, Hx3.
  - by apply (trans_stays_ext _ _ HT34).
  - apply (tr_commit _ _ HT34); [done|]. by rewrite Hv.
Qed.

Lemma attemptConfirmCommit_spec hint s :
  Inv s -> level_ok s -> good s (attemptConfirmCommit rec hint s).
Proof.
  intros HI HL. unfold attemptConfirmCommit. pose proof (conj HI (trans_refl s)) as Hr.
  destruct (mPhase s) eqn:Ep; try done.
  destruct (mHighBallot s) as [h|] eqn:Eh; [|done]. destruct (mCommit s) as [c|] eqn:Ec; [|done].
  destruct (commitHint false hint) as [ballot|]; [|done].
  destruct (areBallotsCompatible ballot c) eqn:Eb; cbn [negb]; [|done]. cbn zeta.
  destruct (negb (fst _ =? 0)) eqn:Ef; [|done]. zb. apply compat_eq in Eb.
  pose proof (findExtendedInterval_pred _ _ Ef) as Hpred.
  destruct (findExtendedInterval _ _ _) as [lo hi].
  apply setConfirmCommit_spec; [done..| |split; [apply HI|exact Hpred]]. cbn.
  destruct (inv_commit s HI) as [v Hv]; [by rewrite Ep|].
  destruct Hv as (H1 & c' & h' & H2 & H3 & H4 & H5). split; [done|]. exists c', h'. simplify_eq.
  rewrite Eb. split; [done|]. split; [done|]. by rewrite H5.
Qed.

(** ** Bumping *)

Lemma elem_of_filtered envs flt n :
  StronglySorted Z.lt (map fst envs) ->
  n ∈ filtered_nodes (statements envs) flt <->
  exists e, map_find envs n = Some e /\ flt (statement e) = true.
Proof.
  intros Hs. unfold filtered_nodes. rewrite list_elem_of_fmap. split.
  - intros ([k st] & -> & Hin). apply elem_of_filter_list in Hin as [Hin Hf].
    unfold statements in Hin. apply list_elem_of_fmap in Hin as ([k' e] & [= -> ->] & Hin).
    exists e. by split; [apply map_find_elem|].
  - intros (e & He & Hf). exists (n, statement e). split; [done|]. apply elem_of_filter_list.
    split; [|done]. apply list_elem_of_fmap. exists (n, e). split; [done|]. by apply map_find_elem.
Qed.

(** no node has to be followed any further *)
Definition calm (s : BState) : Prop :=
  mPhase s = SCP_PHASE_EXTERNALIZE \/
  hasVBlockingSubsetStrictlyAheadOf (mLatestEnvelopes s) (counter_or_0 (mCurrentBallot s)) = false.

Instance calm_dec s : Decision (calm s).
Proof. unfold calm. apply _. Defined.

Lemma calm_attemptBump s : calm s -> attemptBump rec s = Ok (false, s).
Proof.
  unfold attemptBump, in_prepare_or_confirm. intros [->| ->]; [done|]. by destruct (mPhase s).
Qed.

Lemma bumped_calm n s s' :
  Inv s -> Inv s' -> mPhase s' = mPhase s -> bumped_to n s s' ->
  hasVBlockingSubsetStrictlyAheadOf (mLatestEnvelopes s) n = false -> calm s'.
Proof.
  intros HI HI' Hp (s1 & b1 & HM & Hp1 & Hb1 & Hn & HT) Hvb.
  destruct (decide (mPhase s' = SCP_PHASE_EXTERNALIZE)) as [E|E]; [by left|right].
  assert (Hp1' : mPhase s' = mPhase s1) by congruence.
  destruct (tr_counter _ _ HT Hp1' b1 Hb1) as (b' & Hb' & Hle). rewrite Hb'. cbn.
  apply not_true_iff_false. intros Hvb'. apply not_true_iff_false in Hvb. apply Hvb.
  unfold hasVBlockingSubsetStrictlyAheadOf, isVBlocking_map, isVBlocking in *.
  eapply isVBlocking_mono; [done| |exact Hvb'].
  intros k. rewrite !elem_of_filtered by apply HI || apply HI'. intros (e & He & Hc).
  rewrite Z.gtb_lt in Hc.
  exists e. rewrite Z.gtb_lt. split; [|lia]. rewrite <- HM.
  destruct (decide (k = getLocalNodeID)) as [->|Hk]; [|by rewrite <- (tr_others _ _ HT k Hk)].
  destruct (tr_own _ _ HT Hp1') as [<-|(e' & b'' & He' & Hb'' & Hle')]; [congruence|by eauto|done|].
  simplify_eq. lia.
Qed.

Lemma attemptBump_spec s :
  Inv s -> level_ok s ->
  safe (attemptBump rec s) (fun '(u, s') => Inv s' /\ trans s s' /\
    ((u : bool) = true -> mPhase s' = mPhase s -> calm s')).
Proof.
  intros HI HL. unfold attemptBump.
  assert (Hr : Inv s /\ trans s s /\ (false = true -> mPhase s = mPhase s -> calm s))
    by (split; [done|]; split; [apply trans_refl|done]).
  destruct (in_prepare_or_confirm s); [|done]. destruct (negb _); [done|].
  destruct (List.find _ _) as [n|] eqn:E; [|done].
  apply List.find_some in E as [_ E]. zb.
  eapply safe_mono, abandonBallot_spec; [|done..]. intros [u s'] (HI' & HT & Hb).
  split; [done|]. split; [done|]. intros Hu Hp. by apply (bumped_calm n s s' HI HI' Hp (Hb Hu)).
Qed.

Lemma bumpLoop_spec fuel w s :
  Inv s -> level_ok s ->
  (calm s /\ (1 <= fuel)%nat) \/ 4 - phase_rank (mPhase s) <= Z.of_nat fuel ->
  good s (bumpLoop rec fuel w s).
Proof.
  revert w s. induction fuel as [|fuel IH]; intros w s HI HL Hf.
  { destruct Hf as [[_ ?]|Hf]; [lia|]. destruct (mPhase s); cbn in Hf; lia. }
  cbn [bumpLoop]. unfold good. apply safe_bind.
  destruct (decide (calm s)) as [Hc|Hc].
  { rewrite calm_attemptBump by done. split; [done|apply trans_refl]. }
  destruct Hf as [[? _]|Hf]; [done|].
  eapply safe_mono, attemptBump_spec; [|done..]. intros [[] s'] (HI' & HT & Hcalm); [|done].
  eapply safe_mono, IH; [|done|by eapply level_ok_trans|].
  - intros [w' s''] [HI'' HT'']. split; [done|by eapply trans_trans].
  - destruct (decide (mPhase s' = mPhase s)) as [E|E].
    + left. split; [by apply Hcalm|]. destruct (mPhase s); cbn in Hf; lia.
    + right. pose proof (tr_phase _ _ HT).
      assert (phase_rank (mPhase s') <> phase_rank (mPhase s)) by (intros Ex; apply E, phase_rank_inj, Ex). lia.
Qed.

(** ** Advancing *)

Lemma Inv_level n s : Inv s <-> Inv (set_mCurrentMessageLevel n s).
Proof. split; intros [H1 H2 H3]; by split. Qed.

Lemma trans_level n s s' :
  trans (set_mCurrentMessageLevel n s) s' ->
  trans s (set_mCurrentMessageLevel (mCurrentMessageLevel s) s').
Proof. intros [H1 H2 H3 H4 H5 H6 H7 H8 H9]. by split. Qed.

Lemma good_then {A B} s (r : res (A * BState)) (f : A * BState -> res (B * BState)) :
  level_ok s -> good s r ->
  (forall a s', Inv s' -> level_ok s' -> trans s s' -> good s' (f (a, s'))) -> good s (r ≫= f).
Proof.
  intros HL Hr Hf. apply safe_bind. eapply safe_mono, Hr. intros [a s'] [HI HT].
  eapply safe_mono, Hf; [|done|by eapply level_ok_trans|done].
  intros [b s''] [HI' HT']. split; [done|by eapply trans_trans].
Qed.

Lemma advanceSlot_spec hint s :
  Inv s -> low <= mCurrentMessageLevel s + 1 ->
  safe (advanceSlot rec hint s) (fun s' => Inv s' /\ trans s s').
Proof.
  intros HI HL. unfold advanceSlot.
  set (s0 := set_mCurrentMessageLevel (mCurrentMessageLevel s + 1) s).
  assert (HI0 : Inv s0) by (by apply Inv_level).
  destruct (Z.geb_spec (mCurrentMessageLevel s0) MAX_ADVANCE_SLOT_RECURSION) as [|Hlt]; [done|].
  assert (HL0 : level_ok s0) by (split; [exact HL|done]).
  (* the four attempts and the bump *)
  match goal with |- safe (?m ≫= ?f) _ =>
    assert (Hgood : good s0 ('(w1, s) ← attemptPreparedAccept rec hint s0;
      '(w2, s) ← attemptPreparedConfirmed rec hint s;
      '(w3, s) ← attemptAcceptCommit rec hint s;
      '(w4, s) ← attemptConfirmCommit rec hint s;
      let didWork := ((w1 : bool) || (w2 : bool) || (w3 : bool) || (w4 : bool))%bool in
      (if mCurrentMessageLevel s =? 1 then
         '(didWork, s) ← bumpLoop rec bump_fuel didWork s;
         s ← checkHeardFromQuorum s;
         Ok (didWork, s)
       else Ok (didWork, s)))) end.
  { apply good_then; [done|by apply attemptPreparedAccept_spec|]. intros w1 s1 HI1 HL1 _.
    apply good_then; [done|by apply attemptPreparedConfirmed_spec|]. intros w2 s2 HI2 HL2 _.
    apply good_then; [done|by apply attemptAcceptCommit_spec|]. intros w3 s3 HI3 HL3 _.
    apply good_then; [done|by apply attemptConfirmCommit_spec|]. intros w4 s4 HI4 HL4 _. cbn zeta.
    destruct (mCurrentMessageLevel s4 =? 1); [|split; [done|apply trans_refl]].
    apply good_then; [done| |].
    - apply bumpLoop_spec; [done|done|]. right. unfold bump_fuel. destruct (mPhase s4); cbn; lia.
    - intros w5 s5 HI5 HL5 _. unfold good. apply safe_bind.
      eapply safe_mono, checkHeardFromQuorum_spec; [|done]. by intros s6 [??]. }
  assert (Hfin : forall (w : bool) s', Inv s' /\ trans s0 s' ->
    safe (let s'' := set_mCurrentMessageLevel (mCurrentMessageLevel s' - 1) s' in
          Ok (if w then sendLatestEnvelope s'' else s'')) (fun s' => Inv s' /\ trans s s')).
  { intros w s' [HI' HT']. cbn.
    replace (mCurrentMessageLevel s' - 1) with (mCurrentMessageLevel s)
      by (rewrite (tr_level _ _ HT'); cbn; lia).
    assert (HI'' : Inv (set_mCurrentMessageLevel (mCurrentMessageLevel s) s')) by (by apply Inv_level).
    pose proof (trans_level _ _ _ HT') as HT''. destruct w; [|done].
    destruct (sendLatestEnvelope_ok _ HI'') as [??]. split; [done|by eapply trans_trans]. }
  revert Hgood. unfold good.
  destruct (attemptPreparedAccept rec hint s0) as [[w1 s1]|e]; [|done]. rewrite !bind_ok.
  destruct (attemptPreparedConfirmed rec hint s1) as [[w2 s2]|e]; [|done]. rewrite !bind_ok.
  destruct (attemptAcceptCommit rec hint s2) as [[w3 s3]|e]; [|done]. rewrite !bind_ok.
  destruct (attemptConfirmCommit rec hint s3) as [[w4 s4]|e]; [|done]. rewrite !bind_ok. cbn zeta.
  destruct (if mCurrentMessageLevel s4 =? 1 then _ else _) as [[w5 s5]|e]; [|done].
  rewrite bind_ok. apply Hfin.
Qed.

(** ** Processing *)

(** the state in which an accepted envelope is worked on *)
Definition recorded (e : SCPEnvelope) (s s0 : BState) : Prop :=
  exists fv, s0 = recordEnvelope e (set_mFullyValidated fv s).

Lemma Inv_recorded e s s0 : recorded e s s0 -> Inv s -> Inv s0.
Proof. intros [fv ->] [H1 H2 H3]. split; [done|by apply map_insert_sorted|done]. Qed.

Lemma processBallotEnvelope_spec e self s :
  Inv s -> low <= mCurrentMessageLevel s + 1 ->
  safe (processBallotEnvelope rec e self s) (fun '(r, s') =>
    (r = INVALID /\ s' = s) \/
    (r = VALID /\ Inv s' /\ exists s0, recorded e s s0 /\ trans s0 s')).
Proof.
  intros HI HL. unfold processBallotEnvelope. apply safe_bind, safe_dbgAssert; [done|].
  destruct (negb (isStatementSane _ _)); [by left|]. destruct (negb (isNewerThanLatest _ _ _)); [by left|].
  destruct (in_prepare_or_confirm s).
  - assert (Hadv : forall fv, safe (s' ← advanceSlot rec (statement e) (recordEnvelope e (set_mFullyValidated fv s));
        Ok (VALID, s')) (fun '(r, s') => (r = INVALID /\ s' = s) \/
        (r = VALID /\ Inv s' /\ exists s0, recorded e s s0 /\ trans s0 s'))).
    { intros fv. assert (Hrec : recorded e s (recordEnvelope e (set_mFullyValidated fv s))) by (by eexists).
      apply safe_bind. eapply safe_mono, advanceSlot_spec; [|by eapply Inv_recorded|done].
      intros s' [HI' HT']. right. split; [done|]. split; [done|]. by eexists. }
    specialize (Hadv (mFullyValidated s)) as H1. specialize (Hadv false).
    replace (set_mFullyValidated (mFullyValidated s) s) with s in H1 by (by destruct s).
    by destruct (validateValues (statement e)); [left|..].
  - assert (Hrec : recorded e s (recordEnvelope e s)).
    { exists (mFullyValidated s). by destruct s. }
    assert (Hk : safe (c ← deref (mCommit s);
        if bool_decide (value c = value (getWorkingBallot (statement e)))
        then Ok (VALID, recordEnvelope e s) else Ok (INVALID, s)) (fun '(r, s') => (r = INVALID /\ s' = s) \/
        (r = VALID /\ Inv s' /\ exists s0, recorded e s s0 /\ trans s0 s'))).
    { apply safe_bind, safe_deref. intros c _. case_bool_decide; [right|by left].
      split; [done|]. split; [by eapply Inv_recorded|]. eexists. split; [done|apply trans_refl]. }
    by destruct (validateValues (statement e)); [left|..].
Qed.

Lemma trans_recorded e s s0 : own_envelope e s -> recorded e s s0 -> trans s s0.
Proof.
  intros [Hn Hc] [fv ->]. split; try done.
  - intros n Hne. cbn. rewrite map_find_insert, Hn. by rewrite (proj2 (Z.eqb_neq _ _) Hne).
  - exists []. cbn. rewrite app_nil_r. by auto.
  - intros _. by apply ballot_grows_eq.
  - intros _ Hne [b Hb]. right. exists e, b. cbn. rewrite map_find_insert, Hn, Z.eqb_refl.
    split; [done|]. split; [done|by apply Hc].
Qed.
End Rec.

Section Knot.
Context `{Ctx : SCPContext}.
Hypothesis local_ok : qset_ok getQuorumSet.

Lemma processEnvelope_own fuel : forall e s,
  Inv s -> level_ok (MAX_ADVANCE_SLOT_RECURSION - Z.of_nat fuel) s -> own_envelope e s ->
  good s (processEnvelope fuel e true s).
Proof.
  induction fuel as [|fuel IH]; intros e s HI HL Ho.
  { unfold level_ok in HL. lia. }
  cbn [processEnvelope]. unfold good. apply safe_bind, safe_dbgAssert; [done|].
  eapply safe_mono, processBallotEnvelope_spec;
    [|done|exact IH|done|unfold level_ok in HL; lia].
  intros [r s'] [[-> ->]|(-> & HI' & s0 & Hrec & HT)]; [split; [done|apply trans_refl]|].
  split; [done|]. eapply trans_trans; [by eapply trans_recorded|done].
Qed.

Lemma slot_rec_ok : forall e s, Inv s -> level_ok 0 s -> own_envelope e s ->
  good s (processEnvelope slot_fuel e true s).
Proof. intros e s HI HL. apply processEnvelope_own; [done|]. unfold level_ok, slot_fuel, MAX_ADVANCE_SLOT_RECURSION in *. lia. Qed.

Lemma processEnvelope_S fuel e self s :
  processEnvelope (S fuel) e self s =
  (_ ← dbgAssert (Ok (slotIndex (statement e) =? getSlotIndex));
   processBallotEnvelope (processEnvelope fuel) e self s).
Proof. reflexivity. Qed.

(** an envelope from the network *)
Lemma receiveEnvelope_spec e s :
  Inv s -> level_ok 0 s ->
  safe (receiveEnvelope e s) (fun '(r, s') =>
    (r = INVALID /\ s' = s) \/
    (r = VALID /\ Inv s' /\ exists s0, recorded e s s0 /\ trans s0 s')).
Proof.
  intros HI HL. unfold receiveEnvelope, slot_fuel. rewrite processEnvelope_S.
  apply safe_bind, safe_dbgAssert; [done|].
  eapply processBallotEnvelope_spec; [done| |done|unfold level_ok in HL; instantiate (1 := 0); lia].
  intros e' s' HI' HL' Ho. apply processEnvelope_own; [done| |done].
  unfold level_ok, MAX_ADVANCE_SLOT_RECURSION in *. lia.
Qed.
End Knot.

(** ** Executions of the slot *)

(** what can happen to the slot: an envelope arrives, nomination asks for a
    ballot, the timer expires, nomination has a new candidate value *)
Inductive Input :=
| InReceive (e : SCPEnvelope)
| InBump (v : Value) (force : bool)
| InTimer
| InNominated (v : Value).

Definition exec `{SCPContext} (i : Input) (s : BState) : res BState :=
  match i with
  | InReceive e => '(_, s) ← receiveEnvelope e s; Ok s
  | InBump v force => '(_, s) ← slot_bumpState v force s; Ok s
  | InTimer => '(_, s) ← ballotProtocolTimerExpired s; Ok s
  | InNominated v => Ok (set_mLatestCompositeCandidate v s)
  end.

(** one input; the answers of the driver may be different each time *)
Definition next (s s' : BState) : Prop :=
  exists (C : SCPContext) i, qset_ok getQuorumSet /\ exec i s = Ok s'.

(** a new slot, or one restored from a saved statement of the node *)
Definition initial (s : BState) : Prop :=
  exists v, s = newBallotProtocol v \/
    exists (C : SCPContext) e, slot_setStateFromEnvelope e (newBallotProtocol v) = Ok s.

Definition reachable (s : BState) : Prop := exists s0, initial s0 /\ rtc next s0 s.

(** what is kept from one input to the next *)
Definition later (s s' : BState) : Prop :=
  phase_rank (mPhase s) <= phase_rank (mPhase s') /\
  (forall v, mPhase s <> SCP_PHASE_PREPARE -> committed s v -> committed s' v) /\
  (mPhase s = SCP_PHASE_EXTERNALIZE ->
    mCurrentBallot s' = mCurrentBallot s /\ mPrepared s' = mPrepared s /\
    mPreparedPrime s' = mPreparedPrime s /\ mHighBallot s' = mHighBallot s /\
    mCommit s' = mCommit s /\ externalized (mCalls s') = externalized (mCalls s)).

(** a value is externalized at most once, when the slot gets to its last phase *)
Definition external_ok (s : BState) : Prop :=
  externalized (mCalls s) = [] \/
  exists v, externalized (mCalls s) = [v] /\ mPhase s = SCP_PHASE_EXTERNALIZE /\ committed s v.

Definition slot_ok (s : BState) : Prop :=
  Inv s /\ mCurrentMessageLevel s = 0 /\ external_ok s.

Section Execution.
Context `{Ctx : SCPContext}.
Hypothesis local_ok : qset_ok getQuorumSet.

Lemma trans_later s s' : trans s s' -> later s s'.
Proof.
  intros HT. split; [apply HT|]. split; [apply HT|]. intros E.
  destruct (tr_frozen _ _ HT E) as (H1 & H2 & H3 & H4 & H5). do 5 (split; [done|]).
  destruct (tr_calls _ _ HT) as (l & -> & [Hx|[Hn _]]); [|done]. by rewrite externalized_app, Hx, app_nil_r.
Qed.

Lemma trans_external s s' : trans s s' -> external_ok s -> external_ok s'.
Proof.
  intros HT Hx. destruct (tr_calls _ _ HT) as (l & El & Hl). unfold external_ok. rewrite El, externalized_app.
  destruct Hx as [Hx|(v & Hx & Hp & Hv)]; rewrite Hx.
  - destruct Hl as [->|(_ & Hp & v & -> & Hv)]; [by left|right]. by exists v.
  - destruct Hl as [->|[Hn _]]; [|done]. right. exists v. split; [done|].
    split; [by eapply trans_stays_ext|]. apply (tr_commit _ _ HT); [by rewrite Hp|done].
Qed.

Lemma trans_slot_ok s s' : trans s s' -> Inv s' -> slot_ok s -> slot_ok s'.
Proof.
  intros HT HI (_ & Hl & Hx). split; [done|]. split; [|by eapply trans_external].
  by rewrite (tr_level _ _ HT).
Qed.

Lemma level_0_ok s : mCurrentMessageLevel s = 0 -> level_ok 0 s.
Proof. intros E. unfold level_ok, MAX_ADVANCE_SLOT_RECURSION. lia. Qed.

Lemma slot_bumpState_spec v force s : Inv s -> level_ok 0 s -> good s (slot_bumpState v force s).
Proof.
  intros HI HL. unfold slot_bumpState, bumpState. case_match; [split; [done|apply trans_refl]|].
  eapply safe_mono, bumpState_n_spec; [|apply slot_rec_ok, local_ok|done..]. by intros [u s'] (?&?&_).
Qed.

Lemma timer_spec s : Inv s -> level_ok 0 s -> good s (ballotProtocolTimerExpired s).
Proof.
  intros HI HL. eapply safe_mono, abandonBallot_spec; [|apply slot_rec_ok, local_ok|done..].
  by intros [u s'] (?&?&_).
Qed.

Lemma exec_ok i s :
  slot_ok s -> safe (exec i s) (fun s' => slot_ok s' /\ later s s').
Proof.
  intros Hs. pose proof Hs as (HI & Hl & Hx). pose proof (level_0_ok s Hl) as HL.
  assert (Hgood : forall (r : res (bool * BState)), good s r ->
    safe ('(_, s) ← r; Ok s) (fun s' => slot_ok s' /\ later s s')).
  { intros r Hr. apply safe_bind. eapply safe_mono, Hr. intros [u s'] [HI' HT].
    split; [by eapply trans_slot_ok|by apply trans_later]. }
  destruct i as [e|v force| |v]; cbn [exec].
  - apply safe_bind. eapply safe_mono, receiveEnvelope_spec; [|done..].
    intros [r s'] [[-> ->]|(-> & HI' & s0 & [fv ->] & HT)].
    + split; [done|]. apply trans_later, trans_refl.
    + split; [eapply trans_slot_ok; [exact HT|done|]|].
      * split; [by eapply Inv_recorded; [by eexists|]|done].
      * by apply trans_later in HT.
  - by apply Hgood, slot_bumpState_spec.
  - by apply Hgood, timer_spec.
  - split; [|by apply trans_later, (trans_quiet s _ []); cbn; rewrite ?app_nil_r].
    split; [|done]. destruct HI as [H1 H2 H3]. by split.
Qed.
End Execution.

Lemma later_refl s : later s s.
Proof. unfold later. by auto with lia. Qed.

Lemma later_trans s1 s2 s3 : later s1 s2 -> later s2 s3 -> later s1 s3.
Proof.
  intros (P1 & C1 & F1) (P2 & C2 & F2). split; [lia|]. split.
  - intros v Hn Hv. apply C2; [|by apply C1]. intros E. rewrite E in P1. by destruct (mPhase s1); cbn in P1; try lia.
  - intros E. destruct (F1 E) as (?&?&?&?&?&?).
    assert (E2 : mPhase s2 = SCP_PHASE_EXTERNALIZE) by (rewrite E in P1; by destruct (mPhase s2); cbn in P1; try lia).
    destruct (F2 E2) as (?&?&?&?&?&?). repeat split; congruence.
Qed.

Lemma next_ok s s' : next s s' -> slot_ok s -> slot_ok s' /\ later s s'.
Proof.
  intros (C & i & Hq & E) Hs. by apply (safe_ok _ _ _ (exec_ok Hq i s Hs) E).
Qed.

Lemma steps_ok s s' : rtc next s s' -> slot_ok s -> slot_ok s' /\ later s s'.
Proof.
  induction 1 as [|s1 s2 s3 H1 _ IH]; intros Hs; [split; [done|apply later_refl]|].
  destruct (next_ok _ _ H1 Hs) as [Hs2 Hl]. destruct (IH Hs2) as [Hs3 Hl3].
  split; [done|by eapply later_trans].
Qed.

Lemma dbgAssert_true `{SCPContext} : dbgAssert (Ok true) = Ok tt.
Proof. unfold dbgAssert. by destruct dbg. Qed.

Lemma bumpToBallot_first `{SCPContext} ballot s :
  mPhase s = SCP_PHASE_PREPARE -> mCurrentBallot s = None -> mHighBallot s = None ->
  bumpToBallot ballot true s =
  Ok (set_mHeardFromQuorum false (set_mCurrentBallot (Some ballot) (call (startedBallotProtocol ballot) s))).
Proof.
  intros Hp Hb Hh. unfold bumpToBallot, in_prepare_or_confirm. rewrite Hp, Hb, dbgAssert_true. cbn.
  by rewrite Hh.
Qed.

(** the state restored from an envelope, before the ballots are set *)
Definition restored_base (e : SCPEnvelope) (v : bool) (b : SCPBallot) : BState :=
  let s := allocLastEnvelope e (recordEnvelope e (newBallotProtocol v)) in
  set_mHeardFromQuorum false (set_mCurrentBallot (Some b) (call (startedBallotProtocol b)
    (set_mLastEnvelopeEmit (mLastEnvelope s) s))).

Lemma restored_base_ok e v b s :
  book (restored_base e v b) s -> mPhase s = SCP_PHASE_PREPARE \/ (exists w, committed s w) -> slot_ok s.
Proof.
  intros Hb Hc. assert (Hemit : emit_ok (restored_base e v b)).
  { split; [constructor|]. cbn. split; [intros ? []%elem_of_nil|]. split; [lia|by left]. }
  split; [|split].
  - split; [intros Hp; by destruct Hc|..].
    + destruct Hb as (->&_). cbn. by repeat constructor.
    + by eapply emit_ok_book.
  - by destruct Hb as (_&->&_).
  - left. destruct Hb as (_&_&_&_&_&l&->&Hx&_). by rewrite externalized_app, Hx.
Qed.

Lemma initial_ok s : initial s -> slot_ok s.
Proof.
  assert (Hnew : forall v, slot_ok (newBallotProtocol v)).
  { intros v. split; [|by split; [|left]]. split; [done|constructor|]. by split; [constructor|]. }
  intros (v & [->|(C & e & He)]); [done|]. unfold slot_setStateFromEnvelope in He.
  case_match; [|by simplify_eq]. clear H. unfold setStateFromEnvelope in He. cbn [is_set newBallotProtocol mCurrentBallot] in He.
  destruct (pledges (statement e)) as [p|c|x]; rewrite bumpToBallot_first in He by done; rewrite bind_ok in He.
  - change (set_mHeardFromQuorum false _) with (restored_base e v (prep_ballot p)) in He.
    injection He as <-. apply (restored_base_ok e v (prep_ballot p)); [|by left].
    apply (book_set (set_mPhase SCP_PHASE_PREPARE)); [intros x; exact (book_refl x)|].
    do 4 (apply book_if; [intros x; exact (book_refl x)|]). apply book_refl.
  - change (set_mHeardFromQuorum false _) with (restored_base e v (conf_ballot c)) in He.
    injection He as <-. apply (restored_base_ok e v (conf_ballot c)).
    + do 4 (apply book_set; [intros x; exact (book_refl x)|]). apply book_refl.
    + right. exists (value (conf_ballot c)). split; [by eexists|]. by eexists _, _.
  - change (set_mHeardFromQuorum false _) with
      (restored_base e v (mkBallot UINT32_MAX (value (ext_commit x)))) in He.
    injection He as <-. eapply restored_base_ok.
    + do 4 (apply book_set; [intros y; exact (book_refl y)|]). apply book_refl.
    + right. exists (value (ext_commit x)). split; [by eexists|]. by eexists _, _.
Qed.

Lemma reachable_ok s : reachable s -> slot_ok s.
Proof. intros (s0 & H0 & Hs). by apply (steps_ok _ _ Hs), initial_ok. Qed.

(** Claim C3: whatever the other nodes send, the slot of a node externalizes at
    most one value, and once it accepted to commit a value it stays with it: in
    every reachable state, if a value was externalized it was externalized once,
    the slot is in its last phase and [c] and [h] are for that value; and for
    every state reached later, the phase has not gone back, a value accepted for
    commit is still the value of [c] and [h], and after externalizing the
    ballots do not change any more and nothing else is externalized. *)
Theorem slot_externalizes_once s :
  reachable s -> external_ok s /\ (forall s', rtc next s s' -> external_ok s' /\ later s s').
Proof.
  intros Hs. apply reachable_ok in Hs. split; [apply Hs|].
  intros s' H. destruct (steps_ok _ _ H Hs) as [Hs' Hl]. split; [apply Hs'|done].
Qed.

(** The envelopes a slot emits are each strictly newer than all those
    it emitted before, so that no node that received them takes a later one for
    stale. *)
Theorem emitted_envelopes_increase s :
  reachable s -> StronglySorted newer (emitted (mCalls s)).
Proof. intros Hs. apply (reachable_ok s Hs). Qed.

(** the quorum behind a decision *)
Lemma ratified_quorum `{SCPContext} c h envs :
  ratified_commit c h envs ->
  exists Q, isQuorumSlice getQuorumSet Q = true /\
    self_sufficient (statements envs) getQuorumSetFromStatement Q /\
    forall n, n ∈ Q -> exists e, map_find envs n = Some e /\
      commitPredicate c (counter c, counter h) (statement e) = true.
Proof.
  intros [Hs Hr]. unfold federatedRatify, isQuorum_envs, isQuorum in Hr.
  destruct (quorum_loop _ _ _ _) as [R|] eqn:E; [|done]. cbn in Hr.
  apply quorum_loop_sound in E as [HR Hsuf]. exists R. split; [done|]. split; [done|].
  intros n Hn. by apply elem_of_filtered, HR.
Qed.

Lemma exec_externalizes `{SCPContext} i s s' :
  qset_ok getQuorumSet -> slot_ok s -> exec i s = Ok s' ->
  mPhase s <> SCP_PHASE_EXTERNALIZE -> mPhase s' = SCP_PHASE_EXTERNALIZE ->
  exists c h envs, mCommit s' = Some c /\ mHighBallot s' = Some h /\ ratified_commit c h envs /\
    forall n, n <> getLocalNodeID -> map_find envs n = map_find (mLatestEnvelopes s') n.
Proof.
  intros Hq (HI & Hl & _) He Hne Hp. pose proof (level_0_ok s Hl) as HL.
  assert (Hgood : forall r : res (bool * BState), good s r -> ('(_, s) ← r; Ok s) = Ok s' -> trans s s').
  { intros r Hr Hr'. apply bind_ok_inv in Hr' as ([u s1] & Er & [= <-]). by apply (safe_ok _ _ _ Hr Er). }
  destruct i as [e|v force| |v]; cbn [exec] in He.
  - apply bind_ok_inv in He as ([r s1] & Er & [= <-]).
    destruct (safe_ok _ _ _ (receiveEnvelope_spec Hq e s HI HL) Er) as [[_ ->]|(_ & _ & s0 & [fv ->] & HT)]; [done|].
    by apply (tr_justified _ _ HT).
  - by apply (tr_justified s s' (Hgood _ (slot_bumpState_spec Hq v force s HI HL) He)).
  - by apply (tr_justified s s' (Hgood _ (timer_spec Hq s HI HL) He)).
  - by injection He as <-.
Qed.

(** Claim C6: a slot externalizes only what a quorum accepted to commit.  When
    an input takes a reachable slot to its last phase, there is a set of nodes
    that contains a slice of the local quorum set and, by the statements it was
    judged by, a slice of each of its members, such that the latest statement
    of every member other than the node itself accepts to commit the
    externalized value for all counters from [c] to [h]. *)
Theorem externalize_needs_quorum `{SCPContext} i s s' :
  qset_ok getQuorumSet -> reachable s -> exec i s = Ok s' ->
  mPhase s <> SCP_PHASE_EXTERNALIZE -> mPhase s' = SCP_PHASE_EXTERNALIZE ->
  exists c h envs Q, mCommit s' = Some c /\ mHighBallot s' = Some h /\
    isQuorumSlice getQuorumSet Q = true /\
    self_sufficient (statements envs) getQuorumSetFromStatement Q /\
    forall n, n ∈ Q -> n <> getLocalNodeID ->
      exists e, map_find (mLatestEnvelopes s') n = Some e /\ map_find envs n = Some e /\
        commitPredicate c (counter c, counter h) (statement e) = true.
Proof.
  intros Hq Hs He Hne Hp.
  destruct (exec_externalizes i s s' Hq (reachable_ok s Hs) He Hne Hp) as (c & h & envs & Hc & Hh & Hr & Hm).
  destruct (ratified_quorum c h envs Hr) as (Q & HQ & Hsuf & Hall).
  exists c, h, envs, Q. do 4 (split; [done|]). intros n Hn Hne'.
  destruct (Hall n Hn) as (e & Hf & Hcp). exists e. by rewrite <- Hm.
Qed.

(** Claim C33: processing always ends.  On a reachable slot, receiving an
    envelope, bumping the ballot and the expiry of the timer either return or
    raise an exception of the program; neither the recursion through the node's
    own statements nor the loop that catches up with other nodes goes on for
    ever. *)
Theorem processing_terminates `{SCPContext} s :
  qset_ok getQuorumSet -> reachable s ->
  (forall e, receiveEnvelope e s <> Throw OutOfFuel) /\
  (forall v force, slot_bumpState v force s <> Throw OutOfFuel) /\
  ballotProtocolTimerExpired s <> Throw OutOfFuel.
Proof.
  intros Hq Hs. destruct (reachable_ok s Hs) as (HI & Hl & _). pose proof (level_0_ok s Hl) as HL.
  assert (Hsafe : forall A (r : res A) Q, safe r Q -> r <> Throw OutOfFuel) by (intros A [] Q HQ; cbn in HQ; congruence).
  split; [intros e; by eapply Hsafe, receiveEnvelope_spec|].
  split; [intros v force; by eapply Hsafe, slot_bumpState_spec|by eapply Hsafe, timer_spec].
Qed.
