(* ===== verification/BallotRuns.v ===== *)
(** * Running the ballot protocol

    What an envelope changes, what is saved of the state and restored from it, a
    network of four nodes that the theorems are applied to, and the executions
    that show where the code fails. *)
From Stdlib Require Import Sorted.
From S2P Require Import Prelude Numeric QuorumSet LocalNode Ballots BallotProtocol BallotSafety.

(** ** What an envelope changes *)

Section Effect.
Context `{Ctx : SCPContext}.

Lemma dbgAssert_bind {B} x (f : unit -> res B) b :
  (dbgAssert x ≫= f) = Ok b -> dbgAssert x = Ok tt /\ f tt = Ok b.
Proof. intros H. apply bind_ok_inv in H as ([] & H1 & H2). done. Qed.

Lemma receive_stale e s :
  dbgAssert (Ok (slotIndex (statement e) =? getSlotIndex)) = Ok tt ->
  isNewerThanLatest (nodeID (statement e)) (statement e) s = false ->
  receiveEnvelope e s = Ok (INVALID, s).
Proof.
  intros Ha Hn. unfold receiveEnvelope, slot_fuel. rewrite processEnvelope_S, Ha, bind_ok.
  unfold processBallotEnvelope. rewrite Ha, bind_ok, Hn. by case_match.
Qed.

Lemma receive_slot e s r s' :
  receiveEnvelope e s = Ok (r, s') ->
  dbgAssert (Ok (slotIndex (statement e) =? getSlotIndex)) = Ok tt.
Proof.
  unfold receiveEnvelope, slot_fuel. rewrite processEnvelope_S. intros H. by apply dbgAssert_bind in H as [? _].
Qed.
End Effect.

(** An envelope that is refused changes nothing, and one that is not
    newer than the latest of its node is refused; an envelope of another node
    that is accepted becomes the latest of that node, leaves the latest
    envelopes of all other nodes as they are, and is refused when it arrives
    again. *)
Theorem receiveEnvelope_effect `{SCPContext} e s r s' :
  qset_ok getQuorumSet -> reachable s -> receiveEnvelope e s = Ok (r, s') ->
  (isNewerThanLatest (nodeID (statement e)) (statement e) s = false -> r = INVALID) /\
  match r with
  | INVALID => s' = s
  | VALID =>
      (nodeID (statement e) <> getLocalNodeID ->
         map_find (mLatestEnvelopes s') (nodeID (statement e)) = Some e /\
         receiveEnvelope e s' = Ok (INVALID, s')) /\
      (forall n, n <> nodeID (statement e) -> n <> getLocalNodeID ->
         map_find (mLatestEnvelopes s') n = map_find (mLatestEnvelopes s) n)
  end.
Proof.
  intros Hq Hs He. pose proof (receive_slot e s r s' He) as Ha. split.
  { intros Hn. rewrite (receive_stale e s Ha Hn) in He. congruence. }
  destruct (reachable_ok s Hs) as (HI & Hl & _).
  destruct (safe_ok _ _ _ (receiveEnvelope_spec Hq e s HI (level_0_ok s Hl)) He)
    as [[-> ->]|(-> & _ & s0 & [fv ->] & HT)]; [done|].
  pose proof (tr_others _ _ HT) as Ho. cbn in Ho. split.
  - intros Hn. specialize (Ho _ Hn). rewrite map_find_insert, Z.eqb_refl in Ho. split; [done|].
    apply receive_stale; [done|]. unfold isNewerThanLatest. rewrite Ho. apply isNewerStatement_irrefl.
  - intros n Hn Hn'. rewrite (Ho n Hn'), map_find_insert. by rewrite (proj2 (Z.eqb_neq _ _) Hn).
Qed.

(** ** Saving and restoring *)

(** counters are 32-bit unsigned integers *)
Definition counters_u32 (s : BState) : Prop :=
  forall b, Some b ∈ [mCurrentBallot s; mPrepared s; mPreparedPrime s; mHighBallot s; mCommit s] ->
    is_u32 (counter b).

Section Restore.
Context `{Ctx : SCPContext}.

(** the conditions of [checkInvariants] *)
Definition invariants_hold (s : BState) : bool :=
  opt_test (fun b => negb (counter b =? 0)) (mCurrentBallot s) &&
  match mPrepared s, mPreparedPrime s with
  | Some p, Some p' => areBallotsLessAndIncompatible p' p
  | _, _ => true
  end &&
  match mHighBallot s with
  | Some h => opt_test (areBallotsLessAndCompatible h) (mCurrentBallot s)
  | None => true
  end &&
  match mCommit s with
  | Some c => opt_test (areBallotsLessAndCompatible c) (mHighBallot s)
  | None => true
  end &&
  match mPhase s with
  | SCP_PHASE_PREPARE => true
  | _ => is_set (mCommit s) && is_set (mHighBallot s)
  end.

Lemma checkInvariants_ok s b :
  mCurrentBallot s = Some b -> (dbg = true -> invariants_hold s = true) -> checkInvariants s = Ok tt.
Proof.
  intros Hb Hi. unfold checkInvariants, dbgAssert. destruct dbg; [|by repeat case_match].
  specialize (Hi eq_refl). unfold invariants_hold in Hi. rewrite Hb in Hi |- *. cbn [opt_test] in Hi. rewrite !andb_true_iff in Hi.
  destruct Hi as [[[[H1 H2] H3] H4] H5]. rewrite H1. clear H1. cbn.
  destruct (mPrepared s), (mPreparedPrime s), (mHighBallot s), (mCommit s), (mPhase s); cbn in *; try done;
    repeat match goal with H : _ = true |- _ => (try rewrite H); clear H end; done.
Qed.

Lemma checkInvariants_holds s b :
  mCurrentBallot s = Some b -> dbg = true -> checkInvariants s = Ok tt -> invariants_hold s = true.
Proof.
  intros Hb Hd. unfold checkInvariants, dbgAssert, invariants_hold. rewrite Hd, Hb. cbn.
  destruct (mPrepared s), (mPreparedPrime s), (mHighBallot s), (mCommit s), (mPhase s); cbn; intros Hc;
    repeat match goal with
      | H : context [assert_ ?x] |- _ => destruct x eqn:?; cbn in H; [|done]
      end; repeat match goal with H : _ = true |- _ => (try rewrite H); clear H end; done.
Qed.

(** what [checkInvariants] says of the counters *)
Lemma invariants_counters s b :
  mCurrentBallot s = Some b -> counters_u32 s -> invariants_hold s = true ->
  counter b <> 0 /\ 0 <= counter_or_0 (mCommit s) <= counter_or_0 (mHighBallot s) /\
  counter_or_0 (mHighBallot s) <= counter b.
Proof.
  intros Hb Hu Hi. unfold invariants_hold in Hi. rewrite Hb in Hi. cbn [opt_test] in Hi.
  rewrite !andb_true_iff in Hi. destruct Hi as [[[[H1 _] H3] H4] _]. zb.
  assert (Hu' : forall x, mCommit s = Some x \/ mHighBallot s = Some x \/ mCurrentBallot s = Some x ->
    0 <= counter x) by (intros x Hx; apply Hu; set_solver).
  destruct (mHighBallot s) as [h|] eqn:Eh, (mCommit s) as [c|] eqn:Ec; cbn in *;
    try rewrite less_compat_iff in H3; try rewrite less_compat_iff in H4; try done.
  - pose proof (Hu' c ltac:(auto)). lia.
  - pose proof (Hu' h ltac:(auto)). lia.
  - pose proof (Hu' b ltac:(auto)). lia.
Qed.

Lemma createStatement_inv s pl b :
  mCurrentBallot s = Some b -> createStatement s = Ok pl -> dbg = true -> invariants_hold s = true.
Proof.
  intros Hb H Hd. unfold createStatement in H. apply bind_ok_inv in H as ([] & H & _).
  by eapply checkInvariants_holds.
Qed.

(** a ballot of a saved counter, absent when the counter is 0 *)
Definition restored (n : Z) (v : Value) : option SCPBallot :=
  if n =? 0 then None else Some (mkBallot n v).

Lemma restored_counter n v : counter_or_0 (restored n v) = n.
Proof. unfold restored. by split_if. Qed.

Lemma restored_invariants s b nC nH :
  mCurrentBallot s = Some b -> counter b <> 0 -> 0 <= nC <= nH -> nH <= counter b ->
  mHighBallot s = restored nH (value b) -> mCommit s = restored nC (value b) ->
  match mPrepared s, mPreparedPrime s with
  | Some p, Some p' => areBallotsLessAndIncompatible p' p
  | _, _ => true
  end = true ->
  (mPhase s <> SCP_PHASE_PREPARE -> nC <> 0) -> invariants_hold s = true.
Proof.
  intros Hb Hb0 HC HH Hh Hc Hp Hph. unfold invariants_hold. rewrite Hp, Hb, Hh, Hc. cbn.
  unfold restored. rewrite (proj2 (Z.eqb_neq _ _) Hb0). cbn.
  assert (Hl : forall n m v, n <= m -> areBallotsLessAndCompatible (mkBallot n v) (mkBallot m v) = true)
    by (intros; by apply less_compat_iff).
  assert (Hlb : nH <= counter b -> areBallotsLessAndCompatible (mkBallot nH (value b)) b = true)
    by (intros; by apply less_compat_iff).
  destruct (Z.eqb_spec nC 0), (Z.eqb_spec nH 0); try lia; cbn; rewrite ?Hlb, ?Hl by lia; cbn;
    destruct (mPhase s); done || (exfalso; by apply Hph).
Qed.

Lemma committed_invariants s b v nC nH :
  mCurrentBallot s = Some b -> counter b <> 0 -> value b = v -> nC <= nH -> nH <= counter b ->
  mHighBallot s = Some (mkBallot nH v) -> mCommit s = Some (mkBallot nC v) ->
  mPreparedPrime s = None -> invariants_hold s = true.
Proof.
  intros Hb Hb0 Hv HC HH Hh Hc Hp. unfold invariants_hold. rewrite Hp, Hb, Hh, Hc. cbn.
  rewrite (proj2 (Z.eqb_neq _ _) Hb0). cbn.
  assert (H1 : areBallotsLessAndCompatible (mkBallot nH v) b = true) by (by apply less_compat_iff).
  assert (H2 : areBallotsLessAndCompatible (mkBallot nC v) (mkBallot nH v) = true) by (by apply less_compat_iff).
  rewrite H1, H2. by destruct (mPrepared s), (mPhase s).
Qed.

Lemma slot_restore pl v :
  slot_setStateFromEnvelope (createEnvelope pl) (newBallotProtocol v) =
  setStateFromEnvelope (createEnvelope pl) (newBallotProtocol v).
Proof. unfold slot_setStateFromEnvelope. cbn. by rewrite !Z.eqb_refl. Qed.

(** the assignments of [setStateFromEnvelope] that depend on what is present *)
Lemma restore_fields t p' q nH nC w :
  mPrepared t = None -> mPreparedPrime t = None -> mHighBallot t = None -> mCommit t = None ->
  (let t := if is_set p' then set_mPrepared p' t else t in
   let t := if is_set q then set_mPreparedPrime q t else t in
   let t := if negb (nH =? 0) then set_mHighBallot (Some (mkBallot nH w)) t else t in
   let t := if negb (nC =? 0) then set_mCommit (Some (mkBallot nC w)) t else t in t) =
  set_mCommit (restored nC w) (set_mHighBallot (restored nH w) (set_mPreparedPrime q (set_mPrepared p' t))).
Proof.
  destruct t; cbn. intros -> -> -> ->. unfold restored.
  by destruct p', q, (nH =? 0), (nC =? 0).
Qed.

(** the state restored from a PREPARE statement *)
Lemma restore_prepare p v :
  setStateFromEnvelope (createEnvelope (SCP_ST_PREPARE p)) (newBallotProtocol v) =
  Ok (set_mPhase SCP_PHASE_PREPARE
       (set_mCommit (restored (prep_nC p) (value (prep_ballot p)))
       (set_mHighBallot (restored (prep_nH p) (value (prep_ballot p)))
       (set_mPreparedPrime (prep_preparedPrime p) (set_mPrepared (prep_prepared p)
       (restored_base (createEnvelope (SCP_ST_PREPARE p)) v (prep_ballot p))))))).
Proof.
  unfold setStateFromEnvelope. cbn [is_set newBallotProtocol mCurrentBallot pledges statement createEnvelope].
  rewrite bumpToBallot_first by done. rewrite bind_ok.
  change (set_mHeardFromQuorum false _) with
    (restored_base (createEnvelope (SCP_ST_PREPARE p)) v (prep_ballot p)). cbn zeta.
  rewrite <- (restore_fields _ (prep_prepared p) (prep_preparedPrime p)); done.
Qed.
End Restore.

(** Claim C37: a node that restarts goes on from its last statement.  The
    statement of any state with a ballot, saved and restored into a new slot,
    gives a slot in the same phase, with the same current ballot until a value is
    externalized, that would make exactly the same statement again, and that
    knows it as its own latest one. *)
Theorem restore_statement_roundtrip `{SCPContext} s b pl v :
  counters_u32 s -> mCurrentBallot s = Some b -> createStatement s = Ok pl ->
  exists s', slot_setStateFromEnvelope (createEnvelope pl) (newBallotProtocol v) = Ok s' /\
    createStatement s' = Ok pl /\ mPhase s' = mPhase s /\
    (mPhase s <> SCP_PHASE_EXTERNALIZE -> mCurrentBallot s' = Some b) /\
    map_find (mLatestEnvelopes s') getLocalNodeID = Some (createEnvelope pl).
Proof.
  intros Hu Hb Hst. pose proof (createStatement_inv s pl b Hb Hst) as Hinv.
  assert (Hcnt : dbg = true -> counter b <> 0 /\
    0 <= counter_or_0 (mCommit s) <= counter_or_0 (mHighBallot s) /\
    counter_or_0 (mHighBallot s) <= counter b) by (intros Hd; by apply invariants_counters; [..|apply Hinv]).
  rewrite slot_restore. unfold createStatement in Hst. apply bind_ok_inv in Hst as ([] & _ & Hst).
  destruct (mPhase s) eqn:Ep.
  - rewrite Hb in Hst. injection Hst as <-. rewrite restore_prepare. eexists. split; [done|].
    split; [|split; [done|]; split; [done|]; cbn; by rewrite Z.eqb_refl].
    unfold createStatement. cbn [prep_ballot prep_nC prep_nH prep_prepared prep_preparedPrime].
    erewrite checkInvariants_ok; [|done|].
    + cbn. by rewrite !restored_counter.
    + intros Hd. destruct (Hcnt Hd) as (?&?&?). eapply restored_invariants; try done.
      specialize (Hinv Hd). unfold invariants_hold in Hinv. rewrite !andb_true_iff in Hinv. apply Hinv.
  - rewrite Hb in Hst. cbn [deref] in Hst. rewrite bind_ok in Hst.
    apply bind_ok_inv in Hst as (p & Hp & Hst). apply bind_ok_inv in Hst as (c & Hc & Hst).
    apply bind_ok_inv in Hst as (h & Hh & [= <-]).
    unfold setStateFromEnvelope. cbn [is_set newBallotProtocol mCurrentBallot pledges statement createEnvelope].
    rewrite bumpToBallot_first by done. rewrite bind_ok. eexists. split; [done|].
    split; [|split; [done|]; split; [done|]; cbn; by rewrite Z.eqb_refl].
    unfold createStatement. erewrite checkInvariants_ok; [done|done|].
    intros Hd. destruct (Hcnt Hd) as (?&Hch&?).
    destruct (mCommit s) as [c'|]; [|done]. destruct (mHighBallot s) as [h'|]; [|done]. cbn in Hc, Hh. simplify_eq.
    eapply (committed_invariants _ b (value b) (counter c) (counter h)); try done; cbn in *; lia.
  - apply bind_ok_inv in Hst as (c & Hc & Hst). apply bind_ok_inv in Hst as (h & Hh & [= <-]).
    unfold setStateFromEnvelope. cbn [is_set newBallotProtocol mCurrentBallot pledges statement createEnvelope].
    rewrite bumpToBallot_first by done. rewrite bind_ok. eexists. split; [done|].
    split; [|split; [done|]; split; [done|]; cbn; by rewrite Z.eqb_refl].
    unfold createStatement. erewrite checkInvariants_ok; [done|done|].
    intros Hd. destruct (Hcnt Hd) as (?&Hch&?).
    destruct (mCommit s) as [c'|] eqn:Ec; [|done]. destruct (mHighBallot s) as [h'|] eqn:Eh; [|done]. cbn in Hc, Hh. simplify_eq.
    assert (is_u32 (counter h)) by (apply Hu; rewrite Eh; set_solver).
    eapply (committed_invariants _ (mkBallot UINT32_MAX (value c)) (value c) (counter c) (counter h));
      try done; cbn in *; [lia|zlia|by destruct c].
Qed.

(** ** A network of four nodes *)

(** node 0, whose slot is run, trusts any three of the nodes 0 to 3 *)
Definition four_nodes : SCPQuorumSet := mkQSet 3 [0; 1; 2; 3] [].

Definition sample_ctx (debug : bool) (q : SCPQuorumSet) (validate : Value -> ValidationLevel) : SCPContext :=
  {| dbg := debug; getLocalNodeID := 0; getSlotIndex := 7; getQuorumSet := q; getQuorumSetHash := 42;
     getQSet h := if h =? 42 then Some q else None;
     validateValue := validate; signEnvelope _ := 0 |}.

Definition always_valid (v : Value) : ValidationLevel := kFullyValidatedValue.

#[local] Instance four_ctx : SCPContext := sample_ctx true four_nodes always_valid.

Lemma four_nodes_ok : qset_ok (getQuorumSet (SCPContext := four_ctx)).
Proof. vm_compute. repeat split; intros [=]. Qed.

Definition envelope (n : NodeID) (pl : Pledges) : SCPEnvelope := mkEnvelope (mkStatement n 7 pl) 0.
Definition prepare (n : NodeID) (b : SCPBallot) (p p' : option SCPBallot) (nC nH : Z) : Input :=
  InReceive (envelope n (SCP_ST_PREPARE (mkPrepare 42 b p p' nC nH))).
Definition confirm (n : NodeID) (b : SCPBallot) (nPrepared nC nH : Z) : Input :=
  InReceive (envelope n (SCP_ST_CONFIRM (mkConfirm b nPrepared nC nH 42))).

Fixpoint run `{SCPContext} (l : list Input) (s : BState) : res BState :=
  match l with
  | [] => Ok s
  | i :: l' => s ← exec i s; run l' s
  end.

Lemma run_reachable `{SCPContext} l s s' :
  qset_ok getQuorumSet -> reachable s -> run l s = Ok s' -> reachable s'.
Proof.
  intros Hq. revert s. induction l as [|i l IH]; intros s Hs; [by intros [= <-]|].
  cbn. intros E. apply bind_ok_inv in E as (s1 & E1 & E). apply (IH s1); [|done].
  destruct Hs as (s0 & H0 & Hs). exists s0. split; [done|].
  eapply rtc_r; [exact Hs|]. by exists _, i.
Qed.

Lemma new_reachable v : reachable (newBallotProtocol v).
Proof. exists (newBallotProtocol v). split; [|done]. exists v. by left. Qed.

Definition get (r : res BState) : BState := match r with Ok s => s | Throw _ => newBallotProtocol true end.

(** the value [[1]] goes through: two other nodes prepare, commit and confirm *)
Definition b1 : SCPBallot := mkBallot 1 [1].
Definition sample_inputs : list Input :=
  [InBump [1] false;
   prepare 1 b1 None None 0 0; prepare 2 b1 None None 0 0;
   prepare 1 b1 (Some b1) None 0 0; prepare 2 b1 (Some b1) None 0 0;
   prepare 1 b1 (Some b1) None 1 1; prepare 2 b1 (Some b1) None 1 1;
   confirm 1 b1 1 1 1].
Definition before_end : BState := Eval vm_compute in get (run sample_inputs (newBallotProtocol true)).
Definition last_input : Input := confirm 2 b1 1 1 1.
Definition at_end : BState := Eval vm_compute in get (exec last_input before_end).

Lemma before_end_reachable : reachable before_end.
Proof.
  apply (run_reachable sample_inputs (newBallotProtocol true)); [apply four_nodes_ok|apply new_reachable|].
  vm_compute. reflexivity.
Qed.

Lemma at_end_reachable : reachable at_end.
Proof.
  apply (run_reachable [last_input] before_end); [apply four_nodes_ok|apply before_end_reachable|].
  vm_compute. reflexivity.
Qed.

Lemma slot_externalizes_once_witness :
  externalized (mCalls at_end) = [[1]] /\ external_ok at_end.
Proof. split; [reflexivity|]. exact (proj1 (slot_externalizes_once at_end at_end_reachable)). Defined.

Lemma emitted_envelopes_increase_witness :
  length (emitted (mCalls at_end)) = 5%nat /\ StronglySorted newer (emitted (mCalls at_end)).
Proof. split; [reflexivity|]. apply (emitted_envelopes_increase at_end at_end_reachable). Defined.

Lemma externalize_needs_quorum_witness :
  exists c h envs Q, mCommit at_end = Some c /\ mHighBallot at_end = Some h /\
    isQuorumSlice four_nodes Q = true /\
    self_sufficient (statements envs) getQuorumSetFromStatement Q /\
    forall n, n ∈ Q -> n <> 0 ->
      exists e, map_find (mLatestEnvelopes at_end) n = Some e /\ map_find envs n = Some e /\
        commitPredicate c (counter c, counter h) (statement e) = true.
Proof.
  apply (externalize_needs_quorum last_input before_end at_end four_nodes_ok before_end_reachable);
    [vm_compute; reflexivity|vm_compute; discriminate|reflexivity].
Defined.

Lemma processing_terminates_witness : ballotProtocolTimerExpired before_end <> Throw OutOfFuel.
Proof. apply (processing_terminates before_end four_nodes_ok before_end_reachable). Defined.

Lemma receiveEnvelope_effect_witness :
  map_find (mLatestEnvelopes at_end) 2 = Some (envelope 2 (SCP_ST_CONFIRM (mkConfirm b1 1 1 1 42))).
Proof.
  apply (receiveEnvelope_effect (envelope 2 (SCP_ST_CONFIRM (mkConfirm b1 1 1 1 42))) before_end VALID at_end
    four_nodes_ok before_end_reachable); [vm_compute; reflexivity|discriminate].
Defined.

Lemma restore_statement_roundtrip_witness :
  exists s', createStatement s' = createStatement before_end /\ mPhase s' = SCP_PHASE_CONFIRM.
Proof.
  destruct (restore_statement_roundtrip before_end (mkBallot 1 [1])
    (SCP_ST_CONFIRM (mkConfirm b1 1 1 1 42)) true) as (s' & _ & H1 & H2 & _).
  - intros b. cbv [before_end mCurrentBallot mPrepared mPreparedPrime mHighBallot mCommit].
    rewrite !elem_of_cons, elem_of_nil. intros Hb. destruct_or? Hb; simplify_eq; vm_compute; split; intros [=].
  - reflexivity.
  - vm_compute. reflexivity.
  - exists s'. rewrite H1. split; [vm_compute; reflexivity|exact H2].
Defined.

(** ** Where the code fails

    Three executions that end in an exception or accept what they should refuse.
    They are not excluded by the theorems above, which hold for the states the
    slot does reach. *)

(** a simple majority of five nodes, which passes the sanity check *)
Definition five_nodes : SCPQuorumSet := mkQSet 3 [0; 1; 2; 3; 4] [].

(** The node has voted to commit ballot (1, x); then a quorum reports that it
    accepted (5, y) as prepared and votes for (9, x).  The node accepts (9, x)
    first, confirms (5, y) and moves to it: [bumpToBallot] resets [h] and leaves
    [c], and the statement made next uses the empty [h]. *)
Definition moved_away_inputs : list Input :=
  let told n := prepare n (mkBallot 9 [1]) (Some (mkBallot 5 [2])) (Some b1) 0 0 in
  [InBump [1] false; prepare 1 b1 (Some b1) None 0 0; prepare 2 b1 (Some b1) None 0 0;
   told 1; told 2; told 3].

Example commit_outlives_high_ballot :
  isQuorumSetSane five_nodes true = true /\
  @run (sample_ctx true five_nodes always_valid) moved_away_inputs (newBallotProtocol true)
    = Throw NullPointer /\
  @run (sample_ctx false five_nodes always_valid) moved_away_inputs (newBallotProtocol true)
    = Throw (RuntimeError "moved to a bad state (ballot protocol)").
Proof. vm_compute. repeat split; reflexivity. Qed.

(** Two EXTERNALIZE statements make the node accept the commit up to the highest
    counter, and it moves to that counter; when the timer expires the counter
    wraps around to 0. *)
Definition four_of_five : SCPQuorumSet := mkQSet 4 [0; 1; 2; 3; 4] [].
Definition wrap_inputs : list Input :=
  let told n := InReceive (envelope n (SCP_ST_EXTERNALIZE (mkExternalize b1 1 42))) in
  [InBump [1] false; told 1; told 2].

Example bumpState_wraps :
  match @run (sample_ctx true four_of_five always_valid) wrap_inputs (newBallotProtocol true) with
  | Ok s => mCurrentBallot s = Some (mkBallot UINT32_MAX [1]) /\ mPhase s = SCP_PHASE_CONFIRM /\
      @exec (sample_ctx true four_of_five always_valid) InTimer s = Throw AssertFailed
  | Throw _ => False
  end.
Proof. vm_compute. repeat split; reflexivity. Qed.

(** of the values of one statement the last one that is not fully validated
    decides, also when an earlier one is invalid *)
Example validateValues_last_wins :
  let validate v := if bool_decide (v = [1]) then kInvalidValue
                    else if bool_decide (v = [2]) then kMaybeValidValue else kFullyValidatedValue in
  let st b p := mkStatement 1 7 (SCP_ST_PREPARE (mkPrepare 42 b (Some p) None 0 0)) in
  @validateValues (sample_ctx true four_nodes validate) (st (mkBallot 1 [1]) (mkBallot 1 [3])) = kInvalidValue /\
  @validateValues (sample_ctx true four_nodes validate) (st (mkBallot 1 [1]) (mkBallot 1 [2])) = kMaybeValidValue.
Proof. vm_compute. repeat split; reflexivity. Qed.
