(* ===== verification/LedgerState.v ===== *)
(** * The ledger as the operations see it

    Operations and transactions read and write the ledger through an
    [AbstractLedgerTxn] (ledger/LedgerTxn.h).  LedgerTxn.v proves that a chain
    of ledger transactions behaves like a finite map of entries with a header,
    that a nested transaction is kept or discarded as a whole, and OfferBook.v
    that the best offer is the first one of the book.  This file is that
    behaviour as an interface: a state monad over the entries and the header.
    A handle ([LedgerTxnEntry]) is the key of its entry, so that two handles of
    one entry are aliases, as they are in the code.  [lastModifiedLedgerSeq],
    which only [commit] writes and no operation reads, is left alone, and that
    a key is never loaded while another handle of it is live is not checked.

    The state has one component more: the account that
    [TransactionFrame::mCachedAccount] points to.  Before protocol version 8
    the transactions share that object with the ledger transaction that loaded
    it, until the entry is loaded again. *)
From S2P Require Import Prelude Numeric Exchange LedgerEntries TransactionUtils LedgerTxn OfferBook.

Record LState := mkLState {
  st_header : LedgerHeader;
  st_entries : gmap LedgerKey LedgerEntry;
  (** [mCachedAccount], and whether it is the live object of its key *)
  st_cached : option LedgerEntry;
  st_shared : bool
}.

Definition set_st_header (x : LedgerHeader) (s : LState) : LState :=
  mkLState x (st_entries s) (st_cached s) (st_shared s).
Definition set_st_entries (x : gmap LedgerKey LedgerEntry) (s : LState) : LState :=
  mkLState (st_header s) x (st_cached s) (st_shared s).
Definition set_st_cached (x : option LedgerEntry) (b : bool) (s : LState) : LState :=
  mkLState (st_header s) (st_entries s) x b.

(** ** The monad: a state, and exceptions that lose it *)

Definition ltm (A : Type) : Type := LState -> res (A * LState).

#[export] Instance ltm_ret : MRet ltm := fun A a s => Ok (a, s).
#[export] Instance ltm_bind : MBind ltm := fun A B f m s =>
  match m s with Ok (a, s') => f a s' | Throw e => Throw e end.

Definition lift {A} (r : res A) : ltm A := fun s =>
  match r with Ok a => Ok (a, s) | Throw e => Throw e end.
Definition throw {A} (e : exn) : ltm A := fun _ => Throw e.
Definition throw_msg {A} (msg : string) : ltm A := throw (RuntimeError msg).
Definition assert_m (b : bool) : ltm unit := lift (assert_ b).

Definition gets {A} (f : LState -> A) : ltm A := fun s => Ok (f s, s).

(** ** The interface of a ledger transaction *)

Definition NotActive : exn := RuntimeError "LedgerTxnEntry not active".

(** [loadHeader().current()], read *)
Definition ltx_loadHeader : ltm LedgerHeader := gets st_header.
(** [loadHeader().current()], written *)
Definition ltx_setHeader (f : LedgerHeader -> LedgerHeader) : ltm unit := fun s =>
  Ok (tt, set_st_header (f (st_header s)) s).

(** the cached account is another object once its key is loaded or erased *)
Definition unshare (k : LedgerKey) (s : LState) : LState :=
  match st_cached s with
  | Some e => if bool_decide (LedgerEntryKey e = k) then set_st_cached (Some e) false s else s
  | None => s
  end.

(** a write through a handle; the cached account follows if it is the same object *)
Definition put (k : LedgerKey) (e : LedgerEntry) (s : LState) : LState :=
  let s' := set_st_entries (<[k := e]> (st_entries s)) s in
  match st_cached s with
  | Some c => if st_shared s && bool_decide (LedgerEntryKey c = k)
              then set_st_cached (Some e) true s' else s'
  | None => s'
  end.

(** [load(key)]: the handle, if the entry exists *)
Definition ltx_load (k : LedgerKey) : ltm (option LedgerKey) := fun s =>
  match st_entries s !! k with
  | Some _ => Ok (Some k, unshare k s)
  | None => Ok (None, s)
  end.

(** [loadWithoutRecord(key)] *)
Definition ltx_loadWithoutRecord (k : LedgerKey) : ltm (option LedgerKey) := fun s =>
  Ok (match st_entries s !! k with Some _ => Some k | None => None end, s).

(** [handle.current()], read and written *)
Definition ltx_current (k : LedgerKey) : ltm LedgerEntry := fun s =>
  match st_entries s !! k with Some e => Ok (e, s) | None => Throw NotActive end.
Definition ltx_set_current (k : LedgerKey) (e : LedgerEntry) : ltm unit := fun s =>
  match st_entries s !! k with Some _ => Ok (tt, put k e s) | None => Throw NotActive end.

(** a function that updates an entry in place *)
Definition ltx_update {A} (k : LedgerKey) (f : LedgerEntry -> res (A * LedgerEntry)) : ltm A :=
  e ← ltx_current k;
  '(a, e') ← lift (f e);
  _ ← ltx_set_current k e';
  mret a.

Definition ltx_create (e : LedgerEntry) : ltm LedgerKey := fun s =>
  let k := LedgerEntryKey e in
  match st_entries s !! k with
  | Some _ => Throw (RuntimeError "Key already exists")
  | None => Ok (k, put k e (unshare k s))
  end.

(** [erase(key)], also through a handle *)
Definition ltx_erase (k : LedgerKey) : ltm unit := fun s =>
  match st_entries s !! k with
  | Some _ => Ok (tt, unshare k (set_st_entries (delete k (st_entries s)) s))
  | None => Throw (RuntimeError "Key does not exist")
  end.

Definition ltx_loadBestOffer (buying selling : Asset) : ltm (option LedgerKey) := fun s =>
  match sorted_offers (st_entries s) buying selling with
  | e :: _ => ltx_load (LedgerEntryKey e) s
  | [] => Ok (None, s)
  end.

(** [{ LedgerTxn ltx(ltxOuter); ... }]: the block returns whether it has
    committed; otherwise the destructor rolls back.  Opening a nested
    transaction ends the handles of the outer one. *)
Definition unshared (s : LState) : LState := set_st_cached (st_cached s) false s.
Definition nested {A} (m : ltm (bool * A)) : ltm A := fun s =>
  match m (unshared s) with
  | Ok (committed, a, s') =>
      if committed : bool then Ok (a, unshared s')
      else Ok (a, mkLState (st_header s) (st_entries s) (st_cached s') false)
  | Throw e => Throw e
  end.

(** ** TransactionUtils.cpp: loading *)

Definition loadAccount (accountID : AccountID) : ltm (option LedgerKey) :=
  ltx_load (KeyAccount accountID).
Definition loadAccountWithoutRecord (accountID : AccountID) : ltm (option LedgerKey) :=
  ltx_loadWithoutRecord (KeyAccount accountID).
Definition loadData (accountID : AccountID) (dataName : string) : ltm (option LedgerKey) :=
  ltx_load (KeyData accountID dataName).
Definition loadOffer (sellerID : AccountID) (offerID : Z) : ltm (option LedgerKey) :=
  ltx_load (KeyOffer sellerID offerID).

(** the use of a handle that may be empty *)
Definition active (h : option LedgerKey) : ltm LedgerKey :=
  match h with Some k => mret k | None => throw NotActive end.

(** ** TrustLineWrapper.cpp *)

(** [mImpl]: absent, or one of the two implementations *)
Inductive TrustLineWrapper :=
| TlNull
| TlNonIssuer (mEntry : LedgerKey)
| TlIssuer (mAccountID : AccountID) (mAsset : Asset).

Definition tlw_bool (w : TrustLineWrapper) : bool :=
  match w with TlNull => false | _ => true end.

(** the constructor shared by the two wrappers, over the two ways to load *)
Definition makeTrustLine (ld : LedgerKey -> ltm (option LedgerKey)) (accountID : AccountID)
    (asset : Asset) : ltm TrustLineWrapper :=
  issuer ← lift (getIssuer asset);
  if negb (issuer =? accountID) then
    entry ← ld (KeyTrustLine accountID asset);
    mret (match entry with Some k => TlNonIssuer k | None => TlNull end)
  else mret (TlIssuer accountID asset).

Definition loadTrustLine (accountID : AccountID) (asset : Asset) : ltm TrustLineWrapper :=
  if is_native asset then throw_msg "trustline for native asset"
  else makeTrustLine ltx_load accountID asset.
Definition loadTrustLineWithoutRecord (accountID : AccountID) (asset : Asset) : ltm TrustLineWrapper :=
  makeTrustLine ltx_loadWithoutRecord accountID asset.
Definition loadTrustLineIfNotNative (accountID : AccountID) (asset : Asset) : ltm TrustLineWrapper :=
  if is_native asset then mret TlNull else loadTrustLine accountID asset.
Definition loadTrustLineWithoutRecordIfNotNative (accountID : AccountID) (asset : Asset)
    : ltm TrustLineWrapper :=
  if is_native asset then mret TlNull else loadTrustLineWithoutRecord accountID asset.

(** [getImpl()->...]: one function of the entry for the line of a holder, a
    constant for the issuer *)
Definition tlw_read {A} (w : TrustLineWrapper) (f : LedgerEntry -> res A) (issuer : A) : ltm A :=
  match w with
  | TlNull => throw_msg "TrustLineWrapper not active"
  | TlNonIssuer k => e ← ltx_current k; lift (f e)
  | TlIssuer _ _ => mret issuer
  end.
Definition tlw_update (w : TrustLineWrapper) (f : LedgerEntry -> res (bool * LedgerEntry)) : ltm bool :=
  match w with
  | TlNull => throw_msg "TrustLineWrapper not active"
  | TlNonIssuer k => ltx_update k f
  | TlIssuer _ _ => mret true
  end.

Definition tlw_getAccountID (w : TrustLineWrapper) : ltm AccountID :=
  match w with
  | TlIssuer a _ => mret a
  | _ => tlw_read w (fun e => tl ← get_trustLine e; Ok (tl_accountID tl)) 0
  end.
Definition tlw_getAsset (w : TrustLineWrapper) : ltm Asset :=
  match w with
  | TlIssuer _ a => mret a
  | _ => tlw_read w (fun e => tl ← get_trustLine e; Ok (tl_asset tl)) AssetNative
  end.
Definition tlw_getBalance (w : TrustLineWrapper) : ltm Z :=
  tlw_read w (fun e => tl ← get_trustLine e; Ok (tl_balance tl)) INT64_MAX.
Definition tlw_addBalance (h : LedgerHeader) (w : TrustLineWrapper) (delta : Z) : ltm bool :=
  tlw_update w (fun e => addBalance h e delta).
Definition tlw_getBuyingLiabilities (h : LedgerHeader) (w : TrustLineWrapper) : ltm Z :=
  tlw_read w (getBuyingLiabilities h) 0.
Definition tlw_getSellingLiabilities (h : LedgerHeader) (w : TrustLineWrapper) : ltm Z :=
  tlw_read w (getSellingLiabilities h) 0.
Definition tlw_addBuyingLiabilities (h : LedgerHeader) (w : TrustLineWrapper) (delta : Z) : ltm bool :=
  tlw_update w (fun e => addBuyingLiabilities h e delta).
Definition tlw_addSellingLiabilities (h : LedgerHeader) (w : TrustLineWrapper) (delta : Z) : ltm bool :=
  tlw_update w (fun e => addSellingLiabilities h e delta).
Definition tlw_isAuthorized (w : TrustLineWrapper) : ltm bool := tlw_read w isAuthorized true.
Definition tlw_getAvailableBalance (h : LedgerHeader) (w : TrustLineWrapper) : ltm Z :=
  tlw_read w (getAvailableBalance h) INT64_MAX.
Definition tlw_getMaxAmountReceive (h : LedgerHeader) (w : TrustLineWrapper) : ltm Z :=
  tlw_read w (getMaxAmountReceive h) INT64_MAX.

(** ** TransactionUtils.cpp: the liabilities of an offer *)

Section Liabilities.
Context {U : UInt128}.

Definition loadAccountAndValidate (sellerID : AccountID) : ltm LedgerKey :=
  account ← loadAccount sellerID;
  match account with
  | Some k => mret k
  | None => throw_msg "account does not exist"
  end.

Definition loadTrustAndValidate (sellerID : AccountID) (asset : Asset) : ltm TrustLineWrapper :=
  trust ← loadTrustLine sellerID asset;
  if tlw_bool trust then mret trust else throw_msg "trustline does not exist".

Definition acquireOrReleaseLiabilities (h : LedgerHeader) (offerEntry : LedgerKey)
    (isAcquire : bool) : ltm unit :=
  entry ← ltx_current offerEntry;
  offer ← lift (get_offer entry);
  if bool_decide (oe_buying offer = oe_selling offer)
  then throw_msg "buying and selling same asset"
  else
    let sellerID := oe_sellerID offer in
    b ← lift (getOfferBuyingLiabilities h entry);
    let buyingLiabilities := if isAcquire then b else i64 (- b) in
    okb ← (if is_native (oe_buying offer) then
             account ← loadAccountAndValidate sellerID;
             ltx_update account (fun e => addBuyingLiabilities h e buyingLiabilities)
           else
             buyingTrust ← loadTrustAndValidate sellerID (oe_buying offer);
             tlw_addBuyingLiabilities h buyingTrust buyingLiabilities);
    if negb okb then throw_msg "could not add buying liabilities"
    else
      sl ← lift (getOfferSellingLiabilities h entry);
      let sellingLiabilities := if isAcquire then sl else i64 (- sl) in
      oks ← (if is_native (oe_selling offer) then
               account ← loadAccountAndValidate sellerID;
               ltx_update account (fun e => addSellingLiabilities h e sellingLiabilities)
             else
               sellingTrust ← loadTrustAndValidate sellerID (oe_selling offer);
               tlw_addSellingLiabilities h sellingTrust sellingLiabilities);
      if negb oks then throw_msg "could not add selling liabilities"
      else mret tt.

Definition acquireLiabilities (h : LedgerHeader) (offer : LedgerKey) : ltm unit :=
  acquireOrReleaseLiabilities h offer true.
Definition releaseLiabilities (h : LedgerHeader) (offer : LedgerKey) : ltm unit :=
  acquireOrReleaseLiabilities h offer false.

End Liabilities.

(** ** Queries over all entries *)

(** [loadOffersByAccountAndAsset]: the handles, in the order of the map *)
Definition ltx_loadOffersByAccountAndAsset (account : AccountID) (asset : Asset)
    : ltm (list LedgerKey) := fun s =>
  if is_native asset then Throw (RuntimeError "Invalid asset type")
  else Ok ((map_to_list (filter (fun kv => offer_of account asset kv.2 = true) (st_entries s))).*1, s).

(** The text form of a public key, by which equal vote counts are ordered, is
    made by library code; only its order matters. *)
Class StrKeyOrder := {
  strkey_gtb : AccountID -> AccountID -> bool;
  strkey_irrefl : forall a, strkey_gtb a a = false;
  strkey_trans : forall a b c, strkey_gtb a b = true -> strkey_gtb b c = true -> strkey_gtb a c = true;
  strkey_total : forall a b, a = b \/ strkey_gtb a b = true \/ strkey_gtb b a = true
}.

Record InflationWinner := mkInflationWinner { iw_accountID : AccountID; iw_votes : Z }.

Definition MIN_VOTES_TO_INCLUDE : Z := 1000000000.

(** the vote of an entry *)
Definition vote_of (e : LedgerEntry) : option (AccountID * Z) :=
  match le_data e with
  | ACCOUNT a =>
      match acc_inflationDest a with
      | Some d => if acc_balance a >=? MIN_VOTES_TO_INCLUDE then Some (d, acc_balance a) else None
      | None => None
      end
  | _ => None
  end.

Definition count_vote (e : LedgerEntry) (m : gmap Z Z) : gmap Z Z :=
  match vote_of e with
  | Some (d, v) => <[d := default 0 (m !! d) + v]> m
  | None => m
  end.

Definition tally (entries : gmap LedgerKey LedgerEntry) : gmap Z Z :=
  foldr count_vote ∅ (map_to_list entries).*2.

Section Winners.
Context {K : StrKeyOrder}.

(** [lhs] comes before [rhs] *)
Definition winner_ltb (lhs rhs : InflationWinner) : bool :=
  if iw_votes lhs =? iw_votes rhs then strkey_gtb (iw_accountID lhs) (iw_accountID rhs)
  else iw_votes rhs <? iw_votes lhs.

Fixpoint insert_winner (w : InflationWinner) (l : list InflationWinner) : list InflationWinner :=
  match l with
  | [] => [w]
  | x :: l' => if winner_ltb w x then w :: x :: l' else x :: insert_winner w l'
  end.

Definition rank_winners (votes : gmap Z Z) (maxWinners : nat) (minVotes : Z) : list InflationWinner :=
  take maxWinners (foldr insert_winner []
    (map (fun kv => mkInflationWinner kv.1 kv.2)
       (List.filter (fun kv => minVotes <=? kv.2) (map_to_list votes)))).

Definition ltx_queryInflationWinners (maxWinners : nat) (minVotes : Z) : ltm (list InflationWinner) :=
  gets (fun s => rank_winners (tally (st_entries s)) maxWinners minVotes).

End Winners.
