(* ===== verification/LedgerLogic.v ===== *)
(** * Reasoning about ledger computations

    What a computation over the ledger does to a sum over its entries, such as
    the sum of the native balances or a count.  The summand is a parameter, the
    class [Measure]; [moves s s' d] says that between two states the header is
    unchanged and the sum grows by [d].  Computations that only read are
    [Quiet], those that write but leave the sum alone are [Keeps]; both are type
    classes, so that
    the compound readers and writers of the code are discharged by instance
    search. *)
From S2P Require Import Prelude Numeric Exchange LedgerEntries TransactionUtils LedgerTxn OfferBook LedgerState.

(** instance search does not look into the computations *)
#[export] Hint Opaque lift throw throw_msg assert_m gets ltx_loadHeader ltx_setHeader ltx_load
  ltx_loadWithoutRecord ltx_current ltx_set_current ltx_update ltx_create ltx_erase
  ltx_loadBestOffer nested loadAccount loadAccountWithoutRecord loadData loadOffer active
  makeTrustLine loadTrustLine loadTrustLineWithoutRecord loadTrustLineIfNotNative
  loadTrustLineWithoutRecordIfNotNative tlw_read tlw_update tlw_getAccountID tlw_getAsset
  tlw_getBalance tlw_addBalance tlw_getBuyingLiabilities tlw_getSellingLiabilities
  tlw_addBuyingLiabilities tlw_addSellingLiabilities tlw_isAuthorized tlw_getAvailableBalance
  tlw_getMaxAmountReceive loadAccountAndValidate loadTrustAndValidate
  acquireOrReleaseLiabilities acquireLiabilities releaseLiabilities
  ltx_loadOffersByAccountAndAsset ltx_queryInflationWinners : typeclass_instances.

(** ** The monad *)

Lemma ltm_bind_ok {A B} (m : ltm A) (f : A -> ltm B) s b s' :
  (m ≫= f) s = Ok (b, s') -> exists a s1, m s = Ok (a, s1) /\ f a s1 = Ok (b, s').
Proof. unfold mbind, ltm_bind. destruct (m s) as [[a s1]|]; [by eauto|done]. Qed.

Lemma ltm_ret_ok {A} (a b : A) s s' : (mret a : ltm A) s = Ok (b, s') -> b = a /\ s' = s.
Proof. by intros [= <- <-]. Qed.

Lemma lift_ok {A} (r : res A) a s s' : lift r s = Ok (a, s') -> r = Ok a /\ s' = s.
Proof. unfold lift. destruct r; [by intros [= <- <-]|done]. Qed.

Lemma assert_m_ok b u s s' : assert_m b s = Ok (u, s') -> b = true /\ s' = s.
Proof. intros [H ->]%lift_ok. by apply assert_ok_inv in H. Qed.

Lemma ltx_loadHeader_ok h s s' : ltx_loadHeader s = Ok (h, s') -> h = st_header s /\ s' = s.
Proof. by intros [= <- <-]. Qed.

Lemma gets_ok {A} (f : LState -> A) a s s' : gets f s = Ok (a, s') -> a = f s /\ s' = s.
Proof. by intros [= <- <-]. Qed.

(** take a run of a computation apart *)
Ltac inv_run :=
  match goal with
  | H : (_ ≫= _) _ = Ok (_, _) |- _ =>
      apply ltm_bind_ok in H; destruct H as (? & ? & ? & H)
  | H : (mret _ : ltm _) _ = Ok (_, _) |- _ => apply ltm_ret_ok in H as [? ?]; subst
  | H : mret _ _ = Ok (_, _) |- _ => apply ltm_ret_ok in H as [? ?]; subst
  | H : lift _ _ = Ok (_, _) |- _ => apply lift_ok in H as [? ->]
  | H : assert_m _ _ = Ok (_, _) |- _ => apply assert_m_ok in H as [? ->]
  | H : ltx_loadHeader _ = Ok (_, _) |- _ => apply ltx_loadHeader_ok in H as [-> ->]
  | H : gets _ _ = Ok (_, _) |- _ => apply gets_ok in H as [-> ->]
  | H : throw_msg _ _ = Ok _ |- _ => discriminate H
  | H : throw _ _ = Ok _ |- _ => discriminate H
  end.

(** ** Sums over the entries

    A measure gives each entry a weight, and says which entries are in order;
    [total] is the sum of the weights of the ledger. *)
Class Measure := {
  weight : LedgerEntry -> Z;
  weight_ok : LedgerEntry -> Prop
}.

Section Totals.
Context {mu : Measure}.

Definition weight_at (o : option LedgerEntry) : Z :=
  match o with Some e => weight e | None => 0 end.

Definition total_of (m : gmap LedgerKey LedgerEntry) : Z :=
  map_fold (fun _ e acc => weight e + acc) 0 m.

Lemma total_insert_fresh m k e :
  m !! k = None -> total_of (<[k := e]> m) = weight e + total_of m.
Proof.
  intros H. unfold total_of. rewrite map_fold_insert_L; [done| |done]. intros. lia.
Qed.

Lemma total_delete m k : total_of (delete k m) = total_of m - weight_at (m !! k).
Proof.
  destruct (m !! k) as [e|] eqn:E; cbn [weight_at].
  - rewrite <- (insert_delete_id m k e E) at 2.
    rewrite total_insert_fresh by apply lookup_delete_eq. lia.
  - rewrite delete_id by done. lia.
Qed.

Lemma total_insert m k e :
  total_of (<[k := e]> m) = total_of m - weight_at (m !! k) + weight e.
Proof.
  rewrite <- insert_delete_eq, total_insert_fresh by apply lookup_delete_eq.
  rewrite total_delete. lia.
Qed.

Definition total (s : LState) : Z := total_of (st_entries s).

(** the entries have their keys and are in order; the protocol version is one
    whose transactions do not cache accounts *)
Record good (s : LState) : Prop := {
  good_keys : keys_ok (st_entries s);
  good_range : forall k e, st_entries s !! k = Some e -> weight_ok e;
  good_version : 8 <= ledgerVersion (st_header s)
}.

Record moves (s s' : LState) (d : Z) : Prop := {
  moves_header : st_header s' = st_header s;
  moves_total : total s' = total s + d;
  moves_good : good s'
}.

Lemma moves_refl s : good s -> moves s s 0.
Proof. intros H. split; [done|lia|done]. Qed.

Lemma moves_trans s1 s2 s3 d1 d2 :
  moves s1 s2 d1 -> moves s2 s3 d2 -> moves s1 s3 (d1 + d2).
Proof. intros [H1 C1 _] [H2 C2 G]. split; [congruence|lia|done]. Qed.

Lemma moves_eq s s' d d' : d = d' -> moves s s' d -> moves s s' d'.
Proof. by intros ->. Qed.

End Totals.

(** ** Computations that only read *)

Record same (s s' : LState) : Prop := {
  same_header : st_header s' = st_header s;
  same_entries : st_entries s' = st_entries s
}.

Lemma same_refl s : same s s.
Proof. by split. Qed.
Lemma same_trans s1 s2 s3 : same s1 s2 -> same s2 s3 -> same s1 s3.
Proof. intros [] []. split; congruence. Qed.

Lemma same_moves {mu : Measure} s s' : good s -> same s s' -> moves s s' 0.
Proof.
  intros [G1 G2 G3] [H E]. split; [done|unfold total; rewrite E; lia|].
  split; rewrite ?E, ?H; done.
Qed.

Class Quiet {A} (m : ltm A) : Prop :=
  quiet : forall s a s', m s = Ok (a, s') -> same s s'.

#[export] Instance quiet_ret {A} (a : A) : Quiet (mret a).
Proof. intros s b s' [_ ->]%ltm_ret_ok. apply same_refl. Qed.
#[export] Instance quiet_bind {A B} (m : ltm A) (f : A -> ltm B) :
  Quiet m -> (forall a, Quiet (f a)) -> Quiet (m ≫= f).
Proof.
  intros Hm Hf s b s' (a & s1 & E1 & E2)%ltm_bind_ok.
  eapply same_trans; [by eapply Hm|by eapply Hf].
Qed.
#[export] Instance quiet_lift {A} (r : res A) : Quiet (lift r).
Proof. intros s a s' [_ ->]%lift_ok. apply same_refl. Qed.
#[export] Instance quiet_throw {A} e : Quiet (@throw A e).
Proof. by intros s a s'. Qed.
#[export] Instance quiet_throw_msg {A} m : Quiet (@throw_msg A m).
Proof. by intros s a s'. Qed.
#[export] Instance quiet_assert b : Quiet (assert_m b).
Proof. apply quiet_lift. Qed.
#[export] Instance quiet_gets {A} (f : LState -> A) : Quiet (gets f).
Proof. intros s a s' [_ ->]%gets_ok. apply same_refl. Qed.
#[export] Instance quiet_header : Quiet ltx_loadHeader.
Proof. apply quiet_gets. Qed.
#[export] Instance quiet_if {A} (b : bool) (m1 m2 : ltm A) :
  Quiet m1 -> Quiet m2 -> Quiet (if b then m1 else m2).
Proof. by destruct b. Qed.
#[export] Instance quiet_option {A B} (o : option B) (f : B -> ltm A) (m : ltm A) :
  (forall b, Quiet (f b)) -> Quiet m -> Quiet (match o with Some b => f b | None => m end).
Proof. destruct o; auto. Qed.

#[export] Instance quiet_pair {A B C} (p : A * B) (f : A -> B -> ltm C) :
  (forall a b, Quiet (f a b)) -> Quiet (let '(a, b) := p in f a b).
Proof. destruct p; auto. Qed.

Lemma unshare_same k s : same s (unshare k s).
Proof. unfold unshare. destruct (st_cached s); [case_bool_decide|]; by split. Qed.

#[export] Instance quiet_load k : Quiet (ltx_load k).
Proof.
  intros s a s'. unfold ltx_load. destruct (st_entries s !! k); intros [= _ <-];
    [apply unshare_same|apply same_refl].
Qed.
#[export] Instance quiet_loadWithoutRecord k : Quiet (ltx_loadWithoutRecord k).
Proof. intros s a s' [= _ <-]. apply same_refl. Qed.
#[export] Instance quiet_current k : Quiet (ltx_current k).
Proof. intros s a s'. unfold ltx_current. case_match; [|done]. intros [= _ <-]. apply same_refl. Qed.
#[export] Instance quiet_active h : Quiet (active h).
Proof. destruct h; [apply quiet_ret|apply quiet_throw]. Qed.
#[export] Instance quiet_loadBestOffer b sl : Quiet (ltx_loadBestOffer b sl).
Proof.
  intros s a s'. unfold ltx_loadBestOffer. destruct (sorted_offers _ _ _).
  - intros [= _ <-]. apply same_refl.
  - apply quiet_load.
Qed.
#[export] Instance quiet_loadOffers b a : Quiet (ltx_loadOffersByAccountAndAsset b a).
Proof.
  intros s x s'. unfold ltx_loadOffersByAccountAndAsset. destruct (is_native a); [done|].
  intros [= _ <-]. apply same_refl.
Qed.

(** a nested transaction that is never committed *)
Lemma quiet_nested {A} (m : ltm (bool * A)) :
  (forall s a s', m s = Ok (a, s') -> fst a = false \/ same s s') -> Quiet (nested m).
Proof.
  intros Hm s a s'. unfold nested. destruct (m (unshared s)) as [[[b x] s1]|e] eqn:E; [|done].
  destruct (Hm _ _ _ E) as [Hb|[H1 H2]]; cbn in *.
  - subst b. intros [= _ <-]. by split.
  - destruct b; intros [= _ <-]; by split.
Qed.
#[export] Instance quiet_nested_quiet {A} (m : ltm (bool * A)) : Quiet m -> Quiet (nested m).
Proof. intros H. apply quiet_nested. right. by eapply H. Qed.

(** ** Computations that leave the sum alone *)

Class Keeps {mu : Measure} {A} (m : ltm A) : Prop :=
  keeps : forall s a s', good s -> m s = Ok (a, s') -> moves s s' 0.

Section Keeping.
Context {mu : Measure}.

#[export] Instance keeps_quiet {A} (m : ltm A) : Quiet m -> Keeps m | 100.
Proof. intros Hm s a s' G E. apply same_moves; [done|]. by eapply Hm. Qed.
#[export] Instance keeps_bind {A B} (m : ltm A) (f : A -> ltm B) :
  Keeps m -> (forall a, Keeps (f a)) -> Keeps (m ≫= f).
Proof.
  intros Hm Hf s b s' G (a & s1 & E1 & E2)%ltm_bind_ok.
  pose proof (Hm _ _ _ G E1) as M1.
  pose proof (Hf a _ _ _ (moves_good _ _ _ M1) E2) as M2.
  eapply moves_eq; [|by eapply moves_trans]. lia.
Qed.
#[export] Instance keeps_if {A} (b : bool) (m1 m2 : ltm A) :
  Keeps m1 -> Keeps m2 -> Keeps (if b then m1 else m2).
Proof. by destruct b. Qed.
#[export] Instance keeps_option {A B} (o : option B) (f : B -> ltm A) (m : ltm A) :
  (forall b, Keeps (f b)) -> Keeps m -> Keeps (match o with Some b => f b | None => m end).
Proof. destruct o; auto. Qed.
#[export] Instance keeps_sum {A B C} (o : B + C) (f : B -> ltm A) (g : C -> ltm A) :
  (forall b, Keeps (f b)) -> (forall c, Keeps (g c)) ->
  Keeps (match o with inl b => f b | inr c => g c end).
Proof. destruct o; auto. Qed.

#[export] Instance keeps_pair {A B C} (p : A * B) (f : A -> B -> ltm C) :
  (forall a b, Keeps (f a b)) -> Keeps (let '(a, b) := p in f a b).
Proof. destruct p; auto. Qed.

(** a write *)
Lemma put_entries k e s : st_entries (put k e s) = <[k := e]> (st_entries s).
Proof. unfold put. destruct (st_cached s); [|done]. by destruct (_ && _). Qed.
Lemma put_header k e s : st_header (put k e s) = st_header s.
Proof. unfold put. destruct (st_cached s); [|done]. by destruct (_ && _). Qed.

Lemma put_moves k e s s' :
  good s -> st_entries s' = <[k := e]> (st_entries s) -> st_header s' = st_header s ->
  LedgerEntryKey e = k -> weight_ok e ->
  moves s s' (weight e - weight_at (st_entries s !! k)).
Proof.
  intros [G1 G2 G3] E H Hk Hr. split; [done| |].
  - unfold total. rewrite E, total_insert. lia.
  - split; rewrite ?H; [| |done].
    + intros k' e'. rewrite E, lookup_insert_Some. intros [[<- <-]|[_ ?]]; [done|by apply G1].
    + intros k' e'. rewrite E, lookup_insert_Some. intros [[<- <-]|[_ ?]]; [done|by eapply G2].
Qed.

Lemma erase_moves k s s' :
  good s -> st_entries s' = delete k (st_entries s) -> st_header s' = st_header s ->
  moves s s' (- weight_at (st_entries s !! k)).
Proof.
  intros [G1 G2 G3] E H. split; [done| |].
  - unfold total. rewrite E, total_delete. lia.
  - split; rewrite ?H; [| |done].
    + intros k' e'. rewrite E, lookup_delete_Some. intros [_ ?]. by apply G1.
    + intros k' e'. rewrite E, lookup_delete_Some. intros [_ ?]. by eapply G2.
Qed.

Lemma ltx_update_ok {A} k (f : LedgerEntry -> res (A * LedgerEntry)) a s s' :
  ltx_update k f s = Ok (a, s') ->
  exists e e', st_entries s !! k = Some e /\ f e = Ok (a, e') /\
    st_entries s' = <[k := e']> (st_entries s) /\ st_header s' = st_header s.
Proof.
  unfold ltx_update, mbind, ltm_bind, ltx_current, lift, ltx_set_current, mret, ltm_ret.
  destruct (st_entries s !! k) as [e|] eqn:E; [|done].
  destruct (f e) as [[a1 e1]|] eqn:Ef; [|done]. rewrite E. intros [= <- <-].
  exists e, e1. by rewrite put_entries, put_header.
Qed.

Lemma update_moves {A} k (f : LedgerEntry -> res (A * LedgerEntry)) a s s' :
  good s -> ltx_update k f s = Ok (a, s') ->
  (forall e a e', LedgerEntryKey e = k -> weight_ok e -> f e = Ok (a, e') ->
    LedgerEntryKey e' = LedgerEntryKey e /\ weight_ok e') ->
  exists e e', st_entries s !! k = Some e /\ LedgerEntryKey e = k /\ weight_ok e /\
    f e = Ok (a, e') /\ moves s s' (weight e' - weight e).
Proof.
  intros G (e & e' & E & Hf & Es & Hs)%ltx_update_ok Hok.
  pose proof (good_keys _ G _ _ E) as Hk. pose proof (good_range _ G _ _ E) as Hr.
  destruct (Hok _ _ _ Hk Hr Hf) as [Hk' Hr'].
  exists e, e'. do 4 (split; [done|]).
  pose proof (put_moves k e' s s' G Es Hs) as M. rewrite E in M. apply M; [|done].
  congruence.
Qed.

(** a function on entries that keeps the key and the weight *)
Definition entry_keeps {A} (f : LedgerEntry -> res (A * LedgerEntry)) : Prop :=
  forall e a e', f e = Ok (a, e') ->
    LedgerEntryKey e' = LedgerEntryKey e /\ weight e' = weight e /\ (weight_ok e -> weight_ok e').

Lemma keeps_update {A} k (f : LedgerEntry -> res (A * LedgerEntry)) :
  entry_keeps f -> Keeps (ltx_update k f).
Proof.
  intros Hf s a s' G H. destruct (update_moves k f a s s' G H) as (e & e' & _ & _ & _ & He & M).
  - intros e0 a0 e0' Hk Hr E. destruct (Hf _ _ _ E) as (-> & _ & Hok). auto.
  - destruct (Hf _ _ _ He) as (_ & Hn & _). eapply moves_eq; [|exact M]. lia.
Qed.

(** a nested transaction *)
Lemma nested_ok {A} (m : ltm (bool * A)) a s s' :
  nested m s = Ok (a, s') ->
  exists b s1, m (unshared s) = Ok ((b, a), s1) /\ (if b : bool then same s1 s' else same s s').
Proof.
  unfold nested. destruct (m (unshared s)) as [[[b x] s1]|e] eqn:E; [|done].
  destruct b; intros [= -> <-]; eexists _, _; split; try done; by split.
Qed.

Lemma unshared_same s : same s (unshared s).
Proof. by split. Qed.
Lemma same_good s s' : good s -> same s s' -> good s'.
Proof. intros G H. by destruct (same_moves s s' G H). Qed.

#[export] Instance keeps_nested {A} (m : ltm (bool * A)) : Keeps m -> Keeps (nested m).
Proof.
  intros Hm s a s' G (b & s1 & E & Hb)%nested_ok. destruct b; [|by apply same_moves].
  pose proof (same_good _ _ G (unshared_same s)) as G1.
  destruct (Hm _ _ _ G1 E) as [H1 C1 G2]. destruct (same_moves _ _ G2 Hb) as [H2 C2 G3].
  split; [by rewrite H2, H1| |done]. rewrite C2, C1. unfold total. cbn. lia.
Qed.

End Keeping.

#[export] Hint Mode Quiet ! ! : typeclass_instances.
#[export] Hint Mode Keeps - ! ! : typeclass_instances.

(** ** Running a computation forward

    [run m s Q]: if [m] returns from [s], its result and state satisfy [Q].
    The rules thread one hypothesis [moves s0 s d] from the start of the
    computation to the current state. *)
Definition run {A} (m : ltm A) (s : LState) (Q : A -> LState -> Prop) : Prop :=
  forall a s', m s = Ok (a, s') -> Q a s'.

Section Run.
Context {mu : Measure} {A B : Type}.
Implicit Types (s : LState) (m : ltm A).

Lemma run_bind m (f : A -> ltm B) s (Q : B -> LState -> Prop) :
  run m s (fun a s1 => run (f a) s1 Q) -> run (m ≫= f) s Q.
Proof. intros H b s' (a & s1 & E1 & E2)%ltm_bind_ok. by eapply H. Qed.

Lemma run_ret (a : A) s (Q : A -> LState -> Prop) : Q a s -> run (mret a) s Q.
Proof. by intros H b s' [-> ->]%ltm_ret_ok. Qed.

Lemma run_lift (r : res A) s (Q : A -> LState -> Prop) :
  (forall a, r = Ok a -> Q a s) -> run (lift r) s Q.
Proof. intros H a s' [E ->]%lift_ok. by apply H. Qed.

Lemma run_throw e s (Q : A -> LState -> Prop) : run (throw e) s Q.
Proof. by intros a s'. Qed.

Lemma run_gets (f : LState -> A) s (Q : A -> LState -> Prop) : Q (f s) s -> run (gets f) s Q.
Proof. by intros H b s' [-> ->]%gets_ok. Qed.

Lemma run_mono m s (Q Q' : A -> LState -> Prop) :
  run m s Q -> (forall a s', Q a s' -> Q' a s') -> run m s Q'.
Proof. intros H HQ a s' E. by apply HQ, H. Qed.

Lemma run_keeps m s0 s d (Q : A -> LState -> Prop) :
  Keeps m -> moves s0 s d -> (forall a s', moves s0 s' d -> Q a s') -> run m s Q.
Proof.
  intros Hm M HQ a s' E. apply HQ. eapply moves_eq; [|eapply moves_trans; [exact M|]].
  2: eapply Hm; [by destruct M|exact E]. lia.
Qed.

Lemma run_quiet m s0 s d (Q : A -> LState -> Prop) :
  Quiet m -> moves s0 s d ->
  (forall a s', moves s0 s' d -> st_entries s' = st_entries s -> Q a s') -> run m s Q.
Proof.
  intros Hm M HQ a s' E. pose proof (Hm _ _ _ E) as Hs. apply HQ; [|by destruct Hs].
  eapply moves_eq; [|eapply moves_trans; [exact M|apply same_moves; [by destruct M|done]]]. lia.
Qed.

Lemma keeps_run m :
  (forall s, good s -> moves s s 0 -> run m s (fun _ s' => moves s s' 0)) -> Keeps m.
Proof. intros H s a s' G E. by eapply H; [|apply moves_refl|]. Qed.

(** a nested transaction, by its two ends *)
Lemma run_nested (m : ltm (bool * A)) s0 s d (Q : A -> LState -> Prop) :
  moves s0 s d ->
  (forall s1, moves s0 s1 d ->
    run m s1 (fun ba s' => (fst ba = true -> exists d', moves s0 s' d' /\
       forall s'', moves s0 s'' d' -> Q (snd ba) s'') /\
      (fst ba = false -> forall s'', moves s0 s'' d -> Q (snd ba) s''))) ->
  run (nested m) s Q.
Proof.
  intros M H a s' (b & s1 & E & Hb)%nested_ok.
  pose proof (same_moves _ _ (moves_good _ _ _ M) (unshared_same s)) as M1.
  assert (M2 : moves s0 (unshared s) d) by (eapply moves_eq; [|by eapply moves_trans]; lia).
  destruct (H _ M2 _ _ E) as [H1 H2]. cbn in *. destruct b.
  - destruct (H1 eq_refl) as (d' & M3 & HQ). apply HQ.
    eapply moves_eq; [|eapply moves_trans; [exact M3|apply same_moves; [by destruct M3|done]]]. lia.
  - apply H2; [done|].
    eapply moves_eq; [|eapply moves_trans; [exact M|apply same_moves; [by destruct M|done]]]. lia.
Qed.

End Run.

Lemma run_assert b s (Q : unit -> LState -> Prop) : (b = true -> Q tt s) -> run (assert_m b) s Q.
Proof. intros H [] s' [E ->]%assert_m_ok. by apply H. Qed.

Lemma run_header s (Q : LedgerHeader -> LState -> Prop) : Q (st_header s) s -> run ltx_loadHeader s Q.
Proof. apply run_gets. Qed.

Lemma run_active h s (Q : LedgerKey -> LState -> Prop) :
  (forall k, h = Some k -> Q k s) -> run (active h) s Q.
Proof. destruct h; intros H; [apply run_ret; auto|apply run_throw]. Qed.

(** loading: the handle is the key, if the entry is there *)
Lemma run_load {mu : Measure} k s0 s d (Q : option LedgerKey -> LState -> Prop) :
  moves s0 s d ->
  (forall o s', (o = Some k \/ o = None) -> moves s0 s' d -> Q o s') -> run (ltx_load k) s Q.
Proof.
  intros M H a s' E. pose proof (quiet _ _ _ E) as Hq. apply H.
  - unfold ltx_load in E. destruct (st_entries s !! k); injection E as <- _; auto.
  - eapply moves_eq; [|eapply moves_trans; [exact M|apply same_moves; [by destruct M|done]]]. lia.
Qed.

(** creating and erasing an entry *)
Lemma run_create {mu : Measure} e s0 s d (Q : LedgerKey -> LState -> Prop) :
  moves s0 s d -> weight_ok e ->
  (forall s', moves s0 s' (d + weight e) -> Q (LedgerEntryKey e) s') -> run (ltx_create e) s Q.
Proof.
  intros M Hr H k s' E. unfold ltx_create in E. destruct (st_entries s !! LedgerEntryKey e) eqn:Ek; [done|].
  injection E as <- <-. apply H. eapply moves_trans; [exact M|].
  destruct (unshare_same (LedgerEntryKey e) s) as [H1 H2].
  eapply moves_eq; [|eapply put_moves; [by destruct M|by rewrite put_entries, H2|by rewrite put_header, H1|done|done]].
  rewrite Ek. cbn. lia.
Qed.

Lemma run_erase {mu : Measure} k s0 s d (Q : unit -> LState -> Prop) :
  moves s0 s d ->
  (forall e s', st_entries s !! k = Some e -> LedgerEntryKey e = k -> moves s0 s' (d - weight e) -> Q tt s') ->
  run (ltx_erase k) s Q.
Proof.
  intros M H [] s' E. unfold ltx_erase in E. destruct (st_entries s !! k) as [e|] eqn:Ek; [|done].
  injection E as <-. eapply H; [done|by apply (good_keys _ (moves_good _ _ _ M))|].
  destruct (unshare_same k (set_st_entries (delete k (st_entries s)) s)) as [H1 H2].
  eapply moves_eq; [|eapply moves_trans; [exact M|eapply erase_moves; [by destruct M|exact H2|exact H1]]].
  rewrite Ek. cbn. lia.
Qed.

(** one step of a computation that does not touch the balances *)
Ltac rkeep :=
  match goal with M : moves ?s0 ?s ?d |- run _ ?s _ =>
    eapply run_keeps; [apply _|exact M|clear M; let s' := fresh "s" in intros ? s' M]
  end.
Ltac rhead :=
  lazymatch goal with
  | |- run (mret _) _ _ => apply run_ret
  | |- run ltx_loadHeader _ _ => apply run_header
  | |- run (throw _) _ _ => apply run_throw
  | |- run (throw_msg _) _ _ => apply run_throw
  | |- run (lift _) _ _ => apply run_lift; intros ? ?
  | |- run (assert_m _) _ _ => apply run_assert; intros ?
  | |- run (active _) _ _ => apply run_active; intros ? ?
  | |- run _ _ _ => rkeep
  end.
Ltac rstep :=
  lazymatch goal with
  | |- run (mbind _ _) _ _ => apply run_bind; rhead
  | |- _ => rhead
  end.
(** a step that only reads: the entries are the same *)
Ltac rquiet :=
  apply run_bind;
  match goal with M : moves ?s0 ?s ?d |- run _ ?s _ =>
    eapply run_quiet; [apply _|exact M|clear M; let s' := fresh "s" in
      let E := fresh "Es" in intros ? s' M E]
  end.
(** split the test at the head of the computation *)
Ltac rif :=
  match goal with
  | |- run (if ?b then _ else _) _ _ => destruct b eqn:?
  | |- run (mbind _ (if ?b then _ else _)) _ _ => destruct b eqn:?
  | |- run (match ?o with _ => _ end) _ _ => destruct o eqn:?
  end.

(** a nested transaction that never commits only reads *)
Ltac never_commits :=
  apply quiet_nested;
  let s := fresh "s" in let x := fresh "x" in let s' := fresh "s" in let E := fresh "E" in
  intros s x s' E; left; revert x s' E;
  match goal with |- forall x s', ?m ?s = _ -> _ => change (run m s (fun x _ => fst x = false)) end;
  repeat first [by apply run_ret|progress cbv zeta|rif|apply run_bind; intros ? ? _|case_match].
