(* ===== verification/OfferCross.v ===== *)
(** * Crossing the offers of the book

    The part of src/src/transactions/OfferExchange.cpp that works on the
    ledger: how much an account can sell and buy, the exchange with one offer
    before and since protocol version 10, and [convertWithOffers], which takes
    offers from the book until enough has been exchanged.  Variables that the
    code passes by reference and assigns are results here. *)
From S2P Require Import Prelude Numeric Exchange LedgerEntries TransactionUtils OfferBook LedgerState.

Inductive CrossOfferResult := eOfferPartial | eOfferTaken | eOfferCantConvert.
Inductive OfferFilterResult := eKeep | eStop.
Inductive ConvertResult := eOK | ePartial | eFilterStop.

#[export] Instance CrossOfferResult_eq_dec : EqDecision CrossOfferResult.
Proof. solve_decision. Defined.

(** [struct ClaimOfferAtom] *)
Record ClaimOfferAtom := mkClaimOfferAtom {
  coa_sellerID : AccountID;
  coa_offerID : Z;
  coa_assetSold : Asset;
  coa_amountSold : Z;
  coa_assetBought : Asset;
  coa_amountBought : Z
}.

(** the offer of a handle, and the assignment of its amount *)
Definition offerOf (k : LedgerKey) : ltm OfferEntry :=
  e ← ltx_current k; lift (get_offer e).
Definition setOfferAmount (k : LedgerKey) (amount : Z) : ltm unit :=
  ltx_update k (fun e => oe ← get_offer e; Ok (tt, set_le_data (OFFER (set_oe_amount amount oe)) e)).

Section Crossing.
Context {U : UInt128}.

(** ** What an account can sell and buy *)

Definition canSellAtMostBasedOnSheep (h : LedgerHeader) (sheep : Asset)
    (sheepLine : TrustLineWrapper) (wheatPrice : Price) : ltm Z :=
  if is_native sheep then mret INT64_MAX
  else
    sellerMaxSheep ← (if tlw_bool sheepLine then tlw_getMaxAmountReceive h sheepLine else mret 0);
    '(ok, wheatAmount) ← lift (bigDivide_i64 0 sellerMaxSheep (price_d wheatPrice)
                                 (price_n wheatPrice) ROUND_DOWN);
    mret (if ok : bool then wheatAmount else INT64_MAX).

(** the two overloads, for handles and for constant handles *)
Definition canSellAtMost (h : LedgerHeader) (account : option LedgerKey) (asset : Asset)
    (trustLine : TrustLineWrapper) : ltm Z :=
  if is_native asset then
    k ← active account;
    e ← ltx_current k;
    avail ← lift (getAvailableBalance h e);
    mret (Z.max avail 0)
  else if tlw_bool trustLine then
    auth ← tlw_isAuthorized trustLine;
    if auth : bool then
      avail ← tlw_getAvailableBalance h trustLine;
      mret (Z.max avail 0)
    else mret 0
  else mret 0.

Definition canBuyAtMost (h : LedgerHeader) (account : option LedgerKey) (asset : Asset)
    (trustLine : TrustLineWrapper) : ltm Z :=
  if is_native asset then
    k ← active account;
    e ← ltx_current k;
    m ← lift (getMaxAmountReceive h e);
    mret (Z.max m 0)
  else if tlw_bool trustLine then
    m ← tlw_getMaxAmountReceive h trustLine;
    mret (Z.max m 0)
  else mret 0.

(** [adjustOffer] on the offer of a handle *)
Definition adjustOfferEntry (h : LedgerHeader) (offer : LedgerKey) (account : option LedgerKey)
    (wheat : Asset) (wheatLine : TrustLineWrapper) (sheep : Asset)
    (sheepLine : TrustLineWrapper) : ltm unit :=
  oe ← offerOf offer;
  can ← canSellAtMost h account wheat wheatLine;
  let maxWheatSend := Z.min (oe_amount oe) can in
  maxSheepReceive ← canBuyAtMost h account sheep sheepLine;
  amount ← lift (adjustOffer (oe_price oe) maxWheatSend maxSheepReceive);
  setOfferAmount offer amount.

(** ** One offer, before version 10 *)

(** the result, [numWheatReceived], [numSheepSend] and [newAmount] *)
Definition performExchange (h : LedgerHeader) (sellingWheatOffer : LedgerKey)
    (accountB : option LedgerKey) (wheatLineAccountB sheepLineAccountB : TrustLineWrapper)
    (maxWheatReceived maxSheepSend : Z) : ltm (ExchangeResultType * Z * Z * Z) :=
  offer ← offerOf sellingWheatOffer;
  let sheep := oe_buying offer in
  let wheat := oe_selling offer in
  let price := oe_price offer in
  basedOnSheep ← canSellAtMostBasedOnSheep h sheep sheepLineAccountB price;
  can ← canSellAtMost h accountB wheat wheatLineAccountB;
  let numWheatReceived := Z.min basedOnSheep (Z.min can (oe_amount offer)) in
  _ ← assert_m (0 <=? numWheatReceived);
  let newAmount := numWheatReceived in
  r ← lift (if ledgerVersion h <? 3
            then exchangeV2 numWheatReceived price maxWheatReceived maxSheepSend
            else exchangeV3 numWheatReceived price maxWheatReceived maxSheepSend);
  let wheat1 := er_numWheatReceived r in
  let sheep1 := er_numSheepSend r in
  match ExchangeResult_type r with
  | REDUCED_TO_ZERO => mret (REDUCED_TO_ZERO, wheat1, sheep1, newAmount)
  | BOGUS =>
      (* the offer is deleted *)
      mret (NORMAL, 0, 0, 0)
  | NORMAL =>
      let offerTaken := oe_amount offer <=? wheat1 in
      mret (NORMAL, wheat1, sheep1, if offerTaken then 0 else i64 (newAmount - wheat1))
  end.

(** the balance of [accountBID] in [asset], changed inside a transaction of
    its own that is rolled back when the change is refused *)
Definition payInNestedTxn (accountBID : AccountID) (asset : Asset) (delta : Z) : ltm bool :=
  nested (
    header ← ltx_loadHeader;
    ok ← (if is_native asset then
            accountB ← loadAccount accountBID;
            k ← active accountB;
            ltx_update k (fun e => addBalance header e delta)
          else
            line ← loadTrustLine accountBID asset;
            tlw_addBalance header line delta);
    mret (ok, ok)).

(** the result, [numWheatReceived], [numSheepSend] and the trail *)
Definition crossOffer (sellingWheatOffer : LedgerKey) (maxWheatReceived maxSheepSend : Z)
    (offerTrail : list ClaimOfferAtom)
    : ltm (CrossOfferResult * Z * Z * list ClaimOfferAtom) :=
  _ ← assert_m (0 <? maxWheatReceived);
  _ ← assert_m (0 <? maxSheepSend);
  offer ← offerOf sellingWheatOffer;
  let sheep := oe_buying offer in
  let wheat := oe_selling offer in
  let accountBID := oe_sellerID offer in
  let offerID := oe_offerID offer in
  accountB ← loadAccountWithoutRecord accountBID;
  match accountB with
  | None => throw_msg "invalid database state: offer must have matching account"
  | Some _ =>
      sheepLineAccountB ← loadTrustLineWithoutRecordIfNotNative accountBID sheep;
      wheatLineAccountB ← loadTrustLineWithoutRecordIfNotNative accountBID wheat;
      header ← ltx_loadHeader;
      '(exchangeResult, numWheatReceived, numSheepSend, newAmount) ←
        performExchange header sellingWheatOffer accountB wheatLineAccountB sheepLineAccountB
          maxWheatReceived maxSheepSend;
      match exchangeResult with
      | REDUCED_TO_ZERO => mret (eOfferCantConvert, numWheatReceived, numSheepSend, offerTrail)
      | _ =>
          _ ← (if newAmount =? 0 then
                 _ ← ltx_erase sellingWheatOffer;
                 accountB ← loadAccount accountBID;
                 k ← active accountB;
                 _ ← ltx_update k (fun e => addNumEntries header e (-1));
                 mret tt
               else setOfferAmount sellingWheatOffer newAmount);
          ok1 ← (if negb (numSheepSend =? 0)
                 then payInNestedTxn accountBID sheep numSheepSend else mret true);
          if negb ok1 then mret (eOfferCantConvert, numWheatReceived, numSheepSend, offerTrail)
          else
            ok2 ← (if negb (numWheatReceived =? 0)
                   then payInNestedTxn accountBID wheat (i64 (- numWheatReceived)) else mret true);
            if negb ok2 then mret (eOfferCantConvert, numWheatReceived, numSheepSend, offerTrail)
            else
              mret (if newAmount =? 0 then eOfferTaken else eOfferPartial,
                    numWheatReceived, numSheepSend,
                    offerTrail ++ [mkClaimOfferAtom accountBID offerID wheat numWheatReceived
                                     sheep numSheepSend])
      end
  end.

(** ** One offer, since version 10 *)

(** the change of a balance of the seller that must not be refused *)
Definition payOrThrow (h : LedgerHeader) (account : option LedgerKey) (line : TrustLineWrapper)
    (asset : Asset) (delta : Z) (msg : string) : ltm unit :=
  ok ← (if is_native asset then
          k ← active account;
          ltx_update k (fun e => addBalance h e delta)
        else tlw_addBalance h line delta);
  if negb ok then throw_msg msg else mret tt.

(** the block that stores the offer again or removes it *)
Definition settleOffer (accountBID : AccountID) (offerID : Z) (r : CrossOfferResult) : ltm unit :=
  nested (
    header ← ltx_loadHeader;
    sellingWheatOffer ← loadOffer accountBID offerID;
    k ← active sellingWheatOffer;
    _ ← (if bool_decide (r = eOfferTaken) then
           _ ← ltx_erase k;
           accountB ← loadAccount accountBID;
           a ← active accountB;
           _ ← ltx_update a (fun e => addNumEntries header e (-1));
           mret tt
         else acquireLiabilities header k);
    mret (true, tt)).

(** the result, [numWheatReceived], [numSheepSend], [wheatStays] and the trail *)
Definition crossOfferV10 (sellingWheatOffer : LedgerKey) (maxWheatReceived maxSheepSend : Z)
    (isPathPayment : bool) (offerTrail : list ClaimOfferAtom)
    : ltm (CrossOfferResult * Z * Z * bool * list ClaimOfferAtom) :=
  _ ← assert_m (0 <? maxWheatReceived);
  _ ← assert_m (0 <? maxSheepSend);
  header ← ltx_loadHeader;
  offer ← offerOf sellingWheatOffer;
  let sheep := oe_buying offer in
  let wheat := oe_selling offer in
  let accountBID := oe_sellerID offer in
  let offerID := oe_offerID offer in
  exists_ ← loadAccountWithoutRecord accountBID;
  match exists_ with
  | None => throw_msg "invalid database state: offer must have matching account"
  | Some _ =>
      _ ← releaseLiabilities header sellingWheatOffer;
      accountB ← (if is_native wheat || is_native sheep then loadAccount accountBID else mret None);
      sheepLineAccountB ← loadTrustLineIfNotNative accountBID sheep;
      wheatLineAccountB ← loadTrustLineIfNotNative accountBID wheat;
      _ ← adjustOfferEntry header sellingWheatOffer accountB wheat wheatLineAccountB
            sheep sheepLineAccountB;
      can ← canSellAtMost header accountB wheat wheatLineAccountB;
      adjusted ← offerOf sellingWheatOffer;
      let maxWheatSend := Z.min (oe_amount adjusted) can in
      maxSheepReceive ← canBuyAtMost header accountB sheep sheepLineAccountB;
      r ← lift (exchangeV10 (oe_price adjusted) maxWheatSend maxWheatReceived maxSheepSend
                  maxSheepReceive isPathPayment);
      let numWheatReceived := numWheatReceived r in
      let numSheepSend := numSheepSend r in
      let wheatStays := wheatStays r in
      _ ← (if negb (numSheepSend =? 0)
           then payOrThrow header accountB sheepLineAccountB sheep numSheepSend
                  "overflowed sheep balance"
           else mret tt);
      _ ← (if negb (numWheatReceived =? 0)
           then payOrThrow header accountB wheatLineAccountB wheat (i64 (- numWheatReceived))
                  "overflowed wheat balance"
           else mret tt);
      _ ← (if wheatStays : bool then
             o ← offerOf sellingWheatOffer;
             _ ← setOfferAmount sellingWheatOffer (i64 (oe_amount o - numWheatReceived));
             adjustOfferEntry header sellingWheatOffer accountB wheat wheatLineAccountB
               sheep sheepLineAccountB
           else setOfferAmount sellingWheatOffer 0);
      left ← offerOf sellingWheatOffer;
      let res := if oe_amount left =? 0 then eOfferTaken else eOfferPartial in
      _ ← settleOffer accountBID offerID res;
      mret (res, numWheatReceived, numSheepSend, wheatStays,
            offerTrail ++ [mkClaimOfferAtom accountBID offerID wheat numWheatReceived
                             sheep numSheepSend])
  end.

(** ** The loop over the book

    [filter] is a closure: what it captures and assigns, of type [R], is
    threaded through its calls. *)
Section Convert.
Context {R : Type}.

Record Conversion := mkConversion {
  cv_maxSheepSend : Z;
  cv_sheepSend : Z;
  cv_maxWheatReceive : Z;
  cv_wheatReceived : Z;
  cv_trail : list ClaimOfferAtom;
  cv_captured : R
}.

(** how one round of the loop ends *)
Inductive Round :=
| RoundBreak (c : Conversion)
| RoundReturn (r : ConvertResult) (c : Conversion)
| RoundNext (c : Conversion).

Definition callFilter (filter : option (LedgerEntry -> R -> res (OfferFilterResult * R)))
    (wheatOffer : LedgerKey) (x : R) : ltm (OfferFilterResult * R) :=
  match filter with
  | None => mret (eKeep, x)
  | Some f => e ← ltx_current wheatOffer; lift (f e x)
  end.

Definition convertRound (sheep wheat : Asset) (isPathPayment : bool)
    (filter : option (LedgerEntry -> R -> res (OfferFilterResult * R)))
    (c : Conversion) : ltm (bool * Round) :=
  best ← ltx_loadBestOffer sheep wheat;
  match best with
  | None => mret (false, RoundBreak c)
  | Some wheatOffer =>
      '(f, x) ← callFilter filter wheatOffer (cv_captured c);
      let c := mkConversion (cv_maxSheepSend c) (cv_sheepSend c) (cv_maxWheatReceive c)
                 (cv_wheatReceived c) (cv_trail c) x in
      match f with
      | eStop => mret (false, RoundReturn eFilterStop c)
      | eKeep =>
          header ← ltx_loadHeader;
          '(cor, numWheatReceived, numSheepSend, needMore, trail) ←
            (if ledgerVersion header >=? 10 then
               '(cor, w, s, wheatStays, trail) ←
                 crossOfferV10 wheatOffer (cv_maxWheatReceive c) (cv_maxSheepSend c)
                   isPathPayment (cv_trail c);
               mret (cor, w, s, negb wheatStays, trail)
             else
               '(cor, w, s, trail) ←
                 crossOffer wheatOffer (cv_maxWheatReceive c) (cv_maxSheepSend c) (cv_trail c);
               mret (cor, w, s, true, trail));
          _ ← assert_m (0 <=? numSheepSend);
          _ ← assert_m (numSheepSend <=? cv_maxSheepSend c);
          _ ← assert_m (0 <=? numWheatReceived);
          _ ← assert_m (numWheatReceived <=? cv_maxWheatReceive c);
          if bool_decide (cor = eOfferCantConvert)
          then mret (false, RoundReturn ePartial
                 (mkConversion (cv_maxSheepSend c) (cv_sheepSend c) (cv_maxWheatReceive c)
                    (cv_wheatReceived c) trail (cv_captured c)))
          else
            let c := mkConversion (i64 (cv_maxSheepSend c - numSheepSend))
                       (i64 (cv_sheepSend c + numSheepSend))
                       (i64 (cv_maxWheatReceive c - numWheatReceived))
                       (i64 (cv_wheatReceived c + numWheatReceived)) trail (cv_captured c) in
            let needMore := needMore && ((0 <? cv_maxWheatReceive c) && (0 <? cv_maxSheepSend c)) in
            mret (true,
              if negb needMore then RoundReturn eOK c
              else if bool_decide (cor = eOfferPartial) then RoundReturn ePartial c
              else RoundNext c)
      end
  end.

Fixpoint convertLoop (fuel : nat) (sheep wheat : Asset) (isPathPayment : bool)
    (filter : option (LedgerEntry -> R -> res (OfferFilterResult * R)))
    (c : Conversion) : ltm (ConvertResult * Conversion) :=
  match fuel with
  | O => throw OutOfFuel
  | S fuel' =>
      round ← nested (convertRound sheep wheat isPathPayment filter c);
      match round with
      | RoundNext c' => convertLoop fuel' sheep wheat isPathPayment filter c'
      | RoundReturn r c' => mret (r, c')
      | RoundBreak c' =>
          header ← ltx_loadHeader;
          mret (if ledgerVersion header <? 10 then eOK else ePartial, c')
      end
  end.

(** the result and the values of [sheepSend], [wheatReceived], the trail and
    what the filter captures.  Each round that goes on takes an offer of the
    pair from the book. *)
Definition convertWithOffers (sheep : Asset) (maxSheepSend : Z) (wheat : Asset)
    (maxWheatReceive : Z) (isPathPayment : bool)
    (filter : option (LedgerEntry -> R -> res (OfferFilterResult * R))) (x : R)
    (offerTrail : list ClaimOfferAtom) : ltm (ConvertResult * Conversion) :=
  let c := mkConversion maxSheepSend 0 maxWheatReceive 0 offerTrail x in
  if (0 <? maxWheatReceive) && (0 <? maxSheepSend) then
    fuel ← gets (fun s => S (length (sorted_offers (st_entries s) sheep wheat)));
    convertLoop fuel sheep wheat isPathPayment filter c
  else mret (eOK, c).

End Convert.
End Crossing.
Arguments Conversion R : clear implicits.
Arguments Round R : clear implicits.
