(* ===== verification/Operations.v ===== *)
(** * Operations

    The data of src/src/xdr/EssaBlockChain-transaction.x and the operations
    of src/src/transactions that do not exchange assets.  Each operation has
    its [doCheckValid], which is [Some] result when it fails, and its
    [doApply], which returns the flag of the code and the inner result; the
    changes made before a failure stay in the state, to be discarded by the
    transaction.  [src] is [getSourceID()]. *)
From S2P Require Import Prelude Numeric Exchange LedgerEntries TransactionUtils LedgerTxn OfferCross LedgerState.

(** ** Data *)

Record CreateAccountOp := mkCreateAccountOp { ca_destination : AccountID; ca_startingBalance : Z }.
Record PaymentOp := mkPaymentOp { pay_destination : AccountID; pay_asset : Asset; pay_amount : Z }.
Record PathPaymentOp := mkPathPaymentOp {
  pp_sendAsset : Asset;
  pp_sendMax : Z;
  pp_destination : AccountID;
  pp_destAsset : Asset;
  pp_destAmount : Z;
  pp_path : list Asset
}.
Record ManageOfferOp := mkManageOfferOp {
  mo_selling : Asset;
  mo_buying : Asset;
  mo_amount : Z;
  mo_price : Price;
  mo_offerID : Z
}.
Record CreatePassiveOfferOp := mkCreatePassiveOfferOp {
  cp_selling : Asset;
  cp_buying : Asset;
  cp_amount : Z;
  cp_price : Price
}.
Record SetOptionsOp := mkSetOptionsOp {
  so_inflationDest : option AccountID;
  so_clearFlags : option Z;
  so_setFlags : option Z;
  so_masterWeight : option Z;
  so_lowThreshold : option Z;
  so_medThreshold : option Z;
  so_highThreshold : option Z;
  so_homeDomain : option string;
  so_signer : option Signer
}.
Record ChangeTrustOp := mkChangeTrustOp { ct_line : Asset; ct_limit : Z }.
(** the union of [AllowTrustOp] has no arm for the native type, but a value of
    that type can be made *)
Inductive AllowTrustAsset :=
| AllowTrustNative
| AllowTrust4 (assetCode4 : list Z)
| AllowTrust12 (assetCode12 : list Z).
Record AllowTrustOp := mkAllowTrustOp {
  at_trustor : AccountID;
  at_asset : AllowTrustAsset;
  at_authorize : bool
}.
Record ManageDataOp := mkManageDataOp { md_dataName : string; md_dataValue : option (list Z) }.
Record BumpSequenceOp := mkBumpSequenceOp { bs_bumpTo : Z }.

Inductive OperationBody :=
| CREATE_ACCOUNT (createAccountOp : CreateAccountOp)
| PAYMENT (paymentOp : PaymentOp)
| PATH_PAYMENT (pathPaymentOp : PathPaymentOp)
| MANAGE_OFFER (manageOfferOp : ManageOfferOp)
| CREATE_PASSIVE_OFFER (createPassiveOfferOp : CreatePassiveOfferOp)
| SET_OPTIONS (setOptionsOp : SetOptionsOp)
| CHANGE_TRUST (changeTrustOp : ChangeTrustOp)
| ALLOW_TRUST (allowTrustOp : AllowTrustOp)
| ACCOUNT_MERGE (destination : AccountID)
| INFLATION
| MANAGE_DATA (manageDataOp : ManageDataOp)
| BUMP_SEQUENCE (bumpSequenceOp : BumpSequenceOp).

Record Operation := mkOperation { op_sourceAccount : option AccountID; op_body : OperationBody }.

(** ** Results *)

Inductive CreateAccountResult :=
| CREATE_ACCOUNT_SUCCESS | CREATE_ACCOUNT_MALFORMED | CREATE_ACCOUNT_UNDERFUNDED
| CREATE_ACCOUNT_LOW_RESERVE | CREATE_ACCOUNT_ALREADY_EXIST.

Inductive PaymentResult :=
| PAYMENT_SUCCESS | PAYMENT_MALFORMED | PAYMENT_UNDERFUNDED | PAYMENT_SRC_NO_TRUST
| PAYMENT_SRC_NOT_AUTHORIZED | PAYMENT_NO_DESTINATION | PAYMENT_NO_TRUST
| PAYMENT_NOT_AUTHORIZED | PAYMENT_LINE_FULL | PAYMENT_NO_ISSUER.

Record SimplePaymentResult := mkSimplePaymentResult {
  spr_destination : AccountID; spr_asset : Asset; spr_amount : Z }.

Inductive PathPaymentResult :=
| PATH_PAYMENT_SUCCESS (offers : list ClaimOfferAtom) (last : SimplePaymentResult)
| PATH_PAYMENT_MALFORMED | PATH_PAYMENT_UNDERFUNDED | PATH_PAYMENT_SRC_NO_TRUST
| PATH_PAYMENT_SRC_NOT_AUTHORIZED | PATH_PAYMENT_NO_DESTINATION | PATH_PAYMENT_NO_TRUST
| PATH_PAYMENT_NOT_AUTHORIZED | PATH_PAYMENT_LINE_FULL
| PATH_PAYMENT_NO_ISSUER (noIssuer : Asset)
| PATH_PAYMENT_TOO_FEW_OFFERS | PATH_PAYMENT_OFFER_CROSS_SELF | PATH_PAYMENT_OVER_SENDMAX.

Inductive ManageOfferEffect :=
| MANAGE_OFFER_CREATED (offer : OfferEntry)
| MANAGE_OFFER_UPDATED (offer : OfferEntry)
| MANAGE_OFFER_DELETED.

Inductive ManageOfferResult :=
| MANAGE_OFFER_SUCCESS (offersClaimed : list ClaimOfferAtom) (offer : ManageOfferEffect)
| MANAGE_OFFER_MALFORMED | MANAGE_OFFER_SELL_NO_TRUST | MANAGE_OFFER_BUY_NO_TRUST
| MANAGE_OFFER_SELL_NOT_AUTHORIZED | MANAGE_OFFER_BUY_NOT_AUTHORIZED | MANAGE_OFFER_LINE_FULL
| MANAGE_OFFER_UNDERFUNDED | MANAGE_OFFER_CROSS_SELF | MANAGE_OFFER_SELL_NO_ISSUER
| MANAGE_OFFER_BUY_NO_ISSUER | MANAGE_OFFER_NOT_FOUND | MANAGE_OFFER_LOW_RESERVE.

Inductive SetOptionsResult :=
| SET_OPTIONS_SUCCESS | SET_OPTIONS_LOW_RESERVE | SET_OPTIONS_TOO_MANY_SIGNERS
| SET_OPTIONS_BAD_FLAGS | SET_OPTIONS_INVALID_INFLATION | SET_OPTIONS_CANT_CHANGE
| SET_OPTIONS_UNKNOWN_FLAG | SET_OPTIONS_THRESHOLD_OUT_OF_RANGE | SET_OPTIONS_BAD_SIGNER
| SET_OPTIONS_INVALID_HOME_DOMAIN.

Inductive ChangeTrustResult :=
| CHANGE_TRUST_SUCCESS | CHANGE_TRUST_MALFORMED | CHANGE_TRUST_NO_ISSUER
| CHANGE_TRUST_INVALID_LIMIT | CHANGE_TRUST_LOW_RESERVE | CHANGE_TRUST_SELF_NOT_ALLOWED.

Inductive AllowTrustResult :=
| ALLOW_TRUST_SUCCESS | ALLOW_TRUST_MALFORMED | ALLOW_TRUST_NO_TRUST_LINE
| ALLOW_TRUST_TRUST_NOT_REQUIRED | ALLOW_TRUST_CANT_REVOKE | ALLOW_TRUST_SELF_NOT_ALLOWED.

Inductive AccountMergeResult :=
| ACCOUNT_MERGE_SUCCESS (sourceAccountBalance : Z)
| ACCOUNT_MERGE_MALFORMED | ACCOUNT_MERGE_NO_ACCOUNT | ACCOUNT_MERGE_IMMUTABLE_SET
| ACCOUNT_MERGE_HAS_SUB_ENTRIES | ACCOUNT_MERGE_SEQNUM_TOO_FAR | ACCOUNT_MERGE_DEST_FULL.

Record InflationPayout := mkInflationPayout { ip_destination : AccountID; ip_amount : Z }.
Inductive InflationResult :=
| INFLATION_SUCCESS (payouts : list InflationPayout)
| INFLATION_NOT_TIME.

Inductive ManageDataResult :=
| MANAGE_DATA_SUCCESS | MANAGE_DATA_NOT_SUPPORTED_YET | MANAGE_DATA_NAME_NOT_FOUND
| MANAGE_DATA_LOW_RESERVE | MANAGE_DATA_INVALID_NAME.

Inductive BumpSequenceResult := BUMP_SEQUENCE_SUCCESS | BUMP_SEQUENCE_BAD_SEQ.

(** [OperationResult::tr()] *)
Inductive InnerResult :=
| CreateAccountRes (r : CreateAccountResult)
| PaymentRes (r : PaymentResult)
| PathPaymentRes (r : PathPaymentResult)
| ManageOfferRes (r : ManageOfferResult)
| CreatePassiveOfferRes (r : ManageOfferResult)
| SetOptionsRes (r : SetOptionsResult)
| ChangeTrustRes (r : ChangeTrustResult)
| AllowTrustRes (r : AllowTrustResult)
| AccountMergeRes (r : AccountMergeResult)
| InflationRes (r : InflationResult)
| ManageDataRes (r : ManageDataResult)
| BumpSequenceRes (r : BumpSequenceResult).

Inductive OperationResult :=
| opINNER (tr : InnerResult)
| opBAD_AUTH
| opNO_ACCOUNT
| opNOT_SUPPORTED.

(** ** The accounts of a transaction

    [TransactionFrame::loadAccount], with the caching of protocol versions
    before 8: the cached account overwrites, or brings back, the one of the
    ledger. *)

(** [mCachedAccount = ltx.getNewestVersion(LedgerEntryKey(res.current()))] *)
Definition setCached (e : option LedgerEntry) : ltm unit := fun s =>
  Ok (tt, set_st_cached e true s).
Definition rememberAccount (k : LedgerKey) : ltm unit :=
  e ← ltx_current k; setCached (Some e).
Definition forgetAccount : ltm unit := setCached None.

Definition tx_loadAccount (accountID : AccountID) : ltm (option LedgerKey) :=
  header ← ltx_loadHeader;
  cached ← gets st_cached;
  hit ← (if ledgerVersion header <? 8 then
           match cached with
           | Some e => a ← lift (get_account e);
                       mret (if acc_accountID a =? accountID then Some e else None)
           | None => mret None
           end
         else mret None);
  match hit with
  | Some e =>
      res ← loadAccount accountID;
      k ← match res with
          | Some k => _ ← ltx_set_current k e; mret k
          | None => ltx_create e
          end;
      _ ← rememberAccount k;
      mret (Some k)
  | None => loadAccount accountID
  end.

(** [TransactionFrame::loadSourceAccount] *)
Definition tx_loadSourceAccount (txSource : AccountID) : ltm (option LedgerKey) :=
  header ← ltx_loadHeader;
  res ← tx_loadAccount txSource;
  _ ← (if ledgerVersion header <? 8 then
         match res with
         | Some k => rememberAccount k
         | None => forgetAccount
         end
       else mret tt);
  mret res.

(** [OperationFrame::loadSourceAccount] *)
Definition op_loadSourceAccount (src : AccountID) : ltm (option LedgerKey) := tx_loadAccount src.

(** a flag and a result *)
Definition fail {R} (r : R) : ltm (bool * R) := mret (false, r).
Definition success {R} (r : R) : ltm (bool * R) := mret (true, r).

(** the helpers of TransactionUtils.cpp through a handle that may be empty *)
Definition readEntry {A} (h : option LedgerKey) (f : LedgerEntry -> res A) : ltm A :=
  k ← active h; e ← ltx_current k; lift (f e).
Definition updateEntry {A} (h : option LedgerKey) (f : LedgerEntry -> res (A * LedgerEntry)) : ltm A :=
  k ← active h; ltx_update k f.
Definition modifyAccount (h : option LedgerKey) (f : AccountEntry -> AccountEntry) : ltm unit :=
  updateEntry h (fun e => a ← get_account e; Ok (tt, set_le_data (ACCOUNT (f a)) e)).

(** ** CreateAccountOpFrame *)

Definition createAccount_doCheckValid (src : AccountID) (op : CreateAccountOp)
    : option CreateAccountResult :=
  if ca_startingBalance op <=? 0 then Some CREATE_ACCOUNT_MALFORMED
  else if ca_destination op =? src then Some CREATE_ACCOUNT_MALFORMED
  else None.

Definition newAccountEntry (h : LedgerHeader) (accountID balance : Z) : LedgerEntry :=
  mkLedgerEntry 0 (ACCOUNT (mkAccountEntry accountID balance
    (i64 (getStartingSequenceNumber h)) 0 None 0 "" [1; 0; 0; 0] [] None)).

Definition createAccount_doApply (src : AccountID) (op : CreateAccountOp)
    : ltm (bool * CreateAccountResult) :=
  destination ← loadAccount (ca_destination op);
  match destination with
  | None =>
      header ← ltx_loadHeader;
      if ca_startingBalance op <? getMinBalance header 0 then fail CREATE_ACCOUNT_LOW_RESERVE
      else
        doesAccountExist ←
          (if ledgerVersion header <? 8 then
             a ← ltx_loadWithoutRecord (KeyAccount src);
             mret (match a with Some _ => true | None => false end)
           else mret true);
        sourceAccount ← op_loadSourceAccount src;
        avail ← readEntry sourceAccount (getAvailableBalance header);
        if avail <? ca_startingBalance op then fail CREATE_ACCOUNT_UNDERFUNDED
        else if negb doesAccountExist then throw_msg "modifying account that does not exist"
        else
          ok ← updateEntry sourceAccount
                 (fun e => addBalance header e (i64 (- ca_startingBalance op)));
          _ ← assert_m ok;
          _ ← ltx_create (newAccountEntry header (ca_destination op) (ca_startingBalance op));
          success CREATE_ACCOUNT_SUCCESS
  | Some _ => fail CREATE_ACCOUNT_ALREADY_EXIST
  end.

(** ** SetOptionsOpFrame *)

Definition allAccountFlags : Z :=
  Z.lor AUTH_REQUIRED_FLAG (Z.lor AUTH_REVOCABLE_FLAG AUTH_IMMUTABLE_FLAG).
Definition allAccountAuthFlags : Z := allAccountFlags.
Definition UINT8_MAX : Z := 255.
Definition MAX_SIGNERS : nat := 20.
Definition SIGNER_KEY_TYPE_ED25519 : Z := 0.
Definition SIGNER_KEY_TYPE_PRE_AUTH_TX : Z := 1.
Definition SIGNER_KEY_TYPE_HASH_X : Z := 2.

(** [KeyUtils::convertKey<SignerKey>] of an account *)
Definition accountSignerKey (a : AccountID) : SignerKey := mkSignerKey SIGNER_KEY_TYPE_ED25519 a.

(** [isString32Valid]: no control character and nothing outside of ASCII *)
Definition isString32Valid (str : string) : bool :=
  forallb (fun c => let n := Z.of_nat (Ascii.nat_of_ascii c) in (32 <=? n) && (n <? 127))
    (String.list_ascii_of_string str).

Definition flag_beyond (f : option Z) (all : Z) : bool :=
  match f with Some x => negb (Z.land x (u32 (Z.lnot all)) =? 0) | None => false end.
Definition exceeds_uint8 (x : option Z) : bool :=
  match x with Some v => v >? UINT8_MAX | None => false end.

Definition setOptions_doCheckValid (src : AccountID) (op : SetOptionsOp) (ledgerVersion : Z)
    : option SetOptionsResult :=
  if flag_beyond (so_setFlags op) allAccountFlags then Some SET_OPTIONS_UNKNOWN_FLAG
  else if flag_beyond (so_clearFlags op) allAccountFlags then Some SET_OPTIONS_UNKNOWN_FLAG
  else if match so_setFlags op, so_clearFlags op with
          | Some a, Some b => negb (Z.land a b =? 0)
          | _, _ => false
          end then Some SET_OPTIONS_BAD_FLAGS
  else if exceeds_uint8 (so_masterWeight op) then Some SET_OPTIONS_THRESHOLD_OUT_OF_RANGE
  else if exceeds_uint8 (so_lowThreshold op) then Some SET_OPTIONS_THRESHOLD_OUT_OF_RANGE
  else if exceeds_uint8 (so_medThreshold op) then Some SET_OPTIONS_THRESHOLD_OUT_OF_RANGE
  else if exceeds_uint8 (so_highThreshold op) then Some SET_OPTIONS_THRESHOLD_OUT_OF_RANGE
  else if match so_signer op with
          | Some s =>
              let isSelf := bool_decide (signer_key s = accountSignerKey src) in
              let isPublicKey := sk_type (signer_key s) =? SIGNER_KEY_TYPE_ED25519 in
              isSelf || (negb isPublicKey && (ledgerVersion <? 3))
              || ((signer_weight s >? UINT8_MAX) && (ledgerVersion >? 9))
          | None => false
          end then Some SET_OPTIONS_BAD_SIGNER
  else if match so_homeDomain op with
          | Some d => negb (isString32Valid d)
          | None => false
          end then Some SET_OPTIONS_INVALID_HOME_DOMAIN
  else None.

(** [thresholds[i] = v & UINT8_MAX] when the option is present *)
Definition setThreshold (account : option LedgerKey) (i : nat) (v : option Z) : ltm unit :=
  match v with
  | Some x => modifyAccount account
                (fun a => set_acc_thresholds (<[i := Z.land x UINT8_MAX]> (acc_thresholds a)) a)
  | None => mret tt
  end.

(** the loop that deletes a signer: [kept] is before the iterator *)
Fixpoint deleteSigner (h : LedgerHeader) (account : option LedgerKey) (key : SignerKey)
    (kept rest : list Signer) : ltm unit :=
  match rest with
  | [] => mret tt
  | s :: rest' =>
      if bool_decide (signer_key s = key) then
        _ ← modifyAccount account (set_acc_signers (kept ++ rest'));
        _ ← updateEntry account (fun e => addNumEntries h e (-1));
        deleteSigner h account key kept rest'
      else deleteSigner h account key (kept ++ [s]) rest'
  end.

(** the part of [doApply] on the signer; [Some] result on failure *)
Definition applySigner (h : LedgerHeader) (account : option LedgerKey) (signer : Signer)
    : ltm (option SetOptionsResult) :=
  a ← readEntry account get_account;
  let signers := acc_signers a in
  failed ←
    (if negb (signer_weight signer =? 0) then
       if existsb (fun s => bool_decide (signer_key s = signer_key signer)) signers then
         _ ← modifyAccount account (fun a => set_acc_signers
               (map (fun s => if bool_decide (signer_key s = signer_key signer)
                              then mkSigner (signer_key s) (signer_weight signer) else s)
                    (acc_signers a)) a);
         mret None
       else if (length signers =? MAX_SIGNERS)%nat then mret (Some SET_OPTIONS_TOO_MANY_SIGNERS)
       else
         ok ← updateEntry account (fun e => addNumEntries h e 1);
         if negb ok then mret (Some SET_OPTIONS_LOW_RESERVE)
         else
           _ ← modifyAccount account (fun a => set_acc_signers (acc_signers a ++ [signer]) a);
           mret None
     else
       _ ← deleteSigner h account (signer_key signer) [] signers;
       mret None);
  match failed with
  | Some r => mret (Some r)
  | None =>
      _ ← updateEntry account (fun e => e' ← normalizeSigners e; Ok (tt, e'));
      mret None
  end.

(** [clearFlags] and [setFlags]: [None] when the flags are immutable *)
Definition changeFlags (account : option LedgerKey) (f : option Z) (g : Z -> Z -> Z) : ltm bool :=
  match f with
  | None => mret true
  | Some x =>
      immutable ← (if negb (Z.land x allAccountAuthFlags =? 0)
                   then readEntry account isImmutableAuth else mret false);
      if immutable : bool then mret false
      else
        _ ← modifyAccount account (fun a => set_acc_flags (g (acc_flags a) x) a);
        mret true
  end.

(** the changes, on the source account *)
Definition setOptions_change (src : AccountID) (op : SetOptionsOp) (header : LedgerHeader)
    (sourceAccount : option LedgerKey) : ltm (bool * SetOptionsResult) :=
  okDest ←
    match so_inflationDest op with
    | None => mret true
    | Some inflationID =>
        known ← (if negb (inflationID =? src) then
                   a ← loadAccountWithoutRecord inflationID;
                   mret (match a with Some _ => true | None => false end)
                 else mret true);
        if negb known then mret false
        else
          _ ← modifyAccount sourceAccount (set_acc_inflationDest (Some inflationID));
          mret true
    end;
  if negb okDest then fail SET_OPTIONS_INVALID_INFLATION
  else
    okClear ← changeFlags sourceAccount (so_clearFlags op) (fun fl x => Z.land fl (u32 (Z.lnot x)));
    if negb okClear then fail SET_OPTIONS_CANT_CHANGE
    else
      okSet ← changeFlags sourceAccount (so_setFlags op) Z.lor;
      if negb okSet then fail SET_OPTIONS_CANT_CHANGE
      else
        _ ← match so_homeDomain op with
            | Some d => modifyAccount sourceAccount (set_acc_homeDomain d)
            | None => mret tt
            end;
        _ ← setThreshold sourceAccount 0 (so_masterWeight op);
        _ ← setThreshold sourceAccount 1 (so_lowThreshold op);
        _ ← setThreshold sourceAccount 2 (so_medThreshold op);
        _ ← setThreshold sourceAccount 3 (so_highThreshold op);
        failed ← match so_signer op with
                 | Some s => applySigner header sourceAccount s
                 | None => mret None
                 end;
        match failed with
        | Some r => fail r
        | None => success SET_OPTIONS_SUCCESS
        end.

Definition setOptions_doApply (src : AccountID) (op : SetOptionsOp) : ltm (bool * SetOptionsResult) :=
  header ← ltx_loadHeader;
  sourceAccount ← op_loadSourceAccount src;
  _ ← readEntry sourceAccount get_account;
  setOptions_change src op header sourceAccount.

(** ** ChangeTrustOpFrame *)

Definition changeTrust_doCheckValid (op : ChangeTrustOp) (ledgerVersion : Z)
    : option ChangeTrustResult :=
  if ct_limit op <? 0 then Some CHANGE_TRUST_MALFORMED
  else if negb (isAssetValid (ct_line op)) then Some CHANGE_TRUST_MALFORMED
  else if (ledgerVersion >? 9) && is_native (ct_line op) then Some CHANGE_TRUST_MALFORMED
  else None.

Definition newTrustLineEntry (src : AccountID) (line : Asset) (limit flags : Z) : LedgerEntry :=
  mkLedgerEntry 0 (TRUSTLINE (mkTrustLineEntry src line 0 limit flags None)).

Definition changeTrust_doApply (src : AccountID) (op : ChangeTrustOp) : ltm (bool * ChangeTrustResult) :=
  header ← ltx_loadHeader;
  issuerID ← lift (getIssuer (ct_line op));
  if (ledgerVersion header >? 2) && (issuerID =? src) then fail CHANGE_TRUST_SELF_NOT_ALLOWED
  else if negb (ledgerVersion header >? 2) && (issuerID =? src) then
    if ct_limit op <? INT64_MAX then fail CHANGE_TRUST_INVALID_LIMIT
    else
      issuer ← loadAccountWithoutRecord issuerID;
      match issuer with
      | None => fail CHANGE_TRUST_NO_ISSUER
      | Some _ => success CHANGE_TRUST_SUCCESS
      end
  else
    trustLine ← ltx_load (KeyTrustLine src (ct_line op));
    match trustLine with
    | Some k =>
        minLimit ← readEntry (Some k) (getMinimumLimit header);
        if ct_limit op <? minLimit then fail CHANGE_TRUST_INVALID_LIMIT
        else if ct_limit op =? 0 then
          _ ← ltx_erase k;
          sourceAccount ← op_loadSourceAccount src;
          _ ← updateEntry sourceAccount (fun e => addNumEntries header e (-1));
          success CHANGE_TRUST_SUCCESS
        else
          issuer ← loadAccountWithoutRecord issuerID;
          match issuer with
          | None => fail CHANGE_TRUST_NO_ISSUER
          | Some _ =>
              _ ← ltx_update k (fun e => tl ← get_trustLine e;
                    Ok (tt, set_le_data (TRUSTLINE (set_tl_limit (ct_limit op) tl)) e));
              success CHANGE_TRUST_SUCCESS
          end
    | None =>
        if ct_limit op =? 0 then fail CHANGE_TRUST_INVALID_LIMIT
        else
          issuer ← loadAccountWithoutRecord issuerID;
          match issuer with
          | None => fail CHANGE_TRUST_NO_ISSUER
          | Some _ =>
              sourceAccount ← op_loadSourceAccount src;
              ok ← updateEntry sourceAccount (fun e => addNumEntries header e 1);
              if negb ok then fail CHANGE_TRUST_LOW_RESERVE
              else
                required ← readEntry issuer isAuthRequired;
                _ ← ltx_create (newTrustLineEntry src (ct_line op) (ct_limit op)
                      (if negb required then AUTHORIZED_FLAG else 0));
                success CHANGE_TRUST_SUCCESS
          end
    end.

(** ** AllowTrustOpFrame *)

(** [ci]: the asset of the source account *)
Definition allowTrustAsset (src : AccountID) (a : AllowTrustAsset) : Asset :=
  match a with
  | AllowTrustNative => AssetNative
  | AllowTrust4 c => AssetAlphaNum4 c src
  | AllowTrust12 c => AssetAlphaNum12 c src
  end.

Definition allowTrust_doCheckValid (src : AccountID) (op : AllowTrustOp) : option AllowTrustResult :=
  if is_native (allowTrustAsset src (at_asset op)) then Some ALLOW_TRUST_MALFORMED
  else if negb (isAssetValid (allowTrustAsset src (at_asset op))) then Some ALLOW_TRUST_MALFORMED
  else None.

Section AllowTrust.
Context {U : UInt128}.

(** the loop over the offers of the trustor *)
Fixpoint removeOffers (h : LedgerHeader) (trustor : AccountID) (ci : Asset)
    (offers : list LedgerKey) : ltm unit :=
  match offers with
  | [] => mret tt
  | offer :: offers' =>
      oe ← offerOf offer;
      if negb (oe_sellerID oe =? trustor) then throw_msg "Offer not owned by expected account"
      else if negb (bool_decide (oe_buying oe = ci) || bool_decide (oe_selling oe = ci))
      then throw_msg "Offer not buying or selling expected asset"
      else
        _ ← releaseLiabilities h offer;
        trustAcc ← loadAccount trustor;
        _ ← updateEntry trustAcc (fun e => addNumEntries h e (-1));
        _ ← ltx_erase offer;
        removeOffers h trustor ci offers'
  end.

Definition allowTrust_doApply (src : AccountID) (op : AllowTrustOp) : ltm (bool * AllowTrustResult) :=
  header ← ltx_loadHeader;
  if (ledgerVersion header >? 2) && (at_trustor op =? src) then fail ALLOW_TRUST_SELF_NOT_ALLOWED
  else
    failed ← nested (
      header ← ltx_loadHeader;
      sourceAccountEntry ← op_loadSourceAccount src;
      sourceAccount ← readEntry sourceAccountEntry get_account;
      mret (false,
        if Z.land (acc_flags sourceAccount) AUTH_REQUIRED_FLAG =? 0
        then Some ALLOW_TRUST_TRUST_NOT_REQUIRED
        else if (Z.land (acc_flags sourceAccount) AUTH_REVOCABLE_FLAG =? 0) && negb (at_authorize op)
        then Some ALLOW_TRUST_CANT_REVOKE
        else None));
    match failed with
    | Some r => fail r
    | None =>
        if at_trustor op =? src then success ALLOW_TRUST_SUCCESS
        else
          let ci := allowTrustAsset src (at_asset op) in
          let key := KeyTrustLine (at_trustor op) ci in
          trust ← ltx_load key;
          match trust with
          | None => fail ALLOW_TRUST_NO_TRUST_LINE
          | Some k =>
              auth ← readEntry trust isAuthorized;
              let didRevokeAuth := auth && negb (at_authorize op) in
              header ← ltx_loadHeader;
              _ ← (if (ledgerVersion header >=? 10) && didRevokeAuth then
                     offers ← ltx_loadOffersByAccountAndAsset (at_trustor op) ci;
                     removeOffers header (at_trustor op) ci offers
                   else mret tt);
              trustLineEntry ← ltx_load key;
              _ ← updateEntry trustLineEntry
                    (fun e => e' ← setAuthorized e (at_authorize op); Ok (tt, e'));
              success ALLOW_TRUST_SUCCESS
          end
    end.

End AllowTrust.

(** ** MergeOpFrame *)

Definition merge_doCheckValid (src destination : AccountID) : option AccountMergeResult :=
  if src =? destination then Some ACCOUNT_MERGE_MALFORMED else None.

(** the balance read before version 8: [inl] result on failure *)
Definition staleBalance (v : Z) (src : AccountID) : ltm (AccountMergeResult + Z) :=
  if (v >? 4) && (v <? 8) then
    thisAccount ← ltx_loadWithoutRecord (KeyAccount src);
    match thisAccount with
    | None => mret (inl ACCOUNT_MERGE_NO_ACCOUNT)
    | Some _ =>
        if v >? 5 then
          a ← readEntry thisAccount get_account;
          mret (inr (acc_balance a))
        else mret (inr 0)
    end
  else mret (inr 0).

Definition merge_doApply (src destination : AccountID) : ltm (bool * AccountMergeResult) :=
  header ← ltx_loadHeader;
  otherAccount ← loadAccount destination;
  match otherAccount with
  | None => fail ACCOUNT_MERGE_NO_ACCOUNT
  | Some _ =>
      stale ← staleBalance (ledgerVersion header) src;
      match stale with
      | inl r => fail r
      | inr sourceBalance =>
          sourceAccountEntry ← op_loadSourceAccount src;
          sourceAccount ← readEntry sourceAccountEntry get_account;
          let sourceBalance :=
            if (ledgerVersion header <=? 5) || (ledgerVersion header >=? 8)
            then acc_balance sourceAccount else sourceBalance in
          immutable ← readEntry sourceAccountEntry isImmutableAuth;
          if immutable : bool then fail ACCOUNT_MERGE_IMMUTABLE_SET
          else if negb (acc_numSubEntries sourceAccount =? Z.of_nat (length (acc_signers sourceAccount)))
          then fail ACCOUNT_MERGE_HAS_SUB_ENTRIES
          else if (ledgerVersion header >=? 10)
                  && (acc_seqNum sourceAccount >=? i64 (getStartingSequenceNumber header))
          then fail ACCOUNT_MERGE_SEQNUM_TOO_FAR
          else
            ok ← updateEntry otherAccount (fun e => addBalance header e sourceBalance);
            if negb ok then fail ACCOUNT_MERGE_DEST_FULL
            else
              k ← active sourceAccountEntry;
              _ ← ltx_erase k;
              success (ACCOUNT_MERGE_SUCCESS sourceBalance)
      end
  end.

(** ** InflationOpFrame *)

Definition INFLATION_FREQUENCY : Z := 60 * 60 * 24 * 7.
Definition INFLATION_RATE_TRILLIONTHS : Z := 190721000.
Definition TRILLION : Z := 1000000000000.
Definition INFLATION_WIN_MIN_PERCENT : Z := 500000000.
Definition INFLATION_NUM_WINNERS : nat := Z.to_nat 2000.
Definition INFLATION_START_TIME : Z := 1404172800.

Section Inflation.
Context {U : UInt128} {K : StrKeyOrder}.

(** one winner: what is left to dole and the payouts *)
Definition payWinner (w : InflationWinner) (amountToDole totalVotes : Z)
    (st : Z * list InflationPayout) : ltm (Z * list InflationPayout) :=
  let '(leftAfterDole, payouts) := st in
  toDole ← lift (bigDivide amountToDole (iw_votes w) totalVotes ROUND_DOWN);
  if toDole =? 0 then mret st
  else
    header ← ltx_loadHeader;
    toDole ←
      (if ledgerVersion header >=? 10 then
         winner ← loadAccountWithoutRecord (iw_accountID w);
         match winner with
         | Some _ =>
             m ← readEntry winner (getMaxAmountReceive header);
             mret (Z.min m toDole)
         | None => mret toDole
         end
       else mret toDole);
    if (ledgerVersion header >=? 10) && (toDole =? 0) then mret st
    else
      winner ← loadAccount (iw_accountID w);
      match winner with
      | None => mret st
      | Some k =>
          _ ← (if ledgerVersion header <=? 7
               then ltx_setHeader (fun lh => set_totalCoins (i64 (totalCoins lh + toDole)) lh)
               else mret tt);
          header ← ltx_loadHeader;
          ok ← ltx_update k (fun e => addBalance header e toDole);
          if negb ok then throw_msg "inflation overflowed destination balance"
          else mret (i64 (leftAfterDole - toDole), payouts ++ [mkInflationPayout (iw_accountID w) toDole])
      end.

Fixpoint payWinners (winners : list InflationWinner) (amountToDole totalVotes : Z)
    (st : Z * list InflationPayout) : ltm (Z * list InflationPayout) :=
  match winners with
  | [] => mret st
  | w :: winners' =>
      st' ← payWinner w amountToDole totalVotes st;
      payWinners winners' amountToDole totalVotes st'
  end.

Definition inflation_doApply : ltm (bool * InflationResult) :=
  lh ← ltx_loadHeader;
  let closeTime := i64 (sv_closeTime (scpValue lh)) in
  let inflationTime := i64 (u64 (INFLATION_START_TIME + u64 (inflationSeq lh * INFLATION_FREQUENCY))) in
  if closeTime <? inflationTime then fail INFLATION_NOT_TIME
  else
    let totalVotes := totalCoins lh in
    minBalance ← lift (bigDivide totalVotes INFLATION_WIN_MIN_PERCENT TRILLION ROUND_DOWN);
    winners ← ltx_queryInflationWinners INFLATION_NUM_WINNERS minBalance;
    inflationAmount ← lift (bigDivide (totalCoins lh) INFLATION_RATE_TRILLIONTHS TRILLION ROUND_DOWN);
    let amountToDole := i64 (inflationAmount + feePool lh) in
    _ ← ltx_setHeader (fun lh => set_inflationSeq (u32 (inflationSeq lh + 1)) (set_feePool 0 lh));
    '(leftAfterDole, payouts) ← payWinners winners amountToDole totalVotes (amountToDole, []);
    _ ← ltx_setHeader (fun lh =>
          let lh := set_feePool (i64 (feePool lh + leftAfterDole)) lh in
          if ledgerVersion lh >? 7 then set_totalCoins (i64 (totalCoins lh + inflationAmount)) lh
          else lh);
    success (INFLATION_SUCCESS payouts).

End Inflation.

(** ** ManageDataOpFrame *)

Definition manageData_doCheckValid (op : ManageDataOp) (ledgerVersion : Z) : option ManageDataResult :=
  if ledgerVersion <? 2 then Some MANAGE_DATA_NOT_SUPPORTED_YET
  else if (String.length (md_dataName op) <? 1)%nat || negb (isString32Valid (md_dataName op))
  then Some MANAGE_DATA_INVALID_NAME
  else None.

Definition manageData_doApply (src : AccountID) (op : ManageDataOp) : ltm (bool * ManageDataResult) :=
  header ← ltx_loadHeader;
  if ledgerVersion header =? 3 then throw_msg "MANAGE_DATA not supported on ledger version 3"
  else
    data ← loadData src (md_dataName op);
    match md_dataValue op with
    | Some value =>
        match data with
        | None =>
            sourceAccount ← op_loadSourceAccount src;
            ok ← updateEntry sourceAccount (fun e => addNumEntries header e 1);
            if negb ok then fail MANAGE_DATA_LOW_RESERVE
            else
              _ ← ltx_create (mkLedgerEntry 0 (DATA (mkDataEntry src (md_dataName op) value)));
              success MANAGE_DATA_SUCCESS
        | Some k =>
            _ ← ltx_update k (fun e => d ← get_data e;
                  Ok (tt, set_le_data (DATA (set_de_dataValue value d)) e));
            success MANAGE_DATA_SUCCESS
        end
    | None =>
        match data with
        | None => fail MANAGE_DATA_NAME_NOT_FOUND
        | Some k =>
            _ ← ltx_erase k;
            sourceAccount ← op_loadSourceAccount src;
            _ ← updateEntry sourceAccount (fun e => addNumEntries header e (-1));
            success MANAGE_DATA_SUCCESS
        end
    end.

(** ** BumpSequenceOpFrame *)

Definition bumpSequence_doCheckValid (op : BumpSequenceOp) : option BumpSequenceResult :=
  if bs_bumpTo op <? 0 then Some BUMP_SEQUENCE_BAD_SEQ else None.

Definition bumpSequence_doApply (src : AccountID) (op : BumpSequenceOp) : ltm (bool * BumpSequenceResult) :=
  nested (
    sourceAccountEntry ← op_loadSourceAccount src;
    sourceAccount ← readEntry sourceAccountEntry get_account;
    if bs_bumpTo op >? acc_seqNum sourceAccount then
      _ ← modifyAccount sourceAccountEntry (set_acc_seqNum (bs_bumpTo op));
      mret (true, (true, BUMP_SEQUENCE_SUCCESS))
    else mret (false, (true, BUMP_SEQUENCE_SUCCESS))).
