(* ===== verification/OfferOperations.v ===== *)
(** * Payments and offers

    The operations of src/src/transactions that exchange assets: path
    payments, payments, managing offers and passive offers. *)
From S2P Require Import Prelude Numeric Exchange LedgerEntries TransactionUtils LedgerTxn LedgerState OfferCross.
From S2P Require Import Operations.

Section OfferOperations.
Context {U : UInt128}.

(** ** PathPaymentOpFrame *)

Definition pathPayment_doCheckValid (op : PathPaymentOp) : option PathPaymentResult :=
  if (pp_destAmount op <=? 0) || (pp_sendMax op <=? 0) then Some PATH_PAYMENT_MALFORMED
  else if negb (isAssetValid (pp_sendAsset op)) || negb (isAssetValid (pp_destAsset op))
  then Some PATH_PAYMENT_MALFORMED
  else if negb (forallb isAssetValid (pp_path op)) then Some PATH_PAYMENT_MALFORMED
  else None.

(** whether the account of the issuer of an asset is missing *)
Definition issuerMissing (asset : Asset) : ltm bool :=
  id ← lift (getIssuer asset);
  issuer ← loadAccountWithoutRecord id;
  mret (match issuer with Some _ => false | None => true end).

(** the destination is paid: [Some] result on failure *)
Definition payDestination (destination : AccountID) (curB : Asset) (curBReceived : Z)
    (bypassIssuerCheck : bool) : ltm (option PathPaymentResult) :=
  if is_native curB then
    dest ← loadAccount destination;
    header ← ltx_loadHeader;
    ok ← updateEntry dest (fun e => addBalance header e curBReceived);
    mret (if ok : bool then None else Some PATH_PAYMENT_MALFORMED)
  else
    missing ← (if bypassIssuerCheck then mret false else issuerMissing curB);
    if missing : bool then mret (Some (PATH_PAYMENT_NO_ISSUER curB))
    else
      destLine ← loadTrustLine destination curB;
      if negb (tlw_bool destLine) then mret (Some PATH_PAYMENT_NO_TRUST)
      else
        auth ← tlw_isAuthorized destLine;
        if negb auth then mret (Some PATH_PAYMENT_NOT_AUTHORIZED)
        else
          header ← ltx_loadHeader;
          ok ← tlw_addBalance header destLine curBReceived;
          mret (if ok : bool then None else Some PATH_PAYMENT_LINE_FULL).

(** the filter: the offers of the source are not crossed *)
Definition pathFilter (src : AccountID) (e : LedgerEntry) (r : PathPaymentResult)
    : res (OfferFilterResult * PathPaymentResult) :=
  offer ← get_offer e;
  if oe_sellerID offer =? src then Ok (eStop, PATH_PAYMENT_OFFER_CROSS_SELF)
  else Ok (eKeep, r).

(** [offers.insert(offers.begin(), ...)] in the inner result *)
Definition addOffers (trail : list ClaimOfferAtom) (r : PathPaymentResult) : res PathPaymentResult :=
  match r with
  | PATH_PAYMENT_SUCCESS offers last => Ok (PATH_PAYMENT_SUCCESS (trail ++ offers) last)
  | _ => Throw XdrWrongUnion
  end.

(** the path backwards: [inl] result on failure, otherwise the asset and the
    amount that the source sends *)
Fixpoint walkPath (src : AccountID) (path : list Asset) (curB : Asset) (curBReceived : Z)
    (r : PathPaymentResult) : ltm (PathPaymentResult + Asset * Z * PathPaymentResult) :=
  match path with
  | [] => mret (inr (curB, curBReceived, r))
  | curA :: path' =>
      if bool_decide (curA = curB) then walkPath src path' curB curBReceived r
      else
        missing ← (if negb (is_native curA) then issuerMissing curA else mret false);
        if missing : bool then mret (inl (PATH_PAYMENT_NO_ISSUER curA))
        else
          '(cr, c) ← convertWithOffers curA INT64_MAX curB curBReceived true
                       (Some (pathFilter src)) r [];
          let curASent := cv_sheepSend c in
          let actualCurBReceived := cv_wheatReceived c in
          _ ← assert_m (0 <=? curASent);
          match cr with
          | eFilterStop => mret (inl (cv_captured c))
          | ePartial => mret (inl PATH_PAYMENT_TOO_FEW_OFFERS)
          | eOK =>
              if curBReceived =? actualCurBReceived then
                r' ← lift (addOffers (cv_trail c) (cv_captured c));
                walkPath src path' curA curASent r'
              else mret (inl PATH_PAYMENT_TOO_FEW_OFFERS)
          end
  end.

(** the source pays: [Some] result on failure *)
Definition paySource (src : AccountID) (curB : Asset) (curBSent : Z)
    (bypassIssuerCheck doesSourceAccountExist : bool) : ltm (option PathPaymentResult) :=
  if is_native curB then
    header ← ltx_loadHeader;
    sourceAccount ← (if ledgerVersion header >? 7 then loadAccount src else op_loadSourceAccount src);
    if (ledgerVersion header >? 7) && match sourceAccount with None => true | Some _ => false end
    then mret (Some PATH_PAYMENT_MALFORMED)
    else
      avail ← readEntry sourceAccount (getAvailableBalance header);
      if curBSent >? avail then mret (Some PATH_PAYMENT_UNDERFUNDED)
      else if negb doesSourceAccountExist then throw_msg "modifying account that does not exist"
      else
        ok ← updateEntry sourceAccount (fun e => addBalance header e (i64 (- curBSent)));
        _ ← assert_m ok;
        mret None
  else
    missing ← (if bypassIssuerCheck then mret false else issuerMissing curB);
    if missing : bool then mret (Some (PATH_PAYMENT_NO_ISSUER curB))
    else
      sourceLine ← loadTrustLine src curB;
      if negb (tlw_bool sourceLine) then mret (Some PATH_PAYMENT_SRC_NO_TRUST)
      else
        auth ← tlw_isAuthorized sourceLine;
        if negb auth then mret (Some PATH_PAYMENT_SRC_NOT_AUTHORIZED)
        else
          header ← ltx_loadHeader;
          ok ← tlw_addBalance header sourceLine (i64 (- curBSent));
          mret (if ok : bool then None else Some PATH_PAYMENT_UNDERFUNDED).

Definition pathPayment_doApply (src : AccountID) (op : PathPaymentOp) : ltm (bool * PathPaymentResult) :=
  let curB := pp_destAsset op in
  let fullPath := pp_sendAsset op :: pp_path op in
  bypassIssuerCheck ←
    (if negb (is_native curB) && (length fullPath =? 1)%nat
        && bool_decide (pp_sendAsset op = pp_destAsset op)
     then id ← lift (getIssuer curB); mret (id =? pp_destination op)
     else mret false);
  header ← ltx_loadHeader;
  doesSourceAccountExist ←
    (if ledgerVersion header <? 8 then
       a ← loadAccountWithoutRecord src;
       mret (match a with Some _ => true | None => false end)
     else mret true);
  noDestination ←
    (if negb bypassIssuerCheck then
       d ← loadAccountWithoutRecord (pp_destination op);
       mret (match d with Some _ => false | None => true end)
     else mret false);
  if noDestination : bool then fail PATH_PAYMENT_NO_DESTINATION
  else
    failed ← payDestination (pp_destination op) curB (pp_destAmount op) bypassIssuerCheck;
    match failed with
    | Some r => fail r
    | None =>
        let r := PATH_PAYMENT_SUCCESS []
                   (mkSimplePaymentResult (pp_destination op) curB (pp_destAmount op)) in
        walked ← walkPath src (rev fullPath) curB (pp_destAmount op) r;
        match walked with
        | inl r => fail r
        | inr (curB, curBSent, r) =>
            if curBSent >? pp_sendMax op then fail PATH_PAYMENT_OVER_SENDMAX
            else
              failed ← paySource src curB curBSent bypassIssuerCheck doesSourceAccountExist;
              match failed with
              | Some r => fail r
              | None => success r
              end
        end
    end.

(** ** PaymentOpFrame *)

Definition payment_doCheckValid (op : PaymentOp) : option PaymentResult :=
  if pay_amount op <=? 0 then Some PAYMENT_MALFORMED
  else if negb (isAssetValid (pay_asset op)) then Some PAYMENT_MALFORMED
  else None.

Definition payment_code (r : PathPaymentResult) : res PaymentResult :=
  match r with
  | PATH_PAYMENT_UNDERFUNDED => Ok PAYMENT_UNDERFUNDED
  | PATH_PAYMENT_SRC_NOT_AUTHORIZED => Ok PAYMENT_SRC_NOT_AUTHORIZED
  | PATH_PAYMENT_SRC_NO_TRUST => Ok PAYMENT_SRC_NO_TRUST
  | PATH_PAYMENT_NO_DESTINATION => Ok PAYMENT_NO_DESTINATION
  | PATH_PAYMENT_NO_TRUST => Ok PAYMENT_NO_TRUST
  | PATH_PAYMENT_NOT_AUTHORIZED => Ok PAYMENT_NOT_AUTHORIZED
  | PATH_PAYMENT_LINE_FULL => Ok PAYMENT_LINE_FULL
  | PATH_PAYMENT_NO_ISSUER _ => Ok PAYMENT_NO_ISSUER
  | _ => Throw (RuntimeError "Unexpected error code from pathPayment")
  end.

(** the path payment of a payment *)
Definition paymentPath (op : PaymentOp) : PathPaymentOp :=
  mkPathPaymentOp (pay_asset op) (pay_amount op) (pay_destination op) (pay_asset op) (pay_amount op) [].

Definition payment_doApply (src : AccountID) (op : PaymentOp) : ltm (bool * PaymentResult) :=
  header ← ltx_loadHeader;
  let instantSuccess :=
    if ledgerVersion header >? 2
    then (pay_destination op =? src) && is_native (pay_asset op)
    else pay_destination op =? src in
  if instantSuccess then success PAYMENT_SUCCESS
  else
    let ppayment := paymentPath op in
    '(ok, r) ← match pathPayment_doCheckValid ppayment with
               | Some r => fail r
               | None => pathPayment_doApply src ppayment
               end;
    if negb ok then
      c ← lift (payment_code r);
      fail c
    else
      _ ← assert_m (match r with PATH_PAYMENT_SUCCESS _ _ => true | _ => false end);
      success PAYMENT_SUCCESS.

(** ** ManageOfferOpFrame *)

Definition manageOffer_doCheckValid (op : ManageOfferOp) (ledgerVersion : Z) : option ManageOfferResult :=
  if negb (isAssetValid (mo_selling op)) || negb (isAssetValid (mo_buying op))
  then Some MANAGE_OFFER_MALFORMED
  else if compareAsset (mo_selling op) (mo_buying op) then Some MANAGE_OFFER_MALFORMED
  else if (mo_amount op <? 0) || (price_d (mo_price op) <=? 0) || (price_n (mo_price op) <=? 0)
  then Some MANAGE_OFFER_MALFORMED
  else if (ledgerVersion >? 2) && (mo_offerID op =? 0) && (mo_amount op =? 0)
  then Some MANAGE_OFFER_NOT_FOUND
  else None.

Definition buildOffer (account : AccountID) (op : ManageOfferOp) (flags : Z) : OfferEntry :=
  mkOfferEntry account (mo_offerID op) (mo_selling op) (mo_buying op) (mo_amount op) (mo_price op) flags.

(** one side of [checkOfferValid]: the trust line, then the issuer *)
Definition checkSheepLine (src : AccountID) (sheep : Asset) : ltm (option ManageOfferResult) :=
  sheepLineA ← loadTrustLine src sheep;
  id ← lift (getIssuer sheep);
  issuer ← loadAccount id;
  match issuer with
  | None => mret (Some MANAGE_OFFER_SELL_NO_ISSUER)
  | Some _ =>
      if negb (tlw_bool sheepLineA) then mret (Some MANAGE_OFFER_SELL_NO_TRUST)
      else
        balance ← tlw_getBalance sheepLineA;
        if balance =? 0 then mret (Some MANAGE_OFFER_UNDERFUNDED)
        else
          auth ← tlw_isAuthorized sheepLineA;
          mret (if auth : bool then None else Some MANAGE_OFFER_SELL_NOT_AUTHORIZED)
  end.
Definition checkWheatLine (src : AccountID) (wheat : Asset) : ltm (option ManageOfferResult) :=
  wheatLineA ← loadTrustLine src wheat;
  id ← lift (getIssuer wheat);
  issuer ← loadAccount id;
  match issuer with
  | None => mret (Some MANAGE_OFFER_BUY_NO_ISSUER)
  | Some _ =>
      if negb (tlw_bool wheatLineA) then mret (Some MANAGE_OFFER_BUY_NO_TRUST)
      else
        auth ← tlw_isAuthorized wheatLineA;
        mret (if auth : bool then None else Some MANAGE_OFFER_BUY_NOT_AUTHORIZED)
  end.

(** [Some] result on failure *)
Definition checkOfferValid (src : AccountID) (op : ManageOfferOp) : ltm (option ManageOfferResult) :=
  nested (
    if mo_amount op =? 0 then mret (false, None)
    else
      f1 ← (if negb (is_native (mo_selling op)) then checkSheepLine src (mo_selling op) else mret None);
      match f1 with
      | Some r => mret (false, Some r)
      | None =>
          f2 ← (if negb (is_native (mo_buying op)) then checkWheatLine src (mo_buying op) else mret None);
          mret (false, f2)
      end).

(** [inl] result on failure, otherwise [maxSheepSend] and [maxWheatReceive] *)
Definition computeOfferExchangeParameters (src : AccountID) (offerEntry : LedgerEntry)
    (creatingNewOffer : bool) : ltm (ManageOfferResult + Z * Z) :=
  nested (
    offer ← lift (get_offer offerEntry);
    let sheep := oe_selling offer in
    let wheat := oe_buying offer in
    header ← ltx_loadHeader;
    let ledgerVersion := ledgerVersion header in
    sourceAccount ← op_loadSourceAccount src;
    room ← (if creatingNewOffer
               && ((ledgerVersion >=? 10) || (is_native sheep && (ledgerVersion >? 8)))
            then updateEntry sourceAccount (fun e => addNumEntries header e 1) else mret true);
    if negb room then mret (false, inl MANAGE_OFFER_LOW_RESERVE)
    else
      sheepLineA ← loadTrustLineIfNotNative src sheep;
      wheatLineA ← loadTrustLineIfNotNative src wheat;
      maxWheatReceive ← canBuyAtMost header sourceAccount wheat wheatLineA;
      if ledgerVersion >=? 10 then
        availableLimit ← (if is_native wheat then readEntry sourceAccount (getMaxAmountReceive header)
                          else tlw_getMaxAmountReceive header wheatLineA);
        bl ← lift (getOfferBuyingLiabilities header offerEntry);
        if availableLimit <? bl then mret (false, inl MANAGE_OFFER_LINE_FULL)
        else
          availableBalance ← (if is_native sheep then readEntry sourceAccount (getAvailableBalance header)
                              else tlw_getAvailableBalance header sheepLineA);
          sl ← lift (getOfferSellingLiabilities header offerEntry);
          if availableBalance <? sl then mret (false, inl MANAGE_OFFER_UNDERFUNDED)
          else
            maxSheepSend ← canSellAtMost header sourceAccount sheep sheepLineA;
            mret (false, inr (Z.min (oe_amount offer) maxSheepSend, maxWheatReceive))
      else
        maxSheepCanSell ← canSellAtMost header sourceAccount sheep sheepLineA;
        '(ok, q) ← lift (bigDivide_i64 0 maxWheatReceive (price_d (oe_price offer))
                           (price_n (oe_price offer)) ROUND_DOWN);
        let maxSheepBasedOnWheat := if ok : bool then q else INT64_MAX in
        mret (false, inr (Z.min (oe_amount offer) (Z.min maxSheepCanSell maxSheepBasedOnWheat),
                          maxWheatReceive))).

Definition manageFilter (src newOfferID : Z) (passive : bool) (maxWheatPrice : Price)
    (e : LedgerEntry) (r : ManageOfferResult) : res (OfferFilterResult * ManageOfferResult) :=
  o ← get_offer e;
  _ ← assert_ (negb (oe_offerID o =? newOfferID));
  if (passive && price_geb (oe_price o) maxWheatPrice) || price_gtb (oe_price o) maxWheatPrice
  then Ok (eStop, r)
  else if oe_sellerID o =? src then Ok (eStop, MANAGE_OFFER_CROSS_SELF)
  else Ok (eKeep, r).

(** the balance of the source in [asset] after the exchange *)
Definition settleSource (h : LedgerHeader) (src : AccountID) (asset : Asset) (delta : Z) (msg : string)
    : ltm unit :=
  ok ← (if is_native asset then
          sourceAccount ← op_loadSourceAccount src;
          updateEntry sourceAccount (fun e => addBalance h e delta)
        else
          line ← loadTrustLine src asset;
          tlw_addBalance h line delta);
  if negb ok then throw_msg msg else mret tt.

(** what is left to sell, since version 10 *)
Definition remainingAmount (h : LedgerHeader) (src : AccountID) (oe : OfferEntry)
    (sheepStays : bool) : ltm Z :=
  if ledgerVersion h >=? 10 then
    if sheepStays then
      sourceAccount ← loadAccountWithoutRecord src;
      sheepLineA ← loadTrustLineWithoutRecordIfNotNative src (oe_selling oe);
      wheatLineA ← loadTrustLineWithoutRecordIfNotNative src (oe_buying oe);
      can ← canSellAtMost h sourceAccount (oe_selling oe) sheepLineA;
      let sheepSendLimit := Z.min (oe_amount oe) can in
      wheatReceiveLimit ← canBuyAtMost h sourceAccount (oe_buying oe) wheatLineA;
      lift (adjustOffer (oe_price oe) sheepSendLimit wheatReceiveLimit)
    else mret 0
  else mret (oe_amount oe).

(** the exchange with the book: [inl] result on failure, otherwise the amount
    left and the offers claimed *)
Definition exchangeWithBook (src : AccountID) (offer : OfferEntry) (passive creatingNewOffer : bool)
    (r : ManageOfferResult) : ltm (ManageOfferResult + Z * list ClaimOfferAtom) :=
  let sheep := oe_selling offer in
  let wheat := oe_buying offer in
  let maxWheatPrice := mkPrice (price_d (oe_price offer)) (price_n (oe_price offer)) in
  params ← computeOfferExchangeParameters src (mkLedgerEntry 0 (OFFER offer)) creatingNewOffer;
  match params with
  | inl f => mret (inl f)
  | inr (maxSheepSend, maxWheatReceive) =>
      if maxWheatReceive =? 0 then mret (inl MANAGE_OFFER_LINE_FULL)
      else
        '(cr, c) ← convertWithOffers sheep maxSheepSend wheat maxWheatReceive false
                     (Some (manageFilter src (oe_offerID offer) passive maxWheatPrice)) r [];
        let sheepSent := cv_sheepSend c in
        let wheatReceived := cv_wheatReceived c in
        _ ← assert_m (0 <=? sheepSent);
        let stopped := match cr, cv_captured c with
                       | eFilterStop, MANAGE_OFFER_SUCCESS _ _ => false
                       | eFilterStop, _ => true
                       | _, _ => false
                       end in
        if stopped then mret (inl (cv_captured c))
        else
          let sheepStays := match cr with eOK => false | _ => true end in
          header ← ltx_loadHeader;
          _ ← (if 0 <? wheatReceived then
                 _ ← settleSource header src wheat wheatReceived "offer claimed over limit";
                 settleSource header src sheep (i64 (- sheepSent)) "offer sold more than balance"
               else mret tt);
          amount ← remainingAmount header src
                     (set_oe_amount (i64 (maxSheepSend - sheepSent)) offer) sheepStays;
          mret (inr (amount, cv_trail c))
  end.

(** the last part of [doApply]: the offer is stored or gone *)
Definition storeOffer (src : AccountID) (offer : OfferEntry) (creatingNewOffer : bool)
    (claimed : list ClaimOfferAtom) : ltm (bool * ManageOfferResult) :=
  header ← ltx_loadHeader;
  if 0 <? oe_amount offer then
    stored ←
      (if creatingNewOffer then
         sourceAccount ← op_loadSourceAccount src;
         ok ← updateEntry sourceAccount (fun e => addNumEntries header e 1);
         if negb ok then mret None
         else
           header ← ltx_loadHeader;
           let '(id, _) := generateID header in
           _ ← ltx_setHeader (fun lh => snd (generateID lh));
           mret (Some (set_oe_offerID id offer))
       else mret (Some offer));
    match stored with
    | None => fail MANAGE_OFFER_LOW_RESERVE
    | Some o =>
        k ← ltx_create (mkLedgerEntry 0 (OFFER o));
        header ← ltx_loadHeader;
        _ ← (if ledgerVersion header >=? 10 then acquireLiabilities header k else mret tt);
        success (MANAGE_OFFER_SUCCESS claimed
          (if creatingNewOffer then MANAGE_OFFER_CREATED o else MANAGE_OFFER_UPDATED o))
    end
  else
    _ ← (if negb creatingNewOffer then
           sourceAccount ← op_loadSourceAccount src;
           _ ← updateEntry sourceAccount (fun e => addNumEntries header e (-1));
           mret tt
         else mret tt);
    success (MANAGE_OFFER_SUCCESS claimed MANAGE_OFFER_DELETED).

(** the old offer is taken out of the book: [None] if there is none,
    otherwise the new offer and the passive flag *)
Definition takeOldOffer (src : AccountID) (op : ManageOfferOp) : ltm (option (OfferEntry * bool)) :=
  sellSheepOffer ← loadOffer src (mo_offerID op);
  match sellSheepOffer with
  | None => mret None
  | Some k =>
      header ← ltx_loadHeader;
      _ ← (if ledgerVersion header >=? 10 then releaseLiabilities header k else mret tt);
      old ← offerOf k;
      let flags := oe_flags old in
      _ ← ltx_erase k;
      mret (Some (buildOffer src op flags, negb (Z.land flags PASSIVE_FLAG =? 0)))
  end.

Definition manageOffer_body (src : AccountID) (op : ManageOfferOp) (mPassive : bool)
    : ltm (bool * ManageOfferResult) :=
  invalid ← checkOfferValid src op;
  match invalid with
  | Some r => fail r
  | None =>
      let creatingNewOffer := mo_offerID op =? 0 in
      start ← (if negb creatingNewOffer then takeOldOffer src op
               else mret (Some (buildOffer src op (if mPassive then PASSIVE_FLAG else 0), mPassive)));
      match start with
      | None => fail MANAGE_OFFER_NOT_FOUND
      | Some (newOffer, passive) =>
          let r := MANAGE_OFFER_SUCCESS [] (MANAGE_OFFER_CREATED newOffer) in
          exchanged ← (if 0 <? mo_amount op then exchangeWithBook src newOffer passive creatingNewOffer r
                       else mret (inr (oe_amount newOffer, [])));
          match exchanged with
          | inl f => fail f
          | inr (amount, claimed) => storeOffer src (set_oe_amount amount newOffer) creatingNewOffer claimed
          end
      end
  end.

(** [ltx.commit()] is reached exactly when the operation succeeds *)
Definition manageOffer_doApply (src : AccountID) (op : ManageOfferOp) (mPassive : bool)
    : ltm (bool * ManageOfferResult) :=
  nested ('(ok, r) ← manageOffer_body src op mPassive; mret (ok, (ok, r))).

(** ** CreatePassiveOfferOpFrame: a new offer with the passive flag *)
Definition passiveOfferOp (op : CreatePassiveOfferOp) : ManageOfferOp :=
  mkManageOfferOp (cp_selling op) (cp_buying op) (cp_amount op) (cp_price op) 0.

End OfferOperations.

(** ** The operation frames

    [OperationFrame::makeHelper] chooses the frame; here the virtual functions
    dispatch on the body. *)
Inductive ThresholdLevel := LOW | MEDIUM | HIGH.

Definition getThresholdLevel (b : OperationBody) : ThresholdLevel :=
  match b with
  | SET_OPTIONS op =>
      match so_masterWeight op, so_lowThreshold op, so_medThreshold op, so_highThreshold op, so_signer op with
      | None, None, None, None, None => MEDIUM
      | _, _, _, _, _ => HIGH
      end
  | ALLOW_TRUST _ | INFLATION | BUMP_SEQUENCE _ => LOW
  | ACCOUNT_MERGE _ => HIGH
  | _ => MEDIUM
  end.

Definition isVersionSupported (b : OperationBody) (protocolVersion : Z) : bool :=
  match b with
  | BUMP_SEQUENCE _ => protocolVersion >=? 10
  | _ => true
  end.

Section Dispatch.
Context {U : UInt128} {K : StrKeyOrder}.

(** [Some] result when the operation is not valid; a passive offer is checked and
    applied as the MANAGE_OFFER operation that its frame makes of it, and has the
    result of one *)
Definition doCheckValid (src : AccountID) (b : OperationBody) (ledgerVersion : Z) : option InnerResult :=
  match b with
  | CREATE_ACCOUNT op => CreateAccountRes <$> createAccount_doCheckValid src op
  | PAYMENT op => PaymentRes <$> payment_doCheckValid op
  | PATH_PAYMENT op => PathPaymentRes <$> pathPayment_doCheckValid op
  | MANAGE_OFFER op => ManageOfferRes <$> manageOffer_doCheckValid op ledgerVersion
  | CREATE_PASSIVE_OFFER op =>
      ManageOfferRes <$> manageOffer_doCheckValid (passiveOfferOp op) ledgerVersion
  | SET_OPTIONS op => SetOptionsRes <$> setOptions_doCheckValid src op ledgerVersion
  | CHANGE_TRUST op => ChangeTrustRes <$> changeTrust_doCheckValid op ledgerVersion
  | ALLOW_TRUST op => AllowTrustRes <$> allowTrust_doCheckValid src op
  | ACCOUNT_MERGE d => AccountMergeRes <$> merge_doCheckValid src d
  | INFLATION => None
  | MANAGE_DATA op => ManageDataRes <$> manageData_doCheckValid op ledgerVersion
  | BUMP_SEQUENCE op => BumpSequenceRes <$> bumpSequence_doCheckValid op
  end.

Definition with_inner {R} (f : R -> InnerResult) (m : ltm (bool * R)) : ltm (bool * InnerResult) :=
  '(ok, r) ← m; mret (ok, f r).

Definition doApply (src : AccountID) (b : OperationBody) : ltm (bool * InnerResult) :=
  match b with
  | CREATE_ACCOUNT op => with_inner CreateAccountRes (createAccount_doApply src op)
  | PAYMENT op => with_inner PaymentRes (payment_doApply src op)
  | PATH_PAYMENT op => with_inner PathPaymentRes (pathPayment_doApply src op)
  | MANAGE_OFFER op => with_inner ManageOfferRes (manageOffer_doApply src op false)
  | CREATE_PASSIVE_OFFER op =>
      with_inner ManageOfferRes (manageOffer_doApply src (passiveOfferOp op) true)
  | SET_OPTIONS op => with_inner SetOptionsRes (setOptions_doApply src op)
  | CHANGE_TRUST op => with_inner ChangeTrustRes (changeTrust_doApply src op)
  | ALLOW_TRUST op => with_inner AllowTrustRes (allowTrust_doApply src op)
  | ACCOUNT_MERGE d => with_inner AccountMergeRes (merge_doApply src d)
  | INFLATION => with_inner InflationRes inflation_doApply
  | MANAGE_DATA op => with_inner ManageDataRes (manageData_doApply src op)
  | BUMP_SEQUENCE op => with_inner BumpSequenceRes (bumpSequence_doApply src op)
  end.

End Dispatch.
