(* ===== verification/Neutral.v ===== *)
(** * Computations that change neither balances nor counts

    Most writes of the program leave alone the balance of an account, the
    number of its sub-entries and of its signers.  A measure that depends on
    nothing else ([Neutral]) does not notice them; this file collects those
    writes once, for the measures of Conservation.v and SubEntries.v. *)
From S2P Require Import Prelude Numeric Exchange LedgerEntries TransactionUtils LedgerTxn OfferBook LedgerState.
From S2P Require Import LedgerLogic OfferCross Operations OfferOperations.

#[export] Hint Opaque offerOf setOfferAmount canSellAtMostBasedOnSheep canSellAtMost
  canBuyAtMost adjustOfferEntry performExchange payInNestedTxn crossOffer payOrThrow
  settleOffer crossOfferV10 callFilter convertRound convertLoop convertWithOffers setCached
  rememberAccount forgetAccount tx_loadAccount tx_loadSourceAccount op_loadSourceAccount fail
  success readEntry updateEntry modifyAccount createAccount_doApply setThreshold deleteSigner
  applySigner changeFlags setOptions_change setOptions_doApply changeTrust_doApply removeOffers
  allowTrust_doApply staleBalance merge_doApply payWinner payWinners inflation_doApply
  manageData_doApply bumpSequence_doApply issuerMissing payDestination walkPath paySource
  pathPayment_doApply payment_doApply checkSheepLine checkWheatLine checkOfferValid
  computeOfferExchangeParameters settleSource remainingAmount exchangeWithBook storeOffer
  takeOldOffer manageOffer_body manageOffer_doApply with_inner doApply : typeclass_instances.

Ltac entry_cases H :=
  repeat match type of H with
  | (if ?b then _ else _) = _ => destruct b eqn:?; try discriminate H
  | match ?x with _ => _ end = _ => destruct x eqn:?; try discriminate H
  | (_ ≫= _) = Ok _ => apply bind_ok_inv in H; destruct H as (? & ? & H)
  | (let '(_, _) := ?p in _) = _ => destruct p
  end.

Lemma get_account_ok e a : get_account e = Ok a -> le_data e = ACCOUNT a.
Proof. unfold get_account. destruct (le_data e); [by intros [= ->]|done..]. Qed.
Lemma get_trustLine_ok e t : get_trustLine e = Ok t -> le_data e = TRUSTLINE t.
Proof. unfold get_trustLine. destruct (le_data e); [done|by intros [= ->]|done..]. Qed.
Lemma get_offer_ok e o : get_offer e = Ok o -> le_data e = OFFER o.
Proof. unfold get_offer. destruct (le_data e); [done..|by intros [= ->]|done]. Qed.
Lemma get_data_ok e d : get_data e = Ok d -> le_data e = DATA d.
Proof. unfold get_data. destruct (le_data e); [done..|by intros [= ->]]. Qed.

(** ** Entries that a neutral measure cannot tell apart *)

Definition same_counts (d d' : LedgerEntryData) : Prop :=
  match d, d' with
  | ACCOUNT a, ACCOUNT a' =>
      acc_balance a' = acc_balance a /\ acc_numSubEntries a' = acc_numSubEntries a /\
      length (acc_signers a') = length (acc_signers a)
  | _, _ => True
  end.

Record alike (e e' : LedgerEntry) : Prop := {
  alike_key : LedgerEntryKey e' = LedgerEntryKey e;
  alike_counts : same_counts (le_data e) (le_data e')
}.

Class Neutral (mu : Measure) : Prop :=
  neutral : forall e e', alike e e' -> weight e' = weight e /\ (weight_ok e -> weight_ok e').

Lemma alike_refl e : alike e e.
Proof. split; [done|]. by destruct (le_data e). Qed.

Lemma alike_data e d :
  match le_data e, d with
  | ACCOUNT a, ACCOUNT a' => acc_accountID a' = acc_accountID a /\ same_counts (ACCOUNT a) (ACCOUNT a')
  | TRUSTLINE t, TRUSTLINE t' => tl_accountID t' = tl_accountID t /\ tl_asset t' = tl_asset t
  | OFFER o, OFFER o' => oe_sellerID o' = oe_sellerID o /\ oe_offerID o' = oe_offerID o
  | DATA x, DATA x' => de_accountID x' = de_accountID x /\ de_dataName x' = de_dataName x
  | _, _ => False
  end -> alike e (set_le_data d e).
Proof.
  intros H. unfold LedgerEntryKey. split; unfold LedgerEntryKey; cbn;
    destruct (le_data e), d; try done; destruct H as [H1 H2]; rewrite ?H1, ?H2; done.
Qed.

Section Neutral.
Context {mu : Measure} {N : Neutral mu}.

Lemma alike_keeps {A} (f : LedgerEntry -> res (A * LedgerEntry)) :
  (forall e a e', f e = Ok (a, e') -> alike e e') -> entry_keeps f.
Proof.
  intros H e a e' E. pose proof (H _ _ _ E) as He. destruct (neutral _ _ He). by destruct He.
Qed.

Lemma addBuying_keeps h d : entry_keeps (fun e => addBuyingLiabilities h e d).
Proof.
  apply alike_keeps. intros e b e' H. unfold addBuyingLiabilities in H. entry_cases H; injection H as <- <-;
    first [apply alike_refl|by apply alike_data; rewrite ?Heql].
Qed.

Lemma addSelling_keeps h d : entry_keeps (fun e => addSellingLiabilities h e d).
Proof.
  apply alike_keeps. intros e b e' H. unfold addSellingLiabilities in H. entry_cases H; injection H as <- <-;
    first [apply alike_refl|by apply alike_data; rewrite ?Heql].
Qed.

Lemma setAuthorized_keeps b : entry_keeps (fun e => e' ← setAuthorized e b; Ok (tt, e')).
Proof.
  apply alike_keeps. intros e a e' H. apply bind_ok_inv in H as (e1 & H & [= <- <-]). unfold setAuthorized in H.
  apply bind_ok_inv in H as (t & Ht%get_trustLine_ok & [= <-]). by apply alike_data; rewrite Ht.
Qed.

Lemma sort_signers_length l : length (foldr insert_signer [] l) = length l.
Proof.
  assert (Hi : forall x l, length (insert_signer x l) = S (length l)).
  { intros x l'. induction l' as [|y l' IH]; cbn; [done|]. case_match; cbn; lia. }
  induction l as [|x l IH]; cbn; [done|]. by rewrite Hi, IH.
Qed.

Lemma normalizeSigners_keeps : entry_keeps (fun e => e' ← normalizeSigners e; Ok (tt, e')).
Proof.
  apply alike_keeps. intros e a e' H. apply bind_ok_inv in H as (e1 & H & [= <- <-]).
  unfold normalizeSigners in H. apply bind_ok_inv in H as (acc & Ha%get_account_ok & [= <-]).
  apply alike_data. rewrite Ha. cbn. split; [done|]. split; [done|]. split; [done|]. apply sort_signers_length.
Qed.

(** ** Updates through a handle *)

#[export] Instance update_buying_keeps k h d : Keeps (ltx_update k (fun e => addBuyingLiabilities h e d)).
Proof. apply keeps_update, addBuying_keeps. Qed.
#[export] Instance update_selling_keeps k h d : Keeps (ltx_update k (fun e => addSellingLiabilities h e d)).
Proof. apply keeps_update, addSelling_keeps. Qed.
#[export] Instance update_auth_keeps k b : Keeps (ltx_update k (fun e => e' ← setAuthorized e b; Ok (tt, e'))).
Proof. apply keeps_update, setAuthorized_keeps. Qed.
#[export] Instance update_signers_keeps k : Keeps (ltx_update k (fun e => e' ← normalizeSigners e; Ok (tt, e'))).
Proof. apply keeps_update, normalizeSigners_keeps. Qed.
#[export] Instance updateEntry_keeps {A} h (f : LedgerEntry -> res (A * LedgerEntry)) :
  (forall k, Keeps (ltx_update k f)) -> Keeps (updateEntry h f).
Proof. intros H. unfold updateEntry. apply _. Qed.

Lemma modifyAccount_keeps h f :
  (forall a, acc_accountID (f a) = acc_accountID a /\ same_counts (ACCOUNT a) (ACCOUNT (f a))) ->
  Keeps (modifyAccount h f).
Proof.
  intros Hf. apply updateEntry_keeps. intros k. apply keeps_update, alike_keeps.
  intros e a e' H. apply bind_ok_inv in H as (acc & Ha%get_account_ok & [= <- <-]).
  apply alike_data. rewrite Ha. apply Hf.
Qed.

(** ** Trust lines *)

Definition line_ok (w : TrustLineWrapper) : Prop :=
  match w with TlNonIssuer k => exists a x, k = KeyTrustLine a x | _ => True end.

#[export] Instance quiet_makeTrustLine ld a x :
  (forall k, Quiet (ld k)) -> Quiet (makeTrustLine ld a x).
Proof. intros H. unfold makeTrustLine. apply _. Qed.
#[export] Instance quiet_loadTrustLine a x : Quiet (loadTrustLine a x).
Proof. unfold loadTrustLine. apply _. Qed.
#[export] Instance quiet_loadTrustLineIf a x : Quiet (loadTrustLineIfNotNative a x).
Proof. unfold loadTrustLineIfNotNative. apply _. Qed.
#[export] Instance quiet_loadTrustLineWRIf a x : Quiet (loadTrustLineWithoutRecordIfNotNative a x).
Proof. unfold loadTrustLineWithoutRecordIfNotNative, loadTrustLineWithoutRecord. apply _. Qed.
#[export] Instance quiet_tlw_read {A} w (f : LedgerEntry -> res A) i : Quiet (tlw_read w f i).
Proof. unfold tlw_read. destruct w; apply _. Qed.

Lemma makeTrustLine_line_ok ld a x w s s' :
  (forall k h s s', ld k s = Ok (h, s') -> h = Some k \/ h = None) ->
  makeTrustLine ld a x s = Ok (w, s') -> line_ok w.
Proof.
  intros Hl H. unfold makeTrustLine in H. inv_run. inv_run. destruct (negb _).
  - inv_run. match goal with E : ld _ _ = _ |- _ => apply Hl in E as [-> | ->] end; inv_run; cbn; eauto.
  - by inv_run.
Qed.

Lemma ltx_load_handle k h s s' : ltx_load k s = Ok (h, s') -> h = Some k \/ h = None.
Proof. unfold ltx_load. destruct (st_entries s !! k); intros [= <- _]; auto. Qed.
Lemma ltx_loadWR_handle k h s s' : ltx_loadWithoutRecord k s = Ok (h, s') -> h = Some k \/ h = None.
Proof. unfold ltx_loadWithoutRecord. destruct (st_entries s !! k); intros [= <- _]; auto. Qed.

Lemma loadTrustLine_line_ok a x w s s' : loadTrustLine a x s = Ok (w, s') -> line_ok w.
Proof.
  unfold loadTrustLine. destruct (is_native x); [done|].
  apply makeTrustLine_line_ok, ltx_load_handle.
Qed.
Lemma loadTrustLineIf_line_ok a x w s s' : loadTrustLineIfNotNative a x s = Ok (w, s') -> line_ok w.
Proof.
  unfold loadTrustLineIfNotNative. destruct (is_native x); [|apply loadTrustLine_line_ok].
  intros [-> _]%ltm_ret_ok. done.
Qed.

Lemma tlw_update_keeps w f : (forall k, Keeps (ltx_update k f)) -> Keeps (tlw_update w f).
Proof. intros H. destruct w; cbn [tlw_update]; apply _. Qed.
#[export] Instance tlw_buying_keeps h w d : Keeps (tlw_addBuyingLiabilities h w d).
Proof. apply tlw_update_keeps. apply _. Qed.
#[export] Instance tlw_selling_keeps h w d : Keeps (tlw_addSellingLiabilities h w d).
Proof. apply tlw_update_keeps. apply _. Qed.

Lemma run_loadTrustLine a x s0 s d (Q : TrustLineWrapper -> LState -> Prop) :
  moves s0 s d -> (forall w s', line_ok w -> moves s0 s' d -> Q w s') -> run (loadTrustLine a x) s Q.
Proof.
  intros M H w s' E. apply H; [by eapply loadTrustLine_line_ok|].
  revert E. eapply (run_keeps _ _ _ _ (fun _ s' => moves s0 s' d)); [apply _|exact M|done].
Qed.

Lemma run_loadTrustLineIf a x s0 s d (Q : TrustLineWrapper -> LState -> Prop) :
  moves s0 s d -> (forall w s', line_ok w -> moves s0 s' d -> Q w s') ->
  run (loadTrustLineIfNotNative a x) s Q.
Proof.
  intros M H w s' E. apply H; [by eapply loadTrustLineIf_line_ok|].
  revert E. eapply (run_keeps _ _ _ _ (fun _ s' => moves s0 s' d)); [apply _|exact M|done].
Qed.

(** the handle of an account *)
Definition account_handle (h : option LedgerKey) : Prop :=
  forall k, h = Some k -> exists id, k = KeyAccount id.

(** ** The liabilities of an offer *)

Section Code.
Context {U : UInt128}.

#[export] Instance acquireOrRelease_keeps h o b : Keeps (acquireOrReleaseLiabilities h o b).
Proof.
  unfold acquireOrReleaseLiabilities, loadAccountAndValidate, loadTrustAndValidate, loadAccount.
  apply _.
Qed.
#[export] Instance acquire_keeps h o : Keeps (acquireLiabilities h o).
Proof. apply acquireOrRelease_keeps. Qed.
#[export] Instance release_keeps h o : Keeps (releaseLiabilities h o).
Proof. apply acquireOrRelease_keeps. Qed.

(** ** Crossing an offer *)

#[export] Instance quiet_offerOf k : Quiet (offerOf k).
Proof. unfold offerOf. apply _. Qed.
#[export] Instance setOfferAmount_keeps k x : Keeps (setOfferAmount k x).
Proof.
  apply keeps_update, alike_keeps. intros e a e' H. apply bind_ok_inv in H as (o & Ho%get_offer_ok & [= <- <-]).
  by apply alike_data; rewrite Ho.
Qed.
#[export] Instance quiet_canSell h a x w : Quiet (canSellAtMost h a x w).
Proof. unfold canSellAtMost, tlw_isAuthorized, tlw_getAvailableBalance. apply _. Qed.
#[export] Instance quiet_canBuy h a x w : Quiet (canBuyAtMost h a x w).
Proof. unfold canBuyAtMost, tlw_getMaxAmountReceive. apply _. Qed.
#[export] Instance quiet_canSellSheep h x w p : Quiet (canSellAtMostBasedOnSheep h x w p).
Proof.
  unfold canSellAtMostBasedOnSheep, tlw_getMaxAmountReceive. apply quiet_if; [apply _|].
  apply quiet_bind; [apply _|]. intros. apply quiet_bind; [apply _|]. intros []. apply _.
Qed.
#[export] Instance quiet_performExchange h k a w1 w2 m1 m2 : Quiet (performExchange h k a w1 w2 m1 m2).
Proof.
  unfold performExchange. repeat (apply quiet_bind; [apply _|intros]).
  destruct (ExchangeResult_type _); apply _.
Qed.
#[export] Instance adjustOfferEntry_keeps h o a x1 w1 x2 w2 :
  Keeps (adjustOfferEntry h o a x1 w1 x2 w2).
Proof. unfold adjustOfferEntry. apply _. Qed.

#[export] Instance quiet_callFilter {R} (filter : option (LedgerEntry -> R -> res (OfferFilterResult * R))) k (x : R) : Quiet (callFilter filter k x).
Proof. unfold callFilter. destruct filter; apply _. Qed.


End Code.

#[export] Instance quiet_loadAccount a : Quiet (loadAccount a).
Proof. apply quiet_load. Qed.
#[export] Instance quiet_loadAccountWR a : Quiet (loadAccountWithoutRecord a).
Proof. apply quiet_loadWithoutRecord. Qed.

Lemma run_loadAccount a s0 s d (Q : option LedgerKey -> LState -> Prop) :
  moves s0 s d -> (forall o s', account_handle o -> (o = Some (KeyAccount a) \/ o = None) -> moves s0 s' d -> Q o s') ->
  run (loadAccount a) s Q.
Proof.
  intros M H. eapply run_load; [exact M|]. intros o s' Ho. apply H; [|done].
  intros k Hk. destruct Ho as [->| ->]; [|done]. injection Hk as <-. eauto.
Qed.

Lemma run_offerOf k s (Q : OfferEntry -> LState -> Prop) :
  (forall e o, st_entries s !! k = Some e -> le_data e = OFFER o -> Q o s) -> run (offerOf k) s Q.
Proof.
  intros H. unfold offerOf. apply run_bind. intros e s' E. unfold ltx_current in E.
  destruct (st_entries s !! k) as [e1|] eqn:Ek; [|done]. injection E as <- <-.
  apply run_lift. intros o Ho%get_offer_ok. by eapply H.
Qed.

(** ** Loading the source account *)

Lemma tx_loadAccount_plain id s : good s -> tx_loadAccount id s = loadAccount id s.
Proof.
  intros G. pose proof (good_version _ G). unfold tx_loadAccount, ltx_loadHeader, gets, mbind, ltm_bind.
  rewrite (proj2 (Z.ltb_ge _ _)) by lia. done.
Qed.

#[export] Instance keeps_opLoad src : Keeps (op_loadSourceAccount src).
Proof.
  intros s a s' G E. unfold op_loadSourceAccount in E. rewrite tx_loadAccount_plain in E by done.
  revert E. by eapply keeps.
Qed.

Lemma run_opLoad a s0 s d (Q : option LedgerKey -> LState -> Prop) :
  moves s0 s d ->
  (forall o s', (o = Some (KeyAccount a) \/ o = None) -> st_entries s' = st_entries s -> moves s0 s' d -> Q o s') ->
  run (op_loadSourceAccount a) s Q.
Proof.
  intros M H o s' E. unfold op_loadSourceAccount in E. rewrite tx_loadAccount_plain in E by (by destruct M).
  pose proof (quiet _ _ _ E) as Hq. apply H; [|by destruct Hq|].
  - by eapply ltx_load_handle.
  - eapply moves_eq; [|eapply moves_trans; [exact M|apply same_moves; [by destruct M|done]]]. lia.
Qed.

Lemma run_txLoadSource a s0 s d (Q : option LedgerKey -> LState -> Prop) :
  moves s0 s d ->
  (forall o s', (o = Some (KeyAccount a) \/ o = None) -> st_entries s' = st_entries s -> moves s0 s' d -> Q o s') ->
  run (tx_loadSourceAccount a) s Q.
Proof.
  intros M HQ. pose proof (good_version _ (moves_good _ _ _ M)) as Hv.
  unfold tx_loadSourceAccount. apply run_bind, run_header. apply run_bind.
  eapply (run_opLoad a s0 s d); [exact M|]. intros o s1 Ho Es M1.
  rewrite (proj2 (Z.ltb_ge _ _)) by exact Hv. apply run_bind, run_ret, run_ret. by apply HQ.
Qed.

#[export] Instance keeps_txLoadSource a : Keeps (tx_loadSourceAccount a).
Proof. apply keeps_run. intros s G M. eapply run_txLoadSource; [exact M|]. auto. Qed.

#[export] Instance quiet_readEntry {A} h (f : LedgerEntry -> res A) : Quiet (readEntry h f).
Proof. unfold readEntry. apply _. Qed.

(** reading an account *)
Lemma run_readAccount h s (Q : AccountEntry -> LState -> Prop) :
  (forall k e a, h = Some k -> st_entries s !! k = Some e -> le_data e = ACCOUNT a -> Q a s) ->
  run (readEntry h get_account) s Q.
Proof.
  intros H. unfold readEntry. apply run_bind, run_active. intros k ->. apply run_bind.
  intros e s' E. unfold ltx_current in E. destruct (st_entries s !! k) as [e1|] eqn:Ek; [|done].
  injection E as <- <-. apply run_lift. intros a Ha%get_account_ok. by eapply H.
Qed.

(** [fail] and [success] only return *)
#[export] Instance quiet_fail {R} (r : R) : Quiet (fail r).
Proof. apply quiet_ret. Qed.
#[export] Instance quiet_success {R} (r : R) : Quiet (success r).
Proof. apply quiet_ret. Qed.

Lemma run_fail {R} (r : R) s (Q : bool * R -> LState -> Prop) : Q (false, r) s -> run (fail r) s Q.
Proof. apply run_ret. Qed.
Lemma run_success {R} (r : R) s (Q : bool * R -> LState -> Prop) : Q (true, r) s -> run (success r) s Q.
Proof. apply run_ret. Qed.

(** ** Parts of the operations *)

Ltac account_fields := apply modifyAccount_keeps; intros; repeat split; reflexivity.

#[export] Instance keeps_setThreshold h i v : Keeps (setThreshold h i v).
Proof. unfold setThreshold. destruct v; [account_fields|apply _]. Qed.
#[export] Instance keeps_changeFlags h f g : Keeps (changeFlags h f g).
Proof.
  unfold changeFlags. destruct f; [|apply _]. apply keeps_bind; [apply _|]. intros []; [apply _|].
  apply keeps_bind; [account_fields|apply _].
Qed.

#[export] Instance keeps_setLimit k l :
  Keeps (ltx_update k (fun e => tl ← get_trustLine e; Ok (tt, set_le_data (TRUSTLINE (set_tl_limit l tl)) e))).
Proof.
  apply keeps_update, alike_keeps. intros e a e' H. apply bind_ok_inv in H as (t & Ht%get_trustLine_ok & [= <- <-]).
  by apply alike_data; rewrite Ht.
Qed.
#[export] Instance keeps_setData k v :
  Keeps (ltx_update k (fun e => d ← get_data e; Ok (tt, set_le_data (DATA (set_de_dataValue v d)) e))).
Proof.
  apply keeps_update, alike_keeps. intros e a e' H. apply bind_ok_inv in H as (t & Ht%get_data_ok & [= <- <-]).
  by apply alike_data; rewrite Ht.
Qed.

(** a computation that loads a key and goes on with the handle *)
Lemma keeps_load_bind {A} k (f : option LedgerKey -> ltm A) :
  Keeps (f (Some k)) -> Keeps (f None) -> Keeps (ltx_load k ≫= f).
Proof.
  intros H1 H2. apply keeps_run. intros s G M. apply run_bind. eapply run_load; [exact M|].
  intros o s' Ho M'. destruct Ho as [->| ->]; eapply run_keeps; try exact M'; try done; auto.
Qed.

Lemma keeps_opLoad_bind {A} i (f : option LedgerKey -> ltm A) :
  Keeps (f (Some (KeyAccount i))) -> Keeps (f None) -> Keeps (op_loadSourceAccount i ≫= f).
Proof.
  intros H1 H2. apply keeps_run. intros s G M. apply run_bind. eapply run_opLoad; [exact M|].
  intros o s' Ho _ M'. destruct Ho as [->| ->]; eapply run_keeps; try exact M'; try done; auto.
Qed.

#[export] Instance keeps_setOptions src op :
  (forall h x, Keeps (applySigner h (Some (KeyAccount src)) x)) ->
  (forall h x, Keeps (applySigner h None x)) -> Keeps (setOptions_doApply src op).
Proof.
  intros H1 H2. unfold setOptions_doApply. apply keeps_bind; [apply _|]. intros h.
  assert (Hr : forall acc, (forall x, Keeps (applySigner h acc x)) -> Keeps (
    _ ← readEntry acc get_account; setOptions_change src op h acc)).
  { intros acc Ha. apply keeps_bind; [apply _|]. intros _. unfold setOptions_change. apply keeps_bind.
    { destruct (so_inflationDest op); [|apply _]. apply keeps_bind; [apply _|]. intros b.
      apply keeps_if; [apply _|]. apply keeps_bind; [account_fields|apply _]. }
    intros b. apply keeps_if; [apply _|].
    do 2 (apply keeps_bind; [apply _|]; intros ?; apply keeps_if; [apply _|]).
    apply keeps_bind; [destruct (so_homeDomain op); [account_fields|apply _]|]. apply _. }
  by apply keeps_opLoad_bind; apply Hr.
Qed.

#[export] Instance keeps_bumpSequence src op : Keeps (bumpSequence_doApply src op).
Proof.
  unfold bumpSequence_doApply. apply keeps_nested. do 2 (apply keeps_bind; [apply _|intros]).
  apply keeps_if; [|apply _]. apply keeps_bind; [account_fields|apply _].
Qed.

Section Offers.
Context {U : UInt128}.

#[export] Instance quiet_issuerMissing x : Quiet (issuerMissing x).
Proof. unfold issuerMissing. apply _. Qed.
#[export] Instance quiet_isAuthorized w : Quiet (tlw_isAuthorized w).
Proof. apply quiet_tlw_read. Qed.

#[export] Instance quiet_getBalance w : Quiet (tlw_getBalance w).
Proof. apply quiet_tlw_read. Qed.
#[export] Instance quiet_getAvailable h w : Quiet (tlw_getAvailableBalance h w).
Proof. apply quiet_tlw_read. Qed.
#[export] Instance quiet_getMaxReceive h w : Quiet (tlw_getMaxAmountReceive h w).
Proof. apply quiet_tlw_read. Qed.
#[export] Instance quiet_checkSheepLine a x : Quiet (checkSheepLine a x).
Proof. unfold checkSheepLine. apply _. Qed.
#[export] Instance quiet_checkWheatLine a x : Quiet (checkWheatLine a x).
Proof. unfold checkWheatLine. apply _. Qed.
#[export] Instance quiet_checkOfferValid a op : Quiet (checkOfferValid a op).
Proof. unfold checkOfferValid. apply _. Qed.
(** the transaction of [computeOfferExchangeParameters] is never committed *)
#[export] Instance quiet_computeParams a e b : Quiet (computeOfferExchangeParameters a e b).
Proof. never_commits. Qed.
#[export] Instance quiet_remainingAmount h a o b : Quiet (remainingAmount h a o b).
Proof. unfold remainingAmount. apply _. Qed.

End Offers.
End Neutral.
