(* ===== verification/Conservation.v ===== *)
(** * No operation creates or destroys native coins

    The balances of the accounts, the fee pool and the total of the header
    under the operations of Operations.v and OfferOperations.v, for every
    protocol version since 8.  Invariants.v adds the checker of
    src/src/invariant/ConservationOfLumens.cpp, what the program itself
    verifies after each operation. *)
From S2P Require Import Prelude Numeric Exchange LedgerEntries TransactionUtils LedgerTxn OfferBook LedgerState.
From S2P Require Import LedgerLogic OfferCross Operations OfferOperations Neutral.

(** ** Native coins *)

Definition native (e : LedgerEntry) : Z :=
  match le_data e with ACCOUNT a => acc_balance a | _ => 0 end.

(** the balances are 64-bit integers *)
Definition coin_measure : Measure := {| weight := native; weight_ok e := is_i64 (native e) |}.
#[local] Existing Instance coin_measure.

(** the sum of the balances of all accounts *)
Definition coins (s : LState) : Z := total s.

#[export] Instance coin_neutral : Neutral coin_measure.
Proof.
  intros e e' [Hk Hc]. cbn. unfold native, LedgerEntryKey, same_counts in *.
  destruct (le_data e), (le_data e'); try done. by destruct Hc as [-> _].
Qed.

(** a function that keeps the key and the balance *)
Lemma native_keeps {A} (f : LedgerEntry -> res (A * LedgerEntry)) :
  (forall e a e', f e = Ok (a, e') -> LedgerEntryKey e' = LedgerEntryKey e /\ native e' = native e) ->
  entry_keeps f.
Proof. intros H e a e' E. destruct (H _ _ _ E) as [-> Hn]. cbn. by rewrite Hn. Qed.

(** ** Updates of one entry *)

(** a function that rewrites an account and keeps its id and balance *)
Lemma account_keeps {A} (f : LedgerEntry -> res (A * LedgerEntry)) :
  (forall e a e', f e = Ok (a, e') -> exists acc acc', le_data e = ACCOUNT acc /\
     (e' = e \/ e' = set_le_data (ACCOUNT acc') e) /\
     acc_accountID acc' = acc_accountID acc /\ acc_balance acc' = acc_balance acc) ->
  entry_keeps f.
Proof.
  intros Hf. apply native_keeps. intros e a e' H. destruct (Hf _ _ _ H) as (acc & acc' & He & [->| ->] & Hi & Hb); [done|].
  unfold LedgerEntryKey, native, set_le_data. cbn. by rewrite He, Hi, Hb.
Qed.

Lemma addNumEntries_keeps h c : entry_keeps (fun e => addNumEntries h e c).
Proof.
  apply account_keeps. intros e b e' H. unfold addNumEntries in H.
  apply bind_ok_inv in H as (acc & Ha & H). apply get_account_ok in Ha.
  exists acc, (set_acc_numSubEntries (u32 (i32 (u32 (acc_numSubEntries acc + c)))) acc).
  split; [done|]. split; [|done].
  entry_cases H; injection H as <- <-; auto.
Qed.

(** [addBalance]: a refused change leaves the entry alone, an accepted one is
    exact *)
Lemma addBalance_i64_exact b d m ok b' :
  is_i64 b -> is_i64 m -> is_i64 d -> addBalance_i64 b d m = Ok (ok, b') ->
  is_i64 b' /\ b' = (if ok then b + d else b).
Proof.
  intros Hb Hm Hd H.
  assert (0 <= b /\ 0 <= m) as [Hb0 Hm0].
  { unfold addBalance_i64 in H. destruct (b >=? 0) eqn:E1; [|done]. destruct (m >=? 0) eqn:E2; [|done]. zb. lia. }
  rewrite addBalance_i64_spec in H by zlia. injection H as H.
  destruct (_ || _) eqn:E; injection H as <- <-; [|done]. split; [|done].
  apply orb_true_iff in E as [E|E]; zb; zlia.
Qed.

Lemma addBalance_native h e d ok e' :
  is_i64 (native e) -> is_i64 d -> addBalance h e d = Ok (ok, e') ->
  LedgerEntryKey e' = LedgerEntryKey e /\ is_i64 (native e') /\
  native e' = native e + (match le_data e with ACCOUNT _ => if ok then d else 0 | _ => 0 end).
Proof.
  intros Hr Hd H. unfold addBalance in H. destruct (le_data e) as [acc|tl| |] eqn:E; try done.
  - destruct (Z.eqb_spec d 0) as [->|Hd0].
    { injection H as <- <-. split; [done|]. split; [done|]. lia. }
    apply bind_ok_inv in H as ([ok1 nb] & Hn & H).
    unfold native in Hr |- *. rewrite E in Hr |- *.
    apply addBalance_i64_exact in Hn as [Hn1 Hn2]; [|done|zlia|done].
    destruct ok1; cbn [negb] in H.
    + assert (e' = set_le_data (ACCOUNT (set_acc_balance nb acc)) e /\ ok = true \/ e' = e /\ ok = false) as [[-> ->]|[-> ->]].
      { entry_cases H; injection H as <- <-; auto. }
      * unfold LedgerEntryKey. cbn. rewrite E. split; [done|]. split; [done|]. lia.
      * rewrite E. split; [done|]. split; [done|]. lia.
    + injection H as <- <-. rewrite E. split; [done|]. split; [done|]. lia.
  - assert (e' = e \/ exists t, le_data e' = TRUSTLINE t /\ tl_accountID t = tl_accountID tl /\ tl_asset t = tl_asset tl) as [->|(t & Et & H1 & H2)].
    { entry_cases H; injection H as <- <-; auto; right; eexists; cbn; eauto. }
    + split; [done|]. split; [done|]. lia.
    + unfold LedgerEntryKey, native. rewrite E, Et, H1, H2. split; [done|]. split; [zlia|done].
Qed.

(** ** Updates through a handle *)

#[export] Instance update_count_keeps k h c : Keeps (ltx_update k (fun e => addNumEntries h e c)).
Proof. apply keeps_update, addNumEntries_keeps. Qed.

Lemma modifyBalance_keeps h f :
  (forall a, acc_accountID (f a) = acc_accountID a /\ acc_balance (f a) = acc_balance a) ->
  Keeps (modifyAccount h f).
Proof.
  intros Hf. apply updateEntry_keeps. intros k. apply keeps_update, account_keeps.
  intros e a e' H. apply bind_ok_inv in H as (acc & Ha%get_account_ok & [= <- <-]).
  exists acc, (f acc). destruct (Hf acc). auto.
Qed.

(** an amount of an asset counts when the asset is native *)
Definition if_native (a : Asset) (x : Z) : Z := if is_native a then x else 0.

Lemma pay_entry k h d ok s s' :
  good s -> is_i64 d -> ltx_update k (fun e => addBalance h e d) s = Ok (ok, s') ->
  moves s s' (match k with KeyAccount _ => if ok then d else 0 | _ => 0 end).
Proof.
  intros G Hd H. destruct (update_moves _ _ _ _ _ G H) as (e & e' & _ & Hk & Hr & Hf & M).
  - intros e a e' _ Hr E. by destruct (addBalance_native h e d a e' Hr Hd E) as (? & ? & _).
  - destruct (addBalance_native h e d ok e' Hr Hd Hf) as (_ & _ & Hn).
    eapply moves_eq; [|exact M]. cbn [weight coin_measure]. rewrite Hn. unfold LedgerEntryKey in Hk.
    destruct (le_data e); subst k; lia.
Qed.

Lemma tlw_addBalance_moves h w d ok s s' :
  good s -> is_i64 d -> line_ok w -> tlw_addBalance h w d s = Ok (ok, s') -> moves s s' 0.
Proof.
  intros G Hd Hw H. destruct w as [|k|]; cbn in H; [done| |].
  - destruct Hw as (a & x & ->). by eapply (pay_entry _ _ _ _ _ _ G Hd) in H.
  - apply ltm_ret_ok in H as [_ ->]. by apply moves_refl.
Qed.

(** ** The liabilities of an offer *)

Section Code.
Context {U : UInt128}.

(** ** Crossing an offer *)

(** an entry other than an account is erased *)
Lemma run_erase_other k s0 s d (Q : unit -> LState -> Prop) :
  moves s0 s d -> match k with KeyAccount _ => False | _ => True end ->
  (forall s', moves s0 s' d -> Q tt s') -> run (ltx_erase k) s Q.
Proof.
  intros M Hk H. eapply run_erase; [exact M|]. intros e s' _ Ke M'. apply H. eapply moves_eq; [|exact M'].
  cbn. unfold LedgerEntryKey, native in *. destruct (le_data e); [|lia..]. by subst k.
Qed.

#[export] Instance settleOffer_keeps a o r : Keeps (settleOffer a o r).
Proof.
  apply keeps_nested, keeps_run. intros s G M.
  rstep. apply run_bind. eapply run_load; [exact M|]. intros h s1 Hh M1. clear M. rstep. subst h.
  destruct Hh as [[= ->]|]; [|done]. rif.
  - apply run_bind. apply run_bind.
    eapply run_erase_other; [exact M1|done|]. intros s2 M. clear M1. unfold loadAccount. by repeat rstep.
  - by repeat rstep.
Qed.

(** money paid to or from an account or a line *)
Lemma run_pay k h x s0 s d (Q : bool -> LState -> Prop) :
  moves s0 s d -> is_i64 x ->
  (forall (ok : bool) s', moves s0 s' (d + match k with KeyAccount _ => if ok then x else 0 | _ => 0 end) -> Q ok s') ->
  run (ltx_update k (fun e => addBalance h e x)) s Q.
Proof.
  intros M Hx H ok s' E. apply H. eapply moves_trans; [exact M|].
  eapply pay_entry; [by destruct M|done|exact E].
Qed.

Lemma run_line_pay w h x s0 s d (Q : bool -> LState -> Prop) :
  moves s0 s d -> is_i64 x -> line_ok w ->
  (forall ok s', moves s0 s' d -> Q ok s') -> run (tlw_addBalance h w x) s Q.
Proof.
  intros M Hx Hw H ok s' E. apply H. eapply moves_eq; [|eapply moves_trans; [exact M|]].
  2: eapply tlw_addBalance_moves; [by destruct M|exact Hx|exact Hw|exact E]. lia.
Qed.

Lemma run_payOrThrow h acc w x delta msg s0 s d (Q : unit -> LState -> Prop) :
  moves s0 s d -> is_i64 delta -> line_ok w -> account_handle acc ->
  (forall s', moves s0 s' (d + if_native x delta) -> Q tt s') ->
  run (payOrThrow h acc w x delta msg) s Q.
Proof.
  intros M Hx Hw Ha H. unfold payOrThrow, if_native in *. apply run_bind. destruct (is_native x).
  - apply run_bind. apply run_active. intros k Hk. destruct (Ha k Hk) as [id ->].
    eapply run_pay; [exact M|done|]. intros ok s' M'. destruct ok; [by apply run_ret, H|apply run_throw].
  - eapply run_line_pay; [exact M|done|done|]. intros ok s' M'.
    destruct ok; [|apply run_throw]. apply run_ret, H. eapply moves_eq; [|exact M']. lia.
Qed.

(** ** The results of an exchange fit into 64 bits *)

Lemma exchangeV10_typed p mws mwr mss msr path r :
  exchangeV10 p mws mwr mss msr path = Ok r ->
  0 <= numWheatReceived r /\ 0 <= numSheepSend r /\
  ((numWheatReceived r = 0 /\ numSheepSend r = 0) \/
   (0 < numWheatReceived r <= mwr /\ 0 < numSheepSend r <= mss)).
Proof.
  unfold exchangeV10. intros (b & Hb & H)%bind_ok_inv.
  unfold applyPriceErrorThresholds in H. apply bind_ok_inv in H as ([w sh] & H & [= <-]). cbn.
  destruct (_ && _) eqn:E; [|injection H as <- <-; lia].
  assert (Hws : (w, sh) = (numWheatReceived b, numSheepSend b) \/ (w, sh) = (0, 0)).
  { entry_cases H; injection H; repeat case_match; intros; simplify_eq; auto. }
  destruct Hws as [Hws|Hws]; injection Hws as -> ->; [|lia].
  unfold exchangeV10WithoutPriceErrorThresholds in Hb. entry_cases Hb.
  injection Hb as <-. cbn in *. zb. lia.
Qed.

(** ** Crossing one offer *)

Lemma account_handle_none : account_handle None.
Proof. by intros k. Qed.

Lemma if_native_0 a : if_native a 0 = 0.
Proof. unfold if_native. by destruct (is_native a). Qed.

(** what the seller gets and gives *)
Definition exchanged (o : OfferEntry) (w sh : Z) : Z :=
  if_native (oe_buying o) sh - if_native (oe_selling o) w.

(** the exchanged amounts: within the limits, and both zero or both positive *)
Definition amounts_ok (mwr mss w sh : Z) : Prop :=
  (w = 0 /\ sh = 0) \/ (0 < w <= mwr /\ 0 < sh <= mss).

Lemma run_pay_if h acc w x (n delta : Z) msg s0 s d (Q : unit -> LState -> Prop) :
  moves s0 s d -> is_i64 delta -> line_ok w -> account_handle acc -> (n = 0 -> delta = 0) ->
  (forall s', moves s0 s' (d + if_native x delta) -> Q tt s') ->
  run (if negb (n =? 0) then payOrThrow h acc w x delta msg else mret tt) s Q.
Proof.
  intros M Hd Hw Ha H0 H. rif.
  - by eapply run_payOrThrow.
  - apply negb_false_iff, Z.eqb_eq, H0 in Heqb. subst delta. apply run_ret, H.
    rewrite if_native_0. by rewrite Z.add_0_r.
Qed.

Lemma run_crossOfferV10 k mwr mss path trail s0 s d e o
    (Q : CrossOfferResult * Z * Z * bool * list ClaimOfferAtom -> LState -> Prop) :
  moves s0 s d -> is_i64 mwr -> is_i64 mss ->
  st_entries s !! k = Some e -> le_data e = OFFER o ->
  (forall cor w sh stays trail' s', amounts_ok mwr mss w sh ->
     moves s0 s' (d + exchanged o w sh) -> Q (cor, w, sh, stays, trail') s') ->
  run (crossOfferV10 k mwr mss path trail) s Q.
Proof.
  intros M Hw Hs Ek Eo H. unfold crossOfferV10. do 3 rstep.
  apply run_bind, run_offerOf. intros e' o' Ek' Eo'. rewrite Ek in Ek'. injection Ek' as <-.
  rewrite Eo in Eo'. injection Eo' as <-. clear Ek Eo.
  rstep. rif; [|apply run_throw]. rstep.
  apply run_bind.
  assert (Hacc : forall (Q : option LedgerKey -> LState -> Prop),
    (forall h s', account_handle h -> moves s0 s' d -> Q h s') ->
    run (if is_native (oe_selling o) || is_native (oe_buying o)
         then loadAccount (oe_sellerID o) else mret None) s2 Q).
  { intros Q' HQ. rif; [|by apply run_ret, HQ]. eapply run_loadAccount; [exact M|]. auto. }
  apply Hacc. clear Hacc M. intros acc s3 Ha M.
  apply run_bind. eapply run_loadTrustLineIf; [exact M|]. clear M. intros shl s4 Hshl M.
  apply run_bind. eapply run_loadTrustLineIf; [exact M|]. clear M. intros whl s5 Hwhl M.
  do 4 rstep. apply run_bind, run_lift. intros r Hr.
  destruct (exchangeV10_typed _ _ _ _ _ _ _ Hr) as (Hw0 & Hs0 & Hws).
  apply run_bind. eapply run_pay_if; [exact M|zlia|done|done|done|]. clear M. intros s10 M.
  apply run_bind. eapply run_pay_if; [exact M|apply i64_range|done|done|by intros ->|]. clear M. intros s11 M.
  assert (Hend : forall cor s', moves s0 s' (d + if_native (oe_buying o) (numSheepSend r)
      + if_native (oe_selling o) (i64 (- numWheatReceived r))) ->
    Q (cor, numWheatReceived r, numSheepSend r, wheatStays r, trail ++
      [mkClaimOfferAtom (oe_sellerID o) (oe_offerID o) (oe_selling o) (numWheatReceived r)
         (oe_buying o) (numSheepSend r)]) s').
  { intros cor s' M'. apply H; [unfold amounts_ok; tauto|]. eapply moves_eq; [|exact M'].
    unfold exchanged, if_native. rewrite i64_id by zlia. destruct (is_native _), (is_native _); lia. }
  apply run_bind. rif; repeat rstep; by apply Hend.
Qed.

(** ** Crossing one offer before version 10 *)

Lemma bigDivide_i64_typed A B C rd ok q :
  bigDivide_i64 0 A B C rd = Ok (ok, q) -> 0 <= A /\ (ok = true -> is_amount q).
Proof.
  unfold bigDivide_i64. intros (u & Ha%assert_ok_inv & H)%bind_ok_inv. zb.
  split; [lia|]. intros ->.
  assert (Hq : forall x, u64 x <= INT64_MAX -> is_amount (i64 (u64 x))).
  { intros x Hx. pose proof (u64_range x). rewrite i64_id by zlia. zlia. }
  unfold bigDivide_u64 in H. destruct (negb _); [|done]. injection H as H <-. zb. by apply Hq.
Qed.

Lemma exchange_legacy_typed v w p mwr mss r :
  is_i64 mwr -> is_i64 mss ->
  (if v <? 3 then exchangeV2 w p mwr mss else exchangeV3 w p mwr mss) = Ok r ->
  is_amount (er_numWheatReceived r) /\ is_amount (er_numSheepSend r).
Proof.
  intros Hmw Hms H. destruct (v <? 3).
  - unfold exchangeV2 in H. apply bind_ok_inv in H as ([ok q] & H1 & H).
    apply bind_ok_inv in H as (w' & H2 & [= <-]). cbn.
    unfold bigDivide in H2. apply bind_ok_inv in H2 as ([ok2 q2] & H2 & H3).
    apply bigDivide_i64_typed in H1 as [_ H1], H2 as [H2 H4].
    destruct ok2; [|done]. injection H3 as <-. split; [by apply H4|]. destruct ok; zlia.
  - unfold exchangeV3 in H. apply bind_ok_inv in H as ([ok q] & H1 & H).
    destruct (if ok then _ else _) as [red sh]. apply bind_ok_inv in H as ([ok2 q2] & H2 & [= <-]). cbn.
    apply bigDivide_i64_typed in H1 as [H1 H1'], H2 as [H2 H4].
    split; [destruct ok2; [specialize (H4 eq_refl)|]; zlia|]. zlia.
Qed.

Lemma run_payInNestedTxn a x delta s0 s d (Q : bool -> LState -> Prop) :
  moves s0 s d -> is_i64 delta ->
  (forall ok s', moves s0 s' (if ok : bool then d + if_native x delta else d) -> Q ok s') ->
  run (payInNestedTxn a x delta) s Q.
Proof.
  intros M Hd H. unfold payInNestedTxn. eapply run_nested; [exact M|]. clear M. intros s1 M. rstep.
  apply run_bind. unfold if_native in H. destruct (is_native x).
  - apply run_bind. eapply run_loadAccount; [exact M|]. clear M. intros h s2 _ Hh M. rstep. subst h.
    destruct Hh as [[= ->]|]; [|done]. eapply run_pay; [exact M|done|]. intros ok s3 M'.
    apply run_ret. cbn. split; [intros ->; eexists; split; [exact M'|]|intros ->]; intros;
      [by apply (H true)|by apply (H false)].
  - apply run_bind. eapply run_loadTrustLine; [exact M|]. clear M. intros w s2 Hw M.
    eapply run_line_pay; [exact M|done|done|]. intros ok s3 M'.
    apply run_ret. cbn.
    split; [intros ->; eexists; split; [exact M'|]|intros ->]; intros;
      [apply (H true)|apply (H false)]; by rewrite ?Z.add_0_r.
Qed.

Lemma run_payIn_if a x (n delta : Z) s0 s d (Q : bool -> LState -> Prop) :
  moves s0 s d -> is_i64 delta -> (n = 0 -> delta = 0) ->
  (forall ok s', (ok = true -> moves s0 s' (d + if_native x delta)) -> Q ok s') ->
  run (if negb (n =? 0) then payInNestedTxn a x delta else mret true) s Q.
Proof.
  intros M Hd H0 H. rif.
  - eapply run_payInNestedTxn; [exact M|done|]. intros ok s' M'. apply H. by intros ->.
  - apply negb_false_iff, Z.eqb_eq, H0 in Heqb. subst delta. apply run_ret, H.
    intros _. by rewrite if_native_0, Z.add_0_r.
Qed.

Lemma run_performExchange h k acc w1 w2 mwr mss s0 s d e o
    (Q : ExchangeResultType * Z * Z * Z -> LState -> Prop) :
  moves s0 s d -> is_i64 mwr -> is_i64 mss -> st_entries s !! k = Some e -> le_data e = OFFER o ->
  (forall t w sh n s', (t <> REDUCED_TO_ZERO -> (w = 0 /\ sh = 0) \/ (0 < w <= INT64_MAX /\ 0 < sh <= INT64_MAX)) ->
     moves s0 s' d -> st_entries s' = st_entries s -> Q (t, w, sh, n) s') ->
  run (performExchange h k acc w1 w2 mwr mss) s Q.
Proof.
  intros M Hw Hs Ek Eo H [[[t w] sh] n] s' E. pose proof (quiet _ _ _ E) as Hq.
  apply H; [| |by destruct Hq].
  2: { eapply moves_eq; [|eapply moves_trans; [exact M|apply same_moves; [by destruct M|done]]]. lia. }
  revert E. cut (run (performExchange h k acc w1 w2 mwr mss) s (fun r _ =>
    r.1.1.1 <> REDUCED_TO_ZERO -> (r.1.1.2 = 0 /\ r.1.2 = 0) \/ (0 < r.1.1.2 <= INT64_MAX /\ 0 < r.1.2 <= INT64_MAX))).
  { intros HR E. exact (HR _ _ E). }
  unfold performExchange. do 4 rstep. apply run_bind, run_lift. intros r Hr.
  apply exchange_legacy_typed in Hr as [H1 H2]; [|done..].
  destruct (ExchangeResult_type r) eqn:Et; apply run_ret; cbn; intros ?; [|done|by left].
  right. unfold ExchangeResult_type in Et. destruct (_ && _) eqn:E; [|by destruct (er_reduced r)].
  zb. zlia.
Qed.

Lemma run_crossOffer k mwr mss trail s0 s d e o
    (Q : CrossOfferResult * Z * Z * list ClaimOfferAtom -> LState -> Prop) :
  moves s0 s d -> is_i64 mwr -> is_i64 mss ->
  st_entries s !! k = Some e -> le_data e = OFFER o ->
  (forall cor w sh trail' s', (cor <> eOfferCantConvert ->
       ((w = 0 /\ sh = 0) \/ (0 < w /\ 0 < sh)) /\ moves s0 s' (d + exchanged o w sh)) ->
     Q (cor, w, sh, trail') s') ->
  run (crossOffer k mwr mss trail) s Q.
Proof.
  intros M Hw Hs Ek Eo H. unfold crossOffer. do 2 rstep.
  apply run_bind, run_offerOf. intros e' o' Ek' Eo'. rewrite Ek in Ek'. injection Ek' as <-.
  rewrite Eo in Eo'. injection Eo' as <-.
  rquiet. rif; [|apply run_throw]. do 2 rquiet. rstep. apply run_bind.
  eapply run_performExchange; [exact M|done|done|rewrite Es1, Es0, Es; exact Ek|exact Eo|].
  clear M. intros t w sh n s4 Hws M Es4.
  assert (Hk : exists a b, k = KeyOffer a b).
  { pose proof (good_keys _ (moves_good _ _ _ M) k e) as Hk. rewrite Es4, Es1, Es0, Es in Hk.
    rewrite <- (Hk Ek). unfold LedgerEntryKey. rewrite Eo. eauto. }
  destruct Hk as (ka & kb & ->).
  destruct t; [|by apply run_ret, H|]; apply run_bind;
    apply (run_mono _ _ (fun _ s' => moves s0 s' d));
    specialize (Hws ltac:(done)).
  all: try (rif; [apply run_bind; eapply run_erase_other; [exact M|done|]; clear M; intros s5 M|];
    by repeat rstep).
  all: clear M; intros _ s5 M; apply run_bind;
    (eapply run_payIn_if; [exact M|zlia|lia|]); intros ok1 s6 M6;
    (destruct ok1; [|by apply run_ret, H]); specialize (M6 eq_refl);
    apply run_bind;
    (eapply run_payIn_if; [exact M6|apply i64_range|by intros ->|]); intros ok2 s7 M7;
    (destruct ok2; [|by apply run_ret, H]); specialize (M7 eq_refl);
    apply run_ret, H; intros _; (split; [lia|]);
    (eapply moves_eq; [|exact M7]); unfold exchanged, if_native;
    rewrite i64_id by zlia; destruct (is_native _), (is_native _); lia.
Qed.

(** ** The loop over the book *)

Lemma book_insert_perm e l : insert_offer e l ≡ₚ e :: l.
Proof.
  induction l as [|x l IH]; cbn [insert_offer]; [done|]. destruct (entry_better e x); [done|].
  rewrite IH. apply Permutation_swap.
Qed.

Lemma sort_offers_perm l : foldr insert_offer [] l ≡ₚ l.
Proof. induction l as [|x l IH]; cbn [foldr]; [done|]. by rewrite book_insert_perm, IH. Qed.

Lemma elem_of_book m b sl e :
  e ∈ sorted_offers m b sl ->
  exists k o, m !! k = Some e /\ le_data e = OFFER o /\ oe_buying o = b /\ oe_selling o = sl.
Proof.
  unfold sorted_offers. rewrite sort_offers_perm. intros ([k x] & Hk & Hx)%list_elem_of_omap.
  apply elem_of_map_to_list in Hk. cbn in Hx. destruct (_ && _) eqn:E; [|done]. injection Hx as ->.
  apply andb_true_iff in E as [_ E]. unfold matches in E. destruct (le_data e) as [| |o|] eqn:Ee; try done.
  apply andb_true_iff in E as [E1 E2]. exists k, o. by rewrite bool_decide_eq_true in E1, E2.
Qed.

Lemma run_loadBestOffer b sl s0 s d (Q : option LedgerKey -> LState -> Prop) :
  moves s0 s d ->
  (forall s', moves s0 s' d -> Q None s') ->
  (forall k e o s', moves s0 s' d -> st_entries s' !! k = Some e -> le_data e = OFFER o ->
     oe_buying o = b -> oe_selling o = sl -> st_entries s' = st_entries s -> Q (Some k) s') ->
  run (ltx_loadBestOffer b sl) s Q.
Proof.
  intros M Hn Hs h s' E. pose proof (quiet _ _ _ E) as Hq.
  assert (M' : moves s0 s' d).
  { eapply moves_eq; [|eapply moves_trans; [exact M|apply same_moves; [by destruct M|done]]]. lia. }
  unfold ltx_loadBestOffer in E. destruct (sorted_offers _ _ _) as [|e l] eqn:El.
  { injection E as <- _. by apply Hn. }
  destruct (elem_of_book (st_entries s) b sl e) as (k & o & Hk & Ho & Hb & Hsl).
  { rewrite El. by left. }
  rewrite (good_keys _ (moves_good _ _ _ M) _ _ Hk) in E. unfold ltx_load in E. rewrite Hk in E.
  injection E as <- _. eapply Hs; try done; [by rewrite (same_entries _ _ Hq)|by destruct Hq].
Qed.

Section Convert.
Context {R : Type}.
Implicit Types (c : Conversion R) (filter : option (LedgerEntry -> R -> res (OfferFilterResult * R))).

(** what has been exchanged and what is left add up to the limits *)
Record conv_ok (mss mwr : Z) c : Prop := {
  conv_sheep : cv_sheepSend c + cv_maxSheepSend c = mss;
  conv_wheat : cv_wheatReceived c + cv_maxWheatReceive c = mwr;
  conv_pos : 0 <= cv_sheepSend c /\ 0 <= cv_maxSheepSend c /\
             0 <= cv_wheatReceived c /\ 0 <= cv_maxWheatReceive c;
  conv_zero : cv_wheatReceived c = 0 -> cv_sheepSend c = 0
}.

Definition conv_coins (sheep wheat : Asset) c : Z :=
  if_native sheep (cv_sheepSend c) - if_native wheat (cv_wheatReceived c).

Definition round_conv (r : Round R) : Conversion R :=
  match r with RoundBreak c | RoundReturn _ c | RoundNext c => c end.

(** one offer, whatever the version *)
Lemma run_cross v k mwr mss path trail s0 s d e o
    (Q : CrossOfferResult * Z * Z * bool * list ClaimOfferAtom -> LState -> Prop) :
  moves s0 s d -> is_i64 mwr -> is_i64 mss -> st_entries s !! k = Some e -> le_data e = OFFER o ->
  (forall cor w sh more trail' s', (cor <> eOfferCantConvert ->
       ((w = 0 /\ sh = 0) \/ (0 < w /\ 0 < sh)) /\ moves s0 s' (d + exchanged o w sh)) ->
     Q (cor, w, sh, more, trail') s') ->
  run (if v >=? 10 then
         '(cor, w, s, wheatStays, trail) ← crossOfferV10 k mwr mss path trail;
         mret (cor, w, s, negb wheatStays, trail)
       else
         '(cor, w, s, trail) ← crossOffer k mwr mss trail;
         mret (cor, w, s, true, trail)) s Q.
Proof.
  intros M Hw Hs Ek Eo H. rif; apply run_bind.
  - eapply run_crossOfferV10; [exact M|done|done|exact Ek|exact Eo|].
    intros cor w sh stays tr s' Ha M'. apply run_ret, H. intros _. unfold amounts_ok in Ha.
    split; [lia|done].
  - eapply run_crossOffer; [exact M|done|done|exact Ek|exact Eo|].
    intros cor w sh tr s' Ha. by apply run_ret, H.
Qed.

Lemma run_convertRound sheep wheat path filter c mss mwr s0 s d (Q : bool * Round R -> LState -> Prop) :
  moves s0 s (d + conv_coins sheep wheat c) -> is_amount mss -> is_amount mwr -> conv_ok mss mwr c ->
  (forall b r s', conv_ok mss mwr (round_conv r) ->
     (b = true -> moves s0 s' (d + conv_coins sheep wheat (round_conv r))) ->
     (b = false -> conv_coins sheep wheat (round_conv r) = conv_coins sheep wheat c) -> Q (b, r) s') ->
  run (convertRound sheep wheat path filter c) s Q.
Proof.
  intros M Hms Hmw Hc H. unfold convertRound. apply run_bind.
  eapply run_loadBestOffer; [exact M|intros s' _; by apply run_ret, H|].
  clear M. intros k e o s1 M Ek Eo Hb Hsl _. rquiet. destruct a as [f x].
  assert (Hc' : conv_ok mss mwr (mkConversion (cv_maxSheepSend c) (cv_sheepSend c)
    (cv_maxWheatReceive c) (cv_wheatReceived c) (cv_trail c) x)) by (destruct Hc; by split).
  destruct f; [|by apply run_ret, H].
  rstep. apply run_bind. destruct Hc as [C1 C2 (C3 & C4 & C5 & C6) C7].
  eapply run_cross; [exact M|cbn; zlia|cbn; zlia|by rewrite Es|exact Eo|].
  clear M. intros cor w sh more tr s3 Hcor. do 4 rstep. cbn in *. zb.
  case_bool_decide as Ec.
  { apply run_ret, H; cbn; [by split|done|done]. }
  destruct (Hcor Ec) as [Hws M]. rewrite !i64_id by zlia.
  set (c' := mkConversion (R := R) _ _ _ _ _ _).
  assert (Hr : forall b1 b2 : bool, round_conv (if b1 then RoundReturn eOK c'
    else if b2 then RoundReturn ePartial c' else RoundNext c') = c') by (by intros [] []).
  apply run_ret, H; rewrite Hr; [split; cbn; lia| |done]. intros _.
  eapply moves_eq; [|exact M]. unfold exchanged, conv_coins, if_native. subst c'. cbn.
  rewrite Hb, Hsl. destruct (is_native sheep), (is_native wheat); lia.
Qed.

Lemma run_convertLoop fuel sheep wheat path filter c mss mwr s0 s d
    (Q : ConvertResult * Conversion R -> LState -> Prop) :
  moves s0 s (d + conv_coins sheep wheat c) -> is_amount mss -> is_amount mwr -> conv_ok mss mwr c ->
  (forall r c' s', conv_ok mss mwr c' -> moves s0 s' (d + conv_coins sheep wheat c') -> Q (r, c') s') ->
  run (convertLoop fuel sheep wheat path filter c) s Q.
Proof.
  revert c s. induction fuel as [|fuel IH]; intros c s M Hms Hmw Hc H; cbn [convertLoop].
  { apply run_throw. }
  apply run_bind. eapply run_nested; [exact M|]. clear M. intros s1 M.
  eapply (run_convertRound _ _ _ _ _ mss mwr); [exact M|done|done|exact Hc|]. intros b r s2 Hr Ht Hf. cbn.
  assert (Hend : forall s', moves s0 s' (d + conv_coins sheep wheat (round_conv r)) ->
    run match r with
        | RoundNext c' => convertLoop fuel sheep wheat path filter c'
        | RoundReturn r c' => mret (r, c')
        | RoundBreak c' =>
            header ← ltx_loadHeader;
            mret (if ledgerVersion header <? 10 then eOK else ePartial, c')
        end s' Q).
  { intros s' M'. destruct r; cbn in *; [rstep| |]; [apply run_ret; by apply H..|by apply IH]. }
  split; intros ->.
  - eexists. split; [by apply Ht|]. exact Hend.
  - intros s' M'. apply Hend. by rewrite Hf.
Qed.

(** what a conversion exchanges *)
Definition converted (sheep wheat : Asset) (maxSheepSend maxWheatReceive : Z) c : Prop :=
  0 <= cv_sheepSend c <= Z.max 0 maxSheepSend /\ 0 <= cv_wheatReceived c <= Z.max 0 maxWheatReceive /\
  (cv_wheatReceived c = 0 -> cv_sheepSend c = 0).

Lemma run_convertWithOffers sheep mss wheat mwr path filter x trail s0 s d
    (Q : ConvertResult * Conversion R -> LState -> Prop) :
  moves s0 s d -> is_i64 mss -> is_i64 mwr ->
  (forall r c s', converted sheep wheat mss mwr c ->
     moves s0 s' (d + conv_coins sheep wheat c) -> Q (r, c) s') ->
  run (convertWithOffers sheep mss wheat mwr path filter x trail) s Q.
Proof.
  intros M Hms Hmw H. unfold convertWithOffers. rif.
  - zb. apply run_bind, run_gets. eapply (run_convertLoop _ _ _ _ _ _ mss mwr _ _ d); [|zlia|zlia|by split; cbn; lia|].
    { eapply moves_eq; [|exact M]. unfold conv_coins. cbn. rewrite !if_native_0. lia. }
    intros r c' s' [C1 C2 C3 C4] M'. apply H; [|done]. unfold converted. lia.
  - apply run_ret, H; [unfold converted; cbn; lia|]. eapply moves_eq; [|exact M].
    unfold conv_coins. cbn. rewrite !if_native_0. lia.
Qed.

End Convert.
End Code.
