(* ===== verification/OperationsKeep.v ===== *)
(** * Native coins under the operations

    For each operation, the change of the sum of the account balances when it
    succeeds. *)
From S2P Require Import Prelude Numeric Exchange LedgerEntries TransactionUtils LedgerTxn OfferBook LedgerState.
From S2P Require Import LedgerLogic OfferCross Operations OfferOperations Neutral Conservation.

#[local] Existing Instance coin_measure.

(** ** Creating and erasing entries *)

Lemma keeps_create e : native e = 0 -> Keeps (ltx_create e).
Proof.
  intros H. apply keeps_run. intros s G M. eapply run_create; [exact M|cbn; rewrite H; zlia|].
  intros s' M'. cbn in M'. by rewrite H in M'.
Qed.
#[export] Instance keeps_create_line a x l f : Keeps (ltx_create (newTrustLineEntry a x l f)).
Proof. by apply keeps_create. Qed.
#[export] Instance keeps_create_offer m o : Keeps (ltx_create (mkLedgerEntry m (OFFER o))).
Proof. by apply keeps_create. Qed.
#[export] Instance keeps_create_data m d : Keeps (ltx_create (mkLedgerEntry m (DATA d))).
Proof. by apply keeps_create. Qed.

Lemma keeps_erase k : match k with KeyAccount _ => False | _ => True end -> Keeps (ltx_erase k).
Proof.
  intros H. apply keeps_run. intros s G M. by eapply run_erase_other.
Qed.
#[export] Instance keeps_erase_line a x : Keeps (ltx_erase (KeyTrustLine a x)).
Proof. by apply keeps_erase. Qed.
#[export] Instance keeps_erase_offer a x : Keeps (ltx_erase (KeyOffer a x)).
Proof. by apply keeps_erase. Qed.
#[export] Instance keeps_erase_data a x : Keeps (ltx_erase (KeyData a x)).
Proof. by apply keeps_erase. Qed.

(** ** Operations that leave all balances alone *)

Ltac account_fields := apply modifyBalance_keeps; intros; split; reflexivity.

#[export] Instance keeps_deleteSigner h a key kept rest : Keeps (deleteSigner h a key kept rest).
Proof.
  revert kept. induction rest as [|x rest IH]; intros kept; cbn [deleteSigner]; [apply _|].
  case_bool_decide; [|apply IH]. apply keeps_bind; [account_fields|]. apply _.
Qed.
#[export] Instance keeps_applySigner h a x : Keeps (applySigner h a x).
Proof.
  unfold applySigner. apply keeps_bind; [apply _|]. intros acc.
  apply keeps_bind; [|apply _].
  apply keeps_if; [|apply _]. apply keeps_if; [apply keeps_bind; [account_fields|apply _]|].
  apply keeps_if; [apply _|]. apply keeps_bind; [apply _|]. intros []; cbn [negb]; [|apply _].
  apply keeps_bind; [account_fields|apply _].
Qed.
#[export] Instance keeps_changeTrust src op : Keeps (changeTrust_doApply src op).
Proof.
  unfold changeTrust_doApply. do 2 (apply keeps_bind; [apply _|intros]).
  apply keeps_if; [apply _|]. apply keeps_if; [apply _|]. apply keeps_load_bind; apply _.
Qed.

#[export] Instance keeps_manageData src op : Keeps (manageData_doApply src op).
Proof.
  unfold manageData_doApply. apply keeps_bind; [apply _|]. intros h. apply keeps_if; [apply _|].
  apply keeps_load_bind; apply _.
Qed.

Section Code.
Context {U : UInt128}.

#[export] Instance keeps_removeOffers h t ci l : Keeps (removeOffers h t ci l).
Proof.
  induction l as [|k l IH]; cbn [removeOffers]; [apply _|].
  apply keeps_run. intros s G M. apply run_bind, run_offerOf. intros e o Ek Eo.
  assert (Hk : exists a b, k = KeyOffer a b).
  { rewrite <- (good_keys _ G _ _ Ek). unfold LedgerEntryKey. rewrite Eo. eauto. }
  destruct Hk as (a & b & ->). rif; [apply run_throw|]. rif; [apply run_throw|]. by repeat rstep.
Qed.

#[export] Instance keeps_allowTrust src op : Keeps (allowTrust_doApply src op).
Proof. unfold allowTrust_doApply. apply _. Qed.

(** ** Operations that move native coins *)

(** when the operation succeeds, the sum of the balances is the same *)
Definition conserving {R} (m : ltm (bool * R)) : Prop :=
  forall s, good s -> run m s (fun r s' => fst r = true -> moves s s' 0).

Lemma keeps_conserving {R} (m : ltm (bool * R)) : Keeps m -> conserving m.
Proof. intros H s G [ok r] s' E _. by eapply H. Qed.

Lemma createAccount_conserves src op :
  is_i64 (ca_startingBalance op) -> createAccount_doCheckValid src op = None ->
  conserving (createAccount_doApply src op).
Proof.
  intros Hb Hv s G. pose proof (moves_refl s G) as M. unfold createAccount_doCheckValid in Hv.
  destruct (ca_startingBalance op <=? 0) eqn:Hpos; [done|]. zb.
  unfold createAccount_doApply. rstep. rif; [by apply run_fail|]. rstep. rif; [by apply run_fail|].
  rstep. apply run_bind. eapply run_opLoad; [exact M|]. clear M. intros h s2 Hh _ M. rstep.
  rif; [by apply run_fail|]. rif; [apply run_throw|]. apply run_bind. unfold updateEntry.
  apply run_bind, run_active. intros k ->. destruct Hh as [[= ->]|]; [|done].
  eapply run_pay; [exact M|apply i64_range|]. clear M. intros ok s4 M. rstep. subst ok.
  apply run_bind. eapply run_create; [exact M|exact Hb|]. intros s5 M'. apply run_success. intros _.
  eapply moves_eq; [|exact M']. unfold native. cbn. rewrite i64_id by zlia. lia.
Qed.

(** paying an entry, with the other entries *)
Lemma run_pay_entries k h x s0 s d (Q : bool -> LState -> Prop) :
  moves s0 s d -> is_i64 x ->
  (forall (ok : bool) s', moves s0 s' (d + match k with KeyAccount _ => if ok then x else 0 | _ => 0 end) ->
     (forall k', k' <> k -> st_entries s' !! k' = st_entries s !! k') -> Q ok s') ->
  run (ltx_update k (fun e => addBalance h e x)) s Q.
Proof.
  intros M Hx H ok s' E. apply H.
  - eapply moves_trans; [exact M|]. eapply pay_entry; [by destruct M|done|exact E].
  - apply ltx_update_ok in E as (e & e' & _ & _ & -> & _). intros k' Hk. by rewrite lookup_insert_ne.
Qed.

Lemma merge_conserves src dst :
  merge_doCheckValid src dst = None -> conserving (merge_doApply src dst).
Proof.
  intros Hv s G. pose proof (moves_refl s G) as M. unfold merge_doCheckValid in Hv.
  destruct (Z.eqb_spec src dst) as [|Hne]; [done|].
  unfold merge_doApply. rstep. apply run_bind. eapply run_load; [exact M|]. clear M. intros oth s1 Ho M.
  destruct oth as [k|]; [|by apply run_fail]. destruct Ho as [[= ->]|]; [|done].
  assert (Hst : Quiet (staleBalance (ledgerVersion (st_header s)) src)).
  { unfold staleBalance. apply _. }
  rstep. rif; [by apply run_fail|].
  apply run_bind. eapply run_opLoad; [exact M|]. clear M. intros h s3 Hh _ M.
  apply run_bind, run_readAccount. intros k e acc -> Ek Ea.
  destruct Hh as [[= ->]|]; [|done].
  rquiet. repeat (rif; [by apply run_fail|]).
  assert (Hv8 : 8 <= ledgerVersion (st_header s)) by apply G.
  replace (_ || _)%bool with true by (symmetry; rewrite orb_true_iff, Z.geb_leb, !Z.leb_le; lia).
  apply run_bind. unfold updateEntry. apply run_bind, run_active. intros k [= <-].
  assert (Hr : is_i64 (acc_balance acc)).
  { pose proof (good_range _ (moves_good _ _ _ M) (KeyAccount src) e) as Hr. rewrite Es in Hr.
    specialize (Hr Ek). cbn in Hr. unfold native in Hr. by rewrite Ea in Hr. }
  eapply run_pay_entries; [exact M|exact Hr|]. clear M. intros ok s5 M Hsame.
  rif; [by apply run_fail|]. destruct ok; [|done]. rstep. injection H as <-.
  apply run_bind. intros u s6 E6. apply run_success. intros _.
  unfold ltx_erase in E6. destruct (st_entries s5 !! KeyAccount src) as [e5|] eqn:E5; [|done].
  injection E6 as _ <-. rewrite Hsame in E5 by congruence. rewrite Es, Ek in E5. injection E5 as <-.
  destruct (unshare_same (KeyAccount src) (set_st_entries (delete (KeyAccount src) (st_entries s5)) s5)) as [H1 H2].
  eapply moves_eq; [|eapply moves_trans; [exact M|eapply erase_moves; [by destruct M|exact H2|exact H1]]].
  rewrite Hsame by congruence. rewrite Es, Ek. cbn. unfold native. rewrite Ea. lia.
Qed.

(** ** Path payments *)

(** a payment through a trust line found by loading it *)
Lemma run_payLine a x delta (r1 r2 r3 : PathPaymentResult) s0 s d
    (Q : option PathPaymentResult -> LState -> Prop) :
  moves s0 s d -> is_i64 delta -> is_native x = false ->
  (forall r s', (r = None -> moves s0 s' (d + if_native x delta)) -> Q r s') ->
  run (line ← loadTrustLine a x;
       if negb (tlw_bool line) then mret (Some r1)
       else
         auth ← tlw_isAuthorized line;
         if negb auth then mret (Some r2)
         else
           header ← ltx_loadHeader;
           ok ← tlw_addBalance header line delta;
           mret (if ok : bool then None else Some r3)) s Q.
Proof.
  intros M Hd Hx H. apply run_bind. eapply run_loadTrustLine; [exact M|]. clear M. intros w s1 Hw M.
  rif; [by apply run_ret, H|]. rstep. rif; [by apply run_ret, H|]. rstep. apply run_bind.
  eapply run_line_pay; [exact M|done|done|]. intros ok s3 M3. apply run_ret, H. destruct ok; [|done].
  intros _. unfold if_native. rewrite Hx. by rewrite Z.add_0_r.
Qed.

Lemma run_payDestination dst x amt byp s0 s d (Q : option PathPaymentResult -> LState -> Prop) :
  moves s0 s d -> is_i64 amt ->
  (forall r s', (r = None -> moves s0 s' (d + if_native x amt)) -> Q r s') ->
  run (payDestination dst x amt byp) s Q.
Proof.
  intros M Hd H. unfold payDestination. destruct (is_native x) eqn:Hx.
  - apply run_bind. eapply run_loadAccount; [exact M|]. clear M. intros h s1 _ Hh M. rstep. apply run_bind.
    unfold updateEntry. apply run_bind, run_active. intros k ->. destruct Hh as [[= ->]|]; [|done].
    eapply run_pay; [exact M|done|]. intros ok s2 M2. apply run_ret, H. destruct ok; [|done].
    intros _. unfold if_native. by rewrite Hx.
  - rstep. rif; [by apply run_ret, H|]. by eapply run_payLine.
Qed.

Lemma run_walkPath src path x amt r s0 s d
    (Q : PathPaymentResult + Asset * Z * PathPaymentResult -> LState -> Prop) :
  moves s0 s (d + if_native x amt) -> is_amount amt ->
  (forall r s', Q (inl r) s') ->
  (forall x' amt' r' s', is_amount amt' -> moves s0 s' (d + if_native x' amt') -> Q (inr (x', amt', r')) s') ->
  run (walkPath src path x amt r) s Q.
Proof.
  revert x amt r s. induction path as [|y path IH]; intros x amt r s M Ha Hl Hr; cbn [walkPath].
  { by apply run_ret, Hr. }
  case_bool_decide; [by apply IH|]. rstep. rif; [by apply run_ret, Hl|].
  apply run_bind. eapply run_convertWithOffers; [exact M|zlia|zlia|]. clear M.
  intros cr c s2 (H1 & H2 & _) M. rstep. destruct cr; [|by apply run_ret, Hl..].
  rif; [|by apply run_ret, Hl]. rstep. apply IH; [|zlia|done|done].
  zb. eapply moves_eq; [|exact M]. unfold conv_coins. rewrite <- Heqb0. lia.
Qed.

Lemma run_paySource src x amt byp ex s0 s d (Q : option PathPaymentResult -> LState -> Prop) :
  moves s0 s d -> is_amount amt ->
  (forall r s', (r = None -> moves s0 s' (d - if_native x amt)) -> Q r s') ->
  run (paySource src x amt byp ex) s Q.
Proof.
  intros M Ha H. unfold paySource. destruct (is_native x) eqn:Hx.
  - rstep. apply run_bind.
    assert (Hl : forall Q' : option LedgerKey -> LState -> Prop,
      (forall h s', (h = Some (KeyAccount src) \/ h = None) -> moves s0 s' d -> Q' h s') ->
      run (if ledgerVersion (st_header s) >? 7 then loadAccount src else op_loadSourceAccount src) s Q').
    { intros Q' HQ. rif; [eapply run_loadAccount|eapply run_opLoad]; try exact M; auto. }
    apply Hl. clear M Hl. intros h s1 Hh M. rif; [by apply run_ret, H|]. rstep.
    rif; [by apply run_ret, H|]. rif; [apply run_throw|]. apply run_bind. unfold updateEntry.
    apply run_bind, run_active. intros k ->. destruct Hh as [[= ->]|]; [|done].
    eapply run_pay; [exact M|apply i64_range|]. intros ok s3 M3. rstep. subst ok. apply run_ret, H. intros _.
    eapply moves_eq; [|exact M3]. unfold if_native. rewrite Hx, i64_id by zlia. lia.
  - rstep. rif; [by apply run_ret, H|]. eapply run_payLine; [exact M|apply i64_range|done|].
    intros r s' Hr. apply H. intros ->. eapply moves_eq; [|by apply Hr]. unfold if_native. rewrite Hx. lia.
Qed.

Lemma run_pathPayment src op s0 s d (Q : bool * PathPaymentResult -> LState -> Prop) :
  moves s0 s d -> is_i64 (pp_destAmount op) -> pathPayment_doCheckValid op = None ->
  (forall ok r s', (ok = true -> moves s0 s' d) -> Q (ok, r) s') ->
  run (pathPayment_doApply src op) s Q.
Proof.
  intros M Hd Hv H. unfold pathPayment_doCheckValid in Hv.
  destruct (_ || _) eqn:Hpos in Hv; [done|]. zb.
  unfold pathPayment_doApply. rstep. rstep. rstep. rstep. rif; [by apply run_fail, H|].
  apply run_bind. eapply run_payDestination; [exact M|done|]. clear M. intros r s4 M.
  destruct r; [by apply run_fail, H|]. specialize (M eq_refl). apply run_bind.
  eapply run_walkPath; [exact M|zlia|intros; by apply run_fail, H|].
  clear M. intros x amt r s5 Ha M. rif; [by apply run_fail, H|]. apply run_bind.
  eapply run_paySource; [exact M|done|]. intros r' s6 M6. destruct r'; [by apply run_fail, H|].
  apply run_success, H. intros _. eapply moves_eq; [|by apply M6]. lia.
Qed.

Lemma pathPayment_conserves src op :
  is_i64 (pp_destAmount op) -> pathPayment_doCheckValid op = None ->
  conserving (pathPayment_doApply src op).
Proof.
  intros Hd Hv s G. eapply run_pathPayment; [by apply moves_refl|done|done|]. auto.
Qed.

Lemma payment_conserves src op :
  is_i64 (pay_amount op) -> conserving (payment_doApply src op).
Proof.
  intros Hd s G. pose proof (moves_refl s G) as M. unfold payment_doApply. rstep.
  rif; [by apply run_success|]. apply run_bind.
  apply (run_mono _ _ (fun r s' => fst r = true -> moves s s' 0)).
  { destruct (pathPayment_doCheckValid _) eqn:Hv; [by apply run_fail|].
    eapply run_pathPayment; [exact M|exact Hd|exact Hv|]. auto. }
  clear M. intros [ok r] s1 M. destruct ok; cbn [negb]; [|rstep; by apply run_fail].
  specialize (M eq_refl). rstep. by apply run_success.
Qed.

(** ** Offers *)

Lemma getMaxAmountReceive_range h e m : getMaxAmountReceive h e = Ok m -> is_i64 m.
Proof.
  unfold getMaxAmountReceive. intros H. entry_cases H; injection H as <-;
    try apply i64_range; zlia.
Qed.

Lemma run_canBuyAtMost h a x w s (Q : Z -> LState -> Prop) :
  (forall m s', is_amount m -> Q m s') -> run (canBuyAtMost h a x w) s Q.
Proof.
  intros H. unfold canBuyAtMost. rif.
  - apply run_bind, run_active. intros k ->. apply run_bind. intros e s1 _.
    apply run_bind, run_lift. intros m Hm%getMaxAmountReceive_range. apply run_ret, H. zlia.
  - rif; [|apply run_ret, H; zlia]. apply run_bind. unfold tlw_getMaxAmountReceive.
    intros m s1 E. apply run_ret, H. enough (is_i64 m) by zlia.
    destruct w as [|k|]; cbn in E; [done| |].
    + apply ltm_bind_ok in E as (e & s2 & _ & [E _]%lift_ok). by eapply getMaxAmountReceive_range.
    + injection E as <- _. zlia.
Qed.

Lemma run_canSellAtMost h a x w s (Q : Z -> LState -> Prop) :
  (forall m s', 0 <= m -> Q m s') -> run (canSellAtMost h a x w) s Q.
Proof.
  intros H. unfold canSellAtMost. rif.
  - apply run_bind, run_active. intros k ->. apply run_bind. intros e s1 _.
    apply run_bind, run_lift. intros m _. apply run_ret, H. lia.
  - rif; [|by apply run_ret, H]. apply run_bind. intros b s1 _. rif; [|by apply run_ret, H].
    apply run_bind. intros m s2 _. apply run_ret, H. lia.
Qed.

(** the parameters of the exchange are 64-bit integers *)
Lemma computeParams_typed src e b o mss mwr s s' :
  le_data e = OFFER o -> is_i64 (oe_amount o) ->
  computeOfferExchangeParameters src e b s = Ok (inr (mss, mwr), s') -> is_i64 mss /\ is_i64 mwr.
Proof.
  intros He Ho (c & s1 & E & _)%nested_ok. revert E.
  set (m := (offer ← lift (get_offer e); _)).
  enough (HR : run m (unshared s) (fun r _ => match snd r with inr (x, y) => is_i64 x /\ is_i64 y | inl _ => True end)).
  { intros E. exact (HR _ _ E). }
  subst m. apply run_bind, run_lift. intros o' Ho'%get_offer_ok. rewrite He in Ho'. injection Ho' as <-.
  apply run_bind. intros h s2 _. apply run_bind. intros a s3 _. apply run_bind. intros room s4 _.
  rif; [by apply run_ret|]. apply run_bind. intros w1 s5 _. apply run_bind. intros w2 s6 _.
  apply run_bind, run_canBuyAtMost. intros mwr' s7 Hm. rif.
  - apply run_bind. intros lim s8 _. apply run_bind, run_lift. intros bl _. rif; [by apply run_ret|].
    apply run_bind. intros av s9 _. apply run_bind, run_lift. intros sl _. rif; [by apply run_ret|].
    apply run_bind, run_canSellAtMost. intros can s10 Hc. apply run_ret. cbn. zlia.
  - apply run_bind, run_canSellAtMost. intros can s8 Hc. apply run_bind, run_lift. intros [ok q] Hq.
    apply run_ret. cbn. apply bigDivide_i64_typed in Hq as [_ Hq]. destruct ok; [specialize (Hq eq_refl)|]; zlia.
Qed.

Lemma run_settleSource h src x delta msg s0 s d (Q : unit -> LState -> Prop) :
  moves s0 s d -> is_i64 delta ->
  (forall s', moves s0 s' (d + if_native x delta) -> Q tt s') ->
  run (settleSource h src x delta msg) s Q.
Proof.
  intros M Hd H. unfold settleSource. apply run_bind. unfold if_native in H. destruct (is_native x).
  - apply run_bind. eapply run_opLoad; [exact M|]. clear M. intros hd s1 Hh _ M.
    unfold updateEntry. apply run_bind, run_active. intros k ->. destruct Hh as [[= ->]|]; [|done].
    eapply run_pay; [exact M|done|]. intros ok s2 M2. destruct ok; [|apply run_throw]. by apply run_ret, H.
  - apply run_bind. eapply run_loadTrustLine; [exact M|]. clear M. intros w s1 Hw M.
    eapply run_line_pay; [exact M|done|done|]. intros ok s2 M2. destruct ok; [|apply run_throw].
    apply run_ret, H. by rewrite Z.add_0_r.
Qed.

Lemma run_exchangeWithBook src o passive creating r s0 s d
    (Q : ManageOfferResult + Z * list ClaimOfferAtom -> LState -> Prop) :
  moves s0 s d -> is_i64 (oe_amount o) ->
  (forall f s', Q (inl f) s') -> (forall x s', moves s0 s' d -> Q (inr x) s') ->
  run (exchangeWithBook src o passive creating r) s Q.
Proof.
  intros M Ho Hl Hr. unfold exchangeWithBook. apply run_bind. intros ps s1 E.
  pose proof (keeps _ _ _ (moves_good _ _ _ M) E) as M1.
  assert (M' : moves s0 s1 d) by (eapply moves_eq; [|by eapply moves_trans]; lia). clear M M1.
  rename M' into M. destruct ps as [f|[mss mwr]]; [by apply run_ret, Hl|].
  eapply computeParams_typed in E as [Hms Hmw]; [|done|done].
  rif; [by apply run_ret, Hl|]. apply run_bind. eapply run_convertWithOffers; [exact M|done|done|].
  clear M. intros cr c s2 (H1 & H2 & H3) M. rstep. rif; [by apply run_ret, Hl|]. rstep.
  apply run_bind. apply (run_mono _ _ (fun _ s' => moves s0 s' d)).
  - rif.
    + apply run_bind. eapply run_settleSource; [exact M|zlia|]. clear M. intros s3 M.
      eapply run_settleSource; [exact M|apply i64_range|]. intros s4 M4. eapply moves_eq; [|exact M4].
      unfold conv_coins, if_native. rewrite i64_id by zlia. destruct (is_native _), (is_native _); lia.
    + apply run_ret. zb. eapply moves_eq; [|exact M]. unfold conv_coins.
      replace (cv_wheatReceived c) with 0 by lia. rewrite H3 by lia. rewrite !if_native_0. lia.
  - clear M. intros _ s3 M. rstep. by apply run_ret, Hr.
Qed.

(** the totals that only inflation and fees may change *)
Record conserved (s s' : LState) : Prop := {
  cons_good : good s';
  cons_coins : coins s' = coins s;
  cons_version : ledgerVersion (st_header s') = ledgerVersion (st_header s);
  cons_totalCoins : totalCoins (st_header s') = totalCoins (st_header s);
  cons_feePool : feePool (st_header s') = feePool (st_header s)
}.

Lemma moves_conserved s s' : moves s s' 0 -> conserved s s'.
Proof. intros [H C G]. split; rewrite ?H; [done|unfold coins; lia|done..]. Qed.

Lemma conserved_trans s1 s2 s3 : conserved s1 s2 -> conserved s2 s3 -> conserved s1 s3.
Proof. intros [] []. split; congruence. Qed.

Lemma same_conserved s s' : good s -> same s s' -> conserved s s'.
Proof. intros G H. by apply moves_conserved, same_moves. Qed.

(** a new id for an offer *)
Lemma newID_conserved s : good s ->
  conserved s (set_st_header (snd (generateID (st_header s))) s).
Proof. intros [G1 G2 G3]. by split. Qed.

Lemma run_storeOffer src o creating claimed s0 s (Q : bool * ManageOfferResult -> LState -> Prop) :
  moves s0 s 0 -> (forall r s', Q (false, r) s') -> (forall r s', conserved s0 s' -> Q (true, r) s') ->
  run (storeOffer src o creating claimed) s Q.
Proof.
  intros M Hf Ht. unfold storeOffer. rstep. rif; [|by rstep; apply run_success, Ht, moves_conserved].
  assert (Hend : forall o' t, conserved s0 t ->
    run (k ← ltx_create (mkLedgerEntry 0 (OFFER o'));
         header ← ltx_loadHeader;
         _ ← (if ledgerVersion header >=? 10 then acquireLiabilities header k else mret tt);
         success (MANAGE_OFFER_SUCCESS claimed
           (if creating then MANAGE_OFFER_CREATED o' else MANAGE_OFFER_UPDATED o'))) t Q).
  { intros o' t Hc. pose proof (moves_refl t (cons_good _ _ Hc)) as Mt. do 3 rstep.
    apply run_success, Ht. eapply conserved_trans; [exact Hc|]. by apply moves_conserved. }
  apply run_bind. destruct creating; [|by apply run_ret, Hend, moves_conserved].
  do 2 rstep. rif; [by apply run_ret, run_fail|]. rstep.
  apply run_bind. intros u t E. injection E as _ <-. apply run_ret, Hend.
  eapply conserved_trans; [by apply moves_conserved|]. apply newID_conserved. by destruct M.
Qed.

Lemma run_takeOldOffer src op s0 s d (Q : option (OfferEntry * bool) -> LState -> Prop) :
  moves s0 s d -> (forall s', Q None s') ->
  (forall fl b s', moves s0 s' d -> Q (Some (buildOffer src op fl, b)) s') ->
  run (takeOldOffer src op) s Q.
Proof.
  intros M Hn Hs. unfold takeOldOffer. apply run_bind. eapply run_load; [exact M|]. clear M.
  intros h s1 Hh M. destruct h as [k|]; [|by apply run_ret, Hn]. destruct Hh as [[= ->]|]; [|done].
  repeat rstep. by apply Hs.
Qed.

Lemma run_manageOffer_body src op passive s (Q : bool * ManageOfferResult -> LState -> Prop) :
  good s -> is_i64 (mo_amount op) ->
  (forall r s', Q (false, r) s') -> (forall r s', conserved s s' -> Q (true, r) s') ->
  run (manageOffer_body src op passive) s Q.
Proof.
  intros G Ha Hf Ht. pose proof (moves_refl s G) as M. unfold manageOffer_body. rstep.
  rif; [by apply run_fail, Hf|]. apply run_bind.
  assert (Hrest : forall fl b t, moves s t 0 ->
    run (exchanged ← (if 0 <? mo_amount op
                      then exchangeWithBook src (buildOffer src op fl) b (mo_offerID op =? 0)
                             (MANAGE_OFFER_SUCCESS [] (MANAGE_OFFER_CREATED (buildOffer src op fl)))
                      else mret (inr (oe_amount (buildOffer src op fl), [])));
         match exchanged with
         | inl f => fail f
         | inr (amount, claimed) =>
             storeOffer src (set_oe_amount amount (buildOffer src op fl)) (mo_offerID op =? 0) claimed
         end) t Q).
  { intros fl b t Mt. apply run_bind.
    apply (run_mono _ _ (fun x t' => match x with inl _ => True | inr _ => moves s t' 0 end)).
    - rif; [|by apply run_ret]. eapply run_exchangeWithBook; [exact Mt|exact Ha|done|done].
    - intros [f|[am cl]] t'; [intros _; by apply run_fail, Hf|]. intros Mt'.
      eapply run_storeOffer; [exact Mt'|done|done]. }
  rif.
  - eapply run_takeOldOffer; [exact M|intros; by apply run_fail, Hf|]. intros fl b t Mt. by apply Hrest.
  - apply run_ret. by apply Hrest.
Qed.

Lemma manageOffer_conserves src op passive :
  is_i64 (mo_amount op) -> forall s, good s ->
  run (manageOffer_doApply src op passive) s (fun r s' => fst r = true -> conserved s s').
Proof.
  intros Ha s G [ok r] s' (b & s1 & E & Hb)%nested_ok Hok. cbn in Hok. subst ok. revert E.
  assert (G1 : good (unshared s)) by (by eapply same_good; [|apply unshared_same]).
  enough (HR : run ('(ok, r) ← manageOffer_body src op passive; mret (ok, (ok, r))) (unshared s)
    (fun x t => fst x = fst (snd x) /\ (fst x = true -> conserved (unshared s) t))).
  { intros E. destruct (HR _ _ E) as [H1 H2]. cbn in *. subst b. specialize (H2 eq_refl).
    eapply conserved_trans; [|apply same_conserved; [by destruct H2|exact Hb]].
    eapply conserved_trans; [apply same_conserved; [done|apply unshared_same]|done]. }
  apply run_bind, run_manageOffer_body; [done|done|intros; by apply run_ret|].
  intros r' t Ht. by apply run_ret.
Qed.

(** ** Inflation *)

Definition total_payouts (l : list InflationPayout) : Z := foldr (fun p acc => ip_amount p + acc) 0 l.

Lemma total_payouts_app l p : total_payouts (l ++ [p]) = total_payouts l + ip_amount p.
Proof. unfold total_payouts in *. induction l as [|x l IH]; cbn in *; lia. Qed.

Lemma bigDivide_typed A B C rd q : bigDivide A B C rd = Ok q -> is_amount q.
Proof.
  unfold bigDivide. intros ([ok q'] & H & H')%bind_ok_inv. apply bigDivide_i64_typed in H as [_ H].
  destruct ok; [|done]. injection H' as <-. by apply H.
Qed.

Section Inflation.
Context {K : StrKeyOrder}.

(** what is left and what has been paid add up, modulo 64-bit wrap-around *)
Lemma run_payWinner w am tv st s0 s d (Q : Z * list InflationPayout -> LState -> Prop) :
  moves s0 s (d + total_payouts (snd st)) ->
  (forall left' pay' s', moves s0 s' (d + total_payouts pay') ->
     i64 (left' + total_payouts pay') = i64 (fst st + total_payouts (snd st)) -> Q (left', pay') s') ->
  run (payWinner w am tv st) s Q.
Proof.
  destruct st as [left pay]. cbn [fst snd]. intros M H. unfold payWinner.
  assert (Hv : 8 <= ledgerVersion (st_header s)) by apply (moves_good _ _ _ M).
  apply run_bind, run_lift. intros q Hq%bigDivide_typed. rif; [by apply run_ret, H|]. rstep.
  apply run_bind. apply (run_mono _ _ (fun q s' => is_i64 q /\ moves s0 s' (d + total_payouts pay))).
  { rif; [|apply run_ret; split; [zlia|done]]. rstep. rif; [|apply run_ret; split; [zlia|done]].
    apply run_bind. intros m s2 E. pose proof (quiet _ _ _ E) as Hs. apply run_ret. split.
    - unfold readEntry in E. apply ltm_bind_ok in E as (k & s3 & _ & E).
      apply ltm_bind_ok in E as (e & s4 & _ & [E _]%lift_ok). apply getMaxAmountReceive_range in E. zlia.
    - eapply moves_eq; [|eapply moves_trans; [exact M|apply same_moves; [by destruct M|exact Hs]]]. lia. }
  clear M. intros q' s1 [Hq' M]. rif; [by apply run_ret, H|]. apply run_bind.
  eapply run_loadAccount; [exact M|]. clear M. intros h s2 _ Hh M. destruct h as [k|]; [|by apply run_ret, H].
  destruct Hh as [[= ->]|]; [|done].
  rewrite (proj2 (Z.leb_gt _ _)) by lia. rstep. rstep. apply run_bind.
  eapply run_pay; [exact M|done|]. intros ok s4 M4. destruct ok; cbn [negb]; [|apply run_throw].
  apply run_ret, H; rewrite total_payouts_app; cbn [ip_amount].
  - eapply moves_eq; [|exact M4]. lia.
  - rewrite i64_add_l. f_equal. lia.
Qed.

Lemma run_payWinners ws am tv st s0 s d (Q : Z * list InflationPayout -> LState -> Prop) :
  moves s0 s (d + total_payouts (snd st)) ->
  (forall left' pay' s', moves s0 s' (d + total_payouts pay') ->
     i64 (left' + total_payouts pay') = i64 (fst st + total_payouts (snd st)) -> Q (left', pay') s') ->
  run (payWinners ws am tv st) s Q.
Proof.
  revert st s. induction ws as [|w ws IH]; intros st s M H; cbn [payWinners].
  { destruct st. by apply run_ret, H. }
  apply run_bind. eapply run_payWinner; [exact M|]. clear M. intros l p s1 M E.
  apply IH; [done|]. intros l' p' s2 M2 E2. apply H; [done|]. cbn [fst snd] in E2. congruence.
Qed.

(** what inflation does to the totals *)
Record inflated (s s' : LState) (payouts : list InflationPayout) : Prop := {
  inf_good : good s';
  inf_coins : coins s' = coins s + total_payouts payouts;
  inf_total : i64 (totalCoins (st_header s') - totalCoins (st_header s)) =
    i64 (total_payouts payouts + (feePool (st_header s') - feePool (st_header s)))
}.

Lemma inflation_inflates s :
  good s ->
  run inflation_doApply s (fun r s' => fst r = true ->
    exists payouts, snd r = INFLATION_SUCCESS payouts /\ inflated s s' payouts).
Proof.
  intros G. unfold inflation_doApply. rstep. rif; [by apply run_fail|].
  apply run_bind, run_lift. intros mb _. apply run_bind, run_gets. apply run_bind, run_lift. intros ia _.
  apply run_bind. intros u s1 E. injection E as _ <-. set (s1 := set_st_header _ s).
  assert (G1 : good s1) by (destruct G; by split).
  apply run_bind. eapply (run_payWinners _ _ _ _ s1 s1 0).
  { cbn. by apply moves_refl. }
  intros left pay s2 M E. cbn [fst snd total_payouts foldr] in E. apply run_bind.
  intros u' s3 E3. injection E3 as _ <-. apply run_success. intros _. exists pay. split; [done|].
  assert (Hv : ledgerVersion (st_header s2) >? 7 = true).
  { pose proof (good_version _ (moves_good _ _ _ M)). rewrite Z.gtb_ltb. lia. }
  pose proof (moves_header _ _ _ M) as Hh.
  split; cbn [st_header st_entries set_st_header set_feePool ledgerVersion].
  - destruct (moves_good _ _ _ M). split; cbn; try done. rewrite Hv. by cbn.
  - transitivity (coins s2); [done|]. unfold coins. rewrite (moves_total _ _ _ M). done.
  - cbn in Hv |- *. rewrite Hv, Hh. cbn. rewrite Z.add_0_l.
    rewrite i64_sub_l. rewrite <- (i64_add_r (total_payouts pay)), i64_sub_l, i64_add_r.
    replace (total_payouts pay + (left - feePool (st_header s)))
      with (left + total_payouts pay - feePool (st_header s)) by lia.
    rewrite <- (i64_sub_l (left + _)), E, Z.add_0_r, i64_idemp, i64_sub_l. f_equal. lia.
Qed.

End Inflation.
End Code.
