(* ===== verification/SubEntries.v ===== *)
(** * The number of sub-entries of an account

    An account counts its signers, trust lines, offers and data entries in
    [numSubEntries].  For one account, the measure of this file is that count
    less the number of things counted, and every operation keeps it: an entry
    is created or erased together with the change of the count. *)
From S2P Require Import Prelude Numeric Exchange LedgerEntries TransactionUtils LedgerTxn OfferBook LedgerState.
From S2P Require Import LedgerLogic OfferCross Operations OfferOperations Neutral.

Definition owner (k : LedgerKey) : AccountID :=
  match k with
  | KeyAccount a => a
  | KeyTrustLine a _ => a
  | KeyOffer a _ => a
  | KeyData a _ => a
  end.

(** the numbers that [addNumEntries] keeps to *)
Definition is_count (n : Z) : Prop := 0 <= n < 2 ^ 31.

Definition count_ok (e : LedgerEntry) : Prop :=
  match le_data e with ACCOUNT acc => is_count (acc_numSubEntries acc) | _ => True end.

Section Account.
Variable a : AccountID.

(** [x] if the key belongs to the account *)
Definition mine (k : LedgerKey) (x : Z) : Z := if owner k =? a then x else 0.

Definition excess (e : LedgerEntry) : Z :=
  mine (LedgerEntryKey e)
    match le_data e with
    | ACCOUNT acc => acc_numSubEntries acc - Z.of_nat (length (acc_signers acc))
    | _ => -1
    end.

Definition sub_measure : Measure := {| weight := excess; weight_ok := count_ok |}.
#[local] Existing Instance sub_measure.

#[export] Instance sub_neutral : Neutral sub_measure.
Proof.
  intros e e' [Hk Hc]. cbn. unfold excess, count_ok. rewrite Hk. unfold LedgerEntryKey, same_counts in *.
  destruct (le_data e), (le_data e'); try done. by destruct Hc as (_ & -> & ->).
Qed.

(** ** Updates of one entry *)

Lemma counts_keep {A} (f : LedgerEntry -> res (A * LedgerEntry)) :
  (forall e x e', f e = Ok (x, e') -> LedgerEntryKey e' = LedgerEntryKey e /\
     match le_data e, le_data e' with
     | ACCOUNT acc, ACCOUNT acc' =>
         acc_numSubEntries acc' = acc_numSubEntries acc /\ length (acc_signers acc') = length (acc_signers acc)
     | _, _ => True
     end) -> entry_keeps f.
Proof.
  intros H e x e' E. destruct (H _ _ _ E) as [Hk Hc]. split; [done|]. cbn. unfold excess, count_ok.
  rewrite Hk. unfold LedgerEntryKey in Hk.
  destruct (le_data e), (le_data e'); try done. by destruct Hc as [-> ->].
Qed.

Lemma addBalance_counts h d : entry_keeps (fun e => addBalance h e d).
Proof.
  apply counts_keep. intros e b e' H. unfold addBalance in H.
  destruct (le_data e) eqn:E; try done; entry_cases H; injection H as <- <-; rewrite ?E; cbn;
    unfold LedgerEntryKey; cbn; rewrite ?E; done.
Qed.

#[export] Instance sub_addBalance_keeps k h d : Keeps (ltx_update k (fun e => addBalance h e d)).
Proof. apply keeps_update, addBalance_counts. Qed.

#[export] Instance sub_lineBalance_keeps h w d : Keeps (tlw_addBalance h w d).
Proof. apply tlw_update_keeps. apply _. Qed.

(** the account with an id *)
Definition acc_of (s : LState) (i : AccountID) : option AccountEntry :=
  match st_entries s !! KeyAccount i with
  | Some e => match le_data e with ACCOUNT x => Some x | _ => None end
  | None => None
  end.

Lemma get_account_iff e x : get_account e = Ok x <-> le_data e = ACCOUNT x.
Proof. split; [apply get_account_ok|]. unfold get_account. by intros ->. Qed.

(** the count itself *)
Lemma count_exact x c n :
  is_count x -> -1 <= c <= 1 -> 0 <= n -> n = i32 (u32 (x + c)) -> n = x + c /\ 0 <= n < 2 ^ 31.
Proof.
  unfold is_count. intros Hx Hc Hn ->. revert Hn.
  assert (x + c = -1 \/ x + c = 2 ^ 31 \/ 0 <= x + c < 2 ^ 31) as [->|[->|H]] by lia; [done..|].
  intros _. rewrite u32_id, i32_id by zlia. lia.
Qed.

Lemma addNumEntries_exact h e c ok e' :
  count_ok e -> -1 <= c <= 1 -> addNumEntries h e c = Ok (ok, e') ->
  LedgerEntryKey e' = LedgerEntryKey e /\ count_ok e' /\ (c <= 0 -> ok = true) /\
  excess e' = excess e + (if ok then mine (LedgerEntryKey e) c else 0).
Proof.
  intros Hc Hr H. unfold addNumEntries in H. apply bind_ok_inv in H as (acc & Ha%get_account_ok & H).
  unfold count_ok, is_count in Hc. rewrite Ha in Hc. set (n := i32 (u32 (acc_numSubEntries acc + c))) in *.
  destruct (n <? 0) eqn:Hn; [done|]. zb. apply bind_ok_inv in H as (m & _ & H).
  assert (n = acc_numSubEntries acc + c /\ 0 <= n < 2 ^ 31) as [En Hn'] by by apply count_exact.
  destruct (_ && _) eqn:Eb; injection H as <- <-.
  - split; [done|]. split; [unfold count_ok; by rewrite Ha|]. split; [zb; lia|].
    by rewrite Z.add_0_r.
  - unfold excess, count_ok, LedgerEntryKey. cbn. rewrite Ha. split; [done|].
    assert (Hu : u32 n = n) by (apply u32_id; zlia).
    rewrite Hu. split; [done|]. split; [done|]. unfold mine. cbn. destruct (_ =? _); lia.
Qed.

Lemma run_count k h c s0 s d (Q : bool -> LState -> Prop) :
  moves s0 s d -> -1 <= c <= 1 ->
  (forall ok s', (c <= 0 -> ok = true) -> moves s0 s' (d + if ok : bool then mine k c else 0) -> Q ok s') ->
  run (ltx_update k (fun e => addNumEntries h e c)) s Q.
Proof.
  intros M Hc H ok s' E. destruct (update_moves _ _ _ _ _ (moves_good _ _ _ M) E) as (e & e' & _ & Hk & Hr & Hf & M').
  - intros e x e' _ Hr Hf. by destruct (addNumEntries_exact h e c x e' Hr Hc Hf) as (? & ? & _).
  - destruct (addNumEntries_exact h e c ok e' Hr Hc Hf) as (_ & _ & Hok & He). apply H; [done|].
    eapply moves_eq; [|by eapply moves_trans]. cbn [weight sub_measure]. rewrite He, Hk. lia.
Qed.

(** ** Creating and erasing *)

Definition no_account (k : LedgerKey) : Prop := match k with KeyAccount _ => False | _ => True end.

Lemma excess_sub e : no_account (LedgerEntryKey e) -> excess e = mine (LedgerEntryKey e) (-1).
Proof. unfold excess, LedgerEntryKey. by destruct (le_data e). Qed.

Lemma run_erase_sub k s0 s d (Q : unit -> LState -> Prop) :
  moves s0 s d -> no_account k -> (forall s', moves s0 s' (d + mine k 1) -> Q tt s') -> run (ltx_erase k) s Q.
Proof.
  intros M Hk H. eapply run_erase; [exact M|]. intros e s' _ Ke M'. apply H. eapply moves_eq; [|exact M'].
  cbn [weight sub_measure]. rewrite excess_sub by (by rewrite Ke). rewrite Ke. unfold mine. destruct (_ =? _); lia.
Qed.

Lemma run_create_sub e s0 s d (Q : LedgerKey -> LState -> Prop) :
  moves s0 s d -> no_account (LedgerEntryKey e) ->
  (forall s', moves s0 s' (d + mine (LedgerEntryKey e) (-1)) -> Q (LedgerEntryKey e) s') -> run (ltx_create e) s Q.
Proof.
  intros M Hk H. eapply run_create; [exact M| |].
  - cbn. unfold count_ok. unfold LedgerEntryKey in Hk. by destruct (le_data e).
  - intros s' M'. apply H. cbn [weight sub_measure] in M'. by rewrite excess_sub in M'.
Qed.

(** the account of a handle counts one more or less *)
Lemma run_countEntry i acc h c s0 s d (Q : bool -> LState -> Prop) :
  (acc = Some (KeyAccount i) \/ acc = None) -> moves s0 s d -> -1 <= c <= 1 ->
  (forall ok s', (c <= 0 -> ok = true) ->
     moves s0 s' (d + if ok : bool then mine (KeyAccount i) c else 0) -> Q ok s') ->
  run (updateEntry acc (fun e => addNumEntries h e c)) s Q.
Proof.
  intros Ho M Hc H. unfold updateEntry. apply run_bind, run_active. intros k ->. destruct Ho as [[= ->]|]; [|done].
  by eapply run_count.
Qed.

Ltac mine_lia := unfold mine; cbn [owner LedgerEntryKey le_data]; repeat case_match; lia.

(** ** Crossing offers *)

Section Code.
Context {U : UInt128}.

#[export] Instance sub_settleOffer i o r : Keeps (settleOffer i o r).
Proof.
  apply keeps_nested, keeps_run. intros s G M.
  rstep. apply run_bind. eapply run_load; [exact M|]. intros h s1 Hh M1. clear M. rstep. subst h.
  destruct Hh as [[= ->]|]; [|done]. rif.
  - apply run_bind. apply run_bind. eapply run_erase_sub; [exact M1|done|]. clear M1. intros s2 M.
    apply run_bind. eapply run_loadAccount; [exact M|]. clear M. intros acc s3 _ Ha M.
    apply run_bind, run_active. intros k ->. destruct Ha as [[= ->]|]; [|done].
    apply run_bind. eapply run_count; [exact M|lia|]. clear M. intros ok s4 Hok M. rewrite Hok in M by lia.
    do 2 apply run_ret. eapply moves_eq; [|exact M]. mine_lia.
  - by repeat rstep.
Qed.

#[export] Instance sub_payOrThrow h acc w x d msg : Keeps (payOrThrow h acc w x d msg).
Proof. unfold payOrThrow. apply _. Qed.

#[export] Instance sub_crossOfferV10 k mwr mss p t : Keeps (crossOfferV10 k mwr mss p t).
Proof. unfold crossOfferV10. apply _. Qed.

#[export] Instance sub_payInNestedTxn i x d : Keeps (payInNestedTxn i x d).
Proof. unfold payInNestedTxn. apply _. Qed.

Lemma offer_key s k e o : good s -> st_entries s !! k = Some e -> le_data e = OFFER o ->
  k = KeyOffer (oe_sellerID o) (oe_offerID o).
Proof. intros G Ek Eo. rewrite <- (good_keys _ G _ _ Ek). unfold LedgerEntryKey. by rewrite Eo. Qed.

#[export] Instance sub_crossOffer k mwr mss t : Keeps (crossOffer k mwr mss t).
Proof.
  apply keeps_run. intros s G M. unfold crossOffer. do 2 rstep.
  apply run_bind, run_offerOf. intros e o Ek Eo. rewrite (offer_key _ _ _ _ G Ek Eo).
  rstep. rif; [|apply run_throw]. do 4 rstep. destruct a3 as [[[t0 w] sh] n].
  assert (Hend : forall s', moves s s' 0 ->
    run (ok1 ← (if negb (sh =? 0) then payInNestedTxn (oe_sellerID o) (oe_buying o) sh else mret true);
         if negb ok1 then mret (eOfferCantConvert, w, sh, t)
         else ok2 ← (if negb (w =? 0) then payInNestedTxn (oe_sellerID o) (oe_selling o) (i64 (- w)) else mret true);
              if negb ok2 then mret (eOfferCantConvert, w, sh, t)
              else mret (if n =? 0 then eOfferTaken else eOfferPartial, w, sh,
                t ++ [mkClaimOfferAtom (oe_sellerID o) (oe_offerID o) (oe_selling o) w (oe_buying o) sh]))
      s' (fun _ s' => moves s s' 0)).
  { intros s' M'. revert M'. intros M'. eapply run_keeps; [apply _|exact M'|done]. }
  destruct t0; [|by apply run_ret|]; apply run_bind; apply (run_mono _ _ (fun _ s' => moves s s' 0)).
  all: try (rif; [|by repeat rstep]; apply run_bind; eapply run_erase_sub; [exact M|done|]; clear M; intros s5 M;
    apply run_bind; eapply run_loadAccount; [exact M|]; clear M; intros acc s6 _ Ha M;
    apply run_bind, run_active; intros k' ->; destruct Ha as [[= ->]|]; [|done];
    apply run_bind; eapply run_count; [exact M|lia|]; clear M; intros ok s7 Hok M; rewrite Hok in M by lia;
    apply run_ret; eapply moves_eq; [|exact M]; mine_lia).
  all: intros _ s' M'; by apply Hend.
Qed.

#[export] Instance sub_convertRound {R} sheep wheat p (f : option (LedgerEntry -> R -> res (OfferFilterResult * R))) c :
  Keeps (convertRound sheep wheat p f c).
Proof.
  unfold convertRound. apply keeps_bind; [apply _|]. intros [k|]; [|apply _].
  apply keeps_bind; [apply _|]. intros [r x]. destruct r; apply _.
Qed.

#[export] Instance sub_convertLoop {R} fuel sheep wheat p (f : option (LedgerEntry -> R -> res (OfferFilterResult * R))) c :
  Keeps (convertLoop fuel sheep wheat p f c).
Proof.
  revert c. induction fuel as [|fuel IH]; intros c; cbn [convertLoop]; [apply _|].
  apply keeps_bind; [apply _|]. intros []; apply _.
Qed.

#[export] Instance sub_convertWithOffers {R} sheep mss wheat mwr p
    (f : option (LedgerEntry -> R -> res (OfferFilterResult * R))) x t :
  Keeps (convertWithOffers sheep mss wheat mwr p f x t).
Proof. unfold convertWithOffers. apply _. Qed.

(** ** Operations *)

(** the signers of the account of a handle are replaced *)
Lemma run_setSigners i acc f s0 s d (Q : unit -> LState -> Prop) :
  (acc = Some (KeyAccount i) \/ acc = None) -> moves s0 s d ->
  (forall x, acc_accountID (f x) = acc_accountID x /\ acc_numSubEntries (f x) = acc_numSubEntries x) ->
  (forall x s', acc_of s i = Some x ->
     moves s0 s' (d + mine (KeyAccount i)
       (Z.of_nat (length (acc_signers x)) - Z.of_nat (length (acc_signers (f x))))) ->
     acc_of s' i = Some (f x) -> Q tt s') ->
  run (modifyAccount acc f) s Q.
Proof.
  intros Ho M Hf H. unfold modifyAccount, updateEntry. apply run_bind, run_active. intros k ->.
  destruct Ho as [[= ->]|]; [|done]. intros [] s' E.
  pose proof E as (e0 & e1 & Ee0 & Ef0 & Es & _)%ltx_update_ok.
  apply bind_ok_inv in Ef0 as (x & Hx%get_account_ok & [= <-]).
  assert (Hg : forall e y e', LedgerEntryKey e = KeyAccount i -> weight_ok e ->
    (a0 ← get_account e; Ok (tt, set_le_data (ACCOUNT (f a0)) e)) = Ok (y, e') ->
    LedgerEntryKey e' = LedgerEntryKey e /\ weight_ok e').
  { intros e y e' _ Hr (z & Hz%get_account_ok & [= <- <-])%bind_ok_inv. cbn in *.
    unfold LedgerEntryKey, count_ok in *. cbn. rewrite Hz in *. destruct (Hf z) as [-> ->]. done. }
  destruct (update_moves _ _ _ _ _ (moves_good _ _ _ M) E Hg) as (e & e' & Ee & Hk & Hr & Ef & M').
  rewrite Ee0 in Ee. injection Ee as <-. rewrite (proj2 (get_account_iff _ _) Hx) in Ef. injection Ef as <-.
  eapply H; [by unfold acc_of; rewrite Ee0, Hx| |].
  - eapply moves_eq; [|by eapply moves_trans]. cbn [weight sub_measure]. unfold excess, LedgerEntryKey in *. cbn.
    rewrite Hx in *. destruct (Hf x) as [-> ->]. injection Hk as ->. mine_lia.
  - unfold acc_of. by rewrite Es, lookup_insert_eq.
Qed.

Lemma count_signers k h c ok s s' i x :
  ltx_update k (fun e => addNumEntries h e c) s = Ok (ok, s') -> acc_of s i = Some x ->
  exists x', acc_of s' i = Some x' /\ acc_signers x' = acc_signers x.
Proof.
  intros (e & e' & Ee & Hf & Es & _)%ltx_update_ok Hx. unfold acc_of in *. rewrite Es.
  destruct (decide (k = KeyAccount i)) as [->|Hk]; [|by rewrite lookup_insert_ne; eauto].
  rewrite lookup_insert_eq. rewrite Ee in Hx. unfold addNumEntries in Hf.
  apply bind_ok_inv in Hf as (acc & Ha%get_account_ok & Hf). rewrite Ha in Hx. injection Hx as ->.
  entry_cases Hf; injection Hf as <- <-; cbn; rewrite ?Ha; eauto.
Qed.

Lemma run_deleteSigner h i acc key kept rest s0 s d (Q : unit -> LState -> Prop) :
  (acc = Some (KeyAccount i) \/ acc = None) -> moves s0 s d ->
  (exists x, acc_of s i = Some x /\ acc_signers x = kept ++ rest) ->
  (forall s', moves s0 s' d -> Q tt s') -> run (deleteSigner h acc key kept rest) s Q.
Proof.
  intros Ha. revert kept s. induction rest as [|y rest IH]; intros kept s M (x & Hx & Hs) H; cbn [deleteSigner].
  { by apply run_ret, H. }
  case_bool_decide.
  - apply run_bind. eapply (run_setSigners i); [exact Ha|exact M|done|]. clear M.
    intros x1 s1 Hx1 M Hx1'. rewrite Hx in Hx1. injection Hx1 as <-.
    apply run_bind. intros ok s2 E2. revert E2. unfold updateEntry. intros E2.
    apply ltm_bind_ok in E2 as (k & s1' & E1 & E2). assert (k = KeyAccount i /\ s1' = s1) as [-> ->].
    { destruct Ha as [->| ->]; [|done]. by injection E1. }
    destruct (count_signers _ _ _ _ _ _ _ _ E2 Hx1') as (x2 & Hx2 & Hs2).
    revert ok s2 E2 Hx2. change (run (ltx_update (KeyAccount i) (fun e => addNumEntries h e (-1))) s1
      (fun _ s2 => acc_of s2 i = Some x2 -> run (deleteSigner h acc key kept rest) s2 Q)).
    eapply run_count; [exact M|lia|]. clear M. intros ok s2 Hok M Hx2. rewrite Hok in M by lia.
    apply IH; [|by exists x2|done]. eapply moves_eq; [|exact M]. cbn [acc_signers set_acc_signers].
    rewrite Hs, !length_app. cbn [length]. mine_lia.
  - apply IH; [done| |done]. exists x. split; [done|]. by rewrite Hs, <- app_assoc.
Qed.

#[export] Instance sub_applySigner_none h x : Keeps (applySigner h None x).
Proof. by intros s r s' _ E. Qed.
#[export] Instance sub_applySigner h i x : Keeps (applySigner h (Some (KeyAccount i)) x).
Proof.
  apply keeps_run. intros s G M. unfold applySigner. apply run_bind, run_readAccount.
  intros k e acc [= <-] Ek Ea. assert (Hx : acc_of s i = Some acc) by (unfold acc_of; by rewrite Ek, Ea).
  apply run_bind. apply (run_mono _ _ (fun _ s' => moves s s' 0)).
  - rif.
    + rif.
      { apply run_bind. eapply (run_setSigners i); [by left|exact M|done|]. clear M. intros y s1 Hy M _.
        apply run_ret. eapply moves_eq; [|exact M]. cbn. rewrite length_map. mine_lia. }
      rif; [by apply run_ret|]. apply run_bind. eapply run_countEntry; [by left|exact M|lia|]. clear M.
      intros ok s1 _ M. destruct ok; cbn [negb]; [|by apply run_ret]. apply run_bind.
      eapply (run_setSigners i); [by left|exact M|done|]. clear M. intros y s2 _ M _. apply run_ret.
      eapply moves_eq; [|exact M]. cbn. rewrite length_app. cbn. mine_lia.
    + apply run_bind. eapply (run_deleteSigner h i); [by left|exact M|by exists acc|]. intros s1 M1. by apply run_ret.
  - clear M. intros r s1 M. destruct r; by repeat rstep.
Qed.

#[export] Instance sub_setOptions src op : Keeps (setOptions_doApply src op).
Proof. apply _. Qed.

(** an entry of the source is erased and its account counts one less *)
Lemma run_removeSub {A} k src h (r : A) s :
  no_account k -> owner k = src -> good s ->
  run (_ ← ltx_erase k;
       sourceAccount ← op_loadSourceAccount src;
       _ ← updateEntry sourceAccount (fun e => addNumEntries h e (-1));
       success r) s (fun _ s' => moves s s' 0).
Proof.
  intros Hk Hsrc G. apply run_bind. eapply run_erase_sub; [by apply moves_refl|done|]. intros s1 M.
  apply run_bind. eapply run_opLoad; [exact M|]. clear M. intros o s2 Ho _ M.
  apply run_bind. eapply run_countEntry; [exact Ho|exact M|lia|]. clear M. intros ok s3 Hok M.
  rewrite Hok in M by lia. apply run_ret. eapply moves_eq; [|exact M].
  unfold mine. rewrite Hsrc. cbn. destruct (_ =? _); lia.
Qed.
#[export] Instance sub_removeSub {A} k src h (r : A) :
  TCEq (owner k) src -> no_account k ->
  Keeps (_ ← ltx_erase k;
         sourceAccount ← op_loadSourceAccount src;
         _ ← updateEntry sourceAccount (fun e => addNumEntries h e (-1));
         success r).
Proof. intros Hs%TCEq_eq Hk s x s' G E. by eapply run_removeSub in E. Qed.

(** the source account counts one more and an entry is created, after a step
    that only reads *)
Lemma keeps_createSub {A B} src h (read : ltm B) (e : B -> LedgerEntry) (low r : A) :
  Quiet read -> (forall b, no_account (LedgerEntryKey (e b)) /\ owner (LedgerEntryKey (e b)) = src) ->
  Keeps (sourceAccount ← op_loadSourceAccount src;
         ok ← updateEntry sourceAccount (fun e => addNumEntries h e 1);
         if negb ok then fail low
         else b ← read; _ ← ltx_create (e b); success r).
Proof.
  intros Hq He. apply keeps_run. intros s G M. apply run_bind. eapply run_opLoad; [exact M|]. clear M.
  intros o s1 Ho _ M. apply run_bind. eapply run_countEntry; [exact Ho|exact M|lia|]. clear M.
  intros ok s2 _ M. destruct ok; cbn [negb]; [|by apply run_ret]. rstep. destruct (He a0) as [H1 H2].
  apply run_bind. eapply run_create_sub; [exact M|done|]. clear M. intros s4 M. apply run_ret.
  eapply moves_eq; [|exact M]. unfold mine. rewrite H2. cbn. destruct (_ =? _); lia.
Qed.

#[export] Instance sub_changeTrust src op : Keeps (changeTrust_doApply src op).
Proof.
  unfold changeTrust_doApply. do 2 (apply keeps_bind; [apply _|intros]).
  apply keeps_if; [apply _|]. apply keeps_if; [apply _|]. apply keeps_load_bind.
  - apply keeps_bind; [apply _|]. intros lim. apply keeps_if; [apply _|].
    apply keeps_if; [by apply sub_removeSub|apply _].
  - apply keeps_if; [apply _|]. apply keeps_bind; [apply _|]. intros [k|]; [|apply _].
    exact (keeps_createSub src _ _ (fun b : bool => newTrustLineEntry src (ct_line op) (ct_limit op)
      (if negb b then AUTHORIZED_FLAG else 0)) _ _ _ (fun _ => conj I eq_refl)).
Qed.

#[export] Instance sub_manageData src op : Keeps (manageData_doApply src op).
Proof.
  unfold manageData_doApply. apply keeps_bind; [apply _|]. intros h. apply keeps_if; [apply _|].
  apply keeps_load_bind; destruct (md_dataValue op); try apply _.
  - by apply sub_removeSub.
  - apply keeps_run. intros s G M.
    pose proof (keeps_createSub src h (mret tt) (fun _ => mkLedgerEntry 0 (DATA (mkDataEntry src (md_dataName op) l)))
      MANAGE_DATA_LOW_RESERVE MANAGE_DATA_SUCCESS _ (fun _ => conj I eq_refl)) as HK.
    intros r s' E. eapply HK; [exact G|exact E].
Qed.

#[export] Instance sub_removeOffers h t ci l : Keeps (removeOffers h t ci l).
Proof.
  induction l as [|k l IH]; cbn [removeOffers]; [apply _|].
  apply keeps_run. intros s G M. apply run_bind, run_offerOf. intros e o Ek Eo.
  rewrite (offer_key _ _ _ _ G Ek Eo). rif; [apply run_throw|]. zb. rif; [apply run_throw|].
  rstep. apply run_bind. eapply run_loadAccount; [exact M|]. clear M. intros acc s2 _ Ha M.
  apply run_bind. eapply run_countEntry; [exact Ha|exact M|lia|]. clear M. intros ok s3 Hok M.
  rewrite Hok in M by lia. apply run_bind. eapply run_erase_sub; [exact M|done|]. clear M. intros s4 M.
  eapply run_keeps; [exact IH|exact M|]. intros x s5 M5. eapply moves_eq; [|exact M5].
  unfold mine. cbn. rewrite Heqb. destruct (_ =? _); lia.
Qed.

#[export] Instance sub_allowTrust src op : Keeps (allowTrust_doApply src op).
Proof. unfold allowTrust_doApply. apply _. Qed.

#[export] Instance sub_createAccount src op : Keeps (createAccount_doApply src op).
Proof.
  unfold createAccount_doApply. apply keeps_bind; [apply _|]. intros [k|]; [apply _|].
  do 2 (apply keeps_bind; [apply _|]; intros ?; try (apply keeps_if; [apply _|])).
  do 2 (apply keeps_bind; [apply _|]; intros ?). apply keeps_if; [apply _|]. apply keeps_if; [apply _|].
  do 2 (apply keeps_bind; [apply _|]; intros ?). apply keeps_bind; [|apply _].
  apply keeps_run. intros s G M. eapply run_create; [exact M|cbn; unfold count_ok, is_count; cbn; lia|].
  intros s' M'. eapply moves_eq; [|exact M']. cbn. unfold excess. cbn. mine_lia.
Qed.

#[export] Instance sub_merge src dst : Keeps (merge_doApply src dst).
Proof.
  apply keeps_run. intros s G M. unfold merge_doApply. rstep. apply run_bind.
  eapply run_loadAccount; [exact M|]. clear M. intros oth s1 _ Ho M.
  destruct oth as [k|]; [|by apply run_ret]. destruct Ho as [[= ->]|]; [|done].
  assert (Hst : Quiet (staleBalance (ledgerVersion (st_header s)) src)) by (unfold staleBalance; apply _).
  rstep. rif; [by apply run_ret|]. apply run_bind. eapply run_opLoad; [exact M|]. clear M.
  intros h s3 Hh _ M. apply run_bind, run_readAccount. intros k e acc -> Ek Ea. destruct Hh as [[= ->]|]; [|done].
  rquiet. rif; [by apply run_ret|]. rif; [by apply run_ret|]. rif; [by apply run_ret|]. zb.
  apply run_bind. intros ok s5 E5. pose proof (keeps _ _ _ (moves_good _ _ _ M) E5) as M5.
  rif; [apply run_ret; eapply moves_eq; [|by eapply moves_trans]; lia|].
  apply run_bind, run_active. intros k [= <-]. apply run_bind.
  eapply run_erase; [eapply moves_trans; [exact M|exact M5]|]. intros e5 s6 Ee5 Ke5 M6. apply run_ret.
  eapply moves_eq; [|exact M6]. cbn [weight sub_measure]. unfold updateEntry in E5.
  apply ltm_bind_ok in E5 as (k5 & s4' & E1 & E5). injection E1 as <- <-.
  apply ltx_update_ok in E5 as (e1 & e2 & Ee1 & Hf & Es5 & _). rewrite Es5 in Ee5.
  destruct (decide (dst = src)) as [->|Hne].
  - rewrite lookup_insert_eq in Ee5. injection Ee5 as ->. rewrite Es, Ek in Ee1. injection Ee1 as <-.
    destruct (addBalance_counts _ _ _ _ _ Hf) as (_ & He & _). cbn in He. rewrite He.
    unfold excess. rewrite Ea. unfold mine. destruct (_ =? _); lia.
  - rewrite lookup_insert_ne in Ee5 by congruence. rewrite Es, Ek in Ee5. injection Ee5 as <-.
    unfold excess. rewrite Ea. unfold mine. destruct (_ =? _); lia.
Qed.

(** *** Payments *)

#[export] Instance sub_payDestination i x amt b : Keeps (payDestination i x amt b).
Proof. unfold payDestination. apply _. Qed.
#[export] Instance sub_walkPath src path x amt r : Keeps (walkPath src path x amt r).
Proof.
  revert x amt r. induction path as [|y path IH]; intros x amt r; cbn [walkPath]; [apply _|].
  case_bool_decide; [apply IH|]. apply keeps_bind; [apply _|]. intros b. apply keeps_if; [apply _|].
  apply keeps_bind; [apply _|]. intros [cr c]. apply keeps_bind; [apply _|]. intros _.
  destruct cr; apply _.
Qed.
#[export] Instance sub_paySource src x amt b1 b2 : Keeps (paySource src x amt b1 b2).
Proof. unfold paySource. apply _. Qed.
#[export] Instance sub_pathPayment src op : Keeps (pathPayment_doApply src op).
Proof.
  unfold pathPayment_doApply. do 4 (apply keeps_bind; [apply _|]; intros ?). apply keeps_if; [apply _|].
  apply keeps_bind; [apply _|]. intros []; [apply _|]. apply keeps_bind; [apply _|]. intros [?|[[? ?] ?]]; apply _.
Qed.
#[export] Instance sub_payment src op : Keeps (payment_doApply src op).
Proof.
  unfold payment_doApply. apply keeps_bind; [apply _|]. intros h. apply keeps_if; [apply _|].
  apply keeps_bind; [destruct (pathPayment_doCheckValid _); apply _|]. intros [ok r]. apply _.
Qed.

(** *** Operations that also change the header *)

Record steady (s s' : LState) : Prop := {
  steady_good : good s';
  steady_total : total s' = total s
}.

Lemma moves_steady s s' : moves s s' 0 -> steady s s'.
Proof. intros [_ H G]. split; [done|lia]. Qed.

Lemma steady_header s f :
  good s -> 8 <= ledgerVersion (f (st_header s)) -> steady s (set_st_header (f (st_header s)) s).
Proof. intros [G1 G2 G3] H. by split. Qed.

Lemma steady_trans s1 s2 s3 : steady s1 s2 -> steady s2 s3 -> steady s1 s3.
Proof. intros [] []. split; [done|congruence]. Qed.

Section Inflation.
Context {K : StrKeyOrder}.

#[export] Instance sub_payWinner w am tv st : Keeps (payWinner w am tv st).
Proof.
  destruct st as [left pay]. apply keeps_run. intros s G M. unfold payWinner. rstep. rif; [by apply run_ret|].
  rstep. apply run_bind. eapply run_keeps; [|exact M|].
  { apply keeps_if; [|apply _]. apply keeps_bind; [apply _|]. intros []; apply _. }
  clear M. intros q s1 M. rif; [by apply run_ret|]. rstep. destruct a1; [|by apply run_ret].
  pose proof (good_version _ G). rewrite (proj2 (Z.leb_gt _ _)) by lia. rstep. rstep. rstep.
  rif; [apply run_throw|by apply run_ret].
Qed.
#[export] Instance sub_payWinners ws am tv st : Keeps (payWinners ws am tv st).
Proof. revert st. induction ws as [|w ws IH]; intros st; cbn [payWinners]; apply _. Qed.

Lemma sub_inflation s : good s -> run inflation_doApply s (fun _ s' => steady s s').
Proof.
  intros G. unfold inflation_doApply. rstep. rif; [by apply run_ret, moves_steady, moves_refl|].
  apply run_bind, run_lift. intros mb _. apply run_bind, run_gets. apply run_bind, run_lift. intros ia _.
  apply run_bind. intros u s1 E. injection E as _ <-.
  set (s1 := set_st_header _ s). assert (S1 : steady s s1) by (by apply (steady_header s (fun lh =>
    set_inflationSeq (u32 (inflationSeq lh + 1)) (set_feePool 0 lh))), G).
  apply run_bind. eapply run_keeps; [apply _|apply moves_refl, S1|]. intros [left pay] s2 M.
  apply run_bind. intros u' s3 E3. injection E3 as _ <-. apply run_ret.
  eapply steady_trans; [exact S1|]. eapply steady_trans; [by apply moves_steady|].
  apply (steady_header s2 (fun lh => let lh := set_feePool (i64 (feePool lh + left)) lh in
    if ledgerVersion lh >? 7 then set_totalCoins (i64 (totalCoins lh + ia)) lh else lh)); [by destruct M|].
  pose proof (good_version _ (moves_good _ _ _ M)). cbn. by destruct (_ >? _).
Qed.
End Inflation.

(** *** Offers *)

#[export] Instance sub_settleSource h src x d msg : Keeps (settleSource h src x d msg).
Proof. unfold settleSource. apply _. Qed.
#[export] Instance sub_exchangeWithBook src o p c r : Keeps (exchangeWithBook src o p c r).
Proof.
  unfold exchangeWithBook. apply keeps_bind; [apply _|]. intros [?|[? ?]]; [apply _|].
  apply keeps_if; [apply _|]. apply keeps_bind; [apply _|]. intros [? ?].
  apply keeps_bind; [apply _|]. intros _. apply keeps_if; apply _.
Qed.

(** the offer is in the book again, or its owner counts one less *)
Lemma run_storeOffer_sub src o creating claimed s0 s (Q : bool * ManageOfferResult -> LState -> Prop) :
  oe_sellerID o = src -> moves s0 s (if creating : bool then 0 else mine (KeyAccount src) 1) ->
  (forall r s', Q (false, r) s') -> (forall r s', steady s0 s' -> Q (true, r) s') ->
  run (storeOffer src o creating claimed) s Q.
Proof.
  intros Ho M Hf Ht. unfold storeOffer. rstep. rif.
  - assert (Hend : forall o' t d, oe_sellerID o' = src -> good t -> total t = total s0 + d ->
      d = mine (KeyAccount src) 1 ->
      run (k ← ltx_create (mkLedgerEntry 0 (OFFER o'));
           header ← ltx_loadHeader;
           _ ← (if ledgerVersion header >=? 10 then acquireLiabilities header k else mret tt);
           success (MANAGE_OFFER_SUCCESS claimed
             (if creating then MANAGE_OFFER_CREATED o' else MANAGE_OFFER_UPDATED o'))) t Q).
    { intros o' t d Ho' Gt Tt ->. apply run_bind. eapply run_create_sub; [by apply moves_refl|done|].
      intros t1 Mt. do 2 rstep. apply run_success, Ht. split; [by destruct Mt|].
      rewrite (moves_total _ _ _ Mt), Tt. unfold mine. cbn. rewrite Ho'. destruct (_ =? _); lia. }
    apply run_bind. destruct creating.
    + apply run_bind. eapply run_opLoad; [exact M|]. clear M. intros acc s1 Ha _ M.
      apply run_bind. eapply run_countEntry; [exact Ha|exact M|lia|]. clear M. intros ok s2 _ M.
      destruct ok; cbn [negb]; [|by apply run_ret, run_fail]. rstep.
      apply run_bind. intros u t E. injection E as _ <-. apply run_ret.
      eapply Hend; [done| | |reflexivity].
      * by destruct (moves_good _ _ _ M).
      * apply (moves_total _ _ _ M).
    + apply run_ret. eapply Hend; [done|by destruct M|apply (moves_total _ _ _ M)|done].
  - destruct creating; cbn [negb].
    + rstep. by apply run_success, Ht, moves_steady.
    + apply run_bind. apply run_bind. eapply run_opLoad; [exact M|]. clear M. intros acc s1 Ha _ M.
      apply run_bind. eapply run_countEntry; [exact Ha|exact M|lia|]. clear M. intros ok s2 Hok M.
      rewrite Hok in M by lia. apply run_ret, run_success, Ht, moves_steady. eapply moves_eq; [|exact M]. mine_lia.
Qed.

Lemma run_takeOldOffer_sub src op s0 s d (Q : option (OfferEntry * bool) -> LState -> Prop) :
  moves s0 s d -> (forall s', Q None s') ->
  (forall fl b s', moves s0 s' (d + mine (KeyAccount src) 1) -> Q (Some (buildOffer src op fl, b)) s') ->
  run (takeOldOffer src op) s Q.
Proof.
  intros M Hn Hs. unfold takeOldOffer. apply run_bind. eapply run_load; [exact M|]. clear M.
  intros h s1 Hh M. destruct h as [k|]; [|by apply run_ret, Hn]. destruct Hh as [[= ->]|]; [|done].
  do 3 rstep. apply run_bind. eapply run_erase_sub; [exact M|done|]. intros s' M'. by apply run_ret, Hs.
Qed.

Lemma run_manageOffer_sub src op passive s (Q : bool * ManageOfferResult -> LState -> Prop) :
  good s -> (forall r s', Q (false, r) s') -> (forall r s', steady s s' -> Q (true, r) s') ->
  run (manageOffer_body src op passive) s Q.
Proof.
  intros G Hf Ht. pose proof (moves_refl s G) as M. unfold manageOffer_body. rstep.
  rif; [by apply run_fail, Hf|]. apply run_bind.
  assert (Hrest : forall fl b t, moves s t (if mo_offerID op =? 0 then 0 else mine (KeyAccount src) 1) ->
    run (exchanged ← (if 0 <? mo_amount op
                      then exchangeWithBook src (buildOffer src op fl) b (mo_offerID op =? 0)
                             (MANAGE_OFFER_SUCCESS [] (MANAGE_OFFER_CREATED (buildOffer src op fl)))
                      else mret (inr (oe_amount (buildOffer src op fl), [])));
         match exchanged with
         | inl f => fail f
         | inr (amount, claimed) =>
             storeOffer src (set_oe_amount amount (buildOffer src op fl)) (mo_offerID op =? 0) claimed
         end) t Q).
  { intros fl b t Mt. rstep. destruct a1 as [g|[am cl]]; [by apply run_fail, Hf|].
    by eapply run_storeOffer_sub; [|exact Mt|..]. }
  destruct (mo_offerID op =? 0); cbn [negb].
  - apply run_ret. by apply Hrest.
  - eapply run_takeOldOffer_sub; [exact M|intros; by apply run_fail, Hf|]. intros fl b t Mt. by apply Hrest.
Qed.

Lemma sub_manageOffer src op passive s :
  good s -> run (manageOffer_doApply src op passive) s (fun _ s' => steady s s').
Proof.
  intros G [ok r] s' (b & s1 & E & Hb)%nested_ok. revert E.
  assert (G1 : good (unshared s)) by (by eapply same_good; [|apply unshared_same]).
  enough (HR : run ('(ok, r) ← manageOffer_body src op passive; mret (ok, (ok, r))) (unshared s)
    (fun x t => fst x = true -> steady (unshared s) t)).
  { intros E. specialize (HR _ _ E). cbn in HR. destruct b.
    - specialize (HR eq_refl). eapply steady_trans; [|apply moves_steady, same_moves; [apply HR|exact Hb]].
      eapply steady_trans; [by apply moves_steady, same_moves, unshared_same|done].
    - by apply moves_steady, same_moves. }
  apply run_bind, run_manageOffer_sub; [done|intros; by apply run_ret|]. intros r' t Ht. by apply run_ret.
Qed.

(** ** Every operation *)

Context {K : StrKeyOrder}.

Lemma keeps_steady {R} (f : R -> InnerResult) (m : ltm (bool * R)) s :
  Keeps m -> good s -> run (with_inner f m) s (fun _ s' => steady s s').
Proof.
  intros Hm G. unfold with_inner. apply run_bind. eapply run_keeps; [exact Hm|by apply moves_refl|].
  intros [ok r] s' M. by apply run_ret, moves_steady.
Qed.

Lemma doApply_steady src b s : good s -> run (doApply src b) s (fun _ s' => steady s s').
Proof.
  intros G. destruct b; cbn [doApply]; try (apply keeps_steady; [apply _|exact G]).
  all: unfold with_inner; apply run_bind.
  - eapply run_mono; [by apply sub_manageOffer|]. intros [ok r] s' H. by apply run_ret.
  - eapply run_mono; [by apply sub_manageOffer|]. intros [ok r] s' H. by apply run_ret.
  - eapply run_mono; [by apply sub_inflation|]. intros [ok r] s' H. by apply run_ret.
Qed.

End Code.

(** ** What the measure says *)

#[export] Instance no_account_dec k : Decision (no_account k).
Proof. destruct k; apply _. Defined.

(** the trust lines, offers and data entries of the account *)
Definition subEntries (m : gmap LedgerKey LedgerEntry) : gmap LedgerKey LedgerEntry :=
  filter (fun ke => owner ke.1 = a /\ no_account ke.1) m.

(** the account itself is in the sum once *)
Definition account_excess (m : gmap LedgerKey LedgerEntry) : Z :=
  match m !! KeyAccount a with Some e => excess e | None => 0 end.

Lemma total_excess m :
  keys_ok m -> total_of m = account_excess m - Z.of_nat (size (subEntries m)).
Proof.
  induction m as [|k e m Hk IH] using map_ind; intros Hok; [done|].
  assert (He : LedgerEntryKey e = k) by (apply Hok, lookup_insert_eq).
  rewrite total_insert_fresh by done. rewrite IH.
  2: { intros k' e' H'. apply Hok. rewrite lookup_insert_ne; [done|]. intros ->. by rewrite Hk in H'. }
  cbn [weight sub_measure]. unfold subEntries, account_excess. destruct (decide (k = KeyAccount a)) as [->|Hne].
  - rewrite lookup_insert_eq, Hk. rewrite map_filter_insert_not'; [lia|cbn; tauto|by rewrite Hk].
  - rewrite lookup_insert_ne by done. destruct (decide (owner k = a /\ no_account k)) as [[Ho Hn]|Hno].
    + rewrite map_filter_insert_True by done. rewrite map_size_insert_None by (rewrite map_lookup_filter_None; by left).
      rewrite excess_sub, He by (by rewrite He). unfold mine. rewrite Ho, Z.eqb_refl. lia.
    + rewrite map_filter_insert_not'; [|done|by rewrite Hk].
      unfold excess, mine. rewrite He. destruct (Z.eqb_spec (owner k) a) as [Ho|]; [|lia].
      destruct k; cbn in *; try tauto. by subst.
Qed.

End Account.

(** ** The invariant *)

(** a ledger of a version since 8 whose entries have their keys and whose
    counts do not use the sign bit *)
Record counted (s : LState) : Prop := {
  counted_keys : keys_ok (st_entries s);
  counted_range : forall k e, st_entries s !! k = Some e -> count_ok e;
  counted_version : 8 <= ledgerVersion (st_header s)
}.

(** every account counts its signers and its other entries, and no entry
    belongs to an account that does not exist *)
Definition well_counted (s : LState) : Prop :=
  forall a, match acc_of s a with
            | Some x => acc_numSubEntries x =
                Z.of_nat (length (acc_signers x) + size (subEntries a (st_entries s)))
            | None => subEntries a (st_entries s) = ∅
            end.

Lemma counted_good a s : counted s <-> good (mu := sub_measure a) s.
Proof. split; intros [H1 H2 H3]; by split. Qed.

Lemma well_counted_total s :
  counted s -> well_counted s <-> forall a, total (mu := sub_measure a) s = 0.
Proof.
  intros G. unfold well_counted. apply forall_proper. intros a. unfold total.
  rewrite total_excess by apply G. unfold account_excess, acc_of.
  destruct (st_entries s !! KeyAccount a) as [e|] eqn:E.
  - pose proof (counted_keys _ G _ _ E) as He. unfold excess, LedgerEntryKey in *.
    destruct (le_data e) as [x| | |]; try done. injection He as Hx. unfold mine. cbn. rewrite Hx, Z.eqb_refl. lia.
  - rewrite <- map_size_empty_iff. lia.
Qed.

Lemma steady_counted s s' :
  counted s -> well_counted s -> (forall a, steady a s s') -> counted s' /\ well_counted s'.
Proof.
  intros G W S. assert (G' : counted s') by (apply (counted_good 0), S).
  split; [done|]. apply well_counted_total; [done|]. intros a. rewrite (steady_total _ _ _ (S a)).
  by apply (proj1 (well_counted_total s G)).
Qed.
