(* ===== verification/Invariants.v ===== *)
(** * What the program checks after each operation

    src/src/invariant/InvariantManagerImpl.cpp calls the enabled invariants
    with the difference that an operation has made.  This file models the
    manager and two invariants, ConservationOfLumens.cpp and
    AccountSubEntriesCountIsValid.cpp, and proves that no operation violates
    them. *)
From S2P Require Import Prelude Numeric Exchange LedgerEntries TransactionUtils LedgerTxn OfferBook LedgerState.
From S2P Require Import LedgerLogic OfferCross Operations OfferOperations Neutral Conservation OperationsKeep.
From S2P Require Import SubEntries.

(** ** The difference between two states

    [LedgerTxn::getDelta] has an element for each entry that was recorded: the
    entry after and before.  Here it has one for each entry of either state;
    the checks give the entries that did not change no weight. *)
Definition entry_delta (current previous : option LedgerEntry)
    : option (option LedgerEntry * option LedgerEntry) :=
  match current, previous with
  | None, None => None
  | _, _ => Some (current, previous)
  end.

Definition delta_of (s s' : LState) : LedgerTxnDelta :=
  mkLedgerTxnDelta (merge entry_delta (st_entries s') (st_entries s)) (st_header s', st_header s).

(** ** The sum of a measure over the differences *)

(** both versions of an entry are of the same kind *)
Definition same_key (cp : option LedgerEntry * option LedgerEntry) : Prop :=
  match cp with
  | (None, None) => False
  | (Some c, Some p) => LedgerEntryKey c = LedgerEntryKey p
  | _ => True
  end.

Section Delta.
Context {mu : Measure}.

(** the exact difference of one entry *)
Definition delta_weight (cp : option LedgerEntry * option LedgerEntry) : Z :=
  weight_at (fst cp) - weight_at (snd cp).

Lemma foldr_delta_map m :
  foldr (fun (kv : LedgerKey * (option LedgerEntry * option LedgerEntry)) acc => delta_weight (snd kv) + acc) 0
    (map_to_list m) = map_fold (fun _ cp acc => delta_weight cp + acc) 0 m.
Proof.
  rewrite map_fold_foldr. generalize (map_to_list m) as l.
  induction l as [|[k cp] l IH]; cbn; [done|]. by rewrite IH.
Qed.

Lemma delta_sum_insert (m : gmap LedgerKey (option LedgerEntry * option LedgerEntry)) k cp :
  map_fold (fun _ cp acc => delta_weight cp + acc) 0 (<[k := cp]> m) =
  map_fold (fun _ cp acc => delta_weight cp + acc) 0 m
  - match m !! k with Some x => delta_weight x | None => 0 end + delta_weight cp.
Proof.
  destruct (m !! k) as [x|] eqn:E.
  - rewrite <- (insert_delete_id m k x E) at 2. rewrite <- insert_delete_eq.
    rewrite !map_fold_insert_L by first [intros; lia|apply lookup_delete_eq]. lia.
  - rewrite map_fold_insert_L by first [intros; lia|done]. lia.
Qed.

Lemma delta_sum_empty m' :
  map_fold (fun _ cp acc => delta_weight cp + acc) 0 (merge entry_delta m' ∅) = total_of m'.
Proof.
  induction m' as [|k e m' Hk IH] using map_ind; [done|].
  rewrite <- (insert_merge_l _ m' ∅ k (Some e, None) e) by (by rewrite lookup_empty).
  rewrite delta_sum_insert, lookup_merge, Hk, lookup_empty, IH, total_insert, Hk.
  cbn. unfold delta_weight. cbn. lia.
Qed.

Lemma delta_sum m' m :
  map_fold (fun _ cp acc => delta_weight cp + acc) 0 (merge entry_delta m' m) = total_of m' - total_of m.
Proof.
  induction m as [|k e m Hk IH] using map_ind.
  - rewrite delta_sum_empty. replace (total_of ∅) with 0 by done. lia.
  - rewrite <- (insert_merge_r _ m' m k (m' !! k, Some e) e) by (by destruct (m' !! k)).
    rewrite delta_sum_insert, lookup_merge, Hk, IH, total_insert, Hk.
    unfold delta_weight. destruct (m' !! k); cbn; unfold delta_weight; cbn; lia.
Qed.

Lemma delta_same_keys s s' :
  keys_ok (st_entries s) -> keys_ok (st_entries s') ->
  Forall (fun kv => same_key (snd kv)) (map_to_list (delta_entry (delta_of s s'))).
Proof.
  intros K K'. apply Forall_forall. intros [k cp] H%elem_of_map_to_list. cbn in *.
  rewrite lookup_merge in H. revert H.
  destruct (st_entries s' !! k) eqn:E', (st_entries s !! k) eqn:E; cbn; intros [= <-]; cbn; try done.
  rewrite (K _ _ E). by apply K'.
Qed.

End Delta.

(** ** ConservationOfLumens *)

Definition calculateDeltaBalance (current previous : option LedgerEntry) : res Z :=
  _ ← assert_ (match current, previous with None, None => false | _, _ => true end);
  let is_account := match current, previous with
                    | Some e, _ | None, Some e => match le_data e with ACCOUNT _ => true | _ => false end
                    | None, None => false
                    end in
  if is_account : bool then
    c ← match current with Some e => a ← get_account e; Ok (acc_balance a) | None => Ok 0 end;
    p ← match previous with Some e => a ← get_account e; Ok (acc_balance a) | None => Ok 0 end;
    Ok (i64 (c - p))
  else Ok 0.

(** the messages *)
Inductive LumensViolation :=
| TotalCoinsMismatch (deltaTotalCoins deltaFeePool inflationPayouts : Z)
| PayoutsMismatch (deltaBalances inflationPayouts : Z)
| TotalCoinsChanged (previous current : Z)
| FeePoolChanged (previous current : Z)
| BalancesChanged (deltaBalances : Z).

(** [std::accumulate] over the entries *)
Definition sumDeltas (l : list (LedgerKey * (option LedgerEntry * option LedgerEntry))) : res Z :=
  foldl (fun acc kv => lhs ← acc; d ← calculateDeltaBalance (fst (snd kv)) (snd (snd kv)); Ok (i64 (lhs + d)))
    (Ok 0) l.

Definition lumens_checkOnOperationApply (result : InnerResult) (ltxDelta : LedgerTxnDelta)
    : res (option LumensViolation) :=
  let '(lhCurr, lhPrev) := delta_header ltxDelta in
  let deltaTotalCoins := i64 (totalCoins lhCurr - totalCoins lhPrev) in
  let deltaFeePool := i64 (feePool lhCurr - feePool lhPrev) in
  deltaBalances ← sumDeltas (map_to_list (delta_entry ltxDelta));
  match result with
  | InflationRes r =>
      match r with
      | INFLATION_SUCCESS payouts =>
          let inflationPayouts := foldl (fun lhs p => i64 (lhs + ip_amount p)) 0 payouts in
          if negb (deltaTotalCoins =? i64 (inflationPayouts + deltaFeePool))
          then Ok (Some (TotalCoinsMismatch deltaTotalCoins deltaFeePool inflationPayouts))
          else if negb (deltaBalances =? inflationPayouts)
          then Ok (Some (PayoutsMismatch deltaBalances inflationPayouts))
          else Ok None
      | _ => Throw XdrWrongUnion
      end
  | _ =>
      if negb (deltaTotalCoins =? 0) then Ok (Some (TotalCoinsChanged (totalCoins lhPrev) (totalCoins lhCurr)))
      else if negb (deltaFeePool =? 0) then Ok (Some (FeePoolChanged (feePool lhPrev) (feePool lhCurr)))
      else if negb (deltaBalances =? 0) then Ok (Some (BalancesChanged deltaBalances))
      else Ok None
  end.

(** *** The sum of the differences *)

#[local] Existing Instance coin_measure.

Lemma calculateDeltaBalance_ok cp :
  same_key cp -> calculateDeltaBalance (fst cp) (snd cp) = Ok (i64 (delta_weight cp)).
Proof.
  destruct cp as [[c|] [p|]]; cbn; intros H; try done; unfold calculateDeltaBalance, delta_weight, weight_at;
    cbn; unfold native, get_account; cbn.
  - unfold LedgerEntryKey in H. destruct (le_data c), (le_data p); try done.
  - by destruct (le_data c).
  - by destruct (le_data p).
Qed.

Lemma sumDeltas_ok l :
  Forall (fun kv => same_key (snd kv)) l ->
  sumDeltas l = Ok (i64 (foldr (fun kv acc => delta_weight (snd kv) + acc) 0 l)).
Proof.
  unfold sumDeltas. intros H.
  enough (Hx : forall x, foldl (fun (acc : res Z) (kv : LedgerKey * (option LedgerEntry * option LedgerEntry)) =>
      lhs ← acc; d ← calculateDeltaBalance (fst (snd kv)) (snd (snd kv)); Ok (i64 (lhs + d)))
      (Ok (i64 x)) l = Ok (i64 (x + foldr (fun kv acc => delta_weight (snd kv) + acc) 0 l))).
  { apply (Hx 0). }
  induction H as [|kv l Hk Hl IH]; intros x; cbn [foldl foldr]; [by rewrite Z.add_0_r|].
  rewrite bind_ok, (calculateDeltaBalance_ok _ Hk), bind_ok, i64_add_l, i64_add_r, IH.
  do 2 f_equal. lia.
Qed.

Lemma sumDeltas_coins s s' :
  good s -> good s' ->
  sumDeltas (map_to_list (delta_entry (delta_of s s'))) = Ok (i64 (coins s' - coins s)).
Proof.
  intros G G'. rewrite sumDeltas_ok by (apply delta_same_keys; [apply G|apply G']).
  rewrite foldr_delta_map. cbn [delta_of delta_entry]. by rewrite delta_sum.
Qed.

Lemma conserved_check r s s' :
  (forall x, r <> InflationRes x) -> good s -> conserved s s' ->
  lumens_checkOnOperationApply r (delta_of s s') = Ok None.
Proof.
  intros Hr G C. unfold lumens_checkOnOperationApply. cbn [delta_of delta_header].
  rewrite (sumDeltas_coins s s' G (cons_good _ _ C)), bind_ok.
  rewrite (cons_totalCoins _ _ C), (cons_feePool _ _ C), (cons_coins _ _ C), !Z.sub_diag.
  destruct r; try done. by destruct (Hr r).
Qed.

Lemma sum_payouts l x :
  foldl (fun lhs p => i64 (lhs + ip_amount p)) (i64 x) l = i64 (x + total_payouts l).
Proof.
  revert x. induction l as [|p l IH]; intros x; cbn [foldl total_payouts foldr]; [by rewrite Z.add_0_r|].
  rewrite i64_add_l, IH. f_equal. unfold total_payouts. lia.
Qed.

Lemma inflated_check payouts s s' :
  good s -> inflated s s' payouts ->
  lumens_checkOnOperationApply (InflationRes (INFLATION_SUCCESS payouts)) (delta_of s s') = Ok None.
Proof.
  intros G C. unfold lumens_checkOnOperationApply. cbn [delta_of delta_header].
  rewrite (sumDeltas_coins s s' G (inf_good _ _ _ C)), bind_ok, (inf_total _ _ _ C), (inf_coins _ _ _ C).
  change 0 with (i64 0). rewrite sum_payouts, Z.add_0_l, i64_add_l, i64_add_r, Z.eqb_refl.
  cbn [negb]. replace (coins s + total_payouts payouts - coins s) with (total_payouts payouts) by lia.
  by rewrite Z.eqb_refl.
Qed.

(** the amounts of an operation are 64-bit integers *)
Definition op_typed (b : OperationBody) : Prop :=
  match b with
  | CREATE_ACCOUNT op => is_i64 (ca_startingBalance op)
  | PAYMENT op => is_i64 (pay_amount op)
  | PATH_PAYMENT op => is_i64 (pp_destAmount op)
  | MANAGE_OFFER op => is_i64 (mo_amount op)
  | CREATE_PASSIVE_OFFER op => is_i64 (cp_amount op)
  | _ => True
  end.

Section Check.
Context {U : UInt128} {K : StrKeyOrder}.

Lemma with_inner_ok {R} (f : R -> InnerResult) (m : ltm (bool * R)) s ok r s' :
  with_inner f m s = Ok ((ok, r), s') -> exists x, m s = Ok ((ok, x), s') /\ r = f x.
Proof.
  unfold with_inner. intros ([ok' x] & s1 & E & H)%ltm_bind_ok. inv_run. injection H as -> ->. eauto.
Qed.

(** the totals are as before when the operation succeeds *)
Definition conserving_totals {R} (m : ltm (bool * R)) : Prop :=
  forall s, good s -> run m s (fun r s' => fst r = true -> conserved s s').

Lemma conserving_totals_ok {R} (m : ltm (bool * R)) : conserving m -> conserving_totals m.
Proof. intros H s G r s' E Hr. apply moves_conserved. by eapply (H s G). Qed.

Lemma keeps_totals {R} (m : ltm (bool * R)) : Keeps m -> conserving_totals m.
Proof. intros H. by apply conserving_totals_ok, keeps_conserving. Qed.

Lemma conserving_check {R} (f : R -> InnerResult) (m : ltm (bool * R)) s r s' :
  with_inner f m s = Ok ((true, r), s') -> (forall x y, f x <> InflationRes y) -> good s ->
  conserving_totals m -> lumens_checkOnOperationApply r (delta_of s s') = Ok None.
Proof.
  intros (x & E & ->)%with_inner_ok Hf G Hc. apply conserved_check; [auto|done|]. by eapply (Hc s G).
Qed.

(** An operation that passes its own validity check and is applied
    successfully satisfies the check of ConservationOfLumens: no operation
    other than inflation changes the sum of the native balances, the total
    number of coins or the fee pool, and inflation pays out exactly what it
    adds to the total.  The sum that the check computes wraps at 64 bits. *)
Lemma operation_conserves_coins src b s r s' :
  good s -> op_typed b ->
  doCheckValid src b (ledgerVersion (st_header s)) = None ->
  doApply src b s = Ok ((true, r), s') ->
  lumens_checkOnOperationApply r (delta_of s s') = Ok None.
Proof.
  intros G Ht Hv H. destruct b; cbn [doCheckValid doApply op_typed] in *;
    try apply fmap_None in Hv; try (eapply conserving_check; [exact H|done|done|]);
    try (apply keeps_totals, _).
  - by apply conserving_totals_ok, createAccount_conserves.
  - by apply conserving_totals_ok, payment_conserves.
  - by apply conserving_totals_ok, pathPayment_conserves.
  - intros t Gt. by apply manageOffer_conserves.
  - intros t Gt. by apply manageOffer_conserves.
  - by apply conserving_totals_ok, merge_conserves.
  - apply with_inner_ok in H as (x & E & ->).
    destruct (inflation_inflates s G _ _ E eq_refl) as (pay & Hp & Hi). cbn in Hp. subst x.
    by apply inflated_check.
Qed.

End Check.

(** ** AccountSubEntriesCountIsValid *)

Record SubEntriesChange := mkSubEntriesChange {
  sc_numSubEntries : Z;
  sc_signers : Z;
  sc_calculatedSubEntries : Z
}.

(** what [operator[]] inserts *)
Definition noChange : SubEntriesChange := mkSubEntriesChange 0 0 0.

Definition calculateDelta (current previous : option LedgerEntry) : Z :=
  let delta := match current with Some _ => 1 | None => 0 end in
  match previous with Some _ => delta - 1 | None => delta end.

(** [int32_t(... .size())] and [int32_t(numSubEntries)] of an entry that may be absent *)
Definition countOf (f : AccountEntry -> Z) (e : option LedgerEntry) : res Z :=
  match e with Some e => acc ← get_account e; Ok (i32 (f acc)) | None => Ok 0 end.
Definition signerCount (acc : AccountEntry) : Z := Z.of_nat (length (acc_signers acc)).

Definition addCalculated (id : AccountID) (d : Z) (m : gmap AccountID SubEntriesChange)
    : gmap AccountID SubEntriesChange :=
  let change := default noChange (m !! id) in
  <[id := mkSubEntriesChange (sc_numSubEntries change) (sc_signers change)
            (i32 (sc_calculatedSubEntries change + d))]> m.

Definition updateChangedSubEntriesCount (m : gmap AccountID SubEntriesChange)
    (current previous : option LedgerEntry) : res (gmap AccountID SubEntriesChange) :=
  match match current with Some e => Some e | None => previous end with
  | None => Throw AssertFailed
  | Some valid =>
      match le_data valid with
      | ACCOUNT acc =>
          let change := default noChange (m !! acc_accountID acc) in
          c ← countOf acc_numSubEntries current;
          p ← countOf acc_numSubEntries previous;
          sc ← countOf signerCount current;
          sp ← countOf signerCount previous;
          let signers := i32 (sc - sp) in
          Ok (<[acc_accountID acc := mkSubEntriesChange (i32 (c - p)) signers
                  (i32 (sc_calculatedSubEntries change + signers))]> m)
      | TRUSTLINE tl => Ok (addCalculated (tl_accountID tl) (calculateDelta current previous) m)
      | OFFER oe => Ok (addCalculated (oe_sellerID oe) (calculateDelta current previous) m)
      | DATA d => Ok (addCalculated (de_accountID d) (calculateDelta current previous) m)
      end
  end.

(** the messages *)
Inductive SubEntriesViolation :=
| CountMismatch (account : AccountID) (numSubEntries calculatedSubEntries : Z)
| DeletedHasSubEntries (account : AccountID) (otherSubEntries : Z).

Definition entry_deltas := list (LedgerKey * (option LedgerEntry * option LedgerEntry)).

Definition collectChanges (l : entry_deltas) : res (gmap AccountID SubEntriesChange) :=
  foldl (fun acc kv => m ← acc; updateChangedSubEntriesCount m (fst (snd kv)) (snd (snd kv))) (Ok ∅) l.

Definition firstMismatch (l : list (AccountID * SubEntriesChange)) : option SubEntriesViolation :=
  match List.find (fun kv => negb (sc_numSubEntries (snd kv) =? sc_calculatedSubEntries (snd kv))) l with
  | Some (id, change) => Some (CountMismatch id (sc_numSubEntries change) (sc_calculatedSubEntries change))
  | None => None
  end.

(** the second loop: an account that was deleted *)
Definition checkDeleted (changes : gmap AccountID SubEntriesChange) (kv : option LedgerEntry * option LedgerEntry)
    : res (option SubEntriesViolation) :=
  match kv with
  | (Some _, _) => Ok None
  | (None, None) => Throw AssertFailed
  | (None, Some previous) =>
      match le_data previous with
      | ACCOUNT account =>
          let change := default noChange (changes !! acc_accountID account) in
          let numSigners := i32 (u32 (u32 (acc_numSubEntries account + sc_numSubEntries change)
                                        - sc_signers change)) in
          Ok (if negb (numSigners =? i32 (signerCount account))
              then Some (DeletedHasSubEntries (acc_accountID account)
                     (i32 (i32 (acc_numSubEntries account) - i32 (signerCount account))))
              else None)
      | _ => Ok None
      end
  end.

Fixpoint firstDeleted (changes : gmap AccountID SubEntriesChange) (l : entry_deltas)
    : res (option SubEntriesViolation) :=
  match l with
  | [] => Ok None
  | kv :: l' =>
      v ← checkDeleted changes (snd kv);
      match v with
      | Some x => Ok (Some x)
      | None => firstDeleted changes l'
      end
  end.

Definition subEntries_checkOnOperationApply (ltxDelta : LedgerTxnDelta) : res (option SubEntriesViolation) :=
  let entries := map_to_list (delta_entry ltxDelta) in
  subEntriesChange ← collectChanges entries;
  match firstMismatch (map_to_list subEntriesChange) with
  | Some v => Ok (Some v)
  | None => firstDeleted subEntriesChange entries
  end.

(** *** What the changes are *)

(** the change of a number of an account *)
Definition numberOf (f : AccountEntry -> Z) (o : option LedgerEntry) : Z :=
  match o with
  | Some e => match le_data e with ACCOUNT acc => f acc | _ => 0 end
  | None => 0
  end.

Section Changes.
Variable b : AccountID.

Definition change_of (f : AccountEntry -> Z) (kv : LedgerKey * (option LedgerEntry * option LedgerEntry)) : Z :=
  if decide (fst kv = KeyAccount b) then numberOf f (fst (snd kv)) - numberOf f (snd (snd kv)) else 0.

Definition calc_of (kv : LedgerKey * (option LedgerEntry * option LedgerEntry)) : Z :=
  if decide (fst kv = KeyAccount b) then change_of signerCount kv
  else if owner (fst kv) =? b then calculateDelta (fst (snd kv)) (snd (snd kv)) else 0.

Lemma change_of_other f kv : fst kv <> KeyAccount b -> change_of f kv = 0.
Proof. intros H. unfold change_of. by rewrite decide_False. Qed.

Lemma change_of_account f cp :
  change_of f (KeyAccount b, cp) = numberOf f (fst cp) - numberOf f (snd cp).
Proof. unfold change_of. by rewrite decide_True. Qed.

Lemma calc_of_account cp : calc_of (KeyAccount b, cp) = change_of signerCount (KeyAccount b, cp).
Proof. unfold calc_of. by rewrite decide_True. Qed.

Lemma calc_of_sub k cp :
  no_account k -> calc_of (k, cp) = if owner k =? b then calculateDelta (fst cp) (snd cp) else 0.
Proof. intros H. unfold calc_of. cbn. rewrite decide_False; [done|by intros ->]. Qed.

Lemma calc_of_foreign k cp : owner k <> b -> calc_of (k, cp) = 0.
Proof.
  intros H. unfold calc_of. cbn. rewrite decide_False by (by intros ->). by rewrite (proj2 (Z.eqb_neq _ _) H).
Qed.

Definition sum_of (f : LedgerKey * (option LedgerEntry * option LedgerEntry) -> Z) (l : entry_deltas) : Z :=
  foldr (fun kv acc => f kv + acc) 0 l.

Lemma sum_of_cons f kv l : sum_of f (kv :: l) = f kv + sum_of f l.
Proof. done. Qed.

Lemma sum_of_app f l1 l2 : sum_of f (l1 ++ l2) = sum_of f l1 + sum_of f l2.
Proof. unfold sum_of. induction l1 as [|x l1 IH]; cbn; [done|]. rewrite IH. lia. Qed.

Lemma sum_of_change f l : KeyAccount b ∉ l.*1 -> sum_of (change_of f) l = 0.
Proof.
  induction l as [|[k cp] l IH]; [done|]. rewrite fmap_cons. intros [Hk Hl]%not_elem_of_cons.
  rewrite sum_of_cons, IH by done. unfold change_of. cbn. rewrite decide_False by done. done.
Qed.

Lemma sum_of_change_in f l cp :
  NoDup l.*1 -> (KeyAccount b, cp) ∈ l -> sum_of (change_of f) l = change_of f (KeyAccount b, cp).
Proof.
  induction l as [|kv l IH]; [by intros _ ?%elem_of_nil|]. rewrite fmap_cons, sum_of_cons.
  intros [Hk Hl]%NoDup_cons [Hx|Hx]%elem_of_cons.
  - subst kv. rewrite sum_of_change by done. lia.
  - rewrite IH by done. unfold change_of at 1. rewrite decide_False; [done|].
    intros Hb. apply Hk. rewrite Hb. change (KeyAccount b) with (KeyAccount b, cp).1. by apply list_elem_of_fmap_2.
Qed.

End Changes.

(** the versions of an entry have its key *)
Definition keyed (kv : LedgerKey * (option LedgerEntry * option LedgerEntry)) : Prop :=
  snd kv <> (None, None) /\
  (forall e, fst (snd kv) = Some e -> LedgerEntryKey e = fst kv) /\
  (forall e, snd (snd kv) = Some e -> LedgerEntryKey e = fst kv).

Definition change_at (m : gmap AccountID SubEntriesChange) (b : AccountID) : SubEntriesChange :=
  default noChange (m !! b).

(** the changes after the entries of [l] *)
Definition changes_ok (l : entry_deltas) (m : gmap AccountID SubEntriesChange) : Prop :=
  forall b, change_at m b = mkSubEntriesChange (i32 (sum_of (change_of b acc_numSubEntries) l))
              (i32 (sum_of (change_of b signerCount) l)) (i32 (sum_of (calc_of b) l)).

Lemma change_eq a a' b b' c c' :
  eqm32 a a' -> eqm32 b b' -> eqm32 c c' ->
  mkSubEntriesChange (i32 a) (i32 b) (i32 c) = mkSubEntriesChange (i32 a') (i32 b') (i32 c').
Proof. intros H1%i32_congr H2%i32_congr H3%i32_congr. congruence. Qed.

Lemma countOf_ok f k o id :
  k = KeyAccount id -> (forall e, o = Some e -> LedgerEntryKey e = k) -> exists z,
  countOf f o = Ok z /\ eqm32 z (numberOf f o).
Proof.
  intros -> Hk. destruct o as [e|]; cbn; [|by exists 0]. specialize (Hk e eq_refl).
  unfold LedgerEntryKey, get_account in *. destruct (le_data e) as [acc| | |]; try done. cbn.
  eexists. split; [done|]. apply i32_eqm.
Qed.

Lemma change_at_insert m i c b : change_at (<[i := c]> m) b = if decide (i = b) then c else change_at m b.
Proof.
  unfold change_at. case_decide as H; [subst; by rewrite lookup_insert_eq|by rewrite lookup_insert_ne].
Qed.

Lemma changes_ok_snoc l m m' kv :
  changes_ok l m ->
  (forall b, change_at m' b = mkSubEntriesChange
     (i32 (sc_numSubEntries (change_at m b) + change_of b acc_numSubEntries kv))
     (i32 (sc_signers (change_at m b) + change_of b signerCount kv))
     (i32 (sc_calculatedSubEntries (change_at m b) + calc_of b kv))) ->
  changes_ok (l ++ [kv]) m'.
Proof.
  intros H H' b. rewrite H', (H b), !sum_of_app, !sum_of_cons. cbn [sum_of foldr]. cbn. rewrite !Z.add_0_r.
  f_equal; i32_solve.
Qed.

(** no change for another account *)
Lemma change_at_cast l m b x :
  changes_ok l m -> x = 0 ->
  change_at m b = mkSubEntriesChange (i32 (sc_numSubEntries (change_at m b) + x))
    (i32 (sc_signers (change_at m b) + x)) (i32 (sc_calculatedSubEntries (change_at m b) + x)).
Proof. intros H ->. rewrite (H b). cbn. f_equal; i32_solve. Qed.

Lemma addCalculated_step l m k cp id :
  no_account k -> owner k = id -> changes_ok l m ->
  changes_ok (l ++ [(k, cp)]) (addCalculated id (calculateDelta (fst cp) (snd cp)) m).
Proof.
  intros Hk Ho H. eapply changes_ok_snoc; [exact H|]. intros b.
  unfold addCalculated. rewrite change_at_insert. fold (change_at m id).
  rewrite !change_of_other by (cbn; by intros ->). rewrite calc_of_sub, Ho by done.
  case_decide as Hb.
  - subst id b. rewrite Z.eqb_refl, (H (owner k)). cbn. f_equal; i32_solve.
  - rewrite (proj2 (Z.eqb_neq _ _) Hb). by eapply change_at_cast.
Qed.

Lemma update_step l m kv :
  keyed kv -> fst kv ∉ l.*1 -> changes_ok l m ->
  exists m', updateChangedSubEntriesCount m (fst (snd kv)) (snd (snd kv)) = Ok m' /\ changes_ok (l ++ [kv]) m'.
Proof.
  destruct kv as [k [c p]]. intros (Hn & Hc & Hp) Hk H. cbn [fst snd] in *.
  unfold updateChangedSubEntriesCount.
  destruct (match c with Some e => Some e | None => p end) as [v|] eqn:Ev; [|by destruct c, p].
  assert (Kv : LedgerEntryKey v = k) by (destruct c; simplify_eq; auto).
  unfold LedgerEntryKey in Kv. destruct (le_data v) as [acc|tl|oe|da];
    try (eexists; split; [done|]; subst k; by apply (addCalculated_step l m _ (c, p))).
  destruct (countOf_ok acc_numSubEntries k c (acc_accountID acc)) as (x1 & E1 & H1); [done..|].
  destruct (countOf_ok acc_numSubEntries k p (acc_accountID acc)) as (x2 & E2 & H2); [done..|].
  destruct (countOf_ok signerCount k c (acc_accountID acc)) as (x3 & E3 & H3); [done..|].
  destruct (countOf_ok signerCount k p (acc_accountID acc)) as (x4 & E4 & H4); [done..|].
  rewrite E1, E2, E3, E4, !bind_ok. eexists. split; [done|]. eapply changes_ok_snoc; [exact H|]. intros b.
  rewrite change_at_insert. fold (change_at m (acc_accountID acc)). subst k. case_decide as Hb.
  - subst b. rewrite calc_of_account, !change_of_account, (H (acc_accountID acc)). cbn.
    rewrite !(sum_of_change (acc_accountID acc)) by done.
    apply change_eq; rewrite ?i32_eqm, ?H1, ?H2, ?H3, ?H4; apply eqm32_eq; lia.
  - rewrite !change_of_other, calc_of_foreign by (cbn; congruence). by eapply change_at_cast.
Qed.

Lemma collect_from l1 l2 m :
  Forall keyed l2 -> NoDup (l1 ++ l2).*1 -> changes_ok l1 m ->
  exists m', foldl (fun acc kv => m ← acc; updateChangedSubEntriesCount m (fst (snd kv)) (snd (snd kv)))
    (Ok m) l2 = Ok m' /\ changes_ok (l1 ++ l2) m'.
Proof.
  revert l1 m. induction l2 as [|kv l2 IH]; intros l1 m Hk Hd H; cbn [foldl].
  { exists m. by rewrite app_nil_r. }
  apply Forall_cons in Hk as [Hkv Hk]. rewrite bind_ok.
  assert (Hnew : fst kv ∉ l1.*1).
  { rewrite fmap_app, NoDup_app in Hd. destruct Hd as (_ & Hd & _). intros Hin. apply (Hd _ Hin). by left. }
  destruct (update_step l1 m kv Hkv Hnew H) as (m1 & -> & H1).
  rewrite cons_middle, app_assoc in Hd |- *. by apply IH.
Qed.

Lemma collectChanges_ok l :
  Forall keyed l -> NoDup l.*1 -> exists m, collectChanges l = Ok m /\ changes_ok l m.
Proof. intros Hk Hd. by apply (collect_from [] l ∅). Qed.

Lemma delta_keyed s s' :
  keys_ok (st_entries s) -> keys_ok (st_entries s') ->
  Forall keyed (map_to_list (delta_entry (delta_of s s'))).
Proof.
  intros K K'. apply Forall_forall. intros [k cp] H%elem_of_map_to_list. cbn in H.
  rewrite lookup_merge in H. revert H.
  destruct (st_entries s' !! k) eqn:E', (st_entries s !! k) eqn:E; cbn; intros [= <-];
    (split; [done|]); cbn; split; intros e0; try done; intros [= <-]; auto.
Qed.

(** the change of the measure of SubEntries.v *)
Lemma delta_excess b kv :
  keyed kv ->
  delta_weight (mu := sub_measure b) (snd kv) = change_of b acc_numSubEntries kv - calc_of b kv.
Proof.
  destruct kv as [k [c p]]. intros (Hn & Hc & Hp). cbn [fst snd] in *.
  assert (Ha : forall o, (forall e, o = Some e -> LedgerEntryKey e = k) -> forall id, k = KeyAccount id ->
    weight_at (mu := sub_measure b) o = mine b k (numberOf acc_numSubEntries o - numberOf signerCount o)).
  { intros [e|] He id Hk; cbn; [|unfold mine; by destruct (_ =? _)]. unfold excess. rewrite (He e eq_refl).
    specialize (He e eq_refl). rewrite Hk in He. unfold LedgerEntryKey in He. by destruct (le_data e). }
  assert (Hs : forall o, (forall e, o = Some e -> LedgerEntryKey e = k) -> no_account k ->
    weight_at (mu := sub_measure b) o = mine b k (match o with Some _ => -1 | None => 0 end)).
  { intros [e|] He Hk; cbn; [|unfold mine; by destruct (_ =? _)].
    rewrite excess_sub by (by rewrite (He e eq_refl)). by rewrite (He e eq_refl). }
  unfold delta_weight. cbn [fst snd].
  destruct (decide (no_account k)) as [Hk|Hk].
  - rewrite !Hs, change_of_other, calc_of_sub by (try done; cbn; by intros ->). unfold mine, calculateDelta.
    cbn [fst snd]. destruct (_ =? _); [|lia]. destruct c, p; lia.
  - destruct k as [id| | |]; try by destruct Hk. rewrite (Ha c Hc id eq_refl), (Ha p Hp id eq_refl). unfold mine. cbn [owner].
    destruct (Z.eqb_spec id b) as [->|Hb].
    + rewrite calc_of_account, !change_of_account. cbn. lia.
    + rewrite change_of_other, calc_of_foreign by (cbn; congruence). lia.
Qed.

Lemma sum_excess b l :
  Forall keyed l -> foldr (fun kv acc => delta_weight (mu := sub_measure b) (snd kv) + acc) 0 l =
    sum_of (change_of b acc_numSubEntries) l - sum_of (calc_of b) l.
Proof.
  induction 1 as [|kv l Hk Hl IH]; [done|]. cbn [foldr]. rewrite IH, (delta_excess b kv Hk), !sum_of_cons. lia.
Qed.

Lemma firstMismatch_none l :
  Forall (fun kv => sc_numSubEntries (snd kv) = sc_calculatedSubEntries (snd kv)) l -> firstMismatch l = None.
Proof.
  unfold firstMismatch. induction 1 as [|[id c] l H _ IH]; [done|]. cbn [List.find snd] in *.
  by rewrite H, Z.eqb_refl.
Qed.

(** the second loop finds nothing: the change of a deleted account is minus
    what it had *)
Lemma firstDeleted_none l m l' :
  Forall keyed l -> NoDup l.*1 -> changes_ok l m -> l' ⊆ l -> firstDeleted m l' = Ok None.
Proof.
  intros Hk Hd Hm. induction l' as [|[k [c p]] l' IH]; intros Hl; [done|]. cbn [firstDeleted snd].
  assert (Hin : (k, (c, p)) ∈ l) by (apply Hl; by left).
  pose proof (proj1 (Forall_forall _ _) Hk _ Hin) as (Hn & _ & Hp). cbn [fst snd] in *.
  enough (E : checkDeleted m (c, p) = Ok None).
  { rewrite E, bind_ok. apply IH. intros x Hx. apply Hl. by right. }
  unfold checkDeleted. destruct c; [done|]. destruct p as [e|]; [|done]. specialize (Hp e eq_refl).
  unfold LedgerEntryKey in Hp. destruct (le_data e) as [acc| | |] eqn:Ee; [|done..]. subst k.
  fold (change_at m (acc_accountID acc)). rewrite (Hm (acc_accountID acc)). cbn [sc_numSubEntries sc_signers].
  rewrite !(sum_of_change_in _ _ _ (None, Some e)) by done. rewrite !change_of_account. cbn [fst snd numberOf].
  rewrite Ee.
  replace (i32 (u32 _)) with (i32 (signerCount acc)) by i32_solve. by rewrite Z.eqb_refl.
Qed.

(** No operation of a ledger of a version since 8 violates
    AccountSubEntriesCountIsValid, whether it succeeds or not: for every
    account, the change of [numSubEntries] that the check reads is the change
    of the number of signers, trust lines, offers and data entries that it
    counts in the difference of the states. *)
Lemma operation_passes_subentries_check {U : UInt128} {K : StrKeyOrder} src b s r s' :
  counted s -> doApply src b s = Ok (r, s') ->
  subEntries_checkOnOperationApply (delta_of s s') = Ok None.
Proof.
  intros G E. assert (S : forall a, steady a s s').
  { intros a. by eapply (doApply_steady a src b s); [apply counted_good|]. }
  assert (G' : counted s') by (apply (counted_good 0), S).
  unfold subEntries_checkOnOperationApply. set (l := map_to_list _).
  assert (Hk : Forall keyed l) by (apply delta_keyed; [apply G|apply G']).
  assert (Hd : NoDup l.*1) by apply NoDup_fst_map_to_list.
  destruct (collectChanges_ok l Hk Hd) as (m & -> & Hm). rewrite bind_ok, firstMismatch_none.
  { by apply (firstDeleted_none l). }
  apply Forall_forall. intros [a c] Ha%elem_of_map_to_list. cbn [snd].
  assert (Hc : c = change_at m a) by (unfold change_at; by rewrite Ha). rewrite Hc, (Hm a). cbn [sc_numSubEntries sc_calculatedSubEntries]. apply (f_equal i32).
  enough (foldr (fun kv acc => delta_weight (mu := sub_measure a) (snd kv) + acc) 0 l = 0)
    by (rewrite sum_excess in * by done; lia).
  subst l. rewrite foldr_delta_map. cbn [delta_of delta_entry]. rewrite delta_sum.
  pose proof (steady_total _ _ _ (S a)) as T. unfold total in T. rewrite T. lia.
Qed.

(** The second half of AccountSubEntriesCountIsValid cannot fail:
    for the differences of any two ledgers, the check never answers that a
    deleted account has sub-entries other than signers, because the number it
    compares with the signers is computed from the same difference. *)
Theorem deleted_account_check_is_vacuous s s' v :
  keys_ok (st_entries s) -> keys_ok (st_entries s') ->
  subEntries_checkOnOperationApply (delta_of s s') = Ok (Some v) ->
  exists a n c, v = CountMismatch a n c.
Proof.
  intros K K'. unfold subEntries_checkOnOperationApply. set (l := map_to_list _).
  assert (Hk : Forall keyed l) by (by apply delta_keyed).
  assert (Hd : NoDup l.*1) by apply NoDup_fst_map_to_list.
  destruct (collectChanges_ok l Hk Hd) as (m & -> & Hm). rewrite bind_ok.
  unfold firstMismatch. destruct (List.find _ _) as [[a c]|]; [intros [= <-]; eauto|].
  by rewrite (firstDeleted_none l m l).
Qed.
