(* ===== verification/InvariantManager.v ===== *)
(** * The manager of the invariants

    src/src/invariant/InvariantManagerImpl.cpp: registering and enabling
    invariants, and running the enabled ones on the difference that an
    operation has made.  An invariant is a value with its name, its strictness
    and its check; the pointers of the code are told apart by the names, which
    [registerInvariant] keeps distinct. *)
From S2P Require Import Prelude Numeric LedgerEntries LedgerTxn LedgerState LedgerLogic Operations OfferOperations.
From S2P Require Import Conservation SubEntries Invariants.

(** the messages of the modelled invariants *)
Inductive Violation :=
| LumensViolated (v : LumensViolation)
| SubEntriesViolated (v : SubEntriesViolation).

Record Invariant := mkInvariant {
  getName : string;
  isStrict : bool;
  inv_checkOnOperationApply : Operation -> InnerResult -> LedgerTxnDelta -> res (option Violation)
}.

(** ** The invariants *)

Definition ConservationOfLumens : Invariant :=
  mkInvariant "ConservationOfLumens" false (fun _ r d =>
    v ← lumens_checkOnOperationApply r d; Ok (option_map LumensViolated v)).
Definition AccountSubEntriesCountIsValid : Invariant :=
  mkInvariant "AccountSubEntriesCountIsValid" false (fun _ _ d =>
    v ← subEntries_checkOnOperationApply d; Ok (option_map SubEntriesViolated v)).

(** ** The state of the manager *)

Record InvariantManager := mkInvariantManager {
  (** [std::map<std::string, ...>]: in the order of the names *)
  mInvariants : list (string * Invariant);
  mEnabled : list Invariant;
  mInvariantFailureCount : Z;
  mFailureInformation : gmap string (Z * Violation)
}.

Definition emptyManager : InvariantManager := mkInvariantManager [] [] 0 ∅.

Definition set_mEnabled (l : list Invariant) (im : InvariantManager) : InvariantManager :=
  mkInvariantManager (mInvariants im) l (mInvariantFailureCount im) (mFailureInformation im).

Definition getEnabledInvariants (im : InvariantManager) : list string := map getName (mEnabled im).

(** [mInvariants[name] = invariant] for a new name *)
Fixpoint insertInvariant (name : string) (inv : Invariant) (l : list (string * Invariant))
    : list (string * Invariant) :=
  match l with
  | [] => [(name, inv)]
  | (n, i) :: l' => if String.ltb name n then (name, inv) :: l else (n, i) :: insertInvariant name inv l'
  end.

Definition findInvariant (name : string) (im : InvariantManager) : option Invariant :=
  snd <$> List.find (fun ni => String.eqb (fst ni) name) (mInvariants im).

Definition registerInvariant (inv : Invariant) (im : InvariantManager) : res InvariantManager :=
  match findInvariant (getName inv) im with
  | None => Ok (mkInvariantManager (insertInvariant (getName inv) inv (mInvariants im)) (mEnabled im)
                  (mInvariantFailureCount im) (mFailureInformation im))
  | Some _ => Throw (RuntimeError ("Invariant " ++ getName inv ++ " already registered"))
  end.

(** [std::regex]: [None] for a pattern that is not a regular expression *)
Class Regex := {
  regex : Type;
  regex_compile : string -> option regex;
  regex_match : string -> regex -> bool
}.

Definition isEnabled (inv : Invariant) (im : InvariantManager) : bool :=
  existsb (fun i => String.eqb (getName i) (getName inv)) (mEnabled im).

Section Enabling.
Context {R : Regex}.

(** the loop: what has been enabled before an exception stays enabled *)
Fixpoint enableMatching (r : regex) (l : list (string * Invariant)) (enabledSome : bool) (im : InvariantManager)
    : res bool * InvariantManager :=
  match l with
  | [] => (Ok enabledSome, im)
  | (name, inv) :: l' =>
      if regex_match name r then
        if negb (isEnabled inv im)
        then enableMatching r l' true (set_mEnabled (mEnabled im ++ [inv]) im)
        else (Throw (RuntimeError ("Invariant " ++ name ++ " already enabled")), im)
      else enableMatching r l' enabledSome im
  end.

Definition registeredNames (im : InvariantManager) : string :=
  match mInvariants im with
  | [] => " There are no registered invariants"
  | (n, _) :: l => " Registered invariants are: " ++ foldl (fun (lhs : string) rhs => (lhs ++ ", " ++ fst rhs)%string) n l
  end.

Definition enableInvariant (invPattern : string) (im : InvariantManager) : res unit * InvariantManager :=
  if String.eqb invPattern "" then (Throw (InvalidArgument "Invariant pattern must be non empty"), im)
  else
    match regex_compile invPattern with
    | None => (Throw (InvalidArgument ("Invalid invariant pattern '" ++ invPattern ++ "'")), im)
    | Some r =>
        match enableMatching r (mInvariants im) false im with
        | (Throw e, im') => (Throw e, im')
        | (Ok true, im') => (Ok tt, im')
        | (Ok false, im') =>
            (Throw (RuntimeError ("Invariant pattern '" ++ invPattern ++ "' did not match any invariants."
               ++ registeredNames im)), im')
        end
    end.

End Enabling.

(** ** Failures *)

(** the exception is fatal: the program aborts *)
Definition handleInvariantFailure (inv : Invariant) : res unit :=
  if isStrict inv then Throw InvariantDoesNotHold else Ok tt.

Definition onInvariantFailure (inv : Invariant) (message : Violation) (ledger : Z) (im : InvariantManager)
    : res InvariantManager :=
  _ ← handleInvariantFailure inv;
  Ok (mkInvariantManager (mInvariants im) (mEnabled im) (mInvariantFailureCount im + 1)
        (<[getName inv := (ledger, message)]> (mFailureInformation im))).

(** the loop over the enabled invariants *)
Fixpoint checkEnabled (l : list Invariant) (operation : Operation) (opres : InnerResult)
    (ltxDelta : LedgerTxnDelta) (im : InvariantManager) : res InvariantManager :=
  match l with
  | [] => Ok im
  | inv :: l' =>
      result ← inv_checkOnOperationApply inv operation opres ltxDelta;
      im' ← match result with
            | None => Ok im
            | Some message =>
                onInvariantFailure inv message (ledgerSeq (fst (delta_header ltxDelta))) im
            end;
      checkEnabled l' operation opres ltxDelta im'
  end.

Definition checkOnOperationApply (operation : Operation) (opres : InnerResult) (ltxDelta : LedgerTxnDelta)
    (im : InvariantManager) : res InvariantManager :=
  if ledgerVersion (fst (delta_header ltxDelta)) <? 8 then Ok im
  else checkEnabled (mEnabled im) operation opres ltxDelta im.

(** ** The manager stays in order *)

Definition names (l : list Invariant) : list string := map getName l.

(** no invariant is registered or enabled twice, and the enabled ones are
    registered *)
Record manager_ok (im : InvariantManager) : Prop := {
  mok_keys : Forall (fun ni => fst ni = getName (snd ni)) (mInvariants im);
  mok_registered : NoDup (mInvariants im).*1;
  mok_enabled : NoDup (names (mEnabled im));
  mok_subset : forall i, i ∈ mEnabled im -> (getName i, i) ∈ mInvariants im
}.

Lemma insertInvariant_perm n i l : insertInvariant n i l ≡ₚ (n, i) :: l.
Proof.
  induction l as [|[m j] l IH]; cbn; [done|]. destruct (String.ltb n m); [done|].
  rewrite IH. apply Permutation_swap.
Qed.

Lemma findInvariant_none n im : findInvariant n im = None -> n ∉ (mInvariants im).*1.
Proof.
  unfold findInvariant. destruct (List.find _ _) eqn:E; [done|]. intros _ ([m i] & -> & Hi)%list_elem_of_fmap.
  apply list_elem_of_In in Hi. apply (List.find_none _ _ E) in Hi. cbn in Hi. by rewrite String.eqb_refl in Hi.
Qed.

Lemma register_ok inv im im' : manager_ok im -> registerInvariant inv im = Ok im' -> manager_ok im'.
Proof.
  intros [H1 H2 H3 H4]. unfold registerInvariant. destruct (findInvariant _ _) eqn:E; [done|].
  intros [= <-]. pose proof (insertInvariant_perm (getName inv) inv (mInvariants im)) as Hp.
  split; cbn.
  - rewrite Hp. by constructor.
  - rewrite Hp. cbn. apply NoDup_cons. split; [by apply findInvariant_none|done].
  - done.
  - intros i Hi. rewrite Hp. right. by apply H4.
Qed.

Lemma isEnabled_false inv im : isEnabled inv im = false -> getName inv ∉ names (mEnabled im).
Proof.
  unfold isEnabled. intros H. apply not_true_iff_false in H. intros (i & Hi & Hin)%list_elem_of_fmap.
  apply H, existsb_exists. exists i. split; [by apply list_elem_of_In|]. by rewrite Hi, String.eqb_refl.
Qed.

Section EnablingOk.
Context {R : Regex}.

Lemma enableMatching_ok r l b im out im' :
  (forall n i, (n, i) ∈ l -> (n, i) ∈ mInvariants im) ->
  manager_ok im -> enableMatching r l b im = (out, im') -> manager_ok im'.
Proof.
  revert b im. induction l as [|[n i] l IH]; intros b im Hl H E; cbn in E.
  { by injection E as <- <-. }
  assert (Hl' : forall n0 i0, (n0, i0) ∈ l -> (n0, i0) ∈ mInvariants im) by (intros; apply Hl; by right).
  destruct (regex_match n r); [|by eapply IH]. destruct (isEnabled i im) eqn:Ei; cbn in E; [by injection E as <- <-|].
  eapply IH; [..|exact E]; [done|]. pose proof (Hl n i ltac:(left)) as Hi.
  destruct H as [H1 H2 H3 H4]. split; cbn; try done.
  - unfold names. rewrite map_app. cbn. apply NoDup_app. split; [done|]. split; [|apply NoDup_singleton].
    intros x Hx ->%list_elem_of_singleton. by apply isEnabled_false in Ei.
  - intros j [Hj|Hj]%elem_of_app; [by apply H4|]. apply list_elem_of_singleton in Hj as ->.
    rewrite Forall_forall in H1. pose proof (H1 _ Hi) as Hn. cbn in Hn. by rewrite <- Hn.
Qed.

Lemma enable_ok p im out im' : manager_ok im -> enableInvariant p im = (out, im') -> manager_ok im'.
Proof.
  intros H. unfold enableInvariant. destruct (String.eqb p ""); [by intros [= <- <-]|].
  destruct (regex_compile p) as [r|]; [|by intros [= <- <-]].
  destruct (enableMatching r _ false im) as [[[]|e] im1] eqn:E; intros [= <- <-];
    by eapply enableMatching_ok; [..|exact E].
Qed.

End EnablingOk.

Lemma checkEnabled_ok l op r d im im' :
  checkEnabled l op r d im = Ok im' -> manager_ok im -> manager_ok im'.
Proof.
  revert im. induction l as [|i l IH]; intros im E H; cbn in E; [by injection E as <-|].
  apply bind_ok_inv in E as (v & _ & E). apply bind_ok_inv in E as (im1 & E1 & E).
  apply (IH im1 E). destruct v as [m|]; [|by injection E1 as <-].
  unfold onInvariantFailure in E1. apply bind_ok_inv in E1 as (u & _ & [= <-]). by destruct H.
Qed.

(** ** What the manager does with the operations *)

(** the enabled invariants are the modelled ones *)
Definition modelled_only (im : InvariantManager) : Prop :=
  forall i, i ∈ mEnabled im -> i = ConservationOfLumens \/ i = AccountSubEntriesCountIsValid.

Lemma checkEnabled_silent l op r d im :
  (forall i, i ∈ l -> inv_checkOnOperationApply i op r d = Ok None) -> checkEnabled l op r d im = Ok im.
Proof.
  induction l as [|i l IH]; intros H; cbn; [done|]. rewrite (H i) by (by left). rewrite !bind_ok.
  apply IH. intros j Hj. apply H. by right.
Qed.

(** Claim C28: an operation that passes its own validity check and is applied
    successfully to a ledger of a version since 8 violates none of the modelled
    invariants: the manager, with ConservationOfLumens,
    AccountSubEntriesCountIsValid or both enabled, runs their checks on the
    difference that the operation has made, throws nothing and records no
    failure. *)
Theorem operation_violates_no_invariant {U : UInt128} {K : StrKeyOrder} src op s r s' im :
  good (mu := coin_measure) s -> counted s -> op_typed (op_body op) -> modelled_only im ->
  doCheckValid src (op_body op) (ledgerVersion (st_header s)) = None ->
  doApply src (op_body op) s = Ok ((true, r), s') ->
  checkOnOperationApply op r (delta_of s s') im = Ok im.
Proof.
  intros G C Ht Hm Hv E. unfold checkOnOperationApply. destruct (_ <? 8); [done|].
  apply checkEnabled_silent. intros i Hi. destruct (Hm i Hi) as [->| ->];
    cbn [inv_checkOnOperationApply ConservationOfLumens AccountSubEntriesCountIsValid].
  - by rewrite (operation_conserves_coins src (op_body op) s r s').
  - by rewrite (operation_passes_subentries_check src (op_body op) s (true, r) s').
Qed.

(** The manager keeps its lists in order: starting from a manager
    in which no invariant is registered or enabled twice and every enabled one
    is registered, [registerInvariant], [enableInvariant] and
    [checkOnOperationApply] keep it so, also when [enableInvariant] throws
    half way; and an invariant that is registered is refused. *)
Theorem manager_operations_keep_order {R : Regex} im :
  manager_ok im ->
  (forall inv im', registerInvariant inv im = Ok im' -> manager_ok im') /\
  (forall p out im', enableInvariant p im = (out, im') -> manager_ok im') /\
  (forall op r d im', checkOnOperationApply op r d im = Ok im' -> manager_ok im') /\
  (forall inv, getName inv ∈ (mInvariants im).*1 -> exists e, registerInvariant inv im = Throw e).
Proof.
  intros H. split; [by intros; eapply register_ok|]. split; [by intros; eapply enable_ok|]. split.
  - intros op r d im'. unfold checkOnOperationApply. destruct (_ <? 8); [by intros [= <-]|].
    intros E. by eapply checkEnabled_ok.
  - intros inv Hin. unfold registerInvariant. destruct (findInvariant _ _) eqn:E; [eauto|].
    by apply findInvariant_none in E.
Qed.
