(* ===== verification/Signatures.v ===== *)
(** * Signatures

    src/src/transactions/SignatureChecker.cpp and SignatureUtils.cpp.  A
    256-bit key or hash is its big-endian number, as in LedgerEntries.v, so the
    hint of a key, its last four bytes, is its remainder modulo 2 ^ 32.  SHA-256
    and the verification of Ed25519 signatures are parameters. *)
From S2P Require Import Prelude LedgerEntries Operations.

(** the cryptography of src/lib/libsodium *)
Class Crypto := {
  sha256 : list Z -> Z;
  (** [PubKeyUtils::verifySig(key, signature, hash)] *)
  verifySig : Z -> list Z -> Z -> bool
}.

Record DecoratedSignature := mkDecoratedSignature { ds_hint : Z; ds_signature : list Z }.

(** ** SignatureUtils *)

Definition getHint (bs : Z) : Z := bs mod 2 ^ 32.
Definition doesHintMatch (bs hint : Z) : bool := getHint bs =? hint.

Section Verify.
Context {C : Crypto}.

Definition verify (sig : DecoratedSignature) (signerKey : SignerKey) (hash : Z) : bool :=
  if negb (doesHintMatch (sk_key signerKey) (ds_hint sig)) then false
  else verifySig (sk_key signerKey) (ds_signature sig) hash.

Definition verifyHashX (sig : DecoratedSignature) (signerKey : SignerKey) : bool :=
  if negb (doesHintMatch (sk_key signerKey) (ds_hint sig)) then false
  else sk_key signerKey =? sha256 (ds_signature sig).

Definition signHashX (x : list Z) : DecoratedSignature :=
  mkDecoratedSignature (getHint (sha256 x)) x.

End Verify.

(** ** SignatureChecker *)

(** [std::set<SignerKey>], in its order *)
Fixpoint insertKey (k : SignerKey) (l : list SignerKey) : list SignerKey :=
  match l with
  | [] => [k]
  | x :: l' =>
      if bool_decide (k = x) then l
      else if SignerKey_ltb k x then k :: l
      else x :: insertKey k l'
  end.

Record SignatureChecker := mkSignatureChecker {
  mProtocolVersion : Z;
  mContentsHash : Z;
  mSignatures : list DecoratedSignature;
  mUsedSignatures : list bool;
  mUsedOneTimeSignerKeys : gmap AccountID (list SignerKey)
}.

Definition newSignatureChecker (protocolVersion contentsHash : Z) (signatures : list DecoratedSignature)
    : SignatureChecker :=
  mkSignatureChecker protocolVersion contentsHash signatures (map (fun _ => false) signatures) ∅.

(** [mUsedOneTimeSignerKeys[accountID].insert(key)] *)
Definition useOneTimeKey (accountID : AccountID) (k : SignerKey) (sc : SignatureChecker) : SignatureChecker :=
  mkSignatureChecker (mProtocolVersion sc) (mContentsHash sc) (mSignatures sc) (mUsedSignatures sc)
    (<[accountID := insertKey k (default [] (mUsedOneTimeSignerKeys sc !! accountID))]>
       (mUsedOneTimeSignerKeys sc)).
(** [mUsedSignatures[i] = true] *)
Definition useSignature (i : nat) (sc : SignatureChecker) : SignatureChecker :=
  mkSignatureChecker (mProtocolVersion sc) (mContentsHash sc) (mSignatures sc)
    (<[i := true]> (mUsedSignatures sc)) (mUsedOneTimeSignerKeys sc).

(** [split] by the type of the key *)
Definition signersOfType (t : Z) (signers : list Signer) : list Signer :=
  List.filter (fun s => sk_type (signer_key s) =? t) signers.

(** the weight that counts: an [uint32_t], capped since version 10 *)
Definition effectiveWeight (protocolVersion : Z) (s : Signer) : Z :=
  if (protocolVersion >? 9) && (signer_weight s >? UINT8_MAX) then UINT8_MAX else signer_weight s.

(** [totalWeight += w], an [int] and an [uint32_t] *)
Definition addWeight (totalWeight w : Z) : Z := i32 (u32 (totalWeight + w)).

Section Check.
Context {C : Crypto}.

(** the first loop: whether the weight is reached, and the total *)
Fixpoint checkPreAuth (accountID : AccountID) (signers : list Signer) (totalWeight neededWeight : Z)
    (sc : SignatureChecker) : bool * Z * SignatureChecker :=
  match signers with
  | [] => (false, totalWeight, sc)
  | s :: signers' =>
      if sk_key (signer_key s) =? mContentsHash sc then
        let sc := useOneTimeKey accountID (signer_key s) sc in
        let totalWeight := addWeight totalWeight (effectiveWeight (mProtocolVersion sc) s) in
        if totalWeight >=? neededWeight then (true, totalWeight, sc)
        else checkPreAuth accountID signers' totalWeight neededWeight sc
      else checkPreAuth accountID signers' totalWeight neededWeight sc
  end.

(** the inner loop of [verifyAll]: the first signer that the signature
    verifies, and the others *)
Fixpoint takeSigner (check : DecoratedSignature -> Signer -> bool) (sig : DecoratedSignature)
    (signers : list Signer) : option (Signer * list Signer) :=
  match signers with
  | [] => None
  | s :: signers' =>
      if check sig s then Some (s, signers')
      else match takeSigner check sig signers' with
           | Some (x, rest) => Some (x, s :: rest)
           | None => None
           end
  end.

(** [verifyAll], from signature [i] on *)
Fixpoint verifyAll (check : DecoratedSignature -> Signer -> bool) (i : nat)
    (signatures : list DecoratedSignature) (signers : list Signer) (totalWeight neededWeight : Z)
    (sc : SignatureChecker) : bool * Z * SignatureChecker :=
  match signatures with
  | [] => (false, totalWeight, sc)
  | sig :: signatures' =>
      match takeSigner check sig signers with
      | Some (s, rest) =>
          let sc := useSignature i sc in
          let totalWeight := addWeight totalWeight (effectiveWeight (mProtocolVersion sc) s) in
          if totalWeight >=? neededWeight then (true, totalWeight, sc)
          else verifyAll check (S i) signatures' rest totalWeight neededWeight sc
      | None => verifyAll check (S i) signatures' signers totalWeight neededWeight sc
      end
  end.

Definition checkSignature (accountID : AccountID) (signersV : list Signer) (neededWeight : Z)
    (sc : SignatureChecker) : bool * SignatureChecker :=
  if mProtocolVersion sc =? 7 then (true, sc)
  else
    let '(ok, totalWeight, sc) :=
      checkPreAuth accountID (signersOfType SIGNER_KEY_TYPE_PRE_AUTH_TX signersV) 0 neededWeight sc in
    if ok then (true, sc)
    else
      let '(ok, totalWeight, sc) :=
        verifyAll (fun sig s => verifyHashX sig (signer_key s)) 0 (mSignatures sc)
          (signersOfType SIGNER_KEY_TYPE_HASH_X signersV) totalWeight neededWeight sc in
      if ok then (true, sc)
      else
        let '(ok, totalWeight, sc) :=
          verifyAll (fun sig s => verify sig (signer_key s) (mContentsHash sc)) 0 (mSignatures sc)
            (signersOfType SIGNER_KEY_TYPE_ED25519 signersV) totalWeight neededWeight sc in
        (ok, sc).

End Check.

Definition checkAllSignaturesUsed (sc : SignatureChecker) : bool :=
  if mProtocolVersion sc =? 7 then true else forallb id (mUsedSignatures sc).

(** ** What the checker records *)

Section Recorded.
Context {C : Crypto}.
Variable P : AccountID -> SignerKey -> Prop.

(** the one-time keys that have been used, with their accounts *)
Definition used_within (sc : SignatureChecker) : Prop :=
  forall a keys k, mUsedOneTimeSignerKeys sc !! a = Some keys -> k ∈ keys -> P a k.

Lemma insertKey_elem k x l : x ∈ insertKey k l -> x = k \/ x ∈ l.
Proof.
  induction l as [|y l IH]; cbn [insertKey]; [intros ->%list_elem_of_singleton; by left|].
  case_bool_decide; [by right|]. destruct (SignerKey_ltb k y).
  - intros [->|Hx]%elem_of_cons; [by left|by right].
  - intros [->|Hx]%elem_of_cons; [right; by left|]. destruct (IH Hx); [by left|right; by right].
Qed.

Lemma useOneTimeKey_used a k sc : P a k -> used_within sc -> used_within (useOneTimeKey a k sc).
Proof.
  intros Hk Hu b keys x. cbn. destruct (decide (b = a)) as [->|Hb].
  - rewrite lookup_insert_eq. intros [= <-] [->|Hx]%insertKey_elem; [done|].
    destruct (mUsedOneTimeSignerKeys sc !! a) as [l|] eqn:E; cbn in Hx; [by eapply Hu|by apply elem_of_nil in Hx].
  - rewrite lookup_insert_ne by done. apply Hu.
Qed.

(** a pre-authorized transaction is recorded under the hash of the contents *)
Lemma checkPreAuth_used a signers total needed sc ok total' sc' :
  Forall (fun s => sk_type (signer_key s) = SIGNER_KEY_TYPE_PRE_AUTH_TX) signers ->
  (signers <> [] -> P a (mkSignerKey SIGNER_KEY_TYPE_PRE_AUTH_TX (mContentsHash sc))) -> used_within sc ->
  checkPreAuth a signers total needed sc = (ok, total', sc') -> used_within sc' /\ mContentsHash sc' = mContentsHash sc.
Proof.
  revert total sc. induction signers as [|s signers IH]; intros total sc Ht Hp Hu E; cbn [checkPreAuth] in E.
  { by injection E as <- <- <-. }
  apply Forall_cons in Ht as [Hs Ht]. destruct (Z.eqb_spec (sk_key (signer_key s)) (mContentsHash sc)) as [Hk|Hk].
  - assert (Hu1 : used_within (useOneTimeKey a (signer_key s) sc)).
    { apply useOneTimeKey_used; [|done]. specialize (Hp ltac:(done)). destruct (signer_key s); cbn in Hs, Hk. by subst. }
    cbv zeta in E. destruct (_ >=? _); [by injection E as <- <- <-|]. apply IH in E; try done. intros _. by apply Hp.
  - apply IH in E; try done. intros _. by apply Hp.
Qed.

Lemma verifyAll_used check i sigs signers total needed sc ok total' sc' :
  used_within sc -> verifyAll check i sigs signers total needed sc = (ok, total', sc') ->
  used_within sc' /\ mContentsHash sc' = mContentsHash sc.
Proof.
  revert i signers total sc. induction sigs as [|sig sigs IH]; intros i signers total sc Hu E; cbn [verifyAll] in E.
  { by injection E as <- <- <-. }
  destruct (takeSigner check sig signers) as [[s rest]|]; [|by eapply IH].
  cbv zeta in E. destruct (_ >=? _); [by injection E as <- <- <-|]. by apply IH in E.
Qed.

Lemma signersOfType_type t l : Forall (fun s => sk_type (signer_key s) = t) (signersOfType t l).
Proof. apply Forall_forall. intros s Hs%list_elem_of_In. apply filter_In in Hs as [_ Hs]. by apply Z.eqb_eq. Qed.

Lemma checkSignature_used a signers needed sc ok sc' :
  (signersOfType SIGNER_KEY_TYPE_PRE_AUTH_TX signers <> [] ->
   P a (mkSignerKey SIGNER_KEY_TYPE_PRE_AUTH_TX (mContentsHash sc))) -> used_within sc ->
  checkSignature a signers needed sc = (ok, sc') -> used_within sc' /\ mContentsHash sc' = mContentsHash sc.
Proof.
  intros Hp Hu. unfold checkSignature. destruct (_ =? 7); [by intros [= <- <-]|].
  destruct (checkPreAuth _ _ _ _ _) as [[ok1 t1] sc1] eqn:E1.
  apply checkPreAuth_used in E1 as [U1 H1]; [|apply signersOfType_type|done|done]. destruct ok1; [by intros [= <- <-]|].
  destruct (verifyAll _ _ _ _ _ _ sc1) as [[ok2 t2] sc2] eqn:E2.
  apply verifyAll_used in E2 as [U2 H2]; [|done]. destruct ok2; [intros [= <- <-]; split; [done|congruence]|].
  destruct (verifyAll _ _ _ _ _ _ sc2) as [[ok3 t3] sc3] eqn:E3.
  apply verifyAll_used in E3 as [U3 H3]; [|done]. intros [= <- <-]. split; [done|congruence].
Qed.

End Recorded.

(** ** What a positive answer means *)

Section Soundness.
Context {C : Crypto}.

(** a signer that has agreed to the contents: a pre-authorized transaction with
    this hash, the preimage of a hash, or a signature of the hash *)
Definition agreed (sc : SignatureChecker) (s : Signer) : Prop :=
  (sk_type (signer_key s) = SIGNER_KEY_TYPE_PRE_AUTH_TX /\ sk_key (signer_key s) = mContentsHash sc) \/
  (sk_type (signer_key s) = SIGNER_KEY_TYPE_HASH_X /\
     exists sig, sig ∈ mSignatures sc /\ sk_key (signer_key s) = sha256 (ds_signature sig)) \/
  (sk_type (signer_key s) = SIGNER_KEY_TYPE_ED25519 /\
     exists sig, sig ∈ mSignatures sc /\
       verifySig (sk_key (signer_key s)) (ds_signature sig) (mContentsHash sc) = true).

(** the total as the program adds it up *)
Definition totalOf (v : Z) (l : list Signer) : Z :=
  foldl (fun t s => addWeight t (effectiveWeight v s)) 0 l.

(** the parts of the checker that do not change *)
Record same_checker (sc sc' : SignatureChecker) : Prop := {
  same_version : mProtocolVersion sc' = mProtocolVersion sc;
  same_hash : mContentsHash sc' = mContentsHash sc;
  same_signatures : mSignatures sc' = mSignatures sc
}.

Lemma same_checker_refl sc : same_checker sc sc.
Proof. done. Qed.
Lemma same_checker_trans a b c : same_checker a b -> same_checker b c -> same_checker a c.
Proof. intros [] []. split; congruence. Qed.
Lemma agreed_same sc sc' s : same_checker sc sc' -> agreed sc' s -> agreed sc s.
Proof. intros [_ Hh Hs]. unfold agreed. by rewrite Hh, Hs. Qed.

Lemma totalOf_snoc v l s : totalOf v (l ++ [s]) = addWeight (totalOf v l) (effectiveWeight v s).
Proof. unfold totalOf. by rewrite foldl_app. Qed.

Lemma checkPreAuth_sound a signers used needed sc ok total sc' :
  Forall (fun s => sk_type (signer_key s) = SIGNER_KEY_TYPE_PRE_AUTH_TX) signers ->
  checkPreAuth a signers (totalOf (mProtocolVersion sc) used) needed sc = (ok, total, sc') ->
  exists new, new ⊆+ signers /\ Forall (agreed sc) new /\ same_checker sc sc' /\
    total = totalOf (mProtocolVersion sc) (used ++ new) /\ (ok = true -> needed <= total /\ new <> []).
Proof.
  revert used sc. induction signers as [|s signers IH]; intros used sc Ht E; cbn [checkPreAuth] in E.
  { injection E as <- <- <-. exists []. rewrite app_nil_r. by split_and!. }
  apply Forall_cons in Ht as [Hs Ht]. destruct (Z.eqb_spec (sk_key (signer_key s)) (mContentsHash sc)) as [Hk|Hk].
  - cbv zeta in E. set (sc1 := useOneTimeKey a (signer_key s) sc) in *.
    change (mProtocolVersion sc1) with (mProtocolVersion sc) in E. rewrite <- totalOf_snoc in E.
    assert (Ha : agreed sc s) by (by left). destruct (_ >=? _) eqn:Hge.
    + injection E as <- <- <-. exists [s]. split_and!; try done; [by apply submseteq_skip, submseteq_nil_l|by constructor|].
      intros _. rewrite Z.geb_leb in Hge. zb. split; [lia|done].
    + change (mProtocolVersion sc) with (mProtocolVersion sc1) in E.
      apply IH in E as (new & Hn & Hg & Hc & -> & Ho); [|done]. exists (s :: new).
      split; [by apply submseteq_skip|]. split; [by constructor; [|exact Hg]|]. split; [destruct Hc; by split|].
      rewrite <- app_assoc in *. split; [done|]. intros Hok. by destruct (Ho Hok).
  - apply IH in E as (new & Hn & Hg & Hc & -> & Ho); [|done]. exists new.
    split; [by apply submseteq_cons|]. done.
Qed.

Lemma takeSigner_sound check sig signers s rest :
  takeSigner check sig signers = Some (s, rest) -> signers ≡ₚ s :: rest /\ check sig s = true.
Proof.
  revert rest. induction signers as [|x signers IH]; intros rest E; cbn in E; [done|].
  destruct (check sig x) eqn:Ec; [by injection E as -> ->|].
  destruct (takeSigner check sig signers) as [[y rest']|]; [|done]. injection E as -> <-.
  destruct (IH _ eq_refl) as [Hp Hc]. split; [|done]. rewrite Hp. apply Permutation_swap.
Qed.

Lemma verifyAll_sound check i sigs signers used needed sc ok total sc' :
  (forall sig s, sig ∈ sigs -> s ∈ signers -> check sig s = true -> agreed sc s) ->
  verifyAll check i sigs signers (totalOf (mProtocolVersion sc) used) needed sc = (ok, total, sc') ->
  exists new, new ⊆+ signers /\ Forall (agreed sc) new /\ same_checker sc sc' /\
    total = totalOf (mProtocolVersion sc) (used ++ new) /\ (ok = true -> needed <= total /\ new <> []).
Proof.
  revert i signers used sc. induction sigs as [|sig sigs IH]; intros i signers used sc Hc E; cbn [verifyAll] in E.
  { injection E as <- <- <-. exists []. rewrite app_nil_r. split_and!; try done. apply submseteq_nil_l. }
  destruct (takeSigner check sig signers) as [[s rest]|] eqn:Et.
  - apply takeSigner_sound in Et as [Hp Hs]. cbv zeta in E. set (sc1 := useSignature i sc) in *.
    change (mProtocolVersion sc1) with (mProtocolVersion sc) in E. rewrite <- totalOf_snoc in E.
    assert (Ha : agreed sc s) by (eapply Hc; [by left|rewrite Hp; by left|exact Hs]). destruct (_ >=? _) eqn:Hge.
    + injection E as <- <- <-. exists [s].
      split_and!; try done; [rewrite Hp; by apply submseteq_skip, submseteq_nil_l|by constructor|].
      intros _. rewrite Z.geb_leb in Hge. zb. split; [lia|done].
    + change (mProtocolVersion sc) with (mProtocolVersion sc1) in E.
      apply IH in E as (new & Hn & Hg & Hc' & -> & Ho).
      * exists (s :: new). split; [rewrite Hp; by apply submseteq_skip|]. split; [by constructor; [|exact Hg]|].
        split; [destruct Hc'; by split|]. rewrite <- app_assoc in *. split; [done|]. intros Hok. by destruct (Ho Hok).
      * intros sig' s' H1 H2. apply Hc; [by right|rewrite Hp; by right].
  - apply IH in E as (new & Hn & Hg & Hc' & -> & Ho); [by exists new|]. intros sig' s' H1. apply Hc. by right.
Qed.

Lemma signersOfType_sub t l : signersOfType t l ⊆+ l.
Proof.
  unfold signersOfType. induction l as [|s l IH]; cbn [List.filter]; [done|]. destruct (_ =? t); [by apply submseteq_skip|by apply submseteq_cons].
Qed.

(** signers of different types do not overlap *)
Lemma signers_split l :
  signersOfType SIGNER_KEY_TYPE_PRE_AUTH_TX l ++ signersOfType SIGNER_KEY_TYPE_HASH_X l
    ++ signersOfType SIGNER_KEY_TYPE_ED25519 l ⊆+ l.
Proof.
  unfold signersOfType. induction l as [|s l IH]; cbn [List.filter]; [done|].
  set (t := sk_type (signer_key s)). clearbody t.
  destruct (Z.eqb_spec t SIGNER_KEY_TYPE_PRE_AUTH_TX) as [->|H1]; cbn; [by apply submseteq_skip|].
  destruct (Z.eqb_spec t SIGNER_KEY_TYPE_HASH_X) as [->|H2]; cbn.
  { rewrite <- Permutation_middle. by apply submseteq_skip. }
  destruct (Z.eqb_spec t SIGNER_KEY_TYPE_ED25519) as [->|H3]; cbn; [|by apply submseteq_cons].
  rewrite app_assoc, <- Permutation_middle, <- app_assoc. by apply submseteq_skip.
Qed.

Lemma verify_agreed sc sig s :
  sk_type (signer_key s) = SIGNER_KEY_TYPE_ED25519 -> sig ∈ mSignatures sc ->
  verify sig (signer_key s) (mContentsHash sc) = true -> agreed sc s.
Proof.
  intros Ht Hs. unfold verify. destruct (negb _); [done|]. intros Hv. right. right. eauto.
Qed.

Lemma verifyHashX_agreed sc sig s :
  sk_type (signer_key s) = SIGNER_KEY_TYPE_HASH_X -> sig ∈ mSignatures sc ->
  verifyHashX sig (signer_key s) = true -> agreed sc s.
Proof.
  intros Ht Hs. unfold verifyHashX. destruct (negb _); [done|]. intros Hv. zb. right. left. eauto.
Qed.

(** no overflow since version 10: a weight counts at most 255 *)
Lemma totalOf_exact v l :
  9 < v -> Forall (fun s => 0 <= signer_weight s) l -> (length l <= S MAX_SIGNERS)%nat ->
  totalOf v l = foldr (fun s t => effectiveWeight v s + t) 0 l /\
  0 <= totalOf v l <= 255 * Z.of_nat (length l).
Proof.
  intros Hv. induction l as [|s l IH] using rev_ind; intros Hw Hl; [done|].
  apply Forall_app in Hw as [Hw Hs]. apply Forall_cons in Hs as [Hs _]. rewrite length_app in *. cbn [length] in *.
  assert (MAX_SIGNERS = 20%nat) as Hmax by done.
  destruct (IH Hw ltac:(lia)) as [E B]. rewrite totalOf_snoc, foldr_app. cbn [foldr].
  assert (He : 0 <= effectiveWeight v s <= 255).
  { unfold effectiveWeight, UINT8_MAX. destruct (v >? 9) eqn:E9; [|zb; lia].
    destruct (signer_weight s >? 255) eqn:Eg; cbn [andb]; zb; lia. }
  assert (Hf : forall x, foldr (fun s t => effectiveWeight v s + t) x l = foldr (fun s t => effectiveWeight v s + t) 0 l + x).
  { intros x. clear. induction l as [|y l IH]; cbn; [lia|]. rewrite IH. lia. }
  rewrite Hf, <- E. unfold addWeight. rewrite u32_id, i32_id by zlia. lia.
Qed.

(** Claim C31: a positive answer of [SignatureChecker::checkSignature] is
    earned: except for protocol version 7, which accepts everything, it means
    that some of the given signers, none counted twice and at least one, have
    agreed to the transaction, by a pre-authorization of its hash, by the
    preimage of a hash among the signatures, or by a signature among them that
    verifies for their key and the hash, and that their weights add up to the
    needed weight; since version 10 each weight counts at most 255 and the sum
    does not overflow. *)
Theorem checkSignature_sound a signers needed sc sc' :
  mProtocolVersion sc <> 7 -> Forall (fun s => 0 <= signer_weight s) signers -> (length signers <= S MAX_SIGNERS)%nat ->
  checkSignature a signers needed sc = (true, sc') ->
  exists used, used ⊆+ signers /\ used <> [] /\ Forall (agreed sc) used /\
    needed <= totalOf (mProtocolVersion sc) used /\
    (9 < mProtocolVersion sc ->
       totalOf (mProtocolVersion sc) used = foldr (fun s t => effectiveWeight (mProtocolVersion sc) s + t) 0 used).
Proof.
  intros Hv Hw Hl E. cut (exists used, used ⊆+ signers /\ used <> [] /\ Forall (agreed sc) used /\
    needed <= totalOf (mProtocolVersion sc) used).
  { intros (used & Hu & Hne & Ha & Hn). exists used. split_and!; try done. intros H9.
    apply totalOf_exact; [done| |apply submseteq_length in Hu; lia].
    apply Forall_forall. intros s Hs. rewrite Forall_forall in Hw. apply Hw. by eapply elem_of_submseteq. }
  revert E. unfold checkSignature. rewrite (proj2 (Z.eqb_neq _ _) Hv).
  destruct (checkPreAuth _ _ _ _ _) as [[ok1 t1] sc1] eqn:E1. change 0 with (totalOf (mProtocolVersion sc) []) in E1.
  apply checkPreAuth_sound in E1 as (u1 & S1 & A1 & C1 & -> & O1); [|apply signersOfType_type].
  destruct ok1.
  { intros _. exists u1. destruct (O1 eq_refl). split_and!; try done. by etrans; [|apply signersOfType_sub]. }
  destruct (verifyAll _ _ _ _ _ _ sc1) as [[ok2 t2] sc2] eqn:E2.
  rewrite <- (same_version _ _ C1) in E2. cbn [app] in E2.
  apply verifyAll_sound in E2 as (u2 & S2 & A2 & C2 & -> & O2).
  2: { intros sig s Hs Hin. apply verifyHashX_agreed; [|done].
       pose proof (signersOfType_type SIGNER_KEY_TYPE_HASH_X signers) as Ht. rewrite Forall_forall in Ht. by apply Ht. }
  apply (Forall_impl _ (agreed sc)) in A2; [|intros s; by apply agreed_same].
  rewrite (same_version _ _ C1) in *.
  destruct ok2.
  { intros _. exists (u1 ++ u2). destruct (O2 eq_refl) as [O3 O4]. split_and!; try done.
    - etrans; [|apply (signers_split signers)]. apply submseteq_app; [done|]. by apply submseteq_inserts_r.
    - by destruct u1.
    - by apply Forall_app. }
  destruct (verifyAll _ _ _ _ _ _ sc2) as [[ok3 t3] sc3] eqn:E3. intros [= -> <-].
  pose proof (same_checker_trans _ _ _ C1 C2) as C3. rewrite <- (same_version _ _ C3) in E3.
  apply verifyAll_sound in E3 as (u3 & S3 & A3 & _ & -> & O3).
  2: { intros sig s Hs Hin. apply verify_agreed; [|done].
       pose proof (signersOfType_type SIGNER_KEY_TYPE_ED25519 signers) as Ht. rewrite Forall_forall in Ht. by apply Ht. }
  apply (Forall_impl _ (agreed sc)) in A3; [|intros s; by apply agreed_same].
  rewrite (same_version _ _ C3) in O3. destruct (O3 eq_refl) as [O4 O5].
  exists ((u1 ++ u2) ++ u3). split_and!; try done.
  - rewrite <- app_assoc. etrans; [|apply (signers_split signers)]. by repeat apply submseteq_app.
  - by destruct (u1 ++ u2).
  - apply Forall_app. split; [by apply Forall_app|done].
Qed.

End Soundness.
