(* ===== verification/Transactions.v ===== *)
(** * Transactions

    src/src/transactions/TransactionFrame.cpp and OperationFrame.cpp: the
    validity of a transaction, the fee, the sequence number, the signatures,
    and the operations, which are applied all together or not at all.  The
    objects that a frame owns, its result and the signature checker, are passed
    along and returned ([Frame]); a ledger transaction that is rolled back does
    not restore them.  The references that the operation frames keep to their
    results are the positions of the results; writing through one of them after
    the union has moved to another arm is the exception [DanglingReference]. *)
From S2P Require Import Prelude Numeric Exchange LedgerEntries TransactionUtils LedgerTxn LedgerState Operations.
From S2P Require Import OfferOperations Invariants InvariantManager Signatures.

(** ** Data *)

Record TimeBounds := mkTimeBounds { minTime : Z; maxTime : Z }.

Record Transaction := mkTransaction {
  tx_sourceAccount : AccountID;
  tx_fee : Z;
  tx_seqNum : Z;
  tx_timeBounds : option TimeBounds;
  tx_operations : list Operation
}.

Record TransactionEnvelope := mkTransactionEnvelope {
  env_tx : Transaction;
  env_signatures : list DecoratedSignature
}.

(** [TransactionResult::result] *)
Inductive TxResult :=
| txSUCCESS (results : list OperationResult)
| txFAILED (results : list OperationResult)
| txTOO_EARLY | txTOO_LATE | txMISSING_OPERATION | txBAD_SEQ | txBAD_AUTH
| txINSUFFICIENT_BALANCE | txNO_ACCOUNT | txINSUFFICIENT_FEE | txBAD_AUTH_EXTRA
| txINTERNAL_ERROR.

Inductive ValidationType := kInvalid | kInvalidUpdateSeqNum | kInvalidPostAuth | kFullyValid.

Definition vt_rank (v : ValidationType) : Z :=
  match v with kInvalid => 0 | kInvalidUpdateSeqNum => 1 | kInvalidPostAuth => 2 | kFullyValid => 3 end.
Definition vt_geb (a b : ValidationType) : bool := vt_rank b <=? vt_rank a.

(** the hash that is signed: SHA-256 of the network and the transaction *)
Class TxHash := { getContentsHash : Transaction -> Z }.

(** what a frame owns besides the envelope *)
Record Frame := mkFrame {
  fr_feeCharged : Z;
  fr_result : TxResult;
  (** [mOperations.size()] *)
  fr_numOperations : nat;
  fr_checker : SignatureChecker
}.

Definition set_fr_result (r : TxResult) (fr : Frame) : Frame :=
  mkFrame (fr_feeCharged fr) r (fr_numOperations fr) (fr_checker fr).
Definition set_fr_feeCharged (x : Z) (fr : Frame) : Frame :=
  mkFrame x (fr_result fr) (fr_numOperations fr) (fr_checker fr).
Definition set_fr_checker (sc : SignatureChecker) (fr : Frame) : Frame :=
  mkFrame (fr_feeCharged fr) (fr_result fr) (fr_numOperations fr) sc.

(** [result.results()] *)
Definition fr_results (fr : Frame) : res (list OperationResult) :=
  match fr_result fr with
  | txSUCCESS l | txFAILED l => Ok l
  | _ => Throw XdrWrongUnion
  end.

(** the default value of an [OperationResult] *)
Definition defaultResult : OperationResult := opINNER (CreateAccountRes CREATE_ACCOUNT_SUCCESS).

(** [xdr::xvector::resize] *)
Definition resizeResults (n : nat) (l : list OperationResult) : list OperationResult :=
  take n l ++ replicate (n - length l) defaultResult.

(** the result of operation [i], written through the reference of its frame *)
Definition setOpResult (i : nat) (r : OperationResult) (fr : Frame) : res Frame :=
  match fr_result fr with
  | txSUCCESS l => Ok (set_fr_result (txSUCCESS (<[i := r]> l)) fr)
  | txFAILED l => Ok (set_fr_result (txFAILED (<[i := r]> l)) fr)
  | _ => Throw DanglingReference
  end.

Definition getOpResult (i : nat) (fr : Frame) : res OperationResult :=
  match fr_result fr with
  | txSUCCESS l | txFAILED l => match l !! i with Some r => Ok r | None => Throw DanglingReference end
  | _ => Throw DanglingReference
  end.

(** [result.code(...)]: an arm that has results keeps them *)
Definition codeSUCCESS (r : TxResult) : TxResult :=
  match r with txSUCCESS l | txFAILED l => txSUCCESS l | _ => txSUCCESS [] end.
Definition codeFAILED (r : TxResult) : TxResult :=
  match r with txSUCCESS l | txFAILED l => txFAILED l | _ => txFAILED [] end.

Section Transactions.
Context {U : UInt128} {K : StrKeyOrder} {C : Crypto} {H : TxHash}.
Variable env : TransactionEnvelope.

Let tx := env_tx env.

(** ** The frame *)

Definition getMinFee (h : LedgerHeader) (fr : Frame) : Z :=
  i64 (baseFee h * Z.max 1 (Z.of_nat (fr_numOperations fr))).

Definition resetResults (fr : Frame) : Frame :=
  let l := match codeSUCCESS (fr_result fr) with txSUCCESS l => l | _ => [] end in
  mkFrame (tx_fee tx) (txSUCCESS (resizeResults (length (tx_operations tx)) l))
    (length (tx_operations tx)) (fr_checker fr).

(** the results are moved out, the code is changed, and they are moved back *)
Definition markResultFailed (fr : Frame) : res Frame :=
  t ← fr_results fr;
  let fr := set_fr_result (txFAILED t) fr in
  _ ← assert_ (length t =? fr_numOperations fr)%nat;
  Ok fr.

(** ** Signatures *)

Definition accountSigners (acc : AccountEntry) : list Signer :=
  (if negb (nth 0 (acc_thresholds acc) 0 =? 0)
   then [mkSigner (accountSignerKey (acc_accountID acc)) (nth 0 (acc_thresholds acc) 0)] else [])
  ++ acc_signers acc.

Definition tx_checkSignature (account : LedgerKey) (neededWeight : Z) (fr : Frame) : ltm (bool * Frame) :=
  e ← ltx_current account;
  acc ← lift (get_account e);
  let '(ok, sc) := checkSignature (acc_accountID acc) (accountSigners acc) neededWeight (fr_checker fr) in
  mret (ok, set_fr_checker sc fr).

Definition tx_checkSignatureNoAccount (accountID : AccountID) (fr : Frame) : bool * Frame :=
  let '(ok, sc) := checkSignature accountID [mkSigner (accountSignerKey accountID) 1] 0 (fr_checker fr) in
  (ok, set_fr_checker sc fr).

(** ** OperationFrame *)

Definition getSourceID (op : Operation) : AccountID :=
  match op_sourceAccount op with Some a => a | None => tx_sourceAccount tx end.

Definition getNeededThreshold (acc : AccountEntry) (level : ThresholdLevel) : Z :=
  match level with
  | LOW => nth 1 (acc_thresholds acc) 0
  | MEDIUM => nth 2 (acc_thresholds acc) 0
  | HIGH => nth 3 (acc_thresholds acc) 0
  end.

Definition op_checkSignature (i : nat) (op : Operation) (forApply : bool) (fr : Frame) : ltm (bool * Frame) :=
  sourceAccount ← op_loadSourceAccount (getSourceID op);
  match sourceAccount with
  | Some k =>
      acc ← readEntry sourceAccount get_account;
      '(ok, fr) ← tx_checkSignature k (getNeededThreshold acc (getThresholdLevel (op_body op))) fr;
      if negb ok then fr ← lift (setOpResult i opBAD_AUTH fr); mret (false, fr)
      else mret (true, fr)
  | None =>
      match forApply, op_sourceAccount op with
      | false, Some a =>
          let '(ok, fr) := tx_checkSignatureNoAccount a fr in
          if negb ok then fr ← lift (setOpResult i opBAD_AUTH fr); mret (false, fr)
          else mret (true, fr)
      | _, _ => fr ← lift (setOpResult i opNO_ACCOUNT fr); mret (false, fr)
      end
  end.

(** [mResult.tr().type(...)]: the default inner result of the type; the operation of
    the frame of a passive offer has the type MANAGE_OFFER *)
Definition defaultInner (b : OperationBody) : InnerResult :=
  match b with
  | CREATE_ACCOUNT _ => CreateAccountRes CREATE_ACCOUNT_SUCCESS
  | PAYMENT _ => PaymentRes PAYMENT_SUCCESS
  | PATH_PAYMENT _ => PathPaymentRes (PATH_PAYMENT_SUCCESS [] (mkSimplePaymentResult 0 AssetNative 0))
  | MANAGE_OFFER _ => ManageOfferRes (MANAGE_OFFER_SUCCESS [] MANAGE_OFFER_DELETED)
  | CREATE_PASSIVE_OFFER _ => ManageOfferRes (MANAGE_OFFER_SUCCESS [] MANAGE_OFFER_DELETED)
  | SET_OPTIONS _ => SetOptionsRes SET_OPTIONS_SUCCESS
  | CHANGE_TRUST _ => ChangeTrustRes CHANGE_TRUST_SUCCESS
  | ALLOW_TRUST _ => AllowTrustRes ALLOW_TRUST_SUCCESS
  | ACCOUNT_MERGE _ => AccountMergeRes (ACCOUNT_MERGE_SUCCESS 0)
  | INFLATION => InflationRes (INFLATION_SUCCESS [])
  | MANAGE_DATA _ => ManageDataRes MANAGE_DATA_SUCCESS
  | BUMP_SEQUENCE _ => BumpSequenceRes BUMP_SEQUENCE_SUCCESS
  end.

(** the ledger transaction of [checkValid] is never committed *)
Definition op_checkValid (i : nat) (op : Operation) (forApply : bool) (fr : Frame) : ltm (bool * Frame) :=
  nested (
    header ← ltx_loadHeader;
    let ledgerVersion := ledgerVersion header in
    if negb (isVersionSupported (op_body op) ledgerVersion) then
      fr ← lift (setOpResult i opNOT_SUPPORTED fr); mret (false, (false, fr))
    else
      '(ok, fr) ←
        (if negb forApply || (ledgerVersion <? 10) then op_checkSignature i op forApply fr
         else
           sourceAccount ← op_loadSourceAccount (getSourceID op);
           match sourceAccount with
           | None => fr ← lift (setOpResult i opNO_ACCOUNT fr); mret (false, fr)
           | Some _ => mret (true, fr)
           end);
      if negb ok then mret (false, (false, fr))
      else
        fr ← lift (setOpResult i (opINNER (defaultInner (op_body op))) fr);
        match doCheckValid (getSourceID op) (op_body op) ledgerVersion with
        | Some r => fr ← lift (setOpResult i (opINNER r) fr); mret (false, (false, fr))
        | None => mret (false, (true, fr))
        end).

Definition op_apply (i : nat) (op : Operation) (fr : Frame) : ltm (bool * Frame) :=
  '(ok, fr) ← op_checkValid i op true fr;
  if negb ok then mret (false, fr)
  else
    '(ok, r) ← doApply (getSourceID op) (op_body op);
    fr ← lift (setOpResult i (opINNER r) fr);
    mret (ok, fr).

(** ** Validity *)

(** [Some] code when the transaction is not valid *)
Definition commonValidPreSeqNum (fr : Frame) : ltm (option TxResult) :=
  if (fr_numOperations fr =? 0)%nat then mret (Some txMISSING_OPERATION)
  else
    header ← ltx_loadHeader;
    let closeTime := sv_closeTime (scpValue header) in
    let early := match tx_timeBounds tx with Some tb => minTime tb >? closeTime | None => false end in
    let late := match tx_timeBounds tx with
                | Some tb => negb (maxTime tb =? 0) && (maxTime tb <? closeTime)
                | None => false
                end in
    if early then mret (Some txTOO_EARLY)
    else if late then mret (Some txTOO_LATE)
    else if tx_fee tx <? getMinFee header fr then mret (Some txINSUFFICIENT_FEE)
    else
      sourceAccount ← tx_loadSourceAccount (tx_sourceAccount tx);
      match sourceAccount with
      | None => mret (Some txNO_ACCOUNT)
      | Some _ => mret None
      end.

Definition commonValid (current : Z) (applying : bool) (fr : Frame) : ltm (ValidationType * Frame) :=
  nested (
    invalid ← commonValidPreSeqNum fr;
    match invalid with
    | Some code => mret (false, (kInvalid, set_fr_result code fr))
    | None =>
        header ← ltx_loadHeader;
        sourceAccount ← tx_loadSourceAccount (tx_sourceAccount tx);
        acc ← readEntry sourceAccount get_account;
        let current := if current =? 0 then acc_seqNum acc else current in
        if ((ledgerVersion header >=? 10) || negb applying)
           && ((current =? INT64_MAX) || negb (i64 (current + 1) =? tx_seqNum tx))
        then mret (false, (kInvalid, set_fr_result txBAD_SEQ fr))
        else
          k ← active sourceAccount;
          '(ok, fr) ← tx_checkSignature k (nth 1 (acc_thresholds acc) 0) fr;
          if negb ok then mret (false, (kInvalidUpdateSeqNum, set_fr_result txBAD_AUTH fr))
          else
            let feeToPay := if applying && (ledgerVersion header >? 8) then 0 else tx_fee tx in
            avail ← readEntry sourceAccount (getAvailableBalance header);
            if avail <? feeToPay
            then mret (false, (kInvalidPostAuth, set_fr_result txINSUFFICIENT_BALANCE fr))
            else mret (false, (kFullyValid, fr))
    end).

(** the loop of [checkValid] over the operations *)
Fixpoint checkOperations (i : nat) (ops : list Operation) (fr : Frame) : ltm (bool * Frame) :=
  match ops with
  | [] => mret (true, fr)
  | op :: ops' =>
      '(ok, fr) ← op_checkValid i op false fr;
      if negb ok then mret (false, fr) else checkOperations (S i) ops' fr
  end.

Definition newChecker : ltm SignatureChecker :=
  header ← ltx_loadHeader;
  mret (newSignatureChecker (ledgerVersion header) (getContentsHash tx) (env_signatures env)).

Definition checkValid (current : Z) (fr : Frame) : ltm (bool * Frame) :=
  _ ← forgetAccount;
  let fr := resetResults fr in
  nested (
    sc ← newChecker;
    '(cv, fr) ← commonValid current false (set_fr_checker sc fr);
    match cv with
    | kFullyValid =>
        '(ok, fr) ← checkOperations 0 (tx_operations tx) fr;
        if negb ok then fr ← lift (markResultFailed fr); mret (false, (false, fr))
        else if negb (checkAllSignaturesUsed (fr_checker fr))
        then mret (false, (false, set_fr_result txBAD_AUTH_EXTRA fr))
        else mret (false, (true, fr))
    | _ => mret (false, (false, fr))
    end).

(** ** Fees and sequence numbers *)

Definition processFeeSeqNum (fr : Frame) : ltm Frame :=
  _ ← forgetAccount;
  let fr := resetResults fr in
  header ← ltx_loadHeader;
  sourceAccount ← tx_loadSourceAccount (tx_sourceAccount tx);
  match sourceAccount with
  | None => throw_msg "Unexpected database state"
  | Some k =>
      acc ← readEntry sourceAccount get_account;
      fr ← (if 0 <? fr_feeCharged fr then
              let fee := Z.min (acc_balance acc) (fr_feeCharged fr) in
              '(ok, balance) ← lift (addBalance_i64 (acc_balance acc) (i64 (- fee)) INT64_MAX);
              _ ← modifyAccount sourceAccount (set_acc_balance balance);
              _ ← ltx_setHeader (fun lh => set_feePool (i64 (feePool lh + fee)) lh);
              mret (set_fr_feeCharged fee fr)
            else mret fr);
      _ ← (if ledgerVersion header <=? 9 then
             if negb (i64 (acc_seqNum acc + 1) =? tx_seqNum tx) then throw_msg "Unexpected account state"
             else modifyAccount sourceAccount (set_acc_seqNum (tx_seqNum tx))
           else mret tt);
      mret fr
  end.

Definition processSeqNum : ltm unit :=
  header ← ltx_loadHeader;
  if ledgerVersion header >=? 10 then
    sourceAccount ← tx_loadSourceAccount (tx_sourceAccount tx);
    acc ← readEntry sourceAccount get_account;
    if acc_seqNum acc >? tx_seqNum tx then throw_msg "unexpected sequence number"
    else modifyAccount sourceAccount (set_acc_seqNum (tx_seqNum tx))
  else mret tt.

(** ** One-time signers *)

(** [acc.signers.erase(it)] at the first signer with the key *)
Fixpoint eraseSigner (key : SignerKey) (signers : list Signer) : list Signer :=
  match signers with
  | [] => []
  | s :: signers' => if bool_decide (signer_key s = key) then signers' else s :: eraseSigner key signers'
  end.

Definition removeAccountSigner (h : LedgerHeader) (account : LedgerKey) (key : SignerKey) : ltm bool :=
  acc ← readEntry (Some account) get_account;
  if existsb (fun s => bool_decide (signer_key s = key)) (acc_signers acc) then
    removed ← ltx_update account (fun e => addNumEntries h e (-1));
    _ ← assert_m removed;
    _ ← modifyAccount (Some account) (fun a => set_acc_signers (eraseSigner key (acc_signers a)) a);
    mret true
  else mret false.

(** [std::accumulate] with [r || removeAccountSigner(...)]: once a key has
    been removed, the others are skipped *)
Fixpoint removeKeys (h : LedgerHeader) (account : LedgerKey) (keys : list SignerKey) (r : bool) : ltm bool :=
  match keys with
  | [] => mret r
  | k :: keys' =>
      r' ← (if r then mret true else removeAccountSigner h account k);
      removeKeys h account keys' r'
  end.

Definition removeUsedKeysOf (accountID : AccountID) (keys : list SignerKey) : ltm unit :=
  account ← loadAccount accountID;
  match account with
  | None => mret tt
  | Some k =>
      header ← ltx_loadHeader;
      changed ← removeKeys header k keys false;
      if changed : bool then ltx_update k (fun e => e' ← normalizeSigners e; Ok (tt, e')) else mret tt
  end.

(** the loop over the map; the accounts are distinct *)
Fixpoint removeUsedKeys (l : list (AccountID * list SignerKey)) : ltm unit :=
  match l with
  | [] => mret tt
  | (a, keys) :: l' => _ ← removeUsedKeysOf a keys; removeUsedKeys l'
  end.

Definition removeUsedOneTimeSignerKeys (sc : SignatureChecker) : ltm unit :=
  removeUsedKeys (map_to_list (mUsedOneTimeSignerKeys sc)).

(** the loop of [processSignatures] over the operations *)
Fixpoint checkOpSignatures (i : nat) (ops : list Operation) (allOpsValid : bool) (fr : Frame)
    : ltm (bool * Frame) :=
  match ops with
  | [] => mret (allOpsValid, fr)
  | op :: ops' =>
      '(ok, fr) ← op_checkSignature i op false fr;
      checkOpSignatures (S i) ops' (allOpsValid && ok) fr
  end.

Definition processSignatures (fr : Frame) : ltm (bool * Frame) :=
  header ← ltx_loadHeader;
  if ledgerVersion header <? 10 then mret (true, fr)
  else
    '(allOpsValid, fr) ← nested ('(ok, fr) ← checkOpSignatures 0 (tx_operations tx) true fr;
                                 mret (false, (ok, fr)));
    _ ← removeUsedOneTimeSignerKeys (fr_checker fr);
    if negb allOpsValid then fr ← lift (markResultFailed fr); mret (false, fr)
    else if negb (checkAllSignaturesUsed (fr_checker fr))
    then mret (false, set_fr_result txBAD_AUTH_EXTRA fr)
    else mret (true, fr).

(** ** Applying *)

(** one operation in its ledger transaction, with the checks of the
    invariants on the difference it makes *)
Definition applyOperation (i : nat) (op : Operation) (errorEncountered : bool) (fr : Frame)
    (im : InvariantManager) : ltm (bool * Frame * InvariantManager) :=
  before ← gets id;
  nested (
    '(txRes, fr) ← op_apply i op fr;
    let errorEncountered := errorEncountered || negb txRes in
    im ← (if negb errorEncountered then
            after ← gets id;
            r ← lift (getOpResult i fr);
            match r with
            | opINNER tr => lift (checkOnOperationApply op tr (delta_of before after) im)
            | _ => throw XdrWrongUnion
            end
          else mret im);
    mret (true, (errorEncountered, fr, im))).

Fixpoint applyLoop (i : nat) (ops : list Operation) (errorEncountered : bool) (fr : Frame)
    (im : InvariantManager) : ltm (bool * Frame * InvariantManager) :=
  match ops with
  | [] => mret (errorEncountered, fr, im)
  | op :: ops' =>
      '(e, fr, im) ← applyOperation i op errorEncountered fr im;
      applyLoop (S i) ops' e fr im
  end.

Definition applyOperations (fr : Frame) (im : InvariantManager) : ltm (bool * Frame * InvariantManager) :=
  nested (
    '(errorEncountered, fr, im) ← applyLoop 0 (tx_operations tx) false fr im;
    if errorEncountered : bool then
      fr ← lift (markResultFailed fr);
      mret (false, (false, fr, im))
    else
      header ← ltx_loadHeader;
      if ledgerVersion header <? 10 then
        if negb (checkAllSignaturesUsed (fr_checker fr))
        then mret (false, (false, set_fr_result txBAD_AUTH_EXTRA fr, im))
        else
          _ ← removeUsedOneTimeSignerKeys (fr_checker fr);
          mret (true, (true, fr, im))
      else mret (true, (true, fr, im))).

(** the first block of [apply] *)
Definition validateForApply (fr : Frame) : ltm (bool * Frame) :=
  nested (
    '(cv, fr) ← commonValid 0 true fr;
    _ ← (if vt_geb cv kInvalidUpdateSeqNum then processSeqNum else mret tt);
    '(signaturesValid, fr) ← (if vt_geb cv kInvalidPostAuth then processSignatures fr else mret (false, fr));
    mret (true, (signaturesValid && vt_geb cv kFullyValid, fr))).

Definition apply (fr : Frame) (im : InvariantManager) : ltm (bool * Frame * InvariantManager) :=
  _ ← forgetAccount;
  sc ← newChecker;
  '(valid, fr) ← validateForApply (set_fr_checker sc fr);
  if valid : bool then applyOperations fr im else mret (false, fr, im).

End Transactions.
