(* ===== verification/TransactionSafety.v ===== *)
(** * What transactions guarantee

    A validity check does not write; the fee moves from the account to the fee
    pool; a transaction whose operations do not all succeed changes nothing but
    the sequence number of its source and its own pre-authorization; a transaction that has been applied
    cannot be applied again; and no transaction changes the balance of coins
    between the accounts, the fee pool and the total of the header. *)
From S2P Require Import Prelude Numeric Exchange LedgerEntries TransactionUtils LedgerTxn OfferBook LedgerState.
From S2P Require Import LedgerLogic OfferCross Operations OfferOperations Neutral Conservation OperationsKeep.
From S2P Require Import SubEntries Invariants InvariantManager Signatures Transactions.

#[export] Hint Opaque tx_checkSignature op_checkSignature op_checkValid op_apply commonValidPreSeqNum commonValid
  checkOperations newChecker checkValid processFeeSeqNum processSeqNum removeAccountSigner removeKeys
  removeUsedKeysOf removeUsedKeys removeUsedOneTimeSignerKeys checkOpSignatures processSignatures applyOperation
  applyLoop applyOperations validateForApply Transactions.apply : typeclass_instances.

Section Safety.
Context {U : UInt128} {K : StrKeyOrder} {C : Crypto} {H : TxHash}.
Variable env : TransactionEnvelope.

(** ** Computations that only read *)

#[export] Instance quiet_forget : Quiet forgetAccount.
Proof. intros s a s' E. injection E as _ <-. by split. Qed.
#[export] Instance quiet_txCheckSignature k n fr : Quiet (tx_checkSignature k n fr).
Proof. unfold tx_checkSignature. do 2 (apply quiet_bind; [apply _|intros]). destruct (checkSignature _ _ _ _). apply _. Qed.
#[export] Instance quiet_newChecker : Quiet (newChecker env).
Proof. unfold newChecker. apply _. Qed.

#[export] Instance quiet_commonValid c b fr : Quiet (commonValid env c b fr).
Proof. never_commits. Qed.
#[export] Instance quiet_opCheckValid i op b fr : Quiet (op_checkValid env i op b fr).
Proof. never_commits. Qed.
#[export] Instance quiet_checkOperations i ops fr : Quiet (checkOperations env i ops fr).
Proof.
  revert i fr. induction ops as [|op ops IH]; intros i fr; cbn [checkOperations]; [apply _|].
  apply quiet_bind; [apply _|]. intros [ok fr']. apply _.
Qed.
#[export] Instance quiet_checkValid c fr : Quiet (checkValid env c fr).
Proof.
  unfold checkValid. apply quiet_bind; [apply _|]. intros _. never_commits.
Qed.

(** [checkValid] never modifies the ledger, whatever the transaction,
    its signatures and the protocol version are and whether it is valid or
    not: the entries and the header are the same afterwards. *)
Theorem checkValid_reads_only current fr ok fr' s s' :
  checkValid env current fr s = Ok ((ok, fr'), s') ->
  st_entries s' = st_entries s /\ st_header s' = st_header s.
Proof. intros E. by destruct (quiet _ _ _ E). Qed.

(** ** Bookkeeping: sequence numbers and one-time signers *)

#[export] Instance quiet_opSignatures fr :
  Quiet (nested ('(ok, fr) ← checkOpSignatures env 0 (tx_operations (env_tx env)) true fr;
                 mret (false, (ok, fr)))).
Proof. never_commits. Qed.

Section Bookkeeping.
Context {mu : Measure} {N : Neutral mu}.
Context {HR : forall h k key, Keeps (removeAccountSigner h k key)}.

#[export] Instance keeps_removeKeys h k keys r : Keeps (removeKeys h k keys r).
Proof. revert r. induction keys as [|x keys IH]; intros r; cbn [removeKeys]; [apply _|]. apply keeps_bind; apply _. Qed.
#[export] Instance keeps_removeUsedKeysOf a keys : Keeps (removeUsedKeysOf a keys).
Proof. unfold removeUsedKeysOf. apply keeps_bind; [apply _|]. intros []; apply _. Qed.
#[export] Instance keeps_removeUsedKeys l : Keeps (removeUsedKeys l).
Proof. induction l as [|[a keys] l IH]; cbn [removeUsedKeys]; apply _. Qed.
#[export] Instance keeps_removeUsed sc : Keeps (removeUsedOneTimeSignerKeys sc).
Proof. apply keeps_removeUsedKeys. Qed.

#[export] Instance keeps_processSeqNum : Keeps (processSeqNum env).
Proof.
  unfold processSeqNum. apply keeps_bind; [apply _|]. intros h. apply keeps_if; [|apply _].
  do 2 (apply keeps_bind; [apply _|]; intros ?). apply keeps_if; [apply _|].
  apply modifyAccount_keeps. by repeat split.
Qed.
#[export] Instance keeps_processSignatures fr : Keeps (processSignatures env fr).
Proof.
  unfold processSignatures. apply keeps_bind; [apply _|]. intros h. apply keeps_if; [apply _|].
  apply keeps_bind; [apply keeps_quiet, quiet_opSignatures|]. intros [ok fr']. apply _.
Qed.
#[export] Instance keeps_validateForApply fr : Keeps (validateForApply env fr).
Proof.
  unfold validateForApply. apply keeps_nested, keeps_bind; [apply _|]. intros [cv fr1].
  apply keeps_bind; [apply _|]. intros _. apply keeps_bind; [apply _|]. intros [sv fr2]. apply _.
Qed.

End Bookkeeping.

(** *** The two measures *)

#[export] Instance coin_removeSigner h k key : Keeps (mu := coin_measure) (removeAccountSigner h k key).
Proof.
  unfold removeAccountSigner. apply keeps_bind; [apply _|]. intros acc. apply keeps_if; [|apply _].
  do 2 (apply keeps_bind; [apply _|]; intros ?). apply keeps_bind; [|apply _]. by apply modifyBalance_keeps.
Qed.

Lemma eraseSigner_length key l :
  existsb (fun s => bool_decide (signer_key s = key)) l = true ->
  Z.of_nat (length (eraseSigner key l)) = Z.of_nat (length l) - 1.
Proof.
  induction l as [|x l IH]; cbn [existsb eraseSigner]; [done|]. case_bool_decide; cbn [orb length]; [lia|].
  intros E. specialize (IH E). lia.
Qed.

#[export] Instance sub_removeSigner a h k key : Keeps (mu := sub_measure a) (removeAccountSigner h k key).
Proof.
  apply keeps_run. intros s G M. unfold removeAccountSigner. apply run_bind, run_readAccount.
  intros k' e acc [= <-] Ek Ea. rif; [|by apply run_ret].
  pose proof (good_keys _ G _ _ Ek) as Hk. unfold LedgerEntryKey in Hk. rewrite Ea in Hk. subst k.
  set (i := acc_accountID acc) in *.
  assert (Hx : acc_of s i = Some acc) by (unfold acc_of; by rewrite Ek, Ea).
  apply run_bind. intros ok s1 E1. destruct (count_signers _ _ _ _ _ _ _ _ E1 Hx) as (x & Hx1 & Hs1).
  revert ok s1 E1 Hx1. match goal with |- forall ok s1, ?m s = Ok (ok, s1) -> @?P ok s1 => change (run m s P) end.
  eapply (run_count a); [exact M|lia|]. clear M. intros ok s1 Hok M Hx1. rewrite Hok in M by lia. rstep.
  apply run_bind. eapply (run_setSigners a i); [by left|exact M|done|]. clear M. intros y s2 Hy M _.
  rewrite Hx1 in Hy. injection Hy as <-. apply run_ret. eapply moves_eq; [|exact M].
  cbn [acc_signers set_acc_signers]. rewrite Hs1, (eraseSigner_length _ _ Heqb). unfold mine. destruct (_ =? _); lia.
Qed.

(** ** The balance of coins *)

#[local] Existing Instance coin_measure.

(** what the accounts and the fee pool lack of the total of the header, modulo
    2 ^ 64, is the same *)
Record balanced (s s' : LState) : Prop := {
  bal_good : good s';
  bal_sum : i64 (totalCoins (st_header s') - feePool (st_header s') - coins s') =
            i64 (totalCoins (st_header s) - feePool (st_header s) - coins s)
}.

Lemma balanced_refl s : good s -> balanced s s.
Proof. by split. Qed.
Lemma balanced_trans s1 s2 s3 : balanced s1 s2 -> balanced s2 s3 -> balanced s1 s3.
Proof. intros [] []. split; [done|congruence]. Qed.
Lemma moves_balanced s s' : moves s s' 0 -> balanced s s'.
Proof. intros [Hh Ht G]. split; [done|]. rewrite Hh. unfold coins. rewrite Ht. by rewrite Z.add_0_r. Qed.
Lemma same_balanced s s' : good s -> same s s' -> balanced s s'.
Proof. intros G E. by apply moves_balanced, same_moves. Qed.
Lemma conserved_balanced s s' : conserved s s' -> balanced s s'.
Proof. intros [G Hc _ Ht Hf]. split; [done|]. by rewrite Hc, Ht, Hf. Qed.
Lemma inflated_balanced s s' p : inflated s s' p -> balanced s s'.
Proof.
  intros [G Hc Ht]. split; [done|]. rewrite Hc.
  replace (totalCoins (st_header s') - feePool (st_header s') - (coins s + total_payouts p)) with
    ((totalCoins (st_header s') - totalCoins (st_header s)) +
     (totalCoins (st_header s) - feePool (st_header s') - coins s - total_payouts p)) by lia.
  rewrite <- i64_add_l, Ht, i64_add_l. f_equal. lia.
Qed.

(** ** Fees *)

(** the account with a field assigned *)
Lemma run_setAccount k f s0 s d (Q : unit -> LState -> Prop) :
  moves s0 s d ->
  (forall a, acc_accountID (f a) = acc_accountID a) ->
  (forall e a, st_entries s !! k = Some e -> le_data e = ACCOUNT a -> is_i64 (acc_balance (f a))) ->
  (forall e a s', st_entries s !! k = Some e -> le_data e = ACCOUNT a ->
     moves s0 s' (d + (acc_balance (f a) - acc_balance a)) ->
     st_entries s' = <[k := set_le_data (ACCOUNT (f a)) e]> (st_entries s) -> Q tt s') ->
  run (modifyAccount (Some k) f) s Q.
Proof.
  intros M Hid Hr HQ. unfold modifyAccount, updateEntry. apply run_bind, run_active. intros k' [= <-].
  intros [] s' E. apply ltx_update_ok in E as (e & e' & Ee & Hf & Es & Hh).
  apply bind_ok_inv in Hf as (a & Ha%get_account_ok & [= <-]). eapply HQ; [exact Ee|exact Ha| |exact Es].
  pose proof (good_keys _ (moves_good _ _ _ M) _ _ Ee) as Hk.
  eapply moves_eq; [|eapply moves_trans; [exact M|eapply put_moves; [by destruct M|exact Es|exact Hh| |]]].
  - rewrite Ee. cbn. unfold native. cbn. rewrite Ha. lia.
  - revert Hk. unfold LedgerEntryKey. cbn. rewrite Ha. by rewrite Hid.
  - cbn. unfold native. cbn. by eapply Hr.
Qed.

Lemma addBalance_fee b fee ok b' :
  is_i64 b -> 0 < fee <= INT64_MAX -> addBalance_i64 b (i64 (- Z.min b fee)) INT64_MAX = Ok (ok, b') ->
  0 <= b /\ b' = b - Z.min b fee.
Proof.
  intros Hb Hf E.
  assert (0 <= b) as Hb0.
  { unfold addBalance_i64 in E. destruct (b >=? 0) eqn:E1; [|done]. zb. lia. }
  split; [done|]. rewrite addBalance_i64_spec in E by (try apply i64_range; zlia).
  rewrite i64_id in E by zlia.
  rewrite (proj2 (Z.leb_le 0 (b + - Z.min b fee))), (proj2 (Z.leb_le (b + - Z.min b fee) INT64_MAX)) in E by zlia.
  rewrite orb_true_r in E. injection E as _ <-. lia.
Qed.

(** the assignment of the sequence number before version 10 *)
Lemma run_oldSeqNum (v : Z) k acc fr s (Q : Frame -> LState -> Prop) :
  good s -> (forall s', moves s s' 0 -> Q fr s') ->
  run (_ ← (if v <=? 9 then
              if negb (i64 (acc_seqNum acc + 1) =? tx_seqNum (env_tx env)) then throw_msg "Unexpected account state"
              else modifyAccount (Some k) (set_acc_seqNum (tx_seqNum (env_tx env)))
            else mret tt); mret fr) s Q.
Proof.
  intros G HQ. pose proof (moves_refl s G) as M. apply run_bind. rif; [rif; [apply run_throw|]|].
  - eapply run_keeps; [apply modifyAccount_keeps; by repeat split|exact M|]. intros u s' M'. by apply run_ret, HQ.
  - by apply run_ret, run_ret, HQ.
Qed.

(** what charging the fee does *)
Record fee_taken (balance : Z) (charged : Z) (s s' : LState) : Prop := {
  fee_charged : charged = Z.min balance (tx_fee (env_tx env));
  fee_coins : coins s' = coins s - charged;
  fee_pool : i64 (feePool (st_header s')) = i64 (feePool (st_header s) + charged);
  fee_total : totalCoins (st_header s') = totalCoins (st_header s);
  fee_good : good s'
}.

Lemma fee_taken_moves b c s s1 s2 : fee_taken b c s s1 -> moves s1 s2 0 -> fee_taken b c s s2.
Proof.
  intros [] [Hh Ht G]. split; rewrite ?Hh; try done. unfold coins in *. rewrite Ht. lia.
Qed.

Lemma processFee_taken fr fr' s s' :
  good s -> 0 < tx_fee (env_tx env) <= UINT32_MAX ->
  processFeeSeqNum env fr s = Ok (fr', s') ->
  exists acc, acc_of s (tx_sourceAccount (env_tx env)) = Some acc /\
    fee_taken (acc_balance acc) (fr_feeCharged fr') s s'.
Proof.
  intros G Hfee. revert fr' s'.
  change (run (processFeeSeqNum env fr) s (fun fr' s' => exists acc,
    acc_of s (tx_sourceAccount (env_tx env)) = Some acc /\
    fee_taken (acc_balance acc) (fr_feeCharged fr') s s')).
  unfold processFeeSeqNum. pose proof (moves_refl s G) as M. rquiet. rstep.
  apply run_bind. eapply run_txLoadSource; [exact M|]. clear M. intros o s2 Ho Es2 M.
  destruct o as [k|]; [|apply run_throw]. destruct Ho as [[= ->]|]; [|done].
  apply run_bind, run_readAccount. intros k e acc [= <-] Ek Ea.
  pose proof (good_range _ (moves_good _ _ _ M) _ _ Ek) as Hb. cbn in Hb. unfold native in Hb. rewrite Ea in Hb.
  cbn [resetResults fr_feeCharged]. rewrite (proj2 (Z.ltb_lt _ _)) by lia.
  apply run_bind. apply run_bind, run_lift. intros [ok b] Hadd.
  apply addBalance_fee in Hadd as [Hb0 ->]; [|done|zlia]. apply run_bind.
  eapply run_setAccount; [exact M|done|intros; cbn; zlia|]. clear M. intros e1 a1 s3 Ek1 Ea1 M _.
  rewrite Ek in Ek1. injection Ek1 as <-. rewrite Ea in Ea1. injection Ea1 as <-. cbn in M.
  apply run_bind. intros u s4 E4. injection E4 as _ <-. apply run_ret.
  assert (HT : fee_taken (acc_balance acc) (Z.min (acc_balance acc) (tx_fee (env_tx env))) s
    (set_st_header (set_feePool (i64 (feePool (st_header s3) + Z.min (acc_balance acc) (tx_fee (env_tx env))))
       (st_header s3)) s3)).
  { destruct (moves_good _ _ _ M) as [G1 G2 G3]. split; cbn; rewrite ?(moves_header _ _ _ M); try done.
    - change (coins (set_st_header _ s3)) with (total s3). unfold coins. rewrite (moves_total _ _ _ M). lia.
    - by rewrite i64_idemp.
    - rewrite (moves_header _ _ _ M) in G3. by split. }
  apply run_oldSeqNum; [by destruct HT|]. intros t' Mt. exists acc. split; [|by eapply fee_taken_moves].
  unfold acc_of. by rewrite <- Es, <- Es2, Ek, Ea.
Qed.

Lemma fee_balanced b c s s' : fee_taken b c s s' -> balanced s s'.
Proof.
  intros [_ Hc Hp Ht G]. split; [done|]. rewrite Hc, Ht.
  replace (totalCoins (st_header s) - feePool (st_header s') - (coins s - c))
    with (totalCoins (st_header s) - coins s + c - feePool (st_header s')) by lia.
  rewrite <- i64_sub_r, Hp, i64_sub_r. f_equal. lia.
Qed.

(** a transaction without a fee *)
Lemma processFee_zero fr s :
  good s -> tx_fee (env_tx env) = 0 -> run (processFeeSeqNum env fr) s (fun _ s' => moves s s' 0).
Proof.
  intros G Hz. pose proof (moves_refl s G) as M. unfold processFeeSeqNum. do 3 rstep.
  destruct a0 as [k|]; [|apply run_throw]. rstep. cbn [resetResults fr_feeCharged]. rewrite Hz. cbn [Z.ltb Z.compare].
  apply run_bind, run_ret. apply run_oldSeqNum; [by destruct M|]. intros s' M'.
  eapply moves_eq; [|by eapply moves_trans]. lia.
Qed.

Lemma processFee_balanced fr s :
  good s -> is_u32 (tx_fee (env_tx env)) -> run (processFeeSeqNum env fr) s (fun _ s' => balanced s s').
Proof.
  intros G Hf. destruct (Z.eq_dec (tx_fee (env_tx env)) 0) as [Hz|Hz].
  - eapply run_mono; [by apply processFee_zero|]. intros fr' s'. apply moves_balanced.
  - intros fr' s' E. eapply processFee_taken in E as (acc & _ & HT); [|done|zlia]. by eapply fee_balanced.
Qed.

(** [processFeeSeqNum] takes the fee from the source account and puts
    it in the fee pool: the account pays the smaller of its balance and the
    fee of the transaction, which is what the result says was charged; the
    balances of all accounts together sink by exactly that amount, the fee
    pool of the header grows by it (modulo 2 ^ 64), and the total of coins is
    the same. *)
Theorem fee_moves_to_pool fr fr' s s' :
  good s -> 0 < tx_fee (env_tx env) <= UINT32_MAX ->
  processFeeSeqNum env fr s = Ok (fr', s') ->
  exists acc, acc_of s (tx_sourceAccount (env_tx env)) = Some acc /\
    fee_taken (acc_balance acc) (fr_feeCharged fr') s s'.
Proof. apply processFee_taken. Qed.

(** ** Operations and transactions *)

Lemma totals_balanced {R} (f : R -> InnerResult) (m : ltm (bool * R)) s :
  conserving_totals m -> good s -> run (with_inner f m) s (fun r s' => fst r = true -> balanced s s').
Proof.
  intros Hm G. unfold with_inner. apply run_bind. eapply run_mono; [by apply Hm|].
  intros [ok r] s' Hs. apply run_ret. intros Hok. by apply conserved_balanced, Hs.
Qed.

Lemma doApply_balanced src b s :
  good s -> op_typed b -> doCheckValid src b (ledgerVersion (st_header s)) = None ->
  run (doApply src b) s (fun r s' => fst r = true -> balanced s s').
Proof.
  intros G Ht Hv. destruct b; cbn [doCheckValid doApply op_typed] in *; try apply fmap_None in Hv;
    try (lazymatch goal with
         | |- run (with_inner InflationRes _) _ _ => fail
         | _ => apply totals_balanced; [|exact G]
         end); try (apply keeps_totals, _).
  - by apply conserving_totals_ok, createAccount_conserves.
  - by apply conserving_totals_ok, payment_conserves.
  - by apply conserving_totals_ok, pathPayment_conserves.
  - intros t Gt. by apply manageOffer_conserves.
  - intros t Gt. by apply manageOffer_conserves.
  - by apply conserving_totals_ok, merge_conserves.
  - unfold with_inner. apply run_bind. eapply run_mono; [by apply inflation_inflates|].
    intros [ok r] s' Hi. apply run_ret. intros Hok. destruct (Hi Hok) as (p & _ & Hp). by eapply inflated_balanced.
Qed.

(** [checkValid] of an operation includes its own check *)
Lemma opCheckValid_valid i op b fr fr' s s' :
  op_checkValid env i op b fr s = Ok ((true, fr'), s') ->
  doCheckValid (getSourceID env op) (op_body op) (ledgerVersion (st_header s)) = None.
Proof.
  intros (c & s1 & E & _)%nested_ok. revert E.
  match goal with |- ?m _ = _ -> _ => enough (HR : run m (unshared s) (fun r _ => fst (snd r) = true ->
    doCheckValid (getSourceID env op) (op_body op) (ledgerVersion (st_header s)) = None)) by
    (intros E; exact (HR _ _ E eq_refl)) end.
  apply run_bind, run_header. cbv zeta. rif; [apply run_bind; intros ? ? _; by apply run_ret|].
  apply run_bind. intros [ok fr1] s2 _. rif; [by apply run_ret|]. apply run_bind. intros fr2 s3 _.
  cbn [st_header unshared set_st_cached]. destruct (doCheckValid _ _ _); [|by apply run_ret].
  apply run_bind. intros ? ? _. by apply run_ret.
Qed.

Lemma opApply_balanced i op fr s :
  good s -> op_typed (op_body op) -> run (op_apply env i op fr) s (fun r s' => fst r = true -> balanced s s').
Proof.
  intros G Ht. unfold op_apply. apply run_bind. intros [ok fr1] s1 E. pose proof (quiet _ _ _ E) as Hs.
  destruct ok; cbn [negb]; [|by apply run_ret]. pose proof (opCheckValid_valid _ _ _ _ _ _ _ E) as Hv.
  rewrite <- (same_header _ _ Hs) in Hv. apply run_bind.
  eapply run_mono; [apply doApply_balanced; [by eapply same_good|done|exact Hv]|].
  intros [ok r] s2 Hb. apply run_bind, run_lift. intros fr2 _. apply run_ret. cbn. intros Hok.
  eapply balanced_trans; [by apply same_balanced|]. by apply Hb.
Qed.

Lemma applyOperation_balanced i op err fr im s :
  good s -> op_typed (op_body op) ->
  run (applyOperation env i op err fr im) s (fun r s' => fst (fst r) = false -> err = false /\ balanced s s').
Proof.
  intros G Ht. unfold applyOperation. apply run_bind, run_gets.
  intros [[e1 fr1] im1] s' (b & s1 & E & Hb)%nested_ok. revert E.
  match goal with |- ?m _ = _ -> _ => enough (HR : run m (unshared s) (fun r s' =>
    fst r = true /\ (fst (fst (snd r)) = false -> err = false /\ balanced (unshared s) s'))) end.
  { intros E. destruct (HR _ _ E) as [Hc Hr]. cbn in *. subst b. intros He. destruct (Hr He) as [He' Hb'].
    split; [done|]. eapply balanced_trans; [by apply same_balanced, unshared_same|].
    eapply balanced_trans; [exact Hb'|apply same_balanced; [apply Hb'|exact Hb]]. }
  apply run_bind. eapply run_mono; [apply opApply_balanced; [by eapply same_good, unshared_same|done]|].
  intros [ok fr2] s2 Hok. cbv zeta. apply run_bind. intros im2 s3 E3. apply run_ret. cbn. split; [done|].
  intros [He Hn]%orb_false_iff. apply negb_false_iff in Hn. subst. split; [done|].
  enough (s3 = s2) as -> by by apply Hok.
  cbn [negb orb] in E3. repeat inv_run.
  match goal with E : match ?r with _ => _ end _ = _ |- _ => destruct r; [by repeat inv_run|discriminate..] end.
Qed.

(** an error stays *)
Lemma loop_error i ops fr im s :
  run (applyLoop env i ops true fr im) s (fun r _ => fst (fst r) = true).
Proof.
  revert i fr im s. induction ops as [|op ops IH]; intros i fr im s; cbn [applyLoop]; [by apply run_ret|].
  apply run_bind. unfold applyOperation. apply run_bind, run_gets.
  intros [[e1 fr1] im1] s' (b & s1 & E & _)%nested_ok. enough (e1 = true) as -> by apply IH.
  repeat inv_run. destruct x as [ok fr2]. repeat inv_run. by simplify_eq.
Qed.

Lemma applyLoop_balanced i ops err fr im s :
  good s -> Forall (fun op => op_typed (op_body op)) ops ->
  run (applyLoop env i ops err fr im) s (fun r s' => fst (fst r) = false -> err = false /\ balanced s s').
Proof.
  intros G Ht. revert i err fr im s G. induction Ht as [|op ops Hop Hops IH]; intros i err fr im s G; cbn [applyLoop].
  { apply run_ret. cbn. intros ->. split; [done|]. by apply balanced_refl. }
  apply run_bind. eapply run_mono; [by apply applyOperation_balanced|]. intros [[e fr1] im1] s1 H1.
  destruct e.
  - intros r s' E Hr. pose proof (loop_error _ _ _ _ _ _ _ E). congruence.
  - destruct (H1 eq_refl) as [-> B1]. eapply run_mono; [apply IH, B1|]. intros r s' H2 Hr.
    destruct (H2 Hr) as [_ B2]. split; [done|]. by eapply balanced_trans.
Qed.

Lemma applyOperations_balanced fr im s :
  good s -> Forall (fun op => op_typed (op_body op)) (tx_operations (env_tx env)) ->
  run (applyOperations env fr im) s (fun _ s' => balanced s s').
Proof.
  intros G Ht [[ok fr1] im1] s' (b & s1 & E & Hb)%nested_ok. destruct b; [|by apply same_balanced].
  assert (B0 : balanced s (unshared s)) by (by apply same_balanced, unshared_same).
  enough (B1 : balanced (unshared s) s1).
  { eapply balanced_trans; [exact B0|]. eapply balanced_trans; [exact B1|]. apply same_balanced; [apply B1|done]. }
  revert E. match goal with |- ?m _ = _ -> _ => enough (HR : run m (unshared s) (fun r s' =>
    fst r = true -> balanced (unshared s) s')) by (intros E; exact (HR _ _ E eq_refl)) end.
  apply run_bind. eapply run_mono; [apply applyLoop_balanced; [apply B0|done]|].
  intros [[e fr2] im2] s2 Hs. destruct e; [apply run_bind, run_lift; intros ? _; by apply run_ret|].
  destruct (Hs eq_refl) as [_ B2]. pose proof (moves_refl s2 (bal_good _ _ B2)) as M. rstep.
  rif; [|by apply run_ret]. rif; [by apply run_ret|]. rstep. apply run_ret. intros _.
  eapply balanced_trans; [exact B2|]. by apply moves_balanced.
Qed.

Lemma apply_balanced fr im s :
  good s -> Forall (fun op => op_typed (op_body op)) (tx_operations (env_tx env)) ->
  run (Transactions.apply env fr im) s (fun _ s' => balanced s s').
Proof.
  intros G Ht. pose proof (moves_refl s G) as M. unfold Transactions.apply. do 3 rstep. destruct a1 as [v fr1].
  rif; [|by apply run_ret, moves_balanced]. eapply run_mono; [apply applyOperations_balanced; [by destruct M|done]|].
  intros r s' B. eapply balanced_trans; [by apply moves_balanced|done].
Qed.

(** Applying a transaction, whether it succeeds or not, neither
    creates nor destroys coins: what the balances of all accounts and the fee
    pool together lack of the total in the header, as a 64-bit integer, is the
    same before and after [TransactionFrame::apply], and the balances stay
    64-bit integers.  All operations are covered, inflation included, for all
    protocol versions since 8. *)
Theorem transaction_conserves_coins fr im r s s' :
  good s -> Forall (fun op => op_typed (op_body op)) (tx_operations (env_tx env)) ->
  Transactions.apply env fr im s = Ok (r, s') -> balanced s s'.
Proof. intros G Ht. by apply apply_balanced. Qed.

(** ** The counts of sub-entries *)

Section Counts.
Variable a : AccountID.
#[local] Existing Instance sub_measure | 0.
#[local] Remove Hints coin_measure : typeclass_instances.

Lemma same_steady s s' : good (mu := sub_measure a) s -> same s s' -> steady a s s'.
Proof. intros G E. by apply moves_steady, (same_moves (mu := sub_measure a)). Qed.

(** a nested transaction is kept or discarded *)
Lemma nested_steady {A} (m : ltm (bool * A)) s :
  good (mu := sub_measure a) s ->
  (forall t, good (mu := sub_measure a) t -> run m t (fun _ t' => steady a t t')) ->
  run (nested m) s (fun _ s' => steady a s s').
Proof.
  intros G Hm x s' (b & s1 & E & Hb)%nested_ok. destruct b; [|by apply same_steady].
  pose proof (same_steady _ _ G (unshared_same s)) as S0. pose proof (Hm _ (steady_good _ _ _ S0) _ _ E) as S1.
  eapply steady_trans; [exact S0|]. eapply steady_trans; [exact S1|]. apply same_steady; [apply S1|exact Hb].
Qed.

Lemma opApply_steady i op fr s :
  good (mu := sub_measure a) s -> run (op_apply env i op fr) s (fun _ s' => steady a s s').
Proof.
  intros G. unfold op_apply. apply run_bind. intros [ok fr1] s1 E. pose proof (same_steady _ _ G (quiet _ _ _ E)) as S.
  rif; [by apply run_ret|]. apply run_bind. eapply run_mono; [apply doApply_steady, S|].
  intros [ok' r] s2 S2. apply run_bind, run_lift. intros fr2 _. apply run_ret. by eapply steady_trans.
Qed.

Lemma applyLoop_steady i ops err fr im s :
  good (mu := sub_measure a) s -> run (applyLoop env i ops err fr im) s (fun _ s' => steady a s s').
Proof.
  revert i err fr im s. induction ops as [|op ops IH]; intros i err fr im s G; cbn [applyLoop].
  { by apply run_ret, same_steady. }
  apply run_bind. unfold applyOperation. apply run_bind, run_gets.
  eapply run_mono; [apply nested_steady; [exact G|]|].
  - intros t Gt. apply run_bind. eapply run_mono; [by apply opApply_steady|]. intros [ok fr1] t1 S1. cbv zeta.
    apply run_bind. intros im1 t2 E2. apply run_ret. enough (t2 = t1) as -> by done.
    destruct (negb _); repeat inv_run; [|done].
    match goal with E : match ?r with _ => _ end _ = _ |- _ => destruct r; [by repeat inv_run|discriminate..] end.
  - intros [[e fr1] im1] s1 S1. eapply run_mono; [apply IH, S1|]. intros r s2 S2. by eapply steady_trans.
Qed.

Lemma apply_steady fr im s :
  good (mu := sub_measure a) s -> run (Transactions.apply env fr im) s (fun _ s' => steady a s s').
Proof.
  intros G. unfold Transactions.apply.
  apply run_bind. intros u s1 E1. pose proof (same_steady _ _ G (quiet _ _ _ E1)) as S1.
  apply run_bind. intros sc s2 E2. pose proof (same_steady _ _ (steady_good _ _ _ S1) (quiet _ _ _ E2)) as S2.
  assert (HK : Keeps (mu := sub_measure a) (validateForApply env (set_fr_checker sc fr))) by apply _.
  apply run_bind. intros [v fr1] s3 E3.
  pose proof (moves_steady _ _ _ (HK _ _ _ (steady_good _ _ _ S2) E3)) as S3.
  assert (S : steady a s s3) by (eapply steady_trans; [exact S1|]; eapply steady_trans; done). clear S1 S2 S3 E1 E2 E3.
  rif; [|by apply run_ret]. eapply run_mono; [apply nested_steady; [apply S|]|].
  2: { intros r s4 S4. by eapply steady_trans. }
  intros t Gt. apply run_bind. eapply run_mono; [by apply applyLoop_steady|].
  intros [[e fr2] im2] t1 S1. destruct e; [apply run_bind, run_lift; intros ? _; by apply run_ret|].
  apply run_bind. eapply run_header. rif; [|by apply run_ret]. rif; [by apply run_ret|]. apply run_bind.
  intros u' t2 E2. apply run_ret. eapply steady_trans; [exact S1|].
  assert (HK' : Keeps (mu := sub_measure a) (removeUsedOneTimeSignerKeys (fr_checker fr2))) by apply _.
  apply moves_steady. eapply HK'; [apply S1|exact E2].
Qed.

End Counts.

(** Applying a transaction keeps the count of sub-entries right: if
    every account counts exactly its signers, trust lines, offers and data
    entries, and no entry has lost its account, then the same is true after
    [TransactionFrame::apply], whether the transaction succeeds or not; the
    removal of one-time signers is included.  The counts also stay below
    2 ^ 31. *)
Theorem transaction_keeps_subentry_counts fr im r s s' :
  counted s -> well_counted s ->
  Transactions.apply env fr im s = Ok (r, s') -> counted s' /\ well_counted s'.
Proof.
  intros G W E. eapply steady_counted; [exact G|exact W|]. intros a.
  by eapply (apply_steady a fr im s); [apply counted_good|].
Qed.

(** ** Failed transactions *)

(** the signer that stands for a pre-authorized transaction *)
Definition preAuthKey : SignerKey := mkSignerKey SIGNER_KEY_TYPE_PRE_AUTH_TX (getContentsHash (env_tx env)).

(** the source accounts of the transaction and of its operations *)
Definition sources : list AccountID := tx_sourceAccount (env_tx env) :: map (getSourceID env) (tx_operations (env_tx env)).

Section Failed.
(** the state before *)
Variable s0 : LState.

(** the account is that of a source *)
Definition signing (a : AccountID) : Prop :=
  exists src acc, src ∈ sources /\ acc_of s0 src = Some acc /\ acc_accountID acc = a.

(** What has become of an account: since version 10, the source account of the
    transaction may have taken its sequence number, and the account of a source may
    have lost signers, all of them the pre-authorization of this very transaction;
    the count of sub-entries has gone down by their number. *)
Record bookkept_account (k : LedgerKey) (acc acc' : AccountEntry) : Prop := {
  bk_id : acc_accountID acc' = acc_accountID acc;
  bk_balance : acc_balance acc' = acc_balance acc;
  bk_seqNum : acc_seqNum acc' = acc_seqNum acc \/
    10 <= ledgerVersion (st_header s0) /\ k = KeyAccount (tx_sourceAccount (env_tx env)) /\
    acc_seqNum acc <= acc_seqNum acc' /\ acc_seqNum acc' = tx_seqNum (env_tx env);
  bk_inflationDest : acc_inflationDest acc' = acc_inflationDest acc;
  bk_flags : acc_flags acc' = acc_flags acc;
  bk_homeDomain : acc_homeDomain acc' = acc_homeDomain acc;
  bk_thresholds : acc_thresholds acc' = acc_thresholds acc;
  bk_signers : (acc_signers acc' = acc_signers acc /\ acc_numSubEntries acc' = acc_numSubEntries acc) \/
    10 <= ledgerVersion (st_header s0) /\ (exists a, k = KeyAccount a /\ signing a) /\
    exists removed, acc_signers acc ≡ₚ removed ++ acc_signers acc' /\
      Forall (fun s => signer_key s = preAuthKey) removed /\
      (is_u32 (acc_numSubEntries acc) ->
       is_u32 (acc_numSubEntries acc') /\ acc_numSubEntries acc' = acc_numSubEntries acc - Z.of_nat (length removed));
  bk_ext : acc_ext acc' = acc_ext acc
}.

Definition bookkept_entry (k : LedgerKey) (e e' : LedgerEntry) : Prop :=
  e' = e \/ exists acc acc', le_data e = ACCOUNT acc /\ e' = set_le_data (ACCOUNT acc') e /\ bookkept_account k acc acc'.

Definition bookkept_option (k : LedgerKey) (o o' : option LedgerEntry) : Prop :=
  match o, o' with
  | None, None => True
  | Some e, Some e' => bookkept_entry k e e'
  | _, _ => False
  end.

(** the header and all entries but accounts are the same *)
Record bookkeeping (s s' : LState) : Prop := {
  bk_header : st_header s' = st_header s;
  bk_entries : forall k, bookkept_option k (st_entries s !! k) (st_entries s' !! k)
}.

Lemma bookkept_account_trans k a1 a2 a3 : bookkept_account k a1 a2 -> bookkept_account k a2 a3 -> bookkept_account k a1 a3.
Proof.
  intros [? ? Q1 ? ? ? ? S1 ?] [? ? Q2 ? ? ? ? S2 ?]. split; try congruence.
  - destruct Q1 as [Q1 | (V & Hk & Q1 & T1)], Q2 as [Q2 | (V' & Hk' & Q2 & T2)]; [left; congruence|right..]; split_and!; try done; try lia; congruence.
  - destruct S1 as [[S1 N1] | (V & A & r1 & P1 & F1 & N1)], S2 as [[S2 N2] | (V' & A' & r2 & P2 & F2 & N2)].
    + left. split; congruence.
    + right. rewrite <- S1, <- N1. by split_and!; [..|exists r2].
    + right. rewrite S2, N2. by split_and!; [..|exists r1].
    + right. split; [done|]. split; [done|]. exists (r1 ++ r2). rewrite P1, P2, app_assoc, length_app. split; [done|].
      split; [by apply Forall_app|]. intros Hu. destruct (N1 Hu) as [Hu1 E1]. destruct (N2 Hu1) as [Hu2 E2]. split; [done|lia].
Qed.
Lemma bookkept_entry_trans k e1 e2 e3 : bookkept_entry k e1 e2 -> bookkept_entry k e2 e3 -> bookkept_entry k e1 e3.
Proof.
  intros [->|(a1 & a2 & E1 & -> & B1)]; [done|]. intros [->|(a2' & a3 & E2 & -> & B2)]; right.
  - by exists a1, a2.
  - cbn in E2. injection E2 as <-. exists a1, a3. split; [done|]. split; [done|]. by eapply bookkept_account_trans.
Qed.
Lemma bookkeeping_refl s : bookkeeping s s.
Proof. split; [done|]. intros k. destruct (st_entries s !! k); [by left|done]. Qed.
Lemma bookkeeping_trans s1 s2 s3 : bookkeeping s1 s2 -> bookkeeping s2 s3 -> bookkeeping s1 s3.
Proof.
  intros [H1 B1] [H2 B2]. split; [congruence|]. intros k. specialize (B1 k). specialize (B2 k).
  destruct (st_entries s1 !! k), (st_entries s2 !! k), (st_entries s3 !! k); try done.
  by eapply bookkept_entry_trans.
Qed.
Lemma same_bookkeeping s s' : same s s' -> bookkeeping s s'.
Proof. intros [Hh He]. split; [done|]. rewrite He. apply bookkeeping_refl. Qed.

(** one account is written *)
Lemma put_bookkeeping s s' k e acc acc' :
  st_entries s !! k = Some e -> le_data e = ACCOUNT acc -> bookkept_account k acc acc' ->
  st_entries s' = <[k := set_le_data (ACCOUNT acc') e]> (st_entries s) -> st_header s' = st_header s -> bookkeeping s s'.
Proof.
  intros Ee Ea B Es Hh. split; [done|]. intros k'. rewrite Es. destruct (decide (k' = k)) as [->|Hk].
  - rewrite Ee, lookup_insert_eq. right. by exists acc, acc'.
  - rewrite lookup_insert_ne by done. apply bookkeeping_refl.
Qed.

(** the accounts that sign are the same *)
Lemma bookkeeping_signing s src acc :
  bookkeeping s0 s -> src ∈ sources -> acc_of s src = Some acc -> signing (acc_accountID acc).
Proof.
  intros [_ He] Hsrc Ha. specialize (He (KeyAccount src)). unfold acc_of in Ha. unfold bookkept_option in He.
  exists src. unfold acc_of. destruct (st_entries s0 !! KeyAccount src) as [e|], (st_entries s !! KeyAccount src) as [e'|]; try done.
  destruct He as [-> | (a1 & a2 & E1 & -> & B)].
  - destruct (le_data e); try done. injection Ha as ->. by exists acc.
  - cbn in Ha. injection Ha as <-. rewrite E1. exists a1. by rewrite (bk_id _ _ _ B).
Qed.

(** *** The keys that the checker records *)

Definition recorded (fr : Frame) : Prop :=
  mContentsHash (fr_checker fr) = getContentsHash (env_tx env) /\
  used_within (fun a k => signing a /\ k = preAuthKey) (fr_checker fr).

Lemma setOpResult_recorded i r fr fr' : setOpResult i r fr = Ok fr' -> recorded fr -> recorded fr'.
Proof. unfold setOpResult. by case_match; intros [= <-]. Qed.

Lemma accountSigners_preAuth a t : signersOfType SIGNER_KEY_TYPE_PRE_AUTH_TX [mkSigner (accountSignerKey a) t] = [].
Proof. done. Qed.

Lemma txCheckSignature_recorded src n fr s :
  bookkeeping s0 s -> src ∈ sources -> recorded fr ->
  run (tx_checkSignature (KeyAccount src) n fr) s (fun r _ => recorded (snd r)).
Proof.
  intros B Hsrc [Hh Hu]. unfold tx_checkSignature. apply run_bind. intros e s1 E. unfold ltx_current in E.
  destruct (st_entries s !! KeyAccount src) as [e1|] eqn:Ee; [|done]. injection E as <- <-.
  apply run_bind, run_lift. intros acc Ha%get_account_ok. destruct (checkSignature _ _ _ _) as [ok sc] eqn:Ec.
  apply run_ret. cbn. eapply checkSignature_used in Ec as [U1 H1].
  - split; [cbn; congruence|exact U1].
  - intros _. rewrite Hh. split; [|done]. eapply bookkeeping_signing; [exact B|exact Hsrc|]. unfold acc_of. by rewrite Ee, Ha.
  - exact Hu.
Qed.

Lemma checkNoAccount_recorded a fr ok fr' : tx_checkSignatureNoAccount a fr = (ok, fr') -> recorded fr -> recorded fr'.
Proof.
  intros E [Hh Hu]. unfold tx_checkSignatureNoAccount in E. destruct (checkSignature _ _ _ _) as [ok1 sc] eqn:Ec.
  injection E as <- <-. eapply checkSignature_used in Ec as [U1 H1]; [split; [cbn; congruence|exact U1]|done|exact Hu].
Qed.

(** *** The steps *)

Hypothesis Hv : 8 <= ledgerVersion (st_header s0).

Lemma bookkeeping_version s : bookkeeping s0 s -> ledgerVersion (st_header s) = ledgerVersion (st_header s0).
Proof. intros B. by rewrite (bk_header _ _ B). Qed.

Lemma load_handle a : Quiet (loadAccount a) /\ forall s o s', loadAccount a s = Ok (o, s') -> o = None \/ o = Some (KeyAccount a).
Proof.
  split; [apply _|]. intros s o s' E. unfold loadAccount, ltx_load in E. destruct (st_entries s !! _); injection E as <- <-; auto.
Qed.
Lemma txLoad_handle a s o s' :
  8 <= ledgerVersion (st_header s) -> tx_loadAccount a s = Ok (o, s') -> same s s' /\ (o = None \/ o = Some (KeyAccount a)).
Proof.
  intros V E. unfold tx_loadAccount, ltx_loadHeader, gets, mbind, ltm_bind, mret, ltm_ret in E.
  rewrite (proj2 (Z.ltb_ge _ _)) in E by done. destruct (loadAccount a s) as [[o1 s1]|] eqn:El; [|done].
  injection E as <- <-. destruct (load_handle a) as [Q1 Q2]. split; [by eapply Q1|by eapply Q2].
Qed.
Lemma txLoadSource_handle a s o s' :
  8 <= ledgerVersion (st_header s) -> tx_loadSourceAccount a s = Ok (o, s') -> same s s' /\ (o = None \/ o = Some (KeyAccount a)).
Proof.
  intros V E. unfold tx_loadSourceAccount in E. apply ltm_bind_ok in E as (h & s1 & Eh & E).
  apply ltx_loadHeader_ok in Eh as [-> ->]. apply ltm_bind_ok in E as (o1 & s2 & E1 & E).
  rewrite (proj2 (Z.ltb_ge _ _)) in E by done. apply ltm_bind_ok in E as (u & s3 & [_ ->]%ltm_ret_ok & [-> ->]%ltm_ret_ok).
  by apply txLoad_handle.
Qed.

(** a computation that only does bookkeeping, after a beginning that did *)
Class Bookkeeps {A} (m : ltm A) : Prop :=
  bookkeeps : forall s x s', bookkeeping s0 s -> m s = Ok (x, s') -> bookkeeping s s'.

#[local] Instance bk_quiet {A} (m : ltm A) : Quiet m -> Bookkeeps m | 100.
Proof. intros Hq s x s' _ E. by apply same_bookkeeping, (Hq _ _ _ E). Qed.
#[local] Instance bk_bind {A B} (m : ltm A) (f : A -> ltm B) :
  Bookkeeps m -> (forall x, Bookkeeps (f x)) -> Bookkeeps (m ≫= f).
Proof.
  intros Hm Hf s y s' B0 (x & s1 & E1 & E2)%ltm_bind_ok. pose proof (Hm _ _ _ B0 E1) as B1.
  eapply bookkeeping_trans; [exact B1|]. eapply Hf; [|exact E2]. by eapply bookkeeping_trans.
Qed.
#[local] Instance bk_if {A} (b : bool) (m1 m2 : ltm A) :
  Bookkeeps m1 -> Bookkeeps m2 -> Bookkeeps (if b then m1 else m2).
Proof. by destruct b. Qed.

Lemma bk_update {A} k (f : LedgerEntry -> res (A * LedgerEntry)) :
  (forall e x e', f e = Ok (x, e') -> exists acc acc', le_data e = ACCOUNT acc /\ e' = set_le_data (ACCOUNT acc') e /\
     bookkept_account k acc acc') -> Bookkeeps (ltx_update k f).
Proof.
  intros Hf s x s' _ (e & e' & Ee & He & Es & Hs)%ltx_update_ok. destruct (Hf _ _ _ He) as (acc & acc' & Ea & -> & B).
  by eapply put_bookkeeping.
Qed.

Lemma processSeqNum_bookkeeping s x s' : bookkeeping s0 s -> processSeqNum env s = Ok (x, s') -> bookkeeping s s'.
Proof.
  intros B0 E. unfold processSeqNum in E. apply ltm_bind_ok in E as (h & s1 & Eh & E).
  apply ltx_loadHeader_ok in Eh as [-> ->]. pose proof (bookkeeping_version s B0) as V. rewrite V in E.
  destruct (Z.geb_spec (ledgerVersion (st_header s0)) 10); [|apply ltm_ret_ok in E as [-> ->]; apply bookkeeping_refl].
  apply ltm_bind_ok in E as (o & s2 & E1 & E). apply txLoadSource_handle in E1 as [Hs Ho]; [|lia].
  eapply bookkeeping_trans; [by apply same_bookkeeping|]. revert x s' E.
  match goal with |- forall x s', ?m s2 = Ok (x, s') -> _ => change (run m s2 (fun _ s' => bookkeeping s2 s')) end.
  apply run_bind, run_readAccount. intros k e acc -> Ek Ea. rif; [apply run_throw|].
  destruct Ho as [Ho|[= ->]]; [done|]. unfold modifyAccount, updateEntry. apply run_bind, run_active. intros k [= <-].
  intros x s3 (e1 & e2 & Ee & He & Es & Hh)%ltx_update_ok. rewrite Ek in Ee. injection Ee as <-.
  unfold get_account in He. rewrite Ea in He. injection He as _ <-.
  eapply put_bookkeeping; [exact Ek|exact Ea| |exact Es|exact Hh]. split; auto. right. split; [lia|]. split; [done|].
  split; [cbn; rewrite Z.gtb_ltb in Heqb; apply Z.ltb_ge in Heqb; lia|done].
Qed.

Lemma eraseSigner_perm key l :
  existsb (fun s => bool_decide (signer_key s = key)) l = true ->
  exists x, signer_key x = key /\ l ≡ₚ x :: eraseSigner key l.
Proof.
  induction l as [|y l IH]; cbn [existsb eraseSigner]; [done|]. case_bool_decide as Hy; cbn [orb]; [by exists y|].
  intros (x & Hx & Hp)%IH. exists x. split; [done|]. rewrite Hp at 1. apply Permutation_swap.
Qed.

Lemma sort_signers_perm l : foldr insert_signer [] l ≡ₚ l.
Proof.
  assert (Hi : forall x l, insert_signer x l ≡ₚ x :: l).
  { intros x l'. induction l' as [|y l' IH]; cbn; [done|]. case_match; [done|]. rewrite IH. apply Permutation_swap. }
  induction l as [|x l IH]; cbn; [done|]. by rewrite Hi, IH.
Qed.

(** the count goes down by one *)
Lemma addNumEntries_minus h e ok e' acc :
  le_data e = ACCOUNT acc -> addNumEntries h e (-1) = Ok (ok, e') ->
  exists n, e' = set_le_data (ACCOUNT (set_acc_numSubEntries n acc)) e /\
    (is_u32 (acc_numSubEntries acc) -> is_u32 n /\ n = acc_numSubEntries acc - 1).
Proof.
  intros Ea E. unfold addNumEntries in E. unfold get_account at 1 in E. rewrite Ea in E. cbn [mbind res_bind] in E.
  destruct (Z.ltb_spec (i32 (u32 (acc_numSubEntries acc + -1))) 0) as [|Hn]; [done|].
  apply bind_ok_inv in E as (m & _ & E). cbn [Z.gtb Z.compare andb] in E. injection E as _ <-. eexists. split; [done|].
  intros Hu. split; [apply u32_range|]. revert Hn. unfold is_u32, u32, i32, UINT32_MAX in *. intros Hn.
  destruct (Z.eq_dec (acc_numSubEntries acc) 0) as [E0|E0]; [rewrite E0 in *; done|].
  Z.to_euclidean_division_equations; lia.
Qed.

Section Removal.
Variable a : AccountID.
Hypothesis Ha : signing a.
Hypothesis Hv10 : 10 <= ledgerVersion (st_header s0).

Lemma removeSigner_bookkeeps h : Bookkeeps (removeAccountSigner h (KeyAccount a) preAuthKey).
Proof.
  intros s r s' _ E. unfold removeAccountSigner in E. revert r s' E.
  match goal with |- forall r s', ?m s = Ok (r, s') -> _ => change (run m s (fun _ s' => bookkeeping s s')) end.
  apply run_bind, run_readAccount. intros k e acc [= <-] Ek Ea. rif; [|by apply run_ret, bookkeeping_refl].
  apply run_bind. intros ok s1 (e1 & e2 & Ee & He & Es & Hh)%ltx_update_ok. rewrite Ek in Ee. injection Ee as <-.
  destruct (addNumEntries_minus _ _ _ _ _ Ea He) as (n & -> & Hn). apply run_bind, run_assert. intros _.
  unfold modifyAccount, updateEntry. apply run_bind, run_bind, run_active. intros k [= <-].
  intros u s2 (e1 & e2 & Ee & Hg & Es2 & Hh2)%ltx_update_ok. apply run_ret.
  rewrite Es, lookup_insert_eq in Ee. injection Ee as <-. injection Hg as _ <-.
  rewrite Es, insert_insert_eq in Es2.
  eapply (put_bookkeeping s s2 _ e acc); [exact Ek|exact Ea| |exact Es2|congruence].
  destruct (eraseSigner_perm _ _ Heqb) as (x & Hx & Hp). split; auto. right. split; [done|]. split; [by exists a|].
  exists [x]. split; [exact Hp|]. split; [by constructor|exact Hn].
Qed.

Lemma removeKeys_bookkeeps h keys r : Forall (fun k => k = preAuthKey) keys -> Bookkeeps (removeKeys h (KeyAccount a) keys r).
Proof.
  intros Hk. revert r. induction Hk as [|k keys -> _ IH]; intros r; cbn [removeKeys]; [apply _|].
  apply bk_bind; [apply bk_if; [apply _|apply removeSigner_bookkeeps]|exact IH].
Qed.

Lemma removeUsedKeysOf_bookkeeps keys : Forall (fun k => k = preAuthKey) keys -> Bookkeeps (removeUsedKeysOf a keys).
Proof.
  intros Hk s x s' B0 E. unfold removeUsedKeysOf in E. apply ltm_bind_ok in E as (o & s1 & E1 & E).
  destruct (load_handle a) as [Q1 Q2]. pose proof (same_bookkeeping _ _ (Q1 _ _ _ E1)) as B1.
  eapply bookkeeping_trans; [exact B1|]. assert (B01 : bookkeeping s0 s1) by (by eapply bookkeeping_trans).
  destruct (Q2 _ _ _ E1) as [-> | ->]; [apply ltm_ret_ok in E as [_ ->]; apply bookkeeping_refl|].
  revert E. match goal with |- ?m _ = _ -> _ => enough (HB : Bookkeeps m) by (intros E; exact (HB _ _ _ B01 E)) end.
  apply bk_bind; [apply _|]. intros h. apply bk_bind; [by apply removeKeys_bookkeeps|]. intros b. apply bk_if; [|apply _].
  apply bk_update. intros e y e' E. apply bind_ok_inv in E as (e1 & E & [= <- <-]). unfold normalizeSigners in E.
  apply bind_ok_inv in E as (acc & Hacc%get_account_ok & [= <-]). eexists _, _. split; [done|]. split; [done|].
  split; auto. right. split; [done|]. split; [by exists a|]. exists []. cbn. rewrite sort_signers_perm.
  split; [done|]. split; [done|]. intros Hu. split; [done|lia].
Qed.

End Removal.

Lemma removeUsed_bookkeeps fr :
  recorded fr -> 10 <= ledgerVersion (st_header s0) -> Bookkeeps (removeUsedOneTimeSignerKeys (fr_checker fr)).
Proof.
  intros [_ Hu] V. unfold removeUsedOneTimeSignerKeys.
  assert (Hl : forall p, p ∈ map_to_list (mUsedOneTimeSignerKeys (fr_checker fr)) -> p.2 <> [] -> signing p.1 /\ Forall (fun k => k = preAuthKey) p.2).
  { intros [a keys] Hp%elem_of_map_to_list Hne. cbn in *. split.
    - destruct keys as [|k keys]; [done|]. by destruct (Hu a (k :: keys) k Hp ltac:(by left)).
    - apply Forall_forall. intros k Hk. by destruct (Hu a keys k Hp Hk). }
  revert Hl. generalize (map_to_list (mUsedOneTimeSignerKeys (fr_checker fr))). intros l Hl.
  induction l as [|[a keys] l IH]; cbn [removeUsedKeys]; [apply _|]. apply bk_bind; [|intros _; apply IH; intros p Hp; apply Hl; by right].
  destruct keys as [|k keys].
  - unfold removeUsedKeysOf. apply bk_bind; [apply _|]. intros [k|]; [|apply _]. apply bk_bind; [apply _|]. intros h.
    change (Bookkeeps (mret tt : ltm unit)). apply _.
  - destruct (Hl (a, k :: keys)) as [H1 H2]; [by left|done|]. by apply removeUsedKeysOf_bookkeeps.
Qed.

(** *** The signatures *)

Lemma opCheckSignature_recorded i op fr s :
  bookkeeping s0 s -> op ∈ tx_operations (env_tx env) -> recorded fr ->
  run (op_checkSignature env i op false fr) s (fun r s' => same s s' /\ recorded (snd r)).
Proof.
  intros B Hop R.
  assert (Hsrc : getSourceID env op ∈ sources) by (right; apply list_elem_of_fmap; eauto).
  unfold op_checkSignature. apply run_bind. intros o s1 E1.
  apply txLoad_handle in E1 as [Hs Ho]; [|by rewrite (bookkeeping_version s B)].
  assert (B1 : bookkeeping s0 s1) by (eapply bookkeeping_trans; [exact B|by apply same_bookkeeping]).
  assert (Hset : forall r0 ok fr1 t, same s t -> recorded fr1 ->
    run (A := bool * Frame) (fr2 ← lift (setOpResult i r0 fr1); mret (ok, fr2)) t (fun r s' => same s s' /\ recorded (snd r))).
  { intros r0 ok fr1 t Ht R1. apply run_bind, run_lift. intros fr2 E2. apply run_ret. split; [done|]. by eapply setOpResult_recorded. }
  destruct Ho as [-> | ->].
  - destruct (op_sourceAccount op) as [a|]; [|by apply Hset].
    destruct (tx_checkSignatureNoAccount a fr) as [ok fr1] eqn:Ec. apply checkNoAccount_recorded in Ec; [|done].
    rif; [by apply Hset|by apply run_ret].
  - apply run_bind, run_readAccount. intros k e acc _ _ _. apply run_bind. intros [ok fr1] s2 E2.
    pose proof (txCheckSignature_recorded _ _ _ _ B1 Hsrc R _ _ E2) as R1. cbn in R1.
    pose proof (same_trans _ _ _ Hs (quiet_txCheckSignature _ _ _ _ _ _ E2)) as S2.
    rif; [by apply Hset|by apply run_ret].
Qed.

Lemma opSignatures_recorded i ops b fr s :
  bookkeeping s0 s -> Forall (fun op => op ∈ tx_operations (env_tx env)) ops -> recorded fr ->
  run (checkOpSignatures env i ops b fr) s (fun r _ => recorded (snd r)).
Proof.
  intros B Ho. revert i b fr s B. induction Ho as [|op ops Hop _ IH]; intros i b fr s B R; cbn [checkOpSignatures]; [by apply run_ret|].
  apply run_bind. eapply run_mono; [by apply opCheckSignature_recorded|]. intros [ok fr1] s1 [S1 R1].
  apply IH; [|exact R1]. eapply bookkeeping_trans; [exact B|by apply same_bookkeeping].
Qed.

Lemma run_nested_quiet {A} (m : ltm (bool * A)) s (Q : A -> Prop) :
  run m (unshared s) (fun r _ => Q (snd r)) -> run (nested m) s (fun r _ => Q r).
Proof. intros Hm r s' (b & s1 & E & _)%nested_ok. exact (Hm _ _ E). Qed.

Lemma preSeqNum_same fr s : bookkeeping s0 s -> run (commonValidPreSeqNum env fr) s (fun _ s' => same s s').
Proof.
  intros B. unfold commonValidPreSeqNum. rif; [by apply run_ret|]. apply run_bind, run_header. cbv zeta.
  do 3 (rif; [by apply run_ret|]). apply run_bind. intros o s1 E1.
  apply txLoadSource_handle in E1 as [Hs _]; [|by rewrite (bookkeeping_version s B)]. by destruct o; apply run_ret.
Qed.

Lemma commonValid_recorded c b fr s :
  bookkeeping s0 s -> recorded fr -> run (commonValid env c b fr) s (fun r _ => recorded (snd r)).
Proof.
  intros B R. unfold commonValid. apply run_nested_quiet. pose proof (bookkeeping_trans _ _ _ B (same_bookkeeping _ _ (unshared_same s))) as B0.
  apply run_bind. intros o s1 E1.
  destruct o as [code|]; [by apply run_ret|].
  pose proof (bookkeeping_trans _ _ _ B0 (same_bookkeeping _ _ (preSeqNum_same _ _ B0 _ _ E1))) as B1.
  apply run_bind, run_header. apply run_bind. intros o s2 E2. apply txLoadSource_handle in E2 as [Hs Ho]; [|by rewrite (bookkeeping_version s1 B1)].
  apply run_bind, run_readAccount. intros k e acc -> _ _. destruct Ho as [|[= ->]]; [done|]. cbv zeta. rif; [by apply run_ret|].
  apply run_bind, run_active. intros k [= <-]. apply run_bind. eapply run_mono.
  { apply txCheckSignature_recorded; [|by left|exact R]. eapply bookkeeping_trans; [exact B1|by apply same_bookkeeping]. }
  intros [ok fr1] s3 R1. cbn in R1. rif; [by apply run_ret|]. apply run_bind. intros avail s4 _. rif; by apply run_ret.
Qed.

Lemma processSignatures_bookkeeping fr s :
  bookkeeping s0 s -> recorded fr -> run (processSignatures env fr) s (fun _ s' => bookkeeping s s').
Proof.
  intros B R. unfold processSignatures. apply run_bind, run_header. rewrite (bookkeeping_version s B).
  rif; [apply run_ret, bookkeeping_refl|]. apply run_bind. intros [ok fr1] s1 E1.
  pose proof (same_bookkeeping _ _ (quiet_opSignatures _ _ _ _ E1)) as B1.
  assert (R1 : recorded fr1).
  { revert E1. match goal with |- ?m _ = _ -> _ => enough (HR : run m s (fun r _ => recorded (snd r))) by (intros E1; exact (HR _ _ E1)) end.
    apply (run_nested_quiet _ _ (fun r => recorded (snd r))). apply run_bind. eapply run_mono.
    - apply opSignatures_recorded; [|by apply Forall_forall|exact R]. eapply bookkeeping_trans; [exact B|]. apply same_bookkeeping, unshared_same.
    - intros [ok2 fr2] s2 R2. by apply run_ret. }
  assert (B01 : bookkeeping s0 s1) by (by eapply bookkeeping_trans).
  apply run_bind. intros u s2 E2. apply removeUsed_bookkeeps in E2; [|done|apply Z.ltb_ge in Heqb; lia|done].
  pose proof (bookkeeping_trans _ _ _ B1 E2) as B2.
  rif; [apply run_bind, run_lift; intros fr2 _; by apply run_ret|]. rif; by apply run_ret.
Qed.

Lemma validateForApply_bookkeeping fr s :
  same s0 s -> recorded fr -> run (validateForApply env fr) s (fun _ s' => bookkeeping s0 s').
Proof.
  intros S R x s' (b & s1 & E & Hb)%nested_ok.
  assert (B0 : bookkeeping s0 (unshared s)) by (apply same_bookkeeping; exact (same_trans _ _ _ S (unshared_same s))).
  destruct b; [|apply same_bookkeeping; exact (same_trans _ _ _ S Hb)].
  enough (B1 : bookkeeping s0 s1) by (eapply bookkeeping_trans; [exact B1|by apply same_bookkeeping]).
  revert E. match goal with |- ?m _ = _ -> _ => enough (HR : run m (unshared s) (fun _ s' => bookkeeping s0 s')) by (intros E; exact (HR _ _ E)) end.
  apply run_bind. intros [cv fr1] s2 E2. pose proof (commonValid_recorded _ _ _ _ B0 R _ _ E2) as R1. cbn in R1.
  pose proof (bookkeeping_trans _ _ _ B0 (same_bookkeeping _ _ (quiet_commonValid _ _ _ _ _ _ E2))) as B2.
  apply run_bind. intros u s3 E3. assert (B3 : bookkeeping s0 s3).
  { destruct (vt_geb _ _); [|by apply ltm_ret_ok in E3 as [_ ->]]. eapply bookkeeping_trans; [exact B2|]. by eapply processSeqNum_bookkeeping. }
  apply run_bind. intros [sv fr2] s4 E4. apply run_ret.
  destruct (vt_geb cv kInvalidPostAuth); [|by apply ltm_ret_ok in E4 as [_ ->]]. eapply bookkeeping_trans; [exact B3|]. by eapply processSignatures_bookkeeping.
Qed.

End Failed.

(** what has become of the state in which the transaction is applied *)
Definition bookkept (s s' : LState) : Prop := bookkeeping s s s'.

(** Claim C27: a transaction that is not applied successfully leaves nothing
    but bookkeeping in the ledger: if [TransactionFrame::apply] returns false,
    the header is the same, no entry has been created or erased, and all entries
    that are not accounts are the same.  An account keeps its balance, its
    liabilities, its thresholds and all else, with two exceptions, both since version
    10: the source account of the transaction may have taken its sequence number,
    which is not smaller than the old one; and the source accounts of the
    transaction and of its operations may have lost signers, of which each is the
    pre-authorization of this very transaction, while the others stay (in some
    order) and the 32-bit count of sub-entries goes down by as many.  No effect of
    an operation is left, for all protocol versions since 8. *)
Theorem failed_transaction_leaves_bookkeeping fr im fr' im' s s' :
  8 <= ledgerVersion (st_header s) ->
  Transactions.apply env fr im s = Ok ((false, fr', im'), s') -> bookkept s s'.
Proof.
  intros Hv E. unfold Transactions.apply in E.
  apply ltm_bind_ok in E as (u & s1 & E1 & E). apply ltm_bind_ok in E as (sc & s2 & E2 & E).
  apply ltm_bind_ok in E as ([v fr1] & s3 & E3 & E).
  assert (S : same s s2) by exact (same_trans _ _ _ (quiet _ _ _ E1) (quiet _ _ _ E2)).
  assert (B : bookkept s s3).
  { apply ltm_bind_ok in E2 as (h & s2' & Eh & [-> ->]%ltm_ret_ok).
    eapply (validateForApply_bookkeeping s Hv) in E3; [exact E3|exact S|].
    split; [done|]. intros a keys k Hk. cbn in Hk. by rewrite lookup_empty in Hk. }
  destruct v; [|by inv_run; simplify_eq]. eapply bookkeeping_trans; [exact B|]. apply same_bookkeeping.
  apply nested_ok in E as (b & s4 & E & Hb). enough (b = false) as -> by done. revert E.
  match goal with |- ?m _ = _ -> _ => enough (HR : run m (unshared s3) (fun r _ => fst (fst (snd r)) = false -> fst r = false))
    by (intros E; exact (HR _ _ E eq_refl)) end.
  apply run_bind. intros [[e fr2] im2] s5 _. rif; [apply run_bind; intros ? ? _; by apply run_ret|].
  apply run_bind, run_header. rif; [|by apply run_ret]. rif; [by apply run_ret|].
  apply run_bind. intros ? ? _. by apply run_ret.
Qed.

(** ** Sequence numbers *)

Lemma ltm_bind_run {A B} (m : ltm A) (f : A -> ltm B) s x s1 :
  m s = Ok (x, s1) -> (m ≫= f) s = f x s1.
Proof. unfold mbind, ltm_bind. by intros ->. Qed.

Lemma txLoad_found a e s :
  8 <= ledgerVersion (st_header s) -> st_entries s !! KeyAccount a = Some e ->
  tx_loadSourceAccount a s = Ok (Some (KeyAccount a), unshare (KeyAccount a) s).
Proof.
  intros Hv Ee. unfold tx_loadSourceAccount, tx_loadAccount, ltx_loadHeader, gets, mbind, ltm_bind, mret, ltm_ret.
  rewrite (proj2 (Z.ltb_ge _ _)) by done. unfold loadAccount, ltx_load. by rewrite Ee.
Qed.

(** the check before the sequence number returns *)
Lemma preSeqNum_returns fr s e :
  8 <= ledgerVersion (st_header s) -> st_entries s !! KeyAccount (tx_sourceAccount (env_tx env)) = Some e ->
  exists o s', commonValidPreSeqNum env fr s = Ok (o, s') /\ same s s'.
Proof.
  intros Hv Ee. unfold commonValidPreSeqNum.
  destruct (_ =? 0)%nat; [by eexists _, s|].
  unfold ltx_loadHeader at 1, gets at 1, mbind at 1, ltm_bind at 1. cbv zeta beta.
  destruct (match tx_timeBounds _ with Some _ => _ | None => _ end); [by eexists _, s|].
  destruct (match tx_timeBounds _ with Some _ => _ | None => _ end); [by eexists _, s|].
  destruct (_ <? _); [by eexists _, s|].
  rewrite (ltm_bind_run _ _ _ _ _ (txLoad_found _ _ _ Hv Ee)). eexists _, _. split; [done|]. apply unshare_same.
Qed.

Definition out_of_sequence (acc : AccountEntry) : Prop :=
  acc_seqNum acc = INT64_MAX \/ i64 (acc_seqNum acc + 1) <> tx_seqNum (env_tx env).

Lemma commonValid_stale fr s acc :
  10 <= ledgerVersion (st_header s) ->
  acc_of s (tx_sourceAccount (env_tx env)) = Some acc -> out_of_sequence acc ->
  exists fr' s', commonValid env 0 true fr s = Ok ((kInvalid, fr'), s') /\ same s s'.
Proof.
  intros Hv Ha Ho. unfold acc_of in Ha.
  destruct (st_entries s !! KeyAccount (tx_sourceAccount (env_tx env))) as [e|] eqn:Ee; [|done].
  destruct (le_data e) as [x| | |] eqn:Ed; try done. injection Ha as ->.
  destruct (preSeqNum_returns fr (unshared s) e) as (o & s1 & E1 & [Hh1 He1]); [cbn; lia|done|].
  unfold commonValid, nested. rewrite (ltm_bind_run _ _ _ _ _ E1).
  destruct o as [code|]; [eexists _, _; split; [done|]; by split|].
  unfold ltx_loadHeader at 1, gets at 1, mbind at 1, ltm_bind at 1. cbv beta.
  assert (Ee1 : st_entries s1 !! KeyAccount (tx_sourceAccount (env_tx env)) = Some e) by (by rewrite He1).
  assert (Hv1 : 8 <= ledgerVersion (st_header s1)) by (rewrite Hh1; cbn; lia).
  rewrite (ltm_bind_run _ _ _ _ _ (txLoad_found _ _ _ Hv1 Ee1)).
  destruct (unshare_same (KeyAccount (tx_sourceAccount (env_tx env))) s1) as [Hh2 He2].
  set (s2 := unshare _ s1) in *.
  assert (Er : readEntry (Some (KeyAccount (tx_sourceAccount (env_tx env)))) get_account s2 = Ok (acc, s2)).
  { unfold readEntry, active, ltx_current, lift, mbind, ltm_bind, mret, ltm_ret. rewrite He2, Ee1.
    unfold get_account. by rewrite Ed. }
  rewrite (ltm_bind_run _ _ _ _ _ Er). cbv zeta. cbn [Z.eqb].
  replace (_ && _) with true.
  - eexists _, _. split; [done|]. by split.
  - symmetry. apply andb_true_iff. split.
    + apply orb_true_iff. left. rewrite Z.geb_leb. apply Z.leb_le. rewrite Hh1. cbn. lia.
    + apply orb_true_iff. destruct Ho as [->|Ho]; [left; by apply Z.eqb_eq|right].
      apply negb_true_iff. by apply Z.eqb_neq.
Qed.

(** Since version 10, a transaction whose sequence number is not the
    successor of the one of its source account is refused and changes nothing:
    [TransactionFrame::apply] returns false without an exception and without a
    write to the entries or the header.  In particular a transaction that has
    been applied, after which the account has its sequence number, cannot be
    applied again. *)
Theorem stale_transaction_is_refused fr im s acc :
  10 <= ledgerVersion (st_header s) ->
  acc_of s (tx_sourceAccount (env_tx env)) = Some acc -> out_of_sequence acc ->
  exists fr' s', Transactions.apply env fr im s = Ok ((false, fr', im), s') /\
    st_entries s' = st_entries s /\ st_header s' = st_header s.
Proof.
  intros Hv Ha Ho. unfold Transactions.apply.
  set (s1 := set_st_cached None true s).
  rewrite (ltm_bind_run forgetAccount _ s tt s1 eq_refl).
  rewrite (ltm_bind_run (newChecker env) _ s1 _ s1 eq_refl).
  set (fr0 := set_fr_checker _ fr).
  destruct (commonValid_stale fr0 (unshared s1) acc Hv Ha Ho) as (fr1 & s2 & E & [Hh He]).
  assert (Ev : validateForApply env fr0 s1 = Ok ((false, fr1), unshared s2)).
  { unfold validateForApply, nested. by rewrite (ltm_bind_run _ _ _ _ _ E). }
  rewrite (ltm_bind_run _ _ _ _ _ Ev). by exists fr1, (unshared s2).
Qed.

End Safety.
