(* ===== verification/Upgrades.v ===== *)
(** * Upgrades of the ledger

    src/src/herder/Upgrades.cpp: which upgrades a node proposes and accepts,
    and what an upgrade that was agreed on does to the ledger.  An upgrade to
    protocol version 10 and, from then on, a higher base reserve go through all
    offers ([prepareLiabilities]): offers that their owner could not honour are
    erased, the others adjusted, and the liabilities of the owner written.

    Time points are counted in seconds.  The encoding of an upgrade is XDR
    library code, the class [UpgradeXdr]. *)
From S2P Require Import Prelude Numeric Exchange LedgerEntries TransactionUtils LedgerTxn OfferBook LedgerState.

(** ** Data *)

Inductive LedgerUpgrade :=
| LEDGER_UPGRADE_VERSION (newLedgerVersion : Z)
| LEDGER_UPGRADE_BASE_FEE (newBaseFee : Z)
| LEDGER_UPGRADE_MAX_TX_SET_SIZE (newMaxTxSetSize : Z)
| LEDGER_UPGRADE_BASE_RESERVE (newBaseReserve : Z).

#[export] Instance LedgerUpgrade_eq_dec : EqDecision LedgerUpgrade.
Proof. solve_decision. Defined.

(** [LedgerUpgrade::type()], by the numbers of the XDR file *)
Definition upgrade_type (u : LedgerUpgrade) : Z :=
  match u with
  | LEDGER_UPGRADE_VERSION _ => 1
  | LEDGER_UPGRADE_BASE_FEE _ => 2
  | LEDGER_UPGRADE_MAX_TX_SET_SIZE _ => 3
  | LEDGER_UPGRADE_BASE_RESERVE _ => 4
  end.

(** [xdr_from_opaque] and [xdr_to_opaque] at [LedgerUpgrade]; [None] stands
    for [xdr_runtime_error] *)
Class UpgradeXdr := {
  upgrade_from_opaque : list Z -> option LedgerUpgrade;
  upgrade_to_opaque : LedgerUpgrade -> list Z;
  upgrade_opaque_roundtrip : forall u, upgrade_from_opaque (upgrade_to_opaque u) = Some u
}.

Record UpgradeParameters := mkUpgradeParameters {
  mUpgradeTime : Z;
  mProtocolVersion : option Z;
  mBaseFee : option Z;
  mMaxTxSize : option Z;
  mBaseReserve : option Z
}.

(** ** Proposing and accepting upgrades *)

(** [setParameters]: the new [mParams]; the argument is
    [cfg.LEDGER_PROTOCOL_VERSION] *)
Definition setParameters (params : UpgradeParameters) (supported : Z) : res UpgradeParameters :=
  match mProtocolVersion params with
  | Some v => if supported <? v then Throw (InvalidArgument "Protocol version error") else Ok params
  | None => Ok params
  end.

Section Parameters.
Variable mParams : UpgradeParameters.

Definition timeForUpgrade (time : Z) : bool := mUpgradeTime mParams <=? i64 time.

(** one of the four blocks of [createUpgradesFor] *)
Definition proposeIfNeeded (param : option Z) (current : Z) (make : Z -> LedgerUpgrade) : list LedgerUpgrade :=
  match param with
  | Some v => if negb (current =? v) then [make v] else []
  | None => []
  end.

Definition createUpgradesFor (header : LedgerHeader) : list LedgerUpgrade :=
  if negb (timeForUpgrade (sv_closeTime (scpValue header))) then []
  else
    proposeIfNeeded (mProtocolVersion mParams) (ledgerVersion header) LEDGER_UPGRADE_VERSION ++
    proposeIfNeeded (mBaseFee mParams) (baseFee header) LEDGER_UPGRADE_BASE_FEE ++
    proposeIfNeeded (mMaxTxSize mParams) (maxTxSetSize header) LEDGER_UPGRADE_MAX_TX_SET_SIZE ++
    proposeIfNeeded (mBaseReserve mParams) (baseReserve header) LEDGER_UPGRADE_BASE_RESERVE.

(** the parameter is set to this value *)
Definition wanted (param : option Z) (v : Z) : bool :=
  match param with Some x => v =? x | None => false end.

(** [isValid]: the type of the upgrade if it is valid *)
Definition isValid {X : UpgradeXdr} (upgrade : list Z) (nomination : bool) (supported : Z)
    (header : LedgerHeader) : option Z :=
  if nomination && negb (timeForUpgrade (sv_closeTime (scpValue header))) then None
  else
    match upgrade_from_opaque upgrade with
    | None => None
    | Some lupgrade =>
        let res :=
          match lupgrade with
          | LEDGER_UPGRADE_VERSION newVersion =>
              (if nomination then wanted (mProtocolVersion mParams) newVersion else true)
              && (newVersion <=? supported) && (ledgerVersion header <? newVersion)
          | LEDGER_UPGRADE_BASE_FEE newFee =>
              (if nomination then wanted (mBaseFee mParams) newFee else true) && negb (newFee =? 0)
          | LEDGER_UPGRADE_MAX_TX_SET_SIZE newMax =>
              (if nomination then wanted (mMaxTxSize mParams) newMax else true) && negb (newMax =? 0)
          | LEDGER_UPGRADE_BASE_RESERVE newReserve =>
              (if nomination then wanted (mBaseReserve mParams) newReserve else true) && negb (newReserve =? 0)
          end in
        if res : bool then Some (upgrade_type lupgrade) else None
    end.

End Parameters.

(** the lambda [resetParam]: the parameter and [updated] *)
Definition resetParam (o : option Z) (v : Z) (updated : bool) : option Z * bool :=
  match o with
  | Some x => if x =? v then (None, true) else (o, updated)
  | None => (o, updated)
  end.

Definition removeUpgrade (lu : LedgerUpgrade) (res : UpgradeParameters) (updated : bool)
    : UpgradeParameters * bool :=
  let '(mkUpgradeParameters t v f m r) := res in
  match lu with
  | LEDGER_UPGRADE_VERSION x => let '(v, b) := resetParam v x updated in (mkUpgradeParameters t v f m r, b)
  | LEDGER_UPGRADE_BASE_FEE x => let '(f, b) := resetParam f x updated in (mkUpgradeParameters t v f m r, b)
  | LEDGER_UPGRADE_MAX_TX_SET_SIZE x => let '(m, b) := resetParam m x updated in (mkUpgradeParameters t v f m r, b)
  | LEDGER_UPGRADE_BASE_RESERVE x => let '(r, b) := resetParam r x updated in (mkUpgradeParameters t v f m r, b)
  end.

Fixpoint removeUpgrades_from {X : UpgradeXdr} (updates : list (list Z)) (res : UpgradeParameters) (updated : bool)
    : UpgradeParameters * bool :=
  match updates with
  | [] => (res, updated)
  | u :: updates' =>
      match upgrade_from_opaque u with
      | None => removeUpgrades_from updates' res updated
      | Some lu => let '(res, updated) := removeUpgrade lu res updated in removeUpgrades_from updates' res updated
      end
  end.

(** [removeUpgrades]: the parameters that are left, and [updated] *)
Definition removeUpgrades {X : UpgradeXdr} (mParams : UpgradeParameters) (updates : list (list Z))
    : UpgradeParameters * bool :=
  removeUpgrades_from updates mParams false.

(** ** Bringing offers and liabilities into a valid state *)

(** [ltx.loadAllOffers()]: the handles of the offers of every account that has
    some, in the order of the map *)
Definition seller_of (kv : LedgerKey * LedgerEntry) : option AccountID :=
  match fst kv with KeyOffer a _ => Some a | _ => None end.
Definition offers_of (entries : gmap LedgerKey LedgerEntry) (a : AccountID) : list LedgerKey :=
  (filter (fun kv => seller_of kv = Some a) (map_to_list entries)).*1.
Definition sellers (entries : gmap LedgerKey LedgerEntry) : list AccountID :=
  remove_dups (omap seller_of (map_to_list entries)).
Definition ltx_loadAllOffers : ltm (list (AccountID * list LedgerKey)) := fun s =>
  Ok ((fun a => (a, offers_of (st_entries s) a)) <$> sellers (st_entries s), s).

(** the [unique_ptr]s: [None] when the sum does not fit in an int64_t *)
Abbreviation initialLiabilities := (gmap Asset (option Z)).

Definition addLiabilities (liabilities : initialLiabilities) (accountID : AccountID) (asset : Asset)
    (delta : Z) : res initialLiabilities :=
  let current := default (Some 0) (liabilities !! asset) in
  issuer ← (if is_native asset then Ok false else i ← getIssuer asset; Ok (accountID =? i));
  if issuer : bool then Ok (<[asset := current]> liabilities)
  else
    match current with
    | None => Ok (<[asset := None]> liabilities)
    | Some x =>
        '(ok, x) ← addBalance_i64 x delta INT64_MAX;
        Ok (<[asset := if ok : bool then Some x else None]> liabilities)
    end.

Definition getAvailableBalanceExcludingLiabilities (accountID : AccountID) (asset : Asset)
    (balanceAboveReserve : Z) : ltm Z :=
  if is_native asset then mret balanceAboveReserve
  else
    issuer ← lift (getIssuer asset);
    if accountID =? issuer then mret INT64_MAX
    else
      trust ← loadTrustLineWithoutRecord accountID asset;
      if tlw_bool trust then
        auth ← tlw_isAuthorized trust;
        if auth : bool then tlw_getBalance trust else mret 0
      else mret 0.

Definition getAvailableLimitExcludingLiabilities (accountID : AccountID) (asset : Asset) (balance : Z) : ltm Z :=
  if is_native asset then mret (i64 (INT64_MAX - balance))
  else
    issuer ← lift (getIssuer asset);
    if accountID =? issuer then mret INT64_MAX
    else
      trust ← ltx_loadWithoutRecord (KeyTrustLine accountID asset);
      match trust with
      | None => mret 0
      | Some k =>
          e ← ltx_current k;
          auth ← lift (isAuthorized e);
          if auth : bool then
            tl ← lift (get_trustLine e);
            mret (i64 (tl_limit tl - tl_balance tl))
          else mret 0
      end.

Definition shouldDeleteOffer (asset : Asset) (effectiveBalance : Z) (liabilities : initialLiabilities)
    (getCap : Asset -> Z -> ltm Z) : ltm bool :=
  match liabilities !! asset with
  | None => throw_msg "liabilities were not calculated"
  | Some (Some x) => cap ← getCap asset effectiveBalance; mret (cap <? x)
  | Some None => mret true
  end.

Inductive UpdateOfferResult := Unchanged | Adjusted | AdjustedToZero | Erased.

Section Prepare.
Context {U : UInt128}.
Variable header : LedgerHeader.

(** [addBalance] on one side of [liabilities[asset]] *)
Definition addTo (sideBuying : bool) (asset : Asset) (delta : Z) (liabilities : gmap Asset Liabilities)
    : res (gmap Asset Liabilities) :=
  let l := default (mkLiabilities 0 0) (liabilities !! asset) in
  '(ok, x) ← addBalance_i64 (if sideBuying then liab_buying l else liab_selling l) delta INT64_MAX;
  if ok : bool then
    Ok (<[asset := if sideBuying then mkLiabilities x (liab_selling l) else mkLiabilities (liab_buying l) x]> liabilities)
  else Throw (RuntimeError (if sideBuying then "could not add buying liabilities" else "could not add selling liabilities")).

(** whether the seller bears liabilities in the asset: native or not issued by it *)
Definition bearsLiabilities (seller : AccountID) (asset : Asset) : res bool :=
  if is_native asset then Ok true else i ← getIssuer asset; Ok (negb (seller =? i)).

(** one of the two last blocks of [updateOffer] *)
Definition addSide (sideBuying : bool) (seller : AccountID) (asset : Asset) (liability : res Z)
    (liabilities : gmap Asset Liabilities) : res (gmap Asset Liabilities) :=
  bears ← bearsLiabilities seller asset;
  if bears : bool then x ← liability; addTo sideBuying asset x liabilities else Ok liabilities.

(** [erase] and [res] before the offer is written *)
Definition decideOffer (offer : OfferEntry) (balance balanceAboveReserve : Z)
    (initialBuying initialSelling : initialLiabilities) : ltm (bool * UpdateOfferResult) :=
  erase ← shouldDeleteOffer (oe_selling offer) balanceAboveReserve initialSelling
            (getAvailableBalanceExcludingLiabilities (oe_sellerID offer));
  erase ← (if erase : bool then mret true
           else shouldDeleteOffer (oe_buying offer) balance initialBuying
                  (getAvailableLimitExcludingLiabilities (oe_sellerID offer)));
  if erase : bool then mret (true, Erased)
  else
    a ← lift (adjustOffer (oe_price offer) (oe_amount offer) INT64_MAX);
    mret (if a =? 0 then (true, AdjustedToZero) else (false, Unchanged)).

Definition updateOffer (offerEntry : LedgerKey) (balance balanceAboveReserve : Z)
    (liabilities : gmap Asset Liabilities) (initialBuying initialSelling : initialLiabilities)
    : ltm (UpdateOfferResult * gmap Asset Liabilities) :=
  e ← ltx_current offerEntry;
  offer ← lift (get_offer e);
  '(erase, r) ← decideOffer offer balance balanceAboveReserve initialBuying initialSelling;
  if erase : bool then
    _ ← ltx_erase offerEntry;
    mret (r, liabilities)
  else
    adjAmount ← lift (adjustOffer (oe_price offer) (oe_amount offer) INT64_MAX);
    r ← (if negb (adjAmount =? oe_amount offer) then
           _ ← ltx_set_current offerEntry (set_le_data (OFFER (set_oe_amount adjAmount offer)) e);
           mret Adjusted
         else mret r);
    e ← ltx_current offerEntry;
    liabilities ← lift (addSide true (oe_sellerID offer) (oe_buying offer) (getOfferBuyingLiabilities header e) liabilities);
    liabilities ← lift (addSide false (oe_sellerID offer) (oe_selling offer) (getOfferSellingLiabilities header e) liabilities);
    mret (r, liabilities).

(** the first loop over the offers of an account *)
Fixpoint initialOf (offers : list LedgerKey) (buying selling : initialLiabilities)
    : ltm (initialLiabilities * initialLiabilities) :=
  match offers with
  | [] => mret (buying, selling)
  | k :: offers' =>
      e ← ltx_current k;
      offer ← lift (get_offer e);
      b ← lift (getOfferBuyingLiabilities header e);
      buying ← lift (addLiabilities buying (oe_sellerID offer) (oe_buying offer) b);
      x ← lift (getOfferSellingLiabilities header e);
      selling ← lift (addLiabilities selling (oe_sellerID offer) (oe_selling offer) x);
      initialOf offers' buying selling
  end.

(** the second one *)
Fixpoint updateOffers (offers : list LedgerKey) (accountEntry : LedgerKey) (balance balanceAboveReserve : Z)
    (initialBuying initialSelling : initialLiabilities) (liabilities : gmap Asset Liabilities)
    : ltm (gmap Asset Liabilities) :=
  match offers with
  | [] => mret liabilities
  | k :: offers' =>
      '(r, liabilities) ← updateOffer k balance balanceAboveReserve liabilities initialBuying initialSelling;
      _ ← (match r with
           | AdjustedToZero | Erased => ltx_update accountEntry (fun e => addNumEntries header e (-1))
           | Unchanged | Adjusted => mret true
           end);
      updateOffers offers' accountEntry balance balanceAboveReserve initialBuying initialSelling liabilities
  end.

(** writing the liabilities in one asset *)
Definition writeNative (accountEntry : LedgerKey) (liab : Liabilities) : ltm unit :=
  s ← (e ← ltx_current accountEntry; lift (getSellingLiabilities header e));
  b ← (e ← ltx_current accountEntry; lift (getBuyingLiabilities header e));
  let deltaSelling := i64 (liab_selling liab - s) in
  let deltaBuying := i64 (liab_buying liab - b) in
  oks ← ltx_update accountEntry (fun e => addSellingLiabilities header e deltaSelling);
  if negb oks then throw_msg "invalid selling liabilities during upgrade"
  else
    okb ← ltx_update accountEntry (fun e => addBuyingLiabilities header e deltaBuying);
    if negb okb then throw_msg "invalid buying liabilities during upgrade" else mret tt.

Definition writeTrust (accountID : AccountID) (asset : Asset) (liab : Liabilities) : ltm unit :=
  trustEntry ← loadTrustLine accountID asset;
  s ← tlw_getSellingLiabilities header trustEntry;
  b ← tlw_getBuyingLiabilities header trustEntry;
  let deltaSelling := i64 (liab_selling liab - s) in
  let deltaBuying := i64 (liab_buying liab - b) in
  oks ← tlw_addSellingLiabilities header trustEntry deltaSelling;
  if negb oks then throw_msg "invalid selling liabilities during upgrade"
  else
    okb ← tlw_addBuyingLiabilities header trustEntry deltaBuying;
    if negb okb then throw_msg "invalid buying liabilities during upgrade" else mret tt.

Fixpoint writeLiabilities (accountID : AccountID) (accountEntry : LedgerKey) (l : list (Asset * Liabilities)) : ltm unit :=
  match l with
  | [] => mret tt
  | (asset, liab) :: l' =>
      _ ← (if is_native asset then writeNative accountEntry liab else writeTrust accountID asset liab);
      writeLiabilities accountID accountEntry l'
  end.

(** one account *)
Definition prepareAccount (accountID : AccountID) (offers : list LedgerKey) : ltm unit :=
  '(initialBuying, initialSelling) ← initialOf offers ∅ ∅;
  account ← loadAccount accountID;
  match account with
  | None => throw_msg "account does not exist"
  | Some accountEntry =>
      e ← ltx_current accountEntry;
      acc ← lift (get_account e);
      let balance := acc_balance acc in
      let minBalance := getMinBalance header (acc_numSubEntries acc) in
      let balanceAboveReserve := i64 (balance - minBalance) in
      liabilities ← updateOffers offers accountEntry balance balanceAboveReserve initialBuying initialSelling ∅;
      writeLiabilities accountID accountEntry (map_to_list liabilities)
  end.

Fixpoint prepareAccounts (l : list (AccountID * list LedgerKey)) : ltm unit :=
  match l with
  | [] => mret tt
  | (a, offers) :: l' => _ ← prepareAccount a offers; prepareAccounts l'
  end.

Definition prepareLiabilities : ltm unit :=
  offersByAccount ← ltx_loadAllOffers;
  prepareAccounts offersByAccount.

End Prepare.

(** ** Applying an upgrade *)

Section Apply.
Context {U : UInt128}.

Definition applyVersionUpgrade (newVersion : Z) : ltm unit :=
  header ← ltx_loadHeader;
  let prevVersion := ledgerVersion header in
  _ ← ltx_setHeader (set_ledgerVersion newVersion);
  if (newVersion >=? 10) && (prevVersion <? 10) then
    header ← ltx_loadHeader;
    prepareLiabilities header
  else mret tt.

Definition applyReserveUpgrade (newReserve : Z) : ltm unit :=
  header ← ltx_loadHeader;
  let didReserveIncrease := newReserve >? baseReserve header in
  _ ← ltx_setHeader (set_baseReserve newReserve);
  header ← ltx_loadHeader;
  if (ledgerVersion header >=? 10) && didReserveIncrease then prepareLiabilities header
  else mret tt.

Definition applyTo (upgrade : LedgerUpgrade) : ltm unit :=
  match upgrade with
  | LEDGER_UPGRADE_VERSION v => applyVersionUpgrade v
  | LEDGER_UPGRADE_BASE_FEE f => ltx_setHeader (set_baseFee f)
  | LEDGER_UPGRADE_MAX_TX_SET_SIZE m => ltx_setHeader (set_maxTxSetSize m)
  | LEDGER_UPGRADE_BASE_RESERVE r => applyReserveUpgrade r
  end.

End Apply.
