(* ===== verification/UpgradeLiabilities.v ===== *)
(** * What an upgrade does to offers and liabilities

    [prepareLiabilities] on a well-formed ledger: it returns, erases exactly
    the offers of the sides on which an account has promised more than it has,
    adjusts the others, and leaves the liabilities of the accounts and trust
    lines that still have offers equal to the sum of what these promise.  The
    upgrade to protocol version 10 therefore succeeds and leaves all
    liabilities right; an increase of the base reserve need not, as the runs at
    the end show. *)
From S2P Require Import Prelude Numeric Exchange LedgerEntries TransactionUtils LedgerTxn OfferBook LedgerState.
From S2P Require Import LedgerLogic OfferCross Operations OfferOperations Neutral SubEntries Upgrades.

(** ** Computations that return *)

Definition yields {A} (m : ltm A) (s : LState) (Q : A -> LState -> Prop) : Prop :=
  exists a s', m s = Ok (a, s') /\ Q a s'.

Section Yields.
Context {A B : Type}.

Lemma yields_bind (m : ltm A) (f : A -> ltm B) s Q :
  yields m s (fun a s1 => yields (f a) s1 Q) -> yields (m ≫= f) s Q.
Proof.
  intros (a & s1 & E & b & s2 & E2 & H). exists b, s2. split; [|done].
  unfold mbind, ltm_bind. by rewrite E.
Qed.
Lemma yields_ret (a : A) s (Q : A -> LState -> Prop) : Q a s -> yields (mret a) s Q.
Proof. by exists a, s. Qed.
Lemma yields_lift (r : res A) a s (Q : A -> LState -> Prop) : r = Ok a -> Q a s -> yields (lift r) s Q.
Proof. intros -> H. by exists a, s. Qed.
Lemma yields_mono (m : ltm A) s (Q Q' : A -> LState -> Prop) :
  yields m s Q -> (forall a s', Q a s' -> Q' a s') -> yields m s Q'.
Proof. intros (a & s' & E & H) HQ. exists a, s'. eauto. Qed.

End Yields.

Lemma yields_current k e s (Q : LedgerEntry -> LState -> Prop) :
  st_entries s !! k = Some e -> Q e s -> yields (ltx_current k) s Q.
Proof. intros E H. exists e, s. split; [|done]. unfold ltx_current. by rewrite E. Qed.

Lemma yields_set k e0 e s (Q : unit -> LState -> Prop) :
  st_entries s !! k = Some e0 ->
  (forall s', st_entries s' = <[k := e]> (st_entries s) -> Q tt s') -> yields (ltx_set_current k e) s Q.
Proof.
  intros E H. exists tt, (put k e s). split; [|apply H, put_entries]. unfold ltx_set_current. by rewrite E.
Qed.

Lemma yields_erase k e s (Q : unit -> LState -> Prop) :
  st_entries s !! k = Some e ->
  (forall s', st_entries s' = delete k (st_entries s) -> Q tt s') -> yields (ltx_erase k) s Q.
Proof.
  intros E H. eexists tt, _. split; [unfold ltx_erase; rewrite E; reflexivity|].
  apply H. by destruct (unshare_same k (set_st_entries (delete k (st_entries s)) s)).
Qed.

Lemma yields_update {A} k e (f : LedgerEntry -> res (A * LedgerEntry)) a e' s (Q : A -> LState -> Prop) :
  st_entries s !! k = Some e -> f e = Ok (a, e') ->
  (forall s', st_entries s' = <[k := e']> (st_entries s) -> Q a s') -> yields (ltx_update k f) s Q.
Proof.
  intros E Ef H. unfold ltx_update. apply yields_bind. eapply yields_current; [done|].
  apply yields_bind. eapply yields_lift; [done|]. apply yields_bind. eapply yields_set; [done|].
  intros s' Es. by apply yields_ret, H.
Qed.

Lemma yields_load k e s (Q : option LedgerKey -> LState -> Prop) :
  st_entries s !! k = Some e ->
  (forall s', st_entries s' = st_entries s -> Q (Some k) s') -> yields (ltx_load k) s Q.
Proof.
  intros E H. eexists _, _. split; [unfold ltx_load; rewrite E; reflexivity|].
  apply H. by destruct (unshare_same k s).
Qed.

(** ** What an offer promises *)

Section Promises.
Context {U : UInt128}.

(** what is bought ([true]) and sold ([false]) *)
Definition side_asset (b : bool) (o : OfferEntry) : Asset := if b then oe_buying o else oe_selling o.

Definition taken (o : OfferEntry) : Z * Z :=
  taken_by_wheat (oe_price o) (wheat_value (oe_price o) (oe_amount o) INT64_MAX).
Definition promise (b : bool) (o : OfferEntry) : Z := if b then snd (taken o) else fst (taken o).

Definition offer_ok (o : OfferEntry) : Prop := valid_price (oe_price o) /\ is_amount (oe_amount o).

Definition adjusted (o : OfferEntry) : OfferEntry :=
  set_oe_amount (adjust_ref (oe_price o) (oe_amount o) INT64_MAX) o.

Lemma max_amount : is_amount INT64_MAX.
Proof. zlia. Qed.
#[local] Hint Resolve max_amount : core.

Lemma promise_bounds b o : offer_ok o -> is_amount (promise b o).
Proof.
  intros [Hp Ha]. destruct (taken_by_wheat_bounds (oe_price o) Hp (wheat_value (oe_price o) (oe_amount o) INT64_MAX))
    as (?&?&_&Hw&Hs); [apply wheat_value_nonneg; first [done|zlia]|].
  fold (taken o) in *. specialize (Hw (oe_amount o)). specialize (Hs INT64_MAX).
  destruct b; cbn [promise]; split; try lia.
  - apply Hs. unfold wheat_value. lia.
  - etrans; [apply Hw; unfold wheat_value; lia|]. zlia.
Qed.

Lemma offer_exchange o : offer_ok o ->
  exchangeV10WithoutPriceErrorThresholds (oe_price o) (oe_amount o) INT64_MAX INT64_MAX INT64_MAX false =
  Ok (mkExchangeResultV10 (promise false o) (promise true o) false).
Proof.
  intros [Hp Ha]. rewrite exchangeV10WithoutPriceErrorThresholds_ok by done. by rewrite exchange_ref_unlimited.
Qed.

Lemma buying_promise h e o :
  10 <= ledgerVersion h -> le_data e = OFFER o -> offer_ok o -> getOfferBuyingLiabilities h e = Ok (promise true o).
Proof.
  intros Hv He Ho. unfold getOfferBuyingLiabilities, get_offer. rewrite (proj2 (Z.ltb_ge _ _)) by lia.
  rewrite He, bind_ok, offer_exchange by done. done.
Qed.
Lemma selling_promise h e o :
  10 <= ledgerVersion h -> le_data e = OFFER o -> offer_ok o -> getOfferSellingLiabilities h e = Ok (promise false o).
Proof.
  intros Hv He Ho. unfold getOfferSellingLiabilities, get_offer. rewrite (proj2 (Z.ltb_ge _ _)) by lia.
  rewrite He, bind_ok, offer_exchange by done. done.
Qed.

(** an offer that is not adjusted to zero promises the same afterwards, and
    something on both sides *)
Lemma adjusted_promise b o :
  offer_ok o -> adjust_ref (oe_price o) (oe_amount o) INT64_MAX <> 0 ->
  promise b (adjusted o) = promise b o /\ 0 < promise b o /\ offer_ok (adjusted o).
Proof.
  intros [Hp Ha] Hz. pose proof (adjust_ref_bounds _ Hp _ _ Ha max_amount) as Hb.
  assert (Et : taken (adjusted o) = taken o /\ 0 < fst (taken o) /\ 0 < snd (taken o)).
  { unfold taken, adjusted in *. cbn [oe_price oe_amount set_oe_amount]. unfold adjust_ref in *. cbv zeta in *.
    destruct (_ && _ && _)%bool eqn:E; [|done]. rewrite taken_by_wheat_idem by done.
    apply andb_prop in E as [[E1 E2]%andb_prop _]. zb. done. }
  destruct Et as (Et & E1 & E2). split; [unfold promise; by rewrite Et|]. split; [by destruct b|].
  split; [done|]. cbn. zlia.
Qed.

(** ** Sums of promises *)

Definition sum_side (b : bool) (A : Asset) (os : list OfferEntry) : Z :=
  foldr (fun o acc => (if decide (side_asset b o = A) then promise b o else 0) + acc) 0 os.

Lemma sum_side_cons b A o l :
  sum_side b A (o :: l) = (if decide (side_asset b o = A) then promise b o else 0) + sum_side b A l.
Proof. done. Qed.
Lemma sum_side_app b A l1 l2 : sum_side b A (l1 ++ l2) = sum_side b A l1 + sum_side b A l2.
Proof. induction l1 as [|o l1 IH]; [done|]. cbn [app]. rewrite !sum_side_cons, IH. lia. Qed.
Lemma sum_side_nonneg b A l : Forall offer_ok l -> 0 <= sum_side b A l.
Proof.
  induction 1 as [|o l Ho Hl IH]; [done|]. rewrite sum_side_cons. pose proof (promise_bounds b o Ho). case_decide; zlia.
Qed.
Lemma sum_side_sublist b A l1 l2 : Forall offer_ok l2 -> sublist l1 l2 -> sum_side b A l1 <= sum_side b A l2.
Proof.
  intros H HS. induction HS as [|o l1 l2 _ IH|o l1 l2 _ IH]; [done|..]; inversion H; subst; rewrite !sum_side_cons.
  - specialize (IH ltac:(done)). case_decide; lia.
  - specialize (IH ltac:(done)). pose proof (promise_bounds b o ltac:(done)). case_decide; zlia.
Qed.
Lemma sum_side_perm b A l1 l2 : l1 ≡ₚ l2 -> sum_side b A l1 = sum_side b A l2.
Proof. induction 1; rewrite ?sum_side_cons; lia. Qed.
Lemma sum_side_none b A l : (forall o, o ∈ l -> side_asset b o <> A) -> sum_side b A l = 0.
Proof.
  induction l as [|o l IH]; intros H; [done|]. rewrite sum_side_cons, decide_False by (apply H; by left).
  rewrite IH; [done|]. intros o' Ho. apply H. by right.
Qed.
Lemma sum_side_map b A (f : OfferEntry -> OfferEntry) l :
  (forall o, o ∈ l -> side_asset b (f o) = side_asset b o /\ promise b (f o) = promise b o) ->
  sum_side b A (f <$> l) = sum_side b A l.
Proof.
  induction l as [|o l IH]; intros H; [done|]. cbn [fmap list_fmap].
  rewrite !sum_side_cons. destruct (H o ltac:(by left)) as [-> ->]. rewrite IH; [done|]. intros o' Ho. apply H. by right.
Qed.

End Promises.

(** ** The first loop *)

Definition issued_by (a : AccountID) (A : Asset) : bool :=
  match A with AssetNative => false | AssetAlphaNum4 _ i | AssetAlphaNum12 _ i => a =? i end.

Lemma issued_check a A :
  (if is_native A then Ok false else i ← getIssuer A; Ok (a =? i)) = Ok (issued_by a A).
Proof. by destruct A. Qed.
Lemma bears_check a A : bearsLiabilities a A = Ok (negb (issued_by a A)).
Proof. by destruct A. Qed.

Section Account.
Context {U : UInt128}.
Variable a : AccountID.

(** the sum that the first loop keeps for an asset *)
Definition capped (b : bool) (os : list OfferEntry) (A : Asset) : option Z :=
  if issued_by a A then Some 0
  else if sum_side b A os <=? INT64_MAX then Some (sum_side b A os) else None.
Definition initial_inv (b : bool) (os : list OfferEntry) (m : initialLiabilities) : Prop :=
  forall A, m !! A = if decide (A ∈ side_asset b <$> os) then Some (capped b os A) else None.

Lemma capped_default b os m A : initial_inv b os m -> default (Some 0) (m !! A) = capped b os A.
Proof.
  intros H. rewrite H. case_decide as Hd; [done|]. unfold capped. destruct (issued_by a A); [done|].
  rewrite sum_side_none; [done|]. intros o Ho <-. apply Hd. apply list_elem_of_fmap. eauto.
Qed.

Lemma capped_other b os o A : side_asset b o <> A -> capped b (os ++ [o]) A = capped b os A.
Proof.
  intros H. unfold capped. rewrite sum_side_app, sum_side_cons, decide_False by done. cbn. by rewrite !Z.add_0_r.
Qed.

Lemma addLiabilities_initial b os o m :
  Forall offer_ok os -> offer_ok o -> initial_inv b os m ->
  exists m', addLiabilities m a (side_asset b o) (promise b o) = Ok m' /\ initial_inv b (os ++ [o]) m'.
Proof.
  intros Hos Ho Hi. set (A := side_asset b o).
  assert (Hm : forall x, x = capped b (os ++ [o]) A -> initial_inv b (os ++ [o]) (<[A := x]> m)).
  { intros x Hx A'. destruct (decide (A' = A)) as [->|Hne].
    - rewrite lookup_insert_eq, decide_True; [by rewrite Hx|]. rewrite fmap_app, elem_of_app. right. by left.
    - rewrite lookup_insert_ne, Hi, capped_other by done. apply decide_ext.
      rewrite fmap_app, elem_of_app. cbn. rewrite list_elem_of_singleton. split; [by left|].
      intros [?|?]; [done|]. by subst A'. }
  unfold addLiabilities. rewrite (capped_default b os m A Hi), issued_check, bind_ok.
  pose proof (sum_side_nonneg b A os Hos) as Hn. pose proof (promise_bounds b o Ho) as Hp.
  assert (Hs : sum_side b A (os ++ [o]) = sum_side b A os + promise b o).
  { rewrite sum_side_app, sum_side_cons, decide_True by done. cbn. lia. }
  unfold capped in *. rewrite Hs in *. destruct (issued_by a A); [eexists; split; [done|by apply Hm]|].
  destruct (Z.leb_spec (sum_side b A os) INT64_MAX).
  - rewrite addBalance_i64_spec by zlia. cbn [mbind res_bind].
    destruct (Z.leb_spec (sum_side b A os + promise b o) INT64_MAX) as [Hle|Hgt].
    + rewrite (proj2 (Z.leb_le 0 _)), andb_true_l, orb_true_r by zlia. eexists; split; [done|]. by apply Hm.
    + rewrite (proj2 (Z.eqb_neq _ _)), andb_false_r by zlia. eexists; split; [done|]. by apply Hm.
  - eexists; split; [done|]. apply Hm. rewrite (proj2 (Z.leb_gt _ _)); [done|zlia].
Qed.

(** ** The liabilities that the second loop collects *)

Definition touched (bs ss : list OfferEntry) (A : Asset) : bool :=
  negb (issued_by a A) &&
  (bool_decide (A ∈ side_asset true <$> bs) || bool_decide (A ∈ side_asset false <$> ss)).

(** the buying sides of [bs] and the selling sides of [ss] *)
Definition liab_inv (bs ss : list OfferEntry) (L : gmap Asset Liabilities) : Prop :=
  forall A, L !! A = if touched bs ss A then Some (mkLiabilities (sum_side true A bs) (sum_side false A ss)) else None.

Lemma liab_default bs ss L A :
  issued_by a A = false -> liab_inv bs ss L ->
  default (mkLiabilities 0 0) (L !! A) = mkLiabilities (sum_side true A bs) (sum_side false A ss).
Proof.
  intros Hi H. rewrite H. unfold touched. rewrite Hi. cbn [negb andb].
  destruct (_ || _) eqn:E; [done|]. apply orb_false_iff in E as [E1 E2].
  apply bool_decide_eq_false in E1. apply bool_decide_eq_false in E2.
  rewrite !sum_side_none; [done|..]; intros o Ho <-; [apply E2|apply E1]; apply list_elem_of_fmap; eauto.
Qed.

Definition with_side (b : bool) (o : OfferEntry) (l : list OfferEntry) (here : bool) : list OfferEntry :=
  if Bool.eqb b here then l ++ [o] else l.

Lemma touched_other b o bs ss A :
  side_asset b o <> A -> touched (with_side b o bs true) (with_side b o ss false) A = touched bs ss A.
Proof.
  intros H. unfold touched, with_side. f_equal.
  assert (Hd : forall l, bool_decide (A ∈ side_asset b <$> (l ++ [o])) = bool_decide (A ∈ side_asset b <$> l)).
  { intros l. apply bool_decide_ext. rewrite fmap_app, elem_of_app. cbn. rewrite list_elem_of_singleton. naive_solver. }
  by destruct b; cbn [Bool.eqb]; rewrite Hd.
Qed.
Lemma sum_other b o l A here : side_asset b o <> A -> sum_side here A (with_side b o l here) = sum_side here A l.
Proof.
  intros H. unfold with_side. destruct (Bool.eqb b here) eqn:E; [|done]. apply Bool.eqb_prop in E as ->.
  rewrite sum_side_app, sum_side_cons, decide_False by done. cbn. lia.
Qed.

Lemma addSide_inv b o bs ss L :
  Forall offer_ok bs -> Forall offer_ok ss -> offer_ok o -> liab_inv bs ss L ->
  (issued_by a (side_asset b o) = false ->
    sum_side b (side_asset b o) (if b then bs else ss) + promise b o <= INT64_MAX) ->
  exists L', addSide b a (side_asset b o) (Ok (promise b o)) L = Ok L' /\
    liab_inv (with_side b o bs true) (with_side b o ss false) L'.
Proof.
  intros Hb Hs Ho Hi Hm. set (A := side_asset b o) in *. unfold addSide.
  rewrite bears_check, bind_ok. destruct (issued_by a A) eqn:EI; cbn [negb].
  { exists L. split; [done|]. intros A'. destruct (decide (A' = A)) as [->|Hne].
    - rewrite Hi. unfold touched. by rewrite EI.
    - by rewrite touched_other, !sum_other by (by intros ?; apply Hne). }
  specialize (Hm eq_refl). rewrite bind_ok. unfold addTo. rewrite (liab_default bs ss L A EI Hi). cbn [liab_buying liab_selling].
  pose proof (promise_bounds b o Ho). pose proof (sum_side_nonneg true A bs Hb). pose proof (sum_side_nonneg false A ss Hs).
  rewrite addBalance_i64_spec by (destruct b; zlia).
  rewrite (proj2 (Z.leb_le 0 _)), (proj2 (Z.leb_le _ INT64_MAX)), andb_true_l, orb_true_r by (destruct b; zlia).
  cbn [mbind res_bind]. eexists. split; [done|]. intros A'. destruct (decide (A' = A)) as [->|Hne].
  - rewrite lookup_insert_eq. unfold touched. rewrite EI.
    assert (Hin : forall l, A ∈ side_asset b <$> (l ++ [o])).
    { intros l. rewrite fmap_app, elem_of_app. right. by left. }
    assert (Hsum : forall l, sum_side b A (l ++ [o]) = sum_side b A l + promise b o).
    { intros l. rewrite sum_side_app, sum_side_cons, decide_True by done. cbn. lia. }
    unfold with_side. destruct b; cbn [Bool.eqb negb andb];
      rewrite (bool_decide_eq_true_2 _ (Hin _)), ?orb_true_r, ?orb_true_l, Hsum; done.
  - rewrite lookup_insert_ne by done. by rewrite touched_other, !sum_other by (by intros ?; apply Hne).
Qed.

End Account.

(** ** The limits *)

Definition line (m : gmap LedgerKey LedgerEntry) (a : AccountID) (A : Asset) : option TrustLineEntry :=
  match m !! KeyTrustLine a A with
  | Some e => match le_data e with TRUSTLINE t => Some t | _ => None end
  | None => None
  end.

Definition trust_ok (t : TrustLineEntry) : Prop :=
  is_amount (tl_balance t) /\ tl_balance t <= tl_limit t <= INT64_MAX /\
  is_amount (ext_buying (tl_ext t)) /\ is_amount (ext_selling (tl_ext t)).

(** what the account can receive ([true]) and give ([false]) of an asset *)
Definition cap (m : gmap LedgerKey LedgerEntry) (a : AccountID) (balance above : Z) (b : bool) (A : Asset) : Z :=
  if is_native A then if b then INT64_MAX - balance else above
  else if issued_by a A then INT64_MAX
  else
    match line m a A with
    | Some t => if tl_authorized t then if b then tl_limit t - tl_balance t else tl_balance t else 0
    | None => 0
    end.

(** the entries of one account have their keys, and its lines are in order *)
Definition own_keys (a : AccountID) (m : gmap LedgerKey LedgerEntry) : Prop :=
  forall k e, owner k = a -> m !! k = Some e -> LedgerEntryKey e = k.
Definition own_lines (a : AccountID) (m : gmap LedgerKey LedgerEntry) : Prop :=
  forall A t, line m a A = Some t -> trust_ok t.

Lemma key_trustline m k e a A :
  own_keys a m -> m !! k = Some e -> k = KeyTrustLine a A -> exists t, le_data e = TRUSTLINE t /\ line m a A = Some t.
Proof.
  intros K E ->. pose proof (K (KeyTrustLine a A) e eq_refl E) as Hk. unfold line. rewrite E. unfold LedgerEntryKey in Hk.
  destruct (le_data e); try done. eauto.
Qed.

Lemma issuer_of A : is_native A = false -> exists i, getIssuer A = Ok i /\ (forall a, issued_by a A = (a =? i)).
Proof. destruct A; [done|eauto..]. Qed.

Section Caps.
Variables (a : AccountID) (s : LState).
Hypothesis K : own_keys a (st_entries s).
Hypothesis Hl : own_lines a (st_entries s).

Lemma available_balance balance above A :
  getAvailableBalanceExcludingLiabilities a A above s = Ok (cap (st_entries s) a balance above false A, s).
Proof.
  unfold getAvailableBalanceExcludingLiabilities, cap. destruct (is_native A) eqn:En; [done|].
  destruct (issuer_of A En) as (i & Ei & Hi). unfold mbind at 1, ltm_bind at 1, lift. rewrite Ei, Hi.
  destruct (a =? i) eqn:Ea; [done|]. unfold mbind at 1, ltm_bind at 1.
  unfold loadTrustLineWithoutRecord, makeTrustLine, mbind at 1, ltm_bind at 1, lift. rewrite Ei, Z.eqb_sym, Ea. cbn [negb].
  unfold mbind at 1, ltm_bind at 1, ltx_loadWithoutRecord.
  destruct (st_entries s !! KeyTrustLine a A) as [e|] eqn:E.
  - destruct (key_trustline _ _ _ a A K E eq_refl) as (t & Ht & ->). cbn.
    unfold ltx_current, mbind, ltm_bind. rewrite E. unfold isAuthorized, get_trustLine, lift. rewrite Ht. cbn.
    unfold tl_authorized. destruct (negb _); [|done]. unfold tlw_getBalance. cbn.
    unfold ltx_current, mbind, ltm_bind. rewrite E. unfold get_trustLine, lift. by rewrite Ht.
  - unfold line. by rewrite E.
Qed.

Lemma available_limit balance above A :
  is_amount balance ->
  getAvailableLimitExcludingLiabilities a A balance s = Ok (cap (st_entries s) a balance above true A, s).
Proof.
  intros Hb. unfold getAvailableLimitExcludingLiabilities, cap.
  destruct (is_native A) eqn:En; [by rewrite i64_id by zlia|].
  destruct (issuer_of A En) as (i & Ei & Hi). unfold mbind at 1, ltm_bind at 1, lift. rewrite Ei, Hi.
  destruct (a =? i) eqn:Ea; [done|]. unfold mbind at 1, ltm_bind at 1, ltx_loadWithoutRecord.
  destruct (st_entries s !! KeyTrustLine a A) as [e|] eqn:E.
  - destruct (key_trustline _ _ _ a A K E eq_refl) as (t & Ht & El). pose proof (Hl _ _ El) as (?&?&_). rewrite El.
    unfold ltx_current, mbind, ltm_bind. rewrite E. unfold isAuthorized, get_trustLine, lift. rewrite Ht. cbn.
    unfold tl_authorized. destruct (negb _); [|done]. cbn. by rewrite i64_id by zlia.
  - unfold line. by rewrite E.
Qed.

End Caps.

(** ** One offer *)

Section Update.
Context {U : UInt128}.
Variables (h : LedgerHeader) (a : AccountID) (balance above : Z).
(** the entries before, and the offers of the account *)
Variables (m0 : gmap LedgerKey LedgerEntry) (os : list OfferEntry).
Hypothesis Hv : 10 <= ledgerVersion h.
Hypothesis Hb : is_amount balance.
Hypothesis Hos : Forall offer_ok os.

Definition excess (b : bool) (o : OfferEntry) : bool :=
  match capped a b os (side_asset b o) with
  | Some x => cap m0 a balance above b (side_asset b o) <? x
  | None => true
  end.

(** the offers that stay *)
Definition keep (o : OfferEntry) : bool :=
  negb (excess false o) && negb (excess true o) && negb (adjust_ref (oe_price o) (oe_amount o) INT64_MAX =? 0).

Lemma keep_sum b o :
  keep o = true -> issued_by a (side_asset b o) = false ->
  sum_side b (side_asset b o) os <= cap m0 a balance above b (side_asset b o) /\ sum_side b (side_asset b o) os <= INT64_MAX.
Proof.
  intros Hk Hi. assert (E : excess b o = false).
  { unfold keep in Hk. apply andb_prop in Hk as [[H1 H2]%andb_prop _]. destruct b; by zb. }
  unfold excess, capped in E. rewrite Hi in E. destruct (Z.leb_spec (sum_side b (side_asset b o) os) INT64_MAX); [|done].
  zb. done.
Qed.

(** the trust lines are those of the start *)
Record current (s : LState) : Prop := {
  cur_keys : own_keys a (st_entries s);
  cur_ok : own_lines a (st_entries s);
  cur_lines : forall A, st_entries s !! KeyTrustLine a A = m0 !! KeyTrustLine a A
}.

Lemma cap_current s b A : current s -> cap (st_entries s) a balance above b A = cap m0 a balance above b A.
Proof. intros [_ _ H]. unfold cap, line. by rewrite H. Qed.

Lemma shouldDelete_excess b o s m :
  current s -> o ∈ os -> initial_inv a b os m ->
  shouldDeleteOffer (side_asset b o) (if b then balance else above) m
    (if b then getAvailableLimitExcludingLiabilities a else getAvailableBalanceExcludingLiabilities a) s
  = Ok (excess b o, s).
Proof.
  intros Hs Ho Hi. unfold shouldDeleteOffer, excess.
  rewrite Hi, decide_True by (apply list_elem_of_fmap; eauto).
  destruct (capped a b os (side_asset b o)) as [x|]; [|done].
  unfold mbind, ltm_bind. destruct b.
  - by rewrite (available_limit a s (cur_keys s Hs) (cur_ok s Hs) balance above), cap_current.
  - by rewrite (available_balance a s (cur_keys s Hs) balance above), cap_current.
Qed.

Definition settled (kv : LedgerKey * LedgerEntry) (o : OfferEntry) : option LedgerEntry :=
  if keep o then Some (set_le_data (OFFER (adjusted o)) (snd kv)) else None.

Definition dropped (r : UpdateOfferResult) : bool :=
  match r with AdjustedToZero | Erased => true | Unchanged | Adjusted => false end.

Lemma decideOffer_spec o s ib is_ :
  current s -> o ∈ os -> oe_sellerID o = a -> initial_inv a true os ib -> initial_inv a false os is_ ->
  exists r, decideOffer o balance above ib is_ s = Ok ((negb (keep o), r), s) /\ dropped r = negb (keep o).
Proof.
  intros Hs Hin Ha Hib His. pose proof Hos as Hok. eapply Forall_forall in Hok as [Hp Hamt]; [|exact Hin].
  pose proof (shouldDelete_excess false o s is_ Hs Hin His) as E1.
  pose proof (shouldDelete_excess true o s ib Hs Hin Hib) as E2. cbn [side_asset] in E1, E2.
  unfold decideOffer, keep. rewrite Ha. unfold mbind at 1, ltm_bind at 1. rewrite E1. unfold mbind at 1, ltm_bind at 1.
  destruct (excess false o); [by exists Erased|].
  rewrite E2. destruct (excess true o); [by exists Erased|].
  unfold mbind, ltm_bind, lift. rewrite (adjustOffer_spec _ Hp _ _ Hamt max_amount). cbn [negb andb].
  destruct (_ =? 0); [by exists AdjustedToZero|by exists Unchanged].
Qed.

(** writing the adjusted amount, or leaving it *)
Lemma adjust_write k e o s r :
  st_entries s !! k = Some e -> le_data e = OFFER o -> dropped r = false ->
  let n := adjust_ref (oe_price o) (oe_amount o) INT64_MAX in
  yields (if negb (n =? oe_amount o) then _ ← ltx_set_current k (set_le_data (OFFER (set_oe_amount n o)) e); mret Adjusted
          else mret r) s
    (fun r s' => dropped r = false /\ st_entries s' = <[k := set_le_data (OFFER (adjusted o)) e]> (st_entries s)).
Proof.
  intros He Hd Hr n. destruct (Z.eqb_spec n (oe_amount o)) as [Eq|_]; cbn [negb].
  - apply yields_ret. split; [done|]. rewrite insert_id; [done|]. rewrite He. f_equal. unfold adjusted. fold n. rewrite Eq.
    destruct e as [lm d]. cbn in *. rewrite Hd. unfold set_le_data. cbn. by destruct o.
  - apply yields_bind. eapply yields_set; [done|]. intros s' E. by apply yields_ret.
Qed.

Definition kept (l : list OfferEntry) : list OfferEntry := filter (fun o => keep o = true) l.

Lemma kept_ok l : Forall offer_ok l -> Forall offer_ok (kept l).
Proof. rewrite !Forall_forall. intros H x [_ Hx]%list_elem_of_filter. auto. Qed.

(** an offer that stays adds its promises *)
Lemma keep_addSides done o rest L :
  os = done ++ o :: rest -> keep o = true -> liab_inv a (kept done) (kept done) L ->
  exists L1 L2, addSide true a (oe_buying o) (Ok (promise true o)) L = Ok L1 /\
    addSide false a (oe_selling o) (Ok (promise false o)) L1 = Ok L2 /\
    liab_inv a (kept done ++ [o]) (kept done ++ [o]) L2.
Proof.
  intros Ho Hk HL. pose proof Hos as Hall. rewrite Ho in Hall. apply Forall_app in Hall as [Hdone Hall].
  inversion Hall as [|? ? Hok Hrest]; subst. pose proof (kept_ok _ Hdone) as Hkd.
  assert (Hsum : forall b, issued_by a (side_asset b o) = false ->
    sum_side b (side_asset b o) (kept done) + promise b o <= INT64_MAX).
  { intros b Hi. destruct (keep_sum b o Hk Hi) as [_ Hle]. etrans; [|exact Hle]. rewrite Ho.
    rewrite sum_side_app, sum_side_cons, decide_True by done.
    pose proof (sum_side_sublist b (side_asset b o) (kept done) done Hdone (sublist_filter _ _)).
    pose proof (sum_side_nonneg b (side_asset b o) rest Hrest). lia. }
  destruct (addSide_inv a true o _ _ L Hkd Hkd Hok HL (Hsum true)) as (L1 & E1 & HL1).
  assert (Hk1 : Forall offer_ok (kept done ++ [o])) by (apply Forall_app; split; [done|by constructor]).
  destruct (addSide_inv a false o _ _ L1 Hk1 Hkd Hok HL1 (Hsum false)) as (L2 & E2 & HL2).
  by exists L1, L2.
Qed.

Lemma updateOffer_spec k e o done rest s ib is_ L :
  current s -> st_entries s !! k = Some e -> le_data e = OFFER o -> oe_sellerID o = a ->
  os = done ++ o :: rest -> initial_inv a true os ib -> initial_inv a false os is_ ->
  liab_inv a (kept done) (kept done) L ->
  yields (updateOffer h k balance above L ib is_) s (fun rL s' =>
    st_entries s' = partial_alter (fun _ => settled (k, e) o) k (st_entries s) /\
    dropped (fst rL) = negb (keep o) /\ liab_inv a (kept (done ++ [o])) (kept (done ++ [o])) (snd rL)).
Proof.
  intros Hs He Hd Ha Ho Hib His HL. unfold updateOffer.
  assert (Hin : o ∈ os) by (rewrite Ho; set_solver).
  pose proof Hos as Hok. eapply Forall_forall in Hok; [|exact Hin].
  apply yields_bind. eapply yields_current; [done|]. apply yields_bind.
  eapply yields_lift; [unfold get_offer; by rewrite Hd|]. apply yields_bind.
  destruct (decideOffer_spec o s ib is_ Hs Hin Ha Hib His) as (r & Ed & Hr). eexists _, _. split; [exact Ed|].
  unfold kept at 1 2. rewrite filter_app. fold (kept done). unfold settled. destruct (keep o) eqn:Hk; cbn [negb] in *.
  - rewrite filter_cons_True, filter_nil by done. pose proof Hk as Hz. apply andb_prop in Hz as [_ Hz].
    apply negb_true_iff, Z.eqb_neq in Hz. pose proof Hok as [Hp Hamt].
    apply yields_bind. eapply yields_lift; [exact (adjustOffer_spec _ Hp _ _ Hamt max_amount)|]. apply yields_bind.
    eapply yields_mono; [by apply (adjust_write k e o s r)|]. intros r2 s2 [Hr2 E2].
    set (e2 := set_le_data (OFFER (adjusted o)) e) in *. apply yields_bind.
    eapply yields_current; [by rewrite E2, lookup_insert_eq|]. rewrite Ha.
    destruct (adjusted_promise true o Hok Hz) as (Pt & _ & Hok2). destruct (adjusted_promise false o Hok Hz) as (Pf & _ & _).
    destruct (keep_addSides done o rest L Ho Hk HL) as (L1 & L2 & EL1 & EL2 & HL2).
    rewrite (buying_promise h e2 (adjusted o)), (selling_promise h e2 (adjusted o)), Pt, Pf by done.
    apply yields_bind. eapply yields_lift; [exact EL1|]. apply yields_bind. eapply yields_lift; [exact EL2|].
    by apply yields_ret.
  - rewrite filter_cons_False, filter_nil, app_nil_r by (by rewrite Hk).
    apply yields_bind. eapply yields_erase; [done|]. intros s' Es. by apply yields_ret.
Qed.

(** ** The loops over the offers *)

Definition no_offer : OfferEntry := mkOfferEntry 0 0 AssetNative AssetNative 0 (mkPrice 1 1) 0.
Definition offer_in (e : LedgerEntry) : OfferEntry := match le_data e with OFFER o => o | _ => no_offer end.
Definition offers (l : list (LedgerKey * LedgerEntry)) : list OfferEntry := (fun kv => offer_in (snd kv)) <$> l.

(** an offer of the account *)
Record own_offer (kv : LedgerKey * LedgerEntry) : Prop := {
  own_data : le_data (snd kv) = OFFER (offer_in (snd kv));
  own_seller : oe_sellerID (offer_in (snd kv)) = a;
  own_key : fst kv = KeyOffer a (oe_offerID (offer_in (snd kv)));
  own_ok : offer_ok (offer_in (snd kv))
}.

Lemma own_offers_ok l : Forall own_offer l -> Forall offer_ok (offers l).
Proof. intros H. apply Forall_fmap. eapply Forall_impl; [exact H|]. by intros kv []. Qed.

Lemma initialOf_spec l d b se s :
  Forall own_offer l -> Forall own_offer d -> (forall kv, kv ∈ l -> st_entries s !! fst kv = Some (snd kv)) ->
  initial_inv a true (offers d) b -> initial_inv a false (offers d) se ->
  yields (initialOf h l.*1 b se) s (fun r s' => s' = s /\
    initial_inv a true (offers (d ++ l)) (fst r) /\ initial_inv a false (offers (d ++ l)) (snd r)).
Proof.
  revert d b se. induction l as [|kv l IH]; intros d b se Hl Hd Hm Hb1 Hs1; cbn [fmap list_fmap initialOf].
  { apply yields_ret. by rewrite app_nil_r. }
  inversion Hl as [|? ? [Hdata Hsel Hkey Hok] Hl']; subst. pose proof (own_offers_ok d Hd) as Hod.
  apply yields_bind. eapply yields_current; [apply Hm; by left|]. apply yields_bind.
  eapply yields_lift; [unfold get_offer; by rewrite Hdata|]. apply yields_bind.
  eapply yields_lift; [by apply buying_promise|]. rewrite Hsel.
  destruct (addLiabilities_initial a true (offers d) _ b Hod Hok Hb1) as (b' & Eb & Hb').
  destruct (addLiabilities_initial a false (offers d) _ se Hod Hok Hs1) as (se' & Es & Hs').
  apply yields_bind. eapply yields_lift; [exact Eb|]. apply yields_bind.
  eapply yields_lift; [by apply selling_promise|]. apply yields_bind. eapply yields_lift; [exact Es|].
  rewrite (cons_middle kv), app_assoc. apply IH; [done| |intros; apply Hm; by right|..].
  - apply Forall_app. split; [done|]. by constructor.
  - unfold offers. by rewrite fmap_app.
  - unfold offers. by rewrite fmap_app.
Qed.

End Update.

Section Loop.
Context {U : UInt128}.
Variables (h : LedgerHeader) (a : AccountID) (lm : Z) (acc : AccountEntry) (above : Z).
Variables (m0 : gmap LedgerKey LedgerEntry) (kvs : list (LedgerKey * LedgerEntry)).
Hypothesis Hh : header_ok h.
Hypothesis Hkeys : own_keys a m0.
Hypothesis Hlines : own_lines a m0.
Hypothesis Hacc : m0 !! KeyAccount a = Some (mkLedgerEntry lm (ACCOUNT acc)).
Hypothesis Hbal : is_amount (acc_balance acc).
Hypothesis Hown : Forall (own_offer a) kvs.
Hypothesis Hnd : NoDup kvs.*1.
Hypothesis Hin0 : forall kv, kv ∈ kvs -> m0 !! fst kv = Some (snd kv).
Hypothesis Hnum : Z.of_nat (length kvs) <= acc_numSubEntries acc <= INT32_MAX.

#[local] Abbreviation stays := (keep a (acc_balance acc) above m0 (offers kvs)).
#[local] Abbreviation stay_list := (kept a (acc_balance acc) above m0 (offers kvs)).
#[local] Abbreviation settles := (settled a (acc_balance acc) above m0 (offers kvs)).

Definition ndropped (d : list (LedgerKey * LedgerEntry)) : nat :=
  length (filter (fun o => stays o = false) (offers d)).

(** the entries after the offers [d] *)
Record progress (d : list (LedgerKey * LedgerEntry)) (m : gmap LedgerKey LedgerEntry) : Prop := {
  pg_account : m !! KeyAccount a =
    Some (mkLedgerEntry lm (ACCOUNT (set_acc_numSubEntries (acc_numSubEntries acc - Z.of_nat (ndropped d)) acc)));
  pg_done : forall kv, kv ∈ d -> m !! fst kv = settles kv (offer_in (snd kv));
  pg_rest : forall k, k <> KeyAccount a -> k ∉ d.*1 -> m !! k = m0 !! k
}.

Lemma own_key_ne d k : Forall (own_offer a) d -> (forall b i, k <> KeyOffer b i) -> k ∉ d.*1.
Proof.
  intros Hd Hk (kv & -> & Hin)%list_elem_of_fmap. eapply Forall_forall in Hd as [_ _ E _]; [|exact Hin]. by eapply Hk.
Qed.

Lemma settled_key kv e : own_offer a kv -> settles kv (offer_in (snd kv)) = Some e -> LedgerEntryKey e = fst kv.
Proof.
  intros [_ Hs Hk _]. unfold settled. destruct (keep _ _ _ _ _ _); [|done]. intros [= <-]. unfold LedgerEntryKey. cbn.
  by rewrite Hs, Hk.
Qed.

Lemma progress_current d s :
  Forall (own_offer a) d -> progress d (st_entries s) -> current a m0 s.
Proof.
  intros Hd [P1 P2 P3].
  assert (HL : forall b A, st_entries s !! KeyTrustLine b A = m0 !! KeyTrustLine b A).
  { intros b A. apply P3; [done|]. by apply own_key_ne. }
  split; [|intros A t; unfold line; rewrite HL; apply Hlines|done].
  intros k e Ho E. destruct (decide (k = KeyAccount a)) as [->|Hk].
  - rewrite P1 in E. injection E as <-. by pose proof (Hkeys _ _ Ho Hacc) as Ek.
  - destruct (decide (k ∈ d.*1)) as [Hin|Hin]; [|rewrite P3 in E by done; by apply Hkeys].
    apply list_elem_of_fmap in Hin as (kv & -> & Hin). rewrite (P2 kv Hin) in E. eapply settled_key; [|exact E].
    by eapply Forall_forall in Hd.
Qed.

Lemma progress_nil : progress [] m0.
Proof. split; [|by intros kv ?%elem_of_nil|done]. rewrite Hacc. cbn. rewrite Z.sub_0_r. by destruct acc. Qed.

Lemma drop_account x :
  1 <= acc_numSubEntries x <= INT32_MAX ->
  addNumEntries h (mkLedgerEntry lm (ACCOUNT x)) (-1) =
    Ok (true, mkLedgerEntry lm (ACCOUNT (set_acc_numSubEntries (acc_numSubEntries x - 1) x))).
Proof.
  intros Hx. unfold addNumEntries. cbn [get_account le_data mbind res_bind].
  replace (acc_numSubEntries x + -1) with (acc_numSubEntries x - 1) by lia.
  rewrite u32_id, i32_id, u32_id by zlia. rewrite (proj2 (Z.ltb_ge _ _)) by lia.
  by rewrite version_geb_10, getSellingLiabilities_acc by done.
Qed.

Lemma ndropped_snoc d kv :
  ndropped (d ++ [kv]) = (ndropped d + if stays (offer_in (snd kv)) then 0 else 1)%nat.
Proof.
  unfold ndropped, offers. rewrite fmap_app, filter_app, length_app. f_equal. cbn [fmap list_fmap].
  rewrite filter_cons, filter_nil. case_decide as Hc; [by rewrite Hc|]. by rewrite (not_false_is_true _ Hc).
Qed.
Lemma ndropped_le d : (ndropped d <= length d)%nat.
Proof. unfold ndropped. etrans; [apply length_filter|]. unfold offers. by rewrite length_fmap. Qed.

(** the next offer, and the count of its owner *)
Lemma progress_snoc d kv m m1 m2 :
  Forall (own_offer a) d -> progress d m -> fst kv ∉ d.*1 -> fst kv <> KeyAccount a ->
  m1 = partial_alter (fun _ => settles kv (offer_in (snd kv))) (fst kv) m ->
  m2 !! KeyAccount a = Some (mkLedgerEntry lm
    (ACCOUNT (set_acc_numSubEntries (acc_numSubEntries acc - Z.of_nat (ndropped (d ++ [kv]))) acc))) ->
  (forall k, k <> KeyAccount a -> m2 !! k = m1 !! k) -> progress (d ++ [kv]) m2.
Proof.
  intros Hd P Hkin Hka Es E2 Ek. split; [done| |].
  - intros kv' Hin'. apply elem_of_app in Hin' as [Hin|Hin]; [|apply list_elem_of_singleton in Hin as ->].
    + assert (fst kv' ∈ d.*1) by (by apply list_elem_of_fmap_2).
      rewrite Ek, Es, lookup_partial_alter_ne; [by apply (pg_done _ _ P)|congruence|].
      eapply Forall_forall in Hd as [_ _ E _]; [|exact Hin]. by rewrite E.
    + by rewrite Ek, Es, lookup_partial_alter_eq by done.
  - intros k Hka' Hkd. rewrite fmap_app, elem_of_app in Hkd. cbn in Hkd. rewrite list_elem_of_singleton in Hkd.
    apply Decidable.not_or in Hkd as [H1 H2]. rewrite Ek, Es, lookup_partial_alter_ne by done. by apply (pg_rest _ _ P).
Qed.

Lemma updateOffers_spec rest d s ib is_ L :
  kvs = d ++ rest -> progress d (st_entries s) ->
  initial_inv a true (offers kvs) ib -> initial_inv a false (offers kvs) is_ ->
  liab_inv a (stay_list (offers d)) (stay_list (offers d)) L ->
  yields (updateOffers h rest.*1 (KeyAccount a) (acc_balance acc) above ib is_ L) s (fun L' s' =>
    progress kvs (st_entries s') /\ liab_inv a (stay_list (offers kvs)) (stay_list (offers kvs)) L').
Proof.
  revert d s L. induction rest as [|kv rest IH]; intros d s L Hk P Hib His HL; cbn [fmap list_fmap updateOffers].
  { apply yields_ret. rewrite app_nil_r in Hk. by subst d. }
  pose proof Hown as Hd. rewrite Hk in Hd. apply Forall_app in Hd as [Hd Hrest]. inversion Hrest as [|? ? Hkv _]; subst.
  pose proof Hnd as Hn. rewrite Hk, fmap_app in Hn. apply NoDup_app in Hn as (_ & Hn & _).
  assert (Hkin : fst kv ∉ d.*1) by (intros Hin; eapply Hn; [exact Hin|by left]).
  assert (Hka : fst kv <> KeyAccount a) by (by rewrite (own_key a kv Hkv)).
  assert (He : st_entries s !! fst kv = Some (snd kv)).
  { rewrite (pg_rest _ _ P) by done. apply Hin0. rewrite Hk. set_solver. }
  pose proof (own_offers_ok a kvs Hown) as Hos. destruct Hh as [Hv _].
  apply yields_bind. eapply yields_mono; [eapply (updateOffer_spec h a _ above m0 (offers kvs) Hv Hbal Hos _ _
    (offer_in (snd kv)) (offers d) (offers rest) s ib is_ L); try done|].
  { by apply (progress_current d). }
  { by apply own_data in Hkv. }
  { by apply own_seller in Hkv. }
  { rewrite Hk. unfold offers. by rewrite fmap_app. }
  intros [r L1] s1 (Es & Hr & HL1). cbn [fst snd] in Hr, HL1.
  assert (Hl : (length d < length kvs)%nat) by (rewrite Hk, length_app; cbn; lia). pose proof (ndropped_le d) as Hdl.
  assert (HA : st_entries s1 !! KeyAccount a = st_entries s !! KeyAccount a) by (by rewrite Es, lookup_partial_alter_ne).
  pose proof (fun m2 => progress_snoc d kv (st_entries s) (st_entries s1) m2 Hd P Hkin Hka Es) as Hnext.
  rewrite (cons_middle kv), app_assoc in Hk. apply yields_bind. rewrite ndropped_snoc in Hnext.
  assert (Hof : offers (d ++ [kv]) = offers d ++ [offer_in (snd kv)]) by (unfold offers; by rewrite fmap_app).
  destruct (stays (offer_in (snd kv))) eqn:Est; cbn [negb] in Hr.
  - rewrite Nat.add_0_r in Hnext. assert (Hp : progress (d ++ [kv]) (st_entries s1)).
    { apply Hnext; [|done]. rewrite HA. apply (pg_account _ _ P). }
    destruct r; try done; apply yields_ret; eapply IH; try done; by rewrite Hof.
  - assert (Hup : yields (ltx_update (KeyAccount a) (fun e => addNumEntries h e (-1))) s1
      (fun _ s2 => progress (d ++ [kv]) (st_entries s2))).
    { eapply yields_update; [rewrite HA; apply (pg_account _ _ P)|apply drop_account; cbn; lia|].
      intros s2 E2. apply Hnext.
      - rewrite E2, lookup_insert_eq. cbn. do 2 f_equal. unfold set_acc_numSubEntries. cbn. do 2 f_equal. lia.
      - intros k Hk'. by rewrite E2, lookup_insert_ne. }
    destruct r; try done; (eapply yields_mono; [exact Hup|]; intros ok s2 Hp; eapply IH; try done; by rewrite Hof).
Qed.

End Loop.

(** ** Writing the liabilities *)

(** the entry that bears the liabilities of the account in an asset *)
Definition asset_key (a : AccountID) (A : Asset) : LedgerKey :=
  if is_native A then KeyAccount a else KeyTrustLine a A.

Lemma asset_key_inj a A B : asset_key a A = asset_key a B -> A = B.
Proof. destruct A, B; intros [=]; congruence. Qed.

Lemma asset_owner a A : owner (asset_key a A) = a.
Proof. unfold asset_key. by destruct (is_native A). Qed.

Definition account_fits (h : LedgerHeader) (x : AccountEntry) (l : Liabilities) : Prop :=
  is_amount (acc_balance x) /\ 0 <= acc_numSubEntries x <= INT32_MAX /\
  reserve h (acc_numSubEntries x) <= INT64_MAX /\
  is_amount (ext_buying (acc_ext x)) /\ is_amount (ext_selling (acc_ext x)) /\
  0 <= liab_buying l /\ acc_balance x + liab_buying l <= INT64_MAX /\ 0 <= liab_selling l /\
  (liab_selling l = ext_selling (acc_ext x) \/ reserve h (acc_numSubEntries x) + liab_selling l <= acc_balance x).

Definition line_fits (t : TrustLineEntry) (l : Liabilities) : Prop :=
  trust_ok t /\ tl_authorized t = true /\
  0 <= liab_buying l /\ tl_balance t + liab_buying l <= tl_limit t /\ 0 <= liab_selling l <= tl_balance t.

Definition fits (h : LedgerHeader) (e : LedgerEntry) (l : Liabilities) : Prop :=
  match le_data e with
  | ACCOUNT x => account_fits h x l
  | TRUSTLINE t => line_fits t l
  | _ => False
  end.

Definition has_liabilities (ext : option Liabilities) (l : Liabilities) : Prop :=
  ext_buying ext = liab_buying l /\ ext_selling ext = liab_selling l.

(** an entry of which only the liabilities are new *)
Definition relabeled (e e' : LedgerEntry) (l : Liabilities) : Prop :=
  match le_data e with
  | ACCOUNT x => exists ext, e' = set_le_data (ACCOUNT (set_acc_ext ext x)) e /\ has_liabilities ext l
  | TRUSTLINE t => exists ext, e' = set_le_data (TRUSTLINE (set_tl_ext ext t)) e /\ has_liabilities ext l
  | _ => False
  end.

Section Write.
Variable h : LedgerHeader.
Hypothesis Hh : header_ok h.

Lemma write_selling_account lm x l :
  account_fits h x l ->
  exists ext, addSellingLiabilities h (mkLedgerEntry lm (ACCOUNT x)) (i64 (liab_selling l - ext_selling (acc_ext x))) =
    Ok (true, mkLedgerEntry lm (ACCOUNT (set_acc_ext ext x))) /\
    ext_selling ext = liab_selling l /\ ext_buying ext = ext_buying (acc_ext x).
Proof.
  intros (Hb & Hn & Hr & Hxb & Hxs & Hlb & Hlb' & Hls & Hcase).
  pose proof (reserve_nonneg h (acc_numSubEntries x) Hh (proj1 Hn)) as H0.
  rewrite i64_id by (destruct Hcase; zlia). unfold addSellingLiabilities.
  rewrite getSellingLiabilities_acc, bind_ok by done. cbn [le_data].
  destruct (Z.eqb_spec (liab_selling l - ext_selling (acc_ext x)) 0) as [Hz|Hz].
  { exists (acc_ext x). split; [by destruct x|]. split; [lia|done]. }
  destruct Hcase as [?|Hcase]; [lia|]. rewrite getMinBalance_reserve, i64_id by (done || zlia).
  rewrite (proj2 (Z.ltb_ge _ _)), addBalance_i64_spec by zlia.
  rewrite (proj2 (Z.leb_le 0 _)), (proj2 (Z.leb_le _ (acc_balance x - _))), andb_true_l, orb_true_r by zlia.
  cbn [mbind res_bind]. eexists. split; [done|]. cbn. split; [lia|]. by destruct (acc_ext x).
Qed.

Lemma write_buying_account lm x l :
  account_fits h x l ->
  exists ext, addBuyingLiabilities h (mkLedgerEntry lm (ACCOUNT x)) (i64 (liab_buying l - ext_buying (acc_ext x))) =
    Ok (true, mkLedgerEntry lm (ACCOUNT (set_acc_ext ext x))) /\
    ext_buying ext = liab_buying l /\ ext_selling ext = ext_selling (acc_ext x).
Proof.
  intros (Hb & Hn & Hr & Hxb & Hxs & Hlb & Hlb' & _). rewrite i64_id by zlia. unfold addBuyingLiabilities.
  rewrite getBuyingLiabilities_acc, bind_ok by done. cbn [le_data].
  destruct (Z.eqb_spec (liab_buying l - ext_buying (acc_ext x)) 0) as [Hz|Hz].
  { exists (acc_ext x). split; [by destruct x|]. split; [lia|done]. }
  rewrite i64_id by zlia. rewrite addBalance_i64_spec by zlia.
  rewrite (proj2 (Z.leb_le 0 _)), (proj2 (Z.leb_le _ (INT64_MAX - _))), andb_true_l, orb_true_r by zlia.
  cbn [mbind res_bind]. eexists. split; [done|]. cbn. split; [lia|]. by destruct (acc_ext x).
Qed.

Lemma write_selling_line lm t l :
  line_fits t l ->
  exists ext, addSellingLiabilities h (mkLedgerEntry lm (TRUSTLINE t)) (i64 (liab_selling l - ext_selling (tl_ext t))) =
    Ok (true, mkLedgerEntry lm (TRUSTLINE (set_tl_ext ext t))) /\
    ext_selling ext = liab_selling l /\ ext_buying ext = ext_buying (tl_ext t).
Proof.
  intros ((Hb & Hlim & Hxb & Hxs) & Ha & Hlb & Hlb' & Hls). rewrite i64_id by zlia. unfold addSellingLiabilities.
  rewrite getSellingLiabilities_tl, bind_ok by done. cbn [le_data].
  destruct (Z.eqb_spec (liab_selling l - ext_selling (tl_ext t)) 0) as [Hz|Hz].
  { exists (tl_ext t). split; [by destruct t|]. split; [lia|done]. }
  change (isAuthorized (mkLedgerEntry lm (TRUSTLINE t))) with (Ok (tl_authorized t)). rewrite Ha, bind_ok. cbn [negb].
  rewrite addBalance_i64_spec by zlia.
  rewrite (proj2 (Z.leb_le 0 _)), (proj2 (Z.leb_le _ (tl_balance t))), andb_true_l, orb_true_r by zlia.
  cbn [mbind res_bind]. eexists. split; [done|]. cbn. split; [lia|]. by destruct (tl_ext t).
Qed.

Lemma write_buying_line lm t l :
  line_fits t l ->
  exists ext, addBuyingLiabilities h (mkLedgerEntry lm (TRUSTLINE t)) (i64 (liab_buying l - ext_buying (tl_ext t))) =
    Ok (true, mkLedgerEntry lm (TRUSTLINE (set_tl_ext ext t))) /\
    ext_buying ext = liab_buying l /\ ext_selling ext = ext_selling (tl_ext t).
Proof.
  intros ((Hb & Hlim & Hxb & Hxs) & Ha & Hlb & Hlb' & Hls). rewrite i64_id by zlia. unfold addBuyingLiabilities.
  rewrite getBuyingLiabilities_tl, bind_ok by done. cbn [le_data].
  destruct (Z.eqb_spec (liab_buying l - ext_buying (tl_ext t)) 0) as [Hz|Hz].
  { exists (tl_ext t). split; [by destruct t|]. split; [lia|done]. }
  change (isAuthorized (mkLedgerEntry lm (TRUSTLINE t))) with (Ok (tl_authorized t)). rewrite Ha, bind_ok. cbn [negb].
  rewrite i64_id by zlia. rewrite addBalance_i64_spec by zlia.
  rewrite (proj2 (Z.leb_le 0 _)), (proj2 (Z.leb_le _ (tl_limit t - _))), andb_true_l, orb_true_r by zlia.
  cbn [mbind res_bind]. eexists. split; [done|]. cbn. split; [lia|]. by destruct (tl_ext t).
Qed.

Lemma write_native_spec a l s e :
  st_entries s !! KeyAccount a = Some e -> LedgerEntryKey e = KeyAccount a -> fits h e l ->
  yields (writeNative h (KeyAccount a) l) s (fun _ s' =>
    exists e', st_entries s' = <[KeyAccount a := e']> (st_entries s) /\ relabeled e e' l).
Proof.
  intros E Hk Hf. destruct e as [lm [x|t|o|d]]; try done. unfold fits in Hf. cbn [le_data] in Hf.
  destruct (write_selling_account lm x l Hf) as (ext1 & E1 & Hs1 & Hb1).
  assert (Hf1 : account_fits h (set_acc_ext ext1 x) l).
  { destruct Hf as (?&Hn&?&?&?&?&?&?&Hc). pose proof (reserve_nonneg h _ Hh (proj1 Hn)).
    unfold account_fits. cbn. rewrite Hs1, Hb1. repeat split; first [zlia|done|by left|destruct Hc; zlia]. }
  destruct (write_buying_account lm (set_acc_ext ext1 x) l Hf1) as (ext2 & E2 & Hb2 & Hs2). cbn in Hb2, Hs2, E2.
  unfold writeNative. apply yields_bind, yields_bind. eapply yields_current; [done|].
  eapply yields_lift; [by apply getSellingLiabilities_acc|]. apply yields_bind, yields_bind.
  eapply yields_current; [done|]. eapply yields_lift; [by apply getBuyingLiabilities_acc|]. cbv zeta.
  apply yields_bind. eapply yields_update; [done|exact E1|]. intros s1 Es1. cbn [negb].
  apply yields_bind. rewrite <- Hb1. eapply yields_update; [by rewrite Es1, lookup_insert_eq|exact E2|].
  intros s2 Es2. cbn [negb]. apply yields_ret. eexists. split; [by rewrite Es2, Es1, insert_insert_eq|].
  cbn. exists ext2. split; [done|]. split; congruence.
Qed.

Lemma write_trust_spec a A l s e :
  is_native A = false -> issued_by a A = false ->
  st_entries s !! KeyTrustLine a A = Some e -> LedgerEntryKey e = KeyTrustLine a A -> fits h e l ->
  yields (writeTrust h a A l) s (fun _ s' =>
    exists e', st_entries s' = <[KeyTrustLine a A := e']> (st_entries s) /\ relabeled e e' l).
Proof.
  intros En Hi E Hk Hf. destruct e as [lm [x|t|o|d]]; try done. unfold fits in Hf. cbn [le_data] in Hf.
  destruct (write_selling_line lm t l Hf) as (ext1 & E1 & Hs1 & Hb1).
  assert (Hf1 : line_fits (set_tl_ext ext1 t) l).
  { destruct Hf as ((?&?&?&?)&?&?&?&?). unfold line_fits, trust_ok. cbn. rewrite Hs1, Hb1. repeat split; try zlia. done. }
  destruct (write_buying_line lm (set_tl_ext ext1 t) l Hf1) as (ext2 & E2 & Hb2 & Hs2). cbn in Hb2, Hs2, E2.
  destruct (issuer_of A En) as (i & Ei & Hi'). rewrite Hi' in Hi.
  unfold writeTrust, loadTrustLine, makeTrustLine. rewrite En. apply yields_bind, yields_bind.
  eapply yields_lift; [exact Ei|]. rewrite Z.eqb_sym, Hi. cbn [negb]. apply yields_bind.
  eapply yields_load; [done|]. intros s0 Es0. apply yields_ret. rewrite <- Es0 in E. rewrite <- Es0. clear s Es0.
  apply yields_bind, yields_bind. eapply yields_current; [done|]. eapply yields_lift; [by apply getSellingLiabilities_tl|].
  apply yields_bind, yields_bind. eapply yields_current; [done|]. eapply yields_lift; [by apply getBuyingLiabilities_tl|].
  cbv zeta. apply yields_bind. eapply yields_update; [done|exact E1|]. intros s1 Es1. cbn [negb].
  apply yields_bind. rewrite <- Hb1. eapply yields_update; [by rewrite Es1, lookup_insert_eq|exact E2|].
  intros s2 Es2. cbn [negb]. apply yields_ret. eexists. split; [by rewrite Es2, Es1, insert_insert_eq|].
  cbn. exists ext2. split; [done|]. split; congruence.
Qed.

(** the entries after the liabilities of a list *)
Record written (a : AccountID) (l : list (Asset * Liabilities)) (m m' : gmap LedgerKey LedgerEntry) : Prop := {
  wr_done : forall A x, (A, x) ∈ l -> exists e e', m !! asset_key a A = Some e /\
    m' !! asset_key a A = Some e' /\ relabeled e e' x;
  wr_rest : forall k, (forall A, A ∈ l.*1 -> k <> asset_key a A) -> m' !! k = m !! k
}.

Lemma writeLiabilities_spec a l s :
  own_keys a (st_entries s) -> NoDup l.*1 ->
  (forall A x, (A, x) ∈ l -> issued_by a A = false /\ exists e, st_entries s !! asset_key a A = Some e /\ fits h e x) ->
  yields (writeLiabilities h a (KeyAccount a) l) s (fun _ s' => written a l (st_entries s) (st_entries s')).
Proof.
  revert s. induction l as [|[A x] l IH]; intros s K Hn Hl; cbn [writeLiabilities].
  { apply yields_ret. split; [by intros A x ?%elem_of_nil|done]. }
  destruct (Hl A x ltac:(by left)) as (Hi & e & E & Hf). pose proof (K _ _ (asset_owner a A) E) as Hk.
  apply NoDup_cons in Hn as [HA Hn]. cbn in HA. apply yields_bind.
  assert (Y : yields (if is_native A then writeNative h (KeyAccount a) x else writeTrust h a A x) s (fun _ s' =>
    exists e', st_entries s' = <[asset_key a A := e']> (st_entries s) /\ relabeled e e' x)).
  { unfold asset_key in *. destruct (is_native A) eqn:En; [by apply write_native_spec|by apply write_trust_spec]. }
  eapply yields_mono; [exact Y|]. clear Y. intros u s1 (e' & Es & Hr).
  assert (Hne : forall B, B ∈ l.*1 -> asset_key a A <> asset_key a B) by (intros B HB HE%asset_key_inj; by subst).
  assert (Hsame : forall B y, (B, y) ∈ l -> st_entries s1 !! asset_key a B = st_entries s !! asset_key a B).
  { intros B y HB. rewrite Es, lookup_insert_ne; [done|]. apply Hne. by apply (list_elem_of_fmap_2 fst) in HB. }
  eapply yields_mono; [apply IH; [|done|]|].
  - intros k z Ho. rewrite Es, lookup_insert_Some. intros [[<- <-]|[_ ?]]; [|by apply K].
    rewrite <- Hk. unfold relabeled in Hr. unfold LedgerEntryKey. destruct (le_data e); try done; by destruct Hr as (?&->&_).
  - intros B y HB. destruct (Hl B y ltac:(by right)) as (? & z & Ez & ?). split; [done|]. exists z. by rewrite (Hsame B y HB).
  - intros u' s2 [W1 W2]. split.
    + intros B y [[= -> ->]|HB]%elem_of_cons.
      * exists e, e'. split; [done|]. split; [|done]. rewrite W2 by (intros; by apply Hne). by rewrite Es, lookup_insert_eq.
      * rewrite <- (Hsame B y HB). by apply W1.
    + intros k Hk'. rewrite W2 by (intros B HB; apply Hk'; by right). rewrite Es, lookup_insert_ne; [done|].
      intros <-. eapply Hk'; [by left|done].
Qed.

End Write.

(** ** All of an account *)

Definition own_list (m : gmap LedgerKey LedgerEntry) (a : AccountID) : list (LedgerKey * LedgerEntry) :=
  filter (fun kv => seller_of kv = Some a) (map_to_list m).

Lemma elem_of_own m a kv : kv ∈ own_list m a <-> m !! fst kv = Some (snd kv) /\ seller_of kv = Some a.
Proof. unfold own_list. rewrite list_elem_of_filter. destruct kv as [k e]. rewrite elem_of_map_to_list. cbn. tauto. Qed.
Lemma own_list_nodup m a : NoDup (own_list m a).*1.
Proof.
  unfold own_list. eapply sublist_NoDup; [apply (NoDup_fst_map_to_list m)|].
  apply fmap_sublist, sublist_filter.
Qed.

(** what the offers of an account promise *)
Definition promised {U : UInt128} (b : bool) (m : gmap LedgerKey LedgerEntry) (a : AccountID) (A : Asset) : Z :=
  sum_side b A (offers (own_list m a)).
Definition promises {U : UInt128} (m : gmap LedgerKey LedgerEntry) (a : AccountID) (A : Asset) : Liabilities :=
  mkLiabilities (promised true m a A) (promised false m a A).

(** the entries of one account *)
Definition agree (a : AccountID) (m m' : gmap LedgerKey LedgerEntry) : Prop :=
  forall k, owner k = a -> m' !! k = m !! k.

Lemma seller_owner kv a : seller_of kv = Some a -> owner (fst kv) = a.
Proof. unfold seller_of. by destruct (fst kv); intros [=]. Qed.

(** a list of the offers of an account, in any order *)
Definition lists_offers (m : gmap LedgerKey LedgerEntry) (a : AccountID) (l : list (LedgerKey * LedgerEntry)) : Prop :=
  NoDup l.*1 /\ forall kv, kv ∈ l <-> m !! fst kv = Some (snd kv) /\ seller_of kv = Some a.

Lemma own_lists m a : lists_offers m a (own_list m a).
Proof. split; [apply own_list_nodup|]. intros kv. apply elem_of_own. Qed.
Lemma lists_agree m m' a l : agree a m m' -> lists_offers m a l -> lists_offers m' a l.
Proof.
  intros Ha [H1 H2]. split; [done|]. intros kv. rewrite H2. split; intros [E Hs]; (split; [|done]);
    rewrite (Ha _ (seller_owner kv a Hs)) in *; done.
Qed.
Lemma lists_perm m a l : lists_offers m a l -> own_list m a ≡ₚ l.
Proof.
  intros [H1 H2]. apply NoDup_Permutation.
  - eapply NoDup_fmap_1, own_list_nodup.
  - by eapply NoDup_fmap_1.
  - intros kv. by rewrite elem_of_own, H2.
Qed.

Section Prepared.
Context {U : UInt128}.

Lemma promises_lists m a l A :
  lists_offers m a l -> promises m a A = mkLiabilities (sum_side true A (offers l)) (sum_side false A (offers l)).
Proof.
  intros H%lists_perm. unfold promises, promised. f_equal; apply sum_side_perm; unfold offers; by rewrite H.
Qed.
Lemma promises_agree m m' a A : agree a m m' -> promises m' a A = promises m a A.
Proof.
  intros H. pose proof (lists_agree m m' a _ H (own_lists m a)) as Hl. by rewrite (promises_lists _ _ _ _ Hl).
Qed.

(** liabilities are either what the offers promise, or as before when no
    offer of the asset is left *)
Definition labelled (ext ext' : option Liabilities) (l : Liabilities) : Prop :=
  has_liabilities ext' l \/ ext' = ext /\ l = mkLiabilities 0 0.

Record prepared (a : AccountID) (m m' : gmap LedgerKey LedgerEntry) : Prop := {
  pr_account : forall lm acc, m !! KeyAccount a = Some (mkLedgerEntry lm (ACCOUNT acc)) ->
    exists n ext, m' !! KeyAccount a = Some (mkLedgerEntry lm (ACCOUNT (set_acc_ext ext (set_acc_numSubEntries n acc)))) /\
      n = acc_numSubEntries acc - (Z.of_nat (length (own_list m a)) - Z.of_nat (length (own_list m' a))) /\
      labelled (acc_ext acc) ext (promises m' a AssetNative);
  pr_line : forall A lm t, m !! KeyTrustLine a A = Some (mkLedgerEntry lm (TRUSTLINE t)) ->
    exists ext, m' !! KeyTrustLine a A = Some (mkLedgerEntry lm (TRUSTLINE (set_tl_ext ext t))) /\
      (is_native A = false -> issued_by a A = false -> labelled (tl_ext t) ext (promises m' a A));
  pr_none : forall k, owner k = a -> m !! k = None -> m' !! k = None;
  pr_offer : forall i e', m' !! KeyOffer a i = Some e' ->
    exists e, m !! KeyOffer a i = Some e /\ e' = set_le_data (OFFER (adjusted (offer_in e))) e;
  pr_data : forall n, m' !! KeyData a n = m !! KeyData a n
}.

Lemma prepared_agree a m1 m2 m1' m2' :
  agree a m1 m2 -> agree a m1' m2' -> prepared a m1 m1' -> prepared a m2 m2'.
Proof.
  intros H H' [P1 P2 P3 P4 P5].
  assert (HL : forall m m', agree a m m' -> length (own_list m' a) = length (own_list m a)).
  { intros m m' Hm. apply Permutation_length, lists_perm. eapply lists_agree, own_lists. done. }
  split.
  - intros lm acc. rewrite H, H', (HL m1 m2), (HL m1' m2'), (promises_agree m1' m2') by done. apply P1.
  - intros A lm t. rewrite H, H', (promises_agree m1' m2') by done. apply P2.
  - intros k Hk. rewrite H, H' by done. by apply P3.
  - intros i e'. rewrite H' by done. intros (e & E & ->)%P4. exists e. by rewrite H.
  - intros n. rewrite H, H' by done. apply P5.
Qed.

End Prepared.

(** what is needed of an account with [n] offers: its numbers are in range, it
    counts its offers, and it covers its reserve unless it sells no lumens *)
Record account_ready (h : LedgerHeader) (acc : AccountEntry) (n : nat) : Prop := {
  ar_balance : is_amount (acc_balance acc);
  ar_count : Z.of_nat n <= acc_numSubEntries acc <= INT32_MAX;
  ar_reserve : reserve h (acc_numSubEntries acc) <= INT64_MAX;
  ar_buying : is_amount (ext_buying (acc_ext acc));
  ar_selling : is_amount (ext_selling (acc_ext acc));
  ar_covered : reserve h (acc_numSubEntries acc) <= acc_balance acc \/ ext_selling (acc_ext acc) = 0
}.

Section One.
Context {U : UInt128}.
Variables (h : LedgerHeader) (a : AccountID) (lm : Z) (acc : AccountEntry).
Variables (m0 : gmap LedgerKey LedgerEntry) (kvs : list (LedgerKey * LedgerEntry)).
Hypothesis Hh : header_ok h.
Hypothesis Hkeys : own_keys a m0.
Hypothesis Hlines : own_lines a m0.
Hypothesis Hacc : m0 !! KeyAccount a = Some (mkLedgerEntry lm (ACCOUNT acc)).
Hypothesis Hready : account_ready h acc (length kvs).
Hypothesis Hlist : lists_offers m0 a kvs.
Hypothesis Hoffers : forall k e o, owner k = a -> m0 !! k = Some e -> le_data e = OFFER o -> offer_ok o.

#[local] Abbreviation above := (acc_balance acc - reserve h (acc_numSubEntries acc)).
#[local] Abbreviation stays := (keep a (acc_balance acc) above m0 (offers kvs)).
#[local] Abbreviation stay_list := (kept a (acc_balance acc) above m0 (offers kvs)).
#[local] Abbreviation settles := (settled a (acc_balance acc) above m0 (offers kvs)).
#[local] Abbreviation K := (stay_list (offers kvs)).

Lemma listed_own : Forall (own_offer a) kvs.
Proof.
  apply Forall_forall. intros kv Hin. destruct Hlist as [_ H]. apply H in Hin as [E Hs].
  pose proof (Hkeys _ _ (seller_owner kv a Hs) E) as Hk. unfold seller_of in Hs.
  destruct kv as [k e]. cbn in *. destruct k as [|?|b i|]; try done. injection Hs as ->.
  unfold LedgerEntryKey in Hk. destruct (le_data e) as [|?|o|] eqn:Ed; try done. injection Hk as Hs Hi.
  assert (Ho : offer_in e = o) by (unfold offer_in; by rewrite Ed).
  split; cbn; rewrite ?Ho; try done; [congruence|by eapply (Hoffers (KeyOffer a i) e o)].
Qed.

Lemma above_exact : i64 (acc_balance acc - getMinBalance h (acc_numSubEntries acc)) = above.
Proof.
  destruct Hready as [Hb Hc Hr _ _ _]. pose proof (reserve_nonneg h (acc_numSubEntries acc) Hh ltac:(lia)).
  rewrite getMinBalance_reserve by (done || lia). apply i64_id. zlia.
Qed.

(** the sums over the offers that stay are within the limits *)
Lemma kept_bound b A :
  issued_by a A = false ->
  sum_side b A K = 0 /\ (forall o, o ∈ K -> side_asset b o <> A) \/
  0 < sum_side b A K <= cap m0 a (acc_balance acc) above b A.
Proof.
  intros Hi. pose proof (own_offers_ok a kvs listed_own) as Hos.
  destruct (decide (A ∈ side_asset b <$> K)) as [Hin|Hin].
  - right. apply list_elem_of_fmap in Hin as (o & -> & Ho). pose proof Ho as HK.
    apply list_elem_of_filter in HK as [Hk Hin]. pose proof Hos as Hok. eapply Forall_forall in Hok; [|exact Hin].
    destruct (keep_sum a (acc_balance acc) above m0 (offers kvs) b o Hk Hi) as [Hc _].
    pose proof (sum_side_sublist b (side_asset b o) K (offers kvs) Hos (sublist_filter _ _)). split; [|lia].
    apply andb_prop in Hk as [_ Hz]. apply negb_true_iff, Z.eqb_neq in Hz.
    destruct (adjusted_promise b o Hok Hz) as (_ & Hpos & _).
    pose proof (kept_ok a (acc_balance acc) above m0 (offers kvs) _ Hos) as HKok.
    apply list_elem_of_split in Ho as (l1 & l2 & Ho). rewrite Ho in HKok |- *. apply Forall_app in HKok as [H1 H2].
    inversion H2; subst. rewrite sum_side_app, sum_side_cons, decide_True by done.
    pose proof (sum_side_nonneg b (side_asset b o) l1 H1). pose proof (sum_side_nonneg b (side_asset b o) l2 ltac:(done)). lia.
  - left. assert (Hn : forall o, o ∈ K -> side_asset b o <> A).
    { intros o Ho <-. apply Hin. by apply list_elem_of_fmap_2. }
    split; [by apply sum_side_none|done].
Qed.

#[local] Abbreviation done_by := (progress a lm acc above m0 kvs kvs).

(** what is left of the offers *)
Definition left_over (l : list (LedgerKey * LedgerEntry)) : list (LedgerKey * LedgerEntry) :=
  omap (fun kv => option_map (pair (fst kv)) (settles kv (offer_in (snd kv)))) l.

Lemma left_over_offers l : offers (left_over l) = adjusted <$> stay_list (offers l).
Proof.
  induction l as [|kv l IH]; [done|]. unfold left_over, kept in *. cbn [omap list_omap].
  change (offers (kv :: l)) with (offer_in (snd kv) :: offers l). rewrite filter_cons. unfold settled at 1.
  destruct (stays (offer_in (snd kv))); cbn [option_map]; [|rewrite decide_False by done; apply IH].
  rewrite decide_True by done. cbn [fmap list_fmap]. rewrite <- IH. done.
Qed.

Lemma left_over_keys l : sublist (left_over l).*1 l.*1.
Proof.
  induction l as [|kv l IH]; [done|]. unfold left_over in *. cbn [omap list_omap fmap list_fmap].
  destruct (settles _ _); cbn; [by apply sublist_skip|by apply sublist_cons].
Qed.

Lemma left_over_lists m1 m2 :
  done_by m1 -> (forall i, m2 !! KeyOffer a i = m1 !! KeyOffer a i) -> lists_offers m2 a (left_over kvs).
Proof.
  intros P H2. pose proof listed_own as Hown. destruct Hlist as [Hnd Hl]. split.
  - eapply sublist_NoDup; [exact Hnd|apply left_over_keys].
  - intros [k e']. cbn. unfold left_over. rewrite list_elem_of_omap. split.
    + intros (kv & Hin & E). destruct (settles kv _) as [e''|] eqn:Es; [|done]. injection E as <- <-.
      eapply Forall_forall in Hown as [_ _ Hk _]; [|exact Hin].
      split; [|by rewrite Hk]. rewrite Hk, H2, <- Hk. by rewrite (pg_done _ _ _ _ _ _ _ _ P kv Hin).
    + intros [E Hs]. destruct k as [|?|b i|]; try done. injection Hs as ->. rewrite H2 in E.
      destruct (decide (KeyOffer a i ∈ kvs.*1)) as [Hin|Hin].
      * apply list_elem_of_fmap in Hin as (kv & Hk & Hin). exists kv. split; [done|].
        rewrite Hk, (pg_done _ _ _ _ _ _ _ _ P kv Hin) in E. rewrite E. cbn. by rewrite Hk.
      * rewrite (pg_rest _ _ _ _ _ _ _ _ P) in E by done. exfalso. apply Hin.
        apply (list_elem_of_fmap_2 fst _ (KeyOffer a i, e')). by apply Hl.
Qed.

Lemma left_promises m1 m2 A :
  done_by m1 -> (forall i, m2 !! KeyOffer a i = m1 !! KeyOffer a i) ->
  promises m2 a A = mkLiabilities (sum_side true A K) (sum_side false A K).
Proof.
  intros P H2. rewrite (promises_lists m2 a (left_over kvs)) by (by eapply left_over_lists).
  pose proof (own_offers_ok a kvs listed_own) as Hos. rewrite left_over_offers.
  f_equal; apply sum_side_map; intros o [Hk Ho]%list_elem_of_filter; (split; [done|]);
    (eapply Forall_forall in Hos; [|exact Ho]); apply andb_prop in Hk as [_ Hz];
    apply negb_true_iff, Z.eqb_neq in Hz; by apply adjusted_promise.
Qed.

Lemma left_count m1 m2 :
  done_by m1 -> (forall i, m2 !! KeyOffer a i = m1 !! KeyOffer a i) ->
  (length (own_list m2 a) + ndropped a acc above m0 kvs kvs = length kvs)%nat.
Proof.
  intros P H2. rewrite (Permutation_length (lists_perm m2 a (left_over kvs) (left_over_lists m1 m2 P H2))).
  transitivity (length (offers (left_over kvs)) + ndropped a acc above m0 kvs kvs)%nat.
  { unfold offers. by rewrite length_fmap. }
  rewrite left_over_offers, length_fmap. unfold ndropped, kept.
  assert (HL : forall l, (length (filter (fun o => stays o = true) l) + length (filter (fun o => stays o = false) l) = length l)%nat).
  { induction l as [|o l IH]; [done|]. rewrite !filter_cons.
    destruct (stays o); [rewrite decide_True, decide_False by done|rewrite decide_False, decide_True by done]; cbn; lia. }
  rewrite HL. unfold offers. by rewrite length_fmap.
Qed.

Lemma native_fits nd :
  (nd <= length kvs)%nat ->
  account_fits h (set_acc_numSubEntries (acc_numSubEntries acc - Z.of_nat nd) acc)
    (mkLiabilities (sum_side true AssetNative K) (sum_side false AssetNative K)).
Proof.
  intros Hn. destruct Hready as [Hb Hc Hr Hxb Hxs Hcov]. unfold account_fits. cbn.
  pose proof (reserve_mono h (acc_numSubEntries acc - Z.of_nat nd) (acc_numSubEntries acc) Hh ltac:(lia)).
  pose proof (reserve_nonneg h (acc_numSubEntries acc - Z.of_nat nd) Hh ltac:(lia)).
  pose proof (kept_bound true AssetNative eq_refl) as Bt. pose proof (kept_bound false AssetNative eq_refl) as Bf.
  unfold cap in Bt, Bf. change (is_native AssetNative) with true in Bt, Bf. cbv iota in Bt, Bf.
  destruct Bt as [[Eb _]|Hb1], Bf as [[Es _]|Hs1]; rewrite ?Eb, ?Es; repeat split; try zlia;
    first [right; zlia|destruct Hcov; [right; zlia|left; zlia]].
Qed.

Lemma line_of_kept A o b :
  issued_by a A = false -> is_native A = false -> o ∈ K -> side_asset b o = A ->
  exists t, line m0 a A = Some t /\ line_fits t (mkLiabilities (sum_side true A K) (sum_side false A K)).
Proof.
  intros Hi Hn Ho Hs. assert (Hcap : 0 < cap m0 a (acc_balance acc) above b A).
  { destruct (kept_bound b A Hi) as [[_ H]|?]; [by apply H in Ho|lia]. }
  pose proof (kept_bound true A Hi) as Bt. pose proof (kept_bound false A Hi) as Bf.
  unfold cap in *. rewrite Hn, Hi in *. destruct (line m0 a A) as [t|] eqn:El; [|lia].
  destruct (tl_authorized t) eqn:Ea; [|lia]. exists t. split; [done|].
  pose proof (Hlines _ _ El) as Hl. split; [done|]. split; [done|]. destruct Hl as (?&?&_). cbn [liab_buying liab_selling].
  destruct Bt as [[-> _]|?], Bf as [[-> _]|?]; zlia.
Qed.

Lemma writes_fit m1 L A x :
  done_by m1 -> liab_inv a K K L -> L !! A = Some x ->
  issued_by a A = false /\ exists e, m1 !! asset_key a A = Some e /\ fits h e x.
Proof.
  intros P HL E. rewrite HL in E. destruct (touched a K K A) eqn:Et; [|done]. injection E as <-.
  unfold touched in Et. apply andb_prop in Et as [Hi Et]. apply negb_true_iff in Hi. split; [done|].
  assert (Ho : exists b o, o ∈ K /\ side_asset b o = A).
  { apply orb_true_iff in Et as [Et|Et]; apply bool_decide_eq_true, list_elem_of_fmap in Et as (o & -> & Ho); eauto. }
  destruct Ho as (b & o & Ho & Hs). unfold asset_key. destruct (is_native A) eqn:En.
  - apply is_native_true in En as ->. eexists. split; [apply (pg_account _ _ _ _ _ _ _ _ P)|].
    unfold fits. cbn. apply native_fits, ndropped_le.
  - destruct (line_of_kept A o b Hi En Ho Hs) as (t & El & Hf). unfold line in El.
    destruct (m0 !! KeyTrustLine a A) as [e|] eqn:Ee; [|done]. exists e.
    rewrite (pg_rest _ _ _ _ _ _ _ _ P), Ee; [|done|by apply (own_key_ne a kvs _ listed_own)].
    split; [done|]. unfold fits. destruct (le_data e); try done. by injection El as ->.
Qed.

(** the liabilities in an asset, written or left alone *)
Lemma written_labels L m1 m2 A e ext :
  liab_inv a K K L -> done_by m1 -> written a (map_to_list L) m1 m2 -> issued_by a A = false ->
  m1 !! asset_key a A = Some e ->
  match le_data e with
  | ACCOUNT x => acc_ext x = ext -> exists ext', m2 !! asset_key a A = Some (set_le_data (ACCOUNT (set_acc_ext ext' x)) e) /\
      labelled ext ext' (promises m2 a A)
  | TRUSTLINE t => tl_ext t = ext -> exists ext', m2 !! asset_key a A = Some (set_le_data (TRUSTLINE (set_tl_ext ext' t)) e) /\
      labelled ext ext' (promises m2 a A)
  | _ => True
  end.
Proof.
  intros HL P [W1 W2] Hi E.
  assert (Hp : promises m2 a A = mkLiabilities (sum_side true A K) (sum_side false A K)).
  { apply (left_promises m1 m2 A P). intros i. apply W2. intros B _. unfold asset_key. by destruct (is_native B). }
  destruct (L !! A) as [x|] eqn:EL.
  - pose proof EL as Ex. rewrite HL in Ex. destruct (touched a K K A); [|done]. injection Ex as Ex.
    destruct (W1 A x) as (e1 & e2 & E1 & E2 & Hr); [by apply elem_of_map_to_list|].
    rewrite E in E1. injection E1 as <-. unfold relabeled in Hr. rewrite E2, Hp, Ex.
    destruct (le_data e); try done; intros _; destruct Hr as (ext' & -> & Hlab); exists ext'; (split; [done|by left]).
  - rewrite W2, E, Hp.
    + assert (Hs : sum_side true A K = 0 /\ sum_side false A K = 0).
      { rewrite HL in EL. destruct (touched a K K A) eqn:Et; [done|]. unfold touched in Et. rewrite Hi in Et. cbn in Et.
        apply orb_false_iff in Et as [T1 T2]. apply bool_decide_eq_false in T1. apply bool_decide_eq_false in T2.
        split; apply sum_side_none; intros o Ho <-; [apply T1|apply T2]; by apply list_elem_of_fmap_2. }
      destruct Hs as [-> ->]. destruct e as [lme []]; try done; cbn; intros <-; eexists; (split; [|by right]);
        unfold set_le_data; cbn; repeat f_equal; by destruct_and?; match goal with |- ?x = _ => by destruct x end.
    + intros B HB HE%asset_key_inj. subst B. apply list_elem_of_fmap in HB as ([B x] & -> & HB).
      apply elem_of_map_to_list in HB. cbn in EL. congruence.
Qed.

Lemma written_offer L m1 m2 i : written a (map_to_list L) m1 m2 -> m2 !! KeyOffer a i = m1 !! KeyOffer a i.
Proof. intros W. apply (wr_rest _ _ _ _ W). intros B _. unfold asset_key. by destruct (is_native B). Qed.
Lemma progress_line m1 A : done_by m1 -> m1 !! KeyTrustLine a A = m0 !! KeyTrustLine a A.
Proof. intros P. apply (pg_rest _ _ _ _ _ _ _ _ P); [done|]. by apply (own_key_ne a kvs _ listed_own). Qed.

Lemma written_line L m1 m2 A lm' t :
  liab_inv a K K L -> done_by m1 -> written a (map_to_list L) m1 m2 ->
  m0 !! KeyTrustLine a A = Some (mkLedgerEntry lm' (TRUSTLINE t)) ->
  exists ext, m2 !! KeyTrustLine a A = Some (mkLedgerEntry lm' (TRUSTLINE (set_tl_ext ext t))) /\
    (is_native A = false -> issued_by a A = false -> labelled (tl_ext t) ext (promises m2 a A)).
Proof.
  intros HL P W E. destruct (is_native A || issued_by a A) eqn:Hi.
  - exists (tl_ext t). split; [|destruct (is_native A), (issued_by a A); done].
    rewrite (wr_rest _ _ _ _ W), (progress_line m1), E; [by destruct t|done|]. intros B HB HE.
    apply list_elem_of_fmap in HB as ([B' x] & -> & HB). apply elem_of_map_to_list in HB. cbn in HE.
    destruct (writes_fit m1 L B' x P HL HB) as [HB' _]. unfold asset_key in HE. destruct (is_native B') eqn:En; [done|].
    injection HE as ->. by rewrite En, HB' in Hi.
  - apply orb_false_iff in Hi as [En Hi]. rewrite <- (progress_line m1) in E by done.
    assert (EK : asset_key a A = KeyTrustLine a A) by (unfold asset_key; by rewrite En). rewrite <- EK in E.
    destruct (written_labels L m1 m2 A _ (tl_ext t) HL P W Hi E eq_refl) as (ext & E2 & Hl). rewrite EK in E2. by exists ext.
Qed.

Lemma written_none L m1 m2 k :
  liab_inv a K K L -> done_by m1 -> written a (map_to_list L) m1 m2 -> m0 !! k = None -> m2 !! k = None.
Proof.
  intros HL P W E. rewrite (wr_rest _ _ _ _ W); [rewrite (pg_rest _ _ _ _ _ _ _ _ P); [done| |]|].
  - intros ->. by rewrite Hacc in E.
  - intros Hin. apply list_elem_of_fmap in Hin as (kv & -> & Hin). apply Hlist in Hin as [Hin _]. congruence.
  - intros B HB ->. apply list_elem_of_fmap in HB as ([B' x] & -> & HB). apply elem_of_map_to_list in HB. cbn in E.
    destruct (writes_fit m1 L B' x P HL HB) as (HB' & e & Ee & _). revert E Ee. unfold asset_key. destruct (is_native B').
    + by rewrite Hacc.
    + rewrite (progress_line m1) by done. congruence.
Qed.

Lemma written_prepared L m1 m2 :
  liab_inv a K K L -> done_by m1 -> written a (map_to_list L) m1 m2 -> prepared a m0 m2.
Proof.
  intros HL P W. pose proof (fun i => written_offer L m1 m2 i W) as Hoff. pose proof (left_count m1 m2 P Hoff) as Hc.
  pose proof (Permutation_length (lists_perm m0 a kvs Hlist)) as Hc0. split.
  - intros lm' acc' E. rewrite Hacc in E. injection E as <- <-.
    destruct (written_labels L m1 m2 AssetNative _ (acc_ext acc) HL P W eq_refl (pg_account _ _ _ _ _ _ _ _ P) eq_refl)
      as (ext & E & Hl). eexists _, ext. split; [exact E|]. split; [lia|done].
  - intros A lm' t. by apply (written_line L m1).
  - intros k _. by apply (written_none L m1).
  - intros i e' E. rewrite Hoff in E. destruct (decide (KeyOffer a i ∈ kvs.*1)) as [Hin|Hin].
    + apply list_elem_of_fmap in Hin as (kv & Hk & Hin). rewrite Hk, (pg_done _ _ _ _ _ _ _ _ P kv Hin) in E.
      unfold settled in E. destruct (stays _); [|done]. injection E as <-. exists (snd kv). rewrite Hk.
      split; [|done]. by apply Hlist in Hin as [? _].
    + rewrite (pg_rest _ _ _ _ _ _ _ _ P) in E by done. exfalso. apply Hin.
      apply (list_elem_of_fmap_2 fst _ (KeyOffer a i, e')). by apply Hlist.
  - intros n. rewrite (wr_rest _ _ _ _ W).
    + apply (pg_rest _ _ _ _ _ _ _ _ P); [done|]. by apply (own_key_ne a kvs _ listed_own).
    + intros B _. unfold asset_key. by destruct (is_native B).
Qed.

Lemma prepareAccount_spec s :
  st_entries s = m0 ->
  yields (prepareAccount h a kvs.*1) s (fun _ s' =>
    prepared a m0 (st_entries s') /\ forall k, owner k <> a -> st_entries s' !! k = m0 !! k).
Proof.
  intros Es. pose proof listed_own as Hown. destruct Hlist as [Hnd Hl]. unfold prepareAccount. destruct Hh as [Hv _].
  apply yields_bind. eapply yields_mono; [apply (initialOf_spec h a Hv kvs [] ∅ ∅); try done|].
  { intros kv Hin%Hl. rewrite Es. by destruct Hin. }
  intros [ib is_] s1 (-> & Hib & His). cbn [fst snd app] in *. apply yields_bind.
  eapply yields_load; [by rewrite Es|]. intros s1 Es1. rewrite Es in Es1. clear s Es.
  apply yields_bind. eapply yields_current; [by rewrite Es1|]. apply yields_bind. eapply yields_lift; [done|].
  cbv zeta. rewrite above_exact. destruct Hready as [Hb Hc _ _ _ _]. apply yields_bind.
  eapply yields_mono; [apply (updateOffers_spec h a lm acc above m0 kvs Hh Hkeys Hlines Hacc Hb Hown Hnd
    ltac:(by intros kv [? _]%Hl) Hc kvs [] s1 ib is_ ∅); try done|].
  { rewrite Es1. by apply progress_nil. }
  { intros A. unfold touched. rewrite !bool_decide_eq_false_2 by apply not_elem_of_nil. by rewrite andb_false_r. }
  intros L s2 [P HL]. eapply yields_mono; [apply (writeLiabilities_spec h Hh a (map_to_list L) s2)|].
  - by apply (progress_current a lm acc above m0 kvs Hkeys Hlines Hacc kvs s2 Hown P).
  - apply NoDup_fst_map_to_list.
  - intros A x Hin%elem_of_map_to_list. by apply (writes_fit (st_entries s2) L A x P HL).
  - intros u s3 W. split; [by apply (written_prepared L (st_entries s2))|].
    intros k Hk. rewrite (wr_rest _ _ _ _ W) by (intros A _ ->; by rewrite asset_owner in Hk).
    apply (pg_rest _ _ _ _ _ _ _ _ P); [by intros ->|]. intros Hin.
    apply list_elem_of_fmap in Hin as (kv & -> & Hin). apply Hl in Hin as [_ Hs]. by apply seller_owner in Hs.
Qed.

End One.

(** ** All accounts *)

Record ready {U : UInt128} (h : LedgerHeader) (m : gmap LedgerKey LedgerEntry) : Prop := {
  rd_keys : keys_ok m;
  rd_lines : forall a A t, line m a A = Some t -> trust_ok t;
  rd_offers : forall k e o, m !! k = Some e -> le_data e = OFFER o -> offer_ok o;
  rd_sellers : forall a i e, m !! KeyOffer a i = Some e -> is_Some (m !! KeyAccount a);
  rd_accounts : forall a lm acc, m !! KeyAccount a = Some (mkLedgerEntry lm (ACCOUNT acc)) ->
    account_ready h acc (length (own_list m a))
}.

Lemma account_at m a e : keys_ok m -> m !! KeyAccount a = Some e -> exists lm acc, e = mkLedgerEntry lm (ACCOUNT acc).
Proof.
  intros K E. pose proof (K _ _ E) as Hk. destruct e as [lm d]. unfold LedgerEntryKey in Hk. cbn in Hk.
  destruct d; try done. eauto.
Qed.

Section All.
Context {U : UInt128}.
Variables (h : LedgerHeader) (m : gmap LedgerKey LedgerEntry).
Hypothesis Hh : header_ok h.
Hypothesis Hm : ready h m.

Lemma elem_of_sellers a : a ∈ sellers m <-> exists i e, m !! KeyOffer a i = Some e.
Proof.
  unfold sellers. rewrite elem_of_remove_dups, list_elem_of_omap. split.
  - intros ([k e] & Hin & Hs). apply elem_of_map_to_list in Hin. destruct k as [|?|b i|]; try done.
    injection Hs as ->. eauto.
  - intros (i & e & E). exists (KeyOffer a i, e). split; [by apply elem_of_map_to_list|done].
Qed.

(** an account that is not visited *)
Lemma prepared_none a : a ∉ sellers m -> prepared a m m.
Proof.
  intros Ha. assert (Hn : own_list m a = []).
  { destruct (own_list m a) as [|[k e] l] eqn:E; [done|]. exfalso. apply Ha, elem_of_sellers.
    assert (Hin : (k, e) ∈ own_list m a) by (rewrite E; by left). apply elem_of_own in Hin as [Hin Hs].
    destruct k as [|?|b i|]; try done. injection Hs as ->. eauto. }
  assert (Hp : forall A, promises m a A = mkLiabilities 0 0) by (intros A; unfold promises, promised; by rewrite Hn).
  split; [| |done| |done].
  - intros lm acc E. exists (acc_numSubEntries acc), (acc_ext acc). split; [rewrite E; by destruct acc|].
    split; [lia|]. right. by rewrite Hp.
  - intros A lm t E. exists (tl_ext t). split; [rewrite E; by destruct t|]. intros _ _. right. by rewrite Hp.
  - intros i e' E. exfalso. apply Ha, elem_of_sellers. eauto.
Qed.

Lemma prepareAccounts_spec l s :
  NoDup l -> l ⊆ sellers m -> (forall a, a ∈ l -> agree a m (st_entries s)) ->
  (forall a, a ∉ l -> prepared a m (st_entries s)) ->
  yields (prepareAccounts h ((fun a => (a, offers_of m a)) <$> l)) s (fun _ s' => forall a, prepared a m (st_entries s')).
Proof.
  revert s. induction l as [|a l IH]; intros s Hn Hl Ha Hp; cbn [fmap list_fmap prepareAccounts].
  { apply yields_ret. intros a. apply Hp, not_elem_of_nil. }
  apply NoDup_cons in Hn as [Hal Hn]. pose proof (Ha a ltac:(by left)) as Hag.
  assert (Hs : a ∈ sellers m) by (apply Hl; by left). apply elem_of_sellers in Hs as (i & e & E).
  destruct (rd_sellers _ _ Hm _ _ _ E) as [ea Ea]. destruct (account_at m a ea (rd_keys _ _ Hm) Ea) as (lm & acc & ->).
  apply yields_bind. eapply yields_mono.
  - apply (prepareAccount_spec h a lm acc (st_entries s) (own_list m a) Hh); [..|done].
    + intros k e' Ho Ek. rewrite Hag in Ek by done. by apply (rd_keys _ _ Hm).
    + intros A t. unfold line. rewrite Hag by done. apply (rd_lines _ _ Hm a A).
    + by rewrite Hag.
    + by eapply rd_accounts.
    + eapply lists_agree, own_lists. done.
    + intros k e' o Ho Ek. rewrite Hag in Ek by done. by apply (rd_offers _ _ Hm k).
  - intros u s1 [Hp1 Ho1]. apply IH; [done|set_solver| |].
    + intros b Hb k Hk. rewrite Ho1; [apply (Ha b); [by right|done]|]. intros Hka. apply Hal. congruence.
    + intros b Hb. destruct (decide (b = a)) as [->|Hne].
      * eapply prepared_agree; [|by intros k _|exact Hp1]. intros k Hk. symmetry. by apply Hag.
      * eapply prepared_agree; [by intros k _| |apply (Hp b); set_solver]. intros k Hk. apply Ho1. congruence.
Qed.

End All.

(** the liabilities of every account and trust line are what its offers promise *)
Definition liabilities_match {U : UInt128} (m : gmap LedgerKey LedgerEntry) : Prop :=
  forall a, (forall lm acc, m !! KeyAccount a = Some (mkLedgerEntry lm (ACCOUNT acc)) ->
      has_liabilities (acc_ext acc) (promises m a AssetNative)) /\
    (forall A t, is_native A = false -> issued_by a A = false -> line m a A = Some t ->
      has_liabilities (tl_ext t) (promises m a A)).

(** no account or trust line has liabilities *)
Definition no_liabilities (m : gmap LedgerKey LedgerEntry) : Prop :=
  forall k e, m !! k = Some e ->
    match le_data e with
    | ACCOUNT acc => has_liabilities (acc_ext acc) (mkLiabilities 0 0)
    | TRUSTLINE t => has_liabilities (tl_ext t) (mkLiabilities 0 0)
    | _ => True
    end.

(** *** The header *)

Class KeepsHeader {A} (m : ltm A) : Prop :=
  keeps_header : forall s a s', m s = Ok (a, s') -> st_header s' = st_header s.

#[export] Instance kh_quiet {A} (m : ltm A) : Quiet m -> KeepsHeader m | 100.
Proof. intros Hm s a s' E. by destruct (Hm _ _ _ E). Qed.
#[export] Instance kh_bind {A B} (m : ltm A) (f : A -> ltm B) :
  KeepsHeader m -> (forall a, KeepsHeader (f a)) -> KeepsHeader (m ≫= f).
Proof. intros Hm Hf s b s' (a & s1 & E1 & E2)%ltm_bind_ok. rewrite (Hf a _ _ _ E2). by apply (Hm _ _ _ E1). Qed.
#[export] Instance kh_if {A} (b : bool) (m1 m2 : ltm A) : KeepsHeader m1 -> KeepsHeader m2 -> KeepsHeader (if b then m1 else m2).
Proof. by destruct b. Qed.
#[export] Instance kh_update {A} k (f : LedgerEntry -> res (A * LedgerEntry)) : KeepsHeader (ltx_update k f).
Proof. by intros s a s' (e & e' & _ & _ & _ & H)%ltx_update_ok. Qed.
#[export] Instance kh_set k e : KeepsHeader (ltx_set_current k e).
Proof. intros s a s'. unfold ltx_set_current. case_match; [|done]. intros [= _ <-]. apply put_header. Qed.
#[export] Instance kh_erase k : KeepsHeader (ltx_erase k).
Proof.
  intros s a s'. unfold ltx_erase. case_match; [|done]. intros [= _ <-].
  by destruct (unshare_same k (set_st_entries (delete k (st_entries s)) s)).
Qed.
#[export] Instance kh_tlw w f : KeepsHeader (tlw_update w f).
Proof. destruct w; [by intros s a s'|apply kh_update|apply kh_quiet, quiet_ret]. Qed.
#[export] Hint Mode KeepsHeader ! ! : typeclass_instances.

#[export] Hint Opaque ltx_loadAllOffers getAvailableBalanceExcludingLiabilities getAvailableLimitExcludingLiabilities
  shouldDeleteOffer decideOffer updateOffer initialOf updateOffers writeNative writeTrust writeLiabilities
  prepareAccount prepareAccounts prepareLiabilities : typeclass_instances.

Section Header.
Context {U : UInt128}.
Variable h : LedgerHeader.

#[export] Instance quiet_allOffers : Quiet ltx_loadAllOffers.
Proof. intros s a s' [= _ <-]. apply same_refl. Qed.
#[export] Instance quiet_capBalance a A x : Quiet (getAvailableBalanceExcludingLiabilities a A x).
Proof. unfold getAvailableBalanceExcludingLiabilities, loadTrustLineWithoutRecord. apply _. Qed.
#[export] Instance quiet_capLimit a A x : Quiet (getAvailableLimitExcludingLiabilities a A x).
Proof. unfold getAvailableLimitExcludingLiabilities. apply _. Qed.
Lemma quiet_shouldDelete A x m f : (forall A x, Quiet (f A x)) -> Quiet (shouldDeleteOffer A x m f).
Proof. intros Hf. unfold shouldDeleteOffer. apply quiet_option; [|apply _]. intros [z|]; apply _. Qed.
#[export] Instance quiet_decideOffer o x y ib is_ : Quiet (decideOffer o x y ib is_).
Proof.
  unfold decideOffer. apply quiet_bind; [apply quiet_shouldDelete, _|]. intros e.
  apply quiet_bind; [apply quiet_if; [apply _|apply quiet_shouldDelete, _]|]. intros e'. apply _.
Qed.
#[export] Instance quiet_initialOf l b se : Quiet (initialOf h l b se).
Proof. revert b se. induction l as [|k l IH]; intros b se; cbn [initialOf]; apply _. Qed.

#[export] Instance kh_updateOffer k x y L ib is_ : KeepsHeader (updateOffer h k x y L ib is_).
Proof.
  unfold updateOffer. apply kh_bind; [apply _|]. intros e. apply kh_bind; [apply _|]. intros o.
  apply kh_bind; [apply _|]. intros [[] r]; apply _.
Qed.
#[export] Instance kh_updateOffers l ka x y ib is_ L : KeepsHeader (updateOffers h l ka x y ib is_ L).
Proof.
  revert L. induction l as [|k l IH]; intros L; cbn [updateOffers]; [apply _|].
  apply kh_bind; [apply _|]. intros [r L']. apply kh_bind; [destruct r; apply _|apply _].
Qed.
#[export] Instance kh_writeLiabilities a ka l : KeepsHeader (writeLiabilities h a ka l).
Proof.
  induction l as [|[A x] l IH]; cbn [writeLiabilities]; [apply _|].
  apply kh_bind; [|apply _]. apply kh_if; [unfold writeNative; apply _|].
  unfold writeTrust, tlw_getSellingLiabilities, tlw_getBuyingLiabilities, tlw_addSellingLiabilities, tlw_addBuyingLiabilities.
  apply _.
Qed.
#[export] Instance kh_prepareAccount a l : KeepsHeader (prepareAccount h a l).
Proof.
  unfold prepareAccount. apply kh_bind; [apply _|]. intros [ib is_]. apply kh_bind; [apply _|].
  intros [k|]; apply _.
Qed.
#[export] Instance kh_prepareAccounts l : KeepsHeader (prepareAccounts h l).
Proof. induction l as [|[a ks] l IH]; cbn [prepareAccounts]; apply _. Qed.
#[export] Instance kh_prepareLiabilities : KeepsHeader (prepareLiabilities h).
Proof. unfold prepareLiabilities. apply _. Qed.

End Header.

(** ** The upgrades *)

Section Upgrade.
Context {U : UInt128}.

Lemma prepareLiabilities_prepares h s :
  header_ok h -> ready h (st_entries s) ->
  yields (prepareLiabilities h) s (fun _ s' =>
    st_header s' = st_header s /\ forall a, prepared a (st_entries s) (st_entries s')).
Proof.
  intros Hh Hr. assert (Y : yields (prepareLiabilities h) s (fun _ s' => forall a, prepared a (st_entries s) (st_entries s'))).
  { unfold prepareLiabilities. apply yields_bind. eexists _, _. split; [done|].
    apply (prepareAccounts_spec h (st_entries s) Hh Hr).
    - apply NoDup_remove_dups.
    - done.
    - by intros a _ k _.
    - intros a Ha. by apply (prepared_none _ a). }
  destruct Y as (u & s' & E & H). exists u, s'. split; [done|]. split; [|done]. by eapply kh_prepareLiabilities.
Qed.

(** without liabilities before, the new ones are right *)
Lemma prepared_match m m' :
  keys_ok m -> no_liabilities m -> (forall a, prepared a m m') -> liabilities_match m'.
Proof.
  intros K Hn Hp a. destruct (Hp a) as [P1 P2 P3 _ _].
  assert (Hl : forall ext ext' l, has_liabilities ext (mkLiabilities 0 0) -> labelled ext ext' l -> has_liabilities ext' l).
  { intros ext ext' l Hz [?|[-> ->]]; done. }
  split.
  - intros lm acc E. destruct (m !! KeyAccount a) as [e|] eqn:Ee; [|by rewrite (P3 (KeyAccount a) eq_refl Ee) in E].
    destruct (account_at m a e K Ee) as (lm0 & acc0 & ->). destruct (P1 _ _ eq_refl) as (n & ext & E' & _ & Hlab).
    rewrite E in E'. injection E' as -> ->. cbn. eapply Hl; [|exact Hlab]. exact (Hn _ _ Ee).
  - intros A t En Hi El. unfold line in El. destruct (m !! KeyTrustLine a A) as [e|] eqn:Ee;
      [|by rewrite (P3 (KeyTrustLine a A) eq_refl Ee) in El].
    pose proof (K _ _ Ee) as Hk. pose proof (Hn _ _ Ee) as Hz. destruct e as [lm0 d]. unfold LedgerEntryKey in Hk. cbn in Hk, Hz.
    destruct d as [|t0| |]; try done. destruct (P2 _ _ _ Ee) as (ext & E' & Hlab). rewrite E' in El. injection El as <-.
    cbn. eapply Hl; [exact Hz|by apply Hlab].
Qed.

(** Claim C24: the upgrade to protocol version 10 or later succeeds on every
    well-formed ledger and establishes liabilities: [applyTo] returns, sets
    the version, and in the resulting ledger the buying and selling
    liabilities of every account and trust line are exactly the sums of what
    its offers promise.  The offers that are left are those of before,
    adjusted; each account counts as many sub-entries less as it has lost
    offers; data entries are untouched. *)
Theorem version_upgrade_matches_offers v s :
  let h := set_ledgerVersion v (st_header s) in
  ledgerVersion (st_header s) < 10 <= v -> header_ok h -> ready h (st_entries s) -> no_liabilities (st_entries s) ->
  exists s', applyTo (LEDGER_UPGRADE_VERSION v) s = Ok (tt, s') /\ st_header s' = h /\
    liabilities_match (st_entries s') /\ forall a, prepared a (st_entries s) (st_entries s').
Proof.
  intros h Hv Hh Hr Hn. set (s1 := set_st_header h s).
  destruct (prepareLiabilities_prepares h s1 Hh Hr) as ([] & s' & E & Hs & Hp). exists s'.
  split; [|split; [done|split; [|done]]].
  - unfold applyTo, applyVersionUpgrade, mbind, ltm_bind, ltx_loadHeader, gets, ltx_setHeader.
    rewrite Z.geb_leb, (proj2 (Z.leb_le _ _)), (proj2 (Z.ltb_lt _ _)) by lia. exact E.
  - eapply prepared_match; [apply Hr|exact Hn|exact Hp].
Qed.

(** What is true of an increase of the base reserve from protocol
    version 10 on: on a well-formed ledger in which every account that sells
    lumens covers the new reserve the upgrade succeeds; afterwards the
    liabilities of an account in an asset are the sums of what its offers
    promise, or, where all offers of the asset are gone, still those of before
    the upgrade. *)
Theorem reserve_upgrade_prepares r s :
  let h := set_baseReserve r (st_header s) in
  baseReserve (st_header s) < r -> header_ok h -> ready h (st_entries s) ->
  exists s', applyTo (LEDGER_UPGRADE_BASE_RESERVE r) s = Ok (tt, s') /\ st_header s' = h /\
    forall a, prepared a (st_entries s) (st_entries s').
Proof.
  intros h Hr Hh Hy. set (s1 := set_st_header h s).
  destruct (prepareLiabilities_prepares h s1 Hh Hy) as ([] & s' & E & Hs & Hp). exists s'. split; [|by split].
  unfold applyTo, applyReserveUpgrade, mbind, ltm_bind, ltx_loadHeader, gets, ltx_setHeader. cbn [st_header].
  rewrite Z.geb_leb, Z.gtb_ltb, (proj2 (Z.leb_le _ _)), (proj2 (Z.ltb_lt _ _)); [exact E|lia|apply Hh].
Qed.

End Upgrade.

(** ** Proposing upgrades *)

Definition nonzero (u : LedgerUpgrade) : Prop :=
  match u with
  | LEDGER_UPGRADE_VERSION _ => True
  | LEDGER_UPGRADE_BASE_FEE x | LEDGER_UPGRADE_MAX_TX_SET_SIZE x | LEDGER_UPGRADE_BASE_RESERVE x => x <> 0
  end.
Definition raises_version (h : LedgerHeader) (u : LedgerUpgrade) : Prop :=
  match u with LEDGER_UPGRADE_VERSION v => ledgerVersion h < v | _ => True end.

(** the parameter that an upgrade belongs to, and the field it sets *)
Definition param_of (p : UpgradeParameters) (u : LedgerUpgrade) : option Z :=
  match u with
  | LEDGER_UPGRADE_VERSION _ => mProtocolVersion p
  | LEDGER_UPGRADE_BASE_FEE _ => mBaseFee p
  | LEDGER_UPGRADE_MAX_TX_SET_SIZE _ => mMaxTxSize p
  | LEDGER_UPGRADE_BASE_RESERVE _ => mBaseReserve p
  end.
Definition field_of (h : LedgerHeader) (u : LedgerUpgrade) : Z :=
  match u with
  | LEDGER_UPGRADE_VERSION _ => ledgerVersion h
  | LEDGER_UPGRADE_BASE_FEE _ => baseFee h
  | LEDGER_UPGRADE_MAX_TX_SET_SIZE _ => maxTxSetSize h
  | LEDGER_UPGRADE_BASE_RESERVE _ => baseReserve h
  end.
Definition value_of_upgrade (u : LedgerUpgrade) : Z :=
  match u with
  | LEDGER_UPGRADE_VERSION x | LEDGER_UPGRADE_BASE_FEE x | LEDGER_UPGRADE_MAX_TX_SET_SIZE x | LEDGER_UPGRADE_BASE_RESERVE x => x
  end.

Lemma elem_of_propose o c make u :
  u ∈ proposeIfNeeded o c make <-> exists v, o = Some v /\ c <> v /\ u = make v.
Proof.
  unfold proposeIfNeeded. destruct o as [v|]; [|set_solver].
  destruct (Z.eqb_spec c v); cbn; set_solver.
Qed.

Lemma elem_of_created p h u :
  u ∈ createUpgradesFor p h <-> timeForUpgrade p (sv_closeTime (scpValue h)) = true /\
    param_of p u = Some (value_of_upgrade u) /\ field_of h u <> value_of_upgrade u.
Proof.
  unfold createUpgradesFor. destruct (timeForUpgrade _ _); cbn [negb]; [|set_solver].
  rewrite !elem_of_app, !elem_of_propose. destruct u as [x|x|x|x]; cbn; naive_solver.
Qed.

Section Proposals.
Context {U : UInt128} {X : UpgradeXdr}.

Lemma applyTo_field u s s' : applyTo u s = Ok (tt, s') -> field_of (st_header s') u = value_of_upgrade u.
Proof.
  destruct u as [v|f|m|r]; cbn [applyTo]; [|by intros [= <-]..|].
  - intros E. apply ltm_bind_ok in E as (h0 & s0 & [= <- <-] & E). cbv zeta in E.
    apply ltm_bind_ok in E as (u & s1 & [= <- <-] & E).
    destruct (_ && _); repeat inv_run; [|done]. by rewrite (kh_prepareLiabilities _ _ _ _ E).
  - intros E. apply ltm_bind_ok in E as (h0 & s0 & [= <- <-] & E). cbv zeta in E.
    apply ltm_bind_ok in E as (u & s1 & [= <- <-] & E). apply ltm_bind_ok in E as (h1 & s1 & [= <- <-] & E).
    destruct (_ && _); repeat inv_run; [|done]. by rewrite (kh_prepareLiabilities _ _ _ _ E).
Qed.

(** a proposed upgrade is valid *)
Lemma created_isValid p p' supported h u nom :
  setParameters p supported = Ok p' -> u ∈ createUpgradesFor p' h -> nonzero u -> raises_version h u ->
  isValid p' (upgrade_to_opaque u) nom supported h = Some (upgrade_type u).
Proof.
  intros Hs (Ht & Hp & Hf)%elem_of_created Hz Hr.
  assert (Hsup : p' = p /\ match mProtocolVersion p' with Some v => v <= supported | None => True end).
  { unfold setParameters in Hs. destruct (mProtocolVersion p) as [v|] eqn:Ev; [|injection Hs as <-; by rewrite Ev].
    destruct (supported <? v) eqn:El; [done|]. injection Hs as <-. rewrite Ev. by zb. }
  destruct Hsup as [<- Hsup]. unfold isValid. rewrite Ht, andb_false_r, upgrade_opaque_roundtrip.
  destruct u as [x|x|x|x]; cbn in *; rewrite Hp in *; cbn; rewrite ?Z.eqb_refl;
    [rewrite (proj2 (Z.leb_le _ _)), (proj2 (Z.ltb_lt _ _)) by done|rewrite (proj2 (Z.eqb_neq _ _)) by done..];
    by destruct nom.
Qed.

(** The upgrades a node proposes are valid and are proposed until
    they happen: with parameters that [setParameters] accepts, every upgrade
    that [createUpgradesFor] returns, if it is not zero and does not lower the
    protocol version, passes [isValid], for nomination and for the ballot, with
    its own type; once [applyTo] has applied it, it is not proposed for the
    resulting header; and once [removeUpgrades] has seen it, it is not proposed
    at all. *)
Theorem proposed_upgrade_lifecycle p p' supported h u :
  setParameters p supported = Ok p' -> u ∈ createUpgradesFor p' h -> nonzero u -> raises_version h u ->
  (forall nomination, isValid p' (upgrade_to_opaque u) nomination supported h = Some (upgrade_type u)) /\
  (forall s s', applyTo u s = Ok (tt, s') -> u ∉ createUpgradesFor p' (st_header s')) /\
  (forall h', u ∉ createUpgradesFor (fst (removeUpgrades p' [upgrade_to_opaque u])) h').
Proof.
  intros Hs Hc Hz Hr. split; [intros nom; by eapply created_isValid|]. apply elem_of_created in Hc as (Ht & Hp & Hf).
  split.
  - intros s s' E%applyTo_field (_ & _ & Hne)%elem_of_created. done.
  - intros h' (_ & Hp' & _)%elem_of_created. unfold removeUpgrades in Hp'. cbn in Hp'.
    rewrite upgrade_opaque_roundtrip in Hp'. destruct p' as [t v f m r].
    destruct u as [x|x|x|x]; cbn in *; subst; cbn in *; by rewrite Z.eqb_refl in Hp'.
Qed.

End Proposals.
