(* ===== verification/UpgradeRuns.v ===== *)
(** * Upgrades on concrete ledgers

    The upgrade to protocol version 10 on a ledger with offers, and two
    increases of the base reserve that go wrong: one leaves liabilities of
    offers it has erased, one is refused because an account falls below the new
    reserve. *)
From S2P Require Import Prelude Numeric Exchange LedgerEntries TransactionUtils LedgerTxn OfferBook LedgerState.
From S2P Require Import LedgerLogic SubEntries Upgrades UpgradeLiabilities.

#[export] Instance upgrade_uint128 : UInt128 := Z_uint128.

(** ** Finite checks *)

Section Finite.
Variables (h : LedgerHeader) (m : gmap LedgerKey LedgerEntry).

Definition entry_ready (k : LedgerKey) (e : LedgerEntry) : Prop :=
  LedgerEntryKey e = k /\
  match le_data e with
  | ACCOUNT x =>
      0 <= acc_balance x <= INT64_MAX /\
      Z.of_nat (length (own_list m (acc_accountID x))) <= acc_numSubEntries x <= INT32_MAX /\
      reserve h (acc_numSubEntries x) <= INT64_MAX /\
      0 <= ext_buying (acc_ext x) <= INT64_MAX /\ 0 <= ext_selling (acc_ext x) <= INT64_MAX /\
      (reserve h (acc_numSubEntries x) <= acc_balance x \/ ext_selling (acc_ext x) = 0)
  | TRUSTLINE t =>
      0 <= tl_balance t <= INT64_MAX /\ tl_balance t <= tl_limit t <= INT64_MAX /\
      0 <= ext_buying (tl_ext t) <= INT64_MAX /\ 0 <= ext_selling (tl_ext t) <= INT64_MAX
  | OFFER o =>
      (0 < price_n (oe_price o) <= INT32_MAX /\ 0 < price_d (oe_price o) <= INT32_MAX) /\
      0 <= oe_amount o <= INT64_MAX /\ is_Some (m !! KeyAccount (oe_sellerID o))
  | DATA _ => True
  end.
#[export] Instance entry_ready_dec k e : Decision (entry_ready k e).
Proof. unfold entry_ready. destruct (le_data e); apply _. Defined.

Lemma line_entry a A t : line m a A = Some t -> exists lm, m !! KeyTrustLine a A = Some (mkLedgerEntry lm (TRUSTLINE t)).
Proof.
  unfold line. destruct (m !! KeyTrustLine a A) as [[lm []]|] eqn:E; try done. intros [= ->]. eauto.
Qed.

Lemma ready_finite : map_Forall entry_ready m -> ready h m.
Proof.
  intros H. split.
  - intros k e E. apply (H k e E).
  - intros a A t (lm & E)%line_entry. by destruct (H _ _ E) as [_ ?].
  - intros k [lm d] o E Hd. cbn in Hd. subst d. by destruct (H _ _ E) as (_ & ? & ? & _).
  - intros a i [lm d] E. destruct (H _ _ E) as [Hk Hd]. unfold LedgerEntryKey in Hk. cbn in Hk, Hd.
    destruct d as [| |o|]; try done. destruct Hd as (_ & _ & Ho). congruence.
  - intros a lm acc E. destruct (H _ _ E) as [Hk (?&?&?&?&?&?)]. injection Hk as <-. by split.
Qed.

Definition entry_matches (_ : LedgerKey) (e : LedgerEntry) : Prop :=
  match le_data e with
  | ACCOUNT x => ext_buying (acc_ext x) = promised true m (acc_accountID x) AssetNative /\
      ext_selling (acc_ext x) = promised false m (acc_accountID x) AssetNative
  | TRUSTLINE t => ext_buying (tl_ext t) = promised true m (tl_accountID t) (tl_asset t) /\
      ext_selling (tl_ext t) = promised false m (tl_accountID t) (tl_asset t)
  | _ => True
  end.
#[export] Instance entry_matches_dec k e : Decision (entry_matches k e).
Proof. unfold entry_matches. destruct (le_data e); apply _. Defined.

Lemma match_finite : keys_ok m -> map_Forall entry_matches m -> liabilities_match m.
Proof.
  intros K H a. split.
  - intros lm acc E. pose proof (K _ _ E) as Hk. injection Hk as <-. apply (H _ _ E).
  - intros A t _ _ (lm & E)%line_entry. pose proof (K _ _ E) as Hk. injection Hk as <- <-. apply (H _ _ E).
Qed.

End Finite.

Definition entry_free (_ : LedgerKey) (e : LedgerEntry) : Prop :=
  match le_data e with
  | ACCOUNT acc => ext_buying (acc_ext acc) = 0 /\ ext_selling (acc_ext acc) = 0
  | TRUSTLINE t => ext_buying (tl_ext t) = 0 /\ ext_selling (tl_ext t) = 0
  | _ => True
  end.
#[export] Instance entry_free_dec k e : Decision (entry_free k e).
Proof. unfold entry_free. destruct (le_data e); apply _. Defined.

(** decide a property of all entries of a concrete map *)
Ltac by_entries P := apply (bool_decide_unpack P); by vm_compute.

(** ** The ledgers *)

Definition euro : Asset := AssetAlphaNum4 [69; 85; 82; 0] 3.

Definition up_header (version : Z) : LedgerHeader :=
  mkLedgerHeader version 0 (mkEssaBlockChainValue 0 50 []) 0 0 7 5000 0 0 9 100 100 50 [0; 0; 0; 0].

Definition up_account (id balance subs : Z) (ext : option Liabilities) : LedgerEntry :=
  mkLedgerEntry 1 (ACCOUNT (mkAccountEntry id balance 7 subs None 0 "" [1; 0; 0; 0] [] ext)).
Definition up_line (balance : Z) (ext : option Liabilities) : LedgerEntry :=
  mkLedgerEntry 1 (TRUSTLINE (mkTrustLineEntry 1 euro balance 1000 1 ext)).
Definition up_offer (id : Z) (selling buying : Asset) (amount : Z) : LedgerEntry :=
  mkLedgerEntry 1 (OFFER (mkOfferEntry 1 id selling buying amount (mkPrice 1 1) 0)).

Definition up_state (version : Z) (l : list LedgerEntry) : LState :=
  mkLState (up_header version) (list_to_map ((fun e => (LedgerEntryKey e, e)) <$> l)) None false.

(** before version 10: an offer that fits, and one of more than there is *)
Definition oldLedger : LState :=
  up_state 9 [up_account 1 2000 3 None; up_account 3 500 0 None; up_line 300 None;
    up_offer 5 AssetNative euro 400; up_offer 6 euro AssetNative 900].

Lemma version_upgrade_matches_offers_witness :
  exists s', applyTo (LEDGER_UPGRADE_VERSION 10) oldLedger = Ok (tt, s') /\
    liabilities_match (st_entries s') /\ st_entries s' !! KeyOffer 1 6 = None /\
    promised false (st_entries s') 1 AssetNative = 400.
Proof.
  destruct (version_upgrade_matches_offers 10 oldLedger) as (s' & E & _ & Hm & _).
  - cbn. lia.
  - split; cbn; zlia.
  - apply ready_finite. by_entries (map_Forall (entry_ready (up_header 10) (st_entries oldLedger)) (st_entries oldLedger)).
  - by_entries (map_Forall entry_free (st_entries oldLedger)).
  - exists s'. split; [done|]. split; [done|]. vm_compute in E. injection E as <-. by vm_compute.
Defined.

(** the lumens that account 1 sells, and that it cannot afford to sell when the
    reserve doubles *)
Definition sellerLedger : LState :=
  up_state 10 [up_account 1 1000 2 (Some (mkLiabilities 0 500)); up_account 3 500 0 None;
    up_line 0 (Some (mkLiabilities 500 0)); up_offer 5 AssetNative euro 500].

Lemma keys_finite m : map_Forall (fun k e => LedgerEntryKey e = k) m -> keys_ok m.
Proof. intros H k e E. by apply H. Qed.

Lemma reserve_upgrade_prepares_witness :
  exists s', applyTo (LEDGER_UPGRADE_BASE_RESERVE 200) sellerLedger = Ok (tt, s') /\
    forall a, prepared a (st_entries sellerLedger) (st_entries s').
Proof.
  destruct (reserve_upgrade_prepares 200 sellerLedger) as (s' & E & _ & Hp).
  - cbn. lia.
  - split; cbn; zlia.
  - apply ready_finite. by_entries (map_Forall (entry_ready (set_baseReserve 200 (up_header 10)) (st_entries sellerLedger)) (st_entries sellerLedger)).
  - exists s'. exact (conj E Hp).
Defined.

(** Claim C39: an increase of the base reserve can leave wrong liabilities: in
    a ledger of protocol version 10 whose liabilities are all right, the upgrade
    succeeds, erases the only offer of an account, which the account could not
    honour any more, and leaves the liabilities of the account and of its
    trust line as they were, although no offer is left.  [prepareLiabilities]
    writes only the liabilities in assets of offers that stay. *)
Theorem reserve_upgrade_leaves_liabilities :
  liabilities_match (st_entries sellerLedger) /\
  exists s', applyTo (LEDGER_UPGRADE_BASE_RESERVE 200) sellerLedger = Ok (tt, s') /\
    ~ liabilities_match (st_entries s') /\ st_entries s' !! KeyOffer 1 5 = None /\
    getSellingLiabilities (st_header s') (default (up_account 0 0 0 None) (st_entries s' !! KeyAccount 1)) = Ok 500.
Proof.
  split.
  - apply match_finite; [apply keys_finite; by_entries (map_Forall (fun k e => LedgerEntryKey e = k) (st_entries sellerLedger))|].
    by_entries (map_Forall (entry_matches (st_entries sellerLedger)) (st_entries sellerLedger)).
  - eexists. split; [by vm_compute|]. split; [|by vm_compute]. intros H. destruct (H 1) as [H1 _].
    destruct (H1 1 (mkAccountEntry 1 1000 7 1 None 0 "" [1; 0; 0; 0] [] (Some (mkLiabilities 0 500)))) as [_ Hs]; [by vm_compute|].
    by vm_compute in Hs.
Qed.

(** an account that would fall below the new reserve, buys and sells lumens *)
Definition poorLedger : LState :=
  up_state 10 [up_account 1 700 3 (Some (mkLiabilities 100 100)); up_account 3 500 0 None;
    up_line 100 (Some (mkLiabilities 100 100)); up_offer 5 AssetNative euro 100; up_offer 6 euro AssetNative 100].

(** An increase of the base reserve can fail because of one account:
    in a ledger of protocol version 10 whose liabilities are all right, an
    account that falls below the new reserve and both sells and buys lumens
    makes [applyTo] throw, since [addSellingLiabilities] refuses to lower the
    selling liabilities of an account below its reserve. *)
Theorem reserve_upgrade_refused :
  liabilities_match (st_entries poorLedger) /\
  applyTo (LEDGER_UPGRADE_BASE_RESERVE 200) poorLedger =
    Throw (RuntimeError "invalid selling liabilities during upgrade").
Proof.
  split; [|by vm_compute].
  apply match_finite; [apply keys_finite; by_entries (map_Forall (fun k e => LedgerEntryKey e = k) (st_entries poorLedger))|].
  by_entries (map_Forall (entry_matches (st_entries poorLedger)) (st_entries poorLedger)).
Qed.

(** ** Proposals *)

(** an upgrade is its type and its value *)
Definition read_upgrade (l : list Z) : option LedgerUpgrade :=
  match l with
  | [t; v] => if t =? 1 then Some (LEDGER_UPGRADE_VERSION v) else if t =? 2 then Some (LEDGER_UPGRADE_BASE_FEE v)
              else if t =? 3 then Some (LEDGER_UPGRADE_MAX_TX_SET_SIZE v)
              else if t =? 4 then Some (LEDGER_UPGRADE_BASE_RESERVE v) else None
  | _ => None
  end.
Definition write_upgrade (u : LedgerUpgrade) : list Z := [upgrade_type u; value_of_upgrade u].
Lemma read_write_upgrade u : read_upgrade (write_upgrade u) = Some u.
Proof. by destruct u. Qed.
#[export] Instance upgrade_xdr : UpgradeXdr := {|
  upgrade_from_opaque := read_upgrade; upgrade_to_opaque := write_upgrade; upgrade_opaque_roundtrip := read_write_upgrade
|}.

Lemma proposed_upgrade_lifecycle_witness :
  let p := mkUpgradeParameters 40 (Some 10) (Some 200) None None in
  createUpgradesFor p (up_header 9) = [LEDGER_UPGRADE_VERSION 10; LEDGER_UPGRADE_BASE_FEE 200] /\
  forall nomination, isValid p [1; 10] nomination 10 (up_header 9) = Some 1.
Proof.
  intros p. split; [by vm_compute|].
  refine (proj1 (proposed_upgrade_lifecycle p p 10 (up_header 9) (LEDGER_UPGRADE_VERSION 10) _ _ _ _)); [by vm_compute| |done|].
  - apply list_elem_of_here.
  - cbn. lia.
Defined.
