(* ===== verification/Termination.v ===== *)
(** * Every transaction comes to an end

    The loop of [convertWithOffers] over the book is the only one of the
    transaction code that is not bounded by its data; the model gives it as
    much fuel as the book has offers of the pair.  This file shows that the
    fuel is enough, for every protocol version: a round that goes on has taken
    an offer out of the book and nothing in the exchange puts one in.  It
    follows that applying an operation or a transaction always returns or
    raises an exception of the program. *)
From S2P Require Import Prelude Numeric Exchange LedgerEntries TransactionUtils LedgerTxn OfferBook LedgerState.
From S2P Require Import LedgerLogic OfferCross Operations OfferOperations Neutral Conservation Invariants.
From S2P Require Import InvariantManager Signatures Transactions TransactionSafety.

(** ** Pure functions *)

Class NoFuel {A} (r : res A) : Prop := nofuel : r <> Throw OutOfFuel.

#[export] Instance nofuel_ok {A} (a : A) : NoFuel (Ok a).
Proof. done. Qed.
#[export] Instance nofuel_ret {A} (a : A) : NoFuel (mret a).
Proof. done. Qed.
#[export] Instance nofuel_bind {A B} (m : res A) (f : A -> res B) :
  NoFuel m -> (forall a, NoFuel (f a)) -> NoFuel (m ≫= f).
Proof. intros Hm Hf. destruct m as [a|e]; [apply Hf|]. intros [= ->]. by apply Hm. Qed.
#[export] Instance nofuel_assert b : NoFuel (assert_ b).
Proof. by destruct b. Qed.
#[export] Hint Extern 1 (NoFuel (Throw _)) => discriminate : typeclass_instances.

(** follow the code of a pure function *)
Ltac no_fuel :=
  cbv beta zeta;
  lazymatch goal with
  | |- NoFuel (_ ≫= _) => apply nofuel_bind; [no_fuel|intros; no_fuel]
  | |- NoFuel (match ?x with _ => _ end) => destruct x; no_fuel
  | |- NoFuel (Throw _) => discriminate
  | |- _ => apply _
  end.
#[export] Hint Mode NoFuel ! ! : typeclass_instances.

#[export] Instance nofuel_get_account e : NoFuel (get_account e).
Proof. unfold get_account. no_fuel. Qed.
#[export] Instance nofuel_get_trustLine e : NoFuel (get_trustLine e).
Proof. unfold get_trustLine. no_fuel. Qed.
#[export] Instance nofuel_get_offer e : NoFuel (get_offer e).
Proof. unfold get_offer. no_fuel. Qed.
#[export] Instance nofuel_get_data e : NoFuel (get_data e).
Proof. unfold get_data. no_fuel. Qed.
#[export] Instance nofuel_getIssuer a : NoFuel (getIssuer a).
Proof. unfold getIssuer. no_fuel. Qed.

Section Pure.
Context {U : UInt128}.

#[export] Instance nofuel_bigDivide_i64 r a b c x : NoFuel (bigDivide_i64 r a b c x).
Proof. unfold bigDivide_i64. no_fuel. Qed.
#[export] Instance nofuel_bigDivide a b c x : NoFuel (bigDivide a b c x).
Proof. unfold bigDivide. no_fuel. Qed.
#[export] Instance nofuel_bigDivide128_u64 r a b x : NoFuel (bigDivide128_u64 r a b x).
Proof. unfold bigDivide128_u64. no_fuel. Qed.
#[export] Instance nofuel_bigDivide128_i64 r a b x : NoFuel (bigDivide128_i64 r a b x).
Proof. unfold bigDivide128_i64. no_fuel. Qed.
#[export] Instance nofuel_bigDivide128 a b x : NoFuel (bigDivide128 a b x).
Proof. unfold bigDivide128. no_fuel. Qed.
#[export] Instance nofuel_bigMultiply a b : NoFuel (bigMultiply a b).
Proof. unfold bigMultiply. no_fuel. Qed.

#[export] Instance nofuel_exchangeV2 w p m1 m2 : NoFuel (exchangeV2 w p m1 m2).
Proof. unfold exchangeV2. no_fuel. Qed.
#[export] Instance nofuel_exchangeV3 w p m1 m2 : NoFuel (exchangeV3 w p m1 m2).
Proof. unfold exchangeV3. no_fuel. Qed.
#[export] Instance nofuel_checkPriceErrorBound p w s b : NoFuel (checkPriceErrorBound p w s b).
Proof. unfold checkPriceErrorBound. no_fuel. Qed.
#[export] Instance nofuel_calculateOfferValue n d s r : NoFuel (calculateOfferValue n d s r).
Proof. unfold calculateOfferValue. no_fuel. Qed.
#[export] Instance nofuel_exchangeV10WithoutPriceErrorThresholds p a b c d path : NoFuel (exchangeV10WithoutPriceErrorThresholds p a b c d path).
Proof. unfold exchangeV10WithoutPriceErrorThresholds. no_fuel. Qed.
#[export] Instance nofuel_applyPriceErrorThresholds p w s b path : NoFuel (applyPriceErrorThresholds p w s b path).
Proof. unfold applyPriceErrorThresholds. no_fuel. Qed.
#[export] Instance nofuel_exchangeV10 p a b c d path : NoFuel (exchangeV10 p a b c d path).
Proof. unfold exchangeV10. no_fuel. Qed.
#[export] Instance nofuel_adjustOffer p a b : NoFuel (adjustOffer p a b).
Proof. unfold adjustOffer. no_fuel. Qed.
#[export] Instance nofuel_getBuyingLiabilities h e : NoFuel (getBuyingLiabilities h e).
Proof. unfold getBuyingLiabilities. no_fuel. Qed.
#[export] Instance nofuel_getSellingLiabilities h e : NoFuel (getSellingLiabilities h e).
Proof. unfold getSellingLiabilities. no_fuel. Qed.
#[export] Instance nofuel_isAuthorized e : NoFuel (isAuthorized e).
Proof. unfold isAuthorized. no_fuel. Qed.
#[export] Instance nofuel_isAuthRequired e : NoFuel (isAuthRequired e).
Proof. unfold isAuthRequired. no_fuel. Qed.
#[export] Instance nofuel_isImmutableAuth e : NoFuel (isImmutableAuth e).
Proof. unfold isImmutableAuth. no_fuel. Qed.
#[export] Instance nofuel_getAvailableBalance h e : NoFuel (getAvailableBalance h e).
Proof. unfold getAvailableBalance. no_fuel. Qed.
#[export] Instance nofuel_getMaxAmountReceive h e : NoFuel (getMaxAmountReceive h e).
Proof. unfold getMaxAmountReceive. no_fuel. Qed.
#[export] Instance nofuel_getMinimumLimit h e : NoFuel (getMinimumLimit h e).
Proof. unfold getMinimumLimit. no_fuel. Qed.
#[export] Instance nofuel_getOfferBuyingLiabilities h e : NoFuel (getOfferBuyingLiabilities h e).
Proof. unfold getOfferBuyingLiabilities. no_fuel. Qed.
#[export] Instance nofuel_getOfferSellingLiabilities h e : NoFuel (getOfferSellingLiabilities h e).
Proof. unfold getOfferSellingLiabilities. no_fuel. Qed.
#[export] Instance nofuel_addBalance_i64 b d m : NoFuel (addBalance_i64 b d m).
Proof. unfold addBalance_i64. no_fuel. Qed.
#[export] Instance nofuel_addBalance h e d : NoFuel (addBalance h e d).
Proof. unfold addBalance. no_fuel. Qed.
#[export] Instance nofuel_addBuyingLiabilities h e d : NoFuel (addBuyingLiabilities h e d).
Proof. unfold addBuyingLiabilities. no_fuel. Qed.
#[export] Instance nofuel_addSellingLiabilities h e d : NoFuel (addSellingLiabilities h e d).
Proof. unfold addSellingLiabilities. no_fuel. Qed.
#[export] Instance nofuel_addNumEntries h e c : NoFuel (addNumEntries h e c).
Proof. unfold addNumEntries. no_fuel. Qed.
#[export] Instance nofuel_setAuthorized e b : NoFuel (setAuthorized e b).
Proof. unfold setAuthorized. no_fuel. Qed.
#[export] Instance nofuel_normalizeSigners e : NoFuel (normalizeSigners e).
Proof. unfold normalizeSigners. no_fuel. Qed.

End Pure.

(** ** Computations over the ledger *)

(** the assets of an offer *)
Definition pair_of (e : LedgerEntry) : option (Asset * Asset) :=
  match le_data e with OFFER o => Some (oe_buying o, oe_selling o) | _ => None end.

(** nothing has been created, and no offer has changed its assets *)
Definition narrower (s s' : LState) : Prop :=
  forall k e', st_entries s' !! k = Some e' ->
    exists e, st_entries s !! k = Some e /\ pair_of e = pair_of e'.

Lemma same_narrower s s' : same s s' -> narrower s s'.
Proof. intros [_ E] k e'. rewrite E. eauto. Qed.
Lemma narrower_trans s1 s2 s3 : narrower s1 s2 -> narrower s2 s3 -> narrower s1 s3.
Proof. intros H1 H2 k e3 (e2 & (e1 & E1 & P1)%H1 & P2)%H2. exists e1. split; [done|congruence]. Qed.
Lemma narrower_gone k s s' : narrower s s' -> st_entries s !! k = None -> st_entries s' !! k = None.
Proof. intros H E. destruct (st_entries s' !! k) eqn:E'; [|done]. apply H in E' as (e & E1 & _). congruence. Qed.

(** what may happen between two states: at least anything that is narrower *)
Class Loose (R : LState -> LState -> Prop) : Prop := {
  loose_narrower : forall s s', narrower s s' -> R s s';
  loose_trans : forall s1 s2 s3, R s1 s2 -> R s2 s3 -> R s1 s3
}.
#[export] Instance narrower_loose : Loose narrower.
Proof. split; [done|apply narrower_trans]. Qed.

Definition any (s s' : LState) : Prop := True.
#[export] Instance any_loose : Loose any.
Proof. by split. Qed.

(** from a ledger whose entries have their keys, the computation raises an
    exception of the program or returns in such a ledger *)
Class Within (R : LState -> LState -> Prop) {A} (m : ltm A) : Prop :=
  within : forall s, keys_ok (st_entries s) ->
    match m s with Ok (_, s') => keys_ok (st_entries s') /\ R s s' | Throw e => e <> OutOfFuel end.
#[export] Hint Mode Within - ! ! : typeclass_instances.

(** a function on entries that keeps the key and the assets *)
Class Preserves {A} (f : LedgerEntry -> res (A * LedgerEntry)) : Prop := {
  preserves_ends : forall e, NoFuel (f e);
  preserves : forall e a e', f e = Ok (a, e') ->
    LedgerEntryKey e' = LedgerEntryKey e /\ pair_of e' = pair_of e
}.
#[export] Hint Mode Preserves ! ! : typeclass_instances.

Section Within.
Context {R : LState -> LState -> Prop} {L : Loose R}.

Lemma loose_refl s : R s s.
Proof. apply loose_narrower, same_narrower, same_refl. Qed.

Lemma within_ok {A} (m : ltm A) :
  (forall s, keys_ok (st_entries s) -> m s <> Throw OutOfFuel) ->
  (forall s a s', keys_ok (st_entries s) -> m s = Ok (a, s') -> keys_ok (st_entries s') /\ R s s') ->
  Within R m.
Proof. intros H1 H2 s K. destruct (m s) as [[a s']|e] eqn:E; [by eapply H2|]. intros ->. by eapply H1. Qed.

#[export] Instance within_ret {A} (a : A) : Within R (mret a).
Proof. intros s K. split; [done|apply loose_refl]. Qed.
#[export] Instance within_bind {A B} (m : ltm A) (f : A -> ltm B) :
  Within R m -> (forall a, Within R (f a)) -> Within R (m ≫= f).
Proof.
  intros Hm Hf s K. specialize (Hm s K). unfold mbind, ltm_bind. destruct (m s) as [[a s1]|e]; [|done].
  destruct Hm as [K1 R1]. specialize (Hf a s1 K1). destruct (f a s1) as [[b s2]|e]; [|done].
  destruct Hf as [K2 R2]. split; [done|by eapply loose_trans].
Qed.
#[export] Instance within_lift {A} (r : res A) : NoFuel r -> Within R (lift r).
Proof. intros H s K. unfold lift. destruct r; [split; [done|apply loose_refl]|]. intros ->. by apply H. Qed.
#[export] Instance within_throw_msg {A} m : Within R (@throw_msg A m).
Proof. by intros s K. Qed.
#[export] Instance within_assert b : Within R (assert_m b).
Proof. apply within_lift, nofuel_assert. Qed.

(** a computation that only reads and does not run out of fuel *)
Lemma within_quiet {A} (m : ltm A) : Quiet m -> (forall s, m s <> Throw OutOfFuel) -> Within R m.
Proof.
  intros Hq H. apply within_ok; [auto|]. intros s a s' K E. pose proof (Hq _ _ _ E) as S.
  split; [by rewrite (same_entries _ _ S)|by apply loose_narrower, same_narrower].
Qed.

#[export] Instance within_gets {A} (f : LState -> A) : Within R (gets f).
Proof. by apply within_quiet; [apply _|]. Qed.
#[export] Instance within_header : Within R ltx_loadHeader.
Proof. apply within_gets. Qed.
#[export] Instance within_load k : Within R (ltx_load k).
Proof. apply within_quiet; [apply _|]. intros s. unfold ltx_load. by destruct (_ !! _). Qed.
#[export] Instance within_loadWR k : Within R (ltx_loadWithoutRecord k).
Proof. by apply within_quiet; [apply _|]. Qed.
#[export] Instance within_current k : Within R (ltx_current k).
Proof. apply within_quiet; [apply _|]. intros s. unfold ltx_current. by destruct (_ !! _). Qed.
#[export] Instance within_active h : Within R (active h).
Proof. apply within_quiet; [apply _|]. by destruct h. Qed.
#[export] Instance within_loadBest b sl : Within R (ltx_loadBestOffer b sl).
Proof.
  apply within_quiet; [apply _|]. intros s. unfold ltx_loadBestOffer, ltx_load.
  by destruct (sorted_offers _ _ _); [|destruct (_ !! _)].
Qed.
#[export] Instance within_loadOffers a x : Within R (ltx_loadOffersByAccountAndAsset a x).
Proof. apply within_quiet; [apply _|]. intros s. unfold ltx_loadOffersByAccountAndAsset. by destruct (is_native x). Qed.

Lemma keys_insert m k e : keys_ok m -> LedgerEntryKey e = k -> keys_ok (<[k := e]> m).
Proof. intros K H k' e'. rewrite lookup_insert_Some. intros [[<- <-]|[_ E]]; [done|by apply K]. Qed.

#[export] Instance within_update {A} k (f : LedgerEntry -> res (A * LedgerEntry)) :
  Preserves f -> Within R (ltx_update k f).
Proof.
  intros [P1 P2]. apply within_ok.
  - intros s K. unfold ltx_update, mbind, ltm_bind, ltx_current, lift, ltx_set_current.
    destruct (st_entries s !! k) as [e|] eqn:E; [|done]. pose proof (P1 e) as H.
    destruct (f e) as [[a e']|]; [by rewrite E|]. intros [= ->]. by apply H.
  - intros s a s' K (e & e' & E & [Hk Hp]%P2 & Es & _)%ltx_update_ok. rewrite Es. split.
    + apply keys_insert; [done|]. rewrite Hk. by apply K.
    + apply loose_narrower. intros k' x. rewrite Es, lookup_insert_Some. intros [[<- <-]|[_ Ex]]; eauto.
Qed.

#[export] Instance within_erase k : Within R (ltx_erase k).
Proof.
  intros s K. unfold ltx_erase. destruct (st_entries s !! k) as [e|] eqn:E; [|done].
  destruct (unshare_same k (set_st_entries (delete k (st_entries s)) s)) as [_ Es]. rewrite Es. cbn. split.
  - intros k' x. rewrite lookup_delete_Some. intros [_ Ex]. by apply K.
  - apply loose_narrower. intros k' x. rewrite Es. cbn. rewrite lookup_delete_Some. intros [_ Ex]. eauto.
Qed.

#[export] Instance within_setHeader f : Within R (ltx_setHeader f).
Proof. intros s K. split; [done|]. apply loose_narrower. intros k e E. eauto. Qed.

#[export] Instance within_nested {A} (m : ltm (bool * A)) : Within R m -> Within R (nested m).
Proof.
  intros Hm s K. specialize (Hm (unshared s) K). unfold nested.
  destruct (m (unshared s)) as [[[b a] s1]|e]; [|done]. destruct Hm as [K1 R1].
  destruct b; cbn; (split; [done|]).
  - eapply (loose_trans _ (unshared s)); [by apply loose_narrower, same_narrower|].
    eapply (loose_trans _ s1); [done|]. by apply loose_narrower, same_narrower.
  - by apply loose_narrower, same_narrower.
Qed.

End Within.

(** creating an entry *)
#[export] Instance within_create e : Within any (ltx_create e).
Proof.
  intros s K. unfold ltx_create. destruct (st_entries s !! _); [done|]. split; [|done].
  destruct (unshare_same (LedgerEntryKey e) s) as [_ Es]. rewrite put_entries, Es. by apply keys_insert.
Qed.

#[export] Instance within_any {A} (m : ltm A) : Within narrower m -> Within any m | 50.
Proof. intros H s K. specialize (H s K). destruct (m s) as [[a s']|]; [|done]. by destruct H. Qed.

(** follow the code of a computation *)
Ltac walk :=
  cbv beta zeta;
  lazymatch goal with
  | |- Within _ (_ ≫= _) => apply within_bind; [walk|intros; walk]
  | |- Within _ (match ?x with _ => _ end) => destruct x; walk
  | |- Within _ (lift _) => apply within_lift; no_fuel
  | |- Within _ (nested _) => apply within_nested; walk
  | |- _ => apply _
  end.

(** ** Updates of an entry *)

Lemma preserves_data e d :
  match le_data e, d with
  | ACCOUNT a, ACCOUNT a' => acc_accountID a' = acc_accountID a
  | TRUSTLINE t, TRUSTLINE t' => tl_accountID t' = tl_accountID t /\ tl_asset t' = tl_asset t
  | OFFER o, OFFER o' => oe_sellerID o' = oe_sellerID o /\ oe_offerID o' = oe_offerID o /\
      oe_buying o' = oe_buying o /\ oe_selling o' = oe_selling o
  | DATA x, DATA x' => de_accountID x' = de_accountID x /\ de_dataName x' = de_dataName x
  | _, _ => False
  end ->
  LedgerEntryKey (set_le_data d e) = LedgerEntryKey e /\ pair_of (set_le_data d e) = pair_of e.
Proof.
  intros H. unfold LedgerEntryKey, pair_of. cbn. destruct (le_data e), d; try done.
  - by rewrite H.
  - by destruct H as [-> ->].
  - by destruct H as (-> & -> & -> & ->).
  - by destruct H as [-> ->].
Qed.

(** the entry is the same, or has other data under the same key *)
Ltac preserve H :=
  entry_cases H; injection H as <- <-;
  repeat match goal with
  | E : get_account _ = Ok _ |- _ => apply get_account_ok in E
  | E : get_trustLine _ = Ok _ |- _ => apply get_trustLine_ok in E
  | E : get_offer _ = Ok _ |- _ => apply get_offer_ok in E
  | E : get_data _ = Ok _ |- _ => apply get_data_ok in E
  end;
  first [by split|apply preserves_data; repeat match goal with E : le_data _ = _ |- _ => rewrite E end; by repeat split].

#[export] Instance preserves_addBalance h d : Preserves (fun e => addBalance h e d).
Proof. split; [apply _|]. intros e a e' H. unfold addBalance in H. preserve H. Qed.
#[export] Instance preserves_addBuying h d : Preserves (fun e => addBuyingLiabilities h e d).
Proof. split; [apply _|]. intros e a e' H. unfold addBuyingLiabilities in H. preserve H. Qed.
#[export] Instance preserves_addSelling h d : Preserves (fun e => addSellingLiabilities h e d).
Proof. split; [apply _|]. intros e a e' H. unfold addSellingLiabilities in H. preserve H. Qed.
#[export] Instance preserves_addNumEntries h d : Preserves (fun e => addNumEntries h e d).
Proof. split; [apply _|]. intros e a e' H. unfold addNumEntries in H. preserve H. Qed.
#[export] Instance preserves_setAuthorized b : Preserves (fun e => e' ← setAuthorized e b; Ok (tt, e')).
Proof. split; [intros e; no_fuel|]. intros e a e' H. apply bind_ok_inv in H as (e1 & H & [= <- <-]). unfold setAuthorized in H.
  apply bind_ok_inv in H as (t & Ht%get_trustLine_ok & [= <-]). by apply preserves_data; rewrite Ht. Qed.
#[export] Instance preserves_normalizeSigners : Preserves (fun e => e' ← normalizeSigners e; Ok (tt, e')).
Proof. split; [intros e; no_fuel|]. intros e a e' H. apply bind_ok_inv in H as (e1 & H & [= <- <-]). unfold normalizeSigners in H.
  apply bind_ok_inv in H as (t & Ht%get_account_ok & [= <-]). by apply preserves_data; rewrite Ht. Qed.
#[export] Instance preserves_setAmount x :
  Preserves (fun e => oe ← get_offer e; Ok (tt, set_le_data (OFFER (set_oe_amount x oe)) e)).
Proof. split; [intros e; no_fuel|]. intros e a e' H. preserve H. Qed.
#[export] Instance preserves_setLimit l :
  Preserves (fun e => tl ← get_trustLine e; Ok (tt, set_le_data (TRUSTLINE (set_tl_limit l tl)) e)).
Proof. split; [intros e; no_fuel|]. intros e a e' H. preserve H. Qed.
#[export] Instance preserves_setData v :
  Preserves (fun e => d ← get_data e; Ok (tt, set_le_data (DATA (set_de_dataValue v d)) e)).
Proof. split; [intros e; no_fuel|]. intros e a e' H. preserve H. Qed.

(** ** The code, bottom up *)

Section Code.
Context {R : LState -> LState -> Prop} {L : Loose R} {U : UInt128} {K : StrKeyOrder}.

#[export] Instance within_winners n m : Within R (ltx_queryInflationWinners n m).
Proof. apply within_gets. Qed.
#[export] Instance within_loadAccount a : Within R (loadAccount a).
Proof. unfold loadAccount. walk. Qed.
#[export] Instance within_loadAccountWithoutRecord a : Within R (loadAccountWithoutRecord a).
Proof. unfold loadAccountWithoutRecord. walk. Qed.
#[export] Instance within_loadData a n : Within R (loadData a n).
Proof. unfold loadData. walk. Qed.
#[export] Instance within_loadOffer a n : Within R (loadOffer a n).
Proof. unfold loadOffer. walk. Qed.
#[export] Instance within_makeTrustLine ld a x : (forall k, Within R (ld k)) -> Within R (makeTrustLine ld a x).
Proof. intros H. unfold makeTrustLine. walk. Qed.
#[export] Instance within_loadTrustLine a x : Within R (loadTrustLine a x).
Proof. unfold loadTrustLine. walk. Qed.
#[export] Instance within_loadTrustLineWithoutRecord a x : Within R (loadTrustLineWithoutRecord a x).
Proof. unfold loadTrustLineWithoutRecord. walk. Qed.
#[export] Instance within_loadTrustLineIfNotNative a x : Within R (loadTrustLineIfNotNative a x).
Proof. unfold loadTrustLineIfNotNative. walk. Qed.
#[export] Instance within_loadTrustLineWithoutRecordIfNotNative a x : Within R (loadTrustLineWithoutRecordIfNotNative a x).
Proof. unfold loadTrustLineWithoutRecordIfNotNative. walk. Qed.
#[export] Instance within_tlw_read {A} w (f : LedgerEntry -> res A) i : (forall e, NoFuel (f e)) -> Within R (tlw_read w f i).
Proof. intros H. unfold tlw_read. walk. Qed.
#[export] Instance within_tlw_update w f : Preserves f -> Within R (tlw_update w f).
Proof. intros H. unfold tlw_update. walk. Qed.
#[export] Instance within_tlw_getBalance w : Within R (tlw_getBalance w).
Proof. unfold tlw_getBalance. apply within_tlw_read. intros e. no_fuel. Qed.
#[export] Instance within_tlw_addBalance h w d : Within R (tlw_addBalance h w d).
Proof. unfold tlw_addBalance. walk. Qed.
#[export] Instance within_tlw_addBuyingLiabilities h w d : Within R (tlw_addBuyingLiabilities h w d).
Proof. unfold tlw_addBuyingLiabilities. walk. Qed.
#[export] Instance within_tlw_addSellingLiabilities h w d : Within R (tlw_addSellingLiabilities h w d).
Proof. unfold tlw_addSellingLiabilities. walk. Qed.
#[export] Instance within_tlw_isAuthorized w : Within R (tlw_isAuthorized w).
Proof. unfold tlw_isAuthorized. walk. Qed.
#[export] Instance within_tlw_getAvailableBalance h w : Within R (tlw_getAvailableBalance h w).
Proof. unfold tlw_getAvailableBalance. walk. Qed.
#[export] Instance within_tlw_getMaxAmountReceive h w : Within R (tlw_getMaxAmountReceive h w).
Proof. unfold tlw_getMaxAmountReceive. walk. Qed.
#[export] Instance within_loadAccountAndValidate a : Within R (loadAccountAndValidate a).
Proof. unfold loadAccountAndValidate. walk. Qed.
#[export] Instance within_loadTrustAndValidate a x : Within R (loadTrustAndValidate a x).
Proof. unfold loadTrustAndValidate. walk. Qed.
#[export] Instance within_acquireOrReleaseLiabilities h k b : Within R (acquireOrReleaseLiabilities h k b).
Proof. unfold acquireOrReleaseLiabilities. walk. Qed.
#[export] Instance within_acquireLiabilities h k : Within R (acquireLiabilities h k).
Proof. unfold acquireLiabilities. walk. Qed.
#[export] Instance within_releaseLiabilities h k : Within R (releaseLiabilities h k).
Proof. unfold releaseLiabilities. walk. Qed.
#[export] Instance within_offerOf k : Within R (offerOf k).
Proof. unfold offerOf. walk. Qed.
#[export] Instance within_setOfferAmount k x : Within R (setOfferAmount k x).
Proof. unfold setOfferAmount. walk. Qed.
#[export] Instance within_canSellAtMostBasedOnSheep h x w p : Within R (canSellAtMostBasedOnSheep h x w p).
Proof. unfold canSellAtMostBasedOnSheep. walk. Qed.
#[export] Instance within_canSellAtMost h a x w : Within R (canSellAtMost h a x w).
Proof. unfold canSellAtMost. walk. Qed.
#[export] Instance within_canBuyAtMost h a x w : Within R (canBuyAtMost h a x w).
Proof. unfold canBuyAtMost. walk. Qed.
#[export] Instance within_adjustOfferEntry h k a x1 w1 x2 w2 : Within R (adjustOfferEntry h k a x1 w1 x2 w2).
Proof. unfold adjustOfferEntry. walk. Qed.
#[export] Instance within_performExchange h k a w1 w2 m1 m2 : Within R (performExchange h k a w1 w2 m1 m2).
Proof. unfold performExchange. walk. Qed.
#[export] Instance within_payInNestedTxn a x d : Within R (payInNestedTxn a x d).
Proof. unfold payInNestedTxn. walk. Qed.
#[export] Instance within_crossOffer k m1 m2 t : Within R (crossOffer k m1 m2 t).
Proof. unfold crossOffer. walk. Qed.
#[export] Instance within_payOrThrow h a w x d m : Within R (payOrThrow h a w x d m).
Proof. unfold payOrThrow. walk. Qed.
#[export] Instance within_settleOffer a i r : Within R (settleOffer a i r).
Proof. unfold settleOffer. walk. Qed.
#[export] Instance within_crossOfferV10 k m1 m2 b t : Within R (crossOfferV10 k m1 m2 b t).
Proof. unfold crossOfferV10. walk. Qed.

End Code.

Lemma within_run {R A} (m : ltm A) s a s' :
  Within R m -> keys_ok (st_entries s) -> m s = Ok (a, s') -> keys_ok (st_entries s') /\ R s s'.
Proof. intros H K E. specialize (H s K). by rewrite E in H. Qed.

(** ** The book *)

Definition in_book (b sl : Asset) (kv : LedgerKey * LedgerEntry) : option LedgerKey :=
  if is_offer_key (fst kv) && matches b sl (snd kv) then Some (fst kv) else None.
Definition book_keys (b sl : Asset) (s : LState) : list LedgerKey := omap (in_book b sl) (map_to_list (st_entries s)).

Lemma book_length b sl s : length (sorted_offers (st_entries s) b sl) = length (book_keys b sl s).
Proof.
  unfold sorted_offers, book_keys, in_book. rewrite sort_offers_perm.
  induction (map_to_list (st_entries s)) as [|[k e] l IH]; cbn; [done|]. by destruct (_ && _); cbn; rewrite IH.
Qed.

Lemma elem_of_book_keys b sl s k :
  k ∈ book_keys b sl s <->
  exists e, st_entries s !! k = Some e /\ is_offer_key k = true /\ pair_of e = Some (b, sl).
Proof.
  unfold book_keys, in_book. rewrite list_elem_of_omap. split.
  - intros ([k' e] & Hk%elem_of_map_to_list & H). cbn in H. destruct (_ && _) eqn:E; [|done]. injection H as <-.
    apply andb_true_iff in E as [E1 E2]. exists e. split; [done|]. split; [done|]. unfold matches in E2. unfold pair_of.
    destruct (le_data e); try done. apply andb_true_iff in E2 as [->%bool_decide_eq_true ->%bool_decide_eq_true]. done.
  - intros (e & Hk & H1 & H2). exists (k, e). split; [by apply elem_of_map_to_list|]. cbn. rewrite H1.
    unfold matches. unfold pair_of in H2. destruct (le_data e); try done. injection H2 as <- <-.
    by rewrite !bool_decide_eq_true_2.
Qed.

Lemma book_keys_NoDup b sl s : NoDup (book_keys b sl s).
Proof.
  unfold book_keys. pose proof (NoDup_fst_map_to_list (st_entries s)) as H.
  induction (map_to_list (st_entries s)) as [|[k e] l IH]; cbn in *; [constructor|].
  apply NoDup_cons in H as [Hk Hl]. unfold in_book at 1. cbn. destruct (_ && _); [|by apply IH].
  constructor; [|by apply IH]. intros ([k' e'] & Hin & Hx)%list_elem_of_omap. unfold in_book in Hx. cbn in Hx.
  destruct (_ && _); [|done]. injection Hx as ->. apply Hk, list_elem_of_fmap. by exists (k, e').
Qed.

(** an offer of the pair that is gone makes the book shorter *)
Lemma book_shrinks b sl s s' k :
  narrower s s' -> k ∈ book_keys b sl s -> st_entries s' !! k = None ->
  (length (book_keys b sl s') < length (book_keys b sl s))%nat.
Proof.
  intros HN Hk Hg. enough (k :: book_keys b sl s' ⊆+ book_keys b sl s) as H by (apply submseteq_length in H; done).
  apply NoDup_submseteq.
  - constructor; [|apply book_keys_NoDup]. intros (e & He & _)%elem_of_book_keys. congruence.
  - intros x [->|Hx]%elem_of_cons; [done|]. apply elem_of_book_keys in Hx as (e' & He' & H1 & H2).
    apply elem_of_book_keys. apply HN in He' as (e & He & Hp). exists e. split; [done|]. split; [done|congruence].
Qed.

Section Convert.
Context {U : UInt128}.

Lemma offerOf_ok k o s s' :
  offerOf k s = Ok (o, s') -> s' = s /\ exists e, st_entries s !! k = Some e /\ le_data e = OFFER o.
Proof.
  intros E. unfold offerOf in E. apply ltm_bind_ok in E as (e & s1 & E1 & E2). apply lift_ok in E2 as [E2%get_offer_ok ->].
  unfold ltx_current in E1. destruct (st_entries s !! k) as [x|] eqn:Ek; [|done]. injection E1 as -> ->. eauto.
Qed.

Lemma erase_gone k s u s' : ltx_erase k s = Ok (u, s') -> st_entries s' !! k = None.
Proof.
  unfold ltx_erase. destruct (st_entries s !! k); [|done]. intros [= _ <-].
  destruct (unshare_same k (set_st_entries (delete k (st_entries s)) s)) as [_ ->]. cbn. apply lookup_delete_eq.
Qed.

(** a computation that erases [k] first *)
Lemma erase_then {A} k (m : ltm A) s a s' :
  Within narrower m -> keys_ok (st_entries s) -> (_ ← ltx_erase k; m) s = Ok (a, s') -> st_entries s' !! k = None.
Proof.
  intros Hm K E. apply ltm_bind_ok in E as (u & s1 & E1 & E2).
  destruct (within_run (R := narrower) _ _ _ _ (within_erase k) K E1) as [K1 _].
  apply erase_gone in E1. destruct (within_run _ _ _ _ Hm K1 E2) as [_ N]. by eapply narrower_gone.
Qed.

Lemma settle_gone a i s u s' :
  keys_ok (st_entries s) -> settleOffer a i eOfferTaken s = Ok (u, s') -> st_entries s' !! KeyOffer a i = None.
Proof.
  intros K E. unfold settleOffer in E. apply nested_ok in E as (b & s1 & E & Hb). do 4 inv_run.
  apply ltm_ret_ok in E as [[= -> ->] ->]. rewrite (same_entries _ _ Hb). rewrite bool_decide_eq_true_2 in H2 by done.
  assert (K2 : keys_ok (st_entries x4)).
  { apply (within_run (R := narrower)) in H as [K0 _]; [|apply _|done].
    apply (within_run (R := narrower)) in H0 as [K1 _]; [|apply _|done].
    by apply (within_run (R := narrower)) in H1 as [K2 _]; [|apply _|]. }
  apply ltx_load_handle in H0 as [-> | ->]; [|done]. injection H1 as <- <-.
  eapply erase_then; [|exact K2|exact H2]. walk.
Qed.

(** what holds at the end of a computation, whatever it starts from *)
Definition Final {A} (Q : A -> LState -> Prop) (m : ltm A) : Prop :=
  forall s a s', keys_ok (st_entries s) -> m s = Ok (a, s') -> Q a s'.

Lemma final_bind {A B} (Q : B -> LState -> Prop) (m : ltm A) (f : A -> ltm B) :
  Within narrower m -> (forall a, Final Q (f a)) -> Final Q (m ≫= f).
Proof.
  intros Hm Hf s b s' K (a & s1 & E1 & E2)%ltm_bind_ok.
  destruct (within_run _ _ _ _ Hm K E1) as [K1 _]. by eapply Hf.
Qed.

Ltac final := cbv beta zeta; apply final_bind; [walk|intros].

(** a crossed offer that is taken is not in the ledger any more *)
Lemma crossOfferV10_gone k m1 m2 b t s w sh st tr s' :
  keys_ok (st_entries s) -> crossOfferV10 k m1 m2 b t s = Ok ((eOfferTaken, w, sh, st, tr), s') ->
  st_entries s' !! k = None.
Proof.
  intros K E. unfold crossOfferV10 in E. do 4 inv_run. cbv zeta in E.
  apply offerOf_ok in H2 as (-> & e & Ek & Eo).
  apply assert_m_ok in H as [_ ->]. apply assert_m_ok in H0 as [_ ->]. apply ltx_loadHeader_ok in H1 as [-> ->].
  assert (Hk : k = KeyOffer (oe_sellerID x5) (oe_offerID x5)).
  { rewrite <- (K _ _ Ek). unfold LedgerEntryKey. by rewrite Eo. }
  set (taken := fun (r : CrossOfferResult * Z * Z * bool * list ClaimOfferAtom) (s' : LState) =>
    fst (fst (fst (fst r))) = eOfferTaken -> st_entries s' !! KeyOffer (oe_sellerID x5) (oe_offerID x5) = None).
  match type of E with ?M _ = _ => assert (F : Final taken M) end.
  { clear E. final. destruct a as [a|]; [|by intros ? ? ? ? ?]. do 13 final. intros s0 r s1 K0 E0 Hr. do 2 inv_run. cbn in Hr.
    rewrite Hr in *. by eapply settle_gone. }
  rewrite Hk. by apply (F _ _ _ K E).
Qed.

Lemma crossOffer_gone k m1 m2 t s w sh tr s' :
  keys_ok (st_entries s) -> crossOffer k m1 m2 t s = Ok ((eOfferTaken, w, sh, tr), s') ->
  st_entries s' !! k = None.
Proof.
  intros K E. unfold crossOffer in E. do 3 inv_run. cbv zeta in E.
  apply assert_m_ok in H as [_ ->]. apply assert_m_ok in H0 as [_ ->]. apply offerOf_ok in H1 as (-> & _).
  set (taken := fun (r : CrossOfferResult * Z * Z * list ClaimOfferAtom) (s' : LState) =>
    fst (fst (fst r)) = eOfferTaken -> st_entries s' !! k = None).
  match type of E with ?M _ = _ => assert (F : Final taken M) end.
  { clear E. final. destruct a as [a|]; [|by intros ? ? ? ? ?]. do 4 final. destruct a3 as [[[er nw] ns] na].
    assert (Fe : Final taken (_ ← (if na =? 0 then
                 _ ← ltx_erase k;
                 accountB ← loadAccount (oe_sellerID x3);
                 k ← active accountB;
                 _ ← ltx_update k (fun e => addNumEntries a2 e (-1));
                 mret tt
               else setOfferAmount k na);
          ok1 ← (if negb (ns =? 0)
                 then payInNestedTxn (oe_sellerID x3) (oe_buying x3) ns else mret true);
          if negb ok1 then mret (eOfferCantConvert, nw, ns, t)
          else
            ok2 ← (if negb (nw =? 0)
                   then payInNestedTxn (oe_sellerID x3) (oe_selling x3) (i64 (- nw)) else mret true);
            if negb ok2 then mret (eOfferCantConvert, nw, ns, t)
            else
              mret (if na =? 0 then eOfferTaken else eOfferPartial,
                    nw, ns,
                    t ++ [mkClaimOfferAtom (oe_sellerID x3) (oe_offerID x3) (oe_selling x3) nw
                                     (oe_buying x3) ns]))).
    { intros s0 r s1 K0 E0 Hr. apply ltm_bind_ok in E0 as (u & s2 & E1 & E2).
      destruct (na =? 0) eqn:En.
      - pose proof E1 as [K2 _]%(within_run (R := narrower)); [|walk|done].
        eapply erase_then in E1; [|walk|done]. eapply narrower_gone; [|exact E1].
        eapply (within_run (R := narrower)) in E2 as [_ N]; [exact N|walk|done].
      - do 2 (inv_run; destruct (negb _) in E2; [inv_run; done|]). by inv_run. }
    destruct er; [exact Fe| |exact Fe]. intros s0 r s1 K0 E0 Hr. inv_run. done. }
  by apply (F _ _ _ K E).
Qed.

Section Loop.
Context {T : Type} (filter : option (LedgerEntry -> T -> res (OfferFilterResult * T))).
Hypothesis filter_ends : forall f e x, filter = Some f -> NoFuel (f e x).

#[export] Instance within_callFilter {R} {L : Loose R} k x : Within R (callFilter filter k x).
Proof.
  unfold callFilter. destruct filter as [f|]; [|apply _]. apply within_bind; [apply _|]. intros e.
  apply within_lift. by apply filter_ends.
Qed.

#[export] Instance within_convertRound {R} {L : Loose R} sheep wheat path c :
  Within R (convertRound sheep wheat path filter c).
Proof. unfold convertRound. walk. Qed.

(** a round that goes on has taken an offer from the book *)
Lemma round_next sheep wheat path c b c' s s' :
  keys_ok (st_entries s) -> convertRound sheep wheat path filter c s = Ok ((b, RoundNext c'), s') ->
  b = true /\ (length (book_keys sheep wheat s') < length (book_keys sheep wheat s))%nat.
Proof.
  intros K E. pose proof (within_run (R := narrower) _ _ _ _ _ K E) as [K' N].
  unfold convertRound in E. inv_run. unfold ltx_loadBestOffer in H.
  destruct (sorted_offers _ _ _) as [|e l] eqn:El; [injection H as <- <-; inv_run; done|].
  destruct (elem_of_book (st_entries s) sheep wheat e) as (k & o & Hk & Ho & Hb & Hs); [rewrite El; by left|].
  pose proof (K _ _ Hk) as Hke. rewrite Hke in H. unfold ltx_load in H. rewrite Hk in H. injection H as <- <-.
  assert (Hin : k ∈ book_keys sheep wheat s).
  { apply elem_of_book_keys. exists e. split; [done|]. unfold pair_of. rewrite Ho, Hb, Hs.
    split; [|done]. rewrite <- Hke. unfold LedgerEntryKey. by rewrite Ho. }
  assert (K1 : keys_ok (st_entries (unshare k s))) by (by rewrite (same_entries _ _ (unshare_same k s))).
  apply ltm_bind_ok in E as ([f y] & s2 & E2 & E). cbv zeta in E.
  pose proof (within_run (R := narrower) _ _ _ _ _ K1 E2) as [K2 _].
  destruct f; [|inv_run; done]. apply ltm_bind_ok in E as (h & s3 & [-> ->]%ltx_loadHeader_ok & E).
  apply ltm_bind_ok in E as ([[[[cor w] sh] more] tr] & s4 & E4 & E).
  do 4 (apply ltm_bind_ok in E as ([] & ? & [_ ->]%assert_m_ok & E)).
  case_bool_decide as Hc; [inv_run; done|]. apply ltm_ret_ok in E as [[= <- Er] <-]. split; [done|].
  apply book_shrinks with k; [done|done|].
  assert (cor = eOfferTaken) as ->.
  { destruct (negb _); [done|]. destruct cor; [|done|done]. by rewrite bool_decide_eq_true_2 in Er by done. }
  destruct (_ >=? 10) in E4.
  - apply ltm_bind_ok in E4 as ([[[[cor w'] sh'] st] tr'] & s5 & E4 & [[= <- <- <- _ <-] ->]%ltm_ret_ok).
    by eapply crossOfferV10_gone.
  - apply ltm_bind_ok in E4 as ([[[cor w'] sh'] tr'] & s5 & E4 & [[= <- <- <- _ <-] ->]%ltm_ret_ok).
    by eapply crossOffer_gone.
Qed.

Lemma convertLoop_ends {R} {L : Loose R} fuel sheep wheat path c s :
  keys_ok (st_entries s) -> (length (book_keys sheep wheat s) < fuel)%nat ->
  match convertLoop fuel sheep wheat path filter c s with
  | Ok (_, s') => keys_ok (st_entries s') /\ R s s'
  | Throw e => e <> OutOfFuel
  end.
Proof.
  revert c s. induction fuel as [|fuel IH]; intros c s K Hf; [lia|]. cbn [convertLoop].
  unfold mbind at 1, ltm_bind at 1.
  pose proof (within (R := R) (m := nested (convertRound sheep wheat path filter c)) s K) as Hw.
  destruct (nested _ s) as [[r s1]|e] eqn:E; [|done]. destruct Hw as [K1 R1].
  destruct r as [c'|r c'|c'].
  - split; [done|done].
  - split; [done|done].
  - apply nested_ok in E as (b & s2 & E & Hb). apply round_next in E as [-> Hl]; [|done].
    assert (He : book_keys sheep wheat s1 = book_keys sheep wheat s2) by (unfold book_keys; by rewrite (same_entries _ _ Hb)).
    specialize (IH c' s1 K1). rewrite He in IH. specialize (IH ltac:(unfold book_keys in *; cbn in Hl; lia)).
    destruct (convertLoop _ _ _ _ _ _ _) as [[x s3]|e]; [|done]. destruct IH as [K3 R3].
    split; [done|by eapply loose_trans].
Qed.

#[export] Instance within_convertWithOffers {R} {L : Loose R} sheep m1 wheat m2 path x t :
  Within R (convertWithOffers sheep m1 wheat m2 path filter x t).
Proof.
  unfold convertWithOffers. destruct (_ && _); [|apply _]. intros s K.
  unfold gets, mbind, ltm_bind. apply convertLoop_ends; [done|]. rewrite book_length. lia.
Qed.

End Loop.
End Convert.

(** ** Operations *)

#[export] Instance within_setCached {R} {L : Loose R} e : Within R (setCached e).
Proof. intros s Ks. split; [done|]. by apply loose_narrower, same_narrower. Qed.
#[export] Instance within_readEntry {R} {L : Loose R} {A} h (f : LedgerEntry -> res A) :
  (forall e, NoFuel (f e)) -> Within R (readEntry h f).
Proof. intros H. unfold readEntry. walk. Qed.
#[export] Instance within_updateEntry {R} {L : Loose R} {A} h (f : LedgerEntry -> res (A * LedgerEntry)) :
  Preserves f -> Within R (updateEntry h f).
Proof. intros H. unfold updateEntry. walk. Qed.
#[export] Instance within_fail {R} {L : Loose R} {A} (r : A) : Within R (fail r).
Proof. apply within_ret. Qed.
#[export] Instance within_success {R} {L : Loose R} {A} (r : A) : Within R (success r).
Proof. apply within_ret. Qed.
Lemma within_modifyAccount {R} {L : Loose R} h f :
  (forall a, acc_accountID (f a) = acc_accountID a) -> Within R (modifyAccount h f).
Proof.
  intros Hf. apply within_updateEntry. split; [intros e; no_fuel|].
  intros e a e' (acc & Ha%get_account_ok & [= <- <-])%bind_ok_inv. apply preserves_data. by rewrite Ha.
Qed.
#[export] Hint Extern 2 (Within _ (modifyAccount _ _)) =>
  apply within_modifyAccount; intros; reflexivity : typeclass_instances.

Section Operations.
Context {U : UInt128} {K : StrKeyOrder}.

Lemma within_any_from {A} (m : ltm A) s s0 :
  Within any m -> keys_ok (st_entries s) ->
  match m s with Ok (_, s') => keys_ok (st_entries s') /\ any s0 s' | Throw e => e <> OutOfFuel end.
Proof. intros H Ks. specialize (H s Ks). by destruct (m s) as [[a s']|]. Qed.

(** the cached account of old versions has the key that it is stored under *)
#[export] Instance within_tx_loadAccount a : Within any (tx_loadAccount a).
Proof.
  unfold tx_loadAccount. apply within_bind; [apply _|]. intros h. apply within_bind; [apply _|]. intros c.
  intros s Ks. unfold mbind at 1, ltm_bind at 1.
  assert (Hn : match loadAccount a s with Ok (_, s') => keys_ok (st_entries s') /\ any s s' | Throw e => e <> OutOfFuel end)
    by (by apply within).
  destruct (ledgerVersion h <? 8); [|exact Hn]. destruct c as [e|]; [|exact Hn].
  unfold mbind at 1, ltm_bind at 1, lift at 1. pose proof (nofuel_get_account e) as He.
  destruct (get_account e) as [acc|x] eqn:Ea; [|intros ->; by apply He].
  cbn [mret ltm_ret]. unfold mret at 1, ltm_ret at 1. destruct (acc_accountID acc =? a) eqn:E; [|exact Hn].
  apply Z.eqb_eq in E. apply get_account_ok in Ea.
  assert (Hk : LedgerEntryKey e = KeyAccount a) by (unfold LedgerEntryKey; by rewrite Ea, E).
  destruct (st_entries s !! KeyAccount a) as [x|] eqn:Ex.
  - assert (El : loadAccount a s = Ok (Some (KeyAccount a), unshare (KeyAccount a) s)).
    { unfold loadAccount, ltx_load. by rewrite Ex. }
    rewrite (ltm_bind_run _ _ _ _ _ El). pose proof (unshare_same (KeyAccount a) s) as [_ Hs].
    rewrite (ltm_bind_run _ _ _ (KeyAccount a) (put (KeyAccount a) e (unshare (KeyAccount a) s))).
    2: { unfold ltx_set_current, mbind, ltm_bind. by rewrite Hs, Ex. }
    apply within_any_from; [unfold rememberAccount; walk|]. rewrite put_entries, Hs. by apply keys_insert.
  - assert (El : loadAccount a s = Ok (None, s)) by (unfold loadAccount, ltx_load; by rewrite Ex).
    rewrite (ltm_bind_run _ _ _ _ _ El). apply within_any_from; [|done]. unfold rememberAccount. walk.
Qed.
#[export] Instance within_tx_loadSource a : Within any (tx_loadSourceAccount a).
Proof. unfold tx_loadSourceAccount, rememberAccount, forgetAccount. walk. Qed.
#[export] Instance within_op_loadSource a : Within any (op_loadSourceAccount a).
Proof. apply within_tx_loadAccount. Qed.

#[export] Instance within_createAccount_doApply src op : Within any (createAccount_doApply src op).
Proof. unfold createAccount_doApply. walk. Qed.
#[export] Instance within_setThreshold h i v : Within any (setThreshold h i v).
Proof. unfold setThreshold. walk. Qed.
#[export] Instance within_deleteSigner h a k kept rest : Within any (deleteSigner h a k kept rest).
Proof. revert kept. induction rest as [|x rest IH]; intros kept; cbn [deleteSigner]; walk. Qed.
#[export] Instance within_applySigner h a x : Within any (applySigner h a x).
Proof. unfold applySigner. walk. Qed.
#[export] Instance within_changeFlags h f g : Within any (changeFlags h f g).
Proof. unfold changeFlags. walk. Qed.
#[export] Instance within_setOptions_change src op h a : Within any (setOptions_change src op h a).
Proof. unfold setOptions_change. walk. Qed.
#[export] Instance within_setOptions_doApply src op : Within any (setOptions_doApply src op).
Proof. unfold setOptions_doApply. walk. Qed.
#[export] Instance within_changeTrust_doApply src op : Within any (changeTrust_doApply src op).
Proof. unfold changeTrust_doApply. walk. Qed.
#[export] Instance within_removeOffers h a x l : Within any (removeOffers h a x l).
Proof. induction l as [|o l IH]; cbn [removeOffers]; walk. Qed.
#[export] Instance within_allowTrust_doApply src op : Within any (allowTrust_doApply src op).
Proof. unfold allowTrust_doApply. walk. Qed.
#[export] Instance within_staleBalance v a : Within any (staleBalance v a).
Proof. unfold staleBalance. walk. Qed.
#[export] Instance within_merge_doApply src d : Within any (merge_doApply src d).
Proof. unfold merge_doApply. walk. Qed.
#[export] Instance within_payWinner w a t st : Within any (payWinner w a t st).
Proof. unfold payWinner. walk. Qed.
#[export] Instance within_payWinners l a t st : Within any (payWinners l a t st).
Proof. revert st. induction l as [|w l IH]; intros st; cbn [payWinners]; walk. Qed.
#[export] Instance within_inflation_doApply  : Within any (inflation_doApply ).
Proof. unfold inflation_doApply. walk. Qed.
#[export] Instance within_manageData_doApply src op : Within any (manageData_doApply src op).
Proof. unfold manageData_doApply. walk. Qed.
#[export] Instance within_bumpSequence_doApply src op : Within any (bumpSequence_doApply src op).
Proof. unfold bumpSequence_doApply. walk. Qed.
#[export] Instance within_issuerMissing x : Within any (issuerMissing x).
Proof. unfold issuerMissing. walk. Qed.
#[export] Instance within_payDestination a x d b : Within any (payDestination a x d b).
Proof. unfold payDestination. walk. Qed.

Lemma pathFilter_ends src f e (x : PathPaymentResult) : Some (pathFilter src) = Some f -> NoFuel (f e x).
Proof. intros [= <-]. unfold pathFilter. no_fuel. Qed.
Lemma manageFilter_ends src i p m f e (x : ManageOfferResult) : Some (manageFilter src i p m) = Some f -> NoFuel (f e x).
Proof. intros [= <-]. unfold manageFilter. no_fuel. Qed.
#[export] Instance within_convertPath src a m1 b m2 x t :
  Within any (convertWithOffers a m1 b m2 true (Some (pathFilter src)) x t).
Proof. apply within_convertWithOffers; [|apply _]. intros f e y. apply pathFilter_ends. Qed.
#[export] Instance within_convertManage src i p mp a m1 b m2 x t :
  Within any (convertWithOffers a m1 b m2 false (Some (manageFilter src i p mp)) x t).
Proof. apply within_convertWithOffers; [|apply _]. intros f e y. apply manageFilter_ends. Qed.

#[export] Instance nofuel_addOffers t r : NoFuel (addOffers t r).
Proof. unfold addOffers. no_fuel. Qed.
#[export] Instance nofuel_payment_code r : NoFuel (payment_code r).
Proof. unfold payment_code. no_fuel. Qed.
#[export] Instance within_walkPath src path b d r : Within any (walkPath src path b d r).
Proof. revert b d r. induction path as [|a path IH]; intros b d r; cbn [walkPath]; walk. Qed.
#[export] Instance within_paySource a x d b e : Within any (paySource a x d b e).
Proof. unfold paySource. walk. Qed.
#[export] Instance within_pathPayment_doApply src op : Within any (pathPayment_doApply src op).
Proof. unfold pathPayment_doApply. walk. Qed.
#[export] Instance within_payment_doApply src op : Within any (payment_doApply src op).
Proof. unfold payment_doApply. walk. Qed.
#[export] Instance within_checkSheepLine a x : Within any (checkSheepLine a x).
Proof. unfold checkSheepLine. walk. Qed.
#[export] Instance within_checkWheatLine a x : Within any (checkWheatLine a x).
Proof. unfold checkWheatLine. walk. Qed.
#[export] Instance within_checkOfferValid a op : Within any (checkOfferValid a op).
Proof. unfold checkOfferValid. walk. Qed.
#[export] Instance within_computeOfferExchangeParameters a e b : Within any (computeOfferExchangeParameters a e b).
Proof. unfold computeOfferExchangeParameters. walk. Qed.
#[export] Instance within_settleSource h a x d m : Within any (settleSource h a x d m).
Proof. unfold settleSource. walk. Qed.
#[export] Instance within_remainingAmount h a o b : Within any (remainingAmount h a o b).
Proof. unfold remainingAmount. walk. Qed.
#[export] Instance within_exchangeWithBook a o p b r : Within any (exchangeWithBook a o p b r).
Proof. unfold exchangeWithBook. walk. Qed.
#[export] Instance within_storeOffer a o b l : Within any (storeOffer a o b l).
Proof. unfold storeOffer. walk. Qed.
#[export] Instance within_takeOldOffer a op : Within any (takeOldOffer a op).
Proof. unfold takeOldOffer. walk. Qed.
#[export] Instance within_manageOffer_body a op p : Within any (manageOffer_body a op p).
Proof. unfold manageOffer_body. walk. Qed.
#[export] Instance within_manageOffer_doApply a op p : Within any (manageOffer_doApply a op p).
Proof. unfold manageOffer_doApply. walk. Qed.
#[export] Instance within_with_inner {A} (f : A -> InnerResult) m : Within any m -> Within any (with_inner f m).
Proof. intros H. unfold with_inner. walk. Qed.
#[export] Instance within_doApply src b : Within any (doApply src b).
Proof. unfold doApply. walk. Qed.

End Operations.

(** ** Transactions *)

#[export] Instance nofuel_setOpResult i r fr : NoFuel (setOpResult i r fr).
Proof. unfold setOpResult. no_fuel. Qed.
#[export] Instance nofuel_getOpResult i fr : NoFuel (getOpResult i fr).
Proof. unfold getOpResult. no_fuel. Qed.
#[export] Instance nofuel_fr_results fr : NoFuel (fr_results fr).
Proof. unfold fr_results. no_fuel. Qed.
#[export] Instance nofuel_markResultFailed fr : NoFuel (markResultFailed fr).
Proof. unfold markResultFailed. no_fuel. Qed.

(** the checks of the enabled invariants come to an end *)
Definition checks_end (im : InvariantManager) : Prop :=
  forall i o r d, i ∈ mEnabled im -> NoFuel (inv_checkOnOperationApply i o r d).

Lemma checkEnabled_enabled l o r d im im' : checkEnabled l o r d im = Ok im' -> mEnabled im' = mEnabled im.
Proof.
  revert im. induction l as [|i l IH]; intros im E; cbn in E; [by injection E as <-|].
  apply bind_ok_inv in E as (v & _ & E). apply bind_ok_inv in E as (im1 & E1 & E). rewrite (IH _ E).
  destruct v; [|by injection E1 as <-]. unfold onInvariantFailure in E1. by apply bind_ok_inv in E1 as (u & _ & [= <-]).
Qed.
Lemma checks_enabled o r d im im' : checkOnOperationApply o r d im = Ok im' -> mEnabled im' = mEnabled im.
Proof.
  unfold checkOnOperationApply. destruct (_ <? 8); [by intros [= <-]|apply checkEnabled_enabled].
Qed.

Lemma checkEnabled_ends l o r d im :
  (forall i, i ∈ l -> NoFuel (inv_checkOnOperationApply i o r d)) -> NoFuel (checkEnabled l o r d im).
Proof.
  revert im. induction l as [|i l IH]; intros im H; cbn [checkEnabled]; [apply _|].
  apply nofuel_bind; [apply H; by left|]. intros v. apply nofuel_bind.
  - destruct v; [|apply _]. unfold onInvariantFailure, handleInvariantFailure. no_fuel.
  - intros im'. apply IH. intros j Hj. apply H. by right.
Qed.
Lemma checks_nofuel o r d im : checks_end im -> NoFuel (checkOnOperationApply o r d im).
Proof.
  intros H. unfold checkOnOperationApply. destruct (_ <? 8); [apply _|].
  apply checkEnabled_ends. intros i Hi. by apply H.
Qed.

(** both invariants of the manager do *)
Lemma foldl_nofuel {A B} (f : A -> B -> res A) l r :
  NoFuel r -> (forall a b, NoFuel (f a b)) -> NoFuel (foldl (fun acc b => a ← acc; f a b) r l).
Proof.
  intros Hr Hf. revert r Hr. induction l as [|b l IH]; intros r Hr; [done|]. cbn [foldl]. apply IH.
  by apply nofuel_bind.
Qed.
#[export] Instance nofuel_deltaBalance c p : NoFuel (calculateDeltaBalance c p).
Proof. unfold calculateDeltaBalance. destruct c, p; no_fuel. Qed.
#[export] Instance nofuel_lumens r d : NoFuel (lumens_checkOnOperationApply r d).
Proof.
  unfold lumens_checkOnOperationApply, sumDeltas. destruct (delta_header d).
  apply nofuel_bind; [apply foldl_nofuel; intros; no_fuel|intros; no_fuel].
Qed.
#[export] Instance nofuel_countOf f e : NoFuel (countOf f e).
Proof. unfold countOf. no_fuel. Qed.
#[export] Instance nofuel_subEntries d : NoFuel (subEntries_checkOnOperationApply d).
Proof.
  unfold subEntries_checkOnOperationApply, collectChanges. apply nofuel_bind.
  - apply foldl_nofuel; [apply _|]. intros m [k [c p]]. unfold updateChangedSubEntriesCount. no_fuel.
  - intros changes. destruct (firstMismatch _); [apply _|].
    induction (map_to_list (delta_entry d)) as [|[k [c p]] l IH]; cbn [firstDeleted]; [apply _|].
    apply nofuel_bind; [unfold checkDeleted; no_fuel|]. intros [v|]; [apply _|done].
Qed.
Lemma modelled_checks_end im : modelled_only im -> checks_end im.
Proof. intros H i o r d [-> | ->]%H; cbn; no_fuel. Qed.

Section Transactions.
Context {U : UInt128} {K : StrKeyOrder} {C : Crypto} {HT : TxHash}.
Variable env : TransactionEnvelope.

#[export] Instance within_tx_checkSignature a n fr : Within any (tx_checkSignature a n fr).
Proof. unfold tx_checkSignature. walk. Qed.
#[export] Instance within_op_checkSignature i op b fr : Within any (op_checkSignature env i op b fr).
Proof. unfold op_checkSignature. walk. Qed.
#[export] Instance within_op_checkValid i op b fr : Within any (op_checkValid env i op b fr).
Proof. unfold op_checkValid. walk. Qed.
#[export] Instance within_op_apply i op fr : Within any (op_apply env i op fr).
Proof. unfold op_apply. walk. Qed.
#[export] Instance within_preSeqNum fr : Within any (commonValidPreSeqNum env fr).
Proof. unfold commonValidPreSeqNum. walk. Qed.
#[export] Instance within_commonValid c b fr : Within any (commonValid env c b fr).
Proof. unfold commonValid. walk. Qed.
#[export] Instance within_checkOperations i ops fr : Within any (checkOperations env i ops fr).
Proof. revert i fr. induction ops as [|op ops IH]; intros i fr; cbn [checkOperations]; walk. Qed.
#[export] Instance within_newChecker : Within any (newChecker env).
Proof. unfold newChecker. walk. Qed.
#[export] Instance within_forget : Within any forgetAccount.
Proof. unfold forgetAccount. walk. Qed.
#[export] Instance within_checkValid c fr : Within any (checkValid env c fr).
Proof. unfold checkValid. walk. Qed.
#[export] Instance within_processFee fr : Within any (processFeeSeqNum env fr).
Proof. unfold processFeeSeqNum. walk. Qed.
#[export] Instance within_processSeqNum : Within any (processSeqNum env).
Proof. unfold processSeqNum. walk. Qed.
#[export] Instance within_removeAccountSigner h a k : Within any (removeAccountSigner h a k).
Proof. unfold removeAccountSigner. walk. Qed.
#[export] Instance within_removeKeys h a l r : Within any (removeKeys h a l r).
Proof. revert r. induction l as [|k l IH]; intros r; cbn [removeKeys]; walk. Qed.
#[export] Instance within_removeUsedKeysOf a l : Within any (removeUsedKeysOf a l).
Proof. unfold removeUsedKeysOf. walk. Qed.
#[export] Instance within_removeUsedKeys l : Within any (removeUsedKeys l).
Proof. induction l as [|[a l'] l IH]; cbn [removeUsedKeys]; walk. Qed.
#[export] Instance within_removeOneTime sc : Within any (removeUsedOneTimeSignerKeys sc).
Proof. apply within_removeUsedKeys. Qed.
#[export] Instance within_checkOpSignatures i ops b fr : Within any (checkOpSignatures env i ops b fr).
Proof. revert i b fr. induction ops as [|op ops IH]; intros i b fr; cbn [checkOpSignatures]; walk. Qed.
#[export] Instance within_processSignatures fr : Within any (processSignatures env fr).
Proof. unfold processSignatures. walk. Qed.
#[export] Instance within_validateForApply fr : Within any (validateForApply env fr).
Proof. unfold validateForApply. walk. Qed.

Lemma within_applyOperation i op b fr im : checks_end im -> Within any (applyOperation env i op b fr im).
Proof.
  intros Hi. unfold applyOperation. apply within_bind; [apply _|]. intros before. apply within_nested.
  apply within_bind; [apply _|]. intros [txRes fr1]. cbv zeta. apply within_bind; [|intros; walk].
  destruct (negb _); [|apply _]. apply within_bind; [apply _|]. intros after. apply within_bind; [walk|].
  intros r. destruct r; [apply within_lift; by apply checks_nofuel|by intros s Ks..].
Qed.

Lemma applyOperation_enabled i op b fr im e fr' im' s s' :
  applyOperation env i op b fr im s = Ok ((e, fr', im'), s') -> mEnabled im' = mEnabled im.
Proof.
  intros E. unfold applyOperation in E. apply ltm_bind_ok in E as (before & s1 & _ & E).
  apply nested_ok in E as (c & s2 & E & _). apply ltm_bind_ok in E as ([txRes fr1] & s3 & _ & E). cbv zeta in E.
  apply ltm_bind_ok in E as (im1 & s4 & E1 & [[= _ _ _ ->] _]%ltm_ret_ok).
  destruct (negb _); [|by apply ltm_ret_ok in E1 as [-> _]].
  apply ltm_bind_ok in E1 as (after & s5 & _ & E1). apply ltm_bind_ok in E1 as (r & s6 & _ & E1).
  destruct r; [|done..]. apply lift_ok in E1 as [E1 _]. by eapply checks_enabled.
Qed.

Lemma within_applyLoop i ops b fr im : checks_end im -> Within any (applyLoop env i ops b fr im).
Proof.
  revert i b fr im. induction ops as [|op ops IH]; intros i b fr im Hi; cbn [applyLoop]; [apply _|].
  intros s Ks. pose proof (within_applyOperation i op b fr im Hi s Ks) as W.
  unfold mbind, ltm_bind. destruct (applyOperation env i op b fr im s) as [[[[e fr1] im1] s1]|x] eqn:E; [|done].
  destruct W as [K1 _]. apply within_any_from; [apply IH|done]. intros j o r d Hj. apply Hi. by rewrite <- (applyOperation_enabled _ _ _ _ _ _ _ _ _ _ E).
Qed.

Lemma within_apply fr im : checks_end im -> Within any (Transactions.apply env fr im).
Proof.
  intros Hi. unfold Transactions.apply. do 3 (apply within_bind; [apply _|]; intros ?). destruct a1 as [valid fr1].
  destruct valid; [|apply _]. unfold applyOperations. apply within_nested.
  apply within_bind; [by apply within_applyLoop|]. intros [[e fr2] im2]. walk.
Qed.

(** a computation has come to an end, in a ledger whose entries have their keys *)
Definition ended {A} (r : res (A * LState)) : Prop :=
  match r with Ok (_, s') => keys_ok (st_entries s') | Throw e => e <> OutOfFuel end.

(** Charging, checking and applying a transaction always come to an
    end: from any ledger whose entries have their keys, whatever the
    transaction, its operations and the protocol version, [processFeeSeqNum],
    [checkValid] and [apply] return or raise an exception of the program; the
    loop of [convertWithOffers] never needs more rounds than the book has offers
    of the pair.  The entries still have their keys afterwards. *)
Theorem transaction_terminates current fr im s :
  keys_ok (st_entries s) -> checks_end im ->
  ended (processFeeSeqNum env fr s) /\ ended (checkValid env current fr s) /\
  ended (Transactions.apply env fr im s).
Proof.
  intros Ks Hi. assert (W : forall A (m : ltm A), Within any m -> ended (m s)).
  { intros A m Hm. unfold ended. specialize (Hm s Ks). destruct (m s) as [[a s']|]; [by destruct Hm|done]. }
  split; [apply W, _|split; [apply W, _|by apply W, within_apply]].
Qed.

End Transactions.
