(* ===== verification/TransactionRuns.v ===== *)
(** * Transactions on a concrete ledger

    A ledger with three accounts, an asset, two trust lines and an offer, and
    transactions that cross the offer, fail, and are malformed: the properties
    of the operations and the transactions hold for them, and two corner cases
    of the code are run. *)
From S2P Require Import Prelude Numeric Exchange LedgerEntries TransactionUtils LedgerTxn OfferBook LedgerState.
From S2P Require Import LedgerLogic OfferCross Operations OfferOperations Conservation SubEntries Invariants.
From S2P Require Import InvariantManager Signatures Transactions TransactionSafety Termination.

(** ** The parameters *)

#[export] Instance run_uint128 : UInt128 := Z_uint128.

(** the text form of a key is ordered like the key *)
#[export] Program Instance run_strkey : StrKeyOrder := {| strkey_gtb a b := b <? a |}.
Next Obligation. apply Z.ltb_irrefl. Qed.
Next Obligation. intros a b c. rewrite !Z.ltb_lt. lia. Qed.
Next Obligation. intros a b. rewrite !Z.ltb_lt. lia. Qed.

(** a signature is the key and the hash *)
#[export] Instance run_crypto : Crypto := {|
  sha256 l := foldr Z.add 0 l;
  verifySig k sig h := bool_decide (sig = [k; h])
|}.
#[export] Instance run_txHash : TxHash := {| getContentsHash tx := 1000 + tx_seqNum tx |}.

(** a pattern matches its own text *)
#[export] Instance run_regex : Regex := {|
  regex := string; regex_compile p := Some p; regex_match n r := String.eqb n r
|}.

(** ** The ledger *)

Definition usd : Asset := AssetAlphaNum4 [85; 83; 68; 0] 3.

Definition run_header : LedgerHeader :=
  mkLedgerHeader 10 0 (mkEssaBlockChainValue 0 50 []) 0 0 7 3000001000 1000 0 9 100 5000 50 [0; 0; 0; 0].

Definition run_account (id balance seq subs buying selling : Z) (signers : list Signer) : LedgerEntry :=
  mkLedgerEntry 1 (ACCOUNT (mkAccountEntry id balance seq subs None 0 "" [1; 0; 0; 0] signers
    (Some (mkLiabilities buying selling)))).
Definition run_line (id balance selling : Z) : LedgerEntry :=
  mkLedgerEntry 1 (TRUSTLINE (mkTrustLineEntry id usd balance 10000000 1 (Some (mkLiabilities 0 selling)))).
Definition run_offer : LedgerEntry :=
  mkLedgerEntry 1 (OFFER (mkOfferEntry 2 9 usd AssetNative 500000 (mkPrice 1 1) 0)).

(** account 1 has a signer for the transaction with sequence number 8 *)
Definition preAuth : Signer := mkSigner (mkSignerKey SIGNER_KEY_TYPE_PRE_AUTH_TX 1008) 1.

Definition ledger_of (l : list LedgerEntry) : gmap LedgerKey LedgerEntry :=
  list_to_map (map (fun e => (LedgerEntryKey e, e)) l).

Definition run_state : LState :=
  mkLState run_header (ledger_of
    [run_account 1 1000000000 7 2 0 0 [preAuth]; run_account 2 1000000000 3 2 500000 0 [];
     run_account 3 1000000000 1 0 0 0 []; run_line 1 0 0; run_line 2 1000000 500000; run_offer]) None false.

(** buy dollars: the offer is crossed, and a part of the order is left *)
Definition buyDollars : OperationBody := MANAGE_OFFER (mkManageOfferOp AssetNative usd 700000 (mkPrice 1 1) 0).
Definition payIssuer (amount : Z) : OperationBody := PAYMENT (mkPaymentOp 3 usd amount).

Definition run_tx (seq : Z) (ops : list OperationBody) (sigs : list DecoratedSignature) : TransactionEnvelope :=
  mkTransactionEnvelope (mkTransaction 1 200 seq None (map (mkOperation None) ops)) sigs.

Definition newFrame : Frame := mkFrame 0 (txSUCCESS []) 0 (newSignatureChecker 10 0 []).

(** the frame after the fees *)
Definition run_frame (env : TransactionEnvelope) : Frame := resetResults env newFrame.

Definition run_manager : InvariantManager :=
  mkInvariantManager
    [("AccountSubEntriesCountIsValid", AccountSubEntriesCountIsValid); ("ConservationOfLumens", ConservationOfLumens)]
    [ConservationOfLumens; AccountSubEntriesCountIsValid] 0 ∅.

Definition run_apply (env : TransactionEnvelope) (s : LState) :=
  Transactions.apply env (run_frame env) run_manager s.

Definition okTx : TransactionEnvelope := run_tx 8 [buyDollars; payIssuer 1000] [].
Definition badTx : TransactionEnvelope := run_tx 8 [buyDollars; payIssuer 9000000] [].
Definition oldTx : TransactionEnvelope := run_tx 7 [buyDollars] [].

(** ** The hypotheses hold *)

Lemma run_state_good : good (mu := coin_measure) run_state.
Proof.
  split; [| |by vm_compute].
  - intros k e E. revert k e E. apply (bool_decide_unpack (map_Forall (fun k e => LedgerEntryKey e = k) (st_entries run_state))).
    by vm_compute.
  - intros k e E. revert k e E.
    apply (bool_decide_unpack (map_Forall (fun _ e => INT64_MIN <= native e /\ native e <= INT64_MAX) (st_entries run_state))).
    by vm_compute.
Qed.

#[local] Instance count_ok_dec e : Decision (count_ok e).
Proof. unfold count_ok, is_count. destruct (le_data e); apply _. Defined.

Lemma run_state_counted : counted run_state.
Proof.
  split; [apply run_state_good| |by vm_compute].
  intros k e E. revert k e E. apply (bool_decide_unpack (map_Forall (fun _ e => count_ok e) (st_entries run_state))).
  by vm_compute.
Qed.

(** the count of one account *)
Definition count_right (s : LState) (a : AccountID) : bool :=
  match acc_of s a with
  | Some x => acc_numSubEntries x =? Z.of_nat (length (acc_signers x) + size (subEntries a (st_entries s)))
  | None => bool_decide (subEntries a (st_entries s) = ∅)
  end.

Lemma well_counted_finite s :
  map_Forall (fun k _ => count_right s (owner k) = true) (st_entries s) -> well_counted s.
Proof.
  intros Hf a. destruct (acc_of s a) as [x|] eqn:Ea.
  - pose proof Ea as Ex. unfold acc_of in Ex. destruct (st_entries s !! KeyAccount a) as [e|] eqn:E; [|done].
    specialize (Hf _ _ E). unfold count_right in Hf. cbn in Hf. rewrite Ea in Hf. by zb.
  - destruct (decide (subEntries a (st_entries s) = ∅)) as [|Hne]; [done|].
    apply map_choose in Hne as (k & e & Hk). apply map_lookup_filter_Some in Hk as (E & Ho & _). cbn in Ho.
    specialize (Hf _ _ E). unfold count_right in Hf. rewrite Ho, Ea in Hf. by apply bool_decide_eq_true in Hf.
Qed.

Lemma run_state_well_counted : well_counted run_state.
Proof.
  apply well_counted_finite.
  apply (bool_decide_unpack (map_Forall (fun k _ => count_right run_state (owner k) = true) (st_entries run_state))).
  by vm_compute.
Qed.

Lemma run_manager_modelled : modelled_only run_manager.
Proof. intros i Hi. cbn in Hi. set_solver. Qed.

Lemma run_manager_ok : manager_ok run_manager.
Proof.
  split.
  - by repeat constructor.
  - by apply (bool_decide_unpack (NoDup (mInvariants run_manager).*1)); vm_compute.
  - by apply (bool_decide_unpack (NoDup (names (mEnabled run_manager)))); vm_compute.
  - intros i Hi. cbn in *. set_solver.
Qed.

Lemma okTx_typed : Forall (fun op => op_typed (op_body op)) (tx_operations (env_tx okTx)).
Proof. repeat constructor; cbn; zlia. Qed.

(** ** The properties of operations *)

Definition buy : Operation := mkOperation None buyDollars.

Definition after_buy : LState := match doApply 1 buyDollars run_state with Ok (_, s) => s | Throw _ => run_state end.
Definition buy_result : InnerResult :=
  match doApply 1 buyDollars run_state with Ok ((_, r), _) => r | Throw _ => InflationRes INFLATION_NOT_TIME end.

Lemma operation_violates_no_invariant_witness :
  checkOnOperationApply buy buy_result (delta_of run_state after_buy) run_manager = Ok run_manager.
Proof.
  apply (operation_violates_no_invariant 1 buy run_state buy_result after_buy run_manager).
  - exact run_state_good.
  - exact run_state_counted.
  - cbn. zlia.
  - exact run_manager_modelled.
  - by vm_compute.
  - by vm_compute.
Defined.

Lemma manager_operations_keep_order_witness :
  manager_ok (snd (enableInvariant "ConservationOfLumens" run_manager)) /\
  fst (enableInvariant "ConservationOfLumens" run_manager)
    = Throw (RuntimeError "Invariant ConservationOfLumens already enabled").
Proof.
  split; [|by vm_compute].
  destruct (manager_operations_keep_order run_manager run_manager_ok) as (_ & He & _).
  eapply (He "ConservationOfLumens"%string). apply surjective_pairing.
Defined.

(** an entry is erased and the count stays: the check sees it *)
Definition uncounted : LState := set_st_entries (delete (KeyOffer 2 9) (st_entries run_state)) run_state.

Lemma deleted_account_check_is_vacuous_witness :
  exists v, subEntries_checkOnOperationApply (delta_of run_state uncounted) = Ok (Some v) /\
    exists a n c, v = CountMismatch a n c.
Proof.
  exists (CountMismatch 2 0 (-1)). split; [by vm_compute|].
  apply (deleted_account_check_is_vacuous run_state uncounted).
  - apply run_state_good.
  - apply (bool_decide_unpack (map_Forall (fun k e => LedgerEntryKey e = k) (st_entries uncounted))). by vm_compute.
  - by vm_compute.
Defined.

(** ** The properties of transactions *)

Definition state_of {A} (r : res (A * LState)) : LState := match r with Ok (_, s) => s | Throw _ => run_state end.
Definition value_of {A} (d : A) (r : res (A * LState)) : A := match r with Ok (a, _) => a | Throw _ => d end.

Definition is_ok {A} (r : res A) : bool := match r with Ok _ => true | Throw _ => false end.

Lemma ok_eta {A} (d : A) (r : res (A * LState)) : is_ok r = true -> r = Ok (value_of d r, state_of r).
Proof. by destruct r as [[a s]|]. Qed.

Lemma triple_eta {A B C} (b : A) (x : A * B * C) : fst (fst x) = b -> x = (b, snd (fst x), snd x).
Proof. by intros <-; destruct x as [[? ?] ?]. Qed.

Definition after (env : TransactionEnvelope) : LState := state_of (run_apply env run_state).
Definition result_of (env : TransactionEnvelope) : bool * Frame * InvariantManager :=
  value_of (false, newFrame, run_manager) (run_apply env run_state).

Lemma transaction_conserves_coins_witness :
  fst (fst (result_of okTx)) = true /\ balanced run_state (after okTx).
Proof.
  split; [by vm_compute|].
  apply (transaction_conserves_coins okTx (run_frame okTx) run_manager (result_of okTx)).
  - exact run_state_good.
  - exact okTx_typed.
  - apply ok_eta. by vm_compute.
Defined.

Lemma transaction_keeps_subentry_counts_witness :
  counted (after okTx) /\ well_counted (after okTx).
Proof.
  apply (transaction_keeps_subentry_counts okTx (run_frame okTx) run_manager (result_of okTx) run_state).
  - exact run_state_counted.
  - exact run_state_well_counted.
  - apply ok_eta. by vm_compute.
Defined.

Lemma failed_transaction_leaves_bookkeeping_witness :
  bookkept badTx run_state (after badTx) /\ acc_seqNum <$> acc_of (after badTx) 1 = Some 8 /\
  acc_signers <$> acc_of (after badTx) 1 = Some [] /\ acc_numSubEntries <$> acc_of (after badTx) 1 = Some 1.
Proof.
  split; [|by vm_compute].
  apply (failed_transaction_leaves_bookkeeping badTx (run_frame badTx) run_manager
    (snd (fst (result_of badTx))) (snd (result_of badTx))); [by vm_compute|].
  rewrite <- (triple_eta false (result_of badTx)) by (by vm_compute). apply ok_eta. by vm_compute.
Defined.

Lemma stale_transaction_is_refused_witness :
  exists fr' s', run_apply oldTx run_state = Ok ((false, fr', run_manager), s') /\
    st_entries s' = st_entries run_state /\ st_header s' = st_header run_state.
Proof.
  eapply (stale_transaction_is_refused oldTx (run_frame oldTx) run_manager run_state);
    [by vm_compute|by vm_compute|by right; vm_compute].
Defined.

Definition after_fee : LState := state_of (processFeeSeqNum okTx newFrame run_state).

Lemma fee_moves_to_pool_witness :
  exists acc, acc_of run_state 1 = Some acc /\ fee_taken okTx (acc_balance acc) 200 run_state after_fee.
Proof.
  apply (fee_moves_to_pool okTx newFrame (value_of newFrame (processFeeSeqNum okTx newFrame run_state))).
  - exact run_state_good.
  - cbn. zlia.
  - by vm_compute.
Defined.

Lemma checkValid_reads_only_witness :
  st_entries (state_of (checkValid okTx 0 newFrame run_state)) = st_entries run_state /\
  st_header (state_of (checkValid okTx 0 newFrame run_state)) = st_header run_state.
Proof.
  apply (checkValid_reads_only okTx 0 newFrame true
    (snd (value_of (true, newFrame) (checkValid okTx 0 newFrame run_state)))). by vm_compute.
Defined.

Lemma transaction_terminates_witness :
  ended (processFeeSeqNum okTx newFrame run_state) /\ ended (checkValid okTx 0 newFrame run_state) /\
  ended (Transactions.apply okTx newFrame run_manager run_state).
Proof.
  apply (transaction_terminates okTx 0 newFrame run_manager run_state).
  - apply run_state_good.
  - apply modelled_checks_end, run_manager_modelled.
Defined.

(** two signatures, of which both are needed *)
Definition two_signers : list Signer :=
  [mkSigner (mkSignerKey SIGNER_KEY_TYPE_ED25519 41) 1; mkSigner (mkSignerKey SIGNER_KEY_TYPE_ED25519 42) 300].
Definition two_signatures : SignatureChecker :=
  newSignatureChecker 10 77 [mkDecoratedSignature 42 [42; 77]; mkDecoratedSignature 41 [41; 77]].

Lemma checkSignature_sound_witness :
  exists used, used ⊆+ two_signers /\ used <> [] /\ Forall (agreed two_signatures) used /\
    256 <= totalOf 10 used /\
    (9 < 10 -> totalOf 10 used = foldr (fun s t => effectiveWeight 10 s + t) 0 used).
Proof.
  apply (checkSignature_sound 1 two_signers 256 two_signatures (snd (checkSignature 1 two_signers 256 two_signatures)));
    [by vm_compute|repeat constructor; cbn; lia|cbn; unfold MAX_SIGNERS; lia|by vm_compute].
Defined.

(** ** Corner cases *)

Lemma payDestination_full a x amt b s e e' :
  x = AssetNative -> st_entries s !! KeyAccount a = Some e -> addBalance (st_header s) e amt = Ok (false, e') ->
  exists s', payDestination a x amt b s = Ok (Some PATH_PAYMENT_MALFORMED, s').
Proof.
  intros -> Ee Hb. unfold payDestination. change (is_native AssetNative) with true. cbv iota.
  assert (El : loadAccount a s = Ok (Some (KeyAccount a), unshare (KeyAccount a) s)).
  { unfold loadAccount, ltx_load. by rewrite Ee. }
  rewrite (ltm_bind_run _ _ _ _ _ El). destruct (unshare_same (KeyAccount a) s) as [Hh He].
  set (s1 := unshare _ s) in *. rewrite (ltm_bind_run ltx_loadHeader _ s1 (st_header s1) s1 eq_refl).
  unfold updateEntry, active, ltx_update, ltx_current, ltx_set_current, lift, mbind, ltm_bind, mret, ltm_ret.
  rewrite He, Ee, Hh, Hb, He, Ee. eauto.
Qed.

Lemma pathPayment_to_full src op s e e' :
  pp_destAsset op = AssetNative -> st_entries s !! KeyAccount (pp_destination op) = Some e ->
  addBalance (st_header s) e (pp_destAmount op) = Ok (false, e') ->
  exists s', pathPayment_doApply src op s = Ok ((false, PATH_PAYMENT_MALFORMED), s').
Proof.
  intros Ha Ee Hb. unfold pathPayment_doApply. rewrite Ha. change (is_native AssetNative) with true. cbn [negb andb]. cbv iota.
  rewrite (ltm_bind_run (mret false) _ s false s eq_refl).
  rewrite (ltm_bind_run ltx_loadHeader _ s (st_header s) s eq_refl).
  assert (Hx : exists b, (if ledgerVersion (st_header s) <? 8 then
       a ← loadAccountWithoutRecord src; mret (match a with Some _ => true | None => false end)
     else mret true) s = Ok (b, s)).
  { destruct (_ <? 8); eexists; reflexivity. }
  destruct Hx as [b Hx]. rewrite (ltm_bind_run _ _ _ _ _ Hx).
  rewrite (ltm_bind_run _ _ s false s).
  2: { unfold loadAccountWithoutRecord, ltx_loadWithoutRecord, mbind, ltm_bind. cbn [negb]. by rewrite Ee. }
  destruct (payDestination_full (pp_destination op) AssetNative (pp_destAmount op) false s e e') as [s' E]; [done..|].
  rewrite (ltm_bind_run _ _ _ _ _ E). by exists s'.
Qed.

(** Claim C40: a native payment that would overflow the balance of its
    destination, or exceed the room that its liabilities leave, is not a failed
    payment but an exception: the path payment answers
    [PATH_PAYMENT_MALFORMED], which [PaymentOpFrame::doApply] does not expect,
    and throws "Unexpected error code from pathPayment". *)
Theorem payment_to_full_account_throws src op s e e' :
  2 < ledgerVersion (st_header s) -> pay_asset op = AssetNative -> pay_destination op <> src -> 0 < pay_amount op ->
  st_entries s !! KeyAccount (pay_destination op) = Some e ->
  addBalance (st_header s) e (pay_amount op) = Ok (false, e') ->
  payment_doApply src op s = Throw (RuntimeError "Unexpected error code from pathPayment").
Proof.
  intros Hv Ha Hd Hp Ee Hb. unfold payment_doApply, ltx_loadHeader at 1, gets at 1, mbind at 1, ltm_bind at 1.
  rewrite Z.gtb_ltb, (proj2 (Z.ltb_lt _ _) Hv), (proj2 (Z.eqb_neq _ _) Hd). cbn [andb]. cbv zeta.
  destruct (pathPayment_to_full src (paymentPath op) s e e') as [s' E]; [done..|].
  assert (Hc : pathPayment_doCheckValid (paymentPath op) = None).
  { unfold pathPayment_doCheckValid, paymentPath. cbn. rewrite Ha, (proj2 (Z.leb_gt _ _) Hp). done. }
  by rewrite Hc, (ltm_bind_run _ _ _ _ _ E).
Qed.

(** a transaction of account 1 with an operation of account 2, which has not
    signed; account 1 has less than its reserve *)
Definition poorState : LState :=
  set_st_entries (<[KeyAccount 1 := run_account 1 10000 7 2 0 0 [preAuth]]> (st_entries run_state)) run_state.
Definition unsignedTx : TransactionEnvelope :=
  mkTransactionEnvelope (mkTransaction 1 200 8 None [mkOperation (Some 2) (payIssuer 1000)]) [].

(** When a transaction is applied whose source has less than its
    reserve, [commonValid] sets the result to [txINSUFFICIENT_BALANCE], which
    destroys the results of the operations, and yet the signatures of the
    operations are checked; an operation without a valid signature then writes
    its result through a reference to a destroyed object.  The example is a
    transaction of account 1 with an operation of account 2 that has not
    signed. *)
Theorem insufficient_balance_writes_destroyed_result :
  run_apply unsignedTx poorState = Throw DanglingReference.
Proof. by vm_compute. Qed.

(** account 3 cannot receive what account 1 pays *)
Definition fullState : LState :=
  set_st_entries (<[KeyAccount 3 := run_account 3 (INT64_MAX - 10) 1 0 0 0 []]> (st_entries run_state)) run_state.

Lemma payment_to_full_account_throws_witness :
  payment_doApply 1 (mkPaymentOp 3 AssetNative 1000) fullState
    = Throw (RuntimeError "Unexpected error code from pathPayment").
Proof.
  apply (payment_to_full_account_throws 1 (mkPaymentOp 3 AssetNative 1000) fullState
    (run_account 3 (INT64_MAX - 10) 1 0 0 0 []) (run_account 3 (INT64_MAX - 10) 1 0 0 0 []));
    first [reflexivity|done|by vm_compute].
Defined.
