(* ===== verification/TxSet.v ===== *)
(** * Transaction sets

    src/src/herder/TxSetFrame.cpp: the set of transactions that a node proposes
    and that a ledger applies.  [std::sort] is any function with the contract of
    the standard (the class [StdSort]); SHA-256 is the class [SetHash].  A
    transaction is known by its pointer, which is what [removeTx] compares.
    The checks of [checkOrTrim] run on one ledger transaction that is never
    committed; since [checkValid] only reads, each of them sees the ledger of
    the start. *)
From Stdlib Require Import Sorted.
From S2P Require Import Prelude Numeric Exchange LedgerEntries TransactionUtils LedgerTxn OfferBook LedgerState.
From S2P Require Import Operations OfferOperations Signatures InvariantManager Transactions.

(** ** [std::sort] *)

Record strict_weak {A} (lt : A -> A -> bool) : Prop := {
  sw_irrefl : forall x, lt x x = false;
  sw_trans : forall x y z, lt x y = true -> lt y z = true -> lt x z = true;
  sw_incomp : forall x y z, lt x y = false -> lt y z = false -> lt x z = false
}.

(** no element comes after a greater one *)
Definition in_order {A} (lt : A -> A -> bool) : list A -> Prop := StronglySorted (fun x y => lt y x = false).

Class StdSort := {
  std_sort : forall {A}, (A -> A -> bool) -> list A -> list A;
  std_sort_perm : forall {A} (lt : A -> A -> bool) l, strict_weak lt -> std_sort lt l ≡ₚ l;
  std_sort_sorted : forall {A} (lt : A -> A -> bool) l, strict_weak lt -> in_order lt (std_sort lt l)
}.

(** ** Transactions and sets *)

(** a [TransactionFramePtr] *)
Record TxPtr := mkTxPtr { tp_ptr : Z; tp_env : TransactionEnvelope }.

Definition getSourceIDOf (tx : TxPtr) : AccountID := tx_sourceAccount (env_tx (tp_env tx)).
Definition getSeqNum (tx : TxPtr) : Z := tx_seqNum (env_tx (tp_env tx)).
Definition getFee (tx : TxPtr) : Z := tx_fee (env_tx (tp_env tx)).

Class SetHash := {
  (** SHA-256 of the envelope, as a number *)
  envelopeHash : TransactionEnvelope -> Z;
  envelopeHash_nonneg : forall env, 0 <= envelopeHash env;
  (** SHA-256 of a ledger hash and envelopes *)
  setHash : Z -> list TransactionEnvelope -> Z
}.

Definition getFullHash {HS : SetHash} (tx : TxPtr) : Z := envelopeHash (tp_env tx).

(** [mHash] with [mHashIsValid] is an optional hash *)
Record TxSetFrame := mkTxSetFrame {
  mTransactions : list TxPtr;
  mPreviousLedgerHash : Z;
  mHash : option Z
}.

(** util/types.cpp, on hashes as integers *)
Definition lessThanXored (l r x : Z) : bool := Z.lxor x l <? Z.lxor x r.

Definition SeqSorter (tx1 tx2 : TxPtr) : bool := getSeqNum tx1 <? getSeqNum tx2.

Definition addTx (tx : TxPtr) (ts : TxSetFrame) : TxSetFrame :=
  mkTxSetFrame (mTransactions ts ++ [tx]) (mPreviousLedgerHash ts) None.

(** [std::find] and [erase] *)
Fixpoint eraseTx (tx : TxPtr) (l : list TxPtr) : list TxPtr :=
  match l with
  | [] => []
  | x :: l' => if tp_ptr x =? tp_ptr tx then l' else x :: eraseTx tx l'
  end.
Definition removeTx (tx : TxPtr) (ts : TxSetFrame) : TxSetFrame :=
  mkTxSetFrame (eraseTx tx (mTransactions ts)) (mPreviousLedgerHash ts) None.

(** [previousLedgerHash()] of a set that is not constant: the caller may
    write to the reference, so that the hash has to be computed again *)
Definition previousLedgerHash_ref (ts : TxSetFrame) : Z * TxSetFrame :=
  (mPreviousLedgerHash ts, mkTxSetFrame (mTransactions ts) (mPreviousLedgerHash ts) None).

Section Sets.
Context {SS : StdSort} {HS : SetHash}.

Definition HashTxSorter (tx1 tx2 : TxPtr) : bool := getFullHash tx1 <? getFullHash tx2.

Definition sortForHash (ts : TxSetFrame) : TxSetFrame :=
  mkTxSetFrame (std_sort HashTxSorter (mTransactions ts)) (mPreviousLedgerHash ts) None.

(** [TxSetFrame::getContentsHash], which sorts the set *)
Definition setContentsHash (ts : TxSetFrame) : Z * TxSetFrame :=
  match mHash ts with
  | Some hash => (hash, ts)
  | None =>
      let ts := sortForHash ts in
      let hash := setHash (mPreviousLedgerHash ts) (tp_env <$> mTransactions ts) in
      (hash, mkTxSetFrame (mTransactions ts) (mPreviousLedgerHash ts) (Some hash))
  end.

Definition ApplyTxSorter (mSetHash : Z) (tx1 tx2 : TxPtr) : bool :=
  lessThanXored (getFullHash tx1) (getFullHash tx2) mSetHash.

(** [txBatches[v].push_back(tx)], growing the vector first when needed *)
Definition pushBatch (v : nat) (tx : TxPtr) (txBatches : list (list TxPtr)) : list (list TxPtr) :=
  let txBatches := if (length txBatches <=? v)%nat
                   then txBatches ++ replicate (v + 4 - length txBatches) [] else txBatches in
  alter (fun batch => batch ++ [tx]) v txBatches.

Fixpoint buildBatches (txs : list TxPtr) (txBatches : list (list TxPtr)) (accountTxCountMap : gmap AccountID nat)
    : list (list TxPtr) :=
  match txs with
  | [] => txBatches
  | tx :: txs' =>
      let v := default 0%nat (accountTxCountMap !! getSourceIDOf tx) in
      buildBatches txs' (pushBatch v tx txBatches) (<[getSourceIDOf tx := S v]> accountTxCountMap)
  end.

Definition sortForApply (ts : TxSetFrame) : list TxPtr * TxSetFrame :=
  let retList := std_sort SeqSorter (mTransactions ts) in
  let txBatches := buildBatches retList (replicate 4 []) ∅ in
  let '(hash, ts) := setContentsHash ts in
  (concat (std_sort (ApplyTxSorter hash) <$> txBatches), ts).

End Sets.

(** ** Surge pricing *)

(** the doubles [fee / minFee], which are not NaN, and zero *)
Class FeeRatio := {
  double : Type;
  d_ratio : Z -> Z -> double;
  d_zero : double;
  d_ltb : double -> double -> bool;
  d_ltb_strict : strict_weak d_ltb
}.
Definition d_eqb {F : FeeRatio} (x y : double) : bool := negb (d_ltb x y) && negb (d_ltb y x).

Section Surge.
Context {SS : StdSort} {F : FeeRatio}.

Definition SurgeSorter (mAccountFeeMap : gmap AccountID double) (tx1 tx2 : TxPtr) : bool :=
  if getSourceIDOf tx1 =? getSourceIDOf tx2 then getSeqNum tx1 <? getSeqNum tx2
  else
    let fee1 := default d_zero (mAccountFeeMap !! getSourceIDOf tx1) in
    let fee2 := default d_zero (mAccountFeeMap !! getSourceIDOf tx2) in
    if d_eqb fee1 fee2 then getSourceIDOf tx1 <? getSourceIDOf tx2 else d_ltb fee2 fee1.

(** [TransactionFrame::getMinFee], of the operations of the envelope *)
Definition minFeeOf (h : LedgerHeader) (tx : TxPtr) : Z :=
  i64 (baseFee h * Z.max 1 (Z.of_nat (length (tx_operations (env_tx (tp_env tx)))))).

Fixpoint feeMap (h : LedgerHeader) (txs : list TxPtr) (accountFeeMap : gmap AccountID double) : gmap AccountID double :=
  match txs with
  | [] => accountFeeMap
  | tx :: txs' =>
      let r := d_ratio (getFee tx) (minFeeOf h tx) in
      let now := default d_zero (accountFeeMap !! getSourceIDOf tx) in
      let accountFeeMap := <[getSourceIDOf tx := now]> accountFeeMap in
      feeMap h txs' (if d_eqb now d_zero then <[getSourceIDOf tx := r]> accountFeeMap
                     else if d_ltb r now then <[getSourceIDOf tx := r]> accountFeeMap
                     else accountFeeMap)
  end.

Definition surgePricingFilter (h : LedgerHeader) (ts : TxSetFrame) : TxSetFrame :=
  let max := Z.to_nat (maxTxSetSize h) in
  if (max <? length (mTransactions ts))%nat then
    let accountFeeMap := feeMap h (mTransactions ts) ∅ in
    let tempList := std_sort (SurgeSorter accountFeeMap) (mTransactions ts) in
    foldl (fun ts tx => removeTx tx ts) ts (drop max tempList)
  else ts.

End Surge.

(** ** Checking and trimming *)

(** [accountTxMap[a].push_back(tx)] on a [std::map] *)
Fixpoint pushAccount (a : AccountID) (tx : TxPtr) (m : list (AccountID * list TxPtr)) : list (AccountID * list TxPtr) :=
  match m with
  | [] => [(a, [tx])]
  | (b, l) :: m' =>
      if a <? b then (a, [tx]) :: m
      else if a =? b then (b, l ++ [tx]) :: m'
      else (b, l) :: pushAccount a tx m'
  end.

Section Check.
Context {SS : StdSort} {HS : SetHash} {U : UInt128} {K : StrKeyOrder} {C : Crypto} {HT : TxHash}.
(** the ledger *)
Variable s : LState.

(** a frame that has not been checked yet *)
Definition freshFrame (env : TransactionEnvelope) : Frame :=
  mkFrame 0 (txSUCCESS []) 0 (newSignatureChecker 0 0 []).

(** [tx->checkValid(app, ltx, lastSeq)] *)
Definition checkTx (tx : TxPtr) (lastSeq : Z) : res bool :=
  '((ok, _), _) ← checkValid (tp_env tx) lastSeq (freshFrame (tp_env tx)) (set_st_cached None false s);
  Ok ok.

(** the two pairs of lambdas: [checkValid] refuses, [trimInvalid] removes *)
Inductive Policy := Refuse | Trim.

(** the loop over the transactions, [None] for an early [return false] *)
Fixpoint groupTxs (txs : list TxPtr) (lastHash : Z) (m : list (AccountID * list TxPtr))
    : option (list (AccountID * list TxPtr)) :=
  match txs with
  | [] => Some m
  | tx :: txs' =>
      if getFullHash tx <? lastHash then None
      else groupTxs txs' (getFullHash tx) (pushAccount (getSourceIDOf tx) tx m)
  end.

(** what the loop over one account goes on with *)
Record Scan := mkScan {
  sc_set : TxSetFrame;
  sc_trimmed : list TxPtr;
  sc_lastTx : option TxPtr;
  sc_lastSeq : Z;
  sc_totFee : Z
}.

Fixpoint scanTxs (p : Policy) (txs : list TxPtr) (sc : Scan) : res (option Scan) :=
  match txs with
  | [] => Ok (Some sc)
  | tx :: txs' =>
      ok ← checkTx tx (sc_lastSeq sc);
      if ok : bool then
        scanTxs p txs' (mkScan (sc_set sc) (sc_trimmed sc) (Some tx) (getSeqNum tx) (i64 (sc_totFee sc + getFee tx)))
      else
        match p with
        | Refuse => Ok None
        | Trim => scanTxs p txs' (mkScan (removeTx tx (sc_set sc)) (sc_trimmed sc ++ [tx])
                    (sc_lastTx sc) (sc_lastSeq sc) (sc_totFee sc))
        end
  end.

(** the balance that is there for the fees *)
Definition availableOf (a : AccountID) : res Z :=
  match st_entries s !! KeyAccount a with
  | Some e => getAvailableBalance (st_header s) e
  | None => Throw NotActive
  end.

Fixpoint checkAccounts (p : Policy) (m : list (AccountID * list TxPtr)) (ts : TxSetFrame) (trimmed : list TxPtr)
    : res (bool * TxSetFrame * list TxPtr) :=
  match m with
  | [] => Ok (true, ts, trimmed)
  | (_, item) :: m' =>
      let item := std_sort SeqSorter item in
      r ← scanTxs p item (mkScan ts trimmed None 0 0);
      match r with
      | None => Ok (false, ts, trimmed)
      | Some sc =>
          match sc_lastTx sc with
          | None => checkAccounts p m' (sc_set sc) (sc_trimmed sc)
          | Some lastTx =>
              available ← availableOf (getSourceIDOf lastTx);
              if available <? sc_totFee sc then
                match p with
                | Refuse => Ok (false, sc_set sc, sc_trimmed sc)
                | Trim => checkAccounts p m' (foldl (fun ts tx => removeTx tx ts) (sc_set sc) item)
                            (sc_trimmed sc ++ item)
                end
              else checkAccounts p m' (sc_set sc) (sc_trimmed sc)
          end
      end
  end.

Definition checkOrTrim (p : Policy) (ts : TxSetFrame) : res (bool * TxSetFrame * list TxPtr) :=
  match groupTxs (mTransactions ts) 0 [] with
  | None => Ok (false, ts, [])
  | Some m => checkAccounts p m ts []
  end.

(** [trimInvalid]: the set and the transactions trimmed *)
Definition trimInvalid (ts : TxSetFrame) : res (TxSetFrame * list TxPtr) :=
  '((_, ts), trimmed) ← checkOrTrim Trim (sortForHash ts);
  Ok (ts, trimmed).

(** [TxSetFrame::checkValid] with the header and the hash of the last ledger *)
Definition checkValidSet (lclHeader : LedgerHeader) (lclHash : Z) (ts : TxSetFrame) : res bool :=
  if negb (lclHash =? mPreviousLedgerHash ts) then Ok false
  else if maxTxSetSize lclHeader <? Z.of_nat (length (mTransactions ts)) then Ok false
  else '((ok, _), _) ← checkOrTrim Refuse ts; Ok ok.

(** the part of HerderImpl::triggerNextLedger that makes the set: the set and
    the transactions that [removeReceivedTxs] forgets *)
Definition proposeTxSet {F : FeeRatio} (lclHash : Z) (pending : list TxPtr) : res (TxSetFrame * list TxPtr) :=
  let proposedSet := foldl (fun ts tx => addTx tx ts) (mkTxSetFrame [] lclHash None) pending in
  '(proposedSet, removed) ← trimInvalid proposedSet;
  let proposedSet := surgePricingFilter (st_header s) proposedSet in
  valid ← checkValidSet (st_header s) lclHash proposedSet;
  if negb valid then Throw (RuntimeError "wanting to emit an invalid txSet") else Ok (proposedSet, removed).

End Check.
