(* ===== verification/TxSetOrder.v ===== *)
(** * The order in which a transaction set is applied

    [sortForApply] is a permutation of the set that keeps the transactions of
    each account in the order of their sequence numbers, and the same on every
    node: it depends neither on the order in which the set was received nor on
    the sorting algorithm. *)
From Stdlib Require Import Sorted.
From S2P Require Import Prelude Numeric Exchange LedgerEntries TransactionUtils LedgerTxn OfferBook LedgerState.
From S2P Require Import Operations OfferOperations Signatures InvariantManager Transactions TxSet.

(** ** Sorted lists *)

Lemma strict_weak_key {A} (f : A -> Z) : strict_weak (fun x y => f x <? f y).
Proof. split; intros; zb; rewrite ?Z.ltb_lt, ?Z.ltb_ge; lia. Qed.

Lemma in_order_filter {A} (lt : A -> A -> bool) P `{!forall x, Decision (P x)} l :
  in_order lt l -> in_order lt (filter P l).
Proof.
  induction 1 as [|x l Hs IH Hx]; [constructor|]. rewrite filter_cons. case_decide; [|done].
  constructor; [done|]. rewrite Forall_forall in Hx |- *. intros y [_ Hy]%list_elem_of_filter. by apply Hx.
Qed.

(** the sorted list of a set is unique when no two elements are equivalent *)
Lemma in_order_unique {A} (lt : A -> A -> bool) l1 l2 :
  (forall x y, x ∈ l1 -> y ∈ l1 -> lt x y = false -> lt y x = false -> x = y) ->
  in_order lt l1 -> in_order lt l2 -> l1 ≡ₚ l2 -> l1 = l2.
Proof.
  intros Hanti H1. revert l2 Hanti. induction H1 as [|x l1 Hs1 IH Hx]; intros l2 Hanti H2 Hp.
  { by apply Permutation_nil_l in Hp. }
  destruct H2 as [|y l2 Hs2 Hy]; [by apply Permutation_nil_r in Hp|].
  assert (Hxy : x = y).
  { assert (Hx2 : x ∈ y :: l2) by (rewrite <- Hp; by left). assert (Hy1 : y ∈ x :: l1) by (rewrite Hp; by left).
    apply elem_of_cons in Hx2 as [->|Hx2]; [done|]. pose proof Hy1 as Hy2. apply elem_of_cons in Hy1 as [->|Hy1]; [done|].
    eapply Forall_forall in Hx; [|exact Hy1]. eapply Forall_forall in Hy; [|exact Hx2].
    apply Hanti; [by left|done|done|done]. }
  subst y. f_equal. apply IH; [|done|by eapply Permutation_cons_inv].
  intros u v Hu Hv. apply Hanti; by right.
Qed.

Lemma std_sort_nil {S : StdSort} {A} (lt : A -> A -> bool) : strict_weak lt -> std_sort lt [] = [].
Proof. intros H. apply Permutation_nil_r. by apply std_sort_perm. Qed.

Lemma std_sort_small {S : StdSort} {A} (lt : A -> A -> bool) P `{!forall x, Decision (P x)} (l : list A) :
  strict_weak lt -> (length (filter P l) <= 1)%nat -> filter P (std_sort lt l) = filter P l.
Proof.
  intros Hs Hl. assert (Hp : filter P (std_sort lt l) ≡ₚ filter P l) by (by rewrite std_sort_perm).
  destruct (filter P l) as [|x [|]]; [by apply Permutation_nil_r in Hp|by apply Permutation_singleton_r in Hp|cbn in Hl; lia].
Qed.

(** ** Batches *)

Definition by_account (a : AccountID) (l : list TxPtr) : list TxPtr := filter (fun tx => getSourceIDOf tx = a) l.
Definition batch (b : list (list TxPtr)) (i : nat) : list TxPtr := default [] (b !! i).

Lemma batch_push v tx b i :
  batch (pushBatch v tx b) i = if decide (i = v) then batch b v ++ [tx] else batch b i.
Proof.
  unfold pushBatch. set (b' := if (length b <=? v)%nat then b ++ replicate (v + 4 - length b) [] else b).
  assert (Hb : forall j, batch b' j = batch b j).
  { intros j. unfold b', batch. destruct (Nat.leb_spec (length b) v); [|done].
    destruct (decide (j < length b)%nat); [by rewrite lookup_app_l|]. rewrite lookup_app_r by lia.
    rewrite (lookup_ge_None_2 b j) by lia. destruct (replicate _ _ !! _) eqn:E; [|done].
    by apply lookup_replicate in E as [-> _]. }
  assert (Hv : (v < length b')%nat).
  { unfold b'. destruct (Nat.leb_spec (length b) v); [|done]. rewrite length_app, length_replicate. lia. }
  rewrite <- (Hb v), <- (Hb i). unfold batch. case_decide as E; [subst i|by rewrite list_lookup_alter_ne by congruence].
  rewrite list_lookup_alter_eq. destruct (lookup_lt_is_Some_2 b' v Hv) as [x ->]. done.
Qed.

Lemma concat_alter {A} (b : list (list A)) v x :
  (v < length b)%nat -> concat (alter (fun l => l ++ [x]) v b) ≡ₚ x :: concat b.
Proof.
  revert v. induction b as [|l b IH]; intros v Hv; [cbn in Hv; lia|]. destruct v as [|v]; cbn.
  - rewrite <- app_assoc. symmetry. apply Permutation_middle.
  - rewrite IH by (cbn in Hv; lia). symmetry. apply Permutation_middle.
Qed.

Lemma concat_push v tx b : concat (pushBatch v tx b) ≡ₚ tx :: concat b.
Proof.
  unfold pushBatch. set (b' := if (length b <=? v)%nat then b ++ replicate (v + 4 - length b) [] else b).
  assert (Hc : concat b' = concat b).
  { unfold b'. destruct (_ <=? _)%nat; [|done]. rewrite concat_app.
    assert (forall n, concat (replicate n []) = @nil TxPtr) as -> by (by induction n). by rewrite app_nil_r. }
  rewrite concat_alter, Hc; [done|]. unfold b'. destruct (Nat.leb_spec (length b) v); [|done].
  rewrite length_app, length_replicate. lia.
Qed.

(** the batches of the transactions so far *)
Record batched (done : list TxPtr) (b : list (list TxPtr)) (c : gmap AccountID nat) : Prop := {
  bt_count : forall a, default 0%nat (c !! a) = length (by_account a done);
  bt_batch : forall a i, by_account a (batch b i) = option_list (by_account a done !! i);
  bt_perm : concat b ≡ₚ done
}.

Lemma batched_push done b c tx :
  batched done b c ->
  let v := default 0%nat (c !! getSourceIDOf tx) in
  batched (done ++ [tx]) (pushBatch v tx b) (<[getSourceIDOf tx := S v]> c).
Proof.
  intros [Hc Hb Hp] v. split.
  - intros a. unfold by_account. rewrite filter_app, length_app. destruct (decide (getSourceIDOf tx = a)) as [<-|Hne].
    + rewrite lookup_insert_eq, filter_cons_True by done. cbn. unfold v. rewrite Hc. unfold by_account. lia.
    + rewrite lookup_insert_ne, filter_cons_False by done. cbn. rewrite Hc. unfold by_account. lia.
  - intros a i. rewrite batch_push. unfold by_account. rewrite filter_app. fold (by_account a done).
    destruct (decide (getSourceIDOf tx = a)) as [<-|Hne].
    + rewrite (filter_cons_True _ tx), filter_nil by done. unfold v. rewrite Hc. case_decide as Ei.
      * subst i. rewrite filter_app, filter_cons_True, filter_nil by done. fold (by_account (getSourceIDOf tx)).
        fold (by_account (getSourceIDOf tx) (batch b (length (by_account (getSourceIDOf tx) done)))). rewrite Hb, lookup_ge_None_2 by done.
        by rewrite list_lookup_middle.
      * fold (by_account (getSourceIDOf tx) (batch b i)). rewrite Hb. f_equal.
        destruct (decide (i < length (by_account (getSourceIDOf tx) done))%nat); [by rewrite lookup_app_l|].
        rewrite !lookup_ge_None_2; [done|rewrite length_app; cbn; lia|lia].
    + rewrite (filter_cons_False _ tx), filter_nil, app_nil_r by done. rewrite <- Hb. unfold by_account.
      case_decide as Ei; [|done]. subst i. by rewrite filter_app, filter_cons_False, filter_nil, app_nil_r by done.
  - rewrite concat_push, Hp. apply Permutation_cons_append.
Qed.

Lemma buildBatches_batched txs done b c :
  batched done b c -> exists c', batched (done ++ txs) (buildBatches txs b c) c'.
Proof.
  revert done b c. induction txs as [|tx txs IH]; intros done b c H; cbn [buildBatches].
  { exists c. by rewrite app_nil_r. }
  rewrite (cons_middle tx), app_assoc. eapply IH. by apply batched_push.
Qed.

(** ** The result *)

Lemma lxor_inj x a b : Z.lxor x a = Z.lxor x b -> a = b.
Proof.
  intros H. apply (f_equal (Z.lxor x)) in H. by rewrite <- !Z.lxor_assoc, Z.lxor_nilpotent, !Z.lxor_0_l in H.
Qed.

Lemma filter_concat {A} P `{!forall x, Decision (P x)} (ll : list (list A)) :
  filter P (concat ll) = concat (filter P <$> ll).
Proof. induction ll as [|l ll IH]; [done|]. cbn. by rewrite filter_app, IH. Qed.

(** a list as the concatenation of its elements *)
Lemma concat_elements {A} (l : list A) n :
  (length l <= n)%nat -> concat ((fun i => option_list (l !! i)) <$> seq 0 n) = l.
Proof.
  revert n. induction l as [|x l IH]; intros n Hn.
  - clear Hn. generalize 0%nat as k. induction n as [|n IHn]; intros k; [done|]. cbn. by rewrite IHn.
  - destruct n as [|n]; [cbn in Hn; lia|]. cbn. f_equal. etrans; [|apply (IH n); cbn in Hn; lia].
    rewrite <- fmap_S_seq, <- list_fmap_compose. done.
Qed.

(** batches beyond the end are empty *)
Lemma concat_batches (f : list TxPtr -> list TxPtr) b n :
  f [] = [] -> (length b <= n)%nat -> concat (f <$> b) = concat ((fun i => f (batch b i)) <$> seq 0 n).
Proof.
  intros Hf. revert n. induction b as [|l b IH]; intros n Hn.
  - clear Hn. generalize 0%nat as k. induction n as [|n IHn]; intros k; [done|]. cbn [seq fmap list_fmap concat].
    unfold batch at 1. rewrite lookup_nil. cbn [default]. rewrite Hf. apply IHn.
  - destruct n as [|n]; [cbn in Hn; lia|]. cbn. f_equal. rewrite (IH n) by (cbn in Hn; lia).
    rewrite <- fmap_S_seq, <- list_fmap_compose. done.
Qed.

Section Result.
Context {SS : StdSort} {HS : SetHash}.

Definition batches (txs : list TxPtr) : list (list TxPtr) := buildBatches (std_sort SeqSorter txs) (replicate 4 []) ∅.

Lemma batches_batched txs : exists c, batched (std_sort SeqSorter txs) (batches txs) c.
Proof.
  apply (buildBatches_batched _ []). split.
  - intros a. by rewrite lookup_empty.
  - intros a i. unfold batch. destruct i as [|[|[|[|i]]]]; done.
  - done.
Qed.

Lemma batch_short txs a i : (length (by_account a (batch (batches txs) i)) <= 1)%nat.
Proof. destruct (batches_batched txs) as [c [_ Hb _]]. rewrite Hb. destruct (_ !! i); cbn; lia. Qed.

(** the batches, each sorted by the hash *)
Definition applied (hash : Z) (txs : list TxPtr) : list TxPtr :=
  concat (std_sort (ApplyTxSorter hash) <$> batches txs).

Lemma apply_strict hash : strict_weak (ApplyTxSorter hash).
Proof. apply (strict_weak_key (fun tx => Z.lxor hash (getFullHash tx))). Qed.
Lemma seq_strict : strict_weak SeqSorter.
Proof. apply strict_weak_key. Qed.
Lemma hash_strict : strict_weak HashTxSorter.
Proof. apply strict_weak_key. Qed.

Lemma applied_perm hash txs : applied hash txs ≡ₚ txs.
Proof.
  destruct (batches_batched txs) as [c [_ _ Hp]]. transitivity (concat (batches txs)).
  - unfold applied. clear Hp. induction (batches txs) as [|l b IH]; [done|].
    cbn [fmap list_fmap concat]. apply Permutation_app; [apply std_sort_perm, apply_strict|exact IH].
  - rewrite Hp. apply std_sort_perm, seq_strict.
Qed.

Lemma applied_account hash txs a : by_account a (applied hash txs) = by_account a (std_sort SeqSorter txs).
Proof.
  destruct (batches_batched txs) as [c [_ Hb _]]. unfold applied, by_account. rewrite filter_concat.
  rewrite <- list_fmap_compose. set (l := filter _ (std_sort SeqSorter txs)).
  set (n := (length l + length (batches txs))%nat). rewrite <- (concat_elements l n) by lia.
  rewrite (concat_batches (filter (fun tx => getSourceIDOf tx = a) ∘ std_sort (ApplyTxSorter hash)) (batches txs) n).
  - f_equal. apply list_fmap_ext. intros i x _. unfold compose.
    rewrite std_sort_small; [apply (Hb a)|apply apply_strict|apply (batch_short txs a)].
  - unfold compose. by rewrite std_sort_nil by apply apply_strict.
  - lia.
Qed.

(** the hash in the cache is the one that would be computed *)
Definition hash_ok (ts : TxSetFrame) : Prop :=
  mHash ts = None \/
  mHash ts = Some (setHash (mPreviousLedgerHash ts) (tp_env <$> std_sort HashTxSorter (mTransactions ts))).

Lemma sortForApply_applied ts :
  hash_ok ts ->
  fst (sortForApply ts) =
    applied (setHash (mPreviousLedgerHash ts) (tp_env <$> std_sort HashTxSorter (mTransactions ts))) (mTransactions ts).
Proof. unfold sortForApply, setContentsHash. by intros [-> | ->]. Qed.

Lemma sortForApply_perm ts : fst (sortForApply ts) ≡ₚ mTransactions ts.
Proof.
  unfold sortForApply. destruct (setContentsHash ts) as [hash ts']. cbn. apply (applied_perm hash (mTransactions ts)).
Qed.

(** what [closeLedger] applies *)
Lemma closing_order_perm ts : fst (sortForApply (snd (setContentsHash ts))) ≡ₚ mTransactions ts.
Proof.
  rewrite sortForApply_perm. unfold setContentsHash. destruct (mHash ts); [done|]. cbn. apply std_sort_perm, hash_strict.
Qed.

Lemma closing_order_sorted ts a : in_order SeqSorter (by_account a (fst (sortForApply (snd (setContentsHash ts))))).
Proof.
  unfold sortForApply. destruct (setContentsHash (snd _)) as [hash ts']. cbn [fst].
  pose proof (applied_account hash (mTransactions (snd (setContentsHash ts))) a) as E. unfold applied, batches in E. rewrite E.
  apply in_order_filter, std_sort_sorted, seq_strict.
Qed.

End Result.

(** no two transactions of a set have the same hash, and no two of an account
    the same sequence number *)
Record distinct {HS : SetHash} (txs : list TxPtr) : Prop := {
  ds_hash : forall x y, x ∈ txs -> y ∈ txs -> getFullHash x = getFullHash y -> x = y;
  ds_seq : forall x y, x ∈ txs -> y ∈ txs -> getSourceIDOf x = getSourceIDOf y -> getSeqNum x = getSeqNum y -> x = y;
  ds_nodup : NoDup txs
}.

Section Canonical.
Context {HS : SetHash}.
Variables S1 S2 : StdSort.
Variables txs1 txs2 : list TxPtr.
Hypothesis Hp : txs1 ≡ₚ txs2.
Hypothesis Hd : distinct txs1.

Lemma same_hash_order : @std_sort S1 _ HashTxSorter txs1 = @std_sort S2 _ HashTxSorter txs2.
Proof.
  apply (in_order_unique HashTxSorter).
  - intros x y Hx Hy E1 E2. rewrite (@std_sort_perm S1) in Hx, Hy by apply hash_strict.
    unfold HashTxSorter in E1, E2. zb. apply (ds_hash _ Hd); [done|done|lia].
  - apply std_sort_sorted, hash_strict.
  - apply std_sort_sorted, hash_strict.
  - by rewrite (@std_sort_perm S1), (@std_sort_perm S2) by apply hash_strict.
Qed.

Lemma same_account_order a :
  by_account a (@std_sort S1 _ SeqSorter txs1) = by_account a (@std_sort S2 _ SeqSorter txs2).
Proof.
  apply (in_order_unique SeqSorter).
  - intros x y [Hx1 Hx]%list_elem_of_filter [Hy1 Hy]%list_elem_of_filter E1 E2.
    rewrite (@std_sort_perm S1) in Hx, Hy by apply seq_strict.
    unfold SeqSorter in E1, E2. zb. apply (ds_seq _ Hd); [done|done|congruence|lia].
  - apply in_order_filter, std_sort_sorted, seq_strict.
  - apply in_order_filter, std_sort_sorted, seq_strict.
  - unfold by_account. by rewrite (@std_sort_perm S1), (@std_sort_perm S2), Hp by apply seq_strict.
Qed.

Lemma batch_nodup (S : StdSort) txs i : NoDup txs -> NoDup (batch (@batches S txs) i).
Proof.
  intros H. destruct (@batches_batched S txs) as [c [_ _ Hb]]. unfold batch. destruct (_ !! i) as [l|] eqn:E; [|constructor].
  cbn. assert (Hn : NoDup (concat (@batches S txs))) by (rewrite Hb, std_sort_perm; [done|apply seq_strict]).
  apply list_elem_of_split_length in E as (l1 & l2 & E & _). rewrite E, concat_app in Hn. cbn in Hn.
  by apply NoDup_app in Hn as (_ & _ & [Hn _]%NoDup_app).
Qed.

Lemma same_batch i : batch (@batches S1 txs1) i ≡ₚ batch (@batches S2 txs2) i.
Proof.
  assert (Hd2 : NoDup txs2) by (rewrite <- Hp; apply Hd).
  apply NoDup_Permutation; [apply batch_nodup, Hd|by apply batch_nodup|]. intros tx.
  destruct (@batches_batched S1 txs1) as [c1 [_ H1 _]]. destruct (@batches_batched S2 txs2) as [c2 [_ H2 _]].
  assert (Hin : forall b, tx ∈ b <-> tx ∈ by_account (getSourceIDOf tx) b).
  { intros b. unfold by_account. rewrite list_elem_of_filter. naive_solver. }
  rewrite Hin, (Hin (batch (@batches S2 txs2) i)), H1, H2. by rewrite same_account_order.
Qed.

Lemma same_applied hash : @applied S1 _ hash txs1 = @applied S2 _ hash txs2.
Proof.
  unfold applied. set (n := (length (@batches S1 txs1) + length (@batches S2 txs2))%nat).
  rewrite (concat_batches (@std_sort S1 _ (ApplyTxSorter hash)) _ n), (concat_batches (@std_sort S2 _ (ApplyTxSorter hash)) _ n);
    [|by apply std_sort_nil, apply_strict|lia|by apply std_sort_nil, apply_strict|lia].
  f_equal. apply list_fmap_ext. intros i x _. apply (in_order_unique (ApplyTxSorter hash)).
  - intros u v Hu Hv E1 E2. rewrite (@std_sort_perm S1) in Hu, Hv by apply apply_strict.
    assert (Hin : forall t, t ∈ batch (@batches S1 txs1) x -> t ∈ txs1).
    { intros t Ht. destruct (@batches_batched S1 txs1) as [c [_ _ Hb]].
      rewrite <- (@std_sort_perm S1 _ SeqSorter) by apply seq_strict. rewrite <- Hb. unfold batch in Ht.
      destruct (_ !! x) as [l|] eqn:El; [|by apply elem_of_nil in Ht]. apply list_elem_of_lookup_2 in El.
      apply list_elem_of_In, in_concat. exists l. by rewrite <- !list_elem_of_In. }
    unfold ApplyTxSorter, lessThanXored in E1, E2. zb.
    apply (ds_hash _ Hd); [by apply Hin|by apply Hin|]. eapply (lxor_inj hash). lia.
  - apply std_sort_sorted, apply_strict.
  - apply std_sort_sorted, apply_strict.
  - by rewrite (@std_sort_perm S1), (@std_sort_perm S2), same_batch by apply apply_strict.
Qed.

End Canonical.

(** The order of application is fair to the accounts and the same on
    all nodes: [sortForApply] returns every transaction of the set exactly
    once, those of each account by ascending sequence number; and two nodes that
    have the same transactions on the same ledger, in any order and with any
    sorting algorithm, get the same list, as long as no two transactions of the
    set have the same hash, or the same account and sequence number. *)
Theorem apply_order_canonical {HS : SetHash} (S1 S2 : StdSort) ts1 ts2 :
  mTransactions ts1 ≡ₚ mTransactions ts2 -> mPreviousLedgerHash ts1 = mPreviousLedgerHash ts2 ->
  distinct (mTransactions ts1) -> @hash_ok S1 HS ts1 -> @hash_ok S2 HS ts2 ->
  let r := fst (@sortForApply S1 HS ts1) in
  r ≡ₚ mTransactions ts1 /\ (forall a, in_order SeqSorter (by_account a r)) /\ fst (@sortForApply S2 HS ts2) = r.
Proof.
  intros Hp Hprev Hd H1 H2. cbv zeta. rewrite !sortForApply_applied by done. split; [apply applied_perm|]. split.
  - intros a. rewrite applied_account. apply in_order_filter, std_sort_sorted, seq_strict.
  - rewrite <- Hprev, <- (same_hash_order S1 S2 _ _ Hp Hd). symmetry. by apply same_applied.
Qed.
