(* ===== verification/TxSetProposal.v ===== *)
(** * A node proposes only valid transaction sets

    HerderImpl::triggerNextLedger (src/src/herder/HerderImpl.cpp) puts the
    pending transactions into a set, trims the invalid ones, keeps as many as
    the ledger allows and throws "wanting to emit an invalid txSet" if the
    result is not valid.  This file shows that it never throws: what is left of
    each account is a chain of valid transactions whose fees the account can
    pay. *)
From Stdlib Require Import Sorted.
From S2P Require Import Prelude Numeric Exchange LedgerEntries TransactionUtils LedgerTxn OfferBook LedgerState.
From S2P Require Import LedgerLogic OfferCross Operations OfferOperations Neutral SubEntries Invariants InvariantManager Signatures.
From S2P Require Import Transactions TransactionSafety TxSet TxSetOrder.

(** ** The sequence number of a valid transaction *)

Section Valid.
Context {U : UInt128} {K : StrKeyOrder} {C : Crypto} {HT : TxHash}.

Lemma txLoad_cases a s o s' :
  8 <= ledgerVersion (st_header s) -> tx_loadSourceAccount a s = Ok (o, s') ->
  same s s' /\ (o = Some (KeyAccount a) \/ o = None).
Proof.
  intros Hv E. unfold tx_loadSourceAccount, tx_loadAccount, ltx_loadHeader, gets, mbind, ltm_bind, mret, ltm_ret in E.
  rewrite (proj2 (Z.ltb_ge _ _)) in E by done. unfold loadAccount in E.
  destruct (ltx_load (KeyAccount a) s) as [[o1 s1]|] eqn:El; [|done].
  pose proof (quiet _ _ _ El) as Hq. destruct Hq as [Hh He]. rewrite ?Hh, ?(proj2 (Z.ltb_ge _ _)) in E by done.
  injection E as <- <-. split; [by split|]. by eapply ltx_load_handle.
Qed.

(** the number that the transaction must follow *)
Definition following (acc : AccountEntry) (last : Z) : Z := if last =? 0 then acc_seqNum acc else last.

Lemma commonValid_follows env current fr s fr' s' :
  8 <= ledgerVersion (st_header s) -> commonValid env current false fr s = Ok ((kFullyValid, fr'), s') ->
  exists acc, acc_of s (tx_sourceAccount (env_tx env)) = Some acc /\ following acc current <> INT64_MAX /\
    i64 (following acc current + 1) = tx_seqNum (env_tx env).
Proof.
  intros Hv E. unfold commonValid in E. apply nested_ok in E as (b & s1 & E & _).
  apply ltm_bind_ok in E as (o & s2 & E1 & E).
  assert (Hs2 : same (unshared s) s2).
  { unfold commonValidPreSeqNum in E1. destruct (_ =? 0)%nat; [by repeat inv_run|]. repeat inv_run.
    destruct (match tx_timeBounds _ with Some _ => _ | None => _ end); [by repeat inv_run|].
    destruct (match tx_timeBounds _ with Some _ => _ | None => _ end); [by repeat inv_run|].
    destruct (_ <? _); [by repeat inv_run|]. apply ltm_bind_ok in E1 as (o1 & s3 & E3 & E1).
    apply txLoad_cases in E3 as [Hs _]; [|done]. by destruct o1; repeat inv_run. }
  destruct o as [code|]; [repeat inv_run; congruence|]. apply ltm_bind_ok in E as (h0 & s0 & [= <- <-] & E).
  apply ltm_bind_ok in E as (o & s3 & E3 & E). destruct Hs2 as [Hh2 He2]. cbn in Hh2, He2.
  apply txLoad_cases in E3 as [[Hh3 He3] Ho]; [|by rewrite Hh2].
  apply ltm_bind_ok in E as (acc & s4 & E4 & E). exists acc. split.
  - destruct Ho as [->| ->]; [|done]. apply ltm_bind_ok in E4 as (k & s5 & [= <- <-] & E4).
    apply ltm_bind_ok in E4 as (e & s5 & E5 & E4). unfold ltx_current in E5. unfold acc_of. rewrite <- He2, <- He3.
    destruct (st_entries s3 !! _); [|done]. injection E5 as -> ->. by apply lift_ok in E4 as [->%get_account_ok _].
  - cbv zeta in E. fold (following acc current) in E.
    destruct ((following acc current =? INT64_MAX) || negb (i64 (following acc current + 1) =? tx_seqNum (env_tx env))) eqn:Eb.
    + rewrite orb_true_r, andb_true_l in E. repeat inv_run. congruence.
    + by zb.
Qed.
Lemma checkTx_follows s tx last :
  8 <= ledgerVersion (st_header s) -> checkTx s tx last = Ok true ->
  exists acc, acc_of s (getSourceIDOf tx) = Some acc /\ following acc last <> INT64_MAX /\
    i64 (following acc last + 1) = getSeqNum tx.
Proof.
  intros Hv E. unfold checkTx in E. apply bind_ok_inv in E as ([[ok fr] s1] & E & [= ->]). unfold checkValid in E.
  apply ltm_bind_ok in E as (u & s2 & [= <- <-] & E). cbv zeta in E. apply nested_ok in E as (b & s3 & E & _).
  apply ltm_bind_ok in E as (sc & s4 & [= <- <-] & E). apply ltm_bind_ok in E as ([cv fr1] & s5 & E5 & E).
  destruct cv; try (by repeat inv_run; congruence). eapply commonValid_follows in E5; [|done]. exact E5.
Qed.

End Valid.

(** ** Chains *)

Definition fees (l : list TxPtr) : Z := foldr (fun tx acc => getFee tx + acc) 0 l.

Section Chains.
Context {U : UInt128} {K : StrKeyOrder} {C : Crypto} {HT : TxHash}.
Variable s : LState.
Hypothesis Hv : 8 <= ledgerVersion (st_header s).
Hypothesis Hseq : forall a acc, acc_of s a = Some acc -> 0 <= acc_seqNum acc <= INT64_MAX.

(** each transaction is valid after the one before *)
Fixpoint chain (last : Z) (l : list TxPtr) : Prop :=
  match l with
  | [] => True
  | tx :: l' => checkTx s tx last = Ok true /\ chain (getSeqNum tx) l'
  end.

Lemma chain_prefix last l1 l2 : chain last (l1 ++ l2) -> chain last l1.
Proof. revert last. induction l1 as [|tx l1 IH]; intros last; [done|]. cbn. intros [? ?]. eauto. Qed.

Lemma chain_step last tx : 0 <= last <= INT64_MAX -> checkTx s tx last = Ok true -> last < getSeqNum tx <= INT64_MAX.
Proof.
  intros Hl (acc & Ha & Hne & Hs)%checkTx_follows; [|done]. pose proof (Hseq _ _ Ha) as Hacc.
  assert (Hf : last <= following acc last <= INT64_MAX) by (unfold following; destruct (Z.eqb_spec last 0); lia).
  rewrite i64_id in Hs by zlia. zlia.
Qed.

Lemma chain_sorted last l :
  0 <= last <= INT64_MAX -> chain last l ->
  StronglySorted (fun x y => getSeqNum x < getSeqNum y) l /\ Forall (fun tx => last < getSeqNum tx) l.
Proof.
  revert last. induction l as [|tx l IH]; intros last Hl Hc; [split; constructor|]. destruct Hc as [E Hc].
  pose proof (chain_step last tx Hl E) as Hs. destruct (IH (getSeqNum tx) ltac:(lia) Hc) as [H1 H2]. split; constructor; try done; try lia.
  eapply Forall_impl; [exact H2|]. cbn. intros; lia.
Qed.

Lemma chain_in_order l : chain 0 l -> in_order SeqSorter l.
Proof.
  intros [H _]%chain_sorted; [|zlia]. induction H as [|x l H IH Hx]; constructor; [done|].
  eapply Forall_impl; [exact Hx|]. cbn. unfold SeqSorter. intros; by apply Z.ltb_ge; lia.
Qed.

Lemma strictly_anti l :
  StronglySorted (fun x y => getSeqNum x < getSeqNum y) l ->
  forall x y, x ∈ l -> y ∈ l -> SeqSorter x y = false -> SeqSorter y x = false -> x = y.
Proof.
  induction 1 as [|z l H IH Hz]; intros x y Hx Hy E1 E2; [by apply elem_of_nil in Hx|].
  rewrite Forall_forall in Hz. apply elem_of_cons in Hx as [->|Hx], Hy as [->|Hy]; [done| | |by apply IH].
  - specialize (Hz y Hy). unfold SeqSorter in *. zb. lia.
  - specialize (Hz x Hx). unfold SeqSorter in *. zb. lia.
Qed.

(** a chain is the only way to sort its transactions *)
Lemma chain_unique c l : chain 0 c -> l ≡ₚ c -> in_order SeqSorter l -> l = c.
Proof.
  intros Hc Hp Ho. symmetry. apply (in_order_unique SeqSorter); [|by apply chain_in_order|done|done].
  apply strictly_anti. apply (chain_sorted 0); [zlia|done].
Qed.

End Chains.

(** ** Removing transactions *)

Lemma filter_all {A} P `{!forall x : A, Decision (P x)} (l : list A) : (forall x, x ∈ l -> P x) -> filter P l = l.
Proof.
  induction l as [|x l IH]; intros Hl; [done|]. rewrite filter_cons_True by (apply Hl; by left). rewrite IH; [done|].
  intros y Hy. apply Hl. by right.
Qed.
Lemma filter_none {A} P `{!forall x : A, Decision (P x)} (l : list A) : (forall x, x ∈ l -> ~ P x) -> filter P l = [].
Proof.
  induction l as [|x l IH]; intros Hl; [done|]. rewrite filter_cons_False by (apply Hl; by left). apply IH.
  intros y Hy. apply Hl. by right.
Qed.
Lemma filter_comm {A} P Q `{!forall x : A, Decision (P x)} `{!forall x : A, Decision (Q x)} (l : list A) :
  filter P (filter Q l) = filter Q (filter P l).
Proof. rewrite !list_filter_filter. apply list_filter_iff. tauto. Qed.

Definition ptrs (l : list TxPtr) : list Z := tp_ptr <$> l.
Definition without (ds l : list TxPtr) : list TxPtr := filter (fun x => tp_ptr x ∉ ptrs ds) l.

Lemma without_nodup ds l : NoDup (ptrs l) -> NoDup (ptrs (without ds l)).
Proof. intros H. eapply sublist_NoDup; [exact H|]. apply fmap_sublist, sublist_filter. Qed.

Lemma eraseTx_without tx l : NoDup (ptrs l) -> eraseTx tx l = without [tx] l.
Proof.
  unfold without, ptrs. induction l as [|x l IH]; intros Hn; [done|]. cbn [fmap list_fmap] in Hn. apply NoDup_cons in Hn as [Hx Hn].
  cbn [eraseTx]. rewrite filter_cons. destruct (Z.eqb_spec (tp_ptr x) (tp_ptr tx)) as [E|E].
  - rewrite decide_False by (intros H; apply H; rewrite E; by left). symmetry. apply filter_all.
    intros y Hy. cbn. rewrite list_elem_of_singleton. intros Ey. apply Hx. rewrite E, <- Ey. by apply list_elem_of_fmap_2.
  - rewrite decide_True by (cbn; by rewrite list_elem_of_singleton). by rewrite IH.
Qed.

Lemma without_cons x ds l : without (x :: ds) l = without ds (without [x] l).
Proof.
  unfold without. rewrite list_filter_filter. apply list_filter_iff. intros y. cbn.
  rewrite not_elem_of_cons, list_elem_of_singleton. tauto.
Qed.
Lemma without_app d1 d2 l : without (d1 ++ d2) l = without d2 (without d1 l).
Proof.
  unfold without, ptrs. rewrite list_filter_filter. apply list_filter_iff. intros y. rewrite fmap_app, not_elem_of_app. tauto.
Qed.
Lemma without_nil l : without [] l = l.
Proof. apply filter_all. intros x _. apply not_elem_of_nil. Qed.

Lemma removeAll_without ds ts :
  NoDup (ptrs (mTransactions ts)) ->
  mTransactions (foldl (fun ts tx => removeTx tx ts) ts ds) = without ds (mTransactions ts) /\
  mPreviousLedgerHash (foldl (fun ts tx => removeTx tx ts) ts ds) = mPreviousLedgerHash ts.
Proof.
  revert ts. induction ds as [|d ds IH]; intros ts Hn; cbn [foldl]; [by rewrite without_nil|].
  assert (E : mTransactions (removeTx d ts) = without [d] (mTransactions ts)) by (by apply eraseTx_without).
  rewrite without_cons, <- E. apply (IH (removeTx d ts)). rewrite E. by apply without_nodup.
Qed.

Lemma by_account_without a ds l : by_account a (without ds l) = without ds (by_account a l).
Proof. apply filter_comm. Qed.
Lemma without_others ds l : (forall x d, x ∈ l -> d ∈ ds -> tp_ptr x <> tp_ptr d) -> without ds l = l.
Proof.
  intros H. apply filter_all. intros x Hx (d & E & Hd)%list_elem_of_fmap. by eapply H.
Qed.

(** taking away part of a list leaves the rest *)
Lemma without_perm l v d : NoDup (ptrs l) -> l ≡ₚ v ++ d -> without d l ≡ₚ v.
Proof.
  intros Hn Hp. unfold without. rewrite Hp, filter_app. unfold ptrs in Hn. rewrite Hp, fmap_app in Hn.
  apply NoDup_app in Hn as (_ & Hdis & _). rewrite filter_all, filter_none, app_nil_r; [done|..].
  - intros x Hx Hn. apply Hn. by apply list_elem_of_fmap_2.
  - intros x Hx Hin. eapply Hdis; [by apply list_elem_of_fmap_2|exact Hin].
Qed.

(** ** Checking one account *)

Section Account.
Context {SS : StdSort} {HS : SetHash} {U : UInt128} {K : StrKeyOrder} {C : Crypto} {HT : TxHash}.
Variable s : LState.

Definition fee_ok (tx : TxPtr) : Prop := is_u32 (getFee tx).

Lemma fees_bound l : Forall fee_ok l -> 0 <= fees l <= Z.of_nat (length l) * UINT32_MAX.
Proof. induction 1 as [|tx l H _ IH]; cbn [fees foldr length]; [lia|]. fold (fees l). unfold fee_ok in H. zlia. Qed.
Lemma fees_app l1 l2 : fees (l1 ++ l2) = fees l1 + fees l2.
Proof. induction l1 as [|x l1 IH]; [done|]. cbn [app fees foldr]. fold (fees (l1 ++ l2)) (fees l1). lia. Qed.
Lemma fees_perm l1 l2 : l1 ≡ₚ l2 -> fees l1 = fees l2.
Proof. induction 1; cbn [fees foldr]; repeat match goal with |- context [foldr _ 0 ?l] => fold (fees l) end; lia. Qed.

Lemma scan_trim l sc r :
  Forall fee_ok l -> 0 <= sc_totFee sc -> sc_totFee sc + Z.of_nat (length l) * UINT32_MAX <= INT64_MAX ->
  NoDup (ptrs (mTransactions (sc_set sc))) -> scanTxs s Trim l sc = Ok r ->
  exists v d sc', r = Some sc' /\ l ≡ₚ v ++ d /\ chain s (sc_lastSeq sc) v /\
    mTransactions (sc_set sc') = without d (mTransactions (sc_set sc)) /\
    mPreviousLedgerHash (sc_set sc') = mPreviousLedgerHash (sc_set sc) /\
    sc_lastTx sc' = (match last v with Some x => Some x | None => sc_lastTx sc end) /\
    sc_totFee sc' = sc_totFee sc + fees v.
Proof.
  revert sc. induction l as [|tx l IH]; intros sc Hf H0 Hb Hn E; cbn [scanTxs] in E.
  { injection E as <-. exists [], [], sc. rewrite without_nil. repeat split; try done. cbn. lia. }
  apply Forall_cons in Hf as [Hfee Hf]. unfold fee_ok in Hfee. cbn [length] in Hb. apply bind_ok_inv in E as (ok & Eok & E).
  destruct ok.
  - apply IH in E as (v & d & sc' & -> & Hp & Hc & Hs & Hprev & Hl & Ht);
      cbn [sc_totFee sc_set sc_lastSeq sc_lastTx] in *; rewrite ?i64_id in * by zlia; try zlia; try done.
    exists (tx :: v), d, sc'. split; [done|]. split; [by rewrite Hp|]. split; [done|]. split; [done|]. split; [done|].
    split; [rewrite Hl, last_cons; by destruct (last v)|]. rewrite Ht. cbn [fees foldr]. fold (fees v). lia.
  - assert (Ee : eraseTx tx (mTransactions (sc_set sc)) = without [tx] (mTransactions (sc_set sc))) by (by apply eraseTx_without).
    apply IH in E as (v & d & sc' & -> & Hp & Hc & Hs & Hprev & Hl & Ht);
      cbn [sc_totFee sc_set sc_lastSeq sc_lastTx removeTx mTransactions mPreviousLedgerHash] in *; try zlia; try done.
    + exists v, (tx :: d), sc'. rewrite without_cons, <- Ee. repeat split; try done. rewrite Hp. apply Permutation_middle.
    + rewrite Ee. by apply without_nodup.
Qed.

(** a chain passes *)
Lemma scan_refuse c sc :
  Forall fee_ok c -> 0 <= sc_totFee sc -> sc_totFee sc + Z.of_nat (length c) * UINT32_MAX <= INT64_MAX ->
  chain s (sc_lastSeq sc) c ->
  exists sc', scanTxs s Refuse c sc = Ok (Some sc') /\ sc_totFee sc' = sc_totFee sc + fees c /\
    sc_lastTx sc' = (match last c with Some x => Some x | None => sc_lastTx sc end).
Proof.
  revert sc. induction c as [|tx c IH]; intros sc Hf H0 Hb Hc; cbn [scanTxs].
  { exists sc. repeat split. cbn. lia. }
  apply Forall_cons in Hf as [Hfee Hf]. unfold fee_ok in Hfee. cbn [length] in Hb. destruct Hc as [E Hc]. rewrite E, bind_ok.
  destruct (IH (mkScan (sc_set sc) (sc_trimmed sc) (Some tx) (getSeqNum tx) (i64 (sc_totFee sc + getFee tx))) Hf)
    as (sc' & E' & Ht & Hl); cbn [sc_totFee sc_lastSeq sc_lastTx] in *; rewrite ?i64_id in * by zlia; try zlia; [done|].
  exists sc'. split; [done|]. split; [rewrite Ht; cbn [fees foldr]; fold (fees c); lia|].
  rewrite Hl, last_cons. by destruct (last c).
Qed.

End Account.

(** ** The transactions of each account *)

Section Groups.
Context {SS : StdSort} {HS : SetHash}.

Definition hash_sorted (l : list TxPtr) : Prop := in_order HashTxSorter l.

Definition groups (l : list TxPtr) (m : list (AccountID * list TxPtr)) : Prop :=
  StronglySorted Z.lt m.*1 /\ forall a item, (a, item) ∈ m <-> item = by_account a l /\ item <> [].

Lemma pushAccount_keys a tx m b : b ∈ (pushAccount a tx m).*1 <-> b = a \/ b ∈ m.*1.
Proof.
  induction m as [|[x l] m IH]; cbn [pushAccount]; [set_solver|].
  destruct (a <? x); [set_solver|]. destruct (Z.eqb_spec a x); [set_solver|]. cbn. set_solver.
Qed.

Lemma pushAccount_sorted a tx m : StronglySorted Z.lt m.*1 -> StronglySorted Z.lt (pushAccount a tx m).*1.
Proof.
  induction m as [|[x l] m IH]; intros Hs; cbn [pushAccount]; [repeat constructor|]. inversion Hs as [|? ? Hs' Hx]; subst.
  destruct (Z.ltb_spec a x); [|destruct (Z.eqb_spec a x)]; cbn.
  - constructor; [done|]. constructor; [done|]. eapply Forall_impl; [exact Hx|]. cbn. lia.
  - by constructor.
  - constructor; [by apply IH|]. apply Forall_forall. intros y Hy%pushAccount_keys. rewrite Forall_forall in Hx.
    destruct Hy as [->|Hy]; [lia|by apply Hx].
Qed.

Lemma pushAccount_elem a tx m b item :
  StronglySorted Z.lt m.*1 ->
  (b, item) ∈ pushAccount a tx m <->
  b <> a /\ (b, item) ∈ m \/
  b = a /\ ((exists l, (a, l) ∈ m /\ item = l ++ [tx]) \/ a ∉ m.*1 /\ item = [tx]).
Proof.
  induction m as [|[x l] m IH]; intros Hs; cbn [pushAccount]; [set_solver|]. inversion Hs as [|? ? Hs' Hx]; subst.
  assert (Hnot : forall y, y <= x -> forall i, (y, i) ∉ m).
  { intros y Hy i Hin. rewrite Forall_forall in Hx. apply (list_elem_of_fmap_2 fst) in Hin. apply Hx in Hin. cbn in Hin. lia. }
  destruct (Z.ltb_spec a x) as [Hl|Hl]; [|destruct (Z.eqb_spec a x) as [->|Hne]].
  - assert (Hn : a ∉ ((x, l) :: m).*1).
    { cbn. rewrite not_elem_of_cons. split; [lia|]. intros ([y i] & -> & Hin)%list_elem_of_fmap. eapply (Hnot y); [|exact Hin]. cbn in Hl. lia. }
    assert (Hn' : forall i, (a, i) ∉ (x, l) :: m) by (intros i Hin; apply Hn; by apply (list_elem_of_fmap_2 fst) in Hin).
    rewrite elem_of_cons. destruct (decide (b = a)) as [->|Hb]; naive_solver.
  - rewrite !elem_of_cons. assert (Hin : x ∈ ((x, l) :: m).*1) by (by left).
    destruct (decide (b = x)) as [->|Hb]; [|naive_solver]. specialize (Hnot x ltac:(lia)).
    split; [intros [[= ->]|H]; [right; split; [done|]; left; exists l; split; [by left|done]|by apply Hnot in H]|].
    intros [[? _]|[_ [(l' & [[= ->]|H]%elem_of_cons & ->)|[? _]]]]; [done|by left|by apply Hnot in H|done].
  - rewrite !elem_of_cons, IH by done. cbn [fmap list_fmap fst]. rewrite not_elem_of_cons.
    setoid_rewrite elem_of_cons. naive_solver.
Qed.

Lemma push_groups l m tx : groups l m -> groups (l ++ [tx]) (pushAccount (getSourceIDOf tx) tx m).
Proof.
  intros [Hs Hm]. split; [by apply pushAccount_sorted|]. intros a item. rewrite pushAccount_elem by done.
  unfold by_account in *. rewrite filter_app. destruct (decide (a = getSourceIDOf tx)) as [->|Hne].
  - rewrite (filter_cons_True _ tx), filter_nil by done. set (f := filter _ l) in *. split.
    + intros [[? _]|[_ [(i & Hi & ->)|[Hn ->]]]]; [done|..].
      * apply Hm in Hi as [-> _]. split; [done|]. intros [_ ?]%app_eq_nil. done.
      * split; [|done]. destruct (decide (f = [])) as [->|Ef]; [done|]. exfalso. apply Hn.
        apply (list_elem_of_fmap_2 fst _ (getSourceIDOf tx, f)). by apply Hm.
    + intros [-> _]. right. split; [done|]. destruct (decide (f = [])) as [Ef|Ef].
      * right. split; [|by rewrite Ef]. intros ([y i] & Ey & Hin)%list_elem_of_fmap. cbn in Ey. subst y.
        apply Hm in Hin as [-> Hin]. done.
      * left. exists f. split; [|done]. by apply Hm.
  - rewrite (filter_cons_False _ tx), filter_nil, app_nil_r by done. rewrite Hm. naive_solver.
Qed.

Lemma groupTxs_groups l d last m :
  groups d m -> hash_sorted l -> Forall (fun tx => last <= getFullHash tx) l ->
  exists m', groupTxs l last m = Some m' /\ groups (d ++ l) m'.
Proof.
  revert d last m. induction l as [|tx l IH]; intros d last m Hg Hs Hl; cbn [groupTxs].
  { exists m. by rewrite app_nil_r. }
  inversion Hs as [|? ? Hs' Hx]; subst. apply Forall_cons in Hl as [Hl _].
  rewrite (proj2 (Z.ltb_ge _ _)) by done. rewrite (cons_middle tx), app_assoc. apply IH; [by apply push_groups|done|].
  eapply Forall_impl; [exact Hx|]. cbn. unfold HashTxSorter. intros y Hy. by zb.
Qed.

Lemma groups_of l : hash_sorted l -> exists m, groupTxs l 0 [] = Some m /\ groups l m.
Proof.
  intros Hs. apply (groupTxs_groups l [] 0 []); [|done|].
  - split; [constructor|]. intros a item. rewrite elem_of_nil. cbn. naive_solver.
  - apply Forall_forall. intros tx _. apply envelopeHash_nonneg.
Qed.

Lemma last_source c a x : (forall tx, tx ∈ c -> getSourceIDOf tx = a) -> last c = Some x -> getSourceIDOf x = a.
Proof. intros H [c' ->]%last_Some. apply H. set_solver. Qed.

End Groups.

(** ** Valid sets *)

Section Sets.
Context {SS : StdSort} {HS : SetHash} {U : UInt128} {K : StrKeyOrder} {C : Crypto} {HT : TxHash}.
Variable s : LState.
Hypothesis Hv : 8 <= ledgerVersion (st_header s).
Hypothesis Hseq : forall a acc, acc_of s a = Some acc -> 0 <= acc_seqNum acc <= INT64_MAX.

(** the transactions of an account are a chain that it can pay for *)
Definition account_fine (a : AccountID) (l : list TxPtr) : Prop :=
  exists c, by_account a l ≡ₚ c /\ chain s 0 c /\
    (c <> [] -> exists av, availableOf s a = Ok av /\ fees c <= av).

Record fine (l : list TxPtr) : Prop := {
  fi_accounts : forall a, account_fine a l;
  fi_sorted : hash_sorted l;
  fi_ptrs : NoDup (ptrs l);
  fi_fees : Forall fee_ok l;
  fi_length : Z.of_nat (length l) * UINT32_MAX <= INT64_MAX
}.

(** *** A fine set is accepted *)

Lemma fine_checks l m ts tr :
  fine l -> (forall a item, (a, item) ∈ m -> item = by_account a l /\ item <> []) ->
  exists ts' tr', checkAccounts s Refuse m ts tr = Ok (true, ts', tr').
Proof.
  intros Hl. revert ts tr. induction m as [|[a item] m IH]; intros ts tr Hm; cbn [checkAccounts]; [by eexists _, _|].
  destruct (Hm a item ltac:(by left)) as [-> Hne]. destruct (fi_accounts l Hl a) as (c & Hp & Hc & Hav).
  assert (Ec : std_sort SeqSorter (by_account a l) = c).
  { apply (chain_unique s Hv Hseq); [done| |apply std_sort_sorted, seq_strict]. by rewrite std_sort_perm by apply seq_strict. }
  assert (Hsub : forall tx, tx ∈ c -> tx ∈ l /\ getSourceIDOf tx = a).
  { intros tx Htx. rewrite <- Hp in Htx. apply list_elem_of_filter in Htx. tauto. }
  assert (Hfee : Forall fee_ok c).
  { pose proof (fi_fees l Hl) as Hf. rewrite Forall_forall in Hf |- *. intros tx Htx. apply Hf. by apply Hsub. }
  assert (Hlen : (length c <= length l)%nat) by (rewrite <- Hp; apply length_filter).
  destruct (scan_refuse s c (mkScan ts tr None 0 0) Hfee) as (sc' & E & Ht & Hlast).
  { cbn. lia. }
  { cbn. pose proof (fi_length l Hl). zlia. }
  { done. }
  cbv zeta. rewrite Ec, E, bind_ok, Hlast. cbn [sc_lastTx].
  assert (Hcne : c <> []) by (intros ->; apply Permutation_nil_r in Hp; done).
  destruct (last c) as [x|] eqn:Elast; [|by apply last_None in Elast].
  assert (Hsrc : getSourceIDOf x = a) by (eapply last_source; [|exact Elast]; intros tx Htx; by apply Hsub).
  destruct (Hav Hcne) as (av & Eav & Hle). rewrite Hsrc, Eav, bind_ok, Ht. cbn [sc_totFee].
  rewrite (proj2 (Z.ltb_ge _ _)) by lia. apply IH. intros b it Hin. apply Hm. by right.
Qed.

Lemma fine_valid lclHeader lclHash ts :
  fine (mTransactions ts) -> mPreviousLedgerHash ts = lclHash ->
  Z.of_nat (length (mTransactions ts)) <= maxTxSetSize lclHeader ->
  checkValidSet s lclHeader lclHash ts = Ok true.
Proof.
  intros Hf Hprev Hlen. unfold checkValidSet, checkOrTrim. rewrite Hprev, Z.eqb_refl. cbn [negb].
  rewrite (proj2 (Z.ltb_ge _ _)) by done. destruct (groups_of _ (fi_sorted _ Hf)) as (m & -> & _ & Hm).
  destruct (fine_checks _ m ts [] Hf) as (ts' & tr' & ->); [|done]. intros a item Hin. by apply Hm.
Qed.

(** *** Trimming gives a fine set *)

Lemma inj_on_list {A B} (f : A -> B) (l : list A) x y : NoDup (f <$> l) -> x ∈ l -> y ∈ l -> f x = f y -> x = y.
Proof.
  induction l as [|z l IH]; intros Hn Hx Hy E; [by apply elem_of_nil in Hx|].
  cbn in Hn. apply NoDup_cons in Hn as [Hz Hn]. apply elem_of_cons in Hx as [->|Hx], Hy as [->|Hy]; [done| | |by apply IH].
  - exfalso. apply Hz. rewrite E. by apply list_elem_of_fmap_2.
  - exfalso. apply Hz. rewrite <- E. by apply list_elem_of_fmap_2.
Qed.

Lemma remove_other a b d l :
  NoDup (ptrs l) -> (forall x, x ∈ d -> x ∈ by_account a l) -> b <> a -> by_account b (without d l) = by_account b l.
Proof.
  intros Hn Hd Hb. rewrite by_account_without. apply without_others. intros x y [Hx Hxl]%list_elem_of_filter Hy Heq.
  apply Hd in Hy as [Hy Hyl]%list_elem_of_filter. assert (x = y) as -> by (by eapply (inj_on_list tp_ptr)). congruence.
Qed.

Lemma without_all d l : l ⊆ d -> without d l = [].
Proof. intros H. apply filter_none. intros x Hx Hn. apply Hn. by apply list_elem_of_fmap_2, H. Qed.

(** what trimming one account leaves *)
Lemma trim_leaves a l item v d :
  NoDup (ptrs l) -> item ≡ₚ by_account a l -> item ≡ₚ v ++ d ->
  (by_account a (without d l) ≡ₚ v) /\ by_account a (without item (without d l)) = [] /\
  forall b, b <> a -> by_account b (without d l) = by_account b l /\
    by_account b (without item (without d l)) = by_account b l.
Proof.
  intros Hn Hi Hvd.
  assert (Hsub : forall x, x ∈ item -> x ∈ by_account a l) by (intros x Hx; by rewrite <- Hi).
  assert (Hd : forall x, x ∈ d -> x ∈ by_account a l).
  { intros x Hx. apply Hsub. rewrite Hvd. apply elem_of_app. by right. }
  split; [|split].
  - rewrite by_account_without. apply without_perm; [|by rewrite <- Hi]. eapply sublist_NoDup; [exact Hn|].
    apply fmap_sublist, sublist_filter.
  - rewrite !by_account_without. apply without_all. intros x Hx. rewrite Hi. by apply list_elem_of_filter in Hx as [_ ?].
  - intros b Hb. split; [by eapply remove_other|]. rewrite <- without_app. apply (remove_other a); [done| |done].
    intros x [Hx|Hx]%elem_of_app; eauto.
Qed.

Lemma trim_accounts m ts tr ok ts' tr' :
  StronglySorted Z.lt m.*1 -> (forall a item, (a, item) ∈ m -> item = by_account a (mTransactions ts)) ->
  (forall a, a ∉ m.*1 -> account_fine a (mTransactions ts)) ->
  NoDup (ptrs (mTransactions ts)) -> Forall fee_ok (mTransactions ts) ->
  Z.of_nat (length (mTransactions ts)) * UINT32_MAX <= INT64_MAX ->
  checkAccounts s Trim m ts tr = Ok (ok, ts', tr') ->
  (forall a, account_fine a (mTransactions ts')) /\ mTransactions ts' `sublist_of` mTransactions ts /\
  mPreviousLedgerHash ts' = mPreviousLedgerHash ts.
Proof.
  revert ts tr. induction m as [|[a item] m IH]; intros ts tr Hs Hm Hdone Hn Hf Hlen E; cbn [checkAccounts] in E.
  { injection E as _ <- _. split; [|done]. intros a. apply Hdone. apply not_elem_of_nil. }
  cbv zeta in E. inversion Hs as [|? ? Hs' Hx]; subst. pose proof (Hm a item ltac:(by left)) as Hitem.
  set (l := mTransactions ts) in *. set (it := std_sort SeqSorter item) in *.
  assert (Hit : it ≡ₚ by_account a l) by (rewrite <- Hitem; apply std_sort_perm, seq_strict).
  apply bind_ok_inv in E as (r & Er & E). apply scan_trim in Er as (v & d & sc & -> & Hvd & Hc & Hset & Hprev & Hlast & Htot).
  2: { apply Forall_forall. intros x Hx'. rewrite Hit in Hx'. apply list_elem_of_filter in Hx' as [_ Hx'].
       rewrite Forall_forall in Hf. by apply Hf. }
  2: done.
  2: { cbn. assert (length it <= length l)%nat by (rewrite Hit; apply length_filter). zlia. }
  2: done.
  cbn [sc_lastSeq sc_set sc_lastTx sc_totFee] in *. fold l in Hset.
  destruct (trim_leaves a l it v d Hn Hit Hvd) as (Hv1 & Hv2 & Hoth).
  assert (Hnot : a ∉ m.*1) by (intros Hin; rewrite Forall_forall in Hx; specialize (Hx a Hin); cbn in Hx; lia).
  assert (go : forall ts1 tr1,
    checkAccounts s Trim m ts1 tr1 = Ok (ok, ts', tr') ->
    account_fine a (mTransactions ts1) -> (forall b, b <> a -> by_account b (mTransactions ts1) = by_account b l) ->
    mTransactions ts1 `sublist_of` l -> mPreviousLedgerHash ts1 = mPreviousLedgerHash ts ->
    (forall a, account_fine a (mTransactions ts')) /\ mTransactions ts' `sublist_of` l /\
    mPreviousLedgerHash ts' = mPreviousLedgerHash ts).
  { intros ts1 tr1 E1 Ha Hb Hsub Hp1. apply IH in E1 as (H1 & H2 & H3).
    - split; [done|]. split; [by etrans|congruence].
    - done.
    - intros b i Hin. rewrite Hb; [apply (Hm b i); by right|]. intros ->. apply Hnot. by apply (list_elem_of_fmap_2 fst) in Hin.
    - intros b Hnb. destruct (decide (b = a)) as [->|Hne]; [done|]. unfold account_fine. rewrite Hb by done.
      apply Hdone. cbn. by rewrite not_elem_of_cons.
    - eapply sublist_NoDup; [exact Hn|]. by apply fmap_sublist.
    - apply Forall_forall. intros y Hy. rewrite Forall_forall in Hf. apply Hf. by eapply elem_of_sublist.
    - apply sublist_length in Hsub. zlia. }
  destruct (sc_lastTx sc) as [x|] eqn:Ex.
  - assert (Hvx : last v = Some x) by (by destruct (last v)).
    assert (Hsrc : getSourceIDOf x = a).
    { eapply last_source; [|exact Hvx]. intros tx Htx. rewrite <- Hv1 in Htx. by apply list_elem_of_filter in Htx as [? _]. }
    rewrite Hsrc in E. apply bind_ok_inv in E as (av & Eav & E). destruct (Z.ltb_spec av (sc_totFee sc)) as [Hlt|Hge].
    + destruct (removeAll_without it (sc_set sc)) as [Hr1 Hr2]; [rewrite Hset; by apply without_nodup|].
      rewrite Hset in Hr1. eapply go; [exact E|..]; rewrite ?Hr1, ?Hr2.
      * exists []. rewrite Hv2. split; [done|]. split; [done|]. by intros [].
      * intros b Hb. by apply Hoth.
      * etrans; apply sublist_filter.
      * done.
    + eapply go; [exact E|..]; rewrite ?Hset.
      * exists v. split; [done|]. split; [done|]. intros _. exists av. split; [done|]. lia.
      * intros b Hb. by apply Hoth.
      * apply sublist_filter.
      * done.
  - assert (v = []) as -> by (apply last_None; by destruct (last v)). eapply go; [exact E|..]; rewrite ?Hset.
    + exists []. split; [done|]. split; [done|]. by intros [].
    + intros b Hb. by apply Hoth.
    + apply sublist_filter.
    + done.
Qed.

Lemma in_order_sublist {A} (lt : A -> A -> bool) l l' : l' `sublist_of` l -> in_order lt l -> in_order lt l'.
Proof.
  induction 1 as [|x l' l Hsub IH|x l' l Hsub IH]; intros Ho; [done|..]; inversion Ho as [|? ? Ho' Hx]; subst; [|by apply IH].
  constructor; [by apply IH|]. rewrite Forall_forall in Hx |- *. intros y Hy. apply Hx. by eapply elem_of_sublist.
Qed.

Lemma fine_sublist l l' :
  l' `sublist_of` l -> hash_sorted l -> NoDup (ptrs l) -> Forall fee_ok l ->
  Z.of_nat (length l) * UINT32_MAX <= INT64_MAX -> (forall a, account_fine a l') -> fine l'.
Proof.
  intros Hsub Hs Hn Hf Hlen Ha. split; [done|by eapply in_order_sublist|..].
  - eapply sublist_NoDup; [exact Hn|]. by apply fmap_sublist.
  - rewrite Forall_forall in Hf |- *. intros x Hx. apply Hf. by eapply elem_of_sublist.
  - apply sublist_length in Hsub. zlia.
Qed.

Lemma trimInvalid_fine ts ts' tr :
  NoDup (ptrs (mTransactions ts)) -> Forall fee_ok (mTransactions ts) ->
  Z.of_nat (length (mTransactions ts)) * UINT32_MAX <= INT64_MAX ->
  trimInvalid s ts = Ok (ts', tr) ->
  fine (mTransactions ts') /\ mPreviousLedgerHash ts' = mPreviousLedgerHash ts.
Proof.
  intros Hn Hf Hlen E. unfold trimInvalid in E. apply bind_ok_inv in E as ([[ok ts1] tr1] & E & [= <- <-]).
  unfold checkOrTrim in E. set (l := mTransactions (sortForHash ts)) in *.
  assert (Hp : l ≡ₚ mTransactions ts) by (apply std_sort_perm, hash_strict).
  assert (Hs : hash_sorted l) by (apply std_sort_sorted, hash_strict).
  assert (Hn' : NoDup (ptrs l)) by (unfold ptrs; by rewrite Hp). assert (Hf' : Forall fee_ok l) by (by rewrite Hp).
  assert (Hlen' : Z.of_nat (length l) * UINT32_MAX <= INT64_MAX) by (by rewrite Hp).
  destruct (groups_of l Hs) as (m & Em & Hsm & Hm). fold l in E. rewrite Em in E. apply trim_accounts in E as (H1 & H2 & H3); try done.
  - split; [|done]. by eapply fine_sublist.
  - intros a item Hin. by apply Hm in Hin as [-> _].
  - intros a Ha. exists []. split; [|split; [done|by intros []]]. fold l. destruct (by_account a l) as [|x c] eqn:Ec; [done|].
    exfalso. apply Ha. apply (list_elem_of_fmap_2 fst _ (a, x :: c)). apply Hm. by rewrite Ec.
Qed.

(** *** Surge pricing keeps a fine set fine *)

Section Lexicographic.
Context {A : Type} (lt1 lt2 : A -> A -> bool).
Definition lex (x y : A) : bool := lt1 x y || (negb (lt1 y x) && lt2 x y).

Lemma lex_strict : strict_weak lt1 -> strict_weak lt2 -> strict_weak lex.
Proof.
  intros [i1 t1 n1] [i2 t2 n2]. unfold lex. split.
  - intros x. by rewrite i1, i2.
  - intros x y z. rewrite !orb_true_iff, !andb_true_iff, !negb_true_iff. intros [H1|[H1 H2]] [H3|[H3 H4]].
    + left. eauto.
    + left. destruct (lt1 x z) eqn:E; [done|]. by rewrite (n1 x z y E H3) in H1.
    + left. destruct (lt1 x z) eqn:E; [done|]. by rewrite (n1 y x z H1 E) in H3.
    + right. eauto.
  - intros x y z. rewrite !orb_false_iff, !andb_false_iff, !negb_false_iff. intros [H1 H2] [H3 H4]. split; [eauto|].
    destruct (lt1 z x) eqn:E; [by left|]. right. destruct H2 as [H2|H2].
    + rewrite (n1 y z x H3 E) in H2. done.
    + destruct H4 as [H4|H4]; [|eauto]. by rewrite (n1 z x y E H1) in H4.
Qed.
End Lexicographic.

Section Surge.
Context {F : FeeRatio}.

Lemma surge_lex fm tx1 tx2 :
  SurgeSorter fm tx1 tx2 =
  lex (fun x y => d_ltb (default d_zero (fm !! getSourceIDOf y)) (default d_zero (fm !! getSourceIDOf x)))
    (lex (fun x y => getSourceIDOf x <? getSourceIDOf y) SeqSorter) tx1 tx2.
Proof.
  unfold SurgeSorter, lex, d_eqb, SeqSorter. destruct (Z.eqb_spec (getSourceIDOf tx1) (getSourceIDOf tx2)) as [->|Hne].
  - by rewrite (sw_irrefl _ d_ltb_strict), Z.ltb_irrefl.
  - set (f1 := default d_zero _). set (f2 := default d_zero _). pose proof (sw_trans _ d_ltb_strict f1 f2 f1) as Ht.
    rewrite (sw_irrefl _ d_ltb_strict) in Ht. destruct (d_ltb f1 f2), (d_ltb f2 f1); cbn; try done; try (by specialize (Ht eq_refl eq_refl)).
    destruct (Z.ltb_spec (getSourceIDOf tx1) (getSourceIDOf tx2)), (Z.ltb_spec (getSourceIDOf tx2) (getSourceIDOf tx1)); cbn; try done; lia.
Qed.

Lemma strict_weak_ext {A} (lt lt' : A -> A -> bool) : (forall x y, lt x y = lt' x y) -> strict_weak lt' -> strict_weak lt.
Proof. intros E [i t n]. split; intros *; rewrite !E; eauto. Qed.

Lemma surge_strict fm : strict_weak (SurgeSorter fm).
Proof.
  eapply strict_weak_ext; [apply surge_lex|]. apply lex_strict; [|apply lex_strict; apply strict_weak_key].
  destruct d_ltb_strict as [i t n]. split; intros; eauto.
Qed.

(** the transactions of one account stay in the order of their numbers *)
Lemma surge_account fm a l : in_order (SurgeSorter fm) l -> in_order SeqSorter (by_account a l).
Proof.
  intros Ho. unfold by_account. induction Ho as [|x l Ho IH Hx]; [constructor|]. rewrite filter_cons. case_decide as Hc; [|done].
  constructor; [done|]. rewrite Forall_forall in Hx |- *. intros y [Hy Hyl]%list_elem_of_filter. specialize (Hx y Hyl).
  unfold SurgeSorter in Hx. rewrite Hy, Hc, Z.eqb_refl in Hx. done.
Qed.

Lemma surge_fine h ts :
  fine (mTransactions ts) -> 0 <= maxTxSetSize h ->
  let ts' := surgePricingFilter h ts in
  fine (mTransactions ts') /\ mPreviousLedgerHash ts' = mPreviousLedgerHash ts /\
  Z.of_nat (length (mTransactions ts')) <= maxTxSetSize h.
Proof.
  intros Hl Hmax. unfold surgePricingFilter. cbv zeta. set (n := Z.to_nat (maxTxSetSize h)).
  destruct (Nat.ltb_spec n (length (mTransactions ts))) as [Hn|Hn]; [|split; [done|]; split; [done|lia]].
  set (l := mTransactions ts) in *. set (fm := feeMap h l ∅). set (t := std_sort (SurgeSorter fm) l).
  assert (Hp : t ≡ₚ l) by (apply std_sort_perm, surge_strict).
  destruct (removeAll_without (drop n t) ts (fi_ptrs _ Hl)) as [-> ->]. fold l.
  assert (Hw : without (drop n t) l ≡ₚ take n t).
  { apply without_perm; [apply Hl|]. by rewrite take_drop. }
  split; [|split; [done|rewrite Hw, length_take; lia]].
  eapply fine_sublist; [apply sublist_filter|apply Hl..|]. intros a.
  destruct (fi_accounts _ Hl a) as (c & Hc & Hch & Hav).
  assert (Et : by_account a t = c).
  { apply (chain_unique s Hv Hseq); [done| |eapply surge_account, std_sort_sorted, surge_strict].
    rewrite <- Hc. unfold by_account. by rewrite Hp. }
  rewrite <- (take_drop n t) in Et. unfold by_account in Et. rewrite filter_app in Et.
  exists (by_account a (take n t)). split; [unfold by_account; by rewrite Hw|].
  rewrite <- Et in Hch. split; [by eapply chain_prefix|]. intros Hne. destruct Hav as (av & Eav & Hle).
  { rewrite <- Et. intros [? _]%app_eq_nil. by apply Hne. }
  exists av. split; [done|]. rewrite <- Et, fees_app in Hle.
  assert (Hd : Forall fee_ok (by_account a (drop n t))).
  { pose proof (fi_fees _ Hl) as Hf. rewrite Forall_forall in Hf |- *. intros x [_ Hx]%list_elem_of_filter.
    apply Hf. rewrite <- Hp. rewrite <- (take_drop n t). apply elem_of_app. by right. }
  apply fees_bound in Hd. unfold by_account in *. lia.
Qed.

End Surge.

End Sets.

Lemma addTx_all txs l h :
  foldl (fun ts tx => addTx tx ts) (mkTxSetFrame l h None) txs = mkTxSetFrame (l ++ txs) h None.
Proof.
  revert l. induction txs as [|tx txs IH]; intros l; cbn [foldl]; [by rewrite app_nil_r|].
  unfold addTx at 2. cbn [mTransactions mPreviousLedgerHash]. by rewrite IH, <- app_assoc.
Qed.

(** Claim C18: a node never proposes an invalid transaction set.  Of any pending
    transactions, [trimInvalid] and then [surgePricingFilter] leave a set that
    [checkValid] accepts and that is not larger than the ledger allows, so
    the exception "wanting to emit an invalid txSet" of triggerNextLedger is
    never thrown. *)
Theorem proposed_set_is_valid {SS : StdSort} {HS : SetHash} {F : FeeRatio} {U : UInt128} {K : StrKeyOrder} {C : Crypto} {HT : TxHash}
    (s : LState) (lclHash : Z) (pending : list TxPtr) ts trimmed :
  8 <= ledgerVersion (st_header s) -> 0 <= maxTxSetSize (st_header s) ->
  (forall a acc, acc_of s a = Some acc -> 0 <= acc_seqNum acc <= INT64_MAX) ->
  NoDup (tp_ptr <$> pending) -> Forall (fun tx => is_u32 (getFee tx)) pending ->
  Z.of_nat (length pending) * UINT32_MAX <= INT64_MAX ->
  trimInvalid s (mkTxSetFrame pending lclHash None) = Ok (ts, trimmed) ->
  let ts' := surgePricingFilter (st_header s) ts in
  checkValidSet s (st_header s) lclHash ts' = Ok true /\ proposeTxSet s lclHash pending = Ok (ts', trimmed).
Proof.
  intros Hv Hmax Hseq Hn Hf Hlen E.
  destruct (trimInvalid_fine s (mkTxSetFrame pending lclHash None) ts trimmed Hn Hf Hlen E) as [Hfine Hprev].
  destruct (surge_fine s Hv Hseq (st_header s) ts Hfine Hmax) as (H1 & H2 & H3). cbv zeta.
  assert (Hc : checkValidSet s (st_header s) lclHash (surgePricingFilter (st_header s) ts) = Ok true).
  { apply fine_valid; [done|done|done|by rewrite H2, Hprev|done]. }
  split; [done|]. unfold proposeTxSet. cbv zeta. rewrite addTx_all. cbn [app]. by rewrite E, bind_ok, Hc.
Qed.
