(* ===== verification/TxSetRuns.v ===== *)
(** * Transaction sets on a concrete ledger

    Insertion sort as [std::sort], a hash of the envelope and fixed-point fee
    ratios: the properties of the transaction sets hold for pending transactions
    of which one is invalid and one is left to a later ledger. *)
From Stdlib Require Import Sorted.
From S2P Require Import Prelude Numeric Exchange LedgerEntries TransactionUtils LedgerTxn OfferBook LedgerState.
From S2P Require Import Operations OfferOperations SubEntries Invariants InvariantManager Signatures Transactions.
From S2P Require Import TransactionSafety TransactionRuns TxSet TxSetOrder TxSetProposal.

(** ** The parameters *)

Section Insertion.
Context {A : Type} (lt : A -> A -> bool).

Fixpoint insert_sorted (x : A) (l : list A) : list A :=
  match l with
  | [] => [x]
  | y :: l' => if lt x y then x :: y :: l' else y :: insert_sorted x l'
  end.
Definition insertion_sort (l : list A) : list A := foldl (fun l x => insert_sorted x l) [] l.

Lemma insert_sorted_perm x l : insert_sorted x l ≡ₚ x :: l.
Proof.
  induction l as [|y l IH]; cbn [insert_sorted]; [done|]. destruct (lt x y); [done|]. rewrite IH. apply Permutation_swap.
Qed.

Lemma insertion_sort_perm l : insertion_sort l ≡ₚ l.
Proof.
  unfold insertion_sort. rewrite <- (app_nil_r l) at 2. generalize (@nil A). induction l as [|x l IH]; intros l'; [done|].
  cbn [foldl app]. rewrite IH, insert_sorted_perm. by rewrite Permutation_middle.
Qed.

Lemma insert_sorted_in_order x l : strict_weak lt -> in_order lt l -> in_order lt (insert_sorted x l).
Proof.
  intros Hlt Ho. induction Ho as [|y l Ho IH Hy]; cbn [insert_sorted]; [repeat constructor|].
  destruct (lt x y) eqn:E; constructor; try done; try (by constructor).
  - assert (Hyx : lt y x = false).
    { destruct (lt y x) eqn:E'; [|done]. rewrite <- (sw_irrefl _ Hlt y). symmetry. by apply (sw_trans _ Hlt y x y). }
    constructor; [done|]. eapply Forall_impl; [exact Hy|]. cbn. intros z Hz. by eapply (sw_incomp _ Hlt).
  - rewrite insert_sorted_perm. by constructor.
Qed.

Lemma insertion_sort_in_order l : strict_weak lt -> in_order lt (insertion_sort l).
Proof.
  intros Hlt. unfold insertion_sort. assert (H : in_order lt []) by constructor. revert H. generalize (@nil A).
  induction l as [|x l IH]; intros l' H; [done|]. cbn [foldl]. apply IH. by apply insert_sorted_in_order.
Qed.
End Insertion.

#[export] Instance run_sort : StdSort := {|
  std_sort A lt l := insertion_sort lt l;
  std_sort_perm A lt l _ := insertion_sort_perm lt l;
  std_sort_sorted A lt l H := insertion_sort_in_order lt l H
|}.

#[export] Program Instance run_setHash : SetHash := {|
  envelopeHash env := Z.abs ((tx_seqNum (env_tx env) * 7919 + tx_sourceAccount (env_tx env) * 104729) mod 1009);
  setHash prev envs := foldl (fun acc env => (acc * 31 + tx_seqNum (env_tx env)) mod 1009) prev envs
|}.
Next Obligation. intros env. cbv beta. apply Z.abs_nonneg. Qed.

#[export] Program Instance run_ratio : FeeRatio := {|
  double := Z; d_ratio fee minFee := fee * 1000 `quot` minFee; d_zero := 0; d_ltb := Z.ltb
|}.
Next Obligation. apply (strict_weak_key id). Qed.

(** ** Pending transactions *)

(** a payment of account [a], signed by it *)
Definition signedTx (ptr a fee seq : Z) : TxPtr :=
  mkTxPtr ptr (mkTransactionEnvelope
    (mkTransaction a fee seq None [mkOperation None (PAYMENT (mkPaymentOp 3 AssetNative 1000))])
    [mkDecoratedSignature (getHint a) [a; 1000 + seq]]).

(** accounts 1, 2 and 3 stand at 7, 3 and 1: the third transaction skips a
    number *)
Definition pendingTxs : list TxPtr :=
  [signedTx 1 1 150 9; signedTx 2 2 120 4; signedTx 3 2 900 7; signedTx 4 1 150 8; signedTx 5 2 130 5; signedTx 6 3 800 2].

(** a ledger takes four transactions *)
Definition small_state : LState :=
  mkLState (mkLedgerHeader 10 0 (mkEssaBlockChainValue 0 50 []) 0 0 7 3000001000 1000 0 9 100 5000 4 [0; 0; 0; 0])
    (<[KeyAccount 1 := run_account 1 1000000000 7 1 0 0 []]> (st_entries run_state)) None false.

Definition proposal : TxSetFrame * list TxPtr :=
  match trimInvalid small_state (mkTxSetFrame pendingTxs 77 None) with Ok r => r | Throw _ => (mkTxSetFrame [] 0 None, []) end.

#[local] Instance number_ok_dec e :
  Decision (match le_data e with ACCOUNT x => 0 <= acc_seqNum x /\ acc_seqNum x <= INT64_MAX | _ => True end).
Proof. destruct (le_data e); apply _. Defined.

Lemma small_state_numbers a acc : acc_of small_state a = Some acc -> 0 <= acc_seqNum acc <= INT64_MAX.
Proof.
  intros E. unfold acc_of in E. destruct (st_entries small_state !! KeyAccount a) as [e|] eqn:Ee; [|done].
  assert (H : map_Forall (fun _ e => match le_data e with
      ACCOUNT x => 0 <= acc_seqNum x /\ acc_seqNum x <= INT64_MAX | _ => True end) (st_entries small_state)).
  { apply (bool_decide_unpack _). by vm_compute. }
  specialize (H _ _ Ee). cbn in H. destruct (le_data e); [|done..]. by injection E as ->.
Qed.

(** the third transaction is trimmed, and of the five that are left the last one
    of account 2, whose fees are low, has to wait *)
Lemma proposed_set_is_valid_witness :
  (checkValidSet small_state (st_header small_state) 77 (surgePricingFilter (st_header small_state) proposal.1) = Ok true /\
   proposeTxSet small_state 77 pendingTxs = Ok (surgePricingFilter (st_header small_state) proposal.1, proposal.2)) /\
  (tp_ptr <$> proposal.2) = [3] /\
  (tp_ptr <$> mTransactions (surgePricingFilter (st_header small_state) proposal.1)) = [6; 1; 4; 2].
Proof.
  split; [|split; [by vm_compute|]].
  - apply (proposed_set_is_valid small_state 77 pendingTxs proposal.1 proposal.2).
    + by vm_compute.
    + by vm_compute.
    + apply small_state_numbers.
    + apply (bool_decide_unpack _). by vm_compute.
    + unfold is_u32. repeat constructor; by vm_compute.
    + by vm_compute.
    + by vm_compute.
  - by vm_compute.
Defined.

(** the same set on a node that got it in another order *)
Definition set1 : TxSetFrame := mkTxSetFrame pendingTxs 77 None.
Definition set2 : TxSetFrame := mkTxSetFrame (rev pendingTxs) 77 None.

Lemma pending_distinct : distinct pendingTxs.
Proof.
  split.
  - intros x y Hx Hy E. apply (inj_on_list getFullHash pendingTxs); [|done..]. apply (bool_decide_unpack _). by vm_compute.
  - intros x y Hx Hy E1 E2. apply (inj_on_list (fun t => (getSourceIDOf t, getSeqNum t)) pendingTxs); [|done..|congruence].
    apply (bool_decide_unpack _). by vm_compute.
  - apply (NoDup_fmap_1 tp_ptr). apply (bool_decide_unpack _). by vm_compute.
Qed.

Lemma apply_order_canonical_witness :
  let r := fst (sortForApply set1) in
  (tp_ptr <$> r) = [2; 4; 6; 5; 1; 3] /\
  r ≡ₚ mTransactions set1 /\ (forall a, in_order SeqSorter (by_account a r)) /\ fst (sortForApply set2) = r.
Proof.
  split; [by vm_compute|].
  apply (apply_order_canonical run_sort run_sort set1 set2);
    [apply Permutation_rev|reflexivity|apply pending_distinct|by left|by left].
Defined.
