(* ===== verification/LedgerClose.v ===== *)
(** * Closing a ledger

    src/src/ledger/LedgerManagerImpl.cpp: [closeLedger] up to the call of
    [ledgerClosed], whose model is in LedgerBatch.v.  The fees of all
    transactions are charged first, then the transactions are applied one after
    the other, then the upgrades.  An exception of a transaction becomes the
    result [txINTERNAL_ERROR], one of an upgrade is dropped.

    Writing the history tables is not modelled.  The frames of the transactions
    come with what earlier checks left in them.  When a transaction throws, the
    failures that the invariants had found in its earlier operations are not
    kept in the manager. *)
From S2P Require Import Prelude Numeric Exchange LedgerEntries TransactionUtils LedgerTxn OfferBook LedgerState.
From S2P Require Import LedgerLogic OfferCross Operations OfferOperations Neutral Conservation OperationsKeep SubEntries.
From S2P Require Import Invariants InvariantManager Signatures Transactions TransactionSafety Termination.
From S2P Require Import Upgrades UpgradeLiabilities TxSet TxSetOrder.

(** ** Data *)

(** [TransactionResultPair] *)
Record TransactionResultPair := mkTransactionResultPair {
  trp_transactionHash : Z;
  trp_feeCharged : Z;
  trp_result : TxResult
}.

Record LedgerCloseData := mkLedgerCloseData {
  lcd_ledgerSeq : Z;
  lcd_txSet : TxSetFrame;
  lcd_value : EssaBlockChainValue
}.

(** SHA-256 of the encoded result set *)
Class ResultHash := { resultSetHash : list TransactionResultPair -> Z }.

Definition CURRENT_LEDGER_PROTOCOL_VERSION : Z := 10.

Definition startHeader (lclHash : Z) (h : LedgerHeader) : LedgerHeader :=
  mkLedgerHeader (ledgerVersion h) lclHash (scpValue h) (txSetResultHash h) (bucketListHash h)
    (u32 (ledgerSeq h + 1)) (totalCoins h) (feePool h) (inflationSeq h) (idPool h) (baseFee h)
    (baseReserve h) (maxTxSetSize h) (skipList h).
Definition set_scpValue (sv : EssaBlockChainValue) (h : LedgerHeader) : LedgerHeader :=
  mkLedgerHeader (ledgerVersion h) (previousLedgerHash h) sv (txSetResultHash h) (bucketListHash h)
    (ledgerSeq h) (totalCoins h) (feePool h) (inflationSeq h) (idPool h) (baseFee h)
    (baseReserve h) (maxTxSetSize h) (skipList h).
Definition set_txSetResultHash (x : Z) (h : LedgerHeader) : LedgerHeader :=
  mkLedgerHeader (ledgerVersion h) (previousLedgerHash h) (scpValue h) x (bucketListHash h)
    (ledgerSeq h) (totalCoins h) (feePool h) (inflationSeq h) (idPool h) (baseFee h)
    (baseReserve h) (maxTxSetSize h) (skipList h).

(** exceptions of C++; a failed assertion and undefined behaviour are not *)
Definition catchable (e : exn) : bool :=
  match e with
  | AssertFailed | NullPointer | DanglingReference | OutOfFuel => false
  | RuntimeError _ | OverflowError _ | XdrWrongUnion | InvalidArgument _ | InvariantDoesNotHold => true
  end.

Section Close.
Context {SS : StdSort} {HS : SetHash} {U : UInt128} {K : StrKeyOrder} {C : Crypto} {HT : TxHash}.
Context {X : UpgradeXdr} {RH : ResultHash}.

(** ** Fees *)

(** the loop, each transaction in its own ledger transaction *)
Fixpoint chargeFees (txs : list (TxPtr * Frame)) : ltm (list (TxPtr * Frame)) :=
  match txs with
  | [] => mret []
  | (tx, fr) :: txs' =>
      fr ← nested (fr ← processFeeSeqNum (tp_env tx) fr; mret (true, fr));
      txs' ← chargeFees txs';
      mret ((tx, fr) :: txs')
  end.
Definition processFeesSeqNums (txs : list (TxPtr * Frame)) : ltm (list (TxPtr * Frame)) :=
  nested (txs ← chargeFees txs; mret (true, txs)).

(** ** Transactions *)

(** the ledger after an exception of [TransactionFrame::apply]: the ledger
    transactions that were open are rolled back, the sequence number and the
    signers stay as the first block committed them *)
Definition afterThrow (env : TransactionEnvelope) (fr : Frame) (s : LState) : LState :=
  match (_ ← forgetAccount; sc ← newChecker env; validateForApply env (set_fr_checker sc fr)) s with
  | Ok (_, s') => s'
  | Throw _ => s
  end.

Definition applyTransaction (tx : TxPtr) (fr : Frame) (im : InvariantManager) : ltm (Frame * InvariantManager) :=
  fun s =>
    match Transactions.apply (tp_env tx) fr im s with
    | Ok ((_, fr, im), s) => Ok ((fr, im), s)
    | Throw InvariantDoesNotHold => Throw InvariantDoesNotHold
    | Throw e =>
        if catchable e
        then Ok ((set_fr_result txINTERNAL_ERROR fr, im), afterThrow (tp_env tx) fr s)
        else Throw e
    end.

Definition getResultPair (tx : TxPtr) (fr : Frame) : TransactionResultPair :=
  mkTransactionResultPair (getContentsHash (env_tx (tp_env tx))) (fr_feeCharged fr) (fr_result fr).

Fixpoint applyTransactions (txs : list (TxPtr * Frame)) (im : InvariantManager)
    (txResultSet : list TransactionResultPair) : ltm (list TransactionResultPair * InvariantManager) :=
  match txs with
  | [] => mret (txResultSet, im)
  | (tx, fr) :: txs' =>
      '(fr, im) ← applyTransaction tx fr im;
      applyTransactions txs' im (txResultSet ++ [getResultPair tx fr])
  end.

(** ** Upgrades *)

Definition applyUpgrade (lupgrade : LedgerUpgrade) : ltm unit := fun s =>
  match nested (r ← applyTo lupgrade; mret (true, r)) s with
  | Ok r => Ok r
  | Throw e => if catchable e then Ok (tt, s) else Throw e
  end.

Fixpoint applyUpgrades (upgrades : list (list Z)) : ltm unit :=
  match upgrades with
  | [] => mret tt
  | u :: upgrades' =>
      match upgrade_from_opaque u with
      | None => throw_msg "xdr_runtime_error"
      | Some lupgrade => _ ← applyUpgrade lupgrade; applyUpgrades upgrades'
      end
  end.

(** ** The ledger *)

Definition closeLedger (lclHash : Z) (ledgerData : LedgerCloseData) (frames : TxPtr -> Frame) (im : InvariantManager)
    : ltm (list TransactionResultPair * InvariantManager) :=
  _ ← ltx_setHeader (startHeader lclHash);
  header ← ltx_loadHeader;
  let sv := lcd_value ledgerData in
  if ledgerVersion header >? CURRENT_LEDGER_PROTOCOL_VERSION
  then throw_msg "cannot apply ledger with not supported version"
  else
  let '(previous, txSet) := previousLedgerHash_ref (lcd_txSet ledgerData) in
  if negb (previous =? lclHash) then throw_msg "txset mismatch"
  else
    let '(hash, txSet) := setContentsHash txSet in
    if negb (hash =? sv_txSetHash sv) then throw_msg "corrupt transaction set"
    else
      _ ← ltx_setHeader (set_scpValue sv);
      let '(txs, _) := sortForApply txSet in
      txs ← processFeesSeqNums ((fun tx => (tx, frames tx)) <$> txs);
      '(txResultSet, im) ← applyTransactions txs im [];
      _ ← ltx_setHeader (set_txSetResultHash (resultSetHash txResultSet));
      _ ← applyUpgrades (sv_upgrades sv);
      mret (txResultSet, im).

End Close.

(** the transactions of the set as they are applied *)
Definition closing_order {SS : StdSort} {HS : SetHash} (ts : TxSetFrame) : list TxPtr :=
  fst (sortForApply (snd (setContentsHash (snd (previousLedgerHash_ref ts))))).

(** ** Relations that every step of closing keeps

    Coins and counts of sub-entries are kept by the same argument: a relation
    between ledgers that the three kinds of work satisfy. *)

Section Steps.
Context {SS : StdSort} {HS : SetHash} {U : UInt128} {K : StrKeyOrder} {C : Crypto} {HT : TxHash}.
Context {X : UpgradeXdr} {RH : ResultHash}.

(** ledgers in which the computations make sense, and what they may do to one *)
Variable ok : LState -> Prop.
Variable rel : LState -> LState -> Prop.

Record Steps (typed : TransactionEnvelope -> Prop) (fair : LedgerUpgrade -> Prop) : Prop := {
  st_rel_ok : forall s s', rel s s' -> ok s';
  st_same : forall s s', ok s -> same s s' -> rel s s';
  st_trans : forall s1 s2 s3, rel s1 s2 -> rel s2 s3 -> rel s1 s3;
  st_head : forall f s, ok s ->
    ledgerVersion (f (st_header s)) = ledgerVersion (st_header s) ->
    totalCoins (f (st_header s)) = totalCoins (st_header s) -> feePool (f (st_header s)) = feePool (st_header s) ->
    rel s (set_st_header (f (st_header s)) s);
  st_fee : forall env fr s, ok s -> typed env -> run (processFeeSeqNum env fr) s (fun _ s' => rel s s');
  st_validate : forall env fr s, ok s -> typed env -> run (validateForApply env fr) s (fun _ s' => rel s s');
  st_apply : forall env fr im s, ok s -> typed env -> run (Transactions.apply env fr im) s (fun _ s' => rel s s');
  st_upgrade : forall u s, ok s -> fair u -> run (applyTo u) s (fun _ s' => rel s s')
}.

Context {typed : TransactionEnvelope -> Prop} {fair : LedgerUpgrade -> Prop}.
Hypothesis St : Steps typed fair.

Lemma st_refl s : ok s -> rel s s.
Proof. intros H. apply (st_same _ _ St); [done|apply same_refl]. Qed.

Lemma steps_nested {A} (m : ltm A) s :
  ok s -> (forall t, ok t -> run m t (fun _ t' => rel t t')) ->
  run (nested (a ← m; mret (true, a))) s (fun _ s' => rel s s').
Proof.
  intros G Hm a s' (b & s1 & E & Hb)%nested_ok. apply ltm_bind_ok in E as (a' & s2 & E & E2). apply ltm_ret_ok in E2 as [[= -> ->] ->].
  pose proof (st_same _ _ St _ _ G (unshared_same s)) as R0.
  pose proof (Hm _ (st_rel_ok _ _ St _ _ R0) _ _ E) as R1. cbv beta in R1. eapply (st_trans _ _ St); [exact R0|].
  eapply (st_trans _ _ St); [exact R1|]. apply (st_same _ _ St); [by eapply (st_rel_ok _ _ St)|exact Hb].
Qed.

Definition all_typed (txs : list (TxPtr * Frame)) : Prop := Forall (fun p => typed (tp_env (fst p))) txs.

Lemma steps_chargeFees txs s : ok s -> all_typed txs -> run (chargeFees txs) s (fun r s' => rel s s' /\ r.*1 = txs.*1).
Proof.
  intros G Ht. revert s G. induction Ht as [|[tx fr] txs Htx _ IH]; intros s G; cbn [chargeFees].
  { apply run_ret. split; [by apply st_refl|done]. }
  apply run_bind. eapply run_mono.
  { eapply steps_nested; [exact G|]. intros t Gt. by apply (st_fee _ _ St). }
  intros fr' s1 R1. apply run_bind. eapply run_mono; [apply IH; exact (st_rel_ok _ _ St _ _ R1)|].
  intros r s2 [R2 E2]. apply run_ret. split; [exact (st_trans _ _ St _ _ _ R1 R2)|]. cbn. congruence.
Qed.

Lemma steps_fees txs s :
  ok s -> all_typed txs -> run (processFeesSeqNums txs) s (fun r s' => rel s s' /\ r.*1 = txs.*1).
Proof.
  intros G Ht r s' E. split.
  - revert r s' E. apply steps_nested; [done|]. intros t Gt. eapply run_mono; [by apply steps_chargeFees|]. by intros ? ? [? _].
  - apply nested_ok in E as (b & s1 & E & _). apply ltm_bind_ok in E as (r' & s2 & E & E2). apply ltm_ret_ok in E2 as [[= -> ->] ->].
    eapply steps_chargeFees in E as [_ E]; [done| |done]. eapply (st_rel_ok _ _ St), (st_same _ _ St); [done|apply unshared_same].
Qed.

Lemma steps_applyTransaction tx fr im s :
  ok s -> typed (tp_env tx) -> run (applyTransaction tx fr im) s (fun _ s' => rel s s').
Proof.
  intros G Ht [fr' im'] s' E. unfold applyTransaction in E.
  destruct (Transactions.apply (tp_env tx) fr im s) as [[[[b fr1] im1] s1]|e] eqn:Ea.
  - injection E as <- <- <-. by eapply (st_apply _ _ St).
  - assert (Es : s' = afterThrow (tp_env tx) fr s) by (destruct e; cbn in E; congruence). subst s'. clear E Ea.
    unfold afterThrow. destruct ((_ ← forgetAccount; _) s) as [[r s1]|] eqn:E; [|by apply st_refl].
    apply ltm_bind_ok in E as (u & s2 & E2 & E). apply ltm_bind_ok in E as (sc & s3 & E3 & E).
    pose proof (same_trans _ _ _ (quiet _ _ _ E2) (quiet _ _ _ E3)) as S.
    pose proof (st_same _ _ St _ _ G S) as R. eapply (st_trans _ _ St); [exact R|].
    eapply (st_validate _ _ St); [by eapply (st_rel_ok _ _ St)|exact Ht|exact E].
Qed.

Lemma steps_applyTransactions txs im rs s :
  ok s -> all_typed txs ->
  run (applyTransactions txs im rs) s (fun r s' => rel s s' /\
    trp_transactionHash <$> fst r = (trp_transactionHash <$> rs) ++ ((fun p => getContentsHash (env_tx (tp_env (fst p)))) <$> txs)).
Proof.
  intros G Ht. revert im rs s G. induction Ht as [|[tx fr] txs Htx _ IH]; intros im rs s G; cbn [applyTransactions].
  { apply run_ret. split; [by apply st_refl|]. cbn. by rewrite app_nil_r. }
  apply run_bind. eapply run_mono; [by apply steps_applyTransaction|]. intros [fr' im'] s1 R1.
  eapply run_mono; [apply IH; exact (st_rel_ok _ _ St _ _ R1)|]. intros r s2 [R2 E2]. split; [exact (st_trans _ _ St _ _ _ R1 R2)|].
  rewrite E2, fmap_app. cbn. by rewrite <- app_assoc.
Qed.

Lemma steps_applyUpgrades us s :
  ok s -> Forall (fun u => forall lu, upgrade_from_opaque u = Some lu -> fair lu) us ->
  run (applyUpgrades us) s (fun _ s' => rel s s').
Proof.
  intros G Ht. revert s G. induction Ht as [|u us Hu _ IH]; intros s G; cbn [applyUpgrades]; [by apply run_ret, st_refl|].
  destruct (upgrade_from_opaque u) as [lu|]; [|apply run_throw]. apply run_bind.
  assert (HR : run (applyUpgrade lu) s (fun _ s' => rel s s')).
  { intros [] s' E. unfold applyUpgrade in E. destruct (nested _ s) as [[[] s1]|e] eqn:En.
    - injection E as <-. eapply steps_nested; [exact G| |exact En]. intros t Gt. apply (st_upgrade _ _ St); eauto.
    - destruct (catchable e); [injection E as <-; by apply st_refl|done]. }
  eapply run_mono; [exact HR|]. intros [] s1 R1. eapply run_mono; [apply IH; exact (st_rel_ok _ _ St _ _ R1)|].
  intros [] s2 R2. exact (st_trans _ _ St _ _ _ R1 R2).
Qed.

(** the whole of closing *)
Lemma steps_closeLedger lclHash ledgerData frames im s :
  ok s -> Forall (fun tx => typed (tp_env tx)) (closing_order (lcd_txSet ledgerData)) ->
  Forall (fun u => forall lu, upgrade_from_opaque u = Some lu -> fair lu) (sv_upgrades (lcd_value ledgerData)) ->
  run (closeLedger lclHash ledgerData frames im) s (fun r s' => rel s s' /\
    trp_transactionHash <$> fst r =
      (fun tx => getContentsHash (env_tx (tp_env tx))) <$> closing_order (lcd_txSet ledgerData)).
Proof.
  intros G Ht Hu. unfold closeLedger. apply run_bind. intros [] s1 E1. injection E1 as <-. set (s1 := set_st_header _ s).
  assert (R1 : rel s s1) by (by apply (st_head _ _ St (startHeader lclHash) s)).
  apply run_bind, run_header. cbv zeta. rif; [apply run_throw|]. unfold closing_order in *.
  destruct (previousLedgerHash_ref _) as [previous ts]. cbn [snd] in Ht |- *. rif; [apply run_throw|].
  destruct (setContentsHash ts) as [hash txSet]. cbn [snd] in Ht |- *. rif; [apply run_throw|].
  apply run_bind. intros [] s2 E2. injection E2 as <-. set (s2 := set_st_header _ s1).
  assert (R2 : rel s1 s2) by (apply (st_head _ _ St (set_scpValue (lcd_value ledgerData)) s1); [exact (st_rel_ok _ _ St _ _ R1)|done..]).
  destruct (sortForApply txSet) as [txs txSet']. cbn [fst] in Ht |- *. apply run_bind.
  set (l := (fun tx => (tx, frames tx)) <$> txs).
  assert (Hl : all_typed l) by (by apply Forall_fmap).
  eapply run_mono; [apply steps_fees; [exact (st_rel_ok _ _ St _ _ R2)|exact Hl]|]. intros l' s3 [R3 El].
  assert (Hl' : all_typed l').
  { apply Forall_forall. intros p Hp. unfold all_typed in Hl. rewrite Forall_forall in Hl.
    assert (Hin : fst p ∈ l.*1) by (rewrite <- El; by apply list_elem_of_fmap_2).
    apply list_elem_of_fmap in Hin as (q & -> & Hq). by apply Hl. }
  apply run_bind. eapply run_mono; [apply steps_applyTransactions; [exact (st_rel_ok _ _ St _ _ R3)|exact Hl']|].
  intros [rs im'] s4 [R4 Er]. apply run_bind. intros [] s5 E5. injection E5 as <-. set (s5 := set_st_header _ s4).
  assert (R5 : rel s4 s5) by (apply (st_head _ _ St (set_txSetResultHash (resultSetHash rs)) s4); [exact (st_rel_ok _ _ St _ _ R4)|done..]).
  apply run_bind. eapply run_mono; [apply steps_applyUpgrades; [exact (st_rel_ok _ _ St _ _ R5)|exact Hu]|].
  intros [] s6 R6. apply run_ret. split.
  - do 5 (eapply (st_trans _ _ St); [eassumption|]). exact R6.
  - cbn in Er |- *. rewrite Er. transitivity ((fun tx => getContentsHash (env_tx (tp_env tx))) <$> l'.*1).
    + by rewrite <- list_fmap_compose.
    + rewrite El. unfold l. by rewrite <- !list_fmap_compose.
Qed.

End Steps.

(** ** Preparing the offers *)

#[export] Hint Opaque ltx_loadAllOffers updateOffer updateOffers initialOf writeLiabilities prepareAccount
  prepareAccounts prepareLiabilities decideOffer writeNative writeTrust : typeclass_instances.

Section Upgrading.
Context {U : UInt128}.
Variable h : LedgerHeader.

Section Writes.
Context {mu : Measure} {N : Neutral mu}.

#[export] Instance keeps_writeNative k l : Keeps (writeNative h k l).
Proof. unfold writeNative. apply _. Qed.
#[export] Instance keeps_writeTrust a A l : Keeps (writeTrust h a A l).
Proof. unfold writeTrust, tlw_getSellingLiabilities, tlw_getBuyingLiabilities. apply _. Qed.
#[export] Instance keeps_writeLiabilities a k l : Keeps (writeLiabilities h a k l).
Proof. induction l as [|[A x] l IH]; cbn [writeLiabilities]; apply _. Qed.
End Writes.

(** An account counts one entry less for every offer of it that is erased: in
    a measure that rises by [delta] with an offer of account [a] gone, and
    sinks by as much with the count of [a], nothing moves. *)
Section Erasing.
Context {mu : Measure} {N : Neutral mu}.
Variables (a : AccountID) (delta : Z).
Hypothesis erase_delta : forall i s0 s d (Q : unit -> LState -> Prop),
  moves s0 s d -> (forall s', moves s0 s' (d + delta) -> Q tt s') -> run (ltx_erase (KeyOffer a i)) s Q.
Hypothesis count_delta : forall s0 s d (Q : bool -> LState -> Prop),
  moves s0 s d -> (forall ok s', moves s0 s' (d - delta) -> Q ok s') ->
  run (ltx_update (KeyAccount a) (fun e => addNumEntries h e (-1))) s Q.

Lemma run_setCurrent k e e' s0 s d (Q : unit -> LState -> Prop) :
  moves s0 s d -> st_entries s !! k = Some e -> alike e e' -> (forall s', moves s0 s' d -> Q tt s') ->
  run (ltx_set_current k e') s Q.
Proof.
  intros M Ek Ha H [] s' E. unfold ltx_set_current in E. rewrite Ek in E. injection E as <-. apply H.
  pose proof (moves_good _ _ _ M) as G. destruct (neutral _ _ Ha) as [Hw Hr].
  eapply moves_eq; [|eapply moves_trans; [exact M|eapply put_moves; [exact G|by rewrite put_entries|by rewrite put_header|..]]].
  - rewrite Ek. cbn. lia.
  - rewrite (alike_key _ _ Ha). by apply (good_keys _ G).
  - by apply Hr, (good_range _ G k).
Qed.

Lemma run_updateOffer k x y L ib is_ s0 s d (Q : UpdateOfferResult * gmap Asset Liabilities -> LState -> Prop) :
  owner k = a -> moves s0 s d ->
  (forall r L' s', moves s0 s' (d + if dropped r then delta else 0) -> Q (r, L') s') ->
  run (updateOffer h k x y L ib is_) s Q.
Proof.
  intros Hk M H. unfold updateOffer. apply run_bind. intros e t Et. unfold ltx_current in Et.
  destruct (st_entries s !! k) as [e'|] eqn:Ek; [|done]. injection Et as <- <-.
  apply run_bind, run_lift. intros o Eo%get_offer_ok.
  assert (Ekey : k = KeyOffer a (oe_offerID o)).
  { pose proof (good_keys _ (moves_good _ _ _ M) _ _ Ek) as Hkey. unfold LedgerEntryKey in Hkey. rewrite Eo in Hkey.
    rewrite <- Hkey in Hk |- *. by rewrite <- Hk. }
  subst k.
  apply run_bind. intros [er r] s1 E1.
  pose proof (quiet _ _ _ E1) as [Hh He]. assert (M1 : moves s0 s1 d).
  { eapply moves_eq; [|eapply moves_trans; [exact M|apply same_moves; [by destruct M|split; [exact Hh|exact He]]]]. lia. }
  assert (Hr : er = dropped r).
  { unfold decideOffer in E1. apply ltm_bind_ok in E1 as (b1 & t1 & _ & E1). apply ltm_bind_ok in E1 as (b2 & t2 & _ & E1).
    destruct b2; [by apply ltm_ret_ok in E1 as [[= -> ->] _]|]. apply ltm_bind_ok in E1 as (x1 & t3 & _ & E1).
    apply ltm_ret_ok in E1 as [E1 _]. destruct (x1 =? 0); by injection E1 as -> ->. }
  rewrite Hr. destruct (dropped r) eqn:Er.
  - apply run_bind. eapply erase_delta; [exact M1|]. intros s2 M2. apply run_ret. apply H. by rewrite Er.
  - apply run_bind, run_lift. intros adj _. apply run_bind.
    match goal with |- run (if ?b then _ else _) _ _ => destruct b end.
    + apply run_bind. eapply run_setCurrent; [exact M1|by rewrite He|by apply alike_data; rewrite Eo|].
      intros s2 M2. apply run_ret. clear M M1. rename M2 into M. rstep. rstep. rstep. apply run_ret. apply H. cbn. eapply moves_eq; [|exact M]. lia.
    + apply run_ret. clear M. rename M1 into M. rstep. rstep. rstep. apply run_ret. apply H. rewrite Er. eapply moves_eq; [|exact M]. lia.
Qed.

Lemma keeps_updateOffers l x y ib is_ L :
  Forall (fun k => owner k = a) l -> Keeps (updateOffers h l (KeyAccount a) x y ib is_ L).
Proof.
  intros Hl. revert L. induction Hl as [|k l Hk _ IH]; intros L; cbn [updateOffers]; [apply _|].
  apply keeps_run. intros s G M. apply run_bind. eapply run_updateOffer; [done|exact M|]. clear M. intros r L' s1 M.
  apply run_bind. destruct r; cbn [dropped] in M.
  1, 2: apply run_ret; eapply run_keeps; [apply IH|exact M|]; intros ? s2 M2; eapply moves_eq; [|exact M2]; lia.
  all: eapply count_delta; [exact M|]; intros b s2 M2; eapply run_keeps; [apply IH|exact M2|];
    intros ? s3 M3; eapply moves_eq; [|exact M3]; lia.
Qed.

Lemma keeps_prepareAccount l : Forall (fun k => owner k = a) l -> Keeps (prepareAccount h a l).
Proof.
  intros Hl. apply keeps_run. intros s G M. unfold prepareAccount. apply run_bind. eapply run_keeps; [apply _|exact M|].
  clear M. intros [ib is_] s0 M.
  apply run_bind. eapply run_loadAccount; [exact M|]. clear M. intros o s1 _ Ho M. destruct o as [k|]; [|apply run_throw].
  destruct Ho as [[= ->]|]; [|done]. rstep. rstep. cbv zeta. apply run_bind.
  eapply run_keeps; [by apply keeps_updateOffers|exact M|]. clear M. intros L s3 M.
  eapply run_keeps; [apply _|exact M|]. intros [] s4 M4. eapply moves_eq; [|exact M4]. lia.
Qed.

End Erasing.

End Upgrading.

(** the keys of the offers of an account *)
Lemma offers_of_owner m a : Forall (fun k => owner k = a) (offers_of m a).
Proof.
  apply Forall_forall. intros k (kv & -> & [Hs _]%list_elem_of_filter)%list_elem_of_fmap.
  unfold seller_of in Hs. by destruct (fst kv); try discriminate Hs; injection Hs as ->.
Qed.

Section Prepared.
Context {U : UInt128} {mu : Measure} {N : Neutral mu}.
Variable h : LedgerHeader.
Hypothesis account_keeps : forall a l, Forall (fun k => owner k = a) l -> Keeps (prepareAccount h a l).

Lemma keeps_prepare : Keeps (prepareLiabilities h).
Proof.
  apply keeps_run. intros s G M. unfold prepareLiabilities. apply run_bind.
  intros l s1 E. injection E as <- <-. set (l := (fun a => _) <$> _).
  assert (Hl : Forall (fun p => Forall (fun k => owner k = fst p) (snd p)) l).
  { apply Forall_fmap, Forall_forall. intros a _. cbn. apply offers_of_owner. }
  revert Hl. generalize l. clear l. intros l Hl.
  assert (HK : Keeps (prepareAccounts h l)).
  { induction Hl as [|[a ks] l Hk _ IH]; cbn [prepareAccounts]; [apply _|].
    apply keeps_bind; [by apply account_keeps|done]. }
  eapply run_keeps; [exact HK|exact M|]. intros [] s2 M2. eapply moves_eq; [|exact M2]. lia.
Qed.
End Prepared.

(** ** Coins *)

Section Coins.
Context {SS : StdSort} {HS : SetHash} {U : UInt128} {K : StrKeyOrder} {C : Crypto} {HT : TxHash}.
Context {X : UpgradeXdr} {RH : ResultHash}.

#[local] Existing Instance coin_measure | 0.

#[local] Instance coin_prepare h : Keeps (prepareLiabilities h).
Proof.
  apply keeps_prepare. intros a l. apply (keeps_prepareAccount h a 0).
  - intros i s0 s d Q M H. eapply run_keeps; [apply _|exact M|]. intros [] s' M'. apply H. eapply moves_eq; [|exact M']. lia.
  - intros s0 s d Q M H. eapply run_keeps; [apply _|exact M|]. intros b s' M'. apply H. eapply moves_eq; [|exact M']. lia.
Qed.

Definition tx_typed (env : TransactionEnvelope) : Prop :=
  is_u32 (tx_fee (env_tx env)) /\ Forall (fun op => op_typed (op_body op)) (tx_operations (env_tx env)).
Definition upgrade_fair (u : LedgerUpgrade) : Prop :=
  match u with LEDGER_UPGRADE_VERSION v => 8 <= v | _ => True end.

Lemma header_balanced f s :
  good s -> 8 <= ledgerVersion (f (st_header s)) ->
  totalCoins (f (st_header s)) = totalCoins (st_header s) -> feePool (f (st_header s)) = feePool (st_header s) ->
  balanced s (set_st_header (f (st_header s)) s).
Proof.
  intros [G1 G2 G3] Hv Ht Hf. split; [by split|]. cbn. rewrite Ht, Hf. done.
Qed.

Lemma applyTo_balanced u s : good s -> upgrade_fair u -> run (applyTo u) s (fun _ s' => balanced s s').
Proof.
  intros G Hu. assert (Hh : forall f, 8 <= ledgerVersion (f (st_header s)) ->
    totalCoins (f (st_header s)) = totalCoins (st_header s) -> feePool (f (st_header s)) = feePool (st_header s) ->
    balanced s (set_st_header (f (st_header s)) s)) by (intros f; by apply header_balanced).
  pose proof (good_version _ G) as Hv.
  assert (Hp : forall f h', 8 <= ledgerVersion (f (st_header s)) ->
    totalCoins (f (st_header s)) = totalCoins (st_header s) -> feePool (f (st_header s)) = feePool (st_header s) ->
    run (prepareLiabilities h') (set_st_header (f (st_header s)) s) (fun _ s' => balanced s s')).
  { intros f h' H1 H2 H3. pose proof (Hh f H1 H2 H3) as B. eapply run_keeps; [apply _|apply moves_refl, B|].
    intros [] s2 M. eapply balanced_trans; [exact B|by apply moves_balanced]. }
  destruct u as [v|x|x|r]; cbn [applyTo].
  - unfold applyVersionUpgrade. apply run_bind, run_header. apply run_bind. intros [] s1 E. injection E as <-. cbn in Hu.
    rif; [apply run_bind, run_header; by apply (Hp (set_ledgerVersion v))|]. apply run_ret. by apply (Hh (set_ledgerVersion v)).
  - intros [] s' E. injection E as <-. by apply (Hh (set_baseFee x)).
  - intros [] s' E. injection E as <-. by apply (Hh (set_maxTxSetSize x)).
  - unfold applyReserveUpgrade. apply run_bind, run_header. apply run_bind. intros [] s1 E. injection E as <-.
    apply run_bind, run_header. rif; [by apply (Hp (set_baseReserve r))|]. apply run_ret. by apply (Hh (set_baseReserve r)).
Qed.

Lemma coin_steps : Steps good balanced tx_typed upgrade_fair.
Proof.
  split.
  - intros s s' []. done.
  - intros. by apply same_balanced.
  - apply balanced_trans.
  - intros f s G Hv Ht Hf. apply header_balanced; try done. rewrite Hv. apply G.
  - intros env fr s G [Hf _]. by apply processFee_balanced.
  - intros env fr s G _ r s' E. apply moves_balanced. assert (HK : Keeps (validateForApply env fr)) by apply _. exact (HK _ _ _ G E).
  - intros env fr im s G [_ Ht]. by apply apply_balanced.
  - apply applyTo_balanced.
Qed.

(** Claim C2: closing a ledger neither creates nor destroys coins.  Over the
    whole of [closeLedger], the fees, every transaction, whether it succeeds,
    fails or throws, inflation included, and all upgrades, what the balances
    of all accounts and the fee pool together lack of the total in the header
    stays the same; and the result set has one result for each transaction, in
    the order in which they were applied. *)
Theorem ledger_conserves_coins lclHash ledgerData frames im s rs im' s' :
  good s -> Forall (fun tx => tx_typed (tp_env tx)) (mTransactions (lcd_txSet ledgerData)) ->
  Forall (fun u => forall lu, upgrade_from_opaque u = Some lu -> upgrade_fair lu) (sv_upgrades (lcd_value ledgerData)) ->
  closeLedger lclHash ledgerData frames im s = Ok ((rs, im'), s') ->
  balanced s s' /\
  trp_transactionHash <$> rs =
    (fun tx => getContentsHash (env_tx (tp_env tx))) <$> closing_order (lcd_txSet ledgerData).
Proof.
  intros G Ht Hu E. eapply (steps_closeLedger _ _ coin_steps) in E; [exact E|done| |done].
  unfold closing_order. by rewrite closing_order_perm.
Qed.

End Coins.

(** ** Counts of sub-entries *)

Section Counts.
Context {SS : StdSort} {HS : SetHash} {U : UInt128} {K : StrKeyOrder} {C : Crypto} {HT : TxHash}.
Context {X : UpgradeXdr} {RH : ResultHash}.

Section Account.
Variable a : AccountID.
#[local] Existing Instance sub_measure | 0.
#[local] Remove Hints coin_measure : typeclass_instances.

#[local] Instance sub_prepare h : Keeps (mu := sub_measure a) (prepareLiabilities h).
Proof.
  apply keeps_prepare. intros b l. apply (keeps_prepareAccount h b (if b =? a then 1 else 0)).
  - intros i s0 s d Q M H. eapply run_erase_sub; [exact M|done|]. intros s' M'. apply H. eapply moves_eq; [|exact M'].
    unfold mine. cbn. destruct (b =? a); lia.
  - intros s0 s d Q M H. eapply run_count; [exact M|lia|]. intros b' s' Hb M'. rewrite Hb in M' by lia. eapply H.
    eapply moves_eq; [|exact M']. unfold mine. cbn. destruct (b =? a); lia.
Qed.

Lemma keeps_balance h b : Keeps (mu := sub_measure a) (modifyAccount h (set_acc_balance b)).
Proof.
  apply updateEntry_keeps. intros k. apply keeps_update, counts_keep. intros e x e' H.
  apply bind_ok_inv in H as (acc & Ha%get_account_ok & [= <- <-]). unfold LedgerEntryKey. cbn. by rewrite Ha.
Qed.

Lemma processFee_steady env fr s :
  good (mu := sub_measure a) s -> run (processFeeSeqNum env fr) s (fun _ s' => steady a s s').
Proof.
  intros G. pose proof (moves_refl s G) as M. unfold processFeeSeqNum. do 3 rstep.
  match goal with |- run (match ?o with _ => _ end) _ _ => destruct o as [k|] end; [|apply run_throw]. rstep.
  apply run_bind. pose proof (moves_steady _ _ _ M) as S.
  apply (run_mono _ _ (fun _ s' => steady a s s')).
  - rif; [|by apply run_ret]. apply run_bind, run_lift. intros [ok b] _. apply run_bind.
    eapply run_keeps; [apply keeps_balance|exact M|]. clear M. intros u s5 M. apply run_bind. intros u' s6 E.
    injection E as _ <-. apply run_ret. eapply steady_trans; [by apply moves_steady|].
    apply (steady_header a s5 (fun lh => set_feePool _ lh)); [by destruct M|]. apply (good_version _ (moves_good _ _ _ M)).
  - clear M. intros fr' s5 S2. cbv beta in S2. pose proof (moves_refl s5 (steady_good _ _ _ S2)) as M.
    apply run_bind. rif; [rif; [apply run_throw|]|].
    + eapply run_keeps; [apply (modifyAccount_keeps (mu := sub_measure a)); by repeat split|exact M|]. intros u s6 M3. apply run_ret.
      eapply steady_trans; [exact S2|by apply moves_steady].
    + by do 2 apply run_ret.
Qed.

Lemma applyTo_steady u s :
  good (mu := sub_measure a) s -> upgrade_fair u -> run (applyTo u) s (fun _ s' => steady a s s').
Proof.
  intros G Hu. assert (Hh : forall f, 8 <= ledgerVersion (f (st_header s)) ->
    steady a s (set_st_header (f (st_header s)) s)) by (intros f; by apply (steady_header a s f)).
  pose proof (good_version _ G) as Hv.
  assert (Hp : forall f h', 8 <= ledgerVersion (f (st_header s)) ->
    run (prepareLiabilities h') (set_st_header (f (st_header s)) s) (fun _ s' => steady a s s')).
  { intros f h' H1. pose proof (Hh f H1) as B. eapply run_keeps; [apply _|apply moves_refl, B|].
    intros [] s2 M. eapply steady_trans; [exact B|by apply moves_steady]. }
  destruct u as [v|x|x|r]; cbn [applyTo].
  - unfold applyVersionUpgrade. apply run_bind, run_header. apply run_bind. intros [] s1 E. injection E as <-. cbn in Hu.
    rif; [apply run_bind, run_header; by apply (Hp (set_ledgerVersion v))|]. apply run_ret. by apply (Hh (set_ledgerVersion v)).
  - intros [] s' E. injection E as <-. by apply (Hh (set_baseFee x)).
  - intros [] s' E. injection E as <-. by apply (Hh (set_maxTxSetSize x)).
  - unfold applyReserveUpgrade. apply run_bind, run_header. apply run_bind. intros [] s1 E. injection E as <-.
    apply run_bind, run_header. rif; [by apply (Hp (set_baseReserve r))|]. apply run_ret. by apply (Hh (set_baseReserve r)).
Qed.

Lemma count_steps : Steps (good (mu := sub_measure a)) (steady a) (fun _ => True) upgrade_fair.
Proof.
  split.
  - by intros s s' [].
  - intros. by apply same_steady.
  - apply steady_trans.
  - intros f s G Hv _ _. apply (steady_header a s f); [done|]. rewrite Hv. apply G.
  - intros env fr s G _. by apply processFee_steady.
  - intros env fr s G _ r s' E. apply moves_steady.
    assert (HK : Keeps (mu := sub_measure a) (validateForApply env fr)) by apply _. exact (HK _ _ _ G E).
  - intros env fr im s G _. by apply apply_steady.
  - apply applyTo_steady.
Qed.

End Account.

(** Claim C25: closing a ledger keeps the counts of sub-entries right: if every
    account counts exactly its signers, trust lines, offers and data entries,
    and no entry has lost its account, then this holds again after
    [closeLedger], with transactions that throw in the middle and with
    upgrades that erase offers. *)
Theorem ledger_keeps_subentry_counts lclHash ledgerData frames im s r s' :
  counted s -> well_counted s ->
  Forall (fun u => forall lu, upgrade_from_opaque u = Some lu -> upgrade_fair lu) (sv_upgrades (lcd_value ledgerData)) ->
  closeLedger lclHash ledgerData frames im s = Ok (r, s') -> counted s' /\ well_counted s'.
Proof.
  intros G W Hu E. eapply steady_counted; [exact G|exact W|]. intros a.
  eapply (steps_closeLedger _ _ (count_steps a)) in E as [E _]; [exact E|by apply counted_good| |done].
  by apply Forall_forall.
Qed.

End Counts.

(** ** Closing comes to an end *)

Section Ends.
Context {SS : StdSort} {HS : SetHash} {U : UInt128} {K : StrKeyOrder} {C : Crypto} {HT : TxHash}.
Context {X : UpgradeXdr} {RH : ResultHash}.

#[export] Instance nofuel_addLiabilities m a A d : NoFuel (addLiabilities m a A d).
Proof. unfold addLiabilities. no_fuel. Qed.
#[export] Instance nofuel_addSide b a A r L : NoFuel r -> NoFuel (addSide b a A r L).
Proof. intros H. unfold addSide, bearsLiabilities, addTo. no_fuel. Qed.

#[export] Instance within_capBalance a A x : Within any (getAvailableBalanceExcludingLiabilities a A x).
Proof. unfold getAvailableBalanceExcludingLiabilities. walk. Qed.
#[export] Instance within_capLimit a A x : Within any (getAvailableLimitExcludingLiabilities a A x).
Proof. unfold getAvailableLimitExcludingLiabilities. walk. Qed.
#[export] Instance within_decideOffer o x y ib is_ : Within any (decideOffer o x y ib is_).
Proof. unfold decideOffer, shouldDeleteOffer. walk. Qed.

Lemma within_setCurrent k e : LedgerEntryKey e = k -> Within any (ltx_set_current k e).
Proof.
  intros Hk s Ks. unfold ltx_set_current. destruct (st_entries s !! k); [|done]. split; [|done].
  rewrite put_entries. by apply keys_insert.
Qed.

Section Header.
Variable h : LedgerHeader.

#[export] Instance within_updateOffer k x y L ib is_ : Within any (updateOffer h k x y L ib is_).
Proof.
  intros s Ks. unfold updateOffer. unfold mbind at 1, ltm_bind at 1, ltx_current at 1.
  destruct (st_entries s !! k) as [e|] eqn:Ek; [|done].
  unfold mbind at 1, ltm_bind at 1, lift at 1. destruct (get_offer e) as [o|] eqn:Eo.
  2: { unfold get_offer in Eo. destruct (le_data e); simplify_eq; done. }
  apply get_offer_ok in Eo. unfold mbind at 1, ltm_bind at 1.
  pose proof (within_decideOffer o x y ib is_ s Ks) as Wd.
  destruct (decideOffer o x y ib is_ s) as [[[er r] s1]|] eqn:Ed; [|done]. destruct Wd as [K1 _].
  pose proof (quiet _ _ _ Ed) as [_ He].
  destruct er; [apply within_any_from; [walk|done]|].
  unfold mbind at 1, ltm_bind at 1, lift at 1. destruct (adjustOffer _ _ _) as [adj|] eqn:Ea.
  2: { intros ->. by eapply nofuel_adjustOffer. }
  assert (Hk : LedgerEntryKey (set_le_data (OFFER (set_oe_amount adj o)) e) = k).
  { rewrite <- (Ks _ _ Ek). unfold LedgerEntryKey. cbn. by rewrite Eo. }
  pose proof (within_setCurrent _ _ Hk) as Hset. apply within_any_from; [|done]. walk.
Qed.
#[export] Instance within_initialOf l b se : Within any (initialOf h l b se).
Proof. revert b se. induction l as [|k l IH]; intros b se; cbn [initialOf]; walk. Qed.
#[export] Instance within_updateOffers l k x y ib is_ L : Within any (updateOffers h l k x y ib is_ L).
Proof. revert L. induction l as [|k' l IH]; intros L; cbn [updateOffers]; walk. Qed.
#[export] Instance within_writeLiabilities a k l : Within any (writeLiabilities h a k l).
Proof.
  induction l as [|[A x] l IH]; cbn [writeLiabilities]; [walk|].
  unfold writeNative, writeTrust, tlw_getSellingLiabilities, tlw_getBuyingLiabilities. walk.
Qed.
#[export] Instance within_prepareAccount a l : Within any (prepareAccount h a l).
Proof. unfold prepareAccount. walk. Qed.
#[export] Instance within_prepareAccounts l : Within any (prepareAccounts h l).
Proof. induction l as [|[a ks] l IH]; cbn [prepareAccounts]; walk. Qed.
#[export] Instance within_allOffers : Within any ltx_loadAllOffers.
Proof. intros s Ks. by split. Qed.
#[export] Instance within_prepare : Within any (prepareLiabilities h).
Proof. unfold prepareLiabilities. walk. Qed.
End Header.

#[export] Instance within_applyTo u : Within any (applyTo u).
Proof. destruct u; cbn [applyTo]; unfold applyVersionUpgrade, applyReserveUpgrade; walk. Qed.
#[export] Instance within_applyUpgrade u : Within any (applyUpgrade u).
Proof.
  intros s Ks. unfold applyUpgrade.
  assert (W : Within any (nested (r ← applyTo u; mret (true, r)))) by walk. specialize (W s Ks).
  destruct (nested _ s) as [[[] s']|e]; [done|]. destruct (catchable e); [by split|done].
Qed.
#[export] Instance within_applyUpgrades l : Within any (applyUpgrades l).
Proof. induction l as [|u l IH]; cbn [applyUpgrades]; walk. Qed.

Lemma within_chargeFees txs : Within any (chargeFees txs).
Proof. induction txs as [|[tx fr] txs IH]; cbn [chargeFees]; walk. Qed.
#[export] Instance within_fees txs : Within any (processFeesSeqNums txs).
Proof. unfold processFeesSeqNums. pose proof (within_chargeFees txs). walk. Qed.

(** the enabled invariants stay the same *)
Lemma applyLoop_enabled env i ops b fr im e fr' im' s s' :
  applyLoop env i ops b fr im s = Ok ((e, fr', im'), s') -> mEnabled im' = mEnabled im.
Proof.
  revert i b fr im s. induction ops as [|op ops IH]; intros i b fr im s E; cbn [applyLoop] in E.
  { by apply ltm_ret_ok in E as [[= _ _ ->] _]. }
  apply ltm_bind_ok in E as ([[e1 fr1] im1] & s1 & E1 & E). rewrite (IH _ _ _ _ _ E). by eapply applyOperation_enabled.
Qed.
Lemma apply_enabled env fr im b fr' im' s s' :
  Transactions.apply env fr im s = Ok ((b, fr', im'), s') -> mEnabled im' = mEnabled im.
Proof.
  intros E. unfold Transactions.apply in E. do 2 apply ltm_bind_ok in E as (? & ? & _ & E).
  apply ltm_bind_ok in E as ([v fr1] & s3 & _ & E). destruct v; [|by apply ltm_ret_ok in E as [[= _ _ ->] _]].
  apply nested_ok in E as (c & s4 & E & _). apply ltm_bind_ok in E as ([[e fr2] im2] & s5 & E1 & E).
  apply applyLoop_enabled in E1. destruct e; repeat inv_run; simplify_eq; try done.
  all: match goal with E : (if ?b then _ else _) _ = _ |- _ => destruct b; repeat inv_run; simplify_eq; try done end.
  all: match goal with E : (if ?b then _ else _) _ = _ |- _ => destruct b; repeat inv_run; simplify_eq; try done end.
Qed.

Lemma applyTransaction_ends tx fr im s :
  keys_ok (st_entries s) -> checks_end im ->
  match applyTransaction tx fr im s with
  | Ok ((_, im'), s') => keys_ok (st_entries s') /\ checks_end im'
  | Throw e => e <> OutOfFuel
  end.
Proof.
  intros Ks Hi. unfold applyTransaction. pose proof (within_apply (tp_env tx) fr im Hi s Ks) as W.
  destruct (Transactions.apply (tp_env tx) fr im s) as [[[[b fr1] im1] s1]|e] eqn:E.
  - split; [by destruct W|]. intros i o r d Hin. apply Hi. by rewrite <- (apply_enabled _ _ _ _ _ _ _ _ E).
  - assert (Ka : keys_ok (st_entries (afterThrow (tp_env tx) fr s))).
    { unfold afterThrow. assert (W' : Within any (_ ← forgetAccount; sc ← newChecker (tp_env tx);
        validateForApply (tp_env tx) (set_fr_checker sc fr))) by walk.
      specialize (W' s Ks). destruct ((_ ← forgetAccount; _) s) as [[r s1]|]; [by destruct W'|done]. }
    by destruct e.
Qed.

Lemma applyTransactions_ends txs im rs s :
  keys_ok (st_entries s) -> checks_end im -> ended (applyTransactions txs im rs s).
Proof.
  revert im rs s. induction txs as [|[tx fr] txs IH]; intros im rs s Ks Hi; cbn [applyTransactions]; [done|].
  unfold mbind, ltm_bind. pose proof (applyTransaction_ends tx fr im s Ks Hi) as H.
  destruct (applyTransaction tx fr im s) as [[[fr1 im1] s1]|e]; [|done]. destruct H. by apply IH.
Qed.

Lemma ended_bind {A B} (m : ltm A) (f : A -> ltm B) s :
  ended (m s) -> (forall a s', keys_ok (st_entries s') -> ended (f a s')) -> ended ((m ≫= f) s).
Proof. intros Hm Hf. unfold mbind, ltm_bind. destruct (m s) as [[a s']|]; [by apply Hf|done]. Qed.
Lemma within_ended {A} (m : ltm A) s : Within any m -> keys_ok (st_entries s) -> ended (m s).
Proof. intros Hm Ks. unfold ended. specialize (Hm s Ks). destruct (m s) as [[a s']|]; [by destruct Hm|done]. Qed.

(** Claim C26: closing a ledger always comes to an end: whatever the transactions
    and the upgrades are, from any ledger whose entries have their keys,
    [closeLedger] returns or raises an exception of the program; no loop over
    the offers of the book, over offers that an upgrade adjusts, or over
    transactions can go on for ever. *)
Theorem ledger_close_ends lclHash ledgerData frames im s :
  keys_ok (st_entries s) -> checks_end im -> ended (closeLedger lclHash ledgerData frames im s).
Proof.
  intros Ks Hi. unfold closeLedger. apply ended_bind; [done|]. intros _ s1 K1. apply ended_bind; [done|]. intros h s2 K2.
  cbv zeta. destruct (_ >? _); [done|]. destruct (previousLedgerHash_ref _) as [previous ts0]. destruct (negb _); [done|].
  destruct (setContentsHash _) as [hash ts].
  destruct (negb _); [done|]. apply ended_bind; [done|]. intros _ s3 K3. destruct (sortForApply ts) as [txs ts'].
  apply ended_bind; [by apply within_ended; [apply _|]|]. intros l s4 K4.
  apply ended_bind; [by apply applyTransactions_ends|]. intros [rs im'] s5 K5.
  apply within_ended; [walk|done].
Qed.

End Ends.
