(* ===== verification/LedgerCloseFees.v ===== *)
(** * The fees of a valid transaction set

    LedgerManagerImpl::processFeesSeqNums (src/src/ledger/LedgerManagerImpl.cpp)
    rethrows what [processFeeSeqNum] throws, which stops the node.  This file
    shows that it cannot happen for a transaction set that [checkValid] of
    TxSetFrame accepts on the same ledger: each account has the transactions as
    a chain, in the order in which they are applied, and can pay for all of
    them. *)
From Stdlib Require Import Sorted.
From S2P Require Import Prelude Numeric Exchange LedgerEntries TransactionUtils LedgerTxn OfferBook LedgerState.
From S2P Require Import LedgerLogic OfferCross Operations OfferOperations Neutral SubEntries Invariants InvariantManager Signatures.
From S2P Require Import Transactions TransactionSafety Upgrades TxSet TxSetOrder TxSetProposal LedgerClose.

(** ** Charging one transaction *)

Lemma acc_of_entry s a acc :
  acc_of s a = Some acc -> exists e, st_entries s !! KeyAccount a = Some e /\ le_data e = ACCOUNT acc.
Proof.
  unfold acc_of. destruct (st_entries s !! KeyAccount a) as [e|]; [|done]. destruct (le_data e) eqn:E; [|done..].
  intros [= ->]. eauto.
Qed.
Lemma acc_of_put k e acc s a :
  k = KeyAccount a -> le_data e = ACCOUNT acc ->
  acc_of (put k e s) a = Some acc /\ forall b, b <> a -> acc_of (put k e s) b = acc_of s b.
Proof.
  intros -> Ed. unfold acc_of. rewrite put_entries, lookup_insert_eq, Ed. split; [done|].
  intros b Hb. by rewrite lookup_insert_ne by congruence.
Qed.
Lemma acc_of_same s s' a : same s s' -> acc_of s' a = acc_of s a.
Proof. intros [_ H]. unfold acc_of. by rewrite H. Qed.

Lemma modifyAccount_run a f s acc :
  acc_of s a = Some acc ->
  exists s', modifyAccount (Some (KeyAccount a)) f s = Ok (tt, s') /\ st_header s' = st_header s /\
    acc_of s' a = Some (f acc) /\ forall b, b <> a -> acc_of s' b = acc_of s b.
Proof.
  intros (e & Ek & Ee)%acc_of_entry. set (e' := set_le_data (ACCOUNT (f acc)) e).
  exists (put (KeyAccount a) e' s). split.
  - unfold modifyAccount, updateEntry, active, ltx_update, ltx_current, ltx_set_current, lift, mbind, ltm_bind, mret, ltm_ret.
    rewrite Ek. unfold get_account. rewrite Ee. cbn. by rewrite Ek.
  - split; [apply put_header|]. by apply acc_of_put.
Qed.

Section Charge.
Context {U : UInt128} {K : StrKeyOrder} {C : Crypto} {HT : TxHash}.

(** what charging the whole fee leaves of an account *)
Record charged (v : Z) (env : TransactionEnvelope) (acc acc' : AccountEntry) : Prop := {
  ch_balance : acc_balance acc' = acc_balance acc - tx_fee (env_tx env);
  ch_seqNum : v <= 9 -> acc_seqNum acc' = tx_seqNum (env_tx env)
}.

Lemma processFee_pays env fr s acc :
  let a := tx_sourceAccount (env_tx env) in
  8 <= ledgerVersion (st_header s) -> acc_of s a = Some acc -> is_amount (acc_balance acc) ->
  0 <= tx_fee (env_tx env) <= acc_balance acc ->
  (ledgerVersion (st_header s) <= 9 -> i64 (acc_seqNum acc + 1) = tx_seqNum (env_tx env)) ->
  exists fr' s' acc', processFeeSeqNum env fr s = Ok (fr', s') /\ fr_feeCharged fr' = tx_fee (env_tx env) /\
    ledgerVersion (st_header s') = ledgerVersion (st_header s) /\
    i64 (feePool (st_header s')) = i64 (feePool (st_header s) + tx_fee (env_tx env)) /\
    acc_of s' a = Some acc' /\ charged (ledgerVersion (st_header s)) env acc acc' /\
    forall b, b <> a -> acc_of s' b = acc_of s b.
Proof.
  intros a Hv Ha Hb Hf Hs. unfold processFeeSeqNum. fold a.
  set (s1 := set_st_cached None true s). rewrite (ltm_bind_run forgetAccount _ s tt s1 eq_refl).
  rewrite (ltm_bind_run ltx_loadHeader _ s1 (st_header s1) s1 eq_refl).
  destruct (acc_of_entry _ _ _ Ha) as (e & Ek & Ee).
  destruct (unshare_same (KeyAccount a) s1) as [Hh2 He2]. set (s2 := unshare (KeyAccount a) s1) in *.
  rewrite (ltm_bind_run _ _ _ _ _ (txLoad_found a e s1 Hv Ek)). fold s2.
  assert (Ha2 : acc_of s2 a = Some acc) by (unfold acc_of; by rewrite He2).
  rewrite (ltm_bind_run _ _ s2 acc s2).
  2: { unfold readEntry, active, ltx_current, lift, mbind, ltm_bind, mret, ltm_ret. rewrite He2. cbn [s1 set_st_cached st_entries].
       rewrite Ek. unfold get_account. by rewrite Ee. }
  cbn [resetResults fr_feeCharged].
  assert (Hfee : exists fr1 s3 acc1,
    (if 0 <? tx_fee (env_tx env) then
       let fee := acc_balance acc `min` tx_fee (env_tx env) in
       '(ok, balance) ← lift (addBalance_i64 (acc_balance acc) (i64 (- fee)) INT64_MAX);
       _ ← modifyAccount (Some (KeyAccount a)) (set_acc_balance balance);
       _ ← ltx_setHeader (fun lh => set_feePool (i64 (feePool lh + fee)) lh);
       mret (set_fr_feeCharged fee (resetResults env fr))
     else mret (resetResults env fr)) s2 = Ok (fr1, s3) /\ fr_feeCharged fr1 = tx_fee (env_tx env) /\
    ledgerVersion (st_header s3) = ledgerVersion (st_header s) /\
    i64 (feePool (st_header s3)) = i64 (feePool (st_header s) + tx_fee (env_tx env)) /\
    acc_of s3 a = Some acc1 /\ acc_balance acc1 = acc_balance acc - tx_fee (env_tx env) /\
    forall b, b <> a -> acc_of s3 b = acc_of s b).
  { destruct (Z.ltb_spec 0 (tx_fee (env_tx env))) as [Hp|Hp].
    - cbv zeta. rewrite Z.min_r by lia. rewrite (i64_id (- _)) by zlia.
      assert (Ead : addBalance_i64 (acc_balance acc) (- tx_fee (env_tx env)) INT64_MAX
        = Ok (true, acc_balance acc - tx_fee (env_tx env))).
      { rewrite addBalance_i64_spec by zlia. rewrite (proj2 (Z.leb_le _ _)), (proj2 (Z.leb_le _ _)), orb_true_r by zlia.
        do 2 f_equal. }
      rewrite (ltm_bind_run _ _ s2 (true, acc_balance acc - tx_fee (env_tx env)) s2) by (unfold lift; by rewrite Ead).
      destruct (modifyAccount_run a (set_acc_balance (acc_balance acc - tx_fee (env_tx env))) s2 acc Ha2)
        as (s3 & E3 & Hh3 & Ha3 & Hb3). rewrite (ltm_bind_run _ _ _ _ _ E3).
      eexists _, _, _. split; [reflexivity|]. split; [done|]. cbn. rewrite Hh3, Hh2. split; [done|].
      split; [apply i64_idemp|]. split; [exact Ha3|]. split; [done|]. intros b Hb'.
      transitivity (acc_of s3 b); [done|]. rewrite Hb3 by done. unfold acc_of. by rewrite He2.
    - assert (tx_fee (env_tx env) = 0) as -> by lia. exists (resetResults env fr), s2, acc. rewrite Hh2, Z.add_0_r.
      repeat split; try done; try (cbn; lia). }
  destruct Hfee as (fr1 & s3 & acc1 & E3 & Hc & Hv3 & Hp3 & Ha3 & Hb3 & Ho3). rewrite (ltm_bind_run _ _ _ _ _ E3).
  destruct (Z.leb_spec (ledgerVersion (st_header s1)) 9) as [H9|H9].
  - rewrite Hs, Z.eqb_refl by done. cbn [negb].
    destruct (modifyAccount_run a (set_acc_seqNum (tx_seqNum (env_tx env))) s3 acc1 Ha3) as (s4 & E4 & Hh4 & Ha4 & Hb4).
    rewrite (ltm_bind_run _ _ _ _ _ E4). eexists _, _, _. split; [reflexivity|]. rewrite Hh4. split; [done|].
    split; [done|]. split; [done|]. split; [exact Ha4|]. split; [by split|]. intros b Hb'. rewrite Hb4 by done. auto.
  - eexists _, _, _. split; [reflexivity|]. do 3 (split; [done|]). split; [exact Ha3|]. split; [split; [done|]|done].
    intros H. cbn in H9. lia.
Qed.

End Charge.

(** ** All transactions of a set *)

Section Loop.
Context {U : UInt128} {K : StrKeyOrder} {C : Crypto} {HT : TxHash}.

(** the sequence numbers follow each other *)
Fixpoint consecutive (n : Z) (l : list TxPtr) : Prop :=
  match l with
  | [] => True
  | tx :: l' => i64 (n + 1) = getSeqNum tx /\ consecutive (getSeqNum tx) l'
  end.

(** every account that has transactions left can pay for them, and, up to
    version 9, their numbers follow that of the account *)
Record payable (v : Z) (s : LState) (l : list TxPtr) : Prop := {
  pa_version : ledgerVersion (st_header s) = v;
  pa_fees : Forall fee_ok l;
  pa_accounts : forall a, by_account a l <> [] -> exists acc, acc_of s a = Some acc /\ is_amount (acc_balance acc) /\
    fees (by_account a l) <= acc_balance acc /\ (v <= 9 -> consecutive (acc_seqNum acc) (by_account a l))
}.

Lemma payable_same v s s' l : same s s' -> payable v s l -> payable v s' l.
Proof.
  intros S [H1 H2 H3]. split; [by rewrite (same_header _ _ S)|done|]. intros a Ha. destruct (H3 a Ha) as (acc & Hacc & H).
  exists acc. by rewrite (acc_of_same _ _ _ S).
Qed.

Lemma payable_step v s tx l fr :
  8 <= v -> payable v s (tx :: l) ->
  exists fr' s', processFeeSeqNum (tp_env tx) fr s = Ok (fr', s') /\ fr_feeCharged fr' = getFee tx /\ payable v s' l /\
    i64 (feePool (st_header s')) = i64 (feePool (st_header s) + getFee tx).
Proof.
  intros Hv [H1 H2 H3]. apply Forall_cons in H2 as [Hfee H2]. unfold fee_ok in Hfee. set (a := getSourceIDOf tx).
  assert (Hc : by_account a (tx :: l) = tx :: by_account a l) by (unfold by_account; by rewrite filter_cons_True).
  destruct (H3 a) as (acc & Ha & Hb & Hf & Hs); [by rewrite Hc|]. rewrite Hc in Hf, Hs. cbn [fees foldr] in Hf. fold (fees (by_account a l)) in Hf.
  assert (Hl : 0 <= fees (by_account a l)).
  { apply fees_bound, Forall_forall. intros x [_ Hx]%list_elem_of_filter. rewrite Forall_forall in H2. by apply H2. }
  destruct (processFee_pays (tp_env tx) fr s acc) as (fr' & s' & acc' & E & Hch & Hv' & Hp & Ha' & [Hb' Hs'] & Ho);
    [lia|exact Ha|done|unfold getFee in *; zlia|rewrite H1; intros H9; by apply Hs|].
  exists fr', s'. split; [done|]. split; [done|]. split; [|done]. split; [congruence|done|]. intros b Hne.
  destruct (decide (b = a)) as [->|Hba].
  - exists acc'. split; [exact Ha'|]. rewrite Hb'. unfold getFee in *. split; [zlia|]. split; [lia|]. intros H9.
    rewrite Hs' by lia. by apply Hs.
  - assert (Eb : by_account b (tx :: l) = by_account b l) by (unfold by_account; by rewrite filter_cons_False by (unfold a in Hba; congruence)).
    rewrite <- Eb in Hne |- *. destruct (H3 b Hne) as (accb & Hab & Hrest). exists accb. by rewrite (Ho b Hba).
Qed.

Lemma nested_commit {A} (m : ltm A) s x s1 :
  m (unshared s) = Ok (x, s1) -> nested (a ← m; mret (true, a)) s = Ok (x, unshared s1).
Proof. intros E. unfold nested, mbind, ltm_bind. by rewrite E. Qed.

Lemma chargeFees_pays v txs frames s :
  8 <= v -> payable v s txs ->
  exists l s', chargeFees ((fun tx => (tx, frames tx)) <$> txs) s = Ok (l, s') /\ l.*1 = txs /\
    Forall (fun p => fr_feeCharged (snd p) = getFee (fst p)) l /\
    i64 (feePool (st_header s')) = i64 (feePool (st_header s) + fees txs).
Proof.
  intros Hv. revert s. induction txs as [|tx txs IH]; intros s Hp; cbn [fmap list_fmap chargeFees].
  { exists [], s. cbn. by rewrite Z.add_0_r. }
  destruct (payable_step v (unshared s) tx txs (frames tx) Hv) as (fr' & s1 & E & Hf & Hp1 & Hpool).
  { eapply payable_same; [apply unshared_same|exact Hp]. }
  rewrite (ltm_bind_run _ _ _ _ _ (nested_commit _ _ _ _ E)).
  destruct (IH (unshared s1)) as (l & s2 & E2 & Hl & Hfs & Hpool2); [eapply payable_same; [apply unshared_same|exact Hp1]|].
  rewrite (ltm_bind_run _ _ _ _ _ E2). exists ((tx, fr') :: l), s2. split; [done|]. split; [cbn; congruence|]. split; [by constructor|].
  rewrite Hpool2. cbn [fees foldr]. fold (fees txs). cbn. rewrite <- i64_add_l, Hpool, i64_add_l. f_equal. cbn. lia.
Qed.

End Loop.

(** ** Valid sets *)

Section Valid.
Context {SS : StdSort} {HS : SetHash} {U : UInt128} {K : StrKeyOrder} {C : Crypto} {HT : TxHash}.
Variable s : LState.

Lemma groupTxs_some l d last m m' : groups d m -> groupTxs l last m = Some m' -> groups (d ++ l) m'.
Proof.
  revert d last m. induction l as [|tx l IH]; intros d last m Hg E; cbn [groupTxs] in E.
  { injection E as <-. by rewrite app_nil_r. }
  destruct (_ <? _); [done|]. rewrite (cons_middle tx), app_assoc. eapply IH; [by apply push_groups|exact E].
Qed.

Lemma scan_accepts l sc sc' :
  Forall fee_ok l -> 0 <= sc_totFee sc -> sc_totFee sc + Z.of_nat (length l) * UINT32_MAX <= INT64_MAX ->
  scanTxs s Refuse l sc = Ok (Some sc') ->
  chain s (sc_lastSeq sc) l /\ sc_totFee sc' = sc_totFee sc + fees l /\
  sc_lastTx sc' = (match last l with Some x => Some x | None => sc_lastTx sc end).
Proof.
  revert sc. induction l as [|tx l IH]; intros sc Hf H0 Hb E; cbn [scanTxs] in E.
  { injection E as <-. cbn. repeat split; lia. }
  apply Forall_cons in Hf as [Hfee Hf]. unfold fee_ok in Hfee. cbn [length] in Hb. apply bind_ok_inv in E as (ok & Eok & E).
  destruct ok; [|done]. apply IH in E as (Hc & Ht & Hl); cbn [sc_totFee sc_lastSeq sc_lastTx] in *; rewrite ?i64_id in * by zlia; try zlia; try done.
  split; [by split|]. split; [rewrite Ht; cbn [fees foldr]; fold (fees l); lia|]. rewrite Hl, last_cons. by destruct (last l).
Qed.

(** the transactions of an account in a valid set *)
Definition account_valid (a : AccountID) (l : list TxPtr) : Prop :=
  chain s 0 (std_sort SeqSorter (by_account a l)) /\
  (by_account a l <> [] -> exists av, availableOf s a = Ok av /\ fees (by_account a l) <= av).

Lemma checkAccounts_valid l m ts tr ts' tr' :
  Forall fee_ok l -> Z.of_nat (length l) * UINT32_MAX <= INT64_MAX ->
  (forall a item, (a, item) ∈ m -> item = by_account a l /\ item <> []) ->
  checkAccounts s Refuse m ts tr = Ok (true, ts', tr') -> forall a item, (a, item) ∈ m -> account_valid a l.
Proof.
  intros Hf Hlen. revert ts tr. induction m as [|[b item] m IH]; intros ts tr Hm E a i Hin; cbn [checkAccounts] in E.
  { by apply elem_of_nil in Hin. }
  cbv zeta in E. destruct (Hm b item ltac:(by left)) as [-> Hne]. set (it := std_sort SeqSorter (by_account b l)) in *.
  assert (Hit : it ≡ₚ by_account b l) by (apply std_sort_perm, seq_strict).
  apply bind_ok_inv in E as (r & Er & E). destruct r as [sc|]; [|done].
  apply scan_accepts in Er as (Hc & Ht & Hlast); cbn [sc_totFee sc_lastSeq sc_lastTx] in *; [|..].
  2: { rewrite Hit. apply Forall_forall. intros x [_ Hx]%list_elem_of_filter. rewrite Forall_forall in Hf. by apply Hf. }
  2: lia.
  2: { assert (length it <= length l)%nat by (rewrite Hit; apply length_filter). zlia. }
  destruct (last it) as [x|] eqn:El.
  2: { apply last_None in El. rewrite El in Hit. symmetry in Hit. by apply Permutation_nil_r in Hit. }
  assert (Hx : getSourceIDOf x = b).
  { eapply last_source; [|exact El]. intros tx Htx. rewrite Hit in Htx. by apply list_elem_of_filter in Htx as [? _]. }
  rewrite Hlast, Hx in E. apply bind_ok_inv in E as (av & Eav & E). destruct (Z.ltb_spec av (sc_totFee sc)) as [?|Hle]; [done|].
  apply elem_of_cons in Hin as [[= -> _]|Hin]; [|eapply IH; [|exact E|exact Hin]; intros; apply Hm; by right].
  split; [done|]. intros _. exists av. split; [done|]. rewrite <- (fees_perm _ _ Hit). lia.
Qed.

Lemma valid_accounts lclHeader lclHash ts a :
  Forall fee_ok (mTransactions ts) -> Z.of_nat (length (mTransactions ts)) * UINT32_MAX <= INT64_MAX ->
  checkValidSet s lclHeader lclHash ts = Ok true -> account_valid a (mTransactions ts).
Proof.
  intros Hf Hlen E. unfold checkValidSet in E. destruct (negb _); [done|]. destruct (_ <? _); [done|].
  apply bind_ok_inv in E as ([[ok ts'] tr'] & E & [= ->]). unfold checkOrTrim in E.
  destruct (groupTxs (mTransactions ts) 0 []) as [m|] eqn:Em; [|done].
  assert (Hg : groups (mTransactions ts) m).
  { eapply (groupTxs_some _ []); [|exact Em]. split; [constructor|]. intros b item. rewrite elem_of_nil. cbn. naive_solver. }
  destruct Hg as [_ Hm]. destruct (decide (by_account a (mTransactions ts) = [])) as [Ea|Ea].
  - split; [|done]. by rewrite Ea, std_sort_nil by apply seq_strict.
  - eapply checkAccounts_valid; [exact Hf|exact Hlen| |exact E|by apply Hm]. intros b item Hin. by apply Hm.
Qed.

(** an account with values of its types, whose reserve and liabilities fit in
    an [int64_t] *)
Record account_typed (h : LedgerHeader) (acc : AccountEntry) : Prop := {
  at_balance : is_amount (acc_balance acc);
  at_seqNum : 0 <= acc_seqNum acc <= INT64_MAX;
  at_reserve : 0 <= getMinBalance h (acc_numSubEntries acc);
  at_selling : match acc_ext acc with
               | Some l => 0 <= liab_selling l /\ getMinBalance h (acc_numSubEntries acc) + liab_selling l <= INT64_MAX
               | None => getMinBalance h (acc_numSubEntries acc) <= INT64_MAX
               end
}.

(** an account that is [available] has more than that *)
Lemma available_balance_le a av :
  keys_ok (st_entries s) -> (forall acc, acc_of s a = Some acc -> account_typed (st_header s) acc) ->
  availableOf s a = Ok av -> exists acc, acc_of s a = Some acc /\ av <= acc_balance acc.
Proof.
  intros Hk Ht E. unfold availableOf in E. unfold acc_of in Ht |- *.
  destruct (st_entries s !! KeyAccount a) as [e|] eqn:Ek; [|done]. unfold getAvailableBalance in E.
  apply bind_ok_inv in E as (x & Ex & E). destruct (le_data e) as [acc|tl|o|d] eqn:Ee; try done.
  - exists acc. split; [done|]. injection Ex as <-. destruct (Ht acc eq_refl) as [H1 H2 H3 H4].
    assert (Hm : getMinBalance (st_header s) (acc_numSubEntries acc) <= INT64_MAX) by (destruct (acc_ext acc); lia).
    rewrite i64_id in E by zlia. destruct (_ >=? 10) eqn:E10; [|injection E as <-; lia].
    unfold getSellingLiabilities in E. rewrite (proj2 (Z.ltb_ge _ _)) in E by (rewrite Z.geb_leb in E10; zb; lia).
    rewrite Ee, bind_ok in E. injection E as <-. rewrite i64_id by (destruct (acc_ext acc); zlia). destruct (acc_ext acc); lia.
  - apply Hk in Ek. unfold LedgerEntryKey in Ek. by rewrite Ee in Ek.
Qed.

Hypothesis Hk : keys_ok (st_entries s).
Hypothesis Hv : 8 <= ledgerVersion (st_header s).
Hypothesis Ht : forall a acc, acc_of s a = Some acc -> account_typed (st_header s) acc.

Lemma seq_range a acc : acc_of s a = Some acc -> 0 <= acc_seqNum acc <= INT64_MAX.
Proof. intros H. by apply (Ht a). Qed.

(** the numbers of a chain follow each other *)
Lemma chain_consecutive c a acc last :
  (forall tx, tx ∈ c -> getSourceIDOf tx = a) -> acc_of s a = Some acc -> 0 <= last <= INT64_MAX ->
  chain s last c -> consecutive (following acc last) c.
Proof.
  intros Hc Ha. revert last Hc. induction c as [|tx c IH]; intros last Hc Hl H; [done|]. destruct H as [E H].
  destruct (checkTx_follows s tx last Hv E) as (acc' & Ha' & Hne & Hs). rewrite (Hc tx ltac:(by left)) in Ha'.
  rewrite Ha in Ha'. injection Ha' as <-. split; [done|].
  pose proof (chain_step s Hv seq_range last tx Hl E) as Hstep.
  assert (Hf : following acc (getSeqNum tx) = getSeqNum tx) by (unfold following; rewrite (proj2 (Z.eqb_neq _ _)); [done|lia]).
  rewrite <- Hf. apply IH; [intros y Hy; apply Hc; by right|lia|done].
Qed.

Lemma valid_payable ts lclHeader lclHash l s0 :
  Forall fee_ok (mTransactions ts) -> Z.of_nat (length (mTransactions ts)) * UINT32_MAX <= INT64_MAX ->
  checkValidSet s lclHeader lclHash ts = Ok true ->
  l ≡ₚ mTransactions ts -> (forall a, in_order SeqSorter (by_account a l)) ->
  st_entries s0 = st_entries s -> ledgerVersion (st_header s0) = ledgerVersion (st_header s) ->
  payable (ledgerVersion (st_header s)) s0 l.
Proof.
  intros Hf Hlen E Hp Ho He0 Hv0. split; [done|by rewrite Hp|]. intros a Hne.
  destruct (valid_accounts lclHeader lclHash ts a Hf Hlen E) as [Hc Hav].
  assert (Hpa : by_account a l ≡ₚ by_account a (mTransactions ts)) by (unfold by_account; by rewrite Hp).
  assert (Ec : by_account a l = std_sort SeqSorter (by_account a (mTransactions ts))).
  { apply (chain_unique s Hv seq_range); [done| |apply Ho]. by rewrite std_sort_perm by apply seq_strict. }
  destruct Hav as (av & Eav & Hle). { intros E0. rewrite E0 in Hpa. by apply Permutation_nil_r in Hpa. }
  destruct (available_balance_le a av Hk (fun acc => Ht a acc) Eav) as (acc & Ha & Hb). exists acc.
  split; [unfold acc_of; by rewrite He0|]. split; [by apply (Ht a)|]. split; [rewrite (fees_perm _ _ Hpa); lia|]. intros _.
  apply (chain_consecutive _ a acc 0); [|done|zlia|by rewrite Ec]. intros tx Htx. by apply list_elem_of_filter in Htx as [? _].
Qed.

End Valid.

(** Claim C5: charging the fees of a valid transaction set never fails.  If
    [TxSetFrame::checkValid] accepts the set on the last closed ledger, then
    [processFeesSeqNums] of [closeLedger], which would stop the node with an
    exception otherwise, returns: it finds every account, up to version 9
    every sequence number is the next one, every transaction is charged exactly
    its fee, and the fee pool grows by their sum (modulo 2 ^ 64). *)
Theorem valid_set_pays_fees {SS : StdSort} {HS : SetHash} {U : UInt128} {K : StrKeyOrder} {C : Crypto} {HT : TxHash}
    (s : LState) (lclHash : Z) (ts : TxSetFrame) (sv : EssaBlockChainValue) (frames : TxPtr -> Frame) :
  keys_ok (st_entries s) -> 8 <= ledgerVersion (st_header s) ->
  (forall a acc, acc_of s a = Some acc -> account_typed (st_header s) acc) ->
  Forall (fun tx => is_u32 (getFee tx)) (mTransactions ts) ->
  Z.of_nat (length (mTransactions ts)) * UINT32_MAX <= INT64_MAX ->
  checkValidSet s (st_header s) lclHash ts = Ok true ->
  let s0 := set_st_header (set_scpValue sv (startHeader lclHash (st_header s))) s in
  let txs := closing_order ts in
  exists l s', processFeesSeqNums ((fun tx => (tx, frames tx)) <$> txs) s0 = Ok (l, s') /\ l.*1 = txs /\
    Forall (fun p => fr_feeCharged (snd p) = getFee (fst p)) l /\
    i64 (feePool (st_header s')) = i64 (feePool (st_header s) + fees txs).
Proof.
  intros Hk Hv Ht Hf Hlen E s0 txs.
  assert (Hp : payable (ledgerVersion (st_header s)) (unshared s0) txs).
  { eapply (valid_payable s Hk Hv Ht ts); [done|done|exact E|apply (closing_order_perm (snd (previousLedgerHash_ref ts)))|apply closing_order_sorted|done|done]. }
  destruct (chargeFees_pays _ txs frames (unshared s0) Hv Hp) as (l & s' & El & H1 & H2 & H3).
  exists l, (unshared s'). split; [|done]. by apply nested_commit.
Qed.
