(* ===== verification/LedgerCloseRuns.v ===== *)
(** * Closing a concrete ledger

    Four transactions and two upgrades: one of the transactions throws, since
    its payment does not fit into the balance of the destination. *)
From S2P Require Import Prelude Numeric Exchange LedgerEntries TransactionUtils LedgerTxn OfferBook LedgerState.
From S2P Require Import LedgerLogic OfferCross Operations OfferOperations Conservation SubEntries Invariants InvariantManager Signatures.
From S2P Require Import Transactions TransactionSafety Termination TransactionRuns Upgrades UpgradeLiabilities UpgradeRuns.
From S2P Require Import TxSet TxSetOrder TxSetProposal TxSetRuns LedgerClose LedgerCloseFees.

#[export] Instance run_resultHash : ResultHash := {|
  resultSetHash rs := foldl (fun acc r => (acc * 31 + trp_transactionHash r + trp_feeCharged r) mod 1009) 0 rs
|}.

(** account 3 has room for two of the three payments of the others *)
Definition close_state : LState :=
  set_st_entries (<[KeyAccount 3 := run_account 3 (INT64_MAX - 1500) 1 0 0 0 []]> (st_entries small_state)) small_state.

Definition close_set : TxSetFrame :=
  mkTxSetFrame (insertion_sort HashTxSorter [signedTx 1 1 150 9; signedTx 2 2 120 4; signedTx 4 1 150 8; signedTx 6 3 800 2]) 77 None.

Definition close_data : LedgerCloseData :=
  mkLedgerCloseData 8 close_set (mkEssaBlockChainValue (fst (setContentsHash close_set)) 60
    [upgrade_to_opaque (LEDGER_UPGRADE_BASE_FEE 200); upgrade_to_opaque (LEDGER_UPGRADE_BASE_RESERVE 6000)]).

Definition freshFrames (tx : TxPtr) : Frame := freshFrame (tp_env tx).

Definition close_run : res (list TransactionResultPair * InvariantManager * LState) :=
  closeLedger 77 close_data freshFrames run_manager close_state.

Definition close_results : list TransactionResultPair * InvariantManager := value_of ([], run_manager) close_run.
Definition close_after : LState := state_of close_run.

Definition code_of (r : TransactionResultPair) : Z :=
  match trp_result r with txSUCCESS _ => 0 | txINTERNAL_ERROR => 1 | _ => 2 end.

(** ** The hypotheses hold *)

Definition close_entry_ok (k : LedgerKey) (e : LedgerEntry) : Prop :=
  LedgerEntryKey e = k /\ (INT64_MIN <= native e /\ native e <= INT64_MAX) /\ count_ok e /\
  match le_data e with
  | ACCOUNT acc =>
      (0 <= acc_balance acc /\ acc_balance acc <= INT64_MAX) /\ (0 <= acc_seqNum acc /\ acc_seqNum acc <= INT64_MAX) /\
      0 <= getMinBalance (st_header close_state) (acc_numSubEntries acc) /\
      match acc_ext acc with
      | Some l => 0 <= liab_selling l /\
          getMinBalance (st_header close_state) (acc_numSubEntries acc) + liab_selling l <= INT64_MAX
      | None => getMinBalance (st_header close_state) (acc_numSubEntries acc) <= INT64_MAX
      end
  | _ => True
  end.
#[export] Instance close_entry_dec k e : Decision (close_entry_ok k e).
Proof.
  unfold close_entry_ok, count_ok, is_count. destruct (le_data e) as [acc| | |]; try apply _. destruct (acc_ext acc); apply _.
Defined.

Lemma close_entries : map_Forall close_entry_ok (st_entries close_state).
Proof. apply (bool_decide_unpack _). by vm_compute. Qed.

Lemma close_good : good (mu := coin_measure) close_state.
Proof.
  split; [| |by vm_compute].
  - intros k e E. apply (close_entries k e E).
  - intros k e E. apply (close_entries k e E).
Qed.
Lemma close_counted : counted close_state.
Proof.
  split; [apply close_good| |by vm_compute]. intros k e E. apply (close_entries k e E).
Qed.
Lemma close_well_counted : well_counted close_state.
Proof. apply well_counted_finite. apply (bool_decide_unpack _). by vm_compute. Qed.

Lemma close_typed a acc : acc_of close_state a = Some acc -> account_typed (st_header close_state) acc.
Proof.
  intros (e & Ek & Ee)%acc_of_entry. destruct (close_entries _ _ Ek) as (_ & _ & _ & H). rewrite Ee in H.
  destruct H as (H1 & H2 & H3 & H4). by split.
Qed.

Lemma close_fair :
  Forall (fun u => forall lu, upgrade_from_opaque u = Some lu -> upgrade_fair lu) (sv_upgrades (lcd_value close_data)).
Proof.
  unfold close_data. cbn [sv_upgrades lcd_value].
  repeat constructor; intros lu E; rewrite upgrade_opaque_roundtrip in E; by injection E as <-.
Qed.

Lemma close_returns :
  closeLedger 77 close_data freshFrames run_manager close_state = Ok ((fst close_results, snd close_results), close_after).
Proof.
  rewrite <- surjective_pairing. apply (ok_eta ([], run_manager) close_run). by vm_compute.
Qed.

(** ** The properties of closing *)

(** all transactions but one succeed, and the upgrades are applied *)
Lemma ledger_conserves_coins_witness :
  (code_of <$> fst close_results) = [0; 0; 0; 1] /\
  (baseFee (st_header close_after), baseReserve (st_header close_after)) = (200, 6000) /\
  balanced close_state close_after.
Proof.
  split; [by vm_compute|]. split; [by vm_compute|].
  apply (ledger_conserves_coins 77 close_data freshFrames run_manager close_state (fst close_results) (snd close_results) close_after).
  - exact close_good.
  - repeat constructor; cbn; unfold is_u32; zlia.
  - exact close_fair.
  - exact close_returns.
Defined.

Lemma ledger_keeps_subentry_counts_witness : counted close_after /\ well_counted close_after.
Proof.
  apply (ledger_keeps_subentry_counts 77 close_data freshFrames run_manager close_state (fst close_results, snd close_results) close_after).
  - exact close_counted.
  - exact close_well_counted.
  - exact close_fair.
  - exact close_returns.
Defined.

Lemma ledger_close_ends_witness : ended (closeLedger 77 close_data freshFrames run_manager close_state).
Proof.
  apply (ledger_close_ends 77 close_data freshFrames run_manager close_state).
  - apply close_good.
  - apply modelled_checks_end, run_manager_modelled.
Defined.

Lemma valid_set_pays_fees_witness :
  let s0 := set_st_header (set_scpValue (lcd_value close_data) (startHeader 77 (st_header close_state))) close_state in
  let txs := closing_order close_set in
  exists l s', processFeesSeqNums ((fun tx => (tx, freshFrames tx)) <$> txs) s0 = Ok (l, s') /\ l.*1 = txs /\
    Forall (fun p => fr_feeCharged (snd p) = getFee (fst p)) l /\
    i64 (feePool (st_header s')) = i64 (feePool (st_header close_state) + fees txs).
Proof.
  apply (valid_set_pays_fees close_state 77 close_set (lcd_value close_data) freshFrames).
  - apply close_good.
  - by vm_compute.
  - exact close_typed.
  - unfold is_u32. repeat constructor; by vm_compute.
  - by vm_compute.
  - by vm_compute.
Defined.
