(* ===== verification/Nomination.v ===== *)
(** * The nomination protocol

    src/src/scp/NominationProtocol.cpp: the nodes agree on candidate values for
    a slot by federated voting.  The state of one node is [NState]; the calls to
    the driver and to the ballot protocol are recorded in [nCalls] in their
    order.  A node feeds its own statements back into itself, [emitNomination]
    calls [processEnvelope]; the recursion has fuel, and NominationSafety.v
    shows that [nomination_fuel] is enough.

    The ballot protocol calls back at most [stopNomination], which changes a flag
    that is read only when the next envelope is processed. *)
From Stdlib Require Import Sorted.
From S2P Require Import Prelude Numeric QuorumSet LocalNode Ballots BallotProtocol.

(** ** Data *)

Record SCPNomination := mkNomination {
  nom_quorumSetHash : Hash; nom_votes : list Value; nom_accepted : list Value }.

(** [SCPStatement] and [SCPEnvelope] with the pledges of the arm
    [SCP_ST_NOMINATE] *)
Record NomStatement := mkNomStatement { ns_nodeID : NodeID; ns_slotIndex : Z; ns_nominate : SCPNomination }.
Record NomEnvelope := mkNomEnvelope { ne_statement : NomStatement; ne_signature : Z }.

Definition ne_nominate (e : NomEnvelope) : SCPNomination := ns_nominate (ne_statement e).
Definition ne_nodeID (e : NomEnvelope) : NodeID := ns_nodeID (ne_statement e).

#[export] Instance nomination_eq_dec : EqDecision SCPNomination.
Proof. solve_decision. Defined.
#[export] Instance nom_statement_eq_dec : EqDecision NomStatement.
Proof. solve_decision. Defined.
#[export] Instance nom_envelope_eq_dec : EqDecision NomEnvelope.
Proof. solve_decision. Defined.

(** the methods of the driver, an abstract class: [validateValue] with
    [nomination] set, [extractValidValue], which gives a value that the node agrees
    to or the empty one, and hashes.  What has been extracted is fully validated or
    there is nothing more to extract from it; HerderDriver.v discharges this for
    the driver of the program, for which it need not be fully validated. *)
Class NominationDriver := {
  validateNomination : Value -> ValidationLevel;
  extractValidValue : Value -> Value;
  extract_stable : forall v, extractValidValue v <> [] ->
    validateNomination (extractValidValue v) = kFullyValidatedValue \/
    extractValidValue (extractValidValue v) = extractValidValue v;
  computeHashNode : Value -> bool -> Z -> NodeID -> Z;
  computeValueHash : Value -> Z -> Value -> Z;
  combineCandidates : list Value -> Value;
  signNomination : NomStatement -> Z }.

Inductive NominationCall :=
| nominatingValue (v : Value)
| emitNominationEnvelope (e : NomEnvelope)
| updatedCandidateValue (v : Value)
| nominationBumpState (v : Value)
| setupNominationTimer (timeout : Z) (v previous : Value).

Record NState := mkNState {
  mRoundNumber : Z;
  mVotes : list Value;
  mAccepted : list Value;
  mCandidates : list Value;
  mLatestNominations : list (NodeID * NomEnvelope);
  mLastNomination : option NomEnvelope;
  mRoundLeaders : list NodeID;
  mNominationStarted : bool;
  mComposite : Value;
  mPreviousValue : Value;
  (** of the slot *)
  nFullyValidated : bool;
  nStatementsHistory : list (NomStatement * bool);
  nCalls : list NominationCall }.

Definition newNominationProtocol (isValidator : bool) : NState :=
  mkNState 0 [] [] [] [] None [] false [] [] isValidator [] [].

Definition set_votes (x : list Value) (s : NState) : NState :=
  mkNState (mRoundNumber s) x (mAccepted s) (mCandidates s) (mLatestNominations s) (mLastNomination s)
    (mRoundLeaders s) (mNominationStarted s) (mComposite s) (mPreviousValue s) (nFullyValidated s)
    (nStatementsHistory s) (nCalls s).
Definition set_accepted (x : list Value) (s : NState) : NState :=
  mkNState (mRoundNumber s) (mVotes s) x (mCandidates s) (mLatestNominations s) (mLastNomination s)
    (mRoundLeaders s) (mNominationStarted s) (mComposite s) (mPreviousValue s) (nFullyValidated s)
    (nStatementsHistory s) (nCalls s).
Definition set_candidates (x : list Value) (s : NState) : NState :=
  mkNState (mRoundNumber s) (mVotes s) (mAccepted s) x (mLatestNominations s) (mLastNomination s)
    (mRoundLeaders s) (mNominationStarted s) (mComposite s) (mPreviousValue s) (nFullyValidated s)
    (nStatementsHistory s) (nCalls s).
Definition set_lastNomination (x : option NomEnvelope) (s : NState) : NState :=
  mkNState (mRoundNumber s) (mVotes s) (mAccepted s) (mCandidates s) (mLatestNominations s) x
    (mRoundLeaders s) (mNominationStarted s) (mComposite s) (mPreviousValue s) (nFullyValidated s)
    (nStatementsHistory s) (nCalls s).
Definition set_composite (x : Value) (s : NState) : NState :=
  mkNState (mRoundNumber s) (mVotes s) (mAccepted s) (mCandidates s) (mLatestNominations s) (mLastNomination s)
    (mRoundLeaders s) (mNominationStarted s) x (mPreviousValue s) (nFullyValidated s)
    (nStatementsHistory s) (nCalls s).
Definition set_started (x : bool) (s : NState) : NState :=
  mkNState (mRoundNumber s) (mVotes s) (mAccepted s) (mCandidates s) (mLatestNominations s) (mLastNomination s)
    (mRoundLeaders s) x (mComposite s) (mPreviousValue s) (nFullyValidated s)
    (nStatementsHistory s) (nCalls s).
(** the start of a round *)
Definition set_round (n : Z) (previous : Value) (leaders : list NodeID) (s : NState) : NState :=
  mkNState n (mVotes s) (mAccepted s) (mCandidates s) (mLatestNominations s) (mLastNomination s)
    leaders (mNominationStarted s) (mComposite s) previous (nFullyValidated s)
    (nStatementsHistory s) (nCalls s).
Definition ncall (c : NominationCall) (s : NState) : NState :=
  mkNState (mRoundNumber s) (mVotes s) (mAccepted s) (mCandidates s) (mLatestNominations s) (mLastNomination s)
    (mRoundLeaders s) (mNominationStarted s) (mComposite s) (mPreviousValue s) (nFullyValidated s)
    (nStatementsHistory s) (nCalls s ++ [c]).

(** [Slot::setFullyValidated] *)
Definition set_fullyValidated (x : bool) (s : NState) : NState :=
  mkNState (mRoundNumber s) (mVotes s) (mAccepted s) (mCandidates s) (mLatestNominations s) (mLastNomination s)
    (mRoundLeaders s) (mNominationStarted s) (mComposite s) (mPreviousValue s) x
    (nStatementsHistory s) (nCalls s).

(** [std::set<Value>::find] *)
Definition has_value (v : Value) (l : list Value) : bool := bool_decide (v ∈ l).

(** ** Statements *)

(** [std::includes] on sorted ranges *)
Fixpoint includes (v p : list Value) : bool :=
  match p, v with
  | [], _ => true
  | _ :: _, [] => false
  | y :: p', x :: v' =>
      if value_ltb y x then false
      else if value_ltb x y then includes v' p
      else includes v' p'
  end.

(** the result and [notEqual] *)
Definition isSubsetHelper (p v : list Value) : bool * bool :=
  if (length p <=? length v)%nat then
    let res := includes v p in
    if res then (true, negb (length p =? length v)%nat) else (false, true)
  else (false, true).

(** [isNewerStatement(oldst, st)] *)
Definition isNewerNomination (oldst st : SCPNomination) : bool :=
  let '(res, g) := isSubsetHelper (nom_votes oldst) (nom_votes st) in
  if res then
    let grows := g in
    let '(res, g) := isSubsetHelper (nom_accepted oldst) (nom_accepted st) in
    if res then grows || g else false
  else false.

(** [isNewerStatement(nodeID, st)] *)
Definition isNewerThanLatestNomination (n : NodeID) (st : SCPNomination) (s : NState) : bool :=
  match map_find (mLatestNominations s) n with
  | None => true
  | Some old => isNewerNomination (ne_nominate old) st
  end.

(** [std::adjacent_find] of a pair that is not ascending *)
Fixpoint ascending (l : list Value) : bool :=
  match l with
  | x :: ((y :: _) as l') => value_ltb x y && ascending l'
  | _ => true
  end.

Definition isSaneNomination (st : NomStatement) : bool :=
  let nom := ns_nominate st in
  negb (length (nom_votes nom) + length (nom_accepted nom) =? 0)%nat &&
  ascending (nom_votes nom) && ascending (nom_accepted nom).

Definition recordNomination (env : NomEnvelope) (s : NState) : NState :=
  mkNState (mRoundNumber s) (mVotes s) (mAccepted s) (mCandidates s)
    (map_insert (ne_nodeID env) env (mLatestNominations s)) (mLastNomination s)
    (mRoundLeaders s) (mNominationStarted s) (mComposite s) (mPreviousValue s) (nFullyValidated s)
    (nStatementsHistory s ++ [(ne_statement env, nFullyValidated s)]) (nCalls s).

(** [applyAll]: the values in their order; also [getStatementValues] *)
Definition applyAll (nom : SCPNomination) : list Value := nom_votes nom ++ nom_accepted nom.

Definition votePredicate (v : Value) (st : NomStatement) : bool := has_value v (nom_votes (ns_nominate st)).
Definition acceptPredicate (v : Value) (st : NomStatement) : bool := has_value v (nom_accepted (ns_nominate st)).

Section Code.
Context {U : UInt128} `{Ctx : SCPContext} {D : NominationDriver}.

(** ** Federated voting *)

Definition nomQuorumSet (st : NomStatement) : option SCPQuorumSet := getQSet (nom_quorumSetHash (ns_nominate st)).

Definition nomStatements (envs : list (NodeID * NomEnvelope)) : list (NodeID * NomStatement) :=
  map (fun kv => (kv.1, ne_statement kv.2)) envs.

Definition isQuorum_noms (envs : list (NodeID * NomEnvelope)) (flt : NomStatement -> bool) : bool :=
  match isQuorum getQuorumSet (nomStatements envs) nomQuorumSet flt with
  | Some b => b
  | None => false
  end.

Definition nomAccept (voted accepted : NomStatement -> bool) (envs : list (NodeID * NomEnvelope)) : bool :=
  if isVBlocking_map getQuorumSet (nomStatements envs) accepted then true
  else isQuorum_noms envs (fun st => accepted st || voted st).
Definition nomRatify (voted : NomStatement -> bool) (envs : list (NodeID * NomEnvelope)) : bool :=
  isQuorum_noms envs voted.

(** ** Priorities *)

Definition hashNode (isPriority : bool) (n : NodeID) (s : NState) : res Z :=
  _ ← dbgAssert (Ok (negb (bool_decide (mPreviousValue s = []))));
  Ok (computeHashNode (mPreviousValue s) isPriority (mRoundNumber s) n).
Definition hashValue (v : Value) (s : NState) : res Z :=
  _ ← dbgAssert (Ok (negb (bool_decide (mPreviousValue s = []))));
  Ok (computeValueHash (mPreviousValue s) (mRoundNumber s) v).

Definition getNodePriority (n : NodeID) (qset : SCPQuorumSet) (s : NState) : res Z :=
  w ← (if n =? getLocalNodeID then Ok UINT64_MAX else getNodeWeight n qset);
  if 0 <? w then
    h ← hashNode false n s;
    if h <=? w then hashNode true n s else Ok 0
  else Ok 0.

(** the lambda of [updateRoundLeaders] over the nodes *)
Fixpoint roundLeaders (nodes : list NodeID) (qset : SCPQuorumSet) (topPriority : Z) (leaders : list NodeID) (s : NState)
    : res (list NodeID) :=
  match nodes with
  | [] => Ok leaders
  | cur :: nodes' =>
      w ← getNodePriority cur qset s;
      let '(topPriority, leaders) := if w >? topPriority then (w, []) else (topPriority, leaders) in
      let leaders := if (w =? topPriority) && (w >? 0) then insert_counter cur leaders else leaders in
      roundLeaders nodes' qset topPriority leaders s
  end.

Definition updateRoundLeaders (s : NState) : res NState :=
  let myQSet := normalizeQSet (Some getLocalNodeID) getQuorumSet in
  topPriority ← getNodePriority getLocalNodeID myQSet s;
  newRoundLeaders ← roundLeaders (forAllNodes myQSet) myQSet topPriority [getLocalNodeID] s;
  Ok (set_round (mRoundNumber s) (mPreviousValue s)
        (foldl (fun l n => insert_counter n l) (mRoundLeaders s) newRoundLeaders) s).

(** the lambda of [getNewValueFromNomination] over the values *)
Fixpoint newValue (values : list Value) (newVote : Value) (newHash : Z) (s : NState) : res Value :=
  match values with
  | [] => Ok newVote
  | v :: values' =>
      let valueToNominate := match validateNomination v with
                             | kFullyValidatedValue => v
                             | _ => extractValidValue v
                             end in
      if negb (bool_decide (valueToNominate = [])) && negb (has_value valueToNominate (mVotes s)) then
        curHash ← hashValue valueToNominate s;
        if curHash >=? newHash then newValue values' valueToNominate curHash s else newValue values' newVote newHash s
      else newValue values' newVote newHash s
  end.
Definition getNewValueFromNomination (nom : SCPNomination) (s : NState) : res Value :=
  newValue (applyAll nom) [] 0 s.

(** ** Processing *)

Definition createNomination (s : NState) : NomEnvelope :=
  let st := mkNomStatement getLocalNodeID getSlotIndex (mkNomination getQuorumSetHash (mVotes s) (mAccepted s)) in
  mkNomEnvelope st (signNomination st).

(** the loop over [nom.votes]: [modified] and the state *)
Fixpoint promoteVotes (votes : list Value) (modified : bool) (s : NState) : bool * NState :=
  match votes with
  | [] => (modified, s)
  | v :: votes' =>
      if has_value v (mAccepted s) then promoteVotes votes' modified s
      else if nomAccept (votePredicate v) (acceptPredicate v) (mLatestNominations s) then
        match validateNomination v with
        | kFullyValidatedValue =>
            promoteVotes votes' true (set_votes (insert_value v (mVotes s)) (set_accepted (insert_value v (mAccepted s)) s))
        | _ =>
            let toVote := extractValidValue v in
            if negb (bool_decide (toVote = [])) && negb (has_value toVote (mVotes s))
            then promoteVotes votes' true (set_votes (insert_value toVote (mVotes s)) s)
            else promoteVotes votes' modified s
        end
      else promoteVotes votes' modified s
  end.

(** the loop over [mAccepted]: [newCandidates] and the state *)
Fixpoint promoteAccepted (accepted : list Value) (newCandidates : bool) (s : NState) : bool * NState :=
  match accepted with
  | [] => (newCandidates, s)
  | a :: accepted' =>
      if has_value a (mCandidates s) then promoteAccepted accepted' newCandidates s
      else if nomRatify (acceptPredicate a) (mLatestNominations s)
      then promoteAccepted accepted' true (set_candidates (insert_value a (mCandidates s)) s)
      else promoteAccepted accepted' newCandidates s
  end.

Section Transitions.
Variable rec : NomEnvelope -> NState -> res (EnvelopeState * NState).

Definition emitNomination (s : NState) : res NState :=
  let envelope := createNomination s in
  '(r, s) ← rec envelope s;
  match r with
  | VALID =>
      if match mLastNomination s with
         | None => true
         | Some last => isNewerNomination (ne_nominate last) (ne_nominate envelope)
         end
      then
        let s := set_lastNomination (Some envelope) s in
        Ok (if nFullyValidated s then ncall (emitNominationEnvelope envelope) s else s)
      else Ok s
  | INVALID => Throw (RuntimeError "moved to a bad state (nomination)")
  end.

(** the vote for a value of a round leader *)
Definition takeLeaderVote (n : NodeID) (nom : SCPNomination) (modified : bool) (s : NState) : res (bool * NState) :=
  if bool_decide (mCandidates s = []) && bool_decide (n ∈ mRoundLeaders s) then
    newVote ← getNewValueFromNomination nom s;
    if negb (bool_decide (newVote = []))
    then Ok (true, ncall (nominatingValue newVote) (set_votes (insert_value newVote (mVotes s)) s))
    else Ok (modified, s)
  else Ok (modified, s).

(** the part of [processEnvelope] after the nomination has started *)
Definition advanceNomination (envelope : NomEnvelope) (s : NState) : res NState :=
  let nom := ne_nominate envelope in
  let '(modified, s) := promoteVotes (nom_votes nom) false s in
  let '(newCandidates, s) := promoteAccepted (mAccepted s) false s in
  '(modified, s) ← takeLeaderVote (ne_nodeID envelope) nom modified s;
  s ← (if modified : bool then emitNomination s else Ok s);
  if newCandidates : bool then
    let composite := combineCandidates (mCandidates s) in
    Ok (ncall (nominationBumpState composite) (ncall (updatedCandidateValue composite) (set_composite composite s)))
  else Ok s.

Definition processNominationEnvelope (envelope : NomEnvelope) (s : NState) : res (EnvelopeState * NState) :=
  if isNewerThanLatestNomination (ne_nodeID envelope) (ne_nominate envelope) s then
    if isSaneNomination (ne_statement envelope) then
      let s := recordNomination envelope s in
      if mNominationStarted s then s ← advanceNomination envelope s; Ok (VALID, s) else Ok (VALID, s)
    else Ok (INVALID, s)
  else Ok (INVALID, s).

End Transitions.

(** [Slot::processEnvelope] *)
Fixpoint processNomination (fuel : nat) (envelope : NomEnvelope) (s : NState) : res (EnvelopeState * NState) :=
  match fuel with
  | O => Throw OutOfFuel
  | S fuel' =>
      _ ← dbgAssert (Ok (ns_slotIndex (ne_statement envelope) =? getSlotIndex));
      processNominationEnvelope (processNomination fuel') envelope s
  end.

(** each level of the recursion adds a value to the votes or to the accepted
    values, and there are no more values than those that are known and what can
    be extracted from them *)
Definition known_values (values : list Value) : nat := (2 * length values)%nat.
Definition nomination_fuel (values : list Value) (s : NState) : nat :=
  (2 * known_values (values ++ mVotes s) + 2)%nat.

(** ** The entry points *)

(** an envelope received from another node *)
Definition receiveNomination (e : NomEnvelope) (s : NState) : res (EnvelopeState * NState) :=
  processNomination (nomination_fuel (applyAll (ne_nominate e)) s) e s.

(** the values of other leaders in [nominate]: the last one and [updated] *)
Fixpoint takeLeaderValues (leaders : list NodeID) (nominating : Value) (updated : bool) (s : NState)
    : res (Value * bool * NState) :=
  match leaders with
  | [] => Ok (nominating, updated, s)
  | leader :: leaders' =>
      match map_find (mLatestNominations s) leader with
      | Some e =>
          nominating ← getNewValueFromNomination (ne_nominate e) s;
          if negb (bool_decide (nominating = []))
          then takeLeaderValues leaders' nominating true (set_votes (insert_value nominating (mVotes s)) s)
          else takeLeaderValues leaders' nominating updated s
      | None => takeLeaderValues leaders' nominating updated s
      end
  end.

(** all values of the latest nominations *)
Definition latest_values (s : NState) : list Value := concat (map (fun kv => applyAll (ne_nominate kv.2)) (mLatestNominations s)).

Definition nominate (v previousValue : Value) (timedout : bool) (s : NState) : res (bool * NState) :=
  if timedout && negb (mNominationStarted s) then Ok (false, s)
  else
    let fuel := nomination_fuel (v :: latest_values s) s in
    let s := set_started true s in
    let s := set_round (i32 (mRoundNumber s + 1)) previousValue (mRoundLeaders s) s in
    s ← updateRoundLeaders s;
    let '(nominating, updated, s) :=
      if bool_decide (getLocalNodeID ∈ mRoundLeaders s)
      then (v, negb (has_value v (mVotes s)), set_votes (insert_value v (mVotes s)) s)
      else ([], false, s) in
    '(nominating, updated, s) ← takeLeaderValues (mRoundLeaders s) nominating updated s;
    let s := ncall (nominatingValue nominating) s in
    let s := ncall (setupNominationTimer (computeTimeout (u32 (mRoundNumber s))) v previousValue) s in
    s ← (if updated : bool then emitNomination (processNomination fuel) s else Ok s);
    Ok (updated, s).

Definition stopNomination (s : NState) : NState := set_started false s.

(** restoring the own state *)
Definition nomination_setStateFromEnvelope (e : NomEnvelope) (s : NState) : res NState :=
  if mNominationStarted s then Throw (RuntimeError "Cannot set state after nomination is started")
  else
    let s := recordNomination e s in
    let s := set_accepted (foldl (fun l a => insert_value a l) (mAccepted s) (nom_accepted (ne_nominate e))) s in
    let s := set_votes (foldl (fun l v => insert_value v l) (mVotes s) (nom_votes (ne_nominate e))) s in
    Ok (set_lastNomination (Some e) s).

Definition nomination_getCurrentState (s : NState) : list NomEnvelope :=
  map snd (List.filter (fun kv => negb (kv.1 =? getLocalNodeID) || nFullyValidated s) (mLatestNominations s)).

End Code.
