(* ===== verification/NominationSafety.v ===== *)
(** * The nomination protocol: sets of values, statements and their order

    The lemmas behind NominationRuns.v: the sets of values are sorted lists,
    [isNewerNomination] is the growth of the two sets of a statement, and a
    transition of the protocol ([NStep]) keeps the invariant [NInv] of a node. *)
From Stdlib Require Import Sorted.
From S2P Require Import Prelude Numeric QuorumSet LocalNode Ballots BallotProtocol BallotSafety Nomination.

(** ** Sorted sets of values *)

Definition vlt (x y : Value) : Prop := value_ltb x y = true.
Notation vset := (StronglySorted vlt).

Lemma insert_value_elem v l x : x ∈ insert_value v l <-> x = v \/ x ∈ l.
Proof.
  induction l as [|y l IH]; cbn; [set_solver|]. repeat split_if.
  - set_solver.
  - rewrite !elem_of_cons, IH. tauto.
  - rewrite (value_ltb_total v y) by done. set_solver.
Qed.

Lemma insert_value_sorted v l : vset l -> vset (insert_value v l).
Proof.
  induction 1 as [|y l Hs IH Hlt]; cbn; [by repeat constructor|]. rewrite Forall_forall in Hlt.
  repeat split_if.
  - constructor; [by constructor; [|apply Forall_forall]|]. apply Forall_forall.
    intros x [->|Hx]%elem_of_cons; [done|]. by eapply value_ltb_trans, Hlt.
  - constructor; [done|]. apply Forall_forall. intros x [->|Hx]%insert_value_elem; [done|by apply Hlt].
  - by constructor; [|apply Forall_forall].
Qed.

Lemma vset_nodup l : vset l -> NoDup l.
Proof.
  induction 1 as [|y l Hs IH Hlt]; constructor; [|done]. intros Hy. rewrite Forall_forall in Hlt.
  pose proof (Hlt y Hy) as H. unfold vlt in H. by rewrite value_ltb_irrefl in H.
Qed.

Lemma nodup_length_le {A} (l l' : list A) : NoDup l -> l ⊆ l' -> (length l <= length l')%nat.
Proof.
  intros H1 H2. apply NoDup_ListNoDup in H1. apply (NoDup_incl_length H1).
  intros x Hx. apply list_elem_of_In, H2, list_elem_of_In. exact Hx.
Qed.

Lemma insert_value_length v l : vset l -> v ∉ l -> length (insert_value v l) = S (length l).
Proof.
  intros Hs Hv. induction Hs as [|y l Hs IH Hlt]; cbn; [done|]. repeat split_if; cbn; [done| |].
  - rewrite IH; [done|]. set_solver.
  - rewrite (value_ltb_total v y) in Hv by done. set_solver.
Qed.

Lemma insert_value_length_le v l : (length l <= length (insert_value v l))%nat.
Proof. induction l as [|y l IH]; cbn; [lia|]. repeat split_if; cbn; lia. Qed.

Lemma insert_value_sub v l : l ⊆ insert_value v l.
Proof. intros x Hx. apply insert_value_elem. by right. Qed.

(** two sorted sets with the same elements are the same list *)
Lemma vset_same_length l l' : vset l -> vset l' -> l ⊆ l' -> length l = length l' -> l' ⊆ l.
Proof.
  intros Hl Hl' Hsub Hlen x Hx. destruct (decide (x ∈ l)) as [|Hn]; [done|].
  assert (Hx' : x :: l ⊆ l') by set_solver.
  apply nodup_length_le in Hx'; [cbn in Hx'; lia|]. constructor; [done|by apply vset_nodup].
Qed.

Lemma includes_spec v p : vset v -> vset p -> includes v p = true <-> p ⊆ v.
Proof.
  intros Hv. revert p. induction Hv as [|x v Hs IH Hlt]; intros [|y p] Hp; cbn.
  - split; [set_solver|done].
  - split; [done|]. intros H. specialize (H y). set_solver.
  - split; [set_solver|done].
  - rewrite Forall_forall in Hlt. pose proof (StronglySorted_inv Hp) as [Hp' Hy]. rewrite Forall_forall in Hy.
    destruct (value_ltb y x) eqn:E1.
    + split; [done|]. intros H. assert (y ∈ x :: v) as [->|Hin]%elem_of_cons by set_solver.
      * by rewrite value_ltb_irrefl in E1.
      * pose proof (value_ltb_trans _ _ _ (Hlt y Hin) E1) as H'. by rewrite value_ltb_irrefl in H'.
    + destruct (value_ltb x y) eqn:E2.
      * rewrite IH by done. split; [set_solver|]. intros H z Hz.
        assert (z ∈ x :: v) as [->|]%elem_of_cons by set_solver; [|done].
        apply elem_of_cons in Hz as [->|Hz]; [by rewrite value_ltb_irrefl in E2|].
        pose proof (value_ltb_trans _ _ _ E2 (Hy x Hz)) as H'. by rewrite value_ltb_irrefl in H'.
      * assert (y = x) as -> by (by apply value_ltb_total). rewrite IH by done. split; [set_solver|].
        intros H z Hz. assert (z ∈ x :: v) as [->|]%elem_of_cons by set_solver; [|done].
        pose proof (Hy x Hz) as H'. unfold vlt in H'. by rewrite value_ltb_irrefl in H'.
Qed.

Lemma ascending_spec l : ascending l = true <-> vset l.
Proof.
  induction l as [|x [|y l] IH]; [split; [constructor|done]|split; [by repeat constructor|done]|].
  change (value_ltb x y && ascending (y :: l) = true <-> vset (x :: y :: l)). rewrite andb_true_iff, IH. split.
  - intros [Hxy Hs]. constructor; [done|]. pose proof (StronglySorted_inv Hs) as [_ Hy].
    constructor; [done|]. eapply Forall_impl; [exact Hy|]. intros z Hz. by eapply value_ltb_trans.
  - intros Hs. apply StronglySorted_inv in Hs as [Hs Hx]. apply Forall_cons in Hx as [Hx _]. done.
Qed.

Lemma has_value_spec v l : has_value v l = true <-> v ∈ l.
Proof. apply bool_decide_eq_true. Qed.
Lemma has_value_false v l : has_value v l = false <-> v ∉ l.
Proof. apply bool_decide_eq_false. Qed.

(** ** The order of statements *)

Definition nom_ok (n : SCPNomination) : Prop := vset (nom_votes n) /\ vset (nom_accepted n).
Definition nom_le (a b : SCPNomination) : Prop := nom_votes a ⊆ nom_votes b /\ nom_accepted a ⊆ nom_accepted b.
Definition nom_size (a : SCPNomination) : nat := (length (nom_votes a) + length (nom_accepted a))%nat.
(** one of the sets grows *)
Definition nom_lt (a b : SCPNomination) : Prop := nom_le a b /\ (nom_size a < nom_size b)%nat.

Lemma isSubsetHelper_spec p v : vset p -> vset v ->
  isSubsetHelper p v = (bool_decide (p ⊆ v), negb (bool_decide (p ⊆ v)) || negb (length p =? length v)%nat).
Proof.
  intros Hp Hv. unfold isSubsetHelper. destruct (Nat.leb_spec (length p) (length v)) as [Hl|Hl].
  - destruct (includes v p) eqn:E.
    + rewrite bool_decide_eq_true_2 by (by apply includes_spec). done.
    + rewrite bool_decide_eq_false_2; [done|]. intros H. apply includes_spec in H; [congruence|done..].
  - rewrite bool_decide_eq_false_2; [done|]. intros H. apply nodup_length_le in H; [lia|by apply vset_nodup].
Qed.

(** [isNewerNomination] is the strict order on the statements of sorted sets *)
Lemma isNewerNomination_iff a b : nom_ok a -> nom_ok b -> isNewerNomination a b = true <-> nom_lt a b.
Proof.
  intros [Ha1 Ha2] [Hb1 Hb2]. unfold isNewerNomination. rewrite !isSubsetHelper_spec by done.
  unfold nom_lt, nom_le, nom_size. case_bool_decide as H1; [|split; [done|tauto]].
  case_bool_decide as H2; [|split; [done|tauto]]. cbn.
  apply nodup_length_le in H1 as L1; [|by apply vset_nodup].
  apply nodup_length_le in H2 as L2; [|by apply vset_nodup].
  rewrite orb_true_iff, !negb_true_iff, !Nat.eqb_neq. split; [intros H; split; [done|lia]|intros [_ H]; lia].
Qed.

Lemma nom_le_refl a : nom_le a a.
Proof. done. Qed.
Lemma nom_le_trans a b c : nom_le a b -> nom_le b c -> nom_le a c.
Proof. intros [] []. split; by etrans. Qed.
Lemma nom_le_size a b : nom_ok a -> nom_le a b -> (nom_size a <= nom_size b)%nat.
Proof.
  intros [] []. unfold nom_size.
  pose proof (nodup_length_le (nom_votes a) (nom_votes b)). pose proof (nodup_length_le (nom_accepted a) (nom_accepted b)).
  assert (NoDup (nom_votes a)) by (by apply vset_nodup). assert (NoDup (nom_accepted a)) by (by apply vset_nodup).
  intuition lia.
Qed.
Lemma nom_le_lt_trans a b c : nom_ok a -> nom_le a b -> nom_lt b c -> nom_lt a c.
Proof. intros Ha Hab [Hbc Hs]. split; [by eapply nom_le_trans|]. pose proof (nom_le_size a b Ha Hab). lia. Qed.

Lemma isSane_spec st : isSaneNomination st = true <-> nom_ok (ns_nominate st) /\ (0 < nom_size (ns_nominate st))%nat.
Proof.
  unfold isSaneNomination, nom_ok, nom_size. rewrite !andb_true_iff, !ascending_spec, negb_true_iff, Nat.eqb_neq.
  intuition lia.
Qed.

(** ** The state of a node *)

(** the statements a node has emitted, in their order *)
Definition emitted (s : NState) : list SCPNomination :=
  omap (fun c => match c with emitNominationEnvelope e => Some (ne_nominate e) | _ => None end) (nCalls s).

(** what is fixed while an envelope is processed *)
Definition frame (s : NState) : Z * list NodeID * bool * Value * bool :=
  (mRoundNumber s, mRoundLeaders s, mNominationStarted s, mPreviousValue s, nFullyValidated s).

Section State.
Context {Ctx : SCPContext}.

(** the sets of a node as the statement it would make *)
Definition own_sets (s : NState) : SCPNomination := mkNomination getQuorumSetHash (mVotes s) (mAccepted s).
Definition own_latest (s : NState) : option NomEnvelope := map_find (mLatestNominations s) getLocalNodeID.

Record sets_ok (s : NState) : Prop := {
  so_votes : vset (mVotes s);
  so_accepted : vset (mAccepted s);
  so_candidates : vset (mCandidates s);
  so_acc_votes : mAccepted s ⊆ mVotes s;
  so_cand_acc : mCandidates s ⊆ mAccepted s;
  so_keys : StronglySorted Z.lt (map fst (mLatestNominations s)) }.

Record NInv (s : NState) : Prop := {
  inv_sets : sets_ok s;
  inv_latest : forall n e, map_find (mLatestNominations s) n = Some e -> nom_ok (ne_nominate e);
  inv_own : forall e, own_latest s = Some e -> nom_le (ne_nominate e) (own_sets s);
  inv_last : forall l, mLastNomination s = Some l ->
    nom_ok (ne_nominate l) /\ exists o, own_latest s = Some o /\ nom_le (ne_nominate l) (ne_nominate o);
  inv_emitted : StronglySorted nom_lt (emitted s);
  inv_emitted_last : forall x, x ∈ emitted s ->
    nom_ok x /\ exists l, mLastNomination s = Some l /\ nom_le x (ne_nominate l);
  inv_started : mNominationStarted s = true -> mPreviousValue s <> [] }.

(** the latest statement of the node tells all it votes for and accepts *)
Definition published (s : NState) : Prop :=
  (own_latest s = None /\ mVotes s = []) \/
  exists o, own_latest s = Some o /\ nom_votes (ne_nominate o) = mVotes s /\ nom_accepted (ne_nominate o) = mAccepted s.

(** the statements of the other nodes are the same *)
Definition others_same (m m' : list (NodeID * NomEnvelope)) : Prop :=
  forall n, n <> getLocalNodeID -> map_find m n = map_find m' n.

Lemma own_sets_ok s : sets_ok s -> nom_ok (own_sets s).
Proof. intros []. by split. Qed.

Lemma others_same_trans m1 m2 m3 : others_same m1 m2 -> others_same m2 m3 -> others_same m1 m3.
Proof. intros H1 H2 n Hn. by rewrite H1, H2. Qed.

Lemma newProtocol_inv b : NInv (newNominationProtocol b) /\ published (newNominationProtocol b).
Proof.
  split; [|by left]. constructor; cbn; try done; try (by constructor); [constructor; cbn; try constructor; done|set_solver].
Qed.

Section Driver.
Context {D : NominationDriver}.

Definition fully_valid (v : Value) : Prop := validateNomination v = kFullyValidatedValue.
(** a value the node may vote for *)
Definition vetted (v : Value) : Prop := fully_valid v \/ extractValidValue v = v.

(** ** The values a step can know *)

(** a set of values that has what can be extracted from its members *)
Definition closed (E : list Value) : Prop :=
  forall v, v ∈ E -> fully_valid v \/ extractValidValue v = [] \/ extractValidValue v ∈ E.

Definition universe (vs : list Value) : list Value :=
  vs ++ List.filter (fun v => negb (bool_decide (v = []))) (map extractValidValue vs).

Lemma elem_of_universe vs v : v ∈ universe vs <-> v ∈ vs \/ v <> [] /\ exists w, w ∈ vs /\ v = extractValidValue w.
Proof.
  unfold universe. rewrite elem_of_app, elem_of_filter_list, negb_true_iff, bool_decide_eq_false, list_elem_of_fmap.
  naive_solver.
Qed.

Lemma universe_closed vs : closed (universe vs).
Proof.
  intros v [Hv|(Hv & w & Hw & ->)]%elem_of_universe.
  - destruct (decide (extractValidValue v = [])); [by right; left|]. right; right. apply elem_of_universe. right. by eauto.
  - destruct (extract_stable w Hv) as [H|H]; [by left|]. right; right. rewrite H. apply elem_of_universe. right. by eauto.
Qed.

Lemma universe_length vs : (length (universe vs) <= known_values vs)%nat.
Proof.
  unfold universe, known_values. rewrite length_app.
  pose proof (filter_length_le (fun v => negb (bool_decide (v = []))) (map extractValidValue vs)).
  rewrite length_map in *. lia.
Qed.

(** ** Steps *)

(** the values the node proposes itself *)
Variable own : Value -> Prop.
Definition voteable (v : Value) : Prop := vetted v \/ own v.

(** why a value is accepted, why it is a candidate: by the statements of the
    others and a statement of the node itself *)
Definition accept_cause (v : Value) (m : list (NodeID * NomEnvelope)) : Prop :=
  fully_valid v /\ exists envs, StronglySorted Z.lt (map fst envs) /\ others_same envs m /\
    nomAccept (votePredicate v) (acceptPredicate v) envs = true.
Definition ratify_cause (v : Value) (m : list (NodeID * NomEnvelope)) : Prop :=
  exists envs, StronglySorted Z.lt (map fst envs) /\ others_same envs m /\ nomRatify (acceptPredicate v) envs = true.

Record NStep (s s' : NState) : Prop := {
  st_votes : mVotes s ⊆ mVotes s';
  st_accepted : mAccepted s ⊆ mAccepted s';
  st_candidates : mCandidates s ⊆ mCandidates s';
  st_others : others_same (mLatestNominations s) (mLatestNominations s');
  st_own : forall o, own_latest s = Some o -> exists o', own_latest s' = Some o' /\ nom_le (ne_nominate o) (ne_nominate o');
  st_frame : frame s' = frame s;
  st_calls : exists l, nCalls s' = nCalls s ++ l;
  st_new_votes : forall v, v ∈ mVotes s' -> v ∈ mVotes s \/ voteable v;
  st_new_accepted : forall v, v ∈ mAccepted s' -> v ∈ mAccepted s \/ accept_cause v (mLatestNominations s');
  st_new_candidates : forall v, v ∈ mCandidates s' -> v ∈ mCandidates s \/ ratify_cause v (mLatestNominations s') }.

Lemma accept_cause_mono v m m' : others_same m m' -> accept_cause v m -> accept_cause v m'.
Proof. intros H [Hv (envs & Hk & He & Hc)]. split; [done|]. exists envs. split; [done|]. split; [by eapply others_same_trans|done]. Qed.
Lemma ratify_cause_mono v m m' : others_same m m' -> ratify_cause v m -> ratify_cause v m'.
Proof. intros H (envs & Hk & He & Hc). exists envs. split; [done|]. split; [by eapply others_same_trans|done]. Qed.

#[local] Ltac nstep :=
  constructor; cbn; try done; try apply insert_value_sub;
  [by eauto using nom_le_refl|first [by exists []; rewrite app_nil_r|by eauto]|..];
  try (by left); try (intros w [->|]%insert_value_elem; [right|by left]).

Lemma NStep_refl s : NStep s s.
Proof. nstep; by left. Qed.

Lemma NStep_trans s1 s2 s3 : NStep s1 s2 -> NStep s2 s3 -> NStep s1 s3.
Proof.
  intros [] []. constructor; try (by etrans).
  - by eapply others_same_trans.
  - intros o Ho. destruct (st_own0 o Ho) as (o1 & Ho1 & H1). destruct (st_own1 o1 Ho1) as (o2 & Ho2 & H2).
    exists o2. split; [done|by eapply nom_le_trans].
  - destruct st_calls1 as [l2 ->], st_calls0 as [l1 ->]. exists (l1 ++ l2). by rewrite app_assoc.
  - intros v [Hv|Hv]%st_new_votes1; [by apply st_new_votes0|by right].
  - intros v [[Hv|Hv]%st_new_accepted0|Hv]%st_new_accepted1; [by left| |by right].
    right. by eapply accept_cause_mono.
  - intros v [[Hv|Hv]%st_new_candidates0|Hv]%st_new_candidates1; [by left| |by right].
    right. by eapply ratify_cause_mono.
Qed.

(** ** Growth of the sets *)

(** a step that only adds to the sets *)
Record Grow (s s' : NState) : Prop := {
  gr_step : NStep s s';
  gr_sets : sets_ok s';
  gr_latest : mLatestNominations s' = mLatestNominations s;
  gr_last : mLastNomination s' = mLastNomination s;
  gr_composite : mComposite s' = mComposite s;
  gr_emitted : emitted s' = emitted s }.

Lemma Grow_refl s : sets_ok s -> Grow s s.
Proof. intros H. constructor; try done. apply NStep_refl. Qed.

Lemma Grow_trans s1 s2 s3 : Grow s1 s2 -> Grow s2 s3 -> Grow s1 s3.
Proof. intros [] []. constructor; try congruence. by eapply NStep_trans. Qed.

Lemma Grow_inv s s' : Grow s s' -> NInv s -> NInv s'.
Proof.
  intros [[] Hs Hm Hl _ He] []. unfold own_latest in *.
  assert (Hf : mNominationStarted s' = mNominationStarted s /\ mPreviousValue s' = mPreviousValue s)
    by (unfold frame in *; split; congruence).
  constructor; unfold own_latest in *; rewrite ?Hm, ?Hl, ?He; try done.
  - intros e Ho. by eapply nom_le_trans; [apply inv_own0|split].
  - destruct Hf as [-> ->]. done.
Qed.

Lemma grow_vote v s : sets_ok s -> voteable v -> Grow s (set_votes (insert_value v (mVotes s)) s).
Proof.
  intros [] Hv. constructor; try done.
  - by nstep.
  - constructor; cbn; try done; [by apply insert_value_sorted|].
    etrans; [eassumption|apply insert_value_sub].
Qed.

Lemma grow_accept v s : sets_ok s -> fully_valid v ->
  nomAccept (votePredicate v) (acceptPredicate v) (mLatestNominations s) = true ->
  Grow s (set_votes (insert_value v (mVotes s)) (set_accepted (insert_value v (mAccepted s)) s)).
Proof.
  intros [] Hv Ha. constructor; try done.
  - nstep; [by left; left|]. split; [done|]. by exists (mLatestNominations s).
  - constructor; cbn; try done; try (by apply insert_value_sorted).
    + intros w [->|Hw]%insert_value_elem; apply insert_value_elem; [by left|right; auto].
    + etrans; [eassumption|apply insert_value_sub].
Qed.

Lemma grow_candidate v s : sets_ok s -> v ∈ mAccepted s ->
  nomRatify (acceptPredicate v) (mLatestNominations s) = true ->
  Grow s (set_candidates (insert_value v (mCandidates s)) s).
Proof.
  intros [] Hv Ha. constructor; try done.
  - nstep. by exists (mLatestNominations s).
  - constructor; cbn; try done; [by apply insert_value_sorted|].
    intros w [->|Hw]%insert_value_elem; auto.
Qed.

Lemma grow_call c s : sets_ok s -> (forall e, c <> emitNominationEnvelope e) -> Grow s (ncall c s).
Proof.
  intros Hs Hc. constructor; try done.
  - nstep.
  - by destruct Hs.
  - unfold emitted. cbn. rewrite omap_app. destruct c; cbn; rewrite ?app_nil_r; [done| |done..].
    by destruct (Hc e).
Qed.

(** ** The stages of processing *)

Definition sets_size (s : NState) : nat := nom_size (own_sets s).

Section Stages.
Variable univ : list Value.
Hypothesis univ_closed : closed univ.

(** the votes of a step stay among the values of [univ] *)
Definition within (s : NState) : Prop := mVotes s ⊆ univ.

Lemma fully_valid_dec v : {fully_valid v} + {validateNomination v <> kFullyValidatedValue}.
Proof. unfold fully_valid. destruct (validateNomination v); by auto. Qed.

Lemma match_fully_valid {A} v (x y : A) :
  match validateNomination v with kFullyValidatedValue => x | _ => y end =
  if fully_valid_dec v then x else y.
Proof. destruct (fully_valid_dec v) as [H|H]; [by rewrite H|]. by destruct (validateNomination v). Qed.

Lemma extracted v : v ∈ univ -> ~ fully_valid v -> extractValidValue v <> [] ->
  vetted (extractValidValue v) /\ extractValidValue v ∈ univ.
Proof using univ_closed.
  intros Hv Hn He. split; [by apply extract_stable|]. destruct (univ_closed v Hv) as [H|[H|H]]; [by destruct Hn|by destruct He|exact H].
Qed.

Lemma within_insert v s : within s -> v ∈ univ -> insert_value v (mVotes s) ⊆ univ.
Proof. intros Hw Hv w [->|H]%insert_value_elem; [done|by apply Hw]. Qed.

(** what the loop over the votes does: either it changes nothing, or the sets
    grow; the valid votes that can be accepted are *)
Definition promotedVotes (vs : list Value) (m0 : bool) (s : NState) (m : bool) (s' : NState) : Prop :=
  Grow s s' /\ within s' /\ mCandidates s' = mCandidates s /\ nCalls s' = nCalls s /\
  (m = true /\ (sets_size s < sets_size s')%nat \/ m = m0 /\ s' = s) /\
  forall v, v ∈ vs -> fully_valid v -> nomAccept (votePredicate v) (acceptPredicate v) (mLatestNominations s) = true ->
    v ∈ mAccepted s'.

Lemma promoteVotes_spec vs m0 s m s' :
  promoteVotes vs m0 s = (m, s') -> sets_ok s -> within s -> vs ⊆ univ -> promotedVotes vs m0 s m s'.
Proof.
  revert m0 s. induction vs as [|v vs IH]; intros m0 s Hp Hs Hw Hsub.
  { injection Hp as <- <-. split; [by apply Grow_refl|]. repeat (split; [done|]). split; [by right|set_solver]. }
  assert (Hvu : v ∈ univ) by set_solver. assert (Hsub' : vs ⊆ univ) by set_solver. cbn in Hp. rewrite match_fully_valid in Hp.
  (* a step to [s1], then the rest *)
  assert (Hnext : forall s1, promoteVotes vs true s1 = (m, s') -> Grow s s1 -> within s1 -> mCandidates s1 = mCandidates s ->
      nCalls s1 = nCalls s -> (sets_size s < sets_size s1)%nat -> (fully_valid v -> v ∈ mAccepted s1) ->
      promotedVotes (v :: vs) m0 s m s').
  { intros s1 H1 HG Hw1 Hc Hl Hsz Hv. destruct (IH true s1 H1 (gr_sets _ _ HG) Hw1 Hsub') as (G & W & C & L & M & A).
    split; [by eapply Grow_trans|]. split; [done|]. split; [congruence|]. split; [congruence|].
    split; [left; destruct M as [[-> M]|[-> ->]]; (split; [done|lia])|].
    intros w [->|Hw']%elem_of_cons Hfv Ha; [by apply (st_accepted _ _ (gr_step _ _ G)), Hv|].
    apply A; [done..|]. by rewrite (gr_latest _ _ HG). }
  assert (Hskip : promoteVotes vs m0 s = (m, s') ->
      (fully_valid v -> nomAccept (votePredicate v) (acceptPredicate v) (mLatestNominations s) = true -> v ∈ mAccepted s) ->
      promotedVotes (v :: vs) m0 s m s').
  { intros H1 Hv. destruct (IH m0 s H1 Hs Hw Hsub') as (G & W & C & L & M & A). do 5 (split; [done|]).
    intros w [->|Hw']%elem_of_cons Hfv Ha; [|by apply A]. by apply (st_accepted _ _ (gr_step _ _ G)), Hv. }
  destruct (has_value v (mAccepted s)) eqn:Eh; [apply has_value_spec in Eh; by apply Hskip|apply has_value_false in Eh].
  destruct (nomAccept _ _ _) eqn:Ea; [|by apply Hskip].
  destruct (fully_valid_dec v) as [Hfv|Hnv].
  - eapply Hnext; [exact Hp|by apply grow_accept|by apply within_insert|done|done| |].
    + unfold sets_size, nom_size. cbn. pose proof (insert_value_length_le v (mVotes s)).
      rewrite (insert_value_length v (mAccepted s)) by (done || apply Hs). lia.
    + intros _. apply insert_value_elem. by left.
  - destruct (negb (bool_decide (extractValidValue v = [])) && negb (has_value (extractValidValue v) (mVotes s))) eqn:Et;
      [|by apply Hskip].
    apply andb_true_iff in Et as [Et Ev]. rewrite negb_true_iff in Et, Ev. apply bool_decide_eq_false in Et.
    apply has_value_false in Ev. destruct (extracted v Hvu Hnv Et) as [Hx Hxu].
    eapply Hnext; [exact Hp|apply grow_vote; [done|by left]|by apply within_insert|done|done| |done].
    unfold sets_size, nom_size. cbn. rewrite insert_value_length by (done || apply Hs). lia.
Qed.

Definition promotedAccepted (l : list Value) (b0 : bool) (s : NState) (b : bool) (s' : NState) : Prop :=
  Grow s s' /\ mVotes s' = mVotes s /\ mAccepted s' = mAccepted s /\ nCalls s' = nCalls s /\
  (b = true \/ b = b0 /\ s' = s) /\
  forall a, a ∈ l -> nomRatify (acceptPredicate a) (mLatestNominations s) = true -> a ∈ mCandidates s'.

Lemma promoteAccepted_spec l b0 s b s' :
  promoteAccepted l b0 s = (b, s') -> sets_ok s -> l ⊆ mAccepted s -> promotedAccepted l b0 s b s'.
Proof.
  revert b0 s. induction l as [|a l IH]; intros b0 s Hp Hs Hsub.
  { injection Hp as <- <-. split; [by apply Grow_refl|]. repeat (split; [done|]). split; [by right|set_solver]. }
  assert (HaA : a ∈ mAccepted s) by set_solver. assert (Hsub' : l ⊆ mAccepted s) by set_solver. cbn in Hp.
  assert (Hskip : promoteAccepted l b0 s = (b, s') ->
      (nomRatify (acceptPredicate a) (mLatestNominations s) = true -> a ∈ mCandidates s) ->
      promotedAccepted (a :: l) b0 s b s').
  { intros H1 Ha. destruct (IH b0 s H1 Hs Hsub') as (G & V & A & L & M & R). do 5 (split; [done|]).
    intros x [->|Hx]%elem_of_cons Hr; [|by apply R]. by apply (st_candidates _ _ (gr_step _ _ G)), Ha. }
  destruct (has_value a (mCandidates s)) eqn:Eh; [apply has_value_spec in Eh; by apply Hskip|].
  destruct (nomRatify _ _) eqn:Er; [|by apply Hskip].
  pose proof (grow_candidate a s Hs HaA Er) as HG.
  destruct (IH true _ Hp (gr_sets _ _ HG) Hsub') as (G & V & A & L & M & R).
  split; [by eapply Grow_trans|]. do 3 (split; [done|]). split; [left; by destruct M as [|[? _]]|].
  intros x [->|Hx]%elem_of_cons Hr; [|by apply R].
  apply (st_candidates _ _ (gr_step _ _ G)), insert_value_elem. by left.
Qed.

Lemma newValue_spec vs nv h s : mPreviousValue s <> [] -> vs ⊆ univ ->
  exists v, newValue vs nv h s = Ok v /\ (v = nv \/ v <> [] /\ v ∉ mVotes s /\ vetted v /\ v ∈ univ).
Proof.
  intros Hp. revert nv h. induction vs as [|v vs IH]; intros nv h Hsub; cbn; [by eauto|].
  assert (Hvu : v ∈ univ) by set_solver. assert (Hsub' : vs ⊆ univ) by set_solver.
  rewrite match_fully_valid. set (w := if fully_valid_dec v then v else extractValidValue v).
  destruct (negb (bool_decide (w = [])) && negb (has_value w (mVotes s))) eqn:Et; [|by apply IH].
  apply andb_true_iff in Et as [Et Ev]. rewrite negb_true_iff in Et, Ev. apply bool_decide_eq_false in Et.
  apply has_value_false in Ev.
  assert (Hw : vetted w /\ w ∈ univ).
  { subst w. destruct (fully_valid_dec v); [by split; [left|]|]. by apply extracted. }
  unfold hashValue, dbgAssert. rewrite bool_decide_eq_false_2 by done.
  assert (Hd : (if dbg then b ← Ok (negb false); assert_ b else Ok tt) = Ok tt) by (by destruct dbg).
  rewrite Hd. cbn [mbind res_bind]. destruct (_ >=? h); [|by apply IH].
  destruct (IH w (computeValueHash (mPreviousValue s) (mRoundNumber s) w) Hsub') as (v' & -> & Hv').
  exists v'. split; [done|]. right. by destruct Hv' as [->|], Hw.
Qed.

Definition voted (m0 : bool) (s : NState) (m : bool) (s' : NState) : Prop :=
  Grow s s' /\ within s' /\ mAccepted s' = mAccepted s /\ mCandidates s' = mCandidates s /\
  (m = true /\ (sets_size s < sets_size s')%nat \/ m = m0 /\ s' = s).

Lemma takeLeaderVote_spec n nom m0 s :
  mPreviousValue s <> [] -> sets_ok s -> within s -> applyAll nom ⊆ univ ->
  exists m s', takeLeaderVote n nom m0 s = Ok (m, s') /\ voted m0 s m s'.
Proof.
  intros Hp Hs Hw Hsub. unfold takeLeaderVote.
  assert (Hsame : exists m s', Ok (m0, s) = Ok (m, s') /\ voted m0 s m s').
  { exists m0, s. split; [done|]. split; [by apply Grow_refl|]. do 3 (split; [done|]). by right. }
  destruct (_ && _); [|done].
  destruct (newValue_spec (applyAll nom) [] 0 s Hp Hsub) as (v & Hn & Hv).
  unfold getNewValueFromNomination. rewrite Hn. cbn [mbind res_bind].
  destruct (bool_decide (v = [])) eqn:Ev; cbn [negb]; [done|]. apply bool_decide_eq_false in Ev.
  destruct Hv as [->|(_ & Hnot & Hfv & Hvu)]; [done|]. eexists _, _. split; [done|].
  pose proof (grow_vote v s Hs (or_introl Hfv)) as HG.
  split; [eapply Grow_trans; [exact HG|]; apply grow_call; [apply (gr_sets _ _ HG)|done]|].
  split; [by apply within_insert|]. do 2 (split; [done|]). left. split; [done|].
  unfold sets_size, nom_size. cbn. rewrite insert_value_length by (done || apply Hs). lia.
Qed.

(** ** The recursion through the own statements *)

(** when the candidates change, the ballot protocol is told their composite *)
Definition Bumped (s s' : NState) : Prop :=
  (mCandidates s' = mCandidates s /\ mComposite s' = mComposite s) \/
  (mComposite s' = combineCandidates (mCandidates s') /\
   exists l, nCalls s' = nCalls s ++ l /\ nominationBumpState (mComposite s') ∈ l).

(** no accepted value waits to become a candidate *)
Definition settled (s : NState) : Prop :=
  forall a, a ∈ mAccepted s -> nomRatify (acceptPredicate a) (mLatestNominations s) = true -> a ∈ mCandidates s.

Record Done (s s' : NState) : Prop := {
  dn_inv : NInv s';
  dn_step : NStep s s';
  dn_bump : Bumped s s';
  dn_settled : settled s';
  dn_published : published s -> published s';
  dn_within : within s' }.

Lemma Bumped_trans s1 s2 s3 : NStep s1 s2 -> NStep s2 s3 -> Bumped s1 s2 -> Bumped s2 s3 -> Bumped s1 s3.
Proof.
  clear univ_closed. intros H12 H23 B1 B2. destruct (st_calls _ _ H12) as [l1 E1]. destruct B2 as [[C2 K2]|(K2 & l2 & E2 & M2)].
  - destruct B1 as [[C1 K1]|(K1 & l & E & M)]; [left; split; congruence|]. right. rewrite C2, K2. split; [done|].
    destruct (st_calls _ _ H23) as [l3 E3]. exists (l ++ l3). rewrite E3, E, app_assoc. split; [done|]. set_solver.
  - right. split; [done|]. exists (l1 ++ l2). rewrite E2, E1, app_assoc. split; [done|]. set_solver.
Qed.

Definition measure (s : NState) : nat := (2 * length univ - sets_size s)%nat.

Lemma sets_size_le s : sets_ok s -> within s -> (sets_size s <= 2 * length univ)%nat.
Proof.
  intros Hs Hw. unfold sets_size, nom_size. cbn.
  assert (length (mVotes s) <= length univ)%nat by (apply nodup_length_le; [apply vset_nodup, Hs|done]).
  assert (length (mAccepted s) <= length univ)%nat.
  { apply nodup_length_le; [apply vset_nodup, Hs|]. etrans; [apply Hs|done]. }
  lia.
Qed.

(** the node has more to tell than its latest statement does *)
Definition unsaid (s : NState) : Prop :=
  (0 < sets_size s)%nat /\ forall o, own_latest s = Some o -> nom_lt (ne_nominate o) (own_sets s).

Definition recorded (s : NState) : NState := recordNomination (createNomination s) s.

Lemma own_latest_recorded s : own_latest (recorded s) = Some (createNomination s).
Proof. unfold own_latest. cbn. by rewrite map_find_insert, Z.eqb_refl. Qed.

Lemma record_others e s : ne_nodeID e <> getLocalNodeID -> own_latest (recordNomination e s) = own_latest s.
Proof. intros H. unfold own_latest. cbn. rewrite map_find_insert. split_if; [congruence|done]. Qed.

Lemma recorded_step s : (forall o, own_latest s = Some o -> nom_le (ne_nominate o) (own_sets s)) -> NStep s (recorded s).
Proof.
  intros Ho. constructor; cbn; try done; try (by left).
  - intros n Hn. rewrite map_find_insert. split_if; [|done]. subst. by destruct Hn.
  - intros o H. exists (createNomination s). split; [apply own_latest_recorded|by apply Ho].
  - exists []. by rewrite app_nil_r.
Qed.

Lemma recorded_inv s : NInv s -> NInv (recorded s).
Proof.
  intros []. constructor; try done.
  - destruct inv_sets0. constructor; try done. cbn. by apply map_insert_sorted.
  - intros n e. cbn. rewrite map_find_insert. split_if; [intros [= <-]; by apply own_sets_ok|by apply inv_latest0].
  - intros e. rewrite own_latest_recorded. by intros [= <-].
  - intros l Hl. destruct (inv_last0 l Hl) as (Hk & o & Ho & Hlo). split; [done|]. exists (createNomination s).
    split; [apply own_latest_recorded|]. by eapply nom_le_trans, inv_own0.
Qed.

Lemma recorded_published s : published (recorded s).
Proof. right. exists (createNomination s). by rewrite own_latest_recorded. Qed.

(** the statement that becomes the last one, and its emission *)
Lemma last_inv env s o :
  NInv s -> nom_ok (ne_nominate env) -> own_latest s = Some o -> nom_le (ne_nominate env) (ne_nominate o) ->
  (forall x, x ∈ emitted s -> nom_lt x (ne_nominate env)) -> NInv (set_lastNomination (Some env) s).
Proof.
  intros [] Hok Ho Hle Hnew. constructor; try done.
  - by destruct inv_sets0.
  - cbn. intros l [= <-]. split; [done|]. by exists o.
  - intros x Hx. split; [by apply inv_emitted_last0|]. exists env. split; [done|]. by apply Hnew.
Qed.

Lemma emit_inv env s :
  NInv s -> nom_ok (ne_nominate env) -> mLastNomination s = Some env ->
  (forall x, x ∈ emitted s -> nom_lt x (ne_nominate env)) -> NInv (ncall (emitNominationEnvelope env) s).
Proof.
  intros [] Hok Hl Hnew.
  assert (He : emitted (ncall (emitNominationEnvelope env) s) = emitted s ++ [ne_nominate env])
    by (unfold emitted; cbn; by rewrite omap_app).
  constructor; try done.
  - by destruct inv_sets0.
  - rewrite He. by apply StronglySorted_snoc_R.
  - rewrite He. intros x [Hx| ->%list_elem_of_singleton]%elem_of_app; [by apply inv_emitted_last0|].
    split; [done|]. by exists env.
Qed.

(** the outcome of [processEnvelope] on the own statement *)
Definition rec_ok (f : nat) : Prop := forall s,
  NInv s -> mNominationStarted s = true -> within s -> unsaid s -> (measure s < f)%nat ->
  exists s', processNomination f (createNomination s) s = Ok (VALID, s') /\ Done (recorded s) s'.

Lemma emitNomination_spec f s :
  rec_ok f -> NInv s -> mNominationStarted s = true -> within s -> unsaid s -> (measure s < f)%nat ->
  exists s', emitNomination (processNomination f) s = Ok s' /\
    NInv s' /\ NStep s s' /\ Bumped s s' /\ settled s' /\ published s' /\ within s'.
Proof.
  intros Hrec HI Hst Hw Hu Hm. unfold emitNomination.
  destruct (Hrec s HI Hst Hw Hu Hm) as (s1 & -> & [HI1 HS1 HB1 HT1 HP1 HW1]). cbn [mbind res_bind].
  assert (HS0 : NStep s (recorded s)) by (apply recorded_step, HI).
  assert (HS : NStep s s1) by (by eapply NStep_trans).
  assert (HB : Bumped s s1) by (eapply Bumped_trans; [exact HS0|exact HS1|by left|exact HB1]).
  specialize (HP1 (recorded_published s)).
  destruct (st_own _ _ HS1 _ (own_latest_recorded s)) as (o & Ho & Hle).
  pose proof (own_sets_ok s (inv_sets _ HI)) as Hok.
  set (keep := match mLastNomination s1 with None => true | Some last => isNewerNomination (ne_nominate last) (ne_nominate (createNomination s)) end).
  destruct keep eqn:Ek; [|by exists s1]. subst keep.
  assert (Hnew : forall x, x ∈ emitted s1 -> nom_lt x (own_sets s)).
  { intros x Hx. destruct (inv_emitted_last _ HI1 x Hx) as (Hxo & l & Hl & Hxl). rewrite Hl in Ek.
    apply isNewerNomination_iff in Ek; [by eapply nom_le_lt_trans|by apply (inv_last _ HI1)|done]. }
  set (s2 := set_lastNomination (Some (createNomination s)) s1).
  assert (HI2 : NInv s2) by (by eapply last_inv).
  assert (HS2 : NStep s1 s2) by (constructor; cbn; try done; try (by left); eauto using nom_le_refl; exists []; by rewrite app_nil_r).
  destruct (nFullyValidated s2).
  - eexists. split; [done|].
    assert (HSe : NStep s1 (ncall (emitNominationEnvelope (createNomination s)) s2))
      by (constructor; cbn; try done; try (by left); eauto using nom_le_refl).
    split; [by apply emit_inv|]. split; [by eapply NStep_trans|].
    split; [eapply Bumped_trans; [exact HS|exact HSe|exact HB|by left]|]. done.
  - exists s2. split; [done|]. split; [done|]. split; [by eapply NStep_trans|].
    split; [eapply Bumped_trans; [exact HS|exact HS2|exact HB|by left]|]. done.
Qed.

Lemma grow_unsaid s s' : NInv s -> Grow s s' -> (sets_size s < sets_size s')%nat -> unsaid s'.
Proof.
  intros HI HG Hlt. split; [lia|]. intros o Ho. unfold own_latest in Ho. rewrite (gr_latest _ _ HG) in Ho.
  pose proof (inv_own _ HI o Ho) as Hle. split.
  - eapply nom_le_trans; [exact Hle|]. split; apply (gr_step _ _ HG).
  - eapply Nat.le_lt_trans; [|exact Hlt]. apply nom_le_size; [by eapply (inv_latest _ HI)|done].
Qed.

(** the state before the node speaks: nothing to say, or more than before *)
Lemma stages_spec e s :
  NInv s -> mNominationStarted s = true -> within s -> applyAll (ne_nominate e) ⊆ univ ->
  exists m1 s1 nc s2 m s3,
    promoteVotes (nom_votes (ne_nominate e)) false s = (m1, s1) /\ promoteAccepted (mAccepted s1) false s1 = (nc, s2) /\
    takeLeaderVote (ne_nodeID e) (ne_nominate e) m1 s2 = Ok (m, s3) /\
    Grow s s3 /\ within s3 /\ settled s3 /\
    (m = true /\ (sets_size s < sets_size s3)%nat \/ m = false /\ mVotes s3 = mVotes s /\ mAccepted s3 = mAccepted s) /\
    (nc = true \/ mCandidates s3 = mCandidates s) /\
    forall v, v ∈ nom_votes (ne_nominate e) -> fully_valid v ->
      nomAccept (votePredicate v) (acceptPredicate v) (mLatestNominations s) = true -> v ∈ mAccepted s3.
Proof.
  intros HI Hst Hw Hsub. destruct (promoteVotes _ _ s) as [m1 s1] eqn:E1.
  apply promoteVotes_spec in E1 as H1; [|apply HI|done|set_solver]. destruct H1 as (G1 & W1 & C1 & L1 & M1 & A1).
  destruct (promoteAccepted (mAccepted s1) false s1) as [nc s2] eqn:E2.
  apply promoteAccepted_spec in E2 as H2; [|apply G1|done]. destruct H2 as (G2 & V2 & A2 & L2 & M2 & R2).
  assert (G12 : Grow s s2) by (by eapply Grow_trans).
  assert (Hfr : mNominationStarted s2 = mNominationStarted s /\ mPreviousValue s2 = mPreviousValue s).
  { pose proof (st_frame _ _ (gr_step _ _ G12)) as Hf. unfold frame in Hf. split; congruence. }
  destruct (takeLeaderVote_spec (ne_nodeID e) (ne_nominate e) m1 s2) as (m & s3 & E3 & G3 & W3 & A3 & C3 & M3);
    [destruct Hfr as [_ ->]; by apply HI|apply G2|unfold within; by rewrite V2|done|].
  exists m1, s1, nc, s2, m, s3. do 3 (split; [done|]). split; [by eapply Grow_trans|]. split; [done|].
  assert (Hsz : sets_size s2 = sets_size s1) by (unfold sets_size, own_sets; by rewrite V2, A2).
  split; [|split; [|split]].
  - intros a Ha Hr. rewrite A3, A2 in Ha. rewrite (gr_latest _ _ G3), (gr_latest _ _ G2) in Hr. rewrite C3. by apply R2.
  - destruct M3 as [[-> M3]|[-> ->]].
    + left. split; [done|]. destruct M1 as [[_ M1]|[_ ->]]; lia.
    + destruct M1 as [[-> M1]|[-> ->]]; [left; split; [done|lia]|right; by rewrite V2, A2].
  - destruct M2 as [->|[-> ->]]; [by left|right; congruence].
  - intros v Hv Hfv Ha. rewrite A3, A2. by apply A1.
Qed.

Lemma composite_inv c s : NInv s -> NInv (ncall (nominationBumpState c) (ncall (updatedCandidateValue c) (set_composite c s))).
Proof.
  intros []. assert (He : emitted (ncall (nominationBumpState c) (ncall (updatedCandidateValue c) (set_composite c s))) = emitted s)
    by (unfold emitted; cbn; by rewrite !omap_app, !app_nil_r).
  constructor; try done; [by destruct inv_sets0|by rewrite He..].
Qed.

Lemma composite_step c s : NStep s (ncall (nominationBumpState c) (ncall (updatedCandidateValue c) (set_composite c s))).
Proof.
  constructor; cbn; try done; try (by left); [by eauto using nom_le_refl|]. eexists. by rewrite <- app_assoc.
Qed.

Lemma advance_spec f e s :
  rec_ok f -> NInv s -> mNominationStarted s = true -> within s -> applyAll (ne_nominate e) ⊆ univ -> (measure s <= f)%nat ->
  exists s', advanceNomination (processNomination f) e s = Ok s' /\ Done s s' /\
    forall v, v ∈ nom_votes (ne_nominate e) -> fully_valid v ->
      nomAccept (votePredicate v) (acceptPredicate v) (mLatestNominations s) = true -> v ∈ mAccepted s'.
Proof.
  intros Hrec HI Hst Hw Hsub Hm.
  destruct (stages_spec e s HI Hst Hw Hsub) as (m1 & s1 & nc & s2 & m & s3 & E1 & E2 & E3 & G & W & T & M & C & A).
  unfold advanceNomination. rewrite E1, E2, E3. cbn [mbind res_bind].
  pose proof (Grow_inv _ _ G HI) as HI3. pose proof (gr_step _ _ G) as HS3.
  assert (Hst3 : mNominationStarted s3 = true) by (pose proof (st_frame _ _ HS3) as Hf; unfold frame in Hf; congruence).
  (* the own statement *)
  assert (Hemit : exists s4, (if m then emitNomination (processNomination f) s3 else Ok s3) = Ok s4 /\
    NInv s4 /\ NStep s3 s4 /\ Bumped s3 s4 /\ settled s4 /\ (published s -> published s4) /\ within s4).
  { destruct M as [[-> Hlt]|(-> & HV & HA)].
    - assert (measure s3 < f)%nat by (pose proof (sets_size_le s3 (gr_sets _ _ G) W); unfold measure in *; lia).
      destruct (emitNomination_spec f s3) as (s4 & ? & ? & ? & ? & ? & ? & ?); [done..|by apply (grow_unsaid s)|done|].
      exists s4. do 5 (split; [done|]). done.
    - exists s3. split; [done|]. split; [done|]. split; [apply NStep_refl|]. split; [by left|]. split; [done|].
      split; [|done]. unfold published, own_latest. by rewrite HV, HA, (gr_latest _ _ G). }
  destruct Hemit as (s4 & -> & HI4 & HS4 & HB4 & T4 & P4 & W4). cbn [mbind res_bind].
  assert (HS : NStep s s4) by (by eapply NStep_trans). destruct nc.
  - eexists. split; [done|]. set (c := combineCandidates (mCandidates s4)). split.
    + constructor; try done; [by apply composite_inv|eapply NStep_trans; [done|apply composite_step]|].
      right. split; [done|]. destruct (st_calls _ _ HS) as [l Hl].
      exists (l ++ [updatedCandidateValue c; nominationBumpState c]). cbn. rewrite Hl, <- !app_assoc.
      split; [done|]. set_solver.
    + intros v Hv Hfv Ha. cbn. by apply (st_accepted _ _ HS4), A.
  - exists s4. split; [done|]. split; [constructor; try done|].
    + destruct C as [?|HC]; [done|]. eapply Bumped_trans; [exact HS3|exact HS4| |done]. left. split; [done|apply G].
    + intros v Hv Hfv Ha. by apply (st_accepted _ _ HS4), A.
Qed.

Lemma rec_ok_all f : rec_ok f.
Proof.
  induction f as [|f IH]; intros s HI Hst Hw [Hpos Hnew] Hm; [lia|]. cbn [processNomination].
  assert (Ha : dbgAssert (Ok (ns_slotIndex (ne_statement (createNomination s)) =? getSlotIndex)) = Ok tt)
    by (unfold dbgAssert; cbn; rewrite Z.eqb_refl; by destruct dbg).
  rewrite Ha. cbn [mbind res_bind]. unfold processNominationEnvelope.
  pose proof (own_sets_ok s (inv_sets _ HI)) as Hok.
  assert (Hn : isNewerThanLatestNomination (ne_nodeID (createNomination s)) (ne_nominate (createNomination s)) s = true).
  { unfold isNewerThanLatestNomination. destruct (map_find _ _) as [o|] eqn:Ho; [|done].
    apply isNewerNomination_iff; [by eapply (inv_latest _ HI)|done|by apply Hnew]. }
  assert (Hs : isSaneNomination (ne_statement (createNomination s)) = true) by (by apply isSane_spec).
  rewrite Hn, Hs. change (mNominationStarted (recordNomination (createNomination s) s)) with (mNominationStarted s).
  rewrite Hst.
  destruct (advance_spec f (createNomination s) (recorded s)) as (s' & Hadv & HD & _);
    [done|by apply recorded_inv|done|done| |change (measure (recorded s)) with (measure s); lia|].
  - intros v [Hv|Hv]%elem_of_app; apply Hw; [done|]. by apply (inv_sets _ HI).
  - unfold recorded in Hadv. rewrite Hadv. by exists s'.
Qed.

End Stages.

(** ** An envelope of another node *)

(** what follows from a new statement [e] *)
Definition processed (e : NomEnvelope) (s s' : NState) : Prop :=
  let s0 := recordNomination e s in
  NStep s0 s' /\
  if mNominationStarted s then
    Bumped s0 s' /\ settled s' /\
    forall v, v ∈ nom_votes (ne_nominate e) -> fully_valid v ->
      nomAccept (votePredicate v) (acceptPredicate v) (mLatestNominations s0) = true -> v ∈ mAccepted s'
  else s' = s0.

Lemma record_other_inv e s :
  NInv s -> ne_nodeID e <> getLocalNodeID -> nom_ok (ne_nominate e) -> NInv (recordNomination e s).
Proof.
  intros [] Hn He. constructor; rewrite ?record_others by done; try done.
  - destruct inv_sets0. constructor; try done. cbn. by apply map_insert_sorted.
  - intros n e'. cbn. rewrite map_find_insert. split_if; [by intros [= <-]|by apply inv_latest0].
Qed.

Lemma receive_spec e s :
  NInv s -> ne_nodeID e <> getLocalNodeID -> ns_slotIndex (ne_statement e) = getSlotIndex ->
  exists r s', receiveNomination e s = Ok (r, s') /\ NInv s' /\ (published s -> published s') /\
    if isNewerThanLatestNomination (ne_nodeID e) (ne_nominate e) s && isSaneNomination (ne_statement e)
    then r = VALID /\ processed e s s' else r = INVALID /\ s' = s.
Proof.
  intros HI Hn Hslot. unfold receiveNomination.
  assert (exists f, nomination_fuel (applyAll (ne_nominate e)) s = S f /\
    2 * known_values (applyAll (ne_nominate e) ++ mVotes s) <= f)%nat as (f & -> & Hf)
    by (unfold nomination_fuel; eexists; split; [apply Nat.add_succ_r|lia]).
  cbn [processNomination].
  assert (Ha : dbgAssert (Ok (ns_slotIndex (ne_statement e) =? getSlotIndex)) = Ok tt)
    by (unfold dbgAssert; rewrite Hslot, Z.eqb_refl; by destruct dbg).
  rewrite Ha. cbn [mbind res_bind]. unfold processNominationEnvelope.
  destruct (isNewerThanLatestNomination _ _ _); [|by exists INVALID, s].
  destruct (isSaneNomination _) eqn:Hs; [|by exists INVALID, s]. apply isSane_spec in Hs as [Hok _]. cbn [andb].
  assert (HI0 : NInv (recordNomination e s)) by (by apply record_other_inv).
  assert (HP0 : published s -> published (recordNomination e s)) by (unfold published; by rewrite record_others).
  unfold processed. change (mNominationStarted (recordNomination e s)) with (mNominationStarted s).
  destruct (mNominationStarted s) eqn:Hst.
  - set (vs := applyAll (ne_nominate e) ++ mVotes s) in *.
    destruct (advance_spec (universe vs) (universe_closed vs) f e (recordNomination e s))
      as (s' & Hadv & [] & HA).
    + apply rec_ok_all, universe_closed.
    + done.
    + done.
    + intros v Hv. apply elem_of_universe. left. apply elem_of_app. by right.
    + intros v Hv. apply elem_of_universe. left. apply elem_of_app. by left.
    + unfold measure. pose proof (universe_length vs). lia.
    + rewrite Hadv. exists VALID, s'. auto 10.
  - exists VALID, (recordNomination e s). do 3 (split; [done|]). split; [done|]. split; [apply NStep_refl|done].
Qed.

End Driver.
End State.
