(* ===== verification/NominationInputs.v ===== *)
(** * The nomination protocol: inputs, reachable states and the claims

    A node is driven by [NomInput]s: envelopes of other nodes, proposals, the end
    of the nomination, and the flag of the slot that the ballot protocol sets.
    Every reachable state satisfies the invariant of NominationSafety.v, and every
    input is handled without an exception. *)
From Stdlib Require Import Sorted.
From S2P Require Import Prelude Numeric QuorumSet LocalNode Ballots BallotProtocol BallotSafety Nomination NominationSafety.

(** ** Priorities are computed without a failed assertion *)

(** no threshold is above the number of members *)
Inductive thresholds_ok : SCPQuorumSet -> Prop :=
| thresholds_intro t v i : t <= size_of v + size_of i -> Forall thresholds_ok i -> thresholds_ok (mkQSet t v i).

Lemma merge_singletons_sizes v l v' i' :
  merge_singletons v l = (v', i') -> size_of v' + size_of i' = size_of v + size_of l /\
  forall P : SCPQuorumSet -> Prop, Forall P l -> Forall P i'.
Proof.
  intros H. split; [by apply merge_singletons_spec in H as [H _]|]. intros P. revert v v' i' H.
  induction l as [|q l IH]; intros v v' i' H HP; [by injection H as <- <-|]. apply Forall_cons in HP as [Hq HP].
  cbn in H. repeat case_match; simplify_eq; eauto.
Qed.

Lemma filter_removed id (v : list NodeID) :
  NoDup v -> size_of v - size_of (List.filter (fun n => negb (n =? id)) v) = 0 \/
             size_of v - size_of (List.filter (fun n => negb (n =? id)) v) = 1.
Proof.
  unfold size_of. induction 1 as [|x v Hx Hnd IH]; [by left|]. cbn [List.filter]. destruct (Z.eqb_spec x id) as [->|]; cbn [negb length].
  - right. rewrite forallb_filter_id; [lia|]. apply forallb_forall. intros y Hy. apply list_elem_of_In in Hy.
    destruct (Z.eqb_spec y id); [by subst|done].
  - lia.
Qed.

Lemma normalize_thresholds id q :
  qset_ok q -> NoDup (forAllNodes q) -> thresholds_ok (normalizeQSet (Some id) q).
Proof.
  induction q as [t v i IH] using qset_ind'. intros Hok Hnd. apply qset_ok_unfold in Hok as (Ht & Hs & Hin).
  cbn [forAllNodes] in Hnd. apply NoDup_app in Hnd as (Hv & _ & Hi).
  assert (Hmap : Forall thresholds_ok (map (normalizeQSet (Some id)) i)).
  { clear Ht Hs. induction i as [|x i IHi]; [constructor|]. cbn in *. apply Forall_cons in IH as [IHx IH].
    apply Forall_cons in Hin as [Hx Hin]. apply NoDup_app in Hi as (Hx' & _ & Hi). constructor; [by apply IHx|by apply IHi]. }
  cbn [normalizeQSet]. set (v1 := List.filter _ v). destruct (merge_singletons v1 _) as [v' i'] eqn:E.
  apply merge_singletons_sizes in E as [Hsz HP]. specialize (HP _ Hmap).
  pose proof (filter_removed id v Hv) as Hrem. fold v1 in Hrem.
  assert (size_of (map (normalizeQSet (Some id)) i) = size_of i) by (unfold size_of; by rewrite length_map).
  assert (Ht' : u32 (t - u32 (size_of v - size_of v1)) <= size_of v' + size_of i').
  { pose proof (size_of_nonneg i). pose proof (size_of_nonneg v1).
    rewrite (u32_id (size_of v - size_of v1)) by zlia. rewrite u32_id by zlia. lia. }
  assert (Hmk : thresholds_ok (mkQSet (u32 (t - u32 (size_of v - size_of v1))) v' i')) by (by constructor).
  repeat case_match; try done. by apply Forall_cons in HP as [HP _].
Qed.

Section Inputs.
Context {U : UInt128} {Ctx : SCPContext}.

Lemma getNodeWeight_returns n q : thresholds_ok q -> exists w, getNodeWeight n q = Ok w.
Proof.
  induction q as [t v i IH] using qset_ind'. intros Hok. inversion Hok as [t' v' i' Ht Hi]; subst. cbn [getNodeWeight].
  assert (Hw : forall m, exists w, computeWeight m (size_of i + size_of v) t = Ok w)
    by (intros m; unfold computeWeight; rewrite assert_true by lia; cbn; by eauto).
  destruct (in_set v n); [apply Hw|]. revert Hw. generalize (size_of i + size_of v). intros d Hw. clear Ht Hok.
  induction i as [|x i IHi]; [by eexists|]. apply Forall_cons in IH as [IHx IH]. apply Forall_cons in Hi as [Hx Hi].
  destruct (IHx Hx) as [w ->]. cbn [mbind res_bind]. destruct (w =? 0); [by apply IHi|apply Hw].
Qed.

Section Driver.
Context {D : NominationDriver}.

Lemma hashNode_returns b n s : mPreviousValue s <> [] -> exists h, hashNode b n s = Ok h.
Proof. intros H. unfold hashNode, dbgAssert. rewrite bool_decide_eq_false_2 by done. destruct dbg; cbn; by eauto. Qed.

Lemma getNodePriority_returns n q s : mPreviousValue s <> [] -> thresholds_ok q -> exists p, getNodePriority n q s = Ok p.
Proof.
  intros Hp Hq. unfold getNodePriority.
  assert (exists w, (if n =? getLocalNodeID then Ok UINT64_MAX else getNodeWeight n q) = Ok w) as [w ->]
    by (destruct (n =? _); [by eauto|by apply getNodeWeight_returns]).
  cbn [mbind res_bind]. destruct (0 <? w); [|by eauto]. destruct (hashNode_returns false n s Hp) as [h ->].
  cbn [mbind res_bind]. destruct (h <=? w); [by apply hashNode_returns|by eauto].
Qed.

Lemma roundLeaders_returns nodes q top l s :
  mPreviousValue s <> [] -> thresholds_ok q -> exists l', roundLeaders nodes q top l s = Ok l'.
Proof.
  intros Hp Hq. revert top l. induction nodes as [|n nodes IH]; intros top l; cbn; [by eauto|].
  destruct (getNodePriority_returns n q s Hp Hq) as [w ->]. cbn [mbind res_bind].
  destruct (w >? top); apply IH.
Qed.

(** the hypothesis on the own quorum set, which [isQuorumSetSane] checks *)
Definition local_quorum_ok : Prop := qset_ok getQuorumSet /\ NoDup (forAllNodes getQuorumSet).

Lemma updateRoundLeaders_returns s :
  local_quorum_ok -> mPreviousValue s <> [] ->
  exists leaders, updateRoundLeaders s = Ok (set_round (mRoundNumber s) (mPreviousValue s) leaders s).
Proof.
  intros [Hq Hn] Hp. unfold updateRoundLeaders.
  pose proof (normalize_thresholds getLocalNodeID getQuorumSet Hq Hn) as Ht.
  destruct (getNodePriority_returns getLocalNodeID _ s Hp Ht) as [p ->]. cbn [mbind res_bind].
  edestruct (roundLeaders_returns) as [l Hl]; [exact Hp|exact Ht|]. rewrite Hl. cbn [mbind res_bind]. by eexists.
Qed.

(** ** Proposing a value *)

Lemma insert_value_id v l : vset l -> v ∈ l -> insert_value v l = l.
Proof.
  induction 1 as [|x l Hs IH Hlt]; intros Hv; [set_solver|]. rewrite Forall_forall in Hlt. cbn.
  apply elem_of_cons in Hv as [->|Hv]; [by rewrite value_ltb_irrefl|]. pose proof (Hlt v Hv) as Hxv. unfold vlt in Hxv.
  destruct (value_ltb v x) eqn:E; [pose proof (value_ltb_trans _ _ _ E Hxv) as H; by rewrite value_ltb_irrefl in H|].
  by rewrite Hxv, IH.
Qed.

Lemma latest_values_find s n e : map_find (mLatestNominations s) n = Some e -> applyAll (ne_nominate e) ⊆ latest_values s.
Proof.
  unfold latest_values. induction (mLatestNominations s) as [|[k x] m IH]; cbn; [done|]. split_if.
  - intros [= ->]. set_solver.
  - intros H. specialize (IH H). set_solver.
Qed.

Section Propose.
Variable own : Value -> Prop.

Lemma takeLeaderValues_spec univ leaders nv upd s :
  closed univ -> mPreviousValue s <> [] -> sets_ok s -> within univ s ->
  (forall n e, map_find (mLatestNominations s) n = Some e -> applyAll (ne_nominate e) ⊆ univ) ->
  exists nv' upd' s', takeLeaderValues leaders nv upd s = Ok (nv', upd', s') /\ voted own univ upd s upd' s'.
Proof.
  intros Hcl. revert nv upd s. induction leaders as [|n leaders IH]; intros nv upd s Hp Hs Hw Hlat; cbn.
  { exists nv, upd, s. split; [done|]. split; [by apply Grow_refl|]. do 3 (split; [done|]). by right. }
  destruct (map_find _ n) as [e|] eqn:En; [|by apply IH].
  destruct (newValue_spec own univ Hcl (applyAll (ne_nominate e)) [] 0 s Hp (Hlat n e En)) as (v & Hn & Hv).
  unfold getNewValueFromNomination. rewrite Hn. cbn [mbind res_bind].
  destruct (bool_decide (v = [])) eqn:Ev; cbn [negb]; [by apply IH|]. apply bool_decide_eq_false in Ev.
  destruct Hv as [->|(_ & Hnot & Hfv & Hvu)]; [done|].
  pose proof (grow_vote own v s Hs (or_introl Hfv)) as HG.
  destruct (IH v true (set_votes (insert_value v (mVotes s)) s)) as (nv' & upd' & s' & -> & G & W & A & C & M);
    [done|apply HG|by eapply within_insert|done|].
  exists nv', upd', s'. split; [done|]. split; [by eapply Grow_trans|]. split; [done|]. split; [done|]. split; [done|].
  left. assert (Hlt : (sets_size s < sets_size (set_votes (insert_value v (mVotes s)) s))%nat).
  { unfold sets_size, nom_size. cbn. rewrite insert_value_length by (done || apply Hs). lia. }
  destruct M as [[-> M]|[-> ->]]; (split; [done|lia]).
Qed.

(** the own value of a leader *)
Lemma own_vote_spec univ v s :
  own v -> sets_ok s -> within univ s -> v ∈ univ ->
  let upd := negb (has_value v (mVotes s)) in
  voted own univ false s upd (set_votes (insert_value v (mVotes s)) s).
Proof.
  intros Hv Hs Hw Hu upd. subst upd. split; [apply grow_vote; [done|by right]|].
  split; [by eapply within_insert|]. do 2 (split; [done|]). destruct (has_value v (mVotes s)) eqn:E; cbn.
  - right. split; [done|]. apply has_value_spec in E. rewrite insert_value_id by (done || apply Hs). by destruct s.
  - left. split; [done|]. apply has_value_false in E. unfold sets_size, nom_size. cbn.
    rewrite insert_value_length by (done || apply Hs). lia.
Qed.

Lemma voted_trans univ m0 s1 m1 s2 m2 s3 :
  voted own univ m0 s1 m1 s2 -> voted own univ m1 s2 m2 s3 -> voted own univ m0 s1 m2 s3.
Proof.
  intros (G1 & W1 & A1 & C1 & M1) (G2 & W2 & A2 & C2 & M2). split; [by eapply Grow_trans|]. split; [done|].
  split; [congruence|]. split; [congruence|]. destruct M2 as [[-> M2]|[-> ->]]; [|done].
  left. split; [done|]. destruct M1 as [[_ M1]|[_ ->]]; lia.
Qed.

End Propose.

(** the state at the start of a round *)
Definition started (n : Z) (previous : Value) (leaders : list NodeID) (s : NState) : NState :=
  set_round n previous leaders (set_started true s).

Lemma started_inv n p l s : NInv s -> p <> [] -> NInv (started n p l s).
Proof. intros [[] ? ? ? ? ? ?] Hp. by constructor; [constructor|..]. Qed.

Lemma nominate_spec v previous s :
  local_quorum_ok -> NInv s -> previous <> [] ->
  exists leaders updated s', nominate v previous false s = Ok (updated, s') /\ NInv s' /\ (published s -> published s') /\
    let s0 := started (i32 (mRoundNumber s + 1)) previous leaders s in
    NStep (eq v) s0 s' /\ Bumped s0 s' /\ (updated = true -> settled s').
Proof.
  intros Hq HI Hp. unfold nominate. cbn [andb].
  set (fuel := nomination_fuel (v :: latest_values s) s).
  set (s1 := set_round _ _ _ (set_started true s)).
  destruct (updateRoundLeaders_returns s1 Hq Hp) as (leaders & ->). cbn [mbind res_bind].
  set (s0 := set_round (mRoundNumber s1) (mPreviousValue s1) leaders s1).
  assert (Hs0 : s0 = started (i32 (mRoundNumber s + 1)) previous leaders s) by done. clearbody s0.
  exists leaders. rewrite <- Hs0.
  assert (HI0 : NInv s0) by (subst s0; by apply started_inv).
  set (univ := universe ((v :: latest_values s) ++ mVotes s)).
  assert (Hcl : closed univ) by apply universe_closed.
  assert (Hw0 : within univ s0).
  { intros w Hw. apply elem_of_universe. left. subst s0. cbn in Hw. set_solver. }
  assert (Hlat : forall n e, map_find (mLatestNominations s0) n = Some e -> applyAll (ne_nominate e) ⊆ univ).
  { intros n e He w Hw. apply elem_of_universe. left. subst s0. cbn in He. apply latest_values_find in He. set_solver. }
  assert (Hown : exists nv upd s2, (if bool_decide (getLocalNodeID ∈ mRoundLeaders s0)
      then (v, negb (has_value v (mVotes s0)), set_votes (insert_value v (mVotes s0)) s0) else ([], false, s0)) = (nv, upd, s2)
      /\ voted (eq v) univ false s0 upd s2).
  { case_bool_decide; eexists _, _, _; (split; [done|]).
    - apply own_vote_spec; [done|apply HI0|done|]. apply elem_of_universe. left. set_solver.
    - split; [apply Grow_refl, HI0|]. do 3 (split; [done|]). by right. }
  destruct Hown as (nv & upd & s2 & -> & V2).
  assert (Hp2 : mPreviousValue s2 <> []).
  { destruct V2 as (G & _). pose proof (st_frame _ _ _ (gr_step _ _ _ G)) as Hf. unfold frame in Hf.
    assert (mPreviousValue s2 = mPreviousValue s0) as -> by congruence. by subst s0. }
  destruct (takeLeaderValues_spec (eq v) univ (mRoundLeaders s2) nv upd s2) as (nv' & upd' & s3 & -> & V3);
    [done|done|apply V2|apply V2| |].
  { destruct V2 as (G & _). by rewrite (gr_latest _ _ _ G). }
  cbn [mbind res_bind]. destruct (voted_trans _ _ _ _ _ _ _ _ V2 V3) as (G & W & A & C & M).
  set (s4 := ncall _ (ncall _ s3)).
  assert (G4 : Grow (eq v) s0 s4).
  { eapply Grow_trans; [exact G|]. 
    apply (Grow_trans _ _ (ncall (nominatingValue nv') s3)); (apply grow_call; [by destruct (gr_sets _ _ _ G)|done]). }
  pose proof (Grow_inv _ _ _ G4 HI0) as HI4. pose proof (gr_step _ _ _ G4) as HS4.
  assert (Hpub : published s -> published s0) by (by subst s0).
  destruct M as [[-> Hlt]|[-> Es]].
  - destruct (emitNomination_spec (eq v) univ fuel s4) as (s5 & -> & HI5 & HS5 & HB5 & HT5 & HP5 & HW5).
    + by apply rec_ok_all.
    + done.
    + pose proof (st_frame _ _ _ HS4) as Hf. unfold frame in Hf.
      assert (mNominationStarted s4 = mNominationStarted s0) as -> by congruence. by subst s0.
    + done.
    + by apply (grow_unsaid (eq v) s0).
    + unfold measure, fuel, nomination_fuel. pose proof (universe_length ((v :: latest_values s) ++ mVotes s)) as HL. fold univ in HL. lia.
    + exists true, s5. cbn [mbind res_bind]. split; [done|]. split; [done|]. split; [done|]. split; [by eapply NStep_trans|].
      split; [|done]. eapply Bumped_trans; [exact HS4|exact HS5| |exact HB5]. left. split; [done|apply G4].
  - exists false, s4. split; [done|]. split; [done|]. split; [|split; [done|split; [|done]]].
    + intros HP. apply Hpub in HP. unfold published, own_latest in *. subst s4 s3. exact HP.
    + left. split; [done|apply G4].
Qed.

(** ** Inputs *)

Inductive NomInput :=
| InEnvelope (e : NomEnvelope)
| InNominate (v previous : Value) (timedout : bool)
| InStop
| InFullyValidated (b : bool).

Definition nom_exec (i : NomInput) (s : NState) : res NState :=
  match i with
  | InEnvelope e => '(_, s) ← receiveNomination e s; Ok s
  | InNominate v previous timedout => '(_, s) ← nominate v previous timedout s; Ok s
  | InStop => Ok (stopNomination s)
  | InFullyValidated b => Ok (set_fullyValidated b s)
  end.

(** a node does not feed its own messages back, and the value of the previous
    slot is an encoded structure *)
Definition nom_input_ok (i : NomInput) : Prop :=
  match i with
  | InEnvelope e => ne_nodeID e <> getLocalNodeID /\ ns_slotIndex (ne_statement e) = getSlotIndex
  | InNominate _ previous _ => previous <> []
  | _ => True
  end.

Definition proposed (i : NomInput) (v : Value) : Prop :=
  match i with InNominate v' _ _ => v' = v | _ => False end.

(** the effect of any input: a step from a state with the same sets *)
Lemma exec_spec i s :
  local_quorum_ok -> NInv s -> nom_input_ok i ->
  exists s0 s', nom_exec i s = Ok s' /\ NInv s' /\ (published s -> published s') /\ NStep (proposed i) s0 s' /\
    mVotes s0 = mVotes s /\ mAccepted s0 = mAccepted s /\ mCandidates s0 = mCandidates s /\ nCalls s0 = nCalls s.
Proof.
  intros Hq HI Hi. destruct i as [e|v p timedout| |b]; cbn in Hi.
  - destruct Hi as [Hn Hs]. destruct (receive_spec (proposed (InEnvelope e)) e s HI Hn Hs) as (r & s' & He & HI' & HP & Hc).
    cbn [nom_exec]. rewrite He. cbn [mbind res_bind]. destruct (_ && _).
    + destruct Hc as [_ [HS _]]. by exists (recordNomination e s), s'.
    + destruct Hc as [_ ->]. exists s, s. split; [done|]. split; [done|]. split; [done|]. split; [apply NStep_refl|done].
  - cbn [nom_exec]. destruct (timedout && negb (mNominationStarted s)) eqn:Et.
    + unfold nominate. rewrite Et. cbn [mbind res_bind]. exists s, s. split; [done|]. split; [done|]. split; [done|]. split; [apply NStep_refl|done].
    + assert (Hn : nominate v p timedout s = nominate v p false s) by (unfold nominate; by rewrite Et).
      rewrite Hn. destruct (nominate_spec v p s Hq HI Hi) as (leaders & upd & s' & -> & HI' & HP & HS & _ & _).
      cbn [mbind res_bind]. eexists _, s'. split; [done|]. split; [done|]. split; [done|]. split; [exact HS|done].
  - exists (stopNomination s), (stopNomination s). split; [done|]. split; [|split; [done|split; [apply NStep_refl|done]]].
    destruct HI as [[] ? ? ? ? ? ?]. by constructor; [constructor|..].
  - exists (set_fullyValidated b s), (set_fullyValidated b s). split; [done|]. split; [|split; [done|split; [apply NStep_refl|done]]].
    destruct HI as [[] ? ? ? ? ? ?]. by constructor; [constructor|..].
Qed.

End Driver.

(** ** Reachable states *)

(** a statement of the node that is restored after a restart *)
Definition restorable (e : NomEnvelope) : Prop :=
  ne_nodeID e = getLocalNodeID /\ isSaneNomination (ne_statement e) = true /\
  nom_accepted (ne_nominate e) ⊆ nom_votes (ne_nominate e).

(** each input with the driver at its time *)
Inductive nom_reachable : NState -> Prop :=
| nr_new b : nom_reachable (newNominationProtocol b)
| nr_restore b e s : restorable e -> nomination_setStateFromEnvelope e (newNominationProtocol b) = Ok s -> nom_reachable s
| nr_step {D : NominationDriver} i s s' :
    nom_reachable s -> nom_input_ok i -> nom_exec i s = Ok s' -> nom_reachable s'.

Lemma insert_value_last v l : (forall x, x ∈ l -> vlt x v) -> insert_value v l = l ++ [v].
Proof.
  induction l as [|y l IH]; intros H; cbn; [done|]. assert (Hy : vlt y v) by (apply H; set_solver). unfold vlt in Hy.
  destruct (value_ltb v y) eqn:E; [pose proof (value_ltb_trans _ _ _ E Hy) as H'; by rewrite value_ltb_irrefl in H'|].
  rewrite Hy, IH; [done|]. intros x Hx. apply H. set_solver.
Qed.

Lemma foldl_insert_value acc l :
  vset l -> (forall x y, x ∈ acc -> y ∈ l -> vlt x y) -> foldl (fun l v => insert_value v l) acc l = acc ++ l.
Proof.
  intros Hl. revert acc. induction Hl as [|v l Hs IH Hlt]; intros acc H; cbn; [by rewrite app_nil_r|].
  rewrite Forall_forall in Hlt. rewrite insert_value_last by (intros x Hx; apply H; set_solver).
  rewrite IH, <- app_assoc; [done|]. intros x y [Hx| ->%list_elem_of_singleton]%elem_of_app Hy; [apply H; set_solver|by apply Hlt].
Qed.

Lemma restored_inv b e s :
  restorable e -> nomination_setStateFromEnvelope e (newNominationProtocol b) = Ok s -> NInv s /\ published s.
Proof.
  intros (Hn & Hs & Hsub) He. apply isSane_spec in Hs as [Hok _]. pose proof Hok as [Hv Ha]. cbn in He. injection He as <-.
  rewrite !foldl_insert_value by (done || set_solver). cbn [app].
  assert (Ho : (if getLocalNodeID =? ne_nodeID e then Some e else None) = Some e) by (by rewrite Hn, Z.eqb_refl).
  split.
  - constructor; unfold own_latest; cbn; rewrite ?Ho; try done.
    + constructor; cbn; try done; [constructor|set_solver|by repeat constructor].
    + intros n e'. split_if; [by intros [= <-]|done].
    + by intros e' [= <-].
    + intros l [= <-]. split; [done|]. by exists e.
    + constructor.
    + set_solver.
  - right. exists e. unfold own_latest. cbn. by rewrite Ho.
Qed.

Lemma nom_reachable_inv s : local_quorum_ok -> nom_reachable s -> NInv s /\ published s.
Proof.
  intros Hq. induction 1 as [b|b e s Hr He|D i s s' _ [HI HP] Hi He]; [apply newProtocol_inv|by eapply restored_inv|].
  destruct (exec_spec i s Hq HI Hi) as (s0 & s1 & He' & HI' & HP' & _).
  assert (s1 = s') as -> by congruence. split; [done|by apply HP'].
Qed.

(** a sequence of inputs *)
Fixpoint nom_run {D : NominationDriver} (l : list NomInput) (s : NState) : res NState :=
  match l with
  | [] => Ok s
  | i :: l' => s ← nom_exec i s; nom_run l' s
  end.

Lemma nom_run_reachable {D : NominationDriver} l s s' :
  Forall nom_input_ok l -> nom_reachable s -> nom_run l s = Ok s' -> nom_reachable s'.
Proof.
  intros Hl. revert s. induction Hl as [|i l Hi Hl IH]; intros s Hs; [by intros [= <-]|]. cbn. intros E.
  apply bind_ok_inv in E as (s1 & E1 & E). by apply (IH s1); [eapply nr_step|].
Qed.

(** ** Quorums behind a decision *)

(** a quorum of the statements [envs] that satisfy [flt] *)
Definition quorum_of (envs : list (NodeID * NomEnvelope)) (flt : NomStatement -> bool) (Q : list NodeID) : Prop :=
  isQuorumSlice getQuorumSet Q = true /\ self_sufficient (nomStatements envs) nomQuorumSet Q /\
  forall n, n ∈ Q -> exists e, map_find envs n = Some e /\ flt (ne_statement e) = true.

Lemma nomStatements_find envs n : map_find (nomStatements envs) n = option_map ne_statement (map_find envs n).
Proof. induction envs as [|[k e] l IH]; cbn; [done|]. by split_if. Qed.

Lemma quorum_of_noms envs flt : StronglySorted Z.lt (map fst envs) -> isQuorum_noms envs flt = true -> exists Q, quorum_of envs flt Q.
Proof.
  intros Hs Hr. unfold isQuorum_noms, isQuorum in Hr. destruct (quorum_loop _ _ _ _) as [R|] eqn:E; [|done]. cbn in Hr.
  apply quorum_loop_sound in E as [HR Hsuf]. exists R. split; [done|]. split; [done|]. intros n Hn. apply HR in Hn.
  unfold filtered_nodes in Hn. apply list_elem_of_fmap in Hn as ([k st] & -> & Hn).
  apply elem_of_filter_list in Hn as [Hn Hf]. cbn in Hf. unfold nomStatements in Hn.
  apply list_elem_of_fmap in Hn as ([k' e] & [= -> ->] & Hn). exists e. split; [|done]. by apply map_find_elem.
Qed.

End Inputs.
