(* ===== verification/NominationRuns.v ===== *)
(** * The nomination protocol: the claims and a run that shows them *)
From Stdlib Require Import Sorted.
From S2P Require Import Prelude Numeric QuorumSet LocalNode Ballots BallotProtocol BallotSafety BallotRuns Nomination NominationSafety NominationInputs.

(** Claim C13: A reachable node handles every input.  Whatever another node sends and
    whatever value is proposed, processing returns: the recursion through the
    node's own statements ends, no assertion fails and the node never considers a
    statement of its own invalid.  Afterwards its sets are in order, candidates are
    accepted and accepted values are voted for, and the latest statement recorded
    for the node itself tells exactly what it votes for and accepts. *)
Theorem nomination_handles_inputs `{UInt128} `{SCPContext} `{NominationDriver} i s :
  local_quorum_ok -> nom_reachable s -> nom_input_ok i ->
  exists s', nom_exec i s = Ok s' /\ sets_ok s' /\ published s'.
Proof.
  intros Hq Hs Hi. destruct (nom_reachable_inv s Hq Hs) as [HI HP].
  destruct (exec_spec i s Hq HI Hi) as (s0 & s' & He & HI' & HP' & _). exists s'. split; [done|].
  split; [apply HI'|by apply HP'].
Qed.

(** Claim C12: Federated voting is respected.  When an input makes a value a
    candidate, a quorum accepts it: a set of nodes with a slice of the local quorum
    set and of the quorum set of each member, in which every node other than this
    one has a latest statement that accepts the value.  A value becomes accepted
    only when it is fully valid and either a blocking set accepts it or such a
    quorum votes for it or accepts it; a new vote is for a fully valid value, for
    what has been extracted from another value, or for the value the node proposes. *)
Theorem nomination_respects_quorums `{UInt128} `{SCPContext} `{NominationDriver} i s s' v :
  local_quorum_ok -> nom_reachable s -> nom_input_ok i -> nom_exec i s = Ok s' ->
  (v ∈ mCandidates s' -> v ∉ mCandidates s ->
   v ∈ mAccepted s' /\
   exists envs Q, others_same envs (mLatestNominations s') /\ quorum_of envs (acceptPredicate v) Q) /\
  (v ∈ mAccepted s' -> v ∉ mAccepted s ->
   fully_valid v /\ exists envs, others_same envs (mLatestNominations s') /\
   (isVBlocking_map getQuorumSet (nomStatements envs) (acceptPredicate v) = true \/
    exists Q, quorum_of envs (fun st => acceptPredicate v st || votePredicate v st) Q)) /\
  (v ∈ mVotes s' -> v ∉ mVotes s -> fully_valid v \/ extractValidValue v = v \/ proposed i v).
Proof.
  intros Hq Hs Hi He. destruct (nom_reachable_inv s Hq Hs) as [HI _].
  destruct (exec_spec i s Hq HI Hi) as (s0 & s1 & He' & HI' & _ & HS & Hv & Ha & Hc & _).
  assert (s1 = s') as -> by congruence. rewrite <- Hv, <- Ha, <- Hc. split; [|split].
  - intros Hin Hn. split; [by apply (inv_sets _ HI')|].
    destruct (st_new_candidates _ _ _ HS v Hin) as [|(envs & Hk & Ho & Hr)]; [done|].
    destruct (quorum_of_noms _ _ Hk Hr) as [Q HQ]. by exists envs, Q.
  - intros Hin Hn. destruct (st_new_accepted _ _ _ HS v Hin) as [|(Hfv & envs & Hk & Ho & Hr)]; [done|].
    split; [done|]. exists envs. split; [done|]. unfold nomAccept in Hr.
    destruct (isVBlocking_map _ _ _); [by left|right]. by apply quorum_of_noms.
  - intros Hin Hn. destruct (st_new_votes _ _ _ HS v Hin) as [Hin0|[[?|?]|?]]; [by destruct Hn|auto..].
Qed.

(** A node never goes back on a nomination.  The statements it has emitted
    are a strictly growing sequence: each contains the votes and the accepted
    values of the one before and at least one more, so that [isNewerStatement]
    holds of any two of them in their order; an input only appends to the sequence,
    and the last one emitted is contained in the sets of the node. *)
Theorem nominations_grow `{UInt128} `{SCPContext} `{NominationDriver} i s s' :
  local_quorum_ok -> nom_reachable s -> nom_input_ok i -> nom_exec i s = Ok s' ->
  StronglySorted (fun a b => isNewerNomination a b = true) (emitted s') /\
  (exists l, emitted s' = emitted s ++ l) /\
  forall x, x ∈ emitted s' -> nom_votes x ⊆ mVotes s' /\ nom_accepted x ⊆ mAccepted s'.
Proof.
  intros Hq Hs Hi He. destruct (nom_reachable_inv s Hq Hs) as [HI _].
  destruct (exec_spec i s Hq HI Hi) as (s0 & s1 & He' & HI' & _ & HS & _ & _ & _ & Hcalls).
  assert (s1 = s') as -> by congruence. split; [|split].
  - assert (Hok : forall x, x ∈ emitted s' -> nom_ok x) by (intros x Hx; by apply (inv_emitted_last _ HI')).
    pose proof (inv_emitted _ HI') as Hs'. clear - Hok Hs'. induction Hs' as [|x l Hs IH Hlt]; [constructor|].
    constructor; [apply IH; set_solver|]. rewrite Forall_forall in Hlt |- *. intros y Hy.
    apply isNewerNomination_iff; [apply Hok; set_solver..|by apply Hlt].
  - destruct (st_calls _ _ _ HS) as [l Hl]. eexists. unfold emitted. by rewrite Hl, Hcalls, omap_app.
  - intros x Hx. destruct (inv_emitted_last _ HI' x Hx) as (_ & l & Hl & Hle).
    destruct (inv_last _ HI' l Hl) as (_ & o & Ho & Hlo). apply (inv_own _ HI') in Ho.
    destruct (nom_le_trans _ _ _ Hle (nom_le_trans _ _ _ Hlo Ho)). done.
Qed.

(** Claim C11: Nomination makes progress.  When a node that is nominating receives a
    new sane statement, every fully valid value the statement votes for that can
    now be accepted is accepted and is in the node's own latest statement; every
    accepted value that a quorum of the latest statements accepts is a candidate;
    and when the candidates change, the ballot protocol is given their composite. *)
Theorem nomination_progress `{UInt128} `{SCPContext} `{NominationDriver} e s :
  local_quorum_ok -> nom_reachable s -> nom_input_ok (InEnvelope e) -> mNominationStarted s = true ->
  isSaneNomination (ne_statement e) = true ->
  isNewerThanLatestNomination (ne_nodeID e) (ne_nominate e) s = true ->
  exists s', receiveNomination e s = Ok (VALID, s') /\
    (forall v, v ∈ nom_votes (ne_nominate e) -> fully_valid v ->
       nomAccept (votePredicate v) (acceptPredicate v) (mLatestNominations (recordNomination e s)) = true ->
       v ∈ mAccepted s' /\ exists o, own_latest s' = Some o /\ v ∈ nom_accepted (ne_nominate o)) /\
    (forall v, v ∈ mAccepted s' -> nomRatify (acceptPredicate v) (mLatestNominations s') = true -> v ∈ mCandidates s') /\
    (mCandidates s' <> mCandidates s ->
       exists l, nCalls s' = nCalls s ++ l /\ nominationBumpState (combineCandidates (mCandidates s')) ∈ l).
Proof.
  intros Hq Hs [Hn Hslot] Hst Hsane Hnew. destruct (nom_reachable_inv s Hq Hs) as [HI HP].
  destruct (receive_spec (fun _ => False) e s HI Hn Hslot) as (r & s' & He & HI' & HP' & Hc).
  rewrite Hsane, Hnew in Hc. cbn [andb] in Hc. destruct Hc as [-> [HS Hc]]. rewrite Hst in Hc.
  destruct Hc as (HB & HT & HA). exists s'. split; [done|]. split; [|split; [done|]].
  - intros v Hv Hfv Ha. pose proof (HA v Hv Hfv Ha) as Hin. split; [done|].
    destruct (HP' HP) as [[_ Hv0]|(o & Ho & _ & Hacc)]; [|exists o; by rewrite Hacc].
    apply (so_acc_votes _ (inv_sets _ HI')) in Hin. rewrite Hv0 in Hin. set_solver.
  - intros Hne. destruct HB as [[HC _]|(HK & l & Hl & Hb)]; [by destruct Hne|]. exists l. by rewrite <- HK.
Qed.

(** ** A run of four nodes *)

Section Run.

Instance nom_uint128 : UInt128 := Z_uint128.
Instance nom_ctx : SCPContext := sample_ctx true four_nodes always_valid.
(** node 1 has the highest priority; all values but [[9]] are valid, and a valid
    variation of [[9]] is [[8]] *)
Instance nom_driver : NominationDriver.
Proof.
  refine {| validateNomination v := if decide (v = [9]) then kInvalidValue else kFullyValidatedValue;
            extractValidValue v := if decide (v = [9]) then [8] else [];
            computeHashNode _ isPriority _ n := if isPriority then if n =? 1 then 9 else 5 else 0;
            computeValueHash _ _ _ := 3;
            combineCandidates l := concat l;
            signNomination _ := 0 |}.
  intros v. destruct (decide (v = [9])); [by left|done].
Defined.

Definition nomination (n : NodeID) (votes accepted : list Value) : NomEnvelope :=
  mkNomEnvelope (mkNomStatement n 7 (mkNomination 42 votes accepted)) 0.

Definition nom_get (r : res NState) : NState := match r with Ok s => s | Throw _ => newNominationProtocol true end.

(** the leader's value is taken, voted for by a quorum and accepted *)
Definition nom_inputs : list NomInput :=
  [InNominate [5] [1] false; InEnvelope (nomination 1 [[7]] []); InEnvelope (nomination 2 [[7]; [9]] []);
   InEnvelope (nomination 1 [[7]] [[7]])].
Definition nom_before : NState := Eval vm_compute in nom_get (nom_run nom_inputs (newNominationProtocol true)).
(** the statement that completes the quorum *)
Definition nom_last : NomEnvelope := nomination 2 [[7]; [9]] [[7]].
Definition nom_after : NState := Eval vm_compute in nom_get (nom_exec (InEnvelope nom_last) nom_before).

Lemma nom_quorum_ok : local_quorum_ok.
Proof. split; [vm_compute; repeat split; intros [=]|]. apply (bool_decide_unpack _). vm_compute. exact I. Qed.

Lemma nom_before_reachable : nom_reachable nom_before.
Proof.
  apply (nom_run_reachable nom_inputs (newNominationProtocol true)); [|apply nr_new|vm_compute; reflexivity].
  repeat constructor; cbn; lia || done.
Qed.

Lemma nomination_handles_inputs_witness : exists s', nom_exec (InNominate [6] [1] true) nom_before = Ok s' /\ sets_ok s' /\ published s'.
Proof.
  apply (nomination_handles_inputs (InNominate [6] [1] true) nom_before nom_quorum_ok nom_before_reachable). intros [=].
Defined.

(** [[7]] becomes a candidate *)
Lemma nomination_respects_quorums_witness :
  mCandidates nom_before = [] /\ exists envs Q, others_same envs (mLatestNominations nom_after) /\ quorum_of envs (acceptPredicate [7]) Q.
Proof.
  split; [reflexivity|].
  destruct (nomination_respects_quorums (InEnvelope nom_last) nom_before nom_after [7] nom_quorum_ok nom_before_reachable) as [Hc _].
  - cbn. split; [intros [=]|reflexivity].
  - vm_compute. reflexivity.
  - apply Hc; vm_compute; [left|]. intros H. inversion H.
Defined.

Lemma nominations_grow_witness :
  length (emitted nom_after) = 2%nat /\ StronglySorted (fun a b => isNewerNomination a b = true) (emitted nom_after).
Proof.
  split; [reflexivity|].
  apply (nominations_grow (InEnvelope nom_last) nom_before nom_after nom_quorum_ok nom_before_reachable).
  - cbn. split; [intros [=]|reflexivity].
  - vm_compute. reflexivity.
Defined.

Lemma nomination_progress_witness :
  exists s', receiveNomination nom_last nom_before = Ok (VALID, s') /\ s' = nom_after /\ [7] ∈ mCandidates s'.
Proof.
  destruct (nomination_progress nom_last nom_before nom_quorum_ok nom_before_reachable) as (s' & He & _ & Hr & _).
  - cbn. split; [intros [=]|reflexivity].
  - reflexivity.
  - vm_compute. reflexivity.
  - vm_compute. reflexivity.
  - exists s'. split; [exact He|]. assert (Hs : s' = nom_after).
    { assert (Hv : receiveNomination nom_last nom_before = Ok (VALID, nom_after)) by (vm_compute; reflexivity).
      rewrite Hv in He. by injection He. }
    split; [exact Hs|]. apply Hr; rewrite Hs; vm_compute; [left|reflexivity].
Defined.

End Run.
