(* ===== verification/HerderDriver.v ===== *)
(** * The driver of SCP

    src/src/herder/HerderSCPDriver.cpp: which values a node considers valid, what
    it extracts from others, and how candidates are combined; and the part of
    HerderImpl::triggerNextLedger that makes the value of a node.  What the driver
    reads of its surroundings at one time is the record [DriverEnv]; the encoding
    of values is the interface [ValueXdr].  The interface that the nomination
    protocol uses, [NominationDriver], is discharged at the end. *)
From Stdlib Require Import Sorted.
From S2P Require Import Prelude Numeric Exchange LedgerEntries TransactionUtils LedgerTxn OfferBook LedgerState.
From S2P Require Import Operations OfferOperations Signatures InvariantManager Transactions.
From S2P Require Import Upgrades TxSet TxSetOrder TxSetProposal.
From S2P Require Import QuorumSet Ballots BallotProtocol Nomination.

(** ** Surroundings *)

Record ConsensusData := mkConsensusData { mConsensusIndex : Z; mConsensusValue : EssaBlockChainValue }.

(** [xdr_from_opaque] and [xdr_to_opaque] at [EssaBlockChainValue], whose encoding
    starts with a hash; [None] stands for [xdr_runtime_error] *)
Class ValueXdr := {
  value_from_opaque : Value -> option EssaBlockChainValue;
  value_to_opaque : EssaBlockChainValue -> Value;
  value_opaque_roundtrip : forall b, value_from_opaque (value_to_opaque b) = Some b;
  value_opaque_nonempty : forall b, value_to_opaque b <> [];
  (** SHA-256 of an encoded value, as a number *)
  valueHash : Value -> Z }.

Record DriverEnv := mkDriverEnv {
  (** [mLedgerManager.isSynced()] *)
  de_synced : bool;
  (** the last closed ledger: its entries with its header, and its hash *)
  de_ledger : LState;
  de_lclHash : Z;
  (** [mTrackingSCP] *)
  de_tracking : option ConsensusData;
  (** [mApp.timeNow()] *)
  de_timeNow : Z;
  (** [mPendingEnvelopes.getTxSet] *)
  de_getTxSet : Z -> option TxSetFrame;
  (** [mUpgrades] and [LEDGER_PROTOCOL_VERSION] of the configuration *)
  de_upgrades : UpgradeParameters;
  de_supported : Z }.

Definition MAX_TIME_SLIP_SECONDS : Z := 60.

Definition lclHeader (de : DriverEnv) : LedgerHeader := st_header (de_ledger de).

Section Code.
Context {SS : StdSort} {HS : SetHash} {U : UInt128} {K : StrKeyOrder} {C : Crypto} {HT : TxHash}.
Context {X : UpgradeXdr} {V : ValueXdr}.

(** ** Validation *)

Definition isSlotCompatibleWithCurrentState (de : DriverEnv) (slotIndex : Z) : bool :=
  if de_synced de then slotIndex =? u32 (ledgerSeq (lclHeader de) + 1) else false.

Definition checkCloseTime (de : DriverEnv) (lastCloseTime : Z) (b : EssaBlockChainValue) : bool :=
  if sv_closeTime b <=? lastCloseTime then false
  else if sv_closeTime b >? u64 (de_timeNow de + MAX_TIME_SLIP_SECONDS) then false
  else true.

(** on the data [mTrackingSCP] points to *)
Definition nextConsensusLedgerIndex (t : ConsensusData) : res Z :=
  _ ← assert_ (mConsensusIndex t <=? UINT32_MAX);
  Ok (u32 (u32 (mConsensusIndex t) + 1)).

Definition validateValueHelper (de : DriverEnv) (slotIndex : Z) (b : EssaBlockChainValue) : res ValidationLevel :=
  let lcl := lclHeader de in
  let lastCloseTime := sv_closeTime (scpValue lcl) in
  if isSlotCompatibleWithCurrentState de slotIndex then
    if negb (checkCloseTime de lastCloseTime b) then Ok kInvalidValue
    else
      match de_getTxSet de (sv_txSetHash b) with
      | None => Ok kInvalidValue
      | Some txSet =>
          valid ← checkValidSet (de_ledger de) lcl (de_lclHash de) txSet;
          Ok (if valid : bool then kFullyValidatedValue else kInvalidValue)
      end
  else
    let bad :=
      if slotIndex =? ledgerSeq lcl then negb (sv_closeTime b =? lastCloseTime)
      else if slotIndex <? ledgerSeq lcl then sv_closeTime b >=? lastCloseTime
      else negb (checkCloseTime de lastCloseTime b) in
    if bad : bool then Ok kInvalidValue
    else
      match de_tracking de with
      | None => Ok kMaybeValidValue
      | Some t =>
          next ← nextConsensusLedgerIndex t;
          if next >? slotIndex then Ok kMaybeValidValue
          else if next <? slotIndex then Ok kInvalidValue
          else if negb (checkCloseTime de (sv_closeTime (mConsensusValue t)) b) then Ok kInvalidValue
          else Ok kMaybeValidValue
      end.

(** the loop over the upgrades; [first] is [i == 0] *)
Fixpoint checkUpgradeSteps (de : DriverEnv) (nomination : bool) (upgrades : list (list Z)) (first : bool) (lastUpgradeType : Z) : bool :=
  match upgrades with
  | [] => true
  | u :: upgrades' =>
      match isValid (de_upgrades de) u nomination (de_supported de) (lclHeader de) with
      | None => false
      | Some thisUpgradeType =>
          if negb first && (lastUpgradeType >=? thisUpgradeType) then false
          else checkUpgradeSteps de nomination upgrades' false thisUpgradeType
      end
  end.

Definition driver_validateValue (de : DriverEnv) (slotIndex : Z) (value : Value) (nomination : bool) : res ValidationLevel :=
  match value_from_opaque value with
  | None => Ok kInvalidValue
  | Some b =>
      res ← validateValueHelper de slotIndex b;
      match res with
      | kInvalidValue => Ok kInvalidValue
      | _ => Ok (if checkUpgradeSteps de nomination (sv_upgrades b) true 1 then res else kInvalidValue)
      end
  end.

(** the upgrades that [isValid] likes *)
Definition likedUpgrades (de : DriverEnv) (upgrades : list (list Z)) : list (list Z) :=
  List.filter (fun u => if isValid (de_upgrades de) u true (de_supported de) (lclHeader de) then true else false) upgrades.

Definition driver_extractValidValue (de : DriverEnv) (slotIndex : Z) (value : Value) : res Value :=
  match value_from_opaque value with
  | None => Ok []
  | Some b =>
      res ← validateValueHelper de slotIndex b;
      match res with
      | kFullyValidatedValue =>
          Ok (value_to_opaque (mkEssaBlockChainValue (sv_txSetHash b) (sv_closeTime b) (likedUpgrades de (sv_upgrades b))))
      | _ => Ok []
      end
  end.

(** ** Combining candidates *)

(** [std::max] on two upgrades of the same type *)
Definition maxUpgrade (a b : LedgerUpgrade) : LedgerUpgrade :=
  match a, b with
  | LEDGER_UPGRADE_VERSION x, LEDGER_UPGRADE_VERSION y => LEDGER_UPGRADE_VERSION (Z.max x y)
  | LEDGER_UPGRADE_BASE_FEE x, LEDGER_UPGRADE_BASE_FEE y => LEDGER_UPGRADE_BASE_FEE (Z.max x y)
  | LEDGER_UPGRADE_MAX_TX_SET_SIZE x, LEDGER_UPGRADE_MAX_TX_SET_SIZE y => LEDGER_UPGRADE_MAX_TX_SET_SIZE (Z.max x y)
  | LEDGER_UPGRADE_BASE_RESERVE x, LEDGER_UPGRADE_BASE_RESERVE y => LEDGER_UPGRADE_BASE_RESERVE (Z.max x y)
  | _, _ => a
  end.

(** the [std::map] from types to upgrades *)
Fixpoint mergeUpgrade (u : LedgerUpgrade) (m : list LedgerUpgrade) : list LedgerUpgrade :=
  match m with
  | [] => [u]
  | x :: m' =>
      if upgrade_type u <? upgrade_type x then u :: m
      else if upgrade_type u =? upgrade_type x then maxUpgrade x u :: m'
      else x :: mergeUpgrade u m'
  end.

Fixpoint mergeUpgrades (upgrades : list (list Z)) (m : list LedgerUpgrade) : res (list LedgerUpgrade) :=
  match upgrades with
  | [] => Ok m
  | u :: upgrades' =>
      match upgrade_from_opaque u with
      | None => Throw (RuntimeError "xdr")
      | Some lupgrade => mergeUpgrades upgrades' (mergeUpgrade lupgrade m)
      end
  end.

(** the loop over the candidates: their values, the close time, the map of
    upgrades and [candidatesHash] *)
Fixpoint readCandidates (candidates : list Value) (values : list EssaBlockChainValue) (closeTime : Z)
    (upgrades : list LedgerUpgrade) (candidatesHash : Z)
    : res (list EssaBlockChainValue * Z * list LedgerUpgrade * Z) :=
  match candidates with
  | [] => Ok (values, closeTime, upgrades, candidatesHash)
  | c :: candidates' =>
      match value_from_opaque c with
      | None => Throw (RuntimeError "xdr")
      | Some sv =>
          let closeTime := if closeTime <? sv_closeTime sv then sv_closeTime sv else closeTime in
          upgrades ← mergeUpgrades (sv_upgrades sv) upgrades;
          readCandidates candidates' (values ++ [sv]) closeTime upgrades (Z.lxor candidatesHash (valueHash c))
      end
  end.

(** the loop for the set with the most transactions: the set and its hash *)
Fixpoint bestTxSet (de : DriverEnv) (candidatesHash : Z) (values : list EssaBlockChainValue)
    (highestTxSet : option TxSetFrame) (highest : Z) : option TxSetFrame :=
  match values with
  | [] => highestTxSet
  | sv :: values' =>
      match de_getTxSet de (sv_txSetHash sv) with
      | None => bestTxSet de candidatesHash values' highestTxSet highest
      | Some cTxSet =>
          let '(previous, cTxSet) := previousLedgerHash_ref cTxSet in
          if (previous =? de_lclHash de) &&
             match highestTxSet with
             | None => true
             | Some h =>
                 (length (mTransactions h) <? length (mTransactions cTxSet))%nat ||
                 ((length (mTransactions cTxSet) =? length (mTransactions h))%nat &&
                  lessThanXored highest (sv_txSetHash sv) candidatesHash)
             end
          then bestTxSet de candidatesHash values' (Some cTxSet) (sv_txSetHash sv)
          else bestTxSet de candidatesHash values' highestTxSet highest
      end
  end.

(** the value, and the set that is stored later when it had to be trimmed *)
Definition driver_combineCandidates (de : DriverEnv) (candidates : list Value) : res (Value * option TxSetFrame) :=
  '(values, closeTime, upgrades, candidatesHash) ← readCandidates candidates [] 0 [] 0;
  best ← deref (bestTxSet de candidatesHash values None 0);
  '(best, removed) ← trimInvalid (de_ledger de) best;
  let '(hash, best) := setContentsHash best in
  let comp := mkEssaBlockChainValue hash closeTime (map upgrade_to_opaque upgrades) in
  Ok (value_to_opaque comp, match removed with [] => None | _ => Some best end).

(** ** The value of a node *)

(** the end of [triggerNextLedger]: the slot and the value that is nominated;
    [now] is the time of the clock, [UpgradeType] holds at most 128 bytes *)
Definition proposedValue (de : DriverEnv) (now : Z) (proposedSet : TxSetFrame) : Z * EssaBlockChainValue :=
  let lcl := lclHeader de in
  let txSetHash := fst (setContentsHash proposedSet) in
  let slotIndex := u32 (ledgerSeq lcl + 1) in
  let nextCloseTime := if now <=? sv_closeTime (scpValue lcl) then u64 (sv_closeTime (scpValue lcl) + 1) else now in
  let upgrades := List.filter (fun v => negb (128 <=? length v)%nat)
                    (map upgrade_to_opaque (createUpgradesFor (de_upgrades de) lcl)) in
  (slotIndex, mkEssaBlockChainValue txSetHash nextCloseTime upgrades).

End Code.
