(* ===== verification/HerderValues.v ===== *)
(** * The values of a node: extraction, combination and proposal

    What HerderDriver.v does with values: extraction is stable, which discharges
    the interface of the nomination protocol; the composite of fully valid
    candidates is fully valid, and so is what a node proposes. *)
From Stdlib Require Import Sorted.
From S2P Require Import Prelude Numeric Exchange LedgerEntries TransactionUtils LedgerTxn OfferBook LedgerState.
From S2P Require Import Operations OfferOperations Signatures InvariantManager Transactions.
From S2P Require Import Upgrades UpgradeLiabilities TxSet TxSetOrder TxSetProposal.
From S2P Require Import QuorumSet Ballots BallotProtocol Nomination HerderDriver.

Section Trim.
Context {SS : StdSort} {HS : SetHash} {U : UInt128} {K : StrKeyOrder} {C : Crypto} {HT : TxHash}.
Variable s : LState.

(** ** A valid set is not trimmed *)

(** when nothing is refused, both policies do the same, on any set *)
Lemma trim_scan_accepts p l sc sc' :
  scanTxs s Refuse l sc = Ok (Some sc') ->
  sc_trimmed sc' = sc_trimmed sc /\
  forall ts, scanTxs s p l (mkScan ts (sc_trimmed sc) (sc_lastTx sc) (sc_lastSeq sc) (sc_totFee sc)) =
    Ok (Some (mkScan ts (sc_trimmed sc) (sc_lastTx sc') (sc_lastSeq sc') (sc_totFee sc'))).
Proof.
  revert sc. induction l as [|tx l IH]; intros sc E; cbn [scanTxs] in *; [by injection E as <-|].
  cbn [sc_lastSeq]. apply bind_ok_inv in E as (ok & Eok & E). rewrite Eok. setoid_rewrite bind_ok. destruct ok; [|done].
  by apply (IH _ E).
Qed.

Lemma accounts_accept p m ts0 ts0' tr tr' :
  checkAccounts s Refuse m ts0 tr = Ok (true, ts0', tr') ->
  forall ts, checkAccounts s p m ts tr = Ok (true, ts, tr).
Proof.
  revert ts0 tr. induction m as [|[a item] m IH]; intros ts0 tr E ts; cbn [checkAccounts] in *; [done|].
  cbv zeta in *. apply bind_ok_inv in E as (r & Er & E). destruct r as [sc|]; [|done].
  destruct (trim_scan_accepts p _ _ _ Er) as (Htr & Et). cbn [sc_trimmed sc_lastTx sc_lastSeq sc_totFee] in Et, Htr.
  rewrite Et, bind_ok. cbn [sc_lastTx sc_set sc_trimmed sc_totFee]. rewrite Htr in E.
  destruct (sc_lastTx sc) as [tx|]; [|by eapply IH].
  apply bind_ok_inv in E as (av & Eav & E). rewrite Eav, bind_ok. destruct (av <? _); [done|by eapply IH].
Qed.

Lemma grouped_in_order l last m m' : groupTxs l last m = Some m' -> in_order HashTxSorter l /\ Forall (fun tx => last <= getFullHash tx) l.
Proof.
  revert last m. induction l as [|tx l IH]; intros last m E; [split; constructor|]. cbn in E.
  destruct (Z.ltb_spec (getFullHash tx) last) as [|Hle]; [done|]. destruct (IH _ _ E) as [Ho Hf]. split.
  - constructor; [done|]. eapply Forall_impl; [exact Hf|]. intros x Hx. unfold HashTxSorter. apply Z.ltb_ge. exact Hx.
  - constructor; [done|]. eapply Forall_impl; [exact Hf|]. cbn. lia.
Qed.

(** no two transactions have the same hash *)
Definition hashes_differ (l : list TxPtr) : Prop := forall x y, x ∈ l -> y ∈ l -> getFullHash x = getFullHash y -> x = y.

Lemma valid_sorted h lcl ts :
  checkValidSet s h lcl ts = Ok true -> hashes_differ (mTransactions ts) ->
  std_sort HashTxSorter (mTransactions ts) = mTransactions ts.
Proof.
  unfold checkValidSet. intros E Hd. destruct (negb _); [done|]. destruct (_ <? _); [done|].
  unfold checkOrTrim in E. destruct (groupTxs (mTransactions ts) 0 []) as [m|] eqn:Eg; [|done].
  destruct (grouped_in_order _ _ _ _ Eg) as [Ho _].
  symmetry. apply (in_order_unique HashTxSorter); [|done|apply std_sort_sorted, hash_strict|by rewrite std_sort_perm by apply hash_strict].
  intros x y Hx Hy E1 E2. unfold HashTxSorter in E1, E2. zb. apply Hd; [done|done|lia].
Qed.

(** the check does not depend on the cached hash *)
Lemma valid_any_hash h lcl l p x y :
  checkValidSet s h lcl (mkTxSetFrame l p x) = Ok true -> checkValidSet s h lcl (mkTxSetFrame l p y) = Ok true.
Proof.
  unfold checkValidSet, checkOrTrim. cbn [mTransactions mPreviousLedgerHash]. intros E. destruct (negb _); [done|]. destruct (_ <? _); [done|].
  destruct (groupTxs l 0 []) as [m|]; [|done].
  apply bind_ok_inv in E as ([[ok ts'] tr'] & E & Eok). injection Eok as ->. by rewrite (accounts_accept Refuse _ _ _ _ _ E).
Qed.

Lemma valid_not_trimmed h lcl ts :
  checkValidSet s h lcl ts = Ok true -> hashes_differ (mTransactions ts) ->
  trimInvalid s ts = Ok (mkTxSetFrame (mTransactions ts) (mPreviousLedgerHash ts) None, []).
Proof.
  intros E Hd. pose proof (valid_sorted _ _ _ E Hd) as Es. revert E.
  unfold checkValidSet, trimInvalid. intros E. destruct (negb _); [done|]. destruct (_ <? _); [done|].
  apply bind_ok_inv in E as ([[ok ts'] tr'] & E & Eok). injection Eok as ->.
  unfold checkOrTrim in *. destruct (groupTxs (mTransactions ts) 0 []) as [m|] eqn:Eg; [|done].
  cbn [sortForHash mTransactions]. rewrite Es, Eg, (accounts_accept Trim _ _ _ _ _ E), bind_ok.
  unfold sortForHash. by rewrite Es.
Qed.

End Trim.

Section Values.
Context {SS : StdSort} {HS : SetHash} {U : UInt128} {K : StrKeyOrder} {C : Crypto} {HT : TxHash}.
Context {X : UpgradeXdr} {V : ValueXdr}.
Variable de : DriverEnv.

(** ** Extraction *)

Lemma liked_idempotent l : likedUpgrades de (likedUpgrades de l) = likedUpgrades de l.
Proof.
  unfold likedUpgrades. apply forallb_filter_id, forallb_forall. intros u Hu. by apply filter_In in Hu as [_ Hu].
Qed.

(** the helper does not look at the upgrades *)
Lemma helper_upgrades slot b us :
  validateValueHelper de slot (mkEssaBlockChainValue (sv_txSetHash b) (sv_closeTime b) us) = validateValueHelper de slot b.
Proof. by destruct b. Qed.

Lemma extract_idempotent slot v w :
  driver_extractValidValue de slot v = Ok w -> w <> [] -> driver_extractValidValue de slot w = Ok w.
Proof.
  unfold driver_extractValidValue. intros E Hw. destruct (value_from_opaque v) as [b|]; [|by injection E as <-].
  apply bind_ok_inv in E as (l & El & E). destruct l; try (by injection E as <-). injection E as <-.
  rewrite value_opaque_roundtrip, helper_upgrades, El, bind_ok. cbn [sv_txSetHash sv_closeTime sv_upgrades]. by rewrite liked_idempotent.
Qed.

(** ** Upgrades *)

(** what [isValid] asks of an upgrade whatever the node wants *)
Definition admissible (lu : LedgerUpgrade) : bool :=
  match lu with
  | LEDGER_UPGRADE_VERSION v => (v <=? de_supported de) && (ledgerVersion (lclHeader de) <? v)
  | LEDGER_UPGRADE_BASE_FEE x | LEDGER_UPGRADE_MAX_TX_SET_SIZE x | LEDGER_UPGRADE_BASE_RESERVE x => negb (x =? 0)
  end.

Lemma isValid_admissible u nomination t :
  isValid (de_upgrades de) u nomination (de_supported de) (lclHeader de) = Some t ->
  exists lu, upgrade_from_opaque u = Some lu /\ admissible lu = true /\ t = upgrade_type lu.
Proof.
  unfold isValid. destruct (_ && _); [done|]. destruct (upgrade_from_opaque u) as [lu|]; [|done].
  intros E. exists lu. split; [done|]. destruct lu; cbn in *; repeat case_match; simplify_eq;
    repeat match goal with H : _ && _ = true |- _ => apply andb_true_iff in H as [? H] end; split; try done;
    try (by rewrite andb_true_iff).
Qed.

Lemma admissible_isValid lu :
  admissible lu = true -> isValid (de_upgrades de) (upgrade_to_opaque lu) false (de_supported de) (lclHeader de) = Some (upgrade_type lu).
Proof. intros H. unfold isValid. cbn [andb]. rewrite upgrade_opaque_roundtrip. destruct lu; cbn in *; by rewrite H. Qed.

Lemma maxUpgrade_ok a b :
  admissible a = true -> admissible b = true -> upgrade_type a = upgrade_type b ->
  admissible (maxUpgrade a b) = true /\ upgrade_type (maxUpgrade a b) = upgrade_type a.
Proof.
  intros Ha Hb Ht. destruct a, b; cbn in *; try done; (split; [|done]);
    match goal with |- context [Z.max ?x ?y] => destruct (Z.max_spec x y) as [[? ->]|[? ->]]; done end.
Qed.

Definition upgrades_ok (m : list LedgerUpgrade) : Prop :=
  StronglySorted (fun a b => upgrade_type a < upgrade_type b) m /\ Forall (fun u => admissible u = true) m.

Lemma mergeUpgrade_types u m x :
  x ∈ mergeUpgrade u m -> upgrade_type x = upgrade_type u \/ exists y, y ∈ m /\ upgrade_type x = upgrade_type y.
Proof.
  induction m as [|y m IH]; cbn; [intros ->%list_elem_of_singleton; by left|]. repeat split_if.
  - intros [->|Hx]%elem_of_cons; [by left|right; by eauto].
  - intros [->|Hx]%elem_of_cons; [left; destruct y, u; done|right; exists x; split; [by right|done]].
  - intros [->|Hx]%elem_of_cons; [right; exists y; split; [by left|done]|].
    destruct (IH Hx) as [|(z & Hz & ->)]; [by left|right; exists z; split; [by right|done]].
Qed.

Lemma mergeUpgrade_ok u m : upgrades_ok m -> admissible u = true -> upgrades_ok (mergeUpgrade u m).
Proof.
  intros [Hs Hf] Hu. induction Hs as [|y m Hs IH Hlt]; cbn; [by repeat constructor|].
  apply Forall_cons in Hf as [Hy Hf]. destruct (IH Hf) as [IHs IHf]. rewrite Forall_forall in Hlt. repeat split_if.
  - split; [|by repeat constructor]. constructor; [by constructor; [|apply Forall_forall]|].
    apply Forall_forall. intros x [->|Hx]%elem_of_cons; [done|]. pose proof (Hlt x Hx). lia.
  - destruct (maxUpgrade_ok y u Hy Hu ltac:(lia)) as [Hm Ht]. split; [|by constructor].
    constructor; [done|]. apply Forall_forall. intros x Hx. rewrite Ht. by apply Hlt.
  - split; [|by constructor]. constructor; [done|]. apply Forall_forall.
    intros x [->|(z & Hz & ->)]%mergeUpgrade_types; [lia|by apply Hlt].
Qed.

Lemma mergeUpgrades_ok us m :
  upgrades_ok m -> (forall u, u ∈ us -> exists lu, upgrade_from_opaque u = Some lu /\ admissible lu = true) ->
  exists m', mergeUpgrades us m = Ok m' /\ upgrades_ok m'.
Proof.
  revert m. induction us as [|u us IH]; intros m Hm Hu; cbn; [by eauto|].
  destruct (Hu u ltac:(by left)) as (lu & -> & Ha). apply IH; [by apply mergeUpgrade_ok|]. intros; apply Hu; by right.
Qed.

Lemma ordered_steps m first last :
  upgrades_ok m -> (first = false -> Forall (fun u => last < upgrade_type u) m) ->
  checkUpgradeSteps de false (map upgrade_to_opaque m) first last = true.
Proof.
  intros [Hs Hf]. revert first last. induction Hs as [|u m Hs IH Hlt]; intros first last Hl; cbn [map checkUpgradeSteps]; [done|].
  apply Forall_cons in Hf as [Hu Hf]. rewrite admissible_isValid by done.
  assert (Ec : negb first && (last >=? upgrade_type u) = false).
  { destruct first; [done|]. specialize (Hl eq_refl). apply Forall_cons in Hl as [Hl _]. cbn. rewrite Z.geb_leb. by apply Z.leb_gt. }
  rewrite Ec. by apply IH.
Qed.

Lemma steps_admissible nomination us first last u :
  checkUpgradeSteps de nomination us first last = true -> u ∈ us ->
  exists lu, upgrade_from_opaque u = Some lu /\ admissible lu = true.
Proof.
  revert first last. induction us as [|x us IH]; intros first last E Hu; [by apply elem_of_nil in Hu|]. cbn in E.
  destruct (isValid _ _ _ _ _) as [t|] eqn:Ev; [|done]. destruct (_ && _); [done|].
  apply elem_of_cons in Hu as [->|Hu]; [|by eapply IH].
  destruct (isValid_admissible _ _ _ Ev) as (lu & Hl & Ha & _). by exists lu.
Qed.

(** ** The composite of the candidates *)

Section Composite.
Variable slot : Z.
Hypothesis compatible : isSlotCompatibleWithCurrentState de slot = true.

Let lastCloseTime : Z := sv_closeTime (scpValue (lclHeader de)).

(** a transaction set that [checkValid] accepts, under its hash *)
Definition known_valid (hash : Z) (ts : TxSetFrame) : Prop :=
  de_getTxSet de hash = Some ts /\ checkValidSet (de_ledger de) (lclHeader de) (de_lclHash de) ts = Ok true.

Definition time_ok (t : Z) : Prop := lastCloseTime < t <= u64 (de_timeNow de + MAX_TIME_SLIP_SECONDS).

(** what makes a value fully valid *)
Definition good (sv : EssaBlockChainValue) : Prop :=
  time_ok (sv_closeTime sv) /\ (exists ts, known_valid (sv_txSetHash sv) ts) /\
  forall u, u ∈ sv_upgrades sv -> exists lu, upgrade_from_opaque u = Some lu /\ admissible lu = true.

Lemma helper_fully b :
  validateValueHelper de slot b = Ok kFullyValidatedValue <-> time_ok (sv_closeTime b) /\ exists ts, known_valid (sv_txSetHash b) ts.
Proof.
  unfold validateValueHelper. rewrite compatible. unfold checkCloseTime, time_ok, known_valid.
  destruct (Z.leb_spec (sv_closeTime b) (sv_closeTime (scpValue (lclHeader de)))) as [H1|H1]; cbn [negb].
  { split; [done|]. intros [? _]. subst lastCloseTime. lia. }
  rewrite Z.gtb_ltb. destruct (Z.ltb_spec (u64 (de_timeNow de + MAX_TIME_SLIP_SECONDS)) (sv_closeTime b)) as [H2|H2]; cbn [negb].
  { split; [done|]. intros [? _]. lia. }
  destruct (de_getTxSet de (sv_txSetHash b)) as [ts|]; [|split; [done|intros (_ & ts & ? & _); done]].
  destruct (checkValidSet _ _ _ ts) as [[|]|e] eqn:Ec; rewrite ?bind_ok, ?bind_throw; (split; [intros E|intros (_ & ts' & [= <-] & E)]); try done; try congruence.
  split; [done|]. by exists ts.
Qed.

Lemma fully_good v nomination :
  driver_validateValue de slot v nomination = Ok kFullyValidatedValue ->
  exists b, value_from_opaque v = Some b /\ good b.
Proof.
  unfold driver_validateValue. destruct (value_from_opaque v) as [b|]; [|done]. intros E. exists b. split; [done|].
  apply bind_ok_inv in E as (l & El & E). destruct l; [done| |by destruct (checkUpgradeSteps _ _ _ _ _)].
  destruct (checkUpgradeSteps _ _ _ _ _) eqn:Eu; [|done]. apply helper_fully in El as [Ht Hs].
  split; [done|]. split; [done|]. intros u Hu. by eapply steps_admissible.
Qed.

Definition good_candidate (c : Value) : Prop := exists b, value_from_opaque c = Some b /\ good b.

Lemma readCandidates_ok cs vals ct m h :
  Forall good_candidate cs -> upgrades_ok m -> Forall good vals -> (vals = [] /\ ct = 0 \/ time_ok ct) -> 0 <= lastCloseTime ->
  exists vals' ct' m' h', readCandidates cs vals ct m h = Ok (vals', ct', m', h') /\
    upgrades_ok m' /\ Forall good vals' /\ (vals' = [] /\ cs = [] \/ time_ok ct') /\ (length vals' = length vals + length cs)%nat.
Proof.
  intros Hcs Hm Hv Ht Hl. revert vals ct m h Hm Hv Ht.
  induction Hcs as [|c cs (b & Eb & Hb) Hcs IH]; intros vals ct m h Hm Hv Ht; cbn [readCandidates].
  { exists vals, ct, m, h. split; [done|]. split; [done|]. split; [done|]. split; [|cbn; lia]. destruct Ht as [[-> _]|]; auto. }
  rewrite Eb. destruct (mergeUpgrades_ok (sv_upgrades b) m Hm (proj2 (proj2 Hb))) as (m1 & -> & Hm1). rewrite bind_ok.
  edestruct (IH (vals ++ [b]) (if ct <? sv_closeTime b then sv_closeTime b else ct) m1) as (v' & c' & m' & h' & E & H1 & H2 & H3 & H4);
    [done|apply Forall_app; split; [done|by constructor]| |].
  - right. destruct Hb as [Hb _]. split_if; [done|]. unfold time_ok in *. destruct Ht as [[_ ->]|]; lia.
  - exists v', c', m', h'. split; [exact E|]. split; [done|]. split; [done|]. rewrite length_app in H4. cbn in *.
    split; [|lia]. destruct H3 as [[-> _]|]; [|by right]. cbn in H4. lia.
Qed.

(** a set of the cache whose hash has to be computed again *)
Definition candidate_set (o : option TxSetFrame) : Prop :=
  exists hash ts, known_valid hash ts /\ o = Some (snd (previousLedgerHash_ref ts)).

Lemma valid_previous hash ts : known_valid hash ts -> mPreviousLedgerHash ts = de_lclHash de.
Proof.
  intros [_ E]. unfold checkValidSet in E. destruct (Z.eqb_spec (de_lclHash de) (mPreviousLedgerHash ts)); [done|by cbn in E].
Qed.

Lemma bestTxSet_ok ch vals o hi :
  Forall good vals -> (o = None \/ candidate_set o) -> o <> None \/ vals <> [] ->
  candidate_set (bestTxSet de ch vals o hi).
Proof.
  intros Hv. revert o hi. induction Hv as [|sv vals (_ & (ts & Hts) & _) Hv IH]; intros o hi Ho Hne; cbn [bestTxSet].
  { destruct Ho as [->|]; [|done]. by destruct Hne. }
  pose proof (valid_previous _ _ Hts) as Hp. destruct Hts as [Eg Ec]. rewrite Eg. cbn [previousLedgerHash_ref]. rewrite Hp, Z.eqb_refl.
  assert (Hnew : candidate_set (Some (mkTxSetFrame (mTransactions ts) (de_lclHash de) None))).
  { exists (sv_txSetHash sv), ts. split; [done|]. unfold previousLedgerHash_ref. cbn. by rewrite Hp. }
  cbn [andb]. destruct o as [h|]; [|apply IH; [by right|by left]].
  destruct (_ || _); apply IH; [by right|by left|done|by left].
Qed.

(** the cache of transaction sets holds each under the hash of its contents *)
Definition cache_ok : Prop := forall hash ts, de_getTxSet de hash = Some ts ->
  hashes_differ (mTransactions ts) /\ fst (setContentsHash (snd (previousLedgerHash_ref ts))) = hash.

Lemma combine_ok cs :
  cs <> [] -> Forall good_candidate cs -> 0 <= lastCloseTime -> cache_ok ->
  exists b m, driver_combineCandidates de cs = Ok (value_to_opaque b, None) /\ sv_upgrades b = map upgrade_to_opaque m /\
    upgrades_ok m /\ time_ok (sv_closeTime b) /\ exists ts, known_valid (sv_txSetHash b) ts.
Proof.
  intros Hne Hcs Hl Hcache. unfold driver_combineCandidates.
  destruct (readCandidates_ok cs [] 0 [] 0 Hcs) as (vals & ct & m & h & -> & Hm & Hvals & Ht & Hlen);
    [by repeat constructor|constructor|by left|done|].
  rewrite bind_ok. cbn in Hlen.
  destruct (bestTxSet_ok h vals None 0 Hvals) as (hash & ts & Hts & ->);
    [by left|right; intros ->; destruct cs; done|].
  cbn [deref]. rewrite bind_ok. destruct (Hcache hash ts (proj1 Hts)) as [Hd Hh].
  change (trimInvalid (de_ledger de) (snd (previousLedgerHash_ref ts))) with (trimInvalid (de_ledger de) ts).
  rewrite (valid_not_trimmed _ (lclHeader de) (de_lclHash de)), bind_ok by (apply Hts || done).
  unfold previousLedgerHash_ref in *. cbn [snd mTransactions mPreviousLedgerHash] in *.
  destruct (setContentsHash _) as [hash' best] eqn:Eh. cbn in Hh. subst hash'.
  exists (mkEssaBlockChainValue hash ct (map upgrade_to_opaque m)), m. split; [done|]. split; [done|]. split; [done|].
  split; [by destruct Ht as [[_ ->]|]|]. by exists ts.
Qed.

Lemma value_fully b nomination :
  time_ok (sv_closeTime b) -> (exists ts, known_valid (sv_txSetHash b) ts) ->
  checkUpgradeSteps de nomination (sv_upgrades b) true 1 = true ->
  driver_validateValue de slot (value_to_opaque b) nomination = Ok kFullyValidatedValue.
Proof.
  intros Ht Hs Hu. unfold driver_validateValue. rewrite value_opaque_roundtrip.
  rewrite (proj2 (helper_fully b)), bind_ok by done. by rewrite Hu.
Qed.

(** ** The own proposal *)

(** the upgrades that are proposed are in order and liked *)
Lemma proposed_steps :
  setParameters (de_upgrades de) (de_supported de) = Ok (de_upgrades de) ->
  (forall u, u ∈ createUpgradesFor (de_upgrades de) (lclHeader de) -> nonzero u /\ raises_version (lclHeader de) u) ->
  checkUpgradeSteps de true (List.filter (fun v => negb (128 <=? length v)%nat)
    (map upgrade_to_opaque (createUpgradesFor (de_upgrades de) (lclHeader de)))) true 1 = true.
Proof.
  intros Hp Hu.
  assert (Hv : forall u, u ∈ createUpgradesFor (de_upgrades de) (lclHeader de) ->
    isValid (de_upgrades de) (upgrade_to_opaque u) true (de_supported de) (lclHeader de) = Some (upgrade_type u)).
  { intros u Hin. destruct (Hu u Hin). by eapply created_isValid. }
  assert (Hs : StronglySorted (fun a b => upgrade_type a < upgrade_type b) (createUpgradesFor (de_upgrades de) (lclHeader de))).
  { unfold createUpgradesFor, proposeIfNeeded. destruct (negb _); [constructor|].
    repeat (case_match; cbn [app]); repeat constructor. }
  revert Hv Hs. generalize (createUpgradesFor (de_upgrades de) (lclHeader de)). clear Hu Hp. intros l Hv Hs.
  enough (Hgen : forall first last, (first = false -> Forall (fun u => last < upgrade_type u) l) ->
    checkUpgradeSteps de true (List.filter (fun v => negb (128 <=? length v)%nat) (map upgrade_to_opaque l)) first last = true) by (by apply Hgen).
  induction Hs as [|u l Hs IH Hlt]; intros first last Hl; cbn [map List.filter checkUpgradeSteps]; [done|].
  assert (Hv' : forall x, x ∈ l -> isValid (de_upgrades de) (upgrade_to_opaque x) true (de_supported de) (lclHeader de) = Some (upgrade_type x))
    by (intros x Hx; apply Hv; by right).
  destruct (negb _); cbn [checkUpgradeSteps].
  - rewrite Hv by (by left).
    assert (Ec : negb first && (last >=? upgrade_type u) = false).
    { destruct first; [done|]. specialize (Hl eq_refl). apply Forall_cons in Hl as [Hl _]. cbn. rewrite Z.geb_leb. by apply Z.leb_gt. }
    rewrite Ec. by apply IH.
  - apply IH; [done|]. intros Hf. specialize (Hl Hf). by apply Forall_cons in Hl as [_ Hl].
Qed.

End Composite.
End Values.

(** ** The claims *)

(** What nomination hands to the ballot protocol is valid.  When all
    candidates are fully valid for the slot that follows the last closed ledger,
    [combineCandidates] returns: one of the candidates' transaction sets, which is
    not trimmed, the latest of their close times and at most one upgrade of each
    type; and [validateValue] considers the composite fully valid. *)
Theorem composite_is_valid {SS : StdSort} {HS : SetHash} {U : UInt128} {K : StrKeyOrder} {C : Crypto} {HT : TxHash}
    {X : UpgradeXdr} {V : ValueXdr} de slot candidates :
  isSlotCompatibleWithCurrentState de slot = true -> cache_ok de -> 0 <= sv_closeTime (scpValue (lclHeader de)) ->
  candidates <> [] ->
  Forall (fun c => driver_validateValue de slot c true = Ok kFullyValidatedValue) candidates ->
  exists v, driver_combineCandidates de candidates = Ok (v, None) /\
    driver_validateValue de slot v false = Ok kFullyValidatedValue.
Proof.
  intros Hc Hcache Ht Hne Hcs.
  destruct (combine_ok de candidates Hne) as (b & m & Hb & Hu & Hm & Htime & Hset); [|done|done|].
  - eapply Forall_impl; [exact Hcs|]. intros c Hv. exact (fully_good de slot Hc c true Hv).
  - exists (value_to_opaque b). split; [done|]. apply value_fully; [done|done|done|]. rewrite Hu. by apply ordered_steps.
Qed.

(** Claim C19: A node proposes what it considers valid itself.  The value that
    triggerNextLedger makes of a proposed transaction set, of the current time and of
    the upgrades the node was told to make is fully valid for nomination, when the
    set is known under its hash, the upgrades do not lower the version nor set
    anything to zero, and the clock is not more than a minute behind the last
    close time. *)
Theorem proposed_value_is_valid {SS : StdSort} {HS : SetHash} {F : FeeRatio} {U : UInt128} {K : StrKeyOrder} {C : Crypto} {HT : TxHash}
    {X : UpgradeXdr} {V : ValueXdr} de pending ts removed slot b :
  de_synced de = true ->
  proposeTxSet (de_ledger de) (de_lclHash de) pending = Ok (ts, removed) ->
  hashes_differ (mTransactions ts) ->
  de_getTxSet de (fst (setContentsHash ts)) = Some (snd (setContentsHash ts)) ->
  setParameters (de_upgrades de) (de_supported de) = Ok (de_upgrades de) ->
  (forall u, u ∈ createUpgradesFor (de_upgrades de) (lclHeader de) -> nonzero u /\ raises_version (lclHeader de) u) ->
  0 <= sv_closeTime (scpValue (lclHeader de)) < de_timeNow de + MAX_TIME_SLIP_SECONDS ->
  0 <= de_timeNow de -> de_timeNow de + MAX_TIME_SLIP_SECONDS <= UINT64_MAX ->
  proposedValue de (de_timeNow de) ts = (slot, b) ->
  driver_validateValue de slot (value_to_opaque b) true = Ok kFullyValidatedValue.
Proof.
  intros Hsync Hts Hd Hknown Hp Hu Hlast Hnow Hmax E. unfold proposedValue in E. injection E as <- <-.
  assert (Hc : isSlotCompatibleWithCurrentState de (u32 (ledgerSeq (lclHeader de) + 1)) = true)
    by (unfold isSlotCompatibleWithCurrentState; by rewrite Hsync, Z.eqb_refl).
  apply value_fully; [done|..]; cbn [sv_closeTime sv_txSetHash sv_upgrades].
  - unfold time_ok. unfold MAX_TIME_SLIP_SECONDS in *. rewrite (u64_id (de_timeNow de + 60)) by zlia.
    destruct (Z.leb_spec (de_timeNow de) (sv_closeTime (scpValue (lclHeader de)))); [rewrite u64_id by zlia|]; lia.
  - exists (snd (setContentsHash ts)). split; [done|].
    assert (Hv : checkValidSet (de_ledger de) (lclHeader de) (de_lclHash de) ts = Ok true).
    { unfold proposeTxSet in Hts. apply bind_ok_inv in Hts as ([ts0 r0] & _ & Hts). cbv zeta in Hts.
      apply bind_ok_inv in Hts as (ok & Ev & Hts). destruct ok; [|done]. by injection Hts as <- <-. }
    unfold setContentsHash. destruct (mHash ts); [done|]. cbn [snd sortForHash mTransactions mPreviousLedgerHash].
    rewrite (valid_sorted _ _ _ _ Hv Hd). destruct ts as [l p x]. cbn [mTransactions mPreviousLedgerHash]. by eapply valid_any_hash.
  - by apply proposed_steps.
Qed.
