(* ===== verification/HerderRuns.v ===== *)
(** * The driver of SCP and nomination together

    The interface of the nomination protocol is discharged by the driver of the
    program, and nomination with it gives valid ballots; then a node on a concrete
    ledger. *)
From Stdlib Require Import Sorted.
From S2P Require Import Prelude Numeric Exchange LedgerEntries TransactionUtils LedgerTxn OfferBook LedgerState.
From S2P Require Import Operations OfferOperations Signatures InvariantManager Transactions TransactionRuns.
From S2P Require Import Upgrades UpgradeLiabilities UpgradeRuns TxSet TxSetOrder TxSetProposal TxSetRuns.
From S2P Require Import QuorumSet LocalNode Ballots BallotProtocol BallotSafety BallotRuns.
From S2P Require Import Nomination NominationSafety NominationInputs HerderDriver HerderValues.

(** ** The instance *)

(** the hashes of SCPDriver.cpp and the signature *)
Class NominationHashes := {
  hashOfNode : Value -> bool -> Z -> NodeID -> Z;
  hashOfValue : Value -> Z -> Value -> Z;
  signatureOf : NomStatement -> Z }.

Section Herder.
Context {SS : StdSort} {HS : SetHash} {U : UInt128} {K : StrKeyOrder} {C : Crypto} {HT : TxHash}.
Context {X : UpgradeXdr} {V : ValueXdr} {NH : NominationHashes} {Ctx : SCPContext}.
Variable de : DriverEnv.

(** a check that throws ends the program, here the value counts as invalid *)
Definition level_of (r : res ValidationLevel) : ValidationLevel := match r with Ok l => l | Throw _ => kInvalidValue end.

#[export] Instance herder_driver : NominationDriver.
Proof.
  refine {| validateNomination v := level_of (driver_validateValue de getSlotIndex v true);
            extractValidValue v := match driver_extractValidValue de getSlotIndex v with Ok w => w | Throw _ => [] end;
            computeHashNode := hashOfNode; computeValueHash := hashOfValue;
            combineCandidates l := match driver_combineCandidates de l with Ok (v, _) => v | Throw _ => [] end;
            signNomination := signatureOf |}.
  intros v Hv. right. destruct (driver_extractValidValue de getSlotIndex v) as [w|e] eqn:E; [|done].
  by rewrite (extract_idempotent de _ _ _ E Hv).
Defined.

Lemma herder_fully v : fully_valid v <-> driver_validateValue de getSlotIndex v true = Ok kFullyValidatedValue.
Proof. unfold fully_valid. cbn. destruct (driver_validateValue _ _ _ _) as [l|e]; cbn; split; congruence. Qed.

End Herder.

(** Claim C14: Nomination gives the ballot protocol valid values.  A node that is
    nominating the next ledger, and whose accepted values are fully valid, receives
    a new statement: processing returns, all its accepted values are still fully
    valid, and if its candidates change then the ballot protocol is started with a
    composite that the node considers fully valid. *)
Theorem nominated_ballot_is_valid {SS : StdSort} {HS : SetHash} {U : UInt128} {K : StrKeyOrder} {C : Crypto} {HT : TxHash}
    {X : UpgradeXdr} {V : ValueXdr} {NH : NominationHashes} {Ctx : SCPContext} de e s :
  isSlotCompatibleWithCurrentState de getSlotIndex = true -> cache_ok de -> 0 <= sv_closeTime (scpValue (lclHeader de)) ->
  local_quorum_ok -> nom_reachable s -> nom_input_ok (InEnvelope e) -> mNominationStarted s = true ->
  isSaneNomination (ne_statement e) = true ->
  isNewerThanLatestNomination (ne_nodeID e) (ne_nominate e) s = true ->
  Forall (fun v => driver_validateValue de getSlotIndex v true = Ok kFullyValidatedValue) (mAccepted s) ->
  exists s', receiveNomination (D := herder_driver de) e s = Ok (VALID, s') /\
    Forall (fun v => driver_validateValue de getSlotIndex v true = Ok kFullyValidatedValue) (mAccepted s') /\
    (mCandidates s' <> mCandidates s ->
     exists l c, nCalls s' = nCalls s ++ l /\ nominationBumpState c ∈ l /\
       driver_validateValue de getSlotIndex c false = Ok kFullyValidatedValue).
Proof.
  intros Hc Hcache Ht Hq Hs [Hn Hslot] Hst Hsane Hnew Hacc. destruct (nom_reachable_inv s Hq Hs) as [HI _].
  destruct (receive_spec (D := herder_driver de) (fun _ => False) e s HI Hn Hslot) as (r & s' & He & HI' & _ & Hr).
  rewrite Hsane, Hnew in Hr. cbn [andb] in Hr. destruct Hr as [-> [HS' Hr]]. rewrite Hst in Hr. destruct Hr as (HB & _ & _).
  assert (Hacc' : Forall (fun v => driver_validateValue de getSlotIndex v true = Ok kFullyValidatedValue) (mAccepted s')).
  { rewrite Forall_forall in Hacc |- *. intros v Hv. destruct (st_new_accepted _ _ _ HS' v Hv) as [Hv'|[Hv' _]]; [by apply Hacc|].
    by apply herder_fully. }
  exists s'. split; [done|]. split; [done|]. intros Hne. destruct HB as [[HC _]|(HK & l & Hl & Hb)]; [by destruct Hne|].
  destruct (combine_ok de (mCandidates s')) as (b & m & Hcomb & Hu & Hm & Htime & Hset); [| |done|done|].
  - intros Hnil. apply Hne. rewrite Hnil. pose proof (st_candidates _ _ _ HS') as Hsub. rewrite Hnil in Hsub. cbn in Hsub.
    destruct (mCandidates s) as [|x l0]; [done|]. set_solver.
  - rewrite Forall_forall in Hacc' |- *. intros v Hv. eapply fully_good; [exact Hc|]. apply Hacc'. by apply (inv_sets _ HI').
  - exists l, (value_to_opaque b). split; [done|]. split; [|apply value_fully; [done..|rewrite Hu; by apply ordered_steps]].
    rewrite HK in Hb. cbn in Hb. by rewrite Hcomb in Hb.
Qed.

(** ** A node on a concrete ledger *)

(** an encoding of values: the hash, the time, and each upgrade after its length *)
Definition encode_value (b : EssaBlockChainValue) : Value :=
  sv_txSetHash b :: sv_closeTime b :: concat (map (fun u => Z.of_nat (length u) :: u) (sv_upgrades b)).

Fixpoint decode_chunks (fuel : nat) (l : list Z) : option (list (list Z)) :=
  match fuel, l with
  | _, [] => Some []
  | O, _ => None
  | S fuel', n :: l' => rest ← decode_chunks fuel' (drop (Z.to_nat n) l'); Some (take (Z.to_nat n) l' :: rest)
  end.
Definition decode_value (v : Value) : option EssaBlockChainValue :=
  match v with
  | h :: t :: l => us ← decode_chunks (length l) l; Some (mkEssaBlockChainValue h t us)
  | _ => None
  end.

Lemma decode_chunks_ok us fuel :
  (length (concat (map (fun u : list Z => Z.of_nat (length u) :: u) us)) <= fuel)%nat ->
  decode_chunks fuel (concat (map (fun u => Z.of_nat (length u) :: u) us)) = Some us.
Proof.
  revert fuel. induction us as [|u us IH]; intros fuel Hf; [by destruct fuel|]. cbn [map concat app] in *.
  destruct fuel as [|fuel]; cbn [length] in Hf; [lia|]. rewrite length_app in Hf. cbn [decode_chunks].
  rewrite Nat2Z.id, drop_app_length, take_app_length, IH by lia. done.
Qed.

#[export] Instance run_valueXdr : ValueXdr.
Proof.
  refine {| value_from_opaque := decode_value; value_to_opaque := encode_value;
            valueHash v := foldl (fun acc x => (acc * 31 + x) mod 1009) 7 v |}; [|done].
  intros [h t us]. unfold encode_value, decode_value. cbn [sv_txSetHash sv_closeTime sv_upgrades]. by rewrite decode_chunks_ok.
Defined.

(** the proposal of TxSetRuns.v in its ledger, with an upgrade of the base fee *)
Definition own_set : TxSetFrame := Eval vm_compute in surgePricingFilter (st_header small_state) proposal.1.
Definition own_hash : Z := Eval vm_compute in fst (setContentsHash own_set).
Definition run_env : DriverEnv :=
  mkDriverEnv true small_state 77 None 100
    (fun h => if h =? own_hash then Some (snd (setContentsHash own_set)) else None)
    (mkUpgradeParameters 0 None (Some 200) None None) 10.

Definition fee_upgrade : list Z := upgrade_to_opaque (LEDGER_UPGRADE_BASE_FEE 200).
Definition candidate1 : Value := value_to_opaque (mkEssaBlockChainValue own_hash 60 []).
Definition candidate2 : Value := value_to_opaque (mkEssaBlockChainValue own_hash 70 [fee_upgrade]).

Lemma concrete_hashes_differ l : bool_decide (NoDup (getFullHash <$> l)) = true -> hashes_differ l.
Proof. intros Hn x y Hx Hy E. apply (inj_on_list getFullHash l); [|done..]. by apply bool_decide_eq_true in Hn. Qed.

Lemma run_cache_ok : cache_ok run_env.
Proof.
  intros h ts. cbn [de_getTxSet run_env]. destruct (Z.eqb_spec h own_hash) as [->|]; [|done]. intros [= <-].
  split; [|by vm_compute]. apply concrete_hashes_differ. by vm_compute.
Qed.

Lemma composite_is_valid_witness :
  exists v, driver_combineCandidates run_env [candidate1; candidate2] = Ok (v, None) /\
    driver_validateValue run_env 8 v false = Ok kFullyValidatedValue /\
    value_from_opaque v = Some (mkEssaBlockChainValue own_hash 70 [fee_upgrade]).
Proof.
  destruct (composite_is_valid run_env 8 [candidate1; candidate2]) as (v & Hc & Hv).
  - reflexivity.
  - exact run_cache_ok.
  - vm_compute. congruence.
  - congruence.
  - repeat constructor; vm_compute; reflexivity.
  - exists v. split; [exact Hc|]. split; [exact Hv|].
    assert (Hd : driver_combineCandidates run_env [candidate1; candidate2] =
      Ok (value_to_opaque (mkEssaBlockChainValue own_hash 70 [fee_upgrade]), None)) by (vm_compute; reflexivity).
    rewrite Hd in Hc. injection Hc as <-. vm_compute. reflexivity.
Defined.

Lemma proposed_value_is_valid_witness :
  exists slot b, proposedValue run_env 100 own_set = (slot, b) /\ sv_upgrades b = [fee_upgrade] /\
    driver_validateValue run_env slot (value_to_opaque b) true = Ok kFullyValidatedValue.
Proof.
  exists 8, (mkEssaBlockChainValue own_hash 100 [fee_upgrade]). split; [by vm_compute|]. split; [reflexivity|].
  apply (proposed_value_is_valid run_env pendingTxs own_set proposal.2).
  - reflexivity.
  - by vm_compute.
  - apply concrete_hashes_differ. by vm_compute.
  - by vm_compute.
  - reflexivity.
  - intros u Hu. assert (u = LEDGER_UPGRADE_BASE_FEE 200) as ->.
    { apply list_elem_of_singleton. assert (Hl : createUpgradesFor (de_upgrades run_env) (lclHeader run_env) = [LEDGER_UPGRADE_BASE_FEE 200]) by (by vm_compute).
      by rewrite Hl in Hu. }
    by vm_compute.
  - by vm_compute.
  - by vm_compute.
  - by vm_compute.
  - by vm_compute.
Defined.

(** *** Its nomination, with three other nodes *)

Section Run.

Instance herder_ctx : SCPContext :=
  {| dbg := true; getLocalNodeID := 0; getSlotIndex := 8; getQuorumSet := four_nodes; getQuorumSetHash := 42;
     getQSet h := if h =? 42 then Some four_nodes else None; validateValue := always_valid; signEnvelope _ := 0 |}.
Instance herder_hashes : NominationHashes :=
  {| hashOfNode _ isPriority _ n := if isPriority then if n =? 1 then 9 else 5 else 0;
     hashOfValue _ _ _ := 3; signatureOf _ := 0 |}.
Instance run_driver : NominationDriver := herder_driver run_env.

Definition herder_nomination (n : NodeID) (votes accepted : list Value) : NomEnvelope :=
  mkNomEnvelope (mkNomStatement n 8 (mkNomination 42 votes accepted)) 0.

(** the leader's value is taken and accepted; one more statement makes it a
    candidate *)
Definition herder_inputs : list NomInput :=
  [InNominate candidate1 [1] false; InEnvelope (herder_nomination 1 [candidate2] []);
   InEnvelope (herder_nomination 2 [candidate2] []); InEnvelope (herder_nomination 1 [candidate2] [candidate2])].
Definition herder_before : NState :=
  Eval vm_compute in match nom_run herder_inputs (newNominationProtocol true) with Ok s => s | Throw _ => newNominationProtocol true end.
Definition herder_last : NomEnvelope := herder_nomination 2 [candidate2] [candidate2].

Lemma herder_before_reachable : nom_reachable herder_before.
Proof.
  apply (nom_run_reachable herder_inputs (newNominationProtocol true)); [|apply nr_new|vm_compute; reflexivity].
  repeat constructor; cbn; lia || done.
Qed.

Lemma nominated_ballot_is_valid_witness :
  exists s', receiveNomination herder_last herder_before = Ok (VALID, s') /\ mCandidates s' = [candidate2] /\
    exists l c, nCalls s' = nCalls herder_before ++ l /\ nominationBumpState c ∈ l /\
      driver_validateValue run_env 8 c false = Ok kFullyValidatedValue.
Proof.
  destruct (nominated_ballot_is_valid run_env herder_last herder_before) as (s' & He & _ & Hc).
  - reflexivity.
  - exact run_cache_ok.
  - vm_compute. congruence.
  - split; [vm_compute; repeat split; intros [=]|]. apply (bool_decide_unpack _). vm_compute. exact I.
  - exact herder_before_reachable.
  - split; [intros [=]|reflexivity].
  - reflexivity.
  - reflexivity.
  - vm_compute. reflexivity.
  - repeat constructor; vm_compute; reflexivity.
  - assert (Hcand : match receiveNomination herder_last herder_before with Ok (_, s) => mCandidates s | Throw _ => [] end = [candidate2])
      by (vm_compute; reflexivity).
    exists s'. split; [exact He|]. unfold run_driver in Hcand. rewrite He in Hcand. split; [exact Hcand|].
    apply Hc. rewrite Hcand. intros [=].
Defined.

End Run.

(** Claim C38: [extractValidValue] gives values that the node considers invalid.  From
    a value that repeats an upgrade the node wants, nothing is removed: the result is
    the value itself, which [validateValue] refuses because its upgrades are out of
    order. *)
Theorem extracted_value_can_be_invalid :
  exists de slot v, v <> [] /\ driver_extractValidValue de slot v = Ok v /\
    driver_validateValue de slot v true = Ok kInvalidValue.
Proof.
  exists run_env, 8, (value_to_opaque (mkEssaBlockChainValue own_hash 60 [fee_upgrade; fee_upgrade])).
  split; [done|]. split; by vm_compute.
Qed.
