(* ===== verification/HerderQueue.v ===== *)
(** * Pending transactions

    The queue of src/src/herder/HerderImpl.cpp: transactions wait in four
    generations, by account and hash, until a ledger contains them or until four
    ledgers have been closed.  The code keeps the sum of the fees and the greatest
    sequence number of each account and generation; the theorems are about what
    these are worth.  The result that [recvTransaction] writes into the transaction
    is left out. *)
From S2P Require Import Prelude Numeric Exchange LedgerEntries TransactionUtils LedgerTxn OfferBook LedgerState.
From S2P Require Import Operations OfferOperations SubEntries Signatures InvariantManager Transactions TxSet TxSetOrder TxSetProposal.

(** ** Data *)

(** [std::unordered_map]s are finite maps *)
Record TxMap := mkTxMap { tm_txs : gmap Z TxPtr; tm_maxSeq : Z; tm_totalFees : Z }.
Notation AccountTxMap := (gmap AccountID TxMap).
(** the [std::deque], the youngest generation first *)
Notation PendingTxs := (list AccountTxMap).

Definition newTxMap : TxMap := mkTxMap ∅ 0 0.
Definition newPending : PendingTxs := replicate 4 ∅.

Inductive TransactionSubmitStatus := TX_STATUS_PENDING | TX_STATUS_DUPLICATE | TX_STATUS_ERROR.

Section Code.
Context {SS : StdSort} {HS : SetHash} {U : UInt128} {K : StrKeyOrder} {C : Crypto} {HT : TxHash}.

Definition TxMap_addTx (tx : TxPtr) (m : TxMap) : TxMap :=
  match tm_txs m !! getFullHash tx with
  | Some _ => m
  | None => mkTxMap (<[getFullHash tx := tx]> (tm_txs m)) (Z.max (getSeqNum tx) (tm_maxSeq m))
              (i64 (tm_totalFees m + getFee tx))
  end.

Definition txs_of (m : TxMap) : list TxPtr := (map_to_list (tm_txs m)).*2.

Definition recalculate (m : TxMap) : TxMap :=
  foldl (fun m tx => mkTxMap (tm_txs m) (Z.max (getSeqNum tx) (tm_maxSeq m)) (i64 (tm_totalFees m + getFee tx)))
    (mkTxMap (tm_txs m) 0 0) (txs_of m).

Definition findOrAdd (m : AccountTxMap) (a : AccountID) : TxMap := default newTxMap (m !! a).

(** the loop of [recvTransaction] over the generations: [totFee] and [highSeq],
    or nothing for a transaction that is known *)
Fixpoint scanPending (acc : AccountID) (txID : Z) (q : PendingTxs) (totFee highSeq : Z) : option (Z * Z) :=
  match q with
  | [] => Some (totFee, highSeq)
  | m :: q' =>
      match m !! acc with
      | None => scanPending acc txID q' totFee highSeq
      | Some txmap =>
          match tm_txs txmap !! txID with
          | Some _ => None
          | None => scanPending acc txID q' (i64 (totFee + tm_totalFees txmap)) (Z.max highSeq (tm_maxSeq txmap))
          end
      end
  end.

Definition recvTransaction (s : LState) (tx : TxPtr) (q : PendingTxs) : res (TransactionSubmitStatus * PendingTxs) :=
  let acc := getSourceIDOf tx in
  match scanPending acc (getFullHash tx) q (getFee tx) 0 with
  | None => Ok (TX_STATUS_DUPLICATE, q)
  | Some (totFee, highSeq) =>
      ok ← checkTx s tx highSeq;
      if negb ok then Ok (TX_STATUS_ERROR, q)
      else
        available ← availableOf s acc;
        if available <? totFee then Ok (TX_STATUS_ERROR, q)
        else
          match q with
          | [] => Throw NullPointer
          | m :: q' => Ok (TX_STATUS_PENDING, <[acc := TxMap_addTx tx (findOrAdd m acc)]> m :: q')
          end
  end.

(** one transaction in one generation, and the accounts to recalculate *)
Definition dropTx (tx : TxPtr) (st : AccountTxMap * gset AccountID) : AccountTxMap * gset AccountID :=
  let '(m, toRecalculate) := st in
  let acc := getSourceIDOf tx in
  match m !! acc with
  | None => st
  | Some txm =>
      match tm_txs txm !! getFullHash tx with
      | None => st
      | Some _ =>
          let txs := delete (getFullHash tx) (tm_txs txm) in
          if decide (txs = ∅) then (delete acc m, toRecalculate)
          else (<[acc := mkTxMap txs (tm_maxSeq txm) (tm_totalFees txm)]> m, {[acc]} ∪ toRecalculate)
      end
  end.

(** a generation; what is recalculated after its account has been erased is not
    seen any more *)
Definition removeFrom (dropTxs : list TxPtr) (m : AccountTxMap) : AccountTxMap :=
  if decide (m = ∅) then m
  else
    let '(m, toRecalculate) := foldl (fun st tx => dropTx tx st) (m, ∅) dropTxs in
    map_imap (fun a txm => Some (if decide (a ∈ toRecalculate) then recalculate txm else txm)) m.

Definition removeReceivedTxs (dropTxs : list TxPtr) (q : PendingTxs) : PendingTxs := map (removeFrom dropTxs) q.

Definition getMaxSeqInPendingTxs (acc : AccountID) (q : PendingTxs) : Z :=
  foldl (fun highSeq m => match m !! acc with None => highSeq | Some txm => Z.max (tm_maxSeq txm) highSeq end) 0 q.

(** all pending transactions, in the order of the loops of [triggerNextLedger] and
    [updatePendingTransactions] *)
Definition allPending (q : PendingTxs) : list TxPtr :=
  concat (map (fun m : AccountTxMap => concat (map (fun kv => txs_of kv.2) (map_to_list m))) q).

(** the queue, and the transactions that are broadcast again, in their order *)
Definition updatePendingTransactions (applied : list TxPtr) (q : PendingTxs) : PendingTxs * list TxPtr :=
  let q := removeReceivedTxs applied q in
  let q := ∅ :: removelast q in
  let toBroadcast := foldl (fun ts tx => addTx tx ts) (mkTxSetFrame [] 0 None) (allPending q) in
  (q, fst (sortForApply toBroadcast)).

(** the part of [triggerNextLedger] that makes the set *)
Definition triggerTxSet {F : FeeRatio} (s : LState) (lclHash : Z) (q : PendingTxs) : res (TxSetFrame * PendingTxs) :=
  '(proposedSet, removed) ← proposeTxSet s lclHash (allPending q);
  Ok (proposedSet, removeReceivedTxs removed q).

End Code.
