(* ===== verification/HerderQueueSafety.v ===== *)
(** * The queue of pending transactions is consistent

    Invariant and effect of the operations of HerderQueue.v. *)
From S2P Require Import Prelude Numeric Exchange LedgerEntries TransactionUtils LedgerTxn OfferBook LedgerState.
From S2P Require Import Operations OfferOperations SubEntries Signatures InvariantManager Transactions TxSet TxSetOrder TxSetProposal HerderQueue.

(** ** Sums and maxima *)

Definition max_seq (l : list TxPtr) : Z := foldr (fun tx acc => Z.max (getSeqNum tx) acc) 0 l.

Lemma max_seq_nonneg l : 0 <= max_seq l.
Proof. induction l as [|x l IH]; cbn; [lia|]. fold (max_seq l). lia. Qed.

Lemma max_seq_app l1 l2 : max_seq (l1 ++ l2) = Z.max (max_seq l1) (max_seq l2).
Proof.
  induction l1 as [|x l1 IH]; [change (max_seq l2 = Z.max 0 (max_seq l2)); pose proof (max_seq_nonneg l2); lia|].
  change (Z.max (getSeqNum x) (max_seq (l1 ++ l2)) = Z.max (Z.max (getSeqNum x) (max_seq l1)) (max_seq l2)). lia.
Qed.

Lemma max_seq_perm l1 l2 : l1 ≡ₚ l2 -> max_seq l1 = max_seq l2.
Proof. induction 1; cbn [max_seq foldr]; repeat match goal with |- context [foldr _ 0 ?l] => fold (max_seq l) end; lia. Qed.

Section Queue.
Context {SS : StdSort} {HS : SetHash} {U : UInt128} {K : StrKeyOrder} {C : Crypto} {HT : TxHash}.

Lemma recalculate_spec m : recalculate m = mkTxMap (tm_txs m) (max_seq (txs_of m)) (i64 (fees (txs_of m))).
Proof.
  unfold recalculate. generalize (txs_of m) as l. generalize (tm_txs m) as t. clear m. intros t l.
  enough (H : forall mx x, 0 <= mx -> foldl (fun m tx => mkTxMap (tm_txs m) (Z.max (getSeqNum tx) (tm_maxSeq m))
      (i64 (tm_totalFees m + getFee tx))) (mkTxMap t mx (i64 x)) l = mkTxMap t (Z.max mx (max_seq l)) (i64 (x + fees l))).
  { specialize (H 0 0 ltac:(lia)). change (i64 0) with 0 in H. rewrite H. pose proof (max_seq_nonneg l). f_equal; lia. }
  induction l as [|tx l IH]; intros mx x Hmx; cbn [foldl max_seq foldr fees]; [f_equal; [lia|f_equal; lia]|].
  cbn [tm_txs tm_maxSeq tm_totalFees]. rewrite i64_add_l, IH by lia. fold (max_seq l) (fees l). f_equal; [lia|f_equal; lia].
Qed.

(** ** The invariant *)

Record txmap_ok (a : AccountID) (m : TxMap) : Prop := {
  tmk_nonempty : tm_txs m <> ∅;
  tmk_keys : forall h tx, tm_txs m !! h = Some tx -> getFullHash tx = h /\ getSourceIDOf tx = a;
  tmk_max : tm_maxSeq m = max_seq (txs_of m);
  tmk_fees : tm_totalFees m = i64 (fees (txs_of m)) }.

Definition gen_ok (m : AccountTxMap) : Prop := forall a tm, m !! a = Some tm -> txmap_ok a tm.

(** the transaction of an account with a hash *)
Definition look (m : AccountTxMap) (a : AccountID) (h : Z) : option TxPtr := tm ← m !! a; tm_txs tm !! h.
Definition look_at (q : PendingTxs) (i : nat) (a : AccountID) (h : Z) : option TxPtr := m ← q !! i; look m a h.

(** there are four generations, each in order, and none of their transactions is
    in two of them *)
Record queue_ok (q : PendingTxs) : Prop := {
  qo_length : length q = 4%nat;
  qo_gens : Forall gen_ok q;
  qo_unique : forall i j a h, is_Some (look_at q i a h) -> is_Some (look_at q j a h) -> i = j }.

Lemma addTx_ok a tx m :
  (m = newTxMap \/ txmap_ok a m) -> getSourceIDOf tx = a -> tm_txs m !! getFullHash tx = None ->
  txmap_ok a (TxMap_addTx tx m).
Proof.
  intros Hm Ha Hn. unfold TxMap_addTx. rewrite Hn.
  assert (Hp : txs_of (mkTxMap (<[getFullHash tx := tx]> (tm_txs m)) (Z.max (getSeqNum tx) (tm_maxSeq m)) (i64 (tm_totalFees m + getFee tx)))
    ≡ₚ tx :: txs_of m) by (unfold txs_of; cbn [tm_txs]; by rewrite map_to_list_insert).
  assert (Hm' : tm_maxSeq m = max_seq (txs_of m) /\ tm_totalFees m = i64 (fees (txs_of m))).
  { destruct Hm as [->|[]]; [|done]. unfold txs_of, newTxMap. cbn. by rewrite map_to_list_empty. }
  destruct Hm' as [E1 E2]. constructor; cbn [tm_txs tm_maxSeq tm_totalFees].
  - apply insert_non_empty.
  - intros h x. rewrite lookup_insert_Some. intros [[<- <-]|[_ Hx]]; [done|]. destruct Hm as [->|[]]; [cbn in Hx; by rewrite lookup_empty in Hx|auto].
  - rewrite (max_seq_perm _ _ Hp). cbn. fold (max_seq (txs_of m)). by rewrite E1.
  - rewrite (fees_perm _ _ Hp), E2, i64_add_l. cbn. fold (fees (txs_of m)). f_equal. lia.
Qed.

(** *** Removing *)

(** some of the transactions is the one of the account with the hash *)
Definition named (ds : list TxPtr) (a : AccountID) (h : Z) : Prop := exists d, d ∈ ds /\ getSourceIDOf d = a /\ getFullHash d = h.

(** a generation in which the sums of the accounts [R] are to be recalculated *)
Definition stale_ok (m : AccountTxMap) (R : gset AccountID) : Prop :=
  forall a tm, m !! a = Some tm -> tm_txs tm <> ∅ /\
    (forall h tx, tm_txs tm !! h = Some tx -> getFullHash tx = h /\ getSourceIDOf tx = a) /\ (a ∉ R -> txmap_ok a tm).

Lemma dropTx_spec d m R m' R' :
  stale_ok m R -> dropTx d (m, R) = (m', R') ->
  stale_ok m' R' /\ forall a h, look m' a h = if decide (getSourceIDOf d = a /\ getFullHash d = h) then None else look m a h.
Proof.
  intros Hm. unfold dropTx. set (acc := getSourceIDOf d).
  assert (Hsame : look m acc (getFullHash d) = None -> forall a h,
    look m a h = if decide (acc = a /\ getFullHash d = h) then None else look m a h).
  { intros Hn a h. case_decide as E; [|done]. by destruct E as [<- <-]. }
  destruct (m !! acc) as [txm|] eqn:Ea; [|intros [= <- <-]; split; [done|]; apply Hsame; unfold look; by rewrite Ea].
  destruct (tm_txs txm !! getFullHash d) as [x|] eqn:Ex; [|intros [= <- <-]; split; [done|]; apply Hsame; unfold look; by rewrite Ea].
  destruct (Hm acc txm Ea) as (_ & Hk & _). case_decide as Ee; intros [= <- <-].
  - split.
    + intros a tm [Hne Hl]%lookup_delete_Some. by apply Hm.
    + intros a h. unfold look. destruct (decide (acc = a)) as [<-|Hne].
      * rewrite lookup_delete_eq. cbn. case_decide as E; [done|]. rewrite Ea. cbn. symmetry.
        assert (Hh : getFullHash d <> h) by tauto. rewrite <- (lookup_delete_ne (tm_txs txm) (getFullHash d)) by done.
        by rewrite Ee, lookup_empty.
      * rewrite lookup_delete_ne by done. by rewrite decide_False by tauto.
  - split.
    + intros a tm [[<- <-]|[Hne Hl]]%lookup_insert_Some.
      * cbn [tm_txs]. split; [done|]. split; [|set_solver]. intros h tx [_ Hl]%lookup_delete_Some. by apply Hk.
      * destruct (Hm a tm Hl) as (H1 & H2 & H3). split; [done|]. split; [done|]. intros Hn. apply H3. set_solver.
    + intros a h. unfold look. destruct (decide (acc = a)) as [<-|Hne].
      * rewrite lookup_insert_eq, Ea. cbn. case_decide as E.
        -- destruct E as [_ <-]. apply lookup_delete_eq.
        -- apply lookup_delete_ne. tauto.
      * rewrite lookup_insert_ne by done. by rewrite decide_False by tauto.
Qed.

Lemma named_dec ds a h : Decision (named ds a h).
Proof.
  destruct (list_find (fun d => getSourceIDOf d = a /\ getFullHash d = h) ds) as [[i d]|] eqn:E.
  - left. apply list_find_Some in E as (Hi & Hd & _). exists d. split; [by eapply list_elem_of_lookup_2|done].
  - right. apply list_find_None in E. rewrite Forall_forall in E. intros (d & Hd & H). by apply (E d).
Defined.
#[local] Existing Instance named_dec.

Lemma dropAll_spec ds m R m' R' :
  stale_ok m R -> foldl (fun st tx => dropTx tx st) (m, R) ds = (m', R') ->
  stale_ok m' R' /\ forall a h, look m' a h = if decide (named ds a h) then None else look m a h.
Proof.
  revert m R. induction ds as [|d ds IH]; intros m R Hm; cbn [foldl].
  { intros [= <- <-]. split; [done|]. intros a h. rewrite decide_False; [done|]. intros (d & Hd & _). by apply elem_of_nil in Hd. }
  destruct (dropTx d (m, R)) as [m1 R1] eqn:E1. intros E. destruct (dropTx_spec _ _ _ _ _ Hm E1) as [H1 L1].
  destruct (IH _ _ H1 E) as [H2 L2]. split; [done|]. intros a h. rewrite L2, L1.
  destruct (decide (named ds a h)) as [Hn|Hn].
  - rewrite decide_True; [done|]. destruct Hn as (x & Hx & H). exists x. split; [by right|done].
  - destruct (decide (_ /\ _)) as [Hd|Hd].
    + rewrite decide_True; [done|]. exists d. split; [by left|done].
    + rewrite decide_False; [done|]. intros (x & [->|Hx]%elem_of_cons & H); [done|]. apply Hn. by exists x.
Qed.

Lemma removeFrom_spec ds m :
  gen_ok m -> gen_ok (removeFrom ds m) /\
  forall a h, look (removeFrom ds m) a h = if decide (named ds a h) then None else look m a h.
Proof.
  intros Hm. unfold removeFrom. case_decide as E.
  { subst m. split; [done|]. intros a h. unfold look. rewrite lookup_empty. by case_decide. }
  destruct (foldl _ (m, ∅) ds) as [m' R] eqn:Ef.
  destruct (dropAll_spec ds m ∅ m' R) as [Hs Hl]; [|done|].
  { intros a tm Ha. destruct (Hm a tm Ha). split; [done|]. split; [done|]. by constructor. }
  split.
  - intros a tm. rewrite map_lookup_imap. destruct (m' !! a) as [tm'|] eqn:Ea; [|done]. cbn. intros [= <-].
    destruct (Hs a tm' Ea) as (H1 & H2 & H3). case_decide as Er; [|by apply H3]. rewrite recalculate_spec.
    by constructor.
  - intros a h. rewrite <- Hl. unfold look. rewrite map_lookup_imap. destruct (m' !! a) as [tm'|]; [|done]. cbn.
    case_decide; [by rewrite recalculate_spec|done].
Qed.

(** ** The queue *)

Lemma remove_look ds q i a h :
  Forall gen_ok q ->
  look_at (removeReceivedTxs ds q) i a h = if decide (named ds a h) then None else look_at q i a h.
Proof.
  intros Hq. unfold look_at, removeReceivedTxs. rewrite list_lookup_fmap.
  destruct (q !! i) as [m|] eqn:E; cbn; [|by case_decide]. apply removeFrom_spec. by eapply Forall_lookup_1.
Qed.

Lemma remove_ok ds q : queue_ok q -> queue_ok (removeReceivedTxs ds q).
Proof.
  intros [Hl Hg Hu]. constructor.
  - unfold removeReceivedTxs. by rewrite length_map.
  - unfold removeReceivedTxs. apply Forall_fmap. eapply Forall_impl; [exact Hg|]. intros m Hm. by apply removeFrom_spec.
  - intros i j a h. rewrite !remove_look by done. case_decide; [by intros []|by apply Hu].
Qed.

Lemma shift_look q i a h :
  length q = 4%nat ->
  look_at (∅ :: removelast q) i a h =
  match i with O => None | S i => if (i <? 3)%nat then look_at q i a h else None end.
Proof.
  intros Hl. destruct q as [|g0 [|g1 [|g2 [|g3 [|]]]]]; try done. unfold look_at.
  do 4 (destruct i as [|i]; [done|]). by destruct i.
Qed.

Lemma shift_ok q : queue_ok q -> queue_ok (∅ :: removelast q).
Proof.
  intros [Hl Hg Hu]. constructor.
  - destruct q as [|g0 [|g1 [|g2 [|g3 [|]]]]]; done.
  - constructor; [done|]. apply Forall_forall. intros m Hm. rewrite Forall_forall in Hg. apply Hg.
    destruct q as [|g q0]; [done|]. rewrite (app_removelast_last g (l := g :: q0)) by done. apply elem_of_app. by left.
  - intros i j a h. rewrite !shift_look by done. destruct i as [|i], j as [|j]; try (by intros []); try (by intros _ []).
    destruct (i <? 3)%nat; [|by intros []]. destruct (j <? 3)%nat; [|by intros _ []]. intros H1 H2. f_equal. by eapply Hu.
Qed.

(** the pending transactions of an account *)
Definition account_txs (a : AccountID) (q : PendingTxs) : list TxPtr :=
  concat (map (fun m : AccountTxMap => match m !! a with Some tm => txs_of tm | None => [] end) q).

Lemma scanPending_spec a h q x hi :
  Forall gen_ok q -> 0 <= hi ->
  match scanPending a h q (i64 x) hi with
  | None => exists i, is_Some (look_at q i a h)
  | Some (t, s) => (forall i, look_at q i a h = None) /\ t = i64 (x + fees (account_txs a q)) /\
      s = Z.max hi (max_seq (account_txs a q))
  end.
Proof.
  intros Hq. revert x hi. induction Hq as [|m q Hm Hq IH]; intros x hi Hhi; cbn [scanPending].
  { split; [done|]. cbn. rewrite Z.add_0_r. split; [done|lia]. }
  assert (Hrest : forall x hi l, 0 <= hi -> account_txs a (m :: q) = l ++ account_txs a q -> look m a h = None ->
    match scanPending a h q (i64 x) hi with
    | None => exists i, is_Some (look_at (m :: q) i a h)
    | Some (t, s) => (forall i, look_at (m :: q) i a h = None) /\ t = i64 (x + fees (account_txs a q)) /\
        s = Z.max hi (max_seq (account_txs a q))
    end).
  { intros x0 hi0 l Hh _ Hn. specialize (IH x0 hi0 Hh). destruct (scanPending _ _ _ _ _) as [[t s]|].
    - destruct IH as (H1 & H2 & H3). split; [|done]. intros [|i]; [exact Hn|apply H1].
    - destruct IH as [i Hi]. by exists (S i). }
  unfold account_txs in *. cbn [map concat] in *. destruct (m !! a) as [tm|] eqn:Ea.
  - destruct (tm_txs tm !! h) as [tx|] eqn:Eh.
    { exists O. unfold look_at, look. cbn. rewrite Ea. cbn. by rewrite Eh. }
    destruct (Hm a tm Ea) as [_ _ Emax Efees]. rewrite i64_add_l, Efees, i64_add_r.
    assert (Hn : look m a h = None) by (unfold look; rewrite Ea; exact Eh).
    specialize (Hrest (x + fees (txs_of tm)) (Z.max hi (tm_maxSeq tm)) (txs_of tm) ltac:(lia) eq_refl Hn).
    destruct (scanPending _ _ _ _ _) as [[t s]|]; [|done]. destruct Hrest as (H1 & -> & ->). split; [done|].
    rewrite fees_app, max_seq_app, Emax. split; [f_equal; lia|lia].
  - assert (Hn : look m a h = None) by (unfold look; by rewrite Ea). by apply (Hrest x hi []).
Qed.

Lemma getMaxSeq_spec a q : Forall gen_ok q -> getMaxSeqInPendingTxs a q = max_seq (account_txs a q).
Proof.
  intros Hq. unfold getMaxSeqInPendingTxs.
  enough (H : forall hi, 0 <= hi -> foldl (fun highSeq (m : AccountTxMap) => match m !! a with None => highSeq | Some txm => Z.max (tm_maxSeq txm) highSeq end) hi q
    = Z.max hi (max_seq (account_txs a q))) by (rewrite H by lia; pose proof (max_seq_nonneg (account_txs a q)); lia).
  induction Hq as [|m q Hm Hq IH]; intros hi Hhi; [cbn; lia|]. cbn [foldl]. unfold account_txs in *. cbn [map concat].
  rewrite max_seq_app. destruct (m !! a) as [tm|] eqn:Ea; rewrite IH by lia.
  - rewrite (tmk_max _ _ (Hm a tm Ea)). lia.
  - cbn. lia.
Qed.

(** the transaction that is accepted *)
Lemma enqueue_ok tx m q :
  let a := getSourceIDOf tx in
  queue_ok (m :: q) -> (forall i, look_at (m :: q) i a (getFullHash tx) = None) ->
  let q' := <[a := TxMap_addTx tx (findOrAdd m a)]> m :: q in
  queue_ok q' /\ account_txs a q' ≡ₚ tx :: account_txs a (m :: q) /\
  forall i b h, look_at q' i b h =
    if decide (i = 0%nat /\ b = a /\ h = getFullHash tx) then Some tx else look_at (m :: q) i b h.
Proof.
  intros a [Hl Hg Hu] Hn q'. apply Forall_cons in Hg as [Hm Hq].
  assert (Hnone : tm_txs (findOrAdd m a) !! getFullHash tx = None).
  { specialize (Hn 0%nat). unfold look_at, look in Hn. cbn in Hn. unfold findOrAdd. destruct (m !! a); [exact Hn|]. cbn. by rewrite lookup_empty. }
  assert (Hold : findOrAdd m a = newTxMap \/ txmap_ok a (findOrAdd m a)).
  { unfold findOrAdd. destruct (m !! a) as [tm|] eqn:E; [right; by apply Hm|by left]. }
  pose proof (addTx_ok a tx _ Hold eq_refl Hnone) as Hnew.
  assert (Etxs : tm_txs (TxMap_addTx tx (findOrAdd m a)) = <[getFullHash tx := tx]> (tm_txs (findOrAdd m a)))
    by (unfold TxMap_addTx; by rewrite Hnone).
  assert (Hlook : forall i b h, look_at q' i b h =
    if decide (i = 0%nat /\ b = a /\ h = getFullHash tx) then Some tx else look_at (m :: q) i b h).
  { intros [|i] b h; [|by rewrite decide_False by lia]. unfold look_at, look, q'. cbn.
    destruct (decide (b = a)) as [->|Hb].
    - rewrite lookup_insert_eq. cbn. rewrite Etxs. destruct (decide (h = getFullHash tx)) as [->|Hh].
      + by rewrite lookup_insert_eq, decide_True.
      + rewrite lookup_insert_ne, decide_False by (done || naive_solver). unfold findOrAdd. destruct (m !! a); [done|]. cbn. by rewrite lookup_empty.
    - rewrite lookup_insert_ne, decide_False by (done || naive_solver). done. }
  split; [constructor|split; [|done]].
  - exact Hl.
  - constructor; [|done]. intros b tm [[<- <-]|[_ Hb]]%lookup_insert_Some; [done|by apply Hm].
  - intros i j b h. rewrite !Hlook. repeat case_decide; try lia; [| |by apply Hu].
    + destruct H as (-> & -> & ->). intros _ [y Hy]. by rewrite Hn in Hy.
    + destruct H0 as (-> & -> & ->). intros [y Hy]. by rewrite Hn in Hy.
  - unfold account_txs, q'. cbn [map concat]. rewrite lookup_insert_eq. rewrite app_comm_cons. apply Permutation_app_tail.
    unfold txs_of. rewrite Etxs, map_to_list_insert by done. cbn. unfold findOrAdd. destruct (m !! a); [done|]. cbn. by rewrite map_to_list_empty.
Qed.

(** what the three answers of [recvTransaction] mean *)
Lemma recv_cases s tx q st q' :
  queue_ok q -> is_u32 (getFee tx) -> recvTransaction s tx q = Ok (st, q') ->
  let a := getSourceIDOf tx in
  match st with
  | TX_STATUS_DUPLICATE => q' = q /\ exists i, is_Some (look_at q i a (getFullHash tx))
  | TX_STATUS_ERROR => q' = q /\ forall i, look_at q i a (getFullHash tx) = None
  | TX_STATUS_PENDING =>
      queue_ok q' /\ account_txs a q' ≡ₚ tx :: account_txs a q /\
      (forall i, look_at q i a (getFullHash tx) = None) /\
      (forall i b h, look_at q' i b h =
         if decide (i = 0%nat /\ b = a /\ h = getFullHash tx) then Some tx else look_at q i b h) /\
      checkTx s tx (max_seq (account_txs a q)) = Ok true /\
      exists available, availableOf s a = Ok available /\ i64 (getFee tx + fees (account_txs a q)) <= available
  end.
Proof.
  intros Hq Hfee E a. unfold recvTransaction in E. fold a in E.
  pose proof (scanPending_spec a (getFullHash tx) q (getFee tx) 0 (qo_gens _ Hq) ltac:(lia)) as Hsc.
  rewrite i64_id in Hsc by zlia. destruct (scanPending _ _ _ _ _) as [[t hi]|]; [|by injection E as <- <-].
  destruct Hsc as (Hn & -> & ->). apply bind_ok_inv in E as (ok & Ec & E).
  rewrite Z.max_r in Ec by apply max_seq_nonneg. destruct ok; [|by injection E as <- <-]. cbn [negb] in E.
  apply bind_ok_inv in E as (av & Eav & E). destruct (Z.ltb_spec av (i64 (getFee tx + fees (account_txs a q)))); [by injection E as <- <-|].
  destruct q as [|m q]; [done|]. injection E as <- <-. destruct (enqueue_ok tx m q Hq Hn) as (H1 & H2 & H3).
  split; [done|]. split; [done|]. split; [done|]. split; [done|]. split; [done|]. by exists av.
Qed.

End Queue.

Lemma newPending_ok {HS : SetHash} : queue_ok newPending.
Proof.
  constructor; [done| |].
  - apply Forall_forall. intros m [-> _]%elem_of_replicate a tm. by rewrite lookup_empty.
  - intros i j a h [x Hx]. unfold look_at, newPending in Hx. destruct (replicate 4 ∅ !! i) as [m|] eqn:E; [|done].
    apply lookup_replicate in E as [-> _]. cbn in Hx. unfold look in Hx. by rewrite lookup_empty in Hx.
Qed.

(** ** The claims *)

(** Claim C20: The queue of pending transactions stays consistent.  A new queue is, and
    so it remains when a transaction is received, when transactions are removed,
    when a ledger has closed and when a set is proposed: there are four generations,
    every transaction is filed under its account and its hash and in one generation
    only, no account is kept without transactions, and the greatest sequence number
    and the sum of the fees that are stored for an account are those of its
    transactions. *)
Theorem pending_queue_is_consistent {SS : StdSort} {HS : SetHash} {F : FeeRatio} {U : UInt128} {K : StrKeyOrder} {C : Crypto} {HT : TxHash} :
  queue_ok newPending /\
  forall q, queue_ok q ->
    (forall s tx st q', is_u32 (getFee tx) -> recvTransaction s tx q = Ok (st, q') -> queue_ok q') /\
    (forall dropTxs, queue_ok (removeReceivedTxs dropTxs q)) /\
    (forall applied, queue_ok (fst (updatePendingTransactions applied q))) /\
    (forall s lclHash ts q', triggerTxSet s lclHash q = Ok (ts, q') -> queue_ok q').
Proof.
  split; [apply newPending_ok|].
  intros q Hq. split; [|split; [|split]].
  - intros s tx st q' Hf E. pose proof (recv_cases s tx q st q' Hq Hf E) as H. cbv zeta in H. destruct st; [tauto|by destruct H as [-> _]..].
  - intros ds. by apply remove_ok.
  - intros applied. cbn. by apply shift_ok, remove_ok.
  - intros s lh ts q' E. unfold triggerTxSet in E. apply bind_ok_inv in E as ([ts0 r] & _ & [= <- <-]). by apply remove_ok.
Qed.

(** Claim C21: A node only keeps transactions whose fees can be paid.  When
    [recvTransaction] answers that a transaction is pending, it was not known, it is
    valid after all pending transactions of its account, its place is in the youngest
    generation and nothing else changes; and the fees of all pending transactions of
    the account together, which do not overflow, are at most the balance that is
    available.  The other two answers leave the queue alone. *)
Theorem pending_fees_are_covered {SS : StdSort} {HS : SetHash} {U : UInt128} {K : StrKeyOrder} {C : Crypto} {HT : TxHash}
    s tx q st q' :
  let a := getSourceIDOf tx in
  queue_ok q -> Forall fee_ok (tx :: account_txs a q) ->
  (Z.of_nat (length (account_txs a q)) + 1) * UINT32_MAX <= INT64_MAX ->
  recvTransaction s tx q = Ok (st, q') ->
  match st with
  | TX_STATUS_PENDING =>
      checkTx s tx (getMaxSeqInPendingTxs a q) = Ok true /\
      account_txs a q' ≡ₚ tx :: account_txs a q /\
      (forall i b h, look_at q' i b h =
         if decide (i = 0%nat /\ b = a /\ h = getFullHash tx) then Some tx else look_at q i b h) /\
      (forall i, look_at q i a (getFullHash tx) = None) /\
      exists available, availableOf s a = Ok available /\ 0 <= fees (account_txs a q') <= available
  | TX_STATUS_DUPLICATE => q' = q /\ exists i, is_Some (look_at q i a (getFullHash tx))
  | TX_STATUS_ERROR => q' = q
  end.
Proof.
  intros a Hq Hf Hlen E. pose proof (proj1 (Forall_cons _ _ _) Hf) as [Hfee _].
  pose proof (recv_cases s tx q st q' Hq Hfee E) as H. cbv zeta in H. fold a in H. destruct st; [|done|by destruct H as [-> _]].
  destruct H as (_ & Hp & Hn & Hl & Hc & av & Ea & Hle). rewrite getMaxSeq_spec by apply Hq.
  split; [done|]. split; [done|]. split; [done|]. split; [done|]. exists av. split; [done|].
  rewrite (fees_perm _ _ Hp). pose proof (fees_bound _ Hf) as Hb. cbn [length] in Hb. cbn [fees foldr] in *. fold (fees (account_txs a q)) in *.
  rewrite i64_id in Hle by zlia. lia.
Qed.

(** A pending transaction leaves the queue with the ledger that contains it,
    or after four ledgers.  When a ledger with the transactions [applied] has closed,
    a transaction that is not one of them moves from its generation to the next, one
    of the oldest generation is forgotten, and the youngest is empty; what is
    broadcast again are the transactions that are still pending.  After four ledgers
    nothing is left of the queue. *)
Theorem pending_transactions_expire {SS : StdSort} {HS : SetHash} {U : UInt128} {K : StrKeyOrder} {C : Crypto} {HT : TxHash} q :
  queue_ok q ->
  (forall applied i a h, look_at (fst (updatePendingTransactions applied q)) i a h =
     match i with
     | O => None
     | S i => if (i <? 3)%nat then if named_dec applied a h then None else look_at q i a h else None
     end) /\
  (forall applied, snd (updatePendingTransactions applied q) ≡ₚ allPending (fst (updatePendingTransactions applied q))) /\
  (forall l1 l2 l3 l4 i a h,
     let next applied q := fst (updatePendingTransactions applied q) in
     look_at (next l4 (next l3 (next l2 (next l1 q)))) i a h = None).
Proof.
  intros Hq. assert (Hup : forall q applied i a h, queue_ok q -> look_at (fst (updatePendingTransactions applied q)) i a h =
     match i with
     | O => None
     | S i => if (i <? 3)%nat then if named_dec applied a h then None else look_at q i a h else None
     end).
  { intros q0 applied i a h Hq0. cbn [updatePendingTransactions fst]. rewrite shift_look by apply (qo_length _ (remove_ok _ _ Hq0)).
    destruct i as [|i]; [done|]. destruct (i <? 3)%nat; [|done]. by rewrite remove_look by apply Hq0. }
  assert (Hok : forall applied q, queue_ok q -> queue_ok (fst (updatePendingTransactions applied q)))
    by (intros applied q0 H; cbn; by apply shift_ok, remove_ok).
  split; [intros; by apply Hup|]. split.
  - intros applied. cbn [updatePendingTransactions fst snd]. rewrite sortForApply_perm, addTx_all. done.
  - intros l1 l2 l3 l4 i a h. cbv beta zeta.
    do 4 (rewrite Hup by auto 10; destruct i as [|i]; [done|]; destruct (i <? 3)%nat eqn:?; [|done]; destruct (named_dec _ _ _); [done|]).
    by destruct i.
Qed.
