(* ===== verification/HerderQueueRuns.v ===== *)
(** * The queue of pending transactions on a concrete ledger *)
From S2P Require Import Prelude Numeric Exchange LedgerEntries TransactionUtils LedgerTxn OfferBook LedgerState.
From S2P Require Import Operations OfferOperations SubEntries Signatures InvariantManager Transactions TransactionRuns.
From S2P Require Import TxSet TxSetOrder TxSetProposal TxSetRuns HerderQueue HerderQueueSafety.

(** two transactions of account 1 are pending, one since the last ledger *)
Definition queue1 : PendingTxs :=
  match recvTransaction small_state (signedTx 4 1 150 8) newPending with Ok (_, q) => fst (updatePendingTransactions [] q) | Throw _ => [] end.
Definition queue2 : PendingTxs :=
  match recvTransaction small_state (signedTx 1 1 150 9) queue1 with Ok (_, q) => q | Throw _ => [] end.

Lemma queue1_ok : queue_ok queue1.
Proof.
  destruct (recvTransaction small_state (signedTx 4 1 150 8) newPending) as [[st q]|e] eqn:E; [|by vm_compute in E].
  unfold queue1. rewrite E. cbn [updatePendingTransactions fst]. apply shift_ok, remove_ok.
  assert (Hst : st = TX_STATUS_PENDING) by (vm_compute in E; congruence). subst st.
  apply (recv_cases small_state (signedTx 4 1 150 8) newPending TX_STATUS_PENDING q newPending_ok); [split; by vm_compute|done].
Qed.

Lemma pending_queue_is_consistent_witness : queue_ok queue2 /\ queue_ok (removeReceivedTxs [signedTx 4 1 150 8] queue1).
Proof.
  split.
  - destruct (recvTransaction small_state (signedTx 1 1 150 9) queue1) as [[st q]|e] eqn:E; [|by vm_compute in E].
    unfold queue2. rewrite E.
    apply (proj1 (proj2 pending_queue_is_consistent queue1 queue1_ok) small_state (signedTx 1 1 150 9) st q); [split; by vm_compute|exact E].
  - apply (proj1 (proj2 (proj2 pending_queue_is_consistent queue1 queue1_ok))).
Defined.

(** the third transaction is valid after the other two, and its fee is covered *)
Lemma pending_fees_are_covered_witness :
  exists q' available, recvTransaction small_state (signedTx 1 1 150 9) queue1 = Ok (TX_STATUS_PENDING, q') /\
    availableOf small_state 1 = Ok available /\ fees (account_txs 1 q') <= available /\ fees (account_txs 1 q') = 300.
Proof.
  destruct (recvTransaction small_state (signedTx 1 1 150 9) queue1) as [[st q]|e] eqn:E; [|by vm_compute in E].
  assert (Hst : st = TX_STATUS_PENDING) by (vm_compute in E; congruence). subst st.
  destruct (pending_fees_are_covered small_state (signedTx 1 1 150 9) queue1 TX_STATUS_PENDING q queue1_ok) as (_ & _ & _ & _ & av & Ha & Hf).
  - repeat constructor; by vm_compute.
  - by vm_compute.
  - exact E.
  - exists q, av. split; [reflexivity|]. split; [exact Ha|]. split; [apply Hf|]. vm_compute in E. injection E as <-. by vm_compute.
Defined.

Lemma pending_transactions_expire_witness :
  look_at queue1 1 1 (getFullHash (signedTx 4 1 150 8)) = Some (signedTx 4 1 150 8) /\
  look_at (fst (updatePendingTransactions [] queue1)) 2 1 (getFullHash (signedTx 4 1 150 8)) = Some (signedTx 4 1 150 8).
Proof.
  split; [by vm_compute|]. rewrite (proj1 (pending_transactions_expire queue1 queue1_ok) [] 2%nat). by vm_compute.
Defined.
