(* ===== verification/Checkpoints.v ===== *)
(** * Checkpoints, and the range of a catch-up

    The arithmetic of history/HistoryManagerImpl.cpp on checkpoints, the ranges of
    ledger/LedgerRange.cpp and ledger/CheckpointRange.cpp, the configuration of
    catchup/CatchupConfiguration.cpp, and the choice of the range in
    catchup/CatchupWork.cpp.  Ledger numbers have 32 bits. *)
From S2P Require Import Prelude LedgerEntries.

(** the part of [Config] that the arithmetic depends on *)
Class HistoryConfig := { ARTIFICIALLY_ACCELERATE_TIME_FOR_TESTING : bool }.

Definition GENESIS_LEDGER_SEQ : Z := 1.
(** [LedgerNumHashPair] *)
Notation LedgerNumHashPair := (Z * option Hash)%type.

Record LedgerRange := mkLedgerRange { lr_first : Z; lr_last : Z }.
Record CheckpointRange := mkCheckpointRange { cr_first : Z; cr_last : Z; cr_frequency : Z }.
Record CatchupConfiguration := mkCatchupConfiguration { cc_count : Z; cc_toLedger : Z; cc_hash : option Hash }.

(** [CatchupConfiguration::CURRENT] *)
Definition CURRENT : Z := 0.

Definition resolveConfiguration (cfg : CatchupConfiguration) (remoteCheckpoint : Z) : CatchupConfiguration :=
  if cc_toLedger cfg =? CURRENT then mkCatchupConfiguration (cc_count cfg) remoteCheckpoint None
  else mkCatchupConfiguration (cc_count cfg) (cc_toLedger cfg) (cc_hash cfg).

Section Code.
Context {HC : HistoryConfig}.

(** ** HistoryManagerImpl *)

Definition getCheckpointFrequency : Z := if ARTIFICIALLY_ACCELERATE_TIME_FOR_TESTING then 8 else 64.

Definition prevCheckpointLedger (ledger : Z) : Z :=
  u32 (ledger / getCheckpointFrequency * getCheckpointFrequency).

Definition nextCheckpointLedger (ledger : Z) : Z :=
  if ledger =? 0 then getCheckpointFrequency
  else u32 (u32 (u32 (ledger + getCheckpointFrequency) - 1) / getCheckpointFrequency * getCheckpointFrequency).

Definition checkpointContainingLedger (ledger : Z) : Z := u32 (nextCheckpointLedger (u32 (ledger + 1)) - 1).

(** ** Ranges *)

Definition LedgerRange_new (first last : Z) : res LedgerRange :=
  _ ← assert_ (0 <? first);
  _ ← assert_ (first <=? last);
  Ok (mkLedgerRange first last).

Definition CheckpointRange_new (ledgerRange : LedgerRange) : res CheckpointRange :=
  let first := checkpointContainingLedger (lr_first ledgerRange) in
  let last := checkpointContainingLedger (lr_last ledgerRange) in
  _ ← assert_ (0 <? first);
  _ ← assert_ (first <=? last);
  _ ← assert_ (u32 (first + 1) mod getCheckpointFrequency =? 0);
  _ ← assert_ (u32 (last + 1) mod getCheckpointFrequency =? 0);
  Ok (mkCheckpointRange first last getCheckpointFrequency).

Definition cr_count (r : CheckpointRange) : Z := u32 (u32 (cr_last r - cr_first r) / cr_frequency r + 1).

(** ** The range of a catch-up *)

Definition firstNotFinishedCheckpoint (lastClosedLedger : Z) : Z :=
  let result := checkpointContainingLedger lastClosedLedger in
  if lastClosedLedger <? result then result else u32 (result + getCheckpointFrequency).

Definition firstNeededLedger (configuration : CatchupConfiguration) : Z :=
  let neededCount := Z.max (cc_count configuration) 1 in
  if neededCount <? cc_toLedger configuration then u32 (u32 (cc_toLedger configuration - neededCount) + 1)
  else GENESIS_LEDGER_SEQ.

Definition computeCatchupStart (smallestLedgerToApply smallestBucketApplyCheckpoint : Z) : bool * Z :=
  let smallestCheckpointToApply := checkpointContainingLedger smallestLedgerToApply in
  if smallestLedgerToApply =? smallestCheckpointToApply then (true, smallestCheckpointToApply)
  else if smallestLedgerToApply <? u32 (getCheckpointFrequency - 1) then (false, smallestLedgerToApply)
  else
    let smallestCheckpointToApply := u32 (smallestCheckpointToApply - getCheckpointFrequency) in
    if smallestBucketApplyCheckpoint <=? smallestCheckpointToApply then (true, smallestCheckpointToApply)
    else (false, smallestLedgerToApply).

Definition makeCatchupRange (lastClosedLedger : Z) (configuration : CatchupConfiguration) : res (LedgerRange * bool) :=
  _ ← assert_ (0 <? lastClosedLedger);
  _ ← assert_ (lastClosedLedger <=? cc_toLedger configuration);
  _ ← assert_ (negb (cc_toLedger configuration =? CURRENT));
  let smallestLedgerToApply := Z.max (firstNeededLedger configuration) lastClosedLedger in
  let smallestBucketApplyCheckpoint := firstNotFinishedCheckpoint lastClosedLedger in
  let '(buckets, start) := computeCatchupStart smallestLedgerToApply smallestBucketApplyCheckpoint in
  range ← LedgerRange_new start (cc_toLedger configuration);
  if buckets && (start <=? u32 (lastClosedLedger + 1)) then Ok (range, false) else Ok (range, buckets).

(** ** The checkpoint of a ledger *)

Lemma frequency_cases : getCheckpointFrequency = 8 \/ getCheckpointFrequency = 64.
Proof. unfold getCheckpointFrequency. destruct ARTIFICIALLY_ACCELERATE_TIME_FOR_TESTING; auto. Qed.

(** what every ledger number that the arithmetic is used on satisfies *)
Definition is_ledger (l : Z) : Prop := 0 <= l <= UINT32_MAX - getCheckpointFrequency.

Lemma checkpoint_of l :
  is_ledger l -> checkpointContainingLedger l = l / getCheckpointFrequency * getCheckpointFrequency + getCheckpointFrequency - 1.
Proof.
  unfold is_ledger, checkpointContainingLedger, nextCheckpointLedger, u32, UINT32_MAX. rewrite Zminus_mod_idemp_l.
  destruct frequency_cases as [-> | ->]; intros H; rewrite (Z.mod_small (l + 1)) by lia;
    case_match eqn:E; try lia; rewrite (Z.mod_small (l + 1 + _ - 1)) by lia;
    rewrite (Z.mod_small (_ / _ * _)) by (Z.to_euclidean_division_equations; lia);
    rewrite Z.mod_small by (Z.to_euclidean_division_equations; lia); Z.to_euclidean_division_equations; lia.
Qed.

(** the checkpoint of a ledger is the last of the multiples' predecessors around it *)
Lemma checkpoint_spec l :
  is_ledger l -> let c := checkpointContainingLedger l in
  c - getCheckpointFrequency < l <= c /\ (c + 1) mod getCheckpointFrequency = 0 /\ c <= UINT32_MAX.
Proof.
  intros H. cbn zeta. rewrite checkpoint_of by done. unfold is_ledger, UINT32_MAX in *.
  destruct frequency_cases as [E | E]; rewrite E in *; Z.to_euclidean_division_equations; lia.
Qed.

(** checkpoints are determined by a ledger of theirs *)
Lemma checkpoint_unique l c :
  is_ledger l -> c - getCheckpointFrequency < l <= c -> (c + 1) mod getCheckpointFrequency = 0 ->
  checkpointContainingLedger l = c.
Proof.
  intros H. rewrite checkpoint_of by done. 
  destruct frequency_cases as [E | E]; rewrite E in *; Z.to_euclidean_division_equations; lia.
Qed.

Lemma checkpoint_mono l1 l2 : is_ledger l1 -> is_ledger l2 -> l1 <= l2 -> checkpointContainingLedger l1 <= checkpointContainingLedger l2.
Proof.
  intros H1 H2 Hl. rewrite !checkpoint_of by done.
  destruct frequency_cases as [E | E]; rewrite E in *; Z.to_euclidean_division_equations; lia.
Qed.

Lemma LedgerRange_ok first last : 0 < first <= last -> LedgerRange_new first last = Ok (mkLedgerRange first last).
Proof. intros H. unfold LedgerRange_new. rewrite !assert_true by lia. done. Qed.

(** the range of checkpoints around a range of ledgers *)
Lemma CheckpointRange_ok r :
  0 < lr_first r <= lr_last r -> is_ledger (lr_last r) ->
  CheckpointRange_new r = Ok (mkCheckpointRange (checkpointContainingLedger (lr_first r))
                                (checkpointContainingLedger (lr_last r)) getCheckpointFrequency).
Proof.
  intros Hr Hl. assert (Hf : is_ledger (lr_first r)) by (unfold is_ledger in *; lia).
  destruct (checkpoint_spec _ Hf) as (H1 & H2 & H3), (checkpoint_spec _ Hl) as (H4 & H5 & H6).
  unfold CheckpointRange_new. cbn zeta. pose proof (checkpoint_mono _ _ Hf Hl ltac:(lia)).
  assert (Hs : forall c, 0 <= c <= UINT32_MAX -> (c + 1) mod getCheckpointFrequency = 0 -> u32 (c + 1) mod getCheckpointFrequency = 0).
  { unfold u32, UINT32_MAX. intros c Hc. destruct frequency_cases as [-> | ->]; Z.to_euclidean_division_equations; lia. }
  rewrite !assert_true by (try (apply Z.eqb_eq, Hs); lia). done.
Qed.

Lemma firstNeeded_spec cfg :
  0 < cc_toLedger cfg <= UINT32_MAX -> 0 <= cc_count cfg ->
  firstNeededLedger cfg = Z.max 1 (cc_toLedger cfg - Z.max (cc_count cfg) 1 + 1).
Proof. intros H Hc. unfold firstNeededLedger, GENESIS_LEDGER_SEQ. cbn zeta. case_match; rewrite ?u32_id; unfold is_u32, UINT32_MAX in *; rewrite ?u32_id; unfold is_u32, UINT32_MAX; lia. Qed.

(** where a catch-up starts: the flag is set when buckets are applied *)
Lemma catchupStart_spec small lcl :
  0 < lcl <= small -> is_ledger small ->
  let '(buckets, start) := computeCatchupStart small (firstNotFinishedCheckpoint lcl) in
  0 < start <= small /\
  if buckets : bool then checkpointContainingLedger start = start
  else start = small /\ checkpointContainingLedger small - getCheckpointFrequency <= lcl.
Proof.
  intros H Hs. assert (Hl : is_ledger lcl) by (unfold is_ledger in *; lia).
  unfold computeCatchupStart, firstNotFinishedCheckpoint. cbn zeta.
  destruct (checkpoint_spec _ Hs) as (H1 & H2 & H3), (checkpoint_spec _ Hl) as (H4 & H5 & H6).
  pose proof (checkpoint_unique small) as Hu.
  set (c := checkpointContainingLedger small) in *. set (d := checkpointContainingLedger lcl) in *.
  assert (Hf : 8 <= getCheckpointFrequency <= 64) by (destruct frequency_cases; lia).
  rewrite (u32_id (getCheckpointFrequency - 1)) by (unfold is_u32, UINT32_MAX; lia).
  destruct (Z.eqb_spec small c) as [Hn | Hn]; [split; [lia|]; rewrite <- Hn; symmetry; exact Hn|].
  destruct (Z.ltb_spec small (getCheckpointFrequency - 1)) as [E1 | E1].
  { split; [lia|]. split; [done|]. enough (c = getCheckpointFrequency - 1) by lia.
    apply Hu; [done|lia|]. rewrite Z.sub_add. apply Z_mod_same_full. }
  assert (Hc : getCheckpointFrequency < c).
  { clearbody c d. clear - H1 H2 H E1 Hf Hn. destruct frequency_cases as [E | E]; rewrite E in *; Z.to_euclidean_division_equations; lia. }
  assert (Hc2 : (c - getCheckpointFrequency + 1) mod getCheckpointFrequency = 0).
  { replace (c - _ + 1) with (c + 1 + (-1) * getCheckpointFrequency) by lia. by rewrite Z_mod_plus_full. }
  rewrite (u32_id (c - getCheckpointFrequency)) by (unfold is_u32, UINT32_MAX in *; lia).
  destruct (_ <=? c - getCheckpointFrequency) eqn:E.
  - split; [lia|]. apply checkpoint_unique; [unfold is_ledger in *; lia | lia | exact Hc2].
  - split; [lia|]. split; [done|]. apply Z.leb_gt in E. revert E.
    apply Z.mod_divide in H2 as [p Hp]; [|lia]. apply Z.mod_divide in H5 as [q Hq]; [|lia].
    set (f := getCheckpointFrequency) in *. destruct (Z.ltb_spec lcl d); intros E.
    + enough (p <= q) by nia. assert (f * p < f * (q + 1)) by lia. nia.
    + rewrite u32_id in E by (unfold is_u32, is_ledger, UINT32_MAX in *; lia).
      enough (p <= q + 1) by nia. assert (f * p < f * (q + 2)) by lia. nia.
Qed.

(** the range of a catch-up *)
Lemma catchup_range_ok lcl cfg :
  0 < lcl <= cc_toLedger cfg -> is_ledger (cc_toLedger cfg) -> 0 <= cc_count cfg ->
  exists first buckets cr,
    makeCatchupRange lcl cfg = Ok (mkLedgerRange first (cc_toLedger cfg), buckets) /\
    CheckpointRange_new (mkLedgerRange first (cc_toLedger cfg)) = Ok cr /\
    cr_first cr - getCheckpointFrequency < first <= cr_first cr /\
    cr_last cr - getCheckpointFrequency < cc_toLedger cfg <= cr_last cr /\
    cr_last cr = cr_first cr + (cr_count cr - 1) * getCheckpointFrequency /\
    (if buckets : bool then first = cr_first cr /\ lcl + 1 < first
     else cr_first cr - getCheckpointFrequency + 1 <= lcl + 1) /\
    first <= Z.max lcl (Z.max 1 (cc_toLedger cfg - Z.max (cc_count cfg) 1 + 1)).
Proof.
  intros Hl Ht Hc. set (small := Z.max (firstNeededLedger cfg) lcl).
  assert (Hsm : small = Z.max lcl (Z.max 1 (cc_toLedger cfg - Z.max (cc_count cfg) 1 + 1))).
  { unfold small. rewrite firstNeeded_spec by (unfold is_ledger, UINT32_MAX in *; destruct frequency_cases; lia). lia. }
  assert (Hs : is_ledger small) by (unfold is_ledger in *; lia).
  pose proof (catchupStart_spec small lcl ltac:(lia) Hs) as Hst.
  unfold makeCatchupRange. cbn zeta. fold small. rewrite !assert_true by (unfold CURRENT; lia). cbn [mbind res_bind].
  destruct (computeCatchupStart small (firstNotFinishedCheckpoint lcl)) as [b start]. destruct Hst as [H1 H2].
  rewrite LedgerRange_ok by lia. cbn [mbind res_bind].
  assert (Hcr := CheckpointRange_ok (mkLedgerRange start (cc_toLedger cfg)) ltac:(cbn; lia) Ht). cbn in Hcr.
  assert (Hi : is_ledger start) by (unfold is_ledger in *; lia).
  destruct (checkpoint_spec _ Hi) as (S1 & S2 & S3), (checkpoint_spec _ Ht) as (S4 & S5 & S6).
  pose proof (checkpoint_mono _ _ Hi Ht ltac:(lia)) as Hm.
  rewrite (u32_id (lcl + 1)) by (unfold is_u32, is_ledger, UINT32_MAX in *; destruct frequency_cases; lia).
  exists start, (if b && (start <=? lcl + 1) then false else b). eexists. split; [by destruct b, (start <=? lcl + 1)|]. split; [exact Hcr|].
  cbn [cr_first cr_last]. split; [lia|]. split; [lia|]. split.
  { unfold cr_count. cbn [cr_first cr_last cr_frequency].
    clearbody small. set (c := checkpointContainingLedger start) in *. set (d := checkpointContainingLedger (cc_toLedger cfg)) in *.
    clearbody c d. unfold is_ledger, UINT32_MAX in *.
    destruct frequency_cases as [E | E]; rewrite E in *; rewrite (u32_id (d - c)) by (unfold is_u32, UINT32_MAX; lia);
      rewrite u32_id by (unfold is_u32, UINT32_MAX; Z.to_euclidean_division_equations; lia);
      Z.to_euclidean_division_equations; lia. }
  split; [|lia]. destruct b; cbn [andb].
  - destruct (Z.leb_spec start (lcl + 1)); lia.
  - destruct H2 as [-> H2]. lia.
Qed.

(** Claim C22: The range of a catch-up connects to the local ledger and keeps enough
    history.  For a target that is not older than the last closed ledger and
    below the largest 32-bit numbers, no assertion fails, the range ends at the target and
    its checkpoints contain it.  With buckets it starts at the end of a checkpoint
    that is more than one ledger ahead; without them the files of its first
    checkpoint begin no later than the ledger after the last closed one.  It starts
    early enough for the requested number of ledgers. *)
Theorem catchup_range_connects lcl cfg :
  0 < lcl <= cc_toLedger cfg -> is_ledger (cc_toLedger cfg) -> 0 <= cc_count cfg ->
  exists first buckets cr,
    makeCatchupRange lcl cfg = Ok (mkLedgerRange first (cc_toLedger cfg), buckets) /\
    CheckpointRange_new (mkLedgerRange first (cc_toLedger cfg)) = Ok cr /\
    cr_first cr - getCheckpointFrequency < first <= cr_first cr /\
    cr_last cr - getCheckpointFrequency < cc_toLedger cfg <= cr_last cr /\
    cr_last cr = cr_first cr + (cr_count cr - 1) * getCheckpointFrequency /\
    (if buckets : bool then first = cr_first cr /\ lcl + 1 < first
     else cr_first cr - getCheckpointFrequency + 1 <= lcl + 1) /\
    first <= Z.max lcl (Z.max 1 (cc_toLedger cfg - Z.max (cc_count cfg) 1 + 1)).
Proof. apply catchup_range_ok. Qed.

End Code.
