(* ===== verification/VerifyChain.v ===== *)
(** * Verifying a chain of ledgers from an archive

    catchup/VerifyLedgerChainWork.cpp: the ledger headers that have been downloaded
    are verified checkpoint by checkpoint, from the last one backwards. *)
From S2P Require Import Prelude LedgerEntries Checkpoints TxSet LedgerClose.

(** [LedgerHeaderHistoryEntry] *)
Record LedgerHeaderHistoryEntry := mkHHE { hhe_hash : Hash; hhe_header : LedgerHeader }.

(** SHA-256 of the encoded header *)
Class HeaderHash := { headerHash : LedgerHeader -> Hash }.

(** what generated code initializes an entry to *)
Definition emptyHeader : LedgerHeader :=
  mkLedgerHeader 0 0 (mkEssaBlockChainValue 0 0 []) 0 0 0 0 0 0 0 0 0 0 [0; 0; 0; 0].
Definition emptyHHE : LedgerHeaderHistoryEntry := mkHHE 0 emptyHeader.

Definition hhe_seq (e : LedgerHeaderHistoryEntry) : Z := ledgerSeq (hhe_header e).
Definition hhe_prev (e : LedgerHeaderHistoryEntry) : Hash := previousLedgerHash (hhe_header e).

(** a downloaded file: the entries that can be read from it, and whether what
    follows them is not an entry *)
Record HistoryFile := mkHistoryFile { hf_entries : list LedgerHeaderHistoryEntry; hf_malformed : bool }.

Inductive LedgerVerificationStatus :=
| VERIFY_STATUS_OK
| VERIFY_STATUS_ERR_BAD_HASH
| VERIFY_STATUS_ERR_BAD_LEDGER_VERSION
| VERIFY_STATUS_ERR_OVERSHOT
| VERIFY_STATUS_ERR_UNDERSHOT
| VERIFY_STATUS_ERR_MISSING_ENTRIES.

(** the states of a [Work] that it is in after a round *)
Inductive WorkState := WORK_SUCCESS | WORK_RUNNING | WORK_FAILURE_RETRY | WORK_FAILURE_FATAL.

(** the constants of the work *)
Record VerifyWork := mkVerifyWork {
  vw_downloadDir : Z -> option HistoryFile;
  vw_range : LedgerRange;
  vw_lastClosed : Z * Hash;
  vw_trustedEndLedger : LedgerNumHashPair
}.
(** its state *)
Record VerifyState := mkVerifyState {
  vs_currCheckpoint : Z;
  vs_verifiedAhead : LedgerNumHashPair;
  vs_verifiedLedgerRangeStart : LedgerHeaderHistoryEntry
}.

Section Code.
Context {HC : HistoryConfig} {HH : HeaderHash}.

Definition verifyLedgerHistoryEntry (hhe : LedgerHeaderHistoryEntry) : LedgerVerificationStatus :=
  if headerHash (hhe_header hhe) =? hhe_hash hhe then VERIFY_STATUS_OK else VERIFY_STATUS_ERR_BAD_HASH.

Definition verifyLedgerHistoryLink (prev : Hash) (curr : LedgerHeaderHistoryEntry) : LedgerVerificationStatus :=
  match verifyLedgerHistoryEntry curr with
  | VERIFY_STATUS_OK => if prev =? hhe_prev curr then VERIFY_STATUS_OK else VERIFY_STATUS_ERR_BAD_HASH
  | entryResult => entryResult
  end.

Definition verifyLastLedgerInCheckpoint (ledger : LedgerHeaderHistoryEntry) (verifiedAhead : LedgerNumHashPair)
    : res LedgerVerificationStatus :=
  _ ← assert_ (hhe_seq ledger =? fst verifiedAhead);
  match snd verifiedAhead with
  | None => Ok VERIFY_STATUS_OK
  | Some trustedHash => Ok (if hhe_hash ledger =? trustedHash then VERIFY_STATUS_OK else VERIFY_STATUS_ERR_BAD_HASH)
  end.

(** the comparison of one header with the last closed ledger *)
Definition verifyLastClosed (w : VerifyWork) (curr : LedgerHeaderHistoryEntry) : LedgerVerificationStatus :=
  let '(lclSeq, lclHash) := vw_lastClosed w in
  if hhe_seq curr =? lclSeq then
    if headerHash (hhe_header curr) =? lclHash then VERIFY_STATUS_OK else VERIFY_STATUS_ERR_BAD_HASH
  else if hhe_seq curr =? u32 (lclSeq + 1) then verifyLedgerHistoryLink lclHash curr
  else VERIFY_STATUS_OK.

(** the comparison of one header with the one before it in the file; [prev] is empty
    at the beginning of the checkpoint.  Also the new [mVerifiedAhead]. *)
Definition verifyPrevious (prev : option LedgerHeaderHistoryEntry) (curr : LedgerHeaderHistoryEntry)
    (ahead : LedgerNumHashPair) : LedgerVerificationStatus * LedgerNumHashPair :=
  match prev with
  | None =>
      match verifyLedgerHistoryEntry curr with
      | VERIFY_STATUS_OK => (VERIFY_STATUS_OK, (u32 (hhe_seq curr - 1), Some (hhe_prev curr)))
      | hashResult => (hashResult, ahead)
      end
  | Some prev =>
      let expectedSeq := u32 (hhe_seq prev + 1) in
      if hhe_seq curr <? expectedSeq then (VERIFY_STATUS_ERR_UNDERSHOT, ahead)
      else if expectedSeq <? hhe_seq curr then (VERIFY_STATUS_ERR_OVERSHOT, ahead)
      else (verifyLedgerHistoryLink (hhe_hash prev) curr, ahead)
  end.

(** the loop over the file: the result, the last entry that was read and
    [mVerifiedAhead] *)
Fixpoint verifyEntries (w : VerifyWork) (malformed : bool) (entries : list LedgerHeaderHistoryEntry)
    (prev : option LedgerHeaderHistoryEntry) (ahead : LedgerNumHashPair)
    : res (LedgerVerificationStatus * LedgerHeaderHistoryEntry * LedgerNumHashPair) :=
  match entries with
  | [] => if malformed then Throw (RuntimeError "malformed XDR file") else Ok (VERIFY_STATUS_OK, default emptyHHE prev, ahead)
  | curr :: entries' =>
      if CURRENT_LEDGER_PROTOCOL_VERSION <? ledgerVersion (hhe_header curr)
      then Ok (VERIFY_STATUS_ERR_BAD_LEDGER_VERSION, curr, ahead)
      else
        match verifyLastClosed w curr with
        | VERIFY_STATUS_OK =>
            let '(linkResult, ahead) := verifyPrevious prev curr ahead in
            match linkResult with
            | VERIFY_STATUS_OK =>
                if hhe_seq curr =? lr_last (vw_range w) then Ok (VERIFY_STATUS_OK, curr, ahead)
                else verifyEntries w malformed entries' (Some curr) ahead
            | _ => Ok (linkResult, curr, ahead)
            end
        | lclResult => Ok (lclResult, curr, ahead)
        end
  end.

(** the checkpoint that the verification ends with *)
Definition firstCheckpoint (w : VerifyWork) : Z := checkpointContainingLedger (lr_first (vw_range w)).

Definition verifyHistoryOfSingleCheckpoint (w : VerifyWork) (st : VerifyState)
    : res (LedgerVerificationStatus * VerifyState) :=
  match vw_downloadDir w (vs_currCheckpoint st) with
  | None => Throw (RuntimeError "failed to open XDR file")
  | Some file =>
      '(status, curr, ahead) ← verifyEntries w (hf_malformed file) (hf_entries file) None (vs_verifiedAhead st);
      let st' := mkVerifyState (vs_currCheckpoint st) ahead (vs_verifiedLedgerRangeStart st) in
      match status with
      | VERIFY_STATUS_OK =>
          if negb (hhe_seq curr =? vs_currCheckpoint st) && negb (hhe_seq curr =? lr_last (vw_range w))
          then Ok (VERIFY_STATUS_ERR_MISSING_ENTRIES, st')
          else
            let nextCheckpointFirstLedger := vs_verifiedAhead st in
            nextCheckpointFirstLedger ←
              (if hhe_seq curr =? lr_last (vw_range w) then
                 _ ← assert_ (fst nextCheckpointFirstLedger =? 0);
                 Ok (vw_trustedEndLedger w)
               else
                 _ ← assert_ (bool_decide (is_Some (snd nextCheckpointFirstLedger)));
                 _ ← assert_ (negb (fst nextCheckpointFirstLedger =? 0));
                 Ok nextCheckpointFirstLedger);
            verifyTrustedHash ← verifyLastLedgerInCheckpoint curr nextCheckpointFirstLedger;
            match verifyTrustedHash with
            | VERIFY_STATUS_OK =>
                Ok (VERIFY_STATUS_OK,
                    mkVerifyState (vs_currCheckpoint st) ahead
                      (if vs_currCheckpoint st =? firstCheckpoint w then curr else vs_verifiedLedgerRangeStart st))
            | _ =>
                _ ← assert_ (bool_decide (is_Some (snd nextCheckpointFirstLedger)));
                Ok (verifyTrustedHash, st')
            end
      | _ => Ok (status, st')
      end
  end.

(** [VerifyLedgerChainWork::onReset] *)
Definition verify_onReset (w : VerifyWork) : VerifyState :=
  mkVerifyState (checkpointContainingLedger (lr_last (vw_range w))) (0, None) emptyHHE.

Definition verify_onSuccess (w : VerifyWork) (st : VerifyState) : res (WorkState * VerifyState) :=
  if vs_currCheckpoint st <? firstCheckpoint w
  then Throw (RuntimeError "Verification undershot first ledger in the range.")
  else
    '(status, st) ← verifyHistoryOfSingleCheckpoint w st;
    match status with
    | VERIFY_STATUS_OK =>
        if vs_currCheckpoint st =? firstCheckpoint w then Ok (WORK_SUCCESS, st)
        else Ok (WORK_RUNNING, mkVerifyState (u32 (vs_currCheckpoint st - getCheckpointFrequency))
                                 (vs_verifiedAhead st) (vs_verifiedLedgerRangeStart st))
    | _ => Ok (WORK_FAILURE_FATAL, st)
    end.

(** the scheduler runs the work again as long as it is [WORK_RUNNING] *)
Fixpoint verify_run (fuel : nat) (w : VerifyWork) (st : VerifyState) : res (WorkState * VerifyState) :=
  match fuel with
  | O => Throw OutOfFuel
  | S fuel =>
      '(ws, st) ← verify_onSuccess w st;
      match ws with
      | WORK_RUNNING => verify_run fuel w st
      | _ => Ok (ws, st)
      end
  end.

(** the work from its start, with one round for every checkpoint; the assertions are
    those of the constructor *)
Definition verifyLedgerChain (w : VerifyWork) : res (WorkState * VerifyState) :=
  _ ← assert_ (lr_last (vw_range w) =? fst (vw_trustedEndLedger w));
  range ← CheckpointRange_new (vw_range w);
  verify_run (Z.to_nat (cr_count range)) w (verify_onReset w).

End Code.
