(* ===== verification/VerifyChainSafety.v ===== *)
(** * A verified chain of ledgers is the chain below the trusted hash

    What the success of VerifyChain means, whatever the archive contains, and that
    the files of an honest archive are accepted. *)
From S2P Require Import Prelude LedgerEntries Checkpoints TxSet LedgerClose VerifyChain.

(** ** Chains *)

Section Chains.
Context {HC : HistoryConfig} {HH : HeaderHash}.
Notation Entry := LedgerHeaderHistoryEntry.

(** the hash of an entry is the hash of its header *)
Definition genuine (e : Entry) : Prop := hhe_hash e = headerHash (hhe_header e).
(** [b] is a successor of [a] *)
Definition follows (a b : Entry) : Prop := hhe_seq b = u32 (hhe_seq a + 1) /\ hhe_prev b = headerHash (hhe_header a).

Fixpoint linked (l : list Entry) : Prop :=
  match l with
  | a :: l' => match l' with [] => True | b :: _ => follows a b /\ linked l' end
  | [] => True
  end.

(** it agrees with the last closed ledger, and its protocol is supported *)
Definition agrees (w : VerifyWork) (e : Entry) : Prop :=
  (hhe_seq e = fst (vw_lastClosed w) -> headerHash (hhe_header e) = snd (vw_lastClosed w)) /\
  (hhe_seq e <> fst (vw_lastClosed w) -> hhe_seq e = u32 (fst (vw_lastClosed w) + 1) -> hhe_prev e = snd (vw_lastClosed w)) /\
  ledgerVersion (hhe_header e) <= CURRENT_LEDGER_PROTOCOL_VERSION.

(** the entries of a file up to the last one of the range *)
Fixpoint upTo (n : Z) (l : list Entry) : list Entry :=
  match l with
  | [] => []
  | e :: l' => if hhe_seq e =? n then [e] else e :: upTo n l'
  end.

(** what is verified of the file of a checkpoint, and of [n] checkpoints *)
Definition part (w : VerifyWork) (c : Z) : list Entry :=
  match vw_downloadDir w c with Some f => upTo (lr_last (vw_range w)) (hf_entries f) | None => [] end.
Fixpoint parts (w : VerifyWork) (c : Z) (n : nat) : list Entry :=
  match n with O => [] | S n => part w c ++ parts w (c + getCheckpointFrequency) n end.

Lemma linked_app l1 l2 :
  linked (l1 ++ l2) <-> linked l1 /\ linked l2 /\ (forall a b, last l1 = Some a -> head l2 = Some b -> follows a b).
Proof.
  induction l1 as [|a l1 IH]; cbn [app linked]; [naive_solver|].
  destruct l1 as [|a' l1]; cbn [app] in *.
  - destruct l2 as [|b l2]; [cbn; naive_solver|]. cbn. naive_solver.
  - rewrite IH. change (last (a :: a' :: l1)) with (last (a' :: l1)). naive_solver.
Qed.

(** the hash that the last ledger of the range is expected to have, if one is expected *)
Definition trusted (w : VerifyWork) (e : Entry) : Prop :=
  from_option (fun h => hhe_hash e = h) True (snd (vw_trustedEndLedger w)).

(** The work takes the number 0 in [mVerifiedAhead] to mean that nothing has been
    verified.  Hence a file that begins with ledger 1 may follow one that ends with
    the last ledger of the range, and the two are not compared. *)
Definition connects (w : VerifyWork) (a b : Entry) : Prop :=
  follows a b \/ hhe_seq a = lr_last (vw_range w) /\ hhe_seq b = 1.

Fixpoint chained (w : VerifyWork) (l : list Entry) : Prop :=
  match l with
  | a :: l' => match l' with [] => True | b :: _ => connects w a b /\ chained w l' end
  | [] => True
  end.

Lemma linked_chained w l : linked l -> chained w l.
Proof. induction l as [|a [|b l] IH]; cbn; [done..|]. intros [H1 H2]. split; [by left|]. by apply IH. Qed.

Lemma chained_app w l1 l2 :
  chained w l1 -> chained w l2 -> (forall a b, last l1 = Some a -> head l2 = Some b -> connects w a b) ->
  chained w (l1 ++ l2).
Proof.
  induction l1 as [|a l1 IH]; intros H1 H2 Hc; [done|]. cbn [app chained] in *.
  destruct l1 as [|a' l1]; cbn [app] in *.
  - destruct l2 as [|b l2]; [done|]. split; [by apply Hc|done].
  - destruct H1 as [Ha H1]. split; [done|]. by apply IH.
Qed.

Lemma chained_lookup w l i a b : chained w l -> l !! i = Some a -> l !! S i = Some b -> connects w a b.
Proof.
  revert i. induction l as [|x l IH]; [done|]. intros [|i] Hk; cbn.
  - intros [= <-] Hb. destruct l as [|y l]; [done|]. injection Hb as <-. apply Hk.
  - destruct l as [|y l]; [done|]. apply IH, Hk.
Qed.

Lemma parts_snoc w c n : parts w c (S n) = parts w c n ++ part w (c + Z.of_nat n * getCheckpointFrequency).
Proof.
  revert c. induction n as [|n IH]; intros c.
  - cbn [parts]. rewrite app_nil_r. cbn. f_equal. lia.
  - change (parts w c (S (S n))) with (part w c ++ parts w (c + getCheckpointFrequency) (S n)).
    rewrite IH. cbn [parts]. rewrite <- app_assoc. do 3 f_equal. lia.
Qed.

(** ** One file *)

Lemma verifyEntry_ok e : verifyLedgerHistoryEntry e = VERIFY_STATUS_OK <-> genuine e.
Proof. unfold verifyLedgerHistoryEntry, genuine. case_match eqn:E; split; intros; try done; lia. Qed.

Lemma verifyLink_ok p e : verifyLedgerHistoryLink p e = VERIFY_STATUS_OK <-> genuine e /\ hhe_prev e = p.
Proof.
  unfold verifyLedgerHistoryLink. rewrite <- verifyEntry_ok.
  destruct (verifyLedgerHistoryEntry e); try naive_solver. case_match eqn:E; naive_solver lia.
Qed.

Lemma verifyLastClosed_ok w e :
  verifyLastClosed w e = VERIFY_STATUS_OK -> ledgerVersion (hhe_header e) <= CURRENT_LEDGER_PROTOCOL_VERSION -> agrees w e.
Proof.
  unfold verifyLastClosed, agrees. destruct (vw_lastClosed w) as [s h]. cbn [fst snd].
  destruct (Z.eqb_spec (hhe_seq e) s); [case_match eqn:E; [|done]; intros; split_and!; try done; lia|].
  destruct (Z.eqb_spec (hhe_seq e) (u32 (s + 1))); [|naive_solver]. rewrite verifyLink_ok. naive_solver.
Qed.

Lemma verifyPrevious_ok prev e ahead ahead' :
  verifyPrevious prev e ahead = (VERIFY_STATUS_OK, ahead') ->
  genuine e /\
  match prev with
  | None => ahead' = (u32 (hhe_seq e - 1), Some (hhe_prev e))
  | Some p => ahead' = ahead /\ hhe_seq e = u32 (hhe_seq p + 1) /\ hhe_prev e = hhe_hash p
  end.
Proof.
  unfold verifyPrevious. destruct prev as [p|].
  - cbn zeta. repeat case_match; intros [= Hl <-]. apply verifyLink_ok in Hl as [H1 H2]. split_and!; try done. lia.
  - pose proof (verifyEntry_ok e) as He. case_match; intros [= <-]. naive_solver.
Qed.

(** what the loop has verified when it ends well *)
Lemma verifyEntries_ok w m l prev ahead e ahead' :
  verifyEntries w m l prev ahead = Ok (VERIFY_STATUS_OK, e, ahead') -> from_option genuine True prev ->
  let q := upTo (lr_last (vw_range w)) l in
  Forall (fun e => genuine e /\ agrees w e) q /\ linked (option_list prev ++ q) /\
  e = default (default emptyHHE prev) (last q) /\
  ahead' = match prev, q with None, e :: _ => (u32 (hhe_seq e - 1), Some (hhe_prev e)) | _, _ => ahead end.
Proof.
  revert prev ahead. induction l as [|c l IH]; intros prev ahead; cbn [verifyEntries upTo].
  - case_match; [done|]. intros [= <- <-] _. cbn. split_and!; [by constructor|by destruct prev|done|by destruct prev].
  - case_match eqn:Ev; [done|]. destruct (verifyLastClosed w c) eqn:El; try done.
    apply verifyLastClosed_ok in El; [|lia].
    destruct (verifyPrevious prev c ahead) as [s ah] eqn:Ep. destruct s; try done.
    apply verifyPrevious_ok in Ep as [Hg Hp].
    assert (Hl : forall q', from_option genuine True prev -> linked (c :: q') -> linked (option_list prev ++ c :: q')).
    { intros q' Hgp Hq. destruct prev as [p|]; [|done]. cbn [option_list app]. split; [|done].
      cbn in Hgp. split; [by destruct Hp as (_ & ? & _)|]. destruct Hp as (_ & _ & ->). exact Hgp. }
    destruct (hhe_seq c =? lr_last (vw_range w)).
    + intros [= <- <-] Hgp. cbn. split_and!; [by constructor; [|constructor]|by apply Hl|done|].
      destruct prev; [by destruct Hp|done].
    + intros Hr Hgp. apply IH in Hr as (H1 & H2 & H3 & H4); [|done]. cbn zeta in *.
      split_and!; [by constructor|by apply Hl| |].
      * rewrite H3. cbn [default]. destruct (upTo _ l) as [|x q]; [done|].
        change (last (c :: x :: q)) with (last (x :: q)). destruct (last (x :: q)) eqn:E; [done|].
        by apply last_None in E.
      * rewrite H4. destruct prev; [by destruct Hp|done].
Qed.

(** the number of the last ledger occurs at the end of a part only *)
Lemma upTo_end n l e : e ∈ upTo n l -> hhe_seq e = n -> last (upTo n l) = Some e.
Proof.
  induction l as [|x l IH]; cbn; [set_solver|]. destruct (Z.eqb_spec (hhe_seq x) n).
  - intros ->%list_elem_of_singleton. done.
  - intros [-> | He]%elem_of_cons Hs; [done|]. rewrite <- (IH He Hs). destruct (upTo n l); [set_solver|done].
Qed.
Lemma part_end w c e : e ∈ part w c -> hhe_seq e = lr_last (vw_range w) -> last (part w c) = Some e.
Proof. unfold part. destruct (vw_downloadDir w c); [apply upTo_end|set_solver]. Qed.

(** ** Checkpoints *)

Lemma head_app_ne (a b : list Entry) : a <> [] -> head (a ++ b) = head a.
Proof. by destruct a. Qed.

Lemma last_default (l : list Entry) d : l <> [] -> last l = Some (default d (last l)).
Proof. intros H. destruct (last l) eqn:E; [done|]. by apply last_None in E. Qed.

(** a checkpoint that is verified: it continues what is ahead of it *)
Lemma verifyCheckpoint_ok w st st' :
  0 < vs_currCheckpoint st -> 0 < lr_last (vw_range w) ->
  verifyHistoryOfSingleCheckpoint w st = Ok (VERIFY_STATUS_OK, st') ->
  exists e first, let q := part w (vs_currCheckpoint st) in
    last q = Some e /\ head q = Some first /\ linked q /\ Forall (fun e => genuine e /\ agrees w e) q /\
    st' = mkVerifyState (vs_currCheckpoint st) (u32 (hhe_seq first - 1), Some (hhe_prev first))
            (if vs_currCheckpoint st =? firstCheckpoint w then e else vs_verifiedLedgerRangeStart st) /\
    (if hhe_seq e =? lr_last (vw_range w)
     then fst (vs_verifiedAhead st) = 0 /\ hhe_seq e = fst (vw_trustedEndLedger w) /\
          from_option (fun h => hhe_hash e = h) True (snd (vw_trustedEndLedger w))
     else hhe_seq e = fst (vs_verifiedAhead st) /\ snd (vs_verifiedAhead st) = Some (hhe_hash e)).
Proof.
  intros Hc Hr. unfold verifyHistoryOfSingleCheckpoint, part.
  destruct (vw_downloadDir w (vs_currCheckpoint st)) as [f|]; [|done].
  intros (x & He & H)%bind_ok_inv. destruct x as [[s e] ahead]. destruct s; try done.
  apply verifyEntries_ok in He as (H1 & H2 & H3 & H4); [|done]. cbn [option_list app from_option default] in *.
  set (q := upTo (lr_last (vw_range w)) (hf_entries f)) in *.
  destruct (negb (hhe_seq e =? vs_currCheckpoint st) && negb (hhe_seq e =? lr_last (vw_range w))) eqn:En; [done|].
  assert (Hq : q <> []). { intros Hq. rewrite Hq in H3. cbn in H3. subst e. change (hhe_seq emptyHHE) with 0 in En. lia. }
  destruct q as [|first q'] eqn:Eq; [done|]. exists e, first. cbn zeta.
  cbv zeta in H. apply bind_ok_inv in H as (nx & Hn & H). apply bind_ok_inv in H as (vt & Hv & H).
  unfold verifyLastLedgerInCheckpoint in Hv. apply bind_ok_inv in Hv as (_ & Ha%assert_ok_inv & Hv).
  apply Z.eqb_eq in Ha.
  assert (Hok : vt = VERIFY_STATUS_OK /\ st' = mkVerifyState (vs_currCheckpoint st) ahead
     (if vs_currCheckpoint st =? firstCheckpoint w then e else vs_verifiedLedgerRangeStart st)).
  { destruct vt; try (apply bind_ok_inv in H as (_ & _ & H); congruence). injection H as <-. done. }
  destruct Hok as [-> ->]. clear H.
  split_and!; try done; [rewrite H3; by apply last_default|by rewrite H4|].
  destruct (hhe_seq e =? lr_last (vw_range w)).
  - apply bind_ok_inv in Hn as (_ & Hz%assert_ok_inv & [= <-]). split_and!; [lia|done|].
    destruct (snd (vw_trustedEndLedger w)); [|done]. cbn. case_match; [lia|congruence].
  - apply bind_ok_inv in Hn as (_ & Hz%assert_ok_inv & Hn). apply bind_ok_inv in Hn as (_ & _ & [= <-]).
    apply bool_decide_eq_true in Hz as [h Hh]. rewrite Hh in *. split; [done|]. f_equal. case_match; [lia|congruence].
Qed.

Lemma verifyHistory_keeps w st status st' :
  verifyHistoryOfSingleCheckpoint w st = Ok (status, st') -> vs_currCheckpoint st' = vs_currCheckpoint st.
Proof.
  unfold verifyHistoryOfSingleCheckpoint. destruct (vw_downloadDir w _) as [f|]; [|done].
  intros ([[s e] ahead] & _ & H)%bind_ok_inv. cbv zeta in H. destruct s; try by injection H as _ <-.
  destruct (_ && _) in H; [by injection H as _ <-|]. apply bind_ok_inv in H as (nx & _ & H). apply bind_ok_inv in H as (vt & _ & H).
  destruct vt; try by injection H as _ <-. all: apply bind_ok_inv in H as (_ & _ & H); by injection H as _ <-.
Qed.

(** ** All checkpoints *)

(** what is verified of an entry *)
Definition verified_entry (w : VerifyWork) (e : Entry) : Prop :=
  genuine e /\ agrees w e /\ (hhe_seq e = lr_last (vw_range w) -> trusted w e).

(** what has been verified so far, and the expectation that it leaves behind *)
Definition verified (w : VerifyWork) (ahead : LedgerNumHashPair) (l : list Entry) : Prop :=
  chained w l /\ Forall (verified_entry w) l /\
  match head l with
  | None => ahead = (0, None)
  | Some a =>
      ahead = (u32 (hhe_seq a - 1), Some (hhe_prev a)) /\
      exists e, last l = Some e /\ hhe_seq e = lr_last (vw_range w)
  end.

(** ledger numbers have 32 bits *)
Definition typed_files (w : VerifyWork) : Prop :=
  forall c f, vw_downloadDir w c = Some f -> Forall (fun e => is_u32 (hhe_seq e)) (hf_entries f).

Lemma head_upTo n l e : head (upTo n l) = Some e -> head l = Some e.
Proof. destruct l as [|a l]; [done|]. cbn. by case_match. Qed.

Lemma seq_back a e : is_u32 (hhe_seq a) -> is_u32 (hhe_seq e) -> hhe_seq e = u32 (hhe_seq a - 1) -> hhe_seq a = u32 (hhe_seq e + 1).
Proof. unfold is_u32, u32, UINT32_MAX. intros. rewrite H1, Zplus_mod_idemp_l. rewrite Z.mod_small; lia. Qed.

Lemma part_head w c e : head (part w c) = Some e -> exists f, vw_downloadDir w c = Some f /\ head (hf_entries f) = Some e.
Proof. unfold part. destruct (vw_downloadDir w c) as [f|]; [|done]. intros H%head_upTo. eauto. Qed.

(** one more checkpoint *)
Lemma verified_step w st st' l :
  0 < vs_currCheckpoint st -> 0 < lr_last (vw_range w) -> lr_last (vw_range w) = fst (vw_trustedEndLedger w) ->
  typed_files w ->
  (forall a, head l = Some a -> is_u32 (hhe_seq a)) ->
  verified w (vs_verifiedAhead st) l -> verifyHistoryOfSingleCheckpoint w st = Ok (VERIFY_STATUS_OK, st') ->
  verified w (vs_verifiedAhead st') (part w (vs_currCheckpoint st) ++ l) /\
  vs_currCheckpoint st' = vs_currCheckpoint st /\ part w (vs_currCheckpoint st) <> [] /\
  (vs_currCheckpoint st = firstCheckpoint w -> last (part w (vs_currCheckpoint st)) = Some (vs_verifiedLedgerRangeStart st')).
Proof.
  intros Hc Hr Ht Hty Hh (V1 & V2 & V3) H.
  apply verifyCheckpoint_ok in H as (e & a & Hl & Ha & Hq & Hf & -> & Hend); [|done..].
  set (q := part w (vs_currCheckpoint st)) in *. assert (Hne : q <> []) by (by intros E; rewrite E in Hl).
  cbn [vs_verifiedAhead vs_currCheckpoint vs_verifiedLedgerRangeStart].
  assert (Hge : genuine e) by (apply last_Some in Hl as [q' ->]; apply Forall_app in Hf as [_ Hf]; by inversion Hf as [|?? [? _]]).
  assert (Htr : hhe_seq e = lr_last (vw_range w) -> trusted w e).
  { intros E. rewrite (proj2 (Z.eqb_eq _ _) E) in Hend. apply Hend. }
  assert (Hv : Forall (verified_entry w) q).
  { rewrite Forall_forall in Hf |- *. intros x Hx. destruct (Hf x Hx) as [G A]. split_and!; try done.
    intros E. pose proof (part_end w (vs_currCheckpoint st) x Hx E) as Hz. fold q in Hz. rewrite Hl in Hz. injection Hz as <-. by apply Htr. }
  split_and!; [|done|done|by intros ->; rewrite Z.eqb_refl]. unfold verified. rewrite head_app_ne, Ha by done. rewrite Forall_app.
  destruct l as [|b l].
  - rewrite app_nil_r. cbn in V3. rewrite V3 in Hend. cbn [fst snd] in Hend.
    split_and!; try done; [by apply linked_chained|]. exists e.
    destruct (Z.eqb_spec (hhe_seq e) (lr_last (vw_range w))); [done|by destruct Hend].
  - cbn [head] in *. destruct V3 as (Hah & z & Hz & Hz1). rewrite Hah in Hend. cbn [fst snd] in Hend.
    pose proof (Hh b eq_refl) as Hb1.
    split_and!; try done; [|exists z; split; [by rewrite last_app_cons|done]].
    apply chained_app; [by apply linked_chained|done|]. intros x y Hx [= <-]. rewrite Hl in Hx. injection Hx as <-.
    destruct (Z.eqb_spec (hhe_seq e) (lr_last (vw_range w))) as [E | E].
    + right. split; [done|]. destruct Hend as [Hend _]. unfold u32, is_u32, UINT32_MAX in *.
      Z.to_euclidean_division_equations; lia.
    + left. destruct Hend as [He1 He2]. split; [|by rewrite <- Hge; congruence].
      apply seq_back; [done| |done]. rewrite He1. apply u32_range.
Qed.

(** all of them, from the last one back to the first *)
Lemma verify_run_ok w n st st' l :
  0 < firstCheckpoint w -> 0 < lr_last (vw_range w) <= UINT32_MAX -> lr_last (vw_range w) = fst (vw_trustedEndLedger w) ->
  typed_files w ->
  vs_currCheckpoint st = firstCheckpoint w + (Z.of_nat n - 1) * getCheckpointFrequency -> vs_currCheckpoint st <= UINT32_MAX ->
  (forall a, head l = Some a -> is_u32 (hhe_seq a)) ->
  verified w (vs_verifiedAhead st) l -> verify_run n w st = Ok (WORK_SUCCESS, st') ->
  verified w (vs_verifiedAhead st') (parts w (firstCheckpoint w) n ++ l) /\
  last (part w (firstCheckpoint w)) = Some (vs_verifiedLedgerRangeStart st') /\ parts w (firstCheckpoint w) n <> [].
Proof.
  intros Hc Hr Ht Hty. revert st l. induction n as [|n IH]; intros st l Hst Hu Hh Hv; [done|].
  assert (Hfr : 0 < getCheckpointFrequency) by (destruct frequency_cases; lia).
  cbn [verify_run]. intros (x & Hs & H)%bind_ok_inv. destruct x as [ws s1]. unfold verify_onSuccess in Hs.
  assert (Hge : firstCheckpoint w <= vs_currCheckpoint st) by nia.
  destruct (Z.ltb_spec (vs_currCheckpoint st) (firstCheckpoint w)); [lia|].
  apply bind_ok_inv in Hs as (x & Hx & Hs). destruct x as [status s2].
  destruct status; try (injection Hs as <- <-; by injection H).
  eapply verified_step in Hx as (V & Hcur & Hne & Hstart); [|done || lia..]. rewrite Hcur in Hs.
  assert (Hp : parts w (firstCheckpoint w) (S n) = parts w (firstCheckpoint w) n ++ part w (vs_currCheckpoint st)).
  { rewrite parts_snoc. do 2 f_equal. lia. }
  rewrite Hp, <- app_assoc.
  destruct (Z.eqb_spec (vs_currCheckpoint st) (firstCheckpoint w)) as [E | E].
  - injection Hs as <- <-. injection H as <-. assert (n = 0)%nat as -> by nia. cbn [parts app]. rewrite <- E.
    split_and!; try done. by apply Hstart.
  - injection Hs as <- <-. assert (Hn : (0 < n)%nat) by nia.
    destruct n as [|n]; [lia|].
    apply (IH _ (part w (vs_currCheckpoint st) ++ l)) in H as (H1 & H2 & H3).
    + split_and!; try done. by destruct (parts w (firstCheckpoint w) (S n)).
    + cbn [vs_currCheckpoint]. rewrite u32_id by (unfold is_u32, UINT32_MAX in *; nia). lia.
    + cbn [vs_currCheckpoint]. rewrite u32_id by (unfold is_u32, UINT32_MAX in *; nia). lia.
    + rewrite head_app_ne by done. intros a (f & Hf & Ha)%part_head.
      pose proof (Hty _ _ Hf) as Hty'. destruct (hf_entries f); [done|]. injection Ha as ->. by inversion Hty'.
    + exact V.
Qed.

Lemma CheckpointRange_eq w :
  0 < lr_first (vw_range w) <= lr_last (vw_range w) -> is_ledger (lr_last (vw_range w)) ->
  CheckpointRange_new (vw_range w) =
    Ok (mkCheckpointRange (firstCheckpoint w) (checkpointContainingLedger (lr_last (vw_range w))) getCheckpointFrequency).
Proof. intros. by apply CheckpointRange_ok. Qed.

(** the number of rounds *)
Definition rounds (w : VerifyWork) : nat :=
  Z.to_nat (cr_count (mkCheckpointRange (firstCheckpoint w) (checkpointContainingLedger (lr_last (vw_range w))) getCheckpointFrequency)).

Lemma rounds_spec w :
  0 < lr_first (vw_range w) <= lr_last (vw_range w) -> is_ledger (lr_last (vw_range w)) ->
  checkpointContainingLedger (lr_last (vw_range w)) = firstCheckpoint w + (Z.of_nat (rounds w) - 1) * getCheckpointFrequency /\
  0 < firstCheckpoint w /\ (0 < rounds w)%nat.
Proof.
  intros Hr Hl. assert (Hi : is_ledger (lr_first (vw_range w))) by (unfold is_ledger in *; lia).
  unfold rounds, firstCheckpoint, cr_count. cbn [cr_first cr_last cr_frequency].
  destruct (checkpoint_spec _ Hi) as (S1 & S2 & S3), (checkpoint_spec _ Hl) as (S4 & S5 & S6).
  pose proof (checkpoint_mono _ _ Hi Hl ltac:(lia)) as Hm.
  set (c := checkpointContainingLedger (lr_first _)) in *. set (d := checkpointContainingLedger (lr_last _)) in *. clearbody c d.
  unfold is_ledger, UINT32_MAX in *.
  destruct frequency_cases as [E | E]; rewrite E in *; rewrite (u32_id (d - c)) by (unfold is_u32, UINT32_MAX; lia);
    rewrite u32_id by (unfold is_u32, UINT32_MAX; Z.to_euclidean_division_equations; lia);
    rewrite Z2Nat.id by (Z.to_euclidean_division_equations; lia); Z.to_euclidean_division_equations; lia.
Qed.

Lemma verifyLedgerChain_run w :
  0 < lr_first (vw_range w) <= lr_last (vw_range w) -> is_ledger (lr_last (vw_range w)) ->
  lr_last (vw_range w) = fst (vw_trustedEndLedger w) ->
  verifyLedgerChain w = verify_run (rounds w) w (verify_onReset w).
Proof. intros Hr Hl Ht. unfold verifyLedgerChain. rewrite assert_true by lia. cbn [mbind res_bind]. by rewrite CheckpointRange_eq. Qed.

(** the rounds are enough for any archive: every one of them finishes, and ends the work
    or goes back by one checkpoint *)
Lemma verifyEntries_ends w m entries prev ahead : verifyEntries w m entries prev ahead <> Throw OutOfFuel.
Proof. revert prev ahead. induction entries as [|e l IH]; intros; cbn [verifyEntries]; repeat case_match; try done. Qed.

Lemma verifyCheckpoint_ends w st : verifyHistoryOfSingleCheckpoint w st <> Throw OutOfFuel.
Proof.
  unfold verifyHistoryOfSingleCheckpoint, verifyLastLedgerInCheckpoint, assert_.
  destruct (vw_downloadDir w _) as [f|]; [|done].
  pose proof (verifyEntries_ends w (hf_malformed f) (hf_entries f) None (vs_verifiedAhead st)) as H.
  destruct (verifyEntries _ _ _ _ _) as [[[status curr] ahead]|x]; [|cbn; congruence]. cbn [mbind res_bind].
  repeat (case_match; cbn [mbind res_bind]; try done).
Qed.

Lemma verifyCheckpoint_curr w st status st' :
  verifyHistoryOfSingleCheckpoint w st = Ok (status, st') -> vs_currCheckpoint st' = vs_currCheckpoint st.
Proof.
  unfold verifyHistoryOfSingleCheckpoint, verifyLastLedgerInCheckpoint, assert_. destruct (vw_downloadDir w _) as [f|]; [|done].
  destruct (verifyEntries _ _ _ _ _) as [[[status' curr] ahead]|x]; [|done]. cbn [mbind res_bind].
  intros H. repeat (case_match; cbn [mbind res_bind] in *; simplify_eq; try done).
Qed.

Lemma verify_run_ends w n st :
  0 < firstCheckpoint w -> vs_currCheckpoint st <= UINT32_MAX ->
  vs_currCheckpoint st = firstCheckpoint w + (Z.of_nat n - 1) * getCheckpointFrequency -> (0 < n)%nat ->
  verify_run n w st <> Throw OutOfFuel.
Proof.
  intros Hc. assert (Hfr : 0 < getCheckpointFrequency) by (destruct frequency_cases; lia).
  revert st. induction n as [|n IH]; intros st Hu Hst Hn; [lia|]. cbn [verify_run]. unfold verify_onSuccess.
  destruct (Z.ltb_spec (vs_currCheckpoint st) (firstCheckpoint w)); [done|].
  pose proof (verifyCheckpoint_ends w st) as He. destruct (verifyHistoryOfSingleCheckpoint w st) as [[status s1]|x] eqn:E; [|cbn; congruence].
  apply verifyCheckpoint_curr in E. cbn [mbind res_bind]. destruct status; try done.
  destruct (Z.eqb_spec (vs_currCheckpoint s1) (firstCheckpoint w)); [done|].
  assert (Hn' : (0 < n)%nat) by (destruct n; [lia|lia]).
  assert (Hs : u32 (vs_currCheckpoint s1 - getCheckpointFrequency) = vs_currCheckpoint s1 - getCheckpointFrequency).
  { apply u32_id. unfold is_u32, UINT32_MAX in *. rewrite E. split; [nia|lia]. }
  apply IH; cbn [vs_currCheckpoint]; rewrite ?Hs, ?E; nia.
Qed.

(** The verification of any archive ends, with a result or an exception. *)
Theorem verification_ends w :
  0 < lr_first (vw_range w) <= lr_last (vw_range w) -> is_ledger (lr_last (vw_range w)) ->
  lr_last (vw_range w) = fst (vw_trustedEndLedger w) -> verifyLedgerChain w <> Throw OutOfFuel.
Proof.
  intros Hr Hl Ht. rewrite verifyLedgerChain_run by done. destruct (rounds_spec w) as (R1 & R2 & R3); [done..|].
  apply verify_run_ends; try done. cbn. unfold checkpointContainingLedger. apply u32_range.
Qed.

(** a verified chain as a whole *)
Lemma verifyLedgerChain_ok w st :
  0 < lr_first (vw_range w) <= lr_last (vw_range w) -> is_ledger (lr_last (vw_range w)) ->
  lr_last (vw_range w) = fst (vw_trustedEndLedger w) -> typed_files w ->
  verifyLedgerChain w = Ok (WORK_SUCCESS, st) ->
  let chain := parts w (firstCheckpoint w) (rounds w) in
  chained w chain /\ Forall (verified_entry w) chain /\
  last (part w (firstCheckpoint w)) = Some (vs_verifiedLedgerRangeStart st) /\
  exists e, last chain = Some e /\ hhe_seq e = lr_last (vw_range w).
Proof.
  intros Hr Hl Ht Hty H. rewrite verifyLedgerChain_run in H by done. destruct (rounds_spec w) as (R1 & R2 & R3); [done..|].
  assert (Hu : is_u32 (checkpointContainingLedger (lr_last (vw_range w)))) by (unfold checkpointContainingLedger; apply u32_range).
  apply (verify_run_ok w _ _ _ []) in H as (V & Hs & Hne); try done;
    [| unfold is_ledger, UINT32_MAX in *; destruct frequency_cases; lia | cbn; unfold is_u32 in *; lia].
  rewrite app_nil_r in V. destruct V as (V1 & V2 & V3). cbn zeta. split_and!; try done.
  destruct (parts _ _ _) as [|a l]; [done|]. cbn [head] in V3. naive_solver.
Qed.

(** from every entry of a chain, its successors lead to the last number of the range *)
Definition leads (w : VerifyWork) (l : list Entry) (e : Entry) (p : list Entry) : Prop :=
  linked (e :: p) /\ Forall (fun x => x ∈ l) (e :: p) /\
  (exists z, last (e :: p) = Some z /\ hhe_seq z = lr_last (vw_range w)) /\
  Forall (fun x => hhe_seq x <> lr_last (vw_range w)) (removelast (e :: p)).

Lemma chain_leads w l z e :
  chained w l -> last l = Some z -> hhe_seq z = lr_last (vw_range w) -> e ∈ l -> exists p, leads w l e p.
Proof.
  intros Hc Hz Hs. revert e. induction l as [|a l IH]; intros e He; [set_solver|].
  assert (Hin : forall x p, leads w l x p -> leads w (a :: l) x p).
  { intros x p (P1 & P2 & P3). split; [done|]. split; [|done]. eapply Forall_impl; [exact P2|]. intros y Hy. by right. }
  destruct l as [|b l].
  - injection Hz as ->. apply list_elem_of_singleton in He as ->. exists []. split_and!; [done|by constructor; [left|]|by exists z|done].
  - destruct Hc as [Hab Hc]. specialize (IH Hc Hz). apply elem_of_cons in He as [-> | He].
    + destruct (Z.eq_dec (hhe_seq a) (lr_last (vw_range w))) as [E | E].
      { exists []. split_and!; [done|by constructor; [left|]|by exists a|done]. }
      destruct Hab as [Hab | [? _]]; [|done]. destruct (IH b) as [p Hp]; [by left|]. pose proof (Hin _ _ Hp) as (_ & P2 & _).
      destruct Hp as (P1 & _ & P3 & P4). exists (b :: p). split_and!.
      * by split.
      * constructor; [by left|done].
      * exact P3.
      * by constructor.
    + destruct (IH e He) as [p Hp]. exists p. by apply Hin.
Qed.

(** Claim C7: A verified chain of ledgers is the chain below the trusted hash.
    Whatever 32-bit ledger numbers and headers the files of the archive contain: when
    the verification of a range succeeds, which begins above 0 and ends at the
    trusted number, below the last checkpoint that 32 bits can number, consider the
    entries of the files of its checkpoints, up to the end of the range.  Each has the hash of its header, a
    supported protocol, and agrees with the last closed ledger; those with the last
    number of the range have the trusted hash, if there is one, and the list ends
    with one of them.  From every entry its successors, each with the next number
    and the hash of the one before it, lead to such an entry: it is an ancestor of
    the trusted ledger.  The list itself is linked, except that a file that begins
    with ledger 1 may come behind the last number of the range, since the work
    takes the number before it for the absence of an expectation. *)
Theorem verified_chain_is_linked w st :
  0 < lr_first (vw_range w) <= lr_last (vw_range w) -> is_ledger (lr_last (vw_range w)) ->
  lr_last (vw_range w) = fst (vw_trustedEndLedger w) -> typed_files w ->
  verifyLedgerChain w = Ok (WORK_SUCCESS, st) ->
  let chain := parts w (firstCheckpoint w) (rounds w) in
  (forall e, e ∈ chain ->
     hhe_hash e = headerHash (hhe_header e) /\ ledgerVersion (hhe_header e) <= CURRENT_LEDGER_PROTOCOL_VERSION /\
     (hhe_seq e = fst (vw_lastClosed w) -> hhe_hash e = snd (vw_lastClosed w)) /\
     (hhe_seq e <> fst (vw_lastClosed w) -> hhe_seq e = u32 (fst (vw_lastClosed w) + 1) -> hhe_prev e = snd (vw_lastClosed w)) /\
     (forall h, hhe_seq e = lr_last (vw_range w) -> snd (vw_trustedEndLedger w) = Some h -> headerHash (hhe_header e) = h)) /\
  (forall e, e ∈ chain -> exists p z,
     linked (e :: p) /\ Forall (fun x => x ∈ chain) (e :: p) /\ last (e :: p) = Some z /\ hhe_seq z = lr_last (vw_range w)) /\
  (forall i a b, chain !! i = Some a -> chain !! S i = Some b ->
     hhe_seq b = u32 (hhe_seq a + 1) /\ hhe_prev b = headerHash (hhe_header a) \/
     hhe_seq a = lr_last (vw_range w) /\ hhe_seq b = 1) /\
  vs_verifiedLedgerRangeStart st ∈ chain /\
  exists z, last chain = Some z /\ hhe_seq z = lr_last (vw_range w).
Proof.
  intros Hr Hl Ht Hty H. destruct (verifyLedgerChain_ok w st Hr Hl Ht Hty H) as (C1 & C2 & C3 & z & C4 & C5).
  cbn zeta in *. destruct (rounds_spec w Hr Hl) as (_ & _ & R3). split_and!.
  - intros x Hx. rewrite Forall_forall in C2. destruct (C2 x Hx) as (G & (A1 & A2 & A3) & T). split_and!; try done; [rewrite G; exact A1|].
    intros h Hs Hh. specialize (T Hs). unfold trusted in T. rewrite Hh in T. cbn in T. by rewrite <- G.
  - intros e He. destruct (chain_leads w _ z e C1 C4 C5 He) as (p & P1 & P2 & (y & P3 & P4) & _). by exists p, y.
  - intros i a b Ha Hb. exact (chained_lookup w _ i a b C1 Ha Hb).
  - destruct (rounds w) as [|n]; [lia|]. cbn [parts]. apply elem_of_app. left.
    apply last_Some in C3 as [l' ->]. apply elem_of_app. right. by apply list_elem_of_singleton.
  - by exists z.
Qed.

(** ** Two archives *)

(** two headers with the same hash *)
Definition collision (l1 l2 : list Entry) : Prop :=
  exists a b, a ∈ l1 /\ b ∈ l2 /\ hhe_header a <> hhe_header b /\ headerHash (hhe_header a) = headerHash (hhe_header b).

Lemma collision_app l1 l2 k1 k2 : collision l1 l2 -> collision (l1 ++ k1) (l2 ++ k2).
Proof. intros (a & b & Ha & Hb & H). exists a, b. rewrite !elem_of_app. auto. Qed.

(** chains that end with the same hash agree as far as both go *)
Lemma linked_suffix l1 l2 e1 e2 :
  linked l1 -> linked l2 -> last l1 = Some e1 -> last l2 = Some e2 ->
  headerHash (hhe_header e1) = headerHash (hhe_header e2) ->
  collision l1 l2 \/ map hhe_header l1 `suffix_of` map hhe_header l2 \/ map hhe_header l2 `suffix_of` map hhe_header l1.
Proof.
  revert l2 e1 e2. induction l1 as [|a l1 IH] using rev_ind; intros l2 e1 e2; [done|].
  destruct l2 as [|b l2 _] using rev_ind; [done|]. rewrite !last_snoc. intros H1 H2 [= ->] [= ->] Hh.
  destruct (decide (hhe_header e1 = hhe_header e2)) as [E | E];
    [|left; exists e1, e2; rewrite !elem_of_app, !list_elem_of_singleton; auto].
  rewrite !map_app. cbn [map]. rewrite E.
  apply linked_app in H1 as (H1 & _ & L1), H2 as (H2 & _ & L2).
  destruct (last l1) as [x|] eqn:X; [|apply last_None in X as ->; right; left; by eexists].
  destruct (last l2) as [y|] eqn:Y; [|apply last_None in Y as ->; right; right; by eexists].
  destruct (L1 x e1 eq_refl eq_refl) as [_ P1], (L2 y e2 eq_refl eq_refl) as [_ P2]. unfold hhe_prev in *.
  destruct (IH l2 x y) as [Hc | [Hs | Hs]]; try done; [congruence|..].
  - left. by apply collision_app.
  - right. left. by apply suffix_app.
  - right. right. by apply suffix_app.
Qed.

(** the way to the last number of the range has the length that the numbers give it *)
Lemma leads_length w l e p :
  is_u32 (lr_last (vw_range w)) -> is_u32 (hhe_seq e) -> leads w l e p ->
  Z.of_nat (length p) = (lr_last (vw_range w) - hhe_seq e) mod (UINT32_MAX + 1).
Proof.
  intros Hu He (H1 & _ & (z & H3 & H4) & H5). set (n := lr_last (vw_range w)) in *. clearbody n.
  revert e He H1 H3 H5. induction p as [|b p IH]; intros e He H1 H3 H5.
  - injection H3 as ->. by rewrite H4, Z.sub_diag.
  - destruct H1 as [[Hb _] H1]. apply Forall_cons in H5 as [Hne H6].
    assert (Hbu : is_u32 (hhe_seq b)) by (rewrite Hb; apply u32_range). specialize (IH b Hbu H1 H3 H6). cbn [length].
    rewrite Nat2Z.inj_succ, IH. clear IH H1 H3 H6. unfold is_u32, u32, UINT32_MAX in *.
    Z.to_euclidean_division_equations. lia.
Qed.

Lemma parts_typed w c n e : typed_files w -> e ∈ parts w c n -> is_u32 (hhe_seq e).
Proof.
  intros Ht. revert c. induction n as [|n IH]; intros c; cbn [parts]; [set_solver|]. intros [He | He]%elem_of_app; [|by eapply IH].
  unfold part in He. destruct (vw_downloadDir w c) as [f|] eqn:Ef; [|set_solver]. specialize (Ht _ _ Ef). rewrite Forall_forall in Ht.
  apply Ht. revert He. generalize (hf_entries f). intros l. induction l as [|x l IHl]; cbn; [done|].
  destruct (_ =? _); [intros ->%list_elem_of_singleton; by left|]. intros [-> | Hx]%elem_of_cons; [by left|right; auto].
Qed.

(** Claim C15: The trusted hash fixes the history.  Two nodes that verify the same range against
    the same trusted hash, whatever 32-bit ledger numbers and headers their archives
    contain, have verified the same header for every number that occurs in the files
    of both up to the end of the range, which begins above 0 and lies below the last
    checkpoint that 32 bits can number, unless the archives contain two headers with
    the same hash. *)
Theorem trusted_hash_fixes_history w1 w2 st1 st2 h :
  vw_range w1 = vw_range w2 -> vw_trustedEndLedger w1 = vw_trustedEndLedger w2 ->
  0 < lr_first (vw_range w1) <= lr_last (vw_range w1) -> is_ledger (lr_last (vw_range w1)) ->
  vw_trustedEndLedger w1 = (lr_last (vw_range w1), Some h) -> typed_files w1 -> typed_files w2 ->
  verifyLedgerChain w1 = Ok (WORK_SUCCESS, st1) -> verifyLedgerChain w2 = Ok (WORK_SUCCESS, st2) ->
  let l1 := parts w1 (firstCheckpoint w1) (rounds w1) in
  let l2 := parts w2 (firstCheckpoint w2) (rounds w2) in
  collision l1 l2 \/
  forall e1 e2, e1 ∈ l1 -> e2 ∈ l2 -> hhe_seq e1 = hhe_seq e2 -> hhe_header e1 = hhe_header e2.
Proof.
  intros Er Et Hr Hl Ht T1 T2 V1 V2 l1 l2.
  destruct (verifyLedgerChain_ok w1 st1) as (A1 & A2 & _ & z1 & A3 & A4); try done; [by rewrite Ht|].
  destruct (verifyLedgerChain_ok w2 st2) as (B1 & B2 & _ & z2 & B3 & B4); rewrite <- ?Er, <- ?Et; try done; [by rewrite Ht|].
  fold l1 in A1, A2, A3. fold l2 in B1, B2, B3.
  destruct (decide (Exists (fun a => Exists (fun b => hhe_header a <> hhe_header b /\
    headerHash (hhe_header a) = headerHash (hhe_header b)) l2) l1)) as [Hc | Hc].
  { left. apply Exists_exists in Hc as (a & Ha & (b & Hb & H)%Exists_exists). by exists a, b. }
  right. intros e1 e2 H1 H2 Hs.
  destruct (chain_leads w1 l1 z1 e1 A1 A3 A4 H1) as [p1 P1], (chain_leads w2 l2 z2 e2 B1 B3 B4 H2) as [p2 P2].
  assert (Hlen : length p1 = length p2).
  { assert (Hu : is_u32 (lr_last (vw_range w1))) by (unfold is_ledger, is_u32, UINT32_MAX in *; destruct frequency_cases; lia).
    pose proof (leads_length _ _ _ _ Hu (parts_typed _ _ _ _ T1 H1) P1) as L1.
    rewrite Er in Hu. pose proof (leads_length _ _ _ _ Hu (parts_typed _ _ _ _ T2 H2) P2) as L2. rewrite <- Er, <- Hs in L2. apply Nat2Z.inj. congruence. }
  destruct P1 as (K1 & M1 & (y1 & Y1 & N1) & _), P2 as (K2 & M2 & (y2 & Y2 & N2) & _).
  assert (Hin : forall (l q : list Entry) y, last q = Some y -> Forall (fun x => x ∈ l) q -> y ∈ l).
  { intros l q y [q' ->]%last_Some Hq. apply Forall_app in Hq as [_ Hq]. by inversion Hq. }
  assert (Hh : forall w' l y, vw_trustedEndLedger w' = (lr_last (vw_range w1), Some h) -> hhe_seq y = lr_last (vw_range w') ->
    Forall (verified_entry w') l -> y ∈ l -> headerHash (hhe_header y) = h).
  { intros w' l y E Hy Hf Hyl. rewrite Forall_forall in Hf. destruct (Hf y Hyl) as (G & _ & T). rewrite <- G.
    specialize (T Hy). unfold trusted in T. by rewrite E in T. }
  assert (Hy : headerHash (hhe_header y1) = headerHash (hhe_header y2)).
  { transitivity h; [by eapply (Hh w1 l1); eauto|]. symmetry. eapply (Hh w2 l2); [by rewrite <- Et|done|done|eauto]. }
  destruct (linked_suffix (e1 :: p1) (e2 :: p2) y1 y2 K1 K2 Y1 Y2 Hy) as [(a & b & Ha & Hb & H) | Hsuf].
  - exfalso. apply Hc. apply Exists_exists. rewrite Forall_forall in M1, M2. exists a. split; [by apply M1|].
    apply Exists_exists. exists b. split; [by apply M2|done].
  - assert (E : map hhe_header (e1 :: p1) = map hhe_header (e2 :: p2)).
    { destruct Hsuf as [[q E] | [q E]]; pose proof (f_equal length E) as En; rewrite length_app, !length_map in En; cbn [length] in En;
        (destruct q; [by rewrite E|cbn in En; lia]). }
    by injection E.
Qed.

(** ** Honest archives *)

(** a history of ledgers as the network has made it *)
Record history (hist : Z -> Entry) : Prop := {
  hi_seq : forall n, hhe_seq (hist n) = n;
  hi_hash : forall n, genuine (hist n);
  hi_prev : forall n, 0 < n -> hhe_prev (hist (n + 1)) = headerHash (hhe_header (hist n));
  hi_version : forall n, ledgerVersion (hhe_header (hist n)) <= CURRENT_LEDGER_PROTOCOL_VERSION
}.

(** the first ledger in the file of a checkpoint, and the file *)
Definition file_start (c : Z) : Z := Z.max 1 (c - getCheckpointFrequency + 1).
Definition honest_file (hist : Z -> Entry) (c : Z) : HistoryFile :=
  mkHistoryFile (map hist (seqZ (file_start c) (c - file_start c + 1))) false.

(** the local node and the trusted hash agree with the history *)
Definition agreed (hist : Z -> Entry) (w : VerifyWork) : Prop :=
  0 < fst (vw_lastClosed w) < UINT32_MAX /\
  snd (vw_lastClosed w) = headerHash (hhe_header (hist (fst (vw_lastClosed w)))) /\
  fst (vw_trustedEndLedger w) = lr_last (vw_range w) /\
  from_option (fun h => h = headerHash (hhe_header (hist (lr_last (vw_range w))))) True (snd (vw_trustedEndLedger w)).

Section Honest.
Variables (hist : Z -> Entry) (w : VerifyWork).
Hypotheses (Hh : history hist) (Ha : agreed hist w).

Lemma honest_link n : 1 < n -> verifyLedgerHistoryLink (hhe_hash (hist (n - 1))) (hist n) = VERIFY_STATUS_OK.
Proof.
  destruct Hh as [_ H1 H2 _]. intros Hn. apply verifyLink_ok. split; [apply H1|]. replace n with (n - 1 + 1) at 1 by lia. rewrite H2 by lia. symmetry. apply H1.
Qed.

Lemma honest_lastClosed n : verifyLastClosed w (hist n) = VERIFY_STATUS_OK.
Proof.
  destruct Ha as (H1 & H2 & _). unfold verifyLastClosed. destruct (vw_lastClosed w) as [s h]. cbn [fst snd] in *. rewrite (hi_seq _ Hh).
  destruct (Z.eqb_spec n s) as [-> | _]; [by rewrite H2, Z.eqb_refl|].
  destruct (Z.eqb_spec n (u32 (s + 1))) as [E | _]; [|done]. rewrite u32_id in E by (unfold is_u32; lia).
  rewrite H2. rewrite <- (hi_hash _ Hh). replace s with (n - 1) by lia. apply honest_link. lia.
Qed.

Lemma honest_entries n a prev ahead :
  0 < a <= lr_last (vw_range w) -> a + Z.of_nat n <= UINT32_MAX ->
  match prev with None => (0 < n)%nat | Some p => p = hist (a - 1) /\ 1 < a end ->
  verifyEntries w false (map hist (seqZ a (Z.of_nat n))) prev ahead =
    Ok (VERIFY_STATUS_OK, hist (Z.min (a + Z.of_nat n - 1) (lr_last (vw_range w))),
        match prev with None => (a - 1, Some (hhe_prev (hist a))) | Some _ => ahead end).
Proof.
  revert a prev ahead. induction n as [|n IH]; intros a prev ahead H1 H2 H3.
  - destruct prev as [p|]; [|lia]. destruct H3 as [-> _]. cbn [Z.of_nat seqZ map verifyEntries]. cbn. replace (_ `min` _) with (a - 1) by lia. done.
  - rewrite seqZ_cons by lia. cbn [map verifyEntries]. replace (Z.pred (Z.of_nat (S n))) with (Z.of_nat n) by lia.
    pose proof (hi_version _ Hh a). destruct (Z.ltb_spec CURRENT_LEDGER_PROTOCOL_VERSION (ledgerVersion (hhe_header (hist a)))); [lia|].
    rewrite honest_lastClosed.
    assert (Hp : verifyPrevious prev (hist a) ahead =
      (VERIFY_STATUS_OK, match prev with None => (a - 1, Some (hhe_prev (hist a))) | Some _ => ahead end)).
    { unfold verifyPrevious. destruct prev as [p|].
      - destruct H3 as [-> H3]. rewrite !(hi_seq _ Hh), u32_id by (unfold is_u32; lia). rewrite Z.sub_add, Z.ltb_irrefl. by rewrite honest_link by lia.
      - assert (E : verifyLedgerHistoryEntry (hist a) = VERIFY_STATUS_OK) by (apply verifyEntry_ok, (hi_hash _ Hh)).
        rewrite E, (hi_seq _ Hh), u32_id by (unfold is_u32; lia). done. }
    rewrite Hp, (hi_seq _ Hh). destruct (Z.eqb_spec a (lr_last (vw_range w))) as [E | E].
    + replace (_ `min` _) with a by lia. done.
    + replace (Z.succ a) with (a + 1) by lia. rewrite IH; [|lia..|split; [by rewrite Z.add_simpl_r|lia]].
      replace ((a + 1 + Z.of_nat n - 1) `min` lr_last (vw_range w)) with ((a + Z.of_nat (S n) - 1) `min` lr_last (vw_range w)) by lia. done.
Qed.

(** what the checkpoints ahead of [c] leave behind *)
Definition honest_ahead (c : Z) : LedgerNumHashPair :=
  if c =? checkpointContainingLedger (lr_last (vw_range w)) then (0, None)
  else (c, Some (headerHash (hhe_header (hist c)))).

Hypothesis Hr : 0 < lr_first (vw_range w) <= lr_last (vw_range w).
Hypothesis Hl : is_ledger (lr_last (vw_range w)).

Lemma honest_checkpoint c start :
  0 < c -> (c + 1) mod getCheckpointFrequency = 0 -> c <= checkpointContainingLedger (lr_last (vw_range w)) ->
  vw_downloadDir w c = Some (honest_file hist c) ->
  verifyHistoryOfSingleCheckpoint w (mkVerifyState c (honest_ahead c) start) =
    Ok (VERIFY_STATUS_OK, mkVerifyState c (file_start c - 1, Some (hhe_prev (hist (file_start c))))
      (if c =? firstCheckpoint w then hist (Z.min c (lr_last (vw_range w))) else start)).
Proof.
  intros Hc Hm Hle Hd. destruct (checkpoint_spec _ Hl) as (S1 & S2 & S3), Ha as (_ & _ & A1 & A2).
  pose proof (checkpoint_unique _ c Hl) as Hu.
  set (z := lr_last (vw_range w)) in *. set (d := checkpointContainingLedger z) in *.
  assert (Hf : 8 <= getCheckpointFrequency <= 64) by (destruct frequency_cases; lia).
  assert (Hs : 0 < file_start c <= c /\ file_start c <= z).
  { unfold file_start. destruct (Z.eq_dec c d); [lia|]. clearbody d.
    apply Z.mod_divide in Hm as [p Hp]; [|lia]. apply Z.mod_divide in S2 as [q Hq]; [|lia]. nia. }
  unfold verifyHistoryOfSingleCheckpoint. cbn [vs_currCheckpoint vs_verifiedAhead vs_verifiedLedgerRangeStart]. rewrite Hd.
  unfold honest_file at 1 2. cbn [hf_entries hf_malformed].
  replace (c - file_start c + 1) with (Z.of_nat (Z.to_nat (c - file_start c + 1))) by lia.
  rewrite honest_entries by (fold z; unfold is_ledger, UINT32_MAX in *; lia). cbn [mbind res_bind]. fold z.
  replace ((file_start c + Z.of_nat (Z.to_nat (c - file_start c + 1)) - 1) `min` z) with (c `min` z) by lia.
  rewrite !(hi_seq _ Hh). replace (negb (c `min` z =? c) && negb (c `min` z =? z)) with false by lia.
  unfold verifyLastLedgerInCheckpoint, honest_ahead. fold z d. rewrite (hi_seq _ Hh).
  destruct (Z.eqb_spec (c `min` z) z) as [E | E].
  - assert (c = d) as -> by (symmetry; apply Hu; lia). rewrite Z.eqb_refl. cbn [fst snd]. rewrite assert_true by done.
    cbn [mbind res_bind]. rewrite A1, E, (assert_true (z =? z)) by apply Z.eqb_refl. cbn [mbind res_bind].
    destruct (snd (vw_trustedEndLedger w)) as [h|]; [|done].
    cbn in A2. fold z in A2. rewrite A2, (hi_hash _ Hh), Z.eqb_refl. done.
  - destruct (Z.eqb_spec c d); [lia|]. cbn [fst snd]. rewrite (assert_true (bool_decide _)) by (apply bool_decide_eq_true; eauto).
    cbn [mbind res_bind]. rewrite !assert_true by lia. cbn [mbind res_bind fst snd].
    replace (c `min` z) with c by lia. rewrite (assert_true (c =? c)) by apply Z.eqb_refl. cbn [mbind res_bind].
    rewrite (hi_hash _ Hh), Z.eqb_refl. done.
Qed.

Hypothesis Hd : forall i, (i < rounds w)%nat ->
  vw_downloadDir w (firstCheckpoint w + Z.of_nat i * getCheckpointFrequency) =
    Some (honest_file hist (firstCheckpoint w + Z.of_nat i * getCheckpointFrequency)).

Lemma honest_run n start :
  (n < rounds w)%nat -> let c := firstCheckpoint w + Z.of_nat n * getCheckpointFrequency in
  exists st, verify_run (S n) w (mkVerifyState c (honest_ahead c) start) = Ok (WORK_SUCCESS, st) /\
    vs_verifiedLedgerRangeStart st = hist (Z.min (firstCheckpoint w) (lr_last (vw_range w))).
Proof.
  destruct (rounds_spec w Hr Hl) as (R1 & R2 & R3).
  assert (Hf : 8 <= getCheckpointFrequency <= 64) by (destruct frequency_cases; lia).
  assert (Hi : is_ledger (lr_first (vw_range w))) by (unfold is_ledger in *; lia).
  destruct (checkpoint_spec _ Hi) as (_ & S2 & _), (checkpoint_spec _ Hl) as (_ & _ & S6). fold (firstCheckpoint w) in S2.
  revert start. induction n as [|n IH]; intros start Hn; cbn zeta; set (c := firstCheckpoint w + _).
  - assert (Hc : c = firstCheckpoint w) by (unfold c; lia). cbn [verify_run]. unfold verify_onSuccess. cbn [vs_currCheckpoint].
    rewrite Hc, Z.ltb_irrefl, honest_checkpoint; [|done|done|nia|].
    2:{ specialize (Hd 0%nat Hn). by rewrite Z.mul_0_l, Z.add_0_r in Hd. }
    cbn [mbind res_bind vs_currCheckpoint]. rewrite Z.eqb_refl. eexists. split; [done|]. done.
  - specialize (IH (if c =? firstCheckpoint w then hist (Z.min c (lr_last (vw_range w))) else start) ltac:(lia)).
    change (verify_run (S (S n)) w ?x) with
      ('(ws, st) ← verify_onSuccess w x; match ws with WORK_RUNNING => verify_run (S n) w st | _ => Ok (ws, st) end).
    unfold verify_onSuccess at 1. cbn [vs_currCheckpoint].
    destruct (Z.ltb_spec c (firstCheckpoint w)); [nia|].
    rewrite honest_checkpoint; [|nia| |nia|by apply Hd].
    2:{ unfold c. apply Z.mod_divide in S2 as [p Hp]; [|lia]. replace (_ + 1) with ((p + Z.of_nat (S n)) * getCheckpointFrequency) by lia.
        by rewrite Z_mod_mult. }
    cbn [mbind res_bind vs_currCheckpoint vs_verifiedAhead vs_verifiedLedgerRangeStart].
    destruct (Z.eqb_spec c (firstCheckpoint w)) as [E | E]; [nia|].
    rewrite u32_id by (unfold is_u32; nia).
    assert (Ec : c - getCheckpointFrequency = firstCheckpoint w + Z.of_nat n * getCheckpointFrequency) by lia.
    rewrite Ec. cbn zeta in IH. rewrite <- Ec in *.
    assert (Ef : file_start c = c - getCheckpointFrequency + 1) by (unfold file_start; nia).
    assert (Ea : (file_start c - 1, Some (hhe_prev (hist (file_start c)))) = honest_ahead (c - getCheckpointFrequency)).
    { unfold honest_ahead. destruct (Z.eqb_spec (c - getCheckpointFrequency) (checkpointContainingLedger (lr_last (vw_range w)))); [nia|].
      rewrite Ef, (hi_prev _ Hh), Z.add_simpl_r by nia. done. }
    rewrite Ea. exact IH.
Qed.

End Honest.

(** Claim C23: An honest archive is accepted.  When the files of the checkpoints of the
    range hold the history of the network, and the last closed ledger and the
    trusted hash are of that history, the verification takes one round for every
    checkpoint, meets no failing assertion and succeeds; the entry that it reports
    for the start of the range is that of the first checkpoint. *)
Theorem honest_history_verifies (hist : Z -> Entry) w :
  history hist -> agreed hist w -> 0 < lr_first (vw_range w) <= lr_last (vw_range w) -> is_ledger (lr_last (vw_range w)) ->
  (forall c, firstCheckpoint w <= c <= checkpointContainingLedger (lr_last (vw_range w)) ->
     (c + 1) mod getCheckpointFrequency = 0 -> vw_downloadDir w c = Some (honest_file hist c)) ->
  exists st, verifyLedgerChain w = Ok (WORK_SUCCESS, st) /\
    vs_verifiedLedgerRangeStart st = hist (Z.min (firstCheckpoint w) (lr_last (vw_range w))).
Proof.
  intros Hh Ha Hr Hl Hd. destruct (rounds_spec w Hr Hl) as (R1 & R2 & R3).
  assert (Hi : is_ledger (lr_first (vw_range w))) by (unfold is_ledger in *; lia).
  destruct (checkpoint_spec _ Hi) as (_ & S2 & _). fold (firstCheckpoint w) in S2.
  assert (Hf : 8 <= getCheckpointFrequency <= 64) by (destruct frequency_cases; lia).
  rewrite verifyLedgerChain_run; [|done..|by destruct Ha as (_ & _ & -> & _)].
  destruct (honest_run hist w Hh Ha Hr Hl) with (n := pred (rounds w)) (start := emptyHHE) as (st & H1 & H2).
  - intros i Hlt. apply Hd; [nia|]. apply Z.mod_divide in S2 as [p Hp]; [|lia].
    replace (_ + 1) with ((p + Z.of_nat i) * getCheckpointFrequency) by lia. by rewrite Z_mod_mult.
  - lia.
  - exists st. split; [|done]. replace (S (pred (rounds w))) with (rounds w) in H1 by lia.
    rewrite <- H1. unfold verify_onReset, honest_ahead. rewrite R1.
    replace (Z.of_nat (pred (rounds w))) with (Z.of_nat (rounds w) - 1) by lia. by rewrite Z.eqb_refl.
Qed.

End Chains.
