(* ===== verification/HeaderKept.v ===== *)
(** * What closing a ledger does to the chain of headers

    No operation, transaction or upgrade touches the fields of the header that
    link it to other ledgers, so that the header of a closed ledger has the next
    number and the hash of the one before it. *)
From S2P Require Import Prelude Numeric Exchange LedgerEntries TransactionUtils OfferBook LedgerState LedgerLogic.
From S2P Require Import OfferCross Operations OfferOperations Neutral Conservation OperationsKeep SubEntries.
From S2P Require Import Invariants InvariantManager Signatures Transactions TransactionSafety Termination.
From S2P Require Import Upgrades UpgradeLiabilities TxSet TxSetOrder LedgerClose.

(** the fields that link a header to the others *)
Definition link_fields (h : LedgerHeader) : Z * Hash * EssaBlockChainValue * Hash * list Hash :=
  (ledgerSeq h, previousLedgerHash h, scpValue h, bucketListHash h, skipList h).

(** a computation that keeps them *)
Class LinkKept {A} (m : ltm A) : Prop :=
  link_kept : forall s a s', m s = Ok (a, s') -> link_fields (st_header s') = link_fields (st_header s).
#[export] Hint Mode LinkKept ! ! : typeclass_instances.

(** ** Primitives *)

#[export] Instance lk_bind {A B} (m : ltm A) (f : A -> ltm B) :
  LinkKept m -> (forall a, LinkKept (f a)) -> LinkKept (m ≫= f).
Proof. intros Hm Hf s b s' (a & s1 & E1 & E2)%ltm_bind_ok. apply Hf in E2. apply Hm in E1. congruence. Qed.
#[export] Instance lk_quiet {A} (m : ltm A) : Quiet m -> LinkKept m | 20.
Proof. intros Hq s a s' E. by destruct (Hq _ _ _ E) as [-> _]. Qed.
#[export] Instance lk_ret {A} (a : A) : LinkKept (mret a).
Proof. by intros s b s' [= _ <-]. Qed.
#[export] Instance lk_lift {A} (r : res A) : LinkKept (lift r).
Proof. by intros s b s' [_ ->]%lift_ok. Qed.
#[export] Instance lk_throw {A} m : LinkKept (@throw_msg A m).
Proof. by intros s b s'. Qed.
#[export] Instance lk_nested {A} (m : ltm (bool * A)) : LinkKept m -> LinkKept (nested m).
Proof.
  intros Hm s a s'. unfold nested. destruct (m (unshared s)) as [[[b x] s1]|] eqn:E; [|done]. apply Hm in E.
  by destruct b; intros [= _ <-].
Qed.
Lemma unshare_header k s : st_header (unshare k s) = st_header s.
Proof. by destruct (unshare_same k s) as [-> _]. Qed.
#[export] Instance lk_update {A} k (f : LedgerEntry -> res (A * LedgerEntry)) : LinkKept (ltx_update k f).
Proof. by intros s a s' (e & e' & _ & _ & _ & ->)%ltx_update_ok. Qed.
#[export] Instance lk_erase k : LinkKept (ltx_erase k).
Proof. intros s a s'. unfold ltx_erase. destruct (st_entries s !! k); [|done]. intros [= _ <-]. by rewrite unshare_header. Qed.
#[export] Instance lk_create e : LinkKept (ltx_create e).
Proof.
  intros s a s'. unfold ltx_create. destruct (st_entries s !! _); [done|]. intros [= _ <-].
  by rewrite put_header, unshare_header.
Qed.
#[export] Instance lk_setCurrent k e : LinkKept (ltx_set_current k e).
Proof. intros s a s'. unfold ltx_set_current. destruct (st_entries s !! k); [|done]. intros [= _ <-]. by rewrite put_header. Qed.
#[export] Instance lk_setCached e : LinkKept (setCached e).
Proof. by intros s a s' [= _ <-]. Qed.
Lemma lk_setHeader f : (forall h, link_fields (f h) = link_fields h) -> LinkKept (ltx_setHeader f).
Proof. intros H s a s' [= _ <-]. apply H. Qed.
#[export] Hint Extern 2 (LinkKept (ltx_setHeader _)) =>
  apply lk_setHeader; intros; cbv zeta; repeat case_match; reflexivity : typeclass_instances.

(** follow the code of a computation, into the definitions it calls *)
Ltac kept :=
  cbv beta zeta;
  lazymatch goal with
  | |- LinkKept (_ ≫= _) => apply lk_bind; [kept|intros; kept]
  | |- LinkKept (match ?x with _ => _ end) => destruct x; kept
  | |- LinkKept (nested _) => apply lk_nested; kept
  | |- LinkKept ?m => first [solve [apply _] | let c := get_head m in unfold c; kept]
  end.

(** ** Operations *)

Section Operations.
Context {U : UInt128} {K : StrKeyOrder}.

#[export] Instance lk_crossOffer k m1 m2 t : LinkKept (crossOffer k m1 m2 t).
Proof. kept. Qed.
#[export] Instance lk_crossOfferV10 k m1 m2 b t : LinkKept (crossOfferV10 k m1 m2 b t).
Proof. kept. Qed.

#[export] Instance lk_convertLoop {T} fuel a b p (f : option (LedgerEntry -> T -> res (OfferFilterResult * T))) c :
  LinkKept (convertLoop fuel a b p f c).
Proof. revert c. induction fuel as [|fuel IH]; intros c; cbn [convertLoop]; [by intros s x s'|kept]. Qed.
#[export] Instance lk_convertWithOffers {T} a m1 b m2 p (f : option (LedgerEntry -> T -> res (OfferFilterResult * T))) x t :
  LinkKept (convertWithOffers a m1 b m2 p f x t).
Proof. kept. Qed.

#[export] Instance lk_tx_loadAccount a : LinkKept (tx_loadAccount a).
Proof. kept. Qed.
#[export] Instance lk_deleteSigner h a k kept rest : LinkKept (deleteSigner h a k kept rest).
Proof. revert kept. induction rest as [|x rest IH]; intros l; cbn [deleteSigner]; kept. Qed.
#[export] Instance lk_removeOffers h a x l : LinkKept (removeOffers h a x l).
Proof. induction l as [|o l IH]; cbn [removeOffers]; kept. Qed.
#[export] Instance lk_payWinners l a t st : LinkKept (payWinners l a t st).
Proof. revert st. induction l as [|w l IH]; intros st; cbn [payWinners]; kept. Qed.
#[export] Instance lk_walkPath src path b d r : LinkKept (walkPath src path b d r).
Proof. revert b d r. induction path as [|a path IH]; intros b d r; cbn [walkPath]; kept. Qed.

#[export] Instance lk_createAccount src op : LinkKept (createAccount_doApply src op).
Proof. kept. Qed.
#[export] Instance lk_pathPayment src op : LinkKept (pathPayment_doApply src op).
Proof. kept. Qed.
#[export] Instance lk_payment src op : LinkKept (payment_doApply src op).
Proof. kept. Qed.
#[export] Instance lk_setOptions src op : LinkKept (setOptions_doApply src op).
Proof. kept. Qed.
#[export] Instance lk_changeTrust src op : LinkKept (changeTrust_doApply src op).
Proof. kept. Qed.
#[export] Instance lk_allowTrust src op : LinkKept (allowTrust_doApply src op).
Proof. kept. Qed.
#[export] Instance lk_inflation : LinkKept inflation_doApply.
Proof. kept. Qed.
#[export] Instance lk_manageOffer a op p : LinkKept (manageOffer_doApply a op p).
Proof. kept. Qed.
#[export] Instance lk_doApply src b : LinkKept (doApply src b).
Proof. kept. Qed.
End Operations.

(** ** Transactions and upgrades *)

Section Close.
Context {SS : StdSort} {HS : SetHash} {U : UInt128} {K : StrKeyOrder} {C : Crypto} {HT : TxHash}.
Context {X : UpgradeXdr} {RH : ResultHash}.

#[export] Instance lk_processFee env fr : LinkKept (processFeeSeqNum env fr).
Proof. kept. Qed.
#[export] Instance lk_checkOperations env i ops fr : LinkKept (checkOperations env i ops fr).
Proof. revert i fr. induction ops as [|op ops IH]; intros i fr; cbn [checkOperations]; kept. Qed.
#[export] Instance lk_checkOpSignatures env i ops b fr : LinkKept (checkOpSignatures env i ops b fr).
Proof. revert i b fr. induction ops as [|op ops IH]; intros i b fr; cbn [checkOpSignatures]; kept. Qed.
#[export] Instance lk_removeKeys h a l r : LinkKept (removeKeys h a l r).
Proof. revert r. induction l as [|k l IH]; intros r; cbn [removeKeys]; kept. Qed.
#[export] Instance lk_removeUsedKeys l : LinkKept (removeUsedKeys l).
Proof. induction l as [|[a l'] l IH]; cbn [removeUsedKeys]; kept. Qed.
#[export] Instance lk_applyOperation env i op b fr im : LinkKept (applyOperation env i op b fr im).
Proof. kept. Qed.
#[export] Instance lk_applyLoop env i ops b fr im : LinkKept (applyLoop env i ops b fr im).
Proof. revert i b fr im. induction ops as [|op ops IH]; intros i b fr im; cbn [applyLoop]; kept. Qed.
#[export] Instance lk_apply env fr im : LinkKept (Transactions.apply env fr im).
Proof. kept. Qed.
#[export] Instance lk_applyTransaction tx fr im : LinkKept (applyTransaction tx fr im).
Proof.
  intros s [fr' im'] s'. unfold applyTransaction. destruct (Transactions.apply _ fr im s) as [[[[b fr1] im1] s1]|e] eqn:E.
  - intros [= _ _ <-]. by apply lk_apply in E.
  - assert (Ha : link_fields (st_header (afterThrow (tp_env tx) fr s)) = link_fields (st_header s)).
    { unfold afterThrow. destruct ((_ ← forgetAccount; _) s) as [[r s1]|] eqn:Ea; [|done].
      assert (L : LinkKept (_ ← forgetAccount; sc ← newChecker (tp_env tx);
        validateForApply (tp_env tx) (set_fr_checker sc fr))) by kept. by apply L in Ea. }
    destruct e; intros [= _ _ <-] || intros [=]; exact Ha.
Qed.
#[export] Instance lk_applyTransactions txs im rs : LinkKept (applyTransactions txs im rs).
Proof. revert im rs. induction txs as [|[tx fr] txs IH]; intros im rs; cbn [applyTransactions]; kept. Qed.
#[export] Instance lk_chargeFees txs : LinkKept (chargeFees txs).
Proof. induction txs as [|[tx fr] txs IH]; cbn [chargeFees]; kept. Qed.
#[export] Instance lk_processFees txs : LinkKept (processFeesSeqNums txs).
Proof. kept. Qed.

#[export] Instance lk_allOffers : LinkKept ltx_loadAllOffers.
Proof. by intros s x s' [= _ <-]. Qed.
#[export] Instance lk_updateOffers h l k x y ib is_ L : LinkKept (updateOffers h l k x y ib is_ L).
Proof. revert L. induction l as [|k' l IH]; intros L; cbn [updateOffers]; kept. Qed.
#[export] Instance lk_initialOf h l b se : LinkKept (initialOf h l b se).
Proof. revert b se. induction l as [|k l IH]; intros b se; cbn [initialOf]; kept. Qed.
#[export] Instance lk_writeLiabilities h a k l : LinkKept (writeLiabilities h a k l).
Proof. induction l as [|[A x] l IH]; cbn [writeLiabilities]; kept. Qed.
#[export] Instance lk_prepareAccounts h l : LinkKept (prepareAccounts h l).
Proof. induction l as [|[a ks] l IH]; cbn [prepareAccounts]; kept. Qed.
#[export] Instance lk_applyTo u : LinkKept (applyTo u).
Proof. destruct u; cbn [applyTo]; kept. Qed.
#[export] Instance lk_applyUpgrade u : LinkKept (applyUpgrade u).
Proof.
  intros s [] s'. unfold applyUpgrade. assert (L : LinkKept (nested (r ← applyTo u; mret (true, r)))) by kept.
  destruct (nested _ s) as [[[] s1]|e] eqn:E; [intros [= <-]; by apply L in E|]. destruct (catchable e); [by intros [= <-]|done].
Qed.
#[export] Instance lk_applyUpgrades l : LinkKept (applyUpgrades l).
Proof. induction l as [|u l IH]; cbn [applyUpgrades]; kept. Qed.

(** ** The header of the closed ledger *)

(** what [closeLedger] leaves in the header *)
Lemma closeLedger_header lclHash ledgerData frames im s r s' :
  closeLedger lclHash ledgerData frames im s = Ok (r, s') ->
  fst (previousLedgerHash_ref (lcd_txSet ledgerData)) = lclHash /\
  link_fields (st_header s') =
    (u32 (ledgerSeq (st_header s) + 1), lclHash, lcd_value ledgerData, bucketListHash (st_header s), skipList (st_header s)).
Proof.
  intros E. unfold closeLedger in E. apply ltm_bind_ok in E as ([] & s1 & E1 & E). injection E1 as <-.
  apply ltm_bind_ok in E as (h & s2 & [-> ->]%ltx_loadHeader_ok & E). cbv zeta in E.
  destruct (_ >? _) in E; [done|]. destruct (previousLedgerHash_ref _) as [previous ts]. cbn [fst].
  destruct (Z.eqb_spec previous lclHash) as [-> |]; [|done]. cbn [negb] in E.
  destruct (setContentsHash ts) as [hash txSet]. destruct (negb _) in E; [done|]. split; [done|].
  apply ltm_bind_ok in E as ([] & s3 & E3 & E). injection E3 as <-. destruct (sortForApply txSet) as [txs txSet'].
  set (s3 := set_st_header _ _) in E.
  assert (H3 : link_fields (st_header s3) = (u32 (ledgerSeq (st_header s) + 1), lclHash, lcd_value ledgerData,
    bucketListHash (st_header s), skipList (st_header s))) by done. rewrite <- H3. clearbody s3.
  match type of E with ?m s3 = _ => assert (L : LinkKept m) end; [|by apply L in E].
  kept.
Qed.

End Close.
