(* ===== verification/CatchupStates.v ===== *)
(** * Falling behind the network and catching up

    The state machine of ledger/LedgerManagerImpl.cpp: what the manager does with
    the values that the network externalizes, with the progress of a catch-up, and
    with the ledgers that it has buffered meanwhile (ledger/SyncingLedgerChain.cpp,
    catchup/CatchupManagerImpl.cpp), and the catch-ups that an operator starts
    (main/CommandHandler.cpp, main/ApplicationUtils.cpp). *)
From S2P Require Import Prelude LedgerEntries Checkpoints TxSet LedgerClose VerifyChain.

(** ** Data *)

(** [LedgerManager::State] *)
Inductive LMState := LM_BOOTING_STATE | LM_SYNCED_STATE | LM_CATCHING_UP_STATE.

Inductive CatchupState :=
| CS_NONE
| CS_WAITING_FOR_TRIGGER_LEDGER
| CS_APPLYING_HISTORY
| CS_APPLYING_BUFFERED_LEDGERS
| CS_WAITING_FOR_CLOSING_LEDGER.

#[export] Instance LMState_eq_dec : EqDecision LMState.
Proof. solve_decision. Defined.
#[export] Instance CatchupState_eq_dec : EqDecision CatchupState.
Proof. solve_decision. Defined.

Inductive CloseLedgerIfResult := LEDGER_CLOSED | LEDGER_TOO_OLD | LEDGER_TOO_NEW.
Inductive SyncingLedgerChainAddResult := CHAIN_CONTIGUOUS | CHAIN_TOO_OLD | CHAIN_TOO_NEW.
(** [CatchupWork::ProgressState] *)
Inductive ProgressState := APPLIED_BUCKETS | APPLIED_TRANSACTIONS | FINISHED.

(** [mTxSet->previousLedgerHash()] *)
Definition lcd_previous (d : LedgerCloseData) : Hash := mPreviousLedgerHash (lcd_txSet d).

(** What the manager needs of the ledger itself: the last closed one, closing the
    next one, and taking over the one that the buckets of an archive describe.
    A ledger that has been closed follows the one before it. *)
Class LedgerCloser {HH : HeaderHash} (L : Type) := {
  lastClosedLedger : L -> LedgerHeaderHistoryEntry;
  closeNext : LedgerCloseData -> L -> res L;
  assumeLedger : LedgerHeaderHistoryEntry -> L -> L;
  closeNext_follows : forall d l l', closeNext d l = Ok l' ->
    lcd_previous d = hhe_hash (lastClosedLedger l) /\
    hhe_seq (lastClosedLedger l') = u32 (hhe_seq (lastClosedLedger l) + 1) /\
    hhe_prev (lastClosedLedger l') = hhe_hash (lastClosedLedger l) /\
    hhe_hash (lastClosedLedger l') = headerHash (hhe_header (lastClosedLedger l')) /\
    scpValue (hhe_header (lastClosedLedger l')) = lcd_value d;
  assumeLedger_lcl : forall e l, lastClosedLedger (assumeLedger e l) = e
}.

Section Code.
Context {HC : HistoryConfig} {HH : HeaderHash} {L : Type} {LC : LedgerCloser L}.
(** [getCatchupCount(mApp)] *)
Context (catchupCount : Z).

(** the members of the manager, the work of the catch-up manager, and the number of
    continuations of [applyBufferedLedgers] that are posted on the main thread *)
Record Manager := mkManager {
  mg_ledger : L;
  mg_state : LMState;
  mg_catchupState : CatchupState;
  mg_syncingLedgers : list LedgerCloseData;
  mg_catchupTriggerLedger : Z;
  mg_catchupWork : option CatchupConfiguration;
  mg_posted : nat
}.

Definition set_ledger (l : L) (m : Manager) : Manager :=
  mkManager l (mg_state m) (mg_catchupState m) (mg_syncingLedgers m) (mg_catchupTriggerLedger m) (mg_catchupWork m) (mg_posted m).
Definition set_syncing (l : list LedgerCloseData) (m : Manager) : Manager :=
  mkManager (mg_ledger m) (mg_state m) (mg_catchupState m) l (mg_catchupTriggerLedger m) (mg_catchupWork m) (mg_posted m).
Definition set_trigger (t : Z) (m : Manager) : Manager :=
  mkManager (mg_ledger m) (mg_state m) (mg_catchupState m) (mg_syncingLedgers m) t (mg_catchupWork m) (mg_posted m).
Definition set_work (w : option CatchupConfiguration) (m : Manager) : Manager :=
  mkManager (mg_ledger m) (mg_state m) (mg_catchupState m) (mg_syncingLedgers m) (mg_catchupTriggerLedger m) w (mg_posted m).
Definition set_posted (n : nat) (m : Manager) : Manager :=
  mkManager (mg_ledger m) (mg_state m) (mg_catchupState m) (mg_syncingLedgers m) (mg_catchupTriggerLedger m) (mg_catchupWork m) n.

Definition mg_lcl (m : Manager) : LedgerHeaderHistoryEntry := lastClosedLedger (mg_ledger m).

(** the manager of a node that starts *)
Definition newManager (l : L) : Manager := mkManager l LM_BOOTING_STATE CS_NONE [] 0 None 0.

Definition setState (s : LMState) (m : Manager) : Manager :=
  if bool_decide (s = mg_state m) then m
  else mkManager (mg_ledger m) s (if bool_decide (s = LM_CATCHING_UP_STATE) then mg_catchupState m else CS_NONE)
         (mg_syncingLedgers m) (mg_catchupTriggerLedger m) (mg_catchupWork m) (mg_posted m).

Definition setCatchupState (c : CatchupState) (m : Manager) : Manager :=
  setState LM_CATCHING_UP_STATE
    (mkManager (mg_ledger m) (mg_state m) c (mg_syncingLedgers m) (mg_catchupTriggerLedger m) (mg_catchupWork m) (mg_posted m)).

Definition bootstrap (m : Manager) : Manager := setState LM_SYNCED_STATE m.

(** [SyncingLedgerChain::push] *)
Definition push (lcd : LedgerCloseData) (chain : list LedgerCloseData) : SyncingLedgerChainAddResult * list LedgerCloseData :=
  match last chain with
  | None => (CHAIN_CONTIGUOUS, chain ++ [lcd])
  | Some back =>
      if u32 (lcd_ledgerSeq back + 1) =? lcd_ledgerSeq lcd then (CHAIN_CONTIGUOUS, chain ++ [lcd])
      else if lcd_ledgerSeq lcd <=? lcd_ledgerSeq back then (CHAIN_TOO_OLD, chain)
      else (CHAIN_TOO_NEW, chain)
  end.

Definition addToSyncingLedgers (d : LedgerCloseData) (m : Manager) : Manager :=
  set_syncing (snd (push d (mg_syncingLedgers m))) m.

(** [CatchupManagerImpl::catchupHistory], [historyCaughtup] *)
Definition catchupHistory (configuration : CatchupConfiguration) (m : Manager) : res Manager :=
  match mg_catchupWork m with
  | Some _ => Throw (RuntimeError "Catchup already in progress")
  | None => Ok (set_work (Some configuration) m)
  end.
Definition manager_historyCaughtup (m : Manager) : Manager := set_work None m.

Definition startCatchup (configuration : CatchupConfiguration) (manualCatchup : bool) (m : Manager) : res Manager :=
  let lastClosed := hhe_seq (mg_lcl m) in
  if negb (cc_toLedger configuration =? CURRENT) && (cc_toLedger configuration <=? lastClosed)
  then Throw (InvalidArgument "Target ledger is not newer than LCL")
  else
    let m := setCatchupState CS_APPLYING_HISTORY m in
    _ ← assert_ (Bool.eqb manualCatchup (bool_decide (mg_syncingLedgers m = [])));
    catchupHistory configuration m.

Definition startCatchupIf (lastReceivedLedgerSeq : Z) (m : Manager) : res Manager :=
  match mg_syncingLedgers m with
  | [] => Throw AssertFailed
  | front :: _ =>
      _ ← assert_ (negb (bool_decide (mg_catchupState m = CS_NONE)));
      if negb (bool_decide (mg_catchupState m = CS_WAITING_FOR_TRIGGER_LEDGER)) then Ok m
      else if mg_catchupTriggerLedger m <=? lastReceivedLedgerSeq then
        let m := setCatchupState CS_APPLYING_HISTORY m in
        startCatchup (mkCatchupConfiguration catchupCount (u32 (lcd_ledgerSeq front - 1)) (Some (lcd_previous front))) false m
      else Ok m
  end.

Definition initializeCatchup (d : LedgerCloseData) (m : Manager) : res Manager :=
  _ ← assert_ (negb (bool_decide (mg_state m = LM_CATCHING_UP_STATE)));
  _ ← assert_ (bool_decide (mg_catchupState m = CS_NONE));
  _ ← assert_ (bool_decide (mg_syncingLedgers m = []));
  let m := setState LM_CATCHING_UP_STATE m in
  let m := set_trigger (u32 (nextCheckpointLedger (lcd_ledgerSeq d) + 1)) m in
  let m := setCatchupState CS_WAITING_FOR_TRIGGER_LEDGER m in
  startCatchupIf (lcd_ledgerSeq d) (addToSyncingLedgers d m).

Definition continueCatchup (d : LedgerCloseData) (m : Manager) : res Manager :=
  _ ← assert_ (bool_decide (mg_state m = LM_CATCHING_UP_STATE));
  startCatchupIf (lcd_ledgerSeq d) (addToSyncingLedgers d m).

Definition closeLedgerIf (d : LedgerCloseData) (m : Manager) : res (CloseLedgerIfResult * Manager) :=
  if u32 (hhe_seq (mg_lcl m) + 1) =? lcd_ledgerSeq d then
    if hhe_hash (mg_lcl m) =? lcd_previous d then
      l ← closeNext d (mg_ledger m);
      Ok (LEDGER_CLOSED, set_ledger l m)
    else Throw (RuntimeError "Network consensus inconsistency")
  else if lcd_ledgerSeq d <=? hhe_seq (mg_lcl m) then Ok (LEDGER_TOO_OLD, m)
  else Ok (LEDGER_TOO_NEW, m).

Definition finalizeCatchup (d : LedgerCloseData) (m : Manager) : res Manager :=
  _ ← assert_ (bool_decide (mg_state m = LM_CATCHING_UP_STATE));
  _ ← assert_ (bool_decide (mg_catchupState m = CS_WAITING_FOR_CLOSING_LEDGER));
  _ ← assert_ (bool_decide (mg_syncingLedgers m = []));
  '(r, m) ← closeLedgerIf d m;
  match r with
  | LEDGER_CLOSED => Ok (setState LM_SYNCED_STATE m)
  | LEDGER_TOO_OLD => Ok m
  | LEDGER_TOO_NEW => initializeCatchup d (setState LM_BOOTING_STATE m)
  end.

Definition valueExternalized (d : LedgerCloseData) (m : Manager) : res Manager :=
  match mg_state m with
  | LM_BOOTING_STATE | LM_SYNCED_STATE =>
      '(r, m) ← closeLedgerIf d m;
      match r with
      | LEDGER_CLOSED => Ok (setState LM_SYNCED_STATE m)
      | LEDGER_TOO_OLD => Ok m
      | LEDGER_TOO_NEW => initializeCatchup d m
      end
  | LM_CATCHING_UP_STATE =>
      match mg_catchupState m with
      | CS_WAITING_FOR_CLOSING_LEDGER => finalizeCatchup d m
      | _ => continueCatchup d m
      end
  end.

Definition applyBufferedLedgers (m : Manager) : res Manager :=
  _ ← assert_ (bool_decide (mg_catchupState m = CS_APPLYING_BUFFERED_LEDGERS));
  match mg_syncingLedgers m with
  | [] => Ok (setCatchupState CS_WAITING_FOR_CLOSING_LEDGER m)
  | _ :: _ => Ok (set_posted (S (mg_posted m)) m)
  end.

(** the continuation that [applyBufferedLedgers] posts *)
Definition applyBuffered_posted (m : Manager) : res Manager :=
  match mg_syncingLedgers m with
  | [] => Throw NullPointer
  | lcd :: chain =>
      let m := set_syncing chain m in
      _ ← assert_ (lcd_ledgerSeq lcd =? u32 (hhe_seq (mg_lcl m) + 1));
      l ← closeNext lcd (mg_ledger m);
      applyBufferedLedgers (set_ledger l m)
  end.

(** the callback of the catch-up *)
Definition historyCaughtup (ec : bool) (progressState : ProgressState) (lastClosed : LedgerHeaderHistoryEntry) (m : Manager)
    : res Manager :=
  _ ← assert_ (bool_decide (mg_catchupState m = CS_APPLYING_HISTORY));
  if ec then Ok (set_syncing [] (manager_historyCaughtup (setState LM_BOOTING_STATE m)))
  else
    match progressState with
    | APPLIED_BUCKETS => Ok (set_ledger (assumeLedger lastClosed (mg_ledger m)) m)
    | APPLIED_TRANSACTIONS =>
        _ ← assert_ (hhe_hash lastClosed =? hhe_hash (mg_lcl m));
        _ ← assert_ (bool_decide (hhe_header lastClosed = hhe_header (mg_lcl m)));
        Ok m
    | FINISHED =>
        let m := manager_historyCaughtup m in
        applyBufferedLedgers (setCatchupState CS_APPLYING_BUFFERED_LEDGERS m)
    end.

(** ** Commands of the operator *)

(** [CommandHandler::catchup] on well-formed parameters: the ledger to catch up to, and
    the number of ledgers to replay that the mode stands for *)
Definition command_catchup (ledger count : Z) (m : Manager) : res Manager :=
  match mg_state m with
  | LM_BOOTING_STATE | LM_CATCHING_UP_STATE => Ok m
  | LM_SYNCED_STATE => startCatchup (mkCatchupConfiguration count ledger None) true m
  end.

(** ** Executions *)

(** what a catch-up promises when it reports its end without an error; one to the
    current ledger of the archive has no target *)
Definition caught_up (cfg : CatchupConfiguration) (m : Manager) : Prop :=
  (cc_toLedger cfg = CURRENT \/ hhe_seq (mg_lcl m) = cc_toLedger cfg) /\ from_option (fun h => hhe_hash (mg_lcl m) = h) True (cc_hash cfg).

(** the events: a value of the network, a ledger that the catch-up replays, its
    callbacks, and a continuation on the main thread; if [manual] is true, also the
    catch-ups that an operator starts: by a command while the node runs, or
    (ApplicationUtils.cpp) when it has been started for that *)
Inductive lm_step (manual : bool) : Manager -> Manager -> Prop :=
| step_bootstrap m :
    mg_state m = LM_BOOTING_STATE -> lm_step manual m (bootstrap m)
| step_value d m m' :
    is_u32 (lcd_ledgerSeq d) -> valueExternalized d m = Ok m' -> lm_step manual m m'
| step_replay cfg d l m :
    mg_catchupWork m = Some cfg -> closeNext d (mg_ledger m) = Ok l -> lm_step manual m (set_ledger l m)
| step_failed cfg p e m m' :
    mg_catchupWork m = Some cfg -> historyCaughtup true p e m = Ok m' -> lm_step manual m m'
| step_buckets cfg e m m' :
    is_u32 (hhe_seq e) -> mg_catchupWork m = Some cfg -> historyCaughtup false APPLIED_BUCKETS e m = Ok m' -> lm_step manual m m'
| step_transactions cfg e m m' :
    mg_catchupWork m = Some cfg -> historyCaughtup false APPLIED_TRANSACTIONS e m = Ok m' -> lm_step manual m m'
| step_finished cfg e m m' :
    mg_catchupWork m = Some cfg -> caught_up cfg m -> historyCaughtup false FINISHED e m = Ok m' -> lm_step manual m m'
| step_posted m m' n :
    mg_posted m = S n -> applyBuffered_posted (set_posted n m) = Ok m' -> lm_step manual m m'
| step_command ledger count m m' :
    manual = true -> command_catchup ledger count m = Ok m' -> lm_step manual m m'
| step_started cfg m m' :
    manual = true -> mg_state m = LM_BOOTING_STATE -> startCatchup cfg true m = Ok m' -> lm_step manual m m'.

Definition lm_reachable (manual : bool) (l : L) (m : Manager) : Prop := rtc (lm_step manual) (newManager l) m.

(** the continuations that are posted, one after the other *)
Fixpoint runPosted (n : nat) (m : Manager) : res Manager :=
  match n with
  | O => Ok m
  | S n =>
      match mg_posted m with
      | O => Ok m
      | S p => m ← applyBuffered_posted (set_posted p m); runPosted n m
      end
  end.

End Code.
Arguments Manager L : clear implicits.
