(* ===== verification/CatchupSafety.v ===== *)
(** * A node that falls behind catches up and stays in sync

    The invariant of the state machine of CatchupStates, and what follows from it. *)
From S2P Require Import Prelude LedgerEntries Checkpoints TxSet LedgerClose VerifyChain CatchupStates.

Section Safety.
Context {HC : HistoryConfig} {HH : HeaderHash} {L : Type} {LC : LedgerCloser L}.
Context (catchupCount : Z).
Notation Manager := (Manager L).
Notation lm_step := (lm_step catchupCount).

Definition lcl_seq (m : Manager) : Z := hhe_seq (mg_lcl m).

(** consecutive ledgers *)
Fixpoint contiguous (l : list LedgerCloseData) : Prop :=
  match l with
  | [] => True
  | a :: l' => is_u32 (lcd_ledgerSeq a) /\ match l' with [] => True | b :: _ => lcd_ledgerSeq b = u32 (lcd_ledgerSeq a + 1) end /\ contiguous l'
  end.

(** the ledgers that are buffered, the first of which satisfies [P] *)
Definition buffered (P : LedgerCloseData -> Prop) (m : Manager) : Prop :=
  contiguous (mg_syncingLedgers m) /\ exists f l, mg_syncingLedgers m = f :: l /\ P f.

(** the catch-up that leads to the ledger before [f] *)
Definition work_to (f : LedgerCloseData) : CatchupConfiguration :=
  mkCatchupConfiguration catchupCount (u32 (lcd_ledgerSeq f - 1)) (Some (lcd_previous f)).

(** the buffered ledgers go on from the last closed one *)
Definition goes_on (m : Manager) : Prop :=
  forall f, head (mg_syncingLedgers m) = Some f -> lcd_ledgerSeq f = u32 (lcl_seq m + 1).

(** A catch-up that the node starts by itself ends before the first buffered ledger;
    one that an operator starts may end anywhere. *)
Definition consistent (manual : bool) (m : Manager) : Prop :=
  is_u32 (lcl_seq m) /\
  (mg_state m = LM_CATCHING_UP_STATE <-> mg_catchupState m <> CS_NONE) /\
  match mg_catchupState m with
  | CS_NONE | CS_WAITING_FOR_CLOSING_LEDGER => mg_syncingLedgers m = [] /\ mg_catchupWork m = None /\ mg_posted m = O
  | CS_WAITING_FOR_TRIGGER_LEDGER =>
      mg_catchupWork m = None /\ mg_posted m = O /\ buffered (fun f => lcl_seq m + 1 < lcd_ledgerSeq f) m
  | CS_APPLYING_HISTORY =>
      mg_posted m = O /\ contiguous (mg_syncingLedgers m) /\ exists cfg, mg_catchupWork m = Some cfg /\
        (manual = true \/ exists f l, mg_syncingLedgers m = f :: l /\ cfg = work_to f /\ 1 < lcd_ledgerSeq f)
  | CS_APPLYING_BUFFERED_LEDGERS =>
      mg_catchupWork m = None /\ mg_posted m = 1%nat /\
      buffered (fun f => manual = true \/ lcd_ledgerSeq f = u32 (lcl_seq m + 1)) m
  end.

Lemma assert_dec (P : Prop) `{Decision P} : P -> assert_ (bool_decide P) = Ok tt.
Proof. intros HP. by rewrite bool_decide_eq_true_2. Qed.

(** ** The buffered ledgers *)

Lemma contiguous_snoc l d :
  contiguous l -> is_u32 (lcd_ledgerSeq d) -> (forall b, last l = Some b -> lcd_ledgerSeq d = u32 (lcd_ledgerSeq b + 1)) ->
  contiguous (l ++ [d]).
Proof.
  intros Hl Hd Hb. induction l as [|a l IH]; [by cbn|]. destruct Hl as (H1 & H2 & H3). cbn [app contiguous].
  split; [done|]. destruct l as [|b l]; cbn [app].
  - split; [by apply Hb|]. by cbn.
  - split; [done|]. apply IH; [done|]. intros x Hx. apply Hb. exact Hx.
Qed.

(** adding a ledger keeps what is buffered, and the first one *)
Lemma push_contiguous d l :
  is_u32 (lcd_ledgerSeq d) -> contiguous l ->
  contiguous (snd (push d l)) /\ (exists f k, snd (push d l) = f :: k) /\
  forall f k, l = f :: k -> exists k', snd (push d l) = f :: k'.
Proof.
  intros Hd Hc. unfold push. destruct (last l) as [b|] eqn:El.
  - destruct l as [|f k]; [done|]. destruct (Z.eqb_spec (u32 (lcd_ledgerSeq b + 1)) (lcd_ledgerSeq d)).
    + cbn [snd]. split; [|split; [cbn; eauto|intros ? ? [= <- <-]; cbn; eauto]]. apply contiguous_snoc; [done|done|].
      intros x Hx. rewrite El in Hx. congruence.
    + destruct (_ <=? _); cbn [snd]; split_and!; eauto.
  - apply last_None in El as ->. cbn. split; [done|]. split; [eauto|done].
Qed.
Lemma buffered_push P d m :
  is_u32 (lcd_ledgerSeq d) -> buffered P m -> buffered P (addToSyncingLedgers d m).
Proof.
  intros Hd (Hc & f & l & E & HP). unfold buffered, addToSyncingLedgers. cbn [set_syncing mg_syncingLedgers].
  destruct (push_contiguous d (mg_syncingLedgers m) Hd Hc) as (H1 & _ & H3). destruct (H3 f l E) as [k Hk]. eauto.
Qed.

Lemma push_first d : snd (push d []) = [d].
Proof. done. Qed.

(** ** Starting a catch-up *)

Lemma startCatchupIf_ok manual s m :
  is_u32 (lcl_seq m) -> mg_state m = LM_CATCHING_UP_STATE -> mg_catchupState m = CS_WAITING_FOR_TRIGGER_LEDGER ->
  mg_catchupWork m = None -> mg_posted m = O -> buffered (fun f => lcl_seq m + 1 < lcd_ledgerSeq f) m ->
  exists m', startCatchupIf catchupCount s m = Ok m' /\ consistent manual m' /\ mg_ledger m' = mg_ledger m.
Proof.
  intros Hu H1 H2 H3 H4 (Hc & f & l & E & Hf). unfold startCatchupIf. rewrite E, H2. cbn [negb bool_decide].
  rewrite assert_true by done. cbn [mbind res_bind]. rewrite bool_decide_eq_true_2 by done. cbn [negb].
  destruct (mg_catchupTriggerLedger m <=? s).
  - assert (Hfu : is_u32 (lcd_ledgerSeq f)) by (rewrite E in Hc; by destruct Hc).
    unfold startCatchup, mg_lcl, setCatchupState, setState. cbn [mg_state mg_ledger]. rewrite H1.
    rewrite bool_decide_eq_true_2 by done. cbn [cc_toLedger mg_ledger mg_syncingLedgers].
    unfold lcl_seq, mg_lcl in *. rewrite (u32_id (lcd_ledgerSeq f - 1)) by (unfold is_u32 in *; lia).
    destruct (Z.leb_spec (lcd_ledgerSeq f - 1) (hhe_seq (lastClosedLedger (mg_ledger m)))); [unfold is_u32 in *; lia|].
    rewrite andb_false_r. cbn [mg_state mg_ledger mg_syncingLedgers mg_catchupState]. rewrite bool_decide_eq_true_2 by done.
    cbn [mg_syncingLedgers]. rewrite E. rewrite bool_decide_eq_false_2 by done. cbn [Bool.eqb]. rewrite assert_true by done.
    cbn [mbind res_bind]. unfold catchupHistory. cbn [mg_catchupWork]. rewrite H3. eexists. split; [done|]. split; [|done].
    unfold consistent, lcl_seq, mg_lcl, set_work, buffered, work_to.
    cbn [mg_state mg_ledger mg_syncingLedgers mg_catchupState mg_posted mg_catchupWork].
    split_and!; try done; [by rewrite <- E|]. eexists. split; [done|]. right. exists f, l. split; [done|].
    rewrite u32_id by (unfold is_u32 in *; lia). split; [done|]. unfold is_u32 in *. lia.
  - exists m. split; [done|]. split; [|done]. unfold consistent. rewrite H1, H2. split_and!; try done. unfold buffered. eauto.
Qed.

Lemma initializeCatchup_ok manual d m :
  is_u32 (lcd_ledgerSeq d) -> is_u32 (lcl_seq m) -> lcl_seq m + 1 < lcd_ledgerSeq d ->
  mg_state m <> LM_CATCHING_UP_STATE -> mg_catchupState m = CS_NONE -> mg_syncingLedgers m = [] ->
  mg_catchupWork m = None -> mg_posted m = O ->
  exists m', initializeCatchup catchupCount d m = Ok m' /\ consistent manual m' /\ mg_ledger m' = mg_ledger m.
Proof.
  intros Hd Hu Hlt H1 H2 H3 H4 H5. unfold initializeCatchup.
  rewrite (assert_true (negb _)) by (by rewrite bool_decide_eq_false_2). cbn [mbind res_bind].
  rewrite (assert_dec (mg_catchupState m = CS_NONE)) by done. cbn [mbind res_bind].
  rewrite (assert_dec (mg_syncingLedgers m = [])) by done. cbn [mbind res_bind].
  unfold setState at 1. rewrite (bool_decide_eq_false_2 (_ = mg_state m)) by congruence.
  unfold setCatchupState, setState, set_trigger, addToSyncingLedgers.
  cbn [mg_state mg_ledger mg_syncingLedgers mg_catchupState mg_posted mg_catchupWork mg_catchupTriggerLedger].
  rewrite !bool_decide_eq_true_2 by done. unfold set_syncing.
  cbn [mg_state mg_ledger mg_syncingLedgers mg_catchupState mg_posted mg_catchupWork mg_catchupTriggerLedger].
  rewrite H3, push_first.
  match goal with |- context [startCatchupIf _ ?s ?x] => set (m1 := x) end.
  destruct (startCatchupIf_ok manual (lcd_ledgerSeq d) m1) as (m' & E & C & El); try done; [|by exists m'].
  split; [by cbn|]. exists d, []. split; [done|]. exact Hlt.
Qed.

(** ** Values of the network *)

(** the ledger is the one before, or the next one after it *)
Definition advances (l l' : L) : Prop :=
  l' = l \/
  hhe_seq (lastClosedLedger l') = u32 (hhe_seq (lastClosedLedger l) + 1) /\
  hhe_prev (lastClosedLedger l') = hhe_hash (lastClosedLedger l) /\
  hhe_hash (lastClosedLedger l') = headerHash (hhe_header (lastClosedLedger l')).

Lemma closeNext_advances d l l' : closeNext d l = Ok l' -> advances l l'.
Proof. intros (_ & H1 & H2 & H3 & _)%closeNext_follows. right. done. Qed.
Lemma closeNext_u32 d l l' : closeNext d l = Ok l' -> is_u32 (hhe_seq (lastClosedLedger l')).
Proof. intros (_ & -> & _)%closeNext_follows. apply u32_range. Qed.

Lemma closeLedgerIf_spec d m :
  is_u32 (lcd_ledgerSeq d) ->
  match closeLedgerIf d m with
  | Ok (LEDGER_CLOSED, m') => exists l, closeNext d (mg_ledger m) = Ok l /\ m' = set_ledger l m
  | Ok (LEDGER_TOO_OLD, m') => m' = m
  | Ok (LEDGER_TOO_NEW, m') => m' = m /\ lcl_seq m + 1 < lcd_ledgerSeq d
  | Throw e => lcd_ledgerSeq d = u32 (lcl_seq m + 1) /\
      (closeNext d (mg_ledger m) = Throw e \/
       hhe_hash (mg_lcl m) <> lcd_previous d /\ e = RuntimeError "Network consensus inconsistency")
  end.
Proof.
  intros Hd. unfold closeLedgerIf. fold (lcl_seq m).
  destruct (Z.eqb_spec (u32 (lcl_seq m + 1)) (lcd_ledgerSeq d)) as [E | E].
  - destruct (Z.eqb_spec (hhe_hash (mg_lcl m)) (lcd_previous d)); [|split; auto].
    destruct (closeNext d (mg_ledger m)) as [l|x]; cbn [mbind res_bind]; [by exists l|split; auto].
  - destruct (Z.leb_spec (lcd_ledgerSeq d) (lcl_seq m)); [done|]. split; [done|].
    destruct (Z.eq_dec (lcd_ledgerSeq d) (lcl_seq m + 1)) as [E2|]; [|lia].
    exfalso. apply E. rewrite <- E2. by apply u32_id.
Qed.

(** the exceptions of handling a value *)
Definition refused (d : LedgerCloseData) (m : Manager) (x : exn) : Prop :=
  lcd_ledgerSeq d = u32 (lcl_seq m + 1) /\
  (closeNext d (mg_ledger m) = Throw x \/
   hhe_hash (mg_lcl m) <> lcd_previous d /\ x = RuntimeError "Network consensus inconsistency").

Lemma setState_same s (m : Manager) : mg_state m = s -> setState s m = m.
Proof. intros H. unfold setState. by rewrite bool_decide_eq_true_2. Qed.

Lemma setState_synced manual m :
  is_u32 (lcl_seq m) -> (mg_state m = LM_SYNCED_STATE -> mg_catchupState m = CS_NONE) -> mg_syncingLedgers m = [] -> mg_catchupWork m = None -> mg_posted m = O ->
  consistent manual (setState LM_SYNCED_STATE m) /\ mg_ledger (setState LM_SYNCED_STATE m) = mg_ledger m /\
  mg_state (setState LM_SYNCED_STATE m) = LM_SYNCED_STATE /\ mg_catchupState (setState LM_SYNCED_STATE m) = CS_NONE.
Proof.
  intros Hu Hs H1 H2 H3. unfold setState. case_bool_decide as E.
  - split; [|by auto]. unfold consistent. rewrite Hs, <- E by done. by split_and!.
  - split; [|done]. unfold consistent, lcl_seq. cbn. by split_and!.
Qed.

(** every value is handled: the node stays consistent, closes at most the next
    ledger, and raises no other exception than those of closing it *)
Lemma valueExternalized_spec manual d m :
  is_u32 (lcd_ledgerSeq d) -> consistent manual m ->
  match valueExternalized catchupCount d m with
  | Ok m' => consistent manual m' /\ advances (mg_ledger m) (mg_ledger m')
  | Throw x => refused d m x
  end.
Proof.
  intros Hd (Hu & Hst & Hc). unfold valueExternalized.
  destruct (decide (mg_state m = LM_CATCHING_UP_STATE)) as [Hcu | Hncu].
  - rewrite Hcu. destruct (mg_catchupState m) eqn:Ecs; try done.
    + by destruct (proj1 Hst Hcu).
    + destruct Hc as (C1 & C2 & C3). unfold continueCatchup. rewrite assert_dec by done. cbn [mbind res_bind].
      destruct (startCatchupIf_ok manual (lcd_ledgerSeq d) (addToSyncingLedgers d m)) as (m' & -> & C & El); try done.
      * by apply buffered_push.
      * split; [done|]. left. exact El.
    + destruct Hc as (C1 & C3 & cfg & C4 & C5). unfold continueCatchup. rewrite assert_dec by done. cbn [mbind res_bind].
      destruct (push_contiguous d (mg_syncingLedgers m) Hd C3) as (B1 & (f & k & B2) & B3).
      unfold startCatchupIf, addToSyncingLedgers. cbn [set_syncing mg_syncingLedgers]. rewrite B2.
      cbn [set_syncing mg_catchupState]. rewrite Ecs. cbn. split; [|by left].
      unfold consistent. cbn [set_syncing mg_catchupState mg_state mg_posted mg_catchupWork mg_syncingLedgers].
      rewrite Ecs, Hcu. split_and!; try done; [by rewrite <- B2|].
      exists cfg. split; [done|]. destruct C5 as [C5 | (g & l & E & C5 & C6)]; [by left|right].
      destruct (B3 g l E) as [k' Hk']. rewrite B2 in Hk'. injection Hk' as -> ->. by exists g, k'.
    + destruct Hc as (C1 & C2 & C3). unfold continueCatchup. rewrite assert_dec by done. cbn [mbind res_bind].
      apply (buffered_push _ d) in C3; [|done]. destruct C3 as (B1 & f & l & B2 & B3). unfold startCatchupIf. rewrite B2.
      cbn [addToSyncingLedgers set_syncing mg_catchupState]. rewrite Ecs. cbn. split; [|by left].
      unfold consistent. cbn [addToSyncingLedgers set_syncing mg_catchupState mg_state]. rewrite Ecs, Hcu. split_and!; try done.
      unfold buffered. eauto.
    + destruct Hc as (C1 & C2 & C3). unfold finalizeCatchup. rewrite !assert_dec by done. cbn [mbind res_bind].
      pose proof (closeLedgerIf_spec d m Hd) as Hcl. destruct (closeLedgerIf d m) as [[r m1]|x]; [|done].
      cbn [mbind res_bind]. destruct r.
      * destruct Hcl as (l & El & ->). destruct (setState_synced manual (set_ledger l m)) as (S1 & S2 & _ & _); try done.
        { by eapply closeNext_u32. } { cbn. by rewrite Hcu. }
        split; [done|]. rewrite S2. by eapply closeNext_advances.
      * subst m1. split; [|by left]. unfold consistent. by rewrite Ecs, Hcu.
      * destruct Hcl as [-> Hlt]. destruct (initializeCatchup_ok manual d (setState LM_BOOTING_STATE m)) as (m' & -> & C & El);
          unfold setState; rewrite ?bool_decide_eq_false_2 by (by rewrite Hcu); try done.
        split; [done|]. left. rewrite El. unfold setState. by rewrite bool_decide_eq_false_2 by (by rewrite Hcu).
  - assert (Hno : mg_catchupState m = CS_NONE) by (destruct (decide (mg_catchupState m = CS_NONE)); [done|by destruct Hncu; apply Hst]).
    rewrite Hno in Hc. destruct Hc as (C1 & C2 & C3).
    pose proof (closeLedgerIf_spec d m Hd) as Hcl.
    assert (Hb : match ('(r, m) ← closeLedgerIf d m;
        match r with
        | LEDGER_CLOSED => Ok (setState LM_SYNCED_STATE m)
        | LEDGER_TOO_OLD => Ok m
        | LEDGER_TOO_NEW => initializeCatchup catchupCount d m
        end) with Ok m' => consistent manual m' /\ advances (mg_ledger m) (mg_ledger m') | Throw x => refused d m x end); [|by destruct (mg_state m)].
    destruct (closeLedgerIf d m) as [[r m1]|x]; [|done]. cbn [mbind res_bind]. destruct r.
    + destruct Hcl as (l & El & ->). destruct (setState_synced manual (set_ledger l m)) as (S1 & S2 & _ & _); try done.
      { by eapply closeNext_u32. }
      split; [done|]. rewrite S2. by eapply closeNext_advances.
    + subst m1. split; [|by left]. unfold consistent. by rewrite Hno.
    + destruct Hcl as [-> Hlt]. destruct (initializeCatchup_ok manual d m) as (m' & -> & C & El); try done. split; [done|]. by left.
Qed.

(** ** The end of a catch-up *)

Lemma applyBufferedLedgers_ok manual m :
  is_u32 (lcl_seq m) -> mg_state m = LM_CATCHING_UP_STATE -> mg_catchupState m = CS_APPLYING_BUFFERED_LEDGERS ->
  mg_catchupWork m = None -> mg_posted m = O -> contiguous (mg_syncingLedgers m) ->
  manual = true \/ goes_on m ->
  exists m', applyBufferedLedgers m = Ok m' /\ consistent manual m' /\ mg_ledger m' = mg_ledger m /\
    mg_syncingLedgers m' = mg_syncingLedgers m /\
    mg_catchupState m' = match mg_syncingLedgers m with [] => CS_WAITING_FOR_CLOSING_LEDGER | _ => CS_APPLYING_BUFFERED_LEDGERS end.
Proof.
  intros Hu H1 H2 H3 H4 Hc Hf. unfold applyBufferedLedgers. rewrite assert_dec by done. cbn [mbind res_bind].
  destruct (mg_syncingLedgers m) as [|f l] eqn:E.
  - eexists. split; [done|]. unfold setCatchupState. rewrite setState_same by done. split_and!; try done.
  - eexists. split; [done|]. split; [|split_and!; done]. unfold consistent, lcl_seq, set_posted, buffered. cbn -[contiguous is_u32].
    rewrite H1, H2, H4, E. split_and!; try done. exists f, l. split; [done|]. destruct Hf as [Hf | Hf]; [by left|]. right. apply Hf. by rewrite E.
Qed.

Lemma posted_ok manual m n :
  consistent manual m -> mg_posted m = S n ->
  exists f l, mg_syncingLedgers m = f :: l /\ n = O /\ mg_catchupState m = CS_APPLYING_BUFFERED_LEDGERS /\
    (lcd_ledgerSeq f <> u32 (lcl_seq m + 1) -> manual = true /\ applyBuffered_posted (set_posted n m) = Throw AssertFailed) /\
    (lcd_ledgerSeq f = u32 (lcl_seq m + 1) ->
     match closeNext f (mg_ledger m) with
     | Ok l' => exists m', applyBuffered_posted (set_posted n m) = Ok m' /\ consistent manual m' /\ mg_ledger m' = l' /\
         mg_syncingLedgers m' = l /\ goes_on m' /\
         mg_catchupState m' = match l with [] => CS_WAITING_FOR_CLOSING_LEDGER | _ => CS_APPLYING_BUFFERED_LEDGERS end
     | Throw x => applyBuffered_posted (set_posted n m) = Throw x
     end).
Proof.
  intros (Hu & Hst & Hc) Hp.
  assert (Hcs : mg_catchupState m = CS_APPLYING_BUFFERED_LEDGERS).
  { destruct (mg_catchupState m); try done; destruct Hc as (H1 & H2); try destruct H2; congruence. }
  rewrite Hcs in Hc. destruct Hc as (C1 & C2 & C3 & f & l & E & Hf). assert (n = O) as -> by congruence. exists f, l.
  do 3 (split; [done|]). unfold applyBuffered_posted. cbn [set_posted mg_syncingLedgers]. rewrite E.
  change (mg_lcl (set_syncing l (set_posted 0 m))) with (mg_lcl m). fold (lcl_seq m). split.
  { intros Hne. destruct Hf as [Hf | Hf]; [|done]. split; [done|]. by rewrite (proj2 (Z.eqb_neq _ _) Hne). }
  clear Hf. intros Hf. rewrite Hf, Z.eqb_refl.
  rewrite assert_true by done. cbn [mbind res_bind set_syncing set_posted mg_ledger].
  destruct (closeNext f (mg_ledger m)) as [l'|x] eqn:El; [|done]. cbn [mbind res_bind].
  match goal with |- context [applyBufferedLedgers ?x] => set (m1 := x) end.
  rewrite E in C3. destruct C3 as (F1 & F2 & F3).
  assert (Hg : goes_on m1).
  { intros g Hg. cbn in Hg. destruct l as [|b l]; [done|]. injection Hg as ->. rewrite F2, Hf.
    unfold lcl_seq, m1, mg_lcl, set_ledger. cbn [mg_ledger]. apply closeNext_follows in El as (_ & -> & _). done. }
  destruct (applyBufferedLedgers_ok manual m1) as (m' & -> & C & S1 & S2 & S3); try done.
  - by eapply closeNext_u32.
  - cbn. apply Hst. by rewrite Hcs.
  - by right.
  - exists m'. split_and!; try done. unfold goes_on, lcl_seq, mg_lcl. rewrite S1, S2. exact Hg.
Qed.

(** the callbacks of a catch-up that runs *)
Lemma running_state manual cfg m :
  consistent manual m -> mg_catchupWork m = Some cfg ->
  mg_catchupState m = CS_APPLYING_HISTORY /\ mg_state m = LM_CATCHING_UP_STATE /\ mg_posted m = O /\
  contiguous (mg_syncingLedgers m) /\
  (manual = true \/ exists f l, mg_syncingLedgers m = f :: l /\ cfg = work_to f /\ 1 < lcd_ledgerSeq f).
Proof.
  intros (Hu & Hst & Hc) Hw. destruct (mg_catchupState m) eqn:Hcs; try (destruct Hc as (H1 & H2); try destruct H2; congruence).
  destruct Hc as (C1 & C2 & c & Hc & C3). rewrite Hw in Hc. injection Hc as <-. split_and!; try done. by apply Hst.
Qed.

Lemma failed_ok manual cfg p e m :
  consistent manual m -> mg_catchupWork m = Some cfg ->
  exists m', historyCaughtup true p e m = Ok m' /\ consistent manual m' /\ mg_ledger m' = mg_ledger m /\
    mg_state m' = LM_BOOTING_STATE.
Proof.
  intros Hc Hw. destruct (running_state _ _ _ Hc Hw) as (Hcs & Hcu & Hp & _).
  unfold historyCaughtup. rewrite assert_dec by done. cbn [mbind res_bind].
  eexists. split; [done|]. unfold setState. rewrite bool_decide_eq_false_2 by (by rewrite Hcu).
  split; [|done]. destruct Hc as [Hu _]. by unfold consistent; split_and!.
Qed.

(** the target of a catch-up that the node has started is before the first buffered ledger *)
Lemma caught_up_goes_on cfg f l m :
  contiguous (mg_syncingLedgers m) -> mg_syncingLedgers m = f :: l -> cfg = work_to f -> 1 < lcd_ledgerSeq f ->
  caught_up cfg m -> goes_on m.
Proof.
  intros B1 E -> Hf [Hs _] g Hg. rewrite E in Hg, B1. injection Hg as <-. destruct B1 as (B1 & _). unfold lcl_seq.
  cbn [work_to cc_toLedger] in Hs. unfold CURRENT, is_u32 in *. rewrite u32_id in Hs by (unfold is_u32; lia).
  destruct Hs as [Hs | ->]; [lia|]. rewrite u32_id by (unfold is_u32; lia). lia.
Qed.

Lemma finished_ok manual cfg e m :
  consistent manual m -> mg_catchupWork m = Some cfg -> manual = true \/ caught_up cfg m ->
  exists m', historyCaughtup false FINISHED e m = Ok m' /\ consistent manual m' /\ mg_ledger m' = mg_ledger m /\
    mg_syncingLedgers m' = mg_syncingLedgers m /\
    mg_catchupState m' = match mg_syncingLedgers m with [] => CS_WAITING_FOR_CLOSING_LEDGER | _ => CS_APPLYING_BUFFERED_LEDGERS end.
Proof.
  intros Hcon Hw Hcu'. destruct (running_state _ _ _ Hcon Hw) as (Hcs & Hcu & Hp & B1 & B2).
  unfold historyCaughtup. rewrite assert_dec by done. cbn [mbind res_bind].
  unfold setCatchupState, manager_historyCaughtup. rewrite setState_same by done.
  match goal with |- context [applyBufferedLedgers ?x] => set (m1 := x) end.
  destruct (applyBufferedLedgers_ok manual m1) as (m' & -> & C & S1 & S2 & S3); try done.
  - apply Hcon.
  - destruct B2 as [B2 | (f & l & E & B2 & B3)]; [by left|]. destruct Hcu' as [? | Hcu']; [by left|right].
    exact (caught_up_goes_on _ _ _ _ B1 E B2 B3 Hcu').
  - by exists m'.
Qed.

(** the commands of an operator *)
Lemma manual_ok cfg m :
  consistent true m -> mg_state m <> LM_CATCHING_UP_STATE ->
  match startCatchup cfg true m with
  | Ok m' => consistent true m' /\ mg_ledger m' = mg_ledger m
  | Throw x => cc_toLedger cfg <> CURRENT /\ cc_toLedger cfg <= lcl_seq m /\ x = InvalidArgument "Target ledger is not newer than LCL"
  end.
Proof.
  intros (Hu & Hst & Hc) Hne. assert (Hno : mg_catchupState m = CS_NONE).
  { destruct (decide (mg_catchupState m = CS_NONE)) as [|Hn]; [done|]. by apply Hst in Hn. }
  rewrite Hno in Hc. destruct Hc as (C1 & C2 & C3). unfold startCatchup. fold (lcl_seq m).
  destruct (negb _ && _) eqn:E; [apply andb_true_iff in E as [E1 E2]; split_and!; [|lia|done]; by apply negb_true_iff, Z.eqb_neq in E1|].
  clear E. unfold setCatchupState, setState. cbn [mg_state]. rewrite bool_decide_eq_false_2 by done.
  cbn [mg_syncingLedgers]. rewrite C1. rewrite (bool_decide_eq_true_2 (([] : list LedgerCloseData) = [])) by done.
  cbn [Bool.eqb]. rewrite assert_true by done. cbn [mbind res_bind]. unfold catchupHistory. cbn [mg_catchupWork]. rewrite C2.
  split; [|done]. unfold consistent, set_work. cbn [mg_state mg_catchupState mg_posted mg_syncingLedgers mg_catchupWork].
  rewrite bool_decide_eq_true_2 by done. rewrite ?C1. split_and!; try done. exists cfg. split; [done|by left].
Qed.

(** ** All executions *)

Lemma lm_step_ok manual m m' :
  consistent manual m -> lm_step manual m m' ->
  consistent manual m' /\
  (advances (mg_ledger m) (mg_ledger m') \/
   mg_catchupState m = CS_APPLYING_HISTORY /\ exists e, mg_ledger m' = assumeLedger e (mg_ledger m)).
Proof.
  intros Hcon H. destruct H.
  - destruct Hcon as (Hu & Hst & Hc). assert (Hno : mg_catchupState m = CS_NONE).
    { destruct (decide (mg_catchupState m = CS_NONE)) as [|Hn]; [done|]. apply Hst in Hn. congruence. }
    rewrite Hno in Hc. destruct Hc as (C1 & C2 & C3). destruct (setState_synced manual m) as (S1 & S2 & _); try done.
    split; [done|]. left. left. exact S2.
  - pose proof (valueExternalized_spec manual d m ltac:(done) Hcon) as Hv. rewrite H0 in Hv. destruct Hv. auto.
  - split; [|left; by eapply closeNext_advances].
    destruct (running_state _ _ _ Hcon H) as (Hcs & Hcu & Hp & B).
    unfold consistent. cbn -[is_u32 contiguous]. rewrite Hcs, Hcu. split_and!; try done; [by eapply closeNext_u32|apply B|].
    exists cfg. split; [done|]. apply B.
  - destruct (failed_ok manual cfg p e m Hcon) as (m1 & E & C & S1 & _); [done|]. rewrite E in H0. injection H0 as <-.
    split; [done|]. left. by left.
  - destruct (running_state _ _ _ Hcon H0) as (Hcs & Hcu & Hp & B).
    unfold historyCaughtup in H1. rewrite assert_dec in H1 by done. injection H1 as <-. split; [|right; eauto].
    unfold consistent, lcl_seq, mg_lcl. cbn -[is_u32 contiguous]. rewrite Hcs, Hcu, assumeLedger_lcl. split_and!; try done; [apply B|].
    exists cfg. split; [done|]. apply B.
  - destruct (running_state _ _ _ Hcon H) as (Hcs & _). unfold historyCaughtup in H0. rewrite (assert_dec (mg_catchupState m = CS_APPLYING_HISTORY)) in H0 by done.
    cbn [mbind res_bind] in H0. apply bind_ok_inv in H0 as (_ & _ & H0). apply bind_ok_inv in H0 as (_ & _ & [= <-]).
    split; [done|]. left. by left.
  - destruct (finished_ok manual cfg e m) as (m1 & E & C & S1 & _); try done; [by right|]. rewrite E in H1. injection H1 as <-.
    split; [done|]. left. by left.
  - destruct (posted_ok manual m n Hcon H) as (f & l & E & -> & Hcs & Hbad & Hm).
    destruct (decide (lcd_ledgerSeq f = u32 (lcl_seq m + 1))) as [Hf | Hf]; [|destruct (Hbad Hf); congruence].
    specialize (Hm Hf). destruct (closeNext f (mg_ledger m)) eqn:El.
    + destruct Hm as (m1 & E1 & C & S1 & _). rewrite E1 in H0. injection H0 as <-. split; [done|]. left. rewrite S1.
      by eapply closeNext_advances.
    + congruence.
  - subst manual. unfold command_catchup in H0. destruct (mg_state m) eqn:Es; [injection H0 as <-; split; [done|left; by left]| |injection H0 as <-; split; [done|left; by left]].
    pose proof (manual_ok (mkCatchupConfiguration count ledger None) m Hcon ltac:(congruence)) as Hm.
    rewrite H0 in Hm. destruct Hm as [Hm1 Hm2]. split; [done|]. left. by left.
  - subst manual. pose proof (manual_ok cfg m Hcon ltac:(congruence)) as Hm. rewrite H1 in Hm. destruct Hm as [Hm1 Hm2].
    split; [done|]. left. by left.
Qed.

Lemma newManager_consistent manual l : is_u32 (hhe_seq (lastClosedLedger l)) -> consistent manual (newManager l).
Proof. intros H. split; [done|]. by split; [split|]. Qed.

Lemma reachable_consistent manual l m :
  is_u32 (hhe_seq (lastClosedLedger l)) -> lm_reachable catchupCount manual l m -> consistent manual m.
Proof.
  intros Hu H. apply (newManager_consistent manual) in Hu. unfold lm_reachable in H. revert Hu.
  induction H as [|x y z Hs _ IH]; [done|]. intros Hc. apply IH. by eapply lm_step_ok.
Qed.

(** Claim C9: The manager handles every event.  In every state that a node can reach, with or
    without catch-ups that an operator starts ([manual]): a value of the network is
    handled, or the next ledger cannot be closed, so that no assertion about the
    states of the catch-up, the buffered ledgers or the catch-up work fails, and no
    catch-up is started twice or towards the past; the callbacks of a catch-up that
    runs are handled; the command of an operator fails only for a target that is not
    newer.  A continuation that applies a buffered ledger closes it if it is the next
    one.  If it is not, the assertion fails; this can happen only after a catch-up
    that an operator has started, never when the node starts them by itself. *)
Theorem catchup_events_are_handled manual l m :
  is_u32 (hhe_seq (lastClosedLedger l)) -> lm_reachable catchupCount manual l m ->
  (forall d x, is_u32 (lcd_ledgerSeq d) -> valueExternalized catchupCount d m = Throw x ->
     lcd_ledgerSeq d = u32 (lcl_seq m + 1) /\
     (closeNext d (mg_ledger m) = Throw x \/
      hhe_hash (mg_lcl m) <> lcd_previous d /\ x = RuntimeError "Network consensus inconsistency")) /\
  (forall n x, mg_posted m = S n -> applyBuffered_posted (set_posted n m) = Throw x ->
     exists f, head (mg_syncingLedgers m) = Some f /\
       (lcd_ledgerSeq f = u32 (lcl_seq m + 1) /\ closeNext f (mg_ledger m) = Throw x \/
        manual = true /\ lcd_ledgerSeq f <> u32 (lcl_seq m + 1) /\ x = AssertFailed)) /\
  (forall cfg, mg_catchupWork m = Some cfg ->
     (forall p e, exists m', historyCaughtup true p e m = Ok m' /\ mg_state m' = LM_BOOTING_STATE) /\
     (forall e, exists m', historyCaughtup false APPLIED_BUCKETS e m = Ok m' /\ mg_lcl m' = e) /\
     historyCaughtup false APPLIED_TRANSACTIONS (mg_lcl m) m = Ok m /\
     (forall e, caught_up cfg m -> exists m', historyCaughtup false FINISHED e m = Ok m')) /\
  (manual = true -> forall ledger count x, command_catchup ledger count m = Throw x ->
     ledger <> CURRENT /\ ledger <= lcl_seq m /\ x = InvalidArgument "Target ledger is not newer than LCL").
Proof.
  intros Hu Hr. pose proof (reachable_consistent manual l m Hu Hr) as Hc. split_and!.
  - intros d x Hd E. pose proof (valueExternalized_spec manual d m Hd Hc) as Hv. by rewrite E in Hv.
  - intros n x Hp E. destruct (posted_ok manual m n Hc Hp) as (f & k & Ef & -> & Hcs & Hbad & Hm). exists f. rewrite Ef. split; [done|].
    destruct (decide (lcd_ledgerSeq f = u32 (lcl_seq m + 1))) as [Hf | Hf].
    + left. split; [done|]. specialize (Hm Hf). destruct (closeNext f (mg_ledger m)) eqn:El; [|congruence].
      destruct Hm as (m' & E' & _). congruence.
    + right. destruct (Hbad Hf) as [? Hb]. rewrite Hb in E. injection E as <-. done.
  - intros cfg Hw. destruct (running_state _ _ _ Hc Hw) as (Hcs & _). split_and!.
    + intros p e. destruct (failed_ok manual cfg p e m Hc Hw) as (m' & E & _ & _ & S). eauto.
    + intros e. unfold historyCaughtup. rewrite assert_dec by done. cbn [mbind res_bind]. eexists. split; [done|].
      unfold mg_lcl. cbn. apply assumeLedger_lcl.
    + unfold historyCaughtup. rewrite assert_dec by done. cbn [mbind res_bind]. rewrite Z.eqb_refl, assert_dec by done. done.
    + intros e Hcu. destruct (finished_ok manual cfg e m Hc Hw) as (m' & E & _); [by right|]. eauto.
  - intros -> ledger count x E. unfold command_catchup in E. destruct (mg_state m) eqn:Es; [done| |done].
    pose proof (manual_ok (mkCatchupConfiguration count ledger None) m Hc ltac:(congruence)) as Hm. by rewrite E in Hm.
Qed.

(** The ledgers of a node form a chain.  A step of a reachable node leaves
    the last closed ledger as it is, or puts in its place one that has the next
    number and its hash; only while history is applied may the ledger be replaced,
    by the one whose buckets have been taken over. *)
Theorem closed_ledgers_form_a_chain manual l m m' :
  is_u32 (hhe_seq (lastClosedLedger l)) -> lm_reachable catchupCount manual l m -> lm_step manual m m' ->
  mg_lcl m' = mg_lcl m \/
  hhe_seq (mg_lcl m') = u32 (hhe_seq (mg_lcl m) + 1) /\ hhe_prev (mg_lcl m') = hhe_hash (mg_lcl m) /\
    hhe_hash (mg_lcl m') = headerHash (hhe_header (mg_lcl m')) \/
  mg_catchupState m = CS_APPLYING_HISTORY /\ exists e, mg_lcl m' = e /\ mg_ledger m' = assumeLedger e (mg_ledger m).
Proof.
  intros Hu Hr Hs. pose proof (reachable_consistent manual l m Hu Hr) as Hc.
  destruct (lm_step_ok _ _ _ Hc Hs) as (_ & [[Hl | Hl] | (H1 & e & H2)]).
  - left. unfold mg_lcl. by rewrite Hl.
  - auto.
  - right. right. split; [done|]. exists e. unfold mg_lcl. rewrite H2, assumeLedger_lcl. done.
Qed.

(** closing the ledgers of a list one after the other *)
Fixpoint closeAll (l : list LedgerCloseData) (x : L) : res L :=
  match l with [] => Ok x | d :: l => x ← closeNext d x; closeAll l x end.

Lemma runPosted_ok manual m l x :
  consistent manual m -> goes_on m ->
  mg_catchupState m = match l with [] => CS_WAITING_FOR_CLOSING_LEDGER | _ => CS_APPLYING_BUFFERED_LEDGERS end ->
  mg_syncingLedgers m = l -> closeAll l (mg_ledger m) = Ok x ->
  exists m', runPosted (length l) m = Ok m' /\ consistent manual m' /\ mg_ledger m' = x /\
    mg_catchupState m' = CS_WAITING_FOR_CLOSING_LEDGER.
Proof.
  revert m. induction l as [|d l IH]; intros m Hc Hg Hcs El Hx.
  - exists m. cbn in Hx. injection Hx as <-. by split_and!.
  - assert (Hp : mg_posted m = 1%nat) by (destruct Hc as (_ & _ & Hc); rewrite Hcs in Hc; apply Hc).
    destruct (posted_ok manual m 0 Hc Hp) as (f & k & E & _ & _ & _ & Hm). rewrite El in E. injection E as <- <-.
    specialize (Hm (Hg d ltac:(by rewrite El))).
    cbn [closeAll] in Hx. apply bind_ok_inv in Hx as (y & Hy & Hx). rewrite Hy in Hm. destruct Hm as (m1 & E1 & C1 & S1 & S2 & S3 & S4).
    cbn [length runPosted]. rewrite Hp, E1. cbn [mbind res_bind]. apply IH; try done. by rewrite S1.
Qed.

Lemma closeAll_seq l x y n :
  closeAll l x = Ok y -> length l = n -> u32 (hhe_seq (lastClosedLedger x)) = hhe_seq (lastClosedLedger x) ->
  hhe_seq (lastClosedLedger y) = u32 (hhe_seq (lastClosedLedger x) + Z.of_nat n).
Proof.
  revert x n. induction l as [|d l IH]; intros x n Hx Hn Hu; cbn in Hx, Hn.
  - injection Hx as <-. subst n. by rewrite Z.add_0_r.
  - apply bind_ok_inv in Hx as (z & Hz & Hx). destruct n as [|n]; [done|]. apply closeNext_follows in Hz as (_ & Hs & _).
    rewrite (IH z n); [|done|congruence|].
    + rewrite Hs. unfold u32. rewrite Zplus_mod_idemp_l. f_equal. lia.
    + rewrite Hs. unfold u32. by rewrite Zmod_mod.
Qed.

(** Claim C10: A node that has caught up comes back into sync.  When the catch-up reports its end
    and the buffered ledgers can be closed one after the other, the continuations
    on the main thread close all of them, one each, and the node waits for the
    network; the next value, if it follows the last of them, is closed and the
    node is synced again.  For a catch-up that the node has started by itself, the
    buffered ledgers go on from its target; of one that an operator has started this
    is required. *)
Theorem catchup_completes manual l m cfg e x :
  is_u32 (hhe_seq (lastClosedLedger l)) -> lm_reachable catchupCount manual l m ->
  mg_catchupWork m = Some cfg -> caught_up cfg m -> closeAll (mg_syncingLedgers m) (mg_ledger m) = Ok x ->
  (manual = true -> goes_on m) ->
  exists m1 m2,
    historyCaughtup false FINISHED e m = Ok m1 /\ runPosted (length (mg_syncingLedgers m)) m1 = Ok m2 /\
    mg_ledger m2 = x /\ hhe_seq (lastClosedLedger x) = u32 (lcl_seq m + Z.of_nat (length (mg_syncingLedgers m))) /\
    mg_syncingLedgers m2 = [] /\ mg_catchupState m2 = CS_WAITING_FOR_CLOSING_LEDGER /\
    forall d y, lcd_ledgerSeq d = u32 (lcl_seq m2 + 1) -> closeNext d x = Ok y ->
      exists m3, valueExternalized catchupCount d m2 = Ok m3 /\ mg_ledger m3 = y /\ mg_state m3 = LM_SYNCED_STATE /\
        mg_catchupState m3 = CS_NONE.
Proof.
  intros Hu Hr Hw Hcu Hx Hman. pose proof (reachable_consistent manual l m Hu Hr) as Hc.
  assert (Hg : goes_on m).
  { destruct (running_state _ _ _ Hc Hw) as (_ & _ & _ & B1 & [B2 | (f & k & E & B2 & B3)]); [by apply Hman|].
    exact (caught_up_goes_on _ _ _ _ B1 E B2 B3 Hcu). }
  destruct (finished_ok manual cfg e m Hc Hw) as (m1 & E1 & C1 & S1 & S2 & S3); [by right|].
  destruct (runPosted_ok manual m1 (mg_syncingLedgers m) x) as (m2 & E2 & C2 & S4 & S5); try done; [|by rewrite S1|].
  { unfold goes_on, lcl_seq, mg_lcl. rewrite S1, S2. exact Hg. }
  destruct C2 as (U2 & St2 & C2). rewrite S5 in C2. destruct C2 as (T1 & T2 & T3).
  assert (Hcu2 : mg_state m2 = LM_CATCHING_UP_STATE) by (apply St2; by rewrite S5).
  exists m1, m2. split_and!; try done.
  - eapply closeAll_seq; [exact Hx|done|]. apply u32_id. apply Hc.
  - intros d y Hd Hy. unfold valueExternalized. rewrite Hcu2, S5. unfold finalizeCatchup. rewrite !assert_dec by done.
    cbn [mbind res_bind]. unfold closeLedgerIf. fold (lcl_seq m2). rewrite Hd, Z.eqb_refl. rewrite <- S4 in Hy.
    pose proof (closeNext_follows _ _ _ Hy) as (Hp & _). unfold mg_lcl. rewrite <- Hp, Z.eqb_refl, Hy. cbn [mbind res_bind].
    eexists. split; [done|]. unfold setState. cbn [set_ledger mg_state]. rewrite Hcu2. by split_and!.
Qed.

End Safety.
