(* ===== verification/CatchupWork.v ===== *)
(** * The stages of a catch-up

    catchup/CatchupWork.cpp: the work adds one child after the other and reports its
    progress.  What a child has produced is an input of the model; the children that
    have logic of their own are those of VerifyChain and Replay. *)
From S2P Require Import Prelude LedgerEntries Checkpoints VerifyChain CatchupStates.

(** the part of [HistoryArchiveState] that the work looks at *)
Record ArchiveState := mkArchiveState { as_currentLedger : Z; as_bucketListHash : Hash }.

(** the children of the work, in the order of its members *)
Inductive CatchupChild :=
| mGetHistoryArchiveStateWork (atCheckpoint : Z)
| mDownloadLedgersWork (range : CheckpointRange)
| mVerifyLedgersWork (range : LedgerRange) (rangeEnd : LedgerNumHashPair)
| mGetBucketsHistoryArchiveStateWork (atCheckpoint : Z)
| mDownloadBucketsWork
| mApplyBucketsWork (state : ArchiveState)
| mDownloadTransactionsWork (range : CheckpointRange)
| mApplyTransactionsWork (range : LedgerRange).

(** a call of the progress handler *)
Record Progress := mkProgress { pg_ec : bool; pg_state : ProgressState; pg_lastClosed : LedgerHeaderHistoryEntry }.

(** which children there are, all of them successful, and the members of the work *)
Record CatchupWork := mkCatchupWork {
  cw_downloadLedgers : bool;
  cw_verifyLedgers : bool;
  cw_getBucketsState : bool;
  cw_downloadBuckets : bool;
  cw_applyBuckets : bool;
  cw_downloadTransactions : bool;
  cw_applyTransactions : bool;
  cw_bucketsAppliedEmitted : bool;
  cw_applyBucketsRemoteState : ArchiveState;
  cw_verifiedLedgerRangeStart : LedgerHeaderHistoryEntry
}.

(** what the work is started with: its configuration, the last closed ledger, and the
    archive state that its first child has fetched *)
Record CatchupEnv := mkCatchupEnv {
  ce_configuration : CatchupConfiguration;
  ce_lastClosed : Z * Hash;
  ce_remoteState : ArchiveState
}.
(** what the other children produce *)
Record ChildResults := mkChildResults {
  cr_verifiedStart : LedgerHeaderHistoryEntry;
  cr_bucketsState : ArchiveState;
  cr_lastApplied : LedgerHeaderHistoryEntry
}.

(** a round ends the work, adds a child, or throws *)
Inductive RoundResult := ROUND_SUCCESS | ROUND_PENDING (child : CatchupChild).

Section Code.
Context {HC : HistoryConfig}.

(** [onReset]: the members, and the first child *)
Definition catchup_onReset (configuration : CatchupConfiguration) : CatchupChild * CatchupWork :=
  let toCheckpoint :=
    if cc_toLedger configuration =? CURRENT then CURRENT
    else u32 (nextCheckpointLedger (u32 (cc_toLedger configuration + 1)) - 1) in
  (mGetHistoryArchiveStateWork toCheckpoint,
   mkCatchupWork false false false false false false false false (mkArchiveState 0 0) emptyHHE).

Definition hasAnyLedgersToCatchupTo (env : CatchupEnv) : bool :=
  fst (ce_lastClosed env) <=? as_currentLedger (ce_remoteState env).

(** the part of [onSuccess] for the buckets: the child to add, if one is missing *)
Definition bucketStages (env : CatchupEnv) (results : ChildResults) (lclNow : Z) (first : Z) (w : CatchupWork)
    : res (option CatchupChild * CatchupWork) :=
  let have := first =? as_currentLedger (ce_remoteState env) in
  if negb have && negb (cw_getBucketsState w) then
    Ok (Some (mGetBucketsHistoryArchiveStateWork first),
        mkCatchupWork (cw_downloadLedgers w) (cw_verifyLedgers w) true (cw_downloadBuckets w) (cw_applyBuckets w)
          (cw_downloadTransactions w) (cw_applyTransactions w) (cw_bucketsAppliedEmitted w)
          (cr_bucketsState results) (cw_verifiedLedgerRangeStart w))
  else
    let remote := if have then ce_remoteState env else cw_applyBucketsRemoteState w in
    let w := mkCatchupWork (cw_downloadLedgers w) (cw_verifyLedgers w) (cw_getBucketsState w) (cw_downloadBuckets w)
               (cw_applyBuckets w) (cw_downloadTransactions w) (cw_applyTransactions w) (cw_bucketsAppliedEmitted w)
               remote (cw_verifiedLedgerRangeStart w) in
    if negb (cw_downloadBuckets w) then
      Ok (Some mDownloadBucketsWork,
          mkCatchupWork (cw_downloadLedgers w) (cw_verifyLedgers w) (cw_getBucketsState w) true (cw_applyBuckets w)
            (cw_downloadTransactions w) (cw_applyTransactions w) (cw_bucketsAppliedEmitted w)
            remote (cw_verifiedLedgerRangeStart w))
    else if negb (cw_applyBuckets w) then
      _ ← assert_ (as_currentLedger remote =? hhe_seq (cw_verifiedLedgerRangeStart w));
      _ ← assert_ (as_bucketListHash remote =? bucketListHash (hhe_header (cw_verifiedLedgerRangeStart w)));
      if hhe_seq (cw_verifiedLedgerRangeStart w) <? lclNow
      then Throw (RuntimeError "Catchup MINIMAL applying ledger earlier than local LCL")
      else
        Ok (Some (mApplyBucketsWork remote),
            mkCatchupWork (cw_downloadLedgers w) (cw_verifyLedgers w) (cw_getBucketsState w) (cw_downloadBuckets w) true
              (cw_downloadTransactions w) (cw_applyTransactions w) (cw_bucketsAppliedEmitted w)
              remote (cw_verifiedLedgerRangeStart w))
    else Ok (None, w).

(** [onSuccess], when all children that there are have succeeded.  [lclNow] is the number
    of the last closed ledger at the time.  The results of a child that is
    added are in place when the next round begins. *)
Definition catchup_onSuccess (env : CatchupEnv) (results : ChildResults) (lclNow : Z) (w : CatchupWork)
    : res (RoundResult * list Progress * CatchupWork) :=
  if negb (hasAnyLedgersToCatchupTo env) then Ok (ROUND_SUCCESS, [mkProgress true FINISHED emptyHHE], w)
  else
    let resolved := resolveConfiguration (ce_configuration env) (as_currentLedger (ce_remoteState env)) in
    '(ledgerRange, buckets) ← makeCatchupRange (fst (ce_lastClosed env)) resolved;
    checkpointRange ← CheckpointRange_new ledgerRange;
    if negb (cw_downloadLedgers w) then
      Ok (ROUND_PENDING (mDownloadLedgersWork checkpointRange), [],
          mkCatchupWork true (cw_verifyLedgers w) (cw_getBucketsState w) (cw_downloadBuckets w) (cw_applyBuckets w)
            (cw_downloadTransactions w) (cw_applyTransactions w) (cw_bucketsAppliedEmitted w)
            (cw_applyBucketsRemoteState w) (cw_verifiedLedgerRangeStart w))
    else if negb (cw_verifyLedgers w) then
      Ok (ROUND_PENDING (mVerifyLedgersWork ledgerRange (lr_last ledgerRange, cc_hash resolved)), [],
          mkCatchupWork (cw_downloadLedgers w) true (cw_getBucketsState w) (cw_downloadBuckets w) (cw_applyBuckets w)
            (cw_downloadTransactions w) (cw_applyTransactions w) (cw_bucketsAppliedEmitted w)
            (cw_applyBucketsRemoteState w) (cw_verifiedLedgerRangeStart w))
    else
      let w := mkCatchupWork (cw_downloadLedgers w) (cw_verifyLedgers w) (cw_getBucketsState w) (cw_downloadBuckets w)
                 (cw_applyBuckets w) (cw_downloadTransactions w) (cw_applyTransactions w) (cw_bucketsAppliedEmitted w)
                 (cw_applyBucketsRemoteState w) (cr_verifiedStart results) in
      '(child, w) ← (if buckets : bool then bucketStages env results lclNow (cr_first checkpointRange) w else Ok (None, w));
      match child with
      | Some child => Ok (ROUND_PENDING child, [], w)
      | None =>
          let emit := buckets && negb (cw_bucketsAppliedEmitted w) in
          let events := if emit then [mkProgress false APPLIED_BUCKETS (cw_verifiedLedgerRangeStart w)] else [] in
          let w := mkCatchupWork (cw_downloadLedgers w) (cw_verifyLedgers w) (cw_getBucketsState w) (cw_downloadBuckets w)
                     (cw_applyBuckets w) (cw_downloadTransactions w) (cw_applyTransactions w)
                     (emit || cw_bucketsAppliedEmitted w)
                     (cw_applyBucketsRemoteState w) (cw_verifiedLedgerRangeStart w) in
          if negb (cw_downloadTransactions w) then
            Ok (ROUND_PENDING (mDownloadTransactionsWork checkpointRange), events,
                mkCatchupWork (cw_downloadLedgers w) (cw_verifyLedgers w) (cw_getBucketsState w) (cw_downloadBuckets w)
                  (cw_applyBuckets w) true (cw_applyTransactions w) (cw_bucketsAppliedEmitted w)
                  (cw_applyBucketsRemoteState w) (cw_verifiedLedgerRangeStart w))
          else if negb (cw_applyTransactions w) then
            Ok (ROUND_PENDING (mApplyTransactionsWork ledgerRange), events,
                mkCatchupWork (cw_downloadLedgers w) (cw_verifyLedgers w) (cw_getBucketsState w) (cw_downloadBuckets w)
                  (cw_applyBuckets w) (cw_downloadTransactions w) true (cw_bucketsAppliedEmitted w)
                  (cw_applyBucketsRemoteState w) (cw_verifiedLedgerRangeStart w))
          else
            Ok (ROUND_SUCCESS,
                events ++ [mkProgress false APPLIED_TRANSACTIONS (cr_lastApplied results);
                           mkProgress false FINISHED (cr_lastApplied results)], w)
      end.

(** rounds until the work ends: the children that have been added and the calls of
    the handler *)
Fixpoint catchup_run (fuel : nat) (env : CatchupEnv) (results : ChildResults) (lclNow : Z) (w : CatchupWork)
    : res (list CatchupChild * list Progress) :=
  match fuel with
  | O => Throw OutOfFuel
  | S fuel =>
      '(r, events, w) ← catchup_onSuccess env results lclNow w;
      match r with
      | ROUND_SUCCESS => Ok ([], events)
      | ROUND_PENDING child =>
          '(children, events') ← catchup_run fuel env results lclNow w;
          Ok (child :: children, events ++ events')
      end
  end.

(** ** The order of the stages *)

(** the children and the reports of a successful catch-up *)
Definition stages (env : CatchupEnv) (results : ChildResults) (range : LedgerRange) (checkpoints : CheckpointRange)
    (hash : option Hash) (buckets : bool) : list CatchupChild * list Progress :=
  let have := cr_first checkpoints =? as_currentLedger (ce_remoteState env) in
  let remote := if have then ce_remoteState env else cr_bucketsState results in
  (mDownloadLedgersWork checkpoints :: mVerifyLedgersWork range (lr_last range, hash) ::
     (if buckets then
        (if have then [] else [mGetBucketsHistoryArchiveStateWork (cr_first checkpoints)]) ++
        [mDownloadBucketsWork; mApplyBucketsWork remote]
      else []) ++
     [mDownloadTransactionsWork checkpoints; mApplyTransactionsWork range],
   (if buckets then [mkProgress false APPLIED_BUCKETS (cr_verifiedStart results)] else []) ++
     [mkProgress false APPLIED_TRANSACTIONS (cr_lastApplied results); mkProgress false FINISHED (cr_lastApplied results)]).

(** one round, with the range computed *)
Ltac round Hround Hany E1 E2 :=
  rewrite Hround; unfold catchup_onSuccess, bucketStages; rewrite Hany, E1; cbn [negb mbind res_bind];
  rewrite E2; cbn -[catchup_run Z.eqb Z.ltb assert_].

(** A catch-up goes through its stages in order.  When the archive is not behind the
    node and the target is not either, the work computes its range without a
    failing assertion, adds every child once, in the order: ledgers, their verification, then, if the catch-up starts with
    buckets, their state, the buckets and their application, then transactions and
    their replay; it reports the buckets before the transactions and both before
    the end.  Eight rounds are enough. *)
Theorem catchup_stages_in_order env results lclNow :
  let resolved := resolveConfiguration (ce_configuration env) (as_currentLedger (ce_remoteState env)) in
  0 < fst (ce_lastClosed env) <= as_currentLedger (ce_remoteState env) ->
  fst (ce_lastClosed env) <= cc_toLedger resolved -> is_ledger (cc_toLedger resolved) -> 0 <= cc_count resolved ->
  exists range buckets checkpoints,
    makeCatchupRange (fst (ce_lastClosed env)) resolved = Ok (range, buckets) /\
    CheckpointRange_new range = Ok checkpoints /\
    ((buckets = true ->
        let remote := if cr_first checkpoints =? as_currentLedger (ce_remoteState env) then ce_remoteState env else cr_bucketsState results in
        as_currentLedger remote = hhe_seq (cr_verifiedStart results) /\
        as_bucketListHash remote = bucketListHash (hhe_header (cr_verifiedStart results)) /\
        lclNow <= hhe_seq (cr_verifiedStart results)) ->
     catchup_run 8 env results lclNow (snd (catchup_onReset (ce_configuration env))) =
       Ok (stages env results range checkpoints (cc_hash resolved) buckets)).
Proof.
  intros resolved Hl Ht Hi Hc. unfold resolved in *.
  destruct (catchup_range_ok (fst (ce_lastClosed env)) _ ltac:(split; [apply Hl|exact Ht]) Hi Hc) as (first & buckets & cr & E1 & E2 & _).
  exists (mkLedgerRange first (cc_toLedger (resolveConfiguration (ce_configuration env) (as_currentLedger (ce_remoteState env))))), buckets, cr.
  split; [exact E1|]. split; [exact E2|]. intros Hb.
  assert (Hany : hasAnyLedgersToCatchupTo env = true) by (unfold hasAnyLedgersToCatchupTo; lia).
  set (range := mkLedgerRange _ _) in *. unfold catchup_onReset, stages. cbn [snd].
  assert (Hround : forall fuel w, catchup_run (S fuel) env results lclNow w =
    '(r, events, w) ← catchup_onSuccess env results lclNow w;
      match r with
      | ROUND_SUCCESS => Ok ([], events)
      | ROUND_PENDING child =>
          '(children, events') ← catchup_run fuel env results lclNow w;
          Ok (child :: children, events ++ events')
      end) by done.
  destruct buckets; [|repeat round Hround Hany E1 E2; done].
  destruct (Hb eq_refl) as (B1 & B2 & B3). clear Hb.
  assert (Hlt : (hhe_seq (cr_verifiedStart results) <? lclNow) = false) by lia.
  destruct (cr_first cr =? as_currentLedger (ce_remoteState env)) eqn:Eh;
    repeat (round Hround Hany E1 E2; rewrite ?Eh; cbn -[catchup_run Z.eqb Z.ltb assert_]; rewrite ?B1, ?B2, ?Z.eqb_refl, ?Hlt;
            rewrite ?assert_true by done; cbn -[catchup_run Z.eqb Z.ltb assert_]); done.
Qed.


End Code.
