(* ===== verification/Replay.v ===== *)
(** * Replaying ledgers from an archive

    catchup/ApplyLedgerChainWork.cpp: the transaction sets of the downloaded files are
    applied one ledger after the other, and every ledger that results is compared with
    the header of the file. *)
From S2P Require Import Prelude LedgerEntries Checkpoints TxSet LedgerClose VerifyChain VerifyChainSafety CatchupStates.

(** [TransactionHistoryEntry], with the frame that is made of its set *)
Record TransactionHistoryEntry := mkTHE { the_ledgerSeq : Z; the_txSet : TxSetFrame }.
Definition emptyTHE : TransactionHistoryEntry := mkTHE 0 (mkTxSetFrame [] 0 None).
Record TransactionsFile := mkTransactionsFile { tf_entries : list TransactionHistoryEntry; tf_malformed : bool }.

(** the constants of the work *)
Record ReplayWork := mkReplayWork {
  rw_ledgers : Z -> option HistoryFile;
  rw_transactions : Z -> option TransactionsFile;
  rw_range : LedgerRange
}.
(** its state: what has not been read yet of the open files *)
Record ReplayState (L : Type) := mkReplayState {
  rs_ledger : L;
  rs_currSeq : Z;
  rs_hdrIn : HistoryFile;
  rs_txIn : TransactionsFile;
  rs_txHistoryEntry : TransactionHistoryEntry;
  rs_lastApplied : LedgerHeaderHistoryEntry
}.
Arguments mkReplayState {L}.
Arguments rs_ledger {L}.
Arguments rs_currSeq {L}.
Arguments rs_hdrIn {L}.
Arguments rs_txIn {L}.
Arguments rs_txHistoryEntry {L}.
Arguments rs_lastApplied {L}.

(** [std::runtime_error] and what derives from it *)
Definition is_runtime_error (e : exn) : bool :=
  match e with
  | RuntimeError _ | OverflowError _ | InvariantDoesNotHold => true
  | AssertFailed | XdrWrongUnion | NullPointer | DanglingReference | InvalidArgument _ | OutOfFuel => false
  end.

(** [applyHistoryOfSingleLedger] returns true or false, or throws because the header does not
    fit; what has been closed then stays closed *)
Inductive ReplayStep := STEP_DONE | STEP_END | STEP_THROWN.

Section Code.
Context {HC : HistoryConfig} {HH : HeaderHash} {SS : StdSort} {HS : SetHash}.
Context {L : Type} {LC : LedgerCloser L}.
Notation ReplayState := (ReplayState L).

Definition openCurrentInputFiles (w : ReplayWork) (st : ReplayState) : res ReplayState :=
  match rw_ledgers w (rs_currSeq st), rw_transactions w (rs_currSeq st) with
  | Some h, Some t => Ok (mkReplayState (rs_ledger st) (rs_currSeq st) h t emptyTHE (rs_lastApplied st))
  | _, _ => Throw (RuntimeError "failed to open XDR file")
  end.

(** the loop of [getCurrentTxSet]: the set that was found, the current entry and the
    entries behind it *)
Fixpoint findTxSet (seq : Z) (malformed : bool) (entry : TransactionHistoryEntry) (rest : list TransactionHistoryEntry)
    : res (option TxSetFrame * TransactionHistoryEntry * list TransactionHistoryEntry) :=
  if the_ledgerSeq entry <? seq then
    match rest with
    | [] => if malformed then Throw (RuntimeError "malformed XDR file") else Ok (None, entry, [])
    | e :: rest' => findTxSet seq malformed e rest'
    end
  else if seq <? the_ledgerSeq entry then Ok (None, entry, rest)
  else Ok (Some (the_txSet entry), entry, rest).

Definition getCurrentTxSet (st : ReplayState) : res (TxSetFrame * ReplayState) :=
  let lcl := lastClosedLedger (rs_ledger st) in
  let seq := u32 (hhe_seq lcl + 1) in
  '(found, entry, rest) ← findTxSet seq (tf_malformed (rs_txIn st)) (rs_txHistoryEntry st) (tf_entries (rs_txIn st));
  let st := mkReplayState (rs_ledger st) (rs_currSeq st) (rs_hdrIn st) (mkTransactionsFile rest (tf_malformed (rs_txIn st)))
              entry (rs_lastApplied st) in
  Ok (default (mkTxSetFrame [] (hhe_hash lcl) None) found, st).

Definition applyHistoryOfSingleLedger (st : ReplayState) : res (ReplayStep * ReplayState) :=
  match hf_entries (rs_hdrIn st) with
  | [] => if hf_malformed (rs_hdrIn st) then Throw (RuntimeError "malformed XDR file") else Ok (STEP_END, st)
  | hHeader :: rest =>
      let st := mkReplayState (rs_ledger st) (rs_currSeq st) (mkHistoryFile rest (hf_malformed (rs_hdrIn st))) (rs_txIn st)
                  (rs_txHistoryEntry st) (rs_lastApplied st) in
      let lcl := lastClosedLedger (rs_ledger st) in
      if u32 (hhe_seq hHeader + 1) <? hhe_seq lcl then Ok (STEP_DONE, st)
      else if u32 (hhe_seq hHeader + 1) =? hhe_seq lcl then
        if hhe_hash hHeader =? hhe_prev lcl then Ok (STEP_DONE, st) else Ok (STEP_THROWN, st)
      else if hhe_seq hHeader =? hhe_seq lcl then
        if hhe_hash hHeader =? hhe_hash lcl then Ok (STEP_DONE, st) else Ok (STEP_THROWN, st)
      else if negb (hhe_seq hHeader =? u32 (hhe_seq lcl + 1)) then Ok (STEP_THROWN, st)
      else if negb (hhe_prev hHeader =? hhe_hash lcl) then Ok (STEP_THROWN, st)
      else
        '(txset, st) ← getCurrentTxSet st;
        let '(hash, txset) := setContentsHash txset in
        if negb (sv_txSetHash (scpValue (hhe_header hHeader)) =? hash) then Ok (STEP_THROWN, st)
        else
          l ← closeNext (mkLedgerCloseData (hhe_seq hHeader) txset (scpValue (hhe_header hHeader))) (rs_ledger st);
          if negb (hhe_hash (lastClosedLedger l) =? hhe_hash hHeader)
          then Ok (STEP_THROWN, mkReplayState l (rs_currSeq st) (rs_hdrIn st) (rs_txIn st) (rs_txHistoryEntry st) (rs_lastApplied st))
          else Ok (STEP_DONE, mkReplayState l (rs_currSeq st) (rs_hdrIn st) (rs_txIn st) (rs_txHistoryEntry st) hHeader)
  end.

(** [onReset] and [onStart] *)
Definition replay_start (w : ReplayWork) (l : L) : res ReplayState :=
  openCurrentInputFiles w
    (mkReplayState l (checkpointContainingLedger (lr_first (rw_range w))) (mkHistoryFile [] false) (mkTransactionsFile [] false)
       emptyTHE (lastClosedLedger l)).

(** a [try] block whose handler catches runtime errors *)
Definition catch_runtime {A} (m : res A) (handler : res A) : res A :=
  match m with Ok a => Ok a | Throw e => if is_runtime_error e then handler else Throw e end.

(** [onRun]: the state, and whether it schedules the success of the work *)
Definition replay_onRun (w : ReplayWork) (st : ReplayState) : res (bool * ReplayState) :=
  catch_runtime
    ('(step, st) ← applyHistoryOfSingleLedger st;
     match step with
     | STEP_DONE => Ok (true, st)
     | STEP_THROWN => Ok (false, st)
     | STEP_END =>
         st ← openCurrentInputFiles w
                (mkReplayState (rs_ledger st) (u32 (rs_currSeq st + getCheckpointFrequency)) (rs_hdrIn st) (rs_txIn st)
                   (rs_txHistoryEntry st) (rs_lastApplied st));
         Ok (true, st)
     end)
    (Ok (false, st)).

(** one round: [onRun], then [onSuccess] or a failure that may be retried *)
Definition replay_round (w : ReplayWork) (st : ReplayState) : res (WorkState * ReplayState) :=
  '(ok, st) ← replay_onRun w st;
  if negb ok then Ok (WORK_FAILURE_RETRY, st)
  else Ok (if hhe_seq (lastClosedLedger (rs_ledger st)) =? lr_last (rw_range w) then WORK_SUCCESS else WORK_RUNNING, st).

Fixpoint replay_run (fuel : nat) (w : ReplayWork) (st : ReplayState) : res (WorkState * ReplayState) :=
  match fuel with
  | O => Throw OutOfFuel
  | S fuel =>
      '(ws, st) ← replay_round w st;
      match ws with
      | WORK_RUNNING => replay_run fuel w st
      | _ => Ok (ws, st)
      end
  end.

(** the rounds that are left: one for every header and one for every file *)
Fixpoint headers_from (w : ReplayWork) (c : Z) (n : nat) : nat :=
  match n with
  | O => O
  | S n => S (from_option (fun f => length (hf_entries f)) O (rw_ledgers w c) + headers_from w (c + getCheckpointFrequency) n)%nat
  end.

(** the replay of a range of checkpoints *)
Definition replay (w : ReplayWork) (l : L) : res (WorkState * ReplayState) :=
  range ← CheckpointRange_new (rw_range w);
  st ← replay_start w l;
  replay_run (headers_from w (cr_first range) (Z.to_nat (cr_count range))) w st.

End Code.
