(* ===== verification/ReplaySafety.v ===== *)
(** * What a replay reaches

    A replay of verified files ends at the ledger with the trusted hash, having
    closed every ledger on the way; and it ends. *)
From S2P Require Import Prelude LedgerEntries Checkpoints TxSet LedgerClose VerifyChain VerifyChainSafety CatchupStates Replay.

Section Safety.
Context {HC : HistoryConfig} {HH : HeaderHash} {SS : StdSort} {HS : SetHash}.
Context {L : Type} {LC : LedgerCloser L}.
Notation ReplayState := (ReplayState L).
Notation Entry := LedgerHeaderHistoryEntry.

Definition rs_lcl (st : ReplayState) : Entry := lastClosedLedger (rs_ledger st).
(** a ledger that is reached by closing others *)
Definition closes : L -> L -> Prop := rtc (fun x y => exists d, closeNext d x = Ok y).

(** ** One header *)

Lemma getCurrentTxSet_keeps st ts st' :
  getCurrentTxSet st = Ok (ts, st') ->
  rs_ledger st' = rs_ledger st /\ rs_currSeq st' = rs_currSeq st /\ rs_hdrIn st' = rs_hdrIn st /\ rs_lastApplied st' = rs_lastApplied st.
Proof. unfold getCurrentTxSet. intros ([[f e] r] & _ & [= _ <-])%bind_ok_inv. done. Qed.

(** what reading one header does *)
Lemma applyHistory_ok st e rest step st' :
  hf_entries (rs_hdrIn st) = e :: rest -> applyHistoryOfSingleLedger st = Ok (step, st') -> step <> STEP_THROWN ->
  step = STEP_DONE /\ rs_currSeq st' = rs_currSeq st /\ rs_hdrIn st' = mkHistoryFile rest (hf_malformed (rs_hdrIn st)) /\
  (rs_ledger st' = rs_ledger st /\ (u32 (hhe_seq e + 1) <= hhe_seq (rs_lcl st) \/ hhe_seq e = hhe_seq (rs_lcl st)) \/
   (exists d, closeNext d (rs_ledger st) = Ok (rs_ledger st')) /\ hhe_seq e = u32 (hhe_seq (rs_lcl st) + 1) /\
   hhe_hash (rs_lcl st') = hhe_hash e /\ rs_lastApplied st' = e).
Proof.
  intros He H Hs. unfold applyHistoryOfSingleLedger in H. rewrite He in H. cbv zeta in H. cbn [rs_ledger rs_hdrIn] in H.
  fold (rs_lcl st) in H.
  destruct (Z.ltb_spec (u32 (hhe_seq e + 1)) (hhe_seq (rs_lcl st))).
  { injection H as <- <-. split_and!; try done. left. split; [done|]. left. lia. }
  destruct (Z.eqb_spec (u32 (hhe_seq e + 1)) (hhe_seq (rs_lcl st))).
  { destruct (_ =? _) in H; injection H as <- <-; [|done]. split_and!; try done. left. split; [done|]. left. lia. }
  destruct (Z.eqb_spec (hhe_seq e) (hhe_seq (rs_lcl st))).
  { destruct (_ =? _) in H; injection H as <- <-; [|done]. split_and!; try done. left. auto. }
  destruct (Z.eqb_spec (hhe_seq e) (u32 (hhe_seq (rs_lcl st) + 1))); cbn [negb] in H; [|by injection H as <- _].
  destruct (negb _) in H; [by injection H as <- _|].
  apply bind_ok_inv in H as ([ts st1] & H1 & H). apply getCurrentTxSet_keeps in H1 as (K1 & K2 & K3 & _). cbn in K1, K2, K3.
  destruct (setContentsHash ts) as [hash ts']. destruct (negb _) in H; [by injection H as <- _|].
  apply bind_ok_inv in H as (l & Hl & H).
  destruct (Z.eqb_spec (hhe_hash (lastClosedLedger l)) (hhe_hash e)); cbn [negb] in H; [|by injection H as <- _].
  injection H as <- <-. split_and!; try done. right. split_and!; try done. rewrite <- K1. eauto.
Qed.

Lemma applyHistory_end st step st' :
  hf_entries (rs_hdrIn st) = [] -> applyHistoryOfSingleLedger st = Ok (step, st') -> step = STEP_END /\ st' = st.
Proof. intros He H. unfold applyHistoryOfSingleLedger in H. rewrite He in H. destruct (hf_malformed _); [done|]. by injection H as <- <-. Qed.

(** a round that does not fail has read a header or opened the next files *)
Lemma replay_round_ok w st ws st' :
  replay_round w st = Ok (ws, st') -> ws <> WORK_FAILURE_RETRY ->
  ws = (if hhe_seq (rs_lcl st') =? lr_last (rw_range w) then WORK_SUCCESS else WORK_RUNNING) /\
  ((exists e rest, hf_entries (rs_hdrIn st) = e :: rest /\ applyHistoryOfSingleLedger st = Ok (STEP_DONE, st')) \/
   hf_entries (rs_hdrIn st) = [] /\ rs_ledger st' = rs_ledger st /\ rs_currSeq st' = u32 (rs_currSeq st + getCheckpointFrequency) /\
   rw_ledgers w (rs_currSeq st') = Some (rs_hdrIn st')).
Proof.
  intros H Hws. unfold replay_round in H. apply bind_ok_inv in H as ([ok st1] & H & Hr). unfold replay_onRun, catch_runtime in H.
  destruct ok; [|by injection Hr as <- _]. injection Hr as <- <-. split; [done|].
  destruct (applyHistoryOfSingleLedger st) as [[step st2]|x] eqn:E; cbn [mbind res_bind] in H; [|destruct (is_runtime_error x); by simplify_eq].
  destruct (hf_entries (rs_hdrIn st)) as [|e rest] eqn:He.
  - apply applyHistory_end in E as [-> ->]; [|done]. right. unfold openCurrentInputFiles in H. cbn [rs_currSeq rs_ledger rs_lastApplied] in H.
    destruct (rw_ledgers w _) as [h|] eqn:Eh; [|by cbn in H]. destruct (rw_transactions w _); [|by cbn in H].
    cbn in H. injection H as <-. by split_and!.
  - destruct step.
    + injection H as <-. left. eauto.
    + apply applyHistory_ok with (e := e) (rest := rest) in E as (? & _); done.
    + by injection H.
Qed.

(** ** Replaying verified files *)

(** every checkpoint of a verified chain has been verified *)
Lemma verify_run_checks w n st st' i :
  0 < firstCheckpoint w -> vs_currCheckpoint st = firstCheckpoint w + (Z.of_nat n - 1) * getCheckpointFrequency ->
  vs_currCheckpoint st <= UINT32_MAX -> verify_run n w st = Ok (WORK_SUCCESS, st') -> (i < n)%nat ->
  exists s s', vs_currCheckpoint s = firstCheckpoint w + Z.of_nat i * getCheckpointFrequency /\
    verifyHistoryOfSingleCheckpoint w s = Ok (VERIFY_STATUS_OK, s').
Proof.
  intros Hc. assert (Hf : 8 <= getCheckpointFrequency <= 64) by (destruct frequency_cases; lia).
  revert st. induction n as [|n IH]; intros st Hst Hu H Hi; [lia|]. cbn [verify_run] in H.
  apply bind_ok_inv in H as ([ws s1] & Hs & H). unfold verify_onSuccess in Hs. destruct (_ <? _) in Hs; [done|].
  apply bind_ok_inv in Hs as ([status s2] & Hx & Hs). destruct status; try (injection Hs as <- <-; by injection H).
  destruct (Nat.eq_dec i n) as [-> | Hn]; [exists st, s2; split; [lia|done]|].
  assert (Hcur : vs_currCheckpoint s2 = vs_currCheckpoint st).
  { apply verifyHistory_keeps in Hx. exact Hx. }
  destruct (Z.eqb_spec (vs_currCheckpoint s2) (firstCheckpoint w)); [nia|].
  injection Hs as <- <-. eapply IH; [| |exact H|lia]; cbn [vs_currCheckpoint]; rewrite u32_id by (unfold is_u32; nia); nia.
Qed.

Section Trusted.
Variables (w : VerifyWork) (rw : ReplayWork) (h : Hash) (vst : VerifyState).
Notation last_seq := (lr_last (vw_range w)).
Notation ckpt i := (firstCheckpoint w + Z.of_nat i * getCheckpointFrequency).
Hypothesis Hr : 0 < lr_first (vw_range w) <= last_seq.
Hypothesis Hl : is_ledger last_seq.
Hypothesis Ht : vw_trustedEndLedger w = (last_seq, Some h).
Hypothesis Hv : verifyLedgerChain w = Ok (WORK_SUCCESS, vst).
Hypothesis Hrw : rw_range rw = vw_range w /\ rw_ledgers rw = vw_downloadDir w.
Hypothesis Hno : forall c, checkpointContainingLedger last_seq < c -> vw_downloadDir w c = None.

(** an entry of a checkpoint with the last number of the range has the trusted hash *)
Lemma trusted_entry i e :
  (i < rounds w)%nat -> last (part w (ckpt i)) = Some e -> hhe_seq e = last_seq -> hhe_hash e = h.
Proof.
  intros Hi He Hs. destruct (rounds_spec w Hr Hl) as (R1 & R2 & R3).
  rewrite verifyLedgerChain_run in Hv by (rewrite ?Ht; done).
  assert (Hf : 8 <= getCheckpointFrequency <= 64) by (destruct frequency_cases; lia).
  assert (Hcu : is_u32 (checkpointContainingLedger last_seq)) by (unfold checkpointContainingLedger; apply u32_range).
  destruct (verify_run_checks w (rounds w) (verify_onReset w) vst i R2) as (s & s' & Hcs & Hok); try done; [unfold is_u32 in *; cbn; lia|].
  apply verifyCheckpoint_ok in Hok as (e' & a & L1 & _ & _ & _ & _ & Hend); [|rewrite Hcs; nia|lia].
  rewrite Hcs in L1. rewrite He in L1. injection L1 as <-. rewrite Hs, Z.eqb_refl, Ht in Hend. cbn in Hend. by destruct Hend as (_ & _ & ->).
Qed.

(** where the replay is while it runs *)
Definition replaying (st : ReplayState) : Prop :=
  0 <= hhe_seq (rs_lcl st) < last_seq /\
  exists i f read, (i < rounds w)%nat /\ rs_currSeq st = ckpt i /\ vw_downloadDir w (ckpt i) = Some f /\
    hf_entries f = read ++ hf_entries (rs_hdrIn st) /\ Forall (fun e => hhe_seq e <> last_seq) read.

Lemma upTo_read n read e rest :
  Forall (fun e => hhe_seq e <> n) read -> hhe_seq e = n -> upTo n (read ++ e :: rest) = read ++ [e].
Proof.
  intros Hf He. induction Hf as [|x l Hx _ IH]; cbn; [by rewrite He, Z.eqb_refl|].
  destruct (Z.eqb_spec (hhe_seq x) n); [done|]. by rewrite IH.
Qed.

Lemma replaying_round st ws st' :
  replaying st -> replay_round rw st = Ok (ws, st') -> ws <> WORK_FAILURE_RETRY ->
  closes (rs_ledger st) (rs_ledger st') /\
  (ws = WORK_SUCCESS /\ hhe_seq (rs_lcl st') = last_seq /\ hhe_hash (rs_lcl st') = h /\ hhe_hash (rs_lastApplied st') = h \/
   ws = WORK_RUNNING /\ replaying st').
Proof.
  intros (Hs & i & f & read & Hi & Hc & Hf & Hread & Hnl) H Hws. destruct Hrw as [Hrr Hrl].
  assert (Hlu : last_seq <= UINT32_MAX - 8) by (unfold is_ledger in Hl; destruct frequency_cases; lia).
  apply replay_round_ok in H as [Hw [(e & rest & He & H) | (He & H1 & H2 & H3)]]; [| |done]; rewrite Hrr in Hw.
  - apply (applyHistory_ok _ e rest) in H as (_ & K1 & K2 & [[K3 K4] | (K3 & K4 & K5 & K6)]); [| |done..].
    + split; [rewrite K3; apply rtc_refl|]. right. unfold rs_lcl in *. rewrite K3 in Hw.
      destruct (Z.eqb_spec (hhe_seq (lastClosedLedger (rs_ledger st))) last_seq); [lia|]. split; [done|].
      unfold replaying, rs_lcl. rewrite K3. split; [done|]. exists i, f, (read ++ [e]). split_and!; try done.
      * by rewrite K1.
      * rewrite K2, <- app_assoc. cbn. by rewrite Hread, He.
      * apply Forall_app. split; [done|]. constructor; [|constructor]. intros E. rewrite E in K4.
        rewrite u32_id in K4 by (unfold is_u32; lia). lia.
    + destruct K3 as [d Hd]. split; [eapply rtc_once; eauto|].
      pose proof (closeNext_follows _ _ _ Hd) as (_ & N1 & _). unfold rs_lcl in *.
      rewrite u32_id in N1, K4 by (unfold is_u32; lia).
      destruct (Z.eqb_spec (hhe_seq (lastClosedLedger (rs_ledger st'))) last_seq) as [E | E].
      * left. assert (Hh : hhe_hash e = h); [|split_and!; congruence].
        apply (trusted_entry i); [done| |lia]. unfold part. rewrite Hf, Hread, He, upTo_read by (done || lia). apply last_snoc.
      * right. split; [done|]. unfold replaying, rs_lcl. split; [lia|]. exists i, f, (read ++ [e]). split_and!; try done.
        -- by rewrite K1.
        -- rewrite K2, <- app_assoc. cbn. by rewrite Hread, He.
        -- apply Forall_app. split; [done|]. constructor; [lia|constructor].
  - split; [rewrite H1; apply rtc_refl|]. right. unfold rs_lcl in *. rewrite H1 in Hw.
    destruct (Z.eqb_spec (hhe_seq (lastClosedLedger (rs_ledger st))) last_seq); [lia|]. split; [done|].
    unfold replaying, rs_lcl. rewrite H1. split; [done|].
    destruct (rounds_spec w Hr Hl) as (R1 & R2 & R3).
    assert (Hfr : 8 <= getCheckpointFrequency <= 64) by (destruct frequency_cases; lia).
    assert (Hcl : checkpointContainingLedger last_seq <= UINT32_MAX - getCheckpointFrequency).
    { rewrite checkpoint_of by done. unfold is_ledger, UINT32_MAX in *. destruct frequency_cases as [E | E]; rewrite E in *; Z.to_euclidean_division_equations; lia. }
    rewrite Hrl in H3. assert (Hcu : rs_currSeq st' = ckpt (S i)).
    { rewrite H2, Hc. rewrite u32_id by (unfold is_u32; nia). lia. }
    rewrite Hcu in H3.
    assert (Hi' : (S i < rounds w)%nat).
    { destruct (decide (S i < rounds w)%nat); [done|].
      assert (En : vw_downloadDir w (ckpt (S i)) = None) by (apply Hno; nia). congruence. }
    exists (S i), (rs_hdrIn st'), []. split_and!; try done.
Qed.

Lemma replaying_run n st st' :
  replaying st -> replay_run n rw st = Ok (WORK_SUCCESS, st') ->
  closes (rs_ledger st) (rs_ledger st') /\ hhe_seq (rs_lcl st') = last_seq /\ hhe_hash (rs_lcl st') = h /\
  hhe_hash (rs_lastApplied st') = h.
Proof.
  revert st. induction n as [|n IH]; intros st Hst H; [done|]. cbn [replay_run] in H.
  apply bind_ok_inv in H as ([ws s1] & Hs & H).
  assert (Hws : ws <> WORK_FAILURE_RETRY) by (intros ->; done).
  apply replaying_round in Hs as [C1 [(-> & S1 & S2 & S3) | (-> & S1)]]; [| |done..].
  - injection H as <-. done.
  - apply IH in H as (C2 & H); [|done]. split; [|done]. by etransitivity.
Qed.

End Trusted.

(** Claim C8: A replay of verified files ends at the trusted ledger.  When the ledger chain of a range
    has been verified against a trusted hash, and the replay of the same files
    succeeds, the node has closed one ledger after the other up to the last one of the range, and
    this one has the trusted hash, as has the header that is reported.  This is what the manager expects of a catch-up. *)
Theorem replay_reaches_trusted_ledger w rw (l : L) vst st h :
  0 < lr_first (vw_range w) <= lr_last (vw_range w) -> is_ledger (lr_last (vw_range w)) ->
  vw_trustedEndLedger w = (lr_last (vw_range w), Some h) ->
  rw_range rw = vw_range w -> rw_ledgers rw = vw_downloadDir w ->
  (forall c, checkpointContainingLedger (lr_last (vw_range w)) < c -> vw_downloadDir w c = None) ->
  0 <= hhe_seq (lastClosedLedger l) < lr_last (vw_range w) ->
  verifyLedgerChain w = Ok (WORK_SUCCESS, vst) -> replay rw l = Ok (WORK_SUCCESS, st) ->
  rtc (fun x y => exists d, closeNext d x = Ok y) l (rs_ledger st) /\
  hhe_seq (lastClosedLedger (rs_ledger st)) = lr_last (vw_range w) /\ hhe_hash (lastClosedLedger (rs_ledger st)) = h /\
  hhe_hash (rs_lastApplied st) = hhe_hash (lastClosedLedger (rs_ledger st)) /\
  forall count m, mg_ledger m = rs_ledger st ->
    caught_up (mkCatchupConfiguration count (lr_last (vw_range w)) (vw_trustedEndLedger w).2) m.
Proof.
  intros Hr Hl Ht H1 H2 Hno Hs Hv H. unfold replay in H. apply bind_ok_inv in H as (range & _ & H). apply bind_ok_inv in H as (s0 & H0 & H).
  unfold replay_start, openCurrentInputFiles in H0. cbn [rs_currSeq rs_ledger rs_lastApplied] in H0.
  rewrite H1, H2 in H0. fold (firstCheckpoint w) in H0.
  destruct (vw_downloadDir w (firstCheckpoint w)) as [f|] eqn:Ef; [|done]. destruct (rw_transactions rw _) as [t|]; [|done].
  injection H0 as <-. destruct (rounds_spec w Hr Hl) as (_ & _ & R3).
  eapply (replaying_run w rw h vst) in H as (C & S1 & S2 & S3); try done.
  - split; [exact C|]. split; [exact S1|]. split; [exact S2|]. split; [by rewrite S3|].
    intros count m Hm. unfold caught_up, mg_lcl. rewrite Hm, Ht. split; [by right|done].
  - split; [exact Hs|]. exists 0%nat, f, []. cbn. rewrite Z.add_0_r. split_and!; try done.
Qed.

(** ** Replays end *)

Section Ends.
Variable rw : ReplayWork.
Notation first := (lr_first (rw_range rw)).
Notation last_seq := (lr_last (rw_range rw)).
Hypothesis Hr : 0 < first <= last_seq.
Hypothesis Hl : is_ledger last_seq.
Hypothesis Hno : forall c, checkpointContainingLedger last_seq < c -> rw_ledgers rw c = None.
Hypothesis close_ends : forall d (l : L), closeNext d l <> Throw OutOfFuel.

(** reading a header does not run out of fuel *)
Lemma findTxSet_ends seq m e rest : findTxSet seq m e rest <> Throw OutOfFuel.
Proof. revert e. induction rest as [|x rest IH]; intros e; cbn [findTxSet]; repeat case_match; try done. Qed.

Lemma applyHistory_ends st : applyHistoryOfSingleLedger st <> Throw OutOfFuel.
Proof.
  unfold applyHistoryOfSingleLedger, getCurrentTxSet. destruct (hf_entries _) as [|e rest]; [by destruct (hf_malformed _)|]. cbv zeta.
  repeat (match goal with |- (if ?b then _ else _) <> _ => destruct b; [by try destruct (_ =? _)|] end).
  cbn [rs_txIn rs_txHistoryEntry rs_ledger].
  pose proof (findTxSet_ends (u32 (hhe_seq (lastClosedLedger (rs_ledger st)) + 1)) (tf_malformed (rs_txIn st)) (rs_txHistoryEntry st)
    (tf_entries (rs_txIn st))) as Hf. destruct (findTxSet _ _ _ _) as [[[found entry] rest']|x]; [|cbn; congruence]. cbn [mbind res_bind].
  destruct (setContentsHash _) as [hash ts]. destruct (negb _); [done|]. cbn [rs_ledger].
  pose proof (close_ends (mkLedgerCloseData (hhe_seq e) ts (scpValue (hhe_header e))) (rs_ledger st)) as Hc.
  destruct (closeNext _ _) as [l|x]; [|cbn; congruence]. cbn. by destruct (negb _).
Qed.

Lemma open_ends (st : ReplayState) : openCurrentInputFiles rw st <> Throw OutOfFuel.
Proof. unfold openCurrentInputFiles. by repeat case_match. Qed.

Lemma replay_round_ends st : replay_round rw st <> Throw OutOfFuel.
Proof.
  unfold replay_round, replay_onRun, catch_runtime. pose proof (applyHistory_ends st) as H.
  destruct (applyHistoryOfSingleLedger st) as [[step s1]|x]; cbn [mbind res_bind].
  - destruct step; [done| |done]. pose proof (open_ends (mkReplayState (rs_ledger s1) (u32 (rs_currSeq s1 + getCheckpointFrequency)) (rs_hdrIn s1)
      (rs_txIn s1) (rs_txHistoryEntry s1) (rs_lastApplied s1))) as Ho.
    destruct (openCurrentInputFiles rw _) as [s2|x]; [done|]. cbn. destruct (is_runtime_error x); [done|]. cbn. congruence.
  - destruct (is_runtime_error x); [done|]. cbn. congruence.
Qed.

(** the rounds that are left when the [i]-th of [n] files is being read *)
Definition left_rounds (n i : nat) (st : ReplayState) : nat :=
  (S (length (hf_entries (rs_hdrIn st))) +
   headers_from rw (checkpointContainingLedger first + Z.of_nat (S i) * getCheckpointFrequency) (n - S i))%nat.

Lemma headers_from_S c n :
  headers_from rw c (S n) =
    S (from_option (fun f => length (hf_entries f)) O (rw_ledgers rw c) + headers_from rw (c + getCheckpointFrequency) n)%nat.
Proof. done. Qed.

Lemma replay_run_ends n fuel i st :
  checkpointContainingLedger last_seq = checkpointContainingLedger first + (Z.of_nat n - 1) * getCheckpointFrequency ->
  (i < n)%nat -> rs_currSeq st = checkpointContainingLedger first + Z.of_nat i * getCheckpointFrequency ->
  (left_rounds n i st <= fuel)%nat -> replay_run fuel rw st <> Throw OutOfFuel.
Proof.
  intros Hn. assert (Hfr : 8 <= getCheckpointFrequency <= 64) by (destruct frequency_cases; lia).
  assert (Hcl : 0 <= checkpointContainingLedger first /\ checkpointContainingLedger last_seq <= UINT32_MAX - getCheckpointFrequency).
  { split; [unfold checkpointContainingLedger; apply u32_range|].
    rewrite checkpoint_of by done. unfold is_ledger, UINT32_MAX in *. destruct frequency_cases as [E | E]; rewrite E in *; Z.to_euclidean_division_equations; lia. }
  revert i st. induction fuel as [|fuel IH]; intros i st Hi Hc Hf; [unfold left_rounds in Hf; lia|]. cbn [replay_run].
  pose proof (replay_round_ends st) as He. destruct (replay_round rw st) as [[ws s1]|x] eqn:E; [|cbn; congruence]. cbn [mbind res_bind].
  destruct ws; try done.
  apply replay_round_ok in E as [_ [(e & rest & Hh & E) | (Hh & H1 & H2 & H3)]]; [| |done].
  - apply (applyHistory_ok _ e rest) in E as (_ & K1 & K2 & _); [|done..]. apply (IH i); [done|by rewrite K1|].
    unfold left_rounds in *. rewrite K2. rewrite Hh in Hf. cbn in Hf |- *. lia.
  - assert (Hcu : rs_currSeq s1 = checkpointContainingLedger first + Z.of_nat (S i) * getCheckpointFrequency).
    { rewrite H2, Hc. rewrite u32_id by (unfold is_u32; nia). lia. }
    rewrite Hcu in H3. assert (Hi' : (S i < n)%nat).
    { destruct (decide (S i < n)%nat); [done|].
      assert (En : rw_ledgers rw (checkpointContainingLedger first + Z.of_nat (S i) * getCheckpointFrequency) = None) by (apply Hno; nia). congruence. }
    apply (IH (S i)); [done|done|]. unfold left_rounds in *. rewrite Hh in Hf.
    replace (n - S i)%nat with (S (n - S (S i))) in Hf by lia. rewrite headers_from_S, H3 in Hf. cbn [from_option length] in Hf.
    replace (checkpointContainingLedger first + Z.of_nat (S (S i)) * getCheckpointFrequency)
      with (checkpointContainingLedger first + Z.of_nat (S i) * getCheckpointFrequency + getCheckpointFrequency) by lia. lia.
Qed.

End Ends.

(** A replay ends.  Every round of a replay reads a header or goes on to the
    next file, and there are no files behind the last checkpoint of the range, so
    that after one round for every header and file the replay has succeeded,
    failed, or raised an exception. *)
Theorem replay_ends rw (l : L) :
  0 < lr_first (rw_range rw) <= lr_last (rw_range rw) -> is_ledger (lr_last (rw_range rw)) ->
  (forall c, checkpointContainingLedger (lr_last (rw_range rw)) < c -> rw_ledgers rw c = None) ->
  (forall d (x : L), closeNext d x <> Throw OutOfFuel) -> replay rw l <> Throw OutOfFuel.
Proof.
  intros Hr Hl Hno Hc. unfold replay. rewrite CheckpointRange_ok by done. cbn [mbind res_bind cr_first].
  unfold replay_start, openCurrentInputFiles. cbn [rs_currSeq rs_ledger rs_lastApplied].
  destruct (rw_ledgers rw _) as [f|] eqn:Ef; [|done]. destruct (rw_transactions rw _) as [t|]; [|done]. cbn [mbind res_bind].
  set (w := mkVerifyWork (rw_ledgers rw) (rw_range rw) (0, 0) (0, None)).
  destruct (rounds_spec w Hr Hl) as (R1 & R2 & R3).
  apply (replay_run_ends rw Hl Hno Hc (rounds w) _ 0); [exact R1|exact R3|cbn; lia|].
  unfold left_rounds. cbn [rs_hdrIn]. change (Z.to_nat _) with (rounds w).
  replace (rounds w) with (S (rounds w - 1)) by lia. rewrite headers_from_S, Ef. cbn [from_option].
  replace (S (rounds w - 1) - 1)%nat with (rounds w - 1)%nat by lia. rewrite Z.mul_1_l. lia.
Qed.

End Safety.
