(* ===== verification/NodeLedger.v ===== *)
(** * The ledger of a node, as the catch-up uses it

    The interface [LedgerCloser] of CatchupStates is what LedgerClose and LedgerBatch
    implement: closing a ledger, taking the snapshot of the bucket list into its header,
    and making it the last closed one. *)
From S2P Require Import Prelude Numeric Exchange LedgerEntries TransactionUtils OfferBook LedgerState LedgerLogic.
From S2P Require Import OfferCross Operations OfferOperations Neutral Conservation OperationsKeep SubEntries.
From S2P Require Import Invariants InvariantManager Signatures Transactions TransactionSafety Termination.
From S2P Require Import Upgrades UpgradeLiabilities TxSet TxSetOrder LedgerClose HeaderKept Bucket FutureBucket BucketList LedgerTxn LedgerBatch.
From S2P Require Import Checkpoints VerifyChain CatchupStates.

(** the state of the ledger, the hash of the last closed one ([mLastClosedLedger.hash]),
    and the manager of the invariants *)
Record NodeLedger := mkNodeLedger {
  nl_ledger : LState;
  nl_lclHash : Hash;
  nl_invariants : InvariantManager
}.

(** [mLastClosedLedger] *)
Definition nl_lastClosed (n : NodeLedger) : LedgerHeaderHistoryEntry := mkHHE (nl_lclHash n) (st_header (nl_ledger n)).

Section Node.
Context {SS : StdSort} {HS : SetHash} {U : UInt128} {K : StrKeyOrder} {C : Crypto} {HT : TxHash}.
Context {X : UpgradeXdr} {RH : ResultHash} {HH : HeaderHash}.
(** fresh frames for the transactions; the hash of the bucket list after the changes
    between two ledgers have been added; the ledger that the buckets of a header describe *)
Variables (frames : TxPtr -> Frame) (bucketsHash : LState -> LState -> Hash) (fromBuckets : LedgerHeader -> LState -> LState).

(** the end of [closeLedger]: [ledgerClosed], [storeCurrentLedger], [advanceLedgerPointers] *)
Definition node_ledgerClosed (before after : LState) (im : InvariantManager) : res NodeLedger :=
  let lh := calculateSkipValues (set_bucketListHash (bucketsHash before after) (st_header after)) in
  let hash := headerHash lh in
  _ ← assert_ (negb (hash =? 0));
  Ok (mkNodeLedger (set_st_header lh after) hash im).

Definition node_closeLedger (d : LedgerCloseData) (n : NodeLedger) : res NodeLedger :=
  '(_, im, s) ← closeLedger (nl_lclHash n) d frames (nl_invariants n) (nl_ledger n);
  node_ledgerClosed (nl_ledger n) s im.

(** the case [APPLIED_BUCKETS] of [historyCaughtup] *)
Definition node_assume (e : LedgerHeaderHistoryEntry) (n : NodeLedger) : NodeLedger :=
  mkNodeLedger (set_st_header (hhe_header e) (fromBuckets (hhe_header e) (nl_ledger n))) (hhe_hash e) (nl_invariants n).

Lemma calculateSkipValues_links h :
  ledgerSeq (calculateSkipValues h) = ledgerSeq h /\ previousLedgerHash (calculateSkipValues h) = previousLedgerHash h /\
  scpValue (calculateSkipValues h) = scpValue h.
Proof. unfold calculateSkipValues. by repeat case_match. Qed.

Lemma node_follows d n n' :
  node_closeLedger d n = Ok n' ->
  lcd_previous d = nl_lclHash n /\
  ledgerSeq (st_header (nl_ledger n')) = u32 (ledgerSeq (st_header (nl_ledger n)) + 1) /\
  previousLedgerHash (st_header (nl_ledger n')) = nl_lclHash n /\
  nl_lclHash n' = headerHash (st_header (nl_ledger n')) /\ scpValue (st_header (nl_ledger n')) = lcd_value d.
Proof.
  unfold node_closeLedger. intros ([[rs im] s] & E & H)%bind_ok_inv.
  apply closeLedger_header in E as [Hp Hl]. unfold node_ledgerClosed in H. apply bind_ok_inv in H as (_ & _ & [= <-]).
  destruct (calculateSkipValues_links (set_bucketListHash (bucketsHash (nl_ledger n) s) (st_header s))) as (H1 & H2 & H3).
  unfold link_fields in Hl. injection Hl as L1 L2 L3 _ _.
  cbn [nl_ledger nl_lclHash set_st_header st_header]. rewrite H1, H2, H3. cbn. by split_and!.
Qed.

Lemma node_assume_lcl e n : nl_lastClosed (node_assume e n) = e.
Proof. by destruct e. Qed.

#[export] Instance node_closer : LedgerCloser NodeLedger := {|
  lastClosedLedger := nl_lastClosed;
  closeNext := node_closeLedger;
  assumeLedger := node_assume;
  closeNext_follows := node_follows;
  assumeLedger_lcl := node_assume_lcl
|}.

(** Claim C16: Every node makes the same header chain.  When closing a ledger succeeds, whatever
    its transactions, operations and upgrades do, the transaction set was made for the last closed
    ledger, and the new last closed ledger has the next number, the hash of the one before
    it, the value that was agreed on, and the hash of its own header. *)
Theorem closed_header_follows d n n' :
  node_closeLedger d n = Ok n' ->
  mPreviousLedgerHash (lcd_txSet d) = nl_lclHash n /\
  ledgerSeq (st_header (nl_ledger n')) = u32 (ledgerSeq (st_header (nl_ledger n)) + 1) /\
  previousLedgerHash (st_header (nl_ledger n')) = nl_lclHash n /\
  nl_lclHash n' = headerHash (st_header (nl_ledger n')) /\
  scpValue (st_header (nl_ledger n')) = lcd_value d.
Proof. apply node_follows. Qed.

End Node.
