(* ===== verification/CatchupRuns.v ===== *)
(** * A concrete catch-up

    A history of ledgers without transactions, the archive that holds it, and runs
    of the verification, the replay, the stages and the state machine on it. *)
From S2P Require Import Prelude Numeric Exchange LedgerEntries TransactionUtils LedgerTxn OfferBook LedgerState.
From S2P Require Import LedgerLogic OfferCross Operations OfferOperations Conservation SubEntries Invariants InvariantManager Signatures.
From S2P Require Import Transactions TransactionSafety Termination TransactionRuns Upgrades UpgradeLiabilities UpgradeRuns.
From S2P Require Import TxSet TxSetOrder TxSetProposal TxSetRuns LedgerClose LedgerCloseFees LedgerCloseRuns.
From S2P Require Import Checkpoints VerifyChain VerifyChainSafety CatchupStates CatchupSafety CatchupWork Replay ReplaySafety HeaderKept NodeLedger.

#[export] Instance run_history_config : HistoryConfig := {| ARTIFICIALLY_ACCELERATE_TIME_FOR_TESTING := true |}.
#[export] Instance run_headerHash : HeaderHash := {|
  headerHash h := (ledgerSeq h * 1000003 + previousLedgerHash h * 31 + sv_closeTime (scpValue h) * 7 + 11) mod 1000000007 + 1
|}.

(** a ledger that only keeps its header *)
Definition header_after (e : LedgerHeaderHistoryEntry) (sv : EssaBlockChainValue) : LedgerHeaderHistoryEntry :=
  let h := mkLedgerHeader 10 (hhe_hash e) sv 0 0 (u32 (hhe_seq e + 1)) 0 0 0 0 0 0 0 [] in mkHHE (headerHash h) h.
Definition toy_close (d : LedgerCloseData) (e : LedgerHeaderHistoryEntry) : res LedgerHeaderHistoryEntry :=
  if lcd_previous d =? hhe_hash e then Ok (header_after e (lcd_value d)) else Throw (RuntimeError "txset mismatch").

Lemma toy_follows d e e' :
  toy_close d e = Ok e' ->
  lcd_previous d = hhe_hash e /\ hhe_seq e' = u32 (hhe_seq e + 1) /\ hhe_prev e' = hhe_hash e /\
  hhe_hash e' = headerHash (hhe_header e') /\ scpValue (hhe_header e') = lcd_value d.
Proof. unfold toy_close. case_match eqn:E; [|done]. intros [= <-]. apply Z.eqb_eq in E. done. Qed.

#[export] Instance toy_closer : LedgerCloser LedgerHeaderHistoryEntry := {|
  lastClosedLedger e := e;
  closeNext := toy_close;
  assumeLedger e _ := e;
  closeNext_follows := toy_follows;
  assumeLedger_lcl _ _ := eq_refl
|}.

(** ** The history *)

Definition empty_set (previous : Hash) : TxSetFrame := mkTxSetFrame [] previous None.
Definition value_on (e : LedgerHeaderHistoryEntry) : EssaBlockChainValue :=
  mkEssaBlockChainValue (fst (setContentsHash (empty_set (hhe_hash e)))) (5 * hhe_seq e) [].
Fixpoint entry_at (n : nat) : LedgerHeaderHistoryEntry :=
  match n with
  | O => emptyHHE
  | S k =>
      let e := entry_at k in
      let h := mkLedgerHeader 10 (hhe_hash e) (value_on e) 0 0 (Z.of_nat n) 0 0 0 0 0 0 0 [] in mkHHE (headerHash h) h
  end.
Definition run_hist (n : Z) : LedgerHeaderHistoryEntry :=
  if 0 <? n then entry_at (Z.to_nat n) else let h := set_ledgerSeq n emptyHeader in mkHHE (headerHash h) h.

Lemma run_history : history run_hist.
Proof.
  split; intros n; unfold run_hist.
  - destruct (Z.ltb_spec 0 n); [|done]. destruct (Z.to_nat n) as [|k] eqn:E; [lia|]. unfold hhe_seq. cbn. lia.
  - destruct (Z.ltb_spec 0 n); [|done]. by destruct (Z.to_nat n) as [|k] eqn:E; [lia|].
  - intros Hn. destruct (Z.ltb_spec 0 n), (Z.ltb_spec 0 (n + 1)); try lia. replace (Z.to_nat (n + 1)) with (S (Z.to_nat n)) by lia.
    destruct (Z.to_nat n) as [|k] eqn:E; [lia|]. done.
  - destruct (Z.ltb_spec 0 n); [|done]. by destruct (Z.to_nat n).
Qed.

Definition run_dir (c : Z) : option HistoryFile :=
  if bool_decide (c ∈ [7; 15; 23]) then Some (honest_file run_hist c) else None.
Definition run_work : VerifyWork := mkVerifyWork run_dir (mkLedgerRange 3 20) (2, hhe_hash (run_hist 2)) (20, Some (hhe_hash (run_hist 20))).

(** ** Verification *)

Lemma run_agreed : agreed run_hist run_work.
Proof. split; [|split; [|split]]; try done. Qed.
Lemma run_files c :
  firstCheckpoint run_work <= c <= checkpointContainingLedger 20 -> (c + 1) mod getCheckpointFrequency = 0 ->
  run_dir c = Some (honest_file run_hist c).
Proof.
  change (firstCheckpoint run_work) with 7. change (checkpointContainingLedger 20) with 23. change getCheckpointFrequency with 8.
  intros H1 H2. unfold run_dir. rewrite bool_decide_eq_true_2; [done|]. rewrite !elem_of_cons.
  Z.to_euclidean_division_equations; lia.
Qed.
Lemma run_dir_inv c f : run_dir c = Some f -> c ∈ [7; 15; 23] /\ f = honest_file run_hist c.
Proof. unfold run_dir. case_bool_decide; [|done]. by intros [= <-]. Qed.
Lemma run_typed : typed_files run_work.
Proof.
  intros c f (Hc & ->)%run_dir_inv. apply Forall_forall. intros e He. cbn in He. apply list_elem_of_fmap in He as (n & -> & Hn).
  rewrite (hi_seq _ run_history). apply elem_of_seqZ in Hn. unfold file_start in Hn. rewrite !elem_of_cons, elem_of_nil in Hc.
  unfold is_u32, UINT32_MAX. lia.
Qed.
Lemma honest_history_verifies_witness :
  exists st, verifyLedgerChain run_work = Ok (WORK_SUCCESS, st) /\
    vs_verifiedLedgerRangeStart st = run_hist (Z.min (firstCheckpoint run_work) 20).
Proof. apply (honest_history_verifies run_hist run_work); [apply run_history|apply run_agreed|done|done|apply run_files]. Defined.

Definition run_verified : VerifyState :=
  match verifyLedgerChain run_work with Ok (_, st) => st | Throw _ => verify_onReset run_work end.
Lemma run_verifies : verifyLedgerChain run_work = Ok (WORK_SUCCESS, run_verified).
Proof. by vm_compute. Qed.

Lemma verified_chain_is_linked_witness :
  let chain := parts run_work (firstCheckpoint run_work) (rounds run_work) in
  length chain = 20%nat /\ exists e, last chain = Some e /\ hhe_seq e = 20.
Proof.
  split; [by vm_compute|].
  destruct (verified_chain_is_linked run_work run_verified) as (_ & _ & _ & _ & e & H1 & H2);
    [done|done|done|apply run_typed|apply run_verifies|]. by exists e.
Defined.

(** the verification takes an archive whose last file begins again with ledger 1:
    ledger 20 of one file is then followed by ledger 1 of the next *)
Definition cut_dir (c : Z) : option HistoryFile :=
  if c =? 7 then Some (mkHistoryFile (map run_hist (seqZ 1 7)) false)
  else if c =? 15 then Some (mkHistoryFile (map run_hist (seqZ 8 13)) false)
  else if c =? 23 then Some (mkHistoryFile (map run_hist (seqZ 1 20)) false) else None.
Definition cut_work : VerifyWork := mkVerifyWork cut_dir (mkLedgerRange 3 20) (2, hhe_hash (run_hist 2)) (20, Some (hhe_hash (run_hist 20))).
Example cut_verifies :
  (exists st, verifyLedgerChain cut_work = Ok (WORK_SUCCESS, st)) /\
  map hhe_seq (parts cut_work (firstCheckpoint cut_work) (rounds cut_work)) = seqZ 1 20 ++ seqZ 1 20.
Proof. split; [eexists|]; by vm_compute. Qed.

(** an archive whose first file begins later is verified as well; what is missing
    is found out only when the ledgers are replayed *)
Definition short_dir (c : Z) : option HistoryFile :=
  if c =? 7 then Some (mkHistoryFile (map run_hist (seqZ 5 3)) false) else run_dir c.
Definition short_work : VerifyWork := mkVerifyWork short_dir (mkLedgerRange 3 20) (2, hhe_hash (run_hist 2)) (20, Some (hhe_hash (run_hist 20))).
Example short_verifies : exists st, verifyLedgerChain short_work = Ok (WORK_SUCCESS, st).
Proof. eexists. vm_compute. reflexivity. Qed.

(** a later file that begins late makes an assertion fail, though it comes from the archive *)
Definition late_dir (c : Z) : option HistoryFile :=
  if c =? 15 then Some (mkHistoryFile (map run_hist (seqZ 10 6)) false) else run_dir c.
Example late_aborts :
  verifyLedgerChain (mkVerifyWork late_dir (mkLedgerRange 3 20) (2, hhe_hash (run_hist 2)) (20, Some (hhe_hash (run_hist 20)))) =
  Throw AssertFailed.
Proof. by vm_compute. Qed.

Lemma trusted_hash_fixes_history_witness :
  let l1 := parts short_work (firstCheckpoint short_work) (rounds short_work) in
  let l2 := parts run_work (firstCheckpoint run_work) (rounds run_work) in
  collision l1 l2 \/ forall e1 e2, e1 ∈ l1 -> e2 ∈ l2 -> hhe_seq e1 = hhe_seq e2 -> hhe_header e1 = hhe_header e2.
Proof.
  assert (Ht : typed_files short_work).
  { intros c f Hc. cbn in Hc. unfold short_dir in Hc. destruct (c =? 7); [|exact (run_typed c f Hc)].
    injection Hc as <-. apply (bool_decide_unpack _). by vm_compute. }
  assert (Hv : exists st, verifyLedgerChain short_work = Ok (WORK_SUCCESS, st)) by (eexists; vm_compute; reflexivity).
  destruct Hv as [st Hv].
  apply (trusted_hash_fixes_history short_work run_work st run_verified (hhe_hash (run_hist 20)));
    [done|done|done|done|done|exact Ht|apply run_typed|exact Hv|apply run_verifies].
Defined.

(** ** The range and the stages *)

Definition run_configuration : CatchupConfiguration := mkCatchupConfiguration 4 20 (Some (hhe_hash (run_hist 20))).

Lemma catchup_range_connects_witness :
  exists first buckets cr, makeCatchupRange 2 run_configuration = Ok (mkLedgerRange first 20, buckets) /\
    CheckpointRange_new (mkLedgerRange first 20) = Ok cr /\ first <= 17.
Proof.
  destruct (catchup_range_connects 2 run_configuration) as (first & b & cr & H1 & H2 & _ & _ & _ & _ & H3);
    [done|done|done|]. exists first, b, cr. split; [exact H1|]. split; [exact H2|exact H3].
Defined.
(** with four ledgers wanted, the catch-up starts with the buckets of checkpoint 15 *)
Example run_range : makeCatchupRange 2 run_configuration = Ok (mkLedgerRange 15 20, true).
Proof. by vm_compute. Qed.

Definition run_env : CatchupEnv := mkCatchupEnv run_configuration (2, hhe_hash (run_hist 2)) (mkArchiveState 23 5).
Definition run_results : ChildResults := mkChildResults (run_hist 15) (mkArchiveState 15 0) (run_hist 20).

Lemma catchup_stages_in_order_witness :
  exists range buckets checkpoints, makeCatchupRange 2 run_configuration = Ok (range, buckets) /\
    catchup_run 8 run_env run_results 2 (snd (catchup_onReset run_configuration)) =
      Ok (stages run_env run_results range checkpoints (Some (hhe_hash (run_hist 20))) buckets).
Proof.
  destruct (catchup_stages_in_order run_env run_results 2) as (range & b & cr & H1 & H2 & H3); [done|done|done|done|].
  exists range, b, cr. split; [exact H1|]. apply H3. intros _.
  assert (E : makeCatchupRange 2 run_configuration = Ok (mkLedgerRange 15 20, true)) by by vm_compute.
  change (makeCatchupRange 2 run_configuration = Ok (range, b)) in H1. rewrite E in H1. injection H1 as <- <-.
  assert (E2 : CheckpointRange_new (mkLedgerRange 15 20) = Ok (mkCheckpointRange 15 23 8)) by by vm_compute.
  rewrite E2 in H2. injection H2 as <-. clear. cbv zeta.
  split; [vm_compute; reflexivity|]. split; [vm_compute; reflexivity|]. apply Z.leb_le. vm_compute. reflexivity.
Defined.

(** ** The replay *)

Definition no_transactions (c : Z) : option TransactionsFile :=
  if bool_decide (c ∈ [7; 15; 23]) then Some (mkTransactionsFile [] false) else None.
Definition run_replay_work : ReplayWork := mkReplayWork run_dir no_transactions (mkLedgerRange 3 20).
Definition run_replayed : ReplayState LedgerHeaderHistoryEntry :=
  match replay run_replay_work (run_hist 2) with
  | Ok (_, st) => st
  | Throw _ => mkReplayState (run_hist 2) 0 (mkHistoryFile [] false) (mkTransactionsFile [] false) emptyTHE emptyHHE
  end.

Lemma run_no_files c : checkpointContainingLedger 20 < c -> run_dir c = None.
Proof.
  change (checkpointContainingLedger 20) with 23. intros H. unfold run_dir. rewrite bool_decide_eq_false_2; [done|].
  rewrite !elem_of_cons, elem_of_nil. lia.
Qed.

Lemma replay_reaches_trusted_ledger_witness :
  hhe_seq (lastClosedLedger (rs_ledger run_replayed)) = lr_last (vw_range run_work) /\
  hhe_hash (lastClosedLedger (rs_ledger run_replayed)) = hhe_hash (run_hist 20).
Proof.
  destruct (replay_reaches_trusted_ledger run_work run_replay_work (run_hist 2) run_verified run_replayed (hhe_hash (run_hist 20)))
    as (_ & H1 & H2 & _); [done|done|done|done|done|apply run_no_files|done|apply run_verifies|by vm_compute|]. exact (conj H1 H2).
Defined.

Lemma replay_ends_witness : replay run_replay_work (run_hist 2) <> Throw OutOfFuel.
Proof.
  apply (replay_ends run_replay_work (run_hist 2)); [done|done|apply run_no_files|].
  intros d x. cbn. unfold toy_close. by case_match.
Defined.

(** ** The state machine *)

(** values of the network one after the other, and ledgers that the catch-up replays *)
Fixpoint feed (l : list LedgerCloseData) (m : Manager LedgerHeaderHistoryEntry) : res (Manager LedgerHeaderHistoryEntry) :=
  match l with [] => Ok m | d :: l => m ← valueExternalized 4 d m; feed l m end.
Fixpoint replays (l : list LedgerCloseData) (m : Manager LedgerHeaderHistoryEntry) : res (Manager LedgerHeaderHistoryEntry) :=
  match l with [] => Ok m | d :: l => x ← closeNext d (mg_ledger m); replays l (set_ledger x m) end.

Lemma feed_steps manual l m m' : Forall (fun d => is_u32 (lcd_ledgerSeq d)) l -> feed l m = Ok m' -> rtc (lm_step 4 manual) m m'.
Proof.
  intros Hl. revert m. induction Hl as [|d l Hd _ IH]; intros m H; cbn in H; [injection H as <-; apply rtc_refl|].
  apply bind_ok_inv in H as (m1 & H1 & H). eapply rtc_l; [by eapply step_value|]. by apply IH.
Qed.
Lemma replays_steps manual cfg l m m' : mg_catchupWork m = Some cfg -> replays l m = Ok m' -> rtc (lm_step 4 manual) m m'.
Proof.
  revert m. induction l as [|d l IH]; intros m Hw H; cbn in H; [injection H as <-; apply rtc_refl|].
  apply bind_ok_inv in H as (x & H1 & H). eapply rtc_l; [by eapply step_replay|]. by apply (IH (set_ledger x m)).
Qed.

Definition close_at (n : Z) : LedgerCloseData :=
  mkLedgerCloseData n (empty_set (hhe_hash (run_hist (n - 1)))) (value_on (run_hist (n - 1))).
Definition ok_or {A} (d : A) (r : res A) : A := match r with Ok a => a | Throw _ => d end.
(** the node closes ledger 3, misses the next ones, and hears of the ledgers from 10 to 17 *)
Definition run_start : Manager LedgerHeaderHistoryEntry := newManager (run_hist 2).
Definition run_behind : Manager LedgerHeaderHistoryEntry := ok_or run_start (feed (close_at 3 :: map close_at (seqZ 10 8)) run_start).
Definition run_caught : Manager LedgerHeaderHistoryEntry := ok_or run_behind (replays (map close_at (seqZ 4 6)) run_behind).

Example run_behind_state :
  mg_catchupState run_behind = CS_APPLYING_HISTORY /\ map lcd_ledgerSeq (mg_syncingLedgers run_behind) = seqZ 10 8 /\
  hhe_seq (mg_lcl run_caught) = 9.
Proof. by vm_compute. Qed.

Lemma run_behind_reachable : lm_reachable 4 false (run_hist 2) run_behind.
Proof.
  unfold lm_reachable. eapply (feed_steps false (close_at 3 :: map close_at (seqZ 10 8))).
  - apply (bool_decide_unpack _). vm_compute. reflexivity.
  - vm_compute. reflexivity.
Qed.
Definition run_target : CatchupConfiguration := mkCatchupConfiguration 4 9 (Some (hhe_hash (run_hist 9))).
Lemma run_behind_work : mg_catchupWork run_behind = Some run_target.
Proof. vm_compute. reflexivity. Qed.
Lemma run_caught_reachable : lm_reachable 4 false (run_hist 2) run_caught.
Proof.
  unfold lm_reachable. eapply (transitivity (R := rtc _)); [apply run_behind_reachable|].
  apply (replays_steps false run_target (map close_at (seqZ 4 6))); [apply run_behind_work|]. vm_compute. reflexivity.
Qed.
Lemma run_caught_up : caught_up run_target run_caught.
Proof. split; [right|]; by vm_compute. Qed.
Lemma run_typed_start : is_u32 (hhe_seq (lastClosedLedger (run_hist 2))).
Proof. by vm_compute. Qed.

Lemma catchup_events_are_handled_witness :
  mg_catchupWork run_caught = Some run_target /\ exists m', historyCaughtup false FINISHED (run_hist 9) run_caught = Ok m'.
Proof.
  assert (Hw : mg_catchupWork run_caught = Some run_target) by (vm_compute; reflexivity). split; [exact Hw|].
  destruct (catchup_events_are_handled 4 false (run_hist 2) run_caught run_typed_start run_caught_reachable) as (_ & _ & H & _).
  apply (H run_target Hw), run_caught_up.
Defined.

Lemma closed_ledgers_form_a_chain_witness :
  exists m', lm_step 4 false run_start m' /\ hhe_prev (mg_lcl m') = hhe_hash (mg_lcl run_start).
Proof.
  assert (Hs : lm_step 4 false run_start (ok_or run_start (valueExternalized 4 (close_at 3) run_start))).
  { apply (step_value 4 false (close_at 3)); [by vm_compute|]. vm_compute. reflexivity. }
  eexists. split; [exact Hs|].
  destruct (closed_ledgers_form_a_chain 4 false (run_hist 2) run_start _ run_typed_start (rtc_refl _ _) Hs) as [H | [(_ & H & _) | [H _]]].
  - exfalso. vm_compute in H. discriminate H.
  - exact H.
  - exfalso. vm_compute in H. discriminate H.
Defined.

Lemma catchup_completes_witness :
  exists m1 m2, historyCaughtup false FINISHED (run_hist 9) run_caught = Ok m1 /\ runPosted 8 m1 = Ok m2 /\
    mg_catchupState m2 = CS_WAITING_FOR_CLOSING_LEDGER /\
    exists m3, valueExternalized 4 (close_at 18) m2 = Ok m3 /\ mg_state m3 = LM_SYNCED_STATE.
Proof.
  assert (Hw : mg_catchupWork run_caught = Some run_target) by (vm_compute; reflexivity).
  set (x := ok_or (run_hist 2) (closeAll (mg_syncingLedgers run_caught) (mg_ledger run_caught))).
  assert (Hx : closeAll (mg_syncingLedgers run_caught) (mg_ledger run_caught) = Ok x) by (vm_compute; reflexivity).
  destruct (catchup_completes 4 false (run_hist 2) run_caught run_target (run_hist 9) x run_typed_start run_caught_reachable Hw run_caught_up Hx
    ltac:(discriminate))
    as (m1 & m2 & H1 & H2 & H3 & H4 & H5 & H6 & H7).
  exists m1, m2. split; [exact H1|]. split; [exact H2|]. split; [exact H6|].
  assert (Hs : lcl_seq m2 = 17) by (unfold lcl_seq, mg_lcl; rewrite H3; vm_compute; reflexivity).
  destruct (H7 (close_at 18) (run_hist 18)) as (m3 & E3 & _ & S3 & _).
  - rewrite Hs. vm_compute. reflexivity.
  - vm_compute. reflexivity.
  - exists m3. split; [exact E3|exact S3].
Defined.

(** An operator asks a node that is synced at ledger 3 to catch up to ledger 9; when
    that has been done, the ledgers that the network has externalized meanwhile
    begin with 12, and the assertion on the buffered ledgers fails. *)
Definition run_manual : CatchupConfiguration := mkCatchupConfiguration 4 9 None.
Definition run_asked : Manager LedgerHeaderHistoryEntry :=
  ok_or run_start (m ← feed [close_at 3] run_start; command_catchup 9 4 m).
Definition run_heard : Manager LedgerHeaderHistoryEntry :=
  ok_or run_start (m ← feed [close_at 12; close_at 13] run_asked; replays (map close_at (seqZ 4 6)) m).
Definition run_gap : Manager LedgerHeaderHistoryEntry :=
  ok_or run_start (historyCaughtup false FINISHED (run_hist 9) run_heard).

Lemma run_gap_reachable : lm_reachable 4 true (run_hist 2) run_gap.
Proof.
  assert (H1 : rtc (lm_step 4 true) run_start run_asked).
  { eapply (transitivity (R := rtc _)).
    - apply (feed_steps true [close_at 3]); [apply (bool_decide_unpack _); by vm_compute|by vm_compute].
    - apply rtc_once. apply (step_command 4 true 9 4); [done|by vm_compute]. }
  assert (H2 : rtc (lm_step 4 true) run_asked run_heard).
  { eapply (transitivity (R := rtc _)).
    - apply (feed_steps true [close_at 12; close_at 13]); [apply (bool_decide_unpack _); by vm_compute|by vm_compute].
    - apply (replays_steps true run_manual (map close_at (seqZ 4 6))); by vm_compute. }
  assert (H3 : lm_step 4 true run_heard run_gap).
  { apply (step_finished 4 true run_manual (run_hist 9)); [by vm_compute| |by vm_compute]. split; [right|]; by vm_compute. }
  unfold lm_reachable. eapply (transitivity (R := rtc _)); [exact H1|]. eapply (transitivity (R := rtc _)); [exact H2|]. by apply rtc_once.
Qed.
Example manual_catchup_can_abort :
  lm_reachable 4 true (run_hist 2) run_gap /\ mg_posted run_gap = 1%nat /\
  applyBuffered_posted (set_posted 0 run_gap) = Throw AssertFailed.
Proof. split; [apply run_gap_reachable|]. split; by vm_compute. Qed.

(** ** The ledger of LedgerCloseRuns as the ledger of a node *)

Definition run_bucketsHash (before after : LState) : Hash := 42.
Definition run_node : NodeLedger := mkNodeLedger close_state 77 run_manager.

Lemma run_node_closes : exists n', node_closeLedger freshFrames run_bucketsHash close_data run_node = Ok n'.
Proof.
  unfold node_closeLedger. cbn [run_node nl_lclHash nl_invariants nl_ledger]. 
  rewrite close_returns. cbn [mbind res_bind]. unfold node_ledgerClosed.
  rewrite assert_true by (vm_compute; reflexivity). eexists. reflexivity.
Qed.

Lemma closed_header_follows_witness :
  exists n', node_closeLedger freshFrames run_bucketsHash close_data run_node = Ok n' /\
    previousLedgerHash (st_header (nl_ledger n')) = 77.
Proof.
  destruct run_node_closes as [n' H]. exists n'. split; [exact H|].
  destruct (closed_header_follows freshFrames run_bucketsHash close_data run_node n' H) as (_ & _ & E & _). exact E.
Defined.
